(* ===== verification/_CoqProject ===== *)
-Q . S2P
Prelude.v
Bytes.v
Algebra.v
JsString.v
Base64.v
Hex.v
GF256.v
Primes.v
Modular.v
VssField.v
Secrets.v
SecretsProofs.v
Pss.v
PssProofs.v
Pss127Proofs.v
Fhe.v
FheService.v
WebCrypto.v
Vdf.v
VdfProofs.v
StreamCrypto.v
Sha256.v
Sha256Proofs.v
StreamProofs.v
JsonText.v
Ecies.v
EciesProofs.v
CryptoWorker.v
RelayQueue.v
RelayNotifier.v
Cursor.v
RelayListener.v
Relayer.v
TtlCache.v
SorobanIndexer.v
EventWatcher.v
IpfsGateway.v
KeyRotation.v
JsNumber.v
KeyInbox.v
KeyInboxProofs.v
EnvelopeGC.v
RelayConfig.v
EventGateway.v
StellarLedger.v
StellarLedgerProofs.v
StellarIdentity.v
StellarSdk.v
IdentityRegistry.v
Helpers.v
JsonParse.v
Passphrase.v
OpaqueKeyring.v
WebAuthn.v
ClientKeyring.v
ClientKeyringProofs.v
MnemonicKeyring.v
OpaqueServer.v
OpaqueServerProofs.v
OpaqueComposition.v
SessionLock.v
KeyStore.v
EvmClient.v
ProxyGuard.v
PushNotification.v
IpfsUpload.v
StorageProvider.v
TtlRelayer.v
ZkProof.v
UserOp.v
EventLogs.v
EvmReads.v
ContractProxy.v
CrossChain.v
Bls.v
Erasure.v
ErasureMatrix.v
ErasureCode.v
ErasureVerify.v
ErasureNetwork.v
