(* ===== verification/Prelude.v ===== *)
(** * SpooVault: a verification development

    SpooVault (ChainGuard) keeps encrypted documents on IPFS, splits their keys among
    guardians and releases them through contracts on an EVM chain and on Soroban.  This
    library models the TypeScript code that carries its logic, under src/, relayer/ and
    scripts/, and proves what makes it correct.  Where the code does less than it means to, a
    theorem states what it does.

    ** Conventions

    A function that may throw gives a [res]; an argument the code mutates is returned; a
    random draw, the time, and the answer of a network are arguments.  Numbers that the
    code keeps as safe integers or BigInt are [Z] or [nat]; the 32-bit operators of
    JavaScript are in Sha256.  Strings are byte strings: text is ASCII where the code
    compares or cuts it.  WebCrypto, the key encapsulation, tweetnacl and the URL class
    are type-class or function parameters; their laws are classes of their own
    ([WebCryptoLaws], [PkCryptoLaws], [BoxLaws] and the like), each with a concrete instance that
    witnesses use.  Asynchronous code is a step relation or a fold over events whose
    order is free; a step is the code between two awaits.

    ** Parts, and the files that hold them

    Foundations: Prelude (results, loops, arrays), Bytes, Algebra (fields, interpolation,
    linear systems), JsString, JsNumber, Base64, Hex, JsonText and JsonParse (the parts of
    the standard library the code uses), Cursor (logs read page by page), Modular, Primes
    (Pocklington certificates of the moduli), WebCrypto.

    - Erasure coding, src/features/documents/services/erasureCoding.service.ts: GF256 and
      Erasure (tables, matrices, [encode], [decode], [verifyShards], distribution over
      pinning nodes); ErasureMatrix, ErasureCode, ErasureVerify, ErasureNetwork.  Any M of
      the M + P shards decode; verification finds exactly the corrupted shards; the
      manifest does not depend on the order in which uploads settle.
    - Secret sharing, src/core/crypto/secrets.service.ts and proactiveSecretSharing.ts:
      Secrets, Pss; VssField, SecretsProofs, PssProofs, Pss127Proofs.  Accepted shares
      reconstruct the secret that was split, through any number of refreshes; fewer shares
      than the threshold fit every secret.
    - Homomorphic aggregation, fheEngine.ts and fhe.service.ts: Fhe, with the meaning of a
      ciphertext; FheService, the service and its payloads.
    - Delay functions, vdf.ts: Vdf; VdfProofs.  Both provers are complete; a
      timelock opens to its document; the search for primes ends.  The module Engine of
      VdfProofs is vdfTimelock.service.ts, whose ciphertexts lack their tag.
    - Access proofs, zkProof.service.ts: ZkProof.  The arguments for Soroban keep the proof;
      nullifiers are taken modulo a number that is not the curve's prime.
    - Streaming encryption, streamingCrypto.service.ts: StreamCrypto; StreamProofs.
      Files come back through the transforms whatever the chunks of the
      upload and of the download, unless one of the latter ends inside a frame's length; streams
      cut short at any byte and reordered streams are refused.
    - SHA-256, in the same source: Sha256 (with the 32-bit operators, and
      FIPS 180-4 itself); Sha256Proofs shows that the incremental hasher refines it.
    - Envelopes, crypto.ts and pqcCrypto.ts: Ecies; EciesProofs.
    - Worker pool, cryptoWorker.service.ts and workers/crypto.worker.ts: CryptoWorker.
      The pool answers every request once with the handler that was meant, and none with
      the script as it is written.
    - Key rotation, keyRotation.service.ts: KeyRotation.  It uses the envelopes and stands for
      what the chains and the keyring hold afterwards.
    - Guardian relayer, relayer/: RelayQueue (queue.ts), RelayNotifier (notifier.ts,
      crypto.ts, types.ts and [normalizeContacts]), RelayListener (listeners.ts), Relayer
      (main.ts and the cache of guardianResolver.ts), RelayConfig (config.ts).  RelayQueue
      holds the invariant of the queue, the bound on dispatches and its draining;
      RelayNotifier the theorems on contacts, boxes and deliveries, RelayListener that events
      of both chains are emitted once and in order; Relayer that done jobs were
      delivered, and that an event whose contacts cannot be resolved is
      lost; RelayConfig that every interval and limit is a positive number.
    - Read-view cache, shared/utils/ttlCache.ts: TtlCache.
    - Soroban indexer, sorobanEventIndexer.service.ts: SorobanIndexer.
      Events are published in order and once, until a page without known topics stalls it;
      a reload leaves one event for each topic.  The older watcher,
      sorobanEventWatcher.service.ts: EventWatcher, which hands out a segment of the log,
      twice when it is restarted with a request in the air.  The server at the other end of
      the socket, scripts/soroban-event-gateway.mjs: EventGateway, which as it is shipped
      asks about each contract once.
    - IPFS gateways, ipfsGateway.ts: IpfsGateway.  The first success
      wins the race; circuits open and close; pools and content ids are normal.
    - Key inbox, keyInbox.service.ts and keyEnvelopeGC.service.ts: KeyInbox, EnvelopeGC;
      KeyInboxProofs.  A sent envelope is found again; a
      collection removes what is expired or answered and nothing else.
    - Keyring, clientKeyring.service.ts with opaqueKeyring.service.ts, webauthn.service.ts
      and the passphrases of secrets.service.ts: Passphrase, OpaqueKeyring, WebAuthn,
      ClientKeyring; ClientKeyringProofs.  A saved key pair opens again with its PIN;
      backups come back; a stale passkey opens the key of the pair before.  Its backup as
      words or shares, mnemonicKeyring.service.ts: MnemonicKeyring; both give the pair back
      however they are typed.
    - Verification server, scripts/lib/opaqueKeyringServer.mjs and
      scripts/opaque-keyring-server.mjs: OpaqueServer; OpaqueServerProofs.  However requests
      interleave at their awaits, a credential that a request finds changes only with a fresh
      token; attempts are bounded, and after a failed write nothing is written.  OpaqueComposition runs the keyring against the server: a saved pair is
      unlocked through it.
    - Signed proxies, scripts/lib/ipfsProxyGuard.mjs: ProxyGuard (a signature lets one request
      through); pushNotification.service.ts with scripts/push-notification-proxy.mjs:
      PushNotification (a change of the emergency mode arrives once).
    - Uploads, ipfs.service.ts: IpfsUpload, the multipart body as a state machine under the
      stream's controller.  Archives, storageProvider.service.ts: StorageProvider, over an
      interface of archives; a backup recovers the document.
    - Extension of lifetimes, scripts/soroban-ttl-relayer.mjs: TtlRelayer.  A cycle ends
      when its contract id is an address and an attempt is allowed, and on a server that
      reads from a ledger its counts are exact; batches of more than one entry are refused.
    - Session lock, sessionLock.service.ts: SessionLock, over the keyring, with
      timers of the platform that fire late and callbacks that throw.  Storage of the
      page, keyStore.service.ts: KeyStore, a map whatever the place of each key.
    - Stellar, stellar.service.ts: StellarLedger (vaults, documents, requests, on the
      contract or in the storage of the browser), StellarIdentity (dual-signed bindings),
      StellarSdk (how a contract is called); StellarLedgerProofs holds the invariant of
      every reachable ledger and the quorum of approved requests, StellarIdentity which
      bindings are recorded where no registry contract is configured, and what they are worth.  Address book, identity.service.ts: IdentityRegistry.
    - EVM, contract.service.ts: EvmClient (providers, receipts, transactions, views),
      EventLogs (the incremental cache of the logs) and EvmReads (lists made of logs and
      views), over any network; EventLogs shows that a query returns all the logs of
      the chain from a cache that is a prefix of it, EvmReads what the lists contain.
      ContractProxy is the service the pages use: the choice between the EVM client and the
      Stellar ledger, and the queue of writes, with the theorems that a write stays
      on its network, that on the ledgers the service makes the access check comes to
      guardianship, and that a lost receipt makes a write happen twice.
    - Cross-chain messages, crossChainRelayer.service.ts and crossChainHeartbeat.service.ts:
      CrossChain.  Accepted messages are signed and fresh; what the signature leaves out can
      be changed.
    - Threshold approvals, blsCrypto.ts and blsKeyring.service.ts: Bls, over a class of
      pairing curves.  Honest approvals verify, and so do forged ones.
    - Account abstraction, userOp.service.ts: UserOp, over the encodings and hashes of ethers.
      The hash that is signed binds every field, the entry point and the chain.
    - Helpers, helpers.ts, explorer.ts and emergencyUnlockStatus.ts: Helpers.  Vault names keep
      the vaults of two chains apart, and so do the counts under them.

    The files whose names end in Proofs hold theorems over the model
    named before; a theorem whose comment starts with C and a number is a property of the
    manifest.  A lemma whose name ends in _witness applies a theorem to a concrete input.

    ** Fuel

    Loops that are not structural have fuel that is proved enough: powers take the bits of
    the exponent, the extended Euclid loop the bits of the modulus, padding 64 rounds, the
    search for a prime the distance to the prime that its theorem is given, the absorption
    of a chunk its length, the fetching of logs the blocks of its range, the polling of a
    transaction its thirty attempts, a retry its configured attempts.  Queues, races and
    polls are runs of any length.

    ** Not modelled

    React components, contexts and the service worker; timers, sockets, HTTP bodies and
    IndexedDB beyond the records it keeps; ethers, the Stellar SDK, the OPAQUE library and
    authenticators, which are arguments with laws; services/offline, which the repository
    lacks; snarkjs, the BIP-39 and SLIP-39 packages and Push Protocol, which are arguments
    too; the security score (securityHealth.ts), which is floating point; scripts that deploy,
    generate keys or relay single transactions; the Solidity, Rust and Circom sources.  Side
    channels, memory use outside the streaming statistics, and probabilities of guessing are
    outside the model. *)

(** * Prelude: results, loops, arrays and automation *)

From Stdlib Require Import Ascii String ZArith List Lia Bool Permutation Sorting.Sorted.
Import ListNotations.

Open Scope bool_scope.
Open Scope list_scope.

(** ** Results of code that may throw

    A TypeScript function that may throw is a function into [res A]: [Ok v]
    when it returns [v], [Throw m] when it throws an [Error] with message [m]. *)
Inductive res (A : Type) : Type :=
| Ok (a : A)
| Throw (msg : string).

Arguments Ok {A} a.
Arguments Throw {A} msg.

Definition res_bind {A B : Type} (m : res A) (k : A -> res B) : res B :=
  match m with
  | Ok a => k a
  | Throw e => Throw e
  end.

Definition res_map {A B : Type} (f : A -> B) (m : res A) : res B :=
  res_bind m (fun a => Ok (f a)).

(** [is_ok m]: the call returned normally. *)
Definition is_ok {A : Type} (m : res A) : bool :=
  match m with Ok _ => true | Throw _ => false end.

(** [try { return f() } catch { return d }]. *)
Definition res_catch {A : Type} (m : res A) (d : A) : A :=
  match m with Ok a => a | Throw _ => d end.

Declare Scope res_scope.
Delimit Scope res_scope with res.
Notation "'let!' x ':=' m 'in' k" := (res_bind m (fun x => k))
  (at level 10, x name, m at level 100, k at level 200)
  : res_scope.
Notation "'let!' ' p ':=' m 'in' k" := (res_bind m (fun x => match x with p => k end))
  (at level 10, p pattern, m at level 100, k at level 200)
  : res_scope.
Notation "'throw_if' b 'with' e ';;' k" := (if b then Throw e else k)
  (at level 10, b at level 100, e at level 99, k at level 200)
  : res_scope.
#[global] Open Scope res_scope.

(** [xs.map(f)] when [f] may throw: stops at the first error. *)
Fixpoint res_mapM {A B : Type} (f : A -> res B) (l : list A) : res (list B) :=
  match l with
  | [] => Ok []
  | x :: l' => let! y := f x in let! ys := res_mapM f l' in Ok (y :: ys)
  end.

(** [for (const x of xs) s = f(s, x)] when [f] may throw. *)
Fixpoint res_foldl {A S : Type} (f : S -> A -> res S) (l : list A) (s : S) : res S :=
  match l with
  | [] => Ok s
  | x :: l' => let! s' := f s x in res_foldl f l' s'
  end.

Lemma res_bind_ok {A B : Type} (m : res A) (k : A -> res B) (b : B) :
  res_bind m k = Ok b <-> exists a, m = Ok a /\ k a = Ok b.
Proof.
  destruct m as [a|e]; simpl; split.
  - intros H. now exists a.
  - now intros (a' & [= <-] & H).
  - discriminate.
  - now intros (a' & [=] & _).
Qed.

Section ResLemmas.
Context {A B S : Type}.

Lemma res_mapM_ok_map (f : A -> res B) (g : A -> B) (l : list A) :
  (forall x, In x l -> f x = Ok (g x)) -> res_mapM f l = Ok (map g l).
Proof.
  induction l as [|x l IH]; intros H; simpl; [reflexivity|].
  rewrite H by now left. simpl. rewrite IH; [reflexivity|].
  intros y Hy. apply H. now right.
Qed.

Lemma res_mapM_length (f : A -> res B) (l : list A) (l' : list B) :
  res_mapM f l = Ok l' -> length l' = length l.
Proof.
  revert l'. induction l as [|x l IH]; simpl; intros l' H.
  - now injection H as <-.
  - apply res_bind_ok in H as (y & _ & H).
    apply res_bind_ok in H as (ys & Hys & [= <-]). simpl. now rewrite (IH ys).
Qed.

Lemma res_mapM_nth (f : A -> res B) (l : list A) (l' : list B) (i : nat) (x : A) :
  res_mapM f l = Ok l' -> nth_error l i = Some x ->
  exists y, f x = Ok y /\ nth_error l' i = Some y.
Proof.
  revert l' i. induction l as [|a l IH]; simpl; intros l' i H Hi.
  - now destruct i.
  - apply res_bind_ok in H as (y & Hy & H).
    apply res_bind_ok in H as (ys & Hys & [= <-]).
    destruct i as [|i]; simpl in *.
    + injection Hi as ->. now exists y.
    + now apply (IH ys i).
Qed.

Lemma res_foldl_ok (f : S -> A -> res S) (g : S -> A -> S) (l : list A) (s : S) :
  (forall s' x, In x l -> f s' x = Ok (g s' x)) ->
  res_foldl f l s = Ok (fold_left g l s).
Proof.
  revert s. induction l as [|x l IH]; intros s H; simpl; [reflexivity|].
  rewrite H by now left. simpl. apply IH. intros s' y Hy. apply H. now right.
Qed.

(** A loop whose body keeps an invariant and does not throw under it. *)
Lemma res_foldl_inv (P : S -> Prop) (f : S -> A -> res S) (l : list A) (s : S) :
  P s ->
  (forall s' x, In x l -> P s' -> exists s'', f s' x = Ok s'' /\ P s'') ->
  exists s', res_foldl f l s = Ok s' /\ P s'.
Proof.
  revert s. induction l as [|x l IH]; intros s Hs H; simpl; [now exists s|].
  destruct (H s x (or_introl eq_refl) Hs) as (s1 & -> & Hs1). simpl.
  apply IH; [assumption|]. intros s' y Hy. apply H. now right.
Qed.
End ResLemmas.

(** ** Counted loops

    [for (let i = 0; i < n; i++) s = f(i, s)]. *)
Definition for_n {S : Type} (n : nat) (f : nat -> S -> S) (s : S) : S :=
  fold_left (fun s i => f i s) (seq 0 n) s.

Section ForLemmas.
Context {S : Type}.

Lemma for_n_S (n : nat) (f : nat -> S -> S) (s : S) :
  for_n (Datatypes.S n) f s = f n (for_n n f s).
Proof. unfold for_n. now rewrite seq_S, fold_left_app. Qed.

(** Invariant rule for counted loops. *)
Lemma for_n_inv (P : nat -> S -> Prop) (n : nat) (f : nat -> S -> S) (s : S) :
  P 0 s ->
  (forall i s', i < n -> P i s' -> P (Datatypes.S i) (f i s')) ->
  P n (for_n n f s).
Proof.
  intros H0 Hstep.
  assert (H : forall k, k <= n -> P k (for_n k f s)).
  { induction k as [|k IH]; intros Hk; [exact H0|].
    rewrite for_n_S. apply Hstep; [lia|]. apply IH; lia. }
  now apply H.
Qed.

Lemma for_n_ext (n : nat) (f g : nat -> S -> S) (s : S) :
  (forall i s', i < n -> f i s' = g i s') -> for_n n f s = for_n n g s.
Proof.
  induction n as [|n IH]; intros H; [reflexivity|].
  rewrite !for_n_S, IH by (intros; apply H; lia). apply H; lia.
Qed.
End ForLemmas.

(** The invariant rule for a counted loop whose body may throw. *)
Lemma res_for_inv {S : Type} (P : nat -> S -> Prop) (n : nat) (f : S -> nat -> res S) (s : S) :
  P 0 s ->
  (forall i s', i < n -> P i s' -> exists s'', f s' i = Ok s'' /\ P (Datatypes.S i) s'') ->
  exists s', res_foldl f (seq 0 n) s = Ok s' /\ P n s'.
Proof.
  intros H0 Hstep.
  assert (H : forall m k s', k + m = n -> P k s' ->
            exists s'', res_foldl f (seq k m) s' = Ok s'' /\ P n s'').
  { induction m as [|m IH]; intros k s' Hk Hs'; simpl.
    - exists s'. rewrite Nat.add_0_r in Hk. now subst k.
    - destruct (Hstep k s') as (s1 & -> & Hs1); [lia|assumption|]. simpl.
      apply IH; [lia|assumption]. }
  now apply (H n 0).
Qed.

Lemma res_foldl_ext_seq {S : Type} (f g : S -> nat -> res S) (n : nat) (s : S) :
  (forall s' i, i < n -> f s' i = g s' i) -> res_foldl f (seq 0 n) s = res_foldl g (seq 0 n) s.
Proof.
  intros H. assert (Hin : forall i, In i (seq 0 n) -> i < n) by (intros i Hi; apply in_seq in Hi; lia).
  revert s. induction (seq 0 n) as [|i l IH]; intros s; simpl; [reflexivity|].
  rewrite H by (apply Hin; now left). destruct (g s i); simpl; [|reflexivity].
  apply IH. intros; apply Hin; now right.
Qed.

(** Fold over a homomorphic image of the state. *)
Lemma fold_left_map_state {A S T : Type} (h : S -> T) (f : S -> A -> S) (g : T -> A -> T)
    (l : list A) (s : S) :
  (forall s' x, In x l -> h (f s' x) = g (h s') x) ->
  h (fold_left f l s) = fold_left g l (h s).
Proof.
  revert s. induction l as [|x l IH]; intros s H; simpl; [reflexivity|].
  rewrite IH by (intros; apply H; now right). now rewrite H by now left.
Qed.

Lemma fold_left_ext {A S : Type} (f g : S -> A -> S) (l : list A) (s : S) :
  (forall s' x, In x l -> f s' x = g s' x) -> fold_left f l s = fold_left g l s.
Proof.
  revert s. induction l as [|x l IH]; intros s H; simpl; [reflexivity|].
  rewrite H by now left. apply IH. intros; apply H; now right.
Qed.

(** ** Arrays

    [upd l i v] is the in-place write [l[i] = v] of a typed array: a write
    outside the array is ignored. *)
Fixpoint upd {A : Type} (l : list A) (i : nat) (v : A) : list A :=
  match l, i with
  | [], _ => []
  | _ :: l', 0 => v :: l'
  | x :: l', S i' => x :: upd l' i' v
  end.

Section Upd.
Context {A : Type}.

Lemma upd_length (l : list A) (i : nat) (v : A) : length (upd l i v) = length l.
Proof. revert i. induction l as [|x l IH]; intros [|i]; simpl; auto. Qed.

Lemma nth_upd (l : list A) (i j : nat) (v d : A) :
  nth j (upd l i v) d = if (j =? i) && (i <? length l) then v else nth j l d.
Proof.
  revert i j. induction l as [|x l IH]; intros [|i] [|j]; simpl; try reflexivity.
  - now destruct (j =? i).
  - rewrite IH. now replace (S i <? S (length l)) with (i <? length l).
Qed.

Lemma nth_upd_eq (l : list A) (i : nat) (v d : A) :
  i < length l -> nth i (upd l i v) d = v.
Proof.
  intros H. rewrite nth_upd, Nat.eqb_refl.
  now rewrite (proj2 (Nat.ltb_lt _ _) H).
Qed.

Lemma nth_upd_ne (l : list A) (i j : nat) (v d : A) :
  i <> j -> nth j (upd l i v) d = nth j l d.
Proof.
  intros H. rewrite nth_upd. now destruct (Nat.eqb_spec j i); [subst|].
Qed.

Lemma Forall_upd (P : A -> Prop) (l : list A) (i : nat) (v : A) :
  P v -> Forall P l -> Forall P (upd l i v).
Proof.
  intros Hv H. revert i. induction H; intros [|i]; simpl; constructor; auto.
Qed.
End Upd.

(** Two lists of the same length with the same reads are equal. *)
Lemma nth_ext_eq {A : Type} (d : A) (l l' : list A) :
  length l = length l' -> (forall i, i < length l -> nth i l d = nth i l' d) -> l = l'.
Proof. intros. now apply (nth_ext l l' d d). Qed.

Lemma map_nth_seq {A : Type} (l : list A) (d : A) :
  map (fun i => nth i l d) (seq 0 (length l)) = l.
Proof.
  induction l as [|x l IH]; simpl; [reflexivity|]. f_equal.
  rewrite <- seq_shift, map_map. exact IH.
Qed.

Lemma NoDup_nth_ne {A : Type} (l : list A) (i j : nat) (d : A) :
  NoDup l -> i < length l -> j < length l -> i <> j -> nth i l d <> nth j l d.
Proof.
  intros Hnd Hi Hj Hne E. apply Hne. now apply (proj1 (NoDup_nth l d) Hnd).
Qed.

(** All elements of a list but the [i]-th, the [if (i === j) continue] of the
    interpolation loops. *)
Definition others {A : Type} (i : nat) (l : list A) : list A :=
  firstn i l ++ skipn (S i) l.

Section Others.
Context {A : Type}.

Lemma others_length (l : list A) (i : nat) :
  i < length l -> length (others i l) = length l - 1.
Proof.
  intros H. unfold others. rewrite length_app, length_firstn, length_skipn. lia.
Qed.

Lemma others_split (l : list A) (i : nat) (d : A) :
  i < length l -> l = firstn i l ++ nth i l d :: skipn (S i) l.
Proof.
  revert i. induction l as [|x l IH]; intros i H; simpl in H; [lia|].
  destruct i as [|i]; simpl; [reflexivity|]. f_equal. apply IH. lia.
Qed.

Lemma others_perm (l : list A) (i : nat) (d : A) :
  i < length l -> Permutation l (nth i l d :: others i l).
Proof.
  intros H. unfold others. rewrite (others_split l i d H) at 1.
  symmetry. apply Permutation_middle.
Qed.

Lemma others_NoDup (l : list A) (i : nat) (d : A) :
  i < length l -> NoDup l -> ~ In (nth i l d) (others i l) /\ NoDup (others i l).
Proof.
  intros Hi Hn. rewrite (others_perm l i d Hi) in Hn.
  now inversion Hn.
Qed.

Lemma others_In (l : list A) (i : nat) (d x : A) :
  i < length l -> In x l -> x <> nth i l d -> In x (others i l).
Proof.
  intros Hi Hx Hne. apply (Permutation_in _ (others_perm l i d Hi)) in Hx.
  destruct Hx as [Hx|Hx]; [now subst|assumption].
Qed.

Lemma others_incl (l : list A) (i : nat) (x : A) : In x (others i l) -> In x l.
Proof.
  unfold others. rewrite in_app_iff. rewrite <- (firstn_skipn i l) at 3.
  rewrite in_app_iff. intros [H|H]; [now left|right].
  rewrite <- (firstn_skipn 1 (skipn i l)), in_app_iff, skipn_skipn. now right.
Qed.

(** The loop [for j < n, if (i === j) continue; s = f(s, l[j])]. *)
Lemma fold_skip_others {S : Type} (f : S -> A -> S) (l : list A) (i : nat) (d : A) (s : S) :
  i < length l ->
  fold_left (fun s j => if i =? j then s else f s (nth j l d)) (seq 0 (length l)) s
  = fold_left f (others i l) s.
Proof.
  intros Hi. unfold others. rewrite fold_left_app.
  assert (Hseq : seq 0 (length l) = seq 0 i ++ i :: seq (Datatypes.S i) (length l - i - 1)).
  { replace (length l) with (i + (1 + (length l - i - 1))) at 1 by lia.
    now rewrite seq_app. }
  rewrite Hseq, fold_left_app. simpl. rewrite Nat.eqb_refl.
  assert (Hpart : forall k m s', k + m <= length l ->
            (i < k \/ k + m <= i) ->
            fold_left (fun s j => if i =? j then s else f s (nth j l d)) (seq k m) s'
            = fold_left f (firstn m (skipn k l)) s').
  { intros k m. revert k. induction m as [|m IH]; intros k s' Hk Hd; [reflexivity|].
    simpl seq. simpl fold_left.
    destruct (Nat.eqb_spec i k) as [E|E]; [lia|].
    rewrite IH by lia.
    assert (Hk' : skipn k l = nth k l d :: skipn (Datatypes.S k) l).
    { rewrite (others_split l k d) at 1 by lia.
      replace k with (length (firstn k l) + 0) at 1 by (rewrite length_firstn; lia).
      now rewrite skipn_app, Nat.add_0_r, skipn_all, Nat.sub_diag. }
    now rewrite Hk'. }
  rewrite (Hpart 0 i) by lia. rewrite skipn_O.
  rewrite (Hpart (Datatypes.S i)) by lia.
  now rewrite (firstn_all2 (skipn _ _)) by (rewrite length_skipn; lia).
Qed.
End Others.

(** ** Array.prototype.sort

    The engine's sort is stable, so with a comparator [key(a) - key(b)] it is
    the stable insertion sort by [key]. *)
Section SortBy.
Context {A : Type} (key : A -> Z).

Fixpoint insert_by (x : A) (l : list A) : list A :=
  match l with
  | [] => [x]
  | y :: l' => if (key x <=? key y)%Z then x :: l else y :: insert_by x l'
  end.

Fixpoint sort_by (l : list A) : list A :=
  match l with
  | [] => []
  | x :: l' => insert_by x (sort_by l')
  end.

Lemma insert_by_perm (x : A) (l : list A) : Permutation (insert_by x l) (x :: l).
Proof.
  induction l as [|y l IH]; simpl; [reflexivity|].
  destruct (key x <=? key y)%Z; [reflexivity|].
  rewrite IH. apply perm_swap.
Qed.

Lemma sort_by_perm (l : list A) : Permutation (sort_by l) l.
Proof.
  induction l as [|x l IH]; simpl; [reflexivity|].
  now rewrite insert_by_perm, IH.
Qed.

Definition key_le (x y : A) : Prop := (key x <= key y)%Z.

Lemma insert_by_sorted (x : A) (l : list A) :
  StronglySorted key_le l -> StronglySorted key_le (insert_by x l).
Proof.
  induction 1 as [|y l Hl IH Hy]; simpl; [repeat constructor|].
  destruct (Z.leb_spec (key x) (key y)) as [Hle|Hlt].
  - repeat constructor; auto.
    eapply Forall_impl; [|exact Hy]. unfold key_le. intros a. lia.
  - constructor; [assumption|].
    rewrite insert_by_perm. constructor; [unfold key_le; lia|assumption].
Qed.

Lemma sort_by_sorted (l : list A) : StronglySorted key_le (sort_by l).
Proof.
  induction l as [|x l IH]; simpl; [constructor|]. now apply insert_by_sorted.
Qed.

(** Sorting by a key that tells the elements apart gives the same list
    whatever the order of the input. *)
Lemma sorted_perm_unique (l l' : list A) :
  StronglySorted key_le l -> StronglySorted key_le l' -> Permutation l l' ->
  (forall x y, In x l -> In y l -> key x = key y -> x = y) -> l = l'.
Proof.
  intros Hl. revert l'. induction Hl as [|x l Hl IH Hx]; intros l' Hl' Hp Hinj.
  - now apply Permutation_nil in Hp.
  - destruct Hl' as [|y l' Hl' Hy].
    { symmetry in Hp. now apply Permutation_nil in Hp. }
    assert (E : x = y).
    { apply Hinj; [now left| |].
      - eapply Permutation_in; [symmetry; exact Hp|now left].
      - apply Z.le_antisymm.
        + assert (Hin : In y (x :: l))
            by (eapply Permutation_in; [symmetry; exact Hp|now left]).
          destruct Hin as [->|Hin]; [lia|].
          rewrite Forall_forall in Hx. now apply Hx.
        + assert (Hin : In x (y :: l'))
            by (eapply Permutation_in; [exact Hp|now left]).
          destruct Hin as [->|Hin]; [lia|].
          rewrite Forall_forall in Hy. now apply Hy. }
    subst y. f_equal. apply IH; [assumption| |].
    + now apply Permutation_cons_inv in Hp.
    + intros a b Ha Hb. apply Hinj; now right.
Qed.

Lemma sort_by_perm_eq (l l' : list A) :
  Permutation l l' ->
  (forall x y, In x l -> In y l -> key x = key y -> x = y) ->
  sort_by l = sort_by l'.
Proof.
  intros Hp Hinj. apply sorted_perm_unique; try apply sort_by_sorted.
  - now rewrite !sort_by_perm.
  - intros x y Hx Hy. apply Hinj; eapply Permutation_in; eauto using sort_by_perm.
Qed.

Lemma sort_by_id (l : list A) : StronglySorted key_le l -> sort_by l = l.
Proof.
  induction 1 as [|x l Hl IH Hx]; simpl; [reflexivity|]. rewrite IH.
  destruct l as [|y l]; simpl; [reflexivity|].
  inversion Hx as [|? ? Hxy _]; subst. unfold key_le in Hxy.
  now rewrite (proj2 (Z.leb_le _ _) Hxy).
Qed.
End SortBy.

Lemma find_ext_in' {A : Type} (f g : A -> bool) (l : list A) :
  (forall x, In x l -> f x = g x) -> find f l = find g l.
Proof.
  induction l as [|x l IH]; intros H; simpl; [reflexivity|].
  rewrite H by now left. rewrite IH by (intros; apply H; now right). reflexivity.
Qed.

Lemma existsb_false_forall {A : Type} (f : A -> bool) (l : list A) :
  existsb f l = false -> forall x, In x l -> f x = false.
Proof.
  intros H x Hx. apply not_true_iff_false. intros Hf.
  apply not_true_iff_false in H. apply H, existsb_exists. eauto.
Qed.

(** ** Counting lemmas on lists *)
Section Counting.
Context {A : Type}.

Lemma filter_length_split (f : A -> bool) (l : list A) :
  length (filter f l) + length (filter (fun x => negb (f x)) l) = length l.
Proof.
  induction l as [|x l IH]; simpl; [reflexivity|]. destruct (f x); simpl; lia.
Qed.

Lemma NoDup_same_length (l l' : list A) :
  NoDup l -> NoDup l' -> (forall x, In x l <-> In x l') -> length l = length l'.
Proof.
  intros H H' Hiff. apply Permutation_length. now apply NoDup_Permutation.
Qed.

Lemma NoDup_map_inj_on {B : Type} (f : A -> B) (l : list A) :
  (forall x y, In x l -> In y l -> f x = f y -> x = y) -> NoDup l -> NoDup (map f l).
Proof.
  intros Hinj Hn. induction Hn as [|x l Hx Hn IH]; simpl; constructor.
  - rewrite in_map_iff. intros (y & E & Hy). apply Hx.
    rewrite <- (Hinj y x); [assumption|now right|now left|assumption].
  - apply IH. intros a b Ha Hb. apply Hinj; now right.
Qed.

Lemma NoDup_map_inv' {B : Type} (f : A -> B) (l : list A) :
  NoDup (map f l) -> forall x y, In x l -> In y l -> f x = f y -> x = y.
Proof.
  induction l as [|a l IH]; simpl; intros Hn x y Hx Hy E; [contradiction|].
  inversion Hn as [|? ? Ha Hl]; subst.
  destruct Hx as [->|Hx], Hy as [->|Hy]; auto.
  - exfalso. apply Ha. rewrite E. now apply in_map.
  - exfalso. apply Ha. rewrite <- E. now apply in_map.
Qed.

Lemma NoDup_map_filter {B : Type} (f : A -> B) (p : A -> bool) (l : list A) :
  NoDup (map f l) -> NoDup (map f (filter p l)).
Proof.
  induction l as [|a l IH]; simpl; intros Hn; [constructor|].
  inversion Hn as [|? ? Ha Hl]; subst. destruct (p a); simpl; [|auto].
  constructor; [|auto]. intros Hin. apply Ha.
  apply in_map_iff in Hin as (x & E & Hx). apply filter_In in Hx as [Hx _].
  rewrite <- E. now apply in_map.
Qed.
End Counting.

Lemma filter_perm {A : Type} (f : A -> bool) (l l' : list A) :
  Permutation l l' -> Permutation (filter f l) (filter f l').
Proof.
  induction 1; simpl; [reflexivity| | |etransitivity; eassumption].
  - destruct (f x); [now constructor|assumption].
  - destruct (f x), (f y); try reflexivity. apply perm_swap.
Qed.

(** ** Automation *)

(** Turn boolean tests on integers in the context into propositions. *)
Ltac bool_to_prop :=
  repeat match goal with
  | H : (_ && _) = true |- _ => apply andb_true_iff in H as [? ?]
  | H : (_ || _) = false |- _ => apply orb_false_iff in H as [? ?]
  | H : (_ || _) = true |- _ => apply orb_true_iff in H
  | H : negb _ = true |- _ => apply negb_true_iff in H
  | H : negb _ = false |- _ => apply negb_false_iff in H
  | H : (_ =? _)%Z = true |- _ => apply Z.eqb_eq in H
  | H : (_ =? _)%Z = false |- _ => apply Z.eqb_neq in H
  | H : (_ <? _)%Z = true |- _ => apply Z.ltb_lt in H
  | H : (_ <? _)%Z = false |- _ => apply Z.ltb_ge in H
  | H : (_ <=? _)%Z = true |- _ => apply Z.leb_le in H
  | H : (_ <=? _)%Z = false |- _ => apply Z.leb_gt in H
  | H : (_ =? _)%nat = true |- _ => apply Nat.eqb_eq in H
  | H : (_ =? _)%nat = false |- _ => apply Nat.eqb_neq in H
  | H : (_ <? _)%nat = true |- _ => apply Nat.ltb_lt in H
  | H : (_ <? _)%nat = false |- _ => apply Nat.ltb_ge in H
  end.

(** Decide the integer test at the head of the goal from the context. *)
Ltac decide_test :=
  match goal with
  | |- context [(?a =? ?b)%Z] => destruct (Z.eqb_spec a b); try lia
  | |- context [(?a <? ?b)%Z] => destruct (Z.ltb_spec a b); try lia
  | |- context [(?a <=? ?b)%Z] => destruct (Z.leb_spec a b); try lia
  | |- context [(?a =? ?b)%nat] => destruct (Nat.eqb_spec a b); try lia
  | |- context [(?a <? ?b)%nat] => destruct (Nat.ltb_spec a b); try lia
  | |- context [(?a <=? ?b)%nat] => destruct (Nat.leb_spec a b); try lia
  end.

(** Prove an equation between boolean combinations of integer tests. *)
Ltac bool_lia :=
  repeat decide_test; reflexivity.

(** Open every [let!] of a successful call in a hypothesis. *)
Ltac res_inv H :=
  repeat match type of H with
  | res_bind _ _ = Ok _ =>
      let a := fresh "a" in let E := fresh "E" in
      apply res_bind_ok in H as (a & E & H)
  | (if ?b then Throw _ else _) = Ok _ =>
      let E := fresh "E" in destruct b eqn:E; [discriminate H|]
  end.

Create HintDb cg.
Create Rewrite HintDb cg.
#[export] Hint Rewrite @upd_length @length_map @length_seq @length_app @repeat_length
  : cg.
#[export] Hint Resolve Forall_upd : cg.
