(* ===== verification/Bytes.v ===== *)
(** * Bytes: big-endian byte strings of integers

    [(v << 8n) | BigInt(byte)] over a byte array, as several services write it,
    and the byte array of an integer. *)

From Stdlib Require Import ZArith List Lia Bool.
Import ListNotations.
From S2P Require Import Prelude.

Open Scope list_scope.
Open Scope Z_scope.

(** A byte array: every entry is in [0, 256). *)
Definition is_byte (z : Z) : Prop := 0 <= z < 256.
Abbreviation bytes l := (Forall is_byte l).

(** [for (const byte of bytes) value = (value << 8n) | BigInt(byte);]. *)
Definition bytes_value (l : list Z) : Z :=
  fold_left (fun value byte => Z.lor (Z.shiftl value 8) byte) l 0.

(** The [n] low-order bytes of [z], most significant first. *)
Fixpoint be_bytes (n : nat) (z : Z) : list Z :=
  match n with O => [] | S k => be_bytes k (z / 256) ++ [z mod 256] end.

Lemma lor_shift_byte (v b : Z) : is_byte b -> Z.lor (Z.shiftl v 8) b = 256 * v + b.
Proof.
  intros Hb. unfold is_byte in Hb. rewrite Z.shiftl_mul_pow2 by lia. change (2 ^ 8) with 256.
  assert (Hl : Z.land (v * 256) b = 0).
  { apply Z.bits_inj'. intros i Hi. rewrite Z.land_spec, Z.bits_0.
    change 256 with (2 ^ 8). rewrite Z.mul_pow2_bits by lia.
    destruct (Z.ltb_spec i 8) as [Hlt|Hge]; [now rewrite Z.testbit_neg_r by lia|].
    replace b with (b mod 2 ^ 8) by (apply Z.mod_small; simpl; lia).
    rewrite Z.mod_pow2_bits_high by lia. apply andb_false_r. }
  rewrite <- Z.lxor_lor, <- Z.add_nocarry_lxor by assumption. lia.
Qed.

Lemma bytes_value_snoc (l : list Z) (b : Z) : is_byte b ->
  bytes_value (l ++ [b]) = 256 * bytes_value l + b.
Proof. intros Hb. unfold bytes_value. rewrite fold_left_app. now apply lor_shift_byte. Qed.

Lemma be_bytes_length (n : nat) (z : Z) : length (be_bytes n z) = n.
Proof. revert z. induction n as [|n IH]; intros z; simpl; [reflexivity|]. rewrite length_app, IH. simpl. lia. Qed.

Lemma be_bytes_bytes (n : nat) (z : Z) : bytes (be_bytes n z).
Proof.
  revert z. induction n as [|n IH]; intros z; simpl; [constructor|].
  apply Forall_app. split; [apply IH|]. repeat constructor; apply Z.mod_pos_bound; lia.
Qed.

Lemma bytes_value_be (n : nat) (z : Z) : 0 <= z < 256 ^ Z.of_nat n ->
  bytes_value (be_bytes n z) = z.
Proof.
  revert z. induction n as [|n IH]; intros z Hz; [simpl in Hz; change (0 = z); lia|].
  cbn [be_bytes]. rewrite bytes_value_snoc by (apply Z.mod_pos_bound; lia).
  rewrite Nat2Z.inj_succ, Z.pow_succ_r in Hz by lia. rewrite IH.
  - symmetry. apply Z.div_mod. lia.
  - split; [apply Z.div_pos; lia|apply Z.div_lt_upper_bound; lia].
Qed.

Lemma bytes_value_range (l : list Z) : bytes l -> 0 <= bytes_value l < 256 ^ Z.of_nat (length l).
Proof.
  induction l as [|b l IH] using rev_ind; intros H; [change (0 <= 0 < 1); lia|].
  apply Forall_app in H as [Hl Hb]. inversion Hb as [|? ? Hb' _]; subst.
  specialize (IH Hl). rewrite bytes_value_snoc by assumption.
  rewrite length_app, Nat2Z.inj_add. change (Z.of_nat (length [b])) with 1.
  rewrite Z.pow_add_r, Z.pow_1_r by lia. unfold is_byte in Hb'. lia.
Qed.

Lemma be_bytes_value (l : list Z) : bytes l -> be_bytes (length l) (bytes_value l) = l.
Proof.
  induction l as [|b l IH] using rev_ind; intros H; [reflexivity|].
  apply Forall_app in H as [Hl Hb]. inversion Hb as [|? ? Hb' _]; subst.
  rewrite bytes_value_snoc by assumption. rewrite length_app, Nat.add_1_r. cbn [be_bytes].
  unfold is_byte in Hb'. rewrite Z.mul_comm. f_equal.
  - rewrite Z.div_add_l, Z.div_small, Z.add_0_r by lia. now apply IH.
  - f_equal. rewrite Z.add_comm, Z.mod_add, Z.mod_small; lia.
Qed.

Lemma bytes_value_app (l r : list Z) : bytes r ->
  bytes_value (l ++ r) = bytes_value l * 256 ^ Z.of_nat (length r) + bytes_value r.
Proof.
  induction r as [|b r IH] using rev_ind; intros Hr.
  - rewrite app_nil_r. cbn. lia.
  - apply Forall_app in Hr as [Hr Hb]. inversion Hb as [|? ? Hb' _]; subst.
    rewrite app_assoc, !bytes_value_snoc, IH, length_app by assumption. cbn [length].
    rewrite Nat2Z.inj_add, Z.pow_add_r by lia. change (256 ^ Z.of_nat 1) with 256. ring.
Qed.

Lemma bytes_value_cons (b : Z) (l : list Z) : is_byte b -> bytes l ->
  bytes_value (b :: l) = b * 256 ^ Z.of_nat (length l) + bytes_value l.
Proof.
  intros Hb Hl. change (b :: l) with ([b] ++ l). rewrite bytes_value_app by assumption.
  reflexivity.
Qed.

Lemma bytes_value_zeros (k : nat) (l : list Z) : bytes_value (repeat 0 k ++ l) = bytes_value l.
Proof.
  unfold bytes_value. rewrite fold_left_app. f_equal.
  induction k as [|k IH]; [reflexivity|]. cbn [repeat fold_left]. exact IH.
Qed.

(** Byte strings of the same length and value are equal. *)
Lemma bytes_value_inj (l r : list Z) : bytes l -> bytes r -> length l = length r ->
  bytes_value l = bytes_value r -> l = r.
Proof.
  intros Hl Hr E Ev. rewrite <- (be_bytes_value l Hl), <- (be_bytes_value r Hr). congruence.
Qed.
