(* ===== verification/Algebra.v ===== *)
(** * Algebra: the field interface of the coding and sharing components

    The erasure code works over GF(2^8), the sharing schemes over Z/Q.  Both
    provide the class [Field] below and both are proved correct against it: the
    number of roots of a polynomial, Lagrange interpolation, the regularity of
    Cauchy systems and Gauss-Jordan elimination are proved here once. *)

From Stdlib Require Import List Lia Permutation Field Arith.
Import ListNotations.
From S2P Require Import Prelude.

Class Field (F : Type) : Type := {
  f0 : F;
  f1 : F;
  fadd : F -> F -> F;
  fmul : F -> F -> F;
  fsub : F -> F -> F;
  fopp : F -> F;
  finv : F -> F;
  f_theory : field_theory f0 f1 fadd fmul fsub fopp (fun a b => fmul a (finv b)) finv eq;
  f_dec : forall a b : F, {a = b} + {a <> b}
}.

Declare Scope field_scope.
Delimit Scope field_scope with F.
Bind Scope field_scope with Field.
Notation "0" := f0 : field_scope.
Notation "1" := f1 : field_scope.
Infix "+" := fadd : field_scope.
Infix "*" := fmul : field_scope.
Infix "-" := fsub : field_scope.
Notation "- a" := (fopp a) : field_scope.
Notation "/ a" := (finv a) : field_scope.
Notation "a / b" := (fmul a (finv b)) : field_scope.

Section FieldTheory.
Context {F : Type} `{Fld : Field F}.
Local Open Scope field_scope.

Add Field F_field : (@f_theory F Fld).

Lemma f1_neq_f0 : 1 <> 0.
Proof. exact (F_1_neq_0 f_theory). Qed.

Lemma fmul_1_l (a : F) : 1 * a = a.
Proof. ring. Qed.

Lemma fmul_0_l (a : F) : 0 * a = 0.
Proof. ring. Qed.

Lemma fadd_mul_0 (a b : F) : a + 0 * b = a.
Proof. ring. Qed.

Lemma fmul_inv_r (a : F) : a <> 0 -> a * / a = 1.
Proof. intros H. field. assumption. Qed.

Lemma fmul_eq_0 (a b : F) : a * b = 0 -> a = 0 \/ b = 0.
Proof.
  intros H. destruct (f_dec a 0) as [->|Ha]; [now left|right].
  transitivity (/ a * (a * b)); [field; assumption|]. rewrite H. ring.
Qed.

Lemma fsub_eq_0 (a b : F) : a - b = 0 <-> a = b.
Proof.
  split; intros H.
  - transitivity (a - b + b); [ring|]. rewrite H. ring.
  - rewrite H. ring.
Qed.

Lemma fsub_0_eq (a b : F) : a - b = 0 -> a = b.
Proof. apply fsub_eq_0. Qed.

(** ** Finite sums *)
Fixpoint fsum (n : nat) (f : nat -> F) : F :=
  match n with
  | 0 => 0
  | S k => fsum k f + f k
  end.

Lemma fsum_ext (n : nat) (f g : nat -> F) :
  (forall i, (i < n)%nat -> f i = g i) -> fsum n f = fsum n g.
Proof.
  induction n as [|n IH]; intros H; simpl; [reflexivity|].
  rewrite IH, H; auto.
Qed.

Lemma fsum_zero (n : nat) (f : nat -> F) :
  (forall i, (i < n)%nat -> f i = 0) -> fsum n f = 0.
Proof.
  induction n as [|n IH]; intros H; simpl; [reflexivity|].
  rewrite IH, H by auto. ring.
Qed.

Lemma fsum_add (n : nat) (f g : nat -> F) :
  fsum n (fun i => f i + g i) = fsum n f + fsum n g.
Proof. induction n as [|n IH]; simpl; [ring|]. rewrite IH. ring. Qed.

Lemma fsum_scale (n : nat) (a : F) (f : nat -> F) :
  fsum n (fun i => a * f i) = a * fsum n f.
Proof. induction n as [|n IH]; simpl; [ring|]. rewrite IH. ring. Qed.

Lemma fsum_swap (n m : nat) (f : nat -> nat -> F) :
  fsum n (fun i => fsum m (f i)) = fsum m (fun j => fsum n (fun i => f i j)).
Proof.
  induction n as [|n IH]; simpl; [now rewrite fsum_zero|].
  rewrite IH, <- fsum_add. now apply fsum_ext.
Qed.

(** (x A) y = x (A y). *)
Lemma fsum_dot_assoc (n m : nat) (x : nat -> F) (a : nat -> nat -> F) (y : nat -> F) :
  fsum n (fun i => x i * fsum m (fun j => a i j * y j))
  = fsum m (fun j => fsum n (fun i => x i * a i j) * y j).
Proof.
  rewrite (fsum_ext n _ (fun i => fsum m (fun j => x i * (a i j * y j))))
    by (intros; now rewrite fsum_scale).
  rewrite fsum_swap. apply fsum_ext. intros j _.
  rewrite (fsum_ext n _ (fun i => y j * (x i * a i j))) by (intros; ring).
  rewrite fsum_scale. ring.
Qed.

Lemma fsum_split (n m : nat) (f : nat -> F) :
  fsum (n + m) f = fsum n f + fsum m (fun i => f (n + i)%nat).
Proof.
  induction m as [|m IH]; simpl; [rewrite Nat.add_0_r; ring|].
  rewrite Nat.add_succ_r. simpl. rewrite IH. ring.
Qed.

(** Kronecker's delta. *)
Definition delta (i j : nat) : F := if Nat.eqb i j then 1 else 0.

Lemma delta_ne (i j : nat) : i <> j -> delta i j = 0.
Proof. intros H. unfold delta. now rewrite (proj2 (Nat.eqb_neq _ _) H). Qed.

Lemma delta_eq (i : nat) : delta i i = 1.
Proof. unfold delta. now rewrite Nat.eqb_refl. Qed.

Lemma fsum_delta (n k : nat) (f : nat -> F) :
  (k < n)%nat -> fsum n (fun i => delta k i * f i) = f k.
Proof.
  induction n as [|n IH]; intros H; [lia|]. simpl.
  destruct (Nat.eq_dec k n) as [->|Hne].
  - rewrite fsum_zero, delta_eq; [ring|].
    intros i Hi. rewrite delta_ne by lia. ring.
  - rewrite IH by lia. rewrite delta_ne by assumption. ring.
Qed.

Lemma fsum_fold_left (n : nat) (f : nat -> F) (s : F) :
  fold_left (fun s i => s + f i) (seq 0 n) s = s + fsum n f.
Proof.
  induction n as [|n IH]; [simpl; ring|].
  rewrite seq_S, fold_left_app, IH. simpl. ring.
Qed.

(** Sums over the elements of a list. *)
Definition lsum {A : Type} (f : A -> F) (l : list A) : F :=
  fold_right (fun a s => f a + s) 0 l.

Definition lprod {A : Type} (f : A -> F) (l : list A) : F :=
  fold_right (fun a s => f a * s) 1 l.

Lemma lsum_perm {A : Type} (f : A -> F) (l l' : list A) :
  Permutation l l' -> lsum f l = lsum f l'.
Proof. induction 1; simpl; [reflexivity|now f_equal|ring|congruence]. Qed.

Lemma lprod_perm {A : Type} (f : A -> F) (l l' : list A) :
  Permutation l l' -> lprod f l = lprod f l'.
Proof. induction 1; simpl; [reflexivity|now f_equal|ring|congruence]. Qed.

Lemma lsum_ext {A : Type} (f g : A -> F) (l : list A) :
  (forall a, In a l -> f a = g a) -> lsum f l = lsum g l.
Proof.
  induction l as [|a l IH]; simpl; intros H; [reflexivity|].
  rewrite H, IH; auto.
Qed.

Lemma lsum_scale {A : Type} (c : F) (f : A -> F) (l : list A) :
  lsum (fun a => c * f a) l = c * lsum f l.
Proof. induction l as [|a l IH]; simpl; [ring|]. rewrite IH. ring. Qed.

Lemma lsum_zero {A : Type} (f : A -> F) (l : list A) :
  (forall a, In a l -> f a = 0) -> lsum f l = 0.
Proof.
  induction l as [|a l IH]; simpl; intros H; [reflexivity|].
  rewrite H, IH by auto. ring.
Qed.

Lemma lsum_app {A : Type} (f : A -> F) (l l' : list A) :
  lsum f (l ++ l') = lsum f l + lsum f l'.
Proof. induction l as [|a l IH]; simpl; [ring|]. rewrite IH. ring. Qed.

Lemma lsum_filter {A : Type} (f : A -> F) (p : A -> bool) (l : list A) :
  (forall a, In a l -> p a = false -> f a = 0) -> lsum f l = lsum f (filter p l).
Proof.
  induction l as [|a l IH]; simpl; intros H; [reflexivity|].
  rewrite IH by (intros; apply H; auto).
  destruct (p a) eqn:E; [reflexivity|]. rewrite (H a) by auto. ring.
Qed.

Lemma fsum_lsum (n : nat) (f : nat -> F) : fsum n f = lsum f (seq 0 n).
Proof.
  induction n as [|n IH]; [reflexivity|].
  rewrite seq_S, lsum_app, <- IH. simpl. ring.
Qed.

Lemma lprod_zero {A : Type} (f : A -> F) (l : list A) (a : A) :
  In a l -> f a = 0 -> lprod f l = 0.
Proof.
  induction l as [|b l IH]; simpl; [easy|].
  intros [->|Ha] E; [rewrite E; ring|]. rewrite IH by assumption. ring.
Qed.

Lemma lprod_neq_0 {A : Type} (f : A -> F) (l : list A) :
  (forall a, In a l -> f a <> 0) -> lprod f l <> 0.
Proof.
  induction l as [|a l IH]; simpl; intros H; [apply f1_neq_f0|].
  intros E. apply fmul_eq_0 in E as [E|E]; [now apply (H a (or_introl eq_refl))|].
  revert E. apply IH. auto.
Qed.

Lemma lprod_ext_in {A : Type} (f g : A -> F) (l : list A) :
  (forall a, In a l -> f a = g a) -> lprod f l = lprod g l.
Proof.
  induction l as [|a l IH]; simpl; intros H; [reflexivity|].
  rewrite H, IH; auto.
Qed.

Lemma lprod_map {A B : Type} (f : B -> F) (g : A -> B) (l : list A) :
  lprod f (map g l) = lprod (fun a => f (g a)) l.
Proof. induction l as [|a l IH]; simpl; [reflexivity|]. now rewrite IH. Qed.

Lemma lsum_map {A B : Type} (f : B -> F) (g : A -> B) (l : list A) :
  lsum f (map g l) = lsum (fun a => f (g a)) l.
Proof. induction l as [|a l IH]; simpl; [reflexivity|]. now rewrite IH. Qed.

Lemma fold_left_fmul {A : Type} (f : A -> F) (l : list A) (s : F) :
  fold_left (fun s a => s * f a) l s = s * lprod f l.
Proof. revert s. induction l as [|a l IH]; intros s; simpl; [ring|]. rewrite IH. ring. Qed.

Lemma fold_left_fadd {A : Type} (f : A -> F) (l : list A) (s : F) :
  fold_left (fun s a => s + f a) l s = s + lsum f l.
Proof. revert s. induction l as [|a l IH]; intros s; simpl; [ring|]. rewrite IH. ring. Qed.
End FieldTheory.

(** * Polynomials over a field, interpolation and Cauchy systems

    Polynomials are little-endian coefficient lists evaluated by Horner's rule,
    the representation the sharing code uses. *)

Section Poly.
Context {F : Type} `{Fld : Field F}.
Local Open Scope field_scope.

Add Field F_field_poly : (@f_theory F Fld).

Fixpoint peval (p : list F) (x : F) : F :=
  match p with
  | [] => 0
  | c :: p' => c + x * peval p' x
  end.

Fixpoint fpow (x : F) (n : nat) : F :=
  match n with O => 1 | S k => fpow x k * x end.

(** Horner evaluation is the sum of the monomials. *)
Lemma peval_fsum (p : list F) (x : F) :
  peval p x = fsum (length p) (fun i => nth i p 0 * fpow x i).
Proof.
  induction p as [|c p IH]; [reflexivity|].
  change (length (c :: p)) with (1 + length p)%nat. rewrite fsum_split. simpl.
  rewrite IH, <- fsum_scale.
  rewrite (fsum_ext _ (fun i => x * (nth i p 0 * fpow x i))
                      (fun i => nth i p 0 * (fpow x i * x))) by (intros; ring).
  ring.
Qed.

Fixpoint padd (p q : list F) : list F :=
  match p, q with
  | [], _ => q
  | _, [] => p
  | a :: p', b :: q' => (a + b) :: padd p' q'
  end.

Lemma peval_padd (p q : list F) (x : F) : peval (padd p q) x = peval p x + peval q x.
Proof.
  revert q. induction p as [|a p IH]; intros [|b q]; simpl; try ring.
  rewrite IH. ring.
Qed.

Lemma padd_length (p q : list F) : length (padd p q) = Nat.max (length p) (length q).
Proof. revert q. induction p as [|a p IH]; intros [|b q]; simpl; auto. Qed.

(** [polyfun n f]: [f] is evaluated by a polynomial of [n] coefficients. *)
Definition polyfun (n : nat) (f : F -> F) : Prop :=
  exists p, length p = n /\ forall x, f x = peval p x.

Lemma polyfun_ext (n : nat) (f g : F -> F) :
  (forall x, f x = g x) -> polyfun n f -> polyfun n g.
Proof. intros E (p & Hl & Hp). exists p. split; [assumption|]. intros x. now rewrite <- E. Qed.

Lemma peval_repeat_0 (n : nat) (x : F) : peval (repeat 0 n) x = 0.
Proof. induction n as [|n IH]; simpl; [reflexivity|]. rewrite IH. ring. Qed.

Lemma peval_app_zeros (p : list F) (n : nat) (x : F) : peval (p ++ repeat 0 n) x = peval p x.
Proof.
  induction p as [|a p IH]; simpl; [apply peval_repeat_0|]. now rewrite IH.
Qed.

Lemma polyfun_le (n m : nat) (f : F -> F) : (n <= m)%nat -> polyfun n f -> polyfun m f.
Proof.
  intros Hnm (p & Hl & Hp). exists (padd p (repeat 0 m)). split.
  - rewrite padd_length, repeat_length. lia.
  - intros x. rewrite Hp, peval_padd, peval_repeat_0. ring.
Qed.

Lemma polyfun_add (n : nat) (f g : F -> F) :
  polyfun n f -> polyfun n g -> polyfun n (fun x => f x + g x).
Proof.
  intros (p & Hl & Hp) (q & Hl' & Hq). exists (padd p q). split.
  - rewrite padd_length. lia.
  - intros x. now rewrite Hp, Hq, peval_padd.
Qed.

Lemma polyfun_scale (n : nat) (c : F) (f : F -> F) :
  polyfun n f -> polyfun n (fun x => c * f x).
Proof.
  intros (p & Hl & Hp). exists (map (fmul c) p). split; [now rewrite length_map|].
  intros x. rewrite Hp. clear. induction p as [|a p IH]; simpl; [ring|].
  rewrite <- IH. ring.
Qed.

Lemma polyfun_linear (n : nat) (a b : F) (f : F -> F) :
  polyfun n f -> polyfun (S n) (fun x => (a + b * x) * f x).
Proof.
  intros (p & Hl & Hp).
  exists (padd (map (fmul a) p) (0 :: map (fmul b) p)). split.
  - rewrite padd_length. simpl. rewrite !length_map. lia.
  - intros x. rewrite Hp, peval_padd. simpl.
    assert (H : forall c q, peval (map (fmul c) q) x = c * peval q x).
    { intros c q. induction q as [|d q IH]; simpl; [ring|]. rewrite IH. ring. }
    rewrite !H. ring.
Qed.

Lemma polyfun_const (c : F) : polyfun 1 (fun _ => c).
Proof. exists [c]. split; [reflexivity|]. intros x. simpl. ring. Qed.

Lemma polyfun_lprod {A : Type} (a b : A -> F) (l : list A) :
  polyfun (S (length l)) (fun x => lprod (fun i => a i + b i * x) l).
Proof.
  induction l as [|i l IH]; simpl; [apply polyfun_const|].
  now apply polyfun_linear.
Qed.

Lemma polyfun_lsum {A : Type} (n : nat) (f : A -> F -> F) (l : list A) :
  (forall a, In a l -> polyfun n (f a)) -> polyfun n (fun x => lsum (fun a => f a x) l).
Proof.
  induction l as [|a l IH]; simpl; intros H.
  - exists (repeat 0 n). split; [apply repeat_length|].
    intros x. now rewrite peval_repeat_0.
  - apply polyfun_add; [apply H; now left|]. apply IH. intros; apply H; now right.
Qed.

(** Dividing by [x - a]. *)
Lemma peval_divide (p : list F) (a : F) :
  exists q, length q = pred (length p) /\
            forall x, peval p x = peval p a + (x - a) * peval q x.
Proof.
  induction p as [|c p IH]; [exists []; split; [reflexivity|]; intros x; simpl; ring|].
  destruct p as [|d p].
  - exists []. split; [reflexivity|]. intros x. simpl. ring.
  - destruct IH as (q & Hl & Hq). exists (peval (d :: p) a :: q).
    split; [simpl in *; lia|]. intros x.
    assert (Hd : forall y, peval (c :: d :: p) y = c + y * peval (d :: p) y) by reflexivity.
    rewrite !Hd, (Hq x). change (peval (peval (d :: p) a :: q) x)
      with (peval (d :: p) a + x * peval q x). ring.
Qed.

(** A polynomial of [n] coefficients with [n] distinct roots vanishes. *)
Lemma polyfun_roots (n : nat) (f : F -> F) (roots : list F) :
  polyfun n f -> NoDup roots -> length roots = n ->
  (forall r, In r roots -> f r = 0) -> forall x, f x = 0.
Proof.
  intros (p & Hl & Hp) Hnd Hlr Hr x. rewrite Hp.
  assert (Hr' : forall r, In r roots -> peval p r = 0)
    by (intros r Hin; rewrite <- Hp; auto).
  clear f Hp Hr. revert p n Hl Hlr Hr' x.
  induction Hnd as [|a roots Ha Hnd IH]; intros p n Hl Hlr Hr x.
  - simpl in Hlr. destruct p; [reflexivity|simpl in Hl; lia].
  - destruct (peval_divide p a) as (q & Hlq & Hq).
    rewrite Hq, (Hr a) by now left.
    rewrite (IH q (pred n)); [ring|simpl in Hlr; lia|simpl in Hlr; lia|].
    intros r Hin. specialize (Hq r). rewrite !Hr in Hq by (simpl; auto).
    assert (E : (r - a) * peval q r = 0) by (rewrite Hq; ring).
    apply fmul_eq_0 in E as [E|E]; [|assumption].
    apply fsub_0_eq in E. subst. contradiction.
Qed.

Lemma polyfun_agree (n : nat) (f g : F -> F) (pts : list F) :
  polyfun n f -> polyfun n g -> NoDup pts -> length pts = n ->
  (forall r, In r pts -> f r = g r) -> forall x, f x = g x.
Proof.
  intros Hf Hg Hnd Hl Hr x. apply fsub_0_eq.
  apply (polyfun_roots n (fun x => f x - g x) pts); auto.
  - apply polyfun_ext with (fun x => f x + (- (1)) * g x); [intros; ring|].
    now apply polyfun_add; [|apply polyfun_scale].
  - intros r Hin. apply fsub_eq_0. auto.
Qed.

(** ** Lagrange interpolation

    [lagrange0 xs i] is the weight of the [i]-th share in the reconstruction
    at 0: the product of [x_j / (x_j - x_i)] over the other points. *)
Definition lagrange0 (xs : list F) (i : nat) : F :=
  lprod (fun xj => xj / (xj - nth i xs 0)) (others i xs).

Definition lagrange_at (xs : list F) (i : nat) (x : F) : F :=
  lprod (fun xj => (xj - x) / (xj - nth i xs 0)) (others i xs).

Lemma lagrange_at_0 (xs : list F) (i : nat) : lagrange_at xs i 0 = lagrange0 xs i.
Proof.
  unfold lagrange_at, lagrange0. induction (others i xs) as [|a l IH]; simpl; [reflexivity|].
  rewrite IH. ring.
Qed.

Lemma polyfun_lagrange_at (xs : list F) (i : nat) :
  (i < length xs)%nat -> polyfun (length xs) (lagrange_at xs i).
Proof.
  intros Hi. apply polyfun_ext with
    (fun x => lprod (fun xj => xj / (xj - nth i xs 0) + (- / (xj - nth i xs 0)) * x)
                    (others i xs)).
  - intros x. unfold lagrange_at. induction (others i xs) as [|a l IH]; simpl; [reflexivity|].
    rewrite IH. ring.
  - replace (length xs) with (S (length (others i xs)))
      by (rewrite others_length by assumption; lia).
    apply polyfun_lprod.
Qed.

Lemma lagrange_at_self (xs : list F) (i : nat) :
  NoDup xs -> (i < length xs)%nat -> lagrange_at xs i (nth i xs 0) = 1.
Proof.
  intros Hnd Hi. unfold lagrange_at.
  destruct (others_NoDup xs i 0 Hi Hnd) as [Hni _].
  induction (others i xs) as [|a l IH]; simpl; [reflexivity|].
  rewrite IH by (intros H; apply Hni; now right).
  assert (a - nth i xs 0 <> 0).
  { rewrite fsub_eq_0. intros E. apply Hni. left. assumption. }
  field. assumption.
Qed.

Lemma lagrange_at_other (xs : list F) (i j : nat) :
  NoDup xs -> (i < length xs)%nat -> (j < length xs)%nat -> i <> j ->
  lagrange_at xs i (nth j xs 0) = 0.
Proof.
  intros Hnd Hi Hj Hij. unfold lagrange_at.
  apply lprod_zero with (nth j xs 0); [|ring].
  apply (others_In xs i 0); auto using nth_In, NoDup_nth_ne.
Qed.

(** Interpolating [length xs] distinct points of a polynomial of that many
    coefficients recovers its value at 0. *)
Lemma lagrange_interpolation (p : list F) (xs : list F) :
  NoDup xs -> length p = length xs ->
  fsum (length xs) (fun i => peval p (nth i xs 0) * lagrange0 xs i) = peval p 0.
Proof.
  intros Hnd Hl.
  set (L := fun x => lsum (fun i => peval p (nth i xs 0) * lagrange_at xs i x)
                          (seq 0 (length xs))).
  transitivity (L 0).
  { unfold L. rewrite fsum_lsum. apply lsum_ext. intros i _. now rewrite lagrange_at_0. }
  apply (polyfun_agree (length xs) L (peval p) xs).
  - apply polyfun_lsum. intros i Hi. apply in_seq in Hi.
    apply polyfun_scale, polyfun_lagrange_at. lia.
  - exists p. now split.
  - assumption.
  - reflexivity.
  - intros r Hr. apply (In_nth _ _ 0) in Hr as (j & Hj & <-).
    unfold L. rewrite <- fsum_lsum.
    rewrite (fsum_ext _ _ (fun i => delta j i * peval p (nth j xs 0))).
    + rewrite fsum_delta by assumption. reflexivity.
    + intros i Hi. destruct (Nat.eq_dec i j) as [->|Hne].
      * rewrite lagrange_at_self, delta_eq by assumption. ring.
      * rewrite lagrange_at_other, delta_ne by auto. ring.
Qed.

(** Interpolation with at least as many points as coefficients. *)
Lemma lagrange_interpolation_le (p : list F) (xs : list F) :
  NoDup xs -> (length p <= length xs)%nat ->
  fsum (length xs) (fun i => peval p (nth i xs 0) * lagrange0 xs i) = peval p 0.
Proof.
  intros Hnd Hl. set (q := p ++ repeat 0 (length xs - length p)).
  assert (Hq : forall x, peval q x = peval p x) by (intros; apply peval_app_zeros).
  rewrite <- Hq, <- (lagrange_interpolation q xs).
  - apply fsum_ext. intros i _. now rewrite Hq.
  - assumption.
  - unfold q. rewrite length_app, repeat_length. lia.
Qed.

(** Fewer values than coefficients, at points other than 0, leave the value at 0
    free. *)
Lemma peval_free_at_0 (p pts : list F) (s : F) :
  (forall r, In r pts -> r <> 0) -> (length pts < length p)%nat ->
  exists q, length q = length p /\ peval q 0 = s /\ forall r, In r pts -> peval q r = peval p r.
Proof.
  intros Hnz Hl.
  assert (Hq : polyfun (length p) (fun x => peval p x +
             (s - peval p 0) * lprod (fun r => 1 + (- / r) * x) pts)).
  { apply polyfun_add; [now exists p|]. apply polyfun_scale.
    apply (polyfun_le (S (length pts))); [assumption|].
    apply (polyfun_lprod (fun _ => 1) (fun r => - / r)). }
  destruct Hq as (q & Hlq & Hq). exists q. split; [assumption|]. split.
  - rewrite <- Hq.
    assert (E : lprod (fun r => 1 + - / r * 0) pts = 1).
    { clear. induction pts as [|r pts IH]; simpl; [reflexivity|]. rewrite IH. ring. }
    rewrite E. ring.
  - intros r Hr. rewrite <- Hq. rewrite (lprod_zero _ pts r Hr); [ring|].
    field. auto.
Qed.

(** ** Cauchy systems

    A combination of the functions [1 / (r - c)], for distinct [c] in [D],
    that vanishes at as many distinct points [r] outside [D] is zero. *)
Lemma cauchy_kernel (w : F -> F) (D R : list F) :
  NoDup D -> NoDup R -> length R = length D ->
  (forall c r, In c D -> In r R -> r <> c) ->
  (forall r, In r R -> lsum (fun c => w c / (r - c)) D = 0) ->
  forall c, In c D -> w c = 0.
Proof.
  intros HD HR Hl Hdisj Hz c Hc.
  set (P := fun x => lsum (fun i => w (nth i D 0) * lprod (fun d => - d + 1 * x) (others i D))
                          (seq 0 (length D))).
  assert (HPpoly : polyfun (length D) P).
  { apply polyfun_lsum. intros i Hi. apply in_seq in Hi. apply polyfun_scale.
    replace (length D) with (S (length (others i D)))
      by (rewrite others_length by lia; lia).
    apply (polyfun_lprod (fun d => - d) (fun _ => 1)). }
  assert (HP : forall x, P x = 0).
  { apply (polyfun_roots (length D) P R HPpoly HR Hl).
    intros r Hr. unfold P.
    transitivity (lprod (fun d => r - d) D * lsum (fun c => w c / (r - c)) D);
      [|rewrite Hz by assumption; ring].
    rewrite <- lsum_scale.
    transitivity (lsum (fun c => lprod (fun d => r - d) D * (w c / (r - c)))
                       (map (fun i => nth i D 0) (seq 0 (length D))));
      [rewrite lsum_map|now rewrite map_nth_seq].
    apply lsum_ext. intros i Hi. apply in_seq in Hi.
    rewrite (lprod_perm _ _ _ (others_perm D i 0 ltac:(lia))). simpl.
    assert (r - nth i D 0 <> 0).
    { rewrite fsub_eq_0. apply Hdisj; [apply nth_In; lia|assumption]. }
    rewrite (lprod_ext_in (fun d => - d + 1 * r) (fun d => r - d)) by (intros; ring).
    field. assumption. }
  apply (In_nth _ _ 0) in Hc as (k & Hk & <-).
  specialize (HP (nth k D 0)). unfold P in HP.
  rewrite <- fsum_lsum in HP.
  rewrite (fsum_ext _ _ (fun i => delta k i *
             (w (nth k D 0) * lprod (fun d => - d + 1 * nth k D 0) (others k D)))) in HP.
  - rewrite fsum_delta in HP by assumption.
    apply fmul_eq_0 in HP as [HP|HP]; [assumption|exfalso; revert HP].
    apply lprod_neq_0. intros d Hd E.
    destruct (others_NoDup D k 0 Hk HD) as [Hni _]. apply Hni.
    replace (nth k D 0) with d; [assumption|].
    transitivity (d + (- d + 1 * nth k D 0)); [rewrite E; ring|ring].
  - intros i Hi. destruct (Nat.eq_dec i k) as [->|Hne].
    + rewrite delta_eq. ring.
    + rewrite delta_ne by auto.
      rewrite (lprod_zero _ (others i D) (nth k D 0)); [ring| |ring].
      apply (others_In D i 0); auto using nth_In, NoDup_nth_ne.
Qed.
End Poly.

(** * Gauss-Jordan inversion of a square system over a field

    The specification level of [GFMatrix.invert]: the augmented matrix is a
    function of row and column, and one step of the elimination is a swap, a
    scaling and the elimination of the other rows. *)

Section Gauss.
Context {F : Type} `{Fld : Field F}.
Local Open Scope field_scope.

Add Field F_field_gauss : (@f_theory F Fld).

Definition mat : Type := nat -> nat -> F.

Definition gswap (G : mat) (p q : nat) : mat := fun r c =>
  if Nat.eqb r p then G q c else if Nat.eqb r q then G p c else G r c.

Definition gscale (G : mat) (p : nat) (s : F) : mat := fun r c =>
  if Nat.eqb r p then G r c / s else G r c.

Definition gelim (G : mat) (p : nat) : mat := fun r c =>
  if Nat.eqb r p then G r c else G r c - G r p * G p c.

Definition nonzero (a : F) : bool := if f_dec a 0 then false else true.

Definition gj_step (n : nat) (G : mat) (k : nat) : option mat :=
  match find (fun r => nonzero (G r k)) (seq k (n - k)) with
  | None => None
  | Some p => let G1 := gswap G k p in Some (gelim (gscale G1 k (G1 k k)) k)
  end.

Lemma nonzero_true (a : F) : nonzero a = true <-> a <> 0.
Proof. unfold nonzero. destruct (f_dec a 0); split; congruence. Qed.

(** [A] applied to the vector [v], over [n] columns. *)
Definition row_dot (n : nat) (A : mat) (r : nat) (v : nat -> F) : F :=
  fsum n (fun c => A r c * v c).

Definition kernel_trivial (n : nat) (A : mat) : Prop :=
  forall v, (forall r, (r < n)%nat -> row_dot n A r v = 0) ->
            forall c, (c < n)%nat -> v c = 0.

Variable n : nat.
Variable A : mat.

(** The invariant of the elimination of column [k]: the right half is a
    matrix whose product with [A] is the left half, the left half has no
    more solutions than [A], and its first [k] columns are the identity's. *)
Record gj_inv (k : nat) (G : mat) : Prop := {
  gj_prod : forall r c, (r < n)%nat -> (c < n)%nat ->
    G r c = fsum n (fun j => G r (n + j)%nat * A j c);
  gj_ker : forall v, (forall r, (r < n)%nat -> row_dot n G r v = 0) ->
    forall r, (r < n)%nat -> row_dot n A r v = 0;
  gj_unit : forall r c, (r < n)%nat -> (c < k)%nat -> G r c = delta r c
}.

Definition augment : mat := fun r c =>
  if Nat.ltb c n then A r c else delta r (c - n).

Lemma gj_inv_init : gj_inv 0 augment.
Proof.
  constructor.
  - intros r c Hr Hc. unfold augment at 1. rewrite (proj2 (Nat.ltb_lt _ _) Hc).
    rewrite (fsum_ext _ _ (fun j => delta r j * A j c)).
    + now rewrite fsum_delta.
    + intros j Hj. unfold augment. destruct (Nat.ltb_spec (n + j) n); [lia|].
      now replace (n + j - n)%nat with j by lia.
  - intros v Hv r Hr. rewrite <- (Hv r Hr). unfold row_dot.
    apply fsum_ext. intros c Hc. unfold augment. now rewrite (proj2 (Nat.ltb_lt _ _) Hc).
  - intros. lia.
Qed.

Lemma gj_inv_swap (k p : nat) (G : mat) :
  (k <= p)%nat -> (p < n)%nat -> gj_inv k G -> gj_inv k (gswap G k p).
Proof.
  intros Hkp Hp [Hprod Hker Hunit].
  constructor.
  - intros r c Hr Hc. unfold gswap.
    destruct (Nat.eqb_spec r k); [apply Hprod; lia|].
    destruct (Nat.eqb_spec r p); apply Hprod; lia.
  - intros v Hv. apply Hker. intros r Hr.
    destruct (Nat.eq_dec r k) as [->|Hrk].
    + rewrite <- (Hv p Hp). unfold row_dot, gswap. apply fsum_ext. intros c _.
      rewrite (Nat.eqb_refl p). destruct (Nat.eqb_spec p k); [now subst|reflexivity].
    + destruct (Nat.eq_dec r p) as [->|Hrp].
      * rewrite <- (Hv k ltac:(lia)). unfold row_dot, gswap.
        now rewrite Nat.eqb_refl.
      * rewrite <- (Hv r Hr). unfold row_dot, gswap.
        now rewrite (proj2 (Nat.eqb_neq _ _) Hrk), (proj2 (Nat.eqb_neq _ _) Hrp).
  - intros r c Hr Hc. unfold gswap.
    destruct (Nat.eqb_spec r k) as [->|Hrk].
    + rewrite Hunit by lia. rewrite !delta_ne by lia. reflexivity.
    + destruct (Nat.eqb_spec r p) as [->|Hrp]; [|now apply Hunit].
      rewrite Hunit by lia. rewrite !delta_ne by lia. reflexivity.
Qed.

Lemma gj_inv_scale (k : nat) (s : F) (G : mat) :
  (k < n)%nat -> s <> 0 -> gj_inv k G -> gj_inv k (gscale G k s).
Proof.
  intros Hk Hs [Hprod Hker Hunit].
  constructor.
  - intros r c Hr Hc. unfold gscale. destruct (Nat.eqb_spec r k); [|now apply Hprod].
    rewrite Hprod by assumption.
    rewrite (fsum_ext _ (fun j => G r (n + j)%nat / s * A j c)
                        (fun j => / s * (G r (n + j)%nat * A j c))) by (intros; ring).
    rewrite fsum_scale. ring.
  - intros v Hv. apply Hker. intros r Hr.
    specialize (Hv r Hr). unfold row_dot, gscale in Hv.
    destruct (Nat.eqb_spec r k) as [E|Hrk]; [subst r|exact Hv].
    rewrite (fsum_ext _ _ (fun c => / s * (G k c * v c))) in Hv by (intros; ring).
    rewrite fsum_scale in Hv. apply fmul_eq_0 in Hv as [Hv|Hv]; [|exact Hv].
    exfalso. apply f1_neq_f0. rewrite <- (fmul_inv_r s Hs), Hv. ring.
  - intros r c Hr Hc. unfold gscale. destruct (Nat.eqb_spec r k) as [->|Hrk]; [|auto].
    rewrite Hunit by lia. rewrite !delta_ne by lia. ring.
Qed.

Lemma gj_inv_elim (k : nat) (G : mat) :
  (k < n)%nat -> G k k = 1 -> gj_inv k G -> gj_inv (S k) (gelim G k).
Proof.
  intros Hk Hone [Hprod Hker Hunit].
  constructor.
  - intros r c Hr Hc. unfold gelim. destruct (Nat.eqb_spec r k); [now apply Hprod|].
    rewrite (Hprod r c Hr Hc), (Hprod k c Hk Hc).
    rewrite (fsum_ext _ (fun j => (G r (n + j)%nat - G r k * G k (n + j)%nat) * A j c)
               (fun j => G r (n + j)%nat * A j c
                         + (- G r k) * (G k (n + j)%nat * A j c))) by (intros; ring).
    rewrite fsum_add, fsum_scale. ring.
  - intros v Hv. apply Hker.
    assert (Hvk : row_dot n G k v = 0).
    { rewrite <- (Hv k Hk). unfold row_dot, gelim. now rewrite Nat.eqb_refl. }
    intros r Hr. destruct (Nat.eq_dec r k) as [->|Hrk]; [exact Hvk|].
    specialize (Hv r Hr). unfold row_dot, gelim in Hv.
    rewrite (proj2 (Nat.eqb_neq _ _) Hrk) in Hv.
    rewrite (fsum_ext _ _ (fun c => G r c * v c + (- G r k) * (G k c * v c))) in Hv
      by (intros; ring).
    rewrite fsum_add, fsum_scale in Hv. unfold row_dot in *. rewrite Hvk in Hv.
    rewrite <- Hv. ring.
  - intros r c Hr Hc. unfold gelim.
    destruct (Nat.eqb_spec r k) as [->|Hrk].
    + destruct (Nat.eq_dec c k) as [->|Hck]; [now rewrite delta_eq|apply Hunit; lia].
    + destruct (Nat.eq_dec c k) as [->|Hck].
      * rewrite Hone, delta_ne by assumption. ring.
      * rewrite (Hunit k c), (Hunit r c) by lia. rewrite (delta_ne k c) by lia. ring.
Qed.

(** If no pivot is left in column [k], then [A] has a non-zero solution. *)
Lemma gj_no_pivot (k : nat) (G : mat) :
  (k < n)%nat -> gj_inv k G -> (forall r, (k <= r < n)%nat -> G r k = 0) ->
  ~ kernel_trivial n A.
Proof.
  intros Hk [Hprod Hker Hunit] Hz Htriv.
  set (v := fun c => if Nat.ltb c k then - G c k else delta c k).
  assert (Hv : forall r, (r < n)%nat -> row_dot n G r v = 0).
  { intros r Hr. unfold row_dot.
    rewrite (fsum_ext _ _ (fun c => delta k c * G r k
               + (if Nat.ltb c k then delta r c * (- G c k) else 0))).
    - rewrite fsum_add, fsum_delta by assumption.
      destruct (Nat.ltb_spec r k) as [Hlt|Hge].
      + rewrite (fsum_ext _ (fun c => if Nat.ltb c k then delta r c * (- G c k) else 0)
                   (fun c => delta r c * (if Nat.ltb c k then - G c k else 0))).
        * rewrite fsum_delta by assumption. rewrite (proj2 (Nat.ltb_lt _ _) Hlt). ring.
        * intros c _. destruct (Nat.ltb c k); ring.
      + rewrite Hz by lia. rewrite fsum_zero; [ring|].
        intros c _. destruct (Nat.ltb_spec c k); [|reflexivity].
        rewrite delta_ne by lia. ring.
    - intros c Hc. unfold v. destruct (Nat.ltb_spec c k) as [Hlt|Hge].
      + rewrite Hunit by lia. rewrite (delta_ne k c) by lia. ring.
      + destruct (Nat.eq_dec c k) as [->|Hne]; [rewrite delta_eq; ring|].
        rewrite !delta_ne by lia. ring. }
  apply f1_neq_f0. rewrite <- (Htriv v (Hker v Hv) k Hk). unfold v.
  rewrite Nat.ltb_irrefl. now rewrite delta_eq.
Qed.

Lemma gj_step_some (k : nat) (G G' : mat) :
  (k < n)%nat -> gj_step n G k = Some G' -> gj_inv k G -> gj_inv (S k) G'.
Proof.
  intros Hk. unfold gj_step.
  destruct (find _ _) as [p|] eqn:Ef; [|discriminate]. intros [= <-] HG.
  apply find_some in Ef as [Hin Hp]. apply in_seq in Hin. apply nonzero_true in Hp.
  assert (Hp1 : gswap G k p k k = G p k) by (unfold gswap; now rewrite Nat.eqb_refl).
  apply gj_inv_elim; [assumption| |].
  - unfold gscale. rewrite Nat.eqb_refl. apply fmul_inv_r. now rewrite Hp1.
  - apply gj_inv_scale; [assumption|now rewrite Hp1|].
    apply gj_inv_swap; [lia|lia|assumption].
Qed.

Lemma gj_step_none (k : nat) (G : mat) :
  (k < n)%nat -> gj_step n G k = None -> gj_inv k G -> ~ kernel_trivial n A.
Proof.
  intros Hk. unfold gj_step. destruct (find _ _) as [p|] eqn:Ef; [discriminate|].
  intros _ HG. apply (gj_no_pivot k G Hk HG). intros r Hr.
  assert (Hn : nonzero (G r k) = false).
  { apply (find_none _ _ Ef). apply in_seq. lia. }
  unfold nonzero in Hn. now destruct (f_dec (G r k) 0).
Qed.

(** After the [n]-th step the right half is a left inverse of [A]. *)
Lemma gj_final (G : mat) (r c : nat) :
  gj_inv n G -> (r < n)%nat -> (c < n)%nat ->
  fsum n (fun j => G r (n + j)%nat * A j c) = delta r c.
Proof. intros [Hprod _ Hunit] Hr Hc. rewrite <- Hprod by assumption. now apply Hunit. Qed.
End Gauss.
