(* ===== verification/JsString.v ===== *)
(** * JsString: the strings and numeric literals of the language

    The fragment of the language's string library the modelled code uses:
    [toString(radix)], [padStart], [slice], [split], [startsWith], [trim],
    [parseInt] and [BigInt(string)].  Strings are sequences of 8-bit characters,
    which covers every string the modelled services build or inspect. *)

From Stdlib Require Import Ascii String ZArith List Lia Bool.
Import ListNotations.
From S2P Require Import Prelude.

Open Scope list_scope.
Open Scope Z_scope.

(** ** Digits *)

Definition digit_char (d : Z) : ascii :=
  if d <? 10 then ascii_of_nat (48 + Z.to_nat d) else ascii_of_nat (87 + Z.to_nat d).

Definition digit_val (c : ascii) : option Z :=
  let n := Z.of_nat (nat_of_ascii c) in
  if (48 <=? n) && (n <=? 57) then Some (n - 48)
  else if (97 <=? n) && (n <=? 122) then Some (n - 87)
  else if (65 <=? n) && (n <=? 90) then Some (n - 55)
  else None.

(** [n.toString(b)] for a non-negative [n]: digits from the least significant,
    one unit of fuel a digit; [log2 n + 1] digits are enough for any base. *)
Fixpoint digits_fuel (fuel : nat) (b n : Z) (acc : string) : string :=
  match fuel with
  | O => acc
  | S f =>
      let acc := String (digit_char (n mod b)) acc in
      if n / b =? 0 then acc else digits_fuel f b (n / b) acc
  end.

Definition to_base (b n : Z) : string :=
  if n <? 0 then String "-" (digits_fuel (S (Z.to_nat (Z.log2 (- n)))) b (- n) "")
  else digits_fuel (S (Z.to_nat (Z.log2 n))) b n "".

(** [String(n)] and [`${n}`] of an integer, [n.toString(16)]. *)
Definition num_str (n : Z) : string := to_base 10 n.
Definition to_hex (n : Z) : string := to_base 16 n.

(** The value of a string of digits of base [b]; [None] on another character. *)
Fixpoint parse_acc (b : Z) (s : string) (acc : Z) : option Z :=
  match s with
  | EmptyString => Some acc
  | String c s' =>
      match digit_val c with
      | Some d => if d <? b then parse_acc b s' (acc * b + d) else None
      | None => None
      end
  end.

Definition parse_digits (b : Z) (s : string) : option Z :=
  match s with EmptyString => None | _ => parse_acc b s 0 end.

(** ** Slicing, padding, splitting *)

Fixpoint slice_from (n : nat) (s : string) : string :=
  match n, s with
  | O, _ => s
  | S n', EmptyString => EmptyString
  | S n', String _ s' => slice_from n' s'
  end.

Fixpoint take (n : nat) (s : string) : string :=
  match n, s with
  | O, _ => EmptyString
  | S n', EmptyString => EmptyString
  | S n', String c s' => String c (take n' s')
  end.

(** [s.slice(i, j)] with [0 <= i <= j]. *)
Definition slice (i j : nat) (s : string) : string := take (j - i) (slice_from i s).

Fixpoint repeat_char (n : nat) (c : ascii) : string :=
  match n with O => EmptyString | S k => String c (repeat_char k c) end.

(** [s.padStart(n, c)]. *)
Definition padStart (n : nat) (c : ascii) (s : string) : string :=
  (repeat_char (n - String.length s) c ++ s)%string.

Fixpoint startsWith (p s : string) : bool :=
  match p, s with
  | EmptyString, _ => true
  | String a p', String b s' => Ascii.eqb a b && startsWith p' s'
  | String _ _, EmptyString => false
  end.

(** [s.split(c)] for a one-character separator. *)
Fixpoint split (c : ascii) (s : string) : list string :=
  match s with
  | EmptyString => [EmptyString]
  | String a s' =>
      if Ascii.eqb a c then EmptyString :: split c s'
      else match split c s' with
           | p :: ps => String a p :: ps
           | [] => [String a EmptyString]
           end
  end.

(** [xs.join("")]. *)
Fixpoint concat_all (l : list string) : string :=
  match l with [] => EmptyString | s :: l' => (s ++ concat_all l')%string end.

Definition is_space (c : ascii) : bool :=
  let n := nat_of_ascii c in
  ((9 <=? n) && (n <=? 13) || (n =? 32) || (n =? 160))%nat%bool.

Fixpoint trim_start (s : string) : string :=
  match s with
  | String c s' => if is_space c then trim_start s' else s
  | EmptyString => EmptyString
  end.

Fixpoint trim_end (s : string) : string :=
  match s with
  | EmptyString => EmptyString
  | String c s' =>
      match trim_end s' with
      | EmptyString => if is_space c then EmptyString else String c EmptyString
      | t => String c t
      end
  end.

Definition trim (s : string) : string := trim_end (trim_start s).

(** [BigInt(s)]: white space is trimmed, the empty string is 0, prefixes 0x, 0o
    and 0b select the base and only decimal literals may carry a sign. *)
Definition BigInt_str (s : string) : res Z :=
  let bad := Throw "SyntaxError: Cannot convert string to a BigInt"%string in
  let digits b t := match parse_digits b t with Some v => Ok v | None => bad end in
  let t := trim s in
  match t with
  | EmptyString => Ok 0
  | String "0" (String "x" t') | String "0" (String "X" t') => digits 16 t'
  | String "0" (String "o" t') | String "0" (String "O" t') => digits 8 t'
  | String "0" (String "b" t') | String "0" (String "B" t') => digits 2 t'
  | String "-" t' => res_map Z.opp (digits 10 t')
  | String "+" t' => digits 10 t'
  | _ => digits 10 t
  end.

(** [BigInt("0x" + h)]. *)
Definition BigInt_hex (h : string) : res Z := BigInt_str ("0x" ++ h)%string.

(** [parseInt(s, b)]: the longest prefix of digits; [None] is [NaN]. *)
Fixpoint digit_prefix (b : Z) (s : string) : string :=
  match s with
  | EmptyString => EmptyString
  | String c s' =>
      match digit_val c with
      | Some d => if d <? b then String c (digit_prefix b s') else EmptyString
      | None => EmptyString
      end
  end.

Definition parseInt (b : Z) (s : string) : option Z :=
  let strip t := if b =? 16 then
                   match t with
                   | String "0" (String "x" t') | String "0" (String "X" t') => t'
                   | _ => t
                   end
                 else t in
  match trim_start s with
  | String "-" t => option_map Z.opp (parse_digits b (digit_prefix b (strip t)))
  | String "+" t => parse_digits b (digit_prefix b (strip t))
  | t => parse_digits b (digit_prefix b (strip t))
  end.

(** [byte.toString(16).padStart(2, "0")] over a byte array. *)
Definition byte_hex (z : Z) : string := padStart 2 "0" (to_hex z).
Definition bytes_hex (l : list Z) : string := concat_all (map byte_hex l).

(** ** Lemmas on strings *)

Lemma str_app_assoc (a b c : string) : ((a ++ b) ++ c = a ++ (b ++ c))%string.
Proof. induction a as [|x a IH]; simpl; [reflexivity|now rewrite IH]. Qed.

Lemma str_app_nil_r (a : string) : (a ++ "" = a)%string.
Proof. induction a as [|x a IH]; simpl; [reflexivity|now rewrite IH]. Qed.

Lemma str_length_app (a b : string) :
  String.length (a ++ b) = (String.length a + String.length b)%nat.
Proof. induction a as [|x a IH]; simpl; [reflexivity|now rewrite IH]. Qed.

Lemma slice_from_app (a b : string) : slice_from (String.length a) (a ++ b) = b.
Proof. induction a as [|x a IH]; simpl; auto. Qed.

Lemma take_app (a b : string) : take (String.length a) (a ++ b) = a.
Proof. induction a as [|x a IH]; simpl; [reflexivity|now rewrite IH]. Qed.

Lemma take_all (a : string) (n : nat) : (String.length a <= n)%nat -> take n a = a.
Proof.
  revert n. induction a as [|x a IH]; intros [|n] H; simpl in *; try reflexivity; try lia.
  rewrite IH by lia. reflexivity.
Qed.

Lemma slice_from_all (a : string) (n : nat) :
  (String.length a <= n)%nat -> slice_from n a = EmptyString.
Proof.
  revert n. induction a as [|x a IH]; intros [|n] H; simpl in *; try reflexivity; try lia.
  apply IH. lia.
Qed.

Lemma startsWith_app (p s : string) : startsWith p (p ++ s) = true.
Proof. induction p as [|a p IH]; simpl; [reflexivity|]. now rewrite Ascii.eqb_refl. Qed.

Lemma repeat_char_length (n : nat) (c : ascii) : String.length (repeat_char n c) = n.
Proof. induction n as [|n IH]; simpl; [reflexivity|now rewrite IH]. Qed.

Lemma padStart_length (n : nat) (c : ascii) (s : string) :
  String.length (padStart n c s) = Nat.max n (String.length s).
Proof. unfold padStart. rewrite str_length_app, repeat_char_length. lia. Qed.

(** All characters of a string satisfy [P]. *)
Fixpoint str_all (P : ascii -> bool) (s : string) : bool :=
  match s with EmptyString => true | String c s' => P c && str_all P s' end.

Lemma str_all_app (P : ascii -> bool) (a b : string) :
  str_all P (a ++ b) = str_all P a && str_all P b.
Proof. induction a as [|x a IH]; simpl; [reflexivity|]. now rewrite IH, andb_assoc. Qed.

Lemma str_all_impl (P Q : ascii -> bool) (s : string) :
  (forall c, P c = true -> Q c = true) -> str_all P s = true -> str_all Q s = true.
Proof.
  intros H. induction s as [|c s IH]; simpl; [easy|]. intros Hs.
  apply andb_true_iff in Hs as [Hc Hs]. now rewrite (H c Hc), IH.
Qed.

Lemma str_all_repeat (P : ascii -> bool) (n : nat) (c : ascii) :
  P c = true -> str_all P (repeat_char n c) = true.
Proof. intros H. induction n as [|n IH]; simpl; [reflexivity|]. now rewrite H, IH. Qed.

Definition is_digit (b : Z) (c : ascii) : bool :=
  match digit_val c with Some d => d <? b | None => false end.

Definition not_char (a c : ascii) : bool := negb (Ascii.eqb c a).

Lemma split_no_sep (c : ascii) (s : string) :
  str_all (not_char c) s = true -> split c s = [s].
Proof.
  induction s as [|a s IH]; simpl; [reflexivity|]. intros H.
  apply andb_true_iff in H as [Ha Hs]. unfold not_char in Ha.
  apply negb_true_iff in Ha. now rewrite Ha, IH.
Qed.

Lemma split_sep (c : ascii) (a b : string) :
  str_all (not_char c) a = true -> split c (a ++ String c b) = a :: split c b.
Proof.
  induction a as [|x a IH]; simpl; intros H.
  - now rewrite Ascii.eqb_refl.
  - apply andb_true_iff in H as [Hx Ha]. unfold not_char in Hx.
    apply negb_true_iff in Hx. now rewrite Hx, IH.
Qed.

Lemma trim_start_digits (b : Z) (s : string) :
  str_all (is_digit b) s = true -> trim_start s = s.
Proof.
  destruct s as [|c s]; simpl; [reflexivity|]. intros H.
  apply andb_true_iff in H as [Hc _].
  destruct (is_space c) eqn:E; [|reflexivity]. exfalso.
  revert Hc E. unfold is_digit, digit_val, is_space. clear. cbv zeta.
  set (n := nat_of_ascii c). clearbody n. intros Hc E.
  rewrite !orb_true_iff, andb_true_iff, !Nat.leb_le, !Nat.eqb_eq in E.
  destruct ((48 <=? Z.of_nat n) && (Z.of_nat n <=? 57)) eqn:E1; [lia|].
  destruct ((97 <=? Z.of_nat n) && (Z.of_nat n <=? 122)) eqn:E2; [lia|].
  destruct ((65 <=? Z.of_nat n) && (Z.of_nat n <=? 90)) eqn:E3; [lia|discriminate].
Qed.

Lemma digit_not_space (b : Z) (c : ascii) : is_digit b c = true -> is_space c = false.
Proof.
  intros H. pose proof (trim_start_digits b (String c "")) as E. simpl in E.
  rewrite H in E. specialize (E eq_refl). destruct (is_space c); [discriminate|reflexivity].
Qed.

Lemma trim_end_id (s : string) :
  str_all (fun c => negb (is_space c)) s = true -> trim_end s = s.
Proof.
  induction s as [|c s IH]; simpl; [reflexivity|]. intros H.
  apply andb_true_iff in H as [Hc Hs]. apply negb_true_iff in Hc.
  rewrite IH by assumption. destruct s; [now rewrite Hc|reflexivity].
Qed.

(** ** Printing and parsing *)

Lemma digit_val_char (d : Z) : 0 <= d < 36 -> digit_val (digit_char d) = Some d.
Proof.
  intros H. unfold digit_val, digit_char.
  destruct (Z.ltb_spec d 10); rewrite nat_ascii_embedding by lia.
  - replace (Z.of_nat (48 + Z.to_nat d)) with (48 + d) by lia.
    replace ((48 <=? 48 + d) && (48 + d <=? 57)) with true by lia. f_equal. lia.
  - replace (Z.of_nat (87 + Z.to_nat d)) with (87 + d) by lia.
    replace ((48 <=? 87 + d) && (87 + d <=? 57)) with false by lia.
    replace ((97 <=? 87 + d) && (87 + d <=? 122)) with true by lia. f_equal. lia.
Qed.

Section Base.
Variable b : Z.
Hypothesis Hb : 2 <= b <= 36.

Lemma digits_fuel_parse (f : nat) (n : Z) (s : string) (a : Z) :
  0 <= n < 2 ^ Z.of_nat f ->
  exists k, parse_acc b (digits_fuel f b n s) a = parse_acc b s (a * b ^ Z.of_nat k + n).
Proof.
  revert n s a. induction f as [|f IH]; intros n s a Hn; simpl.
  - exists 0%nat. simpl in Hn. f_equal. simpl. lia.
  - assert (Hd : 0 <= n mod b < 36) by (pose proof (Z.mod_pos_bound n b); lia).
    assert (Hn' : 0 <= n / b < 2 ^ Z.of_nat f).
    { split; [apply Z.div_pos; lia|]. apply Z.div_lt_upper_bound; [lia|].
      rewrite Nat2Z.inj_succ, Z.pow_succ_r in Hn by lia. nia. }
    pose proof (Z.div_mod n b ltac:(lia)) as Edm.
    destruct (Z.eqb_spec (n / b) 0) as [E|E].
    + exists 1%nat. simpl. rewrite digit_val_char by assumption.
      replace (n mod b <? b) with true
        by (symmetry; apply Z.ltb_lt, Z.mod_pos_bound; lia).
      f_equal. rewrite E in Edm. replace (Z.pow_pos b 1) with b by lia. lia.
    + destruct (IH (n / b) (String (digit_char (n mod b)) s) a Hn') as (k & Hk).
      exists (S k). rewrite Hk. cbn [parse_acc]. rewrite digit_val_char by assumption.
      replace (n mod b <? b) with true
        by (symmetry; apply Z.ltb_lt, Z.mod_pos_bound; lia).
      f_equal. rewrite Nat2Z.inj_succ, Z.pow_succ_r by lia.
      rewrite Edm at 3. ring.
Qed.

Lemma digits_fuel_all (f : nat) (n : Z) (s : string) :
  0 <= n -> str_all (is_digit b) s = true ->
  str_all (is_digit b) (digits_fuel f b n s) = true.
Proof.
  revert n s. induction f as [|f IH]; intros n s Hn Hs; simpl; [assumption|].
  pose proof (Z.mod_pos_bound n b ltac:(lia)) as Hm.
  assert (H : str_all (is_digit b) (String (digit_char (n mod b)) s) = true).
  { simpl. rewrite Hs, andb_true_r. unfold is_digit.
    rewrite digit_val_char by lia. lia. }
  destruct (n / b =? 0); [assumption|]. apply IH; [apply Z.div_pos; lia|assumption].
Qed.

Lemma digits_fuel_nonempty (f : nat) (n : Z) (s : string) :
  s <> EmptyString -> digits_fuel f b n s <> EmptyString.
Proof.
  revert n s. induction f as [|f IH]; intros n s Hs; simpl; [assumption|].
  destruct (n / b =? 0); [easy|]. now apply IH.
Qed.

Lemma to_base_nonneg (n : Z) :
  0 <= n -> to_base b n = digits_fuel (S (Z.to_nat (Z.log2 n))) b n "".
Proof. intros Hn. unfold to_base. now rewrite (proj2 (Z.ltb_ge _ _)). Qed.

Lemma to_base_fuel (n : Z) : 0 <= n -> n < 2 ^ Z.of_nat (S (Z.to_nat (Z.log2 n))).
Proof.
  intros Hn. rewrite Nat2Z.inj_succ, Z2Nat.id by apply Z.log2_nonneg.
  destruct (Z.eq_dec n 0) as [->|Hne]; [reflexivity|]. apply Z.log2_spec. lia.
Qed.

Lemma to_base_digits (n : Z) : 0 <= n -> str_all (is_digit b) (to_base b n) = true.
Proof. intros Hn. rewrite to_base_nonneg by assumption. now apply digits_fuel_all. Qed.

Lemma to_base_nonempty (n : Z) : 0 <= n -> to_base b n <> EmptyString.
Proof.
  intros Hn. rewrite to_base_nonneg by assumption. simpl.
  destruct (n / b =? 0); [easy|]. now apply digits_fuel_nonempty.
Qed.

Lemma parse_acc_zeros (k : nat) (s : string) : parse_acc b (repeat_char k "0" ++ s) 0 = parse_acc b s 0.
Proof. induction k as [|k IH]; simpl; [reflexivity|]. destruct (Z.ltb_spec 0 b); [|lia]. exact IH. Qed.

Lemma parse_to_base_acc (n : Z) : 0 <= n -> parse_acc b (to_base b n) 0 = Some n.
Proof.
  intros Hn. rewrite to_base_nonneg by assumption.
  destruct (digits_fuel_parse (S (Z.to_nat (Z.log2 n))) n "" 0) as (k & ->).
  { split; [assumption|now apply to_base_fuel]. }
  simpl. f_equal.
Qed.

(** Padding with zeros does not change the value. *)
Lemma parse_pad_to_base (k : nat) (n : Z) :
  0 <= n -> parse_digits b (padStart k "0" (to_base b n)) = Some n.
Proof.
  intros Hn. unfold parse_digits, padStart.
  pose proof (to_base_nonempty n Hn) as Hne.
  destruct (repeat_char (k - String.length (to_base b n)) "0" ++ to_base b n)%string eqn:E.
  - destruct (k - String.length (to_base b n))%nat; simpl in E; congruence.
  - rewrite <- E, parse_acc_zeros. now apply parse_to_base_acc.
Qed.

Lemma parse_to_base (n : Z) : 0 <= n -> parse_digits b (to_base b n) = Some n.
Proof. intros Hn. exact (parse_pad_to_base 0 n Hn). Qed.

Lemma pad_to_base_digits (k : nat) (n : Z) :
  0 <= n -> str_all (is_digit b) (padStart k "0" (to_base b n)) = true.
Proof.
  intros Hn. unfold padStart. rewrite str_all_app, to_base_digits, andb_true_r by assumption.
  apply str_all_repeat. unfold is_digit. simpl. lia.
Qed.

Lemma digit_prefix_all (s : string) :
  str_all (is_digit b) s = true -> digit_prefix b s = s.
Proof.
  induction s as [|c s IH]; simpl; [reflexivity|]. intros H.
  apply andb_true_iff in H as [Hc Hs]. unfold is_digit in Hc.
  destruct (digit_val c); [|discriminate]. now rewrite Hc, IH.
Qed.
End Base.

Lemma digit_not_dash (b : Z) (c : ascii) : is_digit b c = true -> not_char "-" c = true.
Proof.
  intros H. unfold not_char. destruct (Ascii.eqb_spec c "-") as [->|]; [|reflexivity].
  discriminate H.
Qed.

Lemma digits_not_dash (b : Z) (s : string) :
  str_all (is_digit b) s = true -> str_all (not_char "-") s = true.
Proof. apply str_all_impl, digit_not_dash. Qed.

Lemma trim_digits (b : Z) (s : string) : str_all (is_digit b) s = true -> trim s = s.
Proof.
  intros H. unfold trim. rewrite (trim_start_digits b) by assumption.
  apply trim_end_id. revert H. apply str_all_impl. intros c Hc.
  now rewrite (digit_not_space b).
Qed.

(** Hexadecimal: [BigInt("0x" + n.toString(16).padStart(k, "0")) = n]. *)
Lemma BigInt_hex_digits (h : string) :
  str_all (is_digit 16) h = true ->
  BigInt_hex h = match parse_digits 16 h with
                 | Some v => Ok v
                 | None => Throw "SyntaxError: Cannot convert string to a BigInt"%string
                 end.
Proof.
  intros H. unfold BigInt_hex, BigInt_str.
  assert (E : trim ("0x" ++ h) = ("0x" ++ h)%string).
  { unfold trim. change (trim_start ("0x" ++ h)) with ("0x" ++ h)%string.
    apply trim_end_id. rewrite str_all_app. simpl. revert H. apply str_all_impl. intros c Hc. now rewrite (digit_not_space 16). }
  now rewrite E.
Qed.

Lemma BigInt_hex_pad (k : nat) (n : Z) :
  0 <= n -> BigInt_hex (padStart k "0" (to_hex n)) = Ok n.
Proof.
  intros Hn. rewrite BigInt_hex_digits by (apply pad_to_base_digits; lia).
  unfold to_hex. now rewrite parse_pad_to_base by lia.
Qed.

Lemma BigInt_hex_to_hex (n : Z) : 0 <= n -> BigInt_hex (to_hex n) = Ok n.
Proof. intros Hn. exact (BigInt_hex_pad 0 n Hn). Qed.

(** Decimal: a string of decimal digits has no base prefix, so [BigInt] and
    [parseInt] read it in base 10. *)
Lemma BigInt_str_decimal (s : string) :
  str_all (is_digit 10) s = true ->
  BigInt_str s = match s with
                 | EmptyString => Ok 0
                 | _ => match parse_digits 10 s with
                        | Some v => Ok v
                        | None => Throw "SyntaxError: Cannot convert string to a BigInt"%string
                        end
                 end.
Proof.
  intros H. unfold BigInt_str. rewrite (trim_digits 10) by assumption.
  destruct s as [|[[] [] [] [] [] [] [] []] s]; try discriminate H; try reflexivity.
  destruct s as [|[[] [] [] [] [] [] [] []] s]; try discriminate H; reflexivity.
Qed.

Lemma BigInt_str_num (n : Z) : 0 <= n -> BigInt_str (num_str n) = Ok n.
Proof.
  intros Hn. unfold num_str. rewrite BigInt_str_decimal by (apply to_base_digits; lia).
  rewrite parse_to_base by lia.
  pose proof (to_base_nonempty 10 ltac:(lia) n Hn). now destruct (to_base 10 n).
Qed.

Lemma no_0x_prefix (s : string) : str_all (is_digit 16) s = true ->
  startsWith "0x" s = false /\ startsWith "0X" s = false.
Proof.
  destruct s as [|a [|c s]]; try (intros; split; simpl; now rewrite ?andb_false_r).
  cbn [str_all startsWith]. intros H. apply andb_true_iff in H as [_ H].
  apply andb_true_iff in H as [H _].
  destruct (Ascii.eqb_spec "x" c) as [<-|_]; [discriminate H|].
  destruct (Ascii.eqb_spec "X" c) as [<-|_]; [discriminate H|].
  split; apply andb_false_r.
Qed.

Lemma parseInt_digits (b : Z) (s : string) :
  b <= 16 -> (b = 16 -> startsWith "0x" s = false /\ startsWith "0X" s = false) ->
  str_all (is_digit b) s = true -> parseInt b s = parse_digits b s.
Proof.
  intros Hb Hx H. unfold parseInt. rewrite (trim_start_digits b) by assumption.
  assert (E : (if b =? 16 then
                 match s with
                 | String "0" (String "x" t') | String "0" (String "X" t') => t'
                 | _ => s
                 end else s) = s).
  { destruct (Z.eqb_spec b 16) as [E|]; [|reflexivity]. destruct (Hx E) as [H1 H2].
    destruct s as [|[[] [] [] [] [] [] [] []] s]; try reflexivity.
    destruct s as [|[[] [] [] [] [] [] [] []] s]; try reflexivity; discriminate. }
  destruct s as [|c s]; [now destruct (b =? 16)|].
  destruct c as [[] [] [] [] [] [] [] []]; try discriminate H;
    rewrite E; now rewrite digit_prefix_all.
Qed.

Lemma num_str_inj (n m : Z) : 0 <= n -> 0 <= m -> num_str n = num_str m -> n = m.
Proof.
  intros Hn Hm E. apply (f_equal (parse_digits 10)) in E.
  unfold num_str in E. rewrite !parse_to_base in E by lia. congruence.
Qed.

Lemma parseInt_num (n : Z) : 0 <= n -> parseInt 10 (num_str n) = Some n.
Proof.
  intros Hn. unfold num_str. rewrite parseInt_digits; [|lia|lia|apply to_base_digits; lia].
  apply parse_to_base; lia.
Qed.

#[export] Hint Resolve to_base_digits to_base_nonempty pad_to_base_digits digits_not_dash : cg.

(** ** Canonical digit strings

    Two strings of the same length over the digits [to_base] prints are equal
    when they have the same value, so padding undoes parsing. *)

Definition canon_digit (b : Z) (c : ascii) : bool :=
  match digit_val c with Some d => (d <? b) && Ascii.eqb c (digit_char d) | None => false end.

Lemma canon_is_digit (b : Z) (c : ascii) : canon_digit b c = true -> is_digit b c = true.
Proof.
  unfold canon_digit, is_digit. destruct (digit_val c); [|easy].
  intros H. now apply andb_true_iff in H.
Qed.

Lemma digit_val_nonneg (c : ascii) (d : Z) : digit_val c = Some d -> 0 <= d.
Proof.
  unfold digit_val. set (n := Z.of_nat (nat_of_ascii c)). cbv zeta.
  destruct ((48 <=? n) && (n <=? 57)) eqn:E1; [intros [= <-]; lia|].
  destruct ((97 <=? n) && (n <=? 122)) eqn:E2; [intros [= <-]; lia|].
  destruct ((65 <=? n) && (n <=? 90)) eqn:E3; [intros [= <-]; lia|discriminate].
Qed.

Section Canonical.
Variable b : Z.
Hypothesis Hb : 2 <= b <= 36.

Lemma parse_acc_value (s : string) (a : Z) :
  str_all (is_digit b) s = true -> 0 <= a ->
  exists w, parse_acc b s a = Some (a * b ^ Z.of_nat (String.length s) + w)
    /\ 0 <= w < b ^ Z.of_nat (String.length s).
Proof.
  revert a. induction s as [|c s IH]; intros a Hs Ha; cbn [String.length parse_acc].
  - exists 0. change (Z.of_nat 0) with 0. rewrite Z.pow_0_r. split; [f_equal; lia|lia].
  - simpl in Hs. apply andb_true_iff in Hs as [Hc Hs]. unfold is_digit in Hc.
    destruct (digit_val c) as [d|] eqn:Ed; [|discriminate]. rewrite Hc.
    apply Z.ltb_lt in Hc. pose proof (digit_val_nonneg c d Ed) as Hd.
    destruct (IH (a * b + d) Hs ltac:(nia)) as (w & -> & Hw).
    rewrite Nat2Z.inj_succ, Z.pow_succ_r by lia.
    exists (d * b ^ Z.of_nat (String.length s) + w). split; [f_equal; ring|nia].
Qed.

Lemma canon_parse_inj (s t : string) (a a' v : Z) :
  String.length s = String.length t ->
  str_all (canon_digit b) s = true -> str_all (canon_digit b) t = true ->
  0 <= a -> 0 <= a' -> parse_acc b s a = Some v -> parse_acc b t a' = Some v ->
  s = t /\ a = a'.
Proof.
  revert t a a'. induction s as [|c s IH]; intros [|c' t] a a' Hl Hs Ht Ha Ha' E E';
    try discriminate Hl; simpl in *; [split; congruence|].
  apply andb_true_iff in Hs as [Hc Hs], Ht as [Hc' Ht]. unfold canon_digit in Hc, Hc'.
  destruct (digit_val c) as [d|] eqn:Ed; [|discriminate].
  destruct (digit_val c') as [d'|] eqn:Ed'; [|discriminate].
  apply andb_true_iff in Hc as [Hd Hc], Hc' as [Hd' Hc'].
  rewrite Hd in E. rewrite Hd' in E'. apply Ascii.eqb_eq in Hc, Hc'.
  pose proof (digit_val_nonneg _ _ Ed). pose proof (digit_val_nonneg _ _ Ed').
  destruct (IH t (a * b + d) (a' * b + d')) as [-> Eq]; try assumption; try nia; try lia.
  apply Z.ltb_lt in Hd, Hd'. assert (a = a') by nia. assert (d = d') by nia. subst.
  split; congruence.
Qed.

Lemma digits_fuel_canon (f : nat) (n : Z) (s : string) :
  0 <= n -> str_all (canon_digit b) s = true ->
  str_all (canon_digit b) (digits_fuel f b n s) = true.
Proof.
  revert n s. induction f as [|f IH]; intros n s Hn Hs; simpl; [assumption|].
  pose proof (Z.mod_pos_bound n b ltac:(lia)) as Hm.
  assert (H : str_all (canon_digit b) (String (digit_char (n mod b)) s) = true).
  { simpl. rewrite Hs, andb_true_r. unfold canon_digit.
    rewrite digit_val_char, Ascii.eqb_refl, andb_true_r by lia. lia. }
  destruct (n / b =? 0); [assumption|]. apply IH; [apply Z.div_pos; lia|assumption].
Qed.

Lemma digits_fuel_length (f k : nat) (n : Z) (s : string) :
  0 <= n < b ^ Z.of_nat k -> (1 <= k)%nat ->
  (String.length (digits_fuel f b n s) <= k + String.length s)%nat.
Proof.
  revert k n s. induction f as [|f IH]; intros k n s Hn Hk; simpl; [lia|].
  destruct (Z.eqb_spec (n / b) 0) as [E|E]; [simpl; lia|].
  destruct k as [|[|k]]; [lia| |].
  - rewrite Z.div_small in E; [lia|]. change (Z.of_nat 1) with 1 in Hn. lia.
  - specialize (IH (S k) (n / b) (String (digit_char (n mod b)) s)). simpl in IH |- *.
    enough (0 <= n / b < b ^ Z.of_nat (S k)) by (simpl in *; lia).
    split; [apply Z.div_pos; lia|]. apply Z.div_lt_upper_bound; [lia|].
    rewrite <- Z.pow_succ_r by lia. now rewrite <- Nat2Z.inj_succ.
Qed.

Lemma to_base_length (k : nat) (n : Z) :
  0 <= n < b ^ Z.of_nat k -> (1 <= k)%nat -> (String.length (to_base b n) <= k)%nat.
Proof.
  intros Hn Hk. rewrite to_base_nonneg by lia.
  pose proof (digits_fuel_length (S (Z.to_nat (Z.log2 n))) k n "" Hn Hk) as H.
  rewrite Nat.add_0_r in H. exact H.
Qed.

Lemma pad_canonical (s : string) (v : Z) :
  str_all (canon_digit b) s = true -> parse_digits b s = Some v ->
  padStart (String.length s) "0" (to_base b v) = s.
Proof.
  intros Hs Hv. assert (Hne : s <> ""%string) by (intros ->; discriminate Hv).
  assert (Hp : parse_acc b s 0 = Some v) by (destruct s; [contradiction|exact Hv]).
  assert (Hd : str_all (is_digit b) s = true)
    by (revert Hs; apply str_all_impl, canon_is_digit).
  destruct (parse_acc_value s 0 Hd ltac:(lia)) as (w & E & Hw).
  rewrite E in Hp. injection Hp as Hp.
  assert (Hl : (1 <= String.length s)%nat) by (destruct s; [contradiction|simpl; lia]).
  assert (Hv0 : 0 <= v < b ^ Z.of_nat (String.length s)) by lia.
  pose proof (to_base_length (String.length s) v Hv0 Hl) as Hlen.
  refine (proj1 (canon_parse_inj _ _ 0 0 v _ _ Hs ltac:(lia) ltac:(lia) _ _)).
  - rewrite padStart_length. lia.
  - unfold padStart. rewrite str_all_app. apply andb_true_iff. split.
    + apply str_all_repeat. unfold canon_digit. simpl. lia.
    + rewrite to_base_nonneg by lia. now apply digits_fuel_canon; [lia|].
  - unfold padStart. rewrite parse_acc_zeros by lia. apply parse_to_base_acc; lia.
  - rewrite E. f_equal. lia.
Qed.
End Canonical.
