(* ===== verification/Base64.v ===== *)
(** * Base64: the byte strings of crypto.ts in Base64

    [btoa] and [atob] are the platform's; [base64ToUint8Array] also accepts the
    URL-safe alphabet, white space and missing padding.  A binary string is the
    list of its character codes. *)

From Stdlib Require Import Ascii String ZArith List Lia Bool.
Import ListNotations.
From S2P Require Import Prelude Bytes JsString.

Open Scope list_scope.
Open Scope Z_scope.

(** ** The alphabet *)

Definition b64_char (n : Z) : ascii :=
  if n <? 26 then ascii_of_nat (65 + Z.to_nat n)
  else if n <? 52 then ascii_of_nat (71 + Z.to_nat n)
  else if n <? 62 then ascii_of_nat (Z.to_nat n - 4)
  else if n =? 62 then "+"%char else "/"%char.

Definition b64_val (c : ascii) : option Z :=
  let n := Z.of_nat (nat_of_ascii c) in
  if (65 <=? n) && (n <=? 90) then Some (n - 65)
  else if (97 <=? n) && (n <=? 122) then Some (n - 71)
  else if (48 <=? n) && (n <=? 57) then Some (n + 4)
  else if n =? 43 then Some 62
  else if n =? 47 then Some 63
  else None.

(** ** Encoding *)

(** The digits without padding. *)
Fixpoint b64_digits (l : list Z) : string :=
  match l with
  | a :: b :: c :: l' =>
      String (b64_char (a / 4)) (String (b64_char (a mod 4 * 16 + b / 16))
        (String (b64_char (b mod 16 * 4 + c / 64)) (String (b64_char (c mod 64)) (b64_digits l'))))
  | [a; b] =>
      String (b64_char (a / 4)) (String (b64_char (a mod 4 * 16 + b / 16))
        (String (b64_char (b mod 16 * 4)) EmptyString))
  | [a] => String (b64_char (a / 4)) (String (b64_char (a mod 4 * 16)) EmptyString)
  | [] => EmptyString
  end.

Fixpoint pad_count (l : list Z) : nat :=
  match l with
  | _ :: _ :: _ :: l' => pad_count l'
  | [_; _] => 1
  | [_] => 2
  | [] => 0
  end.

Definition btoa (l : list Z) : string := (b64_digits l ++ repeat_char (pad_count l) "=")%string.

(** [binary += String.fromCharCode(bytes[i])], then [btoa(binary)]. *)
Definition uint8ArrayToBase64 (bytes : list Z) : string := btoa bytes.

(** ** Decoding *)

Fixpoint str_filter (P : ascii -> bool) (s : string) : string :=
  match s with
  | EmptyString => EmptyString
  | String c s' => if P c then String c (str_filter P s') else str_filter P s'
  end.

Fixpoint str_map (f : ascii -> ascii) (s : string) : string :=
  match s with EmptyString => EmptyString | String c s' => String (f c) (str_map f s') end.

(** One trailing ["="]. *)
Fixpoint drop_eq (s : string) : string :=
  match s with
  | EmptyString => EmptyString
  | String "=" EmptyString => EmptyString
  | String c s' => String c (drop_eq s')
  end.

Fixpoint b64_groups (s : string) : option (list Z) :=
  match s with
  | EmptyString => Some []
  | String c1 (String c2 (String c3 (String c4 s'))) =>
      match b64_val c1, b64_val c2, b64_val c3, b64_val c4, b64_groups s' with
      | Some a, Some b, Some c, Some d, Some l =>
          Some (a * 4 + b / 16 :: b mod 16 * 16 + c / 4 :: c mod 4 * 64 + d :: l)
      | _, _, _, _, _ => None
      end
  | String c1 (String c2 (String c3 EmptyString)) =>
      match b64_val c1, b64_val c2, b64_val c3 with
      | Some a, Some b, Some c => Some [a * 4 + b / 16; b mod 16 * 16 + c / 4]
      | _, _, _ => None
      end
  | String c1 (String c2 EmptyString) =>
      match b64_val c1, b64_val c2 with
      | Some a, Some b => Some [a * 4 + b / 16]
      | _, _ => None
      end
  | String _ EmptyString => None
  end.

(** White space for [atob]: tab, line feed, form feed, return and space. *)
Definition ascii_space (c : ascii) : bool :=
  let n := nat_of_ascii c in
  ((n =? 9) || (n =? 10) || (n =? 12) || (n =? 13) || (n =? 32))%nat%bool.

Definition atob (s : string) : res (list Z) :=
  let data := str_filter (fun c => negb (ascii_space c)) s in
  let data := if (String.length data mod 4 =? 0)%nat then drop_eq (drop_eq data) else data in
  match b64_groups data with
  | Some l => Ok l
  | None => Throw "InvalidCharacterError"
  end.

Definition subst_char (a b c : ascii) : ascii := if Ascii.eqb c a then b else c.

(** [while (sanitized.length % 4 !== 0) sanitized += "="], at most 3 rounds. *)
Fixpoint pad4 (fuel : nat) (s : string) : string :=
  match fuel with
  | O => s
  | S f => if negb (String.length s mod 4 =? 0)%nat then pad4 f (s ++ "=")%string else s
  end.

Definition base64ToUint8Array (base64 : string) : res (list Z) :=
  let sanitized := str_filter (fun c => negb (is_space c)) base64 in
  let sanitized := str_map (subst_char "-" "+") sanitized in
  let sanitized := str_map (subst_char "_" "/") sanitized in
  let sanitized := pad4 3 sanitized in
  let! binaryString := atob sanitized in
  Ok (map (fun c => c mod 256) binaryString).

(** ** Characters of the alphabet *)

Definition is_b64 (c : ascii) : bool := match b64_val c with Some _ => true | None => false end.

Lemma b64_val_char (n : Z) : 0 <= n < 64 -> b64_val (b64_char n) = Some n.
Proof.
  intros Hn. assert (H : forall k, (k < 64)%nat -> b64_val (b64_char (Z.of_nat k)) = Some (Z.of_nat k)).
  { intros k Hk. do 64 (destruct k as [|k]; [reflexivity|]). lia. }
  rewrite <- (Z2Nat.id n) by lia. apply H. lia.
Qed.

Lemma is_b64_char (n : Z) : 0 <= n < 64 -> is_b64 (b64_char n) = true.
Proof. intros Hn. unfold is_b64. now rewrite b64_val_char. Qed.

Lemma b64_plain (c : ascii) : is_b64 c = true ->
  is_space c = false /\ ascii_space c = false /\ Ascii.eqb c "-" = false /\ Ascii.eqb c "_" = false
  /\ Ascii.eqb c "=" = false.
Proof. destruct c as [[] [] [] [] [] [] [] []]; vm_compute; intros; repeat split; congruence. Qed.

Lemma str_filter_all (P : ascii -> bool) (s : string) : str_all P s = true -> str_filter P s = s.
Proof.
  induction s as [|c s IH]; simpl; [reflexivity|]. intros H. apply andb_true_iff in H as [-> H].
  now rewrite IH.
Qed.

Lemma str_map_id (f : ascii -> ascii) (P : ascii -> bool) (s : string) :
  (forall c, P c = true -> f c = c) -> str_all P s = true -> str_map f s = s.
Proof.
  intros Hf. induction s as [|c s IH]; simpl; [reflexivity|]. intros H.
  apply andb_true_iff in H as [Hc H]. now rewrite Hf, IH.
Qed.

Lemma str_map_length (f : ascii -> ascii) (s : string) : String.length (str_map f s) = String.length s.
Proof. induction s as [|c s IH]; simpl; congruence. Qed.

Lemma drop_eq_app (s : string) : drop_eq (s ++ "=") = s.
Proof.
  induction s as [|c s IH]; [reflexivity|]. cbn [append drop_eq]. rewrite IH.
  destruct s; destruct c as [[] [] [] [] [] [] [] []]; reflexivity.
Qed.

Lemma drop_eq_b64 (s : string) : str_all is_b64 s = true -> drop_eq s = s.
Proof.
  induction s as [|c s IH]; [reflexivity|]. cbn [str_all]. intros H.
  apply andb_true_iff in H as [Hc H]. cbn [drop_eq]. rewrite (IH H).
  destruct c as [[] [] [] [] [] [] [] []]; destruct s; try reflexivity; discriminate Hc.
Qed.

(** ** Round trip *)

(** Induction on the groups of three bytes. *)
Lemma bytes_ind3 (P : list Z -> Prop) :
  P [] -> (forall a, P [a]) -> (forall a b, P [a; b]) ->
  (forall a b c l, P l -> P (a :: b :: c :: l)) -> forall l, P l.
Proof.
  intros H0 H1 H2 H3. fix IH 1. intros [|a [|b [|c l]]]; [exact H0|apply H1|apply H2|apply H3, IH].
Qed.

Ltac b64_bounds :=
  repeat match goal with
  | H : Forall is_byte (_ :: _) |- _ => apply Forall_cons_iff in H as [? H]
  | H : is_byte _ |- _ => unfold is_byte in H
  end;
  Z.div_mod_to_equations; lia.

Lemma b64_digits_all (l : list Z) : bytes l -> str_all is_b64 (b64_digits l) = true.
Proof.
  induction l as [|a|a b|a b c l IH] using bytes_ind3; intros Hl; cbn [b64_digits str_all];
    rewrite ?is_b64_char by b64_bounds; try reflexivity.
  apply IH. now do 3 apply Forall_inv_tail in Hl.
Qed.

Lemma b64_groups_digits (l : list Z) : bytes l -> b64_groups (b64_digits l) = Some l.
Proof.
  induction l as [|a|a b|a b c l IH] using bytes_ind3; intros Hl; cbn [b64_digits b64_groups];
    rewrite ?b64_val_char by b64_bounds; [reflexivity|..].
  - do 2 f_equal. b64_bounds.
  - do 2 f_equal; [|f_equal]; b64_bounds.
  - rewrite IH by now do 3 apply Forall_inv_tail in Hl. do 2 f_equal; [|f_equal; [|f_equal]]; b64_bounds.
Qed.

Lemma b64_digits_length (l : list Z) :
  ((String.length (b64_digits l) + pad_count l) mod 4 = 0)%nat /\ (pad_count l <= 2)%nat.
Proof.
  induction l as [|a|a b|a b c l IH] using bytes_ind3; cbn [b64_digits pad_count String.length];
    try (split; [reflexivity|lia]).
  destruct IH as [IH1 IH2]. split; [|assumption].
  set (n := String.length (b64_digits l)) in *.
  replace (S (S (S (S n))) + pad_count l)%nat with (n + pad_count l + 1 * 4)%nat by lia.
  now rewrite Nat.Div0.mod_add.
Qed.

Lemma atob_btoa (l : list Z) : bytes l -> atob (btoa l) = Ok l.
Proof.
  intros Hl. pose proof (b64_digits_all l Hl) as Ha. unfold atob, btoa.
  destruct (b64_digits_length l) as [Hlen Hp].
  rewrite str_filter_all.
  2:{ rewrite str_all_app, str_all_repeat by reflexivity. rewrite andb_true_r.
      revert Ha. apply str_all_impl. intros c Hc. now destruct (b64_plain c Hc) as (_ & -> & _). }
  rewrite str_length_app, repeat_char_length, Hlen. cbn [Nat.eqb].
  assert (E : drop_eq (drop_eq (b64_digits l ++ repeat_char (pad_count l) "=")) = b64_digits l).
  { destruct (pad_count l) as [|[|[|]]]; [| | |lia]; cbn [repeat_char].
    - now rewrite str_app_nil_r, !drop_eq_b64 by (rewrite ?drop_eq_b64; assumption).
    - now rewrite drop_eq_app, drop_eq_b64.
    - change "=="%string with ("=" ++ "=")%string. now rewrite <- str_app_assoc, !drop_eq_app. }
  now rewrite E, b64_groups_digits.
Qed.

Lemma pad4_done (f : nat) (s : string) : (String.length s mod 4 = 0)%nat -> pad4 f s = s.
Proof. intros H. destruct f; cbn [pad4]; [reflexivity|]. now rewrite H. Qed.

Lemma pad4_repeat (k f : nat) (s : string) : (k <= f)%nat -> (k < 4)%nat ->
  ((String.length s + k) mod 4 = 0)%nat -> pad4 f s = (s ++ repeat_char k "=")%string.
Proof.
  revert f s. induction k as [|k IH]; intros f s Hf Hk Hm.
  - rewrite Nat.add_0_r in Hm. rewrite pad4_done by assumption. now rewrite str_app_nil_r.
  - destruct f as [|f]; [lia|]. cbn [pad4].
    destruct (Nat.eqb_spec (String.length s mod 4) 0) as [E|E].
    + exfalso. rewrite <- Nat.Div0.add_mod_idemp_l, E in Hm. rewrite Nat.mod_small in Hm; lia.
    + cbn [negb]. rewrite IH; [|lia|lia|].
      * rewrite str_app_assoc. reflexivity.
      * rewrite str_length_app. cbn [String.length]. now rewrite <- Nat.add_assoc.
Qed.

(** The URL-safe alphabet. *)
Definition url_safe (s : string) : string :=
  str_map (subst_char "/" "_") (str_map (subst_char "+" "-") s).

Lemma url_safe_undo (s : string) : str_all is_b64 s = true ->
  str_filter (fun c => negb (is_space c)) (url_safe s) = url_safe s
  /\ str_map (subst_char "_" "/") (str_map (subst_char "-" "+") (url_safe s)) = s.
Proof.
  induction s as [|c s IH]; [easy|]. cbn [str_all]. intros H.
  apply andb_true_iff in H as [Hc H]. destruct (IH H) as [IH1 IH2]. unfold url_safe in *.
  cbn [str_map str_filter]. rewrite IH1, IH2.
  destruct c as [[] [] [] [] [] [] [] []]; try discriminate Hc; vm_compute; auto.
Qed.

Lemma map_byte_id (l : list Z) : bytes l -> map (fun c => c mod 256) l = l.
Proof.
  induction 1 as [|b l Hb _ IH]; [reflexivity|]. cbn. rewrite IH.
  unfold is_byte in Hb. now rewrite Z.mod_small.
Qed.

Lemma base64_round (l : list Z) : bytes l -> base64ToUint8Array (uint8ArrayToBase64 l) = Ok l.
Proof.
  intros Hl. pose proof (b64_digits_all l Hl) as Ha. destruct (b64_digits_length l) as [Hlen _].
  unfold base64ToUint8Array, uint8ArrayToBase64.
  assert (Hall : str_all (fun c => is_b64 c || Ascii.eqb c "=") (btoa l) = true).
  { unfold btoa. rewrite str_all_app, str_all_repeat, andb_true_r by reflexivity.
    revert Ha. apply str_all_impl. now intros c ->. }
  assert (Hc : forall c, is_b64 c || Ascii.eqb c "=" = true ->
    is_space c = false /\ subst_char "-" "+" c = c /\ subst_char "_" "/" c = c).
  { intros c H. apply orb_true_iff in H as [H|H].
    - destruct (b64_plain c H) as (-> & _ & E1 & E2 & _). unfold subst_char. now rewrite E1, E2.
    - apply Ascii.eqb_eq in H. subst c. now split. }
  rewrite str_filter_all.
  2:{ revert Hall. apply str_all_impl. intros c H. now rewrite (proj1 (Hc c H)). }
  rewrite (str_map_id (subst_char "-" "+") _ _ (fun c H => proj1 (proj2 (Hc c H))) Hall).
  rewrite (str_map_id (subst_char "_" "/") _ _ (fun c H => proj2 (proj2 (Hc c H))) Hall).
  rewrite pad4_done by (unfold btoa; now rewrite str_length_app, repeat_char_length).
  rewrite atob_btoa by assumption. cbn [res_bind]. now rewrite map_byte_id.
Qed.

(** the bytes are read back from their Base64 form, and from its URL-safe
    form without padding. *)
Theorem base64_roundtrip (l : list Z) (Hl : bytes l) :
  base64ToUint8Array (uint8ArrayToBase64 l) = Ok l
  /\ base64ToUint8Array (url_safe (drop_eq (drop_eq (uint8ArrayToBase64 l)))) = Ok l.
Proof.
  split; [now apply base64_round|].
  pose proof (b64_digits_all l Hl) as Ha. destruct (b64_digits_length l) as [Hlen Hp].
  assert (E : drop_eq (drop_eq (uint8ArrayToBase64 l)) = b64_digits l).
  { unfold uint8ArrayToBase64, btoa. destruct (pad_count l) as [|[|[|]]]; [| | |lia]; cbn [repeat_char].
    - now rewrite str_app_nil_r, !drop_eq_b64 by (rewrite ?drop_eq_b64; assumption).
    - now rewrite drop_eq_app, drop_eq_b64.
    - change "=="%string with ("=" ++ "=")%string. now rewrite <- str_app_assoc, !drop_eq_app. }
  rewrite E. unfold base64ToUint8Array. destruct (url_safe_undo _ Ha) as [-> ->].
  rewrite (pad4_repeat (pad_count l)) by lia. fold (btoa l).
  rewrite atob_btoa by assumption. cbn [res_bind]. now rewrite map_byte_id.
Qed.

Lemma base64_roundtrip_witness :
  base64ToUint8Array (uint8ArrayToBase64 [251; 255; 254; 1]) = Ok [251; 255; 254; 1]
  /\ base64ToUint8Array "-__-AQ" = Ok [251; 255; 254; 1].
Proof.
  apply (base64_roundtrip [251; 255; 254; 1]). repeat constructor; unfold is_byte; lia.
Defined.

(** * The URL-safe base64 of the keyring services

    webauthn.service.ts, clientKeyring.service.ts and opaqueKeyring.service.ts each have
    these two functions. *)

Open Scope list_scope.
Open Scope Z_scope.

(** [s.replace(/=+$/, "")] *)
Fixpoint strip_padding (s : string) : string :=
  match s with
  | EmptyString => EmptyString
  | String c t =>
      match strip_padding t with
      | EmptyString => if Ascii.eqb c "=" then EmptyString else String c EmptyString
      | u => String c u
      end
  end.

Definition bytesToBase64Url (l : list Z) : string := strip_padding (url_safe (btoa l)).

(** [while (b64.length % 4 !== 0) b64 += "="]: three rounds are enough. *)
Definition base64UrlToBytes (value : string) : res (list Z) :=
  atob (pad4 3 (str_map (subst_char "_" "/") (str_map (subst_char "-" "+") value))).

Lemma strip_repeat (k : nat) : strip_padding (repeat_char k "=") = ""%string.
Proof. induction k as [|k IH]; [reflexivity|]. cbn [repeat_char strip_padding]. now rewrite IH. Qed.

Lemma strip_kept (s : string) (k : nat) :
  str_all (fun c => negb (Ascii.eqb c "=")) s = true -> strip_padding (s ++ repeat_char k "=") = s.
Proof.
  induction s as [|c s IH]; intros H; [apply strip_repeat|]. cbn [str_all] in H. apply andb_prop in H as [Hc H].
  cbn [append strip_padding]. rewrite IH by exact H. destruct s; [|reflexivity]. apply negb_true_iff in Hc. now rewrite Hc.
Qed.

Lemma url_safe_app (a b : string) : url_safe (a ++ b) = (url_safe a ++ url_safe b)%string.
Proof. unfold url_safe. induction a as [|c a IH]; [reflexivity|]. cbn [append str_map]. now rewrite IH. Qed.

Lemma url_safe_padding (k : nat) : url_safe (repeat_char k "=") = repeat_char k "=".
Proof. induction k as [|k IH]; [reflexivity|]. unfold url_safe in *. cbn [repeat_char str_map]. now rewrite IH. Qed.

Lemma url_safe_not_eq (s : string) : str_all is_b64 s = true -> str_all (fun c => negb (Ascii.eqb c "=")) (url_safe s) = true.
Proof.
  induction s as [|c s IH]; [easy|]. cbn [str_all]. intros H. apply andb_prop in H as [Hc H]. unfold url_safe in *. cbn [str_map str_all].
  rewrite IH by exact H. rewrite andb_true_r. destruct c as [[] [] [] [] [] [] [] []]; try discriminate Hc; reflexivity.
Qed.

Lemma base64url_round (l : list Z) : bytes l -> base64UrlToBytes (bytesToBase64Url l) = Ok l.
Proof.
  intros Hl. pose proof (b64_digits_all l Hl) as Ha. destruct (b64_digits_length l) as [Hlen Hp].
  unfold base64UrlToBytes, bytesToBase64Url, btoa. rewrite url_safe_app, url_safe_padding, strip_kept by now apply url_safe_not_eq.
  destruct (url_safe_undo _ Ha) as [_ ->]. rewrite (pad4_repeat (pad_count l)) by lia. fold (btoa l). now apply atob_btoa.
Qed.
