(* ===== verification/Hex.v ===== *)
(** * Hex: byte arrays in hexadecimal

    [byte.toString(16).padStart(2, "0")] over an array, and the loop that reads
    two digits a byte. *)

From Stdlib Require Import Ascii String ZArith List Lia Bool.
Import ListNotations.
From S2P Require Import Prelude Bytes JsString.

Open Scope list_scope.
Open Scope Z_scope.

(** [bytes[i] = parseInt(hex.substr(i * 2, 2), 16)]: NaN is stored as 0. *)
Definition hex_bytes (hex : string) : list Z :=
  map (fun i => match parseInt 16 (slice (i * 2) (i * 2 + 2) hex) with
                | Some v => v mod 256
                | None => 0
                end) (seq 0 (String.length hex / 2)).

Lemma concat_all_app (P : ascii -> bool) (l : list string) :
  Forall (fun s => str_all P s = true) l -> str_all P (concat_all l) = true.
Proof.
  induction 1 as [|s l Hs Hl IH]; simpl; [reflexivity|]. now rewrite str_all_app, Hs, IH.
Qed.

Lemma byte_hex_digits (z : Z) : 0 <= z -> str_all (is_digit 16) (byte_hex z) = true.
Proof. intros Hz. apply pad_to_base_digits; lia. Qed.

Lemma bytes_hex_digits (l : list Z) : bytes l -> str_all (is_digit 16) (bytes_hex l) = true.
Proof.
  intros Hl. apply concat_all_app, Forall_map. eapply Forall_impl; [|exact Hl].
  intros z Hz. apply byte_hex_digits, Hz.
Qed.

Lemma parse_digits_some (b : Z) (s : string) : 2 <= b <= 36 ->
  str_all (is_digit b) s = true -> s <> ""%string -> exists v, parse_digits b s = Some v /\ 0 <= v.
Proof.
  intros Hb Hs Hne. destruct (parse_acc_value b Hb s 0 Hs (Z.le_refl 0)) as (w & E & Hw).
  exists w. split; [|lia]. unfold parse_digits. destruct s; [contradiction|].
  rewrite E. f_equal; lia.
Qed.

Lemma bytes_hex_nonempty (l : list Z) : l <> [] -> bytes_hex l <> ""%string.
Proof.
  destruct l as [|z l]; [easy|]. intros _ E. apply (f_equal String.length) in E.
  unfold bytes_hex in E. simpl in E. rewrite str_length_app in E.
  unfold byte_hex in E. rewrite padStart_length in E. lia.
Qed.

Lemma byte_hex_length (z : Z) : 0 <= z < 256 -> String.length (byte_hex z) = 2%nat.
Proof.
  intros Hz. unfold byte_hex. rewrite padStart_length.
  pose proof (to_base_length 16 ltac:(lia) 2 z) as H. change (16 ^ Z.of_nat 2) with 256 in H.
  unfold to_hex. specialize (H Hz ltac:(lia)). lia.
Qed.

Lemma slice_from_add (a s : string) (m : nat) :
  slice_from (String.length a + m) (a ++ s) = slice_from m s.
Proof. induction a as [|c a IH]; simpl; auto. Qed.

Lemma hex_bytes_app (a s : string) : String.length a = 2%nat ->
  hex_bytes (a ++ s)
  = (match parseInt 16 a with Some v => v mod 256 | None => 0 end) :: hex_bytes s.
Proof.
  intros Ha. unfold hex_bytes. rewrite str_length_app, Ha.
  replace ((2 + String.length s) / 2)%nat with (S (String.length s / 2)).
  2:{ replace (2 + String.length s)%nat with (1 * 2 + String.length s)%nat by lia.
      rewrite Nat.div_add_l by lia. reflexivity. }
  cbn [seq map]. f_equal.
  - unfold slice. change (0 * 2 + 2 - 0 * 2)%nat with 2%nat. cbn [Nat.mul slice_from].
    now rewrite <- Ha, take_app.
  - rewrite <- seq_shift, map_map. apply map_ext. intros i. unfold slice.
    replace (S i * 2)%nat with (String.length a + i * 2)%nat by lia.
    rewrite slice_from_add. now replace (String.length a + i * 2 + 2 - (String.length a + i * 2))%nat
      with (i * 2 + 2 - i * 2)%nat by lia.
Qed.

Lemma hex_bytes_bytes_hex (l : list Z) : bytes l -> hex_bytes (bytes_hex l) = l.
Proof.
  induction 1 as [|z l Hz Hl IH]; [reflexivity|]. unfold is_byte in Hz.
  unfold bytes_hex in *. cbn [map concat_all]. rewrite hex_bytes_app, IH by now apply byte_hex_length.
  f_equal. unfold byte_hex, to_hex.
  rewrite parseInt_digits, parse_pad_to_base; try lia.
  - now apply Z.mod_small.
  - intros _. apply no_0x_prefix, pad_to_base_digits; lia.
  - apply pad_to_base_digits; lia.
Qed.

(** ** Values *)

Lemma parse_acc_app (b : Z) (s t : string) (acc : Z) :
  parse_acc b (s ++ t) acc
  = match parse_acc b s acc with Some v => parse_acc b t v | None => None end.
Proof.
  revert acc. induction s as [|c s IH]; intros acc; [reflexivity|]. cbn [append parse_acc].
  destruct (digit_val c); [|reflexivity]. destruct (_ <? b); [apply IH|reflexivity].
Qed.

Lemma parse_acc_shift (b : Z) (s : string) (acc v : Z) :
  parse_acc b s 0 = Some v -> parse_acc b s acc = Some (acc * b ^ Z.of_nat (String.length s) + v).
Proof.
  enough (H : forall a, parse_acc b s a = Some v ->
    parse_acc b s (acc + a) = Some (acc * b ^ Z.of_nat (String.length s) + v))
    by (intros E; rewrite <- (H 0 E); f_equal; lia).
  revert acc. induction s as [|c s IH]; intros acc a E.
  - cbn in *. injection E as <-. f_equal. lia.
  - cbn [parse_acc] in *. destruct (digit_val c) as [d|]; [|discriminate].
    destruct (d <? b); [|discriminate].
    replace ((acc + a) * b + d) with (acc * b + (a * b + d)) by ring.
    rewrite (IH (acc * b) _ E). f_equal. cbn [String.length].
    rewrite Nat2Z.inj_succ, Z.pow_succ_r by lia. ring.
Qed.

Lemma bytes_hex_length (l : list Z) : bytes l -> String.length (bytes_hex l) = (2 * length l)%nat.
Proof.
  unfold bytes_hex. induction 1 as [|z l Hz _ IH]; [reflexivity|].
  cbn [map concat_all length]. rewrite str_length_app, byte_hex_length, IH by exact Hz. lia.
Qed.

Lemma bytes_hex_parse (l : list Z) : bytes l -> parse_acc 16 (bytes_hex l) 0 = Some (bytes_value l).
Proof.
  intros Hl. induction l as [|b l IH] using rev_ind; [reflexivity|].
  apply Forall_app in Hl as [Hl Hb]. inversion Hb as [|? ? Hb' _]; subst.
  rewrite bytes_value_snoc by assumption. unfold bytes_hex in *.
  rewrite map_app. cbn [map].
  assert (Ec : forall l s, concat_all (l ++ [s]) = (concat_all l ++ s)%string).
  { clear. intros l s. induction l as [|t l IH]; cbn [app concat_all]; [apply str_app_nil_r|].
    now rewrite IH, str_app_assoc. }
  rewrite Ec, parse_acc_app, IH by assumption.
  assert (Eb : parse_acc 16 (byte_hex b) 0 = Some b).
  { pose proof (parse_pad_to_base 16 ltac:(lia) 2 b ltac:(apply Hb')) as E.
    unfold parse_digits in E. unfold byte_hex, to_hex. now destruct (padStart 2 "0" (to_base 16 b)). }
  rewrite (parse_acc_shift 16 _ _ b Eb), byte_hex_length by exact Hb'.
  change (16 ^ Z.of_nat 2) with 256. f_equal. ring.
Qed.

Lemma BigInt_bytes_hex (l : list Z) : bytes l -> l <> [] -> BigInt_hex (bytes_hex l) = Ok (bytes_value l).
Proof.
  intros Hl Hne. rewrite BigInt_hex_digits by now apply bytes_hex_digits.
  pose proof (bytes_hex_nonempty l Hne) as Hs. unfold parse_digits.
  destruct (bytes_hex l) eqn:E; [contradiction|]. rewrite <- E. now rewrite bytes_hex_parse.
Qed.

(** Reading an even number of digits. *)
Lemma hex_bytes_value (k : nat) (s : string) :
  String.length s = (2 * k)%nat -> str_all (is_digit 16) s = true ->
  bytes (hex_bytes s) /\ length (hex_bytes s) = k
  /\ parse_acc 16 s 0 = Some (bytes_value (hex_bytes s)).
Proof.
  revert s. induction k as [|k IH]; intros s Hs Hd.
  - destruct s; [|discriminate]. repeat split. constructor.
  - destruct s as [|a [|b s]]; cbn [String.length] in Hs; try lia.
    change (String a (String b s)) with (String a (String b "") ++ s)%string in *.
    set (p := String a (String b "")) in *. rewrite str_all_app in Hd.
    apply andb_true_iff in Hd as [Hp Hd].
    destruct (IH s ltac:(lia) Hd) as (IHb & IHl & IHp).
    destruct (parse_acc_value 16 ltac:(lia) p 0 Hp ltac:(lia)) as (w & Ew & Hw).
    change (16 ^ Z.of_nat (String.length p)) with 256 in *. cbn [Z.mul Z.add] in Ew.
    assert (Ep : parseInt 16 p = Some w).
    { rewrite parseInt_digits; [exact Ew|lia|intros _; now apply no_0x_prefix|assumption]. }
    assert (Hbyte : is_byte w) by exact Hw.
    rewrite hex_bytes_app, Ep, Z.mod_small by (reflexivity || assumption).
    split; [constructor; assumption|]. split; [cbn [length]; congruence|].
    rewrite parse_acc_app, Ew, (parse_acc_shift 16 s w _ IHp), bytes_value_cons by assumption.
    rewrite IHl. replace (String.length s) with (2 * k)%nat by lia.
    rewrite Nat2Z.inj_mul, Z.pow_mul_r by lia. reflexivity.
Qed.
