(* ===== verification/GF256.v ===== *)
(** * GF256: the two implementations of GF(2^8) arithmetic

    - [ErasureGF]: the tables and operations of
      src/src/features/documents/services/erasureCoding.service.ts;
    - [SecretsGF]: those of src/src/core/crypto/secrets.service.ts;
    - the instance of [Field] both implement, on the type [gf] of bytes.

    A [Uint8Array] is a list of integers in [0, 256): a write stores the value
    modulo 256, a write outside the array is ignored, and an out-of-range read
    ([undefined]) is 0, which is what it contributes to the XOR accumulations
    that are the only places where the code can make one. *)

From Stdlib Require Import ZArith List Lia Bool Field Eqdep_dec String.
Import ListNotations.
From S2P Require Import Prelude Algebra.

Open Scope list_scope.
Open Scope Z_scope.

(** ** Uint8Array *)
Definition u8get (l : list Z) (i : Z) : Z :=
  if i <? 0 then 0 else nth (Z.to_nat i) l 0.

Definition u8set (l : list Z) (i : Z) (v : Z) : list Z :=
  if i <? 0 then l else upd l (Z.to_nat i) (v mod 256).

Definition new_u8 (n : nat) : list Z := repeat 0 n.

Definition is_byte (z : Z) : bool := (0 <=? z) && (z <? 256).

Definition bytes (l : list Z) : Prop := Forall (fun z => is_byte z = true) l.

Lemma is_byte_spec (z : Z) : is_byte z = true <-> 0 <= z < 256.
Proof. unfold is_byte. lia. Qed.

(** ** erasureCoding.service.ts *)
Module ErasureGF.
Definition GF_PRIMITIVE : Z := 0x11d.
Definition GF_SIZE : nat := 256.

Definition tables : Type := (Z * list Z * list Z)%type.

(** One round of the first loop: [gfExp[i] = x; gfLog[x] = i; x <<= 1; ...]. *)
Definition buildTables_round (i : nat) (t : tables) : tables :=
  let '(x, gfExp, gfLog) := t in
  let gfExp := u8set gfExp (Z.of_nat i) x in
  let gfLog := u8set gfLog x (Z.of_nat i) in
  let x := Z.shiftl x 1 in
  let x := if x >=? Z.of_nat GF_SIZE then Z.lxor x GF_PRIMITIVE else x in
  (x, gfExp, gfLog).

Definition buildTables : list Z * list Z :=
  let '(_, gfExp, gfLog) :=
    for_n (GF_SIZE - 1) buildTables_round (1, new_u8 512, new_u8 GF_SIZE) in
  let gfExp :=
    for_n (GF_SIZE - 1)
      (fun i e => u8set e (Z.of_nat (i + GF_SIZE - 1)) (u8get e (Z.of_nat i))) gfExp in
  (gfExp, gfLog).

Definition gfExp : list Z := Eval vm_compute in fst buildTables.
Definition gfLog : list Z := Eval vm_compute in snd buildTables.

Definition gfMul (a b : Z) : Z :=
  if (a =? 0) || (b =? 0) then 0
  else u8get gfExp (u8get gfLog a + u8get gfLog b).

Definition gfDiv (a b : Z) : res Z :=
  throw_if b =? 0 with "GF division by zero"%string;;
  if a =? 0 then Ok 0
  else Ok (u8get gfExp (u8get gfLog a + (Z.of_nat GF_SIZE - 1) - u8get gfLog b)).

Definition gfAdd (a b : Z) : Z := Z.lxor a b.
End ErasureGF.

(** ** secrets.service.ts *)
Module SecretsGF.
Definition GF_POLYNOMIAL : Z := 0x1d.

(** One round of the loop of [initGFTables]. *)
Definition initGFTables_round (i : nat) (t : Z * list Z * list Z) : Z * list Z * list Z :=
  let '(x, exp, log) := t in
  let exp := u8set exp (Z.of_nat i) x in
  let exp := u8set exp (Z.of_nat (i + 255)) x in
  let log := u8set log x (Z.of_nat i) in
  let temp := Z.land (Z.shiftl x 1) 0xff in
  let temp := if Z.land x 0x80 =? 0 then temp else Z.lxor temp GF_POLYNOMIAL in
  (temp, exp, log).

Definition initGFTables : list Z * list Z :=
  let '(_, exp, log) := for_n 255 initGFTables_round (1, new_u8 512, new_u8 256) in
  (exp, log).

Definition EXP_TABLE : list Z := Eval vm_compute in fst initGFTables.
Definition LOG_TABLE : list Z := Eval vm_compute in snd initGFTables.

Definition gfMultiply (a b : Z) : Z :=
  let tempA := Z.land a 0xff in
  let tempB := Z.land b 0xff in
  if (tempA =? 0) || (tempB =? 0) then 0
  else u8get EXP_TABLE (u8get LOG_TABLE tempA + u8get LOG_TABLE tempB).

Definition gfInverse (a : Z) : res Z :=
  let val := Z.land a 0xff in
  throw_if val =? 0 with "GF(256) division by zero"%string;;
  Ok (u8get EXP_TABLE (255 - u8get LOG_TABLE val)).
End SecretsGF.

Import ErasureGF.

(** ** Facts about the tables, by evaluation *)

Lemma forall_lt_forallb (n : nat) (f : nat -> bool) :
  forallb f (seq 0 n) = true -> forall i, (i < n)%nat -> f i = true.
Proof. intros H i Hi. rewrite forallb_forall in H. apply H, in_seq. lia. Qed.

Definition ex (i : nat) : Z := nth i gfExp 0.
Definition lg (a : Z) : nat := Z.to_nat (nth (Z.to_nat a) gfLog 0).

(** Multiplication by the generator 2, reduced by the primitive polynomial. *)
Definition xtime (a : Z) : Z :=
  if 256 <=? 2 * a then Z.lxor (2 * a) GF_PRIMITIVE else 2 * a.

Definition table_ok (i : nat) : bool :=
  is_byte (ex i) && negb (ex i =? 0) && (lg (ex i) =? i)%nat &&
  (ex (i + 255) =? ex i) && (ex (S i) =? xtime (ex i)) &&
  (0 <=? nth (S i) gfLog 0) && (lg (Z.of_nat (S i)) <? 255)%nat &&
  (ex (lg (Z.of_nat (S i))) =? Z.of_nat (S i)).

Lemma tables_ok : forallb table_ok (seq 0 255) = true.
Proof. vm_compute. reflexivity. Qed.

Lemma table_facts (i : nat) : (i < 255)%nat ->
  (0 < ex i < 256) /\ lg (ex i) = i /\ ex (i + 255) = ex i /\ ex (S i) = xtime (ex i) /\
  0 <= nth (S i) gfLog 0 /\
  (lg (Z.of_nat (S i)) < 255)%nat /\ ex (lg (Z.of_nat (S i))) = Z.of_nat (S i).
Proof.
  intros Hi. pose proof (forall_lt_forallb _ _ tables_ok i Hi) as H.
  revert H. unfold table_ok. generalize ex lg xtime gfLog. clear Hi.
  intros e l x t H. bool_to_prop. rewrite is_byte_spec in *. repeat split; auto; lia.
Qed.

#[global] Opaque gfExp gfLog.

Lemma secrets_tables_eq :
  SecretsGF.EXP_TABLE = gfExp /\ SecretsGF.LOG_TABLE = gfLog.
Proof. vm_compute. split; reflexivity. Qed.

(** The discrete exponential, periodic of period 255. *)
Definition gexp (n : nat) : Z := ex (n mod 255).

Lemma gexp_range (n : nat) : 0 < gexp n < 256.
Proof. apply table_facts. apply Nat.mod_upper_bound. lia. Qed.

Lemma lg_gexp (n : nat) : lg (gexp n) = (n mod 255)%nat.
Proof. apply table_facts. apply Nat.mod_upper_bound. lia. Qed.

Lemma ex_gexp (n : nat) : (n < 510)%nat -> ex n = gexp n.
Proof.
  intros Hn. unfold gexp. destruct (Nat.lt_ge_cases n 255) as [H|H].
  - now rewrite Nat.mod_small.
  - replace n with ((n - 255) + 255)%nat by lia.
    rewrite (proj1 (proj2 (proj2 (table_facts (n - 255) ltac:(lia))))).
    replace ((n - 255) + 255)%nat with ((n - 255) + 1 * 255)%nat by lia.
    now rewrite Nat.Div0.mod_add, Nat.mod_small by lia.
Qed.

Lemma gexp_add_mod (n m : nat) : gexp (n mod 255 + m) = gexp (n + m).
Proof. unfold gexp. now rewrite Nat.Div0.add_mod_idemp_l. Qed.

Lemma gexp_add_mod_r (n m : nat) : gexp (n + m mod 255) = gexp (n + m).
Proof. unfold gexp. now rewrite Nat.Div0.add_mod_idemp_r. Qed.

Lemma byte_succ (a : Z) : 0 < a < 256 -> exists i, (i < 255)%nat /\ a = Z.of_nat (S i).
Proof. intros H. exists (Z.to_nat (a - 1)). lia. Qed.

Lemma gexp_lg (a : Z) : 0 < a < 256 -> gexp (lg a) = a.
Proof.
  intros H. destruct (byte_succ a H) as (i & Hi & ->).
  destruct (table_facts i Hi) as (_ & _ & _ & _ & _ & Hl & He).
  now rewrite <- ex_gexp by lia.
Qed.

Lemma lg_range (a : Z) : 0 < a < 256 -> (lg a < 255)%nat.
Proof. intros H. destruct (byte_succ a H) as (i & Hi & ->). now apply table_facts. Qed.

Lemma u8get_gfLog (a : Z) : 0 < a < 256 -> u8get gfLog a = Z.of_nat (lg a).
Proof.
  intros H. destruct (byte_succ a H) as (i & Hi & ->).
  destruct (table_facts i Hi) as (_ & _ & _ & _ & Hl & _ & _).
  unfold u8get, lg. rewrite (proj2 (Z.ltb_ge _ _)) by lia.
  rewrite Nat2Z.id, Z2Nat.id by assumption. reflexivity.
Qed.

Lemma u8get_gfExp (n : nat) : (n < 510)%nat -> u8get gfExp (Z.of_nat n) = gexp n.
Proof.
  intros H. rewrite <- ex_gexp by assumption. unfold u8get, ex.
  rewrite (proj2 (Z.ltb_ge _ _)) by lia. now rewrite Nat2Z.id.
Qed.

Lemma gexp_S (n : nat) : gexp (S n) = xtime (gexp n).
Proof.
  unfold gexp at 2. rewrite <- (proj1 (proj2 (proj2 (proj2 (table_facts (n mod 255)
    ltac:(apply Nat.mod_upper_bound; lia)))))).
  rewrite ex_gexp by (pose proof (Nat.mod_upper_bound n 255); lia).
  change (S (n mod 255)) with (1 + n mod 255)%nat. rewrite gexp_add_mod_r. reflexivity.
Qed.

Lemma lg_1 : lg 1 = 0%nat.
Proof. vm_compute. reflexivity. Qed.

Lemma gexp_255 : gexp 255 = 1.
Proof. vm_compute. reflexivity. Qed.

#[global] Opaque ex lg gexp.

(** ** The operations as arithmetic on exponents *)

Lemma gfMul_0_l (b : Z) : gfMul 0 b = 0.
Proof. reflexivity. Qed.

Lemma gfMul_0_r (a : Z) : gfMul a 0 = 0.
Proof. unfold gfMul. now rewrite orb_true_r. Qed.

Lemma gfMul_exp (a b : Z) :
  0 < a < 256 -> 0 < b < 256 -> gfMul a b = gexp (lg a + lg b).
Proof.
  intros Ha Hb. unfold gfMul.
  rewrite (proj2 (Z.eqb_neq a 0)), (proj2 (Z.eqb_neq b 0)) by lia. simpl.
  rewrite !u8get_gfLog, <- Nat2Z.inj_add by assumption.
  apply u8get_gfExp. pose proof (lg_range a Ha). pose proof (lg_range b Hb). lia.
Qed.

Definition gfInv (b : Z) : Z := if b =? 0 then 0 else gexp (255 - lg b).

Lemma gfDiv_mul (a b : Z) :
  0 <= a < 256 -> 0 < b < 256 -> gfDiv a b = Ok (gfMul a (gfInv b)).
Proof.
  intros Ha Hb. unfold gfDiv. rewrite (proj2 (Z.eqb_neq b 0)) by lia.
  destruct (Z.eqb_spec a 0) as [->|Ha0]; [now rewrite gfMul_0_l|]. f_equal.
  unfold gfInv. rewrite (proj2 (Z.eqb_neq b 0)) by lia.
  pose proof (lg_range b Hb) as Hlb. pose proof (lg_range a ltac:(lia)) as Hla.
  rewrite gfMul_exp, lg_gexp by (try apply gexp_range; lia).
  rewrite !u8get_gfLog by lia.
  replace (Z.of_nat (lg a) + (Z.of_nat GF_SIZE - 1) - Z.of_nat (lg b))
    with (Z.of_nat (lg a + (255 - lg b))) by (unfold GF_SIZE; lia).
  rewrite u8get_gfExp by lia. symmetry. apply gexp_add_mod_r.
Qed.

Lemma gfMul_range (a b : Z) : 0 <= a < 256 -> 0 <= b < 256 -> 0 <= gfMul a b < 256.
Proof.
  intros Ha Hb. destruct (Z.eq_dec a 0) as [->|Ha0]; [rewrite gfMul_0_l; lia|].
  destruct (Z.eq_dec b 0) as [->|Hb0]; [rewrite gfMul_0_r; lia|].
  rewrite gfMul_exp by lia. pose proof (gexp_range (lg a + lg b)). lia.
Qed.

Lemma lxor_range (a b : Z) : 0 <= a < 256 -> 0 <= b < 256 -> 0 <= Z.lxor a b < 256.
Proof.
  intros Ha Hb. assert (H0 : 0 <= Z.lxor a b) by (apply Z.lxor_nonneg; lia).
  split; [assumption|].
  destruct (Z.eq_dec (Z.lxor a b) 0) as [->|Hne]; [lia|].
  change 256 with (2 ^ 8). apply Z.log2_lt_pow2; [lia|].
  eapply Z.le_lt_trans; [apply Z.log2_lxor; lia|].
  apply Z.max_lub_lt.
  - destruct (Z.eq_dec a 0) as [->|]; [simpl; lia|]. apply Z.log2_lt_pow2; lia.
  - destruct (Z.eq_dec b 0) as [->|]; [simpl; lia|]. apply Z.log2_lt_pow2; lia.
Qed.

(** ** Distributivity: multiplication by [2^n] is additive *)

Lemma xtime_testbit (a : Z) : 0 <= a < 256 -> (256 <=? 2 * a) = Z.testbit a 7.
Proof.
  intros Ha. pose proof (Z.testbit_spec' a 7 ltac:(lia)) as H.
  change (2 ^ 7) with 128 in H.
  destruct (Z.leb_spec 256 (2 * a)) as [Hle|Hlt].
  - assert (E : a / 128 = 1) by (symmetry; apply Z.div_unique with (a - 128); lia).
    rewrite E in H. now destruct (Z.testbit a 7).
  - rewrite Z.div_small in H by lia. now destruct (Z.testbit a 7).
Qed.

Lemma xtime_lxor (a b : Z) : 0 <= a < 256 -> 0 <= b < 256 ->
  xtime (Z.lxor a b) = Z.lxor (xtime a) (xtime b).
Proof.
  intros Ha Hb. unfold xtime.
  rewrite !xtime_testbit by auto using lxor_range.
  rewrite Z.lxor_spec.
  assert (E : 2 * Z.lxor a b = Z.lxor (2 * a) (2 * b)).
  { rewrite <- !(Z.mul_comm _ 2). change 2 with (2 ^ 1).
    rewrite <- !Z.shiftl_mul_pow2 by lia. apply Z.shiftl_lxor. }
  rewrite E.
  assert (H : forall x y z, Z.lxor (Z.lxor x y) z = Z.lxor (Z.lxor x z) y).
  { intros x y z. now rewrite !Z.lxor_assoc, (Z.lxor_comm y z). }
  destruct (Z.testbit a 7), (Z.testbit b 7); simpl xorb; cbv iota.
  - rewrite (Z.lxor_comm (2 * b)), <- Z.lxor_assoc.
    rewrite (Z.lxor_assoc (2 * a)), Z.lxor_nilpotent. now rewrite Z.lxor_0_r.
  - apply H.
  - apply Z.lxor_assoc.
  - reflexivity.
Qed.

Lemma gfMul_gexp_S (n : nat) (b : Z) : 0 <= b < 256 ->
  gfMul (gexp (S n)) b = xtime (gfMul (gexp n) b).
Proof.
  intros Hb. destruct (Z.eq_dec b 0) as [->|Hb0]; [now rewrite !gfMul_0_r|].
  rewrite !gfMul_exp, !lg_gexp, !gexp_add_mod by (try apply gexp_range; lia).
  apply gexp_S.
Qed.

Lemma gfMul_gexp_lxor (n : nat) (b c : Z) : 0 <= b < 256 -> 0 <= c < 256 ->
  gfMul (gexp n) (Z.lxor b c) = Z.lxor (gfMul (gexp n) b) (gfMul (gexp n) c).
Proof.
  intros Hb Hc. pose proof (lxor_range b c Hb Hc) as Hbc.
  pose proof (gexp_range n) as Hn.
  induction n as [|n IH].
  - assert (H1 : forall d, 0 <= d < 256 -> gfMul (gexp 0) d = d).
    { intros d Hd. destruct (Z.eq_dec d 0) as [->|Hd0]; [apply gfMul_0_r|].
      rewrite gfMul_exp, lg_gexp by (try apply gexp_range; lia).
      simpl. apply gexp_lg. lia. }
    now rewrite !H1.
  - pose proof (gexp_range n). rewrite !gfMul_gexp_S, IH by assumption.
    apply xtime_lxor; apply gfMul_range; lia.
Qed.

Lemma gfMul_lxor_r (a b c : Z) : 0 <= a < 256 -> 0 <= b < 256 -> 0 <= c < 256 ->
  gfMul a (Z.lxor b c) = Z.lxor (gfMul a b) (gfMul a c).
Proof.
  intros Ha Hb Hc. destruct (Z.eq_dec a 0) as [->|Ha0]; [reflexivity|].
  rewrite <- (gexp_lg a) by lia. now apply gfMul_gexp_lxor.
Qed.

Lemma gfMul_comm (a b : Z) : 0 <= a < 256 -> 0 <= b < 256 -> gfMul a b = gfMul b a.
Proof.
  intros Ha Hb. destruct (Z.eq_dec a 0) as [->|Ha0]; [now rewrite gfMul_0_r|].
  destruct (Z.eq_dec b 0) as [->|Hb0]; [now rewrite gfMul_0_r|].
  rewrite !gfMul_exp by lia. f_equal. lia.
Qed.

Lemma gfMul_assoc (a b c : Z) : 0 <= a < 256 -> 0 <= b < 256 -> 0 <= c < 256 ->
  gfMul a (gfMul b c) = gfMul (gfMul a b) c.
Proof.
  intros Ha Hb Hc. destruct (Z.eq_dec a 0) as [->|Ha0]; [reflexivity|].
  destruct (Z.eq_dec b 0) as [->|Hb0]; [now rewrite gfMul_0_l, !gfMul_0_r, gfMul_0_l|].
  destruct (Z.eq_dec c 0) as [->|Hc0]; [now rewrite !gfMul_0_r|].
  rewrite (gfMul_exp b c), (gfMul_exp a b) by lia.
  rewrite !gfMul_exp, !lg_gexp by (try apply gexp_range; lia).
  rewrite gexp_add_mod, Nat.add_comm, gexp_add_mod. f_equal. lia.
Qed.

Lemma gfMul_1_l (a : Z) : 0 <= a < 256 -> gfMul 1 a = a.
Proof.
  intros Ha. destruct (Z.eq_dec a 0) as [->|Ha0]; [reflexivity|].
  rewrite gfMul_exp by lia.
  rewrite lg_1. apply gexp_lg. lia.
Qed.

Lemma gfInv_range (a : Z) : 0 <= gfInv a < 256.
Proof.
  unfold gfInv. destruct (a =? 0); [lia|]. pose proof (gexp_range (255 - lg a)). lia.
Qed.

Lemma gfMul_gfInv (a : Z) : 0 < a < 256 -> gfMul (gfInv a) a = 1.
Proof.
  intros Ha. unfold gfInv. rewrite (proj2 (Z.eqb_neq a 0)) by lia.
  pose proof (lg_range a Ha).
  rewrite gfMul_exp, lg_gexp, gexp_add_mod by (try apply gexp_range; lia).
  replace (255 - lg a + lg a)%nat with 255%nat by lia. apply gexp_255.
Qed.

(** ** The field of bytes *)

Record gf : Type := GF { gfv : Z; gf_ok : is_byte gfv = true }.

Lemma gf_range (a : gf) : 0 <= gfv a < 256.
Proof. apply is_byte_spec, gf_ok. Qed.

Lemma gf_eq (a b : gf) : gfv a = gfv b -> a = b.
Proof.
  destruct a as [a Ha], b as [b Hb]. simpl. intros <-. f_equal.
  apply UIP_dec, bool_dec.
Qed.

Lemma mod_is_byte (z : Z) : is_byte (z mod 256) = true.
Proof. apply is_byte_spec. now apply Z.mod_pos_bound. Qed.

Definition to_gf (z : Z) : gf := GF (z mod 256) (mod_is_byte z).

Lemma to_gf_v (z : Z) : 0 <= z < 256 -> gfv (to_gf z) = z.
Proof. intros H. simpl. now apply Z.mod_small. Qed.

Lemma to_gf_gfv (a : gf) : to_gf (gfv a) = a.
Proof. apply gf_eq, to_gf_v, gf_range. Qed.

Lemma to_gf_inj (x y : Z) : 0 <= x < 256 -> 0 <= y < 256 -> to_gf x = to_gf y -> x = y.
Proof. intros Hx Hy E. rewrite <- (to_gf_v x Hx), E. now apply to_gf_v. Qed.

Definition gf_add (a b : gf) : gf := to_gf (Z.lxor (gfv a) (gfv b)).
Definition gf_mul (a b : gf) : gf := to_gf (gfMul (gfv a) (gfv b)).
Definition gf_inv (a : gf) : gf := to_gf (gfInv (gfv a)).

Lemma gf_add_v (a b : gf) : gfv (gf_add a b) = Z.lxor (gfv a) (gfv b).
Proof. apply to_gf_v, lxor_range; apply gf_range. Qed.

Lemma gf_mul_v (a b : gf) : gfv (gf_mul a b) = gfMul (gfv a) (gfv b).
Proof. apply to_gf_v, gfMul_range; apply gf_range. Qed.

Lemma gf_inv_v (a : gf) : gfv (gf_inv a) = gfInv (gfv a).
Proof. apply to_gf_v, gfInv_range. Qed.

Ltac gf_crush :=
  intros; apply gf_eq; rewrite ?gf_add_v, ?gf_mul_v, ?gf_add_v, ?gf_mul_v;
  repeat match goal with a : gf |- _ => pose proof (gf_range a); revert a end; intros.

Lemma gf_field_theory :
  field_theory (to_gf 0) (to_gf 1) gf_add gf_mul gf_add (fun a => a)
    (fun a b => gf_mul a (gf_inv b)) gf_inv eq.
Proof.
  constructor; [constructor| | |].
  - gf_crush. apply Z.lxor_0_l.
  - gf_crush. apply Z.lxor_comm.
  - gf_crush. symmetry. apply Z.lxor_assoc.
  - gf_crush. apply gfMul_1_l, gf_range.
  - gf_crush. apply gfMul_comm; apply gf_range.
  - gf_crush. apply gfMul_assoc; apply gf_range.
  - gf_crush.
    rewrite gfMul_comm by auto using gf_range, lxor_range.
    rewrite gfMul_lxor_r by apply gf_range.
    f_equal; apply gfMul_comm; apply gf_range.
  - reflexivity.
  - gf_crush. apply Z.lxor_nilpotent.
  - intros E. apply (f_equal gfv) in E. discriminate E.
  - reflexivity.
  - intros p Hp. apply gf_eq. rewrite gf_mul_v, gf_inv_v.
    apply gfMul_gfInv. pose proof (gf_range p).
    assert (gfv p <> 0); [|lia]. intros E. apply Hp, gf_eq. now rewrite E.
Qed.

Definition gf_dec (a b : gf) : {a = b} + {a <> b}.
Proof.
  destruct (Z.eq_dec (gfv a) (gfv b)) as [E|E]; [left; now apply gf_eq|right; congruence].
Defined.

#[export] Instance GF_Field : Field gf := {|
  f_theory := gf_field_theory;
  f_dec := gf_dec
|}.

(** The code's operations on bytes are those of the field. *)
Lemma gf_of_mul (a b : Z) : 0 <= a < 256 -> 0 <= b < 256 ->
  to_gf (gfMul a b) = fmul (to_gf a) (to_gf b).
Proof. intros Ha Hb. apply gf_eq. simpl fmul. rewrite gf_mul_v, !to_gf_v; auto using gfMul_range. Qed.

Lemma gf_of_add (a b : Z) : 0 <= a < 256 -> 0 <= b < 256 ->
  to_gf (gfAdd a b) = fadd (to_gf a) (to_gf b).
Proof.
  intros Ha Hb. apply gf_eq. simpl fadd. unfold gfAdd.
  rewrite gf_add_v, !to_gf_v; auto using lxor_range.
Qed.

Lemma gf_of_inv (a : Z) : 0 <= a < 256 -> to_gf (gfInv a) = finv (to_gf a).
Proof. intros Ha. apply gf_eq. simpl finv. rewrite gf_inv_v, !to_gf_v; auto using gfInv_range. Qed.

Lemma gf_of_div (a b : Z) : 0 <= a < 256 -> 0 < b < 256 ->
  exists c, gfDiv a b = Ok c /\ 0 <= c < 256 /\ to_gf c = fmul (to_gf a) (finv (to_gf b)).
Proof.
  intros Ha Hb. exists (gfMul a (gfInv b)). rewrite gfDiv_mul by assumption.
  split; [reflexivity|]. split; [auto using gfMul_range, gfInv_range|].
  now rewrite gf_of_mul, gf_of_inv by (auto using gfInv_range; lia).
Qed.

(** ** The tables implement multiplication of polynomials

    [gf_ref 8 a b] is the shift-and-add product of the polynomials [a] and [b]
    modulo x^8 + x^4 + x^3 + x^2 + 1. *)
Fixpoint gf_ref (n : nat) (a b : Z) : Z :=
  match n with
  | O => 0
  | S k => Z.lxor (if Z.odd b then a else 0) (gf_ref k (xtime a) (Z.div2 b))
  end.

Lemma xtime_range (a : Z) : 0 <= a < 256 -> 0 <= xtime a < 256.
Proof.
  intros Ha. destruct (Z.eq_dec a 0) as [->|Hne]; [change (xtime 0) with 0; lia|].
  replace (xtime a) with (gexp (S (lg a))) by (now rewrite gexp_S, gexp_lg by lia).
  pose proof (gexp_range (S (lg a))). lia.
Qed.

Lemma gfMul_2_l (a : Z) : 0 <= a < 256 -> gfMul 2 a = xtime a.
Proof.
  intros Ha. destruct (Z.eq_dec a 0) as [->|Hne]; [vm_compute; reflexivity|].
  rewrite <- (gexp_lg a) at 1 by lia.
  rewrite gfMul_exp, lg_gexp by (try apply gexp_range; lia).
  replace (lg 2) with 1%nat by (vm_compute; reflexivity).
  rewrite gexp_add_mod_r. simpl. rewrite gexp_S. now rewrite gexp_lg by lia.
Qed.

Lemma byte_split (b : Z) : 0 <= b < 256 ->
  b = Z.lxor (if Z.odd b then 1 else 0) (xtime (Z.div2 b)) /\ 0 <= Z.div2 b < 128.
Proof.
  intros Hb. rewrite Z.div2_div. assert (Hd : 0 <= b / 2 < 128).
  { split; [apply Z.div_pos; lia|apply Z.div_lt_upper_bound; lia]. }
  split; [|assumption]. unfold xtime. rewrite (proj2 (Z.leb_gt _ _)) by lia.
  pose proof (Zdiv2_odd_eqn b) as E. rewrite Z.div2_div in E.
  assert (Hl : Z.land (if Z.odd b then 1 else 0) (2 * (b / 2)) = 0).
  { destruct (Z.odd b); [|apply Z.land_0_l]. rewrite Z.land_comm.
    change 1 with (Z.ones 1). rewrite Z.land_ones by lia.
    rewrite Z.mul_comm. apply Z.mod_mul. lia. }
  rewrite <- Z.add_nocarry_lxor by assumption. lia.
Qed.

Lemma gf_ref_gfMul (n : nat) (a b : Z) :
  0 <= a < 256 -> 0 <= b < 2 ^ Z.of_nat n -> (n <= 8)%nat -> gf_ref n a b = gfMul a b.
Proof.
  revert a b. induction n as [|n IH]; intros a b Ha Hb Hn.
  - simpl in *. replace b with 0 by lia. now rewrite gfMul_0_r.
  - rewrite Nat2Z.inj_succ, Z.pow_succ_r in Hb by lia.
    assert (Hpow : 2 ^ Z.of_nat n <= 2 ^ 7) by (apply Z.pow_le_mono_r; lia).
    change (2 ^ 7) with 128 in Hpow.
    destruct (byte_split b ltac:(lia)) as [Eb Hd]. cbn [gf_ref].
    assert (Hd' : 0 <= Z.div2 b < 2 ^ Z.of_nat n).
    { rewrite Z.div2_div. split; [apply Z.div_pos; lia|apply Z.div_lt_upper_bound; lia]. }
    rewrite IH by (auto using xtime_range; lia).
    rewrite Eb at 3.
    assert (Hx : 0 <= xtime (Z.div2 b) < 256) by (apply xtime_range; lia).
    rewrite gfMul_lxor_r by (auto; destruct (Z.odd b); lia). f_equal.
    + destruct (Z.odd b); [|now rewrite gfMul_0_r].
      now rewrite gfMul_comm, gfMul_1_l by lia.
    + rewrite <- !gfMul_2_l by lia.
      now rewrite gfMul_assoc, (gfMul_comm a 2) by lia.
Qed.

(** ** secrets.service.ts computes in the same field *)

Lemma land_255 (a : Z) : 0 <= a < 256 -> Z.land a 255 = a.
Proof.
  intros Ha. change 255 with (Z.ones 8). rewrite Z.land_ones by lia.
  now apply Z.mod_small.
Qed.

Lemma gfMultiply_gfMul (a b : Z) : 0 <= a < 256 -> 0 <= b < 256 ->
  SecretsGF.gfMultiply a b = gfMul a b.
Proof.
  intros Ha Hb. unfold SecretsGF.gfMultiply, gfMul. rewrite !land_255 by assumption.
  destruct secrets_tables_eq as [-> ->]. reflexivity.
Qed.

Lemma gfInverse_gfInv (a : Z) : 0 < a < 256 -> SecretsGF.gfInverse a = Ok (gfInv a).
Proof.
  intros Ha. unfold SecretsGF.gfInverse. rewrite land_255 by lia.
  destruct secrets_tables_eq as [-> ->]. unfold gfInv.
  rewrite (proj2 (Z.eqb_neq a 0)) by lia. f_equal.
  rewrite u8get_gfLog by lia. pose proof (lg_range a Ha) as Hl.
  replace (255 - Z.of_nat (lg a)) with (Z.of_nat (255 - lg a)) by lia.
  apply u8get_gfExp. lia.
Qed.

(** C36: on bytes, the table lookups of both modules compute the product of
    polynomials modulo x^8 + x^4 + x^3 + x^2 + 1, [gfDiv] undoes it, and the
    inverse of secrets.service.ts is the one [gfDiv] uses. *)
Theorem tables_multiply (a b : Z) (Ha : 0 <= a < 256) (Hb : 0 <= b < 256) :
  gfMul a b = gf_ref 8 a b
  /\ SecretsGF.gfMultiply a b = gf_ref 8 a b
  /\ (b <> 0 -> gfDiv (gfMul a b) b = Ok a
      /\ exists c, SecretsGF.gfInverse b = Ok c /\ gfDiv 1 b = Ok c /\ gf_ref 8 b c = 1)
  /\ (b = 0 -> is_ok (gfDiv a b) = false /\ is_ok (SecretsGF.gfInverse b) = false).
Proof.
  assert (Href : forall x y, 0 <= x < 256 -> 0 <= y < 256 -> gf_ref 8 x y = gfMul x y)
    by (intros; apply gf_ref_gfMul; [assumption|simpl; lia|lia]).
  rewrite Href, gfMultiply_gfMul by assumption.
  split; [reflexivity|]. split; [reflexivity|]. split.
  - intros Hne. pose proof (gfInv_range b) as Hi. split.
    + rewrite gfDiv_mul by (auto using gfMul_range; lia).
      rewrite <- gfMul_assoc by assumption. rewrite (gfMul_comm b), gfMul_gfInv by (assumption || lia).
      now rewrite gfMul_comm, gfMul_1_l by (assumption || lia).
    + exists (gfInv b). rewrite gfInverse_gfInv, gfDiv_mul, gfMul_1_l, Href by lia.
      repeat split. rewrite gfMul_comm by assumption. apply gfMul_gfInv. lia.
  - intros ->. split; reflexivity.
Qed.

Lemma tables_multiply_witness : gfMul 0x53 0xCA = gf_ref 8 0x53 0xCA.
Proof. apply tables_multiply; lia. Defined.
