(* ===== verification/Primes.v ===== *)
(** * Primes: certificates that the moduli of the code are prime

    The sharing schemes and the threshold encryption are correct because their
    moduli are prime.  [prime_cert] is a checkable certificate (trial division
    for small numbers, Pocklington's criterion above), and the moduli of
    secrets.service.ts, proactiveSecretSharing.service.ts and fheEngine.ts are
    certified at the end. *)

From Stdlib Require Import ZArith Zcong Zmod Znumtheory List Lia Bool.
Import ListNotations.
From S2P Require Import Prelude.

Open Scope list_scope.
Open Scope Z_scope.

(** ** Modular powers by repeated squaring *)

Fixpoint powm (a n : Z) (e : positive) : Z :=
  match e with
  | xH => a mod n
  | xO e' => let b := powm a n e' in (b * b) mod n
  | xI e' => let b := powm a n e' in ((b * b) mod n * a) mod n
  end.

Lemma powm_spec (a n : Z) (e : positive) : powm a n e = a ^ Zpos e mod n.
Proof.
  induction e as [e IH|e IH|]; cbn [powm].
  - rewrite IH, <- Zmult_mod, Zmult_mod_idemp_l.
    rewrite Pos2Z.inj_xI, Z.pow_add_r, Z.pow_1_r, Z.pow_twice_r by lia. reflexivity.
  - rewrite IH, <- Zmult_mod. rewrite Pos2Z.inj_xO, Z.pow_twice_r. reflexivity.
  - now rewrite Z.pow_1_r.
Qed.

(** ** Exponents that give 1 *)

Lemma pow_one_mul (a p x y : Z) : 1 < p -> 0 <= x -> 0 <= y ->
  a ^ x mod p = 1 -> a ^ (x * y) mod p = 1.
Proof.
  intros Hp Hx Hy E. rewrite Z.pow_mul_r by assumption.
  rewrite <- Z.mod_pow_l, E, Z.pow_1_l by assumption. now apply Z.mod_1_l.
Qed.

Lemma pow_one_rem (a p x y : Z) : 1 < p -> 0 <= x -> 0 < y ->
  a ^ x mod p = 1 -> a ^ y mod p = 1 -> a ^ (x mod y) mod p = 1.
Proof.
  intros Hp Hx Hy Ex Ey.
  pose proof (Z.mod_pos_bound x y Hy) as Hm. pose proof (Z.div_pos x y Hx Hy) as Hd.
  rewrite (Z.div_mod x y) in Ex by lia. rewrite Z.pow_add_r in Ex by nia.
  rewrite <- Zmult_mod_idemp_l, pow_one_mul in Ex by lia. now rewrite Z.mul_1_l in Ex.
Qed.

Lemma pow_one_gcd (a p x y : Z) : 1 < p -> 0 <= x -> 0 <= y ->
  a ^ x mod p = 1 -> a ^ y mod p = 1 -> a ^ Z.gcd x y mod p = 1.
Proof.
  intros Hp Hx Hy. revert x Hx. pattern y.
  apply Z_lt_induction; [clear y Hy|assumption]. intros y IH x Hx Ex Ey.
  destruct (Z.eq_dec y 0) as [->|Hne]; [rewrite Z.gcd_0_r, Z.abs_eq; assumption|].
  destruct (Z.lt_ge_cases y 0) as [Hneg|Hpos].
  { exfalso. rewrite Z.pow_neg_r in Ey by assumption. now rewrite Z.mod_0_l in Ey by lia. }
  assert (Hy : 0 < y) by lia. rewrite Z.gcd_comm, <- Z.gcd_mod, Z.gcd_comm by lia.
  pose proof (Z.mod_pos_bound x y Hy).
  apply IH; [lia|lia|assumption|now apply pow_one_rem].
Qed.

(** ** Prime factors *)

Lemma composite_factor (n : Z) : 1 < n -> ~ Z.prime n -> exists d, 1 < d < n /\ (d | n).
Proof.
  intros Hn Hp. apply not_prime_divide; [assumption|]. now rewrite <- prime_alt.
Qed.

Lemma prime_or_not (n : Z) : Z.prime n \/ ~ Z.prime n.
Proof. rewrite prime_alt. destruct (prime_dec n); auto. Qed.

Lemma prime_factor (n : Z) : 1 < n -> exists p, Z.prime p /\ (p | n).
Proof.
  intros Hn. assert (H0 : 0 <= n) by lia. revert Hn. pattern n.
  apply Z_lt_induction; [clear n H0|exact H0]. intros n IH Hn.
  destruct (prime_or_not n) as [Hp|Hnp]; [exists n; split; [assumption|apply Z.divide_refl]|].
  destruct (composite_factor n Hn Hnp) as (d & Hd & Hdn).
  destruct (IH d) as (p & Hp & Hpd); [lia|lia|].
  exists p. split; [assumption|now apply (Z.divide_trans _ d)].
Qed.

(** A composite number has a prime factor up to its square root. *)
Lemma small_prime_factor (n : Z) : 1 < n -> ~ Z.prime n ->
  exists p, Z.prime p /\ (p | n) /\ p * p <= n.
Proof.
  intros Hn Hnp. destruct (composite_factor n Hn Hnp) as (d & Hd & e & E).
  assert (Hm : exists m, 1 < m /\ (m | n) /\ m * m <= n).
  { destruct (Z.le_ge_cases d e); [exists d|exists e]; (split; [nia|]); (split; [|nia]).
    - now exists e.
    - exists d. lia. }
  destruct Hm as (m & Hm & Hmn & Hmm). destruct (prime_factor m Hm) as (p & Hp & Hpm).
  exists p. split; [assumption|]. split; [now apply (Z.divide_trans _ m)|].
  apply Z.divide_pos_le in Hpm; [|lia]. pose proof (Z.prime_ge_2 p Hp). nia.
Qed.

(** ** Trial division *)

Definition small_prime (n : Z) : bool :=
  (1 <? n) && forallb (fun i => let d := 2 + Z.of_nat i in
    (n <? d * d) || negb (n mod d =? 0)) (seq 0 (Z.to_nat (Z.sqrt n))).

Lemma small_prime_sound (n : Z) : small_prime n = true -> Z.prime n.
Proof.
  unfold small_prime. intros H. apply andb_true_iff in H as [Hn H]. apply Z.ltb_lt in Hn.
  destruct (prime_or_not n) as [Hp|Hnp]; [assumption|exfalso].
  destruct (small_prime_factor n Hn Hnp) as (p & Hp & Hpn & Hpp).
  pose proof (Z.prime_ge_2 p Hp) as H2. rewrite forallb_forall in H.
  assert (Hs : p <= Z.sqrt n) by (now apply Z.sqrt_le_square; lia).
  specialize (H (Z.to_nat (p - 2))). cbv zeta in H.
  rewrite Z2Nat.id in H by lia. replace (2 + (p - 2)) with p in H by lia.
  rewrite (proj2 (Z.ltb_ge n (p * p))) in H by lia.
  apply Z.mod_divide in Hpn; [|lia]. rewrite Hpn in H.
  discriminate H. apply in_seq. lia.
Qed.

(** ** Pocklington's criterion *)

Definition pock_factor (n a q : Z) : bool :=
  ((n - 1) mod q =? 0) &&
  match (n - 1) / q, q with
  | Zpos e, Zpos q' =>
      let b := powm a n e in (Z.gcd (b - 1) n =? 1) && (powm b n q' =? 1)
  | _, _ => false
  end.

Lemma pock_factor_divides (n a q p : Z) :
  1 < n -> Z.prime q -> Z.prime p -> (p | n) -> pock_factor n a q = true -> (q | p - 1).
Proof.
  intros Hn Hq Hp Hpn H. unfold pock_factor in H. apply andb_true_iff in H as [Hr H].
  apply Z.eqb_eq, Z.mod_divide in Hr as [r Er]; [|pose proof (Z.prime_ge_2 q Hq); lia].
  pose proof (Z.prime_ge_2 q Hq) as Hq2. pose proof (Z.prime_ge_2 p Hp) as Hp2.
  rewrite Er, Z.div_mul in H by lia. destruct r as [|e|]; try discriminate H.
  destruct q as [|q'|]; try discriminate H.
  apply andb_true_iff in H as [Hg H1]. apply Z.eqb_eq in Hg, H1.
  rewrite powm_spec in H1. rewrite powm_spec, Z.mod_pow_l, <- Z.pow_mul_r in H1 by lia.
  rewrite powm_spec in Hg. set (r := Zpos e) in *. set (q := Zpos q') in *.
  (* modulo p *)
  assert (Hmodp : forall x, x mod n = 1 -> x mod p = 1).
  { intros x E. rewrite <- (Z.mod_mod_divide x n p Hpn), E. apply Z.mod_1_l. lia. }
  assert (H1p : a ^ (r * q) mod p = 1) by now apply Hmodp.
  assert (Hgp : a ^ r mod p <> 1).
  { intros E. assert (Hd : (p | Z.gcd (a ^ r mod n - 1) n)).
    { apply Z.gcd_greatest; [|assumption]. apply Z.mod_divide; [lia|].
      rewrite Zminus_mod, (Z.mod_mod_divide _ n p Hpn), E.
      now rewrite (Z.mod_1_l p) by lia. }
    rewrite Hg in Hd. apply Z.divide_pos_le in Hd; lia. }
  destruct (Z.BoolSpec_divide q (p - 1)) as [Hd|Hnd]; [assumption|exfalso].
  apply Hgp. assert (Ha : a mod p <> 0).
  { intros E. rewrite <- Z.mod_pow_l, E, Z.pow_0_l in H1p by lia.
    now rewrite Z.mod_0_l in H1p by lia. }
  pose proof (Z.fermat_nz p a Hp Ha) as Hf.
  pose proof (pow_one_gcd a p (r * q) (p - 1) ltac:(lia) ltac:(lia) ltac:(lia) H1p Hf) as Hgcd.
  assert (Hdr : (Z.gcd (r * q) (p - 1) | r)).
  { apply (Z.gauss _ q).
    - rewrite Z.mul_comm. apply Z.gcd_divide_l.
    - rewrite Z.gcd_comm. apply Z.coprime_prime_l; [assumption|]. intros Hqd. apply Hnd.
      apply (Z.divide_trans _ _ _ Hqd), Z.gcd_divide_r. }
  set (d := Z.gcd (r * q) (p - 1)) in *. assert (Hd0 : 0 <= d) by apply Z.gcd_nonneg.
  clearbody d. destruct Hdr as [k Ek].
  assert (Hk : 0 <= k) by (unfold r in Ek; nia).
  rewrite Ek, Z.mul_comm. now apply pow_one_mul; [lia|..].
Qed.

Definition product (l : list Z) : Z := fold_right Z.mul 1 l.

Lemma prime_divides_product (l : list Z) (q : Z) :
  Z.prime q -> Forall Z.prime l -> (q | product l) -> In q l.
Proof.
  intros Hq. induction 1 as [|q' l Hq' Hl IH]; simpl; intros Hd.
  - apply Z.divide_pos_le in Hd; [|lia]. pose proof (Z.prime_ge_2 q Hq). lia.
  - apply Z.divide_prime_mul in Hd as [E|E]; [left|right; auto|assumption].
    symmetry. now apply Z.divide_prime_prime.
Qed.

Lemma product_divides (l : list Z) (m : Z) :
  Forall Z.prime l -> NoDup l -> (forall q, In q l -> (q | m)) -> (product l | m).
Proof.
  induction l as [|q l IH]; intros Hp Hn Hd; simpl; [apply Z.divide_1_l|].
  inversion Hp as [|? ? Hq Hl]; subst. inversion Hn as [|? ? Hnin Hnl]; subst.
  destruct (Hd q (or_introl eq_refl)) as [k Ek].
  assert (Hk : (product l | k)).
  { apply (Z.gauss _ q).
    - rewrite Z.mul_comm, <- Ek. apply IH; auto. intros; apply Hd; now right.
    - rewrite Z.gcd_comm. apply Z.coprime_prime_l; [assumption|].
      intros H. apply Hnin. now apply prime_divides_product. }
  destruct Hk as [j Ej]. exists j. rewrite Ek, Ej. ring.
Qed.

Lemma product_pos (l : list Z) : Forall Z.prime l -> 0 < product l.
Proof.
  induction 1 as [|q l Hq Hl IH]; simpl; [lia|]. pose proof (Z.prime_ge_2 q Hq). nia.
Qed.

Lemma pocklington (n a : Z) (qs : list Z) :
  Forall Z.prime qs -> NoDup qs ->
  (1 <? n) && (n <? product qs * product qs) && forallb (pock_factor n a) qs = true ->
  Z.prime n.
Proof.
  intros Hqs Hnd H. apply andb_true_iff in H as [H Hf]. apply andb_true_iff in H as [Hn Hs].
  apply Z.ltb_lt in Hn, Hs. rewrite forallb_forall in Hf.
  destruct (prime_or_not n) as [Hp|Hnp]; [assumption|exfalso].
  destruct (small_prime_factor n Hn Hnp) as (p & Hp & Hpn & Hpp).
  assert (Hd : (product qs | p - 1)).
  { apply product_divides; [assumption..|]. intros q Hq.
    apply (pock_factor_divides n a q p Hn); auto. rewrite Forall_forall in Hqs. auto. }
  pose proof (Z.prime_ge_2 p Hp). pose proof (product_pos qs Hqs).
  apply Z.divide_pos_le in Hd; [|lia]. nia.
Qed.

(** The side conditions of [pocklington], by evaluation, from the primality of
    the listed factors. *)
Ltac prime_by n a qs :=
  apply (pocklington n a qs);
  [repeat (apply Forall_cons; [assumption|]); apply Forall_nil
  |repeat constructor; simpl; intuition lia
  |vm_compute; reflexivity].

Ltac prime_small := apply small_prime_sound; vm_compute; reflexivity.

(** ** The certificates *)

Lemma prime_7717 : Z.prime 7717.
Proof.
  assert (Z.prime 643) by prime_small.
  prime_by 7717 2 [643].
Qed.

Lemma prime_4943433031 : Z.prime 4943433031.
Proof.
  pose proof prime_7717.
  assert (Z.prime 163) by prime_small.
  prime_by 4943433031 2 [7717; 163].
Qed.

Lemma prime_294131 : Z.prime 294131.
Proof.
  assert (Z.prime 439) by prime_small.
  assert (Z.prime 67) by prime_small.
  prime_by 294131 2 [439; 67].
Qed.

Lemma prime_52183 : Z.prime 52183.
Proof.
  assert (Z.prime 223) by prime_small.
  assert (Z.prime 13) by prime_small.
  prime_by 52183 2 [223; 13].
Qed.

Lemma prime_2701360283249 : Z.prime 2701360283249.
Proof.
  pose proof prime_294131.
  pose proof prime_52183.
  prime_by 2701360283249 2 [294131; 52183].
Qed.

Lemma prime_143834195958255027531178710997993 : Z.prime 143834195958255027531178710997993.
Proof.
  pose proof prime_4943433031.
  pose proof prime_2701360283249.
  prime_by 143834195958255027531178710997993 2 [4943433031; 2701360283249].
Qed.

Lemma prime_1196707388443466949965095693175748557508643059665708723817761 : Z.prime 1196707388443466949965095693175748557508643059665708723817761.
Proof.
  pose proof prime_143834195958255027531178710997993.
  prime_by 1196707388443466949965095693175748557508643059665708723817761 2 [143834195958255027531178710997993].
Qed.

Lemma prime_115792089237316195423570985008687907853269984665640564039457584007913129658411 : Z.prime 115792089237316195423570985008687907853269984665640564039457584007913129658411.
Proof.
  pose proof prime_1196707388443466949965095693175748557508643059665708723817761.
  prime_by 115792089237316195423570985008687907853269984665640564039457584007913129658411 2 [1196707388443466949965095693175748557508643059665708723817761].
Qed.

Lemma prime_231584178474632390847141970017375815706539969331281128078915168015826259316823 : Z.prime 231584178474632390847141970017375815706539969331281128078915168015826259316823.
Proof.
  pose proof prime_115792089237316195423570985008687907853269984665640564039457584007913129658411.
  prime_by 231584178474632390847141970017375815706539969331281128078915168015826259316823 2 [115792089237316195423570985008687907853269984665640564039457584007913129658411].
Qed.

Lemma prime_107590001 : Z.prime 107590001.
Proof.
  assert (Z.prime 53) by prime_small.
  assert (Z.prime 29) by prime_small.
  assert (Z.prime 7) by prime_small.
  prime_by 107590001 2 [53; 29; 7].
Qed.

Lemma prime_20113 : Z.prime 20113.
Proof.
  assert (Z.prime 419) by prime_small.
  prime_by 20113 2 [419].
Qed.

Lemma prime_1206781 : Z.prime 1206781.
Proof.
  pose proof prime_20113.
  prime_by 1206781 2 [20113].
Qed.

Lemma prime_7240687 : Z.prime 7240687.
Proof.
  pose proof prime_1206781.
  prime_by 7240687 2 [1206781].
Qed.

Lemma prime_96557 : Z.prime 96557.
Proof.
  assert (Z.prime 239) by prime_small.
  assert (Z.prime 101) by prime_small.
  prime_by 96557 2 [239; 101].
Qed.

Lemma prime_255515944373312847190720520512484175977 : Z.prime 255515944373312847190720520512484175977.
Proof.
  pose proof prime_107590001.
  pose proof prime_7240687.
  pose proof prime_96557.
  prime_by 255515944373312847190720520512484175977 2 [107590001; 7240687; 96557].
Qed.

Lemma prime_205115282021455665897114700593932402728804164701536103180137503955397371 : Z.prime 205115282021455665897114700593932402728804164701536103180137503955397371.
Proof.
  pose proof prime_255515944373312847190720520512484175977.
  prime_by 205115282021455665897114700593932402728804164701536103180137503955397371 2 [255515944373312847190720520512484175977].
Qed.

Lemma prime_115792089237316195423570985008687907853269984665640564039457584007908834671663 : Z.prime 115792089237316195423570985008687907853269984665640564039457584007908834671663.
Proof.
  pose proof prime_205115282021455665897114700593932402728804164701536103180137503955397371.
  prime_by 115792089237316195423570985008687907853269984665640564039457584007908834671663 2 [205115282021455665897114700593932402728804164701536103180137503955397371].
Qed.

Lemma prime_174763 : Z.prime 174763.
Proof.
  assert (Z.prime 73) by prime_small.
  assert (Z.prime 19) by prime_small.
  prime_by 174763 3 [73; 19].
Qed.

Lemma prime_699053 : Z.prime 699053.
Proof.
  pose proof prime_174763.
  prime_by 699053 2 [174763].
Qed.

Lemma prime_77158673929 : Z.prime 77158673929.
Proof.
  pose proof prime_699053.
  prime_by 77158673929 3 [699053].
Qed.

Lemma prime_649657 : Z.prime 649657.
Proof.
  assert (Z.prime 1289) by prime_small.
  prime_by 649657 3 [1289].
Qed.

Lemma prime_92737 : Z.prime 92737.
Proof.
  assert (Z.prime 23) by prime_small.
  assert (Z.prime 7) by prime_small.
  assert (Z.prime 3) by prime_small.
  prime_by 92737 5 [23; 7; 3].
Qed.

Lemma prime_170141183460469231731687303715884105727 : Z.prime 170141183460469231731687303715884105727.
Proof.
  pose proof prime_77158673929.
  pose proof prime_649657.
  pose proof prime_92737.
  prime_by 170141183460469231731687303715884105727 3 [77158673929; 649657; 92737].
Qed.

