(* ===== verification/Modular.v ===== *)
(** * Modular: BigInt arithmetic modulo a number

    The remainder [%] of BigInt is [Z.rem], of the sign of its left operand.
    Each service has its own copy of the helpers below; they differ in how they
    normalise the remainder.  The lemmas state when a helper agrees with
    arithmetic modulo [m], and [Zp_Field] is the field the prime moduli give. *)

From Stdlib Require Import String ZArith Zcong Zmod List Lia Bool Field.
Import ListNotations.
From S2P Require Import Prelude Algebra Primes.

Open Scope list_scope.
Open Scope Z_scope.

(** ** Reduction *)

(** [((x % m) + m) % m]. *)
Definition norm_rem (m x : Z) : Z := Z.rem (Z.rem x m + m) m.

Lemma rem_mod (x m : Z) : 0 <= x -> 0 < m -> Z.rem x m = x mod m.
Proof. intros. now apply Z.rem_mod_nonneg. Qed.

Lemma rem_range (x m : Z) : 0 < m -> - m < Z.rem x m < m.
Proof. intros Hm. pose proof (Z.rem_bound_abs x m ltac:(lia)). lia. Qed.

Lemma rem_cong (x m : Z) : 0 < m -> Z.rem x m mod m = x mod m.
Proof.
  intros Hm. rewrite (Z.quot_rem x m) at 2 by lia.
  rewrite Z.add_comm, Z.mul_comm. symmetry. apply Z.mod_add. lia.
Qed.

Lemma norm_rem_mod (m x : Z) : 0 < m -> norm_rem m x = x mod m.
Proof.
  intros Hm. unfold norm_rem. pose proof (rem_range x m Hm).
  rewrite rem_mod by lia. rewrite <- (rem_cong x m Hm).
  rewrite <- (Z.mod_add (Z.rem x m) 1 m) by lia. f_equal. lia.
Qed.

(** ** Square and multiply

    [while (e > 0n) { if (e & 1n) res = red(res * b); b = red(b * b); e >>= 1n; }]
    with one unit of fuel a bit. *)
Fixpoint pow_loop (red : Z -> Z) (fuel : nat) (res b e : Z) : Z :=
  match fuel with
  | O => res
  | S f =>
      if e >? 0 then
        let res := if negb (Z.land e 1 =? 0) then red (res * b) else res in
        pow_loop red f res (red (b * b)) (Z.shiftr e 1)
      else res
  end.

Lemma pow_loop_S (red : Z -> Z) (f : nat) (res b e : Z) :
  pow_loop red (S f) res b e
  = if e >? 0 then
      pow_loop red f (if negb (Z.land e 1 =? 0) then red (res * b) else res) (red (b * b))
        (Z.shiftr e 1)
    else res.
Proof. reflexivity. Qed.

(** Enough fuel for the loop to stop by its own condition. *)
Definition pow_fuel (e : Z) : nat := S (S (Z.to_nat (Z.log2 e))).

Lemma land_1 (e : Z) : Z.land e 1 = e mod 2.
Proof. change 1 with (Z.ones 1). now rewrite Z.land_ones by lia. Qed.

Lemma pow_fuel_enough (e : Z) : 0 <= e -> e < 2 ^ Z.of_nat (pred (pow_fuel e)).
Proof.
  intros He. unfold pow_fuel. cbn [pred]. rewrite Nat2Z.inj_succ, Z2Nat.id by apply Z.log2_nonneg.
  destruct (Z.eq_dec e 0) as [->|Hne]; [reflexivity|]. apply Z.log2_spec. lia.
Qed.

Section PowLoop.
Variables (red : Z -> Z) (m : Z).
Hypothesis Hm : 0 < m.
Hypothesis Hred : forall x, 0 <= x -> red x = x mod m.

Lemma pow_loop_spec (f : nat) (res b e : Z) :
  0 <= e < 2 ^ Z.of_nat f -> 0 <= res -> 0 <= b ->
  pow_loop red (S f) res b e = if e =? 0 then res else (res * b ^ e) mod m.
Proof.
  revert res b e. induction f as [|f IH]; intros res b e He Hr Hb.
  - simpl in He. replace e with 0 by lia. reflexivity.
  - rewrite pow_loop_S. destruct (Z.eqb_spec e 0) as [->|Hne]; [reflexivity|].
    destruct (Z.gtb_spec e 0) as [_|Hneg]; [|lia].
    rewrite Z.shiftr_div_pow2 by lia. change (2 ^ 1) with 2.
    rewrite Nat2Z.inj_succ, Z.pow_succ_r in He by lia.
    assert (Hd : 0 <= e / 2 < 2 ^ Z.of_nat f)
      by (split; [apply Z.div_pos|apply Z.div_lt_upper_bound]; lia).
    rewrite land_1, !Hred by (apply Z.mul_nonneg_nonneg; assumption).
    pose proof (Z.mod_pos_bound (b * b) m Hm). pose proof (Z.mod_pos_bound (res * b) m Hm).
    rewrite IH by (try (destruct (e mod 2 =? 0)); simpl; lia).
    pose proof (Z.div_mod e 2 ltac:(lia)) as Ee.
    pose proof (Z.mod_pos_bound e 2 ltac:(lia)) as Em.
    set (h := e / 2) in *. set (o := e mod 2) in *. clearbody h o. subst e.
    assert (Hsq : forall r, (r * ((b * b) mod m) ^ h) mod m = (r * b ^ (2 * h)) mod m).
    { intros r. rewrite <- (Zmult_mod_idemp_r (_ ^ h)), Z.mod_pow_l, Zmult_mod_idemp_r.
      now rewrite Z.pow_mul_r, Z.pow_2_r by lia. }
    destruct (Z.eqb_spec o 0) as [->|Ho]; cbn [negb].
    + rewrite Z.add_0_r. destruct (Z.eqb_spec h 0); [lia|]. apply Hsq.
    + replace o with 1 by lia. rewrite Z.pow_add_r, Z.pow_1_r by lia.
      destruct (Z.eqb_spec h 0) as [->|Hh].
      * rewrite Z.mul_0_r, Z.pow_0_r. now rewrite Z.mul_1_l.
      * rewrite Hsq, Zmult_mod_idemp_l. f_equal. ring.
Qed.

(** The loop started at [res = 1] computes the modular power. *)
Lemma pow_loop_pow (b e : Z) :
  1 < m -> 0 <= e -> 0 <= b ->
  pow_loop red (pow_fuel e) 1 b e = b ^ e mod m.
Proof.
  intros Hm1 He Hb. pose proof (pow_fuel_enough e He) as Hf. unfold pow_fuel in *.
  rewrite pow_loop_spec by (cbn [pred] in Hf; lia).
  destruct (Z.eqb_spec e 0) as [->|_].
  - rewrite Z.pow_0_r. symmetry. apply Z.mod_1_l. lia.
  - now rewrite Z.mul_1_l.
Qed.
End PowLoop.

(** ** The field of a prime modulus *)

Section Zp.
Variable p : Z.
Hypothesis Hp : Z.prime p.

Definition zp_dec (a b : Zmod p) : {a = b} + {a <> b}.
Proof.
  destruct (Z.eq_dec (Zmod.to_Z a) (Zmod.to_Z b)) as [E|E].
  - left. now apply Zmod.unsigned_inj.
  - right. congruence.
Defined.

Definition Zp_Field : Field (Zmod p) := {|
  f_theory := Zmod.field_theory p Hp;
  f_dec := zp_dec
|}.
End Zp.

Arguments Zp_Field {p} Hp.

(** [Zmod.of_Z] carries the helpers over to the field. *)
Section Phi.
Variable p : Z.
Hypothesis Hp : Z.prime p.

Local Abbreviation phi := (Zmod.of_Z p).

Lemma prime_gt_1 : 1 < p.
Proof. pose proof (Z.prime_ge_2 p Hp). lia. Qed.

Lemma phi_mod (x : Z) : phi (x mod p) = phi x.
Proof. apply Zmod.of_Z_mod. Qed.

Lemma phi_rem (x : Z) : phi (Z.rem x p) = phi x.
Proof.
  apply Zmod.of_Z_inj. apply rem_cong. pose proof prime_gt_1. lia.
Qed.

Lemma phi_inj (x y : Z) : 0 <= x < p -> 0 <= y < p -> phi x = phi y -> x = y.
Proof.
  intros Hx Hy E. apply Zmod.of_Z_inj in E. now rewrite !Z.mod_small in E.
Qed.

Lemma phi_zero (x : Z) : x mod p = 0 <-> phi x = Zmod.zero.
Proof. unfold Zmod.zero. rewrite Zmod.of_Z_inj, Z.mod_0_l; [reflexivity|]. pose proof prime_gt_1. lia. Qed.

(** Fermat: the inverse the services compute is the inverse. *)
Lemma phi_fermat_inv (a : Z) : a mod p <> 0 -> phi (a ^ (p - 2) mod p) = Zmod.inv (phi a).
Proof.
  intros Ha. pose proof prime_gt_1. rewrite phi_mod, Zmod.of_Z_pow by lia.
  apply Zmod.fermat_inv; [|assumption]. intros E. apply Ha. now apply phi_zero.
Qed.

Lemma phi_sub_neq (x y : Z) : phi x <> phi y -> (x - y) mod p <> 0.
Proof.
  intros Hne E. apply Hne. apply phi_zero in E. rewrite Zmod.of_Z_sub in E.
  apply (fsub_0_eq (Fld := Zp_Field Hp)). exact E.
Qed.

Lemma mod_cancel (a c : Z) : c mod p <> 0 -> (a * c) mod p = c mod p -> a mod p = 1.
Proof.
  intros Hc E. pose proof prime_gt_1.
  assert (Hd : (p | (a - 1) * c)).
  { apply Z.mod_divide; [lia|]. replace ((a - 1) * c) with (a * c - c) by ring.
    rewrite Zminus_mod, E, Z.sub_diag. apply Z.mod_0_l. lia. }
  apply Z.divide_prime_mul in Hd as [[k Ek]|Hd]; [| |assumption].
  - replace a with (1 + k * p) by lia. rewrite Z.mod_add, Z.mod_1_l; lia.
  - apply Z.mod_divide in Hd; [contradiction|lia].
Qed.
End Phi.

(** ** Lagrange weights with one inversion

    The loops that multiply numerators and denominators of the weight at 0
    before inverting the product of the denominators, for a normalisation [red]
    of the residues. *)
Definition weight_loop (red : Z -> Z) (xs : list Z) (i : nat) : Z * Z :=
  for_n (length xs) (fun j '(num, den) =>
    if (i =? j)%nat then (num, den)
    else (red (num * nth j xs 0), red (den * (nth j xs 0 - nth i xs 0)))) (1, 1).

Section Weights.
Context {F : Type} {Fld : Field F}.

Add Field F_field_weights : (@f_theory F Fld).

Lemma lprod_div {A : Type} (f g : A -> F) (l : list A) :
  (forall a, In a l -> g a <> f0) ->
  fmul (lprod f l) (finv (lprod g l)) = lprod (fun a => fmul (f a) (finv (g a))) l
  /\ lprod g l <> f0.
Proof.
  induction l as [|a l IH]; simpl; intros H.
  - split; [field; apply f1_neq_f0|apply f1_neq_f0].
  - destruct IH as [IH Hl]; [intros; apply H; now right|].
    pose proof (H a (or_introl eq_refl)) as Ha. split.
    + rewrite <- IH. field. auto.
    + intros E. apply fmul_eq_0 in E as [E|E]; auto.
Qed.
End Weights.

Section WeightsZp.
Variables (p : Z) (red : Z -> Z).
Hypothesis Hp : Z.prime p.
Hypothesis Hred : forall x, red x = x mod p.

Local Abbreviation phi := (Zmod.of_Z p).
Let FP := Zp_Field Hp.
#[local] Existing Instance FP.

Lemma weight_loop_spec (xs : list Z) (i : nat) :
  NoDup (map phi xs) -> (i < length xs)%nat ->
  let '(num, den) := weight_loop red xs i in
  den mod p <> 0 /\ fmul (phi num) (finv (phi den)) = lagrange0 (map phi xs) i.
Proof.
  intros Hnd Hi. set (l := map phi xs) in *.
  assert (Hl : length l = length xs) by apply length_map.
  assert (Hnth : forall j, nth j l f0 = phi (nth j xs 0))
    by (intros j; unfold l; exact (map_nth phi xs 0 j)).
  set (stepN := fun s j => if (i =? j)%nat then s else fmul s ((fun x => x) (nth j l f0))).
  set (stepD := fun s j => if (i =? j)%nat then s
                else fmul s ((fun x => fsub x (nth i l f0)) (nth j l f0))).
  assert (H : phi (fst (weight_loop red xs i)) = fold_left stepN (seq 0 (length xs)) f1
           /\ phi (snd (weight_loop red xs i)) = fold_left stepD (seq 0 (length xs)) f1).
  { apply (for_n_inv (fun k s => phi (fst s) = fold_left stepN (seq 0 k) f1
                               /\ phi (snd s) = fold_left stepD (seq 0 k) f1)).
    - split; reflexivity.
    - intros j [num den] Hj [Hn Hd]. cbn [fst snd] in *.
      rewrite seq_S, !fold_left_app. cbn [fold_left Nat.add]. rewrite <- Hn, <- Hd.
      unfold stepN, stepD. destruct (i =? j)%nat; [auto|]. cbn [fst snd].
      rewrite !Hred, !phi_mod, !Zmod.of_Z_mul, Zmod.of_Z_sub, !Hnth. split; reflexivity. }
  destruct (weight_loop red xs i) as [num den]. cbn [fst snd] in H. destruct H as [Hn Hd].
  unfold stepN, stepD in *. rewrite <- Hl in *.
  rewrite (fold_skip_others (fun s x => fmul s x)) in Hn by assumption.
  rewrite (fold_skip_others (fun s x => fmul s (fsub x (nth i l f0)))) in Hd by assumption.
  rewrite fold_left_fmul, fmul_1_l in Hd. rewrite (fold_left_fmul (fun x => x)), fmul_1_l in Hn.
  destruct (others_NoDup l i f0 Hi Hnd) as [Hni _].
  destruct (lprod_div (fun x => x) (fun x => fsub x (nth i l f0)) (others i l)) as [E Hnz].
  { intros a Ha Ez. apply fsub_0_eq in Ez. subst a. contradiction. }
  split.
  - intros E0. apply (phi_zero p Hp) in E0. apply Hnz. rewrite <- Hd. exact E0.
  - rewrite Hn, Hd. exact E.
Qed.
End WeightsZp.
