(* ===== verification/VssField.v ===== *)
(** * VssField: the group and the field of the verifiable sharing

    The constants and arithmetic helpers of
    src/src/core/crypto/secrets.service.ts, the order of the generator, and the
    identity that makes Feldman's check sound and complete: the product of the
    committed coefficients to the powers of [x] is the generator to the value
    of the polynomial at [x].  proactiveSecretSharing.ts imports the constants
    and has its own copies of the helpers (Pss.v). *)

From Stdlib Require Import String ZArith Zcong Zmod List Lia Bool Field.
Import ListNotations.
From S2P Require Import Prelude Algebra Primes Modular.

Open Scope list_scope.
Open Scope Z_scope.

Definition VSS_Q : Z :=
  115792089237316195423570985008687907853269984665640564039457584007913129658411.
Definition VSS_P : Z :=
  231584178474632390847141970017375815706539969331281128078915168015826259316823.
Definition VSS_G : Z := 4.

Lemma VSS_Q_prime : Z.prime VSS_Q.
Proof. exact prime_115792089237316195423570985008687907853269984665640564039457584007913129658411. Qed.

Lemma VSS_P_prime : Z.prime VSS_P.
Proof. exact prime_231584178474632390847141970017375815706539969331281128078915168015826259316823. Qed.

Lemma VSS_P_Q : VSS_P = 2 * VSS_Q + 1.
Proof. reflexivity. Qed.

Lemma VSS_bounds : 2 ^ 256 < VSS_Q < 2 ^ 257 /\ VSS_Q < VSS_P /\ VSS_P < 2 ^ 264.
Proof. repeat split; reflexivity. Qed.

Lemma VSS_Q_pos : 0 < VSS_Q. Proof. reflexivity. Qed.
Lemma VSS_P_pos : 0 < VSS_P. Proof. reflexivity. Qed.
Lemma VSS_Q_gt1 : 1 < VSS_Q. Proof. reflexivity. Qed.
Lemma VSS_P_gt1 : 1 < VSS_P. Proof. reflexivity. Qed.
#[export] Hint Resolve VSS_Q_pos VSS_P_pos VSS_Q_gt1 VSS_P_gt1 VSS_Q_prime VSS_P_prime : cg.

#[global] Opaque VSS_Q VSS_P.

(** ** The helpers of secrets.service.ts *)

Definition modAdd (a b m : Z) : Z := Z.rem (a + b) m.
Definition modSub (a b m : Z) : Z := Z.rem (a - b + m) m.
Definition modMul (a b m : Z) : Z := Z.rem (a * b) m.

Definition modPow (base exp m : Z) : Z :=
  pow_loop (fun x => Z.rem x m) (pow_fuel exp) 1 (Z.rem base m) exp.

Definition modInverse (a m : Z) : res Z :=
  throw_if Z.rem a m =? 0 with "Division by zero in modular inverse"%string;;
  Ok (modPow a (m - 2) m).

Lemma modPow_spec (b e m : Z) : 1 < m -> 0 <= b -> 0 <= e -> modPow b e m = b ^ e mod m.
Proof.
  intros Hm Hb He. unfold modPow. rewrite (pow_loop_pow _ m); try lia.
  - rewrite rem_mod by lia. apply Z.mod_pow_l.
  - intros x Hx. apply rem_mod; lia.
  - rewrite rem_mod by lia. apply Z.mod_pos_bound. lia.
Qed.

Lemma modPow_range (b e m : Z) : 1 < m -> 0 <= b -> 0 <= e -> 0 <= modPow b e m < m.
Proof. intros. rewrite modPow_spec by assumption. apply Z.mod_pos_bound. lia. Qed.

Lemma modAdd_spec (a b m : Z) : 0 < m -> 0 <= a -> 0 <= b -> modAdd a b m = (a + b) mod m.
Proof. intros. apply rem_mod; lia. Qed.

Lemma modMul_spec (a b m : Z) : 0 < m -> 0 <= a -> 0 <= b -> modMul a b m = (a * b) mod m.
Proof. intros. apply rem_mod; nia. Qed.

Lemma modSub_spec (a b m : Z) : 0 < m -> 0 <= a -> b <= m -> modSub a b m = (a - b) mod m.
Proof.
  intros. unfold modSub. rewrite rem_mod by lia.
  replace (a - b + m) with (a - b + 1 * m) by lia. apply Z.mod_add. lia.
Qed.

(** The inverse of a residue of a prime modulus. *)
Lemma modInverse_spec (a p : Z) (Hp : Z.prime p) : 0 <= a -> a mod p <> 0 ->
  exists v, modInverse a p = Ok v /\ 0 <= v < p
            /\ Zmod.of_Z p v = Zmod.inv (Zmod.of_Z p a).
Proof.
  intros Ha Hne. pose proof (Z.prime_ge_2 p Hp). unfold modInverse.
  rewrite rem_mod by lia. rewrite (proj2 (Z.eqb_neq _ _) Hne).
  exists (modPow a (p - 2) p). split; [reflexivity|]. split; [apply modPow_range; lia|].
  rewrite modPow_spec by lia. now apply phi_fermat_inv.
Qed.

(** ** The order of the generator *)

Lemma VSS_G_Q : VSS_G ^ VSS_Q mod VSS_P = 1.
Proof.
  change VSS_G with (2 ^ 2). rewrite <- Z.pow_mul_r by (pose proof VSS_Q_pos; lia).
  replace (2 * VSS_Q) with (VSS_P - 1) by (rewrite VSS_P_Q; lia).
  apply Z.fermat_nz; [apply VSS_P_prime|].
  rewrite Z.mod_small by (pose proof VSS_bounds; lia). discriminate.
Qed.

Lemma VSS_G_order (d : Z) : 0 <= d -> VSS_G ^ d mod VSS_P = 1 -> (VSS_Q | d).
Proof.
  intros Hd E. destruct (Z.BoolSpec_divide VSS_Q d) as [H|H]; [assumption|exfalso].
  assert (Hg : Z.gcd VSS_Q d = 1) by (apply Z.coprime_prime_l; auto with cg).
  pose proof (pow_one_gcd VSS_G VSS_P VSS_Q d VSS_P_gt1) as Hpow.
  rewrite Hg in Hpow. pose proof VSS_bounds. pose proof VSS_Q_pos.
  specialize (Hpow ltac:(lia) Hd VSS_G_Q E). unfold VSS_G in Hpow.
  rewrite Z.pow_1_r, Z.mod_small in Hpow by lia. discriminate.
Qed.

Lemma VSS_G_pow_mod (a : Z) : 0 <= a -> VSS_G ^ (a mod VSS_Q) mod VSS_P = VSS_G ^ a mod VSS_P.
Proof.
  intros Ha. pose proof VSS_Q_pos as HQ. pose proof VSS_P_gt1.
  pose proof (Z.mod_pos_bound a VSS_Q HQ). pose proof (Z.div_pos a VSS_Q Ha HQ).
  rewrite (Z.div_mod a VSS_Q) at 2 by lia. rewrite Z.pow_add_r by nia.
  rewrite <- Zmult_mod_idemp_l, pow_one_mul by (try apply VSS_G_Q; lia).
  now rewrite Z.mul_1_l.
Qed.

Lemma VSS_G_inj (a b : Z) : 0 <= a -> 0 <= b ->
  VSS_G ^ a mod VSS_P = VSS_G ^ b mod VSS_P -> a mod VSS_Q = b mod VSS_Q.
Proof.
  assert (H : forall a b, 0 <= b <= a -> VSS_G ^ a mod VSS_P = VSS_G ^ b mod VSS_P ->
            a mod VSS_Q = b mod VSS_Q).
  { intros x y Hxy E. pose proof VSS_Q_pos. pose proof VSS_P_gt1. pose proof VSS_bounds.
    assert (Hy : VSS_G ^ y mod VSS_P <> 0).
    { intros E0. apply Z.mod_divide in E0; [|lia].
      change VSS_G with (2 ^ 2) in E0. rewrite <- Z.pow_mul_r in E0 by lia.
      apply Z.divide_prime_pp in E0; [lia|auto using Z.prime_2 with cg..|lia]. }
    assert (E1 : VSS_G ^ (x - y) mod VSS_P = 1).
    { replace x with (x - y + y) in E by lia. rewrite Z.pow_add_r in E by lia.
      apply (mod_cancel VSS_P VSS_P_prime _ _ Hy). exact E. }
    apply VSS_G_order in E1 as [k Ek]; [|lia].
    replace x with (y + k * VSS_Q) by lia. apply Z.mod_add. lia. }
  intros Ha Hb E. destruct (Z.le_ge_cases b a); [apply H|symmetry; apply H]; auto; lia.
Qed.

(** ** Polynomials and their commitments *)

(** The value of the polynomial over the integers. *)
Fixpoint zeval (coeffs : list Z) (x : Z) : Z :=
  match coeffs with
  | [] => 0
  | c :: cs => c + x * zeval cs x
  end.

(** [sum of coeffs[j] * x^j] for the exponents [j0], [j0 + 1], ... *)
Fixpoint zsum (coeffs : list Z) (x : Z) (j : nat) : Z :=
  match coeffs with
  | [] => 0
  | c :: cs => c * x ^ Z.of_nat j + zsum cs x (S j)
  end.

Lemma zsum_zeval (coeffs : list Z) (x : Z) (j : nat) :
  zsum coeffs x j = x ^ Z.of_nat j * zeval coeffs x.
Proof.
  revert j. induction coeffs as [|c cs IH]; intros j; simpl zsum; simpl zeval; [ring|].
  rewrite IH, Nat2Z.inj_succ, Z.pow_succ_r by lia. ring.
Qed.

Lemma zsum_0 (coeffs : list Z) (x : Z) : zsum coeffs x 0 = zeval coeffs x.
Proof. rewrite zsum_zeval. simpl Z.of_nat. rewrite Z.pow_0_r. ring. Qed.

Lemma zeval_nonneg (coeffs : list Z) (x : Z) :
  0 <= x -> Forall (fun a => 0 <= a) coeffs -> 0 <= zeval coeffs x.
Proof. intros Hx. induction 1; simpl; [lia|nia]. Qed.

(** [C_j = g^(a_j) mod P]. *)
Definition commit (a : Z) : Z := VSS_G ^ a mod VSS_P.

Lemma commit_range (a : Z) : 0 <= commit a < VSS_P.
Proof. apply Z.mod_pos_bound, VSS_P_pos. Qed.

(** The right-hand side of Feldman's check. *)
Definition feldman_rhs (cs : list Z) (x : Z) : Z :=
  fold_left (fun rhs j => (rhs * ((nth j cs 0) ^ (x ^ Z.of_nat j mod VSS_Q) mod VSS_P)) mod VSS_P)
    (seq 0 (length cs)) 1.

Lemma feldman_fold (coeffs : list Z) (x : Z) : 0 <= x ->
  Forall (fun a => 0 <= a) coeffs ->
  feldman_rhs (map commit coeffs) x = VSS_G ^ zeval coeffs x mod VSS_P.
Proof.
  intros Hx Hc. unfold feldman_rhs. rewrite length_map.
  assert (H : forall k cs pre acc e, map commit coeffs = pre ++ map commit cs -> length pre = k ->
    Forall (fun a => 0 <= a) cs -> 0 <= e -> acc = VSS_G ^ e mod VSS_P ->
    fold_left (fun rhs j =>
      (rhs * ((nth j (map commit coeffs) 0) ^ (x ^ Z.of_nat j mod VSS_Q) mod VSS_P)) mod VSS_P)
      (seq k (length cs)) acc = VSS_G ^ (e + zsum cs x k) mod VSS_P).
  { intros k cs. revert k. induction cs as [|c cs IH]; intros k pre acc e Epre Ek Hcs He Eacc.
    - simpl. now rewrite Z.add_0_r.
    - inversion Hcs as [|? ? Hc0 Hcs']; subst. simpl seq. simpl fold_left.
      assert (Hxk : 0 <= x ^ Z.of_nat (length pre)) by (apply Z.pow_nonneg; lia).
      rewrite (IH (S (length pre)) (pre ++ [commit c]) _ (e + c * x ^ Z.of_nat (length pre))).
      + simpl zsum. f_equal. f_equal. ring.
      + rewrite Epre. simpl. now rewrite <- app_assoc.
      + rewrite length_app. simpl. lia.
      + assumption.
      + nia.
      + rewrite Epre. simpl. rewrite nth_middle. unfold commit at 1. rewrite Z.mod_pow_l.
        pose proof (Z.mod_pos_bound (x ^ Z.of_nat (length pre)) VSS_Q VSS_Q_pos).
        rewrite <- Z.pow_mul_r, Zmult_mod_idemp_l, Zmult_mod_idemp_r by lia.
        rewrite Z.pow_add_r by nia.
        rewrite <- (Zmult_mod_idemp_r (VSS_G ^ (c * (_ mod _)))), <- (Zmult_mod_idemp_r (VSS_G ^ (c * _ ^ _))).
        do 2 f_equal. rewrite <- VSS_G_pow_mod, Zmult_mod_idemp_r, VSS_G_pow_mod by nia.
        reflexivity. }
  rewrite (H 0%nat coeffs [] 1 0); [| |reflexivity|assumption|lia|]; [|reflexivity|].
  - now rewrite Z.add_0_l, zsum_0.
  - rewrite Z.pow_0_r. symmetry. apply Z.mod_1_l. apply VSS_P_gt1.
Qed.

(** Feldman's check against the commitments of a polynomial accepts [(x, y)]
    exactly when [y] is the value at [x], modulo [Q]. *)
Lemma feldman_check (coeffs : list Z) (x y : Z) : 0 <= x -> 0 <= y ->
  Forall (fun a => 0 <= a) coeffs ->
  (VSS_G ^ y mod VSS_P =? feldman_rhs (map commit coeffs) x)
  = (y mod VSS_Q =? zeval coeffs x mod VSS_Q).
Proof.
  intros Hx Hy Hc. rewrite feldman_fold by assumption.
  pose proof (zeval_nonneg coeffs x Hx Hc).
  destruct (Z.eqb_spec (y mod VSS_Q) (zeval coeffs x mod VSS_Q)) as [E|E].
  - apply Z.eqb_eq. rewrite <- VSS_G_pow_mod, E by assumption. now apply VSS_G_pow_mod.
  - apply Z.eqb_neq. intros E'. apply E. now apply VSS_G_inj.
Qed.

(** The evaluation loop of the share values: [y = y + a_j * xPower] and
    [xPower = xPower * x], for any copy of the helpers. *)
Definition eval_loop (add mul : Z -> Z -> Z -> Z) (coefficients : list Z) (k : nat) (x : Z)
    : Z * Z :=
  for_n k (fun j '(y, xPower) =>
    let term := mul (nth j coefficients 0) xPower VSS_Q in
    (add y term VSS_Q, mul xPower x VSS_Q)) (0, 1).

Section EvalLoop.
Variables add mul : Z -> Z -> Z -> Z.
Hypothesis add_spec : forall a b m, 0 < m -> 0 <= a -> 0 <= b -> add a b m = (a + b) mod m.
Hypothesis mul_spec : forall a b m, 0 < m -> 0 <= a -> 0 <= b -> mul a b m = (a * b) mod m.

Lemma zsum_app (l : list Z) (a x : Z) (j : nat) :
  zsum (l ++ [a]) x j = zsum l x j + a * x ^ Z.of_nat (j + length l).
Proof.
  revert j. induction l as [|c l IH]; intros j; simpl; [rewrite Nat.add_0_r; ring|].
  rewrite IH. replace (S j + length l)%nat with (j + S (length l))%nat by lia. ring.
Qed.

Lemma eval_loop_spec (coeffs : list Z) (x : Z) :
  0 <= x -> Forall (fun a => 0 <= a) coeffs ->
  fst (eval_loop add mul coeffs (length coeffs) x) = zeval coeffs x mod VSS_Q.
Proof.
  intros Hx Hc. unfold eval_loop. pose proof VSS_Q_pos as HQ.
  assert (Hi : forall k, (k <= length coeffs)%nat ->
    for_n k (fun j '(y, xPower) =>
      let term := mul (nth j coeffs 0) xPower VSS_Q in
      (add y term VSS_Q, mul xPower x VSS_Q)) (0, 1)
    = (zsum (firstn k coeffs) x 0 mod VSS_Q,
       if (k =? 0)%nat then 1 else x ^ Z.of_nat k mod VSS_Q)).
  { induction k as [|k IH]; intros Hk; [reflexivity|].
    rewrite for_n_S, IH by lia. cbv zeta.
    assert (Ha : 0 <= nth k coeffs 0).
    { rewrite Forall_forall in Hc. apply Hc, nth_In. lia. }
    assert (Hp : 0 <= (if (k =? 0)%nat then 1 else x ^ Z.of_nat k mod VSS_Q)).
    { destruct (k =? 0)%nat; [lia|]. apply Z.mod_pos_bound, HQ. }
    assert (Ep : (if (k =? 0)%nat then 1 else x ^ Z.of_nat k mod VSS_Q) mod VSS_Q
                 = x ^ Z.of_nat k mod VSS_Q).
    { destruct (k =? 0)%nat eqn:Ek; [|apply Z.mod_mod; lia].
      apply Nat.eqb_eq in Ek. rewrite Ek. reflexivity. }
    rewrite !mul_spec, add_spec by (try assumption; apply Z.mod_pos_bound, HQ).
    assert (Ef : firstn (S k) coeffs = firstn k coeffs ++ [nth k coeffs 0]).
    { rewrite (others_split coeffs k 0) at 1 by lia.
      rewrite firstn_app, length_firstn, Nat.min_l by lia.
      rewrite (firstn_all2 (firstn k coeffs)) by (rewrite length_firstn; lia).
      now replace (S k - k)%nat with 1%nat by lia. }
    rewrite Ef, zsum_app, length_firstn, Nat.min_l by lia. cbn [Nat.eqb Nat.add].
    f_equal.
    - rewrite (Zmult_mod (nth k coeffs 0)), Ep, <- Zmult_mod.
      now rewrite <- Zplus_mod.
    - rewrite Zmult_mod, Ep, <- Zmult_mod. f_equal.
      rewrite Nat2Z.inj_succ, Z.pow_succ_r by lia. ring. }
  rewrite Hi by lia. cbn [fst]. now rewrite firstn_all, zsum_0.
Qed.
End EvalLoop.
