(* ===== verification/Secrets.v ===== *)
(** * Secrets: Feldman's verifiable secret sharing of secrets.service.ts

    [splitSecretVSS], [verifyShare] and [reconstructSecret] (with the legacy
    byte-wise reconstruction over GF(256)), on the share and commitment strings
    the service exchanges.  The random bytes are a parameter: [rand i] is the
    buffer filled for the [i]-th coefficient. *)

From Stdlib Require Import Ascii String ZArith Zmod List Lia Bool Permutation Field.
Import ListNotations.
From S2P Require Import Prelude JsString Hex Algebra GF256 Primes Modular VssField.

Open Scope list_scope.
Open Scope Z_scope.

(** ** Splitting *)

Definition strip_0x (s : string) : string := if startsWith "0x" s then slice_from 2 s else s.

(** One random coefficient from 32 random bytes. *)
Definition rand_scalar (bytes : list Z) : res Z :=
  let! v := BigInt_hex (bytes_hex bytes) in Ok (Z.rem v VSS_Q).

Definition share_string (x : nat) (lenHex : string) (y : Z) : string :=
  (num_str (Z.of_nat x) ++ "-vss" ++ lenHex ++ padStart 64 "0" (to_hex y))%string.

Definition splitSecretVSS (rand : nat -> list Z) (secretHex : string) (n k : nat)
    : res (list string * list string) :=
  throw_if (n <? k)%nat with "Threshold cannot exceed total shares"%string;;
  throw_if (k <? 1)%nat with "Threshold must be at least 1"%string;;
  let cleanHex := strip_0x secretHex in
  throw_if negb (String.length cleanHex mod 2 =? 0)%nat with
    "Secret hex string must have an even length"%string;;
  let! secretBig := BigInt_hex cleanHex in
  throw_if secretBig >=? VSS_Q with "Secret key is too large for the VSS prime field"%string;;
  let! random := res_mapM (fun i => rand_scalar (rand i)) (seq 1 (k - 1)) in
  let coefficients := secretBig :: random in
  let lenHex := padStart 2 "0" (to_hex (Z.of_nat (String.length cleanHex))) in
  let shares := map (fun x =>
    let '(y, _) := eval_loop modAdd modMul coefficients k (Z.of_nat x) in
    share_string x lenHex y) (seq 1 n) in
  let commitments := map (fun j =>
    padStart 66 "0" (to_hex (modPow VSS_G (nth j coefficients 0) VSS_P))) (seq 0 k) in
  Ok (shares, commitments).

(** The legacy wrapper. *)
Definition splitSecret (rand : nat -> list Z) (secretHex : string) (n k : nat)
    : res (list string) :=
  let! sc := splitSecretVSS rand secretHex n k in Ok (fst sc).

(** ** Verification *)

(** The product of the loop, for any copy of the helpers; a malformed commitment
    throws. *)
Definition rhs_loop (pow mul : Z -> Z -> Z -> Z) (x : Z) (commitments : list string) : res Z :=
  res_foldl (fun rhs j =>
    let! cj := BigInt_hex (nth j commitments ""%string) in
    let xPower := pow x (Z.of_nat j) VSS_Q in
    let term := pow cj xPower VSS_P in
    Ok (mul rhs term VSS_P)) (seq 0 (length commitments)) 1.

Definition verifyShare (shareString : string) (commitments : list string) : bool :=
  res_catch
    (match split "-" shareString with
     | [p0; p1] =>
         let! x := BigInt_str p0 in
         if startsWith "vss" p1 then
           let! y := BigInt_hex (slice_from 5 p1) in
           let lhs := modPow VSS_G y VSS_P in
           let! rhs := rhs_loop modPow modMul x commitments in
           Ok (lhs =? rhs)
         else Ok false
     | _ => Ok false
     end) false.

(** ** Reconstruction *)

(** [reconstructByte]: Lagrange interpolation at 0 over GF(256). *)
Definition reconstructByte (shares : list (Z * Z)) : res Z :=
  res_foldl (fun secret i =>
    let '(xi, yi) := nth i shares (0, 0) in
    let! lagrange := res_foldl (fun lagrange j =>
        if (i =? j)%nat then Ok lagrange
        else
          let xj := fst (nth j shares (0, 0)) in
          let numerator := xj in
          let denominator := Z.lxor xj xi in
          let! inv := SecretsGF.gfInverse denominator in
          Ok (SecretsGF.gfMultiply lagrange (SecretsGF.gfMultiply numerator inv)))
      (seq 0 (length shares)) 1 in
    Ok (Z.lxor secret (SecretsGF.gfMultiply yi lagrange)))
  (seq 0 (length shares)) 0.

Definition parse_legacy (s : string) : res (Z * list Z) :=
  match split "-" s with
  | [p0; hex] =>
      match parseInt 10 p0 with
      | Some x =>
          throw_if x <? 1 with ("Invalid x-coordinate in share: " ++ s)%string;;
          Ok (x, hex_bytes hex)
      | None => Throw ("Invalid x-coordinate in share: " ++ s)
      end
  | _ => Throw ("Invalid share format: " ++ s)
  end.

Definition reconstruct_legacy (shareStrings : list string) : res string :=
  let! parsedShares := res_mapM parse_legacy shareStrings in
  let numBytes := length (snd (nth 0 parsedShares (0, []))) in
  throw_if existsb (fun s => negb (length (snd s) =? numBytes)%nat) parsedShares with
    "All shares must have the same length"%string;;
  let! reconstructedBytes := res_mapM (fun byteIndex =>
      reconstructByte (map (fun s => (fst s, nth byteIndex (snd s) 0)) parsedShares))
    (seq 0 numBytes) in
  Ok (bytes_hex (map (fun b => b mod 256) reconstructedBytes)).

(** [parseInt(lenHex, 16)] as the width of the final [padStart]. *)
Definition len_of (lenHex : string) : nat :=
  match parseInt 16 lenHex with Some v => Z.to_nat v | None => 0 end.

(** One share of the VSS branch: the length it sets, if any, and the point. *)
Definition parse_vss (s : string) : res (option nat * (Z * Z)) :=
  match split "-" s with
  | [p0; hex] =>
      let! x := BigInt_str p0 in
      if startsWith "vss" hex then
        let originalLen := len_of (slice 3 5 hex) in
        let! y := BigInt_hex (slice_from 5 hex) in
        Ok (Some originalLen, (x, y))
      else
        let! y := BigInt_hex hex in Ok (None, (x, y))
  | _ => Throw ("Invalid share format: " ++ s)
  end.

Definition lagrange_vss (xs : list Z) (i : nat) : res Z :=
  let xi := nth i xs 0 in
  res_foldl (fun lagrange j =>
    if (i =? j)%nat then Ok lagrange
    else
      let xj := nth j xs 0 in
      let numerator := xj in
      let denominator := modSub xj xi VSS_Q in
      let! inv := modInverse denominator VSS_Q in
      let term := modMul numerator inv VSS_Q in
      Ok (modMul lagrange term VSS_Q)) (seq 0 (length xs)) 1.

Definition interpolate_vss (points : list (Z * Z)) : res Z :=
  res_foldl (fun secret i =>
    let yi := snd (nth i points (0, 0)) in
    let! lagrange := lagrange_vss (map fst points) i in
    Ok (modAdd secret (modMul yi lagrange VSS_Q) VSS_Q)) (seq 0 (length points)) 0.

Definition reconstruct_vss (shareStrings : list string) : res string :=
  let! parsed := res_mapM parse_vss shareStrings in
  let originalLen := fold_left (fun l p => match fst p with Some v => v | None => l end) parsed 64%nat in
  let! secret := interpolate_vss (map snd parsed) in
  Ok (padStart originalLen "0" (to_hex secret)).

Definition reconstructSecret (shareStrings : list string) : res string :=
  match shareStrings with
  | [] => Throw "No shares provided for reconstruction"
  | s0 :: _ =>
      let isVSS := match split "-" s0 with
                   | _ :: p1 :: _ => startsWith "vss" p1
                   | _ => false
                   end in
      if isVSS then reconstruct_vss shareStrings else reconstruct_legacy shareStrings
  end.
