(* ===== verification/SecretsProofs.v ===== *)
(** * SecretsProofs: the promises of the verifiable sharing

    Every share [splitSecretVSS] makes is accepted by [verifyShare]; a share
    string [verifyShare] accepts carries the value of the shared polynomial;
    and any [k] accepted share strings at distinct points reconstruct the
    secret. *)

From Stdlib Require Import Ascii String ZArith Zmod List Lia Bool Permutation Field.
Import ListNotations.
From S2P Require Import Prelude JsString Hex Algebra GF256 Primes Modular VssField Secrets.

Open Scope list_scope.
Open Scope Z_scope.

(** ** Random coefficients *)

Lemma gf_bytes (l : list Z) : bytes l -> Forall Bytes.is_byte l.
Proof. apply Forall_impl. intros z Hz. now apply is_byte_spec in Hz. Qed.

Lemma gf_bytes_hex_digits (l : list Z) : bytes l -> str_all (is_digit 16) (bytes_hex l) = true.
Proof. intros Hl. now apply bytes_hex_digits, gf_bytes. Qed.

Lemma gf_hex_bytes (l : list Z) : bytes l -> hex_bytes (bytes_hex l) = l.
Proof. intros Hl. now apply hex_bytes_bytes_hex, gf_bytes. Qed.

Definition good_rand (rand : nat -> list Z) : Prop :=
  forall i, bytes (rand i) /\ length (rand i) = 32%nat.

Lemma rand_scalar_ok (l : list Z) : bytes l -> length l = 32%nat ->
  exists v, rand_scalar l = Ok v /\ 0 <= v < VSS_Q.
Proof.
  intros Hl Hn. unfold rand_scalar. pose proof (gf_bytes_hex_digits l Hl) as Hd.
  destruct (parse_digits_some 16 (bytes_hex l)) as (v & E & Hv); [lia|assumption| |].
  { apply bytes_hex_nonempty. now intros ->. }
  rewrite BigInt_hex_digits, E by assumption. cbn [res_bind]. eexists. split; [reflexivity|].
  rewrite rem_mod by auto with cg. apply Z.mod_pos_bound, VSS_Q_pos.
Qed.

Lemma random_coefficients (rand : nat -> list Z) (j m : nat) : good_rand rand ->
  exists cs, res_mapM (fun i => rand_scalar (rand i)) (seq j m) = Ok cs
    /\ length cs = m /\ Forall (fun a => 0 <= a < VSS_Q) cs.
Proof.
  intros Hr. revert j. induction m as [|m IH]; intros j; simpl.
  - exists []. auto.
  - destruct (Hr j) as [Hb Hl]. destruct (rand_scalar_ok (rand j) Hb Hl) as (v & -> & Hv).
    cbn [res_bind]. destruct (IH (S j)) as (cs & -> & Hcs & Hf). cbn [res_bind].
    exists (v :: cs). repeat split; [simpl; lia|now constructor].
Qed.

(** ** The result of splitSecretVSS *)

Lemma BigInt_hex_shape (h : string) (v : Z) : BigInt_hex h = Ok v ->
  exists t, parse_digits 16 t = Some v.
Proof.
  unfold BigInt_hex, BigInt_str, trim. change (trim_start ("0x" ++ h)) with ("0x" ++ h)%string.
  assert (E : exists t, trim_end ("0x" ++ h) = ("0x" ++ t)%string).
  { simpl. destruct (trim_end h) as [|c t]; simpl; [now exists ""%string|now exists (String c t)]. }
  destruct E as (t & ->). simpl. intros H. exists t.
  destruct (parse_digits 16 t); [congruence|discriminate].
Qed.

Lemma parse_acc_nonneg (b : Z) (s : string) (a v : Z) : 0 <= b -> 0 <= a ->
  parse_acc b s a = Some v -> 0 <= v.
Proof.
  intros Hb. revert a. induction s as [|c s IH]; intros a Ha E; simpl in E; [congruence|].
  destruct (digit_val c) as [d|] eqn:Ed; [|discriminate]. destruct (d <? b); [|discriminate].
  apply digit_val_nonneg in Ed. apply (IH (a * b + d)); [nia|assumption].
Qed.

Lemma BigInt_hex_nonneg (h : string) (v : Z) : BigInt_hex h = Ok v -> 0 <= v.
Proof.
  intros H. apply BigInt_hex_shape in H as (t & E). unfold parse_digits in E.
  destruct t; [discriminate|]. eapply parse_acc_nonneg; [| |exact E]; lia.
Qed.

(** The shared polynomial and what is published about it. *)
Definition commitment_strings (coeffs : list Z) : list string :=
  map (fun a => padStart 66 "0" (to_hex (commit a))) coeffs.

Definition share_for (coeffs : list Z) (len : nat) (x : nat) : string :=
  share_string x (padStart 2 "0" (to_hex (Z.of_nat len))) (zeval coeffs (Z.of_nat x) mod VSS_Q).

Definition in_Q (coeffs : list Z) : Prop := Forall (fun a => 0 <= a < VSS_Q) coeffs.

Lemma in_Q_nonneg (coeffs : list Z) : in_Q coeffs -> Forall (fun a => 0 <= a) coeffs.
Proof. apply Forall_impl. lia. Qed.

Lemma commitments_eq (pow : Z -> Z -> Z -> Z) (coeffs : list Z) :
  (forall b e m, 1 < m -> 0 <= b -> 0 <= e -> pow b e m = b ^ e mod m) -> in_Q coeffs ->
  map (fun j => padStart 66 "0" (to_hex (pow VSS_G (nth j coeffs 0) VSS_P)))
    (seq 0 (length coeffs)) = commitment_strings coeffs.
Proof.
  intros Hpow Hc. unfold commitment_strings.
  transitivity (map (fun a => padStart 66 "0" (to_hex (commit a)))
                  (map (fun i => nth i coeffs 0) (seq 0 (length coeffs))));
    [|now rewrite map_nth_seq].
  rewrite map_map. apply map_ext_in. intros j Hj. apply in_seq in Hj.
  assert (Ha : 0 <= nth j coeffs 0).
  { unfold in_Q in Hc. rewrite Forall_forall in Hc. apply Hc, nth_In. lia. }
  rewrite Hpow by (try assumption; try apply VSS_P_gt1; unfold VSS_G; lia). reflexivity.
Qed.

Definition split_guards (secretHex : string) (n k : nat) (s : Z) : Prop :=
  (1 <= k <= n)%nat /\ Nat.Even (String.length (strip_0x secretHex))
  /\ BigInt_hex (strip_0x secretHex) = Ok s /\ s < VSS_Q.

Lemma splitSecretVSS_spec (rand : nat -> list Z) (secretHex : string) (n k : nat) (s : Z) :
  good_rand rand -> split_guards secretHex n k s ->
  exists coeffs, length coeffs = k /\ in_Q coeffs /\ nth 0 coeffs 0 = s
    /\ splitSecretVSS rand secretHex n k
       = Ok (map (share_for coeffs (String.length (strip_0x secretHex))) (seq 1 n),
             commitment_strings coeffs).
Proof.
  intros Hr ((Hk & Hn) & Heven & Hs & Hlt). unfold splitSecretVSS.
  rewrite (proj2 (Nat.ltb_ge n k)), (proj2 (Nat.ltb_ge k 1)) by assumption. cbv zeta.
  assert (He : (String.length (strip_0x secretHex) mod 2)%nat = 0%nat).
  { destruct Heven as [m ->]. rewrite Nat.mul_comm. apply Nat.Div0.mod_mul. }
  rewrite He, Hs. cbn [Nat.eqb negb res_bind].
  assert (Hge : (s >=? VSS_Q) = false) by lia. rewrite Hge.
  destruct (random_coefficients rand 1 (k - 1) Hr) as (cs & -> & Hl & Hcs). cbn [res_bind].
  pose proof (BigInt_hex_nonneg _ _ Hs) as Hs0.
  assert (Hq : in_Q (s :: cs)) by (constructor; [lia|assumption]).
  assert (Hlen : length (s :: cs) = k) by (simpl; lia).
  exists (s :: cs). repeat split; [assumption..|]. f_equal. f_equal.
  - apply map_ext. intros x. rewrite <- Hlen.
    pose proof (eval_loop_spec modAdd modMul modAdd_spec modMul_spec (s :: cs) (Z.of_nat x)
                  ltac:(lia) (in_Q_nonneg _ Hq)) as E.
    destruct (eval_loop _ _ _ _ _) as [y xp]. cbn [fst] in E. now rewrite E.
  - rewrite <- Hlen. now apply commitments_eq; [apply modPow_spec|].
Qed.

(** ** Verification *)

Lemma res_foldl_catch_ok {A S : Type} (f : S -> A -> res S) (g : S -> A -> S) (l : list A)
    (P : S -> Prop) (s : S) :
  P s -> (forall s x, In x l -> P s -> f s x = Ok (g s x) /\ P (g s x)) ->
  res_foldl f l s = Ok (fold_left g l s).
Proof.
  revert s. induction l as [|x l IH]; intros s Hs H; simpl; [reflexivity|].
  destruct (H s x (or_introl eq_refl) Hs) as [-> Hg]. simpl.
  apply IH; [assumption|]. intros; apply H; [now right|assumption].
Qed.

Section RhsLoop.
Variables pow mul : Z -> Z -> Z -> Z.
Hypothesis pow_spec : forall b e m, 1 < m -> 0 <= b -> 0 <= e -> pow b e m = b ^ e mod m.
Hypothesis mul_spec : forall a b m, 0 < m -> 0 <= a -> 0 <= b -> mul a b m = (a * b) mod m.

Lemma rhs_loop_spec (coeffs : list Z) (x : Z) : 0 <= x -> in_Q coeffs ->
  rhs_loop pow mul x (commitment_strings coeffs) = Ok (feldman_rhs (map commit coeffs) x).
Proof.
  intros Hx Hc. unfold rhs_loop, feldman_rhs, commitment_strings. rewrite !length_map.
  apply (res_foldl_catch_ok _ _ _ (fun r => 0 <= r)); [lia|].
  intros r j Hj Hr. apply in_seq in Hj.
  rewrite (nth_indep _ ""%string (padStart 66 "0" (to_hex (commit 0)))) by (rewrite length_map; lia).
  rewrite (map_nth (fun a => padStart 66 "0" (to_hex (commit a))) coeffs 0).
  pose proof (commit_range (nth j coeffs 0)) as Hcr.
  rewrite BigInt_hex_pad by lia. cbn [res_bind].
  rewrite (nth_indep (map commit coeffs) 0 (commit 0)) by (rewrite length_map; lia).
  rewrite map_nth, (pow_spec x) by (auto with cg; lia).
  pose proof (Z.mod_pos_bound (x ^ Z.of_nat j) VSS_Q VSS_Q_pos).
  rewrite pow_spec by (auto with cg; lia).
  pose proof (Z.mod_pos_bound (commit (nth j coeffs 0) ^ (x ^ Z.of_nat j mod VSS_Q)) VSS_P VSS_P_pos).
  rewrite mul_spec by (auto with cg; lia).
  split; [reflexivity|]. apply Z.mod_pos_bound, VSS_P_pos.
Qed.
End RhsLoop.

(** The parts of a well-formed VSS share string. *)
Definition vss_parts (s : string) (x : Z) (len y : string) : Prop :=
  exists p0 p1, split "-" s = [p0; p1] /\ BigInt_str p0 = Ok x /\ startsWith "vss" p1 = true
    /\ len = slice 3 5 p1 /\ y = slice_from 5 p1.

Lemma verifyShare_parts (s : string) (coeffs : list Z) (x y : Z) (len hex : string) :
  vss_parts s x len hex -> BigInt_hex hex = Ok y -> 0 <= x -> in_Q coeffs ->
  verifyShare s (commitment_strings coeffs) = (y mod VSS_Q =? zeval coeffs x mod VSS_Q).
Proof.
  intros (p0 & p1 & Es & Ex & Ev & _ & ->) Ey Hx Hc. unfold verifyShare.
  rewrite Es, Ex. cbn [res_bind]. rewrite Ev, Ey. cbn [res_bind].
  rewrite (rhs_loop_spec _ _ modPow_spec modMul_spec) by assumption. cbn [res_bind res_catch].
  pose proof (BigInt_hex_nonneg _ _ Ey).
  rewrite modPow_spec by (auto with cg; unfold VSS_G; lia).
  apply feldman_check; auto using in_Q_nonneg.
Qed.

Lemma verifyShare_accepts (s : string) (cs : list string) : verifyShare s cs = true ->
  exists x y len hex, vss_parts s x len hex /\ BigInt_hex hex = Ok y.
Proof.
  unfold verifyShare. intros H.
  destruct (split "-" s) as [|p0 [|p1 [|]]] eqn:Es; try discriminate H.
  destruct (BigInt_str p0) as [x|] eqn:Ex; [|discriminate H]. cbn [res_bind] in H.
  destruct (startsWith "vss" p1) eqn:Ev; [|discriminate H].
  destruct (BigInt_hex (slice_from 5 p1)) as [y|] eqn:Ey; [|discriminate H].
  exists x, y, (slice 3 5 p1), (slice_from 5 p1). split; [exists p0, p1; auto|assumption].
Qed.

(** ** Interpolation modulo Q *)

Section Interpolate.
Let FQ := Zp_Field VSS_Q_prime.
#[local] Existing Instance FQ.
Local Abbreviation phi := (Zmod.of_Z VSS_Q).

Definition good_points (xs : list Z) : Prop :=
  Forall (fun x => 0 <= x < VSS_Q) xs /\ NoDup xs.

Lemma phi_NoDup (xs : list Z) : good_points xs -> NoDup (map phi xs).
Proof.
  intros [Hr Hn]. apply NoDup_map_inj_on; [|assumption]. rewrite Forall_forall in Hr.
  intros x y Hx Hy. apply phi_inj; auto.
Qed.

Lemma modMul_nonneg (a b : Z) : 0 <= a -> 0 <= b -> 0 <= modMul a b VSS_Q.
Proof. intros. rewrite modMul_spec by auto with cg. apply Z.mod_pos_bound, VSS_Q_pos. Qed.

Lemma phi_modMul (a b : Z) : phi (modMul a b VSS_Q) = fmul (phi a) (phi b).
Proof. unfold modMul. rewrite phi_rem by auto with cg. apply Zmod.of_Z_mul. Qed.

Lemma phi_modAdd (a b : Z) : phi (modAdd a b VSS_Q) = fadd (phi a) (phi b).
Proof. unfold modAdd. rewrite phi_rem by auto with cg. apply Zmod.of_Z_add. Qed.

(** One factor of a Lagrange weight. *)
Lemma lagrange_factor (xi xj : Z) : 0 <= xi < VSS_Q -> 0 <= xj < VSS_Q -> xi <> xj ->
  exists inv, modInverse (modSub xj xi VSS_Q) VSS_Q = Ok inv /\ 0 <= inv
    /\ phi inv = finv (fsub (phi xj) (phi xi)).
Proof.
  intros Hi Hj Hne. rewrite modSub_spec by (auto with cg; lia).
  pose proof (Z.mod_pos_bound (xj - xi) VSS_Q VSS_Q_pos) as Hb.
  assert (Hnz : (xj - xi) mod VSS_Q <> 0).
  { apply phi_sub_neq; auto with cg. intros E. apply Hne. symmetry.
    apply (phi_inj VSS_Q); assumption. }
  destruct (modInverse_spec ((xj - xi) mod VSS_Q) VSS_Q VSS_Q_prime) as (v & -> & Hv & Ev).
  - lia.
  - now rewrite Z.mod_mod by lia.
  - exists v. split; [reflexivity|]. split; [lia|].
    rewrite Ev, phi_mod, Zmod.of_Z_sub. reflexivity.
Qed.

Lemma lagrange_vss_spec (xs : list Z) (i : nat) : good_points xs -> (i < length xs)%nat ->
  exists w, lagrange_vss xs i = Ok w /\ 0 <= w /\ phi w = lagrange0 (map phi xs) i.
Proof.
  intros [Hr Hn] Hi. unfold lagrange_vss.
  assert (Hx : forall j, (j < length xs)%nat -> 0 <= nth j xs 0 < VSS_Q).
  { intros j Hj. rewrite Forall_forall in Hr. apply Hr, nth_In, Hj. }
  set (l := map phi xs).
  assert (Hl : length l = length xs) by apply length_map.
  assert (Hnth : forall j, nth j l f0 = phi (nth j xs 0))
    by (intros j; unfold l; exact (map_nth phi xs 0 j)).
  set (step := fun s j => if (i =? j)%nat then s
               else fmul s ((fun xj => fmul xj (finv (fsub xj (nth i l f0)))) (nth j l f0))).
  edestruct (res_for_inv (fun j w => 0 <= w /\ phi w = fold_left step (seq 0 j) f1)
               (length xs)) as (w & E & Hw & Ew); [| |exists w; split; [exact E|]].
  - split; [lia|reflexivity].
  - intros j w Hj [Hw Ew]. rewrite seq_S, fold_left_app. cbn [fold_left Nat.add].
    rewrite <- Ew. unfold step. destruct (Nat.eqb_spec i j) as [->|Hne]; [exists w; auto|].
    destruct (lagrange_factor (nth i xs 0) (nth j xs 0)) as (inv & -> & Hinv & Einv); auto.
    { now apply NoDup_nth_ne. }
    cbn [res_bind]. eexists. split; [reflexivity|]. pose proof (Hx j Hj). split.
    + apply modMul_nonneg; [assumption|]. apply modMul_nonneg; lia.
    + rewrite !phi_modMul, Einv, !Hnth. reflexivity.
  - split; [exact Hw|]. rewrite Ew. unfold step.
    rewrite <- Hl. rewrite (fold_skip_others (fun s xj => fmul s (fmul xj (finv (fsub xj (nth i l f0))))))
      by (now rewrite Hl).
    rewrite fold_left_fmul. unfold lagrange0. apply (fmul_1_l (Fld := FQ)).
Qed.

Lemma phi_zeval (coeffs : list Z) (x : Z) :
  phi (zeval coeffs x) = peval (map phi coeffs) (phi x).
Proof.
  induction coeffs as [|c cs IH]; simpl; [reflexivity|].
  now rewrite Zmod.of_Z_add, Zmod.of_Z_mul, IH.
Qed.

(** Interpolation of values of a polynomial at distinct points, at least as
    many as coefficients, gives the constant coefficient. *)
Lemma interpolate_vss_spec (coeffs : list Z) (points : list (Z * Z)) :
  in_Q coeffs -> good_points (map fst points) -> (length coeffs <= length points)%nat ->
  Forall (fun p => 0 <= snd p /\ snd p mod VSS_Q = zeval coeffs (fst p) mod VSS_Q) points ->
  interpolate_vss points = Ok (nth 0 coeffs 0).
Proof.
  intros Hc Hx Hl Hy. unfold interpolate_vss.
  set (xs := map fst points) in *. set (l := map phi xs).
  assert (Hlen : length xs = length points) by apply length_map.
  edestruct (res_for_inv (fun j s => (0 <= s < VSS_Q) /\
      phi s = fsum j (fun i => fmul (peval (map phi coeffs) (nth i l f0)) (lagrange0 l i)))
      (length points)) as (s & E & Hs & Es); [| |rewrite E; f_equal].
  - split; [pose proof VSS_Q_pos; lia|reflexivity].
  - intros i s Hi [Hs Es]. cbv zeta.
    destruct (lagrange_vss_spec xs i Hx ltac:(lia)) as (w & -> & Hw & Ew). cbn [res_bind].
    eexists. split; [reflexivity|]. rewrite Forall_forall in Hy.
    destruct (Hy (nth i points (0, 0))) as [Hy0 Hyi]; [now apply nth_In|].
    pose proof (modMul_nonneg _ w Hy0 Hw) as Hm. split.
    + rewrite modAdd_spec by (auto with cg; lia). apply Z.mod_pos_bound, VSS_Q_pos.
    + rewrite phi_modAdd, phi_modMul, Es, Ew. cbn [fsum]. do 2 f_equal.
      rewrite <- (phi_mod VSS_Q), Hyi, phi_mod, phi_zeval. f_equal.
      unfold l, xs. rewrite map_map. symmetry.
      exact (map_nth (fun p => phi (fst p)) points (0, 0) i).
  - unfold in_Q in Hc. destruct coeffs as [|c cs].
    + apply (phi_inj VSS_Q); [assumption|simpl; lia|].
      rewrite Es. apply (fsum_zero (Fld := FQ)). intros i _. apply (fmul_0_l (Fld := FQ)).
    + apply (phi_inj VSS_Q); [assumption|now apply Forall_inv in Hc|].
      rewrite Es. rewrite <- Hlen. unfold l. rewrite <- (length_map phi xs).
      rewrite (lagrange_interpolation_le (Fld := FQ)).
      * cbn [map peval nth]. apply (fadd_mul_0 (Fld := FQ)).
      * now apply phi_NoDup.
      * rewrite !length_map. lia.
Qed.
End Interpolate.

(** ** Reconstruction from accepted share strings *)

(** The fields of a share string, as [verifyShare] and [reconstructSecret] read
    them. *)
Definition share_x (s : string) : Z :=
  match split "-" s with
  | [p0; _] => match BigInt_str p0 with Ok x => x | Throw _ => -1 end
  | _ => -1
  end.

Definition share_y (s : string) : Z :=
  match split "-" s with
  | [_; p1] => match BigInt_hex (slice_from 5 p1) with Ok y => y | Throw _ => -1 end
  | _ => -1
  end.

Definition share_len (s : string) : nat :=
  match split "-" s with [_; p1] => len_of (slice 3 5 p1) | _ => 0%nat end.

Lemma vss_parts_fields (s : string) (x y : Z) (len hex : string) :
  vss_parts s x len hex -> BigInt_hex hex = Ok y ->
  share_x s = x /\ share_y s = y /\ share_len s = len_of len
  /\ parse_vss s = Ok (Some (len_of len), (x, y)).
Proof.
  intros (p0 & p1 & Es & Ex & Ev & -> & ->) Ey.
  unfold share_x, share_y, share_len, parse_vss. rewrite Es, Ex, Ey. cbn [res_bind].
  rewrite Ev. auto.
Qed.

(** The share strings [verifyShare] accepts for a polynomial. *)
Lemma accepted_fields (s : string) (coeffs : list Z) : in_Q coeffs -> 0 <= share_x s ->
  verifyShare s (commitment_strings coeffs) = true ->
  parse_vss s = Ok (Some (share_len s), (share_x s, share_y s)) /\ 0 <= share_y s
  /\ share_y s mod VSS_Q = zeval coeffs (share_x s) mod VSS_Q
  /\ exists p0 p1, split "-" s = [p0; p1] /\ startsWith "vss" p1 = true.
Proof.
  intros Hc Hx Hv.
  destruct (verifyShare_accepts _ _ Hv) as (x & y & len & hex & Hp & Ey).
  destruct (vss_parts_fields _ _ _ _ _ Hp Ey) as (Esx & Esy & Esl & Epv).
  rewrite Esx in Hx. rewrite (verifyShare_parts s coeffs x y len hex Hp Ey Hx Hc) in Hv.
  rewrite Esx, Esy, Esl. split; [exact Epv|]. split; [now apply BigInt_hex_nonneg in Ey|].
  split; [now apply Z.eqb_eq|]. destruct Hp as (p0 & p1 & Es & _ & Ev & _). eauto.
Qed.

Lemma last_len (l : list string) (d : nat) :
  fold_left (fun l0 (p : option nat * (Z * Z)) => match fst p with Some v => v | None => l0 end)
    (map (fun s => (Some (share_len s), (share_x s, share_y s))) l) d
  = match rev l with s :: _ => share_len s | [] => d end.
Proof.
  induction l as [|s l IH] using rev_ind; [reflexivity|].
  rewrite map_app, fold_left_app, rev_app_distr. reflexivity.
Qed.

Lemma reconstruct_accepted (coeffs : list Z) (sub : list string) :
  in_Q coeffs -> coeffs <> [] ->
  Forall (fun s => verifyShare s (commitment_strings coeffs) = true) sub ->
  good_points (map share_x sub) -> (length coeffs <= length sub)%nat ->
  exists len, reconstructSecret sub = Ok (padStart len "0" (to_hex (nth 0 coeffs 0)))
    /\ (forall n, Forall (fun s => share_len s = n) sub -> len = n).
Proof.
  intros Hc Hne Hv Hx Hl.
  assert (Hf : forall s, In s sub -> parse_vss s = Ok (Some (share_len s), (share_x s, share_y s))
    /\ 0 <= share_y s /\ share_y s mod VSS_Q = zeval coeffs (share_x s) mod VSS_Q
    /\ exists p0 p1, split "-" s = [p0; p1] /\ startsWith "vss" p1 = true).
  { intros s Hs. rewrite Forall_forall in Hv. apply accepted_fields; auto.
    destruct Hx as [Hr _]. rewrite Forall_forall in Hr. apply Hr, in_map, Hs. }
  assert (Hsub : sub <> []).
  { intros ->. destruct coeffs; [contradiction|simpl in Hl; lia]. }
  unfold reconstructSecret. destruct sub as [|s0 sub'] eqn:Esub; [contradiction|].
  destruct (Hf s0 (or_introl eq_refl)) as (_ & _ & _ & p0 & p1 & Es & Ev).
  rewrite Es, Ev, <- Esub in *. clear s0 sub' Esub p0 p1 Es Ev.
  unfold reconstruct_vss.
  rewrite (res_mapM_ok_map _ (fun s => (Some (share_len s), (share_x s, share_y s))))
    by (intros s Hs; apply Hf, Hs).
  cbn [res_bind]. rewrite last_len, map_map.
  rewrite (interpolate_vss_spec coeffs); auto.
  - cbn [res_bind]. eexists. split; [reflexivity|]. intros n Hn.
    destruct (rev sub) as [|s l] eqn:Er.
    + exfalso. apply Hsub. rewrite <- (rev_involutive sub), Er. reflexivity.
    + rewrite Forall_forall in Hn. apply Hn. apply in_rev. rewrite Er. now left.
  - now rewrite map_map.
  - now rewrite length_map.
  - apply Forall_map, Forall_forall. intros s Hs. cbn [fst snd].
    destruct (Hf s Hs) as (_ & Hy & Hyv & _). auto.
Qed.

(** ** The shares of splitSecretVSS *)

Lemma len_hex_length (len : nat) : (len < 256)%nat ->
  String.length (padStart 2 "0" (to_hex (Z.of_nat len))) = 2%nat.
Proof.
  intros Hl. rewrite padStart_length.
  pose proof (to_base_length 16 ltac:(lia) 2 (Z.of_nat len)) as H.
  change (16 ^ Z.of_nat 2) with 256 in H. unfold to_hex.
  specialize (H ltac:(lia) ltac:(lia)). lia.
Qed.

Lemma len_of_hex (len : nat) : len_of (padStart 2 "0" (to_hex (Z.of_nat len))) = len.
Proof.
  unfold len_of. rewrite parseInt_digits; [|lia| |apply pad_to_base_digits; lia].
  - unfold to_hex. rewrite parse_pad_to_base by lia. apply Nat2Z.id.
  - intros _. apply no_0x_prefix, pad_to_base_digits; lia.
Qed.

(** How a share string is cut by the readers. *)
Lemma share_for_split (coeffs : list Z) (len x : nat) : (len < 256)%nat ->
  exists p1, split "-" (share_for coeffs len x) = [num_str (Z.of_nat x); p1]
    /\ startsWith "vss" p1 = true
    /\ slice 3 5 p1 = padStart 2 "0" (to_hex (Z.of_nat len))
    /\ slice_from 5 p1 = padStart 64 "0" (to_hex (zeval coeffs (Z.of_nat x) mod VSS_Q)).
Proof.
  intros Hl. pose proof (Z.mod_pos_bound (zeval coeffs (Z.of_nat x)) VSS_Q VSS_Q_pos) as Hy.
  set (y := zeval coeffs (Z.of_nat x) mod VSS_Q) in *.
  set (lh := padStart 2 "0" (to_hex (Z.of_nat len))).
  set (yh := padStart 64 "0" (to_hex y)).
  assert (Hlh : String.length lh = 2%nat) by now apply len_hex_length.
  assert (Hd : str_all (not_char "-") (lh ++ yh) = true).
  { apply (digits_not_dash 16). rewrite str_all_app. unfold lh, yh, to_hex.
    rewrite !pad_to_base_digits by lia. reflexivity. }
  exists ("vss" ++ lh ++ yh)%string. unfold share_for, share_string.
  split; [|split; [apply startsWith_app|split]].
  - change ("-vss" ++ ?t)%string with (String "-" ("vss" ++ t)).
    rewrite split_sep by (apply (digits_not_dash 10), to_base_digits; lia).
    rewrite split_no_sep; [reflexivity|exact Hd].
  - unfold slice. change (slice_from 3 ("vss" ++ lh ++ yh)) with (lh ++ yh)%string.
    change (5 - 3)%nat with 2%nat. rewrite <- Hlh. apply take_app.
  - change (slice_from 5 ("vss" ++ lh ++ yh)) with (slice_from 2 (lh ++ yh)).
    rewrite <- Hlh. apply slice_from_app.
Qed.

Lemma share_for_parts (coeffs : list Z) (len x : nat) : (len < 256)%nat ->
  vss_parts (share_for coeffs len x) (Z.of_nat x) (padStart 2 "0" (to_hex (Z.of_nat len)))
    (padStart 64 "0" (to_hex (zeval coeffs (Z.of_nat x) mod VSS_Q))).
Proof.
  intros Hl. destruct (share_for_split coeffs len x Hl) as (p1 & Es & Ev & E1 & E2).
  exists (num_str (Z.of_nat x)), p1. rewrite E1, E2.
  split; [exact Es|]. split; [apply BigInt_str_num; lia|]. auto.
Qed.

Lemma split_shares_accepted (coeffs : list Z) (len x : nat) : in_Q coeffs -> (len < 256)%nat ->
  verifyShare (share_for coeffs len x) (commitment_strings coeffs) = true
  /\ share_x (share_for coeffs len x) = Z.of_nat x /\ share_len (share_for coeffs len x) = len.
Proof.
  intros Hc Hl. pose proof (share_for_parts coeffs len x Hl) as Hp.
  pose proof (Z.mod_pos_bound (zeval coeffs (Z.of_nat x)) VSS_Q VSS_Q_pos) as Hy.
  pose proof (BigInt_hex_pad 64 (zeval coeffs (Z.of_nat x) mod VSS_Q) ltac:(lia)) as Ey.
  destruct (vss_parts_fields _ _ _ _ _ Hp Ey) as (Ex & _ & El & _).
  rewrite (verifyShare_parts _ coeffs _ _ _ _ Hp Ey ltac:(lia) Hc).
  rewrite Ex, El, len_of_hex. split; [|auto]. apply Z.eqb_eq, Z.mod_mod.
  pose proof VSS_Q_pos. lia.
Qed.

(** every share of a successful split is accepted against its
    commitments. *)
Theorem split_shares_verify (rand : nat -> list Z) (secretHex : string) (n k : nat) (s : Z)
    (Hr : good_rand rand) (Hg : split_guards secretHex n k s)
    (Hlen : (String.length (strip_0x secretHex) < 256)%nat) :
  exists shares commitments,
    splitSecretVSS rand secretHex n k = Ok (shares, commitments)
    /\ length shares = n /\ length commitments = k
    /\ Forall (fun s => verifyShare s commitments = true) shares.
Proof.
  destruct (splitSecretVSS_spec rand secretHex n k s Hr Hg) as (coeffs & Hl & Hc & _ & ->).
  do 2 eexists. split; [reflexivity|]. unfold commitment_strings.
  rewrite !length_map, length_seq. split; [reflexivity|]. split; [assumption|].
  apply Forall_map, Forall_forall. intros x _. now apply split_shares_accepted.
Qed.

(** C2: any [k] or more strings that [verifyShare] accepts, at distinct points
    below [Q], reconstruct the shared secret, whoever made the strings. *)
Theorem accepted_shares_reconstruct (rand : nat -> list Z) (secretHex : string) (n k : nat)
    (s : Z) (shares commitments sub : list string)
    (Hr : good_rand rand) (Hg : split_guards secretHex n k s)
    (Hsplit : splitSecretVSS rand secretHex n k = Ok (shares, commitments))
    (Hsub : Forall (fun s => verifyShare s commitments = true) sub)
    (Hx : good_points (map share_x sub)) (Hk : (k <= length sub)%nat) :
  exists r, reconstructSecret sub = Ok r /\ BigInt_hex r = Ok s.
Proof.
  destruct (splitSecretVSS_spec rand secretHex n k s Hr Hg) as (coeffs & Hl & Hc & Hs & E).
  rewrite E in Hsplit. injection Hsplit as <- <-.
  destruct (reconstruct_accepted coeffs sub Hc) as (len & -> & _); auto; [|lia|].
  - intros ->. destruct Hg as ((Hk1 & _) & _). simpl in Hl. lia.
  - eexists. split; [reflexivity|]. rewrite Hs. apply BigInt_hex_pad.
    destruct Hg as (_ & _ & Hb & _). now apply BigInt_hex_nonneg in Hb.
Qed.

(** Distinct shares of a polynomial reconstruct its constant coefficient. *)
Lemma genuine_reconstruct (coeffs : list Z) (len n : nat) (sub : list string) :
  in_Q coeffs -> coeffs <> [] -> (len < 256)%nat -> Z.of_nat n < VSS_Q ->
  incl sub (map (share_for coeffs len) (seq 1 n)) -> NoDup sub ->
  (length coeffs <= length sub)%nat ->
  reconstructSecret sub = Ok (padStart len "0" (to_hex (nth 0 coeffs 0))).
Proof.
  intros Hc Hne Hlen Hn Hsub Hnd Hk.
  assert (Hin : forall t, In t sub -> exists x, t = share_for coeffs len x /\ (x <= n)%nat).
  { intros t Ht. apply Hsub, in_map_iff in Ht as (x & <- & Hx). apply in_seq in Hx.
    exists x. split; [reflexivity|lia]. }
  destruct (reconstruct_accepted coeffs sub Hc) as (l & -> & Hlen'); auto.
  - apply Forall_forall. intros t Ht. destruct (Hin t Ht) as (x & -> & _).
    now apply split_shares_accepted.
  - split.
    + apply Forall_map, Forall_forall. intros t Ht. destruct (Hin t Ht) as (x & -> & Hx).
      destruct (split_shares_accepted coeffs len x Hc Hlen) as (_ & -> & _). lia.
    + apply NoDup_map_inj_on; [|assumption]. intros t t' Ht Ht' Ex.
      destruct (Hin t Ht) as (x & -> & _), (Hin t' Ht') as (x' & -> & _).
      destruct (split_shares_accepted coeffs len x Hc Hlen) as (_ & E1 & _).
      destruct (split_shares_accepted coeffs len x' Hc Hlen) as (_ & E2 & _).
      rewrite E1, E2 in Ex. apply Nat2Z.inj in Ex. now subst.
  - rewrite (Hlen' len); [reflexivity|].
    apply Forall_forall. intros t Ht. destruct (Hin t Ht) as (x & -> & _).
    now apply split_shares_accepted.
Qed.

(** Padding the value of a canonical hex string gives the string back. *)
Lemma canonical_hex (h : string) (v : Z) : str_all (canon_digit 16) h = true ->
  BigInt_hex h = Ok v -> padStart (String.length h) "0" (to_hex v) = h.
Proof.
  intros Hcanon Hb. apply pad_canonical; [lia|assumption|].
  rewrite BigInt_hex_digits in Hb.
  - destruct (parse_digits 16 h); congruence.
  - revert Hcanon. apply str_all_impl, canon_is_digit.
Qed.

(** C3: any [k] distinct shares of a split give back the secret string, when
    it is written in lower-case digits. *)
Theorem split_reconstruct (rand : nat -> list Z) (secretHex : string) (n k : nat) (s : Z)
    (shares commitments sub : list string)
    (Hr : good_rand rand) (Hg : split_guards secretHex n k s)
    (Hlen : (String.length (strip_0x secretHex) < 256)%nat) (Hn : Z.of_nat n < VSS_Q)
    (Hcanon : str_all (canon_digit 16) (strip_0x secretHex) = true)
    (Hsplit : splitSecretVSS rand secretHex n k = Ok (shares, commitments))
    (Hsub : incl sub shares) (Hnd : NoDup sub) (Hk : (k <= length sub)%nat) :
  reconstructSecret sub = Ok (strip_0x secretHex).
Proof.
  destruct (splitSecretVSS_spec rand secretHex n k s Hr Hg) as (coeffs & Hl & Hc & Hs & E).
  rewrite E in Hsplit. injection Hsplit as <- <-.
  destruct Hg as ((Hk1 & _) & _ & Hb & _).
  rewrite (genuine_reconstruct coeffs (String.length (strip_0x secretHex)) n sub Hc); auto; [|intros ->; simpl in Hl; lia|lia].
  rewrite Hs. f_equal. now apply canonical_hex.
Qed.

(** A 2-of-3 split of the byte 0x0f. *)
Definition demo_rand : nat -> list Z := fun _ => repeat 7 32.

Lemma demo_rand_good : good_rand demo_rand.
Proof. intros i. split; [repeat constructor|reflexivity]. Qed.

Lemma demo_guards : split_guards "0x0f" 3 2 15.
Proof.
  split; [lia|]. split; [now exists 1%nat|]. split; [vm_compute; reflexivity|].
  pose proof VSS_bounds. lia.
Qed.

Lemma split_shares_verify_witness :
  exists shares commitments,
    splitSecretVSS demo_rand "0x0f" 3 2 = Ok (shares, commitments)
    /\ Forall (fun s => verifyShare s commitments = true) shares.
Proof.
  destruct (split_shares_verify demo_rand "0x0f" 3 2 15 demo_rand_good demo_guards)
    as (shares & commitments & E & _ & _ & H).
  - simpl. lia.
  - exists shares, commitments. auto.
Defined.

Lemma demo_split_shares : exists coeffs,
  in_Q coeffs /\ splitSecretVSS demo_rand "0x0f" 3 2
                 = Ok (map (share_for coeffs 2) (seq 1 3), commitment_strings coeffs)
  /\ good_points (map share_x (map (share_for coeffs 2) [3; 1]%nat)).
Proof.
  destruct (splitSecretVSS_spec demo_rand "0x0f" 3 2 15 demo_rand_good demo_guards)
    as (coeffs & _ & Hc & _ & E).
  exists coeffs. split; [assumption|]. split; [exact E|]. cbn [map].
  rewrite !(fun x => proj1 (proj2 (split_shares_accepted coeffs 2 x Hc ltac:(lia)))).
  pose proof VSS_bounds.
  split; [repeat constructor; lia|repeat constructor; simpl; intuition lia].
Qed.

Lemma accepted_shares_reconstruct_witness :
  exists sub r, length sub = 2%nat /\ reconstructSecret sub = Ok r /\ BigInt_hex r = Ok 15.
Proof.
  destruct demo_split_shares as (coeffs & Hc & E & Hx).
  destruct (accepted_shares_reconstruct demo_rand "0x0f" 3 2 15
              (map (share_for coeffs 2) (seq 1 3)) (commitment_strings coeffs)
              (map (share_for coeffs 2) [3; 1]%nat) demo_rand_good demo_guards E)
    as (r & Er & Hr).
  - repeat (apply Forall_cons; [apply split_shares_accepted; [exact Hc|lia]|]). apply Forall_nil.
  - exact Hx.
  - reflexivity.
  - exists (map (share_for coeffs 2) [3; 1]%nat), r. auto.
Defined.

Lemma split_reconstruct_witness :
  exists sub, length sub = 2%nat /\ reconstructSecret sub = Ok "0f"%string.
Proof.
  destruct demo_split_shares as (coeffs & Hc & E & Hx).
  exists (map (share_for coeffs 2) [3; 1]%nat). split; [reflexivity|].
  apply (split_reconstruct demo_rand "0x0f" 3 2 15
            (map (share_for coeffs 2) (seq 1 3)) (commitment_strings coeffs)
            (map (share_for coeffs 2) [3; 1]%nat) demo_rand_good demo_guards).
  - simpl. lia.
  - pose proof VSS_bounds. lia.
  - reflexivity.
  - exact E.
  - intros t Ht. apply in_map_iff in Ht as (x & <- & Hin). apply in_map. apply in_seq.
    destruct Hin as [<-|[<-|[]]]; lia.
  - destruct Hx as [_ Hx]. now apply NoDup_map_inv in Hx.
  - reflexivity.
Defined.

(** ** Legacy shares over GF(256) *)

Section Legacy.
Local Abbreviation gfp := (map to_gf).

Lemma lxor_ne (a b : Z) : a <> b -> Z.lxor a b <> 0.
Proof. intros H E. apply H. now apply Z.lxor_eq. Qed.

(** The coordinates of the legacy scheme: distinct non-zero bytes. *)
Definition byte_points (xs : list Z) : Prop :=
  Forall (fun x => 0 < x < 256) xs /\ NoDup xs.

Lemma lagrange_byte (xs : list Z) (i : nat) (xi : Z) :
  byte_points xs -> (i < length xs)%nat -> xi = nth i xs 0 ->
  exists w, res_foldl (fun lagrange j =>
      if (i =? j)%nat then Ok lagrange
      else
        let xj := nth j xs 0 in
        let numerator := xj in
        let denominator := Z.lxor xj xi in
        let! inv := SecretsGF.gfInverse denominator in
        Ok (SecretsGF.gfMultiply lagrange (SecretsGF.gfMultiply numerator inv)))
    (seq 0 (length xs)) 1 = Ok w
    /\ 0 <= w < 256 /\ to_gf w = lagrange0 (gfp xs) i.
Proof.
  intros [Hr Hn] Hi ->.
  assert (Hx : forall j, (j < length xs)%nat -> 0 < nth j xs 0 < 256).
  { intros j Hj. rewrite Forall_forall in Hr. apply Hr, nth_In, Hj. }
  set (l := gfp xs). assert (Hl : length l = length xs) by apply length_map.
  assert (Hnth : forall j, nth j l f0 = to_gf (nth j xs 0))
    by (intros j; unfold l; exact (map_nth to_gf xs 0 j)).
  set (step := fun s j => if (i =? j)%nat then s
               else fmul s ((fun xj => fmul xj (finv (fsub xj (nth i l f0)))) (nth j l f0))).
  edestruct (res_for_inv (fun j w => 0 <= w < 256 /\ to_gf w = fold_left step (seq 0 j) f1)
               (length xs)) as (w & E & Hw & Ew); [| |exists w; split; [exact E|]].
  - split; [lia|reflexivity].
  - intros j w Hj [Hw Ew]. rewrite seq_S, fold_left_app. cbn [fold_left Nat.add].
    rewrite <- Ew. unfold step. destruct (Nat.eqb_spec i j) as [->|Hne]; [exists w; auto|].
    pose proof (Hx i Hi) as Hxi. pose proof (Hx j Hj) as Hxj.
    pose proof (lxor_range (nth j xs 0) (nth i xs 0) ltac:(lia) ltac:(lia)) as Hlr.
    assert (Hnz : Z.lxor (nth j xs 0) (nth i xs 0) <> 0).
    { apply lxor_ne, NoDup_nth_ne; auto. }
    rewrite gfInverse_gfInv by lia. cbn [res_bind]. eexists. split; [reflexivity|].
    pose proof (gfInv_range (Z.lxor (nth j xs 0) (nth i xs 0))) as Hir.
    assert (Hj256 : 0 <= nth j xs 0 < 256) by lia.
    rewrite (gfMultiply_gfMul (nth j xs 0)) by assumption.
    pose proof (gfMul_range _ _ Hj256 Hir) as Hmr.
    rewrite gfMultiply_gfMul by assumption. split; [now apply gfMul_range|].
    rewrite !gf_of_mul by assumption.
    rewrite gf_of_inv by assumption. do 2 f_equal; [now rewrite Hnth|]. f_equal.
    change (to_gf (ErasureGF.gfAdd (nth j xs 0) (nth i xs 0))
            = fadd (nth j l f0) (nth i l f0)).
    now rewrite gf_of_add, !Hnth by lia.
  - split; [exact Hw|]. rewrite Ew. unfold step. rewrite <- Hl.
    rewrite (fold_skip_others (fun s xj => fmul s (fmul xj (finv (fsub xj (nth i l f0))))))
      by (now rewrite Hl).
    rewrite fold_left_fmul. unfold lagrange0. apply fmul_1_l.
Qed.

Lemma reconstructByte_spec (p : list gf) (xs : list Z) :
  byte_points xs -> (length p <= length xs)%nat ->
  reconstructByte (map (fun x => (x, gfv (peval p (to_gf x)))) xs) = Ok (gfv (peval p f0)).
Proof.
  intros Hx Hl. unfold reconstructByte. rewrite length_map.
  assert (Hnth : forall i, (i < length xs)%nat ->
            nth i (map (fun x => (x, gfv (peval p (to_gf x)))) xs) (0, 0)
            = (nth i xs 0, gfv (peval p (to_gf (nth i xs 0))))).
  { intros i Hi. rewrite (nth_indep _ _ (0, gfv (peval p (to_gf 0)))) by (now rewrite length_map).
    exact (map_nth (fun x => (x, gfv (peval p (to_gf x)))) xs 0 i). }
  edestruct (res_for_inv (fun j s => (0 <= s < 256) /\
      to_gf s = fsum j (fun i => fmul (peval p (nth i (gfp xs) f0)) (lagrange0 (gfp xs) i)))
      (length xs)) as (s & E & Hs & Es); [| |rewrite E; f_equal].
  - split; [lia|reflexivity].
  - intros i s Hi [Hs Es]. rewrite Hnth by assumption.
    destruct (lagrange_byte xs i (nth i xs 0) Hx Hi eq_refl) as (w & Ew & Hw & Hlw).
    rewrite (res_foldl_ext_seq _ (fun lagrange j =>
      if (i =? j)%nat then Ok lagrange
      else
        let xj := nth j xs 0 in
        let numerator := xj in
        let denominator := Z.lxor xj (nth i xs 0) in
        let! inv := SecretsGF.gfInverse denominator in
        Ok (SecretsGF.gfMultiply lagrange (SecretsGF.gfMultiply numerator inv)))).
    2:{ intros a j Hj. now rewrite (Hnth j Hj). }
    rewrite Ew. cbn [res_bind]. eexists. split; [reflexivity|].
    pose proof (gf_range (peval p (to_gf (nth i xs 0)))) as Hy.
    rewrite gfMultiply_gfMul by assumption. split.
    + apply lxor_range; [assumption|now apply gfMul_range].
    + change (Z.lxor s ?t) with (ErasureGF.gfAdd s t).
      rewrite gf_of_add, gf_of_mul, to_gf_gfv by (try assumption; now apply gfMul_range).
      cbn [fsum]. rewrite Es, Hlw. do 3 f_equal. symmetry. exact (map_nth to_gf xs 0 i).
  - rewrite <- (to_gf_v s) by assumption. f_equal. rewrite Es.
    rewrite <- (length_map to_gf xs). apply lagrange_interpolation_le.
    + destruct Hx as [Hr Hn]. apply NoDup_map_inj_on; [|assumption].
      rewrite Forall_forall in Hr. intros x y Hxx Hyy.
      pose proof (Hr x Hxx). pose proof (Hr y Hyy). apply to_gf_inj; lia.
    + now rewrite length_map.
Qed.
End Legacy.

(** A share of the byte-wise scheme: a coordinate and a hex string. *)
Definition legacy_share (x : Z) (ys : list Z) : string :=
  (num_str x ++ String "-" (bytes_hex ys))%string.

Lemma split_legacy (x : Z) (ys : list Z) : 0 <= x -> bytes ys ->
  split "-" (legacy_share x ys) = [num_str x; bytes_hex ys].
Proof.
  intros Hx Hy. unfold legacy_share.
  rewrite split_sep by (apply (digits_not_dash 10), to_base_digits; lia).
  now rewrite split_no_sep by (apply (digits_not_dash 16), gf_bytes_hex_digits, Hy).
Qed.

Lemma parse_legacy_share (x : Z) (ys : list Z) : 0 < x -> bytes ys ->
  parse_legacy (legacy_share x ys) = Ok (x, ys).
Proof.
  intros Hx Hy. unfold parse_legacy. rewrite split_legacy, parseInt_num by (assumption || lia).
  rewrite (proj2 (Z.ltb_ge x 1)) by lia. now rewrite gf_hex_bytes.
Qed.

Lemma hex_not_vss (s : string) : str_all (is_digit 16) s = true -> startsWith "vss" s = false.
Proof.
  destruct s as [|c s]; [reflexivity|]. cbn [str_all startsWith]. intros H.
  apply andb_true_iff in H as [H _].
  destruct (Ascii.eqb_spec "v" c) as [<-|_]; [discriminate H|reflexivity].
Qed.

(** The values of the polynomials [ps], one per byte of the secret, at [x]. *)
Definition eval_bytes (ps : list (list gf)) (x : gf) : list Z := map (fun p => gfv (peval p x)) ps.

Lemma eval_bytes_bytes (ps : list (list gf)) (x : gf) : bytes (eval_bytes ps x).
Proof. apply Forall_map, Forall_forall. intros p _. apply is_byte_spec, gf_range. Qed.

(** byte-wise shares over GF(256) of polynomials with at most as many
    coefficients as there are shares reconstruct the constant coefficients. *)
Theorem legacy_reconstruct (ps : list (list gf)) (xs : list Z)
    (Hx : byte_points xs) (Hne : xs <> []) (Hps : Forall (fun p => (length p <= length xs)%nat) ps) :
  reconstructSecret (map (fun x => legacy_share x (eval_bytes ps (to_gf x))) xs)
  = Ok (bytes_hex (eval_bytes ps f0)).
Proof.
  assert (Hpos : forall x, In x xs -> 0 < x).
  { destruct Hx as [Hr _]. rewrite Forall_forall in Hr. intros x Hin. now apply Hr. }
  destruct xs as [|x0 xs'] eqn:Exs; [contradiction|]. rewrite <- Exs in *.
  assert (Hleg : reconstructSecret (map (fun x => legacy_share x (eval_bytes ps (to_gf x))) xs)
      = reconstruct_legacy (map (fun x => legacy_share x (eval_bytes ps (to_gf x))) xs)).
  { rewrite Exs. cbn [map reconstructSecret].
    rewrite split_legacy, hex_not_vss; auto using eval_bytes_bytes, gf_bytes_hex_digits.
    apply Z.lt_le_incl, Hpos. rewrite Exs. now left. }
  rewrite Hleg. unfold reconstruct_legacy.
  rewrite (res_mapM_ok_map _ (fun s => match parse_legacy s with Ok r => r | Throw _ => (0, []) end)).
  2:{ intros s Hs. apply in_map_iff in Hs as (x & <- & Hin).
      now rewrite parse_legacy_share by auto using eval_bytes_bytes. }
  cbn [res_bind]. rewrite map_map.
  rewrite (map_ext_in _ (fun x => (x, eval_bytes ps (to_gf x))))
    by (intros x Hin; now rewrite parse_legacy_share by auto using eval_bytes_bytes).
  assert (Hl : forall x, length (eval_bytes ps x) = length ps) by (intros; apply length_map).
  replace (length (snd (nth 0 (map (fun x => (x, eval_bytes ps (to_gf x))) xs) (0, []))))
    with (length ps) by (rewrite Exs; symmetry; apply Hl).
  replace (existsb _ _) with false.
  2:{ symmetry. apply not_true_iff_false. intros H. apply existsb_exists in H as (y & Hy & H).
      apply in_map_iff in Hy as (x & <- & _). cbn [snd] in H.
      now rewrite Hl, Nat.eqb_refl in H. }
  rewrite (res_mapM_ok_map _ (fun b => gfv (peval (nth b ps []) f0))).
  - cbn [res_bind]. do 2 f_equal. rewrite map_map.
    rewrite (map_ext_in _ (fun b => gfv (peval (nth b ps []) f0)))
      by (intros; apply Z.mod_small, gf_range).
    unfold eval_bytes. rewrite <- (map_nth_seq ps []) at 2. now rewrite map_map.
  - intros b Hb. apply in_seq in Hb. rewrite map_map. cbn [fst snd].
    rewrite <- (reconstructByte_spec (nth b ps []) xs Hx).
    + f_equal. apply map_ext. intros x. f_equal. unfold eval_bytes.
      rewrite (nth_indep _ 0 (gfv (peval [] (to_gf x)))) by (rewrite length_map; lia).
      now rewrite (map_nth (fun p => gfv (peval p (to_gf x)))).
    + rewrite Forall_forall in Hps. apply Hps, nth_In. lia.
Qed.

Lemma legacy_reconstruct_witness :
  reconstructSecret (map (fun x => legacy_share x (eval_bytes [[to_gf 42; to_gf 7]; [to_gf 9]] (to_gf x))) [5; 2])
  = Ok "2a09"%string.
Proof.
  rewrite legacy_reconstruct.
  - vm_compute. reflexivity.
  - split; repeat constructor; simpl; intuition discriminate.
  - discriminate.
  - repeat constructor.
Defined.

(** ** Errors and a limit *)

(** [splitSecretVSS] returns for the parameters its guards admit and
    throws for all others. *)
Theorem split_outcome (rand : nat -> list Z) (secretHex : string) (n k : nat)
    (Hr : good_rand rand) :
  is_ok (splitSecretVSS rand secretHex n k) = true <-> exists s, split_guards secretHex n k s.
Proof.
  split.
  - unfold splitSecretVSS, split_guards. intros H.
    destruct (n <? k)%nat eqn:E1; [discriminate|]. destruct (k <? 1)%nat eqn:E2; [discriminate|].
    cbv zeta in H. destruct (String.length (strip_0x secretHex) mod 2)%nat eqn:E3; [|discriminate].
    cbn [Nat.eqb negb] in H.
    destruct (BigInt_hex (strip_0x secretHex)) as [s|] eqn:E4; [|discriminate]. cbn [res_bind] in H.
    destruct (s >=? VSS_Q) eqn:E5; [discriminate|]. exists s. bool_to_prop.
    split; [lia|]. split; [|split; [reflexivity|lia]].
    apply Nat.Div0.mod_divides in E3 as [m Em]. now exists m.
  - intros (s & Hg). destruct (splitSecretVSS_spec rand secretHex n k s Hr Hg)
      as (coeffs & _ & _ & _ & ->). reflexivity.
Qed.

Lemma split_outcome_witness :
  is_ok (splitSecretVSS demo_rand "0x0f" 3 2) = true.
Proof. apply split_outcome; [apply demo_rand_good|]. exists 15. apply demo_guards. Defined.

(** the length of the secret is written on two digits, so a secret string
    of 256 digits or more can be split but not recovered: here a string of 300
    zeros becomes a share whose reconstruction has another value. *)
Theorem long_secret_not_recovered :
  exists shares commitments r v,
    splitSecretVSS demo_rand (repeat_char 300 "0") 1 1 = Ok (shares, commitments)
    /\ BigInt_hex (repeat_char 300 "0") = Ok 0
    /\ reconstructSecret shares = Ok r /\ BigInt_hex r = Ok v /\ v <> 0.
Proof.
  do 4 eexists. split; [vm_compute; reflexivity|]. split; [vm_compute; reflexivity|].
  split; [vm_compute; reflexivity|]. split; [vm_compute; reflexivity|]. discriminate.
Qed.
