(* ===== verification/Pss.v ===== *)
(** * Pss: the zero-sharing refresh of proactiveSecretSharing.ts

    [PssVSS] models the refresh over the verifiable sharing of Secrets.v and
    [Pss127] the building blocks over GF(2^127 - 1).  Random bytes are
    parameters; the optional delay of a guardian has no effect on the state. *)

From Stdlib Require Import Ascii String ZArith Zmod List Lia Bool Field.
Import ListNotations.
From S2P Require Import Prelude Bytes JsString Algebra GF256 Primes Modular VssField Secrets.

Open Scope list_scope.
Open Scope Z_scope.

(** ** Feldman VSS refresh *)
Module PssVSS.

Definition modAdd (a b m : Z) : Z := norm_rem m (a + b).
Definition modMul (a b m : Z) : Z := norm_rem m (a * b).

Definition modPow (base exp m : Z) : Z :=
  pow_loop (fun x => Z.rem x m) (pow_fuel exp) 1 (norm_rem m base) exp.

Definition randomVssScalar (bytes : list Z) : res Z := rand_scalar bytes.

Record ZeroPolynomialVSS : Type := mkZero {
  guardianIndex : nat;
  coefficients : list Z;
  zeroCommitments : list string;
  subshares : list (nat * Z)
}.

(** [Map.get] of the subshares. *)
Definition subshare (p : ZeroPolynomialVSS) (j : nat) : option Z :=
  option_map snd (find (fun e => (fst e =? j)%nat) (subshares p)).

Definition generateZeroPolynomialVSS (rand : nat -> list Z) (threshold numGuardians gIndex : nat)
    : res ZeroPolynomialVSS :=
  throw_if ((threshold <? 1) || (numGuardians <? threshold))%nat with
    "Threshold must satisfy 1 <= threshold <= numGuardians"%string;;
  let! random := res_mapM (fun m => randomVssScalar (rand m)) (seq 1 (threshold - 1)) in
  let coefficients := 0 :: random in
  let zeroCommitments := map (fun m =>
    let comm := modPow VSS_G (nth m coefficients 0) VSS_P in
    padStart 66 "0" (to_hex comm)) (seq 0 threshold) in
  let subshares := map (fun j =>
    let '(val, _) := eval_loop modAdd modMul coefficients threshold (Z.of_nat j) in
    (j, val)) (seq 1 numGuardians) in
  Ok (mkZero gIndex coefficients zeroCommitments subshares).

Definition verifyZeroShareContribution (contribution : Z) (x : nat) (zeroCommitments : list string)
    : bool :=
  res_catch
    (let lhs := modPow VSS_G contribution VSS_P in
     let! rhs := rhs_loop modPow modMul (Z.of_nat x) zeroCommitments in
     Ok (lhs =? rhs)) false.

(** [`${x}`] of the result of [parseInt]. *)
Definition int_str (x : option Z) : string :=
  match x with Some n => num_str n | None => "NaN"%string end.

Definition updateShareVSS (currentShareStr : string) (zeroContributions : list Z) : res string :=
  match split "-" currentShareStr with
  | [p0; hex] =>
      let x := parseInt 10 p0 in
      if startsWith "vss" hex then
        let lenHex := slice 3 5 hex in
        let! y := BigInt_hex (slice_from 5 hex) in
        let y := fold_left (fun y contrib => modAdd y contrib VSS_Q) zeroContributions y in
        let updatedHex := padStart 64 "0" (to_hex y) in
        Ok (int_str x ++ "-vss" ++ lenHex ++ updatedHex)%string
      else Throw "Cannot update legacy non-VSS share with VSS zero-shares"
  | _ => Throw ("Invalid share string format: " ++ currentShareStr)
  end.

(** The inner loop of [updateCommitmentsVSS] for coefficient [m]. *)
Definition update_commitment (k m : nat) (cm : Z) (matrix : list (list string)) : res Z :=
  res_foldl (fun cm guardianCommitments =>
    throw_if negb (length guardianCommitments =? k)%nat with
      "Mismatched zero-commitment vector length"%string;;
    let! zm := BigInt_hex (nth m guardianCommitments ""%string) in
    Ok (modMul cm zm VSS_P)) matrix cm.

Definition updateCommitmentsVSS (currentCommitments : list string) (matrix : list (list string))
    : res (list string) :=
  let k := length currentCommitments in
  let! updated := res_mapM (fun m =>
    let! cm := BigInt_hex (nth m currentCommitments ""%string) in
    let! cm := update_commitment k m cm matrix in
    Ok (padStart 66 "0" (to_hex cm))) (seq 0 k) in
  let! initialC0 := BigInt_hex (nth 0 currentCommitments "undefined"%string) in
  let! finalC0 := BigInt_hex (nth 0 updated "undefined"%string) in
  throw_if negb (initialC0 =? finalC0) with
    "Master secret commitment changed during zero-sharing refresh"%string;;
  Ok updated.

Record ProactiveRefreshVSSResult : Type := mkRefresh {
  refreshedShares : list string;
  refreshedCommitments : list string;
  recoveredSecret : string;
  epoch : Z
}.

(** The missing entry of a Map is [undefined], which no call produces here. *)
Definition get_subshare (p : ZeroPolynomialVSS) (j : nat) : res Z :=
  match subshare p j with Some v => Ok v | None => Throw "TypeError: undefined" end.

(** Step 2: every contribution of guardian [i] is checked. *)
Definition check_contributions (n i : nat) (poly : ZeroPolynomialVSS) : res unit :=
  res_foldl (fun _ j =>
    let! contrib := get_subshare poly j in
    throw_if negb (verifyZeroShareContribution contrib j (zeroCommitments poly)) with
      ("Zero-share contribution from guardian " ++ num_str (Z.of_nat (i + 1)) ++ " to guardian "
       ++ num_str (Z.of_nat j) ++ " failed verification")%string;;
    Ok tt) (seq 1 n) tt.

Definition proactiveRefreshVSS (rand : nat -> nat -> list Z) (shares commitments : list string)
    (threshold : nat) (ep : Z) : res ProactiveRefreshVSSResult :=
  let n := length shares in
  throw_if ((threshold <? 1) || (n <? threshold))%nat with
    "Threshold must satisfy 1 <= threshold <= numShares"%string;;
  let! zeroPolys := res_mapM (fun i =>
    generateZeroPolynomialVSS (rand i) threshold n (i + 1)) (seq 0 n) in
  let! _ := res_foldl (fun _ '(i, poly) => check_contributions n i poly)
              (combine (seq 0 n) zeroPolys) tt in
  let! refreshedShares := res_mapM (fun j =>
    let guardianPoint := (j + 1)%nat in
    let! contributions := res_mapM (fun p => get_subshare p guardianPoint) zeroPolys in
    updateShareVSS (nth j shares ""%string) contributions) (seq 0 n) in
  let zeroCommitmentsMatrix := map zeroCommitments zeroPolys in
  let! refreshedCommitments := updateCommitmentsVSS commitments zeroCommitmentsMatrix in
  throw_if existsb (fun share => negb (verifyShare share refreshedCommitments)) refreshedShares with
    "Refreshed share failed verification against updated commitments"%string;;
  let! recoveredSecret := reconstructSecret (firstn threshold refreshedShares) in
  let! originalSecret := reconstructSecret (firstn threshold shares) in
  throw_if negb (String.eqb recoveredSecret originalSecret) with
    "Master secret altered after proactive secret resharing"%string;;
  Ok (mkRefresh refreshedShares refreshedCommitments recoveredSecret ep).

End PssVSS.

(** ** GF(2^127 - 1) building blocks *)
Module Pss127.

Definition PSS_FIELD_PRIME : Z := Z.shiftl 1 127 - 1.

Record Share : Type := mkShare { x : Z; y : Z }.

Definition randomFieldElement (bytes : list Z) : Z := Z.rem (bytes_value bytes) PSS_FIELD_PRIME.

Definition mod_p (value : Z) : Z := norm_rem PSS_FIELD_PRIME value.

Definition makeRandomPolynomial (rand : nat -> list Z) (intercept degree : Z) : res (list Z) :=
  throw_if degree <? 0 with "Polynomial degree must be a non-negative integer"%string;;
  Ok (mod_p intercept :: map (fun i => randomFieldElement (rand i)) (seq 0 (Z.to_nat degree))).

(** Horner's rule from the last coefficient. *)
Definition evaluatePolynomial (coeffs : list Z) (x : Z) : Z :=
  fold_left (fun result c => mod_p (result * mod_p x + c)) (rev coeffs) 0.

Definition splitSecret (rand : nat -> list Z) (secret : Z) (threshold numShares : nat)
    : res (list Share) :=
  throw_if ((threshold <? 1) || (numShares <? threshold))%nat with
    "Threshold must satisfy 1 <= threshold <= numShares"%string;;
  let! poly := makeRandomPolynomial rand (mod_p secret) (Z.of_nat threshold - 1) in
  Ok (map (fun j => let x := Z.of_nat j in mkShare x (evaluatePolynomial poly x)) (seq 1 numShares)).

Definition generateZeroShares (rand : nat -> list Z) (threshold : nat) (points : list Z)
    : res (list (Z * Z)) :=
  let! zeroPoly := makeRandomPolynomial rand 0 (Z.of_nat threshold - 1) in
  Ok (map (fun point => (point, evaluatePolynomial zeroPoly point)) points).

Definition addContribution (share : Share) (contribution : Z) : Share :=
  mkShare (x share) (mod_p (y share + contribution)).

Definition powMod (base exponent : Z) : Z :=
  pow_loop mod_p (pow_fuel exponent) 1 (mod_p base) exponent.

Definition combineShares (shares : list Share) (threshold : nat) : res Z :=
  throw_if (length shares <? threshold)%nat with
    ("Need at least " ++ num_str (Z.of_nat threshold) ++ " shares to reconstruct")%string;;
  let used := firstn threshold shares in
  Ok (for_n (length used) (fun i secret =>
    let '(numerator, denominator) := weight_loop mod_p (map x used) i in
    let inverse := powMod denominator (PSS_FIELD_PRIME - 2) in
    mod_p (secret + nth i (map y used) 0 * mod_p (numerator * inverse))) 0).

(** [Map.get]: the last entry set for the key; [undefined] would throw in the
    addition of [addContribution]. *)
Definition contribution_at (m : list (Z * Z)) (x : Z) : res Z :=
  match find (fun e => fst e =? x) (rev m) with
  | Some e => Ok (snd e)
  | None => Throw "TypeError: Cannot mix BigInt and other types"
  end.

Record ProactiveRefreshResult : Type := mkRefresh {
  refreshedShares : list Share;
  recoveredSecret : Z;
  epoch : Z
}.

Definition proactiveRefresh (rand : nat -> nat -> list Z) (shares : list Share) (threshold : nat)
    (ep : Z) : res ProactiveRefreshResult :=
  let points := map x shares in
  let! allContributions := res_mapM (fun i => generateZeroShares (rand i) threshold points)
                             (seq 0 (length shares)) in
  let! refreshedShares := res_mapM (fun share =>
    res_foldl (fun updated m =>
      let! c := contribution_at m (x share) in Ok (addContribution updated c))
      allContributions share) shares in
  let! secret := combineShares refreshedShares threshold in
  Ok (mkRefresh refreshedShares secret ep).

End Pss127.
