(* ===== verification/PssProofs.v ===== *)
(** * PssProofs: refreshing keeps the secret and never fails

    The state of a sharing is a polynomial: its shares are its values and its
    commitments those of its coefficients.  [proactiveRefreshVSS] adds
    polynomials that are 0 at 0, so after any number of refreshes the state is
    a sharing of the same secret, and the refresh returns in each of them. *)

From Stdlib Require Import Ascii String ZArith Zmod List Lia Bool Field Relations.
Import ListNotations.
From S2P Require Import Prelude JsString Algebra GF256 Primes Modular VssField Secrets.
From S2P Require Import SecretsProofs Pss.

Open Scope list_scope.
Open Scope Z_scope.

(** ** Sums of polynomials modulo Q *)

Definition zaddp (p q : list Z) : list Z :=
  map (fun ab => (fst ab + snd ab) mod VSS_Q) (combine p q).

Lemma zaddp_length (p q : list Z) : length p = length q -> length (zaddp p q) = length p.
Proof. intros H. unfold zaddp. rewrite length_map, length_combine. lia. Qed.

Lemma zaddp_in_Q (p q : list Z) : in_Q (zaddp p q).
Proof.
  apply Forall_map, Forall_forall. intros ab _. apply Z.mod_pos_bound, VSS_Q_pos.
Qed.

Lemma zaddp_nth (p q : list Z) (m : nat) : length p = length q -> (m < length p)%nat ->
  nth m (zaddp p q) 0 = (nth m p 0 + nth m q 0) mod VSS_Q.
Proof.
  intros Hl Hm. unfold zaddp. set (f := fun ab : Z * Z => (fst ab + snd ab) mod VSS_Q).
  rewrite (nth_indep _ 0 (f (0, 0))) by (rewrite length_map, length_combine; lia).
  rewrite map_nth, combine_nth by assumption. reflexivity.
Qed.

Lemma zeval_zaddp (p q : list Z) (x : Z) : length p = length q ->
  zeval (zaddp p q) x mod VSS_Q = (zeval p x + zeval q x) mod VSS_Q.
Proof.
  revert q. induction p as [|a p IH]; intros [|b q] H; try discriminate H; [reflexivity|].
  injection H as H. specialize (IH q H). unfold zaddp in *. simpl.
  rewrite Zplus_mod_idemp_l, <- Zplus_mod_idemp_r, <- Zmult_mod_idemp_r, IH.
  rewrite Zmult_mod_idemp_r, Zplus_mod_idemp_r. f_equal. ring.
Qed.

(** The polynomial after adding the contributions of all guardians. *)
Definition sum_polys (coeffs : list Z) (zs : list (list Z)) : list Z := fold_left zaddp zs coeffs.

Section SumPolys.
Variables (k : nat) (zs : list (list Z)).
Hypothesis Hzs : Forall (fun z => length z = k) zs.

Lemma sum_polys_length (coeffs : list Z) : length coeffs = k -> length (sum_polys coeffs zs) = k.
Proof.
  unfold sum_polys. revert coeffs. induction Hzs as [|z l Hz Hl IH]; intros coeffs Hc; simpl; [assumption|].
  apply IH; [assumption|]. rewrite zaddp_length; congruence.
Qed.

Lemma sum_polys_in_Q (coeffs : list Z) : in_Q coeffs -> in_Q (sum_polys coeffs zs).
Proof.
  unfold sum_polys. clear Hzs. revert coeffs. induction zs as [|z l IH]; intros coeffs Hc; simpl; [assumption|].
  apply IH, zaddp_in_Q.
Qed.

(** Contributions that are 0 at 0 leave the secret alone. *)
Lemma sum_polys_head (coeffs : list Z) : length coeffs = k -> (0 < k)%nat -> in_Q coeffs ->
  Forall (fun z => nth 0 z 0 = 0) zs -> nth 0 (sum_polys coeffs zs) 0 = nth 0 coeffs 0.
Proof.
  unfold sum_polys. revert coeffs.
  induction Hzs as [|z l Hz Hl IH]; intros coeffs Hc Hk Hq H0; simpl; [reflexivity|].
  inversion H0 as [|? ? Hz0 Hl0]; subst.
  rewrite IH; auto using zaddp_in_Q; [|rewrite zaddp_length; congruence].
  rewrite zaddp_nth, Hz0, Z.add_0_r by (congruence || lia).
  apply Z.mod_small. unfold in_Q in Hq. rewrite Forall_forall in Hq. apply Hq, nth_In. lia.
Qed.
End SumPolys.

(** ** The helpers *)
Section Helpers.
Import PssVSS.

Lemma pss_modAdd_spec (a b m : Z) : 0 < m -> 0 <= a -> 0 <= b -> modAdd a b m = (a + b) mod m.
Proof. intros. now apply norm_rem_mod. Qed.

Lemma pss_modMul_spec (a b m : Z) : 0 < m -> 0 <= a -> 0 <= b -> modMul a b m = (a * b) mod m.
Proof. intros. now apply norm_rem_mod. Qed.

Lemma pss_modPow_spec (b e m : Z) : 1 < m -> 0 <= b -> 0 <= e -> modPow b e m = b ^ e mod m.
Proof.
  intros Hm Hb He. unfold modPow. rewrite norm_rem_mod by lia.
  rewrite (pow_loop_pow _ m); try lia.
  - apply Z.mod_pow_l.
  - intros x Hx. apply rem_mod; lia.
  - apply Z.mod_pos_bound. lia.
Qed.

(** ** One guardian's contribution *)

(** A zero-polynomial of a guardian, its commitments and its values. *)
Definition zero_poly (k n g : nat) (z : list Z) : ZeroPolynomialVSS :=
  mkZero g z (commitment_strings z)
    (map (fun j => (j, zeval z (Z.of_nat j) mod VSS_Q)) (seq 1 n)).

Definition good_zero (k : nat) (z : list Z) : Prop :=
  length z = k /\ in_Q z /\ nth 0 z 0 = 0.

Lemma generate_spec (rand : nat -> list Z) (k n g : nat) : good_rand rand -> (1 <= k <= n)%nat ->
  exists z, good_zero k z /\ generateZeroPolynomialVSS rand k n g = Ok (zero_poly k n g z).
Proof.
  intros Hr Hk. unfold generateZeroPolynomialVSS.
  replace ((k <? 1) || (n <? k))%nat with false by bool_lia.
  unfold randomVssScalar. destruct (random_coefficients rand 1 (k - 1) Hr) as (cs & -> & Hl & Hcs).
  cbn [res_bind]. assert (Hq : in_Q (0 :: cs)) by (constructor; [pose proof VSS_Q_pos; lia|assumption]).
  assert (Hlen : length (0 :: cs) = k) by (simpl; lia).
  exists (0 :: cs). split; [now repeat split|]. unfold zero_poly. f_equal. f_equal.
  - rewrite <- Hlen. now apply commitments_eq; [apply pss_modPow_spec|].
  - apply map_ext. intros j. rewrite <- Hlen.
    pose proof (eval_loop_spec modAdd modMul pss_modAdd_spec pss_modMul_spec (0 :: cs) (Z.of_nat j)
                  ltac:(lia) (in_Q_nonneg _ Hq)) as E.
    destruct (eval_loop _ _ _ _ _) as [v xp]. cbn [fst] in E. now rewrite E.
Qed.

Lemma subshare_spec (k n g j : nat) (z : list Z) : (1 <= j <= n)%nat ->
  get_subshare (zero_poly k n g z) j = Ok (zeval z (Z.of_nat j) mod VSS_Q).
Proof.
  intros Hj. unfold get_subshare, subshare, zero_poly. cbn [subshares].
  assert (H : forall s m, (s <= j < s + m)%nat ->
    find (fun e => (fst e =? j)%nat) (map (fun j => (j, zeval z (Z.of_nat j) mod VSS_Q)) (seq s m))
    = Some (j, zeval z (Z.of_nat j) mod VSS_Q)).
  { intros s m. revert s. induction m as [|m IH]; intros s Hs; [lia|]. simpl.
    destruct (Nat.eqb_spec s j) as [->|Hne]; [reflexivity|]. apply IH. lia. }
  now rewrite H by lia.
Qed.

Lemma contribution_verifies (z : list Z) (j : nat) : in_Q z ->
  verifyZeroShareContribution (zeval z (Z.of_nat j) mod VSS_Q) j (commitment_strings z) = true.
Proof.
  intros Hz. unfold verifyZeroShareContribution.
  pose proof (Z.mod_pos_bound (zeval z (Z.of_nat j)) VSS_Q VSS_Q_pos).
  rewrite (rhs_loop_spec _ _ pss_modPow_spec pss_modMul_spec) by (auto; lia).
  cbn [res_bind res_catch].
  rewrite pss_modPow_spec by (auto with cg; unfold VSS_G; lia).
  rewrite feldman_check by (auto using in_Q_nonneg; lia).
  apply Z.eqb_eq, Z.mod_mod. pose proof VSS_Q_pos. lia.
Qed.

Lemma check_contributions_ok (k n g i : nat) (z : list Z) : in_Q z ->
  check_contributions n i (zero_poly k n g z) = Ok tt.
Proof.
  intros Hz. unfold check_contributions.
  rewrite (res_foldl_ok _ (fun _ _ => tt)).
  - now destruct (fold_left _ _ _).
  - intros u j Hj. apply in_seq in Hj. rewrite subshare_spec by lia. cbn [res_bind].
    cbn [zeroCommitments zero_poly]. now rewrite contribution_verifies.
Qed.

(** ** Updating shares and commitments *)

Lemma updateShare_spec (coeffs : list Z) (zs : list (list Z)) (k len j : nat) :
  length coeffs = k -> Forall (fun z => length z = k) zs -> (len < 256)%nat ->
  updateShareVSS (share_for coeffs len j) (map (fun z => zeval z (Z.of_nat j) mod VSS_Q) zs)
  = Ok (share_for (sum_polys coeffs zs) len j).
Proof.
  intros Hc Hzs Hl. destruct (share_for_split coeffs len j Hl) as (p1 & Es & Ev & E1 & E2).
  unfold updateShareVSS. rewrite Es, Ev, E1, E2.
  pose proof (Z.mod_pos_bound (zeval coeffs (Z.of_nat j)) VSS_Q VSS_Q_pos) as Hy.
  rewrite BigInt_hex_pad by lia. cbn [res_bind].
  rewrite parseInt_num by lia. unfold share_for, share_string. cbn [int_str]. do 5 f_equal.
  unfold sum_polys. clear Es Ev E1 E2 Hy. revert coeffs Hc.
  induction Hzs as [|z zs Hz Hzs IH]; intros coeffs Hc; simpl; [reflexivity|].
  rewrite <- IH by (rewrite zaddp_length; congruence). f_equal.
  pose proof (Z.mod_pos_bound (zeval coeffs (Z.of_nat j)) VSS_Q VSS_Q_pos).
  pose proof (Z.mod_pos_bound (zeval z (Z.of_nat j)) VSS_Q VSS_Q_pos).
  rewrite pss_modAdd_spec by (auto with cg; lia).
  rewrite zeval_zaddp by congruence. now rewrite <- Zplus_mod.
Qed.

Lemma commit_mul (a b : Z) : 0 <= a -> 0 <= b ->
  modMul (commit a) (commit b) VSS_P = commit ((a + b) mod VSS_Q).
Proof.
  intros Ha Hb. pose proof (commit_range a). pose proof (commit_range b).
  rewrite pss_modMul_spec by (auto with cg; lia). unfold commit.
  rewrite <- Zmult_mod, <- Z.pow_add_r by assumption. symmetry. apply VSS_G_pow_mod. lia.
Qed.

Lemma commitment_strings_nth (coeffs : list Z) (m : nat) (d : string) : (m < length coeffs)%nat ->
  BigInt_hex (nth m (commitment_strings coeffs) d) = Ok (commit (nth m coeffs 0)).
Proof.
  intros Hm. unfold commitment_strings.
  rewrite (nth_indep _ d (padStart 66 "0" (to_hex (commit 0)))) by (now rewrite length_map).
  rewrite (map_nth (fun a => padStart 66 "0" (to_hex (commit a)))).
  pose proof (commit_range (nth m coeffs 0)). apply BigInt_hex_pad. lia.
Qed.

Lemma update_commitment_spec (coeffs : list Z) (zs : list (list Z)) (k m : nat) :
  length coeffs = k -> (m < k)%nat -> in_Q coeffs -> Forall (good_zero k) zs ->
  update_commitment k m (commit (nth m coeffs 0)) (map commitment_strings zs)
  = Ok (commit (nth m (sum_polys coeffs zs) 0)).
Proof.
  intros Hc Hm Hq Hzs. unfold update_commitment, sum_polys. revert coeffs Hc Hq.
  induction Hzs as [|z zs (Hz & Hzq & _) Hzs IH]; intros coeffs Hc Hq; simpl; [reflexivity|].
  unfold commitment_strings at 1. rewrite length_map, Hz, Nat.eqb_refl. cbn [negb].
  rewrite commitment_strings_nth by lia. cbn [res_bind].
  assert (Hn : forall l, in_Q l -> length l = k -> 0 <= nth m l 0).
  { intros l Hl Hlen. unfold in_Q in Hl. rewrite Forall_forall in Hl. apply Hl, nth_In. lia. }
  rewrite commit_mul, <- zaddp_nth by (auto; lia).
  apply IH; [rewrite zaddp_length; congruence|apply zaddp_in_Q].
Qed.

Lemma updateCommitments_spec (coeffs : list Z) (zs : list (list Z)) (k : nat) :
  length coeffs = k -> (0 < k)%nat -> in_Q coeffs -> Forall (good_zero k) zs ->
  updateCommitmentsVSS (commitment_strings coeffs) (map commitment_strings zs)
  = Ok (commitment_strings (sum_polys coeffs zs)).
Proof.
  intros Hc Hk Hq Hzs. unfold updateCommitmentsVSS.
  replace (length (commitment_strings coeffs)) with k
    by (unfold commitment_strings; now rewrite length_map).
  assert (Hlz : Forall (fun z => length z = k) zs)
    by (eapply Forall_impl; [|exact Hzs]; now intros z [? _]).
  assert (Hl : length (sum_polys coeffs zs) = k) by now apply sum_polys_length.
  rewrite (res_mapM_ok_map _ (fun m => padStart 66 "0" (to_hex (commit (nth m (sum_polys coeffs zs) 0))))).
  2:{ intros m Hm. apply in_seq in Hm. rewrite commitment_strings_nth by lia. cbn [res_bind].
      rewrite update_commitment_spec by (auto; lia). reflexivity. }
  cbn [res_bind].
  assert (E : map (fun m => padStart 66 "0" (to_hex (commit (nth m (sum_polys coeffs zs) 0)))) (seq 0 k)
              = commitment_strings (sum_polys coeffs zs)).
  { unfold commitment_strings. rewrite <- Hl.
    rewrite <- (map_map (fun m => nth m (sum_polys coeffs zs) 0)
                  (fun a => padStart 66 "0" (to_hex (commit a)))).
    now rewrite map_nth_seq. }
  rewrite E, !commitment_strings_nth by lia. cbn [res_bind].
  assert (Hz0 : Forall (fun z => nth 0 z 0 = 0) zs)
    by (eapply Forall_impl; [|exact Hzs]; now intros z (_ & _ & ?)).
  rewrite (sum_polys_head k zs Hlz coeffs) by assumption.
  now rewrite Z.eqb_refl.
Qed.
End Helpers.

(** ** The refresh *)

(** A sharing of a polynomial with [n] shares and commitments. *)
Definition sharing (coeffs : list Z) (len n : nat) (shares commitments : list string) : Prop :=
  in_Q coeffs /\ shares = map (share_for coeffs len) (seq 1 n)
  /\ commitments = commitment_strings coeffs.

Lemma zero_polys_spec (rand : nat -> nat -> list Z) (k n : nat) (l : list nat) :
  (forall i, good_rand (rand i)) -> (1 <= k <= n)%nat ->
  exists zs, length zs = length l /\ Forall (good_zero k) zs
    /\ res_mapM (fun i => PssVSS.generateZeroPolynomialVSS (rand i) k n (i + 1)) l
       = Ok (map (fun iz => zero_poly k n (fst iz + 1) (snd iz)) (combine l zs)).
Proof.
  intros Hr Hk. induction l as [|i l IH].
  - exists []. auto.
  - destruct IH as (zs & Hl & Hz & E). destruct (generate_spec (rand i) k n (i + 1) (Hr i) Hk) as (z & Hz' & E').
    exists (z :: zs). split; [simpl; congruence|]. split; [now constructor|].
    simpl. now rewrite E', E.
Qed.

Lemma share_for_firstn (coeffs : list Z) (len n k : nat) : (k <= n)%nat ->
  firstn k (map (share_for coeffs len) (seq 1 n)) = map (share_for coeffs len) (seq 1 k).
Proof.
  intros Hk. replace n with (k + (n - k))%nat by lia.
  rewrite seq_app, map_app, firstn_app, length_map, length_seq, Nat.sub_diag, firstn_O, app_nil_r.
  apply firstn_all2. now rewrite length_map, length_seq.
Qed.

Lemma share_strings_NoDup (coeffs : list Z) (len k : nat) : in_Q coeffs -> (len < 256)%nat ->
  NoDup (map (share_for coeffs len) (seq 1 k)).
Proof.
  intros Hc Hl. apply NoDup_map_inj_on; [|apply seq_NoDup]. intros x x' _ _ E.
  destruct (split_shares_accepted coeffs len x Hc Hl) as (_ & E1 & _).
  destruct (split_shares_accepted coeffs len x' Hc Hl) as (_ & E2 & _).
  rewrite E, E2 in E1. now apply Nat2Z.inj in E1.
Qed.

Lemma sharing_prefix (coeffs : list Z) (len n k : nat) :
  in_Q coeffs -> length coeffs = k -> (1 <= k <= n)%nat -> (len < 256)%nat -> Z.of_nat n < VSS_Q ->
  reconstructSecret (firstn k (map (share_for coeffs len) (seq 1 n)))
  = Ok (padStart len "0" (to_hex (nth 0 coeffs 0))).
Proof.
  intros Hc Hl Hk Hlen Hn. rewrite share_for_firstn by lia.
  apply (genuine_reconstruct coeffs len n); auto.
  - intros ->. simpl in Hl. lia.
  - intros t Ht. apply in_map_iff in Ht as (x & <- & Hx). apply in_map. apply in_seq in Hx.
    apply in_seq. lia.
  - now apply share_strings_NoDup.
  - rewrite length_map, length_seq. lia.
Qed.

Lemma snd_combine {A B : Type} (l : list A) (l' : list B) :
  length l = length l' -> map snd (combine l l') = l'.
Proof.
  revert l'. induction l as [|a l IH]; intros [|b l'] H; try discriminate H; [reflexivity|].
  simpl. f_equal. apply IH. now injection H.
Qed.

Section Refresh.
Variables (coeffs : list Z) (k n len : nat).
Hypothesis Hc : in_Q coeffs.
Hypothesis Hl : length coeffs = k.
Hypothesis Hk : (1 <= k <= n)%nat.
Hypothesis Hlen : (len < 256)%nat.
Hypothesis Hn : Z.of_nat n < VSS_Q.

Lemma refreshed_shares_spec (zs : list (list Z)) : Forall (good_zero k) zs -> length zs = n ->
  res_mapM (fun j =>
    let guardianPoint := (j + 1)%nat in
    let! contributions := res_mapM (fun p => PssVSS.get_subshare p guardianPoint)
      (map (fun iz => zero_poly k n (fst iz + 1) (snd iz)) (combine (seq 0 n) zs)) in
    PssVSS.updateShareVSS (nth j (map (share_for coeffs len) (seq 1 n)) ""%string) contributions)
    (seq 0 n)
  = Ok (map (share_for (sum_polys coeffs zs) len) (seq 1 n)).
Proof.
  intros Hzs Hzl. rewrite <- seq_shift, !map_map.
  apply res_mapM_ok_map. intros j Hj. apply in_seq in Hj. cbv zeta.
  rewrite (res_mapM_ok_map _ (fun p => zeval (PssVSS.coefficients p) (Z.of_nat (j + 1)) mod VSS_Q)).
  2:{ intros p Hp. apply in_map_iff in Hp as ((i & z) & <- & _). cbn [fst snd].
      apply subshare_spec. lia. }
  cbn [res_bind]. rewrite map_map. cbn [PssVSS.coefficients zero_poly].
  rewrite <- (map_map snd (fun z => zeval z (Z.of_nat (j + 1)) mod VSS_Q)).
  rewrite snd_combine by (now rewrite length_seq).
  rewrite (nth_indep _ ""%string (share_for coeffs len (S 0)))
    by (rewrite length_map, length_seq; lia).
  rewrite (map_nth (fun x => share_for coeffs len (S x)) (seq 0 n) 0%nat), seq_nth by lia.
  cbn [Nat.add]. rewrite <- !(Nat.add_1_r j). apply (updateShare_spec coeffs zs k); auto.
  eapply Forall_impl; [|exact Hzs]. now intros z [? _].
Qed.

(** A refresh returns the sharing of a polynomial with the same value at 0. *)
Lemma refresh_spec (rand : nat -> nat -> list Z) (ep : Z) : (forall i, good_rand (rand i)) ->
  exists coeffs', in_Q coeffs' /\ length coeffs' = k /\ nth 0 coeffs' 0 = nth 0 coeffs 0
    /\ PssVSS.proactiveRefreshVSS rand (map (share_for coeffs len) (seq 1 n))
         (commitment_strings coeffs) k ep
       = Ok (PssVSS.mkRefresh (map (share_for coeffs' len) (seq 1 n)) (commitment_strings coeffs')
               (padStart len "0" (to_hex (nth 0 coeffs 0))) ep).
Proof.
  intros Hr. destruct (zero_polys_spec rand k n (seq 0 n) Hr Hk) as (zs & Hzl & Hzs & Ez).
  rewrite length_seq in Hzl.
  assert (Hlz : Forall (fun z => length z = k) zs)
    by (eapply Forall_impl; [|exact Hzs]; now intros z [? _]).
  assert (Hz0 : Forall (fun z => nth 0 z 0 = 0) zs)
    by (eapply Forall_impl; [|exact Hzs]; now intros z (_ & _ & ?)).
  set (coeffs' := sum_polys coeffs zs).
  assert (Hc' : in_Q coeffs') by now apply sum_polys_in_Q.
  assert (Hl' : length coeffs' = k) by now apply sum_polys_length.
  assert (Hh : nth 0 coeffs' 0 = nth 0 coeffs 0) by (apply (sum_polys_head k); auto; lia).
  exists coeffs'. split; [exact Hc'|]. split; [exact Hl'|]. split; [exact Hh|].
  unfold PssVSS.proactiveRefreshVSS. rewrite length_map, length_seq.
  replace ((k <? 1) || (n <? k))%nat with false by bool_lia. cbv zeta.
  rewrite Ez. cbn [res_bind].
  rewrite (res_foldl_ok _ (fun _ _ => tt)).
  2:{ intros u [i poly] Hin. apply in_combine_r, in_map_iff in Hin as ((i' & z) & <- & Hiz).
      apply in_combine_r in Hiz. cbn [fst snd].
      apply check_contributions_ok. rewrite Forall_forall in Hzs. now apply Hzs. }
  cbn [res_bind]. rewrite refreshed_shares_spec by assumption. cbn [res_bind]. fold coeffs'.
  rewrite map_map. cbn [PssVSS.zeroCommitments zero_poly].
  rewrite <- (map_map snd commitment_strings), snd_combine by (now rewrite length_seq).
  rewrite (updateCommitments_spec coeffs zs k) by (auto; lia). cbn [res_bind]. fold coeffs'.
  replace (existsb _ _) with false.
  2:{ symmetry. apply not_true_iff_false. intros H. apply existsb_exists in H as (t & Ht & Hv).
      apply in_map_iff in Ht as (x & <- & _).
      destruct (split_shares_accepted coeffs' len x Hc' Hlen) as (Ev & _). now rewrite Ev in Hv. }
  rewrite !sharing_prefix by assumption. cbn [res_bind]. rewrite Hh, String.eqb_refl. reflexivity.
Qed.
End Refresh.

(** ** Epochs

    The published state of a document key: the shares of the guardians and the
    commitments.  An epoch is one refresh, with any random bytes. *)
Definition vss_state : Type := (list string * list string)%type.

Inductive refresh_step (k : nat) : vss_state -> vss_state -> Prop :=
| refresh_step_intro (rand : nat -> nat -> list Z) (ep : Z) (shares commitments : list string)
    (r : PssVSS.ProactiveRefreshVSSResult) :
    (forall i, good_rand (rand i)) ->
    PssVSS.proactiveRefreshVSS rand shares commitments k ep = Ok r ->
    refresh_step k (shares, commitments)
      (PssVSS.refreshedShares r, PssVSS.refreshedCommitments r).

Definition epochs (k : nat) : vss_state -> vss_state -> Prop := clos_refl_trans_1n _ (refresh_step k).

(** What the epochs preserve: a sharing of the secret among [n] with threshold
    [k]. *)
Definition shares_secret (secret : Z) (k n len : nat) (st : vss_state) : Prop :=
  exists coeffs, in_Q coeffs /\ length coeffs = k /\ nth 0 coeffs 0 = secret
    /\ st = (map (share_for coeffs len) (seq 1 n), commitment_strings coeffs).

Lemma shares_secret_step (secret : Z) (k n len : nat) (st st' : vss_state) :
  (1 <= k <= n)%nat -> (len < 256)%nat -> Z.of_nat n < VSS_Q ->
  refresh_step k st st' -> shares_secret secret k n len st -> shares_secret secret k n len st'.
Proof.
  intros Hk Hlen Hn Hstep (coeffs & Hc & Hl & Hs & E).
  destruct Hstep as [rand ep shares commitments r Hr Hp]. injection E as -> ->.
  destruct (refresh_spec coeffs k n len Hc Hl Hk Hlen Hn rand ep Hr) as (coeffs' & Hc' & Hl' & Hh & E').
  rewrite E' in Hp. injection Hp as <-. exists coeffs'. cbn. repeat split; congruence || assumption.
Qed.

Lemma shares_secret_epochs (secret : Z) (k n len : nat) (st st' : vss_state) :
  (1 <= k <= n)%nat -> (len < 256)%nat -> Z.of_nat n < VSS_Q ->
  epochs k st st' -> shares_secret secret k n len st -> shares_secret secret k n len st'.
Proof.
  intros Hk Hlen Hn. induction 1 as [|st1 st2 st3 Hstep _ IH]; intros Hs; [assumption|].
  apply IH. eapply shares_secret_step; eauto.
Qed.

Lemma split_shares_secret (rand : nat -> list Z) (secretHex : string) (n k : nat) (s : Z)
    (shares commitments : list string) :
  good_rand rand -> split_guards secretHex n k s ->
  splitSecretVSS rand secretHex n k = Ok (shares, commitments) ->
  shares_secret s k n (String.length (strip_0x secretHex)) (shares, commitments).
Proof.
  intros Hr Hg Hsplit.
  destruct (splitSecretVSS_spec rand secretHex n k s Hr Hg) as (coeffs & Hl & Hc & Hs & E).
  rewrite E in Hsplit. injection Hsplit as <- <-. exists coeffs. auto.
Qed.

(** C6: after any number of refreshes of a split secret, every share is
    accepted against the published commitments and any [k] distinct shares
    reconstruct the secret string. *)
Theorem epochs_keep_secret (rand : nat -> list Z) (secretHex : string) (n k : nat) (s : Z)
    (shares commitments shares' commitments' sub : list string)
    (Hr : good_rand rand) (Hg : split_guards secretHex n k s)
    (Hlen : (String.length (strip_0x secretHex) < 256)%nat) (Hn : Z.of_nat n < VSS_Q)
    (Hcanon : str_all (canon_digit 16) (strip_0x secretHex) = true)
    (Hsplit : splitSecretVSS rand secretHex n k = Ok (shares, commitments))
    (Hep : epochs k (shares, commitments) (shares', commitments'))
    (Hsub : incl sub shares') (Hnd : NoDup sub) (Hk : (k <= length sub)%nat) :
  Forall (fun t => verifyShare t commitments' = true) shares'
  /\ reconstructSecret sub = Ok (strip_0x secretHex).
Proof.
  pose proof (split_shares_secret _ _ _ _ _ _ _ Hr Hg Hsplit) as H0.
  destruct Hg as (Hkn & _ & Hb & _).
  apply (shares_secret_epochs s k n _ _ _ Hkn Hlen Hn Hep) in H0 as (coeffs & Hc & Hl & Hs & E).
  injection E as -> ->. split.
  - apply Forall_map, Forall_forall. intros x _. now apply split_shares_accepted.
  - rewrite (genuine_reconstruct coeffs (String.length (strip_0x secretHex)) n sub Hc); auto;
      [|intros ->; simpl in Hl; lia|lia].
    rewrite Hs. f_equal. now apply canonical_hex.
Qed.

(** in every state reached from a split by refreshes, another refresh
    returns, reports the secret and leaves the commitment to the secret. *)
Theorem refresh_never_fails (rand : nat -> list Z) (secretHex : string) (n k : nat) (s : Z)
    (shares commitments : list string) (st : vss_state)
    (Hr : good_rand rand) (Hg : split_guards secretHex n k s)
    (Hlen : (String.length (strip_0x secretHex) < 256)%nat) (Hn : Z.of_nat n < VSS_Q)
    (Hsplit : splitSecretVSS rand secretHex n k = Ok (shares, commitments))
    (Hep : epochs k (shares, commitments) st)
    (rand' : nat -> nat -> list Z) (Hr' : forall i, good_rand (rand' i)) (ep : Z) :
  exists r, PssVSS.proactiveRefreshVSS rand' (fst st) (snd st) k ep = Ok r
    /\ BigInt_hex (PssVSS.recoveredSecret r) = Ok s
    /\ length (PssVSS.refreshedShares r) = n
    /\ nth_error (PssVSS.refreshedCommitments r) 0 = nth_error commitments 0.
Proof.
  pose proof (split_shares_secret _ _ _ _ _ _ _ Hr Hg Hsplit) as H0.
  destruct Hg as (Hkn & _ & Hb & _). destruct H0 as (c0 & Hc0 & Hl0 & Hs0 & E0).
  assert (H1 : shares_secret s k n (String.length (strip_0x secretHex)) st).
  { apply (shares_secret_epochs s k n _ _ _ Hkn Hlen Hn Hep). exists c0. auto. }
  injection E0 as -> ->. destruct H1 as (coeffs & Hc & Hl & Hs & ->). cbn [fst snd].
  destruct (refresh_spec coeffs k n _ Hc Hl Hkn Hlen Hn rand' ep Hr') as (coeffs' & Hc' & Hl' & Hh & ->).
  eexists. split; [reflexivity|].
  cbn [PssVSS.recoveredSecret PssVSS.refreshedShares PssVSS.refreshedCommitments].
  split; [|split].
  - rewrite Hs. apply BigInt_hex_pad. now apply BigInt_hex_nonneg in Hb.
  - now rewrite length_map, length_seq.
  - destruct coeffs' as [|a' l'], c0 as [|a0 l0]; simpl in Hl', Hl0; try lia.
    simpl nth in Hh, Hs0. unfold commitment_strings. rewrite !nth_error_map.
    simpl nth_error. simpl nth in Hs. congruence.
Qed.

Lemma demo_split : exists shares commitments,
  splitSecretVSS demo_rand "0x0f" 3 2 = Ok (shares, commitments).
Proof.
  destruct (splitSecretVSS_spec demo_rand "0x0f" 3 2 15 demo_rand_good demo_guards)
    as (coeffs & _ & _ & _ & E). eauto.
Qed.

Lemma demo_len : (String.length (strip_0x "0x0f") < 256)%nat.
Proof. simpl. lia. Qed.

Lemma demo_n : Z.of_nat 3 < VSS_Q.
Proof. pose proof VSS_bounds. lia. Qed.

Lemma refresh_never_fails_witness :
  exists shares commitments r,
    splitSecretVSS demo_rand "0x0f" 3 2 = Ok (shares, commitments)
    /\ PssVSS.proactiveRefreshVSS (fun _ => demo_rand) shares commitments 2 1 = Ok r
    /\ BigInt_hex (PssVSS.recoveredSecret r) = Ok 15.
Proof.
  destruct demo_split as (shares & commitments & E).
  destruct (refresh_never_fails demo_rand "0x0f" 3 2 15 shares commitments (shares, commitments)
              demo_rand_good demo_guards demo_len demo_n E (rt1n_refl _ _ _)
              (fun _ => demo_rand) (fun _ => demo_rand_good) 1) as (r & Er & Hr & _).
  exists shares, commitments, r. auto.
Defined.

Lemma demo_epoch : exists coeffs shares commitments,
  in_Q coeffs /\ splitSecretVSS demo_rand "0x0f" 3 2 = Ok (shares, commitments)
  /\ epochs 2 (shares, commitments) (map (share_for coeffs 2) (seq 1 3), commitment_strings coeffs).
Proof.
  destruct (splitSecretVSS_spec demo_rand "0x0f" 3 2 15 demo_rand_good demo_guards)
    as (c0 & Hl & Hc & _ & E).
  destruct (refresh_spec c0 2 3 2 Hc Hl ltac:(lia) ltac:(lia) demo_n (fun _ => demo_rand) 1
              (fun _ => demo_rand_good)) as (coeffs & Hc' & _ & _ & Er).
  exists coeffs. do 2 eexists. split; [exact Hc'|]. split; [exact E|].
  eapply Relation_Operators.rt1n_trans; [|apply rt1n_refl].
  exact (refresh_step_intro 2 _ _ _ _ _ (fun _ => demo_rand_good) Er).
Qed.

Lemma epochs_keep_secret_witness :
  exists shares, length shares = 2%nat /\ reconstructSecret shares = Ok "0f"%string.
Proof.
  destruct demo_epoch as (coeffs & shares & commitments & Hc & E & Hep).
  exists (map (share_for coeffs 2) [1; 3]%nat). split; [reflexivity|].
  eapply (epochs_keep_secret demo_rand "0x0f" 3 2 15 shares commitments _ _
            (map (share_for coeffs 2) [1; 3]%nat) demo_rand_good demo_guards demo_len demo_n).
  - reflexivity.
  - exact E.
  - exact Hep.
  - intros t Ht. apply in_map_iff in Ht as (x & <- & Hin). apply in_map, in_seq.
    destruct Hin as [<-|[<-|[]]]; lia.
  - apply NoDup_map_inj_on; [|repeat constructor; simpl; intuition lia].
    intros x x' _ _ Ex. pose proof (share_strings_NoDup coeffs 2 3 Hc ltac:(lia)) as _.
    destruct (split_shares_accepted coeffs 2 x Hc ltac:(lia)) as (_ & E1 & _).
    destruct (split_shares_accepted coeffs 2 x' Hc ltac:(lia)) as (_ & E2 & _).
    rewrite Ex, E2 in E1. now apply Nat2Z.inj in E1.
  - reflexivity.
Defined.
