(* ===== verification/Pss127Proofs.v ===== *)
(** * Pss127Proofs: the sharing over GF(2^127 - 1)

    The shares [splitSecret] makes lie on a polynomial whose value at 0 is the
    secret; [combineShares] interpolates it, [proactiveRefresh] moves them to
    another polynomial with the same value at 0, and fewer shares than the
    threshold are consistent with every secret. *)

From Stdlib Require Import Ascii String ZArith Zmod List Lia Bool Field Relations.
Import ListNotations.
From S2P Require Import Prelude Bytes JsString Algebra Primes Modular Pss.
Import Pss127.

Open Scope list_scope.
Open Scope Z_scope.

Lemma pss_prime : Z.prime PSS_FIELD_PRIME.
Proof. exact prime_170141183460469231731687303715884105727. Qed.

Lemma pss_pos : 1 < PSS_FIELD_PRIME.
Proof. reflexivity. Qed.

#[export] Hint Resolve pss_prime pss_pos : core.
Opaque PSS_FIELD_PRIME.

Local Abbreviation phi := (Zmod.of_Z PSS_FIELD_PRIME).
#[export] Instance pss_field : Field (Zmod PSS_FIELD_PRIME) := Zp_Field pss_prime.

Add Field F_field_pss : (@f_theory (Zmod PSS_FIELD_PRIME) pss_field).

(** ** The helpers *)

Lemma mod_p_spec (v : Z) : mod_p v = v mod PSS_FIELD_PRIME.
Proof. apply norm_rem_mod. pose proof pss_pos. lia. Qed.

Lemma mod_p_range (v : Z) : 0 <= mod_p v < PSS_FIELD_PRIME.
Proof. rewrite mod_p_spec. apply Z.mod_pos_bound. pose proof pss_pos. lia. Qed.

Lemma phi_mod_p (v : Z) : phi (mod_p v) = phi v.
Proof. now rewrite mod_p_spec, phi_mod. Qed.

Lemma evaluate_spec (coeffs : list Z) (x : Z) :
  phi (evaluatePolynomial coeffs x) = peval (map phi coeffs) (phi x)
  /\ 0 <= evaluatePolynomial coeffs x < PSS_FIELD_PRIME.
Proof.
  unfold evaluatePolynomial. induction coeffs as [|c coeffs [IH _]]; simpl.
  - split; [reflexivity|]. pose proof pss_pos. lia.
  - rewrite fold_left_app. simpl. split; [|apply mod_p_range].
    rewrite phi_mod_p, Zmod.of_Z_add, Zmod.of_Z_mul, phi_mod_p, IH.
    set (a := peval _ _). change (fadd (fmul a (phi x)) (phi c) = fadd (phi c) (fmul (phi x) a)).
    ring.
Qed.

Lemma powMod_spec (b e : Z) : 0 <= e -> powMod b e = b ^ e mod PSS_FIELD_PRIME.
Proof.
  intros He. unfold powMod. pose proof pss_pos.
  rewrite (pow_loop_pow mod_p PSS_FIELD_PRIME); auto using mod_p_spec; try lia.
  - now rewrite mod_p_spec, Z.mod_pow_l.
  - apply mod_p_range.
Qed.

(** The polynomial [makeRandomPolynomial] draws for threshold [k]. *)
Definition sample_poly (rand : nat -> list Z) (c : Z) (k : nat) : list Z :=
  mod_p c :: map (fun i => randomFieldElement (rand i)) (seq 0 (k - 1)).

Lemma make_polynomial (rand : nat -> list Z) (c : Z) (k : nat) : (1 <= k)%nat ->
  makeRandomPolynomial rand c (Z.of_nat k - 1) = Ok (sample_poly rand c k).
Proof.
  intros Hk. unfold makeRandomPolynomial. rewrite (proj2 (Z.ltb_ge _ _)) by lia.
  now replace (Z.to_nat (Z.of_nat k - 1)) with (k - 1)%nat by lia.
Qed.

Lemma sample_poly_length (rand : nat -> list Z) (c : Z) (k : nat) : (1 <= k)%nat ->
  length (sample_poly rand c k) = k.
Proof. intros Hk. simpl. rewrite length_map, length_seq. lia. Qed.

(** ** Shares on a polynomial *)

(** The state of a sharing: distinct points, and values of a polynomial with
    [k] coefficients and [secret] at 0. *)
Definition on_poly (poly : list (Zmod PSS_FIELD_PRIME)) (sh : Share) : Prop :=
  phi (y sh) = peval poly (phi (x sh)).

Definition shares_secret (secret : Z) (k : nat) (shares : list Share) : Prop :=
  exists poly, length poly = k /\ peval poly f0 = phi secret /\ Forall (on_poly poly) shares.

Definition distinct (shares : list Share) : Prop := NoDup (map (fun sh => phi (x sh)) shares).

Lemma firstn_distinct (shares : list Share) (k : nat) : distinct shares -> distinct (firstn k shares).
Proof.
  unfold distinct. rewrite <- (firstn_skipn k shares) at 1. rewrite map_app.
  now intros H%NoDup_app_remove_r.
Qed.

Lemma combine_spec (shares : list Share) (k : nat) (secret : Z) :
  0 <= secret < PSS_FIELD_PRIME -> shares_secret secret k shares -> distinct shares ->
  (k <= length shares)%nat -> combineShares shares k = Ok secret.
Proof.
  intros Hs (poly & Hl & H0 & Hon) Hd Hk. unfold combineShares.
  rewrite (proj2 (Nat.ltb_ge _ _)) by assumption. f_equal.
  apply (firstn_distinct shares k) in Hd. set (used := firstn k shares) in *.
  assert (Hu : length used = k) by (unfold used; rewrite length_firstn; lia).
  assert (Huon : Forall (on_poly poly) used).
  { apply Forall_forall. intros sh Hin. rewrite Forall_forall in Hon. apply Hon.
    rewrite <- (firstn_skipn k shares). apply in_or_app. now left. }
  set (xs := map x used). assert (Hxs : NoDup (map phi xs)) by (unfold xs; now rewrite map_map).
  assert (Hlx : length xs = length used) by apply length_map.
  match goal with |- for_n _ ?body 0 = _ => set (loop := body) end.
  set (term := fun j => fmul (peval poly (nth j (map phi xs) f0)) (lagrange0 (map phi xs) j)).
  pose proof (for_n_inv (fun i s => 0 <= s < PSS_FIELD_PRIME /\ phi s = fsum i term)
                (length used) loop 0) as Hinv.
  destruct Hinv as (Hr & E).
  - split; [pose proof pss_pos; lia|reflexivity].
  - intros i s Hi (Hr & E). unfold loop.
    pose proof (weight_loop_spec PSS_FIELD_PRIME mod_p pss_prime mod_p_spec xs i Hxs ltac:(lia)) as Hw.
    fold xs. destruct (weight_loop mod_p xs i) as [num den]. destruct Hw as [Hden Hw].
    split; [apply mod_p_range|]. change (fsum (S i) term) with (fadd (fsum i term) (term i)).
    change (Zp_Field pss_prime) with pss_field in Hw. unfold term at 2. rewrite <- E, <- Hw. pose proof pss_pos.
    rewrite powMod_spec by lia.
    rewrite phi_mod_p, Zmod.of_Z_add, Zmod.of_Z_mul, phi_mod_p, Zmod.of_Z_mul, phi_fermat_inv by auto.
    rewrite Forall_forall in Huon.
    specialize (Huon (nth i used (mkShare 0 0)) ltac:(apply nth_In; lia)). unfold on_poly in Huon.
    unfold xs. change f0 with (phi (x (mkShare 0 0))). rewrite !map_nth.
    change 0 with (y (mkShare 0 0)) at 1. rewrite map_nth, Huon. reflexivity.
  - apply (phi_inj PSS_FIELD_PRIME); auto. rewrite E, <- Hlx, <- H0.
    rewrite <- (length_map phi xs). apply lagrange_interpolation_le; auto.
    rewrite length_map, Hlx, Hu. lia.
Qed.

(** ** Splitting *)

Lemma peval_0 (poly : list (Zmod PSS_FIELD_PRIME)) : peval poly f0 = nth 0 poly f0.
Proof. destruct poly as [|c poly]; [reflexivity|]. apply fadd_mul_0. Qed.

Definition share_at (poly : list Z) (j : nat) : Share :=
  mkShare (Z.of_nat j) (evaluatePolynomial poly (Z.of_nat j)).

Lemma split_explicit (rand : nat -> list Z) (secret : Z) (k n : nat) : (1 <= k <= n)%nat ->
  splitSecret rand secret k n
  = Ok (map (share_at (sample_poly rand (mod_p secret) k)) (seq 1 n)).
Proof.
  intros Hk. unfold splitSecret.
  rewrite (proj2 (Nat.ltb_ge k 1)), (proj2 (Nat.ltb_ge n k)) by lia. cbn [orb].
  now rewrite make_polynomial by lia.
Qed.

Lemma split_spec (rand : nat -> list Z) (secret : Z) (k n : nat) :
  (1 <= k <= n)%nat ->
  exists shares, splitSecret rand secret k n = Ok shares
    /\ shares_secret (mod_p secret) k shares /\ map x shares = map Z.of_nat (seq 1 n).
Proof.
  intros Hk. rewrite split_explicit by assumption.
  eexists. split; [reflexivity|]. split; [|now rewrite map_map].
  set (poly := sample_poly rand (mod_p secret) k).
  exists (map phi poly). split; [rewrite length_map; apply sample_poly_length; lia|]. split.
  - rewrite peval_0. change f0 with (phi 0). rewrite map_nth. apply phi_mod_p.
  - apply Forall_map, Forall_forall. intros j _. apply evaluate_spec.
Qed.

Lemma distinct_of_points (shares : list Share) (pts : list Z) :
  map x shares = pts -> NoDup pts -> Forall (fun v => 0 <= v < PSS_FIELD_PRIME) pts ->
  distinct shares.
Proof.
  intros E Hnd Hr. unfold distinct. rewrite <- (map_map x phi), E.
  apply NoDup_map_inj_on; [|assumption]. rewrite Forall_forall in Hr.
  intros a b Ha Hb. apply phi_inj; auto.
Qed.

Lemma guardian_points (n : nat) : Z.of_nat n < PSS_FIELD_PRIME ->
  NoDup (map Z.of_nat (seq 1 n))
  /\ Forall (fun v => 0 <= v < PSS_FIELD_PRIME) (map Z.of_nat (seq 1 n)).
Proof.
  intros Hn. split.
  - apply NoDup_map_inj_on; [intros; lia|apply seq_NoDup].
  - apply Forall_map, Forall_forall. intros j Hj. apply in_seq in Hj. lia.
Qed.

(** ** Refreshing *)

Definition zero_table (points : list Z) (z : list Z) : list (Z * Z) :=
  map (fun point => (point, evaluatePolynomial z point)) points.

Lemma generate127_spec (rand : nat -> list Z) (k : nat) (points : list Z) : (1 <= k)%nat ->
  generateZeroShares rand k points = Ok (zero_table points (sample_poly rand 0 k)).
Proof. intros Hk. unfold generateZeroShares. now rewrite make_polynomial. Qed.

Lemma contribution_spec (points z : list Z) (v : Z) : In v points ->
  contribution_at (zero_table points z) v = Ok (evaluatePolynomial z v).
Proof.
  intros Hin. unfold contribution_at, zero_table. rewrite <- map_rev.
  apply in_rev in Hin. induction (rev points) as [|w l IH]; simpl in *; [contradiction|].
  destruct (Z.eqb_spec w v) as [->|Hne]; [reflexivity|]. apply IH. tauto.
Qed.

Lemma refresh_share (points : list Z) (zs : list (list Z)) (poly : list (Zmod PSS_FIELD_PRIME))
    (sh : Share) :
  In (x sh) points -> on_poly poly sh ->
  exists sh', res_foldl (fun updated m =>
      let! c := contribution_at m (x sh) in Ok (addContribution updated c))
      (map (zero_table points) zs) sh = Ok sh'
    /\ x sh' = x sh /\ on_poly (fold_left (fun p z => padd p (map phi z)) zs poly) sh'.
Proof.
  intros Hin Hon. set (v := x sh) in *. assert (Hx : x sh = v) by reflexivity. clearbody v.
  revert sh poly Hx Hon. induction zs as [|z zs IH]; intros sh poly Hx Hon; [now exists sh|].
  cbn [map res_foldl fold_left]. rewrite (contribution_spec points z v Hin). cbn [res_bind].
  apply IH; [assumption|]. unfold on_poly in *. cbn [addContribution x y].
  rewrite phi_mod_p, Zmod.of_Z_add, Hon, peval_padd, Hx, (proj1 (evaluate_spec z v)). reflexivity.
Qed.

Lemma refreshed_poly (zs : list (list Z)) (poly : list (Zmod PSS_FIELD_PRIME)) (k : nat) :
  length poly = k -> Forall (fun z => length z = k /\ nth 0 z 0 = 0) zs ->
  let poly' := fold_left (fun p z => padd p (map phi z)) zs poly in
  length poly' = k /\ peval poly' f0 = peval poly f0.
Proof.
  intros Hl Hzs. revert poly Hl. induction Hzs as [|z zs [Hz H0] Hzs IH]; intros poly Hl; [auto|].
  cbn [fold_left]. destruct (IH (padd poly (map phi z))) as [IHl IH0].
  - rewrite padd_length, length_map. lia.
  - split; [assumption|]. rewrite IH0, peval_padd, (peval_0 (map phi z)).
    change f0 with (phi 0) at 2. rewrite map_nth, H0. change (phi 0) with (f0 (Field := pss_field)).
    ring.
Qed.

Lemma refresh127_spec (rand : nat -> nat -> list Z) (shares : list Share) (k : nat) (ep secret : Z) :
  0 <= secret < PSS_FIELD_PRIME -> (1 <= k <= length shares)%nat ->
  shares_secret secret k shares -> distinct shares ->
  exists refreshed, proactiveRefresh rand shares k ep = Ok (mkRefresh refreshed secret ep)
    /\ shares_secret secret k refreshed /\ map x refreshed = map x shares.
Proof.
  intros Hs Hk (poly & Hl & H0 & Hon) Hd. unfold proactiveRefresh.
  set (zs := map (fun i => sample_poly (rand i) 0 k) (seq 0 (length shares))).
  rewrite (res_mapM_ok_map _ (fun i => zero_table (map x shares) (sample_poly (rand i) 0 k)))
    by (intros i _; apply generate127_spec; lia).
  cbn [res_bind]. rewrite <- (map_map (fun i => sample_poly (rand i) 0 k)). fold zs.
  set (poly' := fold_left (fun p z => padd p (map phi z)) zs poly).
  match goal with |- exists r, res_bind (res_mapM ?g _) _ = _ /\ _ => set (f := g) end.
  assert (Hshares : forall l, incl l shares -> exists refreshed, res_mapM f l = Ok refreshed
            /\ Forall (on_poly poly') refreshed /\ map x refreshed = map x l).
  { induction l as [|sh l IH]; intros Hi; [exists []; repeat split; constructor|].
    destruct IH as (r & Hr & Hro & Hrx); [intros t Ht; apply Hi; now right|].
    rewrite Forall_forall in Hon.
    destruct (refresh_share (map x shares) zs poly sh) as (sh' & E & Hx & Ho).
    - apply in_map, Hi. now left.
    - apply Hon, Hi. now left.
    - cbn [res_mapM]. unfold f at 1. rewrite E. cbn [res_bind]. rewrite Hr.
      exists (sh' :: r). cbn. repeat split; [constructor; assumption|congruence]. }
  destruct (Hshares shares) as (refreshed & E & Hro & Hrx); [apply incl_refl|].
  rewrite E. cbn [res_bind]. clear E Hshares.
  destruct (refreshed_poly zs poly k Hl) as [Hl' H0'].
  { apply Forall_map, Forall_forall. intros i _. split; [|reflexivity].
    apply sample_poly_length. lia. }
  fold poly' in Hl', H0'. exists refreshed.
  assert (Hss : shares_secret secret k refreshed) by (exists poly'; repeat split; congruence || auto).
  assert (Hlen : length refreshed = length shares)
    by (rewrite <- (length_map x refreshed), Hrx; apply length_map).
  rewrite (combine_spec refreshed k secret); auto; try lia.
  unfold distinct. now rewrite <- (map_map x phi), Hrx, map_map.
Qed.

(** One epoch: all guardians ran a refresh, which returned. *)
Inductive refresh_step (k : nat) : list Share -> list Share -> Prop :=
| refresh_step_intro rand ep shares r :
    proactiveRefresh rand shares k ep = Ok r -> refresh_step k shares (refreshedShares r).

Definition epochs (k : nat) : list Share -> list Share -> Prop :=
  clos_refl_trans_1n _ (refresh_step k).

Lemma epochs_spec (k : nat) (secret : Z) (shares shares' : list Share) :
  0 <= secret < PSS_FIELD_PRIME -> (1 <= k <= length shares)%nat ->
  epochs k shares shares' -> shares_secret secret k shares -> distinct shares ->
  shares_secret secret k shares' /\ map x shares' = map x shares.
Proof.
  intros Hs Hk. induction 1 as [|s1 s2 s3 Hstep _ IH]; intros Hss Hd; [auto|].
  destruct Hstep as [rand ep shares r Hr].
  destruct (refresh127_spec rand shares k ep secret Hs Hk Hss Hd) as (sh' & E & Hss' & Hx).
  rewrite Hr in E. injection E as ->. cbn [refreshedShares] in *. rewrite <- Hx. apply IH; auto.
  - now rewrite <- (length_map x sh'), Hx, length_map.
  - unfold distinct. now rewrite <- (map_map x phi), Hx, map_map.
Qed.

(** over GF(2^127 - 1), after any number of proactive refreshes of a split
    secret, a further refresh returns and recovers the secret, and so does
    combining any selection of shares at distinct points that holds at least
    the threshold. *)
Theorem pss127_epochs_keep_secret (rand : nat -> list Z) (secret : Z) (k n : nat)
    (shares shares' sub : list Share) (rand' : nat -> nat -> list Z) (ep : Z)
    (Hk : (1 <= k <= n)%nat) (Hn : Z.of_nat n < PSS_FIELD_PRIME)
    (Hsplit : splitSecret rand secret k n = Ok shares) (Hep : epochs k shares shares')
    (Hsub : incl sub shares') (Hd : NoDup (map x sub)) (Hlen : (k <= length sub)%nat) :
  combineShares sub k = Ok (secret mod PSS_FIELD_PRIME)
  /\ exists r, proactiveRefresh rand' shares' k ep = Ok r
       /\ recoveredSecret r = secret mod PSS_FIELD_PRIME
       /\ map x (refreshedShares r) = map x shares.
Proof.
  destruct (split_spec rand secret k n Hk) as (sh0 & E & Hss & Hx).
  rewrite Hsplit in E. injection E as <-. rewrite mod_p_spec in Hss.
  destruct (guardian_points n Hn) as [Hnd Hr].
  pose proof (distinct_of_points shares _ Hx Hnd Hr) as Hdist.
  assert (Hl : length shares = n) by now rewrite <- (length_map x), Hx, length_map, length_seq.
  pose proof (mod_p_range secret) as Hb. rewrite mod_p_spec in Hb.
  destruct (epochs_spec k _ shares shares' Hb ltac:(lia) Hep Hss Hdist) as [Hss' Hx'].
  assert (Hdist' : distinct shares') by (apply (distinct_of_points _ _ Hx'); rewrite Hx; assumption).
  assert (Hl' : length shares' = n) by now rewrite <- (length_map x), Hx', length_map.
  split.
  - destruct Hss' as (poly & Hp1 & Hp2 & Hp3). apply combine_spec; auto.
    + exists poly. repeat split; auto. now apply (incl_Forall Hsub).
    + apply (distinct_of_points sub _ eq_refl Hd).
      apply (incl_Forall (l1 := map x shares')); [now apply incl_map|]. now rewrite Hx', Hx.
  - destruct (refresh127_spec rand' shares' k ep _ Hb ltac:(lia) Hss' Hdist') as (r & -> & _ & Hrx).
    eexists. split; [reflexivity|]. split; [reflexivity|]. cbn [refreshedShares]. congruence.
Qed.

Lemma demo_split127 : exists shares,
  splitSecret (fun _ => be_bytes 16 7) 42 2 3 = Ok shares
  /\ map x shares = [1; 2; 3] /\ epochs 2 shares shares.
Proof.
  destruct (split_spec (fun _ => be_bytes 16 7) 42 2 3 ltac:(lia)) as (shares & E & _ & Hx).
  exists shares. split; [exact E|]. split; [exact Hx|apply rt1n_refl].
Qed.

Lemma demo_n127 : Z.of_nat 3 < PSS_FIELD_PRIME.
Proof. reflexivity. Qed.

Lemma pss127_epochs_keep_secret_witness :
  exists shares, combineShares shares 2 = Ok (42 mod PSS_FIELD_PRIME).
Proof.
  destruct demo_split127 as (shares & E & Hx & Hep). exists shares.
  apply (pss127_epochs_keep_secret (fun _ => be_bytes 16 7) 42 2 3 shares shares shares
           (fun _ _ => []) 1 ltac:(lia) demo_n127 E Hep (incl_refl _)).
  - rewrite Hx. repeat constructor; simpl; intuition lia.
  - rewrite <- (length_map x), Hx. simpl. lia.
Defined.

(** ** Fewer shares than the threshold *)

Lemma zmod_coeffs (q : list (Zmod PSS_FIELD_PRIME)) : map phi (map Zmod.to_Z q) = q.
Proof. rewrite map_map. rewrite <- (map_id q) at 2. apply map_ext. intros a. apply Zmod.of_Z_to_Z. Qed.

Lemma random_element_bytes (c : Z) : 0 <= c < PSS_FIELD_PRIME ->
  randomFieldElement (be_bytes 16 c) = c.
Proof.
  intros Hc. unfold randomFieldElement. rewrite bytes_value_be.
  - apply Z.rem_small. assumption.
  - split; [lia|]. apply Z.lt_trans with PSS_FIELD_PRIME; [lia|reflexivity].
Qed.

(** Every polynomial is drawn for some random bytes. *)
Lemma sample_any (q : list (Zmod PSS_FIELD_PRIME)) (secret : Z) (k : nat) :
  length q = k -> (1 <= k)%nat -> peval q f0 = phi secret ->
  sample_poly (fun i => be_bytes 16 (Zmod.to_Z (nth (S i) q Zmod.zero))) (mod_p secret) k
  = map Zmod.to_Z q.
Proof.
  intros Hl Hk H0. destruct q as [|c q]; [simpl in Hl; lia|]. unfold sample_poly.
  cbn [map]. rewrite peval_0 in H0. cbn [nth] in H0. f_equal.
  - rewrite H0. rewrite !mod_p_spec, Z.mod_mod by (pose proof pss_pos; lia).
    symmetry. apply Zmod.to_Z_of_Z.
  - simpl in Hl. replace (k - 1)%nat with (length q) by lia.
    rewrite (map_ext _ (fun i => Zmod.to_Z (nth i q Zmod.zero))).
    + now rewrite <- (map_map (fun i => nth i q Zmod.zero)), map_nth_seq.
    + intros i. cbn [nth]. apply random_element_bytes. apply Zmod.unsigned_pos_bound.
      pose proof pss_pos. lia.
Qed.

(** C17: fewer shares than the threshold say nothing about the secret: any other
    secret has random bytes for which it is split into the same shares. *)
Theorem pss127_secrecy (rand : nat -> list Z) (secret secret' : Z) (k n : nat)
    (shares sub : list Share)
    (Hk : (1 <= k <= n)%nat) (Hn : Z.of_nat n < PSS_FIELD_PRIME)
    (Hsplit : splitSecret rand secret k n = Ok shares)
    (Hsub : incl sub shares) (Hlen : (length sub < k)%nat) :
  exists rand', (forall i, length (rand' i) = 16%nat /\ bytes (rand' i))
    /\ exists shares', splitSecret rand' secret' k n = Ok shares' /\ incl sub shares'.
Proof.
  rewrite split_explicit in Hsplit by assumption. injection Hsplit as <-.
  set (poly := sample_poly rand (mod_p secret) k) in *.
  destruct (peval_free_at_0 (map phi poly) (map (fun sh => phi (x sh)) sub) (phi secret'))
    as (q & Hl & H0 & Hq).
  - intros r Hr E. apply in_map_iff in Hr as (sh & <- & Hin).
    apply Hsub, in_map_iff in Hin as (j & <- & Hj). apply in_seq in Hj. cbn [share_at x] in E.
    apply (phi_inj PSS_FIELD_PRIME (Z.of_nat j) 0) in E; lia.
  - rewrite !length_map. unfold poly. rewrite sample_poly_length; lia.
  - rewrite length_map in Hl. unfold poly in Hl. rewrite sample_poly_length in Hl by lia.
    exists (fun i => be_bytes 16 (Zmod.to_Z (nth (S i) q Zmod.zero))). split.
    { intros i. split; [apply be_bytes_length|apply be_bytes_bytes]. }
    rewrite split_explicit, sample_any by (assumption || lia).
    eexists. split; [reflexivity|]. intros sh Hin. pose proof (Hsub sh Hin) as Hin'.
    apply in_map_iff in Hin' as (j & <- & Hj). apply in_map_iff. exists j. split; [|assumption].
    unfold share_at. f_equal. apply (phi_inj PSS_FIELD_PRIME).
    + apply evaluate_spec.
    + apply evaluate_spec.
    + rewrite !(proj1 (evaluate_spec _ _)), zmod_coeffs. apply Hq, in_map_iff.
      exists (share_at poly j). auto.
Qed.

Lemma pss127_secrecy_witness :
  exists sh rand' shares', splitSecret rand' 99 2 3 = Ok shares' /\ In sh shares'.
Proof.
  destruct demo_split127 as (shares & E & Hx & _).
  destruct shares as [|sh shares]; [discriminate Hx|]. exists sh.
  destruct (pss127_secrecy (fun _ => be_bytes 16 7) 42 99 2 3 (sh :: shares) [sh] ltac:(lia)
              demo_n127 E) as (rand' & _ & shares' & E' & Hin).
  - intros a [<-|[]]. now left.
  - simpl. lia.
  - exists rand', shares'. split; [exact E'|]. apply Hin. now left.
Defined.
