(* ===== verification/Fhe.v ===== *)
(** * Fhe: the additively homomorphic encryption of fheEngine.ts and fhe.service.ts

    Ciphertexts are vectors modulo a prime [q].  The random 32-byte strings are
    parameters, numbered in the order the code draws them; the modulus is an
    argument with the default [FHE_PRIME].  Reading an array out of range gives
    [undefined], which the arithmetic that follows rejects with a TypeError.

    For a prime modulus a ciphertext stands for [b - <a, s>] in the field of that
    modulus ([dec]).  Encryption gives a ciphertext of the plaintext, and the
    homomorphic operations are the field operations on what ciphertexts stand
    for, so an aggregate decrypts to the interpolation of the shares. *)

From Stdlib Require Import Ascii String ZArith Zmod List Lia Bool Field.
Import ListNotations.
From S2P Require Import Prelude Bytes JsString Algebra Primes Modular.

Open Scope list_scope.
Open Scope Z_scope.

Definition FHE_PRIME : Z :=
  0xFFFFFFFFFFFFFFFFFFFFFFFFFFFFFFFFFFFFFFFFFFFFFFFFFFFFFFFEFFFFFC2F.

Definition FHE_LWE_DIMENSION : nat := 2.

Record FHEPublicKey : Type := mkPub { pk_a : list (list Z); pk_b : list Z }.
Record FHEPrivateKey : Type := mkPriv { sk_s : list Z }.
Record FHEKeypair : Type := mkKeys { publicKey : FHEPublicKey; privateKey : FHEPrivateKey }.
Record FHECiphertext : Type := mkCt { ct_a : list Z; ct_b : Z }.

(** [xs[i]] used as a number or as an array. *)
Definition arr {A : Type} (l : list A) (i : nat) : res A :=
  match nth_error l i with
  | Some v => Ok v
  | None => Throw "TypeError: undefined"
  end.

(** ** Field helpers *)

Definition modQ (val q : Z) : Z := let r := Z.rem val q in if r <? 0 then r + q else r.

Definition modPowQ (base exp q : Z) : Z :=
  pow_loop (fun x => modQ x q) (pow_fuel exp) 1 (modQ base q) exp.

Definition modInverseQ (a q : Z) : res Z :=
  let val := modQ a q in
  throw_if val =? 0 with "Division by zero in modular inverse"%string;;
  Ok (modPowQ val (q - 2) q).

Definition randomFieldElement (bytes : list Z) (q : Z) : Z := modQ (bytes_value bytes) q.

(** ** Keys *)

(** [dot = modQ(dot + x_i)] over the terms a loop reads. *)
Definition sum_loop (q : Z) (n : nat) (term : nat -> res Z) (v : Z) : res Z :=
  res_foldl (fun acc i => let! t := term i in Ok (modQ (acc + t) q)) (seq 0 n) v.

Definition keygen_row (rand : nat -> list Z) (n i : nat) (q : Z) : list Z :=
  map (fun j => randomFieldElement (rand (n + i * n + j)%nat) q) (seq 0 n).

Definition fheKeyGen (rand : nat -> list Z) (n m : nat) (q : Z) : res FHEKeypair :=
  let s := map (fun i => randomFieldElement (rand i) q) (seq 0 n) in
  let a := map (fun i => keygen_row rand n i q) (seq 0 m) in
  let! b := res_mapM (fun row =>
    sum_loop q n (fun j => let! a_ij := arr row j in let! s_j := arr s j in Ok (a_ij * s_j)) 0) a in
  Ok (mkKeys (mkPub a b) (mkPriv s)).

(** ** Plaintexts *)

Inductive Plaintext : Type :=
| PBigInt (v : Z)
| PString (s : string)
| PBytes (l : list Z).

Definition secretToBigInt (secret : Plaintext) : res Z :=
  match secret with
  | PBigInt v => Ok (modQ v FHE_PRIME)
  | PString s =>
      let cleanHex := if startsWith "0x" s then slice_from 2 s else s in
      let! v := BigInt_hex cleanHex in Ok (modQ v FHE_PRIME)
  | PBytes l => Ok (modQ (bytes_value l) FHE_PRIME)
  end.

(** [while (hex.length < 64) hex = "0" + hex], at most 64 rounds. *)
Fixpoint pad_loop (fuel : nat) (hex : string) : string :=
  match fuel with
  | O => hex
  | S f => if (String.length hex <? 64)%nat then pad_loop f (String "0" hex) else hex
  end.

Definition bigIntToHex32 (val : Z) : string := pad_loop 64 (to_hex (modQ val FHE_PRIME)).

(** ** Encryption *)

Definition column_sum (publicKey : FHEPublicKey) (r : list Z) (m j : nat) (q : Z) : res Z :=
  sum_loop q m (fun i =>
    let! row := arr (pk_a publicKey) i in let! a_ij := arr row j in
    let! r_i := arr r i in Ok (a_ij * r_i)) 0.

Definition fheEncrypt (rand : nat -> list Z) (plaintext : Plaintext) (publicKey : FHEPublicKey)
    (q : Z) : res FHECiphertext :=
  let! mVal := secretToBigInt plaintext in
  let m := length (pk_a publicKey) in
  let! row0 := arr (pk_a publicKey) 0 in
  let n := length row0 in
  let r := map (fun i => Z.rem (randomFieldElement (rand i) q) 7 + 1) (seq 0 m) in
  let! aOut := res_mapM (fun j => column_sum publicKey r m j q) (seq 0 n) in
  let! v := sum_loop q m (fun i =>
    let! b_i := arr (pk_b publicKey) i in let! r_i := arr r i in Ok (b_i * r_i)) mVal in
  Ok (mkCt aOut v).

Definition fheDecrypt (ciphertext : FHECiphertext) (privateKey : FHEPrivateKey) (q : Z) : res Z :=
  let n := length (ct_a ciphertext) in
  throw_if negb (n =? length (sk_s privateKey))%nat with
    "Ciphertext dimension does not match private key dimension"%string;;
  let! dot := sum_loop q n (fun i =>
    let! a_i := arr (ct_a ciphertext) i in let! s_i := arr (sk_s privateKey) i in
    Ok (a_i * s_i)) 0 in
  Ok (modQ (ct_b ciphertext - dot) q).

Definition fheDecryptToHex (ciphertext : FHECiphertext) (privateKey : FHEPrivateKey) (q : Z)
    : res string :=
  let! v := fheDecrypt ciphertext privateKey q in Ok (bigIntToHex32 v).

(** ** Homomorphic operations *)

Definition fheAdd (ct1 ct2 : FHECiphertext) (q : Z) : res FHECiphertext :=
  throw_if negb (length (ct_a ct1) =? length (ct_a ct2))%nat with
    "Cannot add ciphertexts with different dimensions"%string;;
  let aOut := map (fun '(x, y) => modQ (x + y) q) (combine (ct_a ct1) (ct_a ct2)) in
  Ok (mkCt aOut (modQ (ct_b ct1 + ct_b ct2) q)).

Definition fheScalarMul (scalar : Z) (ct : FHECiphertext) (q : Z) : FHECiphertext :=
  let s := modQ scalar q in
  mkCt (map (fun x => modQ (x * s) q) (ct_a ct)) (modQ (ct_b ct * s) q).

Definition computeLagrangeCoefficients (indices : list Z) (q : Z) : res (list Z) :=
  let points := map (fun x => modQ x q) indices in
  let k := length points in
  res_mapM (fun i =>
    let '(num, den) := weight_loop (fun x => modQ x q) points i in
    let! denInv := modInverseQ den q in
    Ok (modQ (num * denInv) q)) (seq 0 k).

Record FHEThresholdShare : Type := mkFShare { fs_index : Z; fs_ct : FHECiphertext }.

Definition fheThresholdAggregate (shares : list FHEThresholdShare) (threshold : nat) (q : Z)
    : res FHECiphertext :=
  throw_if (length shares <? threshold)%nat with
    ("Insufficient shares: got " ++ num_str (Z.of_nat (length shares)) ++ ", threshold is "
     ++ num_str (Z.of_nat threshold))%string;;
  let activeShares := firstn threshold shares in
  let! lambdas := computeLagrangeCoefficients (map fs_index activeShares) q in
  let! lambda0 := arr lambdas 0 in
  let! share0 := arr activeShares 0 in
  let acc := fheScalarMul lambda0 (fs_ct share0) q in
  res_foldl (fun acc i =>
    let! lambda := arr lambdas i in
    let! share := arr activeShares i in
    fheAdd acc (fheScalarMul lambda (fs_ct share) q) q) (seq 1 (length activeShares - 1)) acc.

Definition fheAdditiveAggregate (ciphertexts : list FHECiphertext) (q : Z) : res FHECiphertext :=
  match ciphertexts with
  | [] => Throw "No ciphertexts to aggregate"
  | acc :: rest => res_foldl (fun acc ct => fheAdd acc ct q) rest acc
  end.

(** ** Serialization *)

Definition serializeFheCiphertext (ct : FHECiphertext) : string :=
  let n := length (ct_a ct) in
  let hex := ("0x" ++ bigIntToHex32 (Z.of_nat n))%string in
  let hex := fold_left (fun hex a => (hex ++ bigIntToHex32 a)%string) (ct_a ct) hex in
  (hex ++ bigIntToHex32 (ct_b ct))%string.

(** The loop that reads [n] words: a slice past the end is empty, which BigInt
    rejects, so the length of the payload bounds the number of rounds (and the
    rounding of [Number] on a count above 2^53 is never seen). *)
Fixpoint read_words (fuel : nat) (i n : Z) (hex : string) (offset : nat) (a : list Z)
    : res (list Z * nat) :=
  if i <? n then
    match fuel with
    | O => Throw "out of fuel"
    | S f =>
        let! v := BigInt_hex (slice offset (offset + 64) hex) in
        read_words f (i + 1) n hex (offset + 64) (a ++ [v])
    end
  else Ok (a, offset).

Definition deserializeFheCiphertext (hexInput : string) : res FHECiphertext :=
  let hex := if startsWith "0x" hexInput then slice_from 2 hexInput else hexInput in
  throw_if (String.length hex <? 64 * 3)%nat with
    ("Invalid FHE ciphertext payload length: " ++ num_str (Z.of_nat (String.length hex)))%string;;
  let! n := BigInt_hex (slice 0 64 hex) in
  let! '(a, offset) := read_words (String.length hex) 0 n hex 64 [] in
  let! b := BigInt_hex (slice offset (offset + 64) hex) in
  Ok (mkCt a b).

(** ** FHEService *)

(** The random bytes of guardian [i]: of its plaintext and of its encryption. *)
Record ShareRandom : Type := mkRand { plain_bytes : list Z; enc_bytes : nat -> list Z }.

Definition encrypt_share (rand : nat -> ShareRandom) (publicKey : FHEPublicKey) (i : nat) (share : Z)
    : res string :=
  let! ct := fheEncrypt (enc_bytes (rand i)) (PBigInt share) publicKey FHE_PRIME in
  Ok (serializeFheCiphertext ct).

Definition createAdditiveSharesFHE (rand : nat -> ShareRandom) (secretHex : string)
    (guardianCount : nat) (publicKey : FHEPublicKey) : res (list Z * list string) :=
  throw_if (guardianCount <? 1)%nat with "Guardian count must be at least 1"%string;;
  let! secretVal := secretToBigInt (PString secretHex) in
  let! '(sharesPlaintext, sum) := res_foldl (fun '(sharesPlaintext, sum) i =>
    let! v := secretToBigInt (PBytes (plain_bytes (rand i))) in
    let share := modQ v FHE_PRIME in
    Ok (sharesPlaintext ++ [share], modQ (sum + share) FHE_PRIME))
    (seq 0 (guardianCount - 1)) ([], 0) in
  let lastShare := modQ (secretVal - sum) FHE_PRIME in
  let sharesPlaintext := sharesPlaintext ++ [lastShare] in
  let! sharesFHE := res_mapM (fun '(i, share) => encrypt_share rand publicKey i share)
                      (combine (seq 0 guardianCount) sharesPlaintext) in
  Ok (sharesPlaintext, sharesFHE).

(** Horner's rule at [x], from the last coefficient. *)
Definition horner (coeffs : list Z) (x : Z) : Z :=
  fold_left (fun y c => modQ (y * x + c) FHE_PRIME) (rev coeffs) 0.

Definition createThresholdSharesFHE (rand : nat -> ShareRandom) (coeff_bytes : nat -> list Z)
    (secretHex : string) (n threshold : nat) (publicKey : FHEPublicKey)
    : res (list (Z * Z) * list (Z * string)) :=
  throw_if ((threshold <? 1) || (n <? threshold))%nat with
    "Threshold must satisfy 1 <= threshold <= n"%string;;
  let! secretVal := secretToBigInt (PString secretHex) in
  let! random := res_mapM (fun i =>
    let! v := secretToBigInt (PBytes (coeff_bytes i)) in Ok (modQ v FHE_PRIME))
    (seq 1 (threshold - 1)) in
  let coeffs := secretVal :: random in
  let! shares := res_mapM (fun j =>
    let y := horner coeffs (Z.of_nat j) in
    let! ct := encrypt_share rand publicKey j y in
    Ok ((Z.of_nat j, y), (Z.of_nat j, ct))) (seq 1 n) in
  Ok (map fst shares, map snd shares).

Definition decryptAggregateCiphertext (aggregateCiphertextHex : string) (privateKey : FHEPrivateKey)
    : res string :=
  let! ct := deserializeFheCiphertext aggregateCiphertextHex in
  fheDecryptToHex ct privateKey FHE_PRIME.

Definition aggregateThresholdShares (shares : list (Z * string)) (threshold : nat) : res string :=
  let! fheShares := res_mapM (fun '(index, ciphertextHex) =>
    let! ct := deserializeFheCiphertext ciphertextHex in Ok (mkFShare index ct)) shares in
  let! aggregate := fheThresholdAggregate fheShares threshold FHE_PRIME in
  Ok (serializeFheCiphertext aggregate).

Definition aggregateAdditiveShares (ciphertextsHex : list string) : res string :=
  let! cts := res_mapM deserializeFheCiphertext ciphertextsHex in
  let! aggregate := fheAdditiveAggregate cts FHE_PRIME in
  Ok (serializeFheCiphertext aggregate).

Open Scope list_scope.
Open Scope Z_scope.

Lemma arr_nth {A : Type} (l : list A) (i : nat) (d : A) : (i < length l)%nat -> arr l i = Ok (nth i l d).
Proof. intros Hi. unfold arr. now rewrite (nth_error_nth' l d Hi). Qed.

Lemma modQ_mod (v q : Z) : 0 < q -> modQ v q = v mod q.
Proof.
  intros Hq. unfold modQ. pose proof (rem_range v q Hq). rewrite <- (rem_cong v q Hq).
  destruct (Z.ltb_spec (Z.rem v q) 0).
  - rewrite <- (Z.mod_add (Z.rem v q) 1 q), Z.mod_small; lia.
  - now rewrite Z.mod_small by lia.
Qed.

Lemma modQ_range (v q : Z) : 0 < q -> 0 <= modQ v q < q.
Proof. intros Hq. rewrite modQ_mod by assumption. now apply Z.mod_pos_bound. Qed.

Lemma FHE_prime : Z.prime FHE_PRIME.
Proof. exact prime_115792089237316195423570985008687907853269984665640564039457584007908834671663. Qed.

Opaque FHE_PRIME.

Section Field.
Variable q : Z.
Hypothesis Hq : Z.prime q.

Local Abbreviation phi := (Zmod.of_Z q).
#[export] Instance fhe_field : Field (Zmod q) := Zp_Field Hq.
Add Field F_field_fhe : (@f_theory (Zmod q) fhe_field).

Lemma q_pos : 0 < q.
Proof. pose proof (prime_gt_1 q Hq). lia. Qed.

Lemma phi_modQ (v : Z) : phi (modQ v q) = phi v.
Proof. rewrite modQ_mod by exact q_pos. apply phi_mod. Qed.

Definition ranged (v : Z) : Prop := 0 <= v < q.

Lemma sum_loop_spec (n : nat) (term : nat -> res Z) (g : nat -> Z) (v : Z) :
  (forall i, (i < n)%nat -> term i = Ok (g i)) ->
  exists v', sum_loop q n term v = Ok v'
    /\ phi v' = fadd (phi v) (fsum n (fun i => phi (g i))) /\ (n <> 0%nat \/ ranged v -> ranged v').
Proof.
  intros Ht. unfold sum_loop.
  destruct (res_for_inv (fun i v' => phi v' = fadd (phi v) (fsum i (fun i => phi (g i)))
              /\ (i <> 0%nat \/ ranged v -> ranged v')) n
              (fun acc i => let! t := term i in Ok (modQ (acc + t) q)) v) as (v' & E & H).
  - split; [cbn [fsum]; ring|]. intros [H|H]; [easy|assumption].
  - intros i w Hi [Hw _]. rewrite Ht by assumption. eexists. split; [reflexivity|]. split.
    + rewrite phi_modQ, Zmod.of_Z_add, Hw. cbn [fsum].
      set (a := fsum _ _). change (fadd (fadd (phi v) a) (phi (g i)) = fadd (phi v) (fadd a (phi (g i)))).
      ring.
    + intros _. apply modQ_range, q_pos.
  - exists v'. split; [exact E|exact H].
Qed.

(** ** What a ciphertext stands for *)

Definition dot (a s : list Z) : Zmod q :=
  fsum (length s) (fun i => fmul (phi (nth i a 0)) (phi (nth i s 0))).

Definition dec (s : list Z) (ct : FHECiphertext) : Zmod q := fsub (phi (ct_b ct)) (dot (ct_a ct) s).

Definition wf_ct (n : nat) (ct : FHECiphertext) : Prop :=
  length (ct_a ct) = n /\ Forall ranged (ct_a ct) /\ ranged (ct_b ct).

Lemma dot_loop (a s : list Z) (n : nat) : length a = n -> length s = n ->
  exists v, sum_loop q n (fun i => let! a_i := arr a i in let! s_i := arr s i in Ok (a_i * s_i)) 0
    = Ok v /\ phi v = dot a s /\ ranged v.
Proof.
  intros Ha Hs.
  destruct (sum_loop_spec n (fun i => let! a_i := arr a i in let! s_i := arr s i in Ok (a_i * s_i))
              (fun i => nth i a 0 * nth i s 0) 0) as (v & E & Hv & Hr).
  - intros i Hi. rewrite (arr_nth a i 0), (arr_nth s i 0) by lia. reflexivity.
  - exists v. split; [exact E|]. split.
    + rewrite Hv. unfold dot. rewrite Hs. change (phi 0) with (f0 (Field := fhe_field)).
      rewrite (fsum_ext n _ (fun i => fmul (phi (nth i a 0)) (phi (nth i s 0))))
        by (intros; now rewrite Zmod.of_Z_mul).
      ring.
    + apply Hr. right. unfold ranged. pose proof q_pos. lia.
Qed.

Lemma decrypt_spec (s : list Z) (ct : FHECiphertext) : length (ct_a ct) = length s ->
  exists v, fheDecrypt ct (mkPriv s) q = Ok v /\ ranged v /\ phi v = dec s ct.
Proof.
  intros Hl. unfold fheDecrypt. cbn [sk_s]. rewrite Hl, Nat.eqb_refl. cbn [negb].
  destruct (dot_loop (ct_a ct) s (length s) Hl eq_refl) as (v & -> & Hv & _). cbn [res_bind].
  eexists. split; [reflexivity|]. split; [apply modQ_range, q_pos|].
  rewrite phi_modQ, Zmod.of_Z_sub, Hv. reflexivity.
Qed.

(** ** Keys and encryption *)

(** A key pair with private vector of [n] components and [m] public rows. *)
Definition key_ok (n m : nat) (kp : FHEKeypair) : Prop :=
  let s := sk_s (privateKey kp) in
  let a := pk_a (publicKey kp) in
  length s = n /\ length a = m /\ length (pk_b (publicKey kp)) = m
  /\ forall i, (i < m)%nat -> length (nth i a []) = n
       /\ phi (nth i (pk_b (publicKey kp)) 0) = dot (nth i a []) s.

Lemma res_mapM_exists {A B : Type} (P : A -> B -> Prop) (f : A -> res B) (l : list A) (da : A) (db : B) :
  (forall x, In x l -> exists y, f x = Ok y /\ P x y) ->
  exists l', res_mapM f l = Ok l' /\ length l' = length l
    /\ forall i, (i < length l)%nat -> P (nth i l da) (nth i l' db).
Proof.
  induction l as [|x l IH]; intros H.
  - exists []. repeat split. simpl. lia.
  - destruct (H x (or_introl eq_refl)) as (y & Ey & Py).
    destruct IH as (l' & El & Hl & Hp); [intros z Hz; apply H; now right|].
    exists (y :: l'). cbn [res_mapM]. rewrite Ey. cbn [res_bind]. rewrite El.
    split; [reflexivity|]. split; [simpl; congruence|].
    intros [|i] Hi; [assumption|]. simpl in *. apply Hp. lia.
Qed.

Lemma keygen_spec (rand : nat -> list Z) (n m : nat) :
  exists kp, fheKeyGen rand n m q = Ok kp /\ key_ok n m kp.
Proof.
  unfold fheKeyGen. set (s := map (fun i => randomFieldElement (rand i) q) (seq 0 n)).
  set (a := map (fun i => keygen_row rand n i q) (seq 0 m)).
  assert (Hs : length s = n) by (unfold s; now rewrite length_map, length_seq).
  assert (Ha : length a = m) by (unfold a; now rewrite length_map, length_seq).
  destruct (res_mapM_exists (fun row v => length row = n /\ phi v = dot row s)
    (fun row => sum_loop q n (fun j => let! a_ij := arr row j in let! s_j := arr s j in
                                       Ok (a_ij * s_j)) 0) a [] 0) as (b & -> & Hb & Hp).
  - intros row Hrow. apply in_map_iff in Hrow as (i & <- & _).
    assert (Hr : length (keygen_row rand n i q) = n)
      by (unfold keygen_row; now rewrite length_map, length_seq).
    destruct (dot_loop _ s n Hr Hs) as (v & E & Hv & _). eauto.
  - eexists. split; [reflexivity|]. unfold key_ok. cbn. rewrite Ha in *.
    repeat split; try congruence; apply Hp; assumption.
Qed.

(** The choice of [r] does not matter: every combination of the public rows
    cancels in the decryption. *)
Lemma encrypt_cancels (n m : nat) (kp : FHEKeypair) (r a : list Z) (b : Z) (v : Zmod q) :
  key_ok n m kp -> length a = n ->
  (forall j, (j < n)%nat -> phi (nth j a 0)
     = fsum m (fun i => fmul (phi (nth j (nth i (pk_a (publicKey kp)) []) 0)) (phi (nth i r 0)))) ->
  phi b = fadd v (fsum m (fun i => fmul (phi (nth i (pk_b (publicKey kp)) 0)) (phi (nth i r 0)))) ->
  dec (sk_s (privateKey kp)) (mkCt a b) = v.
Proof.
  intros (Hs & Ha & Hb & Hk) Hl Hcol Hbv. unfold dec. cbn [ct_a ct_b]. rewrite Hbv.
  set (s := sk_s (privateKey kp)) in *. unfold dot. rewrite Hs.
  set (A := fun i j => phi (nth j (nth i (pk_a (publicKey kp)) []) 0)).
  rewrite (fsum_ext m _ (fun i => fsum n (fun j =>
             fmul (phi (nth i r 0)) (fmul (A i j) (phi (nth j s 0)))))).
  2:{ intros i Hi. destruct (Hk i Hi) as [_ ->]. unfold dot. rewrite Hs, fsum_scale.
      unfold A. set (x := fsum _ _). ring. }
  rewrite (fsum_ext n (fun i => fmul (phi (nth i a 0)) _) (fun j => fsum m (fun i =>
             fmul (phi (nth i r 0)) (fmul (A i j) (phi (nth j s 0)))))).
  2:{ intros j Hj. rewrite Hcol by assumption. fold (A).
      rewrite (fsum_ext m (fun i => fmul (phi (nth i r 0)) _)
                (fun i => fmul (phi (nth j s 0)) (fmul (A i j) (phi (nth i r 0)))))
        by (intros; ring).
      rewrite fsum_scale. unfold A. set (x := fsum _ _). ring. }
  rewrite fsum_swap. set (x := fsum _ _). ring.
Qed.

Lemma encrypt_spec (rand : nat -> list Z) (p : Plaintext) (v : Z) (n m : nat) (kp : FHEKeypair) :
  key_ok n m kp -> (1 <= m)%nat -> secretToBigInt p = Ok v ->
  exists ct, fheEncrypt rand p (publicKey kp) q = Ok ct /\ wf_ct n ct
    /\ dec (sk_s (privateKey kp)) ct = phi v.
Proof.
  intros Hk Hm Hp. pose proof Hk as (Hs & Ha & Hb & Hrows). unfold fheEncrypt.
  rewrite Hp. cbn [res_bind]. rewrite Ha.
  rewrite (arr_nth (pk_a (publicKey kp)) 0 []) by lia. cbn [res_bind].
  rewrite (proj1 (Hrows 0%nat ltac:(lia))).
  set (r := map (fun i => Z.rem (randomFieldElement (rand i) q) 7 + 1) (seq 0 m)).
  assert (Hr : length r = m) by (unfold r; now rewrite length_map, length_seq).
  destruct (res_mapM_exists (fun j x => ranged x /\ phi x = fsum m (fun i =>
      fmul (phi (nth j (nth i (pk_a (publicKey kp)) []) 0)) (phi (nth i r 0))))
      (fun j => column_sum (publicKey kp) r m j q) (seq 0 n) 0%nat 0) as (a & -> & Hla & Hcol).
  { intros j Hj. apply in_seq in Hj. unfold column_sum.
    match goal with |- exists y, sum_loop q m ?t 0 = _ /\ _ =>
      destruct (sum_loop_spec m t
        (fun i => nth j (nth i (pk_a (publicKey kp)) []) 0 * nth i r 0) 0) as (x & E & Hx & Hrg) end.
    - intros i Hi. rewrite (arr_nth _ i []) by lia. cbn [res_bind].
      rewrite (arr_nth _ j 0) by (rewrite (proj1 (Hrows i Hi)); lia). cbn [res_bind].
      now rewrite (arr_nth r i 0) by lia.
    - exists x. split; [exact E|]. split; [apply Hrg; left; lia|]. rewrite Hx.
      change (phi 0) with (f0 (Field := fhe_field)).
      rewrite (fsum_ext m _ (fun i => fmul (phi (nth j (nth i (pk_a (publicKey kp)) []) 0))
                 (phi (nth i r 0)))) by (intros; now rewrite Zmod.of_Z_mul).
      ring. }
  cbn [res_bind]. rewrite length_seq in Hla, Hcol.
  match goal with |- exists y, res_bind (sum_loop q m ?t v) _ = _ /\ _ =>
    destruct (sum_loop_spec m t (fun i => nth i (pk_b (publicKey kp)) 0 * nth i r 0) v)
      as (b & -> & Hbv & Hrg) end.
  { intros i Hi. rewrite (arr_nth _ i 0), (arr_nth r i 0) by lia. reflexivity. }
  cbn [res_bind]. eexists. split; [reflexivity|]. split.
  - split; [exact Hla|]. split; [|apply Hrg; left; lia].
    apply Forall_nth. intros j d Hj. rewrite (nth_indep _ d 0) by assumption.
    specialize (Hcol j ltac:(cbn in Hj; lia)). apply Hcol.
  - apply (encrypt_cancels n m kp r); auto.
    + intros j Hj. specialize (Hcol j Hj). rewrite seq_nth in Hcol by assumption. apply Hcol.
    + rewrite Hbv. f_equal. apply fsum_ext. intros. apply Zmod.of_Z_mul.
Qed.

(** ** Homomorphic operations *)

Lemma map_ranged (f : Z -> Z) (l : list Z) : Forall ranged (map (fun x => modQ (f x) q) l).
Proof. apply Forall_map, Forall_forall. intros x _. apply modQ_range, q_pos. Qed.

Lemma add_spec (s : list Z) (ct1 ct2 : FHECiphertext) :
  wf_ct (length s) ct1 -> wf_ct (length s) ct2 ->
  exists ct, fheAdd ct1 ct2 q = Ok ct /\ wf_ct (length s) ct
    /\ dec s ct = fadd (dec s ct1) (dec s ct2).
Proof.
  intros (Hl1 & _ & _) (Hl2 & _ & _). unfold fheAdd. rewrite Hl1, Hl2, Nat.eqb_refl. cbn [negb].
  set (l := map _ (combine (ct_a ct1) (ct_a ct2))).
  assert (Hl : length l = length s) by (unfold l; rewrite length_map, length_combine; lia).
  assert (Hnth : forall i, (i < length s)%nat ->
            nth i l 0 = modQ (nth i (ct_a ct1) 0 + nth i (ct_a ct2) 0) q).
  { intros i Hi. unfold l. set (f := fun '(x, y) => modQ (x + y) q).
    rewrite (nth_indep _ 0 (f (0, 0))) by (rewrite length_map, length_combine; lia).
    rewrite map_nth, combine_nth by congruence. reflexivity. }
  eexists. split; [reflexivity|]. split.
  - split; [assumption|]. split; [|apply modQ_range, q_pos].
    apply Forall_nth. intros i d Hi. cbn [ct_a] in *. rewrite (nth_indep _ d 0) by assumption.
    rewrite Hnth by lia. apply modQ_range, q_pos.
  - unfold dec. cbn [ct_a ct_b]. rewrite phi_modQ, Zmod.of_Z_add. unfold dot.
    rewrite (fsum_ext _ _ (fun i => fadd (fmul (phi (nth i (ct_a ct1) 0)) (phi (nth i s 0)))
               (fmul (phi (nth i (ct_a ct2) 0)) (phi (nth i s 0))))).
    + rewrite fsum_add. set (x := fsum _ _). set (y := fsum _ _).
      change (Zmod.add (phi (ct_b ct1)) (phi (ct_b ct2)))
        with (fadd (phi (ct_b ct1)) (phi (ct_b ct2))). ring.
    + intros i Hi. rewrite Hnth, phi_modQ, Zmod.of_Z_add by assumption.
      change (Zmod.add (phi (nth i (ct_a ct1) 0)) (phi (nth i (ct_a ct2) 0)))
        with (fadd (phi (nth i (ct_a ct1) 0)) (phi (nth i (ct_a ct2) 0))). ring.
Qed.

Lemma scalar_spec (s : list Z) (c : Z) (ct : FHECiphertext) : wf_ct (length s) ct ->
  wf_ct (length s) (fheScalarMul c ct q) /\ dec s (fheScalarMul c ct q) = fmul (phi c) (dec s ct).
Proof.
  intros (Hl & _ & _). unfold fheScalarMul. split.
  - split; [cbn; now rewrite length_map|]. split; [apply map_ranged|apply modQ_range, q_pos].
  - unfold dec, dot. cbn [ct_a ct_b]. rewrite phi_modQ, Zmod.of_Z_mul, phi_modQ.
    rewrite (fsum_ext _ _ (fun i => fmul (phi c) (fmul (phi (nth i (ct_a ct) 0)) (phi (nth i s 0))))).
    + rewrite fsum_scale. set (x := fsum _ _).
      change (Zmod.mul (phi (ct_b ct)) (phi c)) with (fmul (phi (ct_b ct)) (phi c)). ring.
    + intros i Hi. set (f := fun x => modQ (x * modQ c q) q).
      rewrite (nth_indep (map f (ct_a ct)) 0 (f 0)), map_nth by (rewrite length_map; lia). unfold f.
      rewrite phi_modQ, Zmod.of_Z_mul, phi_modQ.
      change (Zmod.mul (phi (nth i (ct_a ct) 0)) (phi c)) with (fmul (phi (nth i (ct_a ct) 0)) (phi c)).
      ring.
Qed.

(** ** Interpolation *)

Lemma modInverseQ_spec (a : Z) : a mod q <> 0 ->
  exists v, modInverseQ a q = Ok v /\ phi v = finv (phi a).
Proof.
  intros Ha. pose proof (prime_gt_1 q Hq). unfold modInverseQ, modPowQ.
  rewrite modQ_mod by lia. destruct (Z.eqb_spec (a mod q) 0); [contradiction|].
  eexists. split; [reflexivity|].
  rewrite (pow_loop_pow _ q) by (try lia; intros; rewrite ?modQ_mod by lia; try reflexivity;
    apply Z.mod_pos_bound; lia).
  rewrite modQ_mod by lia. rewrite Z.mod_mod, Z.mod_pow_l by lia. now apply phi_fermat_inv.
Qed.

Lemma lagrange_spec (indices : list Z) : NoDup (map phi indices) ->
  exists ls, computeLagrangeCoefficients indices q = Ok ls /\ length ls = length indices
    /\ forall i, (i < length indices)%nat -> phi (nth i ls 0) = lagrange0 (map phi indices) i.
Proof.
  intros Hnd. unfold computeLagrangeCoefficients.
  set (points := map (fun x => modQ x q) indices).
  assert (Hl : length points = length indices) by apply length_map.
  assert (Hphi : map phi points = map phi indices).
  { unfold points. rewrite map_map. apply map_ext. intros x. apply phi_modQ. }
  destruct (res_mapM_exists (fun i v => phi v = lagrange0 (map phi indices) i)
    (fun i => let '(num, den) := weight_loop (fun x => modQ x q) points i in
              let! denInv := modInverseQ den q in Ok (modQ (num * denInv) q))
    (seq 0 (length points)) 0%nat 0) as (ls & E & Hlen & Hp).
  - intros i Hi. apply in_seq in Hi. rewrite <- Hphi in *.
    pose proof (weight_loop_spec q (fun x => modQ x q) Hq (fun x => modQ_mod x q q_pos) points i
                  Hnd ltac:(lia)) as Hw.
    destruct (weight_loop _ points i) as [num den]. destruct Hw as [Hden Hw].
    destruct (modInverseQ_spec den Hden) as (v & -> & Hv). cbn [res_bind].
    eexists. split; [reflexivity|]. rewrite phi_modQ, Zmod.of_Z_mul, Hv. exact Hw.
  - rewrite length_seq in Hlen, Hp. exists ls. split; [exact E|]. split; [congruence|].
    intros i Hi. specialize (Hp i ltac:(lia)). now rewrite seq_nth in Hp by lia.
Qed.

(** The first [threshold] shares are combined with their weights. *)
Lemma aggregate_spec (s : list Z) (shares : list FHEThresholdShare) (threshold : nat) :
  (1 <= threshold <= length shares)%nat ->
  NoDup (map (fun sh => phi (fs_index sh)) shares) ->
  Forall (fun sh => wf_ct (length s) (fs_ct sh)) shares ->
  let active := firstn threshold shares in
  exists ct, fheThresholdAggregate shares threshold q = Ok ct /\ wf_ct (length s) ct
    /\ dec s ct = fsum threshold (fun i =>
         fmul (nth i (map (fun sh => dec s (fs_ct sh)) active) f0)
              (lagrange0 (map (fun sh => phi (fs_index sh)) active) i)).
Proof.
  intros Hk Hnd Hwf active. unfold fheThresholdAggregate.
  rewrite (proj2 (Nat.ltb_ge _ _)) by lia. fold active.
  assert (Hl : length active = threshold) by (unfold active; rewrite length_firstn; lia).
  assert (Hndk : NoDup (map (fun sh => phi (fs_index sh)) active)).
  { unfold active. rewrite <- (firstn_skipn threshold shares), map_app in Hnd.
    now apply NoDup_app_remove_r in Hnd. }
  assert (Hwfk : forall i, (i < threshold)%nat ->
             wf_ct (length s) (fs_ct (nth i active (mkFShare 0 (mkCt [] 0))))).
  { intros i Hi. rewrite Forall_forall in Hwf. apply Hwf.
    rewrite <- (firstn_skipn threshold shares). apply in_or_app. left. apply (nth_In active). lia. }
  set (term := fun i => fmul (nth i (map (fun sh => dec s (fs_ct sh)) active) f0)
                 (lagrange0 (map (fun sh => phi (fs_index sh)) active) i)).
  rewrite <- (map_map fs_index phi) in Hndk.
  destruct (lagrange_spec (map fs_index active) Hndk) as (ls & -> & Hls & Hlag). cbn [res_bind].
  rewrite length_map, Hl in Hls, Hlag. rewrite map_map in Hlag.
  assert (Hterm : forall i, (i < threshold)%nat ->
    wf_ct (length s) (fheScalarMul (nth i ls 0) (fs_ct (nth i active (mkFShare 0 (mkCt [] 0)))) q)
    /\ dec s (fheScalarMul (nth i ls 0) (fs_ct (nth i active (mkFShare 0 (mkCt [] 0)))) q) = term i).
  { intros i Hi. destruct (scalar_spec s (nth i ls 0) _ (Hwfk i Hi)) as [H1 H2].
    split; [assumption|]. rewrite H2, Hlag by assumption. unfold term.
    rewrite (nth_indep _ f0 (dec s (fs_ct (mkFShare 0 (mkCt [] 0)))))
      by (rewrite length_map; lia).
    rewrite (map_nth (fun sh => dec s (fs_ct sh))). ring. }
  rewrite (arr_nth ls 0 0), (arr_nth active 0 (mkFShare 0 (mkCt [] 0))) by lia. cbn [res_bind].
  destruct (Hterm 0%nat ltac:(lia)) as [Hw0 Hd0].
  set (acc0 := fheScalarMul _ _ q) in *. rewrite Hl.
  assert (Hloop : forall m k acc, (k + m = threshold)%nat -> (1 <= k)%nat ->
    wf_ct (length s) acc -> dec s acc = fsum k term ->
    exists ct, res_foldl (fun acc i => let! lambda := arr ls i in let! share := arr active i in
                 fheAdd acc (fheScalarMul lambda (fs_ct share) q) q) (seq k m) acc = Ok ct
      /\ wf_ct (length s) ct /\ dec s ct = fsum threshold term).
  { induction m as [|m IH]; intros k acc Hkm Hk1 Hwa Hda; cbn [seq res_foldl].
    - exists acc. rewrite Nat.add_0_r in Hkm. subst k. auto.
    - rewrite (arr_nth ls k 0), (arr_nth active k (mkFShare 0 (mkCt [] 0))) by lia. cbn [res_bind].
      destruct (Hterm k ltac:(lia)) as [Hwt Hdt].
      destruct (add_spec s acc _ Hwa Hwt) as (acc' & -> & Hwa' & Hda'). cbn [res_bind].
      apply IH; [lia|lia|assumption|]. cbn [fsum]. now rewrite Hda', Hdt, Hda. }
  apply Hloop; [lia|lia|assumption|]. cbn [fsum]. rewrite Hd0. ring.
Qed.

Lemma aggregate_interpolates (s : list Z) (shares : list FHEThresholdShare) (threshold : nat)
    (poly : list (Zmod q)) :
  (1 <= threshold <= length shares)%nat -> (length poly <= threshold)%nat ->
  NoDup (map (fun sh => phi (fs_index sh)) shares) ->
  Forall (fun sh => wf_ct (length s) (fs_ct sh)
                    /\ dec s (fs_ct sh) = peval poly (phi (fs_index sh))) shares ->
  exists ct, fheThresholdAggregate shares threshold q = Ok ct /\ wf_ct (length s) ct
    /\ dec s ct = peval poly f0.
Proof.
  intros Hk Hp Hnd Hall.
  destruct (aggregate_spec s shares threshold Hk Hnd) as (ct & E & Hwf & Hd).
  { eapply Forall_impl; [|exact Hall]. now intros sh []. }
  exists ct. split; [exact E|]. split; [assumption|]. rewrite Hd.
  set (active := firstn threshold shares) in *.
  assert (Hl : length active = threshold) by (unfold active; rewrite length_firstn; lia).
  set (xs := map (fun sh => phi (fs_index sh)) active).
  assert (Hlx : length xs = threshold) by (unfold xs; now rewrite length_map).
  assert (Hin : forall sh, In sh active -> In sh shares).
  { intros sh H. rewrite <- (firstn_skipn threshold shares). apply in_or_app. now left. }
  assert (Hev : map (fun sh => dec s (fs_ct sh)) active = map (peval poly) xs).
  { unfold xs. rewrite map_map. apply map_ext_in. intros sh Hsh.
    rewrite Forall_forall in Hall. apply Hall, Hin, Hsh. }
  rewrite Hev. rewrite <- (lagrange_interpolation_le poly xs).
  - rewrite Hlx. apply fsum_ext. intros i Hi. f_equal.
    rewrite (nth_indep _ f0 (peval poly f0)) by (rewrite length_map; lia). apply map_nth.
  - unfold xs, active. rewrite <- (firstn_skipn threshold shares), map_app in Hnd.
    now apply NoDup_app_remove_r in Hnd.
  - lia.
Qed.

Lemma sum_aggregate_spec (s : list Z) (cts : list FHECiphertext) :
  cts <> [] -> Forall (wf_ct (length s)) cts ->
  exists ct, fheAdditiveAggregate cts q = Ok ct /\ wf_ct (length s) ct
    /\ dec s ct = lsum (dec s) cts.
Proof.
  intros Hne Hwf. destruct Hwf as [|ct0 cts Hw0 Hwf]; [contradiction|]. cbn [fheAdditiveAggregate lsum].
  clear Hne. revert ct0 Hw0. induction Hwf as [|ct1 cts Hw1 _ IH]; intros ct0 Hw0.
  - exists ct0. repeat split; try apply Hw0. cbn [lsum fold_right].
    set (x := dec s ct0). change (x = fadd x f0). ring.
  - cbn [res_foldl lsum]. destruct (add_spec s ct0 ct1 Hw0 Hw1) as (ct & -> & Hw & Hd).
    cbn [res_bind]. destruct (IH ct Hw) as (ct' & E & Hw' & Hd'). exists ct'. split; [exact E|].
    split; [assumption|]. rewrite Hd'. change (lsum (dec s) (ct :: cts)) with (fadd (dec s ct) (lsum (dec s) cts)).
    rewrite Hd. change (lsum (dec s) (ct0 :: ct1 :: cts))
      with (fadd (dec s ct0) (fadd (dec s ct1) (lsum (dec s) cts))). ring.
Qed.
End Field.
