(* ===== verification/FheService.v ===== *)
(** * FheService: payloads and end-to-end sharing of fhe.service.ts

    A serialized ciphertext is read back as it was written, so the hexadecimal
    payloads carry the guarantees of Fhe.v: the aggregate of enough
    encrypted shares decrypts to the secret that was shared. *)

From Stdlib Require Import Ascii String ZArith Zmod List Lia Bool Field.
Import ListNotations.
From S2P Require Import Prelude Bytes JsString Algebra Primes Modular Fhe.

Open Scope list_scope.
Open Scope Z_scope.

(** ** Words of 64 digits *)

Lemma repeat_char_shift (k : nat) (c : ascii) (s : string) :
  (repeat_char k c ++ String c s = String c (repeat_char k c ++ s))%string.
Proof. induction k as [|k IH]; simpl; [reflexivity|]. now rewrite IH. Qed.

Lemma pad_loop_spec (f : nat) (s : string) :
  (64 <= String.length s + f)%nat -> pad_loop f s = padStart 64 "0" s.
Proof.
  revert s. induction f as [|f IH]; intros s Hf; cbn [pad_loop].
  - unfold padStart. now replace (64 - String.length s)%nat with 0%nat by lia.
  - destruct (Nat.ltb_spec (String.length s) 64) as [Hlt|Hge].
    + rewrite IH by (cbn [String.length]; lia). unfold padStart.
      change (String.length (String "0" s)) with (S (String.length s)).
      rewrite repeat_char_shift.
      now replace (64 - String.length s)%nat with (S (64 - S (String.length s))) by lia.
    + unfold padStart. now replace (64 - String.length s)%nat with 0%nat by lia.
Qed.

Abbreviation in_field v := (0 <= v < FHE_PRIME).

Lemma FHE_PRIME_pos : 1 < FHE_PRIME.
Proof. reflexivity. Qed.

Lemma FHE_PRIME_word : FHE_PRIME < 16 ^ Z.of_nat 64.
Proof. reflexivity. Qed.

Lemma modQ_id (v : Z) : in_field v -> modQ v FHE_PRIME = v.
Proof. intros Hv. rewrite modQ_mod by lia. now apply Z.mod_small. Qed.

Lemma hex32 (v : Z) : in_field v -> bigIntToHex32 v = padStart 64 "0" (to_hex v).
Proof. intros Hv. unfold bigIntToHex32. rewrite modQ_id by assumption. apply pad_loop_spec. lia. Qed.

Lemma hex32_length (v : Z) : in_field v -> String.length (bigIntToHex32 v) = 64%nat.
Proof.
  intros Hv. rewrite hex32, padStart_length by assumption. pose proof FHE_PRIME_word.
  pose proof (to_base_length 16 ltac:(lia) 64 v ltac:(lia) ltac:(lia)). unfold to_hex. lia.
Qed.

Lemma hex32_parse (v : Z) : in_field v -> BigInt_hex (bigIntToHex32 v) = Ok v.
Proof. intros Hv. rewrite hex32 by assumption. apply BigInt_hex_pad. lia. Qed.

(** ** Serialization *)

Lemma slice_at (a b c : string) (i k : nat) : String.length a = i -> String.length b = k ->
  slice i (i + k) (a ++ (b ++ c)) = b.
Proof.
  intros <- <-. unfold slice. rewrite slice_from_app.
  replace (String.length a + String.length b - String.length a)%nat with (String.length b) by lia.
  apply take_app.
Qed.

Lemma fold_concat (l : list Z) (h : string) :
  fold_left (fun hex a => (hex ++ bigIntToHex32 a)%string) l h
  = (h ++ concat_all (map bigIntToHex32 l))%string.
Proof.
  revert h. induction l as [|a l IH]; intros h; simpl; [now rewrite str_app_nil_r|].
  now rewrite IH, str_app_assoc.
Qed.

Lemma read_words_spec (l : list Z) (f : nat) (i : Z) (pre post : string) (acc : list Z) :
  Forall (fun v => in_field v) l -> (length l <= f)%nat ->
  read_words f i (i + Z.of_nat (length l)) (pre ++ (concat_all (map bigIntToHex32 l) ++ post))
    (String.length pre) acc
  = Ok (acc ++ l, (String.length pre + 64 * length l)%nat).
Proof.
  intros Hl. revert f i pre acc. induction Hl as [|v l Hv _ IH]; intros f i pre acc Hf.
  - destruct f; cbn [read_words length]; rewrite Z.add_0_r, Z.ltb_irrefl, app_nil_r, Nat.add_0_r;
      reflexivity.
  - destruct f as [|f]; [simpl in Hf; lia|]. cbn [read_words].
    rewrite (proj2 (Z.ltb_lt _ _)) by (simpl; lia). cbn [map concat_all].
    rewrite str_app_assoc, slice_at, hex32_parse by auto using hex32_length.
    cbn [res_bind].
    replace (i + Z.of_nat (length (v :: l))) with ((i + 1) + Z.of_nat (length l)) by (simpl; lia).
    rewrite <- str_app_assoc.
    replace (String.length pre + 64)%nat with (String.length (pre ++ bigIntToHex32 v))
      by now rewrite str_length_app, hex32_length.
    rewrite IH by (simpl in Hf; lia). rewrite str_length_app, hex32_length, <- app_assoc by assumption.
    do 2 f_equal. simpl. lia.
Qed.

Definition payload_ct (ct : FHECiphertext) : Prop :=
  exists n, (1 <= n)%nat /\ Z.of_nat n < FHE_PRIME /\ wf_ct FHE_PRIME n ct.

Lemma words_length (l : list Z) : Forall (fun v => in_field v) l ->
  String.length (concat_all (map bigIntToHex32 l)) = (64 * length l)%nat.
Proof.
  induction 1 as [|v l Hv _ IH]; [reflexivity|]. cbn [map concat_all].
  rewrite str_length_app, IH, hex32_length by assumption. simpl. lia.
Qed.

Lemma serialize_eq (ct : FHECiphertext) :
  serializeFheCiphertext ct = ("0x" ++ (bigIntToHex32 (Z.of_nat (length (ct_a ct)))
    ++ (concat_all (map bigIntToHex32 (ct_a ct)) ++ bigIntToHex32 (ct_b ct))))%string.
Proof.
  unfold serializeFheCiphertext. rewrite fold_concat, !str_app_assoc. reflexivity.
Qed.

(** the payload of a ciphertext with at least one component, all in
    [0, q), is read back to the ciphertext. *)
Theorem fhe_serialize_roundtrip (ct : FHECiphertext) (Hct : payload_ct ct) :
  deserializeFheCiphertext (serializeFheCiphertext ct) = Ok ct.
Proof.
  destruct Hct as (n & Hn1 & Hn & Hl & Ha & Hb). rewrite serialize_eq, Hl.
  unfold deserializeFheCiphertext.
  rewrite startsWith_app. cbv zeta.
  rewrite !(slice_from_app "0x" : forall x, slice_from 2 ("0x" ++ x) = x).
  assert (Hnf : in_field (Z.of_nat n)) by lia.
  pose proof (words_length (ct_a ct) Ha) as Hw. rewrite Hl in Hw.
  set (body := (concat_all (map bigIntToHex32 (ct_a ct)) ++ bigIntToHex32 (ct_b ct))%string).
  assert (Hlen : String.length (bigIntToHex32 (Z.of_nat n) ++ body) = (64 * n + 128)%nat).
  { unfold body. rewrite !str_length_app, Hw, !hex32_length by assumption. lia. }
  rewrite Hlen, (proj2 (Nat.ltb_ge _ _)) by lia.
  pose proof (slice_at "" (bigIntToHex32 (Z.of_nat n)) body 0 64 eq_refl (hex32_length _ Hnf)) as Hs.
  cbn [append Nat.add] in Hs.
  rewrite Hs, hex32_parse by assumption. cbn [res_bind]. unfold body.
  pose proof (read_words_spec (ct_a ct) (64 * n + 128) 0 (bigIntToHex32 (Z.of_nat n))
                (bigIntToHex32 (ct_b ct)) [] Ha ltac:(lia)) as Hr.
  rewrite hex32_length, Hl, Z.add_0_l in Hr by assumption. rewrite Hr. cbn [res_bind app].
  rewrite <- str_app_assoc, <- (str_app_nil_r (bigIntToHex32 (ct_b ct))) at 1.
  rewrite slice_at by (rewrite ?str_length_app, ?Hw, ?hex32_length by assumption; lia).
  rewrite hex32_parse by assumption. destruct ct. reflexivity.
Qed.

Lemma fhe_serialize_roundtrip_witness :
  deserializeFheCiphertext (serializeFheCiphertext (mkCt [5; 7] 9)) = Ok (mkCt [5; 7] 9).
Proof.
  apply fhe_serialize_roundtrip. exists 2%nat. unfold wf_ct, ranged. cbn.
  repeat split; try lia; try reflexivity. repeat constructor; try lia; reflexivity.
Defined.

(** ** Sharing under encryption *)

Local Abbreviation phi := (Zmod.of_Z FHE_PRIME).
#[export] Instance engine_field : Field (Zmod FHE_PRIME) := fhe_field FHE_PRIME FHE_prime.
Add Field F_field_engine : (@f_theory (Zmod FHE_PRIME) engine_field).

Lemma secret_ranged (p : Plaintext) (v : Z) : secretToBigInt p = Ok v -> in_field v.
Proof.
  pose proof FHE_PRIME_pos.
  destruct p as [x|s|l]; cbn [secretToBigInt]; [|intros H'; apply res_bind_ok in H' as (x & _ & H')|];
    [intros H'| |intros H']; injection H' as <-; apply modQ_range; lia.
Qed.

(** A payload made of a ciphertext of [v] under the key. *)
Definition payload_of (kp : FHEKeypair) (v : Zmod FHE_PRIME) (payload : string) : Prop :=
  exists ct, payload = serializeFheCiphertext ct
    /\ wf_ct FHE_PRIME (length (sk_s (privateKey kp))) ct
    /\ dec FHE_PRIME FHE_prime (sk_s (privateKey kp)) ct = v.

Section Keys.
Variables (dim m : nat) (kp : FHEKeypair).
Hypothesis Hdim : (1 <= dim)%nat.
Hypothesis Hdim_bound : Z.of_nat dim < FHE_PRIME.
Hypothesis Hm : (1 <= m)%nat.
Hypothesis Hkp : key_ok FHE_PRIME FHE_prime dim m kp.

Lemma key_dim : length (sk_s (privateKey kp)) = dim.
Proof. apply Hkp. Qed.

Lemma payload_reads (ct : FHECiphertext) : wf_ct FHE_PRIME (length (sk_s (privateKey kp))) ct ->
  deserializeFheCiphertext (serializeFheCiphertext ct) = Ok ct.
Proof.
  intros Hwf. rewrite key_dim in Hwf. apply fhe_serialize_roundtrip. exists dim. auto.
Qed.

Lemma encrypt_share_spec (rand : nat -> ShareRandom) (i : nat) (v : Z) : in_field v ->
  exists payload, encrypt_share rand (publicKey kp) i v = Ok payload /\ payload_of kp (phi v) payload.
Proof.
  intros Hv. unfold encrypt_share.
  destruct (encrypt_spec FHE_PRIME FHE_prime (enc_bytes (rand i)) (PBigInt v) v dim m kp Hkp Hm)
    as (ct & -> & Hwf & Hd).
  - cbn [secretToBigInt]. now rewrite modQ_id.
  - cbn [res_bind]. eexists. split; [reflexivity|]. exists ct. rewrite key_dim. auto.
Qed.

Lemma payload_decrypts (v : Z) (payload : string) : in_field v -> payload_of kp (phi v) payload ->
  decryptAggregateCiphertext payload (privateKey kp) = Ok (bigIntToHex32 v).
Proof.
  intros Hv (ct & -> & Hwf & Hd). unfold decryptAggregateCiphertext.
  rewrite payload_reads by assumption. cbn [res_bind]. unfold fheDecryptToHex.
  destruct (privateKey kp) as [s] eqn:Es. cbn [sk_s] in *.
  destruct (decrypt_spec FHE_PRIME FHE_prime s ct (proj1 Hwf)) as (w & -> & Hw & Hphi).
  cbn [res_bind]. do 2 f_equal. apply (phi_inj FHE_PRIME); [exact Hw|exact Hv|]. congruence.
Qed.

Lemma aggregate_payloads (sub : list (Z * string)) (k : nat) (poly : list (Zmod FHE_PRIME)) :
  (1 <= k <= length sub)%nat -> (length poly <= k)%nat ->
  NoDup (map (fun e => phi (fst e)) sub) ->
  Forall (fun e => payload_of kp (peval poly (phi (fst e))) (snd e)) sub ->
  exists payload, aggregateThresholdShares sub k = Ok payload
    /\ payload_of kp (peval poly f0) payload.
Proof.
  intros Hk Hp Hnd Hall. unfold aggregateThresholdShares.
  set (s := sk_s (privateKey kp)).
  assert (Hread : exists l, res_mapM (fun '(index, ciphertextHex) =>
      let! ct := deserializeFheCiphertext ciphertextHex in Ok (mkFShare index ct)) sub = Ok l
    /\ map fs_index l = map fst sub
    /\ Forall (fun sh => wf_ct FHE_PRIME (length s) (fs_ct sh)
               /\ dec FHE_PRIME FHE_prime s (fs_ct sh) = peval poly (phi (fs_index sh))) l).
  { clear Hk Hnd. induction Hall as [|[i h] sub (ct & Eh & Hwf & Hd) _ IH]; [now exists []|].
    destruct IH as (l & El & Hi & Hl). cbn [fst snd] in *. subst h. cbn [res_mapM].
    rewrite payload_reads by assumption. cbn [res_bind]. rewrite El. cbn [res_bind].
    exists (mkFShare i ct :: l). split; [reflexivity|]. split; [cbn; congruence|].
    constructor; [cbn; auto|assumption]. }
  destruct Hread as (l & -> & Hi & Hl). cbn [res_bind].
  assert (Hlen : length l = length sub) by now rewrite <- (length_map fs_index), Hi, length_map.
  destruct (aggregate_interpolates FHE_PRIME FHE_prime s l k poly) as (ct & -> & Hwf & Hd);
    [lia|assumption| |assumption|].
  - rewrite <- (map_map fs_index phi), Hi, map_map. exact Hnd.
  - cbn [res_bind]. eexists. split; [reflexivity|]. exists ct. auto.
Qed.

Lemma horner_spec (coeffs : list Z) (x : Z) :
  phi (horner coeffs x) = peval (map phi coeffs) (phi x) /\ in_field (horner coeffs x).
Proof.
  unfold horner. pose proof FHE_PRIME_pos. induction coeffs as [|c coeffs [IH _]].
  - split; [reflexivity|]. cbn. lia.
  - cbn [rev map peval]. rewrite fold_left_app. cbn [fold_left]. split; [|apply modQ_range; lia].
    rewrite (phi_modQ FHE_PRIME FHE_prime), Zmod.of_Z_add, Zmod.of_Z_mul, IH.
    set (a := peval _ _). change (fadd (fmul a (phi x)) (phi c) = fadd (phi c) (fmul (phi x) a)).
    ring.
Qed.

Lemma create_threshold_spec (rand : nat -> ShareRandom) (coeff_bytes : nat -> list Z)
    (secretHex : string) (n k : nat) (secret : Z) :
  (1 <= k <= n)%nat -> secretToBigInt (PString secretHex) = Ok secret ->
  exists plain shares poly, length poly = k /\ peval poly f0 = phi secret
    /\ createThresholdSharesFHE rand coeff_bytes secretHex n k (publicKey kp) = Ok (plain, shares)
    /\ map fst shares = map Z.of_nat (seq 1 n)
    /\ Forall (fun e => payload_of kp (peval poly (phi (fst e))) (snd e)) shares.
Proof.
  intros Hk Hs. unfold createThresholdSharesFHE.
  rewrite (proj2 (Nat.ltb_ge k 1)), (proj2 (Nat.ltb_ge n k)) by lia. cbn [orb].
  rewrite Hs. cbn [res_bind].
  rewrite (res_mapM_ok_map _ (fun i => modQ (modQ (bytes_value (coeff_bytes i)) FHE_PRIME) FHE_PRIME))
    by reflexivity.
  cbn [res_bind]. set (coeffs := secret :: _).
  assert (Hlc : length coeffs = k) by (unfold coeffs; simpl; rewrite length_map, length_seq; lia).
  destruct (res_mapM_exists (fun j e => fst (snd e) = Z.of_nat j
      /\ payload_of kp (peval (map phi coeffs) (phi (Z.of_nat j))) (snd (snd e)))
    (fun j => let y := horner coeffs (Z.of_nat j) in
       let! ct := encrypt_share rand (publicKey kp) j y in Ok ((Z.of_nat j, y), (Z.of_nat j, ct)))
    (seq 1 n) 0%nat ((0, 0), (0, ""%string))) as (l & E & Hl & Hp).
  - intros j _. destruct (horner_spec coeffs (Z.of_nat j)) as [Hy Hr].
    destruct (encrypt_share_spec rand j _ Hr) as (payload & Ep & Hpay). cbv zeta. rewrite Ep.
    cbn [res_bind]. eexists. split; [reflexivity|]. split; [reflexivity|].
    rewrite <- Hy. exact Hpay.
  - cbv zeta in E |- *. rewrite E. cbn [res_bind].
    exists (map fst l), (map snd l), (map phi coeffs). rewrite length_seq in Hl, Hp.
    split; [now rewrite length_map|]. split.
    { unfold coeffs. cbn [map peval]. apply fadd_mul_0. }
    split; [reflexivity|]. split.
    + rewrite map_map. apply (nth_ext_eq 0); [now rewrite !length_map, length_seq|].
      intros i Hi. rewrite length_map in Hi.
      change 0 with (fst (snd (((0, 0), (0, ""%string)) : (Z * Z) * (Z * string)))) at 1.
      rewrite (map_nth (fun e => fst (snd e))). change 0 with (Z.of_nat 0). rewrite map_nth.
      apply Hp. lia.
    + apply Forall_map, Forall_nth. intros i d Hi.
      rewrite (nth_indep _ d ((0, 0), (0, ""%string))) by assumption.
      destruct (Hp i ltac:(lia)) as [-> Hpay]. exact Hpay.
Qed.
End Keys.

(** C16: a secret shared with [createThresholdSharesFHE] under a generated key is
    what the aggregate of any [threshold] or more of the encrypted shares, at
    distinct indices, decrypts to; and sharing, aggregation and decryption
    return. *)
Theorem fhe_threshold_end_to_end (key_rand : nat -> list Z) (rand : nat -> ShareRandom)
    (coeff_bytes : nat -> list Z) (dim m n k : nat) (secretHex : string) (secret : Z)
    (Hdim : (1 <= dim)%nat) (Hdim' : Z.of_nat dim < FHE_PRIME) (Hm : (1 <= m)%nat)
    (Hk : (1 <= k <= n)%nat) (Hn : Z.of_nat n < FHE_PRIME)
    (Hs : secretToBigInt (PString secretHex) = Ok secret) :
  exists kp plain shares,
    fheKeyGen key_rand dim m FHE_PRIME = Ok kp
    /\ createThresholdSharesFHE rand coeff_bytes secretHex n k (publicKey kp) = Ok (plain, shares)
    /\ map fst shares = map Z.of_nat (seq 1 n)
    /\ forall sub, incl sub shares -> NoDup (map fst sub) -> (k <= length sub)%nat ->
         exists payload, aggregateThresholdShares sub k = Ok payload
           /\ decryptAggregateCiphertext payload (privateKey kp) = Ok (bigIntToHex32 secret).
Proof.
  destruct (keygen_spec FHE_PRIME FHE_prime key_rand dim m) as (kp & Ek & Hkp).
  destruct (create_threshold_spec dim m kp Hdim Hm Hkp rand coeff_bytes secretHex n k secret Hk Hs)
    as (plain & shares & poly & Hl & H0 & E & Hx & Hall).
  exists kp, plain, shares. split; [exact Ek|]. split; [exact E|]. split; [exact Hx|].
  intros sub Hsub Hnd Hlen.
  destruct (aggregate_payloads dim m kp Hdim Hdim' Hm Hkp sub k poly) as (payload & Ea & Hp);
    [lia|lia| | |].
  - rewrite <- (map_map fst phi). apply NoDup_map_inj_on; [|assumption].
    assert (Hr : forall a, In a (map fst sub) -> in_field a).
    { intros a Ha. apply (incl_map fst Hsub) in Ha. rewrite Hx in Ha.
      apply in_map_iff in Ha as (j & <- & Hj). apply in_seq in Hj. lia. }
    intros a b Ha Hb. apply phi_inj; auto.
  - now apply (incl_Forall Hsub).
  - exists payload. split; [exact Ea|]. rewrite H0 in Hp.
    apply (payload_decrypts dim m kp Hdim Hdim' Hkp); [now apply secret_ranged in Hs|exact Hp].
Qed.

Lemma fhe_threshold_end_to_end_witness :
  exists kp shares payload, aggregateThresholdShares shares 2 = Ok payload
    /\ decryptAggregateCiphertext payload (privateKey kp) = Ok (bigIntToHex32 42).
Proof.
  destruct (fhe_threshold_end_to_end (fun i => [Z.of_nat i + 3]) (fun i => mkRand [1] (fun j => [2]))
    (fun _ => [7]) FHE_LWE_DIMENSION 4 3 2 "0x2a" 42) as (kp & plain & shares & _ & _ & Hx & H);
    try (unfold FHE_LWE_DIMENSION; lia); try reflexivity.
  destruct (H shares (incl_refl _)) as (payload & Ha & Hd).
  - rewrite Hx. repeat constructor; simpl; intuition lia.
  - rewrite <- (length_map fst), Hx. simpl. lia.
  - exists kp, shares, payload. auto.
Defined.

(** ** Encryption and decryption *)

Lemma fhe_decrypt_dec (s : list Z) (ct : FHECiphertext) (v : Z) :
  wf_ct FHE_PRIME (length s) ct -> dec FHE_PRIME FHE_prime s ct = phi v ->
  fheDecrypt ct (mkPriv s) FHE_PRIME = Ok (v mod FHE_PRIME).
Proof.
  intros Hwf Hd. destruct (decrypt_spec FHE_PRIME FHE_prime s ct (proj1 Hwf)) as (w & -> & Hw & Hphi).
  f_equal. pose proof FHE_PRIME_pos. apply (phi_inj FHE_PRIME); [exact Hw|apply Z.mod_pos_bound; lia|].
  rewrite phi_mod. congruence.
Qed.

(** under a generated key, decryption inverts encryption, whatever the
    randomness; the sum of two ciphertexts decrypts to the sum of the plaintexts
    and a scalar multiple to the multiple, modulo the prime. *)
Theorem fhe_homomorphic (key_rand rand1 rand2 : nat -> list Z) (dim m : nat) (p1 p2 : Plaintext)
    (v1 v2 c : Z) (Hm : (1 <= m)%nat)
    (H1 : secretToBigInt p1 = Ok v1) (H2 : secretToBigInt p2 = Ok v2) :
  exists kp ct1 ct2 sum, fheKeyGen key_rand dim m FHE_PRIME = Ok kp
    /\ fheEncrypt rand1 p1 (publicKey kp) FHE_PRIME = Ok ct1
    /\ fheEncrypt rand2 p2 (publicKey kp) FHE_PRIME = Ok ct2
    /\ fheAdd ct1 ct2 FHE_PRIME = Ok sum
    /\ fheDecrypt ct1 (privateKey kp) FHE_PRIME = Ok v1
    /\ fheDecrypt sum (privateKey kp) FHE_PRIME = Ok ((v1 + v2) mod FHE_PRIME)
    /\ fheDecrypt (fheScalarMul c ct1 FHE_PRIME) (privateKey kp) FHE_PRIME
       = Ok ((c * v1) mod FHE_PRIME).
Proof.
  destruct (keygen_spec FHE_PRIME FHE_prime key_rand dim m) as (kp & Ek & Hkp).
  destruct (encrypt_spec FHE_PRIME FHE_prime rand1 p1 v1 dim m kp Hkp Hm H1) as (ct1 & E1 & Hw1 & Hd1).
  destruct (encrypt_spec FHE_PRIME FHE_prime rand2 p2 v2 dim m kp Hkp Hm H2) as (ct2 & E2 & Hw2 & Hd2).
  destruct kp as [pub [s]]. cbn [privateKey publicKey sk_s] in *.
  assert (Hs : length s = dim) by apply Hkp. rewrite <- Hs in Hw1, Hw2.
  destruct (add_spec FHE_PRIME FHE_prime s ct1 ct2 Hw1 Hw2) as (sum & Ea & Hwa & Hda).
  destruct (scalar_spec FHE_PRIME FHE_prime s c ct1 Hw1) as [Hwc Hdc].
  exists (mkKeys pub (mkPriv s)), ct1, ct2, sum. cbn [privateKey publicKey].
  repeat (split; [assumption|]). split; [|split].
  - rewrite (fhe_decrypt_dec s ct1 v1 Hw1 Hd1). f_equal. apply Z.mod_small.
    now apply (secret_ranged p1).
  - apply fhe_decrypt_dec; [assumption|]. rewrite Hda, Hd1, Hd2, Zmod.of_Z_add. reflexivity.
  - apply fhe_decrypt_dec; [assumption|]. rewrite Hdc, Hd1, Zmod.of_Z_mul. reflexivity.
Qed.

Lemma fhe_homomorphic_witness :
  exists kp ct1 ct2 sum, fheAdd ct1 ct2 FHE_PRIME = Ok sum
    /\ fheDecrypt sum (privateKey kp) FHE_PRIME = Ok (17 mod FHE_PRIME).
Proof.
  destruct (fhe_homomorphic (fun i => [Z.of_nat i + 3]) (fun _ => [1]) (fun _ => [2])
    FHE_LWE_DIMENSION 4 (PString "0x0a") (PBytes [7]) 10 7 3 ltac:(lia) ltac:(reflexivity)
    ltac:(reflexivity)) as (kp & ct1 & ct2 & sum & _ & _ & _ & Ha & _ & Hd & _).
  exists kp, ct1, ct2, sum. exact (conj Ha Hd).
Defined.

(** ** Additive sharing *)

Definition plain_sum (l : list Z) : Zmod FHE_PRIME := lsum (fun v => phi v) l.

Lemma plain_sum_snoc (l : list Z) (v : Z) : plain_sum (l ++ [v]) = fadd (plain_sum l) (phi v).
Proof.
  unfold plain_sum. rewrite lsum_app. f_equal.
  change (fadd (phi v) f0 = phi v). ring.
Qed.

Lemma additive_loop (rand : nat -> ShareRandom) (l : list nat) (plain : list Z) (sum : Z) :
  Forall (fun v => in_field v) plain -> phi sum = plain_sum plain ->
  exists plain' sum', res_foldl (fun '(sharesPlaintext, sum) i =>
      let! v := secretToBigInt (PBytes (plain_bytes (rand i))) in
      Ok (sharesPlaintext ++ [modQ v FHE_PRIME], modQ (sum + modQ v FHE_PRIME) FHE_PRIME)) l (plain, sum)
    = Ok (plain', sum')
    /\ length plain' = (length plain + length l)%nat
    /\ Forall (fun v => in_field v) plain' /\ phi sum' = plain_sum plain'.
Proof.
  revert plain sum. induction l as [|i l IH]; intros plain sum Hp Hs.
  - exists plain, sum. rewrite Nat.add_0_r. auto.
  - cbn [res_foldl secretToBigInt res_bind]. set (v := modQ (modQ _ _) _).
    assert (Hv : in_field v) by (unfold v; apply modQ_range; reflexivity).
    destruct (IH (plain ++ [v]) (modQ (sum + v) FHE_PRIME)) as (plain' & sum' & E & Hl & H).
    + apply Forall_app. auto.
    + rewrite (phi_modQ FHE_PRIME FHE_prime), Zmod.of_Z_add, Hs, plain_sum_snoc. reflexivity.
    + exists plain', sum'. split; [exact E|]. rewrite length_app in Hl. simpl in *. split; [lia|exact H].
Qed.

Section Additive.
Variables (dim m : nat) (kp : FHEKeypair).
Hypothesis Hdim : (1 <= dim)%nat.
Hypothesis Hdim_bound : Z.of_nat dim < FHE_PRIME.
Hypothesis Hm : (1 <= m)%nat.
Hypothesis Hkp : key_ok FHE_PRIME FHE_prime dim m kp.

Lemma create_additive_spec (rand : nat -> ShareRandom) (secretHex : string) (count : nat) (secret : Z) :
  (1 <= count)%nat -> secretToBigInt (PString secretHex) = Ok secret ->
  exists plain shares, createAdditiveSharesFHE rand secretHex count (publicKey kp) = Ok (plain, shares)
    /\ plain_sum plain = phi secret /\ length shares = count
    /\ Forall2 (fun v payload => payload_of kp (phi v) payload) plain shares.
Proof.
  intros Hcount Hs. unfold createAdditiveSharesFHE.
  rewrite (proj2 (Nat.ltb_ge count 1)), Hs by lia. cbn [res_bind].
  destruct (additive_loop rand (seq 0 (count - 1)) [] 0) as (plain & sum & -> & Hl & Hr & Hsum);
    [constructor|reflexivity|]. cbn [res_bind]. rewrite length_seq in Hl. cbn [length] in Hl.
  set (last := modQ (secret - sum) FHE_PRIME). set (all := plain ++ [last]).
  assert (Hin : Forall (fun v => in_field v) all).
  { apply Forall_app. split; [assumption|]. repeat constructor; apply modQ_range; reflexivity. }
  assert (Hall : length all = count) by (unfold all; rewrite length_app; simpl; lia).
  assert (Htotal : plain_sum all = phi secret).
  { unfold all. rewrite plain_sum_snoc, <- Hsum. unfold last.
    rewrite (phi_modQ FHE_PRIME FHE_prime), Zmod.of_Z_sub.
    change (fadd (phi sum) (fsub (phi secret) (phi sum)) = phi secret). ring. }
  assert (Henc : forall k l, length l = k -> Forall (fun v => in_field v) l -> forall i,
    exists shares, res_mapM (fun '(i, share) => encrypt_share rand (publicKey kp) i share)
      (combine (seq i k) l) = Ok shares
      /\ Forall2 (fun v payload => payload_of kp (phi v) payload) l shares).
  { intros k l <- Hf. induction Hf as [|v l Hv _ IH]; intros i; [exists []; split; constructor|].
    destruct (encrypt_share_spec dim m kp Hm Hkp rand i v Hv) as (h & Eh & Hh).
    destruct (IH (S i)) as (shares & E & HF). exists (h :: shares). cbn [length seq combine res_mapM].
    rewrite Eh. cbn [res_bind]. rewrite E. split; [reflexivity|constructor; assumption]. }
  destruct (Henc count all Hall Hin 0%nat) as (shares & -> & HF). cbn [res_bind].
  exists all, shares. split; [reflexivity|]. split; [assumption|]. split; [|assumption].
  apply Forall2_length in HF. congruence.
Qed.

Lemma read_payloads (plain : list Z) (shares : list string) :
  Forall2 (fun v payload => payload_of kp (phi v) payload) plain shares ->
  exists cts, res_mapM deserializeFheCiphertext shares = Ok cts /\ length cts = length shares
    /\ Forall (wf_ct FHE_PRIME (length (sk_s (privateKey kp)))) cts
    /\ lsum (dec FHE_PRIME FHE_prime (sk_s (privateKey kp))) cts = plain_sum plain.
Proof.
  induction 1 as [|v h plain shares (ct & -> & Hwf & Hd) _ IH].
  - exists []. repeat split. constructor.
  - destruct IH as (cts & E & Hl & Hw & Hsum). exists (ct :: cts). cbn [res_mapM].
    rewrite (payload_reads dim m kp Hdim Hdim_bound Hkp) by assumption. cbn [res_bind].
    rewrite E. split; [reflexivity|]. split; [simpl; congruence|].
    split; [constructor; assumption|]. unfold plain_sum in *. cbn [lsum fold_right].
    change (fadd (dec FHE_PRIME FHE_prime (sk_s (privateKey kp)) ct)
              (lsum (dec FHE_PRIME FHE_prime (sk_s (privateKey kp))) cts)
            = fadd (phi v) (lsum (fun v => phi v) plain)). congruence.
Qed.
End Additive.

(** the aggregate of all the encrypted additive shares of a secret decrypts
    to it. *)
Theorem fhe_additive_end_to_end (key_rand : nat -> list Z) (rand : nat -> ShareRandom)
    (dim m count : nat) (secretHex : string) (secret : Z)
    (Hdim : (1 <= dim)%nat) (Hdim' : Z.of_nat dim < FHE_PRIME) (Hm : (1 <= m)%nat)
    (Hcount : (1 <= count)%nat) (Hs : secretToBigInt (PString secretHex) = Ok secret) :
  exists kp plain shares payload,
    fheKeyGen key_rand dim m FHE_PRIME = Ok kp
    /\ createAdditiveSharesFHE rand secretHex count (publicKey kp) = Ok (plain, shares)
    /\ length shares = count
    /\ aggregateAdditiveShares shares = Ok payload
    /\ decryptAggregateCiphertext payload (privateKey kp) = Ok (bigIntToHex32 secret).
Proof.
  destruct (keygen_spec FHE_PRIME FHE_prime key_rand dim m) as (kp & Ek & Hkp).
  destruct (create_additive_spec dim m kp Hdim Hm Hkp rand secretHex count secret Hcount Hs)
    as (plain & shares & E & Hsum & Hl & HF).
  destruct (read_payloads dim m kp Hdim Hdim' Hkp plain shares HF) as (cts & Er & Hlc & Hwf & Hd).
  destruct (sum_aggregate_spec FHE_PRIME FHE_prime (sk_s (privateKey kp)) cts) as (ct & Ea & Hwa & Hda);
    [intros ->; simpl in Hlc; lia|assumption|].
  exists kp, plain, shares, (serializeFheCiphertext ct). repeat (split; [assumption|]).
  unfold aggregateAdditiveShares. rewrite Er. cbn [res_bind]. rewrite Ea. split; [reflexivity|].
  apply (payload_decrypts dim m kp Hdim Hdim' Hkp); [now apply secret_ranged in Hs|].
  exists ct. split; [reflexivity|]. split; [assumption|]. rewrite Hda. transitivity (plain_sum plain); [exact Hd|exact Hsum].
Qed.

Lemma fhe_additive_end_to_end_witness :
  exists kp shares payload, aggregateAdditiveShares shares = Ok payload
    /\ decryptAggregateCiphertext payload (privateKey kp) = Ok (bigIntToHex32 42).
Proof.
  destruct (fhe_additive_end_to_end (fun i => [Z.of_nat i + 3]) (fun i => mkRand [1] (fun j => [2]))
    FHE_LWE_DIMENSION 4 3 "0x2a" 42) as (kp & plain & shares & payload & _ & _ & _ & Ha & Hd);
    try (unfold FHE_LWE_DIMENSION; lia); try reflexivity.
  exists kp, shares, payload. exact (conj Ha Hd).
Defined.

(** ** The public key without noise *)

Lemma cramer (a b c d x y u v : Zmod FHE_PRIME) :
  u = fadd (fmul a x) (fmul b y) -> v = fadd (fmul c x) (fmul d y) ->
  fsub (fmul a d) (fmul b c) <> f0 ->
  fmul (fsub (fmul u d) (fmul v b)) (finv (fsub (fmul a d) (fmul b c))) = x
  /\ fmul (fsub (fmul v a) (fmul u c)) (finv (fsub (fmul a d) (fmul b c))) = y.
Proof. intros -> -> Hdet. split; field; exact Hdet. Qed.

Lemma key_rows (kp : FHEKeypair) (m : nat) (a00 a01 a10 a11 b0 b1 s0 s1 : Z) (rows : list (list Z))
    (bs : list Z) :
  key_ok FHE_PRIME FHE_prime 2 m kp ->
  publicKey kp = mkPub ([a00; a01] :: [a10; a11] :: rows) (b0 :: b1 :: bs) ->
  privateKey kp = mkPriv [s0; s1] ->
  phi b0 = fadd (fmul (phi a00) (phi s0)) (fmul (phi a01) (phi s1))
  /\ phi b1 = fadd (fmul (phi a10) (phi s0)) (fmul (phi a11) (phi s1)).
Proof.
  intros (_ & Ha & _ & Hrows) Hpub Hpriv. rewrite Hpub, Hpriv in *. cbn [pk_a pk_b sk_s length] in *.
  split; [destruct (Hrows 0%nat ltac:(lia)) as [_ E]|destruct (Hrows 1%nat ltac:(lia)) as [_ E]];
    cbn [nth] in E; rewrite E; unfold dot; cbn [length fsum nth];
    match goal with |- fadd (fadd f0 ?x) ?y = _ => set (p := x); set (r := y) end;
    change (fadd (fadd f0 p) r = fadd p r); ring.
Qed.

(** the public key determines the private key: when the first two rows of
    the two-dimensional key are independent, Cramer's rule on them gives it. *)
Theorem fhe_public_key_reveals (key_rand : nat -> list Z) (m : nat) (kp : FHEKeypair)
    (a00 a01 a10 a11 b0 b1 : Z) (rows : list (list Z)) (bs : list Z)
    (Hkey : fheKeyGen key_rand FHE_LWE_DIMENSION m FHE_PRIME = Ok kp)
    (Hpub : publicKey kp = mkPub ([a00; a01] :: [a10; a11] :: rows) (b0 :: b1 :: bs))
    (Hdet : (a00 * a11 - a01 * a10) mod FHE_PRIME <> 0) :
  exists inv, modInverseQ (a00 * a11 - a01 * a10) FHE_PRIME = Ok inv
    /\ privateKey kp = mkPriv [modQ ((b0 * a11 - b1 * a01) * inv) FHE_PRIME;
                               modQ ((b1 * a00 - b0 * a10) * inv) FHE_PRIME].
Proof.
  destruct (keygen_spec FHE_PRIME FHE_prime key_rand FHE_LWE_DIMENSION m) as (kp0 & E & Hkp).
  rewrite Hkey in E. injection E as <-.
  destruct (modInverseQ_spec FHE_PRIME FHE_prime _ Hdet) as (inv & Ei & Hinv).
  exists inv. split; [exact Ei|]. pose proof FHE_PRIME_pos as Hpos.
  unfold fheKeyGen in Hkey. apply res_bind_ok in Hkey as (b & _ & Hk).
  set (s0 := randomFieldElement (key_rand 0%nat) FHE_PRIME) in *.
  set (s1 := randomFieldElement (key_rand 1%nat) FHE_PRIME) in *.
  assert (Hpriv : privateKey kp = mkPriv [s0; s1]) by (injection Hk as <-; reflexivity).
  destruct (key_rows kp m _ _ _ _ _ _ s0 s1 _ _ Hkp Hpub Hpriv) as [E0 E1].
  destruct (cramer _ _ _ _ _ _ _ _ E0 E1) as [F0 F1].
  { intros Ez. apply Hdet. apply (phi_zero FHE_PRIME FHE_prime).
    rewrite Zmod.of_Z_sub, !Zmod.of_Z_mul. exact Ez. }
  rewrite Zmod.of_Z_sub, !Zmod.of_Z_mul in Hinv.
  rewrite Hpriv. do 2 f_equal; [|f_equal]; apply (phi_inj FHE_PRIME);
    try (apply modQ_range; lia); rewrite (phi_modQ FHE_PRIME FHE_prime), Zmod.of_Z_mul,
    Zmod.of_Z_sub, !Zmod.of_Z_mul, Hinv; symmetry; assumption.
Qed.

(** A generated key whose first two rows are [1 0] and [0 1]. *)
Definition demo_key_rand (i : nat) : list Z := nth i [[5]; [6]; [1]; [0]; [0]; [1]] [].

Lemma fhe_public_key_reveals_witness :
  exists kp inv, fheKeyGen demo_key_rand FHE_LWE_DIMENSION 2 FHE_PRIME = Ok kp
    /\ privateKey kp = mkPriv [modQ ((5 * 1 - 6 * 0) * inv) FHE_PRIME;
                               modQ ((6 * 1 - 5 * 0) * inv) FHE_PRIME].
Proof.
  exists (mkKeys (mkPub [[1; 0]; [0; 1]] [5; 6]) (mkPriv [5; 6])).
  destruct (fhe_public_key_reveals demo_key_rand 2 (mkKeys (mkPub [[1; 0]; [0; 1]] [5; 6]) (mkPriv [5; 6]))
    1 0 0 1 5 6 [] []) as (inv & _ & H).
  - vm_compute. reflexivity.
  - reflexivity.
  - vm_compute. discriminate.
  - exists inv. split; [vm_compute; reflexivity|exact H].
Defined.
