(* ===== verification/WebCrypto.v ===== *)
(** * WebCrypto: the interface of the platform's primitives

    SHA-256, AES-GCM and the text codecs are the platform's.  The components that
    use them are proved against the class [WebCryptoLaws], which states what
    their documentation promises; [Mirror] is an instance that evaluates. *)

From Stdlib Require Import Ascii String ZArith List Lia Bool.
Import ListNotations.
From S2P Require Import Prelude Bytes JsString.

Open Scope list_scope.
Open Scope Z_scope.

(** The AES-GCM operations take the key, the initialization vector, the
    additional data and the plaintext or ciphertext with its tag. *)
Class WebCrypto : Type := {
  sha256 : list Z -> list Z;
  aes_gcm_encrypt : list Z -> list Z -> list Z -> list Z -> list Z;
  aes_gcm_decrypt : list Z -> list Z -> list Z -> list Z -> option (list Z);
  text_encode : string -> list Z;
  text_decode : list Z -> string
}.

(** The length of an authentication tag of 128 bits. *)
Definition TAG_BYTES : nat := 16.

Class WebCryptoLaws (W : WebCrypto) : Prop := {
  sha256_bytes : forall l, bytes (sha256 l);
  encrypt_bytes : forall k iv aad p, bytes p -> bytes (aes_gcm_encrypt k iv aad p);
  encrypt_length : forall k iv aad p,
    length (aes_gcm_encrypt k iv aad p) = (length p + TAG_BYTES)%nat;
  decrypt_encrypt : forall k iv aad p,
    aes_gcm_decrypt k iv aad (aes_gcm_encrypt k iv aad p) = Some p;
  (** additional data of four bytes is authenticated *)
  decrypt_other_data : forall k iv aad aad' p, bytes aad -> bytes aad' ->
    length aad = 4%nat -> length aad' = 4%nat -> aad <> aad' ->
    aes_gcm_decrypt k iv aad' (aes_gcm_encrypt k iv aad p) = None;
  encode_bytes : forall s, bytes (text_encode s);
  decode_encode : forall s, text_decode (text_encode s) = s
}.

Lemma encrypt_text_bytes {W : WebCrypto} {L : WebCryptoLaws W} (k iv aad : list Z) (s : string) :
  bytes (aes_gcm_encrypt k iv aad (text_encode s)).
Proof. apply encrypt_bytes, encode_bytes. Qed.

Create HintDb webcrypto.
#[export] Hint Resolve sha256_bytes encrypt_bytes encode_bytes encrypt_text_bytes : webcrypto.

(** ** An instance: the data followed by the additional data *)
Module Mirror.

Fixpoint codes (s : string) : list Z :=
  match s with EmptyString => [] | String c s' => Z.of_nat (nat_of_ascii c) :: codes s' end.

Fixpoint text (l : list Z) : string :=
  match l with [] => EmptyString | c :: l' => String (ascii_of_nat (Z.to_nat c)) (text l') end.

Fixpoint zlist_eqb (a b : list Z) : bool :=
  match a, b with
  | [], [] => true
  | x :: a', y :: b' => (x =? y) && zlist_eqb a' b'
  | _, _ => false
  end.

Definition tag (aad : list Z) : list Z :=
  firstn TAG_BYTES (map (fun b => b mod 256) aad ++ repeat 0 TAG_BYTES).

Definition open_box (aad c : list Z) : option (list Z) :=
  let n := (length c - TAG_BYTES)%nat in
  if zlist_eqb (skipn n c) (tag aad) then Some (firstn n c) else None.

#[export] Instance mirror : WebCrypto := {
  sha256 := fun l => map (fun b => (b + 1) mod 256) l;
  aes_gcm_encrypt := fun _ _ aad p => p ++ tag aad;
  aes_gcm_decrypt := fun _ _ aad c => open_box aad c;
  text_encode := codes;
  text_decode := text
}.

Lemma zlist_eqb_eq (a b : list Z) : zlist_eqb a b = true <-> a = b.
Proof.
  revert b. induction a as [|x a IH]; intros [|y b]; cbn; split; try easy.
  - intros H. apply andb_true_iff in H as [H1 H2]. apply Z.eqb_eq in H1. apply IH in H2. congruence.
  - intros [= <- <-]. now rewrite Z.eqb_refl, (proj2 (IH a)).
Qed.

Lemma mod_bytes (f : Z -> Z) (l : list Z) : bytes (map (fun b => f b mod 256) l).
Proof. apply Forall_map, Forall_forall. intros b _. now apply Z.mod_pos_bound. Qed.

Lemma tag_length (aad : list Z) : length (tag aad) = TAG_BYTES.
Proof. unfold tag. rewrite length_firstn, length_app, length_map, repeat_length. lia. Qed.

Lemma tag_bytes (aad : list Z) : bytes (tag aad).
Proof.
  unfold tag. assert (H : bytes (map (fun b => b mod 256) aad ++ repeat 0 TAG_BYTES)).
  { apply Forall_app. split; [apply (mod_bytes (fun b => b))|]. repeat constructor; unfold is_byte; lia. }
  rewrite <- (firstn_skipn TAG_BYTES) in H. now apply Forall_app in H.
Qed.

Lemma open_encrypted (aad aad' p : list Z) :
  open_box aad' (p ++ tag aad) = if zlist_eqb (tag aad) (tag aad') then Some p else None.
Proof.
  unfold open_box. rewrite length_app, tag_length, Nat.add_sub.
  rewrite skipn_app, firstn_app, skipn_all, firstn_all, Nat.sub_diag. cbn [skipn firstn app].
  now rewrite app_nil_r.
Qed.

Lemma bytes_mod_id (l : list Z) : bytes l -> map (fun b => b mod 256) l = l.
Proof.
  induction 1 as [|b l Hb _ IH]; [reflexivity|]. cbn. rewrite IH.
  unfold is_byte in Hb. now rewrite Z.mod_small.
Qed.

Lemma tag_inj (a b : list Z) : bytes a -> bytes b -> length a = 4%nat -> length b = 4%nat ->
  tag a = tag b -> a = b.
Proof.
  intros Ha Hb La Lb E. unfold tag in E. rewrite !bytes_mod_id in E by assumption.
  destruct a as [|a0 [|a1 [|a2 [|a3 []]]]]; try discriminate La.
  destruct b as [|b0 [|b1 [|b2 [|b3 []]]]]; try discriminate Lb.
  cbn in E. now injection E as -> -> -> ->.
Qed.

#[export] Instance mirror_laws : WebCryptoLaws mirror.
Proof.
  constructor; cbn [mirror sha256 aes_gcm_encrypt aes_gcm_decrypt text_encode text_decode].
  - intros l. apply (mod_bytes (fun b => b + 1)).
  - intros k iv aad p Hp. apply Forall_app. split; [assumption|apply tag_bytes].
  - intros k iv aad p. now rewrite length_app, tag_length.
  - intros k iv aad p. rewrite open_encrypted. now rewrite (proj2 (zlist_eqb_eq _ _)).
  - intros k iv aad aad' p Ha Ha' La La' Hne. rewrite open_encrypted.
    destruct (zlist_eqb (tag aad) (tag aad')) eqn:E; [|reflexivity].
    apply zlist_eqb_eq, tag_inj in E; auto; contradiction.
  - intros s. induction s as [|c s IH]; constructor; [|assumption].
    pose proof (nat_ascii_bounded c). unfold is_byte. lia.
  - intros s. induction s as [|c s IH]; [reflexivity|]. cbn [codes text].
    rewrite IH, Nat2Z.id, ascii_nat_embedding. reflexivity.
Qed.

End Mirror.
