(* ===== verification/Vdf.v ===== *)
(** * Vdf: the delay function, its proofs and the timelock of vdf.ts

    [keccak_packed] is [keccak256(solidityPacked(types, values))] of ethers; it
    may throw (an integer that does not fit its type).  Step counts are the
    integers among the numbers, and the bitwise operations on them work on 32
    bits as in the language. *)

From Stdlib Require Import Ascii String ZArith List Lia Bool.
Import ListNotations.
From S2P Require Import Prelude Bytes JsString Base64 Hex Modular WebCrypto.

Open Scope list_scope.
Open Scope Z_scope.

Definition TIMELOCK_VERSION : string := "vdf-wesolowski-aes256gcm-v1".
Definition DEFAULT_CHALLENGE_BITS : Z := 128.

Record VdfParams : Type := mkParams { vp_N : Z; vp_T : Z; vp_x : option Z }.
Record WesolowskiProof : Type := mkWes { w_y : Z; w_pi : Z; w_l : Z; w_r : Z }.
Record PietrzakProof : Type := mkPie { p_y : Z; p_mus : list Z }.
Record TimelockCiphertext : Type := mkLock {
  tl_version : string; tl_N : string; tl_T : Z; tl_x : string; tl_y : string;
  tl_pi : string; tl_l : string; tl_iv : string; tl_ciphertext : string
}.

(** A value of [solidityPacked] with its type. *)
Inductive SolVal : Type := SBytes (l : list Z) | SUint256 (v : Z) | SUint64 (v : Z).

(** ** Integers and bytes *)

Definition modPow (base exp m : Z) : Z :=
  if m =? 1 then 0
  else pow_loop (fun x => Z.rem x m) (pow_fuel exp) 1 (norm_rem m base) exp.

Definition toBytesBE (value : Z) : res (list Z) :=
  throw_if value <? 0 with "negative bigint"%string;;
  if value =? 0 then Ok [0]
  else
    let hex := to_hex value in
    let hex := if negb (String.length hex mod 2 =? 0)%nat then String "0" hex else hex in
    Ok (hex_bytes hex).

Definition byteLength (value : Z) : nat :=
  if value =? 0 then 1%nat else ((String.length (to_hex value) + 1) / 2)%nat.

Definition toBytesBEPadded (value : Z) (width : nat) : res (list Z) :=
  let! raw := toBytesBE value in
  if (length raw =? width)%nat then Ok raw
  else if (width <? length raw)%nat then Ok (skipn (length raw - width) raw)
  else Ok (repeat 0 (width - length raw) ++ raw).

Definition bytesToBigInt (l : list Z) : res Z :=
  let hex := ("0x" ++ bytes_hex l)%string in
  BigInt_str (if String.eqb hex "0x" then "0x0" else hex).

Definition hexToBytes (hex : string) : res (list Z) :=
  let h := if startsWith "0x" hex || startsWith "0X" hex then slice_from 2 hex else hex in
  throw_if negb (String.length h mod 2 =? 0)%nat with "RangeError: Invalid typed array length"%string;;
  Ok (hex_bytes h).

Definition bigintToHexPad (value : Z) (byteLen : nat) : string :=
  let hex := to_hex value in
  let target := (byteLen * 2)%nat in
  let hex := if (target <? String.length hex)%nat then slice_from (String.length hex - target) hex
             else padStart target "0" hex in
  ("0x" ++ hex)%string.

(** ToInt32, and the operators [&] and [>>] of numbers. *)
Definition int32 (v : Z) : Z := let u := v mod 2 ^ 32 in if u <? 2 ^ 31 then u else u - 2 ^ 32.
Definition and32 (a b : Z) : Z := Z.land (int32 a) (int32 b).
Definition shr32 (a b : Z) : Z := Z.shiftr (int32 a) b.

Definition assertPositiveBigInt (value : Z) (label : string) : res unit :=
  throw_if value <=? 0 with (label ++ " must be a positive bigint")%string;; Ok tt.

Definition assertValidT (T : Z) : res unit :=
  throw_if T <? 1 with "T must be a positive integer"%string;; Ok tt.

Definition evaluateVdf (x T N : Z) : res Z :=
  let! _ := assertPositiveBigInt N "N" in
  let! _ := assertPositiveBigInt x "x" in
  let! _ := assertValidT T in
  Ok (for_n (Z.to_nat T) (fun _ y => Z.rem (y * y) N) (Z.rem x N)).

(** ** Challenges and proofs *)
Section Challenges.
Variable keccak_packed : list SolVal -> res string.

Definition deriveChallengeElement (N T : Z) : res Z :=
  let! _ := assertPositiveBigInt N "N" in
  let! _ := assertValidT T in
  let! nb := toBytesBE N in
  let! digest := keccak_packed [SBytes nb; SUint256 N; SUint64 T] in
  let! db := hexToBytes digest in
  let! v := bytesToBigInt db in
  let x := Z.rem v N in
  Ok (if x <=? 1 then 2 else x).

Definition packed_width (N : Z) : nat :=
  let onChain := (byteLength N <=? 32)%nat in if onChain then 32%nat else byteLength N.

Definition fiatShamirChallenge (x y T N challengeBits : Z) : res Z :=
  let width := packed_width N in
  let! xb := toBytesBEPadded (Z.rem x N) width in
  let! yb := toBytesBEPadded (Z.rem y N) width in
  let! nb := toBytesBEPadded N width in
  let! digest := keccak_packed [SBytes xb; SBytes yb; SUint64 T; SBytes nb] in
  let mask := Z.shiftl 1 challengeBits - 1 in
  let! db := hexToBytes digest in
  let! v := bytesToBigInt db in
  let l := Z.land v mask in
  let l := if l <? 3 then 3 else l in
  Ok (if Z.land l 1 =? 0 then l + 1 else l).

(** One round of the long division of [2^T] by [l] in the exponent. *)
Definition wesolowski_round (xMod N l : Z) (s : Z * Z) : Z * Z :=
  let '(pi, rem) := s in
  let doubled := Z.shiftl rem 1 in
  let bit := if l <=? doubled then 1 else 0 in
  let rem := Z.rem doubled l in
  let pi := Z.rem (pi * pi) N in
  let pi := if bit =? 1 then Z.rem (pi * xMod) N else pi in
  (pi, rem).

Definition proveWesolowski (x T N challengeBits : Z) : res WesolowskiProof :=
  let! _ := assertPositiveBigInt N "N" in
  let! _ := assertPositiveBigInt x "x" in
  let! _ := assertValidT T in
  let xMod := Z.rem x N in
  let y := for_n (Z.to_nat T) (fun _ y => Z.rem (y * y) N) xMod in
  let! l := fiatShamirChallenge xMod y T N challengeBits in
  let '(pi, rem) := for_n (Z.to_nat T) (fun _ s => wesolowski_round xMod N l s) (1, 1) in
  Ok (mkWes y pi l rem).

Definition verifyWesolowski (x T N : Z) (proof : WesolowskiProof) (challengeBits : Z) : res bool :=
  let! _ := assertPositiveBigInt N "N" in
  let! _ := assertValidT T in
  let xMod := Z.rem x N in
  let! expectedL := fiatShamirChallenge xMod (w_y proof) T N challengeBits in
  if negb (w_l proof =? expectedL) then Ok false
  else
    let r := modPow 2 T (w_l proof) in
    if negb (w_r proof =? r) then Ok false
    else
      let left := Z.rem (modPow (w_pi proof) (w_l proof) N * modPow xMod r N) N in
      Ok (left =? Z.rem (w_y proof) N).

Definition pietrzakChallenge (x y mu T N : Z) : res Z :=
  let width := packed_width N in
  let! xb := toBytesBEPadded (Z.rem x N) width in
  let! yb := toBytesBEPadded (Z.rem y N) width in
  let! mb := toBytesBEPadded (Z.rem mu N) width in
  let! nb := toBytesBEPadded N width in
  let! digest := keccak_packed [SBytes xb; SBytes yb; SBytes mb; SUint64 T; SBytes nb] in
  let! db := hexToBytes digest in
  let! v := bytesToBigInt db in
  let r := Z.land v (Z.shiftl 1 128 - 1) in
  Ok (if r =? 0 then 1 else r).

(** The halving loop; 31 rounds leave the 32-bit counter at 1 or below. *)
Fixpoint pietrzak_loop (fuel : nat) (curX curY curT N : Z) (mus : list Z) : res (list Z) :=
  match fuel with
  | O => Throw "out of fuel"
  | S f =>
      if 1 <? curT then
        let half := shr32 curT 1 in
        let! mu := evaluateVdf curX half N in
        let! r := pietrzakChallenge curX curY mu curT N in
        let curX := Z.rem (modPow curX r N * mu) N in
        let curY := Z.rem (modPow mu r N * curY) N in
        pietrzak_loop f curX curY half N (mus ++ [mu])
      else Ok mus
  end.

Definition bad_power (T : Z) : bool := (T <? 2) || negb (and32 T (T - 1) =? 0).

Definition provePietrzak (x T N : Z) : res PietrzakProof :=
  let! _ := assertPositiveBigInt N "N" in
  let! _ := assertPositiveBigInt x "x" in
  throw_if bad_power T with "Pietrzak VDF requires T to be a power of two >= 2"%string;;
  let xMod := Z.rem x N in
  let! y := evaluateVdf xMod T N in
  let! mus := pietrzak_loop 32 xMod y T N [] in
  Ok (mkPie y mus).

(** The verifier's loop: [None] when a value is out of range. *)
Fixpoint verify_rounds (mus : list Z) (curX curY curT N : Z) : res (option (Z * Z * Z)) :=
  match mus with
  | [] => Ok (Some (curX, curY, curT))
  | mu :: mus' =>
      if (mu <=? 0) || (N <=? mu) then Ok None
      else
        let half := shr32 curT 1 in
        let! r := pietrzakChallenge curX curY mu curT N in
        let curX := Z.rem (modPow curX r N * mu) N in
        let curY := Z.rem (modPow mu r N * curY) N in
        verify_rounds mus' curX curY half N
  end.

Definition verifyPietrzak (x T N : Z) (proof : PietrzakProof) : res bool :=
  let! _ := assertPositiveBigInt N "N" in
  if bad_power T then Ok false
  else if negb (T =? 2 ^ Z.of_nat (length (p_mus proof))) then Ok false
  else
    let! final := verify_rounds (p_mus proof) (Z.rem x N) (Z.rem (p_y proof) N) T N in
    match final with
    | None => Ok false
    | Some (curX, curY, curT) => Ok ((curT =? 1) && (Z.rem (curX * curX) N =? curY))
    end.

(** ** Timelock encryption *)
Section Timelock.
Context {W : WebCrypto}.

Inductive Document : Type := DText (s : string) | DBytes (l : list Z).

Definition deriveKeyFromVdfOutput (y : Z) : res (list Z) :=
  let! yb := toBytesBE y in Ok (sha256 yb).

Definition encryptTimelock (iv : list Z) (plaintext : Document) (params : VdfParams)
    (challengeBits : Z) : res TimelockCiphertext :=
  let N := vp_N params in
  let T := vp_T params in
  let! x := match vp_x params with Some x => Ok x | None => deriveChallengeElement N T end in
  let! proof := proveWesolowski x T N challengeBits in
  let! key := deriveKeyFromVdfOutput (w_y proof) in
  let plainBytes := match plaintext with DText s => text_encode s | DBytes l => l end in
  let ciphertextBuf := aes_gcm_encrypt key iv [] plainBytes in
  Ok (mkLock TIMELOCK_VERSION (to_hex N) T (to_hex x) (to_hex (w_y proof)) (to_hex (w_pi proof))
        (to_hex (w_l proof)) (uint8ArrayToBase64 iv) (uint8ArrayToBase64 ciphertextBuf)).

(** The payload as an object; a string is first parsed as JSON. *)
Definition decryptTimelock (data : TimelockCiphertext) : res string :=
  throw_if negb (String.eqb (tl_version data) TIMELOCK_VERSION) with
    ("Unsupported timelock version: " ++ tl_version data)%string;;
  let! N := BigInt_hex (tl_N data) in
  let! x := BigInt_hex (tl_x data) in
  let! y := BigInt_hex (tl_y data) in
  let! pi := BigInt_hex (tl_pi data) in
  let! l := BigInt_hex (tl_l data) in
  let T := tl_T data in
  let! evaluated := evaluateVdf x T N in
  throw_if negb (evaluated =? y) with "VDF output mismatch - timelock not satisfied"%string;;
  let proof := mkWes y pi l (modPow 2 T l) in
  let! valid := verifyWesolowski x T N proof DEFAULT_CHALLENGE_BITS in
  throw_if negb valid with "Invalid Wesolowski VDF proof"%string;;
  let! key := deriveKeyFromVdfOutput y in
  let! iv := base64ToUint8Array (tl_iv data) in
  let! ciphertext := base64ToUint8Array (tl_ciphertext data) in
  match aes_gcm_decrypt key iv [] ciphertext with
  | Some decrypted => Ok (text_decode decrypted)
  | None => Throw "AES-GCM decryption failed"
  end.
End Timelock.
End Challenges.

(** ** Primes for the test moduli *)

(** [while ((d & 1n) === 0n) { d >>= 1n; s += 1n; }]. *)
Fixpoint odd_part (fuel : nat) (d s : Z) : Z * Z :=
  match fuel with
  | O => (d, s)
  | S f => if Z.land d 1 =? 0 then odd_part f (Z.shiftr d 1) (s + 1) else (d, s)
  end.

(** [for (let r = 1n; r < s; r++)]: whether a square reaches [n - 1]. *)
Fixpoint squares_to (k : nat) (n x : Z) : bool :=
  match k with
  | O => false
  | S k' => let x := Z.rem (x * x) n in if x =? n - 1 then true else squares_to k' n x
  end.

Definition mr_bases : list Z := [2; 3; 5; 7; 11; 13; 17; 19; 23].

(** One round of the test: false when the base is a witness of compositeness. *)
Definition mr_round (n d s : Z) (i : nat) : bool :=
  let a := Z.rem (nth (i mod length mr_bases) mr_bases 0) n in
  if a =? 0 then true
  else
    let x := modPow a d n in
    if (x =? 1) || (x =? n - 1) then true
    else squares_to (Z.to_nat (s - 1)) n x.

Definition isProbablePrime (n : Z) (rounds : nat) : bool :=
  if n <? 2 then false
  else if (n =? 2) || (n =? 3) then true
  else if Z.land n 1 =? 0 then false
  else
    let '(d, s) := odd_part (Z.to_nat (Z.log2 n)) (n - 1) 0 in
    forallb (mr_round n d s) (seq 0 rounds).

(** [while (!isProbablePrime(n)) n += 2n]; [None] when the fuel runs out. *)
Fixpoint find_from (fuel : nat) (n : Z) : option Z :=
  match fuel with
  | O => None
  | S f => if isProbablePrime n 16 then Some n else find_from f (n + 2)
  end.

Definition findPrimeNear (fuel : nat) (start : Z) : option Z := find_from fuel (Z.lor start 1).

Definition fixedTestModulus256 (fuel : nat) : option Z :=
  match findPrimeNear fuel (Z.shiftl 1 127 + 12345), findPrimeNear fuel (Z.shiftl 1 127 + 67891) with
  | Some P, Some Q => Some (P * Q)
  | _, _ => None
  end.
