(* ===== verification/VdfProofs.v ===== *)
(** * VdfProofs: byte encodings, completeness of the proofs, and the timelock

    The proofs made by both provers are accepted by their verifiers, the
    verifiers' equations hold only for the value they are about, and a timelock
    made with the default challenge size opens to its document. *)

From Stdlib Require Import Ascii String ZArith Znumtheory List Lia Bool Zcong Zmod Arith.Factorial.
Import ListNotations.
From S2P Require Import Prelude Bytes JsString Base64 Hex Primes Modular WebCrypto Vdf.

Open Scope list_scope.
Open Scope Z_scope.

(** ** Bytes of an integer *)

Lemma even_odd_mod2 (n : nat) : (n mod 2 = 0 \/ n mod 2 = 1)%nat.
Proof. pose proof (Nat.mod_upper_bound n 2). lia. Qed.

Lemma to_hex_parse (v : Z) : 0 <= v -> parse_acc 16 (to_hex v) 0 = Some v.
Proof. intros Hv. apply parse_to_base_acc; lia. Qed.

Lemma to_hex_digits (v : Z) : 0 <= v -> str_all (is_digit 16) (to_hex v) = true.
Proof. intros Hv. apply to_base_digits; lia. Qed.

(** The digits with a leading zero when their number is odd. *)
Lemma even_hex (v : Z) : 0 <= v ->
  let hex := to_hex v in
  let h := if negb (String.length hex mod 2 =? 0)%nat then String "0" hex else hex in
  String.length h = (2 * ((String.length hex + 1) / 2))%nat
  /\ str_all (is_digit 16) h = true /\ parse_acc 16 h 0 = Some v.
Proof.
  intros Hv hex h. pose proof (to_hex_digits v Hv) as Hd. pose proof (to_hex_parse v Hv) as Hp.
  fold hex in Hd, Hp. pose proof (Nat.div_mod_eq (String.length hex) 2) as Edm. unfold h.
  destruct (even_odd_mod2 (String.length hex)) as [E|E]; rewrite E in *; cbn [Nat.eqb negb].
  - split; [|auto]. replace (String.length hex + 1)%nat with (1 + (String.length hex / 2) * 2)%nat by lia.
    rewrite Nat.div_add by lia. change (1 / 2)%nat with 0%nat. lia.
  - split; [|auto]. replace (String.length hex + 1)%nat with ((String.length hex / 2 + 1) * 2)%nat by lia.
    rewrite Nat.div_mul by lia. cbn [String.length]. lia.
Qed.

Lemma toBytesBE_spec (v : Z) : 0 <= v ->
  exists l, toBytesBE v = Ok l /\ bytes l /\ length l = byteLength v /\ bytes_value l = v.
Proof.
  intros Hv. unfold toBytesBE, byteLength. rewrite (proj2 (Z.ltb_ge _ _)) by lia.
  destruct (Z.eqb_spec v 0) as [->|Hne].
  - exists [0]. split; [reflexivity|]. split; [|split; reflexivity].
    constructor; [unfold is_byte; lia|constructor].
  - destruct (even_hex v Hv) as (Hl & Hd & Hp). cbv zeta in *.
    set (h := if negb _ then _ else _) in *.
    destruct (hex_bytes_value _ h Hl Hd) as (Hb & Hlen & Hval).
    exists (hex_bytes h). split; [reflexivity|]. split; [assumption|]. split; [assumption|].
    rewrite Hp in Hval. congruence.
Qed.

Lemma byteLength_le (v : Z) (w : nat) : 0 <= v < 256 ^ Z.of_nat w -> (1 <= w)%nat -> (byteLength v <= w)%nat.
Proof.
  intros Hv Hw. unfold byteLength. destruct (v =? 0); [assumption|].
  assert (H : (String.length (to_hex v) <= 2 * w)%nat).
  { apply (to_base_length 16 ltac:(lia)); [|lia].
    now rewrite Nat2Z.inj_mul, Z.pow_mul_r by lia. }
  apply (Nat.le_trans _ ((2 * w + 1) / 2)).
  - apply Nat.Div0.div_le_mono. lia.
  - replace (2 * w + 1)%nat with (1 + w * 2)%nat by lia. rewrite Nat.div_add by lia. change (1 / 2)%nat with 0%nat. lia.
Qed.

Lemma byteLength_bound (v : Z) : 0 <= v -> v < 256 ^ Z.of_nat (byteLength v).
Proof.
  intros Hv. destruct (toBytesBE_spec v Hv) as (l & _ & Hb & Hl & E).
  pose proof (bytes_value_range l Hb). rewrite Hl, E in *. lia.
Qed.

Lemma toBytesBEPadded_spec (v : Z) (w : nat) : 0 <= v < 256 ^ Z.of_nat w -> (1 <= w)%nat ->
  toBytesBEPadded v w = Ok (be_bytes w v).
Proof.
  intros Hv Hw. unfold toBytesBEPadded.
  destruct (toBytesBE_spec v ltac:(lia)) as (l & -> & Hb & Hl & E). cbn [res_bind].
  pose proof (byteLength_le v w Hv Hw) as Hle. rewrite Hl.
  destruct (Nat.eqb_spec (byteLength v) w) as [Ew|Ew].
  - f_equal. apply bytes_value_inj; auto using be_bytes_bytes.
    + rewrite be_bytes_length. congruence.
    + now rewrite bytes_value_be.
  - rewrite (proj2 (Nat.ltb_ge w _)) by lia. f_equal. apply bytes_value_inj.
    + apply Forall_app. split; [|assumption]. apply Forall_forall. intros b Hin.
      apply repeat_spec in Hin. subst. unfold is_byte. lia.
    + apply be_bytes_bytes.
    + rewrite length_app, repeat_length, be_bytes_length. lia.
    + now rewrite bytes_value_zeros, bytes_value_be.
Qed.

Lemma bytesToBigInt_spec (l : list Z) : bytes l -> bytesToBigInt l = Ok (bytes_value l).
Proof.
  intros Hl. unfold bytesToBigInt. destruct l as [|b l].
  - reflexivity.
  - pose proof (bytes_hex_nonempty (b :: l) ltac:(easy)) as Hne.
    destruct (String.eqb_spec ("0x" ++ bytes_hex (b :: l)) "0x") as [E|_].
    + exfalso. apply Hne. cbn [append] in E. injection E as E. exact E.
    + now apply BigInt_bytes_hex.
Qed.

Lemma hexToBytes_spec (h : string) (k : nat) :
  String.length h = (2 * k)%nat -> str_all (is_digit 16) h = true ->
  exists l, hexToBytes ("0x" ++ h) = Ok l /\ bytes l /\ length l = k.
Proof.
  intros Hl Hd. unfold hexToBytes. rewrite startsWith_app. cbn [orb].
  rewrite (slice_from_app "0x" : forall x, slice_from 2 ("0x" ++ x) = x).
  rewrite Hl. replace (2 * k)%nat with (k * 2)%nat by lia. rewrite Nat.Div0.mod_mul. cbn [Nat.eqb negb].
  destruct (hex_bytes_value k h Hl Hd) as (Hb & Hlen & _). eauto.
Qed.

(** the byte encodings are read back: minimal and padded big-endian bytes
    have the value of the integer, and the padded form has the width asked for. *)
Theorem bytes_roundtrip (v : Z) (w : nat) (Hv : 0 <= v < 256 ^ Z.of_nat w) (Hw : (1 <= w)%nat) :
  (exists l, toBytesBE v = Ok l /\ length l = byteLength v /\ bytesToBigInt l = Ok v)
  /\ (exists l, toBytesBEPadded v w = Ok l /\ length l = w /\ bytesToBigInt l = Ok v).
Proof.
  split.
  - destruct (toBytesBE_spec v ltac:(lia)) as (l & E & Hb & Hl & Ev). exists l.
    rewrite bytesToBigInt_spec by assumption. split; [assumption|]. split; congruence.
  - exists (be_bytes w v). rewrite toBytesBEPadded_spec by assumption.
    split; [reflexivity|]. split; [apply be_bytes_length|].
    now rewrite bytesToBigInt_spec, bytes_value_be by auto using be_bytes_bytes.
Qed.

Lemma bytes_roundtrip_witness :
  exists l, toBytesBEPadded 258 4 = Ok l /\ bytesToBigInt l = Ok 258 /\ length l = 4%nat.
Proof.
  destruct (bytes_roundtrip 258 4) as [_ (l & E & Hl & H)]; [split; [lia|reflexivity]|lia|].
  exists l. auto.
Defined.

(** ** Repeated squaring *)

Lemma vdf_modPow_spec (b e m : Z) : 0 < m -> 0 <= e -> modPow b e m = b ^ e mod m.
Proof.
  intros Hm He. unfold modPow. destruct (Z.eqb_spec m 1) as [->|Hm1].
  - symmetry. apply Z.mod_1_r.
  - rewrite (pow_loop_pow _ m); auto; try lia.
    + now rewrite norm_rem_mod, Z.mod_pow_l by lia.
    + intros x Hx. now apply rem_mod.
    + rewrite norm_rem_mod by lia. apply Z.mod_pos_bound. lia.
Qed.

Lemma square_loop (x N : Z) (k : nat) : 0 < N -> 0 <= x ->
  for_n k (fun _ y => Z.rem (y * y) N) (Z.rem x N) = x ^ (2 ^ Z.of_nat k) mod N.
Proof.
  intros HN Hx. induction k as [|k IH].
  - cbn. rewrite rem_mod by lia. f_equal. change (Z.pow_pos x 1) with (x ^ 1). lia.
  - rewrite for_n_S, IH, Nat2Z.inj_succ, Z.pow_succ_r, (Z.mul_comm 2), Z.pow_mul_r, Z.pow_2_r by lia.
    set (y := x ^ 2 ^ Z.of_nat k). pose proof (Z.mod_pos_bound y N HN).
    rewrite rem_mod by nia. symmetry. apply Zmult_mod.
Qed.

Lemma evaluateVdf_spec (x T N : Z) : 0 < N -> 0 < x -> 1 <= T ->
  evaluateVdf x T N = Ok (x ^ (2 ^ T) mod N).
Proof.
  intros HN Hx HT. unfold evaluateVdf, assertPositiveBigInt, assertValidT.
  rewrite (proj2 (Z.leb_gt N 0)), (proj2 (Z.leb_gt x 0)), (proj2 (Z.ltb_ge T 1)) by lia.
  cbn [res_bind]. now rewrite square_loop, Z2Nat.id by lia.
Qed.

(** The long division that runs along the squarings. *)
Lemma wesolowski_rounds (xMod N l : Z) (k : nat) : 0 < N -> 0 <= xMod -> 1 < l ->
  let '(pi, rem) := for_n k (fun _ s => wesolowski_round xMod N l s) (1, 1) in
  rem = 2 ^ Z.of_nat k mod l /\ 0 <= pi /\ pi mod N = xMod ^ (2 ^ Z.of_nat k / l) mod N.
Proof.
  intros HN Hx Hl. induction k as [|k IH].
  - cbn. rewrite Z.mod_1_l, Z.div_small by lia. auto with zarith.
  - rewrite for_n_S. destruct (for_n k _ (1, 1)) as [pi rem]. destruct IH as (Hr & Hp0 & Hp).
    unfold wesolowski_round. rewrite Z.shiftl_mul_pow2 by lia. change (2 ^ 1) with 2.
    set (P := 2 ^ Z.of_nat k) in *. assert (HP : 0 < P) by (apply Z.pow_pos_nonneg; lia).
    rewrite Nat2Z.inj_succ, Z.pow_succ_r by lia. fold P.
    pose proof (Z.mod_pos_bound P l ltac:(lia)) as Hb. rewrite <- Hr in Hb.
    pose proof (Z.div_mod P l ltac:(lia)) as Edm. rewrite <- Hr in Edm.
    set (q := P / l) in *. assert (Hq : 0 <= q) by (apply Z.div_pos; lia).
    rewrite (rem_mod (rem * 2)), (rem_mod (pi * pi)) by nia.
    assert (Hsq : (pi * pi) mod N = xMod ^ (2 * q) mod N).
    { rewrite Zmult_mod, Hp, <- Zmult_mod, (Z.mul_comm 2), Z.pow_mul_r, Z.pow_2_r by lia. reflexivity. }
    destruct (Z.leb_spec l (rem * 2)) as [Hge|Hlt]; cbn [Z.eqb Pos.eqb].
    + rewrite rem_mod by (pose proof (Z.mod_pos_bound (pi * pi) N HN); nia).
      rewrite <- (Z.div_unique (2 * P) l (2 * q + 1) (rem * 2 - l)),
        <- (Z.mod_unique (rem * 2) l 1 (rem * 2 - l)),
        <- (Z.mod_unique (2 * P) l (2 * q + 1) (rem * 2 - l)) by lia.
      split; [reflexivity|]. split; [apply Z.mod_pos_bound; lia|].
      rewrite Z.mod_mod, Z.pow_add_r, Z.pow_1_r by lia.
      rewrite <- Zmult_mod_idemp_l, Z.mod_mod, Hsq, Zmult_mod_idemp_l by lia. reflexivity.
    + rewrite <- (Z.div_unique (2 * P) l (2 * q) (rem * 2)),
        <- (Z.mod_unique (rem * 2) l 0 (rem * 2)),
        <- (Z.mod_unique (2 * P) l (2 * q) (rem * 2)) by lia.
      split; [reflexivity|]. split; [apply Z.mod_pos_bound; lia|].
      now rewrite Z.mod_mod by lia.
Qed.

(** ** The hash of the challenges *)

Definition sol_fits (v : SolVal) : Prop :=
  match v with
  | SBytes l => bytes l
  | SUint256 v => 0 <= v < 2 ^ 256
  | SUint64 v => 0 <= v < 2 ^ 64
  end.

(** [keccak256(solidityPacked(...))] returns 32 bytes in hexadecimal for values
    that fit their types. *)
Class KeccakLaws (keccak_packed : list SolVal -> res string) : Prop := {
  keccak_digest : forall vs, Forall sol_fits vs -> exists h,
    keccak_packed vs = Ok ("0x" ++ h)%string /\ String.length h = 64%nat
    /\ str_all (is_digit 16) h = true
}.

Section Completeness.
Variable keccak_packed : list SolVal -> res string.
Context {K : KeccakLaws keccak_packed}.

Lemma packed_width_pos (N : Z) : (1 <= packed_width N)%nat.
Proof. unfold packed_width. destruct (Nat.leb_spec (byteLength N) 32); lia. Qed.

Lemma packed_width_bound (N : Z) : 0 < N -> N < 256 ^ Z.of_nat (packed_width N).
Proof.
  intros HN. pose proof (byteLength_bound N ltac:(lia)) as H. unfold packed_width.
  destruct (Nat.leb_spec (byteLength N) 32) as [Hle|]; [|exact H].
  eapply Z.lt_le_trans; [exact H|]. apply Z.pow_le_mono_r; lia.
Qed.

Lemma padded_mod (v N : Z) : 0 < N -> 0 <= v ->
  exists l, toBytesBEPadded (Z.rem v N) (packed_width N) = Ok l /\ bytes l.
Proof.
  intros HN Hv. exists (be_bytes (packed_width N) (Z.rem v N)).
  pose proof (packed_width_bound N HN). pose proof (Z.mod_pos_bound v N HN).
  rewrite toBytesBEPadded_spec; auto using be_bytes_bytes, packed_width_pos.
  rewrite rem_mod; lia.
Qed.

Lemma padded_modulus (N : Z) : 0 < N ->
  exists l, toBytesBEPadded N (packed_width N) = Ok l /\ bytes l.
Proof.
  intros HN. exists (be_bytes (packed_width N) N). pose proof (packed_width_bound N HN).
  rewrite toBytesBEPadded_spec; auto using be_bytes_bytes, packed_width_pos. lia.
Qed.

Lemma digest_value (vs : list SolVal) : Forall sol_fits vs ->
  exists d l, keccak_packed vs = Ok d /\ hexToBytes d = Ok l /\ bytesToBigInt l = Ok (bytes_value l)
    /\ 0 <= bytes_value l.
Proof.
  intros Hv. destruct (keccak_digest vs Hv) as (h & E & Hl & Hd).
  destruct (hexToBytes_spec h 32 Hl Hd) as (l & El & Hb & _).
  exists ("0x" ++ h)%string, l. split; [assumption|]. split; [assumption|].
  split; [now apply bytesToBigInt_spec|]. apply bytes_value_range, Hb.
Qed.

Lemma fiatShamir_spec (x y T N bits : Z) : 0 < N -> 0 <= x -> 0 <= y -> 0 <= T < 2 ^ 64 ->
  exists l, fiatShamirChallenge keccak_packed x y T N bits = Ok l /\ 3 <= l.
Proof.
  intros HN Hx Hy HT. unfold fiatShamirChallenge.
  destruct (padded_mod x N HN Hx) as (xb & -> & Hxb), (padded_mod y N HN Hy) as (yb & -> & Hyb),
    (padded_modulus N HN) as (nb & -> & Hnb). cbn [res_bind].
  destruct (digest_value [SBytes xb; SBytes yb; SUint64 T; SBytes nb]) as (d & l & -> & El & Ev & Hl);
    [repeat constructor; assumption || apply HT|].
  cbn [res_bind]. rewrite El. cbn [res_bind]. rewrite Ev. cbn [res_bind].
  eexists. split; [reflexivity|]. set (m := Z.land (bytes_value l) (Z.shiftl 1 bits - 1)). clearbody m.
  set (l0 := if m <? 3 then 3 else m). assert (H0 : 3 <= l0) by (unfold l0; destruct (Z.ltb_spec m 3); lia).
  clearbody l0. destruct (Z.land l0 1 =? 0); lia.
Qed.

Lemma pietrzak_challenge_spec (x y mu T N : Z) :
  0 < N -> 0 <= x -> 0 <= y -> 0 <= mu -> 0 <= T < 2 ^ 64 ->
  exists r, pietrzakChallenge keccak_packed x y mu T N = Ok r /\ 0 < r.
Proof.
  intros HN Hx Hy Hmu HT. unfold pietrzakChallenge.
  destruct (padded_mod x N HN Hx) as (xb & -> & Hxb), (padded_mod y N HN Hy) as (yb & -> & Hyb),
    (padded_mod mu N HN Hmu) as (mb & -> & Hmb), (padded_modulus N HN) as (nb & -> & Hnb).
  cbn [res_bind].
  destruct (digest_value [SBytes xb; SBytes yb; SBytes mb; SUint64 T; SBytes nb])
    as (d & l & -> & El & Ev & Hl); [repeat constructor; assumption || apply HT|].
  cbn [res_bind]. rewrite El. cbn [res_bind]. rewrite Ev. cbn [res_bind].
  eexists. split; [reflexivity|].
  assert (Hr : 0 <= Z.land (bytes_value l) (Z.shiftl 1 128 - 1)) by (apply Z.land_nonneg; auto).
  destruct (Z.eqb_spec (Z.land (bytes_value l) (Z.shiftl 1 128 - 1)) 0); lia.
Qed.

(** ** Wesolowski *)

Lemma wesolowski_equation (x N l pi P : Z) : 0 < N -> 0 <= x -> 1 < l -> 0 <= P ->
  pi mod N = x ^ (P / l) mod N ->
  (pi ^ l mod N * ((x mod N) ^ (P mod l) mod N)) mod N = x ^ P mod N.
Proof.
  intros HN Hx Hl HP Hpi. rewrite <- Zmult_mod, <- Zmult_mod_idemp_r, Z.mod_pow_l, Zmult_mod_idemp_r.
  rewrite <- Zmult_mod_idemp_l, <- (Z.mod_pow_l pi), Hpi, Z.mod_pow_l, Zmult_mod_idemp_l.
  assert (0 <= P / l) by (apply Z.div_pos; lia). pose proof (Z.mod_pos_bound P l ltac:(lia)).
  rewrite <- Z.pow_mul_r, <- Z.pow_add_r by lia. do 2 f_equal.
  rewrite Z.mul_comm. symmetry. apply Z.div_mod. lia.
Qed.

Lemma prove_spec (x T N bits : Z) : 0 < N -> 0 < x -> 1 <= T < 2 ^ 64 ->
  exists proof, proveWesolowski keccak_packed x T N bits = Ok proof
    /\ w_y proof = x ^ (2 ^ T) mod N /\ 3 <= w_l proof /\ 0 <= w_pi proof
    /\ w_r proof = 2 ^ T mod w_l proof
    /\ w_pi proof mod N = x ^ (2 ^ T / w_l proof) mod N
    /\ fiatShamirChallenge keccak_packed (Z.rem x N) (w_y proof) T N bits = Ok (w_l proof).
Proof.
  intros HN Hx HT. unfold proveWesolowski, assertPositiveBigInt, assertValidT.
  rewrite (proj2 (Z.leb_gt N 0)), (proj2 (Z.leb_gt x 0)), (proj2 (Z.ltb_ge T 1)) by lia.
  cbn [res_bind]. rewrite square_loop, Z2Nat.id by lia.
  set (y := x ^ (2 ^ T) mod N). pose proof (Z.mod_pos_bound (x ^ (2 ^ T)) N HN) as Hy. fold y in Hy.
  assert (HxN : 0 <= Z.rem x N) by (rewrite rem_mod by lia; apply Z.mod_pos_bound; lia).
  destruct (fiatShamir_spec (Z.rem x N) y T N bits) as (l & El & Hl); try lia.
  rewrite El. cbn [res_bind].
  pose proof (wesolowski_rounds (Z.rem x N) N l (Z.to_nat T) HN HxN ltac:(lia)) as Hrounds.
  destruct (for_n _ _ (1, 1)) as [pi rem]. rewrite Z2Nat.id in Hrounds by lia.
  destruct Hrounds as (Hr & Hp0 & Hp). eexists. split; [reflexivity|]. cbn [w_y w_l w_pi w_r].
  repeat (split; [assumption || reflexivity || lia|]). split; [|assumption].
  now rewrite Hp, rem_mod, Z.mod_pow_l by lia.
Qed.

(** C28: the Wesolowski prover returns, its output is [x^(2^T) mod N], and the
    verifier accepts its proof; the verifier accepts a claimed output exactly
    when the challenge and the remainder are the expected ones and
    [pi^l x^r = y]. *)
Theorem wesolowski_complete (x T N bits : Z) (proof' : WesolowskiProof)
    (HN : 0 < N) (Hx : 0 < x) (HT : 1 <= T < 2 ^ 64) (Hy : 0 <= w_y proof') :
  (exists proof, proveWesolowski keccak_packed x T N bits = Ok proof
     /\ w_y proof = x ^ (2 ^ T) mod N
     /\ verifyWesolowski keccak_packed x T N proof bits = Ok true)
  /\ exists l, fiatShamirChallenge keccak_packed (x mod N) (w_y proof') T N bits = Ok l
     /\ (verifyWesolowski keccak_packed x T N proof' bits = Ok true
         <-> w_l proof' = l /\ w_r proof' = 2 ^ T mod l
             /\ (w_pi proof' ^ l * x ^ (2 ^ T mod l)) mod N = w_y proof' mod N).
Proof.
  pose proof (Z.mod_pos_bound x N HN) as HxN.
  assert (Hv : forall p l, 0 <= w_y p ->
    fiatShamirChallenge keccak_packed (x mod N) (w_y p) T N bits = Ok l -> 3 <= l ->
    (verifyWesolowski keccak_packed x T N p bits = Ok true
     <-> w_l p = l /\ w_r p = 2 ^ T mod l
         /\ (w_pi p ^ l * x ^ (2 ^ T mod l)) mod N = w_y p mod N)).
  { intros p l Hyp El Hl. unfold verifyWesolowski, assertPositiveBigInt, assertValidT.
    rewrite (proj2 (Z.leb_gt N 0)), (proj2 (Z.ltb_ge T 1)) by lia. cbn [res_bind].
    rewrite (rem_mod x N), El by lia. cbn [res_bind].
    destruct (Z.eqb_spec (w_l p) l) as [El'|Hne]; cbn [negb]; [|split; [discriminate|tauto]].
    rewrite El', (vdf_modPow_spec 2 T l) by lia.
    destruct (Z.eqb_spec (w_r p) (2 ^ T mod l)) as [Er|Hne]; cbn [negb]; [|split; [discriminate|tauto]].
    pose proof (Z.mod_pos_bound (2 ^ T) l ltac:(lia)).
    rewrite !vdf_modPow_spec, Z.mod_pow_l by lia.
    pose proof (Z.mod_pos_bound (w_pi p ^ l) N HN).
    pose proof (Z.mod_pos_bound (x ^ (2 ^ T mod l)) N HN).
    rewrite !rem_mod, <- Zmult_mod by nia.
    destruct (Z.eqb_spec ((w_pi p ^ l * x ^ (2 ^ T mod l)) mod N) (w_y p mod N)) as [E|E].
    - split; auto.
    - split; [discriminate|tauto]. }
  split.
  - destruct (prove_spec x T N bits HN Hx HT) as (p & Ep & Ey & Hl & Hp0 & Er & Hpi & El).
    exists p. split; [assumption|]. split; [assumption|]. rewrite rem_mod in El by lia.
    pose proof (Z.mod_pos_bound (x ^ (2 ^ T)) N HN).
    apply (Hv p (w_l p)); [lia|assumption|assumption|]. split; [reflexivity|]. split; [assumption|].
    pose proof (wesolowski_equation x N (w_l p) (w_pi p) (2 ^ T) HN ltac:(lia) ltac:(lia) ltac:(lia) Hpi)
      as Heq. rewrite Z.mod_pow_l, <- Zmult_mod in Heq. now rewrite Heq, Ey, Z.mod_mod by lia.
  - destruct (fiatShamir_spec (x mod N) (w_y proof') T N bits) as (l & El & Hl); try lia.
    exists l. split; [assumption|]. now apply Hv.
Qed.

(** ** Pietrzak *)

Lemma shr32_pow2 (k : Z) : 1 <= k <= 30 -> shr32 (2 ^ k) 1 = 2 ^ (k - 1).
Proof.
  intros Hk. unfold shr32, int32.
  assert (2 ^ k < 2 ^ 31) by (apply Z.pow_lt_mono_r; lia).
  assert (0 < 2 ^ k) by (apply Z.pow_pos_nonneg; lia).
  rewrite Z.mod_small by lia. rewrite (proj2 (Z.ltb_lt _ _)) by assumption.
  rewrite Z.shiftr_div_pow2 by lia. replace k with (k - 1 + 1) at 1 by lia.
  rewrite Z.pow_add_r by lia. apply Z.div_mul. lia.
Qed.

Lemma bad_power_pow2 (k : Z) : 1 <= k <= 30 -> bad_power (2 ^ k) = false.
Proof.
  intros Hk. unfold bad_power, and32, int32.
  assert (2 ^ k < 2 ^ 31) by (apply Z.pow_lt_mono_r; lia).
  assert (2 ^ 1 <= 2 ^ k) by (apply Z.pow_le_mono_r; lia). change (2 ^ 1) with 2 in *.
  rewrite (proj2 (Z.ltb_ge _ _)) by lia. rewrite !Z.mod_small by lia.
  rewrite !(proj2 (Z.ltb_lt _ (2 ^ 31))) by lia.
  replace (2 ^ k - 1) with (Z.ones k) by (rewrite Z.ones_equiv; lia).
  rewrite Z.land_ones, Z.mod_same by lia. reflexivity.
Qed.

(** The state of a round: [curY = curX^(2^curT)], with [curX] invertible. *)
Definition pietrzak_inv (N X Y T : Z) : Prop :=
  0 <= X < N /\ Z.coprime X N /\ Y = X ^ (2 ^ T) mod N.

Lemma coprime_pos (X N : Z) : 1 < N -> 0 <= X -> Z.coprime X N -> 0 < X.
Proof.
  intros HN HX Hc. destruct (Z.eq_dec X 0) as [->|]; [|lia].
  unfold Z.coprime in Hc. rewrite Z.gcd_0_l in Hc. lia.
Qed.

Lemma pietrzak_round (N X Y half r : Z) : 1 < N -> 0 <= half -> 0 < r ->
  pietrzak_inv N X Y (half + half) ->
  let mu := X ^ (2 ^ half) mod N in
  pietrzak_inv N ((X ^ r mod N * mu) mod N) ((mu ^ r mod N * Y) mod N) half /\ 0 < mu < N.
Proof.
  intros HN Hh Hr (HX & Hc & ->) mu.
  assert (Emu : mu = X ^ 2 ^ half mod N) by reflexivity. clearbody mu.
  pose proof (Z.mod_pos_bound (X ^ 2 ^ half) N ltac:(lia)) as Hmu. rewrite <- Emu in Hmu.
  assert (0 < 2 ^ half) by (apply Z.pow_pos_nonneg; lia).
  assert (Hcmu : Z.coprime mu N).
  { rewrite Emu. apply Z.coprime_mod_l_iff, Z.coprime_pow_l; [lia|assumption]. }
  split; [|pose proof (coprime_pos mu N HN ltac:(lia) Hcmu); lia].
  split; [apply Z.mod_pos_bound; lia|]. split.
  - apply Z.coprime_mod_l_iff, Z.coprime_mul_l; [|assumption].
    apply Z.coprime_mod_l_iff, Z.coprime_pow_l; [lia|assumption].
  - assert (E1 : forall a b, ((a mod N * b) mod N) ^ (2 ^ half) mod N = (a * b) ^ (2 ^ half) mod N).
    { intros a b. now rewrite Z.mod_pow_l, <- (Z.mod_pow_l (a mod N * b)), Zmult_mod_idemp_l, Z.mod_pow_l. }
    rewrite E1, Z.pow_mul_l, <- Zmult_mod.
    replace ((X ^ r) ^ 2 ^ half) with ((X ^ 2 ^ half) ^ r)
      by (rewrite <- !Z.pow_mul_r by lia; f_equal; lia).
    rewrite (Zmult_mod (mu ^ r)), (Zmult_mod ((X ^ 2 ^ half) ^ r)).
    rewrite <- (Z.mod_pow_l (X ^ 2 ^ half) r), <- Emu. do 2 f_equal.
    rewrite Emu, Z.mod_pow_l, <- Z.pow_mul_r by lia. now rewrite <- Z.pow_add_r by lia.
Qed.

(** Prover and verifier run the same rounds. *)
Lemma pietrzak_lockstep (N : Z) (k fuel : nat) (X Y : Z) (acc : list Z) :
  1 < N -> (k < fuel)%nat -> (k <= 30)%nat -> pietrzak_inv N X Y (2 ^ Z.of_nat k) ->
  exists mus X' Y',
    pietrzak_loop keccak_packed fuel X Y (2 ^ Z.of_nat k) N acc = Ok (acc ++ mus)
    /\ length mus = k
    /\ verify_rounds keccak_packed mus X Y (2 ^ Z.of_nat k) N = Ok (Some (X', Y', 1))
    /\ Z.rem (X' * X') N = Y'.
Proof.
  intros HN. revert fuel X Y acc. induction k as [|k IH]; intros fuel X Y acc Hf Hk Hinv.
  - destruct fuel as [|fuel]; [lia|]. exists [], X, Y. rewrite app_nil_r.
    split; [reflexivity|]. split; [reflexivity|]. split; [reflexivity|].
    destruct Hinv as (HX & _ & ->). rewrite rem_mod by nia. f_equal.
    change (2 ^ 2 ^ Z.of_nat 0) with 2. now rewrite Z.pow_2_r.
  - destruct fuel as [|fuel]; [lia|]. cbn [pietrzak_loop].
    set (half := 2 ^ Z.of_nat k).
    assert (E2 : 2 ^ Z.of_nat (S k) = half + half)
      by (rewrite Nat2Z.inj_succ, Z.pow_succ_r by lia; fold half; lia).
    assert (Hhalf : 0 < half) by (apply Z.pow_pos_nonneg; lia).
    assert (Hhb : half + half < 2 ^ 31) by (rewrite <- E2; apply Z.pow_lt_mono_r; lia).
    assert (Hshr : shr32 (2 ^ Z.of_nat (S k)) 1 = half).
    { rewrite shr32_pow2 by lia. unfold half. f_equal. lia. }
    rewrite (proj2 (Z.ltb_lt 1 _)), Hshr by lia. rewrite E2 in *.
    pose proof Hinv as (HX & Hc & EY). pose proof (coprime_pos X N HN ltac:(lia) Hc) as HX0.
    rewrite evaluateVdf_spec by lia. cbn [res_bind].
    set (mu := X ^ (2 ^ half) mod N).
    assert (Hmu0 : 0 <= mu < N) by (apply Z.mod_pos_bound; lia).
    assert (HY : 0 <= Y < N) by (rewrite EY; apply Z.mod_pos_bound; lia).
    destruct (pietrzak_challenge_spec X Y mu (half + half) N) as (r & Er & Hr); try lia.
    rewrite Er. cbn [res_bind].
    destruct (pietrzak_round N X Y half r HN ltac:(lia) Hr Hinv) as [Hinv' Hmu]. fold mu in Hinv', Hmu.
    assert (HXr : Z.rem (modPow X r N * mu) N = (X ^ r mod N * mu) mod N).
    { rewrite vdf_modPow_spec by lia. apply rem_mod; [|lia].
      pose proof (Z.mod_pos_bound (X ^ r) N ltac:(lia)). nia. }
    assert (HYr : Z.rem (modPow mu r N * Y) N = (mu ^ r mod N * Y) mod N).
    { rewrite vdf_modPow_spec by lia. apply rem_mod; [|lia].
      pose proof (Z.mod_pos_bound (mu ^ r) N ltac:(lia)). nia. }
    rewrite HXr, HYr.
    destruct (IH fuel _ _ (acc ++ [mu]) ltac:(lia) ltac:(lia) Hinv') as (mus & X' & Y' & E1 & El & Ev & Ef).
    exists (mu :: mus), X', Y'. fold half in E1, Ev. rewrite E1, <- app_assoc.
    split; [reflexivity|]. split; [cbn; congruence|]. split; [|assumption].
    cbn [verify_rounds]. rewrite (proj2 (Z.leb_gt mu 0)), (proj2 (Z.leb_gt N mu)) by lia. cbn [orb].
    rewrite Er. cbn [res_bind]. rewrite Hshr, HXr, HYr. exact Ev.
Qed.

(** for a power of two within 31 bits and an invertible [x], the Pietrzak
    prover returns, its output is [x^(2^T) mod N] with [log2 T] values, and the
    verifier accepts its proof. *)
Theorem pietrzak_complete (x N : Z) (k : nat)
    (HN : 1 < N) (Hx : 0 < x) (Hc : Z.coprime x N) (Hk : (1 <= k <= 30)%nat) :
  let T := 2 ^ Z.of_nat k in
  exists proof, provePietrzak keccak_packed x T N = Ok proof
    /\ p_y proof = x ^ (2 ^ T) mod N /\ length (p_mus proof) = k
    /\ verifyPietrzak keccak_packed x T N proof = Ok true.
Proof.
  intros T. assert (ET : 2 ^ Z.of_nat k = T) by reflexivity. clearbody T. unfold provePietrzak, assertPositiveBigInt.
  rewrite (proj2 (Z.leb_gt N 0)), (proj2 (Z.leb_gt x 0)) by lia. cbn [res_bind].
  assert (HT : 0 < T) by (rewrite <- ET; apply Z.pow_pos_nonneg; lia).
  pose proof (bad_power_pow2 (Z.of_nat k) ltac:(lia)) as Hbad. rewrite ET in Hbad. rewrite Hbad.
  assert (HcN : Z.coprime (x mod N) N) by now apply Z.coprime_mod_l_iff.
  pose proof (Z.mod_pos_bound x N ltac:(lia)) as HxN.
  pose proof (coprime_pos (x mod N) N HN ltac:(lia) HcN) as HxN0. rewrite (rem_mod x N) by lia.
  rewrite evaluateVdf_spec, Z.mod_pow_l by lia. cbn [res_bind].
  destruct (pietrzak_lockstep N k 32 (x mod N) (x ^ (2 ^ T) mod N) [] HN ltac:(lia) ltac:(lia))
    as (mus & X' & Y' & E1 & El & Ev & Ef).
  { split; [lia|]. split; [assumption|]. now rewrite ET, Z.mod_pow_l. }
  rewrite ET in E1, Ev. rewrite E1. cbn [res_bind app]. eexists. split; [reflexivity|].
  cbn [p_y p_mus]. split; [reflexivity|]. split; [assumption|].
  unfold verifyPietrzak, assertPositiveBigInt. cbn [p_y p_mus].
  rewrite (proj2 (Z.leb_gt N 0)) by lia. cbn [res_bind].
  rewrite Hbad, El, ET, Z.eqb_refl. cbn [negb].
  pose proof (Z.mod_pos_bound (x ^ (2 ^ T)) N ltac:(lia)).
  rewrite (rem_mod x), (rem_mod (x ^ (2 ^ T) mod N)), Z.mod_mod, Ev by lia. cbn [res_bind].
  now rewrite Ef, !Z.eqb_refl.
Qed.
End Completeness.

(** * The Miller-Rabin test and the search for a prime

    Every prime passes the test whatever the number of rounds, hence the search
    of [findPrimeNear] ends: there is a prime above every start. *)

Open Scope list_scope.
Open Scope Z_scope.

(** ** The decomposition [n - 1 = d 2^s] *)

Lemma odd_part_spec (f : nat) (d s : Z) : 0 < d < 2 ^ Z.of_nat (S f) -> 0 <= s ->
  let '(d', s') := odd_part f d s in
  0 < d' /\ s <= s' /\ d = d' * 2 ^ (s' - s) /\ Z.odd d' = true.
Proof.
  revert d s. induction f as [|f IH]; intros d s Hd Hs; cbn [odd_part].
  - change (2 ^ Z.of_nat 1) with 2 in Hd. replace d with 1 by lia.
    rewrite Z.sub_diag. repeat split; lia.
  - rewrite land_1. destruct (Z.eqb_spec (d mod 2) 0) as [E|E].
    + rewrite Z.shiftr_div_pow2 by lia. change (2 ^ 1) with 2.
      pose proof (Z.div_mod d 2 ltac:(lia)) as Edm. rewrite E, Z.add_0_r in Edm.
      rewrite Nat2Z.inj_succ, Z.pow_succ_r in Hd by lia.
      specialize (IH (d / 2) (s + 1) ltac:(lia) ltac:(lia)).
      destruct (odd_part f (d / 2) (s + 1)) as [d' s']. destruct IH as (H0 & H1 & H2 & H3).
      repeat split; try assumption; try lia. rewrite Edm at 1. rewrite H2.
      replace (s' - s) with (s' - (s + 1) + 1) by lia. rewrite (Z.pow_add_r 2 _ 1) by lia.
      rewrite Z.pow_1_r. ring.
    + rewrite Z.sub_diag, Z.pow_0_r, Z.mul_1_r. repeat split; try lia.
      rewrite Zodd_mod. pose proof (Z.mod_pos_bound d 2). apply Z.eqb_eq. lia.
Qed.

(** The value of [n] at which the test decomposes [n - 1]. *)
Lemma odd_part_test (n : Z) : 3 < n -> Z.odd n = true ->
  let '(d, s) := odd_part (Z.to_nat (Z.log2 n)) (n - 1) 0 in
  0 < d /\ 1 <= s /\ n - 1 = d * 2 ^ s.
Proof.
  intros Hn Ho. pose proof (odd_part_spec (Z.to_nat (Z.log2 n)) (n - 1) 0) as H.
  destruct (Z.log2_spec n ltac:(lia)) as [_ Hlog].
  rewrite Nat2Z.inj_succ, Z2Nat.id in H by apply Z.log2_nonneg.
  specialize (H ltac:(lia) ltac:(lia)).
  destruct (odd_part _ (n - 1) 0) as [d s]. destruct H as (H0 & H1 & H2 & H3).
  rewrite Z.sub_0_r in H2. repeat split; try lia.
  destruct (Z.eq_dec s 0) as [->|]; [|lia]. rewrite Z.pow_0_r, Z.mul_1_r in H2. subst d.
  rewrite Z.odd_sub, Ho in H3. discriminate.
Qed.

(** ** Primes pass *)

Lemma square_roots_of_one (p x : Z) : Z.prime p -> 0 <= x < p -> (x * x) mod p = 1 ->
  x = 1 \/ x = p - 1.
Proof.
  intros Hp Hx E. pose proof (Z.prime_ge_2 p Hp).
  assert (Hd : (p | (x - 1) * (x + 1))).
  { apply Z.mod_divide; [lia|]. replace ((x - 1) * (x + 1)) with (x * x - 1) by ring.
    rewrite Zminus_mod, E, Z.mod_1_l, Z.sub_diag, Z.mod_0_l by lia. reflexivity. }
  apply Z.divide_prime_mul in Hd as [Hd|Hd]; [| |assumption]; apply Z.mod_divide in Hd; try lia.
  - left. destruct (Z.eq_dec x 0) as [->|]; [rewrite Z.mod_0_l in E; lia|].
    rewrite Z.mod_small in Hd; lia.
  - right. destruct (Z.eq_dec (x + 1) p); [lia|]. rewrite Z.mod_small in Hd; lia.
Qed.

(** If squaring [k + 1] times gives 1, one of the first [k] squares is [-1]. *)
Lemma squares_to_prime (p : Z) (k : nat) (x : Z) : Z.prime p -> 0 <= x < p ->
  x <> 1 -> x <> p - 1 -> x ^ (2 ^ Z.of_nat (S k)) mod p = 1 -> squares_to k p x = true.
Proof.
  intros Hp. pose proof (Z.prime_ge_2 p Hp). revert x. induction k as [|k IH]; intros x Hx H1 H2 E.
  - change (2 ^ Z.of_nat 1) with 2 in E. rewrite Z.pow_2_r in E.
    destruct (square_roots_of_one p x Hp Hx E); contradiction.
  - cbn [squares_to]. rewrite rem_mod by nia.
    pose proof (Z.mod_pos_bound (x * x) p ltac:(lia)) as Hb.
    destruct (Z.eqb_spec ((x * x) mod p) (p - 1)) as [|Hne]; [reflexivity|].
    apply IH; [assumption| |assumption|].
    + intros E1. destruct (square_roots_of_one p x Hp Hx E1); contradiction.
    + rewrite Z.mod_pow_l. rewrite Nat2Z.inj_succ, Z.pow_succ_r, Z.pow_mul_r, Z.pow_2_r in E by lia.
      exact E.
Qed.

Lemma mr_round_prime (p d s : Z) (i : nat) : Z.prime p -> 0 < d -> 1 <= s -> p - 1 = d * 2 ^ s ->
  mr_round p d s i = true.
Proof.
  intros Hp Hd Hs Edec. pose proof (Z.prime_ge_2 p Hp). unfold mr_round.
  set (b := nth (i mod length mr_bases) mr_bases 0).
  assert (Hb : 0 <= b).
  { unfold b, mr_bases. destruct (i mod _)%nat as [|[|[|[|[|[|[|[|[|n]]]]]]]]]; cbn; try lia.
    destruct n; lia. }
  rewrite rem_mod by lia. set (a := b mod p).
  assert (Ha : 0 <= a < p) by (apply Z.mod_pos_bound; lia).
  destruct (Z.eqb_spec a 0) as [|Ha0]; [reflexivity|]. rewrite vdf_modPow_spec by lia.
  set (x := a ^ d mod p). assert (Hx : 0 <= x < p) by (apply Z.mod_pos_bound; lia).
  destruct (Z.eqb_spec x 1) as [|Hx1]; [reflexivity|].
  destruct (Z.eqb_spec x (p - 1)) as [|Hx2]; [reflexivity|]. cbn [orb].
  apply squares_to_prime; try assumption.
  replace (Z.of_nat (S (Z.to_nat (s - 1)))) with s by lia.
  unfold x. rewrite Z.mod_pow_l, <- Z.pow_mul_r, <- Edec by lia.
  apply Z.fermat_nz; [assumption|]. now rewrite Z.mod_small by lia.
Qed.

Lemma test_prime (p : Z) (rounds : nat) : Z.prime p -> isProbablePrime p rounds = true.
Proof.
  intros Hp. pose proof (Z.prime_ge_2 p Hp). unfold isProbablePrime.
  rewrite (proj2 (Z.ltb_ge _ _)) by lia.
  destruct (Z.eqb_spec p 2) as [|H2]; [reflexivity|].
  destruct (Z.eqb_spec p 3) as [|H3]; [reflexivity|]. cbn [orb].
  assert (Ho : p mod 2 <> 0).
  { intros E. apply Z.mod_divide in E; [|lia]. destruct Hp as [_ Hp]. apply (Hp 2); [lia|assumption]. }
  rewrite land_1, (proj2 (Z.eqb_neq _ _) Ho).
  assert (Hodd : Z.odd p = true).
  { rewrite Zodd_mod. pose proof (Z.mod_pos_bound p 2). apply Z.eqb_eq. lia. }
  pose proof (odd_part_test p ltac:(lia) Hodd) as Hd.
  destruct (odd_part _ (p - 1) 0) as [d s]. destruct Hd as (Hd & Hs & Edec).
  apply forallb_forall. intros i _. now apply mr_round_prime.
Qed.

(** ** The search ends *)

Lemma divides_fact (q : Z) (n : nat) : 1 <= q <= Z.of_nat n -> (q | Z.of_nat (fact n)).
Proof.
  induction n as [|n IH]; intros Hq; [lia|].
  change (fact (S n)) with (S n * fact n)%nat. rewrite Nat2Z.inj_mul.
  destruct (Z.eq_dec q (Z.of_nat (S n))) as [->|Hne]; [apply Z.divide_factor_l|].
  apply Z.divide_mul_r, IH. lia.
Qed.

Lemma prime_above (n : Z) : exists p, Z.prime p /\ n < p.
Proof.
  destruct (Z.le_gt_cases n 1) as [Hn|Hn]; [exists 2; split; [apply Z.prime_2|lia]|].
  set (m := Z.to_nat n). pose proof (lt_O_fact m) as Hf.
  destruct (prime_factor (Z.of_nat (fact m) + 1) ltac:(lia)) as (p & Hp & Hd).
  exists p. split; [assumption|]. pose proof (Z.prime_ge_2 p Hp).
  destruct (Z.le_gt_cases p n) as [Hle|]; [exfalso|assumption].
  assert (Hpf : (p | Z.of_nat (fact m))) by (apply divides_fact; unfold m; lia).
  assert (Hone : (p | 1)).
  { replace 1 with (Z.of_nat (fact m) + 1 - Z.of_nat (fact m)) by lia. now apply Z.divide_sub_r. }
  apply Z.divide_pos_le in Hone; lia.
Qed.

Lemma find_from_reaches (k : nat) (n : Z) : isProbablePrime (n + 2 * Z.of_nat k) 16 = true ->
  exists j, (j <= k)%nat /\ find_from (S k) n = Some (n + 2 * Z.of_nat j)
    /\ isProbablePrime (n + 2 * Z.of_nat j) 16 = true
    /\ forall i, (i < j)%nat -> isProbablePrime (n + 2 * Z.of_nat i) 16 = false.
Proof.
  revert n. induction k as [|k IH]; intros n Hk.
  - exists 0%nat. rewrite Z.add_0_r in *. cbn [find_from]. rewrite Hk.
    repeat split; auto; lia.
  - cbn [find_from]. destruct (isProbablePrime n 16) eqn:E.
    + exists 0%nat. rewrite Z.add_0_r. repeat split; auto; lia.
    + destruct (IH (n + 2)) as (j & Hj & Ef & Ht & Hbefore).
      { replace (n + 2 + 2 * Z.of_nat k) with (n + 2 * Z.of_nat (S k)) by lia. assumption. }
      exists (S j). replace (n + 2 * Z.of_nat (S j)) with (n + 2 + 2 * Z.of_nat j) by lia.
      split; [lia|]. split; [exact Ef|]. split; [assumption|].
      intros [|i] Hi; [now rewrite Z.add_0_r|].
      replace (n + 2 * Z.of_nat (S i)) with (n + 2 + 2 * Z.of_nat i) by lia. apply Hbefore. lia.
Qed.

(** the search for a prime from any non-negative start ends, at the first
    odd number from the start on that passes the test; every prime passes it, for
    any number of rounds. *)
Theorem findPrimeNear_terminates (start : Z) (Hstart : 0 <= start) :
  (exists fuel j, findPrimeNear fuel start = Some (Z.lor start 1 + 2 * Z.of_nat j)
     /\ isProbablePrime (Z.lor start 1 + 2 * Z.of_nat j) 16 = true
     /\ forall i, (i < j)%nat -> isProbablePrime (Z.lor start 1 + 2 * Z.of_nat i) 16 = false)
  /\ forall p rounds, Z.prime p -> isProbablePrime p rounds = true.
Proof.
  split; [|intros; now apply test_prime].
  set (n := Z.lor start 1).
  assert (Hn : 0 <= n /\ n mod 2 = 1).
  { unfold n. split; [apply Z.lor_nonneg; lia|]. rewrite <- land_1, Z.land_lor_distr_l.
    rewrite land_1, (land_1 1). change (1 mod 2) with 1.
    pose proof (Z.mod_pos_bound start 2 ltac:(lia)).
    assert (start mod 2 = 0 \/ start mod 2 = 1) as [-> | ->] by lia; reflexivity. }
  destruct (prime_above (n + 2)) as (p & Hp & Hlt).
  assert (Hodd : p mod 2 = 1).
  { destruct (Z.eq_dec (p mod 2) 0) as [E|]; [exfalso|pose proof (Z.mod_pos_bound p 2); lia].
    apply Z.mod_divide in E; [|lia]. destruct Hp as [_ Hp]. apply (Hp 2); [lia|assumption]. }
  set (k := Z.to_nat ((p - n) / 2)).
  assert (Ek : n + 2 * Z.of_nat k = p).
  { unfold k. rewrite Z2Nat.id by (apply Z.div_pos; lia).
    pose proof (Z.div_mod (p - n) 2 ltac:(lia)) as Edm.
    rewrite Zminus_mod, Hodd, (proj2 Hn) in Edm. change ((1 - 1) mod 2) with 0 in Edm. lia. }
  destruct (find_from_reaches k n) as (j & _ & Ef & Ht & Hb).
  - rewrite Ek. now apply test_prime.
  - exists (S k), j. auto.
Qed.

Lemma findPrimeNear_terminates_witness :
  (exists fuel p, findPrimeNear fuel 90 = Some p) /\ isProbablePrime 97 16 = true.
Proof.
  destruct (findPrimeNear_terminates 90 ltac:(lia)) as [(fuel & j & E & _) Hp].
  split; [now exists fuel, (Z.lor 90 1 + 2 * Z.of_nat j)|].
  apply Hp, small_prime_sound. reflexivity.
Defined.

(** * Opening a timelock, and the test for primes

    Against the interfaces of the hash and of the platform's primitives.  The
    primality test accepts every prime, so the search for a modulus ends. *)

Open Scope list_scope.
Open Scope Z_scope.

(** ** An instance of the hash, for the witnesses *)
Definition ones_digest (vs : list SolVal) : res string := Ok ("0x" ++ repeat_char 64 "f")%string.

#[export] Instance ones_digest_laws : KeccakLaws ones_digest.
Proof. constructor. intros vs _. exists (repeat_char 64 "f"). repeat split. Qed.

Lemma wesolowski_complete_witness :
  exists proof, proveWesolowski ones_digest 5 10 77 128 = Ok proof
    /\ verifyWesolowski ones_digest 5 10 77 proof 128 = Ok true.
Proof.
  destruct (wesolowski_complete ones_digest 5 10 77 128 (mkWes 0 0 0 0) ltac:(lia) ltac:(lia)
              ltac:(lia) ltac:(cbn; lia)) as [(p & E & _ & V) _].
  exists p. exact (conj E V).
Defined.

Lemma pietrzak_complete_witness :
  exists proof, provePietrzak ones_digest 5 (2 ^ Z.of_nat 3) 77 = Ok proof
    /\ verifyPietrzak ones_digest 5 (2 ^ Z.of_nat 3) 77 proof = Ok true.
Proof.
  destruct (pietrzak_complete ones_digest 5 77 3 ltac:(lia) ltac:(lia) ltac:(reflexivity) ltac:(lia))
    as (p & E & _ & _ & V).
  exists p. exact (conj E V).
Defined.

(** ** Timelock *)
Section Timelock.
Variable keccak_packed : list SolVal -> res string.
Context {K : KeccakLaws keccak_packed} {W : WebCrypto} {L : WebCryptoLaws W}.

(** Parameters the engine accepts: a given [x] is positive, and the challenge
    element is derived for a modulus of 256 bits. *)
Definition params_ok (params : VdfParams) : Prop :=
  0 < vp_N params /\ 1 <= vp_T params < 2 ^ 64
  /\ match vp_x params with Some x => 0 < x | None => vp_N params < 2 ^ 256 end.

Definition start_element (params : VdfParams) : res Z :=
  match vp_x params with
  | Some x => Ok x
  | None => deriveChallengeElement keccak_packed (vp_N params) (vp_T params)
  end.

Lemma start_element_spec (params : VdfParams) : params_ok params ->
  exists x, start_element params = Ok x /\ 0 < x.
Proof.
  intros (HN & HT & Hx). unfold start_element. destruct (vp_x params) as [x|]; [now exists x|].
  unfold deriveChallengeElement, assertPositiveBigInt, assertValidT.
  rewrite (proj2 (Z.leb_gt (vp_N params) 0)), (proj2 (Z.ltb_ge (vp_T params) 1)) by lia.
  cbn [res_bind]. destruct (toBytesBE_spec (vp_N params) ltac:(lia)) as (nb & -> & Hb & _).
  cbn [res_bind].
  destruct (digest_value keccak_packed [SBytes nb; SUint256 (vp_N params); SUint64 (vp_T params)])
    as (d & l & -> & El & Ev & Hl).
  { constructor; [exact Hb|]. constructor; [split; [lia|exact Hx]|]. constructor; [|constructor].
    split; [lia|apply HT]. }
  cbn [res_bind]. rewrite El. cbn [res_bind]. rewrite Ev. cbn [res_bind].
  eexists. split; [reflexivity|]. destruct (Z.leb_spec (Z.rem (bytes_value l) (vp_N params)) 1); lia.
Qed.

(** What a timelock holds. *)
Definition lock_of (iv plain : list Z) (N T x : Z) (proof : WesolowskiProof) (key : list Z)
    : TimelockCiphertext :=
  mkLock TIMELOCK_VERSION (to_hex N) T (to_hex x) (to_hex (w_y proof)) (to_hex (w_pi proof))
    (to_hex (w_l proof)) (uint8ArrayToBase64 iv) (uint8ArrayToBase64 (aes_gcm_encrypt key iv [] plain)).

Lemma derive_key_spec (y : Z) : 0 <= y -> exists key, deriveKeyFromVdfOutput y = Ok key.
Proof.
  intros Hy. unfold deriveKeyFromVdfOutput. destruct (toBytesBE_spec y Hy) as (l & -> & _).
  eexists. reflexivity.
Qed.

Lemma encrypt_timelock_spec (iv : list Z) (s : string) (params : VdfParams) (bits x : Z) :
  params_ok params -> start_element params = Ok x -> 0 < x ->
  exists proof key, proveWesolowski keccak_packed x (vp_T params) (vp_N params) bits = Ok proof
    /\ deriveKeyFromVdfOutput (w_y proof) = Ok key
    /\ encryptTimelock keccak_packed iv (DText s) params bits
       = Ok (lock_of iv (text_encode s) (vp_N params) (vp_T params) x proof key).
Proof.
  intros (HN & HT & _) Ex Hx. unfold encryptTimelock. fold (start_element params). rewrite Ex.
  cbn [res_bind]. destruct (prove_spec keccak_packed x (vp_T params) (vp_N params) bits HN Hx HT)
    as (p & -> & Ey & _). cbn [res_bind].
  destruct (derive_key_spec (w_y p)) as (key & Ek); [rewrite Ey; apply Z.mod_pos_bound; lia|].
  rewrite Ek. cbn [res_bind]. exists p, key. auto.
Qed.

(** Opening a lock gets to the check of the proof. *)
Lemma decrypt_timelock_step (iv plain key : list Z) (N T x bits : Z) (proof : WesolowskiProof) :
  0 < N -> 1 <= T < 2 ^ 64 -> 0 < x ->
  proveWesolowski keccak_packed x T N bits = Ok proof ->
  decryptTimelock keccak_packed (lock_of iv plain N T x proof key)
  = let! valid := verifyWesolowski keccak_packed x T N proof DEFAULT_CHALLENGE_BITS in
    throw_if negb valid with "Invalid Wesolowski VDF proof"%string;;
    let! key' := deriveKeyFromVdfOutput (w_y proof) in
    let! iv' := base64ToUint8Array (uint8ArrayToBase64 iv) in
    let! c := base64ToUint8Array (uint8ArrayToBase64 (aes_gcm_encrypt key iv [] plain)) in
    match aes_gcm_decrypt key' iv' [] c with
    | Some decrypted => Ok (text_decode decrypted)
    | None => Throw "AES-GCM decryption failed"
    end.
Proof.
  intros HN HT Hx Ep. destruct (prove_spec keccak_packed x T N bits HN Hx HT)
    as (p & E & Ey & Hl & Hp0 & Er & Hpi & El). rewrite Ep in E. injection E as <-.
  assert (Hy : 0 <= w_y proof) by (rewrite Ey; apply Z.mod_pos_bound; lia).
  unfold decryptTimelock, lock_of. cbn [tl_version tl_N tl_T tl_x tl_y tl_pi tl_l tl_iv tl_ciphertext].
  rewrite String.eqb_refl, !BigInt_hex_to_hex by lia. cbn [negb res_bind].
  rewrite evaluateVdf_spec, <- Ey by lia. cbn [res_bind]. rewrite Z.eqb_refl. cbn [negb].
  rewrite vdf_modPow_spec, <- Er by lia. destruct proof. reflexivity.
Qed.

(** a document locked with the default challenge size opens to the same
    text, for any parameters the engine accepts. *)
Theorem timelock_roundtrip (iv : list Z) (s : string) (params : VdfParams)
    (Hiv : bytes iv) (Hp : params_ok params) :
  exists ct, encryptTimelock keccak_packed iv (DText s) params DEFAULT_CHALLENGE_BITS = Ok ct
    /\ decryptTimelock keccak_packed ct = Ok s.
Proof.
  destruct (start_element_spec params Hp) as (x & Ex & Hx).
  destruct (encrypt_timelock_spec iv s params DEFAULT_CHALLENGE_BITS x Hp Ex Hx)
    as (proof & key & Ep & Ek & E). eexists. split; [exact E|].
  destruct Hp as (HN & HT & _).
  rewrite (decrypt_timelock_step _ _ _ _ _ _ _ _ HN HT Hx Ep).
  destruct (wesolowski_complete keccak_packed x (vp_T params) (vp_N params) DEFAULT_CHALLENGE_BITS
              (mkWes 0 0 0 0) HN Hx HT ltac:(cbn; lia)) as [(p & E' & _ & V) _].
  rewrite Ep in E'. injection E' as <-. rewrite V. cbn [res_bind negb]. rewrite Ek. cbn [res_bind].
  rewrite base64_round by assumption. cbn [res_bind].
  rewrite base64_round by auto with webcrypto. cbn [res_bind].
  rewrite decrypt_encrypt. now rewrite decode_encode.
Qed.

(** a document locked with another challenge size never opens: when the
    challenge differs from the default one, opening the lock fails with an
    invalid proof. *)
Theorem timelock_other_challenge (iv : list Z) (s : string) (N T x bits : Z)
    (HN : 0 < N) (HT : 1 <= T < 2 ^ 64) (Hx : 0 < x)
    (Hbits : fiatShamirChallenge keccak_packed (x mod N) (x ^ (2 ^ T) mod N) T N bits
             <> fiatShamirChallenge keccak_packed (x mod N) (x ^ (2 ^ T) mod N) T N DEFAULT_CHALLENGE_BITS) :
  exists ct, encryptTimelock keccak_packed iv (DText s) (mkParams N T (Some x)) bits = Ok ct
    /\ decryptTimelock keccak_packed ct = Throw "Invalid Wesolowski VDF proof".
Proof.
  destruct (encrypt_timelock_spec iv s (mkParams N T (Some x)) bits x) as (proof & key & Ep & Ek & E);
    [repeat split; assumption || apply HT|reflexivity|assumption|]. cbn [vp_N vp_T] in *.
  eexists. split; [exact E|]. rewrite (decrypt_timelock_step _ _ _ _ _ _ _ _ HN HT Hx Ep).
  destruct (prove_spec keccak_packed x T N bits HN Hx HT) as (p & E' & Ey & _ & _ & _ & _ & El).
  rewrite Ep in E'. injection E' as <-. rewrite rem_mod in El by lia.
  assert (Hy : 0 <= w_y proof) by (rewrite Ey; apply Z.mod_pos_bound; lia).
  destruct (wesolowski_complete keccak_packed x T N DEFAULT_CHALLENGE_BITS proof HN Hx HT Hy)
    as [_ (l & Efs & Hiff)].
  assert (Hne : w_l proof <> l).
  { intros Heq. apply Hbits. rewrite <- Ey. congruence. }
  unfold verifyWesolowski, assertPositiveBigInt, assertValidT.
  rewrite (proj2 (Z.leb_gt N 0)), (proj2 (Z.ltb_ge T 1)) by lia. cbn [res_bind].
  rewrite (rem_mod x N), Efs by lia. cbn [res_bind].
  rewrite (proj2 (Z.eqb_neq _ _) Hne). reflexivity.
Qed.
End Timelock.

Import Mirror.

Lemma timelock_roundtrip_witness :
  exists ct, encryptTimelock (W := Mirror.mirror) ones_digest [1; 2; 3] (DText "will")
               (mkParams 77 10 None) 128 = Ok ct
    /\ decryptTimelock (W := Mirror.mirror) ones_digest ct = Ok "will"%string.
Proof.
  apply (timelock_roundtrip ones_digest [1; 2; 3] "will" (mkParams 77 10 None)).
  - repeat constructor; unfold is_byte; lia.
  - unfold params_ok. cbn. lia.
Defined.

Lemma timelock_other_challenge_witness :
  exists ct, encryptTimelock (W := Mirror.mirror) ones_digest [1; 2; 3] (DText "will")
               (mkParams 77 10 (Some 5)) 64 = Ok ct
    /\ decryptTimelock (W := Mirror.mirror) ones_digest ct = Throw "Invalid Wesolowski VDF proof".
Proof.
  apply (timelock_other_challenge ones_digest [1; 2; 3] "will" 77 10 5 64 ltac:(lia) ltac:(lia) ltac:(lia)).
  vm_compute. discriminate.
Defined.

(** ** The engine of vdfTimelock.service.ts

    A chain of hashes in place of the squarings, and AES-GCM under the hash of its end. *)
Module Engine.
Section Engine.
Context {W : WebCrypto}.

Record VdfProof : Type := mkVdfProof { output : string; proof : string; targetSteps : Z }.

Definition deriveKey (vdfOutput : string) : list Z := sha256 (text_encode vdfOutput).

(** [for (let i = 0; i < targetSteps; i++)] *)
Definition evaluateVdf (seed : string) (targetSteps : Z) : VdfProof :=
  let current := Nat.iter (Z.to_nat targetSteps) sha256 (text_encode seed) in
  let outputHex := bytes_hex current in
  let proofHex := bytes_hex (sha256 (text_encode (seed ++ ":" ++ outputHex ++ ":" ++ num_str targetSteps)%string)) in
  mkVdfProof outputHex proofHex targetSteps.

(** The text of the ciphertext and of the vector.  [createCipheriv] keeps the tag apart. *)
Definition encryptDocument (iv_drawn : list Z) (plaintext vdfOutput : string) : string * string :=
  let key := deriveKey vdfOutput in
  let sealed := aes_gcm_encrypt key iv_drawn [] (text_encode plaintext) in
  (bytes_hex (firstn (length sealed - TAG_BYTES) sealed), bytes_hex iv_drawn).

(** Waiting for more steps goes on from the end of the first ones. *)
Lemma chain_continues (a b : Z) (x : list Z) : 0 <= a -> 0 <= b ->
  Nat.iter (Z.to_nat (a + b)) sha256 x = Nat.iter (Z.to_nat b) sha256 (Nat.iter (Z.to_nat a) sha256 x).
Proof. intros Ha Hb. rewrite Z2Nat.inj_add, Nat.add_comm by assumption. apply Nat.iter_add. Qed.

(** What is kept of a document is its ciphertext without the tag: the sixteen bytes that the
    decryption asks for are dropped, and with them it would give the document back. *)
Theorem engine_drops_tag {L : WebCryptoLaws W} (iv_drawn : list Z) (plaintext vdfOutput : string) :
  exists tag, length tag = TAG_BYTES
    /\ option_map text_decode (aes_gcm_decrypt (deriveKey vdfOutput) iv_drawn [] (hex_bytes (fst (encryptDocument iv_drawn plaintext vdfOutput)) ++ tag)) = Some plaintext
    /\ String.length (fst (encryptDocument iv_drawn plaintext vdfOutput)) = (2 * length (text_encode plaintext))%nat.
Proof.
  unfold encryptDocument. set (key := deriveKey vdfOutput). set (sealed := aes_gcm_encrypt key iv_drawn [] (text_encode plaintext)). cbn [fst].
  assert (Hl : length sealed = (length (text_encode plaintext) + TAG_BYTES)%nat) by apply encrypt_length.
  assert (Hb : bytes (firstn (length sealed - TAG_BYTES) sealed)).
  { assert (H : bytes sealed) by (apply encrypt_bytes, encode_bytes). rewrite <- (firstn_skipn (length sealed - TAG_BYTES)) in H. now apply Forall_app in H. }
  exists (skipn (length sealed - TAG_BYTES) sealed). split; [rewrite length_skipn; lia|]. split.
  - rewrite hex_bytes_bytes_hex by exact Hb. rewrite firstn_skipn. unfold sealed. rewrite decrypt_encrypt. cbn. now rewrite decode_encode.
  - rewrite bytes_hex_length by exact Hb. rewrite length_firstn, Hl. lia.
Qed.
End Engine.

Lemma engine_drops_tag_witness : exists tag, length tag = TAG_BYTES
  /\ option_map text_decode (aes_gcm_decrypt (deriveKey (output (evaluateVdf "seed" 3))) [1; 2; 3] []
       (hex_bytes (fst (encryptDocument [1; 2; 3] "will" (output (evaluateVdf "seed" 3)))) ++ tag)) = Some "will"%string.
Proof.
  destruct (engine_drops_tag [1; 2; 3] "will" (output (evaluateVdf "seed" 3))) as (tag & Hl & Hd & _). now exists tag.
Defined.
End Engine.
