(* ===== verification/StreamCrypto.v ===== *)
(** * StreamCrypto: the chunked encryption of streamingCrypto.service.ts

    A transform stream is a state with a handler for each chunk and one for the
    end.  A handler emits chunks and then returns or throws ([run]); what was
    emitted before an error stays emitted.  A chunk is a byte array at the end of
    its buffer, as the platform's streams deliver them and as [subarray] leaves
    the rest of one. *)

From Stdlib Require Import Ascii String ZArith List Lia Bool.
Import ListNotations.
From S2P Require Import Prelude Bytes JsString Hex WebCrypto.

Open Scope list_scope.
Open Scope nat_scope.

(** ** Runs of handlers *)

Definition chunk : Type := list Z.
Definition run (A : Type) : Type := (list chunk * res A)%type.

Definition run_ret {A : Type} (a : A) : run A := ([], Ok a).
Definition lift {A : Type} (m : res A) : run A := ([], m).
Definition enqueue (c : chunk) : run unit := ([c], Ok tt).

Definition run_bind {A B : Type} (m : run A) (k : A -> run B) : run B :=
  match snd m with
  | Ok a => (fst m ++ fst (k a), snd (k a))
  | Throw e => (fst m, Throw e)
  end.

Declare Scope run_scope.
Delimit Scope run_scope with run.
Notation "'let*' x ':=' m 'in' k" := (run_bind m (fun x => k))
  (at level 10, x name, m at level 100, k at level 200)
  : run_scope.
Notation "'let*' ' p ':=' m 'in' k" := (run_bind m (fun x => match x with p => k end))
  (at level 10, p pattern, m at level 100, k at level 200)
  : run_scope.
Open Scope run_scope.

(** ** Constants and layout *)

Definition STREAMING_CRYPTO_MAGIC : chunk := [0x53; 0x56; 0x53; 0x43]%Z.
Definition STREAMING_CRYPTO_VERSION : Z := 1.
Definition STREAMING_CHUNK_SIZE : nat := Z.to_nat (64 * 1024).
Definition STREAMING_HEADER_SIZE : nat := 16.
Definition STREAMING_IV_LENGTH : nat := 12.
Definition STREAMING_TAG_LENGTH : nat := 16.

Record StreamingMemoryStats : Type := mkStats {
  peakBufferBytes : nat; bytesIn : nat; bytesOut : nat; chunkCount : nat
}.

Definition createMemoryStats : StreamingMemoryStats := mkStats 0 0 0 0.

Definition touchStats (stats : StreamingMemoryStats) (bufferBytes : nat) : StreamingMemoryStats :=
  if peakBufferBytes stats <? bufferBytes
  then mkStats bufferBytes (bytesIn stats) (bytesOut stats) (chunkCount stats) else stats.

Definition count_in (stats : StreamingMemoryStats) (n : nat) : StreamingMemoryStats :=
  mkStats (peakBufferBytes stats) (bytesIn stats + n) (bytesOut stats) (chunkCount stats).

Definition count_out (stats : StreamingMemoryStats) (n k : nat) : StreamingMemoryStats :=
  mkStats (peakBufferBytes stats) (bytesIn stats) (bytesOut stats + n) (chunkCount stats + k).

Fixpoint drainChunks (chunks : list chunk) (count : nat) : res (chunk * list chunk) :=
  match count with
  | O => Ok ([], chunks)
  | _ =>
      match chunks with
      | [] => Throw "TypeError: Cannot read properties of undefined"
      | head :: rest =>
          let take := Nat.min (length head) count in
          if take =? length head then
            let! '(out, chunks) := drainChunks rest (count - take) in Ok (head ++ out, chunks)
          else Ok (firstn take head, skipn take head :: rest)
      end
  end.

(** [setUint32(offset, value)] of [value >>> 0]. *)
Definition uint32_be (value : Z) : chunk := be_bytes 4 (value mod 2 ^ 32).

Definition readUint32BE (b : chunk) (offset : nat) : res Z :=
  throw_if length b <? offset + 4 with "RangeError: Invalid DataView length"%string;;
  Ok (bytes_value (firstn 4 (skipn offset b))).

Definition chunkIndexAad (chunkIndex : nat) : chunk := uint32_be (Z.of_nat chunkIndex).

Fixpoint chunk_eqb (a b : chunk) : bool :=
  match a, b with
  | [], [] => true
  | x :: a', y :: b' => (x =? y)%Z && chunk_eqb a' b'
  | _, _ => false
  end.

Definition isStreamingEncryptedPrefix (b : chunk) : bool :=
  if length b <? length STREAMING_CRYPTO_MAGIC then false
  else chunk_eqb (firstn (length STREAMING_CRYPTO_MAGIC) b) STREAMING_CRYPTO_MAGIC.

Definition buildHeader (chunkSize : nat) : chunk :=
  STREAMING_CRYPTO_MAGIC ++ [STREAMING_CRYPTO_VERSION; 0%Z] ++ uint32_be (Z.of_nat chunkSize)
    ++ repeat 0%Z 6.

Definition parseHeader (header : chunk) : res nat :=
  throw_if length header <? STREAMING_HEADER_SIZE with "Truncated streaming crypto header"%string;;
  throw_if negb (isStreamingEncryptedPrefix header) with
    "Not a SpooVault streaming ciphertext (missing SVSC magic)"%string;;
  let version := nth 4 header 0%Z in
  throw_if negb (version =? STREAMING_CRYPTO_VERSION)%Z with
    ("Unsupported streaming crypto version: " ++ num_str version)%string;;
  let! chunkSize := readUint32BE header 6 in
  throw_if ((chunkSize <? 1) || (16 * 1024 * 1024 <? chunkSize))%Z with
    ("Invalid streaming chunk size: " ++ num_str chunkSize)%string;;
  Ok (Z.to_nat chunkSize).

(** ** The key *)

Definition hex_char (c : ascii) : bool :=
  match digit_val c with Some d => (d <? 16)%Z | None => false end.

Definition importStreamingKey (keyHex : string) : res (list Z) :=
  throw_if negb ((String.length keyHex =? 64) && str_all hex_char keyHex) with
    "Streaming encryption key must be a 64-character hex string (32 bytes)"%string;;
  Ok (hex_bytes keyHex).

Section Transforms.
Context {W : WebCrypto}.
Variable key : list Z.

(** ** Encryption *)

Record EncState : Type := mkEnc {
  pendingChunks : list chunk; pendingLen : nat; enc_index : nat; enc_bytes : nat;
  enc_progress : list nat; enc_stats : StreamingMemoryStats
}.

Section Encrypt.
(** The random vectors in the order they are drawn. *)
Variable ivs : nat -> list Z.
Variable chunkSize : nat.

Definition enc_start : run EncState :=
  let* _ := enqueue (buildHeader chunkSize) in
  run_ret (mkEnc [] 0 0 0 [] (count_out createMemoryStats STREAMING_HEADER_SIZE 0)).

(** The frame of a chunk. *)
Definition frame (index : nat) (plaintext : chunk) : chunk :=
  let ciphertext := aes_gcm_encrypt key (ivs index) (chunkIndexAad index) plaintext in
  uint32_be (Z.of_nat (length plaintext)) ++ ivs index ++ ciphertext.

(** [encryptChunk], [enqueue] and the progress report that follows. *)
Definition emit_frame (st : EncState) (plaintext : chunk) : run EncState :=
  let f := frame (enc_index st) plaintext in
  let* _ := enqueue f in
  let n := enc_bytes st + length plaintext in
  run_ret (mkEnc (pendingChunks st) (pendingLen st) (S (enc_index st)) n
            (enc_progress st ++ [n]) (count_out (enc_stats st) (length f) 1)).

(** [while (pendingLen >= chunkSize)]; a round takes [chunkSize] bytes. *)
Fixpoint enc_loop (fuel : nat) (st : EncState) : run EncState :=
  if chunkSize <=? pendingLen st then
    match fuel with
    | O => lift (Throw "out of fuel")
    | S fuel =>
        let* '(plain, rest) := lift (drainChunks (pendingChunks st) chunkSize) in
        let st := mkEnc rest (pendingLen st - chunkSize) (enc_index st) (enc_bytes st)
                    (enc_progress st) (enc_stats st) in
        let* st := emit_frame st plain in
        let stats := touchStats (enc_stats st) (pendingLen st + chunkSize) in
        enc_loop fuel (mkEnc (pendingChunks st) (pendingLen st) (enc_index st) (enc_bytes st)
                         (enc_progress st) stats)
    end
  else run_ret st.

Definition enc_transform (st : EncState) (c : chunk) : run EncState :=
  let pending := pendingLen st + length c in
  let stats := touchStats (count_in (enc_stats st) (length c))
                 (pending + chunkSize + STREAMING_IV_LENGTH + STREAMING_TAG_LENGTH) in
  enc_loop pending (mkEnc (pendingChunks st ++ [c]) pending (enc_index st) (enc_bytes st)
                      (enc_progress st) stats).

Definition enc_flush (st : EncState) : run EncState :=
  let* remaining := lift (if 0 <? pendingLen st
                          then res_map fst (drainChunks (pendingChunks st) (pendingLen st))
                          else Ok []) in
  let* st := emit_frame st remaining in
  run_ret (mkEnc [] 0 (enc_index st) (enc_bytes st) (enc_progress st) (enc_stats st)).

Fixpoint feed {S : Type} (transform : S -> chunk -> run S) (st : S) (l : list chunk) : run S :=
  match l with
  | [] => run_ret st
  | c :: l => let* st := transform st c in feed transform st l
  end.

(** The chunks read from the encrypted stream, and its end. *)
Definition encryptStream (plaintext : list chunk) : run EncState :=
  let* st := enc_start in
  let* st := feed enc_transform st plaintext in
  enc_flush st.
End Encrypt.

(** ** Decryption *)

Record DecState : Type := mkDec {
  bufferChunks : list chunk; bufferLen : nat; headerParsed : bool; dec_chunkSize : nat;
  dec_index : nat; dec_bytes : nat; finalized : bool; dec_progress : list nat;
  dec_stats : StreamingMemoryStats
}.

Definition dec_start : DecState :=
  mkDec [] 0 false STREAMING_CHUNK_SIZE 0 0 false [] createMemoryStats.

Definition set_buffer (st : DecState) (chunks : list chunk) (len : nat) : DecState :=
  mkDec chunks len (headerParsed st) (dec_chunkSize st) (dec_index st) (dec_bytes st)
    (finalized st) (dec_progress st) (dec_stats st).

(** [take(n)] when the buffer holds [n] bytes. *)
Definition take_bytes (st : DecState) (n : nat) : res (chunk * DecState) :=
  let! '(out, rest) := drainChunks (bufferChunks st) n in
  Ok (out, set_buffer st rest (bufferLen st - n)).

Definition open_frame (st : DecState) (f : chunk) : run DecState :=
  let iv := firstn STREAMING_IV_LENGTH (skipn 4 f) in
  let ciphertext := skipn (4 + STREAMING_IV_LENGTH) f in
  match aes_gcm_decrypt key iv (chunkIndexAad (dec_index st)) ciphertext with
  | None => lift (Throw ("Streaming decryption failed at chunk " ++ num_str (Z.of_nat (dec_index st))
                         ++ " (wrong key or corrupted ciphertext)"))
  | Some plain =>
      let* _ := if 0 <? length plain then enqueue plain else run_ret tt in
      let n := dec_bytes st + length plain in
      run_ret (mkDec (bufferChunks st) (bufferLen st) (headerParsed st) (dec_chunkSize st)
                (S (dec_index st)) n (finalized st) (dec_progress st ++ [n])
                (count_out (dec_stats st) (length plain) 1))
  end.

(** [while (true)]; every round but the last takes the bytes of a frame. *)
Fixpoint dec_loop (fuel : nat) (st : DecState) : run DecState :=
  match fuel with
  | O => lift (Throw "out of fuel")
  | S fuel =>
      if bufferLen st <? 4 then run_ret st
      else
        let* plaintextLen := lift (match bufferChunks st with
                                   | head :: _ => readUint32BE head 0
                                   | [] => Throw "TypeError: Cannot read properties of undefined"
                                   end) in
        if (Z.of_nat (dec_chunkSize st) <? plaintextLen)%Z then
          lift (Throw ("Invalid streaming frame length " ++ num_str plaintextLen ++ " (max "
                       ++ num_str (Z.of_nat (dec_chunkSize st)) ++ ")"))
        else
          let frameBodyLen := 4 + STREAMING_IV_LENGTH + Z.to_nat plaintextLen + STREAMING_TAG_LENGTH in
          if bufferLen st <? frameBodyLen then run_ret st
          else
            let* '(f, st) := lift (take_bytes st frameBodyLen) in
            let* st := open_frame st f in
            if (plaintextLen <? Z.of_nat (dec_chunkSize st))%Z then
              if 0 <? bufferLen st then
                lift (Throw "Trailing bytes after final streaming crypto frame")
              else run_ret (mkDec (bufferChunks st) (bufferLen st) (headerParsed st)
                              (dec_chunkSize st) (dec_index st) (dec_bytes st) true
                              (dec_progress st) (dec_stats st))
            else dec_loop fuel st
  end.

Definition dec_transform (st : DecState) (c : chunk) : run DecState :=
  if finalized st then lift (Throw "Unexpected data after final streaming crypto frame")
  else
    let len := bufferLen st + length c in
    let st := mkDec (bufferChunks st ++ [c]) len (headerParsed st) (dec_chunkSize st) (dec_index st)
                (dec_bytes st) (finalized st) (dec_progress st)
                (touchStats (count_in (dec_stats st) (length c)) len) in
    if headerParsed st then dec_loop (S len) st
    else if len <? STREAMING_HEADER_SIZE then run_ret st
    else
      let* '(header, st) := lift (take_bytes st STREAMING_HEADER_SIZE) in
      let* chunkSize := lift (parseHeader header) in
      dec_loop (S len) (mkDec (bufferChunks st) (bufferLen st) true chunkSize (dec_index st)
                          (dec_bytes st) (finalized st) (dec_progress st) (dec_stats st)).

Definition dec_flush (st : DecState) : run unit :=
  if negb (headerParsed st) then
    lift (Throw "Truncated streaming ciphertext (missing header)")
  else if negb (finalized st) then
    lift (Throw "Truncated streaming ciphertext (missing final frame)")
  else if 0 <? bufferLen st then
    lift (Throw "Trailing bytes after streaming ciphertext")
  else run_ret tt.

Definition decryptStream (ciphertext : list chunk) : run unit :=
  let* st := feed dec_transform dec_start ciphertext in
  dec_flush st.
End Transforms.

(** ** Other readers of streams *)

Definition collectStream (stream : list chunk) : chunk := concat stream.

(** The reads until the prefix holds the magic; the rest of the stream. *)
Fixpoint peek (stream : list chunk) (prefixChunks : list chunk) (prefix : chunk)
    : list chunk * chunk * list chunk :=
  if length prefix <? length STREAMING_CRYPTO_MAGIC then
    match stream with
    | [] => (prefixChunks, prefix, [])
    | value :: stream =>
        if 0 <? length value then peek stream (prefixChunks ++ [value]) (prefix ++ value)
        else peek stream prefixChunks prefix
    end
  else (prefixChunks, prefix, stream).

Definition detectStreamingCiphertext (body : list chunk) : bool * list chunk :=
  let '(prefixChunks, prefix, rest) := peek body [] [] in
  (isStreamingEncryptedPrefix prefix,
   prefixChunks ++ filter (fun value => 0 <? length value) rest).
