(* ===== verification/Sha256.v ===== *)
(** * Sha256: the incremental hash of streamingCrypto.service.ts

    [createSha256] is a state with [update] and [digestHex]; its words are
    numbers whose operators are those of JavaScript. *)

From Stdlib Require Import Ascii String ZArith List Lia Bool.
Import ListNotations.
From S2P Require Import Prelude Bytes JsString StreamCrypto.

(** * The 32-bit operators of JavaScript

    A number here is an integer that a double holds exactly.  [|], [&], [^] and
    [~] take both operands to signed 32-bit integers first, [>>>] to an unsigned
    one; only the residue modulo 2^32 of the result matters to the code. *)

Open Scope list_scope.
Open Scope Z_scope.

Definition W32 : Z := 2 ^ 32.

Definition to_uint32 (z : Z) : Z := z mod W32.

Definition to_int32 (z : Z) : Z :=
  let u := to_uint32 z in if u <? 2 ^ 31 then u else u - W32.

Definition js_or (a b : Z) : Z := Z.lor (to_int32 a) (to_int32 b).
Definition js_and (a b : Z) : Z := Z.land (to_int32 a) (to_int32 b).
Definition js_xor (a b : Z) : Z := Z.lxor (to_int32 a) (to_int32 b).
Definition js_not (a : Z) : Z := Z.lnot (to_int32 a).

(** The shift count is a constant in [0, 31] wherever the code shifts. *)
Definition js_ushr (a n : Z) : Z := Z.shiftr (to_uint32 a) n.
Definition js_shl (a n : Z) : Z := to_int32 (Z.shiftl (to_uint32 a) n).

Lemma W32_pos : 0 < W32. Proof. reflexivity. Qed.

Lemma uint32_range (z : Z) : 0 <= to_uint32 z < W32.
Proof. apply Z.mod_pos_bound, W32_pos. Qed.

Lemma uint32_small (z : Z) : 0 <= z < W32 -> to_uint32 z = z.
Proof. apply Z.mod_small. Qed.

Lemma uint32_idem (z : Z) : to_uint32 (to_uint32 z) = to_uint32 z.
Proof. apply uint32_small, uint32_range. Qed.

Lemma uint32_int32 (z : Z) : to_uint32 (to_int32 z) = to_uint32 z.
Proof.
  unfold to_int32. cbv zeta. destruct (_ <? _); [apply uint32_idem|].
  unfold to_uint32. rewrite Zminus_mod, Z.mod_same, Z.sub_0_r, !Z.mod_mod by easy. reflexivity.
Qed.

Lemma uint32_add (a b : Z) : to_uint32 (a + b) = to_uint32 (to_uint32 a + to_uint32 b).
Proof. apply Zplus_mod. Qed.

Lemma uint32_add_l (a b : Z) : to_uint32 (to_uint32 a + b) = to_uint32 (a + b).
Proof. rewrite uint32_add, uint32_idem, <- uint32_add. reflexivity. Qed.

Lemma uint32_add_r (a b : Z) : to_uint32 (a + to_uint32 b) = to_uint32 (a + b).
Proof. rewrite uint32_add, uint32_idem, <- uint32_add. reflexivity. Qed.

(** Bitwise operations commute with the reduction. *)
Lemma uint32_bits (z i : Z) : 0 <= i -> Z.testbit (to_uint32 z) i = (i <? 32) && Z.testbit z i.
Proof.
  intros Hi. unfold to_uint32, W32. destruct (Z.ltb_spec i 32).
  - now rewrite Z.mod_pow2_bits_low.
  - now rewrite Z.mod_pow2_bits_high by lia.
Qed.

Ltac bits32 :=
  apply Z.bits_inj'; intros ? ?;
  repeat first [rewrite Z.lor_spec | rewrite Z.land_spec | rewrite Z.lxor_spec
               | rewrite Z.lnot_spec by lia | rewrite uint32_bits by lia];
  repeat match goal with |- context [Z.testbit ?a ?i] => destruct (Z.testbit a i) end;
  repeat match goal with |- context [?i <? 32] => destruct (i <? 32) end; reflexivity.

Lemma uint32_lor (a b : Z) : to_uint32 (Z.lor a b) = Z.lor (to_uint32 a) (to_uint32 b).
Proof. bits32. Qed.
Lemma uint32_land (a b : Z) : to_uint32 (Z.land a b) = Z.land (to_uint32 a) (to_uint32 b).
Proof. bits32. Qed.
Lemma uint32_lxor (a b : Z) : to_uint32 (Z.lxor a b) = Z.lxor (to_uint32 a) (to_uint32 b).
Proof. bits32. Qed.
Lemma uint32_lnot_and (a b : Z) :
  to_uint32 (Z.land (Z.lnot a) b) = Z.land (to_uint32 (Z.lnot (to_uint32 a))) (to_uint32 b).
Proof. bits32. Qed.

Lemma uint32_or (a b : Z) : to_uint32 (js_or a b) = Z.lor (to_uint32 a) (to_uint32 b).
Proof. unfold js_or. now rewrite uint32_lor, !uint32_int32. Qed.
Lemma uint32_and (a b : Z) : to_uint32 (js_and a b) = Z.land (to_uint32 a) (to_uint32 b).
Proof. unfold js_and. now rewrite uint32_land, !uint32_int32. Qed.
Lemma uint32_xor (a b : Z) : to_uint32 (js_xor a b) = Z.lxor (to_uint32 a) (to_uint32 b).
Proof. unfold js_xor. now rewrite uint32_lxor, !uint32_int32. Qed.
Lemma uint32_not (a : Z) : to_uint32 (js_not a) = to_uint32 (Z.lnot (to_uint32 a)).
Proof. unfold js_not. rewrite <- (uint32_int32 a). bits32. Qed.

Lemma uint32_ushr (a n : Z) : 0 <= n -> to_uint32 (js_ushr a n) = Z.shiftr (to_uint32 a) n.
Proof.
  intros Hn. apply uint32_small. unfold js_ushr. rewrite Z.shiftr_div_pow2 by assumption.
  pose proof (uint32_range a). pose proof (Z.pow_pos_nonneg 2 n ltac:(lia) Hn).
  split; [apply Z.div_pos; lia|]. apply Z.div_lt_upper_bound; nia.
Qed.

Lemma uint32_shl (a n : Z) : 0 <= n -> to_uint32 (js_shl a n) = to_uint32 (Z.shiftl (to_uint32 a) n).
Proof. intros Hn. unfold js_shl. apply uint32_int32. Qed.

Create Rewrite HintDb int32.
#[export] Hint Rewrite uint32_or uint32_and uint32_xor uint32_not : int32.

Open Scope list_scope.
Open Scope nat_scope.

(** The table, row by row. *)
Definition SHA_K : list Z := (
  [0x428a2f98; 0x71374491; 0xb5c0fbcf; 0xe9b5dba5; 0x3956c25b; 0x59f111f1; 0x923f82a4] ++
  [0xab1c5ed5; 0xd807aa98; 0x12835b01; 0x243185be; 0x550c7dc3; 0x72be5d74; 0x80deb1fe] ++
  [0x9bdc06a7; 0xc19bf174; 0xe49b69c1; 0xefbe4786; 0x0fc19dc6; 0x240ca1cc; 0x2de92c6f] ++
  [0x4a7484aa; 0x5cb0a9dc; 0x76f988da; 0x983e5152; 0xa831c66d; 0xb00327c8; 0xbf597fc7] ++
  [0xc6e00bf3; 0xd5a79147; 0x06ca6351; 0x14292967; 0x27b70a85; 0x2e1b2138; 0x4d2c6dfc] ++
  [0x53380d13; 0x650a7354; 0x766a0abb; 0x81c2c92e; 0x92722c85; 0xa2bfe8a1; 0xa81a664b] ++
  [0xc24b8b70; 0xc76c51a3; 0xd192e819; 0xd6990624; 0xf40e3585; 0x106aa070; 0x19a4c116] ++
  [0x1e376c08; 0x2748774c; 0x34b0bcb5; 0x391c0cb3; 0x4ed8aa4a; 0x5b9cca4f; 0x682e6ff3] ++
  [0x748f82ee; 0x78a5636f; 0x84c87814; 0x8cc70208; 0x90befffa; 0xa4506ceb; 0xbef9a3f7] ++
  [0xc67178f2])%Z.

(** The eight words h0..h7, and the eight working variables a..h. *)
Record Words : Type := mkWords {
  wa : Z; wb : Z; wc : Z; wd : Z; we : Z; wf : Z; wg : Z; wh : Z
}.

Definition SHA_H0 : Words :=
  mkWords 0x6a09e667 0xbb67ae85 0x3c6ef372 0xa54ff53a 0x510e527f 0x9b05688c 0x1f83d9ab 0x5be0cd19.

Definition rotr (x n : Z) : Z := js_or (js_ushr x n) (js_shl x (32 - n)).

(** The word of four bytes of the block, as the [Uint32Array] keeps it. *)
Definition block_word (block : list Z) (j : nat) : Z :=
  let b k := nth (j + k) block 0%Z in
  to_uint32 (js_or (js_or (js_or (js_shl (b 0) 24) (js_shl (b 1) 16)) (js_shl (b 2) 8)) (b 3)).

(** [w[i]] for [16 <= i < 64] from the words before it. *)
Definition schedule_word (w : list Z) (i : nat) : Z :=
  let at_ k := nth (i - k) w 0%Z in
  let s0 := js_xor (js_xor (rotr (at_ 15) 7) (rotr (at_ 15) 18)) (js_ushr (at_ 15) 3) in
  let s1 := js_xor (js_xor (rotr (at_ 2) 17) (rotr (at_ 2) 19)) (js_ushr (at_ 2) 10) in
  to_uint32 (at_ 16 + s0 + at_ 7 + s1).

(** The two loops that fill [w]; the entries not yet written are zero and are not read. *)
Definition schedule (block : list Z) : list Z :=
  for_n 48 (fun i w => w ++ [schedule_word w (16 + i)])
    (map (fun i => block_word block (4 * i)) (seq 0 16)).

Definition sha_round (w : list Z) (i : nat) (v : Words) : Words :=
  let S1 := js_xor (js_xor (rotr (we v) 6) (rotr (we v) 11)) (rotr (we v) 25) in
  let ch := js_xor (js_and (we v) (wf v)) (js_and (js_not (we v)) (wg v)) in
  let temp1 := to_uint32 (wh v + S1 + ch + nth i SHA_K 0 + nth i w 0)%Z in
  let S0 := js_xor (js_xor (rotr (wa v) 2) (rotr (wa v) 13)) (rotr (wa v) 22) in
  let maj := js_xor (js_xor (js_and (wa v) (wb v)) (js_and (wa v) (wc v))) (js_and (wb v) (wc v)) in
  let temp2 := to_uint32 (S0 + maj)%Z in
  mkWords (to_uint32 (temp1 + temp2)) (wa v) (wb v) (wc v)
    (to_uint32 (wd v + temp1)) (we v) (wf v) (wg v).

Definition processBlock (h : Words) (block : list Z) : Words :=
  let w := schedule block in
  let v := for_n 64 (sha_round w) h in
  mkWords (to_uint32 (wa h + wa v)) (to_uint32 (wb h + wb v)) (to_uint32 (wc h + wc v))
    (to_uint32 (wd h + wd v)) (to_uint32 (we h + we v)) (to_uint32 (wf h + wf v))
    (to_uint32 (wg h + wg v)) (to_uint32 (wh h + wh v)).

(** ** The hasher *)

Record Hasher : Type := mkHasher {
  hash_words : Words; hash_block : list Z; blockOffset : nat; bytesHashed : nat
}.

Definition createSha256 : Hasher := mkHasher SHA_H0 (repeat 0%Z 64) 0 0.

(** [block.set(part, blockOffset)]. *)
Definition set_at (block : list Z) (offset : nat) (part : list Z) : list Z :=
  firstn offset block ++ part ++ skipn (offset + length part) block.

(** [while (offset < data.byteLength)] of [update] and of [pushPad]: a round
    takes at least a byte. *)
Fixpoint absorb (fuel : nat) (st : Hasher) (data : list Z) : Hasher :=
  match data with
  | [] => st
  | _ =>
      match fuel with
      | O => st
      | S fuel =>
          let n := Nat.min (64 - blockOffset st) (length data) in
          let block := set_at (hash_block st) (blockOffset st) (firstn n data) in
          let offset := blockOffset st + n in
          let st := if offset =? 64
                    then mkHasher (processBlock (hash_words st) block) block 0 (bytesHashed st)
                    else mkHasher (hash_words st) block offset (bytesHashed st) in
          absorb fuel st (skipn n data)
      end
  end.

Definition hash_update (st : Hasher) (data : list Z) : Hasher :=
  absorb (length data)
    (mkHasher (hash_words st) (hash_block st) (blockOffset st) (bytesHashed st + length data)) data.

Definition pushPad (st : Hasher) (data : list Z) : Hasher := absorb (length data) st data.

(** [while (blockOffset !== 56)]; 64 rounds pass every offset. *)
Fixpoint pad_zeros (fuel : nat) (st : Hasher) : Hasher :=
  if blockOffset st =? 56 then st
  else match fuel with O => st | S fuel => pad_zeros fuel (pushPad st [0%Z]) end.

Definition word_bytes (x : Z) : list Z :=
  [js_and (js_ushr x 24) 0xff; js_and (js_ushr x 16) 0xff; js_and (js_ushr x 8) 0xff; js_and x 0xff].

(** The eight bytes of the bit length of [savedLen] bytes. *)
Definition length_block (savedLen : nat) : list Z :=
  let bitLenHi := (Z.of_nat savedLen / 0x20000000)%Z in
  let bitLenLo := to_uint32 (js_shl (Z.of_nat savedLen) 3) in
  word_bytes bitLenHi ++ word_bytes bitLenLo.

Definition words_list (h : Words) : list Z :=
  [wa h; wb h; wc h; wd h; we h; wf h; wg h; wh h].

(** The 32 bytes of the digest, and their hexadecimal text. *)
Definition digest_bytes (st : Hasher) : list Z :=
  let savedLen := bytesHashed st in
  let st := pad_zeros 64 (pushPad st [0x80%Z]) in
  let st := pushPad st (length_block savedLen) in
  concat (map word_bytes (words_list (hash_words st))).

Definition digestHex (st : Hasher) : string := bytes_hex (digest_bytes st).

Definition hashStreamSha256 (stream : list chunk) : string :=
  digestHex (fold_left hash_update stream createSha256).

(** The first test vector of FIPS 180-4: "abc", in one piece and byte by byte. *)
Example sha256_abc : hashStreamSha256 [[0x61; 0x62; 0x63]%Z]
  = "ba7816bf8f01cfea414140de5dae2223b00361a396177a9cb410ff61f20015ad"%string.
Proof. vm_compute. reflexivity. Qed.

Example sha256_empty : hashStreamSha256 []
  = "e3b0c44298fc1c149afbf4c8996fb92427ae41e4649b934ca495991b7852b855"%string.
Proof. vm_compute. reflexivity. Qed.

(** * SHA-256 as FIPS 180-4 states it

    Words are integers in [0, 2^32); a message is a byte string. *)

Open Scope list_scope.
Open Scope Z_scope.

(** ** Section 4.1.2: functions on words *)

Definition add32 (a b : Z) : Z := (a + b) mod 2 ^ 32.
Definition NOT (x : Z) : Z := 2 ^ 32 - 1 - x.
Definition SHR (n x : Z) : Z := Z.shiftr x n.
Definition ROTR (n x : Z) : Z := Z.lor (Z.shiftr x n) (Z.shiftl x (32 - n) mod 2 ^ 32).

Definition Ch (x y z : Z) : Z := Z.lxor (Z.land x y) (Z.land (NOT x) z).
Definition Maj (x y z : Z) : Z := Z.lxor (Z.lxor (Z.land x y) (Z.land x z)) (Z.land y z).
Definition Sigma0 (x : Z) : Z := Z.lxor (Z.lxor (ROTR 2 x) (ROTR 13 x)) (ROTR 22 x).
Definition Sigma1 (x : Z) : Z := Z.lxor (Z.lxor (ROTR 6 x) (ROTR 11 x)) (ROTR 25 x).
Definition sigma0 (x : Z) : Z := Z.lxor (Z.lxor (ROTR 7 x) (ROTR 18 x)) (SHR 3 x).
Definition sigma1 (x : Z) : Z := Z.lxor (Z.lxor (ROTR 17 x) (ROTR 19 x)) (SHR 10 x).

(** ** Section 5.1.1: padding *)

Definition sha_pad (m : list Z) : list Z :=
  m ++ [0x80] ++ repeat 0 (Z.to_nat ((55 - Z.of_nat (length m)) mod 64))
    ++ be_bytes 8 (8 * Z.of_nat (length m)).

(** ** Section 6.2.2: the hash of a block *)

(** Word [t] of a block, and of the message schedule. *)
Definition M (block : list Z) (t : nat) : Z := bytes_value (firstn 4 (skipn (4 * t) block)).

Fixpoint W_fuel (fuel : nat) (block : list Z) (t : nat) : Z :=
  match fuel with
  | O => 0
  | S fuel =>
      if (t <? 16)%nat then M block t
      else
        let W k := W_fuel fuel block (t - k)%nat in
        add32 (add32 (add32 (sigma1 (W 2%nat)) (W 7%nat)) (sigma0 (W 15%nat))) (W 16%nat)
  end.

(** [t + 1] calls are enough, since every call is at a smaller word. *)
Definition W (block : list Z) (t : nat) : Z := W_fuel (S t) block t.

Definition fips_round (block : list Z) (t : nat) (v : Words) : Words :=
  let T1 := add32 (add32 (add32 (add32 (wh v) (Sigma1 (we v))) (Ch (we v) (wf v) (wg v)))
                     (nth t SHA_K 0)) (W block t) in
  let T2 := add32 (Sigma0 (wa v)) (Maj (wa v) (wb v) (wc v)) in
  mkWords (add32 T1 T2) (wa v) (wb v) (wc v) (add32 (wd v) T1) (we v) (wf v) (wg v).

Definition compress (h : Words) (block : list Z) : Words :=
  let v := for_n 64 (fips_round block) h in
  mkWords (add32 (wa v) (wa h)) (add32 (wb v) (wb h)) (add32 (wc v) (wc h)) (add32 (wd v) (wd h))
    (add32 (we v) (we h)) (add32 (wf v) (wf h)) (add32 (wg v) (wg h)) (add32 (wh v) (wh h)).

(** The first [n] blocks of a message. *)
Fixpoint hash_blocks (n : nat) (h : Words) (m : list Z) : Words :=
  match n with
  | O => h
  | S n => hash_blocks n (compress h (firstn 64 m)) (skipn 64 m)
  end.

Definition sha256_fips (m : list Z) : list Z :=
  let p := sha_pad m in
  concat (map (be_bytes 4) (words_list (hash_blocks (length p / 64) SHA_H0 p))).

(** ** The operators of the code compute the functions of the standard *)

Definition word (x : Z) : Prop := 0 <= x < W32.

Lemma word_uint32 (x : Z) : word (to_uint32 x). Proof. apply uint32_range. Qed.
Lemma word_add32 (a b : Z) : word (add32 a b). Proof. apply (uint32_range (a + b)). Qed.
Lemma uint32_word (x : Z) : word x -> to_uint32 x = x. Proof. apply uint32_small. Qed.

Create HintDb sha.
#[export] Hint Resolve word_uint32 word_add32 : sha.

Lemma uint32_not_word (x : Z) : to_uint32 (Z.lnot (to_uint32 x)) = NOT (to_uint32 x).
Proof.
  pose proof (uint32_range x). unfold NOT, W32 in *. set (u := to_uint32 x) in *.
  replace (Z.lnot u) with ((2 ^ 32 - 1 - u) + (-1) * 2 ^ 32) by (unfold Z.lnot, Z.pred; lia).
  unfold to_uint32, W32. rewrite Z.mod_add by lia. apply Z.mod_small. lia.
Qed.

Lemma uint32_rotr (x n : Z) : 0 <= n <= 32 -> to_uint32 (rotr x n) = ROTR n (to_uint32 x).
Proof.
  intros Hn. unfold rotr, ROTR. rewrite uint32_or, uint32_ushr, uint32_shl by lia. reflexivity.
Qed.

Lemma uint32_shr (x n : Z) : 0 <= n -> to_uint32 (js_ushr x n) = SHR n (to_uint32 x).
Proof. apply uint32_ushr. Qed.

#[export] Hint Rewrite uint32_not_word uint32_rotr uint32_shr using lia : int32.

Lemma ch_spec (e f g : Z) : word e -> word f -> word g ->
  to_uint32 (js_xor (js_and e f) (js_and (js_not e) g)) = Ch e f g.
Proof. intros He Hf Hg. autorewrite with int32. now rewrite !uint32_word by assumption. Qed.

Lemma maj_spec (a b c : Z) : word a -> word b -> word c ->
  to_uint32 (js_xor (js_xor (js_and a b) (js_and a c)) (js_and b c)) = Maj a b c.
Proof. intros. autorewrite with int32. now rewrite !uint32_word by assumption. Qed.

Lemma rot3_spec (x p q r : Z) : 0 <= p <= 32 -> 0 <= q <= 32 -> 0 <= r <= 32 -> word x ->
  to_uint32 (js_xor (js_xor (rotr x p) (rotr x q)) (rotr x r))
  = Z.lxor (Z.lxor (ROTR p x) (ROTR q x)) (ROTR r x).
Proof. intros. autorewrite with int32. now rewrite uint32_word. Qed.

Lemma rot2_spec (x p q r : Z) : 0 <= p <= 32 -> 0 <= q <= 32 -> 0 <= r -> word x ->
  to_uint32 (js_xor (js_xor (rotr x p) (rotr x q)) (js_ushr x r))
  = Z.lxor (Z.lxor (ROTR p x) (ROTR q x)) (SHR r x).
Proof. intros. autorewrite with int32. now rewrite uint32_word. Qed.

(** Sums are taken modulo 2^32 term by term. *)
Lemma uint32_sum2 (a b : Z) : to_uint32 (a + b) = add32 (to_uint32 a) (to_uint32 b).
Proof. apply uint32_add. Qed.

(** Sums of the same terms. *)
Ltac add32_eq :=
  repeat match goal with |- context [add32 ?a ?b] => change (add32 a b) with (to_uint32 (a + b)) end;
  repeat (rewrite uint32_add_r || rewrite uint32_add_l || rewrite <- Z.add_assoc);
  f_equal; lia.
