(* ===== verification/Sha256Proofs.v ===== *)
(** * Sha256Proofs: the incremental hash computes SHA-256

    A block is compressed as the standard says; a hasher that has read a message
    holds the hash of its full blocks and the bytes that follow them, however the
    message was cut; its digest is that of the padded message. *)

From Stdlib Require Import Ascii String ZArith List Lia Bool.
Import ListNotations.
From S2P Require Import Prelude Bytes JsString Sha256 StreamCrypto.

Open Scope list_scope.
Open Scope nat_scope.

(** ** The message schedule *)

Lemma skipn_nth {A : Type} (l : list A) (k : nat) (d : A) : k < length l ->
  skipn k l = nth k l d :: skipn (S k) l.
Proof.
  revert k. induction l as [|x l IH]; intros [|k] Hk; cbn in Hk; try lia; [reflexivity|].
  cbn [skipn nth]. apply IH. lia.
Qed.

Lemma four_bytes (block : list Z) (k : nat) : k + 4 <= length block ->
  firstn 4 (skipn k block)
  = [nth (k + 0) block 0%Z; nth (k + 1) block 0%Z; nth (k + 2) block 0%Z; nth (k + 3) block 0%Z].
Proof.
  intros Hk. do 4 (rewrite (skipn_nth block _ 0%Z) by lia; cbn [firstn]; apply f_equal2; [f_equal; lia|]).
  reflexivity.
Qed.

Lemma word_of_bytes (a b c d : Z) : bytes [a; b; c; d] ->
  to_uint32 (js_or (js_or (js_or (js_shl a 24) (js_shl b 16)) (js_shl c 8)) d)
  = bytes_value [a; b; c; d].
Proof.
  intros H. repeat match goal with H : bytes (_ :: _) |- _ => inversion_clear H end.
  unfold is_byte in *. autorewrite with int32. rewrite !uint32_shl by lia.
  rewrite !Z.shiftl_mul_pow2 by lia.
  rewrite !(uint32_small a), !(uint32_small b), !(uint32_small c), !(uint32_small d) by (unfold W32; lia).
  rewrite !uint32_small by (unfold W32; lia). rewrite <- !Z.shiftl_mul_pow2 by lia.
  unfold bytes_value. cbn [fold_left]. rewrite Z.shiftl_0_l, Z.lor_0_l.
  now rewrite !Z.shiftl_lor, !Z.shiftl_shiftl by lia.
Qed.

Lemma bytes_sub (l : list Z) (k n : nat) : bytes l -> bytes (firstn n (skipn k l)).
Proof.
  intros H. rewrite <- (firstn_skipn k l) in H. apply Forall_app in H as [_ H].
  rewrite <- (firstn_skipn n (skipn k l)) in H. now apply Forall_app in H.
Qed.

Lemma block_word_spec (block : list Z) (t : nat) : bytes block -> length block = 64 -> t < 16 ->
  block_word block (4 * t) = M block t.
Proof.
  intros Hb Hl Ht. unfold block_word, M. pose proof (bytes_sub block (4 * t) 4 Hb) as H.
  rewrite four_bytes in * by lia. now apply word_of_bytes.
Qed.

Lemma M_word (block : list Z) (t : nat) : bytes block -> length block = 64 -> t < 16 -> word (M block t).
Proof.
  intros Hb Hl Ht. unfold M, word, W32.
  pose proof (bytes_value_range _ (bytes_sub block (4 * t) 4 Hb)) as H.
  rewrite length_firstn, length_skipn, Nat.min_l in H by lia. exact H.
Qed.

Lemma W_fuel_enough (block : list Z) (f1 f2 t : nat) : t < f1 -> t < f2 ->
  W_fuel f1 block t = W_fuel f2 block t.
Proof.
  revert f2 t. induction f1 as [|f1 IH]; intros [|f2] t H1 H2; try lia. cbn [W_fuel].
  destruct (Nat.ltb_spec t 16); [reflexivity|]. now rewrite !(IH f2) by lia.
Qed.

Lemma W_first (block : list Z) (t : nat) : t < 16 -> W block t = M block t.
Proof. intros Ht. unfold W. cbn [W_fuel]. now rewrite (proj2 (Nat.ltb_lt t 16)). Qed.

Lemma W_next (block : list Z) (t : nat) : 16 <= t ->
  W block t = add32 (add32 (add32 (sigma1 (W block (t - 2))) (W block (t - 7)))
                       (sigma0 (W block (t - 15)))) (W block (t - 16)).
Proof.
  intros Ht. unfold W at 1. cbn [W_fuel]. rewrite (proj2 (Nat.ltb_ge t 16)) by assumption.
  assert (H : forall k, 1 <= k <= 16 -> W_fuel t block (t - k) = W block (t - k))
    by (intros k Hk; apply W_fuel_enough; lia).
  now rewrite !H by lia.
Qed.

Lemma W_word (block : list Z) (t : nat) : bytes block -> length block = 64 -> word (W block t).
Proof.
  intros Hb Hl. destruct (Nat.lt_ge_cases t 16).
  - rewrite W_first by assumption. now apply M_word.
  - rewrite W_next by assumption. auto with sha.
Qed.
#[export] Hint Resolve W_word : sha.

Section Schedule.
Variable block : list Z.
Hypothesis Hb : bytes block.
Hypothesis Hl : length block = 64.

Lemma schedule_word_spec (w : list Z) (i : nat) : 16 <= i -> i <= length w ->
  (forall t, t < i -> nth t w 0%Z = W block t) -> schedule_word w i = W block i.
Proof.
  intros Hi Hw Hn. unfold schedule_word. cbv zeta. rewrite !Hn by lia.
  assert (HW : forall t, word (W block t)) by auto with sha.
  rewrite !uint32_sum2, !rot2_spec, !uint32_word by (apply HW || lia).
  fold (sigma0 (W block (i - 15))) (sigma1 (W block (i - 2))).
  rewrite (W_next block i Hi). add32_eq.
Qed.

Lemma schedule_spec (t : nat) : t < 64 -> nth t (schedule block) 0%Z = W block t.
Proof.
  unfold schedule.
  set (w0 := map _ _).
  assert (H0 : length w0 = 16 + 0 /\ forall t, t < 16 + 0 -> nth t w0 0%Z = W block t).
  { unfold w0. rewrite length_map, length_seq. split; [reflexivity|]. intros u Hu.
    rewrite (nth_indep _ 0%Z (block_word block (4 * 0))) by (rewrite length_map, length_seq; lia).
    rewrite (map_nth (fun i => block_word block (4 * i))), seq_nth by lia.
    rewrite W_first by lia. now apply block_word_spec. }
  pose proof (for_n_inv (fun i w => length w = 16 + i /\ forall t, t < 16 + i -> nth t w 0%Z = W block t)
                48 (fun i w => w ++ [schedule_word w (16 + i)]) w0) as H.
  cbv beta in H. destruct H as [_ H]; [exact H0| |intros Ht; now apply H].
  intros i w Hi [Hw Hn]. rewrite length_app, Hw. split; [cbn; lia|]. intros u Hu.
  destruct (Nat.eq_dec u (16 + i)) as [->|Hne].
  - rewrite <- Hw at 1. rewrite nth_middle. apply schedule_word_spec; [lia|lia|assumption].
  - rewrite app_nth1 by lia. apply Hn. lia.
Qed.
End Schedule.

(** ** A block *)

Definition words_ok (h : Words) : Prop := Forall word (words_list h).

Lemma words_ok_inv (h : Words) : words_ok h ->
  word (wa h) /\ word (wb h) /\ word (wc h) /\ word (wd h) /\ word (we h) /\ word (wf h)
  /\ word (wg h) /\ word (wh h).
Proof.
  unfold words_ok, words_list. intros H.
  repeat match goal with H : Forall word (_ :: _) |- _ => inversion_clear H end. auto 10.
Qed.

Lemma SHA_H0_ok : words_ok SHA_H0.
Proof. repeat (apply Forall_cons; [split; [discriminate|reflexivity]|]). apply Forall_nil. Qed.

Lemma SHA_K_word (i : nat) : word (nth i SHA_K 0%Z).
Proof.
  assert (H : forallb (fun k => (0 <=? k) && (k <? W32))%Z SHA_K = true) by reflexivity.
  destruct (Nat.lt_ge_cases i (length SHA_K)) as [Hi|Hi].
  - rewrite forallb_forall in H. specialize (H _ (nth_In SHA_K 0%Z Hi)). unfold word. lia.
  - rewrite nth_overflow by assumption. unfold word, W32. lia.
Qed.

(** Two loops whose bodies agree under an invariant. *)
Lemma for_n_agree {S : Type} (P : S -> Prop) (n : nat) (f g : nat -> S -> S) (s : S) :
  P s -> (forall i s', i < n -> P s' -> f i s' = g i s' /\ P (g i s')) ->
  for_n n f s = for_n n g s /\ P (for_n n g s).
Proof.
  intros H0. induction n as [|n IH]; intros H; [auto|].
  rewrite !for_n_S. destruct IH as [-> HP]; [intros; apply H; auto; lia|].
  apply H; [lia|assumption].
Qed.

Lemma round_spec (block w : list Z) (i : nat) (v : Words) :
  nth i w 0%Z = W block i -> word (W block i) -> word (nth i SHA_K 0%Z) -> words_ok v ->
  sha_round w i v = fips_round block i v /\ words_ok (fips_round block i v).
Proof.
  intros Hw HW HK Hv. pose proof (words_ok_inv v Hv) as (Ha & Hb & Hc & Hd & He & Hf & Hg & Hh).
  unfold sha_round, fips_round. cbv zeta. rewrite Hw. split.
  - rewrite !uint32_sum2, !rot3_spec, ch_spec, maj_spec, !uint32_word by (auto with sha || lia).
    reflexivity.
  - repeat (apply Forall_cons; [apply word_add32 || assumption|]). apply Forall_nil.
Qed.

(** The words of a block added to those before it. *)
Definition add_words (h v : Words) : Words :=
  mkWords (add32 (wa v) (wa h)) (add32 (wb v) (wb h)) (add32 (wc v) (wc h)) (add32 (wd v) (wd h))
    (add32 (we v) (we h)) (add32 (wf v) (wf h)) (add32 (wg v) (wg h)) (add32 (wh v) (wh h)).

Lemma add_words_ok (h v : Words) : words_ok (add_words h v).
Proof. repeat (apply Forall_cons; [apply word_add32|]). apply Forall_nil. Qed.

Lemma add_words_code (h v : Words) :
  mkWords (to_uint32 (wa h + wa v)) (to_uint32 (wb h + wb v)) (to_uint32 (wc h + wc v))
    (to_uint32 (wd h + wd v)) (to_uint32 (we h + we v)) (to_uint32 (wf h + wf v))
    (to_uint32 (wg h + wg v)) (to_uint32 (wh h + wh v)) = add_words h v.
Proof. unfold add_words. f_equal; apply (f_equal to_uint32); lia. Qed.

Lemma rounds_spec (h : Words) (block : list Z) : bytes block -> length block = 64 -> words_ok h ->
  for_n 64 (sha_round (schedule block)) h = for_n 64 (fips_round block) h.
Proof.
  intros Hb Hl Hh. apply (for_n_agree words_ok); [assumption|]. intros i v Hi Hv.
  apply round_spec; auto using SHA_K_word, schedule_spec with sha.
Qed.

Lemma processBlock_spec (h : Words) (block : list Z) : bytes block -> length block = 64 -> words_ok h ->
  processBlock h block = compress h block /\ words_ok (compress h block).
Proof.
  intros Hb Hl Hh. unfold processBlock. cbv zeta. rewrite rounds_spec by assumption.
  rewrite add_words_code. split; [reflexivity|apply add_words_ok].
Qed.

(** ** The blocks of a message *)

Lemma hash_blocks_snoc (n : nat) (h : Words) (m : list Z) :
  hash_blocks (S n) h m = compress (hash_blocks n h m) (firstn 64 (skipn (64 * n) m)).
Proof.
  revert h m. induction n as [|n IH]; intros h m; [reflexivity|].
  change (hash_blocks (S (S n)) h m) with (hash_blocks (S n) (compress h (firstn 64 m)) (skipn 64 m)).
  rewrite IH, skipn_skipn. replace (64 * n + 64) with (64 * S n) by lia. reflexivity.
Qed.

Lemma hash_blocks_app (n : nat) (h : Words) (m r : list Z) : 64 * n <= length m ->
  hash_blocks n h (m ++ r) = hash_blocks n h m.
Proof.
  revert h m. induction n as [|n IH]; intros h m Hn; [reflexivity|]. cbn [hash_blocks].
  rewrite firstn_app, skipn_app. replace (64 - length m) with 0 by lia. rewrite firstn_O, skipn_O, app_nil_r. apply IH. rewrite length_skipn. lia.
Qed.

(** The hasher has read [msg]: the words are those of its full blocks, the block
    begins with the bytes after them. *)
Record hashed (st : Hasher) (msg : list Z) (n : nat) : Prop := {
  hd_length : length msg = 64 * n + blockOffset st;
  hd_offset : blockOffset st < 64;
  hd_block : length (hash_block st) = 64 /\ bytes (hash_block st);
  hd_rest : firstn (blockOffset st) (hash_block st) = skipn (64 * n) msg;
  hd_words : hash_words st = hash_blocks n SHA_H0 msg;
  hd_ok : words_ok (hash_words st)
}.

Lemma hashed_start : hashed createSha256 [] 0.
Proof.
  constructor; try reflexivity; [cbn; lia|split; [reflexivity|]|apply SHA_H0_ok].
  apply Forall_forall. intros b Hb. apply repeat_spec in Hb. subst. split; [lia|reflexivity].
Qed.

Lemma set_at_spec (block part : list Z) (off : nat) : length block = 64 -> bytes block -> bytes part ->
  off + length part <= 64 ->
  length (set_at block off part) = 64 /\ bytes (set_at block off part)
  /\ firstn (off + length part) (set_at block off part) = firstn off block ++ part.
Proof.
  intros Hl Hb Hp Ho. unfold set_at. repeat split.
  - rewrite !length_app, length_firstn, length_skipn. lia.
  - apply Forall_app. split; [apply (bytes_sub block 0 off Hb)|]. apply Forall_app. split; [assumption|].
    rewrite <- (firstn_skipn (off + length part) block) in Hb. now apply Forall_app in Hb.
  - rewrite app_assoc, firstn_app.
    replace (length (firstn off block ++ part)) with (off + length part)
      by (rewrite length_app, length_firstn; lia).
    rewrite Nat.sub_diag, app_nil_r. apply firstn_all2. rewrite length_app, length_firstn. lia.
Qed.

(** A round of [absorb] that writes [part]. *)
Definition absorb_round (st : Hasher) (part : list Z) : Hasher :=
  let block := set_at (hash_block st) (blockOffset st) part in
  let offset := blockOffset st + length part in
  if offset =? 64 then mkHasher (processBlock (hash_words st) block) block 0 (bytesHashed st)
  else mkHasher (hash_words st) block offset (bytesHashed st).

Lemma absorb_round_spec (st : Hasher) (msg part : list Z) (n : nat) : hashed st msg n -> bytes part ->
  blockOffset st + length part <= 64 ->
  hashed (absorb_round st part) (msg ++ part) ((length msg + length part) / 64).
Proof.
  intros [Hl Ho [Hbl Hb] Hr Hw Hok] Hp Hle. unfold absorb_round. cbv zeta.
  destruct (set_at_spec (hash_block st) part (blockOffset st) Hbl Hb Hp Hle) as (Hsl & Hsb & Hsf).
  set (block := set_at _ _ _) in *. rewrite Hr in Hsf.
  assert (Hskip : skipn (64 * n) (msg ++ part) = skipn (64 * n) msg ++ part).
  { rewrite skipn_app. now replace (64 * n - length msg) with 0 by lia. }
  destruct (Nat.eqb_spec (blockOffset st + length part) 64) as [E|E].
  - replace ((length msg + length part) / 64) with (S n) by (rewrite Hl; apply Nat.div_unique with 0; lia).
    rewrite E, (firstn_all2 block) in Hsf by lia.
    destruct (processBlock_spec (hash_words st) block Hsb Hsl Hok) as [Hpb Hpok].
    constructor; cbn [blockOffset hash_block hash_words]; auto; try lia.
    + rewrite length_app. lia.
    + rewrite skipn_all2; [reflexivity|]. rewrite length_app. lia.
    + rewrite hash_blocks_snoc, hash_blocks_app by lia. rewrite Hpb, Hw, Hskip, <- Hsf.
      now rewrite firstn_all2 by lia.
    + now rewrite Hpb.
  - replace ((length msg + length part) / 64) with n
      by (rewrite Hl; apply Nat.div_unique with (blockOffset st + length part); lia).
    constructor; cbn [blockOffset hash_block hash_words]; auto; try lia.
    + rewrite length_app. lia.
    + rewrite Hskip. exact Hsf.
    + now rewrite hash_blocks_app by lia.
Qed.

Lemma absorb_spec (fuel : nat) (st : Hasher) (msg data : list Z) : hashed st msg (length msg / 64) ->
  bytes data -> length data <= fuel ->
  hashed (absorb fuel st data) (msg ++ data) (length (msg ++ data) / 64)
  /\ bytesHashed (absorb fuel st data) = bytesHashed st.
Proof.
  revert st msg data. induction fuel as [|fuel IH]; intros st msg data Hst Hd Hf.
  - destruct data; [|simpl in Hf; lia]. rewrite app_nil_r. auto.
  - destruct data as [|x data']; [rewrite app_nil_r; auto|]. set (data := x :: data') in *.
    set (n := Nat.min (64 - blockOffset st) (length data)).
    pose proof (hd_offset _ _ _ Hst) as Ho.
    assert (Hn : length (firstn n data) = n) by (rewrite length_firstn; unfold n; lia).
    assert (E : absorb (S fuel) st data = absorb fuel (absorb_round st (firstn n data)) (skipn n data)).
    { unfold absorb_round. rewrite Hn. reflexivity. }
    rewrite E. pose proof (absorb_round_spec st msg (firstn n data) _ Hst) as H.
    rewrite <- (firstn_skipn n data) in Hd. apply Forall_app in Hd as [Hd1 Hd2].
    rewrite Hn, <- Hn, <- length_app in H. rewrite Hn in H.
    destruct (IH (absorb_round st (firstn n data)) (msg ++ firstn n data) (skipn n data)) as [H1 H2].
    + apply H; [assumption|]. unfold n. lia.
    + assumption.
    + rewrite length_skipn. assert (0 < n) by (unfold n, data; cbn [length]; lia). lia.
    + rewrite <- app_assoc, firstn_skipn in H1. rewrite H2. split; [assumption|].
      unfold absorb_round. now destruct (_ =? 64).
Qed.

(** ** Updates and padding *)

Definition read_all (st : Hasher) (msg : list Z) : Prop :=
  hashed st msg (length msg / 64) /\ bytesHashed st = length msg.

Lemma hash_update_spec (st : Hasher) (msg data : list Z) : read_all st msg -> bytes data ->
  read_all (hash_update st data) (msg ++ data).
Proof.
  intros [Hst Hn] Hd. unfold hash_update.
  destruct (absorb_spec (length data) (mkHasher (hash_words st) (hash_block st) (blockOffset st)
              (bytesHashed st + length data)) msg data) as [H1 H2].
  - destruct Hst. now constructor.
  - assumption.
  - lia.
  - split; [assumption|]. rewrite H2, length_app. cbn [bytesHashed]. lia.
Qed.

Lemma updates_spec (stream : list chunk) (st : Hasher) (msg : list Z) : Forall (Forall is_byte) stream ->
  read_all st msg -> read_all (fold_left hash_update stream st) (msg ++ concat stream).
Proof.
  intros Hs. revert st msg. induction Hs as [|c stream Hc _ IH]; intros st msg Hst; cbn [fold_left concat].
  - now rewrite app_nil_r.
  - rewrite app_assoc. now apply IH, hash_update_spec.
Qed.

Lemma pushPad_spec (st : Hasher) (msg data : list Z) : hashed st msg (length msg / 64) -> bytes data ->
  hashed (pushPad st data) (msg ++ data) (length (msg ++ data) / 64).
Proof. intros Hst Hd. now apply absorb_spec. Qed.

(** The zeros that bring a message to offset 56. *)
Definition zeros_needed (n : nat) : nat := Z.to_nat ((56 - Z.of_nat n) mod 64).

Lemma zeros_needed_S (n : nat) : n mod 64 <> 56 -> zeros_needed n = S (zeros_needed (S n)).
Proof.
  intros Hn. unfold zeros_needed.
  pose proof (Z.div_mod (56 - Z.of_nat n) 64 ltac:(lia)) as E.
  pose proof (Z.mod_pos_bound (56 - Z.of_nat n) 64 ltac:(lia)) as Hb.
  set (r := ((56 - Z.of_nat n) mod 64)%Z) in *. set (k := ((56 - Z.of_nat n) / 64)%Z) in *.
  assert (r <> 0)%Z.
  { intros H0. apply Hn. assert (Hz : (Z.of_nat n mod 64 = 56)%Z).
    { symmetry. apply Z.mod_unique with (- k)%Z; lia. }
    change 64%Z with (Z.of_nat 64) in Hz. rewrite <- Nat2Z.inj_mod in Hz. lia. }
  replace ((56 - Z.of_nat (S n)) mod 64)%Z with (r - 1)%Z by (apply Z.mod_unique with k; lia). lia.
Qed.

Lemma zeros_needed_0 (n : nat) : n mod 64 = 56 -> zeros_needed n = 0.
Proof.
  intros Hn. unfold zeros_needed. pose proof (Nat.div_mod_eq n 64) as E. rewrite Hn in E.
  replace (56 - Z.of_nat n)%Z with (- Z.of_nat (n / 64) * 64)%Z by lia. now rewrite Z.mod_mul.
Qed.

Lemma hashed_offset (st : Hasher) (msg : list Z) (n : nat) : hashed st msg n ->
  blockOffset st = length msg mod 64.
Proof. intros [Hl Ho _ _ _ _]. apply Nat.mod_unique with n; lia. Qed.

Lemma pad_zeros_spec (fuel : nat) (st : Hasher) (msg : list Z) : hashed st msg (length msg / 64) ->
  zeros_needed (length msg) <= fuel ->
  let m := msg ++ repeat 0%Z (zeros_needed (length msg)) in
  hashed (pad_zeros fuel st) m (length m / 64).
Proof.
  revert st msg. induction fuel as [|fuel IH]; intros st msg Hst Hf; cbv zeta; cbn [pad_zeros];
    rewrite (hashed_offset _ _ _ Hst); destruct (Nat.eqb_spec (length msg mod 64) 56) as [E|E].
  1, 3: rewrite (zeros_needed_0 _ E); cbn [repeat]; now rewrite app_nil_r.
  - rewrite (zeros_needed_S _ E) in Hf. lia.
  - pose proof (pushPad_spec st msg [0%Z] Hst) as Hp. specialize (IH (pushPad st [0%Z]) (msg ++ [0%Z])).
    rewrite (zeros_needed_S _ E) in *. rewrite (length_app msg [0%Z]), Nat.add_1_r in Hp, IH.
    cbv zeta in IH.
    rewrite <- app_assoc in IH. apply IH; [|lia]. apply Hp. repeat constructor; discriminate.
Qed.

(** ** Words as bytes *)

Lemma js_and_byte (y : Z) : js_and y 0xff = (y mod 256)%Z.
Proof.
  unfold js_and. change (to_int32 0xff) with (Z.ones 8). rewrite Z.land_ones by lia.
  change (2 ^ 8)%Z with 256%Z. pose proof (uint32_int32 y) as E. unfold to_uint32, W32 in E.
  apply (f_equal (fun z => z mod 256)%Z) in E. now rewrite !Z.mod_mod_divide in E by (exists (2 ^ 24)%Z; reflexivity).
Qed.

Lemma word_bytes_spec (x : Z) : word x -> word_bytes x = be_bytes 4 x.
Proof.
  intros Hx. unfold word_bytes. rewrite !js_and_byte. unfold js_ushr. rewrite !uint32_word by assumption.
  rewrite !Z.shiftr_div_pow2 by lia. cbn [be_bytes app]. now rewrite !Z.div_div by lia.
Qed.

Lemma be_bytes_app (a b : nat) (z : Z) :
  be_bytes (a + b) z = be_bytes a (z / 256 ^ Z.of_nat b) ++ be_bytes b z.
Proof.
  revert z. induction b as [|b IH]; intros z.
  - now rewrite Nat.add_0_r, Z.div_1_r, app_nil_r.
  - rewrite Nat.add_succ_r. cbn [be_bytes]. rewrite IH, app_assoc, Z.div_div by lia.
    rewrite Nat2Z.inj_succ, Z.pow_succ_r by lia. reflexivity.
Qed.

Lemma be_bytes_mod (a : nat) (z : Z) : be_bytes a (z mod 256 ^ Z.of_nat a) = be_bytes a z.
Proof.
  revert z. induction a as [|a IH]; intros z; [reflexivity|]. cbn [be_bytes].
  rewrite Nat2Z.inj_succ, Z.pow_succ_r by lia. f_equal.
  - rewrite Z.rem_mul_r by lia. rewrite (Z.add_comm (z mod 256)), (Z.mul_comm 256), Z.div_add_l by lia.
    rewrite (Z.div_small (z mod 256)), Z.add_0_r by (apply Z.mod_pos_bound; lia). apply IH.
  - f_equal. rewrite Z.rem_mul_r by lia. rewrite (Z.mul_comm 256), Z.mod_add, Z.mod_mod by lia. reflexivity.
Qed.

Lemma length_block_spec (n : nat) : (Z.of_nat n < 2 ^ 53)%Z ->
  length_block n = be_bytes 8 (8 * Z.of_nat n).
Proof.
  intros Hn. unfold length_block. cbv zeta. rewrite uint32_shl, Z.shiftl_mul_pow2 by lia.
  assert (Hhi : word (Z.of_nat n / 0x20000000)).
  { unfold word, W32. split; [apply Z.div_pos; lia|apply Z.div_lt_upper_bound; lia]. }
  rewrite !word_bytes_spec by auto with sha. rewrite (be_bytes_app 4 4). f_equal.
  - f_equal. change (256 ^ Z.of_nat 4)%Z with (8 * 0x20000000)%Z. now rewrite Z.div_mul_cancel_l.
  - replace (to_uint32 (to_uint32 (Z.of_nat n) * 2 ^ 3)) with (to_uint32 (8 * Z.of_nat n)).
    + apply be_bytes_mod.
    + unfold to_uint32. rewrite Zmult_mod_idemp_l. f_equal. lia.
Qed.

(** ** The digest *)

Lemma words_bytes_spec (h : Words) : words_ok h ->
  concat (map word_bytes (words_list h)) = concat (map (be_bytes 4) (words_list h)).
Proof.
  intros H. f_equal. apply map_ext_in. intros x Hx. apply word_bytes_spec.
  unfold words_ok in H. rewrite Forall_forall in H. auto.
Qed.

Lemma digest_spec (st : Hasher) (msg : list Z) : read_all st msg ->
  (Z.of_nat (length msg) < 2 ^ 53)%Z -> digest_bytes st = sha256_fips msg.
Proof.
  intros [Hst Hn] Hlen. unfold digest_bytes, sha256_fips. cbv zeta. rewrite Hn.
  assert (H1 : hashed (pushPad st [128%Z]) (msg ++ [128%Z]) (length (msg ++ [128%Z]) / 64)).
  { apply pushPad_spec; [assumption|]. repeat constructor; discriminate. }
  pose proof (pad_zeros_spec 64 _ _ H1) as H2.
  assert (Hz : zeros_needed (length (msg ++ [128%Z])) <= 64).
  { unfold zeros_needed. pose proof (Z.mod_pos_bound (56 - Z.of_nat (length (msg ++ [128%Z]))) 64). lia. }
  specialize (H2 Hz). cbv zeta in H2.
  pose proof (pushPad_spec _ _ (length_block (length msg)) H2) as H3.
  rewrite length_block_spec in * by assumption. specialize (H3 (be_bytes_bytes _ _)).
  assert (Hp : ((msg ++ [128%Z]) ++ repeat 0%Z (zeros_needed (length (msg ++ [128%Z]))))
               ++ be_bytes 8 (8 * Z.of_nat (length msg)) = sha_pad msg).
  { unfold sha_pad, zeros_needed. rewrite <- !app_assoc, length_app, Nat2Z.inj_add.
    do 4 f_equal. cbn [length]. f_equal. f_equal. lia. }
  rewrite Hp in H3. destruct H3 as [_ _ _ _ Hw Hok].
  rewrite words_bytes_spec by exact Hok. now rewrite Hw.
Qed.

Lemma hash_stream_spec (stream : list chunk) : Forall (Forall is_byte) stream ->
  (Z.of_nat (length (concat stream)) < 2 ^ 53)%Z ->
  hashStreamSha256 stream = bytes_hex (sha256_fips (concat stream)).
Proof.
  intros Hs Hl. unfold hashStreamSha256, digestHex. rewrite (digest_spec _ (concat stream)); auto.
  change (concat stream) with ([] ++ concat stream).
  apply updates_spec; [assumption|]. split; [apply hashed_start|reflexivity].
Qed.

(** C5: The incremental hash of a stream is SHA-256 as FIPS 180-4 defines it, of the concatenated chunks:
    block buffering, 32-bit arithmetic on signed JavaScript integers and padding agree with the
    standard for every message shorter than 2^53 bytes and every way of cutting it. *)
Theorem hashStreamSha256_fips (stream : list chunk) (Hb : Forall (Forall is_byte) stream)
    (Hl : (Z.of_nat (length (concat stream)) < 2 ^ 53)%Z) :
  hashStreamSha256 stream = bytes_hex (sha256_fips (concat stream)).
Proof. now apply hash_stream_spec. Qed.

Lemma hashStreamSha256_fips_witness :
  hashStreamSha256 [[97]; []; [98; 99]]%Z = bytes_hex (sha256_fips [97; 98; 99]%Z)
  /\ hashStreamSha256 [[97]; []; [98; 99]]%Z
     = "ba7816bf8f01cfea414140de5dae2223b00361a396177a9cb410ff61f20015ad"%string.
Proof.
  split; [|vm_compute; reflexivity].
  apply (hashStreamSha256_fips [[97]; []; [98; 99]]%Z); [|reflexivity].
  repeat constructor; discriminate.
Defined.
