(* ===== verification/StreamProofs.v ===== *)
(** * StreamProofs: what the encrypted stream holds, and what reads it back

    The encrypted stream does not depend on how the plaintext was cut.  A download may be
    cut anywhere: it is decrypted unless a cut falls inside the four bytes of a frame's
    length, which fails with a RangeError.  A stream that stops early, at any byte, and
    one whose frames are reordered are rejected. *)

From Stdlib Require Import Ascii String ZArith List Lia Bool.
Import ListNotations.
From S2P Require Import Prelude Bytes JsString Hex WebCrypto StreamCrypto Sha256 Sha256Proofs.

Open Scope list_scope.
Open Scope nat_scope.

(** ** Runs *)

Lemma run_lift {A B : Type} (a : A) (k : A -> run B) : run_bind (lift (Ok a)) k = k a.
Proof. unfold run_bind. cbn. now destruct (k a). Qed.

Lemma run_return {A B : Type} (a : A) (k : A -> run B) : run_bind (run_ret a) k = k a.
Proof. exact (run_lift a k). Qed.

Lemma run_throw {A B : Type} (e : string) (k : A -> run B) :
  run_bind (lift (Throw e)) k = lift (Throw e).
Proof. reflexivity. Qed.

Lemma run_out {A B : Type} (out : list chunk) (a : A) (k : A -> run B) :
  run_bind (out, Ok a) k = (out ++ fst (k a), snd (k a)).
Proof. reflexivity. Qed.

(** ** Draining chunks *)

Lemma drain_spec (chunks : list chunk) (count : nat) : count <= length (concat chunks) ->
  exists rest, drainChunks chunks count = Ok (firstn count (concat chunks), rest)
    /\ concat rest = skipn count (concat chunks).
Proof.
  revert count. induction chunks as [|head chunks IH]; intros count Hc.
  - simpl in Hc. replace count with 0 by lia. exists []. auto.
  - destruct count as [|n]; [exists (head :: chunks); auto|]. cbn [concat] in *.
    rewrite length_app in Hc. set (count := S n) in *. assert (Hpos : 0 < count) by lia.
    assert (E : drainChunks (head :: chunks) count
      = let take := Nat.min (length head) count in
        if take =? length head then
          let! '(out, chunks) := drainChunks chunks (count - take) in Ok (head ++ out, chunks)
        else Ok (firstn take head, skipn take head :: chunks)) by reflexivity.
    rewrite E. clear E. clearbody count. cbv zeta. rewrite firstn_app, skipn_app.
    destruct (Nat.eqb_spec (Nat.min (length head) count) (length head)) as [Em|Em].
    + rewrite Em. destruct (IH (count - length head)) as (rest & -> & Hr); [lia|].
      cbn [res_bind]. exists rest. split.
      * do 2 f_equal. now rewrite (firstn_all2 head) by lia.
      * rewrite (skipn_all2 head) by lia. exact Hr.
    + replace (Nat.min (length head) count) with count by lia.
      exists (skipn count head :: chunks). replace (count - length head) with 0 by lia.
      cbn [firstn skipn]. now rewrite app_nil_r.
Qed.

Lemma chunk_eqb_eq (a b : chunk) : chunk_eqb a b = true <-> a = b.
Proof.
  revert b. induction a as [|x a IH]; intros [|y b]; cbn; split; try easy.
  - intros H. apply andb_true_iff in H as [H1 H2]. apply Z.eqb_eq in H1. apply IH in H2. congruence.
  - intros [= <- <-]. now rewrite Z.eqb_refl, (proj2 (IH a)).
Qed.

(** ** Cutting the plaintext *)
Section Cut.
Variable cs : nat.
Hypothesis Hcs : 1 <= cs.

(** The [i]-th chunk of [cs] bytes, and the number of full chunks. *)
Definition chunk_at (data : chunk) (i : nat) : chunk := firstn cs (skipn (i * cs) data).
Definition full_chunks (data : chunk) : nat := length data / cs.

Lemma full_chunks_le (data : chunk) : full_chunks data * cs <= length data.
Proof. unfold full_chunks. rewrite Nat.mul_comm. apply Nat.Div0.mul_div_le. Qed.

Lemma full_chunks_lt (data : chunk) : length data < (full_chunks data + 1) * cs.
Proof.
  unfold full_chunks. pose proof (Nat.div_mod_eq (length data) cs).
  pose proof (Nat.mod_upper_bound (length data) cs). nia.
Qed.

Lemma chunk_at_length (data : chunk) (i : nat) : i < full_chunks data -> length (chunk_at data i) = cs.
Proof.
  intros Hi. unfold chunk_at. rewrite length_firstn, length_skipn.
  pose proof (full_chunks_le data). nia.
Qed.

Lemma chunk_at_last (data : chunk) : length (chunk_at data (full_chunks data)) < cs.
Proof.
  unfold chunk_at. rewrite length_firstn, length_skipn. pose proof (full_chunks_lt data). nia.
Qed.

Lemma chunk_at_app (data more : chunk) (i : nat) : i < full_chunks data ->
  chunk_at (data ++ more) i = chunk_at data i.
Proof.
  intros Hi. unfold chunk_at. pose proof (full_chunks_le data).
  rewrite skipn_app, firstn_app, length_skipn.
  replace (cs - (length data - i * cs)) with 0 by nia. cbn [firstn]. apply app_nil_r.
Qed.

Lemma concat_chunks (data : chunk) (k : nat) : k <= full_chunks data + 1 ->
  concat (map (chunk_at data) (seq 0 k)) = firstn (k * cs) data.
Proof.
  induction k as [|k IH]; intros Hk; [reflexivity|].
  rewrite seq_S, map_app, concat_app, IH by lia. cbn [Nat.add map concat]. rewrite app_nil_r.
  unfold chunk_at. replace (S k * cs) with (k * cs + cs) by lia.
  now rewrite <- (firstn_skipn (k * cs) (firstn (k * cs + cs) data)), firstn_firstn,
    firstn_skipn_comm, Nat.min_l by lia.
Qed.

Lemma concat_all_chunks (data : chunk) :
  concat (map (chunk_at data) (seq 0 (S (full_chunks data)))) = data.
Proof.
  rewrite concat_chunks by lia. apply firstn_all2. pose proof (full_chunks_lt data). lia.
Qed.
End Cut.

(** ** Encryption *)
Section Encrypt.
Context {W : WebCrypto}.
Variables (key : list Z) (ivs : nat -> list Z) (cs M : nat).
Hypothesis Hcs : 1 <= cs.

Abbreviation frame_at data := (fun i => frame key ivs i (chunk_at cs data i)).

Definition after_frame (st : EncState) (plaintext : chunk) : EncState :=
  let n := enc_bytes st + length plaintext in
  mkEnc (pendingChunks st) (pendingLen st) (S (enc_index st)) n (enc_progress st ++ [n])
    (count_out (enc_stats st) (length (frame key ivs (enc_index st) plaintext)) 1).

Lemma emit_frame_eq (st : EncState) (plaintext : chunk) :
  emit_frame key ivs st plaintext
  = ([frame key ivs (enc_index st) plaintext], Ok (after_frame st plaintext)).
Proof. reflexivity. Qed.

(** After [data]: the full chunks were emitted, the rest is pending, and no
    more than [M + 2 cs + 28] bytes were held. *)
Record enc_inv (data : chunk) (q : nat) (st : EncState) : Prop := {
  inv_pending : concat (pendingChunks st) = skipn (q * cs) data;
  inv_len : pendingLen st = length data - q * cs;
  inv_index : enc_index st = q;
  inv_full : q * cs <= length data;
  inv_peak : peakBufferBytes (enc_stats st) <= M + 2 * cs + 28
}.

Lemma touch_peak (stats : StreamingMemoryStats) (n b : nat) :
  peakBufferBytes stats <= b -> n <= b -> peakBufferBytes (touchStats stats n) <= b.
Proof. unfold touchStats. destruct (_ <? n); cbn; lia. Qed.

Lemma enc_loop_spec (data : chunk) (k fuel q : nat) (st : EncState) :
  enc_inv data q st -> k = (length data - q * cs) / cs -> k <= fuel ->
  pendingLen st <= M + cs ->
  exists st', enc_loop key ivs cs fuel st = (map (frame_at data) (seq q k), Ok st')
    /\ enc_inv data (q + k) st'.
Proof.
  revert fuel q st. induction k as [|k IH]; intros fuel q st [Hp Hl Hi Hf Hpk] Hk Hfuel HM.
  - assert (Hlt : pendingLen st < cs).
    { rewrite Hl. symmetry in Hk. apply Nat.div_small_iff in Hk; lia. }
    exists st. rewrite Nat.add_0_r. split; [|now constructor].
    destruct fuel; cbn [enc_loop]; rewrite (proj2 (Nat.leb_gt _ _)) by lia; reflexivity.
  - assert (Hge : cs <= pendingLen st).
    { rewrite Hl. destruct (Nat.le_gt_cases cs (length data - q * cs)) as [|Hlt]; [assumption|].
      rewrite Nat.div_small in Hk by assumption. discriminate. }
    destruct fuel as [|fuel]; [lia|]. cbn [enc_loop]. rewrite (proj2 (Nat.leb_le _ _)) by assumption.
    destruct (drain_spec (pendingChunks st) cs) as (rest & -> & Hrest);
      [rewrite Hp, length_skipn; lia|].
    rewrite Hp in Hrest |- *. fold (chunk_at cs data q).
    rewrite run_lift, emit_frame_eq, run_out.
    cbn [after_frame pendingLen pendingChunks enc_index enc_bytes enc_progress enc_stats].
    match goal with |- context [enc_loop _ _ _ fuel ?s] => set (st1 := s) end.
    destruct (IH fuel (S q) st1) as (st' & E & Hinv).
    + unfold st1. rewrite skipn_skipn in Hrest.
      constructor; cbn [pendingLen pendingChunks enc_index enc_stats].
      * rewrite Hrest. f_equal; lia.
      * lia.
      * congruence.
      * lia.
      * apply touch_peak; [cbn; assumption|]. lia.
    + replace (length data - q * cs) with (length data - S q * cs + 1 * cs) in Hk by lia.
      rewrite Nat.div_add in Hk by lia. lia.
    + lia.
    + unfold st1. cbn [pendingLen]. lia.
    + rewrite E. exists st'. cbn [fst snd]. rewrite Hi. split; [reflexivity|].
      now replace (q + S k) with (S q + k) by lia.
Qed.

Lemma enc_transform_spec (data c : chunk) (st : EncState) :
  enc_inv data (full_chunks cs data) st -> length c <= M ->
  exists st', enc_transform key ivs cs st c
    = (map (frame_at (data ++ c)) (seq (full_chunks cs data)
         (full_chunks cs (data ++ c) - full_chunks cs data)), Ok st')
    /\ enc_inv (data ++ c) (full_chunks cs (data ++ c)) st'.
Proof.
  intros [Hp Hl Hi Hf Hpk] HM. set (q := full_chunks cs data) in *. unfold enc_transform.
  pose proof (full_chunks_lt cs Hcs data) as Hlt. fold q in Hlt.
  set (st1 := mkEnc _ _ _ _ _ _).
  assert (Hq : full_chunks cs (data ++ c) = q + (length (data ++ c) - q * cs) / cs).
  { unfold full_chunks at 1. rewrite length_app at 1. rewrite length_app.
    replace (length data + length c) with (length data + length c - q * cs + q * cs) at 1 by lia.
    rewrite Nat.div_add by lia. lia. }
  destruct (enc_loop_spec (data ++ c) ((length (data ++ c) - q * cs) / cs)
              (pendingLen st + length c) q st1) as (st' & E & Hinv).
  - unfold st1. constructor; cbn [pendingLen pendingChunks enc_index enc_stats].
    + rewrite concat_app, Hp. cbn [concat]. rewrite app_nil_r, skipn_app.
      now replace (q * cs - length data) with 0 by lia.
    + rewrite length_app. lia.
    + assumption.
    + rewrite length_app. lia.
    + apply touch_peak; [cbn; assumption|]. unfold STREAMING_IV_LENGTH, STREAMING_TAG_LENGTH. lia.
  - reflexivity.
  - apply (Nat.le_trans _ (length (data ++ c) - q * cs)); [apply Nat.Div0.div_le_upper_bound; nia|].
    rewrite length_app. lia.
  - unfold st1. cbn [pendingLen]. lia.
  - rewrite E, Hq. exists st'. split; [|assumption]. do 3 f_equal. lia.
Qed.

Lemma enc_feed_spec (l : list chunk) (data : chunk) (st : EncState) :
  enc_inv data (full_chunks cs data) st -> Forall (fun c => length c <= M) l ->
  exists st', feed (enc_transform key ivs cs) st l
    = (map (frame_at (data ++ concat l)) (seq (full_chunks cs data)
         (full_chunks cs (data ++ concat l) - full_chunks cs data)), Ok st')
    /\ enc_inv (data ++ concat l) (full_chunks cs (data ++ concat l)) st'.
Proof.
  intros Hinv HM. revert data st Hinv. induction HM as [|c l Hc _ IH]; intros data st Hinv.
  - exists st. cbn [concat]. rewrite app_nil_r, Nat.sub_diag. auto.
  - destruct (enc_transform_spec data c st Hinv Hc) as (st1 & E1 & Hinv1).
    destruct (IH (data ++ c) st1 Hinv1) as (st' & E & Hinv'). exists st'.
    cbn [concat feed]. rewrite app_assoc in *. split; [|assumption].
    rewrite E1, run_out, E. cbn [fst snd]. f_equal.
    assert (Hmono : forall a b : chunk, full_chunks cs a <= full_chunks cs (a ++ b)).
    { intros a b. unfold full_chunks. rewrite length_app. apply Nat.Div0.div_le_mono. lia. }
    pose proof (Hmono data c). pose proof (Hmono (data ++ c) (concat l)).
    rewrite (map_ext_in (frame_at (data ++ c)) (frame_at ((data ++ c) ++ concat l))).
    + rewrite <- map_app. f_equal.
      replace (full_chunks cs (data ++ c))
        with (full_chunks cs data + (full_chunks cs (data ++ c) - full_chunks cs data)) at 2 by lia.
      rewrite <- seq_app. f_equal. lia.
    + intros i Hin. apply in_seq in Hin. f_equal. symmetry. apply chunk_at_app; lia.
Qed.

(** The pieces of the stream of [data]. *)
Definition pieces (data : chunk) : list chunk :=
  buildHeader cs :: map (frame_at data) (seq 0 (S (full_chunks cs data))).

Lemma encryptStream_spec (l : list chunk) : Forall (fun c => length c <= M) l ->
  exists st, encryptStream key ivs cs l = (pieces (concat l), Ok st)
    /\ peakBufferBytes (enc_stats st) <= M + 2 * cs + 28.
Proof.
  intros HM. unfold encryptStream, enc_start.
  set (st0 := mkEnc [] 0 0 0 [] (count_out createMemoryStats STREAMING_HEADER_SIZE 0)).
  assert (Hinv0 : enc_inv [] (full_chunks cs []) st0).
  { unfold full_chunks. cbn [length]. rewrite Nat.Div0.div_0_l.
    constructor; cbn [st0 pendingChunks pendingLen enc_index enc_stats]; try reflexivity; cbn; lia. }
  destruct (enc_feed_spec l [] st0 Hinv0 HM) as (st1 & E & [Hp Hl Hi Hf Hpk]). cbn [app] in *.
  unfold enqueue. rewrite run_out. cbn [run_ret fst snd]. rewrite run_out, E.
  cbn [fst snd]. rewrite run_out.
  set (data := concat l) in *. set (q := full_chunks cs data) in *.
  assert (Hrem : (if 0 <? pendingLen st1
                  then res_map fst (drainChunks (pendingChunks st1) (pendingLen st1)) else Ok [])
                 = Ok (chunk_at cs data q)).
  { pose proof (full_chunks_lt cs Hcs data) as Hlt. fold q in Hlt.
    unfold chunk_at. rewrite firstn_all2 by (rewrite length_skipn; lia).
    destruct (Nat.ltb_spec 0 (pendingLen st1)) as [Hpos|H0].
    - destruct (drain_spec (pendingChunks st1) (pendingLen st1)) as (rest & -> & _);
        [rewrite Hp, length_skipn; lia|].
      cbn [res_map res_bind fst]. f_equal. rewrite Hp. apply firstn_all2.
      rewrite length_skipn. lia.
    - now rewrite skipn_all2 by lia. }
  unfold enc_flush. rewrite Hrem, run_lift, emit_frame_eq, run_out. cbn [run_ret fst snd].
  rewrite Hi.
  match goal with |- exists st, (_, Ok ?s) = _ /\ _ => exists s end.
  split; [|cbn; exact Hpk]. unfold pieces. fold q. rewrite seq_S, map_app.
  unfold full_chunks. cbn [length]. rewrite Nat.Div0.div_0_l, Nat.sub_0_r.
  cbn [app Nat.add map]. reflexivity.
Qed.
End Encrypt.

(** ** Frames and headers *)

Lemma uint32_be_length (v : Z) : length (uint32_be v) = 4.
Proof. apply be_bytes_length. Qed.

Lemma read_uint32 (v : Z) (rest : chunk) : (0 <= v < 2 ^ 32)%Z ->
  readUint32BE (uint32_be v ++ rest) 0 = Ok v.
Proof.
  intros Hv. unfold readUint32BE. rewrite length_app, uint32_be_length.
  rewrite (proj2 (Nat.ltb_ge _ _)) by lia. cbn [skipn].
  rewrite <- (uint32_be_length v) at 1. rewrite firstn_app, Nat.sub_diag, firstn_all.
  cbn [firstn]. rewrite app_nil_r. unfold uint32_be. rewrite Z.mod_small by assumption.
  f_equal. apply bytes_value_be. exact Hv.
Qed.

Lemma header_length (cs : nat) : length (buildHeader cs) = STREAMING_HEADER_SIZE.
Proof. unfold buildHeader. rewrite !length_app, uint32_be_length. reflexivity. Qed.

Lemma header_prefix (cs : nat) (rest : chunk) : isStreamingEncryptedPrefix (buildHeader cs ++ rest) = true.
Proof. reflexivity. Qed.

Lemma parse_header (cs : nat) : (Z.of_nat cs < 2 ^ 32)%Z ->
  parseHeader (buildHeader cs)
  = if (cs <? 1) || (16 * 1024 * 1024 <? Z.of_nat cs)%Z
    then Throw ("Invalid streaming chunk size: " ++ num_str (Z.of_nat cs)) else Ok cs.
Proof.
  intros Hcs. unfold parseHeader. rewrite header_length. cbn [Nat.ltb Nat.leb].
  rewrite <- (app_nil_r (buildHeader cs)) at 1. rewrite header_prefix. cbn [negb].
  change (nth 4 (buildHeader cs) 0%Z) with 1%Z. cbn [Z.eqb STREAMING_CRYPTO_VERSION Pos.eqb negb].
  assert (E : readUint32BE (buildHeader cs) 6
              = readUint32BE (uint32_be (Z.of_nat cs) ++ repeat 0%Z 6) 0) by reflexivity.
  rewrite E, read_uint32 by lia. cbn [res_bind]. rewrite Nat2Z.id.
  now replace (Z.of_nat cs <? 1)%Z with (cs <? 1) by bool_lia.
Qed.

Section Decrypt.
Context {W : WebCrypto} {L : WebCryptoLaws W}.
Variables (key : list Z) (ivs : nat -> list Z) (cs : nat).
Hypothesis Hcs : 1 <= cs.
Hypothesis Hcs_max : (Z.of_nat cs <= 16 * 1024 * 1024)%Z.
Hypothesis Hivs : forall i, length (ivs i) = STREAMING_IV_LENGTH.

Lemma frame_length (i : nat) (p : chunk) :
  length (frame key ivs i p) = 4 + STREAMING_IV_LENGTH + length p + STREAMING_TAG_LENGTH.
Proof.
  unfold frame. rewrite !length_app, uint32_be_length, encrypt_length, Hivs.
  unfold TAG_BYTES, STREAMING_TAG_LENGTH. lia.
Qed.

Lemma frame_read (i : nat) (p rest : chunk) : length p <= cs ->
  readUint32BE (frame key ivs i p ++ rest) 0 = Ok (Z.of_nat (length p)).
Proof.
  intros Hp. unfold frame. cbv zeta. rewrite <- !app_assoc. apply read_uint32. lia.
Qed.

(** The buffer holds [b], in one chunk. *)
Definition single (b : chunk) : list chunk := match b with [] => [] | _ => [b] end.

Record ready (st : DecState) (b : chunk) (i : nat) (fin : bool) : Prop := {
  rd_chunks : bufferChunks st = single b;
  rd_len : bufferLen st = length b;
  rd_header : headerParsed st = true;
  rd_size : dec_chunkSize st = cs;
  rd_index : dec_index st = i;
  rd_final : finalized st = fin
}.

Lemma drain_single (a b : chunk) : a <> [] -> drainChunks (single (a ++ b)) (length a) = Ok (a, single b).
Proof.
  intros Ha. destruct a as [|x a]; [contradiction|]. set (a' := x :: a).
  assert (E : drainChunks (single (a' ++ b)) (length a')
    = if Nat.min (length (a' ++ b)) (length a') =? length (a' ++ b) then
        let! '(out, chunks) := drainChunks [] (length a' - Nat.min (length (a' ++ b)) (length a')) in
        Ok ((a' ++ b) ++ out, chunks)
      else Ok (firstn (Nat.min (length (a' ++ b)) (length a')) (a' ++ b),
               [skipn (Nat.min (length (a' ++ b)) (length a')) (a' ++ b)])) by reflexivity.
  rewrite E. clear E. rewrite length_app.
  replace (Nat.min (length a' + length b) (length a')) with (length a') by lia.
  destruct (Nat.eqb_spec (length a') (length a' + length b)) as [El|El].
  - destruct b; [|simpl in El; lia]. rewrite Nat.sub_diag. cbn. now rewrite !app_nil_r.
  - rewrite firstn_app, skipn_app, firstn_all, skipn_all, Nat.sub_diag. cbn [firstn skipn app].
    rewrite app_nil_r. destruct b; [simpl in El; lia|reflexivity].
Qed.

Lemma frame_nonempty (i : nat) (p : chunk) : frame key ivs i p <> [].
Proof. intros E. apply (f_equal (@length Z)) in E. rewrite frame_length in E. simpl in E. lia. Qed.

Lemma take_single (st : DecState) (n : nat) (a b : chunk) :
  bufferChunks st = single (a ++ b) -> a <> [] -> n = length a ->
  take_bytes st n = Ok (a, set_buffer st (single b) (bufferLen st - n)).
Proof. intros Hs Ha ->. unfold take_bytes. rewrite Hs, drain_single by assumption. reflexivity. Qed.

(** The vector and the ciphertext of a frame. *)
Lemma frame_parts (i : nat) (p : chunk) :
  firstn STREAMING_IV_LENGTH (skipn 4 (frame key ivs i p)) = ivs i
  /\ skipn (4 + STREAMING_IV_LENGTH) (frame key ivs i p)
     = aes_gcm_encrypt key (ivs i) (chunkIndexAad i) p.
Proof.
  unfold frame. set (c := aes_gcm_encrypt _ _ _ _).
  split.
  - rewrite <- (uint32_be_length (Z.of_nat (length p))), skipn_app, skipn_all, Nat.sub_diag.
    cbn [skipn app]. rewrite <- (Hivs i), firstn_app, firstn_all, Nat.sub_diag.
    apply app_nil_r.
  - rewrite app_assoc, <- (Hivs i), <- (uint32_be_length (Z.of_nat (length p))).
    rewrite <- length_app, skipn_app, skipn_all, Nat.sub_diag. reflexivity.
Qed.

(** What opening a frame leaves. *)
Definition after_open (st : DecState) (p : chunk) : DecState :=
  let n := dec_bytes st + length p in
  mkDec (bufferChunks st) (bufferLen st) (headerParsed st) (dec_chunkSize st) (S (dec_index st)) n
    (finalized st) (dec_progress st ++ [n]) (count_out (dec_stats st) (length p) 1).

Lemma open_frame_spec (st : DecState) (p : chunk) :
  open_frame key st (frame key ivs (dec_index st) p)
  = (if 0 <? length p then [p] else [], Ok (after_open st p)).
Proof.
  unfold open_frame. destruct (frame_parts (dec_index st) p) as [-> ->].
  rewrite decrypt_encrypt. now destruct (0 <? length p).
Qed.

(** A round of the loop on a whole frame. *)
Lemma dec_round (fuel : nat) (st : DecState) (i : nat) (p rest : chunk) :
  ready st (frame key ivs i p ++ rest) i false -> length p <= cs ->
  dec_loop key (S fuel) st
  = let st1 := after_open (set_buffer st (single rest) (length rest)) p in
    ((if 0 <? length p then [p] else []) ++
       fst (if length p <? cs then
              if 0 <? length rest then lift (Throw "Trailing bytes after final streaming crypto frame")
              else run_ret (mkDec (bufferChunks st1) (bufferLen st1) (headerParsed st1)
                              (dec_chunkSize st1) (dec_index st1) (dec_bytes st1) true
                              (dec_progress st1) (dec_stats st1))
            else dec_loop key fuel st1),
     snd (if length p <? cs then
            if 0 <? length rest then lift (Throw "Trailing bytes after final streaming crypto frame")
            else run_ret (mkDec (bufferChunks st1) (bufferLen st1) (headerParsed st1)
                            (dec_chunkSize st1) (dec_index st1) (dec_bytes st1) true
                            (dec_progress st1) (dec_stats st1))
          else dec_loop key fuel st1)).
Proof.
  intros [Hch Hln Hhd Hsz Hix Hfn] Hp. cbn [dec_loop]. pose proof (frame_length i p) as Hfl.
  rewrite length_app in Hln. rewrite Hfl in Hln.
  rewrite (proj2 (Nat.ltb_ge (bufferLen st) 4)) by lia. rewrite Hch.
  assert (Hs : single (frame key ivs i p ++ rest) = [frame key ivs i p ++ rest]).
  { pose proof (frame_nonempty i p). destruct (frame key ivs i p); [contradiction|reflexivity]. }
  rewrite Hs, frame_read, run_lift, Hsz by assumption.
  rewrite (proj2 (Z.ltb_ge _ _)) by lia. rewrite Nat2Z.id.
  rewrite (proj2 (Nat.ltb_ge (bufferLen st) _)) by lia.
  unfold take_bytes. rewrite Hch, <- Hfl, drain_single by apply frame_nonempty. cbn [res_bind].
  rewrite run_lift. cbn [set_buffer dec_index dec_chunkSize bufferLen] .
  set (st0 := set_buffer st (single rest) (bufferLen st - length (frame key ivs i p))).
  assert (Hst0 : st0 = set_buffer st (single rest) (length rest)).
  { unfold st0. f_equal. lia. }
  rewrite <- Hix. change (dec_index st) with (dec_index st0). rewrite open_frame_spec, run_out, Hst0.
  cbv zeta. cbn [after_open dec_chunkSize set_buffer bufferLen]. rewrite Hsz.
  replace (Z.of_nat (length p) <? Z.of_nat cs)%Z with (length p <? cs) by bool_lia. reflexivity.
Qed.

(** ** Whole frames *)

Section Stream.
Variable data : chunk.

Definition stream_frame (i : nat) : chunk := frame key ivs i (chunk_at cs data i).
Definition frames (i k : nat) : list chunk := map stream_frame (seq i k).
Definition outputs (i k : nat) : list chunk :=
  filter (fun p => 0 <? length p) (map (chunk_at cs data) (seq i k)).

Abbreviation q := (full_chunks cs data).

Lemma chunk_at_le (i : nat) : length (chunk_at cs data i) <= cs.
Proof. unfold chunk_at. rewrite length_firstn. lia. Qed.

Lemma frames_length (i k : nat) : k <= length (concat (frames i k)).
Proof.
  revert i. induction k as [|k IH]; intros i; [lia|]. unfold frames in *. cbn [seq map concat].
  rewrite length_app. unfold stream_frame at 1. rewrite frame_length. specialize (IH (S i)). lia.
Qed.

Lemma outputs_S (i k : nat) :
  outputs i (S k) = (if 0 <? length (chunk_at cs data i) then [chunk_at cs data i] else [])
                    ++ outputs (S i) k.
Proof. unfold outputs. cbn [seq map filter]. now destruct (0 <? length (chunk_at cs data i)). Qed.

(** The loop takes every frame of the buffer, and ends the stream at the last. *)
Lemma dec_loop_frames (k fuel i : nat) (st : DecState) :
  ready st (concat (frames i k)) i false -> i <= q -> i + k <= S q -> k < fuel ->
  exists st', dec_loop key fuel st = (outputs i k, Ok st')
    /\ ready st' [] (i + k) (i + k =? S q).
Proof.
  revert fuel i st. induction k as [|k IH]; intros fuel i st Hst Hi Hk Hf.
  - destruct fuel as [|fuel]; [lia|]. exists st. cbn [dec_loop].
    pose proof Hst as [_ Hln _ _ _ _]. cbn in Hln. rewrite Hln. split; [reflexivity|].
    rewrite Nat.add_0_r. now replace (i =? S q) with false by bool_lia.
  - destruct fuel as [|fuel]; [lia|]. unfold frames in Hst. cbn [seq map concat] in Hst.
    fold (frames (S i) k) in Hst. unfold stream_frame in Hst.
    rewrite (dec_round fuel st i _ _ Hst (chunk_at_le i)). cbv zeta. rewrite outputs_S.
    set (st1 := after_open (set_buffer st _ _) _).
    assert (Hst1 : ready st1 (concat (frames (S i) k)) (S i) false).
    { destruct Hst as [_ _ Hhd Hsz Hix Hfn]. constructor; cbn; congruence. }
    destruct (Nat.eq_dec i q) as [->|Hne].
    + assert (k = 0) by lia. subst k. cbn [frames seq map concat length] in *.
      pose proof (chunk_at_last cs Hcs data). rewrite (proj2 (Nat.ltb_lt _ cs)) by assumption.
      cbn [Nat.ltb Nat.leb]. destruct Hst1 as [Hch Hln Hhd Hsz Hix Hfn].
      eexists. split; [reflexivity|]. rewrite Nat.add_1_r, Nat.eqb_refl.
      constructor; cbn in *; congruence.
    + rewrite chunk_at_length by lia. rewrite Nat.ltb_irrefl.
      destruct (IH fuel (S i) st1 Hst1 ltac:(lia) ltac:(lia) ltac:(lia)) as (st' & E & Hst').
      exists st'. rewrite E. cbn [fst snd].
      replace (0 <? cs) with true by bool_lia. split; [reflexivity|].
      now replace (i + S k) with (S i + k) by lia.
Qed.

(** A chunk of whole frames, after the header. *)
Lemma dec_transform_frames (k i : nat) (st : DecState) :
  ready st [] i false -> i <= q -> i + k <= S q -> 1 <= k ->
  exists st', dec_transform key st (concat (frames i k)) = (outputs i k, Ok st')
    /\ ready st' [] (i + k) (i + k =? S q).
Proof.
  intros [Hch Hln Hhd Hsz Hix Hfn] Hi Hk Hk1. unfold dec_transform. rewrite Hfn, Hch, Hln.
  cbn [single length Nat.add app headerParsed]. rewrite Hhd.
  match goal with |- exists st', dec_loop _ _ ?s = _ /\ _ => set (st1 := s) end.
  pose proof (frames_length i k) as Hfl.
  destruct (dec_loop_frames k (S (length (concat (frames i k)))) i st1) as (st' & E & Hst'); try lia.
  - constructor; cbn; try congruence.
    destruct (concat (frames i k)) eqn:E; [simpl in Hfl; lia|reflexivity].
  - exists st'. auto.
Qed.

(** The first chunk: the header and [k] frames. *)
Lemma dec_transform_first (k : nat) : k <= S q ->
  exists st', dec_transform key dec_start (buildHeader cs ++ concat (frames 0 k)) = (outputs 0 k, Ok st')
    /\ ready st' [] k (k =? S q).
Proof.
  intros Hk. unfold dec_transform, dec_start. cbn [finalized headerParsed bufferLen bufferChunks app].
  set (b := concat (frames 0 k)). pose proof (header_length cs) as Hh.
  rewrite length_app, Hh.
  replace (0 + (STREAMING_HEADER_SIZE + length b) <? STREAMING_HEADER_SIZE) with false by bool_lia.
  rewrite (take_single _ _ (buildHeader cs) b) by (reflexivity || discriminate).
  rewrite run_lift.
  rewrite parse_header by lia.
  replace (cs <? 1) with false by bool_lia.
  replace (16 * 1024 * 1024 <? Z.of_nat cs)%Z with false by bool_lia. cbn [orb]. rewrite run_lift.
  match goal with |- exists st', dec_loop _ ?f ?s = _ /\ _ => set (st1 := s); set (fuel := f) end.
  pose proof (frames_length 0 k) as Hfl. fold b in Hfl.
  destruct (dec_loop_frames k fuel 0 st1) as (st' & E & Hst'); try lia.
  - constructor; try reflexivity. cbn [st1 bufferLen set_buffer]. fold b. lia.
  - exists st'. auto.
Qed.

Lemma app_eq_app_length {A : Type} (a b c d : list A) :
  a ++ b = c ++ d -> length a = length c -> a = c /\ b = d.
Proof.
  revert c. induction a as [|x a IH]; intros [|y c] E Hl; try discriminate Hl; [auto|].
  injection E as -> E. injection Hl as Hl. destruct (IH c E Hl) as [-> ->]. auto.
Qed.

(** Groups of whole frames. *)
Lemma dec_feed_frames (groups : list (list chunk)) (i n : nat) (st : DecState) :
  ready st [] i (i =? S q) -> Forall (fun g => g <> []) groups ->
  concat groups = frames i n -> i + n <= S q ->
  exists st', feed (dec_transform key) st (map (@concat Z) groups) = (outputs i n, Ok st')
    /\ ready st' [] (i + n) (i + n =? S q).
Proof.
  intros Hst Hg. revert i n st Hst. induction Hg as [|g groups Hne _ IH]; intros i n st Hst Hc Hn.
  - assert (n = 0) by (destruct n; [reflexivity|discriminate Hc]). subst n.
    exists st. rewrite Nat.add_0_r. auto.
  - cbn [concat] in Hc. remember (length g) as k eqn:Ek.
    assert (Hk : 1 <= k) by (subst k; destruct g; [contradiction|simpl; lia]).
    assert (Hkn : k <= n).
    { apply (f_equal (@length chunk)) in Hc. unfold frames in Hc.
      rewrite length_app, length_map, length_seq in Hc. lia. }
    assert (Hsplit : g = frames i k /\ concat groups = frames (i + k) (n - k)).
    { unfold frames in Hc. replace n with (k + (n - k)) in Hc by lia.
      rewrite seq_app, map_app in Hc. apply app_eq_app_length in Hc; [exact Hc|].
      now rewrite length_map, length_seq. }
    destruct Hsplit as [Hg Hrest]. clear Ek. subst g.
    assert (Hfin : (i =? S q) = false) by bool_lia. rewrite Hfin in Hst.
    destruct (dec_transform_frames k i st Hst ltac:(lia) ltac:(lia) Hk) as (st1 & E1 & Hst1).
    destruct (IH (i + k) (n - k) st1 Hst1 Hrest ltac:(lia)) as (st' & E & Hst').
    exists st'. cbn [map feed]. rewrite E1, run_out, E. cbn [fst snd].
    replace (i + n) with (i + k + (n - k)) by lia. split; [|assumption]. f_equal.
    unfold outputs. rewrite <- filter_app, <- map_app, <- seq_app. do 3 f_equal. lia.
Qed.

Lemma concat_outputs (i k : nat) : concat (outputs i k) = concat (map (chunk_at cs data) (seq i k)).
Proof.
  unfold outputs. induction (map _ (seq i k)) as [|p l IH]; [reflexivity|]. cbn [filter].
  destruct (Nat.ltb_spec 0 (length p)); cbn [concat]; rewrite IH; [reflexivity|].
  destruct p; [reflexivity|simpl in *; lia].
Qed.
End Stream.
End Decrypt.

(** * The guarantees of the encrypted stream

    Round trip, independence of the chunking of the plaintext, bounded memory,
    detection of truncated and reordered streams; and two kinds of streams the
    code does not read back. *)

Import Mirror.

Open Scope list_scope.
Open Scope nat_scope.

(** ** Feeding a transform *)

Lemma feed_app {S : Type} (t : S -> chunk -> run S) (st : S) (a b : list chunk) :
  feed t st (a ++ b) = run_bind (feed t st a) (fun st' => feed t st' b).
Proof.
  revert st. induction a as [|c a IH]; intros st; [cbn [app feed]; now rewrite run_return|].
  cbn [app feed]. destruct (t st c) as [out [st1|e]]; [|reflexivity].
  rewrite !run_out, IH. unfold run_bind. cbn [fst snd].
  destruct (feed t st1 a) as [out1 [st2|e]]; cbn [fst snd]; [|reflexivity].
  now rewrite app_assoc.
Qed.

Section Results.
Context {W : WebCrypto} {L : WebCryptoLaws W}.
Variables (key : list Z) (ivs : nat -> list Z) (cs : nat).
Hypothesis Hcs : 1 <= cs.
Hypothesis Hcs_max : (Z.of_nat cs <= 16 * 1024 * 1024)%Z.
Hypothesis Hivs : forall i, length (ivs i) = STREAMING_IV_LENGTH.

(** Groups of the header and the first [n] frames. *)
Lemma dec_feed_pieces (data : chunk) (n : nat) (groups : list (list chunk)) :
  n <= S (full_chunks cs data) -> Forall (fun g => g <> []) groups ->
  concat groups = buildHeader cs :: frames key ivs cs data 0 n ->
  exists st, feed (dec_transform key) dec_start (map (@concat Z) groups) = (outputs cs data 0 n, Ok st)
    /\ ready cs st [] n (n =? S (full_chunks cs data)).
Proof.
  intros Hn Hg Hc. destruct Hg as [|g groups Hne Hg]; [discriminate Hc|].
  destruct g as [|h g]; [contradiction|]. cbn [concat app] in Hc. injection Hc as -> Hc.
  set (k := length g).
  assert (Hkn : k <= n).
  { apply (f_equal (@length chunk)) in Hc. unfold frames in Hc.
    rewrite length_app, length_map, length_seq in Hc. unfold k. lia. }
  assert (Hsplit : g = frames key ivs cs data 0 k /\ concat groups = frames key ivs cs data k (n - k)).
  { unfold frames in Hc. replace n with (k + (n - k)) in Hc by lia.
    rewrite seq_app, map_app in Hc. apply app_eq_app_length in Hc; [exact Hc|].
    now rewrite length_map, length_seq. }
  clearbody k. destruct Hsplit as [-> Hrest].
  destruct (dec_transform_first key ivs cs Hcs Hcs_max Hivs data k ltac:(lia)) as (st1 & E1 & Hst1).
  destruct (dec_feed_frames key ivs cs Hcs Hcs_max Hivs data groups k (n - k) st1 Hst1 Hg Hrest ltac:(lia))
    as (st & E & Hst).
  exists st. cbn [map feed concat]. rewrite E1, run_out, E. cbn [fst snd].
  replace (k + (n - k)) with n in Hst by lia. split; [|assumption]. f_equal.
  unfold outputs. rewrite <- filter_app, <- map_app, <- seq_app. do 3 f_equal. lia.
Qed.

Lemma decrypt_pieces (data : chunk) (n : nat) (groups : list (list chunk)) :
  n <= S (full_chunks cs data) -> Forall (fun g => g <> []) groups ->
  concat groups = buildHeader cs :: frames key ivs cs data 0 n ->
  decryptStream key (map (@concat Z) groups)
  = (outputs cs data 0 n,
     if n =? S (full_chunks cs data) then Ok tt
     else Throw "Truncated streaming ciphertext (missing final frame)").
Proof.
  intros Hn Hg Hc. destruct (dec_feed_pieces data n groups Hn Hg Hc) as (st & E & [_ Hl Hh _ _ Hf]).
  unfold decryptStream. rewrite E, run_out. unfold dec_flush. rewrite Hh, Hf, Hl. cbn [negb length].
  destruct (n =? S (full_chunks cs data)); cbn; now rewrite app_nil_r.
Qed.

(** A frame sealed for another index. *)
Lemma dec_other_index (i j : nat) (p : chunk) (st : DecState) :
  ready cs st [] i false -> length p <= cs -> i <> j ->
  (Z.of_nat i < 2 ^ 32)%Z -> (Z.of_nat j < 2 ^ 32)%Z ->
  dec_transform key st (frame key ivs j p)
  = lift (Throw ("Streaming decryption failed at chunk " ++ num_str (Z.of_nat i)
                 ++ " (wrong key or corrupted ciphertext)")).
Proof.
  intros [Hch Hln Hhd Hsz Hix Hfn] Hp Hne Hi Hj. unfold dec_transform. rewrite Hfn, Hch, Hln, Hhd.
  cbn [single length Nat.add app dec_loop bufferLen bufferChunks headerParsed].
  pose proof (frame_length key ivs cs Hcs Hivs j p) as Hfl. rewrite (proj2 (Nat.ltb_ge _ 4)) by lia.
  pose proof (frame_read key ivs cs Hcs Hcs_max j p [] Hp) as Hr. rewrite app_nil_r in Hr.
  rewrite Hr, run_lift. cbn [dec_chunkSize]. rewrite Hsz, (proj2 (Z.ltb_ge _ _)), Nat2Z.id by lia.
  rewrite (proj2 (Nat.ltb_ge (length _) _)) by lia.
  rewrite (take_single cs Hcs _ _ (frame key ivs j p) []).
  2:{ rewrite app_nil_r. pose proof (frame_nonempty key ivs cs Hcs Hivs j p).
      now destruct (frame key ivs j p). }
  2: now apply frame_nonempty with cs.
  2: now rewrite Hfl.
  rewrite run_lift. unfold open_frame. cbn [dec_index set_buffer]. rewrite Hix.
  destruct (frame_parts key ivs Hivs j p) as [-> ->].
  rewrite decrypt_other_data; [reflexivity|apply be_bytes_bytes|apply be_bytes_bytes|reflexivity|reflexivity|].
  unfold chunkIndexAad, uint32_be. rewrite !Z.mod_small by lia.
  intros E. apply (f_equal bytes_value) in E. rewrite !bytes_value_be in E; lia.
Qed.

(** The first bytes of a frame, and then the rest of it. *)
Lemma dec_cut_length (i n : nat) (p : chunk) (st : DecState) (more : list chunk) :
  ready cs st [] i false -> 1 <= n <= 3 ->
  feed (dec_transform key) st
    (firstn n (frame key ivs i p) :: skipn n (frame key ivs i p) :: more)
  = lift (Throw "RangeError: Invalid DataView length").
Proof.
  intros [Hch Hln Hhd Hsz Hix Hfn] Hn. pose proof (frame_length key ivs cs Hcs Hivs i p) as Hfl.
  set (f := frame key ivs i p) in *. assert (Hl : length (firstn n f) = n).
  { rewrite length_firstn. lia. }
  cbn [feed]. unfold dec_transform at 1. rewrite Hfn, Hch, Hln, Hhd, Hl.
  cbn [single length Nat.add app dec_loop bufferLen bufferChunks headerParsed].
  rewrite (proj2 (Nat.ltb_lt n 4)) by lia. rewrite run_return. unfold dec_transform at 1.
  cbn [finalized app bufferLen bufferChunks headerParsed dec_loop]. rewrite length_skipn.
  rewrite (proj2 (Nat.ltb_ge _ 4)) by lia. unfold readUint32BE. rewrite Hl.
  now rewrite (proj2 (Nat.ltb_lt n (0 + 4))) by lia.
Qed.

(** A state that waits for a frame, after the header and [i] frames. *)
Lemma dec_ready_at (data : chunk) (i : nat) : i <= full_chunks cs data ->
  exists st, feed (dec_transform key) dec_start [concat (buildHeader cs :: frames key ivs cs data 0 i)]
    = (outputs cs data 0 i, Ok st) /\ ready cs st [] i false.
Proof.
  intros Hi. destruct (dec_feed_pieces data i [buildHeader cs :: frames key ivs cs data 0 i])
    as (st & E & Hr); [lia|repeat constructor; discriminate|apply app_nil_r|].
  exists st. split; [exact E|]. now replace (i =? S (full_chunks cs data)) with false in Hr by bool_lia.
Qed.

Lemma decrypt_after (data : chunk) (i : nat) (rest : list chunk) (e : string) :
  i <= full_chunks cs data ->
  (forall st, ready cs st [] i false -> feed (dec_transform key) st rest = lift (Throw e)) ->
  decryptStream key (concat (buildHeader cs :: frames key ivs cs data 0 i) :: rest)
  = (outputs cs data 0 i, Throw e).
Proof.
  intros Hi Hrest. destruct (dec_ready_at data i Hi) as (st & E & Hr).
  unfold decryptStream. change (?a :: rest) with ([a] ++ rest).
  rewrite feed_app, E, run_out, (Hrest st Hr). cbn [lift fst snd]. unfold run_bind. cbn [fst snd].
  now rewrite app_nil_r.
Qed.
End Results.

(** ** Downloads cut anywhere

    A network body is cut without regard to the frames.  The transform is correct for every cut that
    leaves the four bytes of a frame's length in one chunk, and fails for the others. *)

Definition FRAME_OVERHEAD : nat := 4 + STREAMING_IV_LENGTH + STREAMING_TAG_LENGTH.

(** The byte [o] of the stream may start a chunk: it is not the second to fourth byte of a length. *)
Definition start_ok (cs o : nat) : bool :=
  (o <=? STREAMING_HEADER_SIZE)
  || (let r := (o - STREAMING_HEADER_SIZE) mod (cs + FRAME_OVERHEAD) in (r =? 0) || (4 <=? r)).

(** No chunk of [l], whose first byte is the byte [o] of the stream, starts inside a length. *)
Fixpoint lengths_whole (cs o : nat) (l : list chunk) : bool :=
  match l with
  | [] => true
  | c :: l => start_ok cs o && lengths_whole cs (o + length c) l
  end.

Definition range_error : string := "RangeError: Invalid DataView length".

Section Cuts.
Variable cs : nat.

(** The first byte of the frame [i]. *)
Definition frame_start (i : nat) : nat := STREAMING_HEADER_SIZE + i * (cs + FRAME_OVERHEAD).

Lemma start_ok_in (i r : nat) : r <= cs + FRAME_OVERHEAD -> r = 0 \/ 4 <= r ->
  start_ok cs (frame_start i + r) = true.
Proof.
  intros Hr H. unfold start_ok, frame_start. set (F := cs + FRAME_OVERHEAD) in *.
  apply orb_true_iff. right. cbv zeta.
  replace (STREAMING_HEADER_SIZE + i * F + r - STREAMING_HEADER_SIZE) with (r + i * F) by lia.
  rewrite Nat.Div0.mod_add.
  assert (HF : 4 <= F) by (unfold F, FRAME_OVERHEAD, STREAMING_IV_LENGTH; lia).
  destruct (Nat.eq_dec r F) as [->|]; [now rewrite Nat.Div0.mod_same|].
  rewrite Nat.mod_small by lia. bool_lia.
Qed.

Lemma start_bad (i r : nat) : 1 <= r <= 3 -> start_ok cs (frame_start i + r) = false.
Proof.
  intros Hr. unfold start_ok, frame_start. set (F := cs + FRAME_OVERHEAD) in *. cbv zeta.
  replace (STREAMING_HEADER_SIZE + i * F + r - STREAMING_HEADER_SIZE) with (r + i * F) by lia.
  rewrite Nat.Div0.mod_add, Nat.mod_small by (unfold F, FRAME_OVERHEAD, STREAMING_IV_LENGTH; lia).
  bool_lia.
Qed.

Lemma lengths_app (o : nat) (a b : list chunk) :
  lengths_whole cs o (a ++ b) = lengths_whole cs o a && lengths_whole cs (o + length (concat a)) b.
Proof.
  revert o. induction a as [|c a IH]; intros o; cbn [app lengths_whole concat].
  - now rewrite Nat.add_0_r.
  - rewrite IH, length_app, andb_assoc. do 2 f_equal. lia.
Qed.

Lemma drain_cons (head : chunk) (chunks : list chunk) (count : nat) : 0 < count ->
  drainChunks (head :: chunks) count
  = if length head <=? count then
      let! '(out, rest) := drainChunks chunks (count - length head) in Ok (head ++ out, rest)
    else Ok (firstn count head, skipn count head :: chunks).
Proof.
  intros Hc. destruct count as [|n]; [lia|]. set (count := S n).
  change (drainChunks (head :: chunks) count)
    with (let take := Nat.min (length head) count in
          if take =? length head then
            let! '(out, chunks) := drainChunks chunks (count - take) in Ok (head ++ out, chunks)
          else Ok (firstn take head, skipn take head :: chunks)).
  clearbody count. cbv zeta. destruct (Nat.leb_spec (length head) count).
  - now rewrite Nat.min_l, Nat.eqb_refl by lia.
  - rewrite Nat.min_r by lia. now rewrite (proj2 (Nat.eqb_neq _ _)) by lia.
Qed.

(** Draining bytes whose positions may all start chunks keeps the answer. *)
Lemma drain_lengths (l rest : list chunk) (n o : nat) (out : chunk) :
  drainChunks l n = Ok (out, rest) -> (forall p, o <= p <= o + n -> start_ok cs p = true) ->
  lengths_whole cs o l = lengths_whole cs (o + n) rest.
Proof.
  revert n o out. induction l as [|h l IH]; intros n o out E Hp.
  - destruct n; [|discriminate E]. injection E as _ <-. now rewrite Nat.add_0_r.
  - destruct (Nat.eq_dec n 0) as [->|Hn].
    { injection E as _ <-. now rewrite Nat.add_0_r. }
    rewrite drain_cons in E by lia. cbn [lengths_whole]. rewrite Hp by lia. cbn [andb].
    destruct (Nat.leb_spec (length h) n).
    + destruct (drainChunks l (n - length h)) as [[out' rest']|] eqn:E'; [|discriminate E].
      injection E as _ <-. rewrite (IH _ (o + length h) _ E') by (intros; apply Hp; lia).
      f_equal. lia.
    + injection E as _ <-. cbn [lengths_whole]. rewrite Hp, length_skipn by lia. cbn [andb].
      f_equal. lia.
Qed.

Lemma drain_nonempty (l rest : list chunk) (n : nat) (out : chunk) :
  drainChunks l n = Ok (out, rest) -> Forall (fun c => c <> []) l -> Forall (fun c => c <> []) rest.
Proof.
  revert n out. induction l as [|h l IH]; intros n out E Hl.
  - destruct n; [|discriminate E]. now injection E as _ <-.
  - destruct (Nat.eq_dec n 0) as [->|Hn]; [now injection E as _ <-|].
    rewrite drain_cons in E by lia. inversion Hl as [|? ? Hh Hl']; subst.
    destruct (Nat.leb_spec (length h) n).
    + destruct (drainChunks l (n - length h)) as [[out' rest']|] eqn:E'; [|discriminate E].
      injection E as _ <-. now apply (IH _ _ E').
    + injection E as _ <-. constructor; [|assumption]. intros Es.
      apply (f_equal (@length Z)) in Es. rewrite length_skipn in Es. cbn in Es. lia.
Qed.

(** A frame whose length is in the first chunk. *)
Lemma drain_frame (h out : chunk) (t rest : list chunk) (n i : nat) :
  4 <= length h -> 4 <= n <= cs + FRAME_OVERHEAD -> drainChunks (h :: t) n = Ok (out, rest) ->
  lengths_whole cs (frame_start i) (h :: t) = lengths_whole cs (frame_start i + n) rest.
Proof.
  intros Hh Hn E. rewrite drain_cons in E by lia. cbn [lengths_whole].
  assert (Hs : forall r, r <= n -> r = 0 \/ 4 <= r -> start_ok cs (frame_start i + r) = true)
    by (intros; apply start_ok_in; lia).
  replace (start_ok cs (frame_start i)) with true
    by (rewrite <- (Nat.add_0_r (frame_start i)); symmetry; apply Hs; lia).
  cbn [andb]. destruct (Nat.leb_spec (length h) n).
  - destruct (drainChunks t (n - length h)) as [[out' rest']|] eqn:E'; [|discriminate E].
    injection E as _ <-. rewrite (drain_lengths t rest' _ (frame_start i + length h) _ E'); [f_equal; lia|].
    intros p Hp. replace p with (frame_start i + (p - frame_start i)) by lia. apply Hs; lia.
  - injection E as _ <-. cbn [lengths_whole]. rewrite Hs, length_skipn by lia. cbn [andb].
    f_equal. lia.
Qed.

(** A length that the first chunk does not hold. *)
Lemma short_head (h : chunk) (t : list chunk) (i : nat) :
  h <> [] -> length h < 4 -> 4 <= length (concat (h :: t)) ->
  lengths_whole cs (frame_start i) (h :: t) = false.
Proof.
  intros Hne Hh Hl. cbn [lengths_whole]. cbn [concat] in Hl. rewrite length_app in Hl.
  destruct t as [|c t]; [cbn in Hl; lia|]. cbn [lengths_whole].
  destruct h as [|x h]; [contradiction|]. rewrite start_bad; [|cbn [length] in *; lia].
  apply andb_false_r.
Qed.

Lemma header_drain (l rest : list chunk) (out : chunk) :
  drainChunks l STREAMING_HEADER_SIZE = Ok (out, rest) ->
  lengths_whole cs 0 l = lengths_whole cs (frame_start 0) rest.
Proof.
  intros E. rewrite (drain_lengths l rest _ 0 out E); [unfold frame_start; f_equal; lia|].
  intros p Hp. unfold start_ok. apply orb_true_iff. left. bool_lia.
Qed.
End Cuts.

Section Anywhere.
Context {W : WebCrypto} {L : WebCryptoLaws W}.
Variables (key : list Z) (ivs : nat -> list Z) (cs : nat).
Hypothesis Hcs : 1 <= cs.
Hypothesis Hcs_max : (Z.of_nat cs <= 16 * 1024 * 1024)%Z.
Hypothesis Hivs : forall i, length (ivs i) = STREAMING_IV_LENGTH.
Variable data : chunk.

Abbreviation q := (full_chunks cs data).
Abbreviation fs := (frame_start cs).
Abbreviation whole := (lengths_whole cs).
Abbreviation filled := (Forall (fun c : chunk => c <> [])).
Abbreviation frm := (stream_frame key ivs cs data).
Abbreviation frms := (frames key ivs cs data).

(** The buffer of a state that waits for the frame [i]. *)
Record holds (st : DecState) (B : list chunk) (i : nat) : Prop := {
  hd_chunks : bufferChunks st = B;
  hd_len : bufferLen st = length (concat B);
  hd_header : headerParsed st = true;
  hd_size : dec_chunkSize st = cs;
  hd_index : dec_index st = i;
  hd_final : finalized st = false
}.

Lemma frm_length (i : nat) : length (frm i) = length (chunk_at cs data i) + FRAME_OVERHEAD.
Proof.
  unfold stream_frame. rewrite (frame_length key ivs cs Hcs Hivs). unfold FRAME_OVERHEAD. lia.
Qed.

Lemma frm_full (i : nat) : i < q -> length (frm i) = cs + FRAME_OVERHEAD.
Proof. intros Hi. now rewrite frm_length, chunk_at_length by assumption. Qed.

Lemma frms_S (i k : nat) : concat (frms i (S k)) = frm i ++ concat (frms (S i) k).
Proof. reflexivity. Qed.

Lemma frms_left (i : nat) : i <= q ->
  concat (frms i (S q - i)) = frm i ++ concat (frms (S i) (q - i)).
Proof. intros Hi. replace (S q - i) with (S (q - i)) by lia. apply frms_S. Qed.

(** The length is read from the first chunk, if it is there. *)
Lemma head_read (h : chunk) (t : list chunk) (i : nat) (c more : chunk) :
  concat (h :: t) ++ c = frm i ++ more ->
  readUint32BE h 0 = if length h <? 4 then Throw range_error
                     else Ok (Z.of_nat (length (chunk_at cs data i))).
Proof.
  intros E. destruct (Nat.ltb_spec (length h) 4) as [Hh|Hh].
  - unfold readUint32BE. now rewrite (proj2 (Nat.ltb_lt _ _)) by lia.
  - pose proof (chunk_at_le cs Hcs data i) as Hp.
    pose proof (frame_read key ivs cs Hcs Hcs_max i (chunk_at cs data i) more Hp) as Hr.
    change (frame key ivs i (chunk_at cs data i)) with (frm i) in Hr. rewrite <- E in Hr.
    rewrite <- Hr. unfold readUint32BE. cbn [concat]. rewrite !length_app, <- !app_assoc.
    rewrite !(proj2 (Nat.ltb_ge _ _)) by lia. cbn [skipn]. rewrite firstn_app.
    replace (4 - length h) with 0 by lia. cbn [firstn]. now rewrite app_nil_r.
Qed.

(** What a run of the transform over the chunks [B] at the frame [i], followed by the bytes [c] of the
    stream that never arrive, comes to after [k] frames. *)
Inductive outcome (B : list chunk) (c : chunk) (i : nat) : nat -> res DecState -> Prop :=
  | Out_cut k b : i + k <= q -> concat B = concat (frms i k) ++ b -> (filled B -> whole (fs i) B = false) -> outcome B c i k (Throw range_error)
  | Out_wait k st B' : i + k <= q -> holds st B' (i + k) -> concat B = concat (frms i k) ++ concat B' ->
      length (concat B') < length (frm (i + k)) -> (filled B -> filled B') ->
      whole (fs i) B = whole (fs (i + k)) B' -> outcome B c i k (Ok st)
  | Out_end k st : i + k = S q -> c = [] -> concat B = concat (frms i k) ->
      headerParsed st = true -> finalized st = true -> bufferLen st = 0 ->
      (filled B -> whole (fs i) B = true) -> outcome B c i k (Ok st).

Lemma frame_start_S (i : nat) : fs i + (cs + FRAME_OVERHEAD) = fs (S i).
Proof. unfold frame_start. lia. Qed.

(** One more frame in front. *)
Lemma outcome_S (B rest : list chunk) (c : chunk) (i k : nat) (r : res DecState) :
  concat B = frm i ++ concat rest -> (filled B -> filled rest) ->
  whole (fs i) B = whole (fs (S i)) rest -> outcome rest c (S i) k r -> outcome B c i (S k) r.
Proof.
  intros E Hf Hw Ho.
  destruct Ho as [k b Hk Hb Hc|k st B' Hk Hst Hcc Hl Hf' Hw'|k st Hk Hc Hcc Hh Hfin Hl Hw'].
  - apply Out_cut with b; [lia| |intros HB; rewrite Hw; auto]. rewrite frms_S, E, Hb. apply app_assoc.
  - apply (Out_wait B c i (S k) st B'); replace (i + S k) with (S i + k) by lia; auto; try congruence.
    rewrite frms_S, E, Hcc. apply app_assoc.
  - apply Out_end; auto; try lia; [|intros; rewrite Hw; auto]. rewrite frms_S, E. now f_equal.
Qed.

(** A round over a whole frame whose length is in the first chunk. *)
Lemma round_any (fuel i : nat) (st : DecState) (h : chunk) (t : list chunk) (after : chunk) :
  holds st (h :: t) i -> 4 <= length h -> concat (h :: t) = frm i ++ after ->
  exists rest, drainChunks (h :: t) (length (frm i)) = Ok (frm i, rest) /\ concat rest = after /\
  let p := chunk_at cs data i in
  let st1 := after_open (set_buffer st rest (length after)) p in
  dec_loop key (S fuel) st
  = run_bind (if 0 <? length p then [p] else [], Ok st1) (fun st1 =>
      if length p <? cs then
        if 0 <? length after then lift (Throw "Trailing bytes after final streaming crypto frame")
        else run_ret (mkDec (bufferChunks st1) (bufferLen st1) (headerParsed st1) (dec_chunkSize st1)
                        (dec_index st1) (dec_bytes st1) true (dec_progress st1) (dec_stats st1))
      else dec_loop key fuel st1).
Proof.
  intros [Hch Hln Hhd Hsz Hix Hfn] Hh E.
  assert (Hle : length (frm i) <= length (concat (h :: t))) by (rewrite E, length_app; lia).
  destruct (drain_spec (h :: t) (length (frm i)) Hle) as (rest & Ed & Er).
  rewrite E in Ed, Er. rewrite firstn_app, firstn_all, Nat.sub_diag in Ed. cbn [firstn] in Ed.
  rewrite app_nil_r in Ed. rewrite skipn_app, skipn_all, Nat.sub_diag in Er. cbn [skipn app] in Er.
  exists rest. split; [exact Ed|]. split; [exact Er|]. cbv zeta.
  pose proof (frm_length i) as Hfl. unfold FRAME_OVERHEAD, STREAMING_IV_LENGTH, STREAMING_TAG_LENGTH in Hfl.
  cbn [dec_loop]. rewrite Hln, Hch, (proj2 (Nat.ltb_ge _ 4)) by lia.
  rewrite (head_read h t i [] after), (proj2 (Nat.ltb_ge (length h) 4)) by (rewrite ?app_nil_r; assumption).
  rewrite run_lift, Hsz. pose proof (chunk_at_le cs Hcs data i) as Hp.
  rewrite (proj2 (Z.ltb_ge _ _)), Nat2Z.id by lia.
  replace (4 + STREAMING_IV_LENGTH + length (chunk_at cs data i) + STREAMING_TAG_LENGTH)
    with (length (frm i)) by (unfold STREAMING_IV_LENGTH, STREAMING_TAG_LENGTH; lia).
  rewrite (proj2 (Nat.ltb_ge _ _)) by assumption. unfold take_bytes. rewrite Hch, Ed. cbn [res_bind].
  rewrite run_lift, Hln, E, length_app, Nat.add_sub_swap, Nat.sub_diag by lia. cbn [Nat.add].
  set (st0 := set_buffer st rest (length after)).
  unfold stream_frame. replace i with (dec_index st0) at 1 by exact Hix.
  replace (chunk_at cs data i) with (chunk_at cs data (dec_index st0)) at 1 by (f_equal; exact Hix).
  rewrite (open_frame_spec key ivs Hivs). replace (dec_index st0) with i by (symmetry; exact Hix).
  rewrite !run_out. cbn [after_open dec_chunkSize set_buffer bufferLen st0]. rewrite Hsz.
  now replace (Z.of_nat (length (chunk_at cs data i)) <? Z.of_nat cs)%Z
    with (length (chunk_at cs data i) <? cs) by bool_lia.
Qed.

Lemma out_bind {A B : Type} (o : list chunk) (a : A) (k : A -> run B) (o' : list chunk) (r : res B) :
  k a = (o', r) -> run_bind (o, Ok a) k = (o ++ o', r).
Proof. intros E. rewrite run_out, E. reflexivity. Qed.

(** A round that takes no frame: the buffer holds less than one, or its length is cut. *)
Lemma round_short (fuel i : nat) (st : DecState) (B : list chunk) (c more : chunk) :
  holds st B i -> i <= q -> concat B ++ c = frm i ++ more ->
  (4 <= length (concat B) -> length (concat B) < length (frm i) \/ length (hd [] B) < 4) ->
  exists r, dec_loop key (S fuel) st = ([], r) /\ outcome B c i 0 r.
Proof.
  intros Hst Hi E Hs. pose proof (frm_length i) as Hfl.
  unfold FRAME_OVERHEAD, STREAMING_IV_LENGTH, STREAMING_TAG_LENGTH in Hfl.
  assert (Hwait : length (concat B) < length (frm i) -> outcome B c i 0 (Ok st)).
  { intros Hl. apply (Out_wait B c i 0 st B); rewrite ?Nat.add_0_r; auto. }
  cbn [dec_loop]. destruct Hst as [-> -> _ -> _ _].
  destruct (Nat.ltb_spec (length (concat B)) 4) as [H4|H4]; [exists (Ok st); split; [reflexivity|apply Hwait; lia]|].
  destruct B as [|h t]; [simpl in H4; lia|]. rewrite (head_read h t i c more E).
  cbn [hd] in Hs. destruct (Nat.ltb_spec (length h) 4) as [Hh|Hh].
  { exists (Throw range_error). split; [reflexivity|]. apply Out_cut with (concat (h :: t)); [lia|reflexivity|].
    intros HB. inversion HB; subst. now apply short_head. }
  destruct Hs as [Hs|Hs]; [assumption| |lia]. exists (Ok st). split; [|auto].
  pose proof (chunk_at_le cs Hcs data i).
  rewrite run_lift, (proj2 (Z.ltb_ge _ _)), Nat2Z.id by lia.
  rewrite (proj2 (Nat.ltb_lt _ (_ + _))); [reflexivity|].
  unfold STREAMING_IV_LENGTH, STREAMING_TAG_LENGTH. lia.
Qed.

(** What a round that takes a frame does to the cuts. *)
Lemma round_cuts (i : nat) (h : chunk) (t rest : list chunk) :
  4 <= length h -> drainChunks (h :: t) (length (frm i)) = Ok (frm i, rest) ->
  whole (fs i) (h :: t) = whole (fs i + length (frm i)) rest
  /\ (filled (h :: t) -> filled rest).
Proof.
  intros Hh Ed. split; [|apply (drain_nonempty _ _ _ _ Ed)].
  apply (drain_frame cs h (frm i) t rest _ i Hh); [|exact Ed].
  pose proof (chunk_at_le cs Hcs data i). rewrite frm_length. unfold FRAME_OVERHEAD. lia.
Qed.

Lemma filled_empty (l : list chunk) : filled l -> concat l = [] -> l = [].
Proof.
  intros [|c l' Hc _] E; [reflexivity|]. cbn in E. apply app_eq_nil in E as [-> _]. contradiction.
Qed.

(** The loop, whatever the chunks of the buffer. *)
Lemma dec_loop_any (fuel i : nat) (st : DecState) (B : list chunk) (c : chunk) :
  holds st B i -> i <= q -> concat B ++ c = concat (frms i (S q - i)) -> length (concat B) < fuel ->
  exists k r, dec_loop key fuel st = (outputs cs data i k, r) /\ outcome B c i k r.
Proof.
  revert i st B. induction fuel as [|fuel IH]; intros i st B Hst Hi E Hf; [lia|].
  rewrite frms_left in E by assumption.
  destruct (Nat.lt_ge_cases (length (concat B)) (length (frm i))) as [Hl|Hl];
    [destruct (round_short fuel i st B c _ Hst Hi E) as (r & Er & Hr); [auto|now exists 0, r]|].
  destruct (Nat.lt_ge_cases (length (hd [] B)) 4) as [Hh|Hh];
    [destruct (round_short fuel i st B c _ Hst Hi E) as (r & Er & Hr); [auto|now exists 0, r]|].
  destruct B as [|h t]; [simpl in Hh; lia|]. cbn [hd] in Hh.
  set (after := skipn (length (frm i)) (concat (h :: t))).
  assert (Ea : concat (h :: t) = frm i ++ after /\ after ++ c = concat (frms (S i) (q - i))).
  { rewrite <- (firstn_skipn (length (frm i)) (concat (h :: t))), <- app_assoc in E.
    apply app_eq_app_length in E; [|rewrite length_firstn; lia]. destruct E as [E1 E2].
    split; [|exact E2]. now rewrite <- E1 at 1; unfold after; rewrite firstn_skipn. }
  destruct Ea as [Ea Ec]. clearbody after.
  destruct (round_any fuel i st h t after Hst Hh Ea) as (rest & Ed & Er & Eloop). cbv zeta in Eloop.
  rewrite Eloop. set (st1 := after_open _ _). destruct (round_cuts i h t rest Hh Ed) as [Hw Hfil].
  assert (Hst1 : holds st1 rest (S i)) by (destruct Hst; constructor; cbn; congruence).
  destruct (Nat.eq_dec i q) as [->|Hne].
  - pose proof (chunk_at_last cs Hcs data) as Hlast. rewrite (proj2 (Nat.ltb_lt _ cs)) by assumption.
    rewrite Nat.sub_diag in Ec. apply app_eq_nil in Ec as [-> ->]. cbn [length Nat.ltb Nat.leb].
    exists 1. eexists. rewrite outputs_S. split; [reflexivity|].
    apply Out_end; try reflexivity; try apply Hst1; try lia.
    + now rewrite frms_S, Ea.
    + intros HB. rewrite Hw. now rewrite (filled_empty rest (Hfil HB) Er).
  - assert (Hfull : length (chunk_at cs data i) = cs) by (apply chunk_at_length; lia).
    rewrite Hfull, Nat.ltb_irrefl.
    destruct (IH (S i) st1 rest Hst1) as (k & r & El & Ho); [lia|now rewrite Er|..].
    { rewrite Er. apply (f_equal (@length Z)) in Ea. rewrite length_app, frm_length in Ea.
      unfold FRAME_OVERHEAD in Ea. lia. }
    exists (S k), r. split.
    + erewrite out_bind by exact El. now rewrite outputs_S, Hfull.
    + apply (outcome_S _ rest); auto; [now rewrite Er|]. now rewrite Hw, frm_full, frame_start_S by lia.
Qed.

Lemma frms_full (i k : nat) : i + k <= q -> length (concat (frms i k)) = k * (cs + FRAME_OVERHEAD).
Proof.
  revert i. induction k as [|k IH]; intros i Hk; [reflexivity|].
  rewrite frms_S, length_app, frm_full, IH by lia. lia.
Qed.

(** A run that waits, and then more chunks. *)
Lemma outcome_trans (B B' l : list chunk) (c : chunk) (i k k' : nat) (r : res DecState) :
  i + k <= q -> concat B = concat (frms i k) ++ concat B' -> (filled B -> filled B') ->
  whole (fs i) B = whole (fs (i + k)) B' ->
  outcome (B' ++ l) c (i + k) k' r -> outcome (B ++ l) c i (k + k') r.
Proof.
  intros Hk E Hf Hw Ho.
  assert (HF : length (concat (frms i k)) = k * (cs + FRAME_OVERHEAD)) by now apply frms_full.
  assert (Hw' : whole (fs i) (B ++ l) = whole (fs (i + k)) (B' ++ l)).
  { rewrite !lengths_app, Hw, E, length_app, HF. do 2 f_equal. unfold frame_start. lia. }
  assert (Hf' : filled (B ++ l) -> filled (B' ++ l)).
  { rewrite !Forall_app. tauto. }
  assert (HE : forall j, concat (frms i (k + j)) = concat (frms i k) ++ concat (frms (i + k) j)).
  { intros j. unfold frames. now rewrite seq_app, map_app, concat_app. }
  destruct Ho as [k' b Hk' Hb Hc|k' st' B2 Hk' Hst Hcc Hl Hf2 Hw2|k' st' Hk' Hc Hcc Hh Hfin Hl Hw2].
  - apply Out_cut with b; [lia| |intros HB; rewrite Hw'; auto].
    rewrite HE, concat_app, E, <- !app_assoc. f_equal. rewrite <- concat_app. exact Hb.
  - apply (Out_wait _ c i (k + k') st' B2); rewrite ?Nat.add_assoc; auto; try congruence.
    rewrite HE, concat_app, E, <- !app_assoc. f_equal. rewrite <- concat_app. exact Hcc.
  - apply Out_end; auto; try lia; [|intros; rewrite Hw'; auto].
    rewrite HE, concat_app, E, <- !app_assoc. f_equal. rewrite <- concat_app. exact Hcc.
Qed.

Lemma outputs_app (i k k' : nat) :
  outputs cs data i k ++ outputs cs data (i + k) k' = outputs cs data i (k + k').
Proof. unfold outputs. now rewrite <- filter_app, <- map_app, <- seq_app. Qed.

Lemma transform_any (st : DecState) (B : list chunk) (i : nat) (x c : chunk) :
  holds st B i -> i <= q -> concat (B ++ [x]) ++ c = concat (frms i (S q - i)) ->
  exists k r, dec_transform key st x = (outputs cs data i k, r) /\ outcome (B ++ [x]) c i k r.
Proof.
  intros [Hch Hln Hhd Hsz Hix Hfn] Hi E. unfold dec_transform. rewrite Hfn, Hhd.
  apply dec_loop_any; auto.
  - constructor; cbn; auto; [congruence|].
    rewrite concat_app, length_app, Hln. cbn. now rewrite app_nil_r.
  - rewrite concat_app, length_app, Hln. cbn. rewrite app_nil_r. lia.
Qed.

(** The chunks that follow a run. *)
Lemma feed_any (l B : list chunk) (c : chunk) (i k : nat) (r : res DecState) :
  i + k <= S q -> concat B ++ concat l ++ c = concat (frms i (S q - i)) -> c <> [] \/ filled l ->
  outcome B (concat l ++ c) i k r ->
  exists k' r', run_bind (outputs cs data i k, r) (fun st => feed (dec_transform key) st l)
                = (outputs cs data i k', r') /\ outcome (B ++ l) c i k' r'.
Proof.
  revert B i k r. induction l as [|x l IH]; intros B i k r Hk E Hc Ho.
  { exists k, r. rewrite app_nil_r. split; [|exact Ho]. destruct r; [|reflexivity].
    rewrite run_out. cbn [feed run_ret fst snd]. now rewrite app_nil_r. }
  destruct Ho as [k b Hk' Hb Hw|k st B' Hk' Hst Hcc Hl Hf Hw|k st Hk' Hnil _ _ _ _ _].
  - exists k, (Throw range_error). split; [reflexivity|]. apply Out_cut with (b ++ concat (x :: l)); [assumption| |].
    { rewrite concat_app, Hb. symmetry. apply app_assoc. }
    intros HB. apply Forall_app in HB as [HB _]. now rewrite lengths_app, Hw.
  - assert (E' : concat (B' ++ [x]) ++ concat l ++ c = concat (frms (i + k) (S q - (i + k)))).
    { rewrite Hcc in E. replace (S q - i) with (k + (S q - (i + k))) in E by lia.
      unfold frames in E. rewrite seq_app, map_app, concat_app, <- app_assoc in E.
      apply app_inv_head in E. rewrite concat_app. cbn [concat] in *.
      now rewrite app_nil_r, <- !app_assoc in *. }
    destruct (transform_any st B' (i + k) x (concat l ++ c) Hst Hk' E') as (k1 & r1 & Et & Ho1).
    assert (Hk1 : i + k + k1 <= S q) by (destruct Ho1; lia).
    destruct (IH (B' ++ [x]) (i + k) k1 r1 Hk1 E') as (k2 & r2 & Ef & Ho2); [|exact Ho1|].
    { destruct Hc as [Hc|Hc]; [auto|]. inversion Hc; auto. }
    exists (k + k2), r2. split.
    + rewrite <- outputs_app. apply out_bind. cbn [feed]. rewrite Et. exact Ef.
    + apply outcome_trans with B'; auto. now rewrite <- app_assoc in Ho2.
  - exfalso. apply app_eq_nil in Hnil as [Hnil ->]. destruct Hc as [Hc|Hc]; [contradiction|].
    now apply filled_empty in Hnil.
Qed.

(** The whole transform, from its start. *)
Inductive started (B : list chunk) (c : chunk) : nat -> res DecState -> Prop :=
  | Started_no st : headerParsed st = false -> length (concat B) < STREAMING_HEADER_SIZE ->
      started B c 0 (Ok st)
  | Started rest k r : length (concat B) = STREAMING_HEADER_SIZE + length (concat rest) ->
      (filled B -> filled rest) -> whole 0 B = whole (fs 0) rest -> outcome rest c 0 k r ->
      started B c k r.

Lemma header_first (B : list chunk) (c more : chunk) : concat B ++ c = buildHeader cs ++ more ->
  STREAMING_HEADER_SIZE <= length (concat B) ->
  exists rest, drainChunks B STREAMING_HEADER_SIZE = Ok (buildHeader cs, rest)
    /\ concat B = buildHeader cs ++ concat rest /\ concat rest ++ c = more.
Proof.
  intros E Hl. destruct (drain_spec B _ Hl) as (rest & Ed & Er).
  pose proof (firstn_skipn STREAMING_HEADER_SIZE (concat B)) as Hfs. rewrite <- Er in Hfs.
  rewrite <- Hfs, <- app_assoc in E.
  apply app_eq_app_length in E as [Eh Em]; [|rewrite length_firstn, header_length; lia].
  exists rest. rewrite Ed, Eh. now rewrite Eh in Hfs.
Qed.

Lemma start_any (l B : list chunk) (c : chunk) (stats : StreamingMemoryStats) :
  concat B ++ concat l ++ c = buildHeader cs ++ concat (frms 0 (S q)) -> c <> [] \/ filled l ->
  length (concat B) < STREAMING_HEADER_SIZE ->
  exists k r, feed (dec_transform key)
                (mkDec B (length (concat B)) false STREAMING_CHUNK_SIZE 0 0 false [] stats) l
              = (outputs cs data 0 k, r) /\ started (B ++ l) c k r.
Proof.
  revert B stats. induction l as [|x l IH]; intros B stats E Hc Hl.
  { eexists 0, _. rewrite app_nil_r. split; [reflexivity|]. now constructor. }
  assert (E' : concat (B ++ [x]) ++ concat l ++ c = buildHeader cs ++ concat (frms 0 (S q))).
  { rewrite concat_app. cbn [concat] in *. now rewrite app_nil_r, <- !app_assoc in *. }
  assert (Hc' : c <> [] \/ filled l) by (destruct Hc as [Hc|Hc]; [auto|inversion Hc; auto]).
  assert (Hln : length (concat B) + length x = length (concat (B ++ [x]))).
  { rewrite concat_app, length_app. cbn. now rewrite app_nil_r. }
  replace (B ++ x :: l) with ((B ++ [x]) ++ l) by now rewrite <- app_assoc.
  cbn [feed]. unfold dec_transform at 1. cbn [finalized headerParsed bufferLen bufferChunks].
  rewrite Hln. destruct (Nat.ltb_spec (length (concat (B ++ [x]))) STREAMING_HEADER_SIZE) as [Hs|Hs].
  - rewrite run_return. now apply IH.
  - destruct (header_first (B ++ [x]) _ _ E' Hs) as (rest & Ed & Eb & Er).
    unfold take_bytes. cbn [bufferChunks]. rewrite Ed. cbn [res_bind]. rewrite run_lift.
    rewrite parse_header by lia. replace (cs <? 1) with false by bool_lia.
    replace (16 * 1024 * 1024 <? Z.of_nat cs)%Z with false by bool_lia. cbn [orb]. rewrite run_lift.
    assert (Hlen : length (concat (B ++ [x])) = STREAMING_HEADER_SIZE + length (concat rest))
      by now rewrite Eb, length_app, header_length.
    match goal with |- context [dec_loop key ?f ?s] =>
      destruct (dec_loop_any f 0 s rest (concat l ++ c)) as (k1 & r1 & E1 & Ho1) end.
    + constructor; cbn; auto. rewrite Hlen. cbn. lia.
    + lia.
    + now rewrite Nat.sub_0_r.
    + lia.
    + rewrite E1. destruct (feed_any l rest c 0 k1 r1) as (k & r & Ef & Ho); auto.
      { destruct Ho1; lia. }
      exists k, r. split; [exact Ef|]. apply Started with (rest ++ l); auto.
      * rewrite (concat_app (B ++ [x])), (concat_app rest), (length_app _ (concat l)), Hlen, length_app. lia.
      * rewrite !Forall_app. intros [Hb Hl']. split; [|assumption].
        apply (drain_nonempty _ _ _ _ Ed). now apply Forall_app.
      * rewrite (lengths_app cs 0 (B ++ [x])), (lengths_app cs _ rest), (header_drain cs _ _ _ Ed), Hlen.
        reflexivity.
Qed.

Lemma decrypt_started (body : list chunk) (c : chunk) :
  concat body ++ c = buildHeader cs ++ concat (frms 0 (S q)) -> c <> [] \/ filled body ->
  exists k r, decryptStream key body = run_bind (outputs cs data 0 k, r) dec_flush /\ started body c k r.
Proof.
  intros E Hc.
  destruct (start_any body [] c createMemoryStats) as (k & r & Ef & Hs); auto; [apply Nat.lt_0_succ|].
  exists k, r. split; [|exact Hs]. unfold decryptStream. now rewrite <- Ef.
Qed.

(** The whole stream: decrypted to the end if and only if no length is cut. *)
Lemma decrypt_whole (body : list chunk) :
  concat body = buildHeader cs ++ concat (frms 0 (S q)) -> filled body ->
  exists k, decryptStream key body
            = (outputs cs data 0 k, if whole 0 body then Ok tt else Throw range_error)
    /\ k <= S q /\ (whole 0 body = true -> k = S q).
Proof.
  intros E Hf. destruct (decrypt_started body []) as (k & r & -> & Hs); [now rewrite app_nil_r|auto|].
  exists k. apply (f_equal (@length Z)) in E. rewrite length_app, header_length in E.
  destruct Hs as [st _ Hl|rest k r Hl Hf' Hw Ho]; [exfalso; lia|].
  rewrite Hw. destruct Ho as [k b Hk _ Hc|k st B' Hk _ Hcc Hlt _ _|k st Hk _ Hcc Hh Hfin Hl0 Hc].
  - rewrite (Hc (Hf' Hf)). split; [reflexivity|split; [lia|discriminate]].
  - exfalso. rewrite E in Hl. assert (Hl' : length (concat (frms 0 (S q))) = length (concat rest)) by lia.
    rewrite Hcc in Hl'. replace (S q) with (k + S (q - k)) in Hl' by lia.
    unfold frames in Hl'. rewrite seq_app, map_app, concat_app, !length_app in Hl'.
    cbn [seq map concat Nat.add] in Hl'. rewrite length_app in Hl'. cbn [Nat.add] in Hlt. lia.
  - rewrite (Hc (Hf' Hf)). cbn [Nat.add] in Hk. subst k. repeat split; auto.
    rewrite run_out. unfold dec_flush. rewrite Hh, Hfin, Hl0. cbn. now rewrite app_nil_r.
Qed.

Lemma flush_unfinished (o : list chunk) (st : DecState) (e : string) :
  dec_flush st = lift (Throw e) -> run_bind (o, Ok st) dec_flush = (o, Throw e).
Proof. intros E. rewrite run_out, E. cbn. now rewrite app_nil_r. Qed.

(** A stream cut short anywhere: an error, after frames that arrived in full. *)
Lemma decrypt_truncated (body : list chunk) (c : chunk) : c <> [] ->
  concat body ++ c = buildHeader cs ++ concat (frms 0 (S q)) ->
  let arrived := (length (concat body) - STREAMING_HEADER_SIZE) / (cs + FRAME_OVERHEAD) in
  exists k e, decryptStream key body = (outputs cs data 0 k, Throw e) /\ k <= q /\ k <= arrived
    /\ (filled body -> whole 0 body = true ->
         k = arrived /\ e = if length (concat body) <? STREAMING_HEADER_SIZE
                           then "Truncated streaming ciphertext (missing header)"%string
                           else "Truncated streaming ciphertext (missing final frame)"%string).
Proof.
  intros Hne E arrived. destruct (decrypt_started body c E) as (k & r & -> & Hs); [auto|].
  exists k. destruct Hs as [st Hh Hl|rest k r Hl Hf' Hw Ho].
  - exists "Truncated streaming ciphertext (missing header)"%string.
    assert (Ha : arrived = 0) by (unfold arrived; replace (_ - _) with 0 by lia; apply Nat.Div0.div_0_l).
    rewrite flush_unfinished with (e := "Truncated streaming ciphertext (missing header)"%string)
      by (unfold dec_flush; now rewrite Hh).
    rewrite (proj2 (Nat.ltb_lt _ _)) by exact Hl. repeat split; auto; lia.
  - unfold arrived. rewrite Hl, Nat.add_sub_swap, Nat.sub_diag by lia. cbn [Nat.add].
    rewrite (proj2 (Nat.ltb_ge _ _)) by lia. set (F := cs + FRAME_OVERHEAD).
    assert (HF : F <> 0) by (unfold F; lia).
    destruct Ho as [k b Hk Hb Hc|k st B' Hk Hst Hcc Hlt _ _|k st _ Hc _ _ _ _ _]; [..|contradiction].
    + exists range_error. split; [reflexivity|]. split; [exact Hk|].
      rewrite Hb, length_app, frms_full by exact Hk. fold F.
      split; [apply Nat.div_le_lower_bound; lia|]. intros Hf. now rewrite Hw, (Hc (Hf' Hf)).
    + exists "Truncated streaming ciphertext (missing final frame)"%string.
      rewrite Hcc, length_app, frms_full by exact Hk. fold F.
      rewrite frm_length in Hlt. pose proof (chunk_at_le cs Hcs data (0 + k)).
      rewrite Nat.add_comm, Nat.div_add, Nat.div_small by lia.
      rewrite (flush_unfinished _ st "Truncated streaming ciphertext (missing final frame)"); [auto|].
      unfold dec_flush. now destruct Hst as [_ _ -> _ _ ->].
Qed.
End Anywhere.

Lemma chunks_bounded (l : list chunk) : exists M, Forall (fun c => length c <= M) l.
Proof.
  exists (list_max (map (@length Z) l)). apply Forall_map with (P := fun n => n <= _).
  now apply list_max_le.
Qed.

Lemma encrypt_pieces {W : WebCrypto} (key : list Z) (ivs : nat -> list Z) (cs : nat) (l : list chunk) :
  1 <= cs -> exists st, encryptStream key ivs cs l
    = (buildHeader cs :: frames key ivs cs (concat l) 0 (S (full_chunks cs (concat l))), Ok st).
Proof.
  intros Hcs. destruct (chunks_bounded l) as [M HM].
  destruct (encryptStream_spec key ivs cs M Hcs l HM) as (st & E & _). exists st. exact E.
Qed.

Lemma firstn_pieces {W : WebCrypto} (key : list Z) (ivs : nat -> list Z) (cs : nat) (data : chunk) (n m : nat) :
  n <= m -> firstn (S n) (buildHeader cs :: frames key ivs cs data 0 m)
            = buildHeader cs :: frames key ivs cs data 0 n.
Proof.
  intros Hn. cbn [firstn]. f_equal. unfold frames. rewrite firstn_map. f_equal.
  replace m with (n + (m - n)) by lia. rewrite seq_app.
  rewrite firstn_app, length_seq, Nat.sub_diag, app_nil_r.
  apply firstn_all2. now rewrite length_seq.
Qed.

Lemma pieces_length {W : WebCrypto} (key : list Z) (ivs : nat -> list Z) (cs : nat) (data : chunk) (m : nat) :
  length (buildHeader cs :: frames key ivs cs data 0 m) = S m.
Proof. cbn [length]. unfold frames. now rewrite length_map, length_seq. Qed.

Lemma one_by_one (m : list chunk) :
  concat (map (fun c => [c]) m) = m /\ map (@concat Z) (map (fun c => [c]) m) = m.
Proof.
  induction m as [|c m [IH1 IH2]]; [auto|]. cbn [map concat]. rewrite IH1, IH2, app_nil_r. auto.
Qed.

Definition seven : chunk := [1; 2; 3; 4; 5; 6; 7]%Z.
Definition zero_ivs : nat -> list Z := fun _ => repeat 0%Z 12.

(** What [encryptStream] emits depends only on the bytes of the plaintext, not on the chunks
    they arrive in; and the transform never counts more than the largest input chunk, two chunks of
    its own and 28 bytes, whatever the length of the stream. *)
Theorem encrypt_independent_of_chunks {W : WebCrypto} (key : list Z) (ivs : nat -> list Z) (cs : nat)
    (Hcs : 1 <= cs) (l l' : list chunk) (Hl : collectStream l = collectStream l') (M : nat)
    (HM : Forall (fun c => length c <= M) l) :
  fst (encryptStream key ivs cs l) = fst (encryptStream key ivs cs l')
  /\ exists st, snd (encryptStream key ivs cs l) = Ok st
       /\ peakBufferBytes (enc_stats st) <= M + 2 * cs + 28.
Proof.
  destruct (encryptStream_spec key ivs cs M Hcs l HM) as (st & E & Hp).
  destruct (encrypt_pieces key ivs cs l' Hcs) as (st' & E').
  unfold collectStream in Hl. rewrite E, E', Hl. split; [reflexivity|]. now exists st.
Qed.

Lemma encrypt_independent_of_chunks_witness :
  fst (encryptStream [] zero_ivs 3 [seven]) = fst (encryptStream [] zero_ivs 3 (map (fun b => [b]) seven))
  /\ exists st, snd (encryptStream [] zero_ivs 3 [seven]) = Ok st
       /\ peakBufferBytes (enc_stats st) <= 7 + 2 * 3 + 28.
Proof.
  apply (encrypt_independent_of_chunks [] zero_ivs 3); [lia|reflexivity|]. repeat constructor.
Defined.

(** Decrypting inverts encrypting, when the pieces arrive whole, one by one or glued together. *)
Lemma decrypt_encrypted {W : WebCrypto} {L : WebCryptoLaws W} (key : list Z) (ivs : nat -> list Z)
    (cs : nat) (l : list chunk) (groups : list (list chunk)) :
  1 <= cs -> (Z.of_nat cs <= 16 * 1024 * 1024)%Z -> (forall i, length (ivs i) = STREAMING_IV_LENGTH) ->
  Forall (fun g => g <> []) groups -> concat groups = fst (encryptStream key ivs cs l) ->
  exists outs, decryptStream key (map collectStream groups) = (outs, Ok tt)
    /\ collectStream outs = collectStream l.
Proof.
  intros Hcs Hmax Hivs Hg Hc.
  destruct (encrypt_pieces key ivs cs l Hcs) as (st & E). rewrite E in Hc. cbn [fst] in Hc.
  exists (outputs cs (concat l) 0 (S (full_chunks cs (concat l)))). split.
  - change (map collectStream groups) with (map (@concat Z) groups).
    erewrite (decrypt_pieces key ivs cs Hcs Hmax Hivs _ _ _ (Nat.le_refl _) Hg Hc).
    now rewrite Nat.eqb_refl.
  - unfold collectStream. now rewrite concat_outputs, concat_all_chunks.
Qed.

(** The bytes of the stream. *)
Lemma encrypt_bytes {W : WebCrypto} (key : list Z) (ivs : nat -> list Z) (cs : nat) (l : list chunk) :
  1 <= cs -> collectStream (fst (encryptStream key ivs cs l))
             = buildHeader cs ++ concat (frames key ivs cs (concat l) 0 (S (full_chunks cs (concat l)))).
Proof. intros Hcs. now destruct (encrypt_pieces key ivs cs l Hcs) as (st & ->). Qed.

(** C31: A stream cut short at any byte, inside a header, a length or a frame as well as between frames, and
    delivered in any chunks, ends with an error and is never taken for a complete one: what was written
    before it is the plaintext of frames that arrived in full.  When no chunk boundary falls inside a
    length, that is of every frame that arrived in full, and the error is the one for truncation. *)
Theorem stream_truncated {W : WebCrypto} {L : WebCryptoLaws W} (key : list Z) (ivs : nat -> list Z)
    (cs : nat) (Hcs : 1 <= cs) (Hmax : (Z.of_nat cs <= 16 * 1024 * 1024)%Z)
    (Hivs : forall i, length (ivs i) = STREAMING_IV_LENGTH) (l : list chunk) (n : nat)
    (Hn : n < length (collectStream (fst (encryptStream key ivs cs l)))) (body : list chunk)
    (Hbody : collectStream body = firstn n (collectStream (fst (encryptStream key ivs cs l)))) :
  let arrived := (n - STREAMING_HEADER_SIZE) / (cs + FRAME_OVERHEAD) in
  exists outs k e, decryptStream key body = (outs, Throw e)
    /\ collectStream outs = firstn (k * cs) (collectStream l) /\ k <= arrived
    /\ (Forall (fun c => c <> []) body -> lengths_whole cs 0 body = true ->
         k = arrived /\ e = if n <? STREAMING_HEADER_SIZE
                           then "Truncated streaming ciphertext (missing header)"%string
                           else "Truncated streaming ciphertext (missing final frame)"%string).
Proof.
  intros arrived. set (data := concat l). rewrite encrypt_bytes in Hn, Hbody by assumption.
  unfold collectStream at 1 in Hbody. fold data in Hn, Hbody. set (s := buildHeader cs ++ _) in Hn, Hbody.
  assert (Hl : length (concat body) = n) by (rewrite Hbody, length_firstn; lia).
  destruct (decrypt_truncated key ivs cs Hcs Hmax Hivs data body (skipn n s))
    as (k & e & Ed & Hk & Ha & Hw); [|rewrite Hbody; apply firstn_skipn|].
  - intros E. apply (f_equal (@length Z)) in E. rewrite length_skipn in E. change (length []) with 0 in E. lia.
  - rewrite Hl in Ha, Hw. exists (outputs cs data 0 k), k, e. split; [exact Ed|].
    split; [|auto]. unfold collectStream. fold data. now rewrite concat_outputs, concat_chunks by lia.
Qed.

(** A stream of 119 bytes that ends inside its last frame, in two chunks. *)
Definition cut_stream : chunk := firstn 110 (collectStream (fst (encryptStream [] zero_ivs 3 [seven]))).

Lemma stream_truncated_witness :
  length (collectStream (fst (encryptStream [] zero_ivs 3 [seven]))) = 119
  /\ exists outs, decryptStream [] [firstn 60 cut_stream; skipn 60 cut_stream]
                  = (outs, Throw "Truncated streaming ciphertext (missing final frame)")
       /\ collectStream outs = [1; 2; 3; 4; 5; 6]%Z.
Proof.
  split; [vm_compute; reflexivity|].
  assert (Hn : 110 < length (collectStream (fst (encryptStream [] zero_ivs 3 [seven])))) by (vm_compute; lia).
  assert (Hb : collectStream [firstn 60 cut_stream; skipn 60 cut_stream] = cut_stream)
    by (vm_compute; reflexivity).
  destruct (stream_truncated [] zero_ivs 3 ltac:(lia) ltac:(lia) (fun _ => eq_refl) [seven] 110 Hn _ Hb)
    as (outs & k & e & E & Ho & _ & Hw).
  destruct Hw as [-> ->]; [repeat constructor; vm_compute; discriminate|vm_compute; reflexivity|].
  exists outs. split; [exact E|]. rewrite Ho. vm_compute. reflexivity.
Defined.

(** Frames are bound to their position: a frame sealed for position [j], of any stream under the
    same key, put at position [i] ends the decryption with an error after the [i] chunks before it. *)
Theorem stream_reordered {W : WebCrypto} {L : WebCryptoLaws W} (key : list Z) (ivs : nat -> list Z)
    (cs : nat) (Hcs : 1 <= cs) (Hmax : (Z.of_nat cs <= 16 * 1024 * 1024)%Z)
    (Hivs : forall i, length (ivs i) = STREAMING_IV_LENGTH) (l : list chunk) (i j : nat) (p : chunk)
    (Hi : S i < length (fst (encryptStream key ivs cs l))) (Hp : length p <= cs) (Hne : i <> j)
    (Hi32 : (Z.of_nat i < 2 ^ 32)%Z) (Hj32 : (Z.of_nat j < 2 ^ 32)%Z) (more : list chunk) :
  exists outs,
    decryptStream key (collectStream (firstn (S i) (fst (encryptStream key ivs cs l)))
                       :: frame key ivs j p :: more)
    = (outs, Throw ("Streaming decryption failed at chunk " ++ num_str (Z.of_nat i)
                    ++ " (wrong key or corrupted ciphertext)"))
    /\ collectStream outs = firstn (i * cs) (collectStream l).
Proof.
  destruct (encrypt_pieces key ivs cs l Hcs) as (st & E). rewrite E in *. cbn [fst] in *.
  rewrite pieces_length in Hi. rewrite firstn_pieces by lia. exists (outputs cs (concat l) 0 i).
  split; [|unfold collectStream; now rewrite concat_outputs, concat_chunks by lia].
  apply (decrypt_after key ivs cs Hcs Hmax Hivs); [lia|]. intros st' Hst'. cbn [feed].
  rewrite (dec_other_index key ivs cs Hcs Hmax Hivs i j p st') by assumption. reflexivity.
Qed.

Lemma stream_reordered_witness :
  exists outs,
    decryptStream [] (collectStream (firstn 2 (fst (encryptStream [] zero_ivs 3 [seven])))
                       :: frame [] zero_ivs 2 [7]%Z :: [])
    = (outs, Throw "Streaming decryption failed at chunk 1 (wrong key or corrupted ciphertext)")
    /\ collectStream outs = [1; 2; 3]%Z.
Proof.
  apply (stream_reordered [] zero_ivs 3) with (l := [seven]) (i := 1) (p := [7]%Z);
    [lia|lia|reflexivity|vm_compute; lia|simpl; lia|lia|lia|lia].
Defined.

(** A stream that arrives cut one to three bytes into the length field of a frame is not decrypted:
    the length is read from the first buffered chunk alone, and the read is out of its bounds. *)
Theorem stream_cut_in_length {W : WebCrypto} {L : WebCryptoLaws W} (key : list Z) (ivs : nat -> list Z)
    (cs : nat) (Hcs : 1 <= cs) (Hmax : (Z.of_nat cs <= 16 * 1024 * 1024)%Z)
    (Hivs : forall i, length (ivs i) = STREAMING_IV_LENGTH) (l : list chunk) (i n : nat)
    (f : chunk) (more : list chunk) (Hf : nth_error (fst (encryptStream key ivs cs l)) (S i) = Some f)
    (Hn : 1 <= n <= 3) :
  exists outs,
    decryptStream key (collectStream (firstn (S i) (fst (encryptStream key ivs cs l)))
                       :: firstn n f :: skipn n f :: more)
    = (outs, Throw "RangeError: Invalid DataView length").
Proof.
  destruct (encrypt_pieces key ivs cs l Hcs) as (st & E). rewrite E in *. cbn [fst nth_error] in *.
  assert (Hi : i < S (full_chunks cs (concat l))).
  { rewrite <- (length_seq (S (full_chunks cs (concat l))) 0), <- (length_map (stream_frame key ivs cs (concat l))).
    apply nth_error_Some. unfold frames in Hf. now rewrite Hf. }
  rewrite firstn_pieces by lia. exists (outputs cs (concat l) 0 i).
  unfold frames in Hf. rewrite nth_error_map, nth_error_seq in Hf.
  replace (i <? S (full_chunks cs (concat l))) with true in Hf by bool_lia. injection Hf as <-.
  apply (decrypt_after key ivs cs Hcs Hmax Hivs); [lia|]. intros st' Hst'.
  now apply (dec_cut_length key ivs cs Hcs Hivs).
Qed.

Lemma stream_cut_in_length_witness :
  exists outs,
    decryptStream [] (collectStream (firstn 2 (fst (encryptStream [] zero_ivs 3 [seven])))
                       :: firstn 2 (frame [] zero_ivs 1 [4; 5; 6]%Z)
                       :: skipn 2 (frame [] zero_ivs 1 [4; 5; 6]%Z) :: [])
    = (outs, Throw "RangeError: Invalid DataView length").
Proof.
  apply (stream_cut_in_length [] zero_ivs 3) with (l := [seven]) (i := 1);
    [lia|lia|reflexivity|reflexivity|lia].
Defined.

(** A chunk size above 16 MiB is accepted by the encryption and refused by the decryption: what
    [encryptStream] then emits, in full and without an error, is unreadable from its header on. *)
Theorem stream_large_chunks {W : WebCrypto} {L : WebCryptoLaws W} (key : list Z) (ivs : nat -> list Z)
    (cs : nat) (Hbig : (16 * 1024 * 1024 < Z.of_nat cs < 2 ^ 32)%Z) (l : list chunk) :
  exists cts st, encryptStream key ivs cs l = (cts, Ok st) /\
    decryptStream key cts = ([], Throw ("Invalid streaming chunk size: " ++ num_str (Z.of_nat cs))).
Proof.
  assert (Hcs : 1 <= cs) by lia. destruct (encrypt_pieces key ivs cs l Hcs) as (st & E).
  eexists _, st. split; [exact E|]. unfold decryptStream. cbn [feed]. unfold dec_transform, dec_start.
  cbn [finalized headerParsed bufferLen bufferChunks app]. rewrite header_length.
  cbn [Nat.add STREAMING_HEADER_SIZE Nat.ltb Nat.leb].
  rewrite (take_single cs Hcs _ _ (buildHeader cs) []);
    [|now rewrite app_nil_r|discriminate|now rewrite header_length].
  rewrite run_lift, parse_header by lia.
  replace (16 * 1024 * 1024 <? Z.of_nat cs)%Z with true by bool_lia. now rewrite orb_true_r.
Qed.

Lemma stream_large_chunks_witness : exists cts st,
  encryptStream [] zero_ivs (Z.to_nat (16 * 1024 * 1024 + 1)) [seven] = (cts, Ok st) /\
  decryptStream [] cts = ([], Throw "Invalid streaming chunk size: 16777217").
Proof.
  assert (H : num_str (Z.of_nat (Z.to_nat (16 * 1024 * 1024 + 1))) = "16777217"%string)
    by (rewrite Z2Nat.id by lia; reflexivity).
  rewrite <- H. apply (stream_large_chunks [] zero_ivs); lia.
Defined.

(** * Detection of encrypted streams, and the round-trip benchmark

    [detectStreamingCiphertext] and [benchmarkStreamingRoundTrip] of
    streamingCrypto.service.ts, which compose the two transforms and the hash. *)

Import Mirror.

Open Scope list_scope.
Open Scope nat_scope.

(** ** The benchmark *)

(** [pull] until nothing remains; a slice has at least a byte. *)
Fixpoint pattern_chunks (fuel : nat) (remaining : nat) (offset : nat) (seed : Z) : list chunk :=
  if remaining <=? 0 then []
  else
    match fuel with
    | O => []
    | S fuel =>
        let n := Nat.min STREAMING_CHUNK_SIZE remaining in
        let c := map (fun i => js_and (seed + Z.of_nat offset + Z.of_nat i * 17) 0xff) (seq 0 n) in
        c :: pattern_chunks fuel (remaining - n) (offset + n) seed
    end.

Definition createPatternReadableStream (sizeBytes : nat) (seed : Z) : list chunk :=
  pattern_chunks sizeBytes sizeBytes 0 seed.

(** The times and the buffer peaks of the result are left out. *)
Record BenchResult : Type := mkBench {
  inputHash : string; outputHash : string; bench_match : bool
}.

Definition benchmarkStreamingRoundTrip {W : WebCrypto} (ivs : nat -> list Z) (sizeBytes chunkSize : nat)
    (seed : Z) : res BenchResult :=
  let keyHex := concat_all (repeat "a"%string 64) in
  let plaintextStream := createPatternReadableStream sizeBytes seed in
  let input := hashStreamSha256 (createPatternReadableStream sizeBytes seed) in
  let! key := importStreamingKey keyHex in
  let encrypted := encryptStream key ivs chunkSize plaintextStream in
  let! _ := snd encrypted in
  let decrypted := decryptStream key (fst encrypted) in
  let! _ := snd decrypted in
  let output := hashStreamSha256 (fst decrypted) in
  Ok (mkBench input output (String.eqb input output)).

(** ** Detection *)

Definition nonempty (c : chunk) : bool := 0 <? length c.

Lemma concat_filter_nonempty (l : list chunk) : concat (filter nonempty l) = concat l.
Proof.
  induction l as [|c l IH]; [reflexivity|]. cbn [filter concat]. destruct c; cbn; now rewrite ?IH.
Qed.

(** What [peek] leaves: the chunks read, their bytes, and the rest. *)
Lemma peek_spec (stream pc : list chunk) (prefix : chunk) : concat pc = prefix ->
  let '(pc', prefix', rest) := peek stream pc prefix in
  concat pc' = prefix' /\ prefix' ++ concat rest = prefix ++ concat stream
  /\ (length prefix' < 4 -> rest = []).
Proof.
  revert pc prefix. induction stream as [|c stream IH]; intros pc prefix Hpc; cbn [peek];
    change (length STREAMING_CRYPTO_MAGIC) with 4; destruct (Nat.ltb_spec (length prefix) 4).
  1: auto. 1, 3: repeat split; auto; lia.
  change (0 <? length c) with (nonempty c). destruct c as [|x c].
  - cbn [nonempty length Nat.ltb Nat.leb concat app]. now apply IH.
  - cbn [nonempty length Nat.ltb Nat.leb]. specialize (IH (pc ++ [x :: c]) (prefix ++ x :: c)).
    destruct (peek stream _ _) as [[pc' prefix'] rest]. cbn [concat]. rewrite app_assoc. apply IH.
    now rewrite concat_app, Hpc; cbn [concat]; rewrite app_nil_r.
Qed.

Lemma peek_nonempty (stream pc : list chunk) (prefix : chunk) : Forall (fun c => nonempty c = true) pc ->
  Forall (fun c => nonempty c = true) (fst (fst (peek stream pc prefix))).
Proof.
  revert pc prefix. induction stream as [|c stream IH]; intros pc prefix Hpc; cbn [peek];
    destruct (_ <? _); auto.
  change (0 <? length c) with (nonempty c). destruct (nonempty c) eqn:E; [|auto].
  apply IH, Forall_app. auto.
Qed.

Lemma prefix_enough (a b : chunk) : (length a < 4 -> b = []) ->
  isStreamingEncryptedPrefix a = isStreamingEncryptedPrefix (a ++ b).
Proof.
  intros H. unfold isStreamingEncryptedPrefix. change (length STREAMING_CRYPTO_MAGIC) with 4.
  destruct (Nat.ltb_spec (length a) 4) as [Hl|Hl].
  - rewrite (H Hl), app_nil_r. now rewrite (proj2 (Nat.ltb_lt _ _)).
  - rewrite length_app, (proj2 (Nat.ltb_ge _ _)), firstn_app by lia.
    now replace (4 - length a) with 0 by lia; rewrite firstn_O, app_nil_r.
Qed.

(** Detection reads the magic through any chunking and loses nothing: the answer is whether the body
    begins with the magic, and the replacement stream carries the bytes of the body in order, in
    chunks that are not empty. *)
Theorem detect_preserves (body : list chunk) :
  let '(isStreaming, stream) := detectStreamingCiphertext body in
  isStreaming = isStreamingEncryptedPrefix (collectStream body)
  /\ collectStream stream = collectStream body /\ Forall (fun c => c <> []) stream.
Proof.
  unfold detectStreamingCiphertext, collectStream. pose proof (peek_spec body [] [] eq_refl) as H.
  pose proof (peek_nonempty body [] [] (Forall_nil _)) as Hne.
  destruct (peek body [] []) as [[pc prefix] rest]. destruct H as (H1 & H2 & H3). cbn [fst app] in *.
  repeat split.
  - rewrite (prefix_enough prefix (concat rest)); [now rewrite H2|]. intros Hl. now rewrite H3.
  - rewrite concat_app, concat_filter_nonempty, H1. exact H2.
  - apply Forall_app. split.
    + eapply Forall_impl; [|exact Hne]. intros [|x c]; easy.
    + apply Forall_forall. intros c Hc. apply filter_In in Hc as [_ Hc]. now destruct c.
Qed.

(** ** The benchmark agrees with itself *)

Lemma pattern_bytes (fuel remaining offset : nat) (seed : Z) :
  Forall (Forall is_byte) (pattern_chunks fuel remaining offset seed).
Proof.
  revert remaining offset. induction fuel as [|fuel IH]; intros remaining offset; cbn [pattern_chunks];
    destruct (_ <=? 0); constructor; [|apply IH].
  apply Forall_map, Forall_forall. intros i _. rewrite js_and_byte. now apply Z.mod_pos_bound.
Qed.

Lemma pattern_length (fuel remaining offset : nat) (seed : Z) : remaining <= fuel ->
  length (concat (pattern_chunks fuel remaining offset seed)) = remaining.
Proof.
  revert remaining offset. induction fuel as [|fuel IH]; intros remaining offset Hf; cbn [pattern_chunks].
  - replace remaining with 0 by lia. reflexivity.
  - destruct (Nat.leb_spec remaining 0); [simpl; lia|]. cbn [concat].
    assert (1 <= STREAMING_CHUNK_SIZE) by (unfold STREAMING_CHUNK_SIZE; lia).
    rewrite length_app, length_map, length_seq, IH; lia.
Qed.

Lemma Forall_concat_bytes (l l' : list chunk) : concat l = concat l' -> Forall (Forall is_byte) l ->
  Forall (Forall is_byte) l'.
Proof. intros E H. apply Forall_concat in H. rewrite E in H. now apply Forall_concat. Qed.

(** The benchmark returns for every size and seed and every chunk size up to 16 MiB, and reports equal
    hashes, each the SHA-256 of the pattern. *)
Theorem benchmark_matches {W : WebCrypto} {L : WebCryptoLaws W} (ivs : nat -> list Z)
    (Hivs : forall i, length (ivs i) = STREAMING_IV_LENGTH) (sizeBytes chunkSize : nat) (seed : Z)
    (Hsize : (Z.of_nat sizeBytes < 2 ^ 53)%Z) (Hcs : 1 <= chunkSize)
    (Hmax : (Z.of_nat chunkSize <= 16 * 1024 * 1024)%Z) :
  let hash := bytes_hex (sha256_fips (collectStream (createPatternReadableStream sizeBytes seed))) in
  benchmarkStreamingRoundTrip ivs sizeBytes chunkSize seed = Ok (mkBench hash hash true).
Proof.
  unfold benchmarkStreamingRoundTrip. set (key := concat_all _).
  assert (Hk : exists k, importStreamingKey key = Ok k) by (eexists; vm_compute; reflexivity).
  destruct Hk as [k ->]. cbn [res_bind].
  set (plain := createPatternReadableStream sizeBytes seed).
  assert (Hb : Forall (Forall is_byte) plain) by apply pattern_bytes.
  assert (Hl : (Z.of_nat (length (concat plain)) < 2 ^ 53)%Z).
  { unfold plain, createPatternReadableStream. now rewrite pattern_length. }
  destruct (encrypt_pieces k ivs chunkSize plain Hcs) as (st & E). rewrite E. cbn [fst snd res_bind].
  set (pieces := _ :: _). destruct (one_by_one pieces) as [H1 H2]. rewrite <- H2.
  rewrite (decrypt_pieces k ivs chunkSize Hcs Hmax Hivs (concat plain) _ _ (Nat.le_refl _));
    [|apply Forall_map, Forall_forall; discriminate|exact H1].
  rewrite Nat.eqb_refl. cbn [fst snd res_bind].
  assert (Hout : concat (outputs chunkSize (concat plain) 0 (S (full_chunks chunkSize (concat plain))))
                 = concat plain) by now rewrite concat_outputs, concat_all_chunks.
  rewrite !hash_stream_spec; rewrite ?Hout; auto.
  - now rewrite String.eqb_refl.
  - now apply (Forall_concat_bytes plain).
Qed.

Lemma benchmark_matches_witness :
  let hash := bytes_hex (sha256_fips (collectStream (createPatternReadableStream 10 7))) in
  benchmarkStreamingRoundTrip (fun _ => repeat 0%Z 12) 10 4 7 = Ok (mkBench hash hash true).
Proof. apply (benchmark_matches (fun _ => repeat 0%Z 12)); [reflexivity|lia|lia|lia]. Defined.

(** * Files encrypted to IPFS and back

    [encryptFileStream], the upload and the download of streamingCrypto.service.ts.
    The upload of [ipfsService] and [fetch] are parameters; progress reports are
    modelled for the upload, the abort signal is left out. *)

Import Mirror.

Open Scope list_scope.
Open Scope nat_scope.

Record StreamingProgress : Type := mkProgress {
  phase : string; bytesProcessed : nat; totalBytes : option nat
}.

Record UploadResult : Type := mkUpload { upload_hash : string; upload_size : nat }.

(** A response: its status, the content length header and the body. *)
Record Response : Type := mkResponse {
  resp_ok : bool; resp_status : Z; resp_body : option (list chunk)
}.

Section Service.
Context {W : WebCrypto}.
Variable uploadStream : string -> list chunk -> res UploadResult.
Variable fetch : string -> res Response.
Variable ivs : nat -> list Z.

Definition encryptFileStream (file : list chunk) (keyHex : string) (chunkSize : nat) : run EncState :=
  let* key := lift (importStreamingKey keyHex) in
  encryptStream key ivs chunkSize file.

Definition uploadEncryptedStreamToIpfs (encryptedStream : list chunk) (filename : option string)
    (total : option nat) : list StreamingProgress * res UploadResult :=
  let start := mkProgress "uploading" 0 total in
  let name := match filename with Some n => n | None => "document.svsc"%string end in
  match uploadStream name encryptedStream with
  | Throw e => ([start], Throw e)
  | Ok result =>
      let total' := match total with Some t => t | None => upload_size result end in
      ([start; mkProgress "uploading" (upload_size result) (Some total')], Ok result)
  end.

(** An error of the encrypted stream ends the upload that reads it. *)
Definition encryptAndUploadFile (file : list chunk) (keyHex : string) (chunkSize : nat)
    (filename : option string) : res UploadResult :=
  let encrypted := encryptFileStream file keyHex chunkSize in
  let! _ := snd encrypted in
  snd (uploadEncryptedStreamToIpfs (fst encrypted) filename None).

(** The chunks written to the sink. *)
Definition decryptResponseToWritable (response : Response) (keyHex : string) : run unit :=
  match resp_body response with
  | None => lift (Throw "IPFS response body is not readable as a stream")
  | Some body =>
      let* key := lift (importStreamingKey keyHex) in
      decryptStream key body
  end.

Definition decryptIpfsDownloadToWritable (ipfsUrl keyHex : string) : run unit :=
  let* response := lift (fetch ipfsUrl) in
  if negb (resp_ok response) then
    lift (Throw ("Failed to download encrypted file (" ++ num_str (resp_status response) ++ ")"))
  else
    match resp_body response with
    | None => lift (Throw "IPFS response body is not readable as a stream")
    | Some _ => decryptResponseToWritable response keyHex
    end.
End Service.

(** A store whose download of an uploaded object delivers its bytes, in chunks of any sizes. *)
Record delivers (uploadStream : string -> list chunk -> res UploadResult)
    (fetch : string -> res Response) (url : string -> string) : Prop := {
  delivered : forall name chunks r, uploadStream name chunks = Ok r ->
    exists body, fetch (url (upload_hash r)) = Ok (mkResponse true 200 (Some body))
      /\ collectStream body = collectStream chunks /\ Forall (fun c => c <> []) body
}.

Lemma hex_key_ok (keyHex : string) :
  String.length keyHex = 64 -> str_all hex_char keyHex = true ->
  importStreamingKey keyHex = Ok (hex_bytes keyHex).
Proof. intros Hl Hh. unfold importStreamingKey. now rewrite Hl, Hh. Qed.

(** C30: A file encrypted and uploaded with a well-formed key is downloaded and decrypted to its bytes with
    the same key, whatever the chunk size up to 16 MiB, whatever chunks the file was read in and whatever
    chunks the download arrives in, if and only if no boundary between those falls after the first,
    second or third byte of a frame's length; at such a boundary the download fails with the
    RangeError of the read, and what was written is a beginning of the file. *)
Theorem file_roundtrip {W : WebCrypto} {L : WebCryptoLaws W} (ivs : nat -> list Z)
    (uploadStream : string -> list chunk -> res UploadResult) (fetch : string -> res Response)
    (url : string -> string) (Hstore : delivers uploadStream fetch url)
    (Hivs : forall i, length (ivs i) = STREAMING_IV_LENGTH) (keyHex : string)
    (Hlen : String.length keyHex = 64) (Hhex : str_all hex_char keyHex = true) (cs : nat) (Hcs : 1 <= cs)
    (Hmax : (Z.of_nat cs <= 16 * 1024 * 1024)%Z) (file : list chunk) (name : option string)
    (r : UploadResult) (Hr : encryptAndUploadFile uploadStream ivs file keyHex cs name = Ok r) :
  exists body outs k, fetch (url (upload_hash r)) = Ok (mkResponse true 200 (Some body))
    /\ decryptIpfsDownloadToWritable fetch (url (upload_hash r)) keyHex
       = (outs, if lengths_whole cs 0 body then Ok tt
                else Throw "RangeError: Invalid DataView length")
    /\ collectStream outs = firstn (k * cs) (collectStream file)
    /\ (lengths_whole cs 0 body = true -> collectStream outs = collectStream file).
Proof.
  pose proof (hex_key_ok keyHex Hlen Hhex) as Hkey. unfold encryptAndUploadFile, encryptFileStream in Hr.
  rewrite Hkey, run_lift in Hr. set (key := hex_bytes keyHex) in *.
  pose proof (encrypt_bytes key ivs cs file Hcs) as Eb.
  destruct (encryptStream key ivs cs file) as [cts [st|e]] eqn:E; [|discriminate Hr].
  cbn [fst snd res_bind] in Hr, Eb. unfold uploadEncryptedStreamToIpfs in Hr.
  destruct (uploadStream _ cts) as [r'|e] eqn:Eu; [|discriminate Hr]. injection Hr as ->.
  destruct (delivered _ _ _ Hstore _ _ _ Eu) as (body & Ef & Hc & Hne). rewrite Eb in Hc.
  destruct (decrypt_whole key ivs cs Hcs Hmax Hivs (concat file) body Hc Hne) as (k & Ed & Hk & Hw).
  exists body, (outputs cs (concat file) 0 k), k. split; [exact Ef|]. split; [|split].
  - unfold decryptIpfsDownloadToWritable, decryptResponseToWritable.
    rewrite Ef, run_lift. cbn [resp_ok resp_body negb]. now rewrite Hkey, run_lift.
  - unfold collectStream. now rewrite concat_outputs, concat_chunks by lia.
  - intros Hb. unfold collectStream. now rewrite (Hw Hb), concat_outputs, concat_all_chunks.
Qed.

(** A store that names an object by its bytes and delivers it in chunks of [n]. *)
Fixpoint slices (fuel n : nat) (b : chunk) : list chunk :=
  match fuel, b with
  | S fuel, _ :: _ => firstn n b :: slices fuel n (skipn n b)
  | _, _ => []
  end.

Definition text_upload (_ : string) (chunks : list chunk) : res UploadResult :=
  let h := text (concat chunks) in
  if chunk_eqb (codes h) (concat chunks) then Ok (mkUpload h (length (concat chunks)))
  else Throw "not bytes".

Definition text_fetch (n : nat) (h : string) : res Response :=
  Ok (mkResponse true 200 (Some (slices (length (codes h)) n (codes h)))).

Lemma slices_spec (n fuel : nat) (b : chunk) : 1 <= n -> length b <= fuel ->
  concat (slices fuel n b) = b /\ Forall (fun c => c <> []) (slices fuel n b).
Proof.
  intros Hn. revert b. induction fuel as [|fuel IH]; intros [|x b] Hf; cbn [slices]; auto;
    [cbn in Hf; lia|].
  destruct (IH (skipn n (x :: b))) as [Hc Hne]; [rewrite length_skipn; cbn [length] in *; lia|].
  split; [|constructor; [|exact Hne]].
  - cbn [concat]. rewrite Hc. apply firstn_skipn.
  - destruct n; [lia|discriminate].
Qed.

Lemma text_delivers (n : nat) : 1 <= n -> delivers text_upload (text_fetch n) (fun h => h).
Proof.
  intros Hn. constructor. intros name chunks r Hr. unfold text_upload in Hr. cbv zeta in Hr.
  destruct (chunk_eqb _ _) eqn:E in Hr; [|discriminate Hr]. injection Hr as <-.
  apply chunk_eqb_eq in E. cbn [upload_hash]. unfold text_fetch. rewrite E.
  eexists. split; [reflexivity|]. now apply slices_spec.
Qed.

(** Three frames that arrive in chunks of five bytes. *)
Definition sample_key : string := concat_all (repeat "a"%string 64).

Definition sample_upload : UploadResult :=
  match encryptAndUploadFile text_upload zero_ivs [seven] sample_key 3 None with
  | Ok r => r
  | Throw _ => mkUpload "" 0
  end.

Lemma file_roundtrip_witness :
  encryptAndUploadFile text_upload zero_ivs [seven] sample_key 3 None = Ok sample_upload
  /\ exists body outs, text_fetch 5 (upload_hash sample_upload) = Ok (mkResponse true 200 (Some body))
    /\ length body = 24
    /\ decryptIpfsDownloadToWritable (text_fetch 5) (upload_hash sample_upload) sample_key = (outs, Ok tt)
    /\ collectStream outs = collectStream [seven].
Proof.
  assert (Hr : encryptAndUploadFile text_upload zero_ivs [seven] sample_key 3 None = Ok sample_upload)
    by (vm_compute; reflexivity).
  destruct (file_roundtrip zero_ivs text_upload (text_fetch 5) (fun h => h) (text_delivers 5 ltac:(lia))
           (fun _ => eq_refl) sample_key eq_refl eq_refl 3 ltac:(lia) ltac:(lia) [seven] None _ Hr)
    as (body & outs & k & Ef & Ed & _ & Hw).
  split; [exact Hr|]. exists body, outs. split; [exact Ef|].
  assert (Eb : match text_fetch 5 (upload_hash sample_upload) with
               | Ok (mkResponse _ _ (Some b)) => (length b =? 24) && lengths_whole 3 0 b
               | _ => false
               end = true) by (vm_compute; reflexivity).
  cbv beta in Ef. rewrite Ef in Eb. apply andb_true_iff in Eb as [Eb Ew]. apply Nat.eqb_eq in Eb.
  rewrite Ew in Ed, Hw. split; [exact Eb|]. split; [exact Ed|]. now apply Hw.
Defined.
