(* ===== verification/JsonText.v ===== *)
(** * JsonText: JSON text of objects whose members are strings

    [JSON.stringify] and [JSON.parse] on the payloads the crypto services write:
    flat objects, every member a string.  [parse_members] refuses the texts of
    other values, which the services never write. *)

From Stdlib Require Import Ascii String ZArith List Lia Bool.
Import ListNotations.
From S2P Require Import Prelude Bytes JsString.

Open Scope string_scope.
Open Scope list_scope.
Open Scope nat_scope.

Definition dquote : ascii := ascii_of_nat 34.
Definition backslash : ascii := ascii_of_nat 92.

(** ** Writing *)

(** The letter of a two-character escape. *)
Definition escape_letter (c : ascii) : option ascii :=
  match nat_of_ascii c with
  | 34 => Some dquote
  | 92 => Some backslash
  | 8 => Some "b"%char
  | 9 => Some "t"%char
  | 10 => Some "n"%char
  | 12 => Some "f"%char
  | 13 => Some "r"%char
  | _ => None
  end.

Definition escape_char (c : ascii) (rest : string) : string :=
  match escape_letter c with
  | Some e => String backslash (String e rest)
  | None =>
      if nat_of_ascii c <? 32 then
        String backslash (String "u" (padStart 4 "0" (to_hex (Z.of_nat (nat_of_ascii c))) ++ rest))
      else String c rest
  end.

Fixpoint escape (s : string) (rest : string) : string :=
  match s with EmptyString => rest | String c s' => escape_char c (escape s' rest) end.

Definition write_string (s : string) (rest : string) : string :=
  String dquote (escape s (String dquote rest)).

Fixpoint write_members (l : list (string * string)) (rest : string) : string :=
  match l with
  | [] => rest
  | (k, v) :: l' =>
      write_string k (String ":" (write_string v
        (match l' with [] => rest | _ => String "," (write_members l' rest) end)))
  end.

Definition stringify (l : list (string * string)) : string :=
  String "{" (write_members l "}").

(** ** Reading *)

Definition unescape_letter (e : ascii) : option ascii :=
  match nat_of_ascii e with
  | 34 => Some dquote
  | 92 => Some backslash
  | 47 => Some "/"%char
  | 98 => Some (ascii_of_nat 8)
  | 116 => Some (ascii_of_nat 9)
  | 110 => Some (ascii_of_nat 10)
  | 102 => Some (ascii_of_nat 12)
  | 114 => Some (ascii_of_nat 13)
  | _ => None
  end.

(** The character of four hexadecimal digits; code units above 255 are outside the model. *)
Definition unicode_char (a b c d : ascii) : option ascii :=
  match parse_digits 16 (String a (String b (String c (String d EmptyString)))) with
  | Some n => if (n <? 256)%Z then Some (ascii_of_nat (Z.to_nat n)) else None
  | None => None
  end.

Definition cons_read (c : option ascii) (r : option (string * string)) : option (string * string) :=
  match c, r with Some c, Some (s, rest) => Some (String c s, rest) | _, _ => None end.

(** The rest of a string after its opening quote, and the text after its closing one. *)
Fixpoint read_string (s : string) : option (string * string) :=
  match s with
  | EmptyString => None
  | String c s1 =>
      if Ascii.eqb c dquote then Some (EmptyString, s1)
      else if Ascii.eqb c backslash then
        match s1 with
        | EmptyString => None
        | String e s2 =>
            if Ascii.eqb e "u" then
              match s2 with
              | String h1 (String h2 (String h3 (String h4 s3))) =>
                  cons_read (unicode_char h1 h2 h3 h4) (read_string s3)
              | _ => None
              end
            else cons_read (unescape_letter e) (read_string s2)
        end
      else if nat_of_ascii c <? 32 then None
      else cons_read (Some c) (read_string s1)
  end.

Definition json_space (c : ascii) : bool :=
  let n := nat_of_ascii c in (n =? 9) || (n =? 10) || (n =? 13) || (n =? 32).

Fixpoint skip_space (s : string) : string :=
  match s with String c s' => if json_space c then skip_space s' else s | EmptyString => s end.

(** The text after the character [c], which may follow white space. *)
Definition expect (c : ascii) (s : string) : option string :=
  match skip_space s with String d s' => if Ascii.eqb d c then Some s' else None | EmptyString => None end.

Definition read_member (s : string) : option ((string * string) * string) :=
  match expect dquote s with
  | Some s =>
      match read_string s with
      | Some (k, s) =>
          match expect ":" s with
          | Some s =>
              match expect dquote s with
              | Some s => match read_string s with Some (v, s) => Some ((k, v), s) | None => None end
              | None => None
              end
          | None => None
          end
      | None => None
      end
  | None => None
  end.

(** A member takes at least five characters: the length of the text is enough fuel. *)
Fixpoint parse_members (fuel : nat) (s : string) : option (list (string * string) * string) :=
  match fuel with
  | O => None
  | S fuel =>
      match read_member s with
      | Some (m, s) =>
          match expect "," s with
          | Some s =>
              match parse_members fuel s with Some (l, s) => Some (m :: l, s) | None => None end
          | None => match expect "}" s with Some s => Some ([m], s) | None => None end
          end
      | None => None
      end
  end.

Definition json_error : string := "SyntaxError: Unexpected token in JSON".

Definition parse (s : string) : res (list (string * string)) :=
  match expect "{" s with
  | None => Throw json_error
  | Some s1 =>
      match expect "}" s1 with
      | Some rest => if String.eqb (skip_space rest) "" then Ok [] else Throw json_error
      | None =>
          match parse_members (String.length s1) s1 with
          | Some (l, rest) => if String.eqb (skip_space rest) "" then Ok l else Throw json_error
          | None => Throw json_error
          end
      end
  end.

(** [obj.key]: the last member of that name. *)
Fixpoint get_member (k : string) (l : list (string * string)) : option string :=
  match l with
  | [] => None
  | (k', v) :: l' =>
      match get_member k l' with
      | Some v' => Some v'
      | None => if String.eqb k' k then Some v else None
      end
  end.

(** ** What was written is read back *)

Lemma read_escape_char (c : ascii) (rest : string) :
  read_string (escape_char c rest) = cons_read (Some c) (read_string rest).
Proof.
  destruct c as [[] [] [] [] [] [] [] []]; reflexivity.
Qed.

Lemma read_escape (s rest : string) :
  read_string (escape s (String dquote rest)) = Some (s, rest).
Proof.
  induction s as [|c s IH]; [reflexivity|]. cbn [escape]. now rewrite read_escape_char, IH.
Qed.

Lemma expect_same (c : ascii) (rest : string) : json_space c = false ->
  expect c (String c rest) = Some rest.
Proof. intros H. unfold expect. cbn [skip_space]. now rewrite H, Ascii.eqb_refl. Qed.

Lemma read_written_member (k v rest : string) :
  read_member (write_string k (String ":" (write_string v rest))) = Some ((k, v), rest).
Proof.
  unfold read_member, write_string. now rewrite !expect_same, !read_escape, !expect_same, !read_escape.
Qed.

Lemma escape_length (s rest : string) : String.length rest <= String.length (escape s rest).
Proof.
  induction s as [|c s IH]; cbn [escape]; [lia|]. unfold escape_char.
  destruct (escape_letter c); cbn [String.length]; [lia|].
  destruct (_ <? _); cbn [String.length]; [|lia]. rewrite str_length_app. lia.
Qed.

Lemma parse_written_members (l : list (string * string)) (fuel : nat) (rest : string) :
  l <> [] -> length l <= fuel ->
  parse_members fuel (write_members l (String "}" rest)) = Some (l, rest).
Proof.
  revert fuel. induction l as [|[k v] l IH]; intros fuel Hne Hf; [contradiction|].
  destruct fuel as [|fuel]; [simpl in Hf; lia|]. cbn [write_members parse_members].
  rewrite read_written_member. destruct l as [|m l].
  - now rewrite expect_same.
  - rewrite expect_same by reflexivity. rewrite IH; [reflexivity|discriminate|]. simpl in *. lia.
Qed.

Lemma write_members_length (l : list (string * string)) (rest : string) :
  length l <= String.length (write_members l rest).
Proof.
  revert rest. induction l as [|[k v] l IH]; intros rest; cbn [write_members length]; [lia|].
  unfold write_string. cbn [String.length].
  pose proof (escape_length k (String dquote (String ":" (String dquote (escape v (String dquote
    (match l with [] => rest | _ => String "," (write_members l rest) end))))))) as H1.
  pose proof (escape_length v (String dquote
    (match l with [] => rest | _ => String "," (write_members l rest) end))) as H2.
  cbn [String.length] in *. specialize (IH rest). destruct l; cbn [String.length length] in *; lia.
Qed.

Lemma parse_stringify (l : list (string * string)) : parse (stringify l) = Ok l.
Proof.
  unfold parse, stringify. rewrite expect_same by reflexivity. destruct l as [|[k v] l]; [reflexivity|].
  cbn [write_members]. unfold write_string at 1.
  change (expect "}" (String dquote ?s)) with (@None string).
  change (String dquote (escape k ?s)) with (write_string k s).
  pose proof (parse_written_members ((k, v) :: l)
                (String.length (write_members ((k, v) :: l) "}")) "") as H.
  cbn [write_members] in H. rewrite H; [reflexivity|discriminate|].
  apply (write_members_length ((k, v) :: l)).
Qed.

(** * Values that come out of JSON.parse

    Numbers are integers: the services read ids, heights and lengths. *)

Open Scope list_scope.
Open Scope string_scope.

#[warnings="-register-all"] Inductive json : Type :=
| JNull
| JBool (b : bool)
| JNum (n : Z)
| JStr (s : string)
| JArr (l : list json)
| JObj (l : list (string * json)).

(** [v[key]] of an object; [undefined] of anything else. *)
Fixpoint last_member (k : string) (l : list (string * json)) : option json :=
  match l with
  | [] => None
  | (k', v) :: l' =>
      match last_member k l' with
      | Some v' => Some v'
      | None => if String.eqb k' k then Some v else None
      end
  end.

Definition get_prop (k : string) (v : json) : option json :=
  match v with JObj l => last_member k l | _ => None end.

Definition as_str (v : option json) : option string :=
  match v with Some (JStr s) => Some s | _ => None end.

Fixpoint join (sep : string) (l : list string) : string :=
  match l with
  | [] => ""
  | [s] => s
  | s :: l' => s ++ sep ++ join sep l'
  end.

(** [JSON.stringify(v)] *)
Fixpoint json_text (v : json) : string :=
  match v with
  | JNull => "null"
  | JBool b => if b then "true" else "false"
  | JNum n => num_str n
  | JStr s => write_string s ""
  | JArr l => "[" ++ join "," (map json_text l) ++ "]"
  | JObj l => "{" ++ join "," (map (fun '(k, v) => write_string k (String ":" (json_text v))) l) ++ "}"
  end.

(** [s.includes(p)] *)
Fixpoint includes (p s : string) : bool :=
  startsWith p s || match s with EmptyString => false | String _ s' => includes p s' end.

(** [s.toLowerCase()] *)
Definition lower_char (c : ascii) : ascii :=
  let n := nat_of_ascii c in if ((65 <=? n) && (n <=? 90))%nat then ascii_of_nat (n + 32) else c.
Fixpoint toLowerCase (s : string) : string :=
  match s with EmptyString => EmptyString | String c s' => String (lower_char c) (toLowerCase s') end.

Lemma lower_char_idem (c : ascii) : lower_char (lower_char c) = lower_char c.
Proof. destruct c as [[] [] [] [] [] [] [] []]; reflexivity. Qed.

Lemma toLowerCase_idem (s : string) : toLowerCase (toLowerCase s) = toLowerCase s.
Proof. induction s as [|c s IH]; [reflexivity|]. cbn [toLowerCase]. now rewrite lower_char_idem, IH. Qed.

(** White space and case: [trim] and [toLowerCase] commute, and each is idempotent. *)
Lemma trim_start_lower (s : string) : trim_start (toLowerCase s) = toLowerCase (trim_start s).
Proof.
  induction s as [|c s IH]; [reflexivity|]. cbn [toLowerCase trim_start].
  assert (E : is_space (lower_char c) = is_space c) by (destruct c as [[] [] [] [] [] [] [] []]; reflexivity).
  rewrite E, IH. now destruct (is_space c).
Qed.

Lemma trim_end_lower (s : string) : trim_end (toLowerCase s) = toLowerCase (trim_end s).
Proof.
  induction s as [|c s IH]; [reflexivity|]. cbn [toLowerCase trim_end].
  assert (E : is_space (lower_char c) = is_space c) by (destruct c as [[] [] [] [] [] [] [] []]; reflexivity).
  rewrite IH. destruct (trim_end s); cbn [toLowerCase]; [|reflexivity]. rewrite E. now destruct (is_space c).
Qed.

Lemma trim_start_idem (s : string) : trim_start (trim_start s) = trim_start s.
Proof. induction s as [|c s IH]; [reflexivity|]. cbn [trim_start]. destruct (is_space c) eqn:E; [exact IH|]. cbn [trim_start]. now rewrite E. Qed.

Lemma trim_end_idem (s : string) : trim_end (trim_end s) = trim_end s.
Proof.
  induction s as [|c s IH]; [reflexivity|]. cbn [trim_end].
  destruct (trim_end s) as [|d t] eqn:E.
  - destruct (is_space c) eqn:C; [reflexivity|]. cbn [trim_end]. now rewrite C.
  - cbn [trim_end] in IH |- *. now rewrite IH.
Qed.

Lemma trim_start_end (s : string) : trim_start s = s -> trim_start (trim_end s) = trim_end s.
Proof.
  destruct s as [|c s]; [reflexivity|]. cbn [trim_start trim_end]. destruct (is_space c) eqn:C.
  - intros E. exfalso. assert (L : forall t, (String.length (trim_start t) <= String.length t)%nat).
    { intros t. induction t as [|x t IH]; cbn [trim_start]; [lia|]. destruct (is_space x); cbn [String.length]; lia. }
    pose proof (L s) as Hs. rewrite E in Hs. cbn [String.length] in Hs. lia.
  - intros _. destruct (trim_end s); cbn [trim_start]; now rewrite C.
Qed.

Lemma trim_idem (s : string) : trim (trim s) = trim s.
Proof. unfold trim. rewrite trim_start_end by apply trim_start_idem. apply trim_end_idem. Qed.

Lemma trim_lower (s : string) : trim (toLowerCase s) = toLowerCase (trim s).
Proof. unfold trim. now rewrite trim_start_lower, trim_end_lower. Qed.

Lemma trim_plain (s : string) : str_all (fun c => negb (is_space c)) s = true -> trim s = s.
Proof.
  intros H. unfold trim. assert (E : trim_start s = s).
  { destruct s as [|c s]; [reflexivity|]. cbn in H |- *. apply andb_true_iff in H as [H _].
    apply negb_true_iff in H. now rewrite H. }
  rewrite E. now apply trim_end_id.
Qed.
