(* ===== verification/Ecies.v ===== *)
(** * Ecies: public-key envelopes of crypto.ts and pqcCrypto.ts

    ECDH on P-256, X25519 of tweetnacl, HKDF and ML-KEM-768 of mlkem are the
    platform's or a package's: the class [PkCrypto].  Random draws are arguments. *)

From Stdlib Require Import Ascii String ZArith List Lia Bool.
Import ListNotations.
From S2P Require Import Prelude Bytes JsString Base64 WebCrypto JsonText.

Open Scope string_scope.
Open Scope list_scope.
Open Scope nat_scope.

Class PkCrypto : Type := {
  PubKey : Type;
  PrivKey : Type;
  public_of : PrivKey -> PubKey;
  ecdh_bits : PrivKey -> PubKey -> list Z;
  export_spki : PubKey -> list Z;
  export_pkcs8 : PrivKey -> list Z;
  import_raw : list Z -> option PubKey;
  import_spki : list Z -> option PubKey;
  import_pkcs8 : list Z -> option PrivKey;
  (** HKDF-SHA-256 to 256 bits: salt, info, input key *)
  hkdf : list Z -> list Z -> list Z -> list Z;
  (** tweetnacl: the public key of a secret key, [scalarMult], [box.open] *)
  nacl_public : list Z -> list Z;
  nacl_scalarMult : list Z -> list Z -> res (list Z);
  nacl_box_open : list Z -> list Z -> list Z -> list Z -> res (option (list Z));
  (** mlkem: [generateKeyPair], [encap] (ciphertext and secret), [decap] *)
  kem_generateKeyPair : list Z -> list Z * list Z;
  kem_encap : list Z -> list Z -> res (list Z * list Z);
  kem_decap : list Z -> list Z -> res (list Z)
}.

(** ** pqcCrypto.ts *)

Definition ML_KEM_768_PUBLIC_KEY_BYTES : nat := 1184.
Definition ML_KEM_768_SECRET_KEY_BYTES : nat := 2400.
Definition ML_KEM_768_CIPHERTEXT_BYTES : nat := 1088.
Definition ML_KEM_768_SHARED_SECRET_BYTES : nat := 32.

(** [fromBase64] and [toBase64] repeat the functions of crypto.ts. *)
Definition fromBase64 (base64 : string) : res (list Z) := base64ToUint8Array base64.
Definition toBase64 (b : list Z) : string := uint8ArrayToBase64 b.

(** [concatBytes(...parts)]. *)
Definition concatBytes (parts : list (list Z)) : list Z :=
  fold_left (fun out part => out ++ part) parts [].

(** [diff |= a[i] ^ b[i]] over the whole arrays. *)
Definition bytesEqual (a b : list Z) : bool :=
  if negb (length a =? length b) then false
  else (fold_left (fun diff i => Z.lor diff (Z.lxor (nth i a 0%Z) (nth i b 0%Z))) (seq 0 (length a)) 0
        =? 0)%Z.

Inductive BytesOrText : Type := Raw (b : list Z) | Text (s : string).

Definition to_raw (x : BytesOrText) : res (list Z) :=
  match x with Raw b => Ok b | Text s => fromBase64 s end.

Definition length_error (what : string) (expected got : nat) : string :=
  ("Invalid ML-KEM-768 " ++ what ++ " length: expected " ++ num_str (Z.of_nat expected)
   ++ ", got " ++ num_str (Z.of_nat got))%string.

Section Envelopes.
Context {W : WebCrypto} {K : PkCrypto}.

Definition generateMlKem768KeyPairBase64 (rnd : list Z) : string * string :=
  let '(publicKey, secretKey) := kem_generateKeyPair rnd in (toBase64 publicKey, toBase64 secretKey).

Definition mlKem768Encapsulate (recipientPublicKey : BytesOrText) (rnd : list Z)
    : res (list Z * list Z) :=
  let! pk := to_raw recipientPublicKey in
  throw_if negb (length pk =? ML_KEM_768_PUBLIC_KEY_BYTES) with
    length_error "public key" ML_KEM_768_PUBLIC_KEY_BYTES (length pk);;
  kem_encap pk rnd.

Definition mlKem768Decapsulate (ciphertext recipientSecretKey : BytesOrText) : res (list Z) :=
  let! ct := to_raw ciphertext in
  let! sk := to_raw recipientSecretKey in
  throw_if negb (length ct =? ML_KEM_768_CIPHERTEXT_BYTES) with
    length_error "ciphertext" ML_KEM_768_CIPHERTEXT_BYTES (length ct);;
  throw_if negb (length sk =? ML_KEM_768_SECRET_KEY_BYTES) with
    length_error "secret key" ML_KEM_768_SECRET_KEY_BYTES (length sk);;
  kem_decap ct sk.

(** ** Text codecs *)

Definition utf8ToBase64 (s : string) : string := uint8ArrayToBase64 (text_encode s).

Definition base64ToUtf8 (base64 : string) : res string :=
  let! b := base64ToUint8Array base64 in Ok (text_decode b).

(** ** Payloads *)

Record EncryptedPayload : Type := mkPayload {
  version : option string; nonce : option string; iv : option string;
  ephemPublicKey : option string; ciphertext : option string; mac : option string;
  pqcCiphertext : option string; pqcPublicKey : option string
}.

(** [JSON.stringify] of a payload written in the order of its fields. *)
Definition payload_text (l : list (string * option string)) : string :=
  stringify (flat_map (fun '(k, v) => match v with Some s => [(k, s)] | None => [] end) l).

Definition read_payload (s : string) : res EncryptedPayload :=
  let! l := parse s in
  Ok (mkPayload (get_member "version" l) (get_member "nonce" l) (get_member "iv" l)
        (get_member "ephemPublicKey" l) (get_member "ciphertext" l) (get_member "mac" l)
        (get_member "pqcCiphertext" l) (get_member "pqcPublicKey" l)).

(** [string | EncryptedPayload] *)
Inductive PayloadInput : Type := PJson (s : string) | PObject (p : EncryptedPayload).

Definition to_payload (x : PayloadInput) : res EncryptedPayload :=
  match x with PJson s => read_payload s | PObject p => Ok p end.

Definition ECIES_VERSION : string := "ecies-p256-aes256gcm-v1".
Definition LEGACY_X25519_VERSION : string := "x25519-xsalsa20-poly1305".
Definition HYBRID_PQC_VERSION : string := "hybrid-mlkem768-p256-aes256gcm-v1".
Definition HYBRID_PQC_X25519_VERSION : string := "hybrid-mlkem768-x25519-aes256gcm-v1".

Record HybridPublicKeys : Type := mkHybridPub { classicalPublicKey : string; pqcPublicKeyB64 : string }.
Record HybridPrivateKeys : Type := mkHybridPriv { classicalPrivateKey : string; pqcPrivateKey : string }.

Definition HYBRID_HKDF_INFO : list Z := text_encode "spoovault-hybrid-kem-v1".
Definition HYBRID_HKDF_SALT : list Z := text_encode "spoovault-hybrid-salt-v1".

Definition version_is (p : EncryptedPayload) (v : string) : bool :=
  match version p with Some s => String.eqb s v | None => false end.

(** [a || b] on strings that may be missing, and [!s]. *)
Definition or_string (a b : option string) : option string :=
  match a with Some s => if String.eqb s "" then b else a | None => b end.
Definition falsy (s : option string) : bool :=
  match s with Some s => String.eqb s "" | None => true end.

(** [base64ToUint8Array] of a member that may be missing. *)
Definition member_bytes (s : option string) : res (list Z) :=
  match s with
  | Some s => base64ToUint8Array s
  | None => Throw "TypeError: Cannot read properties of undefined (reading 'replace')"
  end.

Definition import_result {A : Type} (k : option A) : res A :=
  match k with Some k => Ok k | None => Throw "DataError" end.

(** ** P-256 keys *)

Definition exportECIESPublicKey (publicKey : PubKey) : string := uint8ArrayToBase64 (export_spki publicKey).
Definition exportECIESPrivateKey (privateKey : PrivKey) : string := uint8ArrayToBase64 (export_pkcs8 privateKey).

Definition importECIESPublicKey (pubKeyBase64 : string) : res PubKey :=
  let! keyBytes := base64ToUint8Array pubKeyBase64 in
  if (length keyBytes =? 65) && (nth 0 keyBytes 0 =? 0x04)%Z then import_result (import_raw keyBytes)
  else import_result (import_spki keyBytes).

Definition importECIESPrivateKey (privKeyBase64 : string) : res PrivKey :=
  let! keyBytes := base64ToUint8Array privKeyBase64 in
  import_result (import_pkcs8 keyBytes).

(** A generated key is the private key the platform draws. *)
Definition generateECIESKeyPairBase64 (drawn : PrivKey) : string * string :=
  (exportECIESPublicKey (public_of drawn), exportECIESPrivateKey drawn).

Definition import_member (s : option string) : res PubKey :=
  match s with
  | Some s => importECIESPublicKey s
  | None => Throw "TypeError: Cannot read properties of undefined (reading 'replace')"
  end.

(** ** Classical envelopes *)

(** [deriveKey] for ECDH takes the 256 shared bits as the AES key. *)
Definition encryptWithPublicKey (message receiverPubKeyBase64 : string) (ephem : PrivKey) (iv_drawn : list Z)
    : res string :=
  let! receiverPubKey := importECIESPublicKey receiverPubKeyBase64 in
  let aesKey := ecdh_bits ephem receiverPubKey in
  let ct := aes_gcm_encrypt aesKey iv_drawn [] (text_encode message) in
  Ok (payload_text
        [("version", Some ECIES_VERSION); ("iv", Some (uint8ArrayToBase64 iv_drawn));
         ("ephemPublicKey", Some (exportECIESPublicKey (public_of ephem)));
         ("ciphertext", Some (uint8ArrayToBase64 ct))]).

Definition decrypt_error : string := "Failed to decrypt ciphertext with provided private key".

Definition decrypt_ecies (payload : EncryptedPayload) (receiverSecretKeyBase64 : string) : res string :=
  let! receiverPrivateKey := importECIESPrivateKey receiverSecretKeyBase64 in
  let! ephemKey := import_member (ephemPublicKey payload) in
  let aesKey := ecdh_bits receiverPrivateKey ephemKey in
  let ivStr := or_string (iv payload) (nonce payload) in
  throw_if falsy ivStr with "Missing IV in encrypted ECIES payload";;
  let! ivBytes := member_bytes ivStr in
  let! ct := member_bytes (ciphertext payload) in
  match aes_gcm_decrypt aesKey ivBytes [] ct with
  | None => Throw decrypt_error
  | Some decrypted => Ok (text_decode decrypted)
  end.

Definition decrypt_legacy (payload : EncryptedPayload) (receiverSecretKeyBase64 : string) : res string :=
  let! nonceBytes := member_bytes (or_string (or_string (nonce payload) (iv payload)) (Some "")) in
  let! ephemKey := member_bytes (ephemPublicKey payload) in
  let! ct := member_bytes (ciphertext payload) in
  let! secretKey := base64ToUint8Array receiverSecretKeyBase64 in
  let! opened := nacl_box_open ct nonceBytes ephemKey secretKey in
  match opened with
  | None => Throw decrypt_error
  | Some decryptedBytes => Ok (text_decode decryptedBytes)
  end.

Definition version_text (p : EncryptedPayload) : string :=
  match version p with Some s => s | None => "undefined" end.

Definition decryptWithPrivateKey (input : PayloadInput) (receiverSecretKeyBase64 : string) : res string :=
  let! payload := to_payload input in
  if version_is payload ECIES_VERSION
     || match version payload with Some s => startsWith "ecies-" s | None => false end
  then decrypt_ecies payload receiverSecretKeyBase64
  else if version_is payload LEGACY_X25519_VERSION then decrypt_legacy payload receiverSecretKeyBase64
  else Throw ("Unsupported encryption version: " ++ version_text payload)%string.

(** ** Hybrid envelopes *)

Definition deriveHybridAesKey (classicalSharedSecret mlKemSharedSecret : list Z) : list Z :=
  hkdf HYBRID_HKDF_SALT HYBRID_HKDF_INFO (concatBytes [classicalSharedSecret; mlKemSharedSecret]).

(** The envelope under a hybrid key, shared by the two encryptions. *)
Definition hybrid_payload (v message ephemPk pqcPk : string) (aesKey iv_drawn pqcCt : list Z) : string :=
  let ct := aes_gcm_encrypt aesKey iv_drawn [] (text_encode message) in
  payload_text
    [("version", Some v); ("iv", Some (uint8ArrayToBase64 iv_drawn)); ("ephemPublicKey", Some ephemPk);
     ("ciphertext", Some (uint8ArrayToBase64 ct)); ("pqcCiphertext", Some (uint8ArrayToBase64 pqcCt));
     ("pqcPublicKey", Some pqcPk)].

Definition encryptHybridWithPublicKeys (message : string) (keys : HybridPublicKeys) (ephem : PrivKey)
    (rnd iv_drawn : list Z) : res string :=
  let! receiverClassical := importECIESPublicKey (classicalPublicKey keys) in
  let kEcdh := ecdh_bits ephem receiverClassical in
  let! '(pqcCt, kMlKem) := mlKem768Encapsulate (Text (pqcPublicKeyB64 keys)) rnd in
  let aesKey := deriveHybridAesKey kEcdh kMlKem in
  Ok (hybrid_payload HYBRID_PQC_VERSION message (exportECIESPublicKey (public_of ephem))
        (pqcPublicKeyB64 keys) aesKey iv_drawn pqcCt).

(** [nacl.box.publicKeyLength], [nacl.box.secretKeyLength] *)
Definition NACL_KEY_BYTES : nat := 32.

Definition encryptHybridX25519WithPublicKeys (message : string) (keys : HybridPublicKeys)
    (ephem_secret rnd iv_drawn : list Z) : res string :=
  let! receiverPk := base64ToUint8Array (classicalPublicKey keys) in
  throw_if negb (length receiverPk =? NACL_KEY_BYTES) with "Invalid X25519 public key length";;
  let! kEcdh := nacl_scalarMult ephem_secret receiverPk in
  let! '(pqcCt, kMlKem) := mlKem768Encapsulate (Text (pqcPublicKeyB64 keys)) rnd in
  let aesKey := deriveHybridAesKey kEcdh kMlKem in
  Ok (hybrid_payload HYBRID_PQC_X25519_VERSION message (uint8ArrayToBase64 (nacl_public ephem_secret))
        (pqcPublicKeyB64 keys) aesKey iv_drawn pqcCt).

Definition hybrid_error : string := "Failed to decrypt hybrid ciphertext with provided keys".

(** [try]: an error of the decoding or of AES-GCM is reported as one. *)
Definition open_hybrid (payload : EncryptedPayload) (aesKey : list Z) : res string :=
  let ivStr := or_string (iv payload) (nonce payload) in
  throw_if falsy ivStr with "Missing IV in hybrid encrypted payload";;
  match (let! ivBytes := member_bytes ivStr in
         let! ct := member_bytes (ciphertext payload) in
         match aes_gcm_decrypt aesKey ivBytes [] ct with Some p => Ok p | None => Throw "OperationError" end)
  with
  | Ok decrypted => Ok (text_decode decrypted)
  | Throw _ => Throw hybrid_error
  end.

Definition pqc_missing : string := "Hybrid payload missing pqcCiphertext or pqcPublicKey".

Definition pqc_text (payload : EncryptedPayload) : BytesOrText :=
  Text (match pqcCiphertext payload with Some s => s | None => "" end).

Definition decryptHybridX25519 (payload : EncryptedPayload) (keys : HybridPrivateKeys) : res string :=
  throw_if falsy (pqcCiphertext payload) || falsy (pqcPublicKey payload) with pqc_missing;;
  let! sk := base64ToUint8Array (classicalPrivateKey keys) in
  let! ephemPk := member_bytes (ephemPublicKey payload) in
  throw_if negb (length sk =? NACL_KEY_BYTES) with "Invalid X25519 secret key length";;
  let! kEcdh := nacl_scalarMult sk ephemPk in
  let! kMlKem := mlKem768Decapsulate (pqc_text payload) (Text (pqcPrivateKey keys)) in
  open_hybrid payload (deriveHybridAesKey kEcdh kMlKem).

Definition decrypt_hybrid_p256 (payload : EncryptedPayload) (keys : HybridPrivateKeys) : res string :=
  throw_if falsy (pqcCiphertext payload) || falsy (pqcPublicKey payload) with pqc_missing;;
  let! receiverPrivateKey := importECIESPrivateKey (classicalPrivateKey keys) in
  let! ephemKey := import_member (ephemPublicKey payload) in
  let kEcdh := ecdh_bits receiverPrivateKey ephemKey in
  let! kMlKem := mlKem768Decapsulate (pqc_text payload) (Text (pqcPrivateKey keys)) in
  open_hybrid payload (deriveHybridAesKey kEcdh kMlKem).

Definition decryptHybridWithPrivateKeys (input : PayloadInput) (keys : HybridPrivateKeys) : res string :=
  let! payload := to_payload input in
  if version_is payload HYBRID_PQC_X25519_VERSION then decryptHybridX25519 payload keys
  else if negb (version_is payload HYBRID_PQC_VERSION) then
    decryptWithPrivateKey input (classicalPrivateKey keys)
  else decrypt_hybrid_p256 payload keys.

(** Public and private halves of a key set. *)
Definition generateHybridKeyPairBase64 (drawn : PrivKey) (rnd : list Z)
    : (string * string) * (string * string) :=
  (generateECIESKeyPairBase64 drawn, generateMlKem768KeyPairBase64 rnd).
End Envelopes.
