(* ===== verification/EciesProofs.v ===== *)
(** * EciesProofs: envelopes are opened by the keys they were made for

    Proved against [PkCryptoLaws], the documented behaviour of the primitives;
    [Pair] is an instance that evaluates. *)

From Stdlib Require Import Ascii String ZArith List Lia Bool.
Import ListNotations.
From S2P Require Import Prelude Bytes JsString Base64 WebCrypto JsonText Ecies.
Import Mirror.

Open Scope string_scope.
Open Scope list_scope.
Open Scope nat_scope.

Class PkCryptoLaws (K : PkCrypto) : Prop := {
  spki_import : forall p, import_spki (export_spki p) = Some p;
  spki_bytes : forall p, bytes (export_spki p);
  (** the text of a DER sequence begins with its tag *)
  spki_tag : forall p, nth 0 (export_spki p) 0%Z = 0x30%Z;
  pkcs8_import : forall k, import_pkcs8 (export_pkcs8 k) = Some k;
  pkcs8_bytes : forall k, bytes (export_pkcs8 k);
  ecdh_sym : forall a b, ecdh_bits a (public_of b) = ecdh_bits b (public_of a);
  nacl_public_bytes : forall a, length a = 32 -> bytes (nacl_public a) /\ length (nacl_public a) = 32;
  nacl_sym : forall a b, length a = 32 -> length b = 32 ->
    exists s, nacl_scalarMult a (nacl_public b) = Ok s /\ nacl_scalarMult b (nacl_public a) = Ok s;
  kem_keys : forall rnd, let '(pk, sk) := kem_generateKeyPair rnd in
    (bytes pk /\ length pk = ML_KEM_768_PUBLIC_KEY_BYTES)
    /\ (bytes sk /\ length sk = ML_KEM_768_SECRET_KEY_BYTES);
  kem_correct : forall rnd r, let '(pk, sk) := kem_generateKeyPair rnd in
    exists ct ss, kem_encap pk r = Ok (ct, ss) /\ kem_decap ct sk = Ok ss
      /\ bytes ct /\ length ct = ML_KEM_768_CIPHERTEXT_BYTES
}.

(** ** Texts *)

Lemma base64_nonempty (l : list Z) : l <> [] -> String.eqb (uint8ArrayToBase64 l) "" = false.
Proof. destruct l as [|a [|b [|c l]]]; intros H; [contradiction|reflexivity..]. Qed.

Lemma member_bytes_base64 (l : list Z) : bytes l -> member_bytes (Some (uint8ArrayToBase64 l)) = Ok l.
Proof. apply base64_round. Qed.

Lemma length_nonempty {A : Type} (l : list A) (n : nat) : length l = S n -> l <> [].
Proof. now destruct l. Qed.

Lemma bytesEqual_fold (a b : list Z) (l : list nat) (d : Z) :
  fold_left (fun diff i => Z.lor diff (Z.lxor (nth i a 0%Z) (nth i b 0%Z))) l d = 0%Z
  <-> d = 0%Z /\ (forall i, In i l -> nth i a 0%Z = nth i b 0%Z).
Proof.
  revert d. induction l as [|i l IH]; intros d; cbn [fold_left].
  - split; [intros H; split; [exact H|contradiction]|tauto].
  - rewrite IH, Z.lor_eq_0_iff, Z.lxor_eq_0_iff. split.
    + intros [[Hd Hi] Hl]. split; [assumption|]. intros j [<-|Hj]; auto.
    + intros [Hd Hl]. repeat split; auto with datatypes.
Qed.

(** The comparison that reads every byte decides equality of byte arrays. *)
Theorem bytesEqual_spec (a b : list Z) : bytesEqual a b = true <-> a = b.
Proof.
  unfold bytesEqual. destruct (Nat.eqb_spec (length a) (length b)) as [E|E]; cbn [negb].
  - rewrite Z.eqb_eq, bytesEqual_fold. split; [|intros ->; auto].
    intros [_ H]. apply (nth_ext _ _ 0%Z 0%Z E). intros i Hi. apply H, in_seq. lia.
  - split; [discriminate|congruence].
Qed.

Section Envelopes.
Context {W : WebCrypto} {L : WebCryptoLaws W} {K : PkCrypto} {KL : PkCryptoLaws K}.

Lemma import_export_public (p : PubKey) : importECIESPublicKey (exportECIESPublicKey p) = Ok p.
Proof.
  unfold importECIESPublicKey, exportECIESPublicKey. rewrite base64_round by apply spki_bytes.
  cbn [res_bind]. rewrite spki_tag, andb_false_r. now rewrite spki_import.
Qed.

Lemma import_export_private (k : PrivKey) : importECIESPrivateKey (exportECIESPrivateKey k) = Ok k.
Proof.
  unfold importECIESPrivateKey, exportECIESPrivateKey. rewrite base64_round by apply pkcs8_bytes.
  cbn [res_bind]. now rewrite pkcs8_import.
Qed.

(** The keys a KEM key set exports. *)
Lemma encapsulate_exported (rnd r : list Z) :
  let '(pk, sk) := generateMlKem768KeyPairBase64 rnd in
  exists ct ss, mlKem768Encapsulate (Text pk) r = Ok (ct, ss)
    /\ mlKem768Decapsulate (Text (uint8ArrayToBase64 ct)) (Text sk) = Ok ss
    /\ ct <> [] /\ String.eqb pk "" = false.
Proof.
  pose proof (kem_keys rnd) as Hk. pose proof (kem_correct rnd r) as Hc.
  unfold generateMlKem768KeyPairBase64. destruct (kem_generateKeyPair rnd) as [pk sk].
  destruct Hk as [[Hpb Hpl] [Hsb Hsl]]. destruct Hc as (ct & ss & He & Hd & Hcb & Hcl).
  exists ct, ss. unfold mlKem768Encapsulate, mlKem768Decapsulate, to_raw, fromBase64, toBase64.
  rewrite !base64_round by assumption. cbn [res_bind]. rewrite Hpl, Hcl, Hsl, !Nat.eqb_refl. cbn [negb].
  repeat split; try assumption; [|apply base64_nonempty]; eapply length_nonempty; eassumption.
Qed.

Lemma or_string_iv (i : list Z) (n : option string) : i <> [] ->
  or_string (Some (uint8ArrayToBase64 i)) n = Some (uint8ArrayToBase64 i)
  /\ falsy (Some (uint8ArrayToBase64 i)) = false.
Proof. intros Hi. unfold or_string, falsy. now rewrite base64_nonempty. Qed.

Lemma open_hybrid_sealed (p : EncryptedPayload) (message : string) (key i : list Z) : bytes i -> i <> [] ->
  iv p = Some (uint8ArrayToBase64 i) ->
  ciphertext p = Some (uint8ArrayToBase64 (aes_gcm_encrypt key i [] (text_encode message))) ->
  open_hybrid p key = Ok message.
Proof.
  intros Hb Hi Hiv Hct. unfold open_hybrid. rewrite Hiv, Hct. destruct (or_string_iv i (nonce p) Hi) as [-> ->].
  rewrite !member_bytes_base64 by auto with webcrypto. cbn [res_bind].
  now rewrite decrypt_encrypt, decode_encode.
Qed.

Lemma read_payload_text (l : list (string * option string)) (p : EncryptedPayload) :
  (let l := flat_map (fun '(k, v) => match v with Some s => [(k, s)] | None => [] end) l in
   mkPayload (get_member "version" l) (get_member "nonce" l) (get_member "iv" l)
     (get_member "ephemPublicKey" l) (get_member "ciphertext" l) (get_member "mac" l)
     (get_member "pqcCiphertext" l) (get_member "pqcPublicKey" l)) = p ->
  to_payload (PJson (payload_text l)) = Ok p.
Proof. intros <-. unfold to_payload, read_payload, payload_text. now rewrite parse_stringify. Qed.

(** An envelope made for an exported P-256 public key is opened by the exported private key, to the
    message, and also by the hybrid interface, whose classical fallback reads old envelopes. *)
Theorem ecies_roundtrip (message : string) (receiver ephem : PrivKey) (iv : list Z) (Hb : bytes iv)
    (Hl : length iv = 12) (pqcPrivateKey : string) :
  let '(publicKey, privateKey) := generateECIESKeyPairBase64 receiver in
  exists json, encryptWithPublicKey message publicKey ephem iv = Ok json
    /\ decryptWithPrivateKey (PJson json) privateKey = Ok message
    /\ decryptHybridWithPrivateKeys (PJson json) (mkHybridPriv privateKey pqcPrivateKey) = Ok message.
Proof.
  unfold generateECIESKeyPairBase64, encryptWithPublicKey. rewrite import_export_public. cbn [res_bind].
  eexists. split; [reflexivity|]. set (text := payload_text _).
  pose proof (read_payload_text _ _ eq_refl : to_payload (PJson text) = Ok _) as Hp.
  cbn [flat_map app get_member String.eqb Ascii.eqb Bool.eqb] in Hp.
  assert (Hne : iv <> []) by (eapply length_nonempty; eassumption).
  assert (Hd : decryptWithPrivateKey (PJson text) (exportECIESPrivateKey receiver) = Ok message).
  { unfold decryptWithPrivateKey. rewrite Hp. cbn [res_bind version version_is]. rewrite String.eqb_refl.
    cbn [orb]. unfold decrypt_ecies. cbn [Ecies.iv nonce ephemPublicKey ciphertext import_member].
    rewrite import_export_private, import_export_public. cbn [res_bind].
    destruct (or_string_iv iv None Hne) as [-> ->]. rewrite !member_bytes_base64 by auto with webcrypto.
    cbn [res_bind]. now rewrite ecdh_sym, decrypt_encrypt, decode_encode. }
  split; [exact Hd|]. unfold decryptHybridWithPrivateKeys. rewrite Hp. exact Hd.
Qed.

(** The members of a hybrid envelope. *)
Lemma read_hybrid (v message ephemPk pqcPk : string) (key i ct : list Z) :
  to_payload (PJson (hybrid_payload v message ephemPk pqcPk key i ct))
  = Ok (mkPayload (Some v) None (Some (uint8ArrayToBase64 i)) (Some ephemPk)
          (Some (uint8ArrayToBase64 (aes_gcm_encrypt key i [] (text_encode message)))) None
          (Some (uint8ArrayToBase64 ct)) (Some pqcPk)).
Proof. now apply read_payload_text. Qed.

(** The classical interface knows no version that is neither classical nor legacy. *)
Lemma classical_refuses (p : EncryptedPayload) (v key : string) (input : PayloadInput) :
  to_payload input = Ok p -> version p = Some v -> startsWith "ecies-" v = false ->
  String.eqb v ECIES_VERSION = false -> String.eqb v LEGACY_X25519_VERSION = false ->
  decryptWithPrivateKey input key = Throw ("Unsupported encryption version: " ++ v)%string.
Proof.
  intros Hp Hv H1 H2 H3. unfold decryptWithPrivateKey. rewrite Hp. cbn [res_bind].
  unfold version_is, version_text. now rewrite Hv, H1, H2, H3.
Qed.

Section KeySet.
Variables (pqcPublic pqcSecret : string) (r ct ss : list Z).
Hypothesis Henc : mlKem768Encapsulate (Text pqcPublic) r = Ok (ct, ss).
Hypothesis Hdec : mlKem768Decapsulate (Text (uint8ArrayToBase64 ct)) (Text pqcSecret) = Ok ss.
Hypothesis Hct : ct <> [].
Hypothesis Hpk : String.eqb pqcPublic "" = false.
Variables (message : string) (iv : list Z).
Hypothesis Hb : bytes iv.
Hypothesis Hne : iv <> [].

Lemma hybrid_p256_case (receiver ephem : PrivKey) : exists key,
  let json := hybrid_payload HYBRID_PQC_VERSION message (exportECIESPublicKey (public_of ephem)) pqcPublic key iv ct in
  encryptHybridWithPublicKeys message (mkHybridPub (exportECIESPublicKey (public_of receiver)) pqcPublic)
    ephem r iv = Ok json
  /\ decryptHybridWithPrivateKeys (PJson json) (mkHybridPriv (exportECIESPrivateKey receiver) pqcSecret)
     = Ok message.
Proof.
  exists (deriveHybridAesKey (ecdh_bits ephem (public_of receiver)) ss). cbv zeta. split.
  - unfold encryptHybridWithPublicKeys. cbn [classicalPublicKey pqcPublicKeyB64].
    rewrite import_export_public. cbn [res_bind]. now rewrite Henc.
  - unfold decryptHybridWithPrivateKeys. rewrite read_hybrid. cbn [res_bind].
    unfold version_is. cbn [version].
    cbn [String.eqb Ascii.eqb Bool.eqb HYBRID_PQC_VERSION HYBRID_PQC_X25519_VERSION negb].
    unfold decrypt_hybrid_p256, pqc_text. cbn [Ecies.pqcCiphertext pqcPublicKey falsy classicalPrivateKey
      pqcPrivateKey ephemPublicKey import_member]. rewrite (base64_nonempty ct Hct), Hpk. cbn [orb].
    rewrite import_export_private, import_export_public. cbn [res_bind]. rewrite Hdec. cbn [res_bind].
    apply open_hybrid_sealed with iv; auto. cbn [ciphertext]. now rewrite ecdh_sym.
Qed.

Lemma hybrid_x25519_case (secret ephem_secret : list Z) : length secret = 32 -> bytes secret ->
  length ephem_secret = 32 -> exists key,
  let json := hybrid_payload HYBRID_PQC_X25519_VERSION message
                (uint8ArrayToBase64 (nacl_public ephem_secret)) pqcPublic key iv ct in
  encryptHybridX25519WithPublicKeys message
    (mkHybridPub (uint8ArrayToBase64 (nacl_public secret)) pqcPublic) ephem_secret r iv = Ok json
  /\ decryptHybridWithPrivateKeys (PJson json) (mkHybridPriv (uint8ArrayToBase64 secret) pqcSecret)
     = Ok message.
Proof.
  intros Hs Hsb He. destruct (nacl_public_bytes secret Hs) as [Hnb Hnl].
  destruct (nacl_public_bytes ephem_secret He) as [Heb _].
  destruct (nacl_sym ephem_secret secret He Hs) as (s & Hs1 & Hs2).
  exists (deriveHybridAesKey s ss). cbv zeta. split.
  - unfold encryptHybridX25519WithPublicKeys. cbn [classicalPublicKey pqcPublicKeyB64].
    rewrite base64_round by assumption. cbn [res_bind]. rewrite Hnl, Hs1.
    cbn [Nat.eqb NACL_KEY_BYTES negb res_bind]. now rewrite Henc.
  - unfold decryptHybridWithPrivateKeys. rewrite read_hybrid. cbn [res_bind].
    unfold version_is. cbn [version]. rewrite String.eqb_refl.
    unfold decryptHybridX25519, pqc_text. cbn [Ecies.pqcCiphertext pqcPublicKey falsy classicalPrivateKey
      pqcPrivateKey ephemPublicKey]. rewrite (base64_nonempty ct Hct), Hpk. cbn [orb].
    rewrite base64_round, member_bytes_base64 by assumption. cbn [res_bind]. rewrite Hs, Hs2.
    cbn [Nat.eqb NACL_KEY_BYTES negb res_bind]. rewrite Hdec. cbn [res_bind].
    now apply open_hybrid_sealed with iv.
Qed.
End KeySet.

(** A hybrid envelope, over P-256 or over X25519, is opened by the two private halves of the key set it
    was made for, to the message; the classical interface refuses it by its version. *)
Theorem hybrid_roundtrip (message : string) (receiver ephem : PrivKey) (secret ephem_secret : list Z)
    (Hs : length secret = 32) (Hsb : bytes secret) (He : length ephem_secret = 32)
    (rnd r iv : list Z) (Hb : bytes iv) (Hl : length iv = 12) (anyKey : string) :
  let '((publicKey, privateKey), (pqcPublic, pqcSecret)) := generateHybridKeyPairBase64 receiver rnd in
  (exists json,
     encryptHybridWithPublicKeys message (mkHybridPub publicKey pqcPublic) ephem r iv = Ok json
     /\ decryptHybridWithPrivateKeys (PJson json) (mkHybridPriv privateKey pqcSecret) = Ok message
     /\ decryptWithPrivateKey (PJson json) anyKey
        = Throw "Unsupported encryption version: hybrid-mlkem768-p256-aes256gcm-v1")
  /\ (exists json,
     encryptHybridX25519WithPublicKeys message
       (mkHybridPub (uint8ArrayToBase64 (nacl_public secret)) pqcPublic) ephem_secret r iv = Ok json
     /\ decryptHybridWithPrivateKeys (PJson json) (mkHybridPriv (uint8ArrayToBase64 secret) pqcSecret)
        = Ok message
     /\ decryptWithPrivateKey (PJson json) anyKey
        = Throw "Unsupported encryption version: hybrid-mlkem768-x25519-aes256gcm-v1").
Proof.
  unfold generateHybridKeyPairBase64, generateECIESKeyPairBase64.
  pose proof (encapsulate_exported rnd r) as Hk.
  destruct (generateMlKem768KeyPairBase64 rnd) as [pqcPublic pqcSecret].
  destruct Hk as (ct & ss & Henc & Hdec & Hct & Hpk).
  assert (Hne : iv <> []) by (eapply length_nonempty; eassumption).
  destruct (hybrid_p256_case pqcPublic pqcSecret r ct ss Henc Hdec Hct Hpk message iv Hb Hne receiver ephem)
    as (key & E1 & D1).
  destruct (hybrid_x25519_case pqcPublic pqcSecret r ct ss Henc Hdec Hct Hpk message iv Hb Hne
              secret ephem_secret Hs Hsb He) as (key' & E2 & D2).
  split; eexists; (split; [eassumption|split; [eassumption|]]);
    (eapply classical_refuses; [apply read_hybrid|reflexivity..]).
Qed.

(** A hybrid envelope without its post-quantum part is refused whatever the keys: it is never opened
    with the classical key alone. *)
Theorem hybrid_not_stripped (p : EncryptedPayload) (keys : HybridPrivateKeys)
    (Hv : version p = Some HYBRID_PQC_VERSION \/ version p = Some HYBRID_PQC_X25519_VERSION)
    (Hmiss : falsy (pqcCiphertext p) = true \/ falsy (pqcPublicKey p) = true) :
  decryptHybridWithPrivateKeys (PObject p) keys
  = Throw "Hybrid payload missing pqcCiphertext or pqcPublicKey".
Proof.
  assert (Hm : falsy (pqcCiphertext p) || falsy (pqcPublicKey p) = true).
  { apply orb_true_iff. exact Hmiss. }
  unfold decryptHybridWithPrivateKeys. cbn [to_payload res_bind]. unfold version_is.
  destruct Hv as [-> | ->]; [cbn [String.eqb Ascii.eqb Bool.eqb HYBRID_PQC_VERSION
    HYBRID_PQC_X25519_VERSION negb]; unfold decrypt_hybrid_p256|rewrite String.eqb_refl; unfold
    decryptHybridX25519]; now rewrite Hm.
Qed.
End Envelopes.

(** ** An instance: a P-256 key is a number, shared secrets are sums *)
Module Pair.

Definition export_num (k : nat) : list Z := 0x30%Z :: repeat 1%Z k.
Definition import_num (l : list Z) : option nat :=
  match l with t :: l => if (t =? 0x30)%Z then Some (length l) else None | [] => None end.

Definition low_bytes (l : list Z) : list Z := map (fun x => x mod 256)%Z l.
Definition sums (a b : list Z) : list Z := map (fun '(x, y) => (x + y) mod 256)%Z (combine a b).
Definition sized (n : nat) (l : list Z) : list Z := firstn n (low_bytes l ++ repeat 0%Z n).

#[export] Instance pair : PkCrypto := {
  PubKey := nat; PrivKey := nat; public_of := fun k => k;
  ecdh_bits := fun a b => repeat (Z.of_nat (a + b) mod 256)%Z 32;
  export_spki := export_num; export_pkcs8 := export_num;
  import_raw := fun _ => None; import_spki := import_num; import_pkcs8 := import_num;
  hkdf := fun salt info ikm => firstn 32 (ikm ++ salt ++ info);
  nacl_public := low_bytes; nacl_scalarMult := fun a b => Ok (sums a b);
  nacl_box_open := fun c n pk sk => Ok None;
  kem_generateKeyPair := fun r =>
    (sized ML_KEM_768_PUBLIC_KEY_BYTES r, sized ML_KEM_768_SECRET_KEY_BYTES r);
  kem_encap := fun pk r =>
    let c := sized ML_KEM_768_CIPHERTEXT_BYTES r in Ok (c, firstn ML_KEM_768_SHARED_SECRET_BYTES c);
  kem_decap := fun ct sk => Ok (firstn ML_KEM_768_SHARED_SECRET_BYTES ct)
}.

Lemma low_bytes_bytes (l : list Z) : bytes (low_bytes l).
Proof. apply (mod_bytes (fun x => x)). Qed.

Lemma sized_spec (n : nat) (l : list Z) : bytes (sized n l) /\ length (sized n l) = n.
Proof.
  unfold sized. split.
  - assert (H : bytes (low_bytes l ++ repeat 0%Z n)).
    { apply Forall_app. split; [apply low_bytes_bytes|]. apply Forall_forall.
      intros x Hx. apply repeat_spec in Hx. subst. unfold is_byte. lia. }
    rewrite <- (firstn_skipn n) in H. now apply Forall_app in H.
  - rewrite length_firstn, length_app, repeat_length. lia.
Qed.

Lemma sums_sym (a b : list Z) : sums a (low_bytes b) = sums b (low_bytes a).
Proof.
  revert b. induction a as [|x a IH]; intros [|y b]; try reflexivity.
  unfold sums, low_bytes in *. cbn [map combine]. rewrite IH. f_equal.
  rewrite !Z.add_mod_idemp_r by lia. f_equal. lia.
Qed.

Lemma repeat_byte (x : Z) (n : nat) : is_byte x -> bytes (repeat x n).
Proof. intros Hx. apply Forall_forall. intros y Hy. apply repeat_spec in Hy. now subst. Qed.

Lemma export_num_bytes (k : nat) : bytes (export_num k).
Proof.
  constructor; [unfold is_byte; lia|]. apply Forall_forall.
  intros x Hx. apply repeat_spec in Hx. subst. unfold is_byte. lia.
Qed.

Lemma import_export_num (k : nat) : import_num (export_num k) = Some k.
Proof. cbn. now rewrite repeat_length. Qed.

#[export] Instance pair_laws : PkCryptoLaws pair.
Proof.
  constructor; intros; cbn [pair public_of ecdh_bits nacl_public nacl_scalarMult kem_generateKeyPair
    kem_encap kem_decap];
    try apply import_export_num; try apply export_num_bytes; try reflexivity.
  - f_equal. f_equal. lia.
  - split; [apply low_bytes_bytes|]. unfold low_bytes. now rewrite length_map.
  - exists (sums a (low_bytes b)). now rewrite sums_sym.
  - split; apply sized_spec.
  - eexists _, _. split; [reflexivity|]. split; [reflexivity|]. apply sized_spec.
Qed.
End Pair.
Import Pair.

Definition iv12 : list Z := repeat 3%Z 12.

Lemma iv12_bytes : bytes iv12.
Proof. repeat constructor; unfold is_byte; lia. Qed.

Lemma ecies_roundtrip_witness :
  exists json, encryptWithPublicKey (K := pair) "hello" (exportECIESPublicKey (K := pair) 5) 9 iv12 = Ok json
    /\ decryptWithPrivateKey (K := pair) (PJson json) (exportECIESPrivateKey (K := pair) 5) = Ok "hello"%string
    /\ decryptHybridWithPrivateKeys (K := pair) (PJson json) (mkHybridPriv (exportECIESPrivateKey (K := pair) 5) "")
       = Ok "hello"%string.
Proof. exact (ecies_roundtrip (K := pair) "hello" 5 9 iv12 iv12_bytes eq_refl ""). Defined.

Lemma hybrid_roundtrip_witness :
  let '((publicKey, privateKey), (pqcPublic, pqcSecret)) := generateHybridKeyPairBase64 (K := pair) 5 [1; 2]%Z in
  (exists json,
     encryptHybridWithPublicKeys (K := pair) "hello" (mkHybridPub publicKey pqcPublic) 9 [4]%Z iv12 = Ok json
     /\ decryptHybridWithPrivateKeys (K := pair) (PJson json) (mkHybridPriv privateKey pqcSecret) = Ok "hello"%string
     /\ decryptWithPrivateKey (K := pair) (PJson json) "AA=="
        = Throw "Unsupported encryption version: hybrid-mlkem768-p256-aes256gcm-v1")
  /\ (exists json,
     encryptHybridX25519WithPublicKeys (K := pair) "hello"
       (mkHybridPub (uint8ArrayToBase64 (nacl_public (PkCrypto := pair) (repeat 6%Z 32))) pqcPublic) (repeat 8%Z 32) [4]%Z iv12
     = Ok json
     /\ decryptHybridWithPrivateKeys (K := pair) (PJson json)
          (mkHybridPriv (uint8ArrayToBase64 (repeat 6%Z 32)) pqcSecret) = Ok "hello"%string
     /\ decryptWithPrivateKey (K := pair) (PJson json) "AA=="
        = Throw "Unsupported encryption version: hybrid-mlkem768-x25519-aes256gcm-v1").
Proof.
  exact (hybrid_roundtrip (K := pair) "hello" 5 9 (repeat 6%Z 32) (repeat 8%Z 32) eq_refl
           (repeat_byte 6 32 ltac:(unfold is_byte; lia)) eq_refl [1; 2]%Z [4]%Z iv12 iv12_bytes eq_refl "AA==").
Defined.

Lemma hybrid_not_stripped_witness :
  decryptHybridWithPrivateKeys (K := pair)
    (PObject (mkPayload (Some HYBRID_PQC_VERSION) None (Some "AAAA") (Some "MA==") (Some "AAAA") None None (Some "AA==")))
    (mkHybridPriv "MA==" "AA==")
  = Throw "Hybrid payload missing pqcCiphertext or pqcPublicKey".
Proof. apply hybrid_not_stripped; [left|left]; reflexivity. Defined.
