(* ===== verification/CryptoWorker.v ===== *)
(** * CryptoWorker: the worker pool of cryptoWorker.service.ts and workers/crypto.worker.ts

    The script of the worker is the list of its assignments to [self.onmessage], of
    which the last one counts.  The pool posts messages to its workers in turn; a step
    is a post, or the handling of a message and of the answer to it.  Request ids, drawn
    by the service, and the draws of a request are arguments. *)

From Stdlib Require Import Ascii String ZArith Lia Bool.
From stdpp Require Import base list gmap strings.
From S2P Require Import Prelude Bytes JsString Hex WebCrypto Secrets Ecies EciesProofs.

Open Scope list_scope.
Open Scope nat_scope.

Section Worker.
Context {W : WebCrypto} {K : PkCrypto}.

(** ** Requests *)

Inductive CryptoRequest : Type :=
| REncrypt (data : list Z) (key : string)
| RDecrypt (data : list Z) (key : string)
| RSplitSecret (secretHex : string) (n k : nat)
| RReencrypt (data oldPrivateKey newPublicKey : string).

(** A message to a worker: a request of the service, or a buffer to hash. *)
Inductive WorkerMessage : Type :=
| Request (id : string) (r : CryptoRequest)
| ComputeHash (buffer : list Z).

Inductive CryptoResult : Type :=
| Buffer (b : list Z)
| Shares (shares commitments : list string)
| Envelope (text : string).

(** A message from a worker; [HashDone] has no id. *)
Inductive WorkerResponse : Type :=
| Response (id : string) (result : res CryptoResult)
| HashDone (hash : list Z).

(** What a request draws: the nonce, the shares' random bytes, the key of an envelope and its nonce. *)
Record Drawn : Type := mkDrawn {
  drawn_iv : list Z; drawn_rand : nat -> list Z; drawn_ephem : PrivKey; drawn_env_iv : list Z
}.

(** [importKey]: AES keys have 16, 24 or 32 bytes. *)
Definition importKey (hexKey : string) : res (list Z) :=
  let keyBytes := hex_bytes hexKey in
  throw_if negb ((length keyBytes =? 16) || (length keyBytes =? 24) || (length keyBytes =? 32)) with
    "DataError"%string;;
  Ok keyBytes.

Definition encrypt_buffer (d : Drawn) (data : list Z) (key : string) : res (list Z) :=
  let! cryptoKey := importKey key in
  Ok (drawn_iv d ++ aes_gcm_encrypt cryptoKey (drawn_iv d) [] data).

Definition decrypt_buffer (data : list Z) (key : string) : res (list Z) :=
  let! cryptoKey := importKey key in
  match aes_gcm_decrypt cryptoKey (firstn 12 data) [] (skipn 12 data) with
  | Some plain => Ok plain
  | None => Throw "OperationError"%string
  end.

Definition reencrypt_envelope (d : Drawn) (envelope oldPrivateKey newPublicKey : string) : res string :=
  let! plaintext := decryptWithPrivateKey (PJson envelope) oldPrivateKey in
  encryptWithPublicKey plaintext newPublicKey (drawn_ephem d) (drawn_env_iv d).

(** What the service computes itself when it has no workers. *)
Definition fallback (d : Drawn) (r : CryptoRequest) : res CryptoResult :=
  match r with
  | REncrypt data key => res_map Buffer (encrypt_buffer d data key)
  | RDecrypt data key => res_map Buffer (decrypt_buffer data key)
  | RSplitSecret secretHex n k =>
      res_map (fun '(shares, commitments) => Shares shares commitments) (splitSecretVSS (drawn_rand d) secretHex n k)
  | RReencrypt data old new => res_map Envelope (reencrypt_envelope d data old new)
  end.

(** ** The script of the worker *)

(** A handler: the message it posts, if it posts one. *)
Definition Handler : Type := Drawn -> WorkerMessage -> option WorkerResponse.

(** The first handler; re-encryption also wants both keys. *)
Definition crypto_handler : Handler := fun d message =>
  match message with
  | Request id r =>
      Some (Response id
        (match r with
         | RReencrypt _ old new =>
             if String.eqb old "" || String.eqb new "" then
               Throw "REENCRYPT_ENVELOPE requires oldPrivateKey and newPublicKey"%string
             else fallback d r
         | _ => fallback d r
         end))
  | ComputeHash _ => Some (Response "undefined" (Throw "Unsupported worker operation type: COMPUTE_HASH"%string))
  end.

(** The second handler. *)
Definition hash_handler : Handler := fun d message =>
  match message with
  | ComputeHash buffer => Some (HashDone (sha256 buffer))
  | Request _ _ => None
  end.

(** The assignments in the order of the script. *)
Definition worker_script : list Handler := [crypto_handler; hash_handler].

Definition onmessage (script : list Handler) : Handler :=
  match last script with Some h => h | None => fun _ _ => None end.

(** ** The pool *)

(** [inbox]: the messages posted to each worker; [answers]: what [resolve] and [reject] were called with. *)
Record Pool : Type := mkPool {
  workers : nat; nextWorkerIndex : nat; pendingRequests : gset string;
  inbox : list (nat * WorkerMessage); answers : list (string * res CryptoResult)
}.

Definition new_pool (poolSize : nat) : Pool := mkPool poolSize 0 ∅ [] [].

(** A call of the service: the fallback's result, or a message to the next worker. *)
Definition call (d : Drawn) (id : string) (r : CryptoRequest) (p : Pool) : option (res CryptoResult) * Pool :=
  if workers p =? 0 then (Some (fallback d r), p)
  else
    (None, mkPool (workers p) ((nextWorkerIndex p + 1) mod workers p) ({[id]} ∪ pendingRequests p)
             (inbox p ++ [(nextWorkerIndex p, Request id r)]) (answers p)).

(** [worker.onmessage] in the service. *)
Definition receive (response : WorkerResponse) (p : Pool) : Pool :=
  match response with
  | Response id result =>
      if bool_decide (id ∈ pendingRequests p) then
        mkPool (workers p) (nextWorkerIndex p) (pendingRequests p ∖ {[id]}) (inbox p) (answers p ++ [(id, result)])
      else p
  | HashDone _ => p
  end.

(** The [i]-th message in the inboxes is handled. *)
Definition deliver (onmessage : Handler) (d : Drawn) (i : nat) (p : Pool) : Pool :=
  match inbox p !! i with
  | None => p
  | Some (_, message) =>
      let p := mkPool (workers p) (nextWorkerIndex p) (pendingRequests p) (delete i (inbox p)) (answers p) in
      match onmessage d message with Some response => receive response p | None => p end
  end.

Inductive PoolStep : Type :=
| Calls (d : Drawn) (id : string) (r : CryptoRequest)
| Delivers (d : Drawn) (i : nat).

Definition pool_step (onmessage : Handler) (p : Pool) (s : PoolStep) : Pool :=
  match s with
  | Calls d id r => (call d id r p).2
  | Delivers d i => deliver onmessage d i p
  end.

Definition run_pool (onmessage : Handler) (steps : list PoolStep) (p : Pool) : Pool :=
  foldl (pool_step onmessage) p steps.

(** ** Proofs *)

Definition called (s : PoolStep) : list string := match s with Calls _ id _ => [id] | _ => [] end.

Lemma hash_only_step (p : Pool) (s : PoolStep) : 0 < workers p ->
  (forall w m, (w, m) ∈ inbox p -> exists id r, m = Request id r) ->
  let p' := pool_step (onmessage worker_script) p s in
  workers p' = workers p /\ answers p' = answers p
  /\ pendingRequests p' = list_to_set (called s) ∪ pendingRequests p
  /\ (forall w m, (w, m) ∈ inbox p' -> exists id r, m = Request id r).
Proof.
  intros Hw Hi. destruct s as [d id r|d i]; cbn [pool_step called].
  - unfold call. destruct (Nat.eqb_spec (workers p) 0); [lia|]. cbn. split_and!; try done.
    + by rewrite union_empty_r_L.
    + intros w m Hin. apply elem_of_app in Hin as [Hin|Hin]; [by eapply Hi|].
      apply list_elem_of_singleton in Hin. injection Hin as _ ->. by eauto.
  - unfold deliver. cbn [list_to_set]. rewrite union_empty_l_L. destruct (inbox p !! i) as [[w m]|] eqn:E; [|done].
    destruct (Hi w m) as (id & r & ->); [by eapply list_elem_of_lookup_2|]. cbn. split_and!; try done.
    intros w' m' Hin. eapply Hi. eapply elem_of_sublist; [exact Hin|]. apply sublist_delete.
Qed.

Lemma hash_only_run (steps : list PoolStep) (p : Pool) : 0 < workers p ->
  (forall w m, (w, m) ∈ inbox p -> exists id r, m = Request id r) ->
  let p' := run_pool (onmessage worker_script) steps p in
  answers p' = answers p /\ pendingRequests p' = list_to_set (flat_map called steps) ∪ pendingRequests p.
Proof.
  revert p. induction steps as [|s steps IH]; intros p Hw Hi; [split; [done|cbn; by rewrite union_empty_l_L]|].
  destruct (hash_only_step p s Hw Hi) as (E1 & E2 & E3 & Hi'). cbv zeta.
  change (run_pool (onmessage worker_script) (s :: steps) p)
    with (run_pool (onmessage worker_script) steps (pool_step (onmessage worker_script) p s)).
  destruct (IH (pool_step (onmessage worker_script) p s) ltac:(lia) Hi') as [-> ->].
  split; [done|]. rewrite E3. cbn [flat_map]. rewrite list_to_set_app_L.
  by rewrite (assoc_L (∪)), (comm_L (∪) (list_to_set (flat_map called steps))).
Qed.

(** The ids of the requests in the inboxes. *)
Definition posted (p : Pool) : list string :=
  omap (fun wm => match wm.2 with Request id _ => Some id | ComputeHash _ => None end) (inbox p).

Record serving (ids : list string) (p : Pool) : Prop := {
  sv_requests : forall w m, (w, m) ∈ inbox p -> exists id r, m = Request id r;
  sv_ids : ids ≡ₚ map fst (answers p) ++ posted p;
  sv_pending : forall id, id ∈ pendingRequests p <-> id ∈ posted p
}.

Lemma posted_delete (p : Pool) (i w : nat) (id : string) (r : CryptoRequest) : inbox p !! i = Some (w, Request id r) ->
  posted p ≡ₚ id :: omap (fun wm => match wm.2 with Request id _ => Some id | ComputeHash _ => None end) (delete i (inbox p)).
Proof. intros H. unfold posted. by rewrite (delete_Permutation (inbox p) i _ H) at 1. Qed.

Lemma serving_step (ids : list string) (p : Pool) (s : PoolStep) : 0 < workers p -> NoDup (ids ++ called s) ->
  serving ids p ->
  let p' := pool_step crypto_handler p s in workers p' = workers p /\ serving (ids ++ called s) p'.
Proof.
  intros Hw Hn [H1 H2 H3]. destruct s as [d id r|d i]; cbn [pool_step called] in *.
  - unfold call. destruct (Nat.eqb_spec (workers p) 0); [lia|]. cbn. split; [done|]. split; cbn.
    + intros w m Hin. apply elem_of_app in Hin as [Hin|Hin]; [by eapply H1|].
      apply list_elem_of_singleton in Hin. injection Hin as _ ->. by eauto.
    + unfold posted. cbn. rewrite omap_app. cbn. by rewrite H2, <- app_assoc.
    + intros id'. unfold posted. cbn. rewrite omap_app, elem_of_app, elem_of_union, elem_of_singleton. cbn.
      rewrite list_elem_of_singleton, H3. unfold posted. tauto.
  - rewrite app_nil_r in *. unfold deliver. destruct (inbox p !! i) as [[w m]|] eqn:E; [|by split; [|split]].
    destruct (H1 w m) as (id & r & ->); [by eapply list_elem_of_lookup_2|]. cbn [crypto_handler receive].
    pose proof (posted_delete p i w id r E) as Hp. cbn [pendingRequests].
    assert (Hid : id ∈ pendingRequests p) by (apply H3; rewrite Hp; by left).
    rewrite bool_decide_eq_true_2 by done. cbn. split; [done|].
    rewrite H2 in Hn. apply NoDup_app in Hn as (_ & _ & Hn). rewrite Hp in Hn. apply NoDup_cons in Hn as [Hnin _].
    split; cbn.
    + intros w' m' Hin. eapply H1. eapply elem_of_sublist; [exact Hin|]. apply sublist_delete.
    + rewrite H2, Hp, map_app. cbn. by rewrite <- app_assoc.
    + intros id'. rewrite elem_of_difference, elem_of_singleton, H3, Hp, elem_of_cons. unfold posted. cbn.
      split; [tauto|]. intros Hin. split; [by right|]. intros ->. done.
Qed.

Lemma serving_run (steps : list PoolStep) (ids : list string) (p : Pool) : 0 < workers p ->
  NoDup (ids ++ flat_map called steps) -> serving ids p ->
  serving (ids ++ flat_map called steps) (run_pool crypto_handler steps p).
Proof.
  revert ids p. induction steps as [|s steps IH]; intros ids p Hw Hn Hs; cbn in *; [by rewrite app_nil_r|].
  rewrite app_assoc in *. assert (Hn1 : NoDup (ids ++ called s)) by by apply NoDup_app in Hn as [Hn _].
  destruct (serving_step ids p s Hw Hn1 Hs) as [E Hs']. by apply IH; [rewrite E| |].
Qed.
End Worker.

(** A pool with workers never answers: whatever is called and handled, in any order, no promise of the
    service is settled and every request stays pending, because the script of the worker replaces its
    handler of requests by one that only hashes buffers. *)
Theorem workers_never_answer {W : WebCrypto} {K : PkCrypto} (n : nat) (Hn : 0 < n) (steps : list PoolStep) :
  let p := run_pool (onmessage worker_script) steps (new_pool n) in
  answers p = [] /\ pendingRequests p = list_to_set (flat_map called steps).
Proof.
  destruct (hash_only_run steps (new_pool n) Hn) as [H1 H2].
  - intros w m H. by apply elem_of_nil in H.
  - split; [exact H1|]. cbv zeta. rewrite H2. change (pendingRequests (new_pool n)) with (∅ : gset string).
    by rewrite union_empty_r_L.
Qed.

(** The pool itself is sound: with the handler that the script defines first, every request with an id of
    its own is answered at most once, is pending exactly until its message is handled, and when no message
    is left every call has been answered. *)
Theorem pool_answers_once {W : WebCrypto} {K : PkCrypto} (n : nat) (Hn : 0 < n) (steps : list PoolStep)
    (Hids : NoDup (flat_map called steps)) :
  let p := run_pool crypto_handler steps (new_pool n) in
  NoDup (map fst (answers p))
  /\ (forall id, id ∈ flat_map called steps <-> id ∈ map fst (answers p) \/ id ∈ pendingRequests p)
  /\ (forall id, id ∈ pendingRequests p -> id ∉ map fst (answers p))
  /\ (inbox p = [] -> map fst (answers p) ≡ₚ flat_map called steps).
Proof.
  destruct (serving_run steps [] (new_pool n) Hn Hids) as [_ H2 H3].
  - split; cbn; [|done|]; intros; [by apply elem_of_nil in H|].
    split; intros Hin; [by apply elem_of_empty in Hin|by apply elem_of_nil in Hin].
  - cbn [app] in H2. cbv zeta. set (p := run_pool _ _ _) in *. pose proof Hids as Hnd. rewrite H2 in Hnd.
    apply NoDup_app in Hnd as (Ha & Hd & _). split_and!; [done| | |].
    + intros id. rewrite H2, elem_of_app, H3. done.
    + intros id Hin Hans. apply H3 in Hin. by apply (Hd id).
    + intros E. rewrite H2. unfold posted. by rewrite E, app_nil_r.
Qed.

(** Without workers the service encrypts and decrypts by itself, and a buffer encrypted under 64 hexadecimal
    digits is decrypted to itself under the same digits. *)
Theorem fallback_roundtrip {W : WebCrypto} {L : WebCryptoLaws W} {K : PkCrypto} (d d' : Drawn) (data : list Z)
    (key : string) (Hkey : String.length key = 64) (Hiv : length (drawn_iv d) = 12) (id id' : string) :
  exists sealed, (call d id (REncrypt data key) (new_pool 0)).1 = Some (Ok (Buffer sealed))
    /\ length sealed = 12 + length data + TAG_BYTES
    /\ (call d' id' (RDecrypt sealed key) (new_pool 0)).1 = Some (Ok (Buffer data)).
Proof.
  assert (Hk : importKey key = Ok (hex_bytes key)).
  { unfold importKey. assert (E : length (hex_bytes key) = 32) by (unfold hex_bytes; by rewrite length_map, length_seq, Hkey).
    by rewrite E. }
  clear Hkey. revert Hk. generalize (hex_bytes key). intros k Hk.
  exists (drawn_iv d ++ aes_gcm_encrypt k (drawn_iv d) [] data).
  change ((call d id (REncrypt data key) (new_pool 0)).1) with (Some (res_map Buffer (encrypt_buffer d data key))).
  set (sealed := drawn_iv d ++ _).
  change ((call d' id' (RDecrypt sealed key) (new_pool 0)).1) with (Some (res_map Buffer (decrypt_buffer sealed key))).
  unfold encrypt_buffer, decrypt_buffer. rewrite Hk. split; [done|]. split.
  - unfold sealed. rewrite length_app, encrypt_length, Hiv. lia.
  - unfold sealed. rewrite firstn_app, skipn_app, Hiv, firstn_all2, skipn_all2, Nat.sub_diag by lia.
    rewrite firstn_O, app_nil_r. cbn [app res_bind]. by rewrite skipn_O, decrypt_encrypt.
Qed.

(** ** Two requests *)
Module DemoWorker.
Import Mirror Pair.
#[local] Existing Instances pair.
Definition nothing : Drawn := mkDrawn (repeat 7%Z 12) (fun _ => []) 3 [].
Definition calls : list PoolStep :=
  [Calls nothing "a" (RDecrypt [] ""); Calls nothing "b" (RDecrypt [] ""); Delivers nothing 1; Delivers nothing 0].
End DemoWorker.
Import Mirror Pair DemoWorker.

Lemma workers_never_answer_witness :
  pendingRequests (run_pool (onmessage worker_script) calls (new_pool 2)) = list_to_set ["a"; "b"]%string.
Proof. apply (workers_never_answer 2 ltac:(lia) calls). Defined.

Lemma pool_answers_once_witness :
  map fst (answers (run_pool crypto_handler calls (new_pool 2))) = ["b"; "a"]%string
  /\ NoDup (map fst (answers (run_pool crypto_handler calls (new_pool 2)))).
Proof.
  split; [vm_compute; reflexivity|].
  apply (pool_answers_once 2 ltac:(lia) calls). apply (bool_decide_unpack _). vm_compute. exact I.
Defined.

Lemma fallback_roundtrip_witness : exists sealed,
  (call nothing "a" (REncrypt [1; 2]%Z (repeat_char 64 "a")) (new_pool 0)).1 = Some (Ok (Buffer sealed))
  /\ length sealed = 30
  /\ (call nothing "b" (RDecrypt sealed (repeat_char 64 "a")) (new_pool 0)).1 = Some (Ok (Buffer [1; 2]%Z)).
Proof. apply (fallback_roundtrip nothing nothing [1; 2]%Z (repeat_char 64 "a") eq_refl eq_refl "a" "b"). Defined.
