(* ===== verification/RelayQueue.v ===== *)
(** * RelayQueue: the durable queue of relayer/queue.ts

    The queue's memory, its journal on disk and the attempt in flight; a step per
    piece of code that runs without interruption: [enqueue], the start of a pump,
    the return of the handler, [start], [stop], and a crash followed by a restart
    from the journal.  Times are milliseconds; the payload is a parameter.

    An invariant of every reachable queue, crashes included; a bound on how often
    a job is dispatched; and that a queue left alone empties. *)

From stdpp Require Import base list strings.
From Stdlib Require Import ZArith Lia.
From S2P Require Import Prelude.

Open Scope list_scope.
Open Scope nat_scope.

Section Queue.
Context {T : Type}.

Record PersistedJob : Type := mkJob {
  job_id : string; payload : T; attempts : nat; nextAttemptAtMs : Z; lastError : option string
}.

Record DeadJob : Type := mkDead { dead_job : PersistedJob; dead_error : string }.

Record QueueState : Type := mkState {
  jobs : list PersistedJob; completedIds : list string; dead : list DeadJob
}.

Definition empty_state : QueueState := mkState [] [] [].

Definition MAX_COMPLETED_IDS : nat := 2000.
Definition MAX_DEAD_JOBS : nat := 100.

Record QueueOptions : Type := mkOptions {
  maxAttempts : nat; retryBaseMs : Z; retryMaxBackoffMs : Z
}.

(** The values the constructor takes when an option is not given. *)
Definition default_options (max : option nat) (base backoff : option Z) : QueueOptions :=
  mkOptions (default 5 max) (default 500%Z base) (default 30000%Z backoff).

(** The file: missing, not JSON, or an object whose members may not be arrays. *)
Inductive Journal : Type :=
| Missing
| Corrupt
| Saved (jobs : option (list PersistedJob)) (completedIds : option (list string))
    (dead : option (list DeadJob)).

Definition load (file : Journal) : QueueState :=
  match file with
  | Missing | Corrupt => empty_state
  | Saved j c d => mkState (default [] j) (default [] c) (default [] d)
  end.

Definition saved (s : QueueState) : Journal :=
  Saved (Some (jobs s)) (Some (completedIds s)) (Some (dead s)).

Record Queue : Type := mkQueue {
  state : QueueState; file : Journal; inFlight : option nat; stopped : bool
}.

(** [new DurableRelayQueue] over the file found on disk. *)
Definition new_queue (f : Journal) : Queue := mkQueue (load f) f None true.

(** [persist]: the file is replaced by a rename, or left as it was when writing fails. *)
Definition persist (written : bool) (q : Queue) : Queue :=
  mkQueue (state q) (if written then saved (state q) else file q) (inFlight q) (stopped q).

Definition set_state (s : QueueState) (q : Queue) : Queue := mkQueue s (file q) (inFlight q) (stopped q).
Definition set_inFlight (f : option nat) (q : Queue) : Queue := mkQueue (state q) (file q) f (stopped q).

(** ** enqueue *)

Definition seen (id : string) (s : QueueState) : bool :=
  bool_decide (id ∈ map job_id (jobs s)) || bool_decide (id ∈ completedIds s)
  || bool_decide (id ∈ map (fun d => job_id (dead_job d)) (dead s)).

Definition enqueue (written : bool) (now : Z) (id : string) (p : T) (q : Queue) : bool * Queue :=
  if seen id (state q) then (false, q)
  else
    let s := state q in
    (true, persist written
             (set_state (mkState (jobs s ++ [mkJob id p 0 now None]) (completedIds s) (dead s)) q)).

(** ** pump *)

Definition due (now : Z) (job : PersistedJob) : Prop := (nextAttemptAtMs job <= now)%Z.
#[global] Instance due_dec (now : Z) (job : PersistedJob) : Decision (due now job).
Proof. unfold due. apply _. Defined.

Definition dueIndex (now : Z) (s : QueueState) : option nat := fst <$> list_find (due now) (jobs s).

Definition count_attempt (job : PersistedJob) : PersistedJob :=
  mkJob (job_id job) (payload job) (S (attempts job)) (nextAttemptAtMs job) (lastError job).

(** The code before [await this.handler(job.payload, job)]; the job the handler is called with. *)
Definition pump_begin (now : Z) (q : Queue) : option PersistedJob * Queue :=
  match dueIndex now (state q), inFlight q with
  | Some i, None =>
      let s := state q in
      let s := mkState (alter count_attempt i (jobs s)) (completedIds s) (dead s) in
      (jobs s !! i, set_inFlight (Some i) (set_state s q))
  | _, _ => (None, q)
  end.

(** [splice(0, length - max)]. *)
Definition keep_last {A : Type} (n : nat) (l : list A) : list A := drop (length l - n) l.

Definition backoff (o : QueueOptions) (attempts : nat) : Z :=
  Z.min (retryBaseMs o * 2 ^ (Z.of_nat attempts - 1)) (retryMaxBackoffMs o).

(** The code after the handler returned. *)
Definition pump_done (written : bool) (q : Queue) : Queue :=
  match inFlight q with
  | None => q
  | Some i =>
      let s := state q in
      match jobs s !! i with
      | None => set_inFlight None q
      | Some job =>
          let s := mkState (delete i (jobs s))
                     (keep_last MAX_COMPLETED_IDS (completedIds s ++ [job_id job])) (dead s) in
          set_inFlight None (persist written (set_state s q))
      end
  end.

(** The code after the handler threw. *)
Definition pump_failed (o : QueueOptions) (written : bool) (now : Z) (message : string) (q : Queue) : Queue :=
  match inFlight q with
  | None => q
  | Some i =>
      let s := state q in
      match jobs s !! i with
      | None => set_inFlight None q
      | Some job =>
          let s :=
            if maxAttempts o <=? attempts job then
              let dead' := dead s ++ [mkDead job message] in
              mkState (delete i (jobs s)) (completedIds s)
                (if MAX_DEAD_JOBS <? length dead' then tail dead' else dead')
            else
              mkState (<[i := mkJob (job_id job) (payload job) (attempts job)
                                (now + backoff o (attempts job))%Z (Some message)]> (jobs s))
                (completedIds s) (dead s) in
          set_inFlight None (persist written (set_state s q))
      end
  end.

Definition start (q : Queue) : Queue :=
  if negb (stopped q) then q else mkQueue (state q) (file q) (inFlight q) false.
Definition stop (q : Queue) : Queue := mkQueue (state q) (file q) (inFlight q) true.

(** A crash loses the memory; the process comes back with a new queue over the file. *)
Definition restart (q : Queue) : Queue := new_queue (file q).

Record QueueStats : Type := mkStats { pending : nat; inflight : bool; completed : nat; dead_count : nat }.

Definition stats (q : Queue) : QueueStats :=
  mkStats (length (jobs (state q))) (bool_decide (is_Some (inFlight q)))
    (length (completedIds (state q))) (length (dead (state q))).

(** ** Steps *)

Inductive Label : Type :=
| Enqueued (id : string) (accepted written : bool)
| Dispatched (id : string)
| Succeeded (id : string) (written : bool)
| Failed (id : string) (written : bool)
| Started
| Stopped
| Restarted.

(** The job of the attempt in flight. *)
Definition current (q : Queue) : option PersistedJob := i ← inFlight q; jobs (state q) !! i.

Inductive step (o : QueueOptions) (q : Queue) : Label -> Queue -> Prop :=
| step_enqueue now id p w b q' :
    enqueue w now id p q = (b, q') -> step o q (Enqueued id b w) q'
| step_pump now job q' :
    stopped q = false -> pump_begin now q = (Some job, q') -> step o q (Dispatched (job_id job)) q'
| step_done w job :
    current q = Some job -> step o q (Succeeded (job_id job) w) (pump_done w q)
| step_failed w now message job :
    current q = Some job -> step o q (Failed (job_id job) w) (pump_failed o w now message q)
| step_start : step o q Started (start q)
| step_stop : step o q Stopped (stop q)
| step_restart : step o q Restarted (restart q).

(** Runs: the labels in the order of the steps. *)
Inductive steps (o : QueueOptions) : Queue -> list Label -> Queue -> Prop :=
| steps_nil q : steps o q [] q
| steps_snoc q tr q' l q'' : steps o q tr q' -> step o q' l q'' -> steps o q (tr ++ [l]) q''.
End Queue.

Arguments PersistedJob T : clear implicits.
Arguments DeadJob T : clear implicits.
Arguments QueueState T : clear implicits.
Arguments Journal T : clear implicits.
Arguments Queue T : clear implicits.

Open Scope list_scope.
Open Scope nat_scope.

#[local] Opaque MAX_COMPLETED_IDS MAX_DEAD_JOBS.

(** ** Lists updated in place *)
Section Lists.
Context {A : Type}.

Lemma delete_alter (f : A -> A) (i : nat) (l : list A) : delete i (alter f i l) = delete i l.
Proof. revert i. induction l as [|x l IH]; intros [|i]; cbn; [done..|]. f_equal. apply IH. Qed.

Lemma delete_insert_same (x : A) (i : nat) (l : list A) : delete i (<[i := x]> l) = delete i l.
Proof. revert i. induction l as [|y l IH]; intros [|i]; cbn; [done..|]. f_equal. apply IH. Qed.

Lemma map_alter_same {B : Type} (g : A -> B) (f : A -> A) (i : nat) (l : list A) :
  (forall x, g (f x) = g x) -> map g (alter f i l) = map g l.
Proof.
  intros H. revert i. induction l as [|x l IH]; intros [|i]; cbn; [done..| |].
  - now rewrite H.
  - f_equal. apply IH.
Qed.

Lemma insert_Permutation (x : A) (i : nat) (l : list A) : i < length l ->
  <[i := x]> l ≡ₚ x :: delete i l.
Proof.
  intros Hi. rewrite (delete_Permutation (<[i := x]> l) i x) by (by apply list_lookup_insert_eq).
  by rewrite delete_insert_same.
Qed.

Lemma delete_app_lt (i : nat) (l k : list A) : i < length l -> delete i (l ++ k) = delete i l ++ k.
Proof.
  revert i. induction l as [|x l IH]; intros [|i] Hi; cbn in *; [lia..|done|]. f_equal. apply IH. lia.
Qed.

Lemma keep_last_suffix (n : nat) (l : list A) : exists a, l = a ++ keep_last n l.
Proof. exists (take (length l - n) l). unfold keep_last. by rewrite take_drop. Qed.

Lemma keep_last_length (n : nat) (l : list A) : length (keep_last n l) <= n.
Proof. unfold keep_last. rewrite length_drop. lia. Qed.

Lemma keep_last_all (n : nat) (l : list A) : length l <= n -> keep_last n l = l.
Proof. intros H. unfold keep_last. by replace (length l - n) with 0 by lia. Qed.
End Lists.

Section Proofs.
Context {T : Type}.
Implicit Types (s : QueueState T) (q : Queue T) (o : QueueOptions).

(** ** The invariant *)

(** Every id the queue knows. *)
Definition ids s : list string :=
  map job_id (jobs s) ++ completedIds s ++ map (fun d => job_id (dead_job d)) (dead s).

Record wf s : Prop := {
  wf_ids : NoDup (ids s);
  wf_completed : length (completedIds s) <= MAX_COMPLETED_IDS;
  wf_dead : length (dead s) <= MAX_DEAD_JOBS
}.

Record queue_ok q : Prop := {
  ok_memory : wf (state q);
  ok_file : wf (load (file q));
  ok_flight : forall i, inFlight q = Some i -> i < length (jobs (state q))
}.

Lemma seen_ids (id : string) s : seen id s = false <-> id ∉ ids s.
Proof.
  unfold seen, ids. rewrite !not_elem_of_app, !orb_false_iff, !bool_decide_eq_false. tauto.
Qed.

Lemma seen_ids_true (id : string) s : seen id s = true <-> id ∈ ids s.
Proof.
  unfold seen, ids. rewrite !elem_of_app, !orb_true_iff, !bool_decide_eq_true. tauto.
Qed.

Lemma load_saved s : load (saved s) = s.
Proof. by destruct s. Qed.

Lemma persist_ok (w : bool) q : wf (state q) -> wf (load (file q)) -> wf (load (file (persist w q))).
Proof.
  intros Hm Hf. destruct w; [|done]. change (wf (load (saved (state q)))). by rewrite load_saved.
Qed.

Lemma current_lookup q job : current q = Some job ->
  exists i, inFlight q = Some i /\ jobs (state q) !! i = Some job.
Proof. unfold current. destruct (inFlight q) as [i|]; [|done]. cbn. eauto. Qed.

Lemma pump_begin_inv now q job q' : pump_begin now q = (Some job, q') ->
  exists i j, inFlight q = None /\ jobs (state q) !! i = Some j /\ job = count_attempt j
    /\ q' = mkQueue (mkState (alter count_attempt i (jobs (state q))) (completedIds (state q))
                       (dead (state q))) (file q) (Some i) (stopped q).
Proof.
  unfold pump_begin, dueIndex.
  destruct (list_find (due now) (jobs (state q))) as [[i j]|] eqn:Hd; cbn; [|done].
  destruct (inFlight q) eqn:Hi; [done|]. intros [= Hj <-].
  apply list_find_Some in Hd as (Hl & _ & _).
  exists i, j. cbn in Hj. rewrite list_lookup_alter_eq, Hl in Hj. by injection Hj as <-.
Qed.

(** The state a finished attempt leaves. *)
Definition after_done s (i : nat) (job : PersistedJob T) : QueueState T :=
  mkState (delete i (jobs s)) (keep_last MAX_COMPLETED_IDS (completedIds s ++ [job_id job])) (dead s).

Definition after_dead s (i : nat) (job : PersistedJob T) (message : string) : QueueState T :=
  let dead' := dead s ++ [mkDead job message] in
  mkState (delete i (jobs s)) (completedIds s) (if MAX_DEAD_JOBS <? length dead' then tail dead' else dead').

Definition retried o (now : Z) (message : string) (job : PersistedJob T) : PersistedJob T :=
  mkJob (job_id job) (payload job) (attempts job) (now + backoff o (attempts job))%Z (Some message).

Definition after_failed o (now : Z) (message : string) s (i : nat) (job : PersistedJob T) : QueueState T :=
  if maxAttempts o <=? attempts job then after_dead s i job message
  else mkState (<[i := retried o now message job]> (jobs s)) (completedIds s) (dead s).

Lemma pump_done_eq (w : bool) q i job : inFlight q = Some i -> jobs (state q) !! i = Some job ->
  pump_done w q = set_inFlight None (persist w (set_state (after_done (state q) i job) q)).
Proof. intros Hi Hj. unfold pump_done. by rewrite Hi, Hj. Qed.

Lemma pump_failed_eq o (w : bool) now message q i job :
  inFlight q = Some i -> jobs (state q) !! i = Some job ->
  pump_failed o w now message q
  = set_inFlight None (persist w (set_state (after_failed o now message (state q) i job) q)).
Proof. intros Hi Hj. unfold pump_failed. by rewrite Hi, Hj. Qed.

(** Dropping known ids keeps a state well formed. *)
Lemma wf_forget s s' (forgotten : list string) : wf s -> ids s ≡ₚ forgotten ++ ids s' ->
  length (completedIds s') <= MAX_COMPLETED_IDS -> length (dead s') <= MAX_DEAD_JOBS -> wf s'.
Proof.
  intros [Hn _ _] Hp Hc Hd. split; [|done..]. rewrite Hp in Hn. by apply NoDup_app in Hn as (_ & _ & ?).
Qed.

Lemma ids_after_done s i job : jobs s !! i = Some job ->
  exists forgotten, ids s ≡ₚ forgotten ++ ids (after_done s i job).
Proof.
  intros Hj. destruct (keep_last_suffix MAX_COMPLETED_IDS (completedIds s ++ [job_id job])) as [a Ha].
  exists a. unfold ids, after_done. cbn [jobs completedIds dead].
  rewrite (delete_Permutation (jobs s) i job Hj) at 1. cbn [map].
  transitivity (map job_id (delete i (jobs s)) ++ (completedIds s ++ [job_id job])
                ++ map (fun d => job_id (dead_job d)) (dead s)); [solve_Permutation|].
  rewrite Ha at 1. solve_Permutation.
Qed.

Lemma ids_after_dead s i job message : jobs s !! i = Some job ->
  exists forgotten, ids s ≡ₚ forgotten ++ ids (after_dead s i job message).
Proof.
  intros Hj. unfold ids, after_dead. cbv zeta. cbn [jobs completedIds dead].
  set (dead' := dead s ++ [mkDead job message]).
  assert (H : ids s ≡ₚ map job_id (delete i (jobs s)) ++ completedIds s
                       ++ map (fun d => job_id (dead_job d)) dead').
  { unfold ids, dead'. rewrite (delete_Permutation (jobs s) i job Hj) at 1.
    rewrite map_app. cbn [map dead_job]. solve_Permutation. }
  destruct (_ <? _); [|exists []; exact H].
  destruct dead' as [|d l] eqn:E; [exists []; exact H|]. exists [job_id (dead_job d)].
  unfold ids in H. rewrite H. cbn [map tail]. solve_Permutation.
Qed.

Lemma wf_after_done s i job : wf s -> jobs s !! i = Some job -> wf (after_done s i job).
Proof.
  intros Hs Hj. destruct (ids_after_done s i job Hj) as [a Ha].
  apply (wf_forget s _ a Hs Ha); cbn; [apply keep_last_length|apply Hs].
Qed.

Lemma trim_dead (l : list (DeadJob T)) : length l <= S MAX_DEAD_JOBS ->
  length (if MAX_DEAD_JOBS <? length l then tail l else l) <= MAX_DEAD_JOBS.
Proof.
  intros H. destruct (Nat.ltb_spec MAX_DEAD_JOBS (length l)); [|done]. destruct l; cbn [length tail] in *; lia.
Qed.

Lemma wf_after_failed o now message s i job : wf s -> jobs s !! i = Some job ->
  wf (after_failed o now message s i job).
Proof.
  intros Hs Hj. unfold after_failed. destruct (_ <=? _).
  - destruct (ids_after_dead s i job message Hj) as [a Ha].
    apply (wf_forget s _ a Hs Ha); cbn; [apply Hs|]. apply trim_dead.
    rewrite length_app. cbn [length]. pose proof (wf_dead _ Hs). lia.
  - apply (wf_forget s _ [] Hs); cbn; [|apply Hs..]. unfold ids. cbn [jobs completedIds dead app].
    rewrite insert_Permutation by (by eapply lookup_lt_Some).
    rewrite (delete_Permutation (jobs s) i job Hj) at 1. done.
Qed.

Lemma settled_ok (w : bool) q s : wf (load (file q)) -> wf s ->
  queue_ok (set_inFlight None (persist w (set_state s q))).
Proof. intros Hf Hs. split; [done|exact (persist_ok w (set_state s q) Hs Hf)|done]. Qed.

Lemma step_ok o q l q' : queue_ok q -> step o q l q' -> queue_ok q'.
Proof.
  intros [Hm Hf Hi] Hstep. destruct Hstep as [now id p w b q' He|now job q' _ Hp|w job Hc|w now msg job Hc| | |].
  - unfold enqueue in He. destruct (seen id (state q)) eqn:Hseen; injection He as <- <-; [done|].
    assert (Hwf : wf (mkState (jobs (state q) ++ [mkJob id p 0 now None]) (completedIds (state q))
                        (dead (state q)))).
    { split; cbn; [|apply Hm..]. unfold ids. cbn [jobs completedIds dead]. rewrite map_app. cbn [map].
      apply seen_ids in Hseen. apply (NoDup_Permutation_proper _ (id :: ids (state q))).
      - unfold ids. solve_Permutation.
      - constructor; [done|apply Hm]. }
    split; [done|by apply persist_ok|]. cbn. intros i Hfl. rewrite length_app. specialize (Hi i Hfl). lia.
  - apply pump_begin_inv in Hp as (i & j & Hn & Hj & -> & ->). split; cbn; [|done|].
    + apply (wf_forget (state q) _ [] Hm); cbn; [|apply Hm..]. unfold ids. cbn [jobs completedIds dead].
      by rewrite map_alter_same.
    + intros k [= <-]. rewrite length_alter. by eapply lookup_lt_Some.
  - apply current_lookup in Hc as (i & Hfl & Hj). rewrite (pump_done_eq w q i job Hfl Hj).
    pose proof (wf_after_done _ _ _ Hm Hj). by apply settled_ok.
  - apply current_lookup in Hc as (i & Hfl & Hj). rewrite (pump_failed_eq o w now msg q i job Hfl Hj).
    pose proof (wf_after_failed o now msg _ _ _ Hm Hj). by apply settled_ok.
  - unfold start. destruct (negb _); [done|]. by split.
  - by split.
  - split; cbn; done.
Qed.

Lemma steps_ok o q tr q' : queue_ok q -> steps o q tr q' -> queue_ok q'.
Proof. intros Hq Hs. induction Hs; [done|]. eauto using step_ok. Qed.

Lemma new_queue_ok (f : Journal T) : wf (load f) -> queue_ok (new_queue f).
Proof. intros Hf. by split. Qed.

(** ** How often a job is dispatched *)
Section Bound.
Context (o : QueueOptions) (id : string).
Hypothesis Hmax : 1 <= maxAttempts o.

(** The dispatches a waiting job can still get without a restart, and the job in flight. *)
Definition waiting (job : PersistedJob T) : nat :=
  if decide (job_id job = id) then Nat.max 1 (maxAttempts o - attempts job) else 0.
Definition flying (job : PersistedJob T) : nat :=
  if decide (job_id job = id) then maxAttempts o - attempts job else 0.

Definition remaining q : nat :=
  match inFlight q with
  | Some i =>
      match jobs (state q) !! i with
      | Some job => flying job + sum_list_with waiting (delete i (jobs (state q)))
      | None => sum_list_with waiting (jobs (state q))
      end
  | None => sum_list_with waiting (jobs (state q))
  end.

(** What is on disk: the memory, or the memory before the attempt in flight was counted. *)
Definition synced q : Prop :=
  load (file q) = state q \/
  exists i, inFlight q = Some i /\
    state q = mkState (alter count_attempt i (jobs (load (file q)))) (completedIds (load (file q)))
                (dead (load (file q))).

Definition written (l : Label) : bool :=
  match l with Enqueued _ true w | Succeeded _ w | Failed _ w => w | _ => true end.

Definition dispatches (l : Label) : nat :=
  match l with Dispatched i => if decide (i = id) then 1 else 0 | _ => 0 end.
Definition acceptances (l : Label) : nat :=
  match l with Enqueued i true _ => if decide (i = id) then 1 else 0 | _ => 0 end.
Definition restarts (l : Label) : nat := match l with Restarted => 1 | _ => 0 end.

Lemma waiting_at (l : list (PersistedJob T)) i job : l !! i = Some job ->
  sum_list_with waiting l = waiting job + sum_list_with waiting (delete i l).
Proof. intros H. by rewrite (delete_Permutation l i job H) at 1. Qed.

Lemma waiting_begin job : waiting job = (if decide (job_id job = id) then 1 else 0) + flying (count_attempt job).
Proof. unfold waiting, flying. cbn. destruct (decide _); lia. Qed.

Lemma waiting_le_flying job : waiting job <= 1 + flying job.
Proof. unfold waiting, flying. destruct (decide _); lia. Qed.

Lemma remaining_at q i job : inFlight q = Some i -> jobs (state q) !! i = Some job ->
  remaining q = flying job + sum_list_with waiting (delete i (jobs (state q))).
Proof. intros Hi Hj. unfold remaining. by rewrite Hi, Hj. Qed.

Lemma remaining_settled (w : bool) q s :
  remaining (set_inFlight None (persist w (set_state s q))) = sum_list_with waiting (jobs s).
Proof. done. Qed.

Lemma after_failed_remaining now message s i job : jobs s !! i = Some job ->
  sum_list_with waiting (jobs (after_failed o now message s i job))
  <= flying job + sum_list_with waiting (delete i (jobs s)).
Proof.
  intros Hj. unfold after_failed. destruct (Nat.leb_spec (maxAttempts o) (attempts job)); cbn [jobs]; [cbn; lia|].
  rewrite insert_Permutation by (by eapply lookup_lt_Some). cbn [sum_list_with].
  unfold waiting at 1, flying. cbn. destruct (decide _); lia.
Qed.

Lemma restart_remaining q : queue_ok q -> synced q -> remaining (restart q) <= remaining q + 1.
Proof.
  intros [_ _ Hfl] Hs. change (remaining (restart q)) with (sum_list_with waiting (jobs (load (file q)))).
  destruct Hs as [-> | (i & Hi & Hst)].
  - unfold remaining. destruct (inFlight q) as [i|] eqn:Hi; [|lia].
    destruct (jobs (state q) !! i) as [job|] eqn:Hj; [|lia].
    rewrite (waiting_at _ _ _ Hj). pose proof (waiting_le_flying job). lia.
  - pose proof (Hfl i Hi) as Hlt. rewrite Hst in Hlt. cbn in Hlt. rewrite length_alter in Hlt.
    destruct (lookup_lt_is_Some_2 _ _ Hlt) as [job Hj].
    assert (Hj' : jobs (state q) !! i = Some (count_attempt job)).
    { rewrite Hst. cbn. by rewrite list_lookup_alter_eq, Hj. }
    rewrite (remaining_at q i _ Hi Hj'), (waiting_at _ _ _ Hj), waiting_begin, Hst. cbn [jobs].
    rewrite delete_alter. destruct (decide _); lia.
Qed.

Lemma synced_settled q s : synced (set_inFlight None (persist true (set_state s q))).
Proof. left. exact (load_saved s). Qed.

Lemma step_bound q l q' : queue_ok q -> synced q -> step o q l q' -> written l = true ->
  synced q' /\ dispatches l + remaining q' <= remaining q + maxAttempts o * acceptances l + restarts l.
Proof.
  intros Hok Hs Hstep Hw.
  destruct Hstep as [now i p w b q' He|now job q' _ Hp|w job Hc|w now msg job Hc| | |].
  - unfold enqueue in He. destruct (seen i (state q)); injection He as <- <-; [cbn; split; [done|lia]|].
    cbn in Hw. subst w. split; [left; apply load_saved|]. cbn [dispatches acceptances restarts].
    unfold remaining. cbn [persist inFlight state set_state jobs].
    assert (Hnew : waiting (mkJob i p 0 now None) = maxAttempts o * (if decide (i = id) then 1 else 0)).
    { unfold waiting. cbn. destruct (decide _); lia. }
    destruct (inFlight q) as [k|] eqn:Hk; [|rewrite sum_list_with_app; cbn; lia].
    pose proof (ok_flight _ Hok k Hk) as Hlt. destruct (lookup_lt_is_Some_2 _ _ Hlt) as [job Hj].
    rewrite lookup_app_l, Hj by done. rewrite delete_app_lt by done. rewrite sum_list_with_app. cbn. lia.
  - apply pump_begin_inv in Hp as (i & j & Hn & Hj & -> & ->). split.
    + right. exists i. split; [done|]. destruct Hs as [E | (k & Hk & _)]; [|congruence]. cbn. by rewrite E.
    + rewrite (remaining_at _ i (count_attempt j)); cbn [inFlight state jobs];
        [|done|by rewrite list_lookup_alter_eq, Hj].
      unfold remaining. rewrite Hn, delete_alter, (waiting_at _ _ _ Hj), waiting_begin. cbn. lia.
  - apply current_lookup in Hc as (i & Hfl & Hj). cbn in Hw. subst w.
    rewrite (pump_done_eq true q i job Hfl Hj). split; [apply synced_settled|].
    rewrite remaining_settled, (remaining_at q i job Hfl Hj). cbn. lia.
  - apply current_lookup in Hc as (i & Hfl & Hj). cbn in Hw. subst w.
    rewrite (pump_failed_eq o true now msg q i job Hfl Hj). split; [apply synced_settled|].
    rewrite remaining_settled, (remaining_at q i job Hfl Hj).
    pose proof (after_failed_remaining now msg (state q) i job Hj). cbn. lia.
  - unfold start. destruct (negb _); cbn; (split; [done|unfold remaining; cbn; lia]).
  - split; [done|]. unfold remaining. cbn. lia.
  - split; [by left|]. cbn [dispatches acceptances restarts]. pose proof (restart_remaining q Hok Hs). lia.
Qed.

Lemma steps_bound q tr q' : queue_ok q -> synced q -> steps o q tr q' -> Forall (fun l => written l = true) tr ->
  synced q' /\ sum_list_with dispatches tr + remaining q'
    <= remaining q + maxAttempts o * sum_list_with acceptances tr + sum_list_with restarts tr.
Proof.
  intros Hok Hs Hst. induction Hst as [q|q tr q' l q'' Hst IH Hstep]; intros Hw.
  - split; [done|]. cbn. lia.
  - apply Forall_app in Hw as [Hw Hl]. apply Forall_cons_1 in Hl as [Hl _]. destruct (IH Hok Hs Hw) as [Hs' Hb].
    destruct (step_bound q' l q'' (steps_ok o q tr q' Hok Hst) Hs' Hstep Hl) as [Hs'' Hb']. split; [done|].
    rewrite !sum_list_with_app. cbn. lia.
Qed.
End Bound.
End Proofs.

(** * The guarantees of the durable queue *)

Open Scope list_scope.
Open Scope nat_scope.

#[local] Opaque MAX_COMPLETED_IDS MAX_DEAD_JOBS.

(** C8: In every state the queue can reach from a well-formed journal, through any interleaving of
    enqueues, attempts, failed writes, stops and crashes, the ids of its waiting, completed and dead jobs
    are pairwise distinct, its histories stay within their limits, the journal on disk is well formed
    too, and a job is accepted exactly when its id is not known. *)
Theorem queue_invariant {T : Type} (o : QueueOptions) (f : Journal T) (Hf : wf (load f)) (tr : list Label)
    (q : Queue T) (Hq : steps o (new_queue f) tr q) :
  NoDup (ids (state q)) /\ length (completedIds (state q)) <= MAX_COMPLETED_IDS
  /\ length (dead (state q)) <= MAX_DEAD_JOBS /\ wf (load (file q))
  /\ forall w now id p, fst (enqueue w now id p q) = true <-> id ∉ ids (state q).
Proof.
  destruct (steps_ok o _ tr q (new_queue_ok f Hf) Hq) as [[Hn Hc Hd] Hfile _].
  repeat (split; [done|]). intros w now id p. rewrite <- seen_ids. unfold enqueue.
  by destruct (seen id (state q)).
Qed.

(** C13: A job accepted once is dispatched at most [maxAttempts] times, and at most once more for each
    restart, as long as the journal can be written. *)
Theorem dispatch_bound {T : Type} (o : QueueOptions) (Hmax : 1 <= maxAttempts o) (id : string)
    (tr : list Label) (q : Queue T) (Hq : steps o (new_queue Missing) tr q)
    (Hw : Forall (fun l => written l = true) tr) :
  sum_list_with (dispatches id) tr
  <= maxAttempts o * sum_list_with (acceptances id) tr + sum_list_with restarts tr.
Proof.
  assert (Hf : wf (load (@Missing T))) by (split; cbn; [constructor|lia|lia]).
  destruct (steps_bound o id Hmax _ tr q (new_queue_ok _ Hf) (or_introl eq_refl) Hq Hw) as [_ H].
  cbn in H. lia.
Qed.

(** ** A queue left alone empties *)

(** An attempt: when it begins and ends, and the error of the handler. *)
Record Cycle : Type := mkCycle { begins : Z; ends : Z; handler_error : option string }.

Definition run_cycle {T : Type} (o : QueueOptions) (c : Cycle) (q : Queue T) : Queue T :=
  match pump_begin (begins c) q with
  | (None, q) => q
  | (Some _, q) =>
      match handler_error c with
      | None => pump_done true q
      | Some e => pump_failed o true (ends c) e q
      end
  end.

Definition run_cycles {T : Type} (o : QueueOptions) (l : list Cycle) (q : Queue T) : Queue T :=
  foldl (fun q c => run_cycle o c q) q l.

(** Attempts far enough apart for every backoff to have passed. *)
Fixpoint spaced (o : QueueOptions) (from : Z) (l : list Cycle) : Prop :=
  match l with
  | [] => True
  | c :: l => (from <= begins c <= ends c)%Z /\ spaced o (ends c + retryMaxBackoffMs o) l
  end.

Section Drain.
Context {T : Type} (o : QueueOptions).
Hypothesis Hbackoff : (0 <= retryMaxBackoffMs o)%Z.
Implicit Types (s : QueueState T) (q : Queue T).

Definition attempts_left (job : PersistedJob T) : nat := Nat.max 1 (maxAttempts o - attempts job).
Definition measure s : nat := sum_list_with attempts_left (jobs s).
Definition all_due (now : Z) s : Prop := Forall (due now) (jobs s).

(** Room in the histories for every waiting job. *)
Definition roomy s : Prop :=
  length (jobs s) + length (completedIds s) <= MAX_COMPLETED_IDS
  /\ length (jobs s) + length (dead s) <= MAX_DEAD_JOBS.

Lemma all_due_mono (t t' : Z) s : (t <= t')%Z -> all_due t s -> all_due t' s.
Proof. intros Ht H. eapply Forall_impl; [exact H|]. unfold due. intros; lia. Qed.

Lemma backoff_le (n : nat) : (backoff o n <= retryMaxBackoffMs o)%Z.
Proof. apply Z.le_min_r. Qed.

(** The state after an attempt at the job of index [i], already counted. *)
Definition cycle_state (c : Cycle) s (i : nat) (job : PersistedJob T) : QueueState T :=
  match handler_error c with
  | None => after_done s i job
  | Some e => after_failed o (ends c) e s i job
  end.

Definition counted s (i : nat) : QueueState T :=
  mkState (alter count_attempt i (jobs s)) (completedIds s) (dead s).

Lemma run_cycle_eq (c : Cycle) q : inFlight q = None -> jobs (state q) <> [] ->
  all_due (begins c) (state q) ->
  exists i job, jobs (state q) !! i = Some job
    /\ inFlight (run_cycle o c q) = None
    /\ state (run_cycle o c q) = cycle_state c (counted (state q) i) i (count_attempt job).
Proof.
  intros Hi Hne Hdue. destruct (jobs (state q)) as [|j0 l] eqn:Ej; [done|].
  unfold all_due in Hdue. rewrite Ej in Hdue.
  assert (Hpump : exists q', pump_begin (begins c) q = (Some (count_attempt j0), q')
             /\ inFlight q' = Some 0 /\ state q' = counted (state q) 0
             /\ jobs (state q') !! 0 = Some (count_attempt j0)).
  { unfold pump_begin, dueIndex. rewrite Ej, Hi. cbn [list_find].
    apply Forall_cons_1 in Hdue as [Hd _]. rewrite decide_True by done. cbn.
    eexists. split; [done|]. unfold counted. by rewrite Ej. }
  destruct Hpump as (q' & Hp & Hfl & Hst & Hl). exists 0, j0. split; [done|].
  unfold run_cycle, cycle_state. rewrite Hp, <- Hst. destruct (handler_error c) as [e|].
  - by rewrite (pump_failed_eq o true (ends c) e q' 0 _ Hfl Hl).
  - by rewrite (pump_done_eq true q' 0 _ Hfl Hl).
Qed.

Lemma measure_at s i job : jobs s !! i = Some job ->
  measure s = attempts_left job + sum_list_with attempts_left (delete i (jobs s)).
Proof. intros H. unfold measure. by rewrite (delete_Permutation _ i job H) at 1. Qed.

Lemma cycle_measure (c : Cycle) s i job : jobs s !! i = Some job ->
  measure (cycle_state c (counted s i) i (count_attempt job)) < measure s.
Proof.
  intros Hj. rewrite (measure_at s i job Hj). unfold cycle_state, measure.
  assert (Hpos : 1 <= attempts_left job) by (unfold attempts_left; lia).
  assert (Hdel : delete i (jobs (counted s i)) = delete i (jobs s)) by apply delete_alter.
  destruct (handler_error c) as [e|]; [|unfold after_done; cbn [jobs]; rewrite Hdel; lia].
  unfold after_failed. destruct (Nat.leb_spec (maxAttempts o) (attempts (count_attempt job))).
  - unfold after_dead. cbn [jobs]. rewrite Hdel. lia.
  - cbn [jobs]. rewrite insert_Permutation, Hdel.
    + cbn [sum_list_with]. unfold attempts_left at 1 3. cbn in *. lia.
    + unfold counted. cbn [jobs]. rewrite length_alter. by eapply lookup_lt_Some.
Qed.

Lemma counted_lookup s i job : jobs s !! i = Some job -> jobs (counted s i) !! i = Some (count_attempt job).
Proof. intros Hj. cbn. by rewrite list_lookup_alter_eq, Hj. Qed.

Lemma counted_ids s i : ids (counted s i) = ids s.
Proof. unfold ids, counted. cbn [jobs completedIds dead]. by rewrite map_alter_same. Qed.

Lemma delete_due (t : Z) s i : all_due t s -> Forall (due t) (delete i (jobs s)).
Proof. intros H. rewrite delete_take_drop. apply Forall_app. split; [by apply Forall_take|by apply Forall_drop]. Qed.

Lemma cycle_due (c : Cycle) s i job : jobs s !! i = Some job -> (begins c <= ends c)%Z ->
  all_due (begins c) s ->
  all_due (ends c + retryMaxBackoffMs o) (cycle_state c (counted s i) i (count_attempt job)).
Proof.
  intros Hj Ht Hd. apply (all_due_mono _ (ends c + retryMaxBackoffMs o)) in Hd; [|lia].
  assert (Hdel : Forall (due (ends c + retryMaxBackoffMs o)) (delete i (jobs (counted s i)))).
  { unfold counted. cbn [jobs]. rewrite delete_alter. by apply delete_due. }
  unfold cycle_state, all_due. destruct (handler_error c) as [e|]; [|exact Hdel].
  unfold after_failed. destruct (_ <=? _); [exact Hdel|]. cbn [jobs].
  rewrite insert_Permutation by (eapply lookup_lt_Some; by apply counted_lookup).
  apply Forall_cons. split; [|exact Hdel]. unfold due, retried. cbn [nextAttemptAtMs].
  pose proof (backoff_le (attempts (count_attempt job))). lia.
Qed.

Lemma length_delete_at s i job : jobs s !! i = Some job ->
  length (jobs s) = S (length (delete i (jobs s))).
Proof. intros H. by rewrite (delete_Permutation _ i job H) at 1. Qed.

Lemma cycle_ids (c : Cycle) s i job : jobs s !! i = Some job -> roomy s ->
  roomy (cycle_state c (counted s i) i (count_attempt job))
  /\ ids (cycle_state c (counted s i) i (count_attempt job)) ≡ₚ ids s.
Proof.
  intros Hj [Hc Hd]. pose proof (counted_lookup s i job Hj) as Hj'.
  pose proof (length_delete_at (counted s i) i _ Hj') as Hlen.
  assert (Hl : length (jobs (counted s i)) = length (jobs s)) by (cbn; by rewrite length_alter).
  rewrite Hl in Hlen. rewrite <- (counted_ids s i). unfold roomy, cycle_state.
  destruct (handler_error c) as [e|]; [|].
  - unfold after_failed. destruct (_ <=? _).
    + unfold after_dead. cbv zeta.
      assert (Hle : (MAX_DEAD_JOBS <? length (dead (counted s i) ++ [mkDead (count_attempt job) e])) = false).
      { apply Nat.ltb_ge. rewrite length_app. cbn. lia. }
      rewrite Hle. cbn [jobs completedIds dead]. split; [rewrite length_app; cbn; cbn in Hlen; lia|].
      unfold ids. cbn [jobs completedIds dead].
      rewrite (delete_Permutation (jobs (counted s i)) i _ Hj') at 2. rewrite map_app.
      cbn [map dead_job]. solve_Permutation.
    + cbn [jobs completedIds dead]. rewrite length_insert, Hl. split; [done|].
      unfold ids. cbn [jobs completedIds dead]. rewrite insert_Permutation by (by eapply lookup_lt_Some).
      by rewrite (delete_Permutation (jobs (counted s i)) i _ Hj') at 2.
  - unfold after_done. rewrite keep_last_all by (rewrite length_app; cbn; lia).
    cbn [jobs completedIds dead]. split; [rewrite length_app; cbn; cbn in Hlen; lia|].
    unfold ids. cbn [jobs completedIds dead].
    rewrite (delete_Permutation (jobs (counted s i)) i _ Hj') at 2. cbn [map]. solve_Permutation.
Qed.

Lemma run_cycle_empty (c : Cycle) q : jobs (state q) = [] -> run_cycle o c q = q.
Proof. intros E. unfold run_cycle, pump_begin, dueIndex. by rewrite E. Qed.

Lemma run_cycles_empty (l : list Cycle) q : jobs (state q) = [] -> run_cycles o l q = q.
Proof.
  intros E. induction l as [|c l IH]; [done|]. cbn. by rewrite run_cycle_empty.
Qed.

Lemma drain (l : list Cycle) (t : Z) q : inFlight q = None -> all_due t (state q) -> spaced o t l ->
  measure (state q) <= length l ->
  let q' := run_cycles o l q in
  inFlight q' = None /\ jobs (state q') = [] /\ (roomy (state q) -> ids (state q') ≡ₚ ids (state q)).
Proof.
  revert t q. induction l as [|c l IH]; intros t q Hi Hd Hs Hm; cbv zeta.
  - assert (E : jobs (state q) = []).
    { unfold measure in Hm. destruct (jobs (state q)); [done|]. cbn in Hm. unfold attempts_left in Hm. lia. }
    cbn. by rewrite E.
  - destruct (decide (jobs (state q) = [])) as [E|Hne]; [by rewrite run_cycles_empty|].
    destruct Hs as [Ht Hs]. apply (all_due_mono _ (begins c)) in Hd; [|lia].
    destruct (run_cycle_eq c q Hi Hne Hd) as (i & job & Hj & Hi' & Hst).
    pose proof (cycle_measure c _ i job Hj) as Hlt. rewrite <- Hst in Hlt.
    pose proof (cycle_due c _ i job Hj (proj2 Ht) Hd) as Hd'. rewrite <- Hst in Hd'.
    destruct (IH _ (run_cycle o c q) Hi' Hd' Hs) as (H1 & H2 & H3); [cbn in Hm; lia|].
    split; [done|]. split; [done|]. intros Hr. destruct (cycle_ids c _ i job Hj Hr) as [Hr' Hp].
    rewrite <- Hst in Hr', Hp. change (run_cycles o (c :: l) q) with (run_cycles o l (run_cycle o c q)).
    by rewrite H3.
Qed.
End Drain.

(** C35: A queue left alone empties: after as many attempts as its jobs have left, begun when every backoff
    has passed and whatever each handler call returns, no job waits any more; and if the histories have
    room for them no id is lost: every job is completed or dead. *)
Theorem queue_drains {T : Type} (o : QueueOptions) (Hbackoff : (0 <= retryMaxBackoffMs o)%Z) (q : Queue T)
    (Hi : inFlight q = None) (t : Z) (Hd : all_due t (state q)) (l : list Cycle) (Hs : spaced o t l)
    (Hm : measure o (state q) <= length l) :
  jobs (state (run_cycles o l q)) = []
  /\ (roomy (state q) -> ids (state (run_cycles o l q)) ≡ₚ ids (state q)).
Proof. by destruct (drain o Hbackoff l t q Hi Hd Hs Hm) as (_ & H1 & H2). Qed.

(** A failed attempt, on both branches: the last one allowed moves the job to the dead letters with the
    error; any other keeps it in place, with the error and a next attempt after the backoff
    [min (base * 2^(n-1), cap)], before which no pump takes it. *)
Theorem failed_attempt {T : Type} (o : QueueOptions) (w : bool) (now : Z) (message : string) (q : Queue T)
    (job : PersistedJob T) (Hc : current q = Some job)
    (Hroom : length (dead (state q)) < MAX_DEAD_JOBS) :
  let s := state (pump_failed o w now message q) in
  inFlight (pump_failed o w now message q) = None /\ completedIds s = completedIds (state q) /\
  if maxAttempts o <=? attempts job then
    jobs (state q) ≡ₚ job :: jobs s /\ dead s = dead (state q) ++ [mkDead job message]
  else
    dead s = dead (state q) /\ exists i job', jobs s = <[i := job']> (jobs (state q))
      /\ jobs (state q) !! i = Some job /\ job_id job' = job_id job /\ payload job' = payload job
      /\ attempts job' = attempts job /\ lastError job' = Some message
      /\ forall t, (t < now + Z.min (retryBaseMs o * 2 ^ (Z.of_nat (attempts job) - 1)) (retryMaxBackoffMs o))%Z
           -> ¬ due t job'.
Proof.
  apply current_lookup in Hc as (i & Hi & Hj). cbv zeta. rewrite (pump_failed_eq o w now message q i job Hi Hj).
  split; [done|]. cbn [state set_inFlight persist set_state]. unfold after_failed.
  destruct (maxAttempts o <=? attempts job).
  - split; [done|]. cbn [jobs dead after_dead]. split; [by apply delete_Permutation|].
    assert (Hle : (MAX_DEAD_JOBS <? length (dead (state q) ++ [mkDead job message])) = false).
    { apply Nat.ltb_ge. rewrite length_app. cbn. lia. }
    unfold after_dead. cbv zeta. by rewrite Hle.
  - split; [done|]. split; [done|]. exists i, (retried o now message job).
    repeat (split; [done|]). intros t Ht. unfold due, retried, backoff. cbn [nextAttemptAtMs]. lia.
Qed.

(** The count of an attempt is not written before the handler runs: a crash during an attempt brings the
    job back as it was before, however often that happens. *)
Theorem crash_forgets_attempt {T : Type} (now : Z) (q : Queue T) (job : PersistedJob T) (q' : Queue T)
    (Hsync : load (file q) = state q) (Hp : pump_begin now q = (Some job, q')) :
  state (restart q') = state q /\ inFlight (restart q') = None.
Proof.
  apply pump_begin_inv in Hp as (i & j & Hn & Hj & -> & ->). split; [|done].
  by rewrite <- Hsync.
Qed.

(** ** Witnesses *)

Definition demo_options : QueueOptions := mkOptions 2 500 30000.
Definition demo_1 : Queue nat := snd (enqueue true 0 "a" 7 (start (new_queue Missing))).
Definition demo_2 : Queue nat := snd (pump_begin 0 demo_1).
Definition demo_3 : Queue nat := restart demo_2.
Definition demo_trace : list Label :=
  [] ++ [Started] ++ [Enqueued "a" true true] ++ [Dispatched "a"] ++ [Restarted].

Lemma demo_max : 1 <= maxAttempts demo_options.
Proof. apply le_S, le_n. Qed.
Lemma demo_backoff : (0 <= retryMaxBackoffMs demo_options)%Z.
Proof. discriminate. Qed.

Lemma demo_steps : steps demo_options (new_queue Missing) demo_trace demo_3.
Proof.
  unfold demo_trace. rewrite !app_assoc.
  eapply steps_snoc; [eapply steps_snoc; [eapply steps_snoc; [eapply steps_snoc; [apply steps_nil|]|]|]|].
  - apply step_start.
  - by eapply (step_enqueue _ _ 0 "a" 7 true).
  - by eapply (step_pump _ _ 0 (mkJob "a" 7 1 0 None)).
  - apply step_restart.
Qed.

Lemma queue_invariant_witness :
  NoDup (ids (state demo_3)) /\ length (completedIds (state demo_3)) <= MAX_COMPLETED_IDS
  /\ length (dead (state demo_3)) <= MAX_DEAD_JOBS /\ wf (load (file demo_3))
  /\ forall w now id p, fst (enqueue w now id p demo_3) = true <-> id ∉ ids (state demo_3).
Proof.
  apply (queue_invariant demo_options Missing) with (tr := demo_trace); [|exact demo_steps].
  split; cbn; [constructor|lia|lia].
Defined.

Lemma dispatch_bound_witness :
  sum_list_with (dispatches "a") demo_trace
  <= maxAttempts demo_options * sum_list_with (acceptances "a") demo_trace
     + sum_list_with restarts demo_trace.
Proof.
  apply (dispatch_bound demo_options demo_max "a" demo_trace demo_3 demo_steps).
  by repeat constructor.
Defined.

Lemma queue_drains_witness :
  let q := run_cycles demo_options [mkCycle 0 5 (Some "down"); mkCycle 40000 40001 (Some "down")] demo_3 in
  jobs (state q) = [] /\ (roomy (state demo_3) -> ids (state q) ≡ₚ ids (state demo_3)).
Proof.
  apply (queue_drains demo_options demo_backoff demo_3 eq_refl 0).
  - unfold all_due. cbn. constructor; [unfold due; cbn; lia|constructor].
  - repeat split; vm_compute; discriminate.
  - vm_compute. lia.
Defined.

Lemma failed_attempt_witness :
  let q := pump_failed demo_options true 9 "down" demo_2 in
  let s := state q in
  inFlight q = None /\ completedIds s = [] /\
  dead s = [] /\ exists i job', jobs s = <[i := job']> (jobs (state demo_2))
      /\ jobs (state demo_2) !! i = Some (mkJob "a" 7 1 0 None) /\ job_id job' = "a"%string
      /\ payload job' = 7 /\ attempts job' = 1 /\ lastError job' = Some "down"%string
      /\ forall t, (t < 9 + Z.min (500 * 2 ^ (Z.of_nat 1 - 1)) 30000)%Z -> ¬ due t job'.
Proof.
  refine (failed_attempt demo_options true 9 "down" demo_2 (mkJob "a" 7 1 0 None) eq_refl _).
  apply Nat.ltb_lt. vm_compute. reflexivity.
Defined.

Lemma crash_forgets_attempt_witness :
  state (restart demo_2) = state demo_1 /\ inFlight (restart demo_2) = None.
Proof. by apply (crash_forgets_attempt 0 demo_1 (mkJob "a" 7 1 0 None)). Defined.
