(* ===== verification/RelayNotifier.v ===== *)
(** * RelayNotifier: contacts, notifications and their delivery

    The types of relayer/types.ts, [normalizeContacts] of guardianResolver.ts, the
    boxes of relayer/crypto.ts and notifier.ts.  tweetnacl and Node's Base64
    decoder are the class [BoxCrypto]; the outcome of an HTTP POST is an argument. *)

From Stdlib Require Import Ascii String ZArith List Lia Bool.
Import ListNotations.
From S2P Require Import Prelude Bytes JsString Base64 WebCrypto JsonText EciesProofs.

Open Scope list_scope.
Open Scope string_scope.
Open Scope nat_scope.

(** ** types.ts *)

Inductive ChainId : Type := Evm | Soroban.
Definition chain_text (c : ChainId) : string := match c with Evm => "evm" | Soroban => "soroban" end.

Record AccessRequestEvent : Type := mkEvent {
  ev_id : string; ev_chain : ChainId; ev_contractId : string; ev_requestId : Z; ev_documentId : Z;
  ev_requester : string; ev_blockNumber : Z; ev_confirmedAt : string; ev_detectedAtMs : Z
}.

Record GuardianChannels : Type := mkChannels {
  pushWebhook : option string; telegramChatId : option string; email : option string
}.

Record GuardianContact : Type := mkContact {
  guardian : string; publicKey : option string; channels : option GuardianChannels
}.

Record AccessRequestNotification : Type := mkNotification {
  title : string; body : string; requestId : Z; documentId : Z; requester : string; chain : ChainId;
  contractId : string; deepLink : string; confirmedAt : string
}.

Record DispatchJob : Type := mkDispatch {
  dj_id : string; eventId : string; contact : GuardianContact; notification : AccessRequestNotification;
  encryptedPayload : option string; createdAtMs : Z
}.

(** [if (s)] of a string that may be missing. *)
Definition truthy (s : option string) : bool :=
  match s with Some s => negb (String.eqb s "") | None => false end.

(** ** guardianResolver.ts: normalizeContacts *)

Definition asString (v : option json) : option string :=
  match v with Some (JStr s) => if 0 <? String.length s then Some s else None | _ => None end.

(** The entries that are objects with a non-empty guardian. *)
Definition normalize_entry (entry : json) : list GuardianContact :=
  match entry with
  | JObj _ =>
      match asString (get_prop "guardian" entry) with
      | None => []
      | Some g =>
          let channelsRaw := match get_prop "channels" entry with
                             | None | Some JNull => JObj []
                             | Some v => v
                             end in
          [mkContact (toLowerCase g) (as_str (get_prop "publicKey" entry))
             (Some (mkChannels (asString (get_prop "pushWebhook" channelsRaw))
                      (asString (get_prop "telegramChatId" channelsRaw))
                      (asString (get_prop "email" channelsRaw))))]
      end
  | _ => []
  end.

Definition normalizeContacts (b : json) : list GuardianContact :=
  let raw := match b with
             | JArr l => l
             | _ => match get_prop "guardians" b with Some (JArr l) => l | _ => [] end
             end in
  flat_map normalize_entry raw.

(** ** crypto.ts of the relayer *)

Class BoxCrypto : Type := {
  node_base64 : string -> list Z;
  box_public : list Z -> list Z;
  box_seal : list Z -> list Z -> list Z -> list Z -> list Z;
  box_open : list Z -> list Z -> list Z -> list Z -> res (option (list Z))
}.

Definition BOX_KEY_BYTES : nat := 32.
Definition BOX_NONCE_BYTES : nat := 24.
Definition BOX_OVERHEAD_BYTES : nat := 16.

Section Boxes.
Context {W : WebCrypto} {B : BoxCrypto}.

Definition decodeBase64Key (value label : string) : res (list Z) :=
  let b := node_base64 value in
  throw_if length b =? 0 with ("Could not decode " ++ label);;
  Ok b.

(** The payload is its JSON text; the ephemeral secret and the nonce are drawn. *)
Definition encryptForGuardian (ephemeral nonce : list Z) (publicKeyB64 payload : string) : res string :=
  let! recipient := decodeBase64Key publicKeyB64 "guardian public key" in
  throw_if negb (length recipient =? BOX_KEY_BYTES) with
    ("Invalid guardian public key length: " ++ num_str (Z.of_nat (length recipient)));;
  let ciphertext := box_seal (text_encode payload) nonce recipient ephemeral in
  Ok (uint8ArrayToBase64 ([1%Z] ++ box_public ephemeral ++ nonce ++ ciphertext)).

(** The text that [JSON.parse] reads. *)
Definition decryptFromRelayer (secretKeyB64 envelopeB64 : string) : res string :=
  let! secret := decodeBase64Key secretKeyB64 "guardian secret key" in
  let envelope := node_base64 envelopeB64 in
  throw_if negb (match envelope with v :: _ => (v =? 1)%Z | [] => false end)
           || (length envelope <? 1 + BOX_KEY_BYTES + BOX_NONCE_BYTES + BOX_OVERHEAD_BYTES) with
    "Malformed encrypted envelope";;
  let ephemeralPk := firstn BOX_KEY_BYTES (skipn 1 envelope) in
  let nonce := firstn BOX_NONCE_BYTES (skipn (1 + BOX_KEY_BYTES) envelope) in
  let ciphertext := skipn (1 + BOX_KEY_BYTES + BOX_NONCE_BYTES) envelope in
  let! opened := box_open ciphertext nonce ephemeralPk secret in
  match opened with
  | None => Throw "Decryption failed"
  | Some b => Ok (text_decode b)
  end.

(** ** notifier.ts *)

Record NotifierOptions : Type := mkNotifier {
  approvalUiBaseUrl : string; telegramBotToken : option string; emailWebhookUrl : option string
}.

(** [replace(/\/+$/, "")] *)
Fixpoint strip_slashes (s : string) : string :=
  match s with
  | EmptyString => EmptyString
  | String c s' =>
      match strip_slashes s' with
      | EmptyString => if Ascii.eqb c "/" then EmptyString else String c EmptyString
      | t => String c t
      end
  end.

Definition buildNotification (event : AccessRequestEvent) (approvalUiBaseUrl : string)
    : AccessRequestNotification :=
  let base := strip_slashes approvalUiBaseUrl in
  let params := "requestId=" ++ num_str (ev_requestId event) ++ "&documentId="
                  ++ num_str (ev_documentId event) ++ "&chain=" ++ chain_text (ev_chain event) in
  mkNotification ("Guardian approval requested (#" ++ num_str (ev_requestId event) ++ ")")
    ("An access request for document " ++ num_str (ev_documentId event) ++ " was filed on "
       ++ chain_text (ev_chain event) ++ ". " ++ "Review and approve it in the SpooVault access center.")
    (ev_requestId event) (ev_documentId event) (ev_requester event) (ev_chain event) (ev_contractId event)
    (base ++ "/access?" ++ params) (ev_confirmedAt event).

Definition notification_json (n : AccessRequestNotification) : json :=
  JObj [("type", JStr "access_request"); ("title", JStr (title n)); ("body", JStr (body n));
        ("requestId", JNum (requestId n)); ("documentId", JNum (documentId n));
        ("requester", JStr (requester n)); ("chain", JStr (chain_text (chain n)));
        ("contractId", JStr (contractId n)); ("deepLink", JStr (deepLink n));
        ("confirmedAt", JStr (confirmedAt n))].

Definition no_channels : GuardianChannels := mkChannels None None None.
Definition channels_of (c : GuardianContact) : GuardianChannels :=
  match channels c with Some ch => ch | None => no_channels end.

Definition isReachable (o : NotifierOptions) (c : GuardianContact) : bool :=
  let ch := channels_of c in
  truthy (pushWebhook ch) || (truthy (telegramChatId ch) && truthy (telegramBotToken o))
  || (truthy (email ch) && truthy (emailWebhookUrl o)).

(** The random draws of the [k]-th encryption of a batch. *)
Definition Draws : Type := nat -> list Z * list Z.

Definition build_job (event : AccessRequestEvent) (n : AccessRequestNotification) (now : Z)
    (draw : list Z * list Z) (c : GuardianContact) : res DispatchJob :=
  let! enc := match publicKey c with
              | Some pk => if String.eqb pk "" then Ok None
                           else res_map Some (encryptForGuardian (fst draw) (snd draw) pk
                                                (json_text (notification_json n)))
              | None => Ok None
              end in
  Ok (mkDispatch (ev_id event ++ ":" ++ toLowerCase (guardian c)) (ev_id event) c n enc now).

(** An error of one encryption ends the whole batch. *)
Fixpoint build_jobs (o : NotifierOptions) (event : AccessRequestEvent) (n : AccessRequestNotification)
    (now : Z) (draws : Draws) (k : nat) (contacts : list GuardianContact) : res (list DispatchJob) :=
  match contacts with
  | [] => Ok []
  | c :: contacts =>
      if negb (isReachable o c) then build_jobs o event n now draws k contacts
      else
        let! job := build_job event n now (draws k) c in
        let! jobs := build_jobs o event n now draws (S k) contacts in
        Ok (job :: jobs)
  end.

Definition buildJobs (o : NotifierOptions) (event : AccessRequestEvent) (now : Z) (draws : Draws)
    (contacts : list GuardianContact) : res (list DispatchJob) :=
  build_jobs o event (buildNotification event (approvalUiBaseUrl o)) now draws 0 contacts.

Inductive Envelope : Type :=
| PlainEnvelope (n : AccessRequestNotification)
| EncryptedEnvelope (pointer envelope : string).

Definition envelope (job : DispatchJob) : Envelope :=
  if negb (truthy (encryptedPayload job)) then PlainEnvelope (notification job)
  else EncryptedEnvelope (title (notification job))
         (match encryptedPayload job with Some e => e | None => "" end).

Definition newline : string := String (ascii_of_nat 10) "".

Definition renderText (job : DispatchJob) : string :=
  let n := notification job in
  let lines := [title n; ""; body n; "";
                ("Chain: " ++ chain_text (chain n) ++ " | Request: #" ++ num_str (requestId n)
                  ++ " | Document: " ++ num_str (documentId n))%string;
                ("Approve: " ++ deepLink n)%string]%list in
  let lines := match encryptedPayload job with
               | Some e => if String.eqb e "" then lines else (lines ++ [""; ("[encrypted] " ++ e)%string])%list
               | None => lines
               end in
  join newline lines.

Inductive Post : Type :=
| PushPost (url : string) (e : Envelope)
| TelegramPost (url chatId text : string)
| EmailPost (url to subject text : string).

(** The posts of a job, in the order of the channels; each is tried whatever the others return. *)
Definition posts (o : NotifierOptions) (job : DispatchJob) : list (string * Post) :=
  let ch := channels_of (contact job) in
  (match pushWebhook ch with
   | Some url => if String.eqb url "" then [] else [("push", PushPost url (envelope job))]
   | None => []
   end ++
   match telegramChatId ch, telegramBotToken o with
   | Some chat, Some token =>
       if String.eqb chat "" || String.eqb token "" then []
       else [("telegram", TelegramPost ("https://api.telegram.org/bot" ++ token ++ "/sendMessage") chat
                            (renderText job))]
   | _, _ => []
   end ++
   match email ch, emailWebhookUrl o with
   | Some to, Some url =>
       if String.eqb to "" || String.eqb url "" then []
       else [("email", EmailPost url to (title (notification job)) (renderText job))]
   | _, _ => []
   end)%list.

Definition try_post (postJson : Post -> res unit) (acc : list string * list string) (np : string * Post)
    : list string * list string :=
  let '(delivered, failed) := acc in
  let '(name, p) := np in
  match postJson p with
  | Ok _ => ((delivered ++ [name])%list, failed)
  | Throw e => (delivered, (failed ++ [(name ++ ": " ++ e)%string])%list)
  end.

Definition dispatch (o : NotifierOptions) (postJson : Post -> res unit) (job : DispatchJob) : res unit :=
  let '(delivered, failed) := fold_left (try_post postJson) (posts o job) ([], []) in
  throw_if (length delivered =? 0) && (0 <? length failed) with
    ("All channels failed for " ++ dj_id job ++ ": " ++ join "; " failed);;
  Ok tt.
End Boxes.

(** * Contacts, envelopes and deliveries

    Contacts read from the registry are well formed; a box is opened by its
    guardian; a delivery fails exactly when every channel does; and two ways in
    which the notifier does less than its comments promise. *)

Import Mirror Pair.

Open Scope list_scope.
Open Scope nat_scope.

Class BoxLaws (B : BoxCrypto) : Prop := {
  node_base64_decodes : forall l, bytes l -> node_base64 (uint8ArrayToBase64 l) = l;
  box_public_key : forall a, length a = BOX_KEY_BYTES ->
    bytes (box_public a) /\ length (box_public a) = BOX_KEY_BYTES;
  box_seal_bytes : forall m n pk sk, bytes m -> bytes (box_seal m n pk sk);
  box_seal_length : forall m n pk sk, length (box_seal m n pk sk) = length m + BOX_OVERHEAD_BYTES;
  box_opens : forall m n a b, length n = BOX_NONCE_BYTES -> length a = BOX_KEY_BYTES ->
    length b = BOX_KEY_BYTES ->
    box_open (box_seal m n (box_public b) a) n (box_public a) b = Ok (Some m)
}.

(** ** Contacts *)

Definition channel_ok (s : option string) : Prop := s <> Some ""%string.

Record contact_ok (c : GuardianContact) : Prop := {
  co_guardian : guardian c <> ""%string;
  co_lower : toLowerCase (guardian c) = guardian c;
  co_channels : exists ch, channels c = Some ch
    /\ channel_ok (pushWebhook ch) /\ channel_ok (telegramChatId ch) /\ channel_ok (email ch)
}.

Lemma asString_ok (v : option json) : channel_ok (asString v).
Proof.
  destruct v as [[]|]; try discriminate. cbn. destruct s; discriminate.
Qed.

Lemma asString_nonempty (v : option json) (s : string) : asString v = Some s -> s <> ""%string.
Proof. intros H ->. now apply (asString_ok v). Qed.

Lemma lower_nonempty (s : string) : s <> ""%string -> toLowerCase s <> ""%string.
Proof. now destruct s. Qed.

Lemma normalize_entry_ok (v : json) : Forall contact_ok (normalize_entry v).
Proof.
  destruct v as [| | | | |l]; try constructor. unfold normalize_entry.
  destruct (asString _) as [g|] eqn:E; constructor; [|constructor]. apply asString_nonempty in E. split.
  - now apply lower_nonempty.
  - apply toLowerCase_idem.
  - cbn [channels]. eexists. split; [reflexivity|]. repeat split; apply asString_ok.
Qed.

(** Whatever JSON the registry returns, normalizing it does not fail, every contact it gives has a
    non-empty lower-case guardian and channels that are missing or non-empty, and a bare array and the
    same array under [guardians] give the same contacts. *)
Theorem normalizeContacts_ok (b : json) (l : list json) :
  Forall contact_ok (normalizeContacts b)
  /\ normalizeContacts (JObj [("guardians"%string, JArr l)]) = normalizeContacts (JArr l)
  /\ normalizeContacts (JArr l) = flat_map normalize_entry l.
Proof.
  split; [|split; reflexivity]. unfold normalizeContacts. set (raw := match b with JArr _ => _ | _ => _ end).
  induction raw as [|v raw IH]; [constructor|]. cbn [flat_map]. apply Forall_app. split; [|exact IH].
  apply normalize_entry_ok.
Qed.

(** ** Boxes *)

Lemma firstn_app_length {A : Type} (a b : list A) (n : nat) : length a = n -> firstn n (a ++ b) = a.
Proof. intros <-. rewrite firstn_app, firstn_all, Nat.sub_diag. apply app_nil_r. Qed.

Lemma skipn_app_length {A : Type} (a b : list A) (n : nat) : length a = n -> skipn n (a ++ b) = b.
Proof. intros <-. now rewrite skipn_app, skipn_all, Nat.sub_diag. Qed.

Section Boxes.
Context {W : WebCrypto} {L : WebCryptoLaws W} {B : BoxCrypto} {BL : BoxLaws B}.

Lemma key_decodes (k : list Z) (label : string) : bytes k -> length k = BOX_KEY_BYTES ->
  decodeBase64Key (uint8ArrayToBase64 k) label = Ok k.
Proof. intros Hb Hl. unfold decodeBase64Key. rewrite node_base64_decodes by assumption. now rewrite Hl. Qed.

(** A notification encrypted to a guardian's published key is opened by the secret key, to its text. *)
Theorem guardian_box_roundtrip (secret ephemeral nonce : list Z) (payload : string)
    (Hs : bytes secret) (Hsl : length secret = BOX_KEY_BYTES) (Hel : length ephemeral = BOX_KEY_BYTES)
    (Hn : bytes nonce) (Hnl : length nonce = BOX_NONCE_BYTES) :
  exists env, encryptForGuardian ephemeral nonce (uint8ArrayToBase64 (box_public secret)) payload = Ok env
    /\ decryptFromRelayer (uint8ArrayToBase64 secret) env = Ok payload.
Proof.
  destruct (box_public_key secret Hsl) as [Hpb Hpl]. destruct (box_public_key ephemeral Hel) as [Heb Hepl].
  unfold encryptForGuardian. rewrite key_decodes by assumption. cbn [res_bind]. rewrite Hpl.
  cbn [Nat.eqb BOX_KEY_BYTES negb]. eexists. split; [reflexivity|]. cbv zeta.
  set (c := box_seal _ _ _ _). pose proof (box_seal_length (text_encode payload) nonce (box_public secret) ephemeral) as Hcl.
  fold c in Hcl. assert (Hcb : bytes c) by apply box_seal_bytes, encode_bytes.
  unfold decryptFromRelayer. rewrite key_decodes by assumption. cbn [res_bind].
  rewrite node_base64_decodes.
  2:{ repeat (apply Forall_app; split); auto. repeat constructor; discriminate. }
  set (rest := box_public ephemeral ++ nonce ++ c). cbv zeta. cbn [app Z.eqb Pos.eqb negb orb].
  assert (Hlen : (length (1%Z :: rest) <? 1 + BOX_KEY_BYTES + BOX_NONCE_BYTES + BOX_OVERHEAD_BYTES) = false).
  { apply Nat.ltb_ge. unfold rest. cbn [length]. rewrite !length_app, Hcl, Hepl, Hnl. lia. }
  rewrite Hlen. change (skipn 1 (1%Z :: rest)) with rest.
  change (skipn (1 + BOX_KEY_BYTES + BOX_NONCE_BYTES) (1%Z :: rest)) with (skipn (BOX_KEY_BYTES + BOX_NONCE_BYTES) rest).
  change (skipn (1 + BOX_KEY_BYTES) (1%Z :: rest)) with (skipn BOX_KEY_BYTES rest).
  rewrite Nat.add_comm, <- skipn_skipn. unfold rest.
  rewrite !(firstn_app_length (box_public ephemeral)), !(skipn_app_length (box_public ephemeral)) by assumption.
  rewrite firstn_app_length, skipn_app_length by assumption.
  unfold c. rewrite box_opens by assumption. cbn [res_bind]. now rewrite decode_encode.
Qed.

(** ** Jobs of a batch *)

(** A contact whose key [encryptForGuardian] refuses. *)
Definition bad_key (c : GuardianContact) : bool :=
  match publicKey c with
  | Some pk => negb (String.eqb pk "") && negb (length (node_base64 pk) =? BOX_KEY_BYTES)
  | None => false
  end.

Lemma build_job_ok (event : AccessRequestEvent) (n : AccessRequestNotification) (now : Z)
    (draw : list Z * list Z) (c : GuardianContact) :
  if bad_key c then exists e, build_job event n now draw c = Throw e
  else exists enc, build_job event n now draw c
       = Ok (mkDispatch (ev_id event ++ ":" ++ toLowerCase (guardian c)) (ev_id event) c n enc now)
       /\ (enc = None <-> truthy (publicKey c) = false).
Proof.
  unfold bad_key, build_job, truthy. destruct (publicKey c) as [pk|]; [|eexists; now split].
  destruct (String.eqb pk ""); [eexists; now split|]. cbn [negb andb].
  unfold encryptForGuardian, decodeBase64Key. cbv zeta. set (b := node_base64 pk). clearbody b.
  destruct (Nat.eqb_spec (length b) BOX_KEY_BYTES) as [E|E]; cbn [negb].
  - rewrite E. cbn [Nat.eqb BOX_KEY_BYTES res_bind res_map negb].
    rewrite E. cbn [Nat.eqb BOX_KEY_BYTES negb]. eexists. split; [reflexivity|]. now split.
  - destruct (length b =? 0); cbn [res_bind res_map]; [eexists; reflexivity|].
    rewrite (proj2 (Nat.eqb_neq _ _) E). eexists. reflexivity.
Qed.

Lemma build_jobs_ok (o : NotifierOptions) (event : AccessRequestEvent) (n : AccessRequestNotification)
    (now : Z) (draws : Draws) (k : nat) (contacts : list GuardianContact) :
  let reachable := filter (isReachable o) contacts in
  if existsb bad_key reachable then exists e, build_jobs o event n now draws k contacts = Throw e
  else exists jobs, build_jobs o event n now draws k contacts = Ok jobs
    /\ map contact jobs = reachable
    /\ Forall (fun j => dj_id j = (ev_id event ++ ":" ++ toLowerCase (guardian (contact j)))%string
                        /\ eventId j = ev_id event /\ notification j = n
                        /\ (encryptedPayload j = None <-> truthy (publicKey (contact j)) = false)) jobs.
Proof.
  revert k. induction contacts as [|c contacts IH]; intros k; cbv zeta; [exists []; auto|].
  cbn [build_jobs filter]. destruct (isReachable o c); cbn [negb]; [|apply IH].
  cbn [existsb]. pose proof (build_job_ok event n now (draws k) c) as H.
  destruct (bad_key c); [destruct H as [e ->]; eexists; reflexivity|]. destruct H as (enc & -> & Henc).
  cbn [orb res_bind]. specialize (IH (S k)). cbv zeta in IH.
  destruct (existsb bad_key _); [destruct IH as [e ->]; eexists; reflexivity|].
  destruct IH as (jobs & -> & Hm & Hf). eexists. split; [reflexivity|]. cbn [map contact]. rewrite Hm.
  split; [reflexivity|]. constructor; [|exact Hf]. cbn. auto.
Qed.

(** A batch has a job for each reachable contact, addressed to it and encrypted exactly when it has a
    key; but one reachable contact whose key does not decode to 32 bytes makes the whole batch fail, so
    that nobody is notified of the event. *)
Theorem buildJobs_outcome (o : NotifierOptions) (event : AccessRequestEvent) (now : Z) (draws : Draws)
    (contacts : list GuardianContact) :
  let reachable := filter (isReachable o) contacts in
  if existsb bad_key reachable then exists e, buildJobs o event now draws contacts = Throw e
  else exists jobs, buildJobs o event now draws contacts = Ok jobs
    /\ map contact jobs = reachable
    /\ Forall (fun j => dj_id j = (ev_id event ++ ":" ++ toLowerCase (guardian (contact j)))%string
                        /\ eventId j = ev_id event
                        /\ notification j = buildNotification event (approvalUiBaseUrl o)
                        /\ (encryptedPayload j = None <-> truthy (publicKey (contact j)) = false)) jobs.
Proof. apply build_jobs_ok. Qed.
End Boxes.

(** ** Delivery *)

Lemma try_posts (postJson : Post -> res unit) (l : list (string * Post)) (d f : list string) :
  let '(d', f') := fold_left (try_post postJson) l (d, f) in
  length d' = length d + length (filter (fun np => is_ok (postJson (snd np))) l)
  /\ length d' + length f' = length d + length f + length l.
Proof.
  revert d f. induction l as [|[name p] l IH]; intros d f; cbn [fold_left]; [cbn; lia|].
  cbn [try_post filter snd]. destruct (postJson p) as [[]|e]; cbn [is_ok].
  - specialize (IH (d ++ [name]) f). destruct (fold_left _ _ _) as [d' f']. rewrite length_app in IH.
    cbn [length] in *. lia.
  - specialize (IH d (f ++ [(name ++ ": " ++ e)%string])). destruct (fold_left _ _ _) as [d' f'].
    rewrite length_app in IH. cbn [length] in *. lia.
Qed.

Lemma existsb_filter {A : Type} (f : A -> bool) (l : list A) :
  existsb f l = negb (length (filter f l) =? 0).
Proof.
  induction l as [|x l IH]; [reflexivity|]. cbn [existsb filter]. destruct (f x); [reflexivity|]. exact IH.
Qed.

(** A delivery tries every configured channel of the guardian and throws, so that the queue retries it,
    exactly when there are channels and each of them failed; one success is enough. *)
Theorem dispatch_outcome (o : NotifierOptions) (postJson : Post -> res unit) (job : DispatchJob) :
  if existsb (fun np => is_ok (postJson (snd np))) (posts o job) || (length (posts o job) =? 0)
  then dispatch o postJson job = Ok tt
  else exists e, dispatch o postJson job = Throw e.
Proof.
  unfold dispatch. pose proof (try_posts postJson (posts o job) [] []) as H.
  destruct (fold_left _ _ _) as [d f]. cbn [length] in H. destruct H as [Hd Hf].
  assert (He : existsb (fun np => is_ok (postJson (snd np))) (posts o job) = negb (length d =? 0)).
  { rewrite Hd. apply existsb_filter. }
  rewrite He. destruct (Nat.eqb_spec (length d) 0) as [E|E]; cbn [negb orb andb]; [|reflexivity].
  rewrite E in Hf. cbn in Hf. rewrite Hf.
  destruct (length (posts o job)); cbn; [reflexivity|eexists; reflexivity].
Qed.

(** ** What is sent in the clear *)

Lemma includes_here (p s : string) : includes p (p ++ s) = true.
Proof. destruct (p ++ s)%string eqn:E; cbn; rewrite <- E, startsWith_app; reflexivity. Qed.

Lemma includes_after (p a s : string) : includes p s = true -> includes p (a ++ s) = true.
Proof.
  intros H. induction a as [|c a IH]; [exact H|]. cbn. rewrite IH. apply orb_true_r.
Qed.

Lemma includes_join (p : string) (l : list string) (sep : string) :
  In p l -> includes p (join sep l) = true.
Proof.
  induction l as [|s l IH]; [contradiction|]. intros [->|Hin].
  - destruct l; cbn [join]; [rewrite <- (str_app_nil_r p) at 2|]; apply includes_here.
  - destruct l as [|s' l]; [contradiction|]. cbn [join]. apply includes_after, includes_after, IH, Hin.
Qed.

Lemma renderText_clear (job : DispatchJob) :
  includes (body (notification job)) (renderText job) = true
  /\ includes ("Approve: " ++ deepLink (notification job))%string (renderText job) = true.
Proof.
  unfold renderText. cbv zeta. destruct (encryptedPayload job) as [e|]; [destruct (String.eqb e "")|];
    split; apply includes_join; cbn [In app]; auto 10.
Qed.

Definition post_text (p : Post) : option string :=
  match p with PushPost _ _ => None | TelegramPost _ _ t => Some t | EmailPost _ _ _ t => Some t end.

(** Encryption covers the push channel alone: a push carries the title and the envelope, whatever the
    notification says, but the Telegram and email texts of the same job hold its body and its approval
    link in the clear, even when the guardian published a key. *)
Theorem texts_are_clear (o : NotifierOptions) (job : DispatchJob) (e : string)
    (He : encryptedPayload job = Some e) (Hne : e <> ""%string) :
  Forall (fun np => match snd np with
                    | PushPost _ env => env = EncryptedEnvelope (title (notification job)) e
                    | TelegramPost _ _ t | EmailPost _ _ _ t =>
                        includes (body (notification job)) t = true
                        /\ includes ("Approve: " ++ deepLink (notification job))%string t = true
                    end) (posts o job).
Proof.
  pose proof (renderText_clear job) as Hc. unfold posts. apply Forall_app. split; [|apply Forall_app; split].
  - destruct (pushWebhook _) as [url|]; [|constructor]. destruct (String.eqb url ""); repeat constructor.
    cbn [snd]. unfold envelope, truthy. rewrite He. apply String.eqb_neq in Hne. now rewrite Hne.
  - destruct (telegramChatId _), (telegramBotToken o); try constructor.
    destruct (_ || _); constructor; [exact Hc|constructor].
  - destruct (email _), (emailWebhookUrl o); try constructor.
    destruct (_ || _); constructor; [exact Hc|constructor].
Qed.

(** ** An instance: the tag is the head of the shared sums *)
Module TextBox.

Definition box_tag (sk pk : list Z) : list Z := sized BOX_OVERHEAD_BYTES (sums sk pk).

#[export] Instance text_box : BoxCrypto := {
  node_base64 := fun s => match base64ToUint8Array s with Ok l => l | Throw _ => [] end;
  box_public := low_bytes;
  box_seal := fun m n pk sk => m ++ box_tag sk pk;
  box_open := fun c n pk sk =>
    let k := length c - BOX_OVERHEAD_BYTES in
    Ok (if zlist_eqb (skipn k c) (box_tag sk pk) then Some (firstn k c) else None)
}.

#[export] Instance text_box_laws : BoxLaws text_box.
Proof.
  constructor; cbn [text_box node_base64 box_public box_seal box_open].
  - intros l Hl. now rewrite base64_round.
  - intros a Ha. split; [apply low_bytes_bytes|]. unfold low_bytes. now rewrite length_map.
  - intros m n pk sk Hm. apply Forall_app. split; [exact Hm|apply sized_spec].
  - intros m n pk sk. rewrite length_app. f_equal. apply sized_spec.
  - intros m n a b _ _ _. cbv zeta.
    rewrite length_app, (proj2 (sized_spec _ _) : length (box_tag _ _) = BOX_OVERHEAD_BYTES).
    rewrite Nat.add_sub, skipn_app_length, firstn_app_length by reflexivity.
    unfold box_tag. rewrite sums_sym. now rewrite (proj2 (zlist_eqb_eq _ _)).
Qed.
End TextBox.
Import TextBox.

Lemma guardian_box_roundtrip_witness : exists env,
  encryptForGuardian (repeat 9%Z 32) (repeat 1%Z 24)
    (uint8ArrayToBase64 (box_public (BoxCrypto := text_box) (repeat 7%Z 32))) "hello" = Ok env
  /\ decryptFromRelayer (uint8ArrayToBase64 (repeat 7%Z 32)) env = Ok "hello"%string.
Proof.
  apply (guardian_box_roundtrip (BL := text_box_laws) (repeat 7%Z 32) (repeat 9%Z 32) (repeat 1%Z 24) "hello");
    try reflexivity; apply repeat_byte; unfold is_byte; lia.
Defined.

Definition demo_notifier : NotifierOptions := mkNotifier "https://vault/" (Some "token") (Some "https://mail").
Definition demo_event : AccessRequestEvent := mkEvent "evm:c:1:0" Evm "c" 3 4 "0xAB" 1 "now" 0.
Definition demo_contact (key : option string) : GuardianContact :=
  mkContact "g" key (Some (mkChannels (Some "https://push") (Some "chat") (Some "g@mail"))).
Definition demo_job : DispatchJob :=
  mkDispatch "evm:c:1:0:g" "evm:c:1:0" (demo_contact (Some "key"))
    (buildNotification demo_event "https://vault/") (Some "sealed") 0.

Lemma texts_are_clear_witness :
  length (posts demo_notifier demo_job) = 3 /\
  Forall (fun np => match snd np with
                    | PushPost _ env => env = EncryptedEnvelope (title (notification demo_job)) "sealed"
                    | TelegramPost _ _ t | EmailPost _ _ _ t =>
                        includes (body (notification demo_job)) t = true
                        /\ includes ("Approve: " ++ deepLink (notification demo_job))%string t = true
                    end) (posts demo_notifier demo_job).
Proof.
  split; [reflexivity|]. apply (texts_are_clear demo_notifier demo_job "sealed"); [reflexivity|discriminate].
Defined.
