(* ===== verification/Cursor.v ===== *)
(** * Cursor: logs read page by page after a paging token

    The part of a log after a token, for the readers that keep the token of the last
    element they have read. *)

From Stdlib Require Import String List Lia.
From stdpp Require Import base list strings.
From S2P Require Import Prelude.

Open Scope list_scope.
Open Scope nat_scope.

Section Cursor.
Context {A : Type} (token : A -> string).

Fixpoint after (cursor : string) (l : list A) : list A :=
  match l with
  | [] => []
  | x :: l => if String.eqb (token x) cursor then l else after cursor l
  end.

Definition from_cursor (log : list A) (cursor : option string) : list A :=
  match cursor with Some c => after c log | None => log end.

(** The cursor of a reader of the first [p] elements. *)
Definition cursor_at (log : list A) (p : nat) : option string := token <$> last (take p log).

Lemma after_token (a b : list A) (x : A) : NoDup (map token (a ++ x :: b)) -> after (token x) (a ++ x :: b) = b.
Proof.
  induction a as [|y a IH]; intros Hn; cbn; [by rewrite String.eqb_refl|].
  cbn in Hn. apply NoDup_cons in Hn as [Hy Hn].
  destruct (String.eqb_spec (token y) (token x)) as [E|]; [|by apply IH].
  destruct Hy. rewrite E. apply list_elem_of_fmap. exists x. split; [done|].
  apply elem_of_app. right. by left.
Qed.

Lemma from_cursor_at (log : list A) (p : nat) : NoDup (map token log) -> p <= length log ->
  from_cursor log (cursor_at log p) = drop p log.
Proof.
  intros Hn Hp. unfold cursor_at, from_cursor.
  destruct p as [|p]; [by rewrite take_0, drop_0|].
  destruct (lookup_lt_is_Some_2 log p ltac:(lia)) as [x Ex].
  rewrite (take_S_r _ _ _ Ex), last_snoc. cbn.
  rewrite <- (take_drop_middle log p x Ex) at 1. apply after_token.
  by rewrite take_drop_middle.
Qed.

Lemma take_min_length (log : list A) (n : nat) : take (Nat.min n (length log)) log = take n log.
Proof.
  destruct (Nat.le_ge_cases n (length log)); [by rewrite Nat.min_l|].
  by rewrite Nat.min_r, firstn_all, firstn_all2.
Qed.

(** The cursor after [n] more elements. *)
Lemma cursor_at_add (log : list A) (p n : nat) :
  cursor_at log (p + n)
  = match token <$> last (take n (drop p log)) with Some t => Some t | None => cursor_at log p end.
Proof.
  unfold cursor_at. rewrite <- take_take_drop, last_app. by destruct (last (take n (drop p log))).
Qed.
End Cursor.
