(* ===== verification/RelayListener.v ===== *)
(** * RelayListener: the chain listeners of relayer/listeners.ts

    A poll is a function of the listener's state and of what the node answers; the
    timers that repeat it are left out.  [MultiChainListener] is the set of ids it
    has seen.  Times are arguments. *)

From Stdlib Require Import Ascii String ZArith List Lia Bool.
From stdpp Require Import base list gmap strings.
From S2P Require Import Prelude JsString JsonText RelayNotifier Cursor.

Open Scope list_scope.
Open Scope Z_scope.

(** ** EVM *)

Record EvmLog : Type := mkLog {
  log_block : Z; log_index : Z; log_request : Z; log_document : Z; log_requester : string
}.

Record EvmListener : Type := mkEvm { evm_running : bool; evm_provider : bool; lastBlock : option Z }.

Definition new_evm : EvmListener := mkEvm false false None.

(** [start] once the provider has answered with the current block. *)
Definition evm_start (startBlock : option Z) (current : Z) (st : EvmListener) : EvmListener :=
  let startBlock := default 0 startBlock in
  mkEvm true true (Some (if 0 <? startBlock then Z.min (startBlock - 1) current else current)).

Definition evm_stop (st : EvmListener) : EvmListener := mkEvm false false (lastBlock st).

Definition evm_event (contractAddress iso : string) (now : Z) (log : EvmLog) : AccessRequestEvent :=
  mkEvent ("evm:" ++ toLowerCase contractAddress ++ ":" ++ num_str (log_block log) ++ ":"
             ++ num_str (log_index log))%string
    Evm contractAddress (log_request log) (log_document log) (log_requester log) (log_block log) iso now.

Definition SWEEP_BLOCKS : Z := 5000.

(** The answers of the node: the head, and the logs of a range of blocks. *)
Record EvmNode : Type := mkNode { node_head : res Z; node_logs : Z -> Z -> res (list EvmLog) }.

(** The events of a poll, its error if it throws, and the state after it. *)
Definition evm_poll (contractAddress iso : string) (now : Z) (node : EvmNode) (st : EvmListener)
    : list AccessRequestEvent * res unit * EvmListener :=
  match evm_provider st, lastBlock st with
  | true, Some last =>
      match node_head node with
      | Throw e => ([], Throw e, st)
      | Ok head =>
          let toBlock := Z.min head (last + SWEEP_BLOCKS) in
          if toBlock <=? last then ([], Ok tt, st)
          else
            match node_logs node (last + 1) toBlock with
            | Throw e => ([], Throw e, st)
            | Ok logs =>
                (map (evm_event contractAddress iso now) logs, Ok tt,
                 mkEvm (evm_running st) (evm_provider st) (Some toBlock))
            end
      end
  | _, _ => ([], Ok tt, st)
  end.

(** [tick]: the error of a poll is reported and the next poll goes on from the same state. *)
Definition evm_tick (contractAddress iso : string) (now : Z) (node : EvmNode) (st : EvmListener)
    : list AccessRequestEvent * option string * EvmListener :=
  if negb (evm_running st) then ([], None, st)
  else
    match evm_poll contractAddress iso now node st with
    | (events, Ok _, st) => (events, None, st)
    | (events, Throw e, st) => (events, Some e, st)
    end.

(** ** Soroban *)

Record RawSorobanEvent : Type := mkRaw {
  raw_id : option string; pagingToken : option string; ledger : option Z;
  ledgerClosedAt : option string; topic : option (list json); raw_value : option json
}.

Definition is_decimal (s : string) : bool :=
  negb (String.eqb s "") && str_all (is_digit 10) s.

(** [readNumber]; the keys are tried in this order and the first one present decides. *)
Fixpoint readNumber (v : json) : Z :=
  match v with
  | JNum n => n
  | JStr s => if is_decimal s then default 0 (parse_digits 10 s) else 0
  | JObj l =>
      (fix first_key (keys : list string) : Z :=
         match keys with
         | [] => 0
         | k :: keys =>
             match (fix find_last (l : list (string * json)) : option Z :=
                      match l with
                      | [] => None
                      | (k', v') :: l' =>
                          match find_last l' with
                          | Some n => Some n
                          | None => if String.eqb k' k then Some (readNumber v') else None
                          end
                      end) l with
             | Some n => n
             | None => first_key keys
             end
         end) ["u64"; "u32"; "i64"; "u128"; "value"]%string
  | _ => 0
  end.

Definition readString (v : json) : option string :=
  match v with
  | JStr s => Some s
  | JObj _ =>
      match as_str (get_prop "symbol" v) with Some s => Some s | None => as_str (get_prop "string" v) end
  | _ => None
  end.

Record RequestInfo : Type := mkInfo { ri_request : Z; ri_document : Z; ri_requester : option string }.

(** [if (key in obj) out = readNumber(obj[key])] over the keys; the last one present decides. *)
Definition read_keys (keys : list string) (obj : json) : Z :=
  foldl (fun n k => match get_prop k obj with Some v => readNumber v | None => n end) 0 keys.

Definition read_at (l : list json) (i : nat) : Z :=
  match l !! i with Some v => readNumber v | None => 0 end.

Definition extractSorobanRequestInfo (value : option json) : RequestInfo :=
  match value with
  | Some (JArr l) => mkInfo (read_at l 0) (read_at l 1) (v ← l !! 2%nat; readString v)
  | Some (JObj _ as obj) =>
      mkInfo (read_keys ["request_id"; "requestId"]%string obj)
        (read_keys ["document_id"; "documentId"]%string obj) (v ← get_prop "requester" obj; readString v)
  | _ => mkInfo 0 0 None
  end.

(** What [fetch] and the body give: a network error, a status, a body that is not JSON (whose rejection
    [Promise.allSettled] drops), an error of the RPC, or events. *)
Inductive SorobanResponse : Type :=
| NetworkError (e : string)
| HttpError (status : Z)
| BadBody
| RpcError (message : option string)
| RpcEvents (events : list RawSorobanEvent).

Definition or_else {A : Type} (a b : option A) : option A := match a with Some _ => a | None => b end.

Definition access_topic (raw : RawSorobanEvent) : bool :=
  existsb (fun t => includes "AccessRequested" (json_text t)) (default [] (topic raw)).

Definition soroban_event (contractId token iso : string) (now : Z) (raw : RawSorobanEvent)
    : AccessRequestEvent :=
  let info := extractSorobanRequestInfo (raw_value raw) in
  mkEvent ("soroban:" ++ contractId ++ ":" ++ default token (raw_id raw))%string Soroban contractId
    (ri_request info) (ri_document info) (default ""%string (ri_requester info)) (default 0 (ledger raw))
    (default iso (ledgerClosedAt raw)) now.

Definition cursorToken (raw : RawSorobanEvent) : option string := or_else (pagingToken raw) (raw_id raw).

(** A round of the loop over the events of a page: the cursor, and the events so far. *)
Definition page_round (contractId iso : string) (now : Z)
    (acc : option string * list AccessRequestEvent) (raw : RawSorobanEvent)
    : option string * list AccessRequestEvent :=
  let '(cursor, out) := acc in
  match cursorToken raw with
  | None => acc
  | Some token =>
      if String.eqb token "" then acc
      else if access_topic raw then (Some token, out ++ [soroban_event contractId token iso now raw])
      else (Some token, out)
  end.

Definition pollContract (contractId iso : string) (now : Z) (resp : SorobanResponse)
    (cursors : gmap string string) : list AccessRequestEvent * option string * gmap string string :=
  match resp with
  | NetworkError e => ([], Some e, cursors)
  | HttpError status => ([], Some ("Soroban RPC " ++ num_str status)%string, cursors)
  | BadBody => ([], None, cursors)
  | RpcError m => ([], Some (default "rpc error"%string m), cursors)
  | RpcEvents events =>
      let '(cursor, out) := foldl (page_round contractId iso now) (cursors !! contractId, []) events in
      (out, None, match cursor with Some c => <[contractId := c]> cursors | None => cursors end)
  end.

(** ** MultiChainListener *)

Definition emitNew (seen : gset string) (event : AccessRequestEvent)
    : option AccessRequestEvent * gset string :=
  if bool_decide (ev_id event ∈ seen) then (None, seen) else (Some event, {[ev_id event]} ∪ seen).

(** The events of several polls, in the order they are detected. *)
Fixpoint emit_all (seen : gset string) (events : list AccessRequestEvent)
    : list AccessRequestEvent * gset string :=
  match events with
  | [] => ([], seen)
  | e :: events =>
      let '(o, seen) := emitNew seen e in
      let '(out, seen) := emit_all seen events in
      (match o with Some e => e :: out | None => out end, seen)
  end.

(** * Every event of the chains is delivered once

    A listener scans the blocks, or the pages, one after the other whatever polls
    fail, and the fan-in passes each id once. *)

Open Scope list_scope.
Open Scope Z_scope.

(** ** Ids *)

Lemma digits_until_colon (a b s t : string) : str_all (is_digit 10) a = true ->
  str_all (is_digit 10) b = true -> (a ++ ":" ++ s = b ++ ":" ++ t)%string -> a = b /\ s = t.
Proof.
  revert b. induction a as [|x a IH]; intros [|y b] Ha Hb E; cbn in *.
  - by injection E.
  - injection E as <- _. by apply andb_true_iff in Hb as [Hb _].
  - injection E as -> _. by apply andb_true_iff in Ha as [Ha _].
  - injection E as -> E. apply andb_true_iff in Ha as [_ Ha]. apply andb_true_iff in Hb as [_ Hb].
    destruct (IH b Ha Hb E) as [-> ->]. done.
Qed.

Lemma str_app_inv_head (a b c : string) : (a ++ b = a ++ c)%string -> b = c.
Proof. induction a as [|x a IH]; [done|]. cbn. intros [= E]. auto. Qed.

Definition log_id (contractAddress : string) (log : EvmLog) : string :=
  ("evm:" ++ toLowerCase contractAddress ++ ":" ++ num_str (log_block log) ++ ":"
     ++ num_str (log_index log))%string.

Definition log_place (log : EvmLog) : Z * Z := (log_block log, log_index log).
Definition placed (log : EvmLog) : Prop := 0 <= log_block log /\ 0 <= log_index log.

Lemma log_id_inj (a : string) (l l' : EvmLog) : placed l -> placed l' -> log_id a l = log_id a l' ->
  log_place l = log_place l'.
Proof.
  intros [Hb Hi] [Hb' Hi'] E. unfold log_id in E. do 3 apply str_app_inv_head in E.
  apply digits_until_colon in E as [E1 E2]; [|by apply to_base_digits; lia..].
  apply num_str_inj in E1; [|done..]. apply num_str_inj in E2; [|done..].
  unfold log_place. congruence.
Qed.

(** ** The EVM listener *)
Section Evm.
Variables (contractAddress : string) (chain_logs : Z -> list EvmLog).

(** The logs of the blocks after [a] up to [b]. *)
Definition logs_between (a b : Z) : list EvmLog := flat_map chain_logs (seqZ (a + 1) (b - a)).

(** A node that fails or answers with the logs of the chain. *)
Definition honest (node : EvmNode) : Prop :=
  forall from to, from <= to ->
    node_logs node from to = Ok (logs_between (from - 1) to) \/ exists e, node_logs node from to = Throw e.

Record Tick : Type := mkTick { tick_node : EvmNode; tick_now : Z; tick_iso : string }.

Fixpoint evm_run (ticks : list Tick) (st : EvmListener) : list AccessRequestEvent * EvmListener :=
  match ticks with
  | [] => ([], st)
  | t :: ticks =>
      let '(events, _, st) := evm_tick contractAddress (tick_iso t) (tick_now t) (tick_node t) st in
      let '(more, st) := evm_run ticks st in
      (events ++ more, st)
  end.

(** What an event says of the chain. *)
Definition event_key (e : AccessRequestEvent) : string * Z * Z * string * Z :=
  (ev_id e, ev_requestId e, ev_documentId e, ev_requester e, ev_blockNumber e).
Definition log_key (l : EvmLog) : string * Z * Z * string * Z :=
  (log_id contractAddress l, log_request l, log_document l, log_requester l, log_block l).

Lemma event_of_log (iso : string) (now : Z) (l : EvmLog) :
  event_key (evm_event contractAddress iso now l) = log_key l.
Proof. done. Qed.

Lemma logs_between_split (a b c : Z) : a <= b <= c ->
  logs_between a c = logs_between a b ++ logs_between b c.
Proof.
  intros H. unfold logs_between. rewrite <- flat_map_app. f_equal.
  replace (c - a) with ((b - a) + (c - b)) by lia. rewrite seqZ_app by lia.
  f_equal. f_equal. lia.
Qed.

Lemma logs_between_same (a : Z) : logs_between a a = [].
Proof. unfold logs_between. by rewrite Z.sub_diag. Qed.

(** What a tick does, whether the node fails or answers. *)
Lemma evm_tick_spec (t : Tick) (last : Z) : honest (tick_node t) ->
  exists events err last',
    evm_tick contractAddress (tick_iso t) (tick_now t) (tick_node t) (mkEvm true true (Some last))
    = (events, err, mkEvm true true (Some last'))
    /\ last <= last' /\ map event_key events = map log_key (logs_between last last')
    /\ (err = None -> forall head, node_head (tick_node t) = Ok head ->
          last' = Z.max last (Z.min head (last + SWEEP_BLOCKS))).
Proof.
  intros Hn. unfold evm_tick, evm_poll. cbn [evm_running evm_provider lastBlock negb].
  destruct (node_head (tick_node t)) as [head|e] eqn:Eh.
  2:{ exists [], (Some e), last. rewrite logs_between_same. repeat split; [lia|done]. }
  cbv zeta. destruct (Z.leb_spec (Z.min head (last + SWEEP_BLOCKS)) last) as [Hle|Hlt].
  - exists [], None, last. rewrite logs_between_same. repeat split; [lia|]. intros _ ? [= <-]. lia.
  - destruct (Hn (last + 1) (Z.min head (last + SWEEP_BLOCKS)) ltac:(lia)) as [-> | [e ->]].
    + eexists _, None, _. split; [done|]. split; [lia|]. split.
      * rewrite map_map. replace (last + 1 - 1) with last by lia. done.
      * intros _ ? [= <-]. lia.
    + exists [], (Some e), last. rewrite logs_between_same. repeat split; [lia|done].
Qed.

Lemma evm_run_spec (ticks : list Tick) (last : Z) : Forall (fun t => honest (tick_node t)) ticks ->
  exists events last', evm_run ticks (mkEvm true true (Some last)) = (events, mkEvm true true (Some last'))
    /\ last <= last' /\ map event_key events = map log_key (logs_between last last').
Proof.
  intros Ht. revert last. induction Ht as [|t ticks Hn _ IH]; intros last.
  - exists [], last. rewrite logs_between_same. by repeat split.
  - destruct (evm_tick_spec t last Hn) as (ev & err & mid & E & H1 & H2 & _).
    destruct (IH mid) as (more & last' & E' & H1' & H2'). exists (ev ++ more), last'.
    cbn [evm_run]. rewrite E, E'. split; [done|]. split; [lia|].
    rewrite (logs_between_split last mid last'), !map_app by lia. congruence.
Qed.

(** A node at height [head] whose queries succeed. *)
Definition answers (head : Z) (node : EvmNode) : Prop :=
  (exists h, node_head node = Ok h /\ head <= h)
  /\ forall from to, from <= to -> node_logs node from to = Ok (logs_between (from - 1) to).

Lemma answers_honest (head : Z) (node : EvmNode) : answers head node -> honest node.
Proof. intros [_ H] from to Hle. left. by apply H. Qed.

Lemma evm_run_progress (ticks : list Tick) (head last : Z) :
  Forall (fun t => answers head (tick_node t)) ticks ->
  exists events last', evm_run ticks (mkEvm true true (Some last)) = (events, mkEvm true true (Some last'))
    /\ Z.min head (last + SWEEP_BLOCKS * Z.of_nat (length ticks)) <= last'.
Proof.
  intros Ht. revert last. induction Ht as [|t ticks Hn _ IH]; intros last.
  - exists [], last. split; [done|]. cbn. lia.
  - destruct (evm_tick_spec t last (answers_honest _ _ Hn)) as (ev & err & mid & E & _ & _ & H3).
    assert (Herr : err = None).
    { unfold evm_tick, evm_poll in E. cbn in E. destruct Hn as [(h & Hh & _) Hl]. rewrite Hh in E.
      destruct (_ <=? _) eqn:Ec in E; [by injection E|]. apply Z.leb_gt in Ec.
      rewrite Hl in E by lia. by injection E. }
    destruct Hn as [(h & Hh & Hle) _]. specialize (H3 Herr h Hh).
    destruct (IH mid) as (more & last' & E' & H'). exists (ev ++ more), last'.
    cbn [evm_run]. rewrite E, E'. split; [done|]. unfold SWEEP_BLOCKS in *. cbn [length] in *. lia.
Qed.
End Evm.

(** C32: Through any sequence of polls of a node that may fail but does not lie, an EVM listener emits the
    AccessRequested logs of consecutive blocks from where it started, in order, each once and under its own
    id: no block is skipped after an error and none is read twice. *)
Theorem evm_exactly_once (contractAddress : string) (chain_logs : Z -> list EvmLog) (ticks : list Tick)
    (Ht : Forall (fun t => honest chain_logs (tick_node t)) ticks) (last : Z) :
  exists events last',
    evm_run contractAddress ticks (mkEvm true true (Some last)) = (events, mkEvm true true (Some last'))
    /\ last <= last'
    /\ map event_key events = map (log_key contractAddress) (logs_between chain_logs last last')
    /\ (Forall placed (logs_between chain_logs last last') ->
        NoDup (map log_place (logs_between chain_logs last last')) -> NoDup (map ev_id events)).
Proof.
  destruct (evm_run_spec contractAddress chain_logs ticks last Ht) as (events & last' & E & H1 & H2).
  exists events, last'. repeat (split; [done|]). intros Hp Hn.
  assert (Hids : map ev_id events = map (log_id contractAddress) (logs_between chain_logs last last')).
  { apply (f_equal (map (fun k : string * Z * Z * string * Z => k.1.1.1.1))) in H2.
    rewrite !map_map in H2. exact H2. }
  rewrite Hids. clear -Hp Hn. induction (logs_between chain_logs last last') as [|l ls IH]; [constructor|].
  apply Forall_cons_1 in Hp as [Hl Hp]. cbn in Hn. apply NoDup_cons in Hn as [Hnin Hn].
  cbn. constructor; [|by apply IH]. intros Hin. apply Hnin.
  apply list_elem_of_fmap in Hin as (l' & Eid & Hl'). apply list_elem_of_fmap.
  exists l'. split; [|done]. apply (log_id_inj contractAddress); [done| |done].
  by eapply Forall_forall in Hl'; [|exact Hp].
Qed.

(** A listener catches up: polls that are answered bring it to the head they see at 5000 blocks a poll. *)
Theorem evm_catches_up (contractAddress : string) (chain_logs : Z -> list EvmLog) (ticks : list Tick)
    (head : Z) (Ht : Forall (fun t => answers chain_logs head (tick_node t)) ticks) (last : Z) :
  exists events last',
    evm_run contractAddress ticks (mkEvm true true (Some last)) = (events, mkEvm true true (Some last'))
    /\ Z.min head (last + 5000 * Z.of_nat (length ticks)) <= last'.
Proof. by apply (evm_run_progress contractAddress chain_logs). Qed.

(** ** The fan-in *)

Lemma emit_all_spec (seen : gset string) (events : list AccessRequestEvent) :
  let '(out, seen') := emit_all seen events in
  out `sublist_of` events /\ NoDup (map ev_id out)
  /\ (forall id, id ∈ seen' <-> id ∈ seen \/ id ∈ map ev_id events)
  /\ (forall id, id ∈ map ev_id out <-> id ∈ map ev_id events /\ id ∉ seen).
Proof.
  revert seen. induction events as [|e events IH]; intros seen; cbn [emit_all].
  - split; [constructor|]. split; [constructor|]. cbn. split; intros id; rewrite elem_of_nil; tauto.
  - unfold emitNew. case_bool_decide as Hin.
    + specialize (IH seen). destruct (emit_all seen events) as [out seen'].
      destruct IH as (H1 & H2 & H3 & H4). split; [by constructor|]. split; [done|].
      cbn [map]. split; intros id; rewrite elem_of_cons; [rewrite H3|rewrite H4].
      * destruct (decide (id = ev_id e)) as [->|]; tauto.
      * destruct (decide (id = ev_id e)) as [->|]; tauto.
    + specialize (IH ({[ev_id e]} ∪ seen)). destruct (emit_all _ events) as [out seen'].
      destruct IH as (H1 & H2 & H3 & H4). split; [by constructor|].
      assert (H4' : forall id, id ∈ map ev_id out <-> id ∈ map ev_id events /\ id <> ev_id e /\ id ∉ seen).
      { intros id. rewrite H4, elem_of_union, elem_of_singleton. tauto. }
      split; [cbn [map]; constructor; [|done]; rewrite H4'; tauto|]. cbn [map]. split; intros id.
      * rewrite H3, elem_of_cons, elem_of_union, elem_of_singleton. tauto.
      * rewrite !elem_of_cons, H4'. destruct (decide (id = ev_id e)) as [->|]; tauto.
Qed.

(** The fan-in passes, of the events it has not seen before, exactly one for each id, in the order of
    arrival, whatever the sources deliver again. *)
Theorem fan_in_once (seen : gset string) (events : list AccessRequestEvent) :
  let '(out, seen') := emit_all seen events in
  out `sublist_of` events /\ NoDup (map ev_id out)
  /\ (forall id, id ∈ map ev_id out <-> id ∈ map ev_id events /\ id ∉ seen)
  /\ (forall id, id ∈ seen' <-> id ∈ seen \/ id ∈ map ev_id events).
Proof.
  pose proof (emit_all_spec seen events) as H. destruct (emit_all seen events) as [out seen'].
  destruct H as (H1 & H2 & H3 & H4). done.
Qed.

(** ** The Soroban listener *)
Section Soroban.
Variables (contractId : string) (log : list RawSorobanEvent).

Definition raw_token (raw : RawSorobanEvent) : string := default ""%string (cursorToken raw).

(** The events of the contract, each under a paging token of its own. *)
Definition tokens_ok : Prop :=
  Forall (fun raw => cursorToken raw <> None /\ raw_token raw <> ""%string) log
  /\ NoDup (map raw_token log).

(** The node: a failure, or some of the events after the cursor, in order. *)
Definition page_of (cursor : option string) (resp : SorobanResponse) : Prop :=
  match resp with RpcEvents l => exists n : nat, l = firstn n (from_cursor raw_token log cursor) | _ => True end.

(** A poll: what the node answers to the cursor that the listener sends, and the times. *)
Record Poll : Type := mkPoll { sp_node : option string -> SorobanResponse; sp_now : Z; sp_iso : string }.

Fixpoint soroban_run (polls : list Poll) (cursors : gmap string string)
    : list AccessRequestEvent * gmap string string :=
  match polls with
  | [] => ([], cursors)
  | poll :: polls =>
      let '(events, _, cursors) :=
        pollContract contractId (sp_iso poll) (sp_now poll) (sp_node poll (cursors !! contractId)) cursors in
      let '(more, cursors) := soroban_run polls cursors in
      (events ++ more, cursors)
  end.

Definition log_events (iso : string) (now : Z) (l : list RawSorobanEvent) : list AccessRequestEvent :=
  map (fun raw => soroban_event contractId (raw_token raw) iso now raw) (List.filter access_topic l).

(** What the events say of the chain; the times are those of the first events. *)
Definition log_keys (l : list RawSorobanEvent) : list (string * Z * Z * string * Z) :=
  map event_key (log_events "" 0 l).

Lemma page_fold (iso : string) (now : Z) (l : list RawSorobanEvent) (c : option string) (out : list AccessRequestEvent) :
  Forall (fun raw => cursorToken raw <> None /\ raw_token raw <> ""%string) l ->
  foldl (page_round contractId iso now) (c, out) l
  = (or_else (raw_token <$> last l) c, out ++ log_events iso now l).
Proof.
  revert c out. induction l as [|raw l IH]; intros c out H; [cbn; by rewrite app_nil_r|].
  apply Forall_cons_1 in H as [[Ht Hn] H]. cbn [foldl]. unfold page_round at 2.
  unfold raw_token in Hn. destruct (cursorToken raw) as [t|] eqn:E; [|done]. cbn in Hn.
  apply String.eqb_neq in Hn. rewrite Hn.
  assert (Hr : raw_token raw = t) by (unfold raw_token; by rewrite E).
  assert (Hl : or_else (raw_token <$> last l) (Some t) = or_else (raw_token <$> last (raw :: l)) c).
  { rewrite last_cons. destruct (last l); cbn; by rewrite ?Hr. }
  unfold log_events. cbn [List.filter].
  destruct (access_topic raw); rewrite IH by done; rewrite Hl; cbn [map];
    by rewrite ?Hr, <- ?app_assoc.
Qed.

Lemma poll_page (iso : string) (now : Z) (p n : nat) (cursors : gmap string string) : tokens_ok ->
  cursors !! contractId = cursor_at raw_token log p ->
  exists cursors',
    pollContract contractId iso now (RpcEvents (firstn n (drop p log))) cursors
    = (log_events iso now (firstn n (drop p log)), None, cursors')
    /\ cursors' !! contractId = cursor_at raw_token log (p + n).
Proof.
  intros [Hf _] Hc. unfold pollContract. rewrite page_fold by (by apply Forall_take, Forall_drop).
  eexists. split; [done|]. rewrite Hc, cursor_at_add.
  destruct (raw_token <$> last (firstn n (drop p log))) as [t|]; cbn; [by rewrite lookup_insert_eq|].
  destruct (cursor_at raw_token log p); [by rewrite lookup_insert_eq|done].
Qed.

Lemma log_events_keys (iso : string) (now : Z) (l : list RawSorobanEvent) :
  map event_key (log_events iso now l) = log_keys l.
Proof. unfold log_keys, log_events. by rewrite !map_map. Qed.

Lemma log_keys_app (a b : list RawSorobanEvent) : log_keys (a ++ b) = log_keys a ++ log_keys b.
Proof. unfold log_keys, log_events. by rewrite List.filter_app, !map_app. Qed.

Lemma poll_failed (iso : string) (now : Z) (resp : SorobanResponse) (cursors : gmap string string) :
  (forall l, resp <> RpcEvents l) ->
  exists err, pollContract contractId iso now resp cursors = ([], err, cursors).
Proof. destruct resp as [e|z| |m|l]; intros H; [by eexists..|]. by destruct (H l). Qed.

(** Polls of honest nodes, and whether a node gives all it has up to 100 events. *)
Definition full_page (cursor : option string) (resp : SorobanResponse) : Prop :=
  resp = RpcEvents (firstn 100 (from_cursor raw_token log cursor)).

Lemma soroban_run_spec (polls : list Poll) (p : nat) (cursors : gmap string string) : tokens_ok ->
  Forall (fun t => forall c, page_of c (sp_node t c)) polls -> (p <= length log)%nat ->
  cursors !! contractId = cursor_at raw_token log p ->
  exists events cursors' p', soroban_run polls cursors = (events, cursors')
    /\ (p <= p' <= length log)%nat /\ cursors' !! contractId = cursor_at raw_token log p'
    /\ log_keys (firstn p' log) = log_keys (firstn p log) ++ map event_key events
    /\ (Forall (fun t => forall c, full_page c (sp_node t c)) polls ->
        (Nat.min (length log) (p + 100 * length polls) <= p')%nat).
Proof.
  intros Hok Hpolls. revert p cursors. induction Hpolls as [|t polls Ht Hpolls IH]; intros p cursors Hp Hc.
  { exists [], cursors, p. rewrite app_nil_r. repeat split; try done; cbn [length]; lia. }
  assert (Hstep : exists ev err cursors1 q,
      pollContract contractId (sp_iso t) (sp_now t) (sp_node t (cursors !! contractId)) cursors
      = (ev, err, cursors1) /\ (p <= q <= length log)%nat /\ cursors1 !! contractId = cursor_at raw_token log q
      /\ log_keys (firstn q log) = log_keys (firstn p log) ++ map event_key ev
      /\ ((forall c, full_page c (sp_node t c)) -> (Nat.min (length log) (p + 100) <= q)%nat)).
  { specialize (Ht (cursors !! contractId)). rewrite Hc in *.
    destruct (sp_node t (cursor_at raw_token log p)) as [e|z| |m|l] eqn:E.
    1-4: eexists [], _, cursors, p; rewrite app_nil_r; repeat split; try done; try lia;
      intros H; specialize (H (cursor_at raw_token log p)); unfold full_page in H; congruence.
    destruct Ht as [n ->]. rewrite from_cursor_at in * by (done || apply Hok).
    destruct (poll_page (sp_iso t) (sp_now t) p n cursors Hok Hc) as (cursors1 & E1 & H1).
    eexists _, _, cursors1, (Nat.min (p + n) (length log)). split; [exact E1|]. split; [lia|].
    split; [rewrite H1; unfold cursor_at; f_equal; f_equal; rewrite take_min_length; done|].
    split.
    - rewrite log_events_keys, <- log_keys_app. f_equal. rewrite take_min_length. by rewrite take_take_drop.
    - intros H. specialize (H (cursor_at raw_token log p)). unfold full_page in H. rewrite E in H.
      injection H as H. rewrite from_cursor_at in H by (done || apply Hok).
      apply (f_equal length) in H. rewrite !length_firstn, length_drop in H. lia. }
  destruct Hstep as (ev & err & cursors1 & q & E1 & Hq & Hc1 & Hk & Hfull).
  destruct (IH q cursors1 ltac:(lia) Hc1) as (more & cursors' & p' & E2 & Hp' & Hc' & Hk' & Hfull').
  exists (ev ++ more), cursors', p'. cbn [soroban_run]. rewrite E1, E2. split; [done|]. split; [lia|].
  split; [done|]. split; [by rewrite Hk', Hk, map_app, app_assoc|].
  intros H. apply Forall_cons_1 in H as [H1 H2]. specialize (Hfull H1). specialize (Hfull' H2).
  cbn [length]. lia.
Qed.
End Soroban.

(** Through any sequence of polls of a Soroban node that fails or gives a page of the contract's events
    after the cursor, the listener emits the AccessRequested events of a prefix of the contract's events, in
    order, each once; nodes that answer with up to 100 events bring it to the end at 100 events a poll. *)
Theorem soroban_exactly_once (contractId : string) (log : list RawSorobanEvent)
    (Hok : tokens_ok log) (polls : list Poll)
    (Hpolls : Forall (fun t => forall c, page_of log c (sp_node t c)) polls) :
  exists events cursors p,
    soroban_run contractId polls ∅ = (events, cursors)
    /\ cursors !! contractId = cursor_at raw_token log p /\ (p <= length log)%nat
    /\ map event_key events = log_keys contractId (firstn p log)
    /\ (Forall (fun t => forall c, full_page log c (sp_node t c)) polls ->
        (Nat.min (length log) (100 * length polls) <= p)%nat).
Proof.
  destruct (soroban_run_spec contractId log polls 0 ∅ Hok Hpolls) as (events & cursors & p & E & Hp & Hc & Hk & Hf).
  - lia.
  - unfold cursor_at. by rewrite firstn_O, lookup_empty.
  - exists events, cursors, p. split; [done|]. split; [done|]. split; [lia|]. split; [by rewrite Hk|done].
Qed.

(** ** A chain of three blocks *)
Module DemoChain.
Definition logs (b : Z) : list EvmLog :=
  if b =? 2 then [mkLog 2 0 7 1 "0xaa"; mkLog 2 1 8 1 "0xbb"] else if b =? 3 then [mkLog 3 0 9 2 "0xcc"] else [].

Definition good (head : Z) : EvmNode := mkNode (Ok head) (fun from to => Ok (logs_between logs (from - 1) to)).
Definition bad : EvmNode := mkNode (Ok 3) (fun _ _ => Throw "timeout"%string).
Definition ticks : list Tick := [mkTick (good 2) 0 ""; mkTick bad 1 ""; mkTick (good 3) 2 ""].

Definition raw (token : string) (request : Z) : RawSorobanEvent :=
  mkRaw (Some token) None (Some 5) None (Some [JStr "AccessRequested"]) (Some (JArr [JNum request; JNum 1])).
Definition raws : list RawSorobanEvent := [raw "t1" 1; raw "t2" 2].
Definition raw_poll : Poll := mkPoll (fun c => RpcEvents (firstn 100 (from_cursor raw_token raws c))) 0 "".

Lemma good_honest (head : Z) : honest logs (good head).
Proof. intros ? ? _. by left. Qed.

Lemma ticks_honest : Forall (fun t => honest logs (tick_node t)) ticks.
Proof.
  constructor; [apply good_honest|]. constructor; [|constructor; [apply good_honest|constructor]].
  intros ? ? _. right. by exists "timeout"%string.
Qed.

Lemma raws_ok : tokens_ok raws.
Proof.
  split; [by repeat constructor|]. apply (bool_decide_unpack _). by vm_compute.
Qed.
End DemoChain.
Import DemoChain.

Lemma evm_exactly_once_witness :
  map ev_id (evm_run "0xC0" ticks (mkEvm true true (Some 1))).1 = ["evm:0xc0:2:0"; "evm:0xc0:2:1"; "evm:0xc0:3:0"]%string
  /\ exists events last',
      evm_run "0xC0" ticks (mkEvm true true (Some 1)) = (events, mkEvm true true (Some last')) /\ 1 <= last'.
Proof.
  split; [vm_compute; reflexivity|].
  destruct (evm_exactly_once "0xC0" logs ticks ticks_honest 1) as (events & last' & E & Hl & _).
  by exists events, last'.
Defined.

Lemma evm_catches_up_witness : exists events last',
  evm_run "0xC0" [mkTick (good 3) 0 ""] (mkEvm true true (Some 0)) = (events, mkEvm true true (Some last'))
  /\ 3 <= last'.
Proof.
  destruct (evm_catches_up "0xC0" logs [mkTick (good 3) 0 ""] 3) with (last := 0) as (events & last' & E & H).
  - constructor; [|constructor]. split; [by exists 3|by intros].
  - exists events, last'. split; [done|]. cbn in H. lia.
Defined.

Lemma soroban_exactly_once_witness :
  map ev_id (soroban_run "C1" [raw_poll; raw_poll] ∅).1 = ["soroban:C1:t1"; "soroban:C1:t2"]%string
  /\ exists events cursors p, soroban_run "C1" [raw_poll; raw_poll] ∅ = (events, cursors)
      /\ map event_key events = log_keys "C1" (firstn p raws) /\ (2 <= p)%nat.
Proof.
  split; [vm_compute; reflexivity|].
  destruct (soroban_exactly_once "C1" raws raws_ok [raw_poll; raw_poll])
    as (events & cursors & p & E & _ & _ & Hk & Hf).
  - repeat constructor; intros c; by exists 100%nat.
  - exists events, cursors, p. split; [done|]. split; [done|].
    assert (H : (Nat.min 2 200 <= p)%nat) by (apply Hf; repeat constructor). lia.
Defined.
