(* ===== verification/Relayer.v ===== *)
(** * Relayer: relayer/main.ts and guardianResolver.ts, from the detection of an event to its delivery

    The listeners' events go through the fan-in, are resolved to contacts and become
    jobs of the durable queue, whose handler is the notifier.  A step is a piece of
    code between two awaits; the contacts registry and the channels answer anything.
    The text of the request's URL, the standard [URL] class, is a parameter.

    The relayer owns its queue and moves it by the queue's own operations, so what
    RelayQueue proves of its runs is not proved again here.  What is proved of the whole
    is that an event is handled at most once by a process, for better or worse; and
    that a job that counts as done was taken by one of its channels. *)

From Stdlib Require Import Ascii String ZArith List Lia Bool.
From stdpp Require Import base list gmap strings.
From S2P Require Import Prelude JsString WebCrypto JsonText EciesProofs RelayNotifier RelayQueue RelayListener.

Open Scope list_scope.
Open Scope Z_scope.

(** ** GuardianResolver *)

Record CachedContacts : Type := mkEntry { atMs : Z; cached_contacts : list GuardianContact }.

Definition Cache : Type := gmap string CachedContacts.

Definition CACHE_MS : Z := 30000.

(** The query of an event, in the order of the code. *)
Definition resolve_params (event : AccessRequestEvent) : list (string * string) :=
  [("chain", chain_text (ev_chain event)); ("contractId", ev_contractId event);
   ("requestId", num_str (ev_requestId event)); ("documentId", num_str (ev_documentId event))]%string
  ++ (if String.eqb (ev_requester event) "" then []
      else [("requester"%string, toLowerCase (ev_requester event))]).

(** What [resolve] waits for: a cached answer, or the registry. *)
Inductive Awaiting : Type :=
| FromCache (contacts : list GuardianContact)
| FromRegistry (cacheKey : string).

Definition resolve_begin (url_with : list (string * string) -> string) (now : Z)
    (event : AccessRequestEvent) (cache : Cache) : Awaiting :=
  let cacheKey := url_with (resolve_params event) in
  match cache !! cacheKey with
  | Some cached => if now - atMs cached <? CACHE_MS then FromCache (cached_contacts cached)
                   else FromRegistry cacheKey
  | None => FromRegistry cacheKey
  end.

(** The registry: no answer in time or not JSON, a status, or a body. *)
Inductive RegistryReply : Type :=
| RegistryError (e : string)
| RegistryStatus (status : Z)
| RegistryBody (b : json).

Definition registry_contacts (reply : RegistryReply) : res (list GuardianContact) :=
  match reply with
  | RegistryError e => Throw e
  | RegistryStatus status => Throw ("Contacts registry " ++ num_str status)%string
  | RegistryBody b => Ok (normalizeContacts b)
  end.

Definition resolve_end (now : Z) (reply : RegistryReply) (waiting : Awaiting) (cache : Cache)
    : res (list GuardianContact) * Cache :=
  match waiting with
  | FromCache contacts => (Ok contacts, cache)
  | FromRegistry cacheKey =>
      match registry_contacts reply with
      | Throw e => (Throw e, cache)
      | Ok contacts => (Ok contacts, <[cacheKey := mkEntry now contacts]> cache)
      end
  end.

(** ** createRelayer *)

Record Relayer : Type := mkRelayer {
  r_seen : gset string; r_cache : Cache; resolving : list (AccessRequestEvent * Awaiting);
  r_queue : Queue DispatchJob; eventsDetected : nat; notificationsQueued : nat
}.

(** A process that starts over the queue file it finds. *)
Definition createRelayer (f : Journal DispatchJob) : Relayer :=
  mkRelayer ∅ ∅ [] (new_queue f) 0 0.

Section Handling.
Context {W : WebCrypto} {B : BoxCrypto}.
Variables (url_with : option (list (string * string) -> string)) (o : NotifierOptions) (qo : QueueOptions).

(** [onEvent]: the fan-in and [handleEvent] up to its first await. *)
Definition onEvent (now : Z) (event : AccessRequestEvent) (r : Relayer) : Relayer :=
  match emitNew (r_seen r) event with
  | (None, seen) => mkRelayer seen (r_cache r) (resolving r) (r_queue r) (eventsDetected r) (notificationsQueued r)
  | (Some event, seen) =>
      mkRelayer seen (r_cache r)
        (match url_with with
         | None => resolving r
         | Some u => resolving r ++ [(event, resolve_begin u now event (r_cache r))]
         end)
        (r_queue r) (S (eventsDetected r)) (notificationsQueued r)
  end.

(** [for (const job of jobs) if (queue.enqueue(job.id, job)) notificationsQueued += 1] *)
Fixpoint enqueue_jobs (written : string -> bool) (now : Z) (jobs : list DispatchJob)
    (q : Queue DispatchJob) : list string * Queue DispatchJob :=
  match jobs with
  | [] => ([], q)
  | job :: jobs =>
      let '(fresh, q) := enqueue (written (dj_id job)) now (dj_id job) job q in
      let '(queued, q) := enqueue_jobs written now jobs q in
      (if fresh : bool then dj_id job :: queued else queued, q)
  end.

(** The rest of [handleEvent] for the [i]-th waiting event: the ids queued, or the error it logs. *)
Definition handleEvent_resumes (written : string -> bool) (now : Z) (draws : Draws) (reply : RegistryReply)
    (i : nat) (r : Relayer) : option (AccessRequestEvent * res (list string)) * Relayer :=
  match resolving r !! i with
  | None => (None, r)
  | Some (event, waiting) =>
      let '(contacts, cache) := resolve_end now reply waiting (r_cache r) in
      let after q n := mkRelayer (r_seen r) cache (delete i (resolving r)) q (eventsDetected r) n in
      match res_bind contacts (buildJobs o event now draws) with
      | Throw e => (Some (event, Throw e), after (r_queue r) (notificationsQueued r))
      | Ok jobs =>
          let '(queued, q) := enqueue_jobs written now jobs (r_queue r) in
          (Some (event, Ok queued), after q (notificationsQueued r + length queued)%nat)
      end
  end.

Definition with_queue (q : Queue DispatchJob) (r : Relayer) : Relayer :=
  mkRelayer (r_seen r) (r_cache r) (resolving r) q (eventsDetected r) (notificationsQueued r).

(** The handler's return: [notifier.dispatch] of the job in flight decides how the pump goes on. *)
Definition attempt_ends (postJson : Post -> res unit) (w : bool) (now : Z) (job : DispatchJob) (r : Relayer)
    : res unit * Relayer :=
  match dispatch o postJson job with
  | Ok u => (Ok u, with_queue (pump_done w (r_queue r)) r)
  | Throw e => (Throw e, with_queue (pump_failed qo w now e (r_queue r)) r)
  end.

Record RelayHealth : Type := mkHealth {
  h_eventsDetected : nat; h_notificationsQueued : nat; h_queue : QueueStats
}.

Definition health (r : Relayer) : RelayHealth :=
  mkHealth (eventsDetected r) (notificationsQueued r) (stats (r_queue r)).

(** ** Steps *)

Inductive RLabel : Type :=
| Detected (event : AccessRequestEvent)
| Handled (event : AccessRequestEvent) (queued : list string)
| Unresolved (event : AccessRequestEvent) (error : string)
| Pumped (id : string)
| Attempted (job : PersistedJob DispatchJob) (accepted : list string) (outcome : res unit)
| QueueSwitched
| Rebooted.

(** The channels of a job that take its notification. *)
Definition accepting (postJson : Post -> res unit) (job : DispatchJob) : list string :=
  map fst (List.filter (fun np => is_ok (postJson (snd np))) (posts o job)).

Inductive rstep (r : Relayer) : RLabel -> Relayer -> Prop :=
| r_detect now event : rstep r (Detected event) (onEvent now event r)
| r_handle written now draws reply i event queued r' :
    handleEvent_resumes written now draws reply i r = (Some (event, Ok queued), r') ->
    rstep r (Handled event queued) r'
| r_unresolved written now draws reply i event e r' :
    handleEvent_resumes written now draws reply i r = (Some (event, Throw e), r') ->
    rstep r (Unresolved event e) r'
| r_pump now job q' :
    stopped (r_queue r) = false -> pump_begin now (r_queue r) = (Some job, q') ->
    rstep r (Pumped (job_id job)) (with_queue q' r)
| r_attempt postJson w now job outcome r' :
    current (r_queue r) = Some job -> attempt_ends postJson w now (payload job) r = (outcome, r') ->
    rstep r (Attempted job (accepting postJson (payload job)) outcome) r'
| r_start : rstep r QueueSwitched (with_queue (start (r_queue r)) r)
| r_stop : rstep r QueueSwitched (with_queue (stop (r_queue r)) r)
| r_reboot : rstep r Rebooted (createRelayer (file (r_queue r))).

Inductive rsteps : Relayer -> list RLabel -> Relayer -> Prop :=
| rsteps_nil r : rsteps r [] r
| rsteps_snoc r tr r' l r'' : rsteps r tr r' -> rstep r' l r'' -> rsteps r (tr ++ [l]) r''.
End Handling.

Open Scope list_scope.
Open Scope nat_scope.

Section Proofs.
Context {W : WebCrypto} {B : BoxCrypto}.
Variables (url_with : option (list (string * string) -> string)) (o : NotifierOptions) (qo : QueueOptions).
Implicit Types (r : Relayer) (q : Queue DispatchJob).

#[local] Abbreviation rstep := (rstep url_with o qo).
#[local] Abbreviation rsteps := (rsteps url_with o qo).

(** ** The rest of an event's handling *)

Lemma resumes_queue written now draws reply i r event (out : res (list string)) r' :
  handleEvent_resumes o written now draws reply i r = (Some (event, out), r') ->
  exists waiting, resolving r !! i = Some (event, waiting) /\ resolving r' = delete i (resolving r)
    /\ r_seen r' = r_seen r
    /\ match out with
       | Throw _ => r_queue r' = r_queue r
       | Ok queued => exists contacts jobs, buildJobs o event now draws contacts = Ok jobs
           /\ enqueue_jobs written now jobs (r_queue r) = (queued, r_queue r')
       end.
Proof.
  unfold handleEvent_resumes. destruct (resolving r !! i) as [[event' waiting]|]; [|done].
  destruct (resolve_end _ _ _ _) as [contacts cache]. destruct contacts as [contacts|e]; cbn [res_bind].
  - destruct (buildJobs o event' now draws contacts) as [jobs|e] eqn:Ej.
    + destruct (enqueue_jobs _ _ _ _) as [queued q] eqn:Eq. intros [= <- <- <-].
      exists waiting. by eauto 10.
    + intros [= <- <- <-]. by exists waiting.
  - intros [= <- <- <-]. by exists waiting.
Qed.

(** ** An event is settled once *)
Section Settled.
Variable (id : string).

Definition settles (l : RLabel) : nat :=
  match l with
  | Handled e _ | Unresolved e _ => if decide (ev_id e = id) then 1 else 0
  | _ => 0
  end.

Definition awaited (x : AccessRequestEvent * Awaiting) : nat := if decide (ev_id x.1 = id) then 1 else 0.

(** How often the event can still be settled: once if it is new, and once for each time it is awaited. *)
Definition chances r : nat :=
  (if decide (id ∈ r_seen r) then 0 else 1) + sum_list_with awaited (resolving r).

Lemma awaited_delete (l : list (AccessRequestEvent * Awaiting)) i event waiting :
  l !! i = Some (event, waiting) ->
  sum_list_with awaited l = awaited (event, waiting) + sum_list_with awaited (delete i l).
Proof. intros H. by rewrite (delete_Permutation l i _ H) at 1. Qed.

Lemma onEvent_chances now event r : chances (onEvent url_with now event r) <= chances r.
Proof.
  unfold onEvent, emitNew, chances. case_bool_decide as Hin; cbn [r_seen resolving]; [done|].
  destruct url_with as [u|]; rewrite ?sum_list_with_app; cbn [sum_list_with]; unfold awaited; cbn [fst];
    repeat case_decide; try lia; exfalso; set_solver.
Qed.

Lemma resumes_chances written now draws reply i r event out r' :
  handleEvent_resumes o written now draws reply i r = (Some (event, out), r') ->
  chances r = chances r' + (if decide (ev_id event = id) then 1 else 0).
Proof.
  intros H. apply resumes_queue in H as (waiting & Hi & Hr & Hs & _). unfold chances.
  rewrite Hr, Hs, (awaited_delete _ _ _ _ Hi). unfold awaited at 1. cbn [fst]. lia.
Qed.

Lemma rstep_chances r l r' : rstep r l r' -> l <> Rebooted -> settles l + chances r' <= chances r.
Proof.
  destruct 1 as [now event|written now draws reply i event queued r' E|written now draws reply i event e r' E
                |now job q' Hs E|postJson w now job outcome r' Hc E| | |]; intros Hl; cbn [settles]; try done.
  - apply onEvent_chances.
  - apply resumes_chances in E. lia.
  - apply resumes_chances in E. lia.
  - unfold attempt_ends in E. by destruct (dispatch _ _ _); injection E as <- <-.
Qed.

Lemma rsteps_chances r tr r' : rsteps r tr r' -> Rebooted ∉ tr ->
  sum_list_with settles tr + chances r' <= chances r.
Proof.
  induction 1 as [|r tr r1 l r2 _ IH Hl]; [done|]. intros H. rewrite not_elem_of_app in H. destruct H as [H1 H2].
  specialize (IH H1). apply rstep_chances in Hl; [|intros ->; set_solver].
  rewrite sum_list_with_app. cbn. lia.
Qed.

Lemma reachable_chances f tr r : rsteps (createRelayer f) tr r -> chances r <= 1.
Proof.
  intros H. remember (createRelayer f) as r0 eqn:E. induction H as [|r0 tr r1 l r2 _ IH Hl].
  - subst. unfold chances. cbn. by case_decide.
  - specialize (IH E). assert (l = Rebooted \/ l <> Rebooted) as [->|Hn] by (destruct l; auto).
    + inversion Hl; subst. unfold chances. cbn. by case_decide.
    + apply rstep_chances in Hl; [lia|done].
Qed.
End Settled.

(** ** Jobs *)

Lemma posts_of_reachable (job : DispatchJob) : isReachable o (contact job) = true -> posts o job <> [].
Proof.
  unfold isReachable, posts, truthy. generalize (channels_of (contact job)). intros [p t e]. cbn.
  destruct p as [p|]; [destruct (String.eqb p "")|]; cbn; try done;
    (destruct t as [t|], (telegramBotToken o) as [tok|]; cbn; rewrite ?andb_false_r;
     [destruct (String.eqb t ""), (String.eqb tok "")| | |]; cbn; try done;
     (destruct e as [e|], (emailWebhookUrl o) as [u|]; cbn; rewrite ?andb_false_r; try done;
      destruct (String.eqb e ""), (String.eqb u ""); cbn; done)).
Qed.

Lemma dispatch_accepted postJson (job : DispatchJob) : posts o job <> [] ->
  match dispatch o postJson job with
  | Ok _ => accepting o postJson job <> []
  | Throw _ => accepting o postJson job = []
  end.
Proof.
  intros Hp. unfold dispatch, accepting. pose proof (try_posts postJson (posts o job) [] []) as H.
  destruct (fold_left _ _ _) as [d f]. cbn [length] in H. destruct H as [Hd Hf].
  destruct d as [|x d]; cbn in Hd.
  - destruct f as [|y f]; [cbn in Hf; destruct (posts o job); [done|cbn in Hf; lia]|]. cbn.
    by destruct (List.filter _ _).
  - cbn. intros E. apply map_eq_nil in E. rewrite E in Hd. done.
Qed.

(** A property of the jobs of the memory and of the file. *)
Definition all_jobs (P : DispatchJob -> Prop) q : Prop :=
  Forall (fun j => P (payload j)) (jobs (state q)) /\ Forall (fun j => P (payload j)) (jobs (load (file q))).

Lemma persist_jobs P w q : Forall (fun j => P (payload j)) (jobs (state q)) ->
  Forall (fun j => P (payload j)) (jobs (load (file q))) -> all_jobs P (persist w q).
Proof. intros H1 H2. split; [done|]. by destruct w. Qed.

Lemma enqueue_all P w now job q : P job -> all_jobs P q -> all_jobs P (enqueue w now (dj_id job) job q).2.
Proof.
  intros Hj [H1 H2]. unfold enqueue. destruct (seen _ _); [done|]. apply persist_jobs; [|done].
  apply Forall_app. by repeat constructor.
Qed.

Lemma enqueue_jobs_all P written now (l : list DispatchJob) q : Forall P l -> all_jobs P q ->
  all_jobs P (enqueue_jobs written now l q).2.
Proof.
  intros Hl. revert q. induction Hl as [|job l Hj _ IH]; intros q Hq; [done|]. cbn [enqueue_jobs].
  pose proof (enqueue_all P (written (dj_id job)) now job q Hj Hq) as H.
  destruct (enqueue _ _ _ _ q) as [b q1]. specialize (IH q1 H).
  by destruct (enqueue_jobs _ _ _ q1).
Qed.

Lemma pump_begin_all P now q job q' : pump_begin now q = (Some job, q') -> all_jobs P q -> all_jobs P q'.
Proof.
  unfold pump_begin. destruct (dueIndex _ _) as [i|]; [|done]. destruct (inFlight q); [done|].
  intros [= _ <-] [H1 H2]. split; [|done]. cbn. apply Forall_alter; [done|]. by intros.
Qed.

Lemma Forall_delete_at {A : Type} (P : A -> Prop) (l : list A) i : Forall P l -> Forall P (delete i l).
Proof. intros H. rewrite delete_take_drop. apply Forall_app. by split; [apply Forall_take|apply Forall_drop]. Qed.

Lemma pump_done_all P w q : all_jobs P q -> all_jobs P (pump_done w q).
Proof.
  intros [H1 H2]. unfold pump_done. destruct (inFlight q) as [i|]; [|done].
  destruct (jobs (state q) !! i); [|done]. apply persist_jobs; [|done]. by apply Forall_delete_at.
Qed.

Lemma pump_failed_all P w now e q : all_jobs P q -> all_jobs P (pump_failed qo w now e q).
Proof.
  intros [H1 H2]. unfold pump_failed. destruct (inFlight q) as [i|]; [|done].
  destruct (jobs (state q) !! i) as [job|] eqn:E; [|done]. apply persist_jobs; [|done].
  cbn [state set_state]. destruct (_ <=? _); cbn [jobs]; [by apply Forall_delete_at|].
  apply Forall_insert; [done|]. cbn [payload]. by eapply Forall_lookup_1 in H1.
Qed.

Lemma built_jobs event now draws contacts jobs : buildJobs o event now draws contacts = Ok jobs ->
  map contact jobs = List.filter (isReachable o) contacts
  /\ Forall (fun j => dj_id j = (ev_id event ++ ":" ++ toLowerCase (guardian (contact j)))%string
              /\ eventId j = ev_id event) jobs.
Proof.
  intros E. pose proof (build_jobs_ok o event (buildNotification event (approvalUiBaseUrl o)) now draws 0 contacts) as H.
  cbv zeta in H. unfold buildJobs in E. destruct (existsb _ _); destruct H as [x H]; [congruence|].
  destruct H as (E' & Hm & Hf). assert (x = jobs) as -> by congruence. split; [done|].
  eapply Forall_impl; [exact Hf|]. by intros j (H1 & H2 & _).
Qed.

Lemma built_reachable event now draws contacts jobs : buildJobs o event now draws contacts = Ok jobs ->
  Forall (fun j => isReachable o (contact j) = true) jobs.
Proof.
  intros E. apply built_jobs in E as [E _]. apply Forall_forall. intros j Hj.
  assert (H : In (contact j) (List.filter (isReachable o) contacts)).
  { rewrite <- E. apply in_map. by apply list_elem_of_In. }
  by apply filter_In in H as [_ H].
Qed.

Definition reachable_jobs q : Prop := all_jobs (fun job => isReachable o (contact job) = true) q.

Lemma rstep_reachable r l r' : rstep r l r' -> reachable_jobs (r_queue r) -> reachable_jobs (r_queue r').
Proof.
  destruct 1 as [now event|written now draws reply i event queued r' E|written now draws reply i event e r' E
                |now job q' Hs E|postJson w now job outcome r' Hc E| | |]; intros Hr; try done.
  - unfold onEvent. by destruct (emitNew _ _) as [[]].
  - apply resumes_queue in E as (_ & _ & _ & _ & contacts & jobs & Hb & E).
    pose proof (enqueue_jobs_all _ written now jobs _ (built_reachable _ _ _ _ _ Hb) Hr) as H.
    by rewrite E in H.
  - by apply resumes_queue in E as (_ & _ & _ & _ & ->).
  - by eapply pump_begin_all.
  - unfold attempt_ends in E. destruct (dispatch _ _ _); injection E as <- <-;
      [by apply pump_done_all|by apply pump_failed_all].
  - cbn. unfold start. by destruct (negb _).
  - destruct Hr as [_ H]. by split.
Qed.
End Proofs.

(** * The guarantees of the relayer as a whole *)

Open Scope list_scope.
Open Scope nat_scope.

(** An event whose contacts cannot be resolved, or whose batch fails, is lost: until the process is
    started again it is neither handled nor awaited any more, however often the chains deliver it. *)
Theorem failed_event_is_lost {W : WebCrypto} {B : BoxCrypto}
    (url_with : option (list (string * string) -> string)) (o : NotifierOptions) (qo : QueueOptions)
    (f : Journal DispatchJob) (tr1 : list RLabel) (r1 : Relayer)
    (H1 : rsteps url_with o qo (createRelayer f) tr1 r1) (event : AccessRequestEvent) (e : string) (r2 : Relayer)
    (H2 : rstep url_with o qo r1 (Unresolved event e) r2) (tr : list RLabel) (r : Relayer)
    (H3 : rsteps url_with o qo r2 tr r) (Hup : Rebooted ∉ tr) :
  Forall (fun l => match l with
                   | Handled event' _ | Unresolved event' _ => ev_id event' <> ev_id event
                   | _ => True
                   end) tr
  /\ ev_id event ∉ map (fun x => ev_id x.1) (resolving r).
Proof.
  pose proof (reachable_chances _ _ _ (ev_id event) _ _ _ H1) as Hc1.
  pose proof (rstep_chances _ _ _ (ev_id event) _ _ _ H2 ltac:(done)) as Hc2.
  pose proof (rsteps_chances _ _ _ (ev_id event) _ _ _ H3 Hup) as Hc3.
  cbn [settles] in Hc2. rewrite decide_True in Hc2 by done. split.
  - apply Forall_forall. intros l Hl. apply list_elem_of_split in Hl as (a & b & ->).
    rewrite sum_list_with_app in Hc3. cbn in Hc3. destruct l; try done; cbn in Hc3; intros E;
      rewrite decide_True in Hc3 by done; lia.
  - intros Hin. apply list_elem_of_fmap in Hin as (x & Ex & Hx). apply list_elem_of_split in Hx as (a & b & E).
    assert (Hc : chances (ev_id event) r = 0) by lia. unfold chances in Hc.
    rewrite E, sum_list_with_app in Hc. cbn in Hc.
    assert (Hx : awaited (ev_id event) x = 1) by (unfold awaited; by rewrite decide_True). lia.
Qed.

(** C7: A job counts as done only if one of its guardian's channels took the notification, and as failed
    only if every one refused it: no job is dropped because it has nowhere to go. *)
Theorem done_means_delivered {W : WebCrypto} {B : BoxCrypto}
    (url_with : option (list (string * string) -> string)) (o : NotifierOptions) (qo : QueueOptions)
    (f : Journal DispatchJob) (Hf : Forall (fun j => isReachable o (contact (payload j)) = true) (jobs (load f)))
    (tr : list RLabel) (r : Relayer) (Hr : rsteps url_with o qo (createRelayer f) tr r) :
  Forall (fun l => match l with
                   | Attempted job accepted (Ok _) => accepted <> [] /\ posts o (payload job) <> []
                   | Attempted job accepted (Throw _) => accepted = [] /\ posts o (payload job) <> []
                   | _ => True
                   end) tr.
Proof.
  enough (H : Forall _ tr /\ reachable_jobs o (r_queue r)) by apply H.
  remember (createRelayer f) as r0 eqn:E. induction Hr as [|r0 tr r1 l r2 _ IH Hl].
  { subst. by repeat split. }
  destruct (IH E) as [Htr Hr1]. split; [|by eapply rstep_reachable].
  apply Forall_app. split; [done|]. constructor; [|done].
  destruct Hl as [| | | |postJson w now job outcome r' Hc Ea| | |]; try done.
  assert (Hp : posts o (payload job) <> []).
  { apply posts_of_reachable. apply current_lookup in Hc as (i & _ & Hi). destruct Hr1 as [Hr1 _].
    by eapply Forall_lookup_1 in Hi; [|exact Hr1]. }
  pose proof (dispatch_accepted o postJson (payload job) Hp) as H. unfold attempt_ends in Ea.
  destruct (dispatch _ _ _); injection Ea as <- _; done.
Qed.

(** ** The happy path *)
Section Happy.
Context {W : WebCrypto} {B : BoxCrypto}.

Lemma enqueue_ids w now id (p : DispatchJob) q :
  (enqueue w now id p q).1 = negb (seen id (state q))
  /\ (forall i, i ∈ ids (state (enqueue w now id p q).2) <-> i ∈ ids (state q) \/ i = id).
Proof.
  unfold enqueue. destruct (seen id (state q)) eqn:E; cbn.
  - apply seen_ids_true in E. split; [done|]. intros i. split; [by left|]. by intros [?| ->].
  - split; [done|]. intros i. unfold ids. cbn [jobs completedIds dead].
    rewrite map_app. rewrite !elem_of_app. cbn. rewrite list_elem_of_singleton. tauto.
Qed.

Lemma enqueue_jobs_ids written now (l : list DispatchJob) q :
  let '(queued, q') := enqueue_jobs written now l q in
  (forall id, id ∈ ids (state q') <-> id ∈ ids (state q) \/ id ∈ map dj_id l)
  /\ (forall id, id ∈ queued <-> id ∈ map dj_id l /\ id ∉ ids (state q))
  /\ NoDup queued.
Proof.
  revert q. induction l as [|job l IH]; intros q; cbn [enqueue_jobs map].
  - split; [|split; [|constructor]]; intros id; rewrite elem_of_nil; tauto.
  - destruct (enqueue_ids (written (dj_id job)) now (dj_id job) job q) as [E1 E2].
    destruct (enqueue _ _ _ _ q) as [fresh q1]. cbn [fst snd] in *. specialize (IH q1).
    destruct (enqueue_jobs written now l q1) as [queued q']. destruct IH as (H1 & H2 & H3).
    split; [|split].
    + intros id. rewrite H1, E2, elem_of_cons. tauto.
    + intros id. destruct fresh; rewrite ?elem_of_cons, H2, E2.
      * symmetry in E1. apply negb_true_iff, seen_ids in E1.
        destruct (decide (id = dj_id job)) as [->|?]; tauto.
      * symmetry in E1. apply negb_false_iff, seen_ids_true in E1.
        destruct (decide (id = dj_id job)) as [->|?]; tauto.
    + destruct fresh; [|done]. constructor; [|done]. rewrite H2, E2. tauto.
Qed.
End Happy.

(** When the contacts of an awaited event arrive, a job for each reachable guardian is in the queue or
    already known to it, the ids it reports as queued are exactly the new ones, each once, and they are
    counted; one contact with a bad key, or a registry that does not answer, queues nothing. *)
Theorem resolved_event_is_queued {W : WebCrypto} {B : BoxCrypto} (o : NotifierOptions)
    (written : string -> bool) (now : Z) (draws : Draws) (reply : RegistryReply) (i : nat) (r : Relayer)
    (event : AccessRequestEvent) (waiting : Awaiting) (Hi : resolving r !! i = Some (event, waiting)) :
  let reachable cs := List.filter (isReachable o) cs in
  let job_ids cs := map (fun c => (ev_id event ++ ":" ++ toLowerCase (guardian c))%string) (reachable cs) in
  exists out r', handleEvent_resumes o written now draws reply i r = (Some (event, out), r')
    /\ resolving r' = delete i (resolving r)
    /\ match (resolve_end now reply waiting (r_cache r)).1 with
       | Throw e => out = Throw e /\ r_queue r' = r_queue r
       | Ok contacts =>
           if existsb bad_key (reachable contacts) then is_ok out = false /\ r_queue r' = r_queue r
           else exists queued, out = Ok queued /\ NoDup queued
             /\ notificationsQueued r' = (notificationsQueued r + length queued)%nat
             /\ (forall id, id ∈ queued <-> id ∈ job_ids contacts /\ id ∉ ids (state (r_queue r)))
             /\ (forall id, id ∈ ids (state (r_queue r')) <->
                             id ∈ ids (state (r_queue r)) \/ id ∈ job_ids contacts)
       end.
Proof.
  cbv zeta. unfold handleEvent_resumes. rewrite Hi.
  destruct (resolve_end now reply waiting (r_cache r)) as [[contacts|e] cache]; cbn [fst res_bind].
  2:{ by eexists _, _. }
  pose proof (build_jobs_ok o event (buildNotification event (approvalUiBaseUrl o)) now draws 0 contacts) as H.
  cbv zeta in H. unfold buildJobs. destruct (existsb _ _).
  - destruct H as [e ->]. by eexists _, _.
  - destruct H as (jobs & -> & Hm & Hf).
    assert (Hids : map dj_id jobs = map (fun c => (ev_id event ++ ":" ++ toLowerCase (guardian c))%string)
                                      (List.filter (isReachable o) contacts)).
    { rewrite <- Hm, map_map. apply map_ext_Forall. eapply Forall_impl; [exact Hf|]. by intros j (-> & _). }
    pose proof (enqueue_jobs_ids written now jobs (r_queue r)) as Hq.
    destruct (enqueue_jobs _ _ _ _) as [queued q]. destruct Hq as (H1 & H2 & H3). rewrite Hids in H1, H2.
    eexists _, _. split; [done|]. split; [done|]. by exists queued.
Qed.

(** ** A run *)
Module DemoRun.
Import Mirror TextBox.
#[local] Existing Instances text_box.

Definition url (params : list (string * string)) : string :=
  join "&" (map (fun kv => (kv.1 ++ "=" ++ kv.2)%string) params).
Definition options : QueueOptions := default_options None None None.
Definition registry : RegistryReply :=
  RegistryBody (JArr [JObj [("guardian", JStr "0xG"); ("channels", JObj [("email", JStr "g@mail")])]])%string.
Definition down : RegistryReply := RegistryStatus 503.
Definition draws : Draws := fun _ => ([], []).
Definition ok_post : Post -> res unit := fun _ => Ok tt.

Definition resumes (reply : RegistryReply) (r : Relayer) :=
  handleEvent_resumes demo_notifier (fun _ => true) 5 draws reply 0 r.

Definition s1 : Relayer := onEvent (Some url) 0 demo_event (createRelayer Missing).
Definition lost : Relayer := (resumes down s1).2.
Definition s2 : Relayer := (resumes registry s1).2.
Definition s3 : Relayer := with_queue (start (r_queue s2)) s2.
Definition s4 : Relayer := with_queue (pump_begin 6 (r_queue s3)).2 s3.
Definition flown : PersistedJob DispatchJob :=
  match current (r_queue s4) with Some j => j | None => mkJob "" demo_job 0 0%Z None end.
Definition s5 : Relayer := (attempt_ends demo_notifier options ok_post true 7 (payload flown) s4).2.
Definition trace : list RLabel :=
  [Detected demo_event; Handled demo_event ["evm:c:1:0:0xg"%string]; QueueSwitched; Pumped "evm:c:1:0:0xg";
   Attempted flown (accepting demo_notifier ok_post (payload flown)) (Ok tt)].

Lemma detected : rsteps (Some url) demo_notifier options (createRelayer Missing) [Detected demo_event] s1.
Proof. apply (rsteps_snoc _ _ _ _ [] (createRelayer Missing)); constructor. Qed.

Lemma unresolved : rstep (Some url) demo_notifier options s1
  (Unresolved demo_event "Contacts registry 503") lost.
Proof.
  apply (r_unresolved _ _ _ s1 (fun _ => true) 5 draws down 0). vm_compute. reflexivity.
Qed.

Lemma run : rsteps (Some url) demo_notifier options (createRelayer Missing) trace s5.
Proof.
  apply (rsteps_snoc _ _ _ _ (firstn 4 trace) s4).
  - apply (rsteps_snoc _ _ _ _ (firstn 3 trace) s3).
    + apply (rsteps_snoc _ _ _ _ (firstn 2 trace) s2).
      * apply (rsteps_snoc _ _ _ _ (firstn 1 trace) s1); [exact detected|].
        apply (r_handle _ _ _ s1 (fun _ => true) 5 draws registry 0). vm_compute. reflexivity.
      * apply r_start.
    + apply (r_pump _ _ _ s3 6 (mkJob (job_id flown) (payload flown) 1 5%Z None)); vm_compute; reflexivity.
  - apply (r_attempt _ _ _ s4 ok_post true 7); vm_compute; reflexivity.
Qed.
End DemoRun.
Import Mirror TextBox DemoRun.

Lemma failed_event_is_lost_witness :
  resolving (onEvent (Some url) 9 demo_event lost) = [] /\ ev_id demo_event ∉ map (fun x => ev_id x.1) (resolving lost).
Proof.
  split; [vm_compute; reflexivity|].
  apply (failed_event_is_lost _ _ _ _ _ _ detected _ _ _ unresolved [] lost); [constructor|].
  intros H. by apply elem_of_nil in H.
Defined.

Lemma done_means_delivered_witness :
  accepting demo_notifier ok_post (payload flown) = ["email"%string] /\
  Forall (fun l => match l with
                   | Attempted job accepted (Ok _) => accepted <> [] /\ posts demo_notifier (payload job) <> []
                   | Attempted job accepted (Throw _) => accepted = [] /\ posts demo_notifier (payload job) <> []
                   | _ => True
                   end) trace.
Proof.
  split; [vm_compute; reflexivity|].
  apply (done_means_delivered _ _ _ Missing (List.Forall_nil _) _ _ run).
Defined.

Lemma resolved_event_is_queued_witness : exists out r',
  resumes registry s1 = (Some (demo_event, out), r') /\ resolving r' = [].
Proof.
  destruct (resolved_event_is_queued demo_notifier (fun _ => true) 5 draws registry 0 s1 demo_event
              (FromRegistry "chain=evm&contractId=c&requestId=3&documentId=4&requester=0xab") ltac:(vm_compute; reflexivity))
    as (out & r' & E & Hr & _).
  exists out, r'. split; [exact E|]. rewrite Hr. vm_compute. reflexivity.
Defined.
