(* ===== verification/TtlCache.v ===== *)
(** * TtlCache: the cache of shared/utils/ttlCache.ts

    The two maps of the cache and the requests in the air, which outlive their entry
    in [pending].  A step is a piece of code between two awaits; a request is named by
    its position in the order of the calls of [fetchFn].  Times are milliseconds. *)

From Stdlib Require Import ZArith Lia.
From stdpp Require Import base list gmap strings.
From S2P Require Import Prelude.

Open Scope list_scope.
Open Scope Z_scope.

Section Cache.
Context {T : Type}.

Record CacheEntry : Type := mkEntry { data : T; timestamp : Z }.

(** [flying]: the key of each request whose promise is not settled. *)
Record TTLCache : Type := mkCache {
  cache : gmap string CacheEntry; pending : gmap string nat; ttlMs : Z;
  flying : gmap nat string; issued : nat
}.

Definition new_cache (ttlMsOrSeconds : Z) : TTLCache :=
  mkCache ∅ ∅ (if ttlMsOrSeconds <=? 1000 then ttlMsOrSeconds * 1000 else ttlMsOrSeconds) ∅ 0.

(** What the promise of [fetch] is: the cached data, or the promise of a request. *)
Inductive Fetched : Type :=
| Hit (d : T)
| Shared (request : nat)
| Issued (request : nat).

Definition fetch (now : Z) (key : string) (c : TTLCache) : Fetched * TTLCache :=
  let miss :=
    match pending c !! key with
    | Some p => (Shared p, c)
    | None =>
        (Issued (issued c),
         mkCache (cache c) (<[key := issued c]> (pending c)) (ttlMs c)
           (<[issued c := key]> (flying c)) (S (issued c)))
    end in
  match cache c !! key with
  | Some entry => if now - timestamp entry <? ttlMs c then (Hit (data entry), c) else miss
  | None => miss
  end.

(** A request settles: [then] on success, [finally] in both cases. *)
Definition settle (now : Z) (request : nat) (result : option T) (c : TTLCache) : TTLCache :=
  match flying c !! request with
  | None => c
  | Some key =>
      mkCache (match result with Some d => <[key := mkEntry d now]> (cache c) | None => cache c end)
        (delete key (pending c)) (ttlMs c) (delete request (flying c)) (issued c)
  end.

(** [clear]; an empty key is falsy and clears everything. *)
Definition clear (key : option string) (c : TTLCache) : TTLCache :=
  match key with
  | Some k =>
      if bool_decide (k = ""%string) then mkCache ∅ ∅ (ttlMs c) (flying c) (issued c)
      else mkCache (delete k (cache c)) (delete k (pending c)) (ttlMs c) (flying c) (issued c)
  | None => mkCache ∅ ∅ (ttlMs c) (flying c) (issued c)
  end.

Definition invalidate (key : string) (c : TTLCache) : TTLCache := clear (Some key) c.

Definition hasValidKey (now : Z) (key : string) (c : TTLCache) : bool :=
  match cache c !! key with
  | Some entry => now - timestamp entry <? ttlMs c
  | None => false
  end.

(** ** Steps *)

Inductive CLabel : Type :=
| Fetching (now : Z) (key : string) (out : Fetched)
| Settled (now : Z) (request : nat) (key : string) (result : option T)
| Cleared (key : option string).

Inductive cstep (c : TTLCache) : CLabel -> TTLCache -> Prop :=
| c_fetch now key out c' : fetch now key c = (out, c') -> cstep c (Fetching now key out) c'
| c_settle now request key result :
    flying c !! request = Some key -> cstep c (Settled now request key result) (settle now request result c)
| c_clear key : cstep c (Cleared key) (clear key c).

Inductive csteps : TTLCache -> list CLabel -> TTLCache -> Prop :=
| csteps_nil c : csteps c [] c
| csteps_snoc c tr c' l c'' : csteps c tr c' -> cstep c' l c'' -> csteps c (tr ++ [l]) c''.
End Cache.

Arguments TTLCache T : clear implicits.
Arguments Fetched T : clear implicits.
Arguments CLabel T : clear implicits.

(** ** Invariants *)
Section Proofs.
Context {T : Type}.
Implicit Types (c : TTLCache T) (tr : list (CLabel T)).

(** [pending] names requests in the air, and requests are numbered by the calls. *)
Record cache_ok c : Prop := {
  ok_pending : forall key p, pending c !! key = Some p -> flying c !! p = Some key;
  ok_flying : forall p key, flying c !! p = Some key -> (p < issued c)%nat
}.

Lemma new_cache_ok (t : Z) : cache_ok (@new_cache T t).
Proof. split; cbn; intros ? ? H; by rewrite lookup_empty in H. Qed.

(** No key was cleared, so a request in the air is the pending one of its key. *)
Definition single c : Prop := forall p key, flying c !! p = Some key -> pending c !! key = Some p.

Lemma fetch_cases now key c :
  (exists entry, cache c !! key = Some entry /\ now - timestamp entry < ttlMs c
     /\ fetch now key c = (Hit (data entry), c))
  \/ (hasValidKey now key c = false /\
      match pending c !! key with
      | Some p => fetch now key c = (Shared p, c)
      | None => fetch now key c = (Issued (issued c),
          mkCache (cache c) (<[key := issued c]> (pending c)) (ttlMs c) (<[issued c := key]> (flying c)) (S (issued c)))
      end).
Proof.
  unfold fetch, hasValidKey. destruct (cache c !! key) as [entry|].
  - destruct (Z.ltb_spec (now - timestamp entry) (ttlMs c)); [left; eauto|right].
    by destruct (pending c !! key).
  - right. by destruct (pending c !! key).
Qed.

Lemma cstep_ok c l c' : cache_ok c -> cstep c l c' -> cache_ok c'.
Proof.
  intros [Hp Hf]. destruct 1 as [now key out c' E|now r key result Hr|key].
  - destruct (fetch_cases now key c) as [(e & _ & _ & E')|[_ E']]; [by injection (eq_trans (eq_sym E) E') as -> ->|].
    destruct (pending c !! key) as [p|] eqn:Ep; injection (eq_trans (eq_sym E) E') as -> ->; [done|].
    split; cbn; intros a b; rewrite lookup_insert_Some; intros [[<- <-]|[Hne H]].
    + by rewrite lookup_insert_eq.
    + apply Hp in H. rewrite lookup_insert_ne; [done|]. intros <-. apply Hf in H. lia.
    + lia.
    + apply Hf in H. lia.
  - unfold settle. rewrite Hr. split; cbn; intros a b; rewrite lookup_delete_Some; intros [Hne H]; [|by eapply Hf].
    rewrite lookup_delete_ne; [by apply Hp|]. intros ->. apply Hp in H. congruence.
  - unfold clear. destruct key as [k|]; [case_bool_decide|]; split; cbn; intros a b; try rewrite lookup_empty; try done;
      try apply Hf. rewrite lookup_delete_Some. intros [_ Hd]. by apply Hp.
Qed.

Lemma cstep_single c l c' : single c -> cache_ok c -> cstep c l c' ->
  (forall key, l <> Cleared key) -> single c'.
Proof.
  intros Hs [Hp Hf]. destruct 1 as [now key out c' E|now r key result Hr|key]; intros Hl; [| |by destruct (Hl key)].
  - destruct (fetch_cases now key c) as [(e & _ & _ & E')|[_ E']]; [by injection (eq_trans (eq_sym E) E') as -> ->|].
    destruct (pending c !! key) as [p|] eqn:Ep; injection (eq_trans (eq_sym E) E') as -> ->; [done|].
    intros a b. cbn. rewrite lookup_insert_Some. intros [[<- <-]|[Hne H]]; [by rewrite lookup_insert_eq|].
    apply Hs in H. rewrite lookup_insert_ne; [done|]. congruence.
  - unfold settle. rewrite Hr. intros a b. cbn. rewrite lookup_delete_Some. intros [Hne H].
    rewrite lookup_delete_ne; [by apply Hs|]. intros ->. apply Hs in H, Hr. congruence.
Qed.

Lemma csteps_ok c tr c' : cache_ok c -> csteps c tr c' -> cache_ok c'.
Proof. intros H. induction 1 as [|c tr c1 l c2 _ IH Hl]; [done|]. by eapply cstep_ok; [apply IH|]. Qed.

(** Every entry was put by a request for its key. *)
Definition entries_from tr c : Prop := forall key entry,
  cache c !! key = Some entry -> exists r, Settled (timestamp entry) r key (Some (data entry)) ∈ tr.

Lemma cstep_ttl c l c' : cstep c l c' -> ttlMs c' = ttlMs c.
Proof.
  destruct 1 as [now key out c' E|now r key result Hr|key].
  - destruct (fetch_cases now key c) as [(e & _ & _ & E')|[_ E']]; [by injection (eq_trans (eq_sym E) E') as -> ->|].
    by destruct (pending c !! key); injection (eq_trans (eq_sym E) E') as -> ->.
  - unfold settle. by rewrite Hr.
  - unfold clear. destruct key as [k|]; [by case_bool_decide|done].
Qed.

Lemma csteps_entries c tr c' : cache c = ∅ -> csteps c tr c' -> entries_from tr c' /\ ttlMs c' = ttlMs c.
Proof.
  intros H0. induction 1 as [|c tr c1 l c2 _ IH Hl]; [split; [|done]; intros k e; by rewrite H0, lookup_empty|].
  specialize (IH H0) as [IH Ht]. split; [|by rewrite (cstep_ttl _ _ _ Hl)].
  intros k e Hk. assert (Hold : cache c1 !! k = Some e -> exists r, Settled (timestamp e) r k (Some (data e)) ∈ tr ++ [l]).
  { intros H. destruct (IH _ _ H) as [r Hr]. exists r. apply elem_of_app. by left. }
  destruct Hl as [now key out c' E|now r key result Hr|key].
  - destruct (fetch_cases now key c1) as [(e' & _ & _ & E')|[_ E']]; [injection (eq_trans (eq_sym E) E') as -> ->; auto|].
    destruct (pending c1 !! key); injection (eq_trans (eq_sym E) E') as -> ->; auto.
  - unfold settle in Hk. rewrite Hr in Hk. cbn in Hk. destruct result as [d|]; [|auto].
    apply lookup_insert_Some in Hk as [[<- <-]|[_ Hk]]; [|auto].
    exists r. apply elem_of_app. right. by left.
  - unfold clear in Hk. destruct key as [kk|]; [case_bool_decide|]; cbn in Hk; try by rewrite lookup_empty in Hk.
    apply lookup_delete_Some in Hk as [_ Hk]. auto.
Qed.

(** The requests of a key in a trace, and those that have settled. *)
Definition requests_of (key : string) (l : CLabel T) : nat :=
  match l with Fetching _ k (Issued _) => if decide (k = key) then 1 else 0 | _ => 0 end.
Definition settlements_of (key : string) (l : CLabel T) : nat :=
  match l with Settled _ _ k _ => if decide (k = key) then 1 else 0 | _ => 0 end.

Definition open_requests (key : string) c : nat :=
  match pending c !! key with Some _ => 1 | None => 0 end.

Lemma cstep_requests key c l c' : single c -> cache_ok c -> cstep c l c' -> (forall k, l <> Cleared k) ->
  (open_requests key c' + settlements_of key l = open_requests key c + requests_of key l)%nat.
Proof.
  intros Hs [Hp Hf]. unfold open_requests.
  destruct 1 as [now k out c' E|now r k result Hr|k]; intros Hl; [| |by destruct (Hl k)].
  - cbn [settlements_of requests_of].
    destruct (fetch_cases now k c) as [(e & _ & _ & E')|[_ E']]; [by injection (eq_trans (eq_sym E) E') as -> ->|].
    destruct (pending c !! k) as [p|] eqn:Ep; injection (eq_trans (eq_sym E) E') as -> ->; [done|]. cbn [pending].
    case_decide as Hk; [subst k; by rewrite lookup_insert_eq, Ep|]. by rewrite lookup_insert_ne.
  - cbn [settlements_of requests_of]. unfold settle. rewrite Hr. cbn [pending]. case_decide as Hk.
    + subst k. rewrite lookup_delete_eq. by rewrite (Hs r key Hr).
    + by rewrite lookup_delete_ne, Nat.add_0_r.
Qed.

Lemma csteps_requests key t tr c : csteps (new_cache t) tr c -> (forall k, Cleared k ∉ tr) ->
  single c /\ (open_requests key c + sum_list_with (settlements_of key) tr
              = sum_list_with (requests_of key) tr)%nat.
Proof.
  intros H. remember (new_cache t) as c0 eqn:E0. induction H as [|c0 tr c1 l c2 Htr IH Hl]; intros Hc.
  - subst. split; [|done]. intros p k H. cbn in H. by rewrite lookup_empty in H.
  - assert (Hc' : forall k, Cleared k ∉ tr) by (intros k; specialize (Hc k); set_solver).
    assert (Hne : forall k, l <> Cleared k) by (intros k ->; apply (Hc k); set_solver).
    destruct (IH E0 Hc') as [Hs Hn]. subst c0. assert (Hok := csteps_ok _ _ _ (new_cache_ok t) Htr).
    split; [by eapply cstep_single|].
    pose proof (cstep_requests key _ _ _ Hs Hok Hl Hne) as Hstep.
    rewrite !sum_list_with_app. cbn [sum_list_with]. lia.
Qed.
End Proofs.

(** ** Results *)

(** As long as nothing is cleared, at most one request for a key is in the air at any time, whatever calls
    are made at the same time, and a call that finds it shares its promise. *)
Theorem one_request_per_key {T : Type} (t : Z) (tr : list (CLabel T)) (c : TTLCache T)
    (Hc : csteps (new_cache t) tr c) (Hn : forall k, Cleared k ∉ tr) (now : Z) (key : string) :
  (sum_list_with (requests_of key) tr <= S (sum_list_with (settlements_of key) tr))%nat
  /\ (sum_list_with (requests_of key) tr = S (sum_list_with (settlements_of key) tr) ->
      hasValidKey now key c = false -> exists r, fetch now key c = (Shared r, c) /\ flying c !! r = Some key).
Proof.
  destruct (csteps_requests key t tr c Hc Hn) as [Hs E]. assert (Hok := csteps_ok _ _ _ (new_cache_ok t) Hc).
  unfold open_requests in E. split; [destruct (pending c !! key); lia|]. intros H Hv.
  destruct (pending c !! key) as [p|] eqn:Ep; [|lia].
  destruct (fetch_cases now key c) as [(e & He & Hlt & _)|[_ E']].
  - unfold hasValidKey in Hv. rewrite He in Hv. apply Z.ltb_ge in Hv. lia.
  - rewrite Ep in E'. exists p. split; [done|]. by apply (ok_pending _ Hok).
Qed.

(** Data served from the cache came from a request for the same key that succeeded less than the time to
    live before, and [hasValidKey] tells exactly when a call is served so. *)
Theorem hits_are_fresh {T : Type} (t : Z) (tr : list (CLabel T)) (c : TTLCache T)
    (Hc : csteps (new_cache t) tr c) (now : Z) (key : string) :
  (hasValidKey now key c = true <-> exists d, fetch now key c = (Hit d, c))
  /\ forall d c', fetch now key c = (Hit d, c') ->
       exists at_ms r, Settled at_ms r key (Some d) ∈ tr /\ now - at_ms < ttlMs (@new_cache T t).
Proof.
  destruct (csteps_entries (new_cache t) tr c eq_refl Hc) as [He Ht].
  destruct (fetch_cases now key c) as [(e & Hl & Hlt & E)|[Hv E]].
  - split.
    + split; [by eauto|]. intros _. unfold hasValidKey. rewrite Hl. by apply Z.ltb_lt.
    + intros d c' E'. rewrite E in E'. injection E' as <- <-. destruct (He _ _ Hl) as [r Hr].
      exists (timestamp e), r. split; [done|]. by rewrite <- Ht.
  - rewrite Hv. split; [split; [done|]; intros [d E']|intros d c' E'];
      destruct (pending c !! key); congruence.
Qed.

(** Clearing a key does not stop its request: when the request settles, its answer, read before the clear,
    is served again, and the entry of a newer request for the key is removed, so that the next call after
    the time to live issues a third one while the second is in the air. *)
Theorem cleared_data_returns {T : Type} (c : TTLCache T) (key : string) (Hkey : key <> ""%string) (r : nat)
    (Hr : flying c !! r = Some key) (Hok : cache_ok c) (now now' : Z) (d : T) :
  let '(_, c1) := fetch now key (invalidate key c) in
  let c2 := settle now' r (Some d) c1 in
  (0 < ttlMs c -> fetch now' key c2 = (Hit d, c2))
  /\ pending c2 !! key = None /\ flying c2 !! issued c = Some key
  /\ forall later, ttlMs c <= later - now' -> (fetch later key c2).1 = Issued (S (issued c)).
Proof.
  unfold invalidate, clear. rewrite bool_decide_eq_false_2 by done. unfold fetch at 1. cbn [cache pending].
  rewrite !lookup_delete_eq. cbv zeta. unfold settle. cbn [flying issued ttlMs cache pending].
  assert (Hne : r <> issued c) by (apply (ok_flying _ Hok) in Hr; lia).
  rewrite lookup_insert_ne, Hr by done. cbn. split; [|split; [|split]].
  - intros H. unfold fetch. cbn. rewrite lookup_insert_eq. cbn. rewrite Z.sub_diag.
    by rewrite (proj2 (Z.ltb_lt _ _) H).
  - by rewrite lookup_delete_eq.
  - by rewrite lookup_delete_ne, lookup_insert_eq.
  - intros later H. unfold fetch. cbn. rewrite lookup_insert_eq, lookup_delete_eq. cbn.
    by rewrite (proj2 (Z.ltb_ge _ _) H).
Qed.

(** ** A cache with one request *)
Module DemoCache.
Definition c0 : TTLCache Z := new_cache 10.
Definition c1 : TTLCache Z := (fetch 0 "k" c0).2.
Definition c2 : TTLCache Z := settle 5 0 (Some 7) c1.
Definition trace1 : list (CLabel Z) := [Fetching 0 "k" (Issued 0)].
Definition trace2 : list (CLabel Z) := trace1 ++ [Settled 5 0 "k" (Some 7)].

Lemma run1 : csteps c0 trace1 c1.
Proof. apply (csteps_snoc c0 [] c0); [constructor|]. by constructor. Qed.

Lemma run2 : csteps c0 trace2 c2.
Proof. apply (csteps_snoc c0 trace1 c1); [apply run1|]. by constructor. Qed.
End DemoCache.
Import DemoCache.

Lemma one_request_per_key_witness : exists r, fetch 1 "k" c1 = (Shared r, c1) /\ flying c1 !! r = Some "k"%string.
Proof.
  apply (one_request_per_key 10 trace1 c1 run1); [|reflexivity|reflexivity].
  intros k H. apply list_elem_of_singleton in H. discriminate.
Defined.

Lemma hits_are_fresh_witness : fetch 9 "k" c2 = (Hit 7, c2) /\
  exists at_ms r, Settled at_ms r "k" (Some 7) ∈ trace2 /\ 9 - at_ms < 10000.
Proof.
  split; [reflexivity|]. apply (proj2 (hits_are_fresh 10 trace2 c2 run2 9 "k") 7 c2). reflexivity.
Defined.

Lemma cleared_data_returns_witness :
  let c := settle 3 0 (Some 7) (fetch 2 "k" (invalidate "k" c1)).2 in
  fetch 3 "k" c = (Hit 7, c).
Proof.
  apply (cleared_data_returns c1 "k" ltac:(discriminate) 0 eq_refl
           (csteps_ok _ _ _ (new_cache_ok 10) run1) 2 3 7). reflexivity.
Defined.
