(* ===== verification/SorobanIndexer.v ===== *)
(** * SorobanIndexer: the event indexer of sorobanEventIndexer.service.ts

    The store is the memory of the page and the three IndexedDB object stores, maps by
    their key paths; a reload keeps the latter.  A poll is a step from the request to
    the end of its page; timers and sockets are left out, their callbacks are steps. *)

From Stdlib Require Import Ascii String ZArith Lia Bool.
From stdpp Require Import base list gmap strings.
From S2P Require Import Prelude JsString JsonText Cursor.

Open Scope list_scope.
Open Scope Z_scope.

(** ** Events *)

Inductive SorobanEventTopic : Type := VaultCreated | GuardianAdded | AccessRequested.

#[global] Instance topic_eq_dec : EqDecision SorobanEventTopic.
Proof. solve_decision. Defined.
#[global] Instance topic_countable : Countable SorobanEventTopic.
Proof.
  refine (inj_countable' (fun t => match t with VaultCreated => 0 | GuardianAdded => 1 | AccessRequested => 2 end)%nat
            (fun n => match n with O => VaultCreated | 1%nat => GuardianAdded | _ => AccessRequested end) _).
  by intros [].
Defined.

Definition SOROBAN_EVENT_TOPICS : list SorobanEventTopic := [VaultCreated; GuardianAdded; AccessRequested].

Definition topic_text (t : SorobanEventTopic) : string :=
  match t with
  | VaultCreated => "VaultCreated" | GuardianAdded => "GuardianAdded" | AccessRequested => "AccessRequested"
  end.

Record IndexedSorobanEvent : Type := mkIndexed {
  ie_id : string; ie_cursor : string; ie_contractId : string; ie_ledger : Z; ie_closedAt : string;
  ie_topic : SorobanEventTopic; ie_rawTopics : list string; ie_value : option json
}.

(** [String(v)] *)
Fixpoint js_String (v : json) : string :=
  match v with
  | JNull => "null"
  | JBool b => if b then "true" else "false"
  | JNum n => num_str n
  | JStr s => s
  | JArr l => join "," (map (fun v => match v with JNull => "" | _ => js_String v end) l)
  | JObj _ => "[object Object]"
  end.

(** The [topic] member: missing or null, an array, or something without [map]. *)
Inductive TopicField : Type := NoTopics | Topics (l : list json) | NotAnArray.

Record RpcEvent : Type := mkRpc {
  rpc_id : option string; rpc_pagingToken : option string; rpc_contractId : option string;
  rpc_ledger : option Z; rpc_closedAt : option string; rpc_topic : TopicField; rpc_value : option json
}.

(** [join(" ")] of the topics, and the first known topic it contains. *)
Definition topicFrom (rawTopics : list string) : option SorobanEventTopic :=
  let text := join " " rawTopics in
  List.find (fun t => includes (topic_text t) text) SOROBAN_EVENT_TOPICS.

Definition rpc_cursor (raw : RpcEvent) : option string :=
  match rpc_pagingToken raw with Some t => Some t | None => rpc_id raw end.

(** [iso] is the time of the call, used when the ledger's is missing. *)
Definition parseSorobanEvent (iso : string) (raw : RpcEvent) (fallbackContractId : string)
    : res (option IndexedSorobanEvent) :=
  let! rawTopics := match rpc_topic raw with
                    | NoTopics => Ok []
                    | Topics l => Ok (map js_String l)
                    | NotAnArray => Throw "map is not a function"
                    end in
  match topicFrom rawTopics, rpc_cursor raw with
  | Some topic, Some cursor =>
      if String.eqb cursor "" then Ok None
      else Ok (Some (mkIndexed (default cursor (rpc_id raw)) cursor (default fallbackContractId (rpc_contractId raw))
                       (default 0 (rpc_ledger raw)) (default iso (rpc_closedAt raw)) topic rawTopics (rpc_value raw)))
  | _, _ => Ok None
  end.

(** ** EventStore *)

(** IndexedDB: [events] by id, the topic index by topic, the cursors by contract. *)
Record Database : Type := mkDb {
  db_events : gmap string IndexedSorobanEvent; db_topics : gmap SorobanEventTopic string;
  db_cursors : gmap string string
}.

Record EventStore : Type := mkStore {
  memory : gmap string IndexedSorobanEvent; topicIndex : gmap SorobanEventTopic (list string);
  eventsIndexed : nat; database : option Database
}.

Definition empty_db : Database := mkDb ∅ ∅ ∅.

(** A page that starts with the database it finds, if there is one. *)
Definition open_store (db : option Database) : EventStore := mkStore ∅ ∅ 0 db.

(** [Set.add] *)
Definition set_add (id : string) (ids : list string) : list string :=
  if bool_decide (id ∈ ids) then ids else ids ++ [id].

Definition put_db (event : IndexedSorobanEvent) (db : Database) : Database :=
  mkDb (<[ie_id event := event]> (db_events db)) (<[ie_topic event := ie_id event]> (db_topics db))
    (<[ie_contractId event := ie_cursor event]> (db_cursors db)).

(** [committed]: the transaction succeeds. *)
Definition put (committed : bool) (event : IndexedSorobanEvent) (s : EventStore) : EventStore :=
  mkStore (<[ie_id event := event]> (memory s))
    (<[ie_topic event := set_add (ie_id event) (default [] (topicIndex s !! ie_topic event))]> (topicIndex s))
    (S (eventsIndexed s))
    (match database s with
     | Some db => Some (if committed then put_db event db else db)
     | None => None
     end).

Definition getByTopic (topic : SorobanEventTopic) (s : EventStore) : list IndexedSorobanEvent :=
  match topicIndex s !! topic with
  | Some ids => omap (fun id => memory s !! id) ids
  | None =>
      match database s with
      | None => []
      | Some db =>
          let eventIds := match db_topics db !! topic with Some id => [id] | None => [] end in
          omap (fun id => db_events db !! id) eventIds
      end
  end.

Definition getCursor (contractId : string) (s : EventStore) : option string :=
  match database s with Some db => db_cursors db !! contractId | None => None end.

(** ** SorobanEventIndexer *)

Record IndexerConfig : Type := mkConfig {
  pollIntervalMs : Z; maxRetries : option nat; initialBackoffMs : Z; maxBackoffMs : Z; batchSize : nat
}.

Definition DEFAULT_CONFIG : IndexerConfig := mkConfig 250 None 500 30000 100.

(** [delivered]: the events the listeners were called with, in order. *)
Record Indexer : Type := mkIndexer {
  running : bool; cursor : option string; failures : nat; contractId : string;
  store : EventStore; config : IndexerConfig; lastPollTime : Z; delivered : list IndexedSorobanEvent
}.

Definition new_indexer (db : option Database) (cfg : IndexerConfig) : Indexer :=
  mkIndexer false None 0 "" (open_store db) cfg 0 [].

Definition stop (x : Indexer) : Indexer :=
  mkIndexer false (cursor x) (failures x) (contractId x) (store x) (config x) (lastPollTime x) (delivered x).

Definition start (contract : string) (x : Indexer) : Indexer :=
  let x := stop x in
  mkIndexer true (cursor x) (failures x) contract (store x) (config x) (lastPollTime x) (delivered x).

(** The persisted cursor arrives after [start] has returned. *)
Definition cursor_loaded (contract : string) (x : Indexer) : Indexer :=
  match getCursor contract (store x) with
  | Some c =>
      if String.eqb c "" then x
      else mkIndexer (running x) (Some c) (failures x) (contractId x) (store x) (config x) (lastPollTime x)
             (delivered x)
  | None => x
  end.

Definition calculateBackoff (x : Indexer) : Z :=
  if (failures x =? 0)%nat then pollIntervalMs (config x)
  else Z.min (initialBackoffMs (config x) * 2 ^ Z.of_nat (Nat.min (failures x - 1) 6)) (maxBackoffMs (config x)).

(** [publish], without the socket. *)
Definition publish (committed : bool) (event : IndexedSorobanEvent) (x : Indexer) : Indexer :=
  mkIndexer (running x) (cursor x) (failures x) (contractId x) (put committed event (store x)) (config x)
    (lastPollTime x) (delivered x ++ [event]).

Definition set_cursor (c : string) (x : Indexer) : Indexer :=
  mkIndexer (running x) (Some c) (failures x) (contractId x) (store x) (config x) (lastPollTime x) (delivered x).
Definition set_failures (n : nat) (x : Indexer) : Indexer :=
  mkIndexer (running x) (cursor x) n (contractId x) (store x) (config x) (lastPollTime x) (delivered x).

(** The loop over a page; a topic that is no array throws out of it. *)
Fixpoint index_page (committed : string -> bool) (iso : string) (events : list RpcEvent) (x : Indexer)
    : res unit * Indexer :=
  match events with
  | [] => (Ok tt, x)
  | raw :: events =>
      match parseSorobanEvent iso raw (contractId x) with
      | Throw e => (Throw e, x)
      | Ok None => index_page committed iso events x
      | Ok (Some event) =>
          index_page committed iso events (publish (committed (ie_id event)) event (set_cursor (ie_cursor event) x))
      end
  end.

(** What the RPC answers. *)
Inductive PollReply : Type := PollError (e : string) | PollEvents (events : list RpcEvent).

(** The request of a poll: the cursor and the limit it asks for. *)
Definition poll_request (x : Indexer) : option string * nat := (cursor x, batchSize (config x)).

(** A poll, and the delay of the next one if it is scheduled. *)
Definition poll (committed : string -> bool) (iso : string) (now : Z)
    (rpc : option string * nat -> PollReply) (x : Indexer) : option Z * Indexer :=
  if negb (running x) then (None, x)
  else
    let x := mkIndexer (running x) (cursor x) (failures x) (contractId x) (store x) (config x) now (delivered x) in
    let '(outcome, x) :=
      match rpc (poll_request x) with
      | PollError e => (Throw e, x)
      | PollEvents events => index_page committed iso events x
      end in
    match outcome with
    | Ok _ => let x := set_failures 0 x in (Some (calculateBackoff x), x)
    | Throw _ =>
        let x := set_failures (S (failures x)) x in
        match maxRetries (config x) with
        | Some n => if (n <=? failures x)%nat then (None, stop x) else (Some (calculateBackoff x), x)
        | None => (Some (calculateBackoff x), x)
        end
    end.

(** [socket.onmessage] with the parsed message; what it throws is dropped. *)
Definition relay_message (committed : bool) (iso : string) (raw : RpcEvent) (x : Indexer) : Indexer :=
  match parseSorobanEvent iso raw (contractId x) with
  | Ok (Some event) => publish committed event x
  | _ => x
  end.

(** What [publish] sends to an open socket: the JSON text of the event, as another indexer reads it. *)
Definition forwarded (event : IndexedSorobanEvent) : RpcEvent :=
  mkRpc (Some (ie_id event)) None (Some (ie_contractId event)) (Some (ie_ledger event)) (Some (ie_closedAt event))
    NotAnArray (ie_value event).

(** * What the indexer publishes and what its store keeps

    Events are published in order and once as long as the pages keep reaching an event
    of a known topic; a page without one is read for ever.  The topic index that
    survives a reload keeps one event for each topic. *)

Open Scope list_scope.
Open Scope nat_scope.

(** ** Reading a log *)
Section Reading.
Variables (contract : string) (log : list RpcEvent).

Definition rpc_token (raw : RpcEvent) : string := default ""%string (rpc_cursor raw).

(** The event of a log entry, with an empty default for its time. *)
Definition entry_event (raw : RpcEvent) : option IndexedSorobanEvent :=
  match parseSorobanEvent "" raw contract with Ok e => e | Throw _ => None end.

Definition interesting (raw : RpcEvent) : bool := bool_decide (is_Some (entry_event raw)).

(** What an event says of the chain. *)
Definition event_key (e : IndexedSorobanEvent) :=
  (ie_id e, ie_cursor e, ie_contractId e, ie_ledger e, (ie_topic e, ie_rawTopics e, ie_value e)).

(** The entries of a contract: arrays of topics, under paging tokens of their own. *)
Record log_ok : Prop := {
  ok_topics : Forall (fun raw => rpc_topic raw <> NotAnArray /\ rpc_cursor raw <> None /\ rpc_token raw <> ""%string) log;
  ok_tokens : NoDup (map rpc_token log)
}.

Definition published (l : list RpcEvent) : list IndexedSorobanEvent := omap entry_event l.

Lemma parse_entry (iso : string) (raw : RpcEvent) : rpc_topic raw <> NotAnArray ->
  match parseSorobanEvent iso raw contract with
  | Ok (Some e) => interesting raw = true /\ event_key <$> entry_event raw = Some (event_key e)
                   /\ ie_cursor e = rpc_token raw
  | Ok None => interesting raw = false
  | Throw _ => False
  end.
Proof.
  intros Ht. unfold interesting, entry_event, parseSorobanEvent, rpc_token.
  destruct (rpc_topic raw) as [|l|]; [| |done]; cbn [res_bind];
    (destruct (topicFrom _) as [t|]; [|done]; destruct (rpc_cursor raw) as [c|]; [|done];
     by destruct (String.eqb c "")).
Qed.

(** The length of a page up to its last event of a known topic. *)
Fixpoint advance (l : list RpcEvent) : nat :=
  match l with
  | [] => 0
  | raw :: l =>
      match advance l with
      | O => if interesting raw then 1 else 0
      | S n => S (S n)
      end
  end.

Lemma advance_le (l : list RpcEvent) : advance l <= length l.
Proof.
  induction l as [|raw l IH]; cbn; [lia|]. destruct (advance l); [destruct (interesting raw); lia|lia].
Qed.

Lemma advance_none (l : list RpcEvent) : advance l = 0 <-> Forall (fun raw => interesting raw = false) l.
Proof.
  induction l as [|raw l IH]; [by split; [constructor|]|]. cbn. rewrite Forall_cons.
  destruct (advance l); [|split; [done|intros [_ H]; by apply IH in H]].
  destruct (interesting raw); split; [done|by intros [? _]|intros _; by split; [|apply IH]|done].
Qed.

Lemma published_advance (l : list RpcEvent) : published (firstn (advance l) l) = published l.
Proof.
  induction l as [|raw l IH]; [done|]. cbn [advance]. destruct (advance l) as [|n] eqn:E.
  - change (published (raw :: l)) with (match entry_event raw with Some e => e :: published l | None => published l end).
    rewrite <- IH. unfold interesting. destruct (entry_event raw) as [e|] eqn:Ee; cbn.
    + by rewrite Ee.
    + done.
  - cbn [firstn]. unfold published in *. cbn. by destruct (entry_event raw); rewrite IH.
Qed.

Lemma index_page_ok (committed : string -> bool) (iso : string) (l : list RpcEvent) (x : Indexer) :
  Forall (fun raw => rpc_topic raw <> NotAnArray) l -> contractId x = contract ->
  exists x', index_page committed iso l x = (Ok tt, x')
    /\ cursor x' = match rpc_token <$> last (firstn (advance l) l) with Some t => Some t | None => cursor x end
    /\ map event_key (delivered x') = map event_key (delivered x ++ published l)
    /\ contractId x' = contract /\ config x' = config x /\ running x' = running x
    /\ (advance l = 0 -> x' = x).
Proof.
  intros Hl. revert x. induction Hl as [|raw l Ht _ IH]; intros x Hx.
  { exists x. cbn. by rewrite app_nil_r. }
  cbn [index_page advance]. pose proof (parse_entry iso raw Ht) as Hp. rewrite Hx.
  destruct (parseSorobanEvent iso raw contract) as [[e|]|]; [| |done].
  - destruct Hp as (Hi & Hk & Hc). rewrite Hi.
    destruct (IH (publish (committed (ie_id e)) e (set_cursor (ie_cursor e) x)) Hx) as (x' & -> & E1 & E2 & E3 & E4 & E5 & _).
    exists x'. split; [done|]. split; [|split; [|split; [done|split; [done|split; [done|]]]]].
    + rewrite E1. destruct (advance l) as [|n]; cbn; [by rewrite Hc|].
      rewrite (last_cons raw (firstn (S n) l)).
      destruct (last (firstn (S n) l)) eqn:El; [done|]. cbn. by rewrite Hc.
    + rewrite E2. cbn. unfold published. cbn. destruct (entry_event raw) as [e'|]; [|done].
      cbn in Hk. rewrite !map_app. cbn. rewrite <- app_assoc. cbn. congruence.
    + by destruct (advance l).
  - destruct (IH x Hx) as (x' & -> & E1 & E2 & E3 & E4 & E5 & E6). exists x'. rewrite Hp.
    split; [done|]. split; [|split; [|split; [done|split; [done|split; [done|]]]]].
    + rewrite E1. destruct (advance l) as [|n] eqn:En; [done|]. cbn.
      rewrite (last_cons raw (firstn (S n) l)).
      destruct (last (firstn (S n) l)) eqn:El; [done|].
      apply last_None in El. pose proof (advance_le l). destruct l; [cbn in *; lia|done].
    + rewrite E2. unfold published. cbn. unfold interesting in Hp.
      apply bool_decide_eq_false in Hp. by destruct (entry_event raw); [destruct Hp|].
    + by destruct (advance l).
Qed.

Lemma published_none (l : list RpcEvent) : advance l = 0 <-> published l = [].
Proof.
  rewrite advance_none. unfold published. induction l as [|raw l IH]; [by split; [|constructor]|].
  rewrite Forall_cons, IH. cbn. unfold interesting.
  destruct (entry_event raw); cbn; split; try done; try (by intros [? ?]).
Qed.

Lemma advance_drop (p : nat) (l : list RpcEvent) : advance (drop p l) = advance l - p.
Proof.
  revert p. induction l as [|raw l IH]; intros [|p]; cbn [drop]; try done.
  - by rewrite Nat.sub_0_r.
  - rewrite IH. cbn [advance]. destruct (advance l); [destruct (interesting raw)|]; lia.
Qed.

Lemma published_app (a b : list RpcEvent) : published (a ++ b) = published a ++ published b.
Proof. apply omap_app. Qed.

Lemma published_enough (p : nat) : advance log <= p -> published (firstn p log) = published log.
Proof.
  intros H. rewrite <- (take_drop p log) at 2. rewrite published_app.
  assert (E : published (drop p log) = []) by (apply published_none; rewrite advance_drop; lia).
  by rewrite E, app_nil_r.
Qed.

(** ** Polls *)

(** A node that fails or gives entries after the cursor, up to the limit; one that gives all it can. *)
Definition honest (rpc : option string * nat -> PollReply) : Prop :=
  forall c n, match rpc (c, n) with
              | PollEvents l => exists k, k <= n /\ l = firstn k (from_cursor rpc_token log c)
              | PollError _ => True
              end.
Definition full (rpc : option string * nat -> PollReply) : Prop :=
  forall c n, rpc (c, n) = PollEvents (firstn n (from_cursor rpc_token log c)).

Record Poll : Type := mkPoll {
  pl_rpc : option string * nat -> PollReply; pl_now : Z; pl_iso : string; pl_committed : string -> bool
}.

Definition run_poll (x : Indexer) (t : Poll) : Indexer :=
  (poll (pl_committed t) (pl_iso t) (pl_now t) (pl_rpc t) x).2.
Definition run_polls (polls : list Poll) (x : Indexer) : Indexer := foldl run_poll x polls.

(** The indexer has read the log up to [p]. *)
Record at_position (p : nat) (x : Indexer) : Prop := {
  at_length : p <= length log;
  at_running : running x = true;
  at_contract : contractId x = contract;
  at_cursor : cursor x = cursor_at rpc_token log p;
  at_delivered : map event_key (delivered x) = map event_key (published (firstn p log))
}.

Lemma page_topics (k p : nat) : log_ok -> Forall (fun raw => rpc_topic raw <> NotAnArray) (firstn k (drop p log)).
Proof.
  intros [H _]. apply Forall_take, Forall_drop. eapply Forall_impl; [exact H|]. by intros raw (? & _).
Qed.

Lemma poll_position (p : nat) (x : Indexer) (t : Poll) : log_ok -> honest (pl_rpc t) -> at_position p x ->
  maxRetries (config x) = None ->
  exists p', at_position p' (run_poll x t) /\ p <= p' /\ config (run_poll x t) = config x
    /\ (full (pl_rpc t) -> p' = p + advance (firstn (batchSize (config x)) (drop p log))).
Proof.
  intros Hok Hh [Hp Hr Hc Hcur Hd] Hm. unfold run_poll, poll, poll_request. rewrite Hr. cbn [negb config cursor].
  specialize (Hh (cursor x) (batchSize (config x))).
  destruct (pl_rpc t (cursor x, batchSize (config x))) as [e|l] eqn:E.
  - cbn [config set_failures]. rewrite Hm. exists p. split; [by split|]. split; [done|]. split; [done|].
    intros Hf. by rewrite Hf in E.
  - destruct Hh as (k & _ & ->). rewrite Hcur, from_cursor_at in * by (done || apply Hok).
    set (x0 := mkIndexer _ _ _ _ _ _ _ _).
    destruct (index_page_ok (pl_committed t) (pl_iso t) (firstn k (drop p log)) x0 (page_topics k p Hok) Hc)
      as (x' & -> & E1 & E2 & E3 & E4 & E5 & _).
    set (n := advance (firstn k (drop p log))) in *. exists (p + n). cbn [snd config set_failures].
    assert (Hn : n <= length (firstn k (drop p log))) by apply advance_le.
    rewrite length_firstn, length_drop in Hn.
    assert (En : firstn n (firstn k (drop p log)) = firstn n (drop p log)).
    { rewrite firstn_firstn. f_equal. lia. }
    split; [split|split; [lia|split; [done|]]]; cbn [running contractId cursor delivered set_failures].
    + lia.
    + by rewrite E5.
    + done.
    + by rewrite E1, En, cursor_at_add.
    + rewrite E2, map_app. cbn [delivered x0]. rewrite Hd, <- map_app. f_equal.
      rewrite <- take_take_drop, published_app. f_equal. rewrite <- En. symmetry. apply published_advance.
    + intros Hf. rewrite Hf, from_cursor_at in E by (done || apply Hok). injection E as E. unfold n. by rewrite E.
Qed.

(** Between two events of known topics there are less than a page of others. *)
Definition dense (batch : nat) : Prop :=
  forall p, published (drop p log) <> [] -> advance (firstn batch (drop p log)) <> 0.

Lemma run_position (polls : list Poll) (p : nat) (x : Indexer) : log_ok ->
  Forall (fun t => honest (pl_rpc t)) polls -> at_position p x -> maxRetries (config x) = None ->
  exists p', at_position p' (run_polls polls x) /\ p <= p'
    /\ (Forall (fun t => full (pl_rpc t)) polls -> dense (batchSize (config x)) ->
        Nat.min (advance log) (p + length polls) <= p').
Proof.
  intros Hok Hh. revert p x. induction Hh as [|t polls Ht _ IH]; intros p x Hp Hm.
  { exists p. split; [done|]. split; [done|]. cbn. lia. }
  destruct (poll_position p x t Hok Ht Hp Hm) as (q & Hq & Hle & Hcfg & Hfull).
  destruct (IH q (run_poll x t) Hq ltac:(by rewrite Hcfg)) as (p' & Hp' & Hle' & Hall).
  exists p'. split; [exact Hp'|]. split; [lia|]. intros Hf Hd. apply Forall_cons_1 in Hf as [Hf1 Hf].
  rewrite Hcfg in Hall. specialize (Hall Hf Hd). specialize (Hfull Hf1). cbn [length].
  destruct (Nat.lt_ge_cases p (advance log)) as [Hlt|Hge]; [|lia].
  assert (Hne : advance (firstn (batchSize (config x)) (drop p log)) <> 0).
  { apply Hd. intros E. apply published_none in E. rewrite advance_drop in E. lia. }
  lia.
Qed.

Lemma poll_stuck (p : nat) (x : Indexer) (t : Poll) : log_ok -> honest (pl_rpc t) -> p <= length log ->
  contractId x = contract -> cursor x = cursor_at rpc_token log p ->
  advance (firstn (batchSize (config x)) (drop p log)) = 0 ->
  let x' := run_poll x t in
  contractId x' = contract /\ cursor x' = cursor x /\ config x' = config x
  /\ delivered x' = delivered x /\ store x' = store x.
Proof.
  intros Hok Hh Hp Hc Hcur Hs. unfold run_poll, poll, poll_request. destruct (running x); [|done].
  cbn [negb config cursor]. specialize (Hh (cursor x) (batchSize (config x))).
  set (x0 := mkIndexer _ _ _ _ _ _ _ _).
  destruct (pl_rpc t (cursor x, batchSize (config x))) as [e|l].
  - cbn [config set_failures x0]. destruct (maxRetries (config x)); [|done].
    by destruct (_ <=? _).
  - destruct Hh as (k & Hk & ->). rewrite Hcur, from_cursor_at by (done || apply Hok).
    destruct (index_page_ok (pl_committed t) (pl_iso t) (firstn k (drop p log)) x0 (page_topics k p Hok) Hc)
      as (x' & -> & _ & _ & _ & _ & _ & Hsame).
    rewrite Hsame; [done|]. apply advance_none. apply advance_none in Hs.
    apply (Forall_take _ k) in Hs. rewrite firstn_firstn, Nat.min_l in Hs by lia. done.
Qed.
End Reading.

(** Whatever polls fail, the indexer publishes the events of known topics of a prefix of the contract's
    log, in order and each once; if less than a page of other entries ever lies between two of them, polls
    that are answered bring it to the last. *)
Theorem indexer_in_order (contract : string) (log : list RpcEvent) (Hok : log_ok log) (db : option Database)
    (cfg : IndexerConfig) (Hm : maxRetries cfg = None) (polls : list Poll)
    (Hpolls : Forall (fun t => honest log (pl_rpc t)) polls) :
  let x := run_polls polls (start contract (new_indexer db cfg)) in
  exists p, p <= length log /\ cursor x = cursor_at rpc_token log p
    /\ map event_key (delivered x) = map event_key (published contract (firstn p log))
    /\ (Forall (fun t => full log (pl_rpc t)) polls -> dense contract log (batchSize cfg) ->
        length log <= length polls ->
        map event_key (delivered x) = map event_key (published contract log)).
Proof.
  destruct (run_position contract log polls 0 (start contract (new_indexer db cfg)) Hok Hpolls) as (p & Hp & _ & Hall).
  - split; cbn; [lia|done..].
  - done.
  - exists p. destruct Hp as [H1 H2 H3 H4 H5]. split; [done|]. split; [done|]. split; [done|].
    intros Hf Hd Hlen. rewrite H5. f_equal. apply published_enough. specialize (Hall Hf Hd).
    pose proof (advance_le contract log). lia.
Qed.

(** A page of entries of other topics stalls the indexer: its cursor moves only with events it knows, so
    once [batchSize] entries of other topics follow, every poll reads them again and nothing after them is
    ever published, whatever the log holds. *)
Theorem indexer_stalls (contract : string) (log : list RpcEvent) (Hok : log_ok log) (p : nat)
    (Hp : p <= length log) (x : Indexer) (Hx : contractId x = contract)
    (Hcur : cursor x = cursor_at rpc_token log p)
    (Hs : Forall (fun raw => interesting contract raw = false) (firstn (batchSize (config x)) (drop p log)))
    (polls : list Poll) (Hpolls : Forall (fun t => honest log (pl_rpc t)) polls) :
  let x' := run_polls polls x in
  delivered x' = delivered x /\ store x' = store x /\ cursor x' = cursor x.
Proof.
  apply advance_none in Hs. revert x Hx Hcur Hs.
  induction Hpolls as [|t polls Ht _ IH]; intros x Hx Hcur Hs; [done|]. cbv zeta.
  change (run_polls (t :: polls) x) with (run_polls polls (run_poll x t)).
  destruct (poll_stuck contract log p x t Hok Ht Hp Hx Hcur Hs) as (E1 & E2 & E3 & E4 & E5).
  destruct (IH (run_poll x t)) as (H1 & H2 & H3); [done|congruence|by rewrite E3|].
  split; [|split]; congruence.
Qed.

(** * What the event store answers before and after a reload, and the back-off *)

Open Scope list_scope.
Open Scope nat_scope.

(** ** The store *)

Definition put_all (events : list IndexedSorobanEvent) (s : EventStore) : EventStore :=
  foldl (fun s e => put true e s) s events.

Definition of_topic (t : SorobanEventTopic) (events : list IndexedSorobanEvent) : list IndexedSorobanEvent :=
  filter (fun e => ie_topic e = t) events.
Definition of_contract (c : string) (events : list IndexedSorobanEvent) : list IndexedSorobanEvent :=
  filter (fun e => ie_contractId e = c) events.

(** The store after [events], from an empty database. *)
Record stored (events : list IndexedSorobanEvent) (s : EventStore) (db : Database) : Prop := {
  st_database : database s = Some db;
  st_memory : forall e, e ∈ events -> memory s !! ie_id e = Some e;
  st_events : forall e, e ∈ events -> db_events db !! ie_id e = Some e;
  st_index : forall t, default [] (topicIndex s !! t) = map ie_id (of_topic t events);
  st_topics : forall t, db_topics db !! t = ie_id <$> last (of_topic t events);
  st_cursors : forall c, db_cursors db !! c = ie_cursor <$> last (of_contract c events)
}.

Lemma lookup_put (m : gmap string IndexedSorobanEvent) (events : list IndexedSorobanEvent) (e : IndexedSorobanEvent) :
  ie_id e ∉ map ie_id events -> (forall x, x ∈ events -> m !! ie_id x = Some x) ->
  forall x, x ∈ events ++ [e] -> <[ie_id e := e]> m !! ie_id x = Some x.
Proof.
  intros Hn Hm x Hx. apply elem_of_app in Hx as [Hx|Hx].
  - rewrite lookup_insert_ne; [by apply Hm|]. intros E. apply Hn. rewrite E. by apply list_elem_of_fmap_2.
  - apply list_elem_of_singleton in Hx as ->. by rewrite lookup_insert_eq.
Qed.

Lemma last_filter_snoc {B : Type} (P : IndexedSorobanEvent -> Prop) `{!forall e, Decision (P e)}
    (f : IndexedSorobanEvent -> B) (events : list IndexedSorobanEvent) (e : IndexedSorobanEvent) :
  f <$> last (filter P (events ++ [e])) = if decide (P e) then Some (f e) else f <$> last (filter P events).
Proof.
  rewrite filter_app. destruct (decide (P e)) as [Hp|Hp].
  - rewrite filter_cons_True, filter_nil, last_snoc by done. done.
  - by rewrite filter_cons_False, filter_nil, app_nil_r.
Qed.

Lemma stored_put (events : list IndexedSorobanEvent) (s : EventStore) (db : Database) (e : IndexedSorobanEvent) :
  stored events s db -> ie_id e ∉ map ie_id events -> stored (events ++ [e]) (put true e s) (put_db e db).
Proof.
  intros [H1 H2 H3 H4 H5 H6] Hn. unfold put. rewrite H1. split; cbn.
  - done.
  - by apply lookup_put.
  - by apply lookup_put.
  - intros t. unfold of_topic. rewrite filter_app, map_app. destruct (decide (ie_topic e = t)) as [<-|Ht].
    + rewrite lookup_insert_eq, H4, filter_cons_True, filter_nil by done. cbn. unfold set_add.
      rewrite bool_decide_eq_false_2; [done|]. intros Hin. apply Hn.
      apply list_elem_of_fmap in Hin as (x & Ex & Hx). apply list_elem_of_filter in Hx as [_ Hx].
      rewrite Ex. by apply list_elem_of_fmap_2.
    + rewrite lookup_insert_ne, H4, filter_cons_False, filter_nil by done. cbn. by rewrite app_nil_r.
  - intros t. unfold of_topic. rewrite last_filter_snoc. destruct (decide (ie_topic e = t)) as [<-|Ht]; [by rewrite lookup_insert_eq|].
    by rewrite lookup_insert_ne, H5.
  - intros c. unfold of_contract. rewrite last_filter_snoc. destruct (decide (ie_contractId e = c)) as [<-|Hc]; [by rewrite lookup_insert_eq|].
    by rewrite lookup_insert_ne, H6.
Qed.

Lemma stored_all (events : list IndexedSorobanEvent) : NoDup (map ie_id events) ->
  exists db, stored events (put_all events (open_store (Some empty_db))) db.
Proof.
  induction events as [|e events IH] using rev_ind; intros Hn.
  - exists empty_db. split; cbn; try done; intros x; try by rewrite lookup_empty.
    all: intros Hx; by apply elem_of_nil in Hx.
  - rewrite map_app in Hn. apply NoDup_app in Hn as (Hn & Hd & _). destruct (IH Hn) as [db Hdb].
    exists (put_db e db). unfold put_all. rewrite foldl_app. cbn. apply stored_put; [done|].
    intros Hin. apply (Hd _ Hin). by left.
Qed.

Lemma omap_lookup (m : gmap string IndexedSorobanEvent) (l : list IndexedSorobanEvent) :
  (forall e, e ∈ l -> m !! ie_id e = Some e) -> omap (fun id => m !! id) (map ie_id l) = l.
Proof.
  induction l as [|e l IH]; intros H; [done|]. cbn. rewrite (H e) by (by left).
  f_equal. apply IH. intros x Hx. apply H. by right.
Qed.

(** In the session that indexed them the store gives all the events of a topic in order; after a reload,
    although every transaction was committed, it gives at most the last one, because the object store of
    the topic index holds one record for each topic.  The cursor it resumes from is that of the last event. *)
Theorem topic_index_after_reload (events : list IndexedSorobanEvent) (Hids : NoDup (map ie_id events))
    (t : SorobanEventTopic) (c : string) :
  let s := put_all events (open_store (Some empty_db)) in
  let reloaded := open_store (database s) in
  getByTopic t s = of_topic t events
  /\ getByTopic t reloaded = match last (of_topic t events) with Some e => [e] | None => [] end
  /\ getCursor c reloaded = ie_cursor <$> last (of_contract c events).
Proof.
  destruct (stored_all events Hids) as [db [H1 H2 H3 H4 H5 H6]]. cbv zeta.
  assert (Hsub : forall e, e ∈ of_topic t events -> e ∈ events) by (intros e He; by apply list_elem_of_filter in He as [_ He]).
  assert (Hre : getByTopic t (open_store (database (put_all events (open_store (Some empty_db)))))
                = match last (of_topic t events) with Some e => [e] | None => [] end).
  { rewrite H1. unfold getByTopic. cbn. rewrite lookup_empty, H5.
    destruct (last (of_topic t events)) as [e|] eqn:El; cbn; [|done].
    rewrite H3; [done|]. apply Hsub. by apply last_Some_elem_of. }
  split; [|split; [exact Hre|by rewrite H1; apply H6]].
  unfold getByTopic. specialize (H4 t). destruct (topicIndex _ !! t) as [ids|] eqn:Ei; cbn in H4.
  - subst ids. apply omap_lookup. intros e He. by apply H2, Hsub.
  - symmetry in H4. apply map_eq_nil in H4. rewrite H1, H4. rewrite H5, H4. done.
Qed.

(** ** The back-off *)

(** [n] polls of a node that does not answer. *)
Fixpoint failing (n : nat) (x : Indexer) : Indexer :=
  match n with
  | O => x
  | S n => (poll (fun _ => true) "" 0 (fun _ => PollError "down") (failing n x)).2
  end.

Lemma failing_state (n : nat) (x : Indexer) : running x = true -> failures x = 0 ->
  (match maxRetries (config x) with Some m => n < m | None => True end) ->
  running (failing n x) = true /\ failures (failing n x) = n /\ config (failing n x) = config x.
Proof.
  intros Hr Hf. induction n as [|n IH]; intros Hm; [done|]. cbn.
  destruct IH as (H1 & H2 & H3); [destruct (maxRetries (config x)); [lia|done]|].
  unfold poll. rewrite H1, H3. cbn [negb set_failures config failures]. rewrite H2.
  destruct (maxRetries (config x)) as [m|]; [destruct (Nat.leb_spec m (S n)); [lia|]|];
    cbn; split_and!; congruence.
Qed.

(** After [n] polls in a row that fail the next one waits for the initial delay doubled [n - 1] times, at
    most six, and never longer than the configured limit; the poll that reaches [maxRetries] stops the
    indexer instead. *)
Theorem indexer_backs_off (x : Indexer) (Hr : running x = true) (Hf : failures x = 0) (n : nat)
    (Hm : match maxRetries (config x) with Some m => n < m | None => True end) :
  let cfg := config x in
  let '(delay, x') := poll (fun _ => true) "" 0%Z (fun _ => PollError "down") (failing n x) in
  if match maxRetries cfg with Some m => m <=? S n | None => false end
  then delay = None /\ running x' = false
  else running x' = true
       /\ delay = Some (Z.min (initialBackoffMs cfg * 2 ^ Z.of_nat (Nat.min n 6)) (maxBackoffMs cfg)).
Proof.
  destruct (failing_state n x Hr Hf Hm) as (H1 & H2 & H3). cbv zeta. unfold poll.
  rewrite H1, H3. cbn [negb set_failures config failures]. rewrite H2, ?H3.
  destruct (maxRetries (config x)) as [m|]; [destruct (m <=? S n)|]; cbn; try done;
    by rewrite Nat.sub_0_r, ?H3.
Qed.

(** An event that is sent to the relay is not understood by the indexer that receives it. *)
Lemma forwarded_dropped (committed : bool) (iso : string) (e : IndexedSorobanEvent) (x : Indexer) :
  relay_message committed iso (forwarded e) x = x.
Proof. done. Qed.

(** ** A log with an event, a page of other entries and an event *)
Module DemoLog.
Definition entry (token topic : string) : RpcEvent :=
  mkRpc (Some token) None None (Some 7%Z) (Some "t") (Topics [JStr topic]) None.
Definition demo_log : list RpcEvent :=
  [entry "1" "VaultCreated"; entry "2" "Transfer"; entry "3" "Transfer"; entry "4" "GuardianAdded"].
Definition cfg (batch : nat) : IndexerConfig := mkConfig 250 None 500 30000 batch.
Definition answer (log : list RpcEvent) : Poll :=
  mkPoll (fun '(c, n) => PollEvents (firstn n (from_cursor rpc_token log c))) 0 "" (fun _ => true).
Definition polls : list Poll := repeat (answer demo_log) 4.

Lemma answer_honest : Forall (fun t => honest demo_log (pl_rpc t)) polls.
Proof. repeat constructor; intros c n; exists n; by split. Qed.

Lemma answer_full : Forall (fun t => full demo_log (pl_rpc t)) polls.
Proof. repeat constructor; done. Qed.

Lemma demo_ok : log_ok demo_log.
Proof. split; [by repeat constructor|]. apply (bool_decide_unpack _). by vm_compute. Qed.

Lemma demo_dense : dense "C" demo_log 3.
Proof. intros [|[|[|[|p]]]]; try (vm_compute; done). destruct p; vm_compute; done. Qed.

Definition stuck : Indexer := run_polls polls (start "C" (new_indexer None (cfg 2))).
End DemoLog.
Import DemoLog.

Lemma indexer_in_order_witness :
  map event_key (delivered (run_polls polls (start "C" (new_indexer None (cfg 3)))))
  = map event_key (published "C" demo_log).
Proof.
  destruct (indexer_in_order "C" demo_log demo_ok None (cfg 3) eq_refl polls answer_honest) as (p & _ & _ & _ & H).
  apply H; [apply answer_full|apply demo_dense|vm_compute; lia].
Defined.

Lemma indexer_stalls_witness : map ie_id (delivered stuck) = ["1"%string]
  /\ delivered (run_polls polls stuck) = delivered stuck.
Proof.
  split; [vm_compute; reflexivity|].
  apply (indexer_stalls "C" demo_log demo_ok 1 ltac:(vm_compute; lia) stuck eq_refl eq_refl); [|apply answer_honest].
  repeat constructor.
Defined.

Lemma topic_index_after_reload_witness :
  let e (id : string) := mkIndexed id id "C" 1 "t" VaultCreated [] None in
  getByTopic VaultCreated (open_store (database (put_all [e "1"; e "2"]%string (open_store (Some empty_db)))))
  = [e "2"%string].
Proof.
  cbv zeta.
  apply (topic_index_after_reload [mkIndexed "1" "1" "C" 1 "t" VaultCreated [] None; mkIndexed "2" "2" "C" 1 "t" VaultCreated [] None]
           ltac:(apply (bool_decide_unpack _); vm_compute; exact I) VaultCreated "C").
Defined.

Lemma indexer_backs_off_witness :
  (poll (fun _ => true) "" 0%Z (fun _ => PollError "down") (failing 2 (start "C" (new_indexer None DEFAULT_CONFIG)))).1
  = Some 2000%Z.
Proof.
  pose proof (indexer_backs_off (start "C" (new_indexer None DEFAULT_CONFIG)) eq_refl eq_refl 2 I) as H.
  cbv zeta in H. destruct (poll _ _ _ _ _) as [delay x']. apply H.
Defined.
