(* ===== verification/EventWatcher.v ===== *)
(** * EventWatcher: sorobanEventWatcher.service.ts

    The watcher polls a node for the events of a contract and hands them to its listeners.
    A step is a piece of code between two awaits; the polls that wait for an answer are
    tasks and the armed timers are numbers, so that stops, starts and answers come in any
    order.  The node's answers are arguments of the steps; over a node that keeps to its
    log, what is handed out is a segment of the log. *)

From Stdlib Require Import Ascii String ZArith Lia Bool Sorting.Sorted.
From stdpp Require Import base list gmap strings.
From S2P Require Import Prelude JsString Cursor.

Open Scope string_scope.
Open Scope list_scope.
Open Scope nat_scope.

Record SorobanEvent : Type := mkEvent { event_type : string; ledger : Z; contractId_of : string; event_id : string; pagingToken : string; topic : list string }.

(** The fields of the watcher; a handler is the number of a function. *)
Record Watcher : Type := mkWatcher {
  isRunning : bool; intervalId : option nat; rpcUrl : string; contractId : string; lastCursor : option string; listeners : gmap string (list nat)
}.
Definition new_watcher : Watcher := mkWatcher false None "" "" None ∅.

Definition POLLING_INTERVAL_MS : Z := 5000.

Record Payload : Type := mkPayload { startLedger : option Z; contractIds : list string; cursor : option string; limit : nat }.

(** What a poll waits for: the latest ledger, its events, or the end of [fetchEvents]. *)
Inductive Task : Type :=
| Latest (url : string)
| Events (url : string) (payload : Payload)
| Ended.

(** What reaches the page: calls of handlers, and events of the window. *)
Inductive Emission : Type :=
| Call (topicName : string) (handler : nat) (event : SorobanEvent)
| Dispatched (topicName : string) (event : SorobanEvent).

Record World : Type := mkWorld { watcher : Watcher; tasks : list Task; timers : list nat; next_timer : nat; out : list Emission }.
Definition new_world : World := mkWorld new_watcher [] [] 0 [].

(** ** Listeners *)

Definition with_listeners (l : gmap string (list nat)) (w : Watcher) : Watcher :=
  mkWatcher (isRunning w) (intervalId w) (rpcUrl w) (contractId w) (lastCursor w) l.
Definition handlers_of (w : Watcher) (topicName : string) : list nat := default [] (listeners w !! topicName).

Definition on (topicName : string) (handler : nat) (w : Watcher) : Watcher :=
  with_listeners (<[topicName := handlers_of w topicName ++ [handler]]> (listeners w)) w.
Definition off (topicName : string) (handler : nat) (w : Watcher) : Watcher :=
  match listeners w !! topicName with
  | None => w
  | Some l => with_listeners (<[topicName := List.filter (fun h => negb (h =? handler)) l]> (listeners w)) w
  end.

(** Exceptions of a handler are caught one by one. *)
Definition dispatchEvent (w : Watcher) (topicName : string) (event : SorobanEvent) : list Emission :=
  map (fun h => Call topicName h event) (handlers_of w topicName) ++ [Dispatched topicName event].

Definition dispatched_topics : list string := ["SorobanEvent"; "VaultCreated"; "DocumentAdded"].

(** ** A poll *)

(** A cursor that is set and not empty. *)
Definition cursor_of (w : Watcher) : option string :=
  match lastCursor w with Some c => if String.eqb c "" then None else Some c | None => None end.

Definition query_of (w : Watcher) (startLedger : option Z) : Payload := mkPayload startLedger [contractId w] (cursor_of w) 100.

(** [fetchEvents] up to its first await. *)
Definition begin_fetch (w : Watcher) : Task :=
  if String.eqb (rpcUrl w) "" || String.eqb (contractId w) "" then Ended
  else match cursor_of w with Some _ => Events (rpcUrl w) (query_of w None) | None => Latest (rpcUrl w) end.

(** The answer of [getLatestLedger]; a failure counts as 0. *)
Definition sequence_of (answer : res (option Z)) : Z := match answer with Ok (Some n) => n | _ => 0%Z end.

Definition after_latest (w : Watcher) (n : Z) : Task := if (n =? 0)%Z then Ended else Events (rpcUrl w) (query_of w (Some n)).

(** The answer of [getEvents]: its status, its error's message, and [result?.events]. *)
Record Answer : Type := mkAnswer { ok : bool; statusText : string; error : option string; events : option (list SorobanEvent) }.
Definition events_of (answer : res Answer) : res (list SorobanEvent) :=
  let! a := answer in
  throw_if negb (ok a) with ("RPC error: " ++ statusText a)%string;;
  match error a with Some message => Throw message | None => Ok (default [] (events a)) end.

Definition with_cursor (c : string) (w : Watcher) : Watcher :=
  mkWatcher (isRunning w) (intervalId w) (rpcUrl w) (contractId w) (Some c) (listeners w).

Fixpoint receive_events (l : list SorobanEvent) (w : Watcher) : Watcher * list Emission :=
  match l with
  | [] => (w, [])
  | event :: l =>
      let w := with_cursor (pagingToken event) w in
      let '(w', o) := receive_events l w in
      (w', concat (map (fun t => dispatchEvent w t event) dispatched_topics) ++ o)
  end.

(** [poll] up to its await. *)
Definition poll (s : World) : World :=
  if isRunning (watcher s) then mkWorld (watcher s) (tasks s ++ [begin_fetch (watcher s)]) (timers s) (next_timer s) (out s) else s.

(** The end of [poll], after the task [i]. *)
Definition reschedule (i : nat) (s : World) : World :=
  let w := watcher s in
  if isRunning w
  then mkWorld (mkWatcher true (Some (next_timer s)) (rpcUrl w) (contractId w) (lastCursor w) (listeners w))
         (delete i (tasks s)) (timers s ++ [next_timer s]) (S (next_timer s)) (out s)
  else mkWorld w (delete i (tasks s)) (timers s) (next_timer s) (out s).

(** ** Start and stop *)

Definition stop (s : World) : World :=
  let w := watcher s in
  let timers' := match intervalId w with Some t => List.filter (fun t' => negb (t' =? t)) (timers s) | None => timers s end in
  mkWorld (mkWatcher false None (rpcUrl w) (contractId w) (lastCursor w) (listeners w)) (tasks s) timers' (next_timer s) (out s).

Definition same_target (w : Watcher) (url contract : string) : bool :=
  isRunning w && String.eqb (rpcUrl w) url && String.eqb (contractId w) contract.

Definition start (url contract : string) (s : World) : World :=
  if same_target (watcher s) url contract then s
  else
    let s := if isRunning (watcher s) then stop s else s in
    let w := watcher s in
    poll (mkWorld (mkWatcher true (intervalId w) url contract (lastCursor w) (listeners w)) (tasks s) (timers s) (next_timer s) (out s)).

(** ** Steps *)

Inductive Label : Type :=
| LStart (url contract : string)
| LStop
| LOn (topicName : string) (handler : nat)
| LOff (topicName : string) (handler : nat)
| LTimer (t : nat)
| LLatest (i : nat) (answer : res (option Z))
| LEvents (i : nat) (answer : res Answer)
| LEnd (i : nat).

Definition with_watcher (f : Watcher -> Watcher) (s : World) : World := mkWorld (f (watcher s)) (tasks s) (timers s) (next_timer s) (out s).
Definition with_task (i : nat) (t : Task) (s : World) : World := mkWorld (watcher s) (<[i := t]> (tasks s)) (timers s) (next_timer s) (out s).
Definition fire (t : nat) (s : World) : World :=
  poll (mkWorld (watcher s) (tasks s) (List.filter (fun t' => negb (t' =? t)) (timers s)) (next_timer s) (out s)).

Definition answered (i : nat) (answer : res Answer) (s : World) : World :=
  match events_of answer with
  | Throw _ => with_task i Ended s
  | Ok l => let '(w, o) := receive_events l (watcher s) in mkWorld w (<[i := Ended]> (tasks s)) (timers s) (next_timer s) (out s ++ o)
  end.

Definition step (l : Label) (s : World) : option World :=
  match l with
  | LStart url contract => Some (start url contract s)
  | LStop => Some (stop s)
  | LOn t h => Some (with_watcher (on t h) s)
  | LOff t h => Some (with_watcher (off t h) s)
  | LTimer t => if existsb (Nat.eqb t) (timers s) then Some (fire t s) else None
  | LLatest i a => match tasks s !! i with Some (Latest _) => Some (with_task i (after_latest (watcher s) (sequence_of a)) s) | _ => None end
  | LEvents i a => match tasks s !! i with Some (Events _ _) => Some (answered i a s) | _ => None end
  | LEnd i => match tasks s !! i with Some Ended => Some (reschedule i s) | _ => None end
  end.

Fixpoint run (ls : list Label) (s : World) : option World :=
  match ls with [] => Some s | l :: ls => step l s ≫= run ls end.

(** The polling loops: each is a poll that waits, or a timer. *)
Definition loops (s : World) : nat := length (tasks s) + length (timers s).

(** A start that begins a loop. *)
Definition starts (l : Label) (s : World) : Prop :=
  match l with LStart url contract => same_target (watcher s) url contract = false | _ => False end.

(** ** Receiving *)

(** The events handed to the window's listeners of all events. *)
Definition delivered (o : list Emission) : list SorobanEvent :=
  omap (fun e => match e with Dispatched t event => if String.eqb t "SorobanEvent" then Some event else None | _ => None end) o.

Lemma delivered_app (o o' : list Emission) : delivered (o ++ o') = delivered o ++ delivered o'.
Proof. apply omap_app. Qed.

Lemma delivered_dispatch (w : Watcher) (t : string) (e : SorobanEvent) :
  delivered (dispatchEvent w t e) = if String.eqb t "SorobanEvent" then [e] else [].
Proof.
  unfold dispatchEvent. rewrite delivered_app. replace (delivered (map (fun h => Call t h e) (handlers_of w t))) with (@nil SorobanEvent).
  - unfold delivered. cbn. by destruct (String.eqb t "SorobanEvent").
  - by induction (handlers_of w t).
Qed.

Lemma received_watcher (l : list SorobanEvent) (w w' : Watcher) (o : list Emission) : receive_events l w = (w', o) ->
  w' = mkWatcher (isRunning w) (intervalId w) (rpcUrl w) (contractId w)
         (match last l with Some e => Some (pagingToken e) | None => lastCursor w end) (listeners w).
Proof.
  revert w o. induction l as [|e l IH]; intros w o; cbn [receive_events]; [intros [= <- _]; by destruct w|].
  destruct (receive_events l (with_cursor (pagingToken e) w)) as [w1 o1] eqn:E. intros [= <- _]. rewrite (IH _ _ E), last_cons. by destruct (last l).
Qed.

Lemma received_delivered (l : list SorobanEvent) (w w' : Watcher) (o : list Emission) : receive_events l w = (w', o) -> delivered o = l.
Proof.
  revert w w' o. induction l as [|e l IH]; intros w w' o; cbn [receive_events]; [by intros [= _ <-]|].
  destruct (receive_events l (with_cursor (pagingToken e) w)) as [w1 o1] eqn:E. intros [= _ <-].
  rewrite delivered_app, (IH _ _ _ E). unfold dispatched_topics. cbn [map concat]. by rewrite !delivered_app, !delivered_dispatch.
Qed.

(** ** Loops *)

Definition timers_ok (s : World) : Prop := NoDup (timers s) /\ Forall (fun t => t < next_timer s) (timers s).

Lemma in_remove (t x : nat) (l : list nat) : x ∈ List.filter (fun t' => negb (t' =? t)) l <-> x ∈ l /\ x <> t.
Proof. rewrite !list_elem_of_In, filter_In, negb_true_iff, Nat.eqb_neq. done. Qed.

Lemma remove_ok (t : nat) (l : list nat) : NoDup l -> NoDup (List.filter (fun t' => negb (t' =? t)) l).
Proof.
  induction 1 as [|x l Hx _ IH]; cbn; [constructor|]. destruct (negb (x =? t)); [|exact IH].
  constructor; [|exact IH]. rewrite in_remove. tauto.
Qed.

Lemma remove_length (t : nat) (l : list nat) : NoDup l -> t ∈ l -> S (length (List.filter (fun t' => negb (t' =? t)) l)) = length l.
Proof.
  induction 1 as [|x l Hx Hl IH]; cbn; [by intros ?%elem_of_nil|]. destruct (Nat.eqb_spec x t) as [->|Hn]; cbn; intros Ht.
  - f_equal. clear IH Hl Ht. induction l as [|y l IH]; [done|]. apply not_elem_of_cons in Hx as [Hy Hl]. cbn.
    destruct (Nat.eqb_spec y t); [by subst|]. cbn. f_equal. by apply IH.
  - f_equal. apply IH. apply elem_of_cons in Ht as [->|]; [done|assumption].
Qed.

Lemma remove_bound (t n : nat) (l : list nat) : Forall (fun x => x < n) l -> Forall (fun x => x < n) (List.filter (fun t' => negb (t' =? t)) l).
Proof. rewrite !Forall_forall. intros H x [Hx _]%in_remove. auto. Qed.

Lemma stop_ok (s : World) : timers_ok s -> timers_ok (stop s).
Proof. intros [H1 H2]. unfold timers_ok, stop. cbn. destruct (intervalId (watcher s)); [split; [by apply remove_ok|by apply remove_bound]|done]. Qed.

Lemma poll_ok (s : World) : timers_ok (poll s) <-> timers_ok s.
Proof. unfold poll. by destruct (isRunning (watcher s)). Qed.

Lemma reschedule_ok (i : nat) (s : World) : timers_ok s -> timers_ok (reschedule i s).
Proof.
  intros [H1 H2]. unfold timers_ok, reschedule. destruct (isRunning (watcher s)); [cbn|done]. split.
  - apply NoDup_app. split; [done|]. split; [|apply NoDup_singleton]. intros x Hx ->%list_elem_of_singleton.
    apply (proj1 (Forall_forall _ _) H2) in Hx. lia.
  - apply Forall_app. split; [|constructor; [lia|constructor]]. eapply Forall_impl; [exact H2|]. cbn. lia.
Qed.

Lemma answered_frame (i : nat) (a : res Answer) (s : World) : tasks (answered i a s) = <[i := Ended]> (tasks s) /\ timers (answered i a s) = timers s
  /\ next_timer (answered i a s) = next_timer s.
Proof. unfold answered, with_task. destruct (events_of a) as [l|]; [|done]. by destruct (receive_events l (watcher s)). Qed.

Lemma step_timers_ok (l : Label) (s s' : World) : step l s = Some s' -> timers_ok s -> timers_ok s'.
Proof.
  intros H Hok. destruct l; cbn in H.
  - injection H as <-. unfold start. destruct (same_target _ _ _); [done|]. apply poll_ok. destruct (isRunning (watcher s)); [by apply stop_ok in Hok|done].
  - injection H as <-. by apply stop_ok.
  - by injection H as <-.
  - by injection H as <-.
  - destruct (existsb _ _); [|done]. injection H as <-. apply poll_ok. destruct Hok. split; cbn; [by apply remove_ok|by apply remove_bound].
  - destruct (tasks s !! i) as [[]|]; try done. by injection H as <-.
  - destruct (tasks s !! i) as [[]|]; try done. injection H as <-. destruct (answered_frame i answer s) as (_ & E1 & E2). unfold timers_ok. by rewrite E1, E2.
  - destruct (tasks s !! i) as [[]|]; try done. injection H as <-. by apply reschedule_ok.
Qed.

Lemma run_timers_ok (ls : list Label) (s s' : World) : run ls s = Some s' -> timers_ok s -> timers_ok s'.
Proof.
  revert s. induction ls as [|l ls IH]; cbn; intros s; [by intros [= ->]|]. destruct (step l s) as [s1|] eqn:E; [cbn|done].
  intros H Hok. eauto using step_timers_ok.
Qed.

(** While the watcher runs no loop ends, whatever the answers are. *)
Lemma step_keeps_loops (l : Label) (s s' : World) : step l s = Some s' -> timers_ok s -> isRunning (watcher s) = true ->
  (match l with LStop => False | LStart url contract => same_target (watcher s) url contract = true | _ => True end) ->
  loops s' = loops s /\ isRunning (watcher s') = true.
Proof.
  intros H [Hn _] R Hl. unfold loops. destruct l; cbn in H.
  - injection H as <-. unfold start. by rewrite Hl.
  - done.
  - by injection H as <-.
  - injection H as <-. cbn. unfold off. by destruct (listeners (watcher s) !! topicName).
  - destruct (existsb _ _) eqn:E; [|done]. injection H as <-. unfold fire, poll. cbn. rewrite R. cbn. split; [|done].
    apply existsb_exists in E as (x & Hx & ->%Nat.eqb_eq). rewrite length_app. cbn.
    pose proof (remove_length x (timers s) Hn ltac:(by apply list_elem_of_In)). lia.
  - destruct (tasks s !! i) as [[]|]; try done. injection H as <-. cbn. by rewrite length_insert.
  - destruct (tasks s !! i) as [[]|]; try done. injection H as <-. destruct (answered_frame i answer s) as (E1 & E2 & _). rewrite E1, E2, length_insert.
    split; [done|]. unfold answered. destruct (events_of answer) as [l|]; [|done]. destruct (receive_events l (watcher s)) as [w o] eqn:E. cbn.
    apply received_watcher in E as ->. done.
  - destruct (tasks s !! i) as [[]|] eqn:E; try done. injection H as <-. unfold reschedule. rewrite R. cbn. split; [|done].
    rewrite length_delete by (by eexists). rewrite length_app. cbn. apply lookup_lt_Some in E. lia.
Qed.

Lemma run_keeps_loops (ls : list Label) (s s' : World) : run ls s = Some s' -> timers_ok s -> isRunning (watcher s) = true ->
  Forall (fun l => match l with LStop | LStart _ _ => False | _ => True end) ls -> loops s' = loops s.
Proof.
  revert s. induction ls as [|l ls IH]; cbn; intros s; [by intros [= ->]|]. destruct (step l s) as [s1|] eqn:E; [cbn|done].
  intros H Hok R [Hl Hls]%Forall_cons. destruct (step_keeps_loops l s s1 E Hok R) as [<- R1]; [by destruct l|].
  eauto using step_timers_ok.
Qed.

(** A watcher with at most one loop: one while it runs, at most a poll whose answer is
    still expected when it is stopped. *)
Definition single (s : World) : Prop :=
  timers_ok s /\
  if isRunning (watcher s) then loops s = 1 /\ Forall (fun t => intervalId (watcher s) = Some t) (timers s)
  else timers s = [] /\ length (tasks s) <= 1.

(** A label that starts no loop beside another: no start while an answer is expected. *)
Definition quiet (l : Label) (s : World) : Prop :=
  match l with LStart url contract => same_target (watcher s) url contract = true \/ tasks s = [] | _ => True end.

Lemma single_stop (s : World) : single s -> single (stop s) /\ tasks (stop s) = tasks s.
Proof.
  unfold single. intros [Hok H]. split; [split; [by apply stop_ok|]|done]. unfold stop. cbn. destruct (isRunning (watcher s)).
  - destruct H as [L H]. unfold loops in L. split; [|lia]. destruct (timers s) as [|t [|t' ts]]; cbn in L; [by destruct (intervalId _)| |lia].
    apply Forall_cons in H as [-> _]. cbn. by rewrite Nat.eqb_refl.
  - destruct H as [-> H]. split; [by destruct (intervalId _)|done].
Qed.

Lemma single_step (l : Label) (s s' : World) : step l s = Some s' -> quiet l s -> single s -> single s'.
Proof.
  intros H Q HS. pose proof (step_timers_ok _ _ _ H (proj1 HS)) as Hok'. destruct l; cbn in H.
  - injection H as <-. unfold start in *. destruct (same_target _ _ _) eqn:Et; [done|]. destruct Q as [Q|Q]; [congruence|].
    split; [exact Hok'|]. assert (S1 : single (if isRunning (watcher s) then stop s else s) /\ tasks (if isRunning (watcher s) then stop s else s) = []
      /\ isRunning (watcher (if isRunning (watcher s) then stop s else s)) = false).
    { destruct (isRunning (watcher s)) eqn:R; [|done]. destruct (single_stop s HS) as [? ->]. done. }
    revert S1. generalize (if isRunning (watcher s) then stop s else s). intros s1 ([_ S1] & T1 & R1). rewrite R1 in S1. destruct S1 as [S1 _].
    unfold poll, loops. cbn. by rewrite T1, S1.
  - injection H as <-. by apply single_stop.
  - injection H as <-. exact HS.
  - injection H as <-. unfold single, with_watcher, off in *. cbn in *. by destruct (listeners (watcher s) !! topicName).
  - destruct (existsb _ _) eqn:E; [|done]. destruct HS as [Hok HS]. split; [exact Hok'|]. injection H as <-. unfold fire, poll, loops in *. cbn. destruct (isRunning (watcher s)) eqn:R; cbn; rewrite R.
    + destruct HS as [L HS]. apply existsb_exists in E as (x & Hx & ->%Nat.eqb_eq). pose proof (remove_length x (timers s) (proj1 Hok) ltac:(by apply list_elem_of_In)) as Hlen.
      split; [rewrite length_app; cbn; lia|]. destruct (List.filter _ _) as [|y ys]; [constructor|cbn in Hlen; lia].
    + destruct HS as [HS _]. by rewrite HS in E.
  - destruct (tasks s !! i) as [[]|]; try done. injection H as <-. unfold single, loops in *. cbn. by rewrite length_insert.
  - destruct (tasks s !! i) as [[]|]; try done. injection H as <-. split; [exact Hok'|]. destruct (answered_frame i answer s) as (E1 & E2 & _).
    destruct HS as [_ HS]. unfold loops in *. rewrite E1, E2, length_insert.
    replace (isRunning (watcher (answered i answer s))) with (isRunning (watcher s)); [replace (intervalId (watcher (answered i answer s))) with (intervalId (watcher s)); [exact HS|]|];
      (unfold answered; destruct (events_of answer) as [l|]; [|done]; destruct (receive_events l (watcher s)) as [w o] eqn:E; by apply received_watcher in E as ->).
  - destruct (tasks s !! i) as [[]|] eqn:E; try done. injection H as <-. split; [exact Hok'|]. destruct HS as [_ HS]. pose proof (lookup_lt_Some _ _ _ E) as Hi.
    unfold reschedule, loops in *. destruct (isRunning (watcher s)) eqn:R; cbn; [|rewrite R; rewrite length_delete by (by eexists); destruct HS; split; [done|lia]].
    rewrite length_delete by (by eexists). destruct HS as [L _]. destruct (timers s) as [|t ts]; [|cbn in L; lia]. cbn in *. split; [lia|]. by constructor.
Qed.

Lemma single_new : single new_world.
Proof. split; [split; constructor|]. split; [done|cbn; lia]. Qed.

Inductive quiet_run : World -> Prop :=
| quiet_new : quiet_run new_world
| quiet_step s l s' : quiet_run s -> quiet l s -> step l s = Some s' -> quiet_run s'.

Lemma quiet_single (s : World) : quiet_run s -> single s.
Proof. induction 1 as [|s l s' _ IH Q E]; [apply single_new|exact (single_step l s s' E Q IH)]. Qed.

(** One loop polls at a time, while no watcher is started with an answer still expected. *)
Theorem one_loop (s : World) (H : quiet_run s) : loops s <= 1 /\ (isRunning (watcher s) = true -> loops s = 1).
Proof.
  assert (HS := quiet_single s H). destruct HS as [_ HS]. unfold loops in *.
  destruct (isRunning (watcher s)); [destruct HS; split; [lia|done]|]. destruct HS as [-> HS]. cbn. split; [lia|done].
Qed.

(** A stop and a start while the answer is expected leave two loops, which poll side by side
    until the next stop. *)
Theorem restart_doubles (s : World) (url contract : string) (ls : list Label) (s' : World) (HS : quiet_run s)
    (R : isRunning (watcher s) = true) (T : tasks s <> [])
    (Hls : Forall (fun l => match l with LStop | LStart _ _ => False | _ => True end) ls)
    (H : run (LStop :: LStart url contract :: ls) s = Some s') : loops s' = 2.
Proof.
  assert (Hs := quiet_single s HS). cbn in H.
  destruct (single_stop s Hs) as [[Hok1 _] T1]. pose proof (step_timers_ok (LStart url contract) (stop s) _ eq_refl Hok1) as Hok2.
  rewrite (run_keeps_loops ls _ s' H Hok2); [|reflexivity|exact Hls]. destruct Hs as [_ Hs]. rewrite R in Hs. destruct Hs as [L _]. unfold loops in *.
  unfold start. cbn. rewrite length_app. cbn. destruct (tasks s) as [|x l]; [done|]. cbn in *. destruct (timers s) as [|t ts]; [|cbn in L; lia].
  destruct (intervalId (watcher s)); cbn; lia.
Qed.

(** ** A node that keeps to its log *)

Section Node.

(** The log of the contract [K]: tokens are unique, ledgers do not decrease. *)
Variable K : string.

Definition valid_log (log : list SorobanEvent) : Prop :=
  NoDup (map pagingToken log) /\ Forall (fun e => pagingToken e <> "") log /\ StronglySorted (fun a b => (ledger a <= ledger b)%Z) log.

Definition selected (log : list SorobanEvent) (p : Payload) : list SorobanEvent :=
  match cursor p with
  | Some c => after pagingToken c log
  | None => match startLedger p with Some n => List.filter (fun e => (n <=? ledger e)%Z) log | None => log end
  end.
Definition serve (log : list SorobanEvent) (p : Payload) : list SorobanEvent := firstn (limit p) (selected log p).

(** Steps of a page that watches [K] alone, with a node that answers from its log or fails. *)
Definition honest (l : Label) (s : World) (log : list SorobanEvent) : Prop :=
  quiet l s /\ match l with
               | LStart _ contract => contract = K
               | LEvents i a => (exists e, events_of a = Throw e) \/ exists u p, tasks s !! i = Some (Events u p) /\ events_of a = Ok (serve log p)
               | _ => True
               end.

Inductive watched : World -> list SorobanEvent -> Prop :=
| watched_new log : valid_log log -> watched new_world log
| watched_grows s log e : watched s log -> valid_log (log ++ [e]) -> watched s (log ++ [e])
| watched_step s log l s' : watched s log -> honest l s log -> step l s = Some s' -> watched s' log.

Lemma sorted_suffix (n : Z) (log : list SorobanEvent) : StronglySorted (fun a b => (ledger a <= ledger b)%Z) log ->
  exists pre, log = pre ++ List.filter (fun e => (n <=? ledger e)%Z) log.
Proof.
  induction 1 as [|e log _ [pre IH] Hf]; [by exists []|]. cbn. destruct (Z.leb_spec n (ledger e)) as [Hn|Hn].
  - exists []. cbn. f_equal. clear IH. induction Hf as [|x log Hx _ IH]; [done|]. cbn. destruct (Z.leb_spec n (ledger x)); [by f_equal|lia].
  - exists (e :: pre). cbn. by f_equal.
Qed.

(** The log around what has been handed out, and the polls that wait. *)
Definition segment (s : World) (log : list SorobanEvent) : Prop :=
  valid_log log /\ single s /\ lastCursor (watcher s) = pagingToken <$> last (delivered (out s))
  /\ (exists pre post, log = pre ++ delivered (out s) ++ post)
  /\ Forall (fun t => match t with Events _ p => limit p = 100 /\ cursor p = lastCursor (watcher s) | _ => True end) (tasks s).

Lemma cursor_set (s : World) (log : list SorobanEvent) : segment s log -> cursor_of (watcher s) = lastCursor (watcher s).
Proof.
  intros ((_ & Hne & _) & _ & E & (pre & post & Hlog) & _). unfold cursor_of. rewrite E. destruct (last (delivered (out s))) as [e|] eqn:El; [|done]. cbn.
  destruct (String.eqb_spec (pagingToken e) "") as [E0|]; [|done]. exfalso. rewrite Hlog, !Forall_app in Hne. destruct Hne as (_ & Hne & _).
  apply last_Some in El as [l' El]. rewrite El, Forall_app in Hne. destruct Hne as [_ Hne]. by apply Forall_cons in Hne as [? _].
Qed.

(** What an honest answer adds follows what was handed out before. *)
Lemma serve_continues (s : World) (log : list SorobanEvent) (i : nat) (u : string) (p : Payload) : segment s log -> tasks s !! i = Some (Events u p) ->
  exists pre post, log = pre ++ delivered (out s) ++ post /\ serve log p = firstn 100 post
    /\ (delivered (out s) <> [] -> forall pre' post', log = pre' ++ delivered (out s) ++ post' -> post' = post).
Proof.
  intros ((Hnd & _ & Hsort) & _ & E & (pre & post & Hlog) & Ht) Hi. pose proof (Forall_lookup_1 _ _ _ _ Ht Hi) as [Hl Hc]. unfold serve, selected.
  rewrite Hl, Hc, E. destruct (last (delivered (out s))) as [e|] eqn:El; cbn.
  - apply last_Some in El as [l' El]. rewrite El in *.
    assert (A : forall pre post, log = pre ++ (l' ++ [e]) ++ post -> after pagingToken (pagingToken e) log = post).
    { intros pre0 post0 H0. replace log with ((pre0 ++ l') ++ e :: post0) in * by (rewrite H0, <- !app_assoc; done). by apply after_token. }
    exists pre, post. rewrite (A _ _ Hlog). split; [done|]. split; [done|]. intros _ pre' post' H'. by rewrite <- (A _ _ H'), (A _ _ Hlog).
  - apply last_None in El. rewrite El in *. destruct (startLedger p) as [n|].
    + destruct (sorted_suffix n log Hsort) as [q Hq]. exists q, (List.filter (fun e => (n <=? ledger e)%Z) log). done.
    + exists [], log. done.
Qed.

Lemma answered_ok (i : nat) (a : res Answer) (l : list SorobanEvent) (s : World) : events_of a = Ok l ->
  delivered (out (answered i a s)) = delivered (out s) ++ l
  /\ lastCursor (watcher (answered i a s)) = match last l with Some e => Some (pagingToken e) | None => lastCursor (watcher s) end.
Proof.
  unfold answered. intros ->. destruct (receive_events l (watcher s)) as [w o] eqn:E. cbn. rewrite delivered_app, (received_delivered _ _ _ _ E).
  by rewrite (received_watcher _ _ _ _ E).
Qed.

Definition waiting_ok (w : Watcher) (t : Task) : Prop := match t with Events _ p => limit p = 100 /\ cursor p = lastCursor w | _ => True end.

Lemma begin_fetch_ok (w : Watcher) : cursor_of w = lastCursor w -> waiting_ok w (begin_fetch w).
Proof. intros H. unfold begin_fetch. destruct (_ || _); [done|]. destruct (cursor_of w) eqn:E; [|done]. cbn. by rewrite E. Qed.

Lemma after_latest_ok (w : Watcher) (n : Z) : cursor_of w = lastCursor w -> waiting_ok w (after_latest w n).
Proof. intros H. unfold after_latest. by destruct (n =? 0)%Z. Qed.

Lemma cursor_only (w w' : Watcher) : lastCursor w = lastCursor w' -> cursor_of w = cursor_of w'.
Proof. unfold cursor_of. by intros ->. Qed.

(** Steps that hand out nothing keep the segment when their new polls read the cursor. *)
Lemma segment_quietly (s s' : World) (log : list SorobanEvent) : segment s log -> single s' -> out s' = out s ->
  lastCursor (watcher s') = lastCursor (watcher s) -> Forall (waiting_ok (watcher s')) (tasks s') -> segment s' log.
Proof. intros (V & _ & E & P & _) HS HO HC HT. unfold segment. rewrite HO. do 2 (split; [assumption|]). split; [by rewrite HC|]. by split. Qed.

Lemma waiting_same (w w' : Watcher) (l : list Task) : lastCursor w' = lastCursor w -> Forall (waiting_ok w) l -> Forall (waiting_ok w') l.
Proof. intros E H. eapply Forall_impl; [exact H|]. intros []; cbn; by rewrite ?E. Qed.

Lemma segment_step (l : Label) (s s' : World) (log : list SorobanEvent) : step l s = Some s' -> honest l s log -> segment s log -> segment s' log.
Proof.
  intros H [Q Hh] Hseg. pose proof (single_step l s s' H Q (proj1 (proj2 Hseg))) as HS. pose proof (cursor_set s log Hseg) as Hc.
  pose proof Hseg as (V & S0 & E & P & T). change (Forall (waiting_ok (watcher s)) (tasks s)) in T. destruct l; cbn in H.
  - injection H as <-. unfold start in *. destruct (same_target _ _ _) eqn:Et; [done|]. destruct Q as [Q|Q]; [congruence|].
    assert (B : forall w, lastCursor w = lastCursor (watcher s) -> waiting_ok w (begin_fetch w)).
    { intros w Ew. apply begin_fetch_ok. by rewrite (cursor_only _ _ Ew), Hc. }
    revert HS. destruct (isRunning (watcher s)); intros HS; apply (segment_quietly s _ log Hseg HS); try done; unfold poll; cbn; rewrite Q; constructor; try constructor; by apply B.
  - injection H as <-. by apply (segment_quietly s _ log Hseg HS).
  - injection H as <-. by apply (segment_quietly s _ log Hseg HS).
  - injection H as <-. assert (C : lastCursor (off topicName handler (watcher s)) = lastCursor (watcher s)) by (unfold off; by destruct (listeners (watcher s) !! topicName)).
    apply (segment_quietly s _ log Hseg HS); [done|exact C|]. by apply (waiting_same (watcher s)).
  - destruct (existsb _ _); [|done]. injection H as <-. unfold fire, poll in *. cbn in *. destruct (isRunning (watcher s));
      apply (segment_quietly s _ log Hseg HS); try done. apply Forall_app. split; [done|]. constructor; [by apply begin_fetch_ok|constructor].
  - destruct (tasks s !! i) as [[]|]; try done. injection H as <-. apply (segment_quietly s _ log Hseg HS); try done.
    apply Forall_insert; [done|by apply after_latest_ok].
  - destruct (tasks s !! i) as [[|u p|]|] eqn:Hi; try done. injection H as <-. destruct (answered_frame i answer s) as (E1 & _ & _).
    destruct Hh as [[e He]|(u' & p' & Hi' & He)]; cbn in *.
    + unfold answered in *. rewrite He in *. apply (segment_quietly s _ log Hseg HS); try done. by apply Forall_insert.
    + simplify_eq. destruct (answered_ok i answer _ s He) as [D C]. destruct (serve_continues s log i _ _ Hseg Hi) as (pre & post & Hlog & Hs & _).
      rewrite Hs in D, C. unfold segment. rewrite D, C, E1, last_app. split; [done|]. split; [done|]. split; [|split].
      * destruct (last (firstn 100 post)); [done|exact E].
      * exists pre, (skipn 100 post). by rewrite Hlog, <- (firstn_skipn 100 post) at 1; rewrite <- !app_assoc.
      * assert (length (tasks s) <= 1) as L by (destruct S0 as [_ S0]; unfold loops in S0; destruct (isRunning (watcher s)); destruct S0; lia).
        destruct (tasks s) as [|x [|y l]]; [done| |cbn in L; lia]. destruct i; [|done]. by repeat constructor.
  - destruct (tasks s !! i) as [[]|]; try done. injection H as <-. unfold reschedule in *. destruct (isRunning (watcher s)) eqn:R;
      apply (segment_quietly s _ log Hseg HS); try done; cbn; apply Forall_delete, (waiting_same (watcher s)); done.
Qed.

Lemma watched_segment_inv (s : World) (log : list SorobanEvent) : watched s log -> segment s log.
Proof.
  induction 1 as [log V|s log e _ (V & S0 & E & (pre & post & Hlog) & T) V'|s log l s' _ IH Hh H].
  - split; [done|]. split; [apply single_new|]. split; [done|]. split; [by exists [], log|constructor].
  - split; [done|]. split; [done|]. split; [done|]. split; [|done]. exists pre, (post ++ [e]). by rewrite Hlog, <- !app_assoc.
  - eauto using segment_step.
Qed.

(** C22: What a watcher has handed out is one segment of the contract's log, without gaps and
    without repetition, across failures, stops and starts; and once it has begun, every
    answer of the node hands out the next hundred events of the log. *)
Theorem watched_segment (s : World) (log : list SorobanEvent) (H : watched s log) :
  exists pre post, log = pre ++ delivered (out s) ++ post
    /\ (delivered (out s) <> [] -> forall i u p a, tasks s !! i = Some (Events u p) -> events_of a = Ok (serve log p) ->
        delivered (out (answered i a s)) = delivered (out s) ++ firstn 100 post).
Proof.
  apply watched_segment_inv in H. pose proof H as (_ & _ & _ & (pre & post & Hlog) & _). exists pre, post. split; [done|].
  intros Hne i u p a Hi Ha. destruct (answered_ok i a _ s Ha) as [-> _]. destruct (serve_continues s log i u p H Hi) as (pre' & post' & _ & -> & Hu).
  by rewrite (Hu Hne pre post Hlog).
Qed.
End Node.

(** ** Topics *)

Lemma dispatch_calls (w : Watcher) (t t' : string) (h : nat) (e e' : SorobanEvent) :
  Call t h e ∈ dispatchEvent w t' e' <-> t = t' /\ e = e' /\ h ∈ handlers_of w t'.
Proof.
  unfold dispatchEvent. rewrite elem_of_app, list_elem_of_singleton, list_elem_of_fmap. split.
  - intros [(h' & [= -> -> ->] & Hh)|?]; [done|done].
  - intros (-> & -> & Hh). left. by exists h.
Qed.

(** A handler is called for every event that arrives when its topic is one of the three that
    are dispatched, whatever the event's topics are, and never when it is another. *)
Theorem topics_of_events_ignored (l : list SorobanEvent) (w w' : Watcher) (o : list Emission) (t : string) (h : nat) (e : SorobanEvent)
    (H : receive_events l w = (w', o)) :
  Call t h e ∈ o <-> e ∈ l /\ t ∈ dispatched_topics /\ h ∈ handlers_of w t.
Proof.
  revert w w' o H. induction l as [|x l IH]; intros w w' o; cbn [receive_events].
  - intros [= _ <-]. split; [by intros ?%elem_of_nil|by intros [?%elem_of_nil _]].
  - destruct (receive_events l (with_cursor (pagingToken x) w)) as [w1 o1] eqn:E. intros [= _ <-]. rewrite elem_of_app, (IH _ _ _ E), elem_of_cons.
    cbn [map concat dispatched_topics]. rewrite !elem_of_app, !dispatch_calls. unfold dispatched_topics. rewrite !elem_of_cons.
    change (handlers_of (with_cursor (pagingToken x) w)) with (handlers_of w). split.
    + intros [[(-> & -> & ?)|[(-> & -> & ?)|[(-> & -> & ?)|?%elem_of_nil]]]|(? & ? & ?)]; subst; tauto.
    + intros ([->|He] & [->|[->|[->|?%elem_of_nil]]] & Hh); tauto.
Qed.

(** ** Examples *)

Definition demo_event (n : Z) (token : string) : SorobanEvent := mkEvent "contract" n "C" token token ["AccessRequested"].
Definition demo_answer (l : list SorobanEvent) : res Answer := Ok (mkAnswer true "OK" None (Some l)).

(** Before a first event every poll begins at the newest ledger: an event of a ledger that
    closes and is not the newest at the next poll is never asked for. *)
Example gap_before_first_event :
  let log := [demo_event 11 "a"; demo_event 14 "b"] in
  exists s, run [LStart "u" "C"; LLatest 0 (Ok (Some 10)); LEvents 0 (demo_answer []); LEnd 0;
                 LTimer 0; LLatest 0 (Ok (Some 12)); LEvents 0 (demo_answer []); LEnd 0;
                 LTimer 1; LLatest 0 (Ok (Some 14)); LEvents 0 (demo_answer (serve log (mkPayload (Some 14) ["C"] None 100))); LEnd 0;
                 LTimer 2; LEvents 0 (demo_answer (serve log (mkPayload None ["C"] (Some "b") 100)))]%Z new_world = Some s
    /\ delivered (out s) = [demo_event 14 "b"].
Proof. eexists. split; reflexivity. Qed.

(** Two loops hand out the same events. *)
Example two_loops_repeat :
  exists s, run [LStart "u" "C"; LLatest 0 (Ok (Some 1)); LStop; LStart "u" "C"; LLatest 1 (Ok (Some 1));
                 LEvents 0 (demo_answer [demo_event 1 "a"]); LEvents 1 (demo_answer [demo_event 1 "a"])]%Z new_world = Some s
    /\ delivered (out s) = [demo_event 1 "a"; demo_event 1 "a"].
Proof. eexists. split; reflexivity. Qed.

Definition demo_started : World := start "u" "C" new_world.

Lemma started_quiet : quiet_run demo_started.
Proof. apply (quiet_step new_world (LStart "u" "C")); [apply quiet_new|by right|reflexivity]. Qed.

Lemma one_loop_witness : loops demo_started <= 1 /\ (isRunning (watcher demo_started) = true -> loops demo_started = 1).
Proof. apply (one_loop demo_started). apply (quiet_step new_world (LStart "u" "C")); [apply quiet_new|by right|reflexivity]. Defined.

Lemma restart_doubles_witness : exists s', run [LStop; LStart "u" "C"; LEvents 0 (Throw "")] demo_started = None
  /\ run [LStop; LStart "u" "C"; LLatest 0 (Throw ""); LEnd 0] demo_started = Some s' /\ loops s' = 2.
Proof.
  eexists. split; [reflexivity|]. split; [reflexivity|].
  apply (restart_doubles demo_started "u" "C" [LLatest 0 (Throw ""); LEnd 0]); [exact started_quiet|reflexivity|discriminate|by repeat constructor|reflexivity].
Defined.

Definition demo_log : list SorobanEvent := [demo_event 1 "a"; demo_event 2 "b"].

Lemma demo_valid : valid_log demo_log.
Proof. split; [|split]; [by apply (bool_decide_eq_true_1 (NoDup (map pagingToken demo_log)))|repeat constructor; discriminate|repeat constructor; discriminate]. Qed.

(** One event handed out, a second one logged, and the poll that will ask for it. *)
Definition demo_labels : list Label :=
  [LStart "u" "C"; LLatest 0 (Ok (Some 1)); LEvents 0 (demo_answer [demo_event 1 "a"]); LEnd 0; LTimer 0]%Z.
Definition after_labels (n : nat) : World := default new_world (run (firstn n demo_labels) new_world).
Definition demo_payload : Payload := mkPayload None ["C"] (Some "a") 100.

Lemma demo_watched : watched "C" (after_labels 5) demo_log.
Proof.
  apply (watched_grows _ _ [demo_event 1 "a"]); [|exact demo_valid].
  apply (watched_step _ (after_labels 4) _ (LTimer 0)); [|by repeat split|reflexivity].
  apply (watched_step _ (after_labels 3) _ (LEnd 0)); [|by repeat split|reflexivity].
  apply (watched_step _ (after_labels 2) _ (LEvents 0 (demo_answer [demo_event 1 "a"]))); [|split; [done|]|reflexivity].
  - apply (watched_step _ (after_labels 1) _ (LLatest 0 (Ok (Some 1%Z)))); [|by repeat split|reflexivity].
    apply (watched_step _ (after_labels 0) _ (LStart "u" "C")); [|split; [by right|reflexivity]|reflexivity].
    apply watched_new. split; [|split]; [by apply (bool_decide_eq_true_1 (NoDup ["a"]))|repeat constructor; discriminate|repeat constructor].
  - right. exists "u", (mkPayload (Some 1%Z) ["C"] None 100). split; reflexivity.
Qed.

Lemma watched_segment_witness : delivered (out (after_labels 5)) = [demo_event 1 "a"]
  /\ tasks (after_labels 5) !! 0 = Some (Events "u" demo_payload)
  /\ delivered (out (answered 0 (demo_answer (serve demo_log demo_payload)) (after_labels 5))) = demo_log.
Proof.
  split; [reflexivity|]. split; [reflexivity|].
  destruct (watched_segment "C" (after_labels 5) demo_log demo_watched) as (pre & post & H & Hnext).
  rewrite (Hnext ltac:(discriminate) 0 "u" demo_payload (demo_answer (serve demo_log demo_payload)) eq_refl eq_refl).
  change (delivered (out (after_labels 5))) with [demo_event 1 "a"] in *.
  destruct pre as [|x pre]; cbn in H.
  - injection H as <-. reflexivity.
  - destruct pre as [|y pre]; [discriminate H|]. cbn in H. injection H as _ _ H. by destruct pre.
Defined.

Lemma topics_of_events_ignored_witness :
  Call "AccessRequested" 7 (demo_event 1 "a") ∈ snd (receive_events demo_log (on "AccessRequested" 7 new_watcher))
  <-> demo_event 1 "a" ∈ demo_log /\ "AccessRequested" ∈ dispatched_topics /\ 7 ∈ handlers_of (on "AccessRequested" 7 new_watcher) "AccessRequested".
Proof. eapply (topics_of_events_ignored demo_log (on "AccessRequested" 7 new_watcher)). reflexivity. Defined.
