(* ===== verification/IpfsGateway.v ===== *)
(** * IpfsGateway: the download client of ipfsGateway.ts

    The pool of gateways, the circuits, and the race of [fetchFile] as a state that the
    answers of the gateways, in the order they come, and an abort of the caller change.
    The pathname of a URL, the standard [URL] class, is a parameter.  Options are
    positive numbers; times are milliseconds. *)

From Stdlib Require Import Ascii String ZArith Lia Bool.
From stdpp Require Import base list gmap strings.
From S2P Require Import Prelude JsString JsonText.

Open Scope list_scope.
Open Scope Z_scope.

(** ** Names of gateways and content *)

Definition DEFAULT_IPFS_GATEWAYS : list string :=
  ["https://gateway.pinata.cloud/ipfs/"; "https://ipfs.infura.io/ipfs/"; "https://cloudflare-ipfs.com/ipfs/";
   "https://ipfs.io/ipfs/"]%string.

Definition DEFAULT_GATEWAY_TIMEOUT_MS : Z := 8000.
Definition DEFAULT_CIRCUIT_COOLDOWN_MS : Z := 30000.
Definition DEFAULT_FAILURE_THRESHOLD : nat := 1.

(** [replace(/^\/+/, "")] *)
Fixpoint strip_leading (s : string) : string :=
  match s with
  | String c s' => if Ascii.eqb c "/" then strip_leading s' else s
  | EmptyString => EmptyString
  end.

(** [split(c)[0]] *)
Definition before (c : ascii) (s : string) : string := List.hd "" (split c s).

Definition drop_prefix (p s : string) : string :=
  if startsWith p (toLowerCase s) then slice_from (String.length p) s else s.

(** What follows "/ipfs/" where it first occurs. *)
Fixpoint after_marker (marker s : string) : option string :=
  if startsWith marker s then Some (slice_from (String.length marker) s)
  else match s with EmptyString => None | String _ s' => after_marker marker s' end.

Definition is_http (s : string) : bool :=
  startsWith "http://" (toLowerCase s) || startsWith "https://" (toLowerCase s).

(** [pathname]: that of [new URL(value)], or nothing when it throws. *)
Definition normalizeIpfsCid (pathname : string -> option string) (input : string) : string :=
  let value := trim input in
  let finish value := strip_leading (before "#" (before "?" (drop_prefix "ipfs/" (strip_leading value)))) in
  if String.eqb value "" then ""
  else if is_http value then
    match pathname value with
    | None => value
    | Some path => finish (match after_marker "/ipfs/" path with Some v => v | None => strip_leading path end)
    end
  else finish (drop_prefix "ipfs://" value).

Fixpoint ends_with (c : ascii) (s : string) : bool :=
  match s with
  | EmptyString => false
  | String d EmptyString => Ascii.eqb d c
  | String _ s' => ends_with c s'
  end.

Definition normalizeGatewayBase (gateway : string) : string :=
  let trimmed := trim gateway in
  if String.eqb trimmed "" then ""
  else if ends_with "/" trimmed then trimmed else (trimmed ++ "/")%string.

Definition buildGatewayUrl (gateway cid : string) : string := (normalizeGatewayBase gateway ++ cid)%string.

Fixpoint unique_from (seen : gset string) (l : list string) : list string :=
  match l with
  | [] => []
  | raw :: l =>
      let gateway := normalizeGatewayBase raw in
      if String.eqb gateway "" then unique_from seen l
      else if bool_decide (toLowerCase gateway ∈ seen) then unique_from seen l
      else gateway :: unique_from ({[toLowerCase gateway]} ∪ seen) l
  end.

Definition uniqueGateways (l : list string) : list string := unique_from ∅ l.

Definition parseExtraGateways (raw : option string) : list string :=
  match raw with
  | None => []
  | Some raw =>
      if String.eqb raw "" then []
      else List.filter (fun s => negb (String.eqb s "")) (map trim (split "," raw))
  end.

(** The environment's settings stand in for missing arguments. *)
Definition resolveGatewayPool (env_primary env_extras : option string) (primary : option string)
    (extras : option (list string)) : list string :=
  let primary := match primary with Some p => Some p | None => env_primary end in
  let extras := match extras with Some l => l | None => parseExtraGateways env_extras end in
  let first := match primary with
               | Some p => if String.eqb p "" then List.hd "" DEFAULT_IPFS_GATEWAYS else p
               | None => List.hd "" DEFAULT_IPFS_GATEWAYS
               end in
  let pool := uniqueGateways (first :: DEFAULT_IPFS_GATEWAYS ++ extras) in
  match pool with [] => DEFAULT_IPFS_GATEWAYS | _ => pool end.

Definition isRetryableStatus (status : Z) : bool :=
  (status =? 408) || (status =? 425) || (status =? 429) || (500 <=? status).
Definition shouldTripCircuit (status : Z) : bool := isRetryableStatus status || (status =? 401) || (status =? 403).

(** ** The client *)

Record CircuitRecord : Type := mkCircuit { consecutiveFailures : nat; openedUntil : Z }.
Abbreviation Circuits := (gmap string CircuitRecord).

Inductive GatewayCircuitState : Type := Closed | Open | HalfOpen.

Record ClientOptions : Type := mkClient {
  gateways : list string; timeoutMs : Z; cooldownMs : Z; failureThreshold : nat
}.

Definition createIpfsGatewayClient (pool : list string) (timeoutMs cooldownMs : option Z)
    (failureThreshold : option nat) : ClientOptions :=
  let pool := uniqueGateways pool in
  mkClient (match pool with [] => DEFAULT_IPFS_GATEWAYS | _ => pool end)
    (match timeoutMs with Some t => if 0 <? t then t else DEFAULT_GATEWAY_TIMEOUT_MS | None => DEFAULT_GATEWAY_TIMEOUT_MS end)
    (match cooldownMs with Some t => if 0 <? t then t else DEFAULT_CIRCUIT_COOLDOWN_MS | None => DEFAULT_CIRCUIT_COOLDOWN_MS end)
    (match failureThreshold with Some (S n) => S n | _ => DEFAULT_FAILURE_THRESHOLD end).

Section Client.
Variable (o : ClientOptions).

Definition getRecord (gateway : string) (circuits : Circuits) : CircuitRecord :=
  default (mkCircuit 0 0) (circuits !! gateway).

Definition isCircuitOpen (gateway : string) (timestamp : Z) (circuits : Circuits) : bool :=
  timestamp <? openedUntil (getRecord gateway circuits).

Definition selectGateways (timestamp : Z) (circuits : Circuits) : list string :=
  match List.filter (fun g => negb (isCircuitOpen g timestamp circuits)) (gateways o) with
  | [] => gateways o
  | healthy => healthy
  end.

Definition recordSuccess (gateway : string) (circuits : Circuits) : Circuits :=
  <[gateway := mkCircuit 0 0]> circuits.

Definition recordFailure (gateway : string) (timestamp : Z) (circuits : Circuits) : Circuits :=
  let record := getRecord gateway circuits in
  let consecutiveFailures := S (consecutiveFailures record) in
  let openedUntil := if (failureThreshold o <=? consecutiveFailures)%nat then timestamp + cooldownMs o
                     else openedUntil record in
  <[gateway := mkCircuit consecutiveFailures openedUntil]> circuits.

Definition getURL (pathname : string -> option string) (hash : string) : string :=
  buildGatewayUrl (List.hd "" (gateways o)) (normalizeIpfsCid pathname hash).

Definition getCircuitState (gateway : string) (timestamp : Z) (circuits : Circuits) : GatewayCircuitState :=
  let base := normalizeGatewayBase gateway in
  let record := getRecord (if String.eqb base "" then gateway else base) circuits in
  if timestamp <? openedUntil record then Open
  else if (0 <? openedUntil record) && (0 <? consecutiveFailures record)%nat then HalfOpen
  else Closed.

(** ** One gateway *)

(** How the request of a gateway ends: a status, the timeout, an abort of the race, or another error. *)
Inductive GatewayAnswer : Type :=
| Answered (status : Z)
| TimedOut
| Aborted
| Failed (message : string).

Inductive FetchResult : Type :=
| Success (status : Z)
| Failure (detail : string) (trip : bool).

Definition response_ok (status : Z) : bool := (200 <=? status) && (status <? 300).

Definition fetchOne (a : GatewayAnswer) : FetchResult :=
  match a with
  | Answered status =>
      if response_ok status then Success status
      else Failure ("HTTP " ++ num_str status) (shouldTripCircuit status)
  | TimedOut => Failure "timeout" true
  | Aborted => Failure "aborted" false
  | Failed message => Failure (if String.eqb message "" then "network error" else message) true
  end.

(** ** The race *)

Inductive Outcome : Type :=
| Resolved (gateway : string) (status : Z)
| AllFailed (failures : list string)
| AbortError.

Record Race : Type := mkRace {
  circuits : Circuits; failures : list string; pending : nat; settled : option Outcome
}.

(** What happens to a race: a gateway's request ends, or the caller aborts. *)
Inductive Arrival : Type :=
| Ends (gateway : string) (now : Z) (a : GatewayAnswer)
| CallerAborts.

Definition start_race (candidates : list string) (circuits : Circuits) : Race :=
  mkRace circuits [] (length candidates) None.

Definition failOne (gateway detail : string) (trip : bool) (now : Z) (r : Race) : Race :=
  let failures := failures r ++ [(gateway ++ " -> " ++ detail)%string] in
  let circuits := if trip then recordFailure gateway now (circuits r) else circuits r in
  let pending := (pending r - 1)%nat in
  mkRace circuits failures pending (if (pending =? 0)%nat then Some (AllFailed failures) else None).

Definition arrive (r : Race) (e : Arrival) : Race :=
  match settled r with
  | Some _ => r
  | None =>
      match e with
      | CallerAborts => mkRace (circuits r) (failures r) (pending r) (Some AbortError)
      | Ends gateway now a =>
          match fetchOne a with
          | Success status =>
              mkRace (recordSuccess gateway (circuits r)) (failures r) (pending r) (Some (Resolved gateway status))
          | Failure detail trip => failOne gateway detail trip now r
          end
      end
  end.

(** [fetchFile]: the race over the candidates, or the error before it. *)
Definition fetchFile (pathname : string -> option string) (hash : string) (aborted : bool) (now : Z)
    (arrivals : list Arrival) (c : Circuits) : res Race :=
  let cid := normalizeIpfsCid pathname hash in
  throw_if String.eqb cid "" with "IPFS CID is required"%string;;
  throw_if aborted with "The operation was aborted."%string;;
  Ok (foldl arrive (start_race (selectGateways now c) c) arrivals).
End Client.

(** * Who wins the race, who is asked, and under which names *)

Open Scope list_scope.
Open Scope nat_scope.

(** ** The race *)
Section Race.
Variable (o : ClientOptions).

(** The end of a gateway's request. *)
Record End : Type := mkEnd { e_gateway : string; e_now : Z; e_answer : GatewayAnswer }.
Definition arrival (e : End) : Arrival := Ends (e_gateway e) (e_now e) (e_answer e).

Definition won (e : End) : option Z :=
  match fetchOne (e_answer e) with Success status => Some status | Failure _ _ => None end.
Definition lost (e : End) : Prop := won e = None.

Definition failure_text (e : End) : string :=
  match fetchOne (e_answer e) with
  | Success _ => ""
  | Failure detail _ => (e_gateway e ++ " -> " ++ detail)%string
  end.

(** The circuits after failures. *)
Definition trip (c : Circuits) (e : End) : Circuits :=
  match fetchOne (e_answer e) with
  | Failure _ true => recordFailure o (e_gateway e) (e_now e) c
  | _ => c
  end.

Lemma settled_stays (r : Race) (l : list Arrival) : settled r <> None -> foldl (arrive o) r l = r.
Proof.
  intros H. induction l as [|e l IH]; [done|]. cbn. unfold arrive at 2.
  destruct (settled r) eqn:E; [exact IH|done].
Qed.

Lemma lost_arrives (r : Race) (e : End) : lost e -> settled r = None ->
  arrive o r (arrival e)
  = mkRace (trip (circuits r) e) (failures r ++ [failure_text e]) (pending r - 1)
      (if pending r - 1 =? 0 then Some (AllFailed (failures r ++ [failure_text e])) else None).
Proof.
  intros Hl Hs. unfold lost, won in Hl. unfold arrive, arrival. rewrite Hs. unfold trip, failure_text, failOne.
  destruct (fetchOne (e_answer e)) as [|d t]; [done|]. by destruct t.
Qed.

(** Losers, fewer than are still running. *)
Lemma losers_arrive (l : list End) (r : Race) : Forall lost l -> settled r = None -> length l < pending r ->
  foldl (arrive o) r (map arrival l)
  = mkRace (foldl trip (circuits r) l) (failures r ++ map failure_text l) (pending r - length l) None.
Proof.
  intros Hl. revert r. induction Hl as [|e l He _ IH]; intros r Hs Hp.
  - cbn. rewrite app_nil_r, Nat.sub_0_r. rewrite <- Hs. by destruct r.
  - cbn [map foldl length] in *. rewrite lost_arrives by done.
    destruct (Nat.eqb_spec (pending r - 1) 0); [lia|]. rewrite IH by (cbn; lia || done). cbn.
    rewrite <- app_assoc. f_equal. lia.
Qed.

Lemma won_arrives (r : Race) (e : End) (status : Z) : won e = Some status -> settled r = None ->
  arrive o r (arrival e)
  = mkRace (recordSuccess (e_gateway e) (circuits r)) (failures r) (pending r) (Some (Resolved (e_gateway e) status)).
Proof.
  intros Hw Hs. unfold won in Hw. unfold arrive, arrival. rewrite Hs.
  destruct (fetchOne (e_answer e)); [|done]. by injection Hw as ->.
Qed.
End Race.

(** The race resolves with the first gateway whose answer is a success in the order the answers come, and
    from then on nothing changes: the circuits are those the earlier failures left, with the winner's closed.
    It fails exactly when every candidate has failed, and then names each failure in order. *)
Theorem first_success_wins (o : ClientOptions) (c : Circuits) (candidates : list string) (losers : list End)
    (Hl : Forall lost losers) (Hn : length losers < length candidates) (e : End) (rest : list Arrival) :
  foldl (arrive o) (start_race candidates c) (map arrival losers ++ arrival e :: rest)
  = match won e with
    | Some status =>
        mkRace (recordSuccess (e_gateway e) (foldl (trip o) c losers)) (map failure_text losers)
          (length candidates - length losers) (Some (Resolved (e_gateway e) status))
    | None =>
        if length candidates =? S (length losers)
        then mkRace (foldl (trip o) c (losers ++ [e])) (map failure_text (losers ++ [e])) 0
               (Some (AllFailed (map failure_text (losers ++ [e]))))
        else foldl (arrive o) (mkRace (foldl (trip o) c (losers ++ [e])) (map failure_text (losers ++ [e]))
                                 (length candidates - S (length losers)) None) rest
    end.
Proof.
  rewrite foldl_app. rewrite losers_arrive by done. cbn [start_race circuits failures pending app foldl].
  destruct (won e) as [status|] eqn:Ew.
  - rewrite (won_arrives o _ e status) by done. by rewrite settled_stays.
  - rewrite lost_arrives by done. cbn [circuits failures pending]. rewrite foldl_app, map_app. cbn [foldl map].
    replace (length candidates - length losers - 1) with (length candidates - S (length losers)) by lia.
    destruct (Nat.eqb_spec (length candidates) (S (length losers))) as [E|E].
    + rewrite E, Nat.sub_diag. cbn [Nat.eqb]. by rewrite settled_stays.
    + by destruct (Nat.eqb_spec (length candidates - S (length losers)) 0); [lia|].
Qed.

(** ** Circuits *)
Section Circuits.
Variable (o : ClientOptions).

Lemma select_sub (t : Z) (c : Circuits) (g : string) : g ∈ selectGateways o t c -> g ∈ gateways o.
Proof.
  unfold selectGateways. destruct (List.filter _ _) as [|x l] eqn:E; [done|]. rewrite <- E.
  rewrite !list_elem_of_In, filter_In. tauto.
Qed.

Lemma select_closed (t : Z) (c : Circuits) (g : string) : g ∈ gateways o -> isCircuitOpen g t c = false ->
  g ∈ selectGateways o t c.
Proof.
  intros Hg Ho. assert (H : In g (List.filter (fun g => negb (isCircuitOpen g t c)) (gateways o))).
  { apply filter_In. split; [by apply list_elem_of_In|by rewrite Ho]. }
  unfold selectGateways. destruct (List.filter _ _) as [|x l]; [done|]. by apply list_elem_of_In.
Qed.

Lemma select_open (t : Z) (c : Circuits) (g h : string) : h ∈ gateways o -> isCircuitOpen h t c = false ->
  isCircuitOpen g t c = true -> g ∉ selectGateways o t c.
Proof.
  intros Hh Ho Hg Hin. unfold selectGateways in Hin.
  assert (H : In h (List.filter (fun g => negb (isCircuitOpen g t c)) (gateways o))).
  { apply filter_In. split; [by apply list_elem_of_In|by rewrite Ho]. }
  destruct (List.filter _ _) as [|x l] eqn:E; [done|]. rewrite <- E in Hin.
  apply list_elem_of_In, filter_In in Hin as [_ Hin]. by rewrite Hg in Hin.
Qed.

Lemma getRecord_failure (g : string) (t : Z) (c : Circuits) :
  getRecord g (recordFailure o g t c)
  = mkCircuit (S (consecutiveFailures (getRecord g c)))
      (if failureThreshold o <=? S (consecutiveFailures (getRecord g c)) then (t + cooldownMs o)%Z
       else openedUntil (getRecord g c)).
Proof. unfold recordFailure, getRecord. by rewrite lookup_insert_eq. Qed.

Lemma failing_record (g : string) (times : list Z) (c : Circuits) : getRecord g c = mkCircuit 0 0 ->
  let r := getRecord g (foldl (fun c t => recordFailure o g t c) c times) in
  consecutiveFailures r = length times
  /\ openedUntil r = match last times with
                     | Some t => if failureThreshold o <=? length times then (t + cooldownMs o)%Z else 0%Z
                     | None => 0%Z
                     end.
Proof.
  intros H0. induction times as [|t times [IH1 IH2]] using rev_ind; [cbn; by rewrite H0|].
  cbv zeta. rewrite foldl_app, last_snoc, length_app, Nat.add_1_r. cbn [foldl].
  set (c' := foldl _ c times) in *. rewrite getRecord_failure. cbn [consecutiveFailures openedUntil].
  rewrite IH1, IH2. split; [done|]. destruct (Nat.leb_spec (failureThreshold o) (S (length times))); [done|].
  destruct (last times); [|done]. destruct (Nat.leb_spec (failureThreshold o) (length times)); [lia|done].
Qed.
End Circuits.

(** After failures in a row up to [failureThreshold], the last at [t], a gateway is left out of the races as
    long as another gateway is healthy, until [cooldownMs] have passed; then it is tried again, and one
    success makes it healthy.  Below the threshold it stays in, and every race has a candidate. *)
Theorem circuit_breaker (o : ClientOptions) (g : string) (Hg : g ∈ gateways o) (c : Circuits)
    (Hc : getRecord g c = mkCircuit 0 0) (times : list Z) (t : Z) :
  let c' := foldl (fun c t => recordFailure o g t c) c (times ++ [t]) in
  (failureThreshold o <= S (length times) ->
   (forall now, (now < t + cooldownMs o)%Z -> (exists h, h ∈ gateways o /\ isCircuitOpen h now c' = false) ->
      g ∉ selectGateways o now c')
   /\ (forall now, (t + cooldownMs o <= now)%Z -> g ∈ selectGateways o now c'))
  /\ (S (length times) < failureThreshold o -> forall now, (0 <= now)%Z -> g ∈ selectGateways o now c')
  /\ (forall now, (0 <= now)%Z -> g ∈ selectGateways o now (recordSuccess g c'))
  /\ forall now, selectGateways o now c' <> [].
Proof.
  cbv zeta. destruct (failing_record o g (times ++ [t]) c Hc) as [_ Ho].
  rewrite last_snoc, length_app, Nat.add_1_r in Ho. set (c' := foldl _ c _) in *.
  assert (Hopen : forall now, isCircuitOpen g now c'
            = (now <? if (failureThreshold o <=? S (length times))%nat then t + cooldownMs o else 0)%Z)
    by (intros now; unfold isCircuitOpen; by rewrite Ho).
  split; [|split; [|split]].
  - intros Hf. apply Nat.leb_le in Hf. rewrite Hf in Hopen. split; intros now Hnow.
    + intros (h & Hh & Hclosed). eapply select_open; [exact Hh|exact Hclosed|]. rewrite Hopen. by apply Z.ltb_lt.
    + apply select_closed; [done|]. rewrite Hopen. by apply Z.ltb_ge.
  - intros Hf now Hnow. apply select_closed; [done|]. rewrite Hopen.
    destruct (Nat.leb_spec (failureThreshold o) (S (length times))); [lia|]. by apply Z.ltb_ge.
  - intros now Hnow. apply select_closed; [done|]. unfold isCircuitOpen, getRecord, recordSuccess.
    rewrite lookup_insert_eq. by apply Z.ltb_ge.
  - intros now. unfold selectGateways. destruct (List.filter _ _); [|done]. intros E. rewrite E in Hg.
    by apply elem_of_nil in Hg.
Qed.

(** ** The pool *)

Lemma ends_with_app (c : ascii) (s : string) : ends_with c (s ++ String c "") = true.
Proof.
  induction s as [|d s IH]; [apply Ascii.eqb_refl|].
  change (String d s ++ String c "")%string with (String d (s ++ String c ""))%string.
  destruct (s ++ String c "")%string eqn:E; [by destruct s|exact IH].
Qed.

Lemma base_ends (g : string) : normalizeGatewayBase g <> ""%string -> ends_with "/" (normalizeGatewayBase g) = true.
Proof.
  unfold normalizeGatewayBase. destruct (String.eqb (trim g) ""); [done|].
  destruct (ends_with "/" (trim g)) eqn:E; [done|]. intros _. apply ends_with_app.
Qed.

Lemma unique_from_spec (seen : gset string) (l : list string) :
  Forall (fun g => g <> ""%string /\ ends_with "/" g = true /\ toLowerCase g ∉ seen) (unique_from seen l)
  /\ NoDup (map toLowerCase (unique_from seen l))
  /\ unique_from seen l `sublist_of` map normalizeGatewayBase l
  /\ forall raw, raw ∈ l -> normalizeGatewayBase raw <> ""%string ->
       toLowerCase (normalizeGatewayBase raw) ∈ seen
       \/ exists g, g ∈ unique_from seen l /\ toLowerCase g = toLowerCase (normalizeGatewayBase raw).
Proof.
  revert seen. induction l as [|raw l IH]; intros seen; cbn [unique_from map].
  { split_and!; [constructor|constructor|constructor|]. intros r Hr. by apply elem_of_nil in Hr. }
  destruct (String.eqb_spec (normalizeGatewayBase raw) "") as [E|Hne].
  { destruct (IH seen) as (H1 & H2 & H3 & H4). split_and!; try done; [by constructor|].
    intros r Hr Hn. apply elem_of_cons in Hr as [->|Hr]; [done|]. by apply H4. }
  case_bool_decide as Hin.
  { destruct (IH seen) as (H1 & H2 & H3 & H4). split_and!; try done; [by constructor|].
    intros r Hr Hn. apply elem_of_cons in Hr as [->|Hr]; [by left|]. by apply H4. }
  destruct (IH ({[toLowerCase (normalizeGatewayBase raw)]} ∪ seen)) as (H1 & H2 & H3 & H4). split_and!.
  - constructor; [split_and!; [done|by apply base_ends|done]|]. eapply Forall_impl; [exact H1|].
    intros g (? & ? & Hg). split_and!; [done..|]. intros Hu. apply Hg. apply elem_of_union. by right.
  - cbn. constructor; [|done]. intros H. apply list_elem_of_fmap in H as (g & Eg & Hg).
    eapply Forall_forall in H1; [|exact Hg]. destruct H1 as (_ & _ & H1). apply H1. rewrite <- Eg.
    apply elem_of_union. left. by apply elem_of_singleton.
  - by constructor.
  - intros r Hr Hn. apply elem_of_cons in Hr as [->|Hr].
    + right. exists (normalizeGatewayBase raw). split; [by left|done].
    + destruct (H4 r Hr Hn) as [H|(g & Hg & Eg)].
      * apply elem_of_union in H as [H|H]; [|by left]. apply elem_of_singleton in H.
        right. exists (normalizeGatewayBase raw). split; [by left|by rewrite H].
      * right. exists g. split; [by right|done].
Qed.

(** The pool a client is made with is never empty; its gateways end in a slash and no two differ only by
    case; every gateway of the settings that is not blank is in it under one spelling, and so are the four
    default gateways when the pool comes from the environment. *)
Theorem pool_is_normal (env_primary env_extras primary : option string) (extras : option (list string))
    (timeout cooldown : option Z) (threshold : option nat) :
  let pool := resolveGatewayPool env_primary env_extras primary extras in
  let o := createIpfsGatewayClient pool timeout cooldown threshold in
  gateways o <> [] /\ Forall (fun g => ends_with "/" g = true) (gateways o)
  /\ NoDup (map toLowerCase (gateways o))
  /\ (forall g, g ∈ pool -> normalizeGatewayBase g <> ""%string ->
        toLowerCase (normalizeGatewayBase g) ∈ map toLowerCase (gateways o))
  /\ (forall g, g ∈ DEFAULT_IPFS_GATEWAYS -> toLowerCase g ∈ map toLowerCase pool).
Proof.
  cbv zeta. set (pool := resolveGatewayPool _ _ _ _).
  assert (Hdef : forall g, g ∈ DEFAULT_IPFS_GATEWAYS -> toLowerCase g ∈ map toLowerCase pool).
  { intros g Hg. unfold pool, resolveGatewayPool.
    set (first := match _ with Some p => if String.eqb p "" then _ else p | None => _ end).
    set (more := match extras with Some l => l | None => _ end).
    destruct (unique_from_spec ∅ (first :: DEFAULT_IPFS_GATEWAYS ++ more)) as (_ & _ & _ & H).
    assert (Hnorm : normalizeGatewayBase g = g).
    { assert (HF : Forall (fun g => normalizeGatewayBase g = g) DEFAULT_IPFS_GATEWAYS) by (repeat constructor).
      by eapply Forall_forall in HF. }
    assert (Hne : g <> ""%string).
    { assert (HF : Forall (fun g => g <> ""%string) DEFAULT_IPFS_GATEWAYS) by (repeat constructor; done).
      by eapply Forall_forall in HF. }
    destruct (H g) as [Hs|(g' & Hg' & E)]; [|by rewrite Hnorm|by rewrite elem_of_empty in Hs|].
    { apply elem_of_cons. right. apply elem_of_app. by left. }
    unfold uniqueGateways. destruct (unique_from ∅ _) as [|x l]; [by apply elem_of_nil in Hg'|].
    rewrite Hnorm in E. rewrite <- E. by apply list_elem_of_fmap_2. }
  destruct (unique_from_spec ∅ pool) as (H1 & H2 & H3 & H4).
  assert (Hgw : gateways (createIpfsGatewayClient pool timeout cooldown threshold)
                = match unique_from ∅ pool with [] => DEFAULT_IPFS_GATEWAYS | l => l end)
    by (cbn; unfold uniqueGateways; by destruct (unique_from ∅ pool)).
  rewrite Hgw. destruct (unique_from ∅ pool) as [|x l] eqn:E; split_and!; try done.
  - repeat constructor.
  - apply (bool_decide_unpack _). by vm_compute.
  - intros g Hg Hn. destruct (H4 g Hg Hn) as [H|(g' & Hg' & _)]; [by apply elem_of_empty in H|by apply elem_of_nil in Hg'].
  - eapply Forall_impl; [exact H1|]. by intros g (_ & ? & _).
  - intros g Hg Hn. destruct (H4 g Hg Hn) as [H|(g' & Hg' & Eg)]; [by apply elem_of_empty in H|].
    rewrite <- Eg. by apply list_elem_of_fmap_2.
Qed.

(** ** Content ids *)

(** A character that none of the forms of a content id treats specially. *)
Definition plain (c : ascii) : bool :=
  negb (is_space c) && not_char "/" c && not_char "?" c && not_char "#" c && not_char ":" c.

Lemma plain_is (P : ascii -> bool) (s : string) : (forall c, plain c = true -> P c = true) ->
  str_all plain s = true -> str_all P s = true.
Proof. intros H. by apply str_all_impl. Qed.

Lemma plain_chars (c : ascii) : plain c = true ->
  negb (is_space c) = true /\ not_char "/" c = true /\ not_char "?" c = true /\ not_char "#" c = true
  /\ not_char ":" c = true.
Proof. unfold plain. rewrite !andb_true_iff. tauto. Qed.

Lemma strip_plain (s : string) : str_all plain s = true -> strip_leading s = s.
Proof.
  destruct s as [|c s]; [done|]. cbn. intros H. apply andb_true_iff in H as [H _].
  apply plain_chars in H as (_ & H & _). unfold not_char in H. apply negb_true_iff in H. by rewrite H.
Qed.

Lemma before_plain (c : ascii) (s : string) : str_all (not_char c) s = true -> before c s = s.
Proof. intros H. unfold before. by rewrite split_no_sep. Qed.

(** A prefix with a character that the text does not have. *)
Lemma no_prefix (a : ascii) (p s : string) : lower_char a = a -> (forall b, lower_char b = a -> b = a) ->
  str_all (not_char a) s = true -> str_all (not_char a) p = false -> startsWith p (toLowerCase s) = false.
Proof.
  intros Ha Hlow. revert s. induction p as [|c p IH]; intros s Hs Hp; [done|].
  destruct s as [|d s]; [done|]. cbn in Hs, Hp |- *. apply andb_true_iff in Hs as [Hd Hs].
  destruct (Ascii.eqb_spec c (lower_char d)) as [->|]; [|done]. cbn. apply IH; [done|].
  apply andb_false_iff in Hp as [Hp|Hp]; [|done]. unfold not_char in Hp, Hd.
  apply negb_false_iff, Ascii.eqb_eq in Hp. apply Hlow in Hp as ->. by rewrite Ascii.eqb_refl in Hd.
Qed.

Lemma lower_slash (b : ascii) : lower_char b = "/"%char -> b = "/"%char.
Proof. by destruct b as [[] [] [] [] [] [] [] []]. Qed.
Lemma lower_colon (b : ascii) : lower_char b = ":"%char -> b = ":"%char.
Proof. by destruct b as [[] [] [] [] [] [] [] []]. Qed.

Lemma plain_not (a : ascii) (s : string) : (a = "/" \/ a = "?" \/ a = "#" \/ a = ":")%char ->
  str_all plain s = true -> str_all (not_char a) s = true.
Proof.
  intros Ha. apply plain_is. intros c Hc. apply plain_chars in Hc as (_ & H1 & H2 & H3 & H4).
  by destruct Ha as [->|[->|[->| ->]]].
Qed.

Lemma drop_ipfs_plain (s : string) : str_all plain s = true -> drop_prefix "ipfs/" s = s.
Proof.
  intros H. unfold drop_prefix. rewrite (no_prefix "/" "ipfs/" s); [done|done|apply lower_slash| |done].
  apply plain_not; [by left|done].
Qed.

Definition finish (v : string) : string :=
  strip_leading (before "#" (before "?" (drop_prefix "ipfs/" (strip_leading v)))).

Lemma finish_forms (cid : string) : str_all plain cid = true ->
  finish cid = cid /\ finish ("ipfs/" ++ cid)%string = cid /\ finish ("/ipfs/" ++ cid)%string = cid.
Proof.
  intros H. unfold finish. assert (Hq := plain_not "?" cid ltac:(tauto) H).
  assert (Hh := plain_not "#" cid ltac:(tauto) H).
  assert (Eq := before_plain "?" cid Hq). assert (Eh := before_plain "#" cid Hh).
  assert (Ep := strip_plain cid H). split_and!.
  - by rewrite Ep, (drop_ipfs_plain cid H), Eq, Eh.
  - change (strip_leading ("ipfs/" ++ cid)) with ("ipfs/" ++ cid)%string.
    change (drop_prefix "ipfs/" ("ipfs/" ++ cid)) with cid. by rewrite Eq, Eh.
  - change (strip_leading ("/ipfs/" ++ cid)) with ("ipfs/" ++ cid)%string.
    change (drop_prefix "ipfs/" ("ipfs/" ++ cid)) with cid. by rewrite Eq, Eh.
Qed.

Lemma drop_after (p s : string) : toLowerCase p = p -> drop_prefix p (p ++ s) = s.
Proof.
  intros Hp. unfold drop_prefix.
  assert (Hl : toLowerCase (p ++ s) = (p ++ toLowerCase s)%string).
  { rewrite <- Hp at 2. clear Hp. induction p as [|c p IH]; [done|].
    change (String c p ++ s)%string with (String c (p ++ s)). cbn [toLowerCase]. by rewrite IH. }
  by rewrite Hl, startsWith_app, slice_from_app.
Qed.

(** A text with no colon is no URL. *)
Lemma not_url (s : string) : str_all (not_char ":") s = true ->
  is_http s = false /\ drop_prefix "ipfs://" s = s.
Proof.
  intros H. unfold is_http, drop_prefix.
  rewrite !(no_prefix ":" _ s eq_refl lower_colon H) by done. done.
Qed.

(** The ways a content id is written, bare, after ipfs:// or ipfs/ or /ipfs/, or as the URL of a
    gateway, all name the same content, and a client asks its first gateway for the id itself. *)
Theorem cid_forms (pathname : string -> option string) (o : ClientOptions) (cid url : string)
    (Hp : str_all plain cid = true) (Hne : cid <> ""%string)
    (Hurl : trim url = url /\ is_http url = true /\ pathname url = Some ("/ipfs/" ++ cid)%string) :
  Forall (fun s => normalizeIpfsCid pathname s = cid
                   /\ getURL o pathname s = buildGatewayUrl (List.hd ""%string (gateways o)) cid)
    [cid; ("ipfs://" ++ cid)%string; ("ipfs/" ++ cid)%string; ("/ipfs/" ++ cid)%string; url].
Proof.
  assert (Hall : Forall (fun s => normalizeIpfsCid pathname s = cid)
    [cid; ("ipfs://" ++ cid)%string; ("ipfs/" ++ cid)%string; ("/ipfs/" ++ cid)%string; url]).
  2:{ eapply Forall_impl; [exact Hall|]. intros s E. unfold getURL. by rewrite E. }
  destruct (finish_forms cid Hp) as (F1 & F2 & F3). unfold finish in *.
  assert (Hsp : str_all (fun c => negb (is_space c)) cid = true)
    by (revert Hp; apply plain_is; intros c Hc; by apply plain_chars in Hc as [Hc _]).
  assert (Hcol := plain_not ":" cid ltac:(tauto) Hp).
  assert (Htrim : forall p, str_all (fun c => negb (is_space c)) p = true -> trim (p ++ cid)%string = (p ++ cid)%string)
    by (intros p Hpp; apply trim_plain; rewrite str_all_app, Hpp; exact Hsp).
  assert (Hcolon : forall p, str_all (not_char ":") p = true ->
    is_http (p ++ cid) = false /\ drop_prefix "ipfs://" (p ++ cid) = (p ++ cid)%string)
    by (intros p Hpp; apply not_url; rewrite str_all_app, Hpp; exact Hcol).
  repeat constructor; unfold normalizeIpfsCid.
  - rewrite (Htrim "" eq_refl : trim cid = cid). destruct (String.eqb_spec cid ""); [done|].
    destruct (not_url cid Hcol) as [E1 E2]. by rewrite E1, E2, F1.
  - rewrite (Htrim "ipfs://" eq_refl).
    change (finish (drop_prefix "ipfs://" ("ipfs://" ++ cid)) = cid). by rewrite drop_after.
  - rewrite (Htrim "ipfs/" eq_refl). destruct (Hcolon "ipfs/"%string eq_refl) as [E1 E2]. rewrite E1, E2. exact F2.
  - rewrite (Htrim "/ipfs/" eq_refl). destruct (Hcolon "/ipfs/"%string eq_refl) as [E1 E2]. rewrite E1, E2. exact F3.
  - destruct Hurl as (E1 & E2 & E3). rewrite E1, E2, E3. destruct (String.eqb_spec url "") as [->|]; [done|].
    change (after_marker "/ipfs/" ("/ipfs/" ++ cid)) with (Some cid). exact F1.
Qed.

(** ** Two gateways *)
Module DemoGateways.
Definition client : ClientOptions := createIpfsGatewayClient ["https://a"; "https://b/"]%string None None None.
Definition slow : End := mkEnd "https://a/" 5 (Answered 429).
Definition fast : End := mkEnd "https://b/" 9 (Answered 200).
End DemoGateways.
Import DemoGateways.

Lemma first_success_wins_witness :
  settled (foldl (arrive client) (start_race (gateways client) ∅) [arrival slow; arrival fast])
  = Some (Resolved "https://b/" 200).
Proof.
  change [arrival slow; arrival fast] with (map arrival [slow] ++ arrival fast :: []).
  rewrite (first_success_wins client ∅ (gateways client) [slow] ltac:(by repeat constructor) ltac:(vm_compute; lia) fast []).
  reflexivity.
Defined.

Lemma circuit_breaker_witness :
  "https://a/"%string ∈ selectGateways client 30005 (foldl (fun c t => recordFailure client "https://a/" t c) ∅ [5%Z]).
Proof.
  destruct (circuit_breaker client "https://a/" ltac:(by left) ∅ ltac:(unfold getRecord; by rewrite lookup_empty) [] 5) as [H _].
  apply (proj2 (H ltac:(vm_compute; lia))). vm_compute. discriminate.
Defined.

Lemma cid_forms_witness :
  normalizeIpfsCid (fun _ => Some "/ipfs/Qm1"%string) "https://ipfs.io/ipfs/Qm1" = "Qm1"%string.
Proof.
  pose proof (cid_forms (fun _ => Some "/ipfs/Qm1"%string) client "Qm1" "https://ipfs.io/ipfs/Qm1" eq_refl
                ltac:(discriminate) ltac:(by vm_compute)) as H.
  by apply Forall_cons_1 in H as [_ H]; do 3 apply Forall_cons_1 in H as [_ H]; apply Forall_cons_1 in H as [[H _] _].
Defined.
