(* ===== verification/KeyRotation.v ===== *)
(** * KeyRotation: keyRotation.service.ts

    The rotation of a compromised key and its emergency variant over several vaults.
    The world is the key each chain has registered and the keyring of the browser.
    What a chain answers, and whether the browser can store the pair, are arguments;
    [reencrypt] is [cryptoWorkerService.reencryptEnvelopeAsync]. *)

From Stdlib Require Import Ascii String ZArith Lia Bool.
From stdpp Require Import base list gmap strings.
From S2P Require Import Prelude Bytes JsString WebCrypto JsonText Ecies EciesProofs.

Open Scope list_scope.
Open Scope nat_scope.

Record ShareEnvelopeRef : Type := mkRef { documentId : string; envelope : string }.
Record KeyRotationFailure : Type := mkFailure { failed_id : string; reason : string }.
Record VaultEnvelopeBatch : Type := mkBatch { vaultId : string; batch : list (option ShareEnvelopeRef) }.

(** An EVM adapter: the transaction it submits, and whether it is mined. *)
Record EvmAdapter : Type := mkEvmAdapter { submitted : res (option string); mined : res unit }.

(** The adapters that are given, and which rejection comes first when both reject. *)
Record Chains : Type := mkChains {
  evm : option EvmAdapter; soroban : option (res (option string)); soroban_first : bool
}.

Record World : Type := mkWorld {
  evm_key : option string; soroban_key : option string; keyring : gmap string (string * string)
}.

Record KeyRotationReport : Type := mkReport {
  newPublicKey : string; rotatedDocumentIds : list string; failures : list KeyRotationFailure;
  transactionHash : option string; sorobanTxHash : option string
}.

Record VaultRevocationResult : Type := mkVault {
  vr_vault : string; vr_rotated : list string; vr_failures : list KeyRotationFailure
}.

Record EmergencyRevocationReport : Type := mkEmergency {
  er_newPublicKey : string; totalDocumentsRotated : nat; totalFailures : nat;
  vaultResults : list VaultRevocationResult; er_transactionHash : option string; er_sorobanTxHash : option string
}.

Section Rotation.
Context {W : WebCrypto} {K : PkCrypto}.
Variable (reencrypt : string -> string -> string -> res string).

(** [item?.envelope] *)
Definition envelope_of (item : option ShareEnvelopeRef) : option ShareEnvelopeRef :=
  match item with Some x => if String.eqb (envelope x) "" then None else Some x | None => None end.

(** [err?.message || "Re-encryption failed"] *)
Definition failure_reason (e : string) : string := if String.eqb e "" then "Re-encryption failed" else e.

(** The loop over the envelopes: the documents that count as rotated, and the failures. *)
Fixpoint reencrypt_all (oldPrivateKey rotatedPublicKey : string) (envelopes : list (option ShareEnvelopeRef))
    : list string * list KeyRotationFailure :=
  match envelopes with
  | [] => ([], [])
  | item :: envelopes =>
      let '(ids, fails) := reencrypt_all oldPrivateKey rotatedPublicKey envelopes in
      match envelope_of item with
      | None =>
          (ids, mkFailure (match item with Some x => documentId x | None => "unknown" end) "Missing envelope payload" :: fails)
      | Some x =>
          match reencrypt (envelope x) oldPrivateKey rotatedPublicKey with
          | Ok _ => (documentId x :: ids, fails)
          | Throw e => (ids, mkFailure (documentId x) (failure_reason e) :: fails)
          end
      end
  end.

(** The replacement pair, generated when one half is missing, and imported as a check. *)
Definition replacement (newPublicKey newPrivateKey : option string) (drawn : PrivKey) : res (string * string) :=
  let '(pub, priv) := match newPublicKey, newPrivateKey with
                      | Some pub, Some priv =>
                          if String.eqb pub "" || String.eqb priv "" then generateECIESKeyPairBase64 drawn else (pub, priv)
                      | _, _ => generateECIESKeyPairBase64 drawn
                      end in
  let! _ := importECIESPublicKey pub in
  let! _ := importECIESPrivateKey priv in
  Ok (pub, priv).

Definition proof_error : string :=
  "Proof of possession failed: the provided private key cannot decrypt the stored envelopes".

(** The first envelope must open under the old key. *)
Definition prove_possession (oldPrivateKey : string) (envelopes : list (option ShareEnvelopeRef)) : res unit :=
  match omap envelope_of envelopes with
  | [] => Ok tt
  | x :: _ =>
      match decryptWithPrivateKey (PJson (envelope x)) oldPrivateKey with
      | Ok _ => Ok tt
      | Throw _ => Throw proof_error
      end
  end.

(** Both revocations are fired; what they do to the chains, and what the service sees. *)
Definition revoke (chains : Chains) (pub : string) (w : World) : res (option string * option string) * World :=
  let w := mkWorld
    (match evm chains with
     | Some a => match submitted a, mined a with Ok _, Ok _ => Some pub | _, _ => evm_key w end
     | None => evm_key w
     end)
    (match soroban chains with Some (Ok _) => Some pub | _ => soroban_key w end) (keyring w) in
  let evm_submit := match evm chains with Some a => submitted a | None => Ok None end in
  let soroban_submit := match soroban chains with Some r => r | None => Ok None end in
  let result :=
    match evm_submit, soroban_submit with
    | Throw e, Throw e' => Throw (if soroban_first chains then e' else e)
    | Throw e, Ok _ => Throw e
    | Ok _, Throw e => Throw e
    | Ok hash, Ok id =>
        match evm chains with
        | Some a => match mined a with Ok _ => Ok (hash, id) | Throw e => Throw e end
        | None => Ok (hash, id)
        end
    end in
  (result, w).

(** [clientKeyringService.saveKeyPair]; [stored]: the key server and the browser took the pair. *)
Definition save_checks (account publicKey privateKey pin : string) (stored : bool) : res unit :=
  throw_if String.eqb account "" || String.eqb publicKey "" || String.eqb privateKey "" with
    "Account, publicKey, and privateKey are required"%string;;
  let! _ := importECIESPublicKey publicKey in
  let! _ := importECIESPrivateKey privateKey in
  throw_if String.eqb (trim pin) "" with "A PIN or passphrase is required to save a keypair without a passkey"%string;;
  throw_if negb stored with "Failed to store key"%string;;
  Ok tt.

Definition saveKeyPair (account publicKey privateKey pin : string) (stored : bool) (w : World) : res unit * World :=
  match save_checks account publicKey privateKey pin stored with
  | Ok _ => (Ok tt, mkWorld (evm_key w) (soroban_key w) (<[toLowerCase account := (publicKey, privateKey)]> (keyring w)))
  | Throw e => (Throw e, w)
  end.

Definition guards (account oldPublicKey oldPrivateKey pin : string) : res unit :=
  throw_if String.eqb account "" with "Account address is required"%string;;
  throw_if String.eqb oldPublicKey "" || String.eqb oldPrivateKey "" with
    "Old public and private keys are required"%string;;
  throw_if String.eqb (trim pin) "" with "A PIN or passphrase is required to protect the rotated keypair"%string;;
  Ok tt.

Record Options : Type := mkOptions {
  account : string; oldPublicKey : string; oldPrivateKey : string; new_public : option string;
  new_private : option string; pinOrPassphrase : string; drawn_pair : PrivKey; chains : Chains; stored : bool
}.

(** What both operations do before they touch a chain. *)
Definition prepare (o : Options) (envelopes : list (option ShareEnvelopeRef)) : res (string * string) :=
  let! _ := guards (account o) (oldPublicKey o) (oldPrivateKey o) (pinOrPassphrase o) in
  let! pair := replacement (new_public o) (new_private o) (drawn_pair o) in
  let! _ := prove_possession (oldPrivateKey o) envelopes in
  Ok pair.

Definition rotateCompromisedKey (o : Options) (envelopes : list (option ShareEnvelopeRef)) (w : World)
    : res KeyRotationReport * World :=
  match prepare o envelopes with
  | Throw e => (Throw e, w)
  | Ok (pub, priv) =>
      let '(rotated, failed) := reencrypt_all (oldPrivateKey o) pub envelopes in
      let '(hashes, w) := revoke (chains o) pub w in
      match hashes with
      | Throw e => (Throw e, w)
      | Ok (hash, id) =>
          match saveKeyPair (account o) pub priv (pinOrPassphrase o) (stored o) w with
          | (Throw e, w) => (Throw e, w)
          | (Ok _, w) => (Ok (mkReport pub rotated failed hash id), w)
          end
      end
  end.

Definition _reencryptVaultBatch (b : VaultEnvelopeBatch) (oldPrivateKey newPublicKey : string) : VaultRevocationResult :=
  let '(rotated, failed) := reencrypt_all oldPrivateKey newPublicKey (batch b) in
  mkVault (vaultId b) rotated failed.

Definition emergencyBatchRevoke (o : Options) (vaultBatches : list VaultEnvelopeBatch) (w : World)
    : res EmergencyRevocationReport * World :=
  match prepare o (flat_map batch vaultBatches) with
  | Throw e => (Throw e, w)
  | Ok (pub, priv) =>
      let '(hashes, w) := revoke (chains o) pub w in
      match hashes with
      | Throw e => (Throw e, w)
      | Ok (hash, id) =>
          let results := map (fun b => _reencryptVaultBatch b (oldPrivateKey o) pub) vaultBatches in
          match saveKeyPair (account o) pub priv (pinOrPassphrase o) (stored o) w with
          | (Throw e, w) => (Throw e, w)
          | (Ok _, w) =>
              (Ok (mkEmergency pub (sum_list_with (fun r => length (vr_rotated r)) results)
                     (sum_list_with (fun r => length (vr_failures r)) results) results hash id), w)
          end
      end
  end.
End Rotation.

(** [reencryptEnvelopeAsync] without workers; [ephem] and [iv] are the draws for an envelope. *)
Definition reencryptEnvelopeAsync {W : WebCrypto} {K : PkCrypto} (ephem : string -> PrivKey) (iv : string -> list Z)
    (envelope oldPrivateKey newPublicKey : string) : res string :=
  let! plaintext := decryptWithPrivateKey (PJson envelope) oldPrivateKey in
  encryptWithPublicKey plaintext newPublicKey (ephem envelope) (iv envelope).

(** * What a rotation changes, and what it does not *)

Open Scope list_scope.
Open Scope nat_scope.

Section Proofs.
Context {W : WebCrypto} {K : PkCrypto}.
Implicit Types (f g : string -> string -> string -> res string) (old pub : string).

(** Two re-encryptions that fail for the same envelopes. *)
Definition same_failures (f g : string -> string -> string -> res string) : Prop :=
  forall e old new, res_map (fun _ => tt) (f e old new) = res_map (fun _ => tt) (g e old new).

Lemma reencrypt_all_same f g old pub (l : list (option ShareEnvelopeRef)) : same_failures f g ->
  reencrypt_all f old pub l = reencrypt_all g old pub l.
Proof.
  intros H. induction l as [|item l IH]; [done|]. cbn. rewrite IH.
  destruct (reencrypt_all g old pub l). destruct (envelope_of item) as [x|]; [|done].
  specialize (H (envelope x) old pub). destruct (f _ _ _), (g _ _ _); cbn in H; congruence.
Qed.

(** The documents of the envelopes that re-encrypt, in order. *)
Definition rotates f old pub (item : option ShareEnvelopeRef) : option string :=
  x ← envelope_of item; if is_ok (f (envelope x) old pub : res string) then Some (documentId x) else None.

Lemma reencrypt_all_spec f old pub (l : list (option ShareEnvelopeRef)) :
  let '(ids, fails) := reencrypt_all f old pub l in
  ids = omap (rotates f old pub) l /\ length ids + length fails = length l.
Proof.
  induction l as [|item l IH]; [done|]. cbn. unfold rotates at 1. destruct (reencrypt_all f old pub l) as [ids fails].
  destruct IH as [-> IH]. destruct (envelope_of item) as [x|]; cbn; [|split; [done|lia]].
  destruct (f (envelope x) old pub); cbn; (split; [done|cbn; lia]).
Qed.

Lemma reencrypt_all_app f old pub (a b : list (option ShareEnvelopeRef)) :
  let '(i1, f1) := reencrypt_all f old pub a in
  let '(i2, f2) := reencrypt_all f old pub b in
  reencrypt_all f old pub (a ++ b) = (i1 ++ i2, f1 ++ f2).
Proof.
  induction a as [|item a IH]; cbn; [by destruct (reencrypt_all f old pub b)|].
  destruct (reencrypt_all f old pub a) as [i1 f1], (reencrypt_all f old pub b) as [i2 f2].
  rewrite IH. destruct (envelope_of item) as [x|]; [|done]. by destruct (f _ _ _).
Qed.

Lemma batches_flat f old pub (bs : list VaultEnvelopeBatch) :
  let results := map (fun b => _reencryptVaultBatch f b old pub) bs in
  reencrypt_all f old pub (flat_map batch bs) = (flat_map vr_rotated results, flat_map vr_failures results).
Proof.
  induction bs as [|b bs IH]; [done|]. cbn [flat_map map].
  pose proof (reencrypt_all_app f old pub (batch b) (flat_map batch bs)) as H. cbv zeta in IH. rewrite IH in H.
  unfold _reencryptVaultBatch at 1 3. destruct (reencrypt_all f old pub (batch b)) as [i1 f1]. exact H.
Qed.

Lemma sum_flat {A : Type} (g : VaultRevocationResult -> list A) (l : list VaultRevocationResult) :
  sum_list_with (fun r => length (g r)) l = length (flat_map g l).
Proof. induction l as [|r l IH]; [done|]. cbn. by rewrite IH, length_app. Qed.

(** What the chains and the keyring hold after the revocation went through. *)
Lemma revoke_keyring (c : Chains) (pub : string) (w : World) : keyring (revoke c pub w).2 = keyring w.
Proof. done. Qed.

Lemma save_cases (a pub priv pin : string) (stored : bool) (w : World) :
  saveKeyPair a pub priv pin stored w
  = (Ok tt, mkWorld (evm_key w) (soroban_key w) (<[toLowerCase a := (pub, priv)]> (keyring w)))
  \/ exists e, saveKeyPair a pub priv pin stored w = (Throw e, w).
Proof. unfold saveKeyPair. destruct (save_checks _ _ _ _ _) as [[]|e]; [by left|right; by exists e]. Qed.
End Proofs.

(** Rotation throws the new envelopes away: its report and everything it leaves behind are the same whatever
    text the re-encryption of each envelope gives, so that a document it reports as rotated still has only the
    envelope for the old key, while a successful rotation replaces the old private key in the keyring. *)
Theorem rotation_discards_envelopes {W : WebCrypto} {K : PkCrypto} (f g : string -> string -> string -> res string)
    (Hfg : same_failures f g) (o : Options) (envelopes : list (option ShareEnvelopeRef))
    (batches : list VaultEnvelopeBatch) (w : World) :
  rotateCompromisedKey f o envelopes w = rotateCompromisedKey g o envelopes w
  /\ emergencyBatchRevoke f o batches w = emergencyBatchRevoke g o batches w
  /\ forall report w', rotateCompromisedKey f o envelopes w = (Ok report, w') ->
       rotatedDocumentIds report = omap (rotates f (oldPrivateKey o) (newPublicKey report)) envelopes
       /\ length (rotatedDocumentIds report) + length (failures report) = length envelopes
       /\ exists priv, prepare o envelopes = Ok (newPublicKey report, priv)
            /\ keyring w' = <[toLowerCase (account o) := (newPublicKey report, priv)]> (keyring w).
Proof.
  assert (Hsame := fun old pub l => reencrypt_all_same f g old pub l Hfg). split; [|split].
  - unfold rotateCompromisedKey. destruct (prepare o envelopes) as [[pub priv]|]; [|done]. by rewrite Hsame.
  - unfold emergencyBatchRevoke. destruct (prepare _ _) as [[pub priv]|]; [|done].
    assert (E : forall b, _reencryptVaultBatch f b (oldPrivateKey o) pub = _reencryptVaultBatch g b (oldPrivateKey o) pub)
      by (intros b; unfold _reencryptVaultBatch; by rewrite Hsame).
    by rewrite (map_ext _ _ E).
  - intros report w'. unfold rotateCompromisedKey. destruct (prepare o envelopes) as [[pub priv]|]; [|done].
    pose proof (reencrypt_all_spec f (oldPrivateKey o) pub envelopes) as Hs.
    destruct (reencrypt_all _ _ _ _) as [ids fails]. destruct Hs as [-> Hlen].
    destruct (revoke (chains o) pub w) as [hashes w1] eqn:Er. destruct hashes as [[hash id]|]; [|done].
    destruct (save_cases (account o) pub priv (pinOrPassphrase o) (stored o) w1) as [-> |[e ->]]; [|done].
    intros [= <- <-]. cbn. split; [done|]. split; [done|]. exists priv. split; [done|].
    by rewrite <- (revoke_keyring (chains o) pub w), Er.
Qed.

(** An error before the chains are called leaves everything as it was, but not one after: when one chain
    rejects, or the pair cannot be stored, the chains that accepted have registered a key whose private half,
    if it was generated here, is in no keyring. *)
Theorem failed_rotation {W : WebCrypto} {K : PkCrypto} (f : string -> string -> string -> res string) (o : Options)
    (envelopes : list (option ShareEnvelopeRef)) (w : World) (e : string) (w' : World)
    (H : rotateCompromisedKey f o envelopes w = (Throw e, w')) :
  keyring w' = keyring w
  /\ match prepare o envelopes with
     | Throw e' => e' = e /\ w' = w
     | Ok (pub, _) =>
         evm_key w' = match evm (chains o) with
                      | Some a => if is_ok (submitted a) && is_ok (mined a) then Some pub else evm_key w
                      | None => evm_key w
                      end
         /\ soroban_key w' = match soroban (chains o) with
                             | Some r => if is_ok r then Some pub else soroban_key w
                             | None => soroban_key w
                             end
     end.
Proof.
  unfold rotateCompromisedKey in H. destruct (prepare o envelopes) as [[pub priv]|e'].
  2:{ injection H as <- <-. done. }
  destruct (reencrypt_all _ _ _ _) as [ids fails].
  assert (Hw : w' = (revoke (chains o) pub w).2).
  { destruct (revoke (chains o) pub w) as [hashes w1]. destruct hashes as [[hash id]|]; [|by injection H as _ <-].
    destruct (save_cases (account o) pub priv (pinOrPassphrase o) (stored o) w1) as [E|[e' E]]; rewrite E in H; [done|].
    by injection H as _ <-. }
  subst w'. split; [done|]. cbn. split.
  - destruct (evm (chains o)) as [a|]; [|done]. by destruct (submitted a), (mined a).
  - by destruct (soroban (chains o)) as [[]|].
Qed.

(** The emergency operation does to the world exactly what one rotation of all the vaults' envelopes does,
    fails with the same errors, and reports the same documents, grouped by vault, with their totals. *)
Theorem emergency_is_rotation {W : WebCrypto} {K : PkCrypto} (f : string -> string -> string -> res string)
    (o : Options) (batches : list VaultEnvelopeBatch) (w : World) :
  let '(r1, w1) := rotateCompromisedKey f o (flat_map batch batches) w in
  let '(r2, w2) := emergencyBatchRevoke f o batches w in
  w2 = w1
  /\ match r1, r2 with
     | Throw e1, Throw e2 => e1 = e2
     | Ok report, Ok emergency =>
         er_newPublicKey emergency = newPublicKey report
         /\ rotatedDocumentIds report = flat_map vr_rotated (vaultResults emergency)
         /\ failures report = flat_map vr_failures (vaultResults emergency)
         /\ totalDocumentsRotated emergency = length (rotatedDocumentIds report)
         /\ totalFailures emergency = length (failures report)
         /\ map vr_vault (vaultResults emergency) = map vaultId batches
     | _, _ => False
     end.
Proof.
  unfold rotateCompromisedKey, emergencyBatchRevoke. destruct (prepare o (flat_map batch batches)) as [[pub priv]|]; [|done].
  rewrite batches_flat. destruct (revoke (chains o) pub w) as [hashes w1]. destruct hashes as [[hash id]|]; [|done].
  destruct (save_cases (account o) pub priv (pinOrPassphrase o) (stored o) w1) as [E|[e E]]; rewrite E; [|done].
  split; [done|]. cbn. rewrite !sum_flat. split_and!; try done. rewrite map_map. apply map_ext. intros b.
  unfold _reencryptVaultBatch. by destruct (reencrypt_all _ _ _ _).
Qed.

(** ** A rotation in which the second chain rejects *)
Module DemoRotation.
Import Mirror Pair.
#[local] Existing Instances pair.
Definition ok_reencrypt (e old new : string) : res string := Ok "new"%string.
Definition other_reencrypt (e old new : string) : res string := Ok "other"%string.
Definition opts (sor : res (option string)) : Options :=
  mkOptions "0xA" "old" "oldkey" None None "pin" 5
    (mkChains (Some (mkEvmAdapter (Ok (Some "0x1"%string)) (Ok tt))) (Some sor) false) true.
Definition world : World := mkWorld (Some "old"%string) (Some "old"%string) {["0xa"%string := ("old", "oldkey")%string]}.
End DemoRotation.
Import Mirror Pair DemoRotation.

Lemma rotation_discards_envelopes_witness :
  rotateCompromisedKey ok_reencrypt (opts (Ok None)) [None] world
  = rotateCompromisedKey other_reencrypt (opts (Ok None)) [None] world.
Proof.
  exact (proj1 (rotation_discards_envelopes ok_reencrypt other_reencrypt (fun _ _ _ => eq_refl) (opts (Ok None)) [None]
                  [] world)).
Defined.

Lemma failed_rotation_witness :
  let w' := (rotateCompromisedKey ok_reencrypt (opts (Throw "down"%string)) [None] world).2 in
  keyring w' = keyring world /\ evm_key w' <> evm_key world.
Proof.
  cbv zeta. destruct (rotateCompromisedKey ok_reencrypt (opts (Throw "down"%string)) [None] world) as [[r|e] w'] eqn:E;
    [vm_compute in E; discriminate|].
  split; [exact (proj1 (failed_rotation ok_reencrypt (opts (Throw "down"%string)) [None] world e w' E))|].
  vm_compute in E. injection E as _ <-. cbn. discriminate.
Defined.
