(* ===== verification/JsNumber.v ===== *)
(** * JsNumber: Number(text) and the ISO form of Date

    [Number_str] is the conversion StringToNumber of the language; a finite value is
    kept exact, as a decimal significand and exponent, so that the questions the code
    asks of it (is it falsy, is it finite) can be answered as for the nearest double.
    [toISOString] and [Date_parse] are the simplified ISO 8601 form with milliseconds
    and the offset Z, in years 0 to 9999; other forms of date depend on the time zone
    or on the engine and are an argument of [Date_parse]. *)

From Stdlib Require Import Ascii String ZArith List Lia Bool.
Import ListNotations.
From S2P Require Import Prelude JsString.

Open Scope list_scope.
Open Scope string_scope.
Open Scope Z_scope.

(** ** Numbers *)

(** [Fin m e] is m * 10^e before rounding. *)
Inductive number : Type :=
| NaN
| Infinite
| Fin (m e : Z).

(** An exponent part: empty, or e, a sign and digits up to the end. *)
Definition exponent (s : string) : option Z :=
  match s with
  | EmptyString => Some 0
  | String "e" t | String "E" t =>
      match t with
      | String "-" u => option_map Z.opp (parse_digits 10 u)
      | String "+" u => parse_digits 10 u
      | u => parse_digits 10 u
      end
  | _ => None
  end.

(** Digits, an optional fraction, an optional exponent: at least one digit. *)
Definition unsigned_decimal (s : string) : option (Z * Z) :=
  let whole := digit_prefix 10 s in
  let rest := slice_from (String.length whole) s in
  let '(frac, tail) :=
    match rest with
    | String "." t => let f := digit_prefix 10 t in (f, slice_from (String.length f) t)
    | _ => ("", rest)
    end in
  match parse_digits 10 (whole ++ frac), exponent tail with
  | Some m, Some e => Some (m, e - Z.of_nat (String.length frac))
  | _, _ => None
  end.

Definition decimal (sign : Z) (s : string) : number :=
  if String.eqb s "Infinity" then Infinite
  else match unsigned_decimal s with Some (m, e) => Fin (sign * m) e | None => NaN end.

Definition integer (b : Z) (s : string) : number :=
  match parse_digits b s with Some v => Fin v 0 | None => NaN end.

Definition Number_str (s : string) : number :=
  let t := trim s in
  match t with
  | EmptyString => Fin 0 0
  | String "0" (String "x" t') | String "0" (String "X" t') => integer 16 t'
  | String "0" (String "o" t') | String "0" (String "O" t') => integer 8 t'
  | String "0" (String "b" t') | String "0" (String "B" t') => integer 2 t'
  | String "-" t' => decimal (-1) t'
  | String "+" t' => decimal 1 t'
  | _ => decimal 1 t
  end.

(** m * 10^e rounds to zero when it is at most half the least double. *)
Definition rounds_to_zero (m e : Z) : bool :=
  if 0 <=? e then m =? 0 else Z.abs m * 2 ^ 1075 <=? 10 ^ (- e).

(** It rounds to an infinity from half a unit beyond the largest double on. *)
Definition rounds_to_infinity (m e : Z) : bool :=
  if 0 <=? e then 2 ^ 1024 - 2 ^ 970 <=? Z.abs m * 10 ^ e
  else (2 ^ 1024 - 2 ^ 970) * 10 ^ (- e) <=? Z.abs m.

(** [!x] and [Number.isFinite(x)] *)
Definition falsy (x : number) : bool :=
  match x with NaN => true | Infinite => false | Fin m e => rounds_to_zero m e end.
Definition isFinite (x : number) : bool :=
  match x with Fin m e => negb (rounds_to_infinity m e) | _ => false end.

Example number_examples :
  map Number_str [" 42 "; ""; "0x1F"; "-7.25"; "1e3"; ".5"; "5."; "."; "1e"; "12a"; "Infinity"; "0X"]
  = [Fin 42 0; Fin 0 0; Fin 31 0; Fin (-725) (-2); Fin 1 3; Fin 5 (-1); Fin 5 0; NaN; NaN; NaN; Infinite; NaN].
Proof. reflexivity. Qed.

Example falsy_examples :
  map (fun s => (falsy (Number_str s), isFinite (Number_str s))) ["0"; "1e-400"; "1e309"; "3"; "x"]
  = [(true, true); (true, true); (false, false); (false, true); (true, false)].
Proof. vm_compute. reflexivity. Qed.

Lemma decimal_digits (s : string) :
  str_all (is_digit 10) s = true -> decimal 1 s = match parse_digits 10 s with Some v => Fin v 0 | None => NaN end.
Proof.
  intros H. unfold decimal. destruct (String.eqb_spec s "Infinity") as [->|_]; [discriminate H|].
  unfold unsigned_decimal. rewrite digit_prefix_all by exact H.
  rewrite slice_from_all by lia. cbn [exponent]. rewrite str_app_nil_r.
  destruct (parse_digits 10 s) as [v|]; [|reflexivity]. now rewrite Z.mul_1_l.
Qed.

Lemma Number_digits (s : string) :
  str_all (is_digit 10) s = true -> s <> "" ->
  Number_str s = match parse_digits 10 s with Some v => Fin v 0 | None => NaN end.
Proof.
  intros H Hne. rewrite <- decimal_digits by exact H.
  unfold Number_str. rewrite (trim_digits 10) by exact H.
  destruct s as [|[[] [] [] [] [] [] [] []] s]; try discriminate H; try reflexivity; [now elim Hne|].
  destruct s as [|[[] [] [] [] [] [] [] []] s]; try discriminate H; reflexivity.
Qed.

(** A printed natural number is read back. *)
Lemma Number_num_str (n : Z) : 0 <= n -> Number_str (num_str n) = Fin n 0.
Proof.
  intros Hn. unfold num_str.
  rewrite Number_digits by (first [apply to_base_digits | apply to_base_nonempty]; lia).
  now rewrite parse_to_base by lia.
Qed.

(** A safe integer is falsy only when it is zero, and always finite. *)
Lemma safe_number (n : Z) : 0 <= n < 2 ^ 53 ->
  falsy (Fin n 0) = (n =? 0) /\ isFinite (Fin n 0) = true.
Proof.
  intros Hn. split; [reflexivity|]. apply negb_true_iff, Z.leb_gt.
  change (10 ^ 0) with 1. rewrite Z.mul_1_r, Z.abs_eq by lia.
  apply (Z.lt_trans _ (2 ^ 53)); [lia|reflexivity].
Qed.

(** ** Days and dates *)

Definition DayFromYear (y : Z) : Z :=
  365 * (y - 1970) + (y - 1969) / 4 - (y - 1901) / 100 + (y - 1601) / 400.

Definition leap (y : Z) : bool := (y mod 4 =? 0) && negb (y mod 100 =? 0) || (y mod 400 =? 0).

(** The year a day is in: the average year gives it up to one. *)
Definition YearFromDay (d : Z) : Z :=
  let y := 1970 + (d * 400) / 146097 in
  if d <? DayFromYear y then y - 1 else if DayFromYear (y + 1) <=? d then y + 1 else y.

(** First day of month [m] (0 for January) in its year. *)
Definition month_start (is_leap : bool) (m : Z) : Z :=
  nth (Z.to_nat m) [0; 31; 59; 90; 120; 151; 181; 212; 243; 273; 304; 334] 365
  + (if is_leap && (1 <? m) then 1 else 0).

Definition month_of (is_leap : bool) (d : Z) : Z :=
  Z.of_nat (length (filter (fun m => month_start is_leap m <=? d) [1; 2; 3; 4; 5; 6; 7; 8; 9; 10; 11])).

Definition month_length (is_leap : bool) (m : Z) : Z :=
  (if m =? 11 then (if is_leap then 366 else 365) else month_start is_leap (m + 1)) - month_start is_leap m.

Definition pad (k : nat) (n : Z) : string := padStart k "0" (num_str n).

(** [new Date(t).toISOString()] in years 0 to 9999. *)
Definition toISOString (t : Z) : string :=
  let d := t / 86400000 in
  let ms := t mod 86400000 in
  let y := YearFromDay d in
  let yd := d - DayFromYear y in
  let m := month_of (leap y) yd in
  pad 4 y ++ "-" ++ pad 2 (m + 1) ++ "-" ++ pad 2 (yd - month_start (leap y) m + 1) ++ "T"
  ++ pad 2 (ms / 3600000) ++ ":" ++ pad 2 (ms / 60000 mod 60) ++ ":" ++ pad 2 (ms / 1000 mod 60)
  ++ "." ++ pad 3 (ms mod 1000) ++ "Z".

(** Exactly [k] decimal digits and what follows. *)
Definition field (k : nat) (s : string) : option (Z * string) :=
  let f := take k s in
  if (String.length f =? k)%nat && str_all (is_digit 10) f
  then option_map (fun v => (v, slice_from k s)) (parse_digits 10 f) else None.

Definition literal (c : ascii) (s : string) : option string :=
  match s with String a t => if Ascii.eqb a c then Some t else None | EmptyString => None end.

Definition opt_bind {A B : Type} (m : option A) (k : A -> option B) : option B :=
  match m with Some a => k a | None => None end.

(** YYYY-MM-DDTHH:mm:ss.sssZ *)
Definition iso_fields (s : string) : option (Z * Z * Z * (Z * Z * Z * Z)) :=
  opt_bind (field 4 s) (fun '(y, s) => opt_bind (literal "-" s) (fun s =>
  opt_bind (field 2 s) (fun '(m, s) => opt_bind (literal "-" s) (fun s =>
  opt_bind (field 2 s) (fun '(d, s) => opt_bind (literal "T" s) (fun s =>
  opt_bind (field 2 s) (fun '(h, s) => opt_bind (literal ":" s) (fun s =>
  opt_bind (field 2 s) (fun '(mi, s) => opt_bind (literal ":" s) (fun s =>
  opt_bind (field 2 s) (fun '(sec, s) => opt_bind (literal "." s) (fun s =>
  opt_bind (field 3 s) (fun '(ms, s) => if String.eqb s "Z" then Some (y, m, d, (h, mi, sec, ms)) else None)
  )))))))))))).

(** [Date.parse(s)]; [None] is NaN.  A string of the shape above whose fields are out
    of range, like every other string, goes to [other]. *)
Definition Date_parse (other : string -> option Z) (s : string) : option Z :=
  match iso_fields s with
  | Some (y, m, d, (h, mi, sec, ms)) =>
      if (1 <=? m) && (m <=? 12) && (1 <=? d) && (d <=? month_length (leap y) (m - 1))
         && (h <? 24) && (mi <? 60) && (sec <? 60)
      then Some ((DayFromYear y + month_start (leap y) (m - 1) + (d - 1)) * 86400000
                 + h * 3600000 + mi * 60000 + sec * 1000 + ms)
      else other s
  | None => other s
  end.

Example iso_epoch : toISOString 0 = "1970-01-01T00:00:00.000Z".
Proof. reflexivity. Qed.
Example iso_leap_day : toISOString 1709210096789 = "2024-02-29T12:34:56.789Z".
Proof. reflexivity. Qed.
Example parse_leap_day : Date_parse (fun _ => None) "2024-02-29T12:34:56.789Z" = Some 1709210096789.
Proof. reflexivity. Qed.

(** ** The round trip of dates *)

Lemma year_bounds (d : Z) : DayFromYear (YearFromDay d) <= d < DayFromYear (YearFromDay d + 1).
Proof.
  unfold YearFromDay. set (q := d * 400 / 146097).
  assert (Hq : 146097 * q <= d * 400 < 146097 * q + 146097)
    by (unfold q; pose proof (Z.div_mod (d * 400) 146097 ltac:(lia)); pose proof (Z.mod_pos_bound (d * 400) 146097 ltac:(lia)); lia).
  clearbody q.
  destruct (Z.ltb_spec d (DayFromYear (1970 + q))) as [H|H];
    [|destruct (Z.leb_spec (DayFromYear (1970 + q + 1)) d) as [H'|H']];
    unfold DayFromYear in *; Z.to_euclidean_division_equations; lia.
Qed.

Lemma year_length (y : Z) : DayFromYear (y + 1) - DayFromYear y = if leap y then 366 else 365.
Proof.
  unfold leap, DayFromYear.
  destruct (Z.eqb_spec (y mod 4) 0), (Z.eqb_spec (y mod 100) 0), (Z.eqb_spec (y mod 400) 0); cbn [andb orb negb];
    Z.to_euclidean_division_equations; lia.
Qed.

Lemma DayFromYear_mono (y z : Z) : y <= z -> DayFromYear y <= DayFromYear z.
Proof. unfold DayFromYear. intros H. Z.to_euclidean_division_equations; lia. Qed.

Lemma year_range (d : Z) : DayFromYear 0 <= d < DayFromYear 10000 -> 0 <= YearFromDay d < 10000.
Proof.
  intros H. pose proof (year_bounds d) as Hb. split.
  - destruct (Z.le_gt_cases 0 (YearFromDay d)) as [|C]; [assumption|].
    pose proof (DayFromYear_mono (YearFromDay d + 1) 0). lia.
  - destruct (Z.le_gt_cases 10000 (YearFromDay d)) as [C|]; [|assumption].
    pose proof (DayFromYear_mono 10000 (YearFromDay d)). lia.
Qed.

Definition month_ok (is_leap : bool) (yd : Z) : bool :=
  let m := month_of is_leap yd in
  (0 <=? m) && (m <=? 11) && (1 <=? yd - month_start is_leap m + 1)
  && (yd - month_start is_leap m + 1 <=? month_length is_leap m) && (month_length is_leap m <=? 31).

Lemma month_facts (is_leap : bool) (yd : Z) : 0 <= yd < (if is_leap then 366 else 365) -> month_ok is_leap yd = true.
Proof.
  assert (H : forallb (fun b : bool => forallb (fun n => month_ok b (Z.of_nat n)) (seq 0 (if b then 366 else 365)))
                [true; false] = true) by (vm_compute; reflexivity).
  intros Hy. rewrite forallb_forall in H. specialize (H is_leap ltac:(destruct is_leap; cbn; auto)).
  rewrite forallb_forall in H. specialize (H (Z.to_nat yd)). rewrite Z2Nat.id in H by lia.
  apply H, in_seq. destruct is_leap; lia.
Qed.

Lemma field_pad (k : nat) (n : Z) (s : string) :
  (1 <= k)%nat -> 0 <= n < 10 ^ Z.of_nat k -> field k (pad k n ++ s) = Some (n, s).
Proof.
  intros Hk Hn. unfold field, pad, num_str.
  assert (L : String.length (padStart k "0" (to_base 10 n)) = k)
    by (rewrite padStart_length; pose proof (to_base_length 10 ltac:(lia) k n Hn Hk); lia).
  set (p := padStart k "0" (to_base 10 n)) in *.
  assert (T : take k (p ++ s) = p) by (rewrite <- L at 1; apply take_app).
  assert (D : slice_from k (p ++ s) = s) by (rewrite <- L at 1; apply slice_from_app).
  rewrite T, D, L, Nat.eqb_refl. unfold p.
  rewrite pad_to_base_digits, parse_pad_to_base by lia. reflexivity.
Qed.

Lemma iso_fields_print (y m d h mi sec ms : Z) :
  0 <= y < 10 ^ 4 -> 0 <= m < 10 ^ 2 -> 0 <= d < 10 ^ 2 -> 0 <= h < 10 ^ 2 -> 0 <= mi < 10 ^ 2 ->
  0 <= sec < 10 ^ 2 -> 0 <= ms < 10 ^ 3 ->
  iso_fields (pad 4 y ++ "-" ++ pad 2 m ++ "-" ++ pad 2 d ++ "T" ++ pad 2 h ++ ":" ++ pad 2 mi ++ ":"
              ++ pad 2 sec ++ "." ++ pad 3 ms ++ "Z") = Some (y, m, d, (h, mi, sec, ms)).
Proof.
  intros. unfold iso_fields.
  rewrite (field_pad 4) by (lia || assumption). cbn [opt_bind literal append Ascii.eqb Bool.eqb].
  do 5 (rewrite (field_pad 2) by (lia || assumption); cbn [opt_bind literal append Ascii.eqb Bool.eqb]).
  rewrite (field_pad 3) by (lia || assumption). reflexivity.
Qed.

(** A date that was printed is read back, whatever the engine does with other text. *)
Lemma Date_parse_toISOString (other : string -> option Z) (t : Z) :
  -62167219200000 <= t < 253402300800000 -> Date_parse other (toISOString t) = Some t.
Proof.
  intros Ht. unfold toISOString. cbv zeta.
  set (d := t / 86400000). set (r := t mod 86400000).
  assert (Er : t = d * 86400000 + r /\ 0 <= r < 86400000)
    by (unfold d, r; Z.to_euclidean_division_equations; lia).
  assert (Hd : DayFromYear 0 <= d < DayFromYear 10000).
  { replace (DayFromYear 0) with (-719528) by reflexivity.
    replace (DayFromYear 10000) with 2932897 by reflexivity. lia. }
  clearbody d r. pose proof (year_range d Hd) as Hy. pose proof (year_bounds d) as Hb.
  pose proof (year_length (YearFromDay d)) as Hl. set (y := YearFromDay d) in *. clearbody y.
  set (yd := d - DayFromYear y). pose proof (month_facts (leap y) yd) as Hm.
  assert (Hyd : 0 <= yd < (if leap y then 366 else 365)) by (unfold yd; destruct (leap y); lia).
  specialize (Hm Hyd). unfold month_ok in Hm. set (m := month_of (leap y) yd) in *. clearbody m.
  repeat (apply andb_true_iff in Hm as [Hm ?]). bool_to_prop.
  unfold Date_parse. rewrite iso_fields_print by (Z.to_euclidean_division_equations; lia).
  replace (m + 1 - 1) with m by lia.
  assert (G : (1 <=? m + 1) && (m + 1 <=? 12) && (1 <=? yd - month_start (leap y) m + 1)
      && (yd - month_start (leap y) m + 1 <=? month_length (leap y) m)
      && (r / 3600000 <? 24) && (r / 60000 mod 60 <? 60) && (r / 1000 mod 60 <? 60) = true).
  { repeat (apply andb_true_iff; split); first [apply Z.leb_le | apply Z.ltb_lt];
      try (Z.to_euclidean_division_equations; lia). }
  rewrite G. f_equal. unfold yd. destruct Er as [-> Er].
  clear - Er. Z.to_euclidean_division_equations; lia.
Qed.
