(* ===== verification/KeyInbox.v ===== *)
(** * KeyInbox: keyInbox.service.ts

    Key envelopes are JSON files pinned with metadata that names the recipient by a hash.
    A world of type [W] stands for the pinning service, the gateway and the clock; what
    they answer is the class [Network].  [axios] and the signature of the proxy are its
    operations; every request the code makes is built here.  The code throws through
    [io], a state and error monad.  Timeouts of requests are left out. *)

From Stdlib Require Import Ascii String ZArith List Lia Bool.
Import ListNotations.
From S2P Require Import Prelude JsString JsonText JsNumber.

Open Scope string_scope.
Open Scope list_scope.
Open Scope Z_scope.

(** ** Code that acts on a world and may throw *)

Definition io (S A : Type) : Type := S -> res A * S.

Definition ret {S A : Type} (a : A) : io S A := fun s => (Ok a, s).
Definition throw {S A : Type} (e : string) : io S A := fun s => (Throw e, s).
Definition bind {S A B : Type} (m : io S A) (k : A -> io S B) : io S B :=
  fun s => match m s with (Ok a, s') => k a s' | (Throw e, s') => (Throw e, s') end.
(** [try { m } catch (e) { h(e) }] *)
Definition try_catch {S A : Type} (m : io S A) (h : string -> io S A) : io S A :=
  fun s => match m s with (Throw e, s') => h e s' | r => r end.

Declare Scope io_scope.
Delimit Scope io_scope with io.
Notation "'do!' x '<-' m 'in' k" := (bind m (fun x => k))
  (at level 10, x name, m at level 100, k at level 200) : io_scope.
Notation "'do!' ' p '<-' m 'in' k" := (bind m (fun x => match x with p => k end))
  (at level 10, p pattern, m at level 100, k at level 200) : io_scope.
#[global] Open Scope io_scope.

Fixpoint mapM_io {S A B : Type} (f : A -> io S B) (l : list A) : io S (list B) :=
  match l with
  | [] => ret []
  | x :: l' => do! y <- f x in do! ys <- mapM_io f l' in ret (y :: ys)
  end.

(** ** Requests and answers *)

Definition Headers : Type := list (string * string).

Inductive Body : Type :=
| NoBody
| Text (s : string)
| Object (v : json).

Record Request : Type := mkRequest {
  method : string; url : string; params : list (string * string); headers : Headers; body : Body
}.

Record HttpError : Type := mkError {
  status : option nat; code : option string; data_reason : option string; data_error : option string; message : string
}.

(** The metadata of a pin; [keyvalues] has distinct keys. *)
Definition KeyValues : Type := list (string * string).
Record PinMetadata : Type := mkMetadata { name : option string; keyvalues : option KeyValues }.
Record PinRow : Type := mkRow {
  ipfs_pin_hash : option string; date_pinned : option string; metadata : option PinMetadata
}.

(** [response.data]: the field of it that the code reads. *)
Inductive Data : Type :=
| Rows (rows : option (list PinRow))
| IpfsHash (hash : option string)
| Content (v : json).

Class Network (W : Type) : Type := {
  axios : Request -> W -> (Data + HttpError) * W;
  signProxyRequest : string -> string -> string -> option string -> W -> res Headers * W;
  Date_now : W -> Z
}.

(** The build-time configuration, [import.meta.env]. *)
Record Env : Type := mkEnv {
  VITE_IPFS_API_URL : option string; VITE_PINATA_JWT : option string;
  VITE_PINATA_API_KEY : option string; VITE_PINATA_API_SECRET : option string;
  VITE_IPFS_GATEWAY : option string; VITE_IPFS_PROXY_URL : option string;
  VITE_SPOOVUALT_PROXY_SECRET : option string
}.

Record KeyEnvelopePayload : Type := mkPayload {
  version : Z; contract : string; chainId : Z; vaultId : Z; documentId : Z;
  beneficiary : string; issuedBy : string; issuedAt : string; key : string
}.

Definition ENVELOPE_NAME : string := "spoovault-beneficiary-key-envelope".
Definition ENVELOPE_TYPE : string := "beneficiary_key_envelope".

(** [!s], [x || d] and [x || ""] on strings *)
Definition blank (s : string) : bool := String.eqb s "".
Definition or_else (x : option string) (d : string) : string :=
  match x with Some s => if blank s then d else s | None => d end.
Definition or_empty (x : option string) : string := or_else x "".

Definition normalizeAddress (value : string) : string := toLowerCase (trim value).

(** [encodeURIComponent] of a UTF-8 string. *)
Definition unreserved (c : ascii) : bool :=
  let n := nat_of_ascii c in
  ((48 <=? n) && (n <=? 57) || (65 <=? n) && (n <=? 90) || (97 <=? n) && (n <=? 122))%nat
  || existsb (Ascii.eqb c) ["-"; "_"; "."; "!"; "~"; "*"; "'"; "("; ")"]%char.
Definition upper_hex (d : nat) : ascii := ascii_of_nat (if (d <? 10)%nat then 48 + d else 55 + d).
Fixpoint encodeURIComponent (s : string) : string :=
  match s with
  | EmptyString => EmptyString
  | String c s' =>
      if unreserved c then String c (encodeURIComponent s')
      else let n := nat_of_ascii c in
           String "%" (String (upper_hex (n / 16)) (String (upper_hex (n mod 16)) (encodeURIComponent s')))
  end.

Definition payload_json (p : KeyEnvelopePayload) : json :=
  JObj [("version", JNum (version p)); ("type", JStr ENVELOPE_TYPE); ("app", JStr "SpooVault");
        ("contract", JStr (contract p)); ("chainId", JNum (chainId p)); ("vaultId", JNum (vaultId p));
        ("documentId", JNum (documentId p)); ("beneficiary", JStr (beneficiary p));
        ("issuedBy", JStr (issuedBy p)); ("issuedAt", JStr (issuedAt p)); ("key", JStr (key p))].

Definition metadata_json (kv : KeyValues) : json :=
  JObj [("name", JStr ENVELOPE_NAME); ("keyvalues", JObj (map (fun '(k, v) => (k, JStr v)) kv))].

Definition pin_body (content : json) (kv : KeyValues) : json :=
  JObj [("pinataContent", content); ("pinataMetadata", metadata_json kv)].

(** [keyvalues[k]] *)
Fixpoint kv_get (k : string) (kv : KeyValues) : option string :=
  match kv with
  | [] => None
  | (k', v) :: kv' => if String.eqb k' k then Some v else kv_get k kv'
  end.

(** The fields of a row as the loops read them. *)
Definition row_hash (r : PinRow) : string := or_empty (ipfs_pin_hash r).
Definition row_name (r : PinRow) : string :=
  or_empty (match metadata r with Some m => name m | None => None end).
Definition row_keyvalues (r : PinRow) : KeyValues :=
  match metadata r with Some (mkMetadata _ (Some kv)) => kv | _ => [] end.
Definition row_get (k : string) (r : PinRow) : string := or_empty (kv_get k (row_keyvalues r)).

Definition is_envelope (r : PinRow) : bool :=
  negb (blank (row_hash r)) && String.eqb (row_name r) ENVELOPE_NAME && String.eqb (row_get "type" r) ENVELOPE_TYPE.

(** [for (const row of rows) { ... matches.push(...); if (matches.length >= max) break; }] *)
Fixpoint scan {A : Type} (keep : PinRow -> option A) (maxMatches : Z) (rows : list PinRow) (matches : list A) : list A :=
  match rows with
  | [] => matches
  | r :: rows' =>
      match keep r with
      | None => scan keep maxMatches rows' matches
      | Some h =>
          let matches' := matches ++ [h] in
          if maxMatches <=? Z.of_nat (length matches') then matches' else scan keep maxMatches rows' matches'
      end
  end.

(** [String(v)] of a JSON value *)
Fixpoint String_of (v : json) : string :=
  match v with
  | JNull => "null"
  | JBool b => if b then "true" else "false"
  | JNum n => num_str n
  | JStr s => s
  | JArr l => join "," (map (fun x => match x with JNull => "" | _ => String_of x end) l)
  | JObj _ => "[object Object]"
  end.

(** [v || ""], as a string *)
Definition text_or_empty (v : option json) : string :=
  match v with
  | None | Some JNull | Some (JBool false) | Some (JNum 0) => ""
  | Some v => String_of v
  end.

(** [value.trim().toLowerCase()] of a property of JSON content *)
Definition normalize_prop (v : option json) : res string :=
  match v with
  | Some (JStr s) => Ok (normalizeAddress s)
  | None => Throw "Cannot read properties of undefined (reading 'trim')"
  | Some JNull => Throw "Cannot read properties of null (reading 'trim')"
  | Some _ => Throw "value.trim is not a function"
  end.

Section Service.
Context {W : Type} `{Network W}.
Variables (env : Env) (SHA256 : string -> string) (parse_other : string -> option Z).

Definition PINATA_API_URL : string := or_else (VITE_IPFS_API_URL env) "https://api.pinata.cloud".
Definition IPFS_GATEWAY : string := or_else (VITE_IPFS_GATEWAY env) "https://gateway.pinata.cloud/ipfs/".
Definition IPFS_PROXY_URL : string := trim (or_empty (VITE_IPFS_PROXY_URL env)).
Definition PROXY_SECRET : string := trim (or_empty (VITE_SPOOVUALT_PROXY_SECRET env)).
Definition given (x : option string) : bool := negb (blank (or_empty x)).
Definition proxied : bool := negb (blank IPFS_PROXY_URL).

Definition isConfigured : bool :=
  if proxied then negb (blank PROXY_SECRET)
  else given (VITE_PINATA_JWT env) || given (VITE_PINATA_API_KEY env) && given (VITE_PINATA_API_SECRET env).

Definition getProxySecret : res string :=
  if blank PROXY_SECRET then Throw "IPFS proxy signing secret is not configured" else Ok PROXY_SECRET.

Definition buildAuthHeaders : Headers :=
  if given (VITE_PINATA_JWT env) then [("Authorization", ("Bearer " ++ or_empty (VITE_PINATA_JWT env))%string)]
  else if given (VITE_PINATA_API_KEY env) && given (VITE_PINATA_API_SECRET env)
       then [("pinata_api_key", or_empty (VITE_PINATA_API_KEY env));
             ("pinata_secret_api_key", or_empty (VITE_PINATA_API_SECRET env))]
       else [].

Definition hashAddress (value : string) : string := SHA256 (normalizeAddress value).
Definition getGatewayUrl (hash : string) : string := (IPFS_GATEWAY ++ hash)%string.

(** [await axios(...)]: an [AxiosError] is thrown with its message. *)
Definition call (rq : Request) : io W Data :=
  fun w => match axios rq w with (inl d, w') => (Ok d, w') | (inr e, w') => (Throw (message e), w') end.

(** The headers of a request: signed for the proxy, or the credentials. *)
Definition auth (m path : string) (b : option string) : io W Headers :=
  if proxied
  then match getProxySecret with Ok s => signProxyRequest s m path b | Throw e => throw e end
  else ret buildAuthHeaders.

(** *** Publishing *)

Definition envelope_keyvalues (p : KeyEnvelopePayload) : KeyValues :=
  [("type", ENVELOPE_TYPE); ("beneficiary", hashAddress (beneficiary p)); ("contract", hashAddress (contract p));
   ("chainId", num_str (chainId p)); ("documentId", num_str (documentId p)); ("vaultId", num_str (vaultId p));
   ("issuedBy", hashAddress (issuedBy p)); ("issuedAt", issuedAt p)].

Definition envelope_content (p : KeyEnvelopePayload) : KeyEnvelopePayload :=
  mkPayload (version p) (normalizeAddress (contract p)) (chainId p) (vaultId p) (documentId p)
    (normalizeAddress (beneficiary p)) (normalizeAddress (issuedBy p)) (issuedAt p) (key p).

Definition pin_request (auth_headers : Headers) (content : json) (kv : KeyValues) : Request :=
  if proxied
  then mkRequest "POST" (IPFS_PROXY_URL ++ "/api/ipfs/pin-json")%string [] (("Content-Type", "application/json") :: auth_headers)
         (Text (json_text (pin_body content kv)))
  else mkRequest "POST" (PINATA_API_URL ++ "/pinning/pinJSONToIPFS")%string [] (("Content-Type", "application/json") :: auth_headers)
         (Object (pin_body content kv)).

Definition sendKeyEnvelope (payload : KeyEnvelopePayload) : io W string :=
  if negb isConfigured then throw "IPFS is not configured"
  else
    let content := payload_json (envelope_content payload) in
    let kv := envelope_keyvalues payload in
    do! h <- auth "POST" "/api/ipfs/pin-json" (Some (json_text (pin_body content kv))) in
    do! response <- call (pin_request h content kv) in
    let hash := match response with IpfsHash x => or_empty x | _ => "" end in
    if blank hash then throw "Failed to publish key envelope" else ret hash.

(** *** Listing *)

Definition list_path (page : nat) : string :=
  ("/api/ipfs/pin-list?status=pinned&pageLimit=100&pageOffset=" ++ num_str (Z.of_nat page * 100))%string.

Definition list_request (auth_headers : Headers) (page : nat) : Request :=
  if proxied
  then mkRequest "GET" (IPFS_PROXY_URL ++ list_path page)%string [] auth_headers NoBody
  else mkRequest "GET" (PINATA_API_URL ++ "/data/pinList")%string
         [("status", "pinned"); ("pageLimit", "100"); ("pageOffset", num_str (Z.of_nat page * 100))] auth_headers NoBody.

Definition list_page (page : nat) : io W (list PinRow) :=
  do! h <- auth "GET" (list_path page) None in
  do! response <- call (list_request h page) in
  ret (match response with Rows (Some rows) => rows | _ => [] end).

(** [for (let page = 0; page < maxPages && matches.length < maxMatches; page++)], with [n] pages left. *)
Fixpoint collect {A : Type} (keep : PinRow -> option A) (maxMatches : Z) (n page : nat) (matches : list A) : io W (list A) :=
  match n with
  | O => ret matches
  | S n' =>
      if Z.of_nat (length matches) <? maxMatches then
        do! rows <- list_page page in
        match rows with
        | [] => ret matches
        | _ => collect keep maxMatches n' (S page) (scan keep maxMatches rows matches)
        end
      else ret matches
  end.

(** [Math.max(1, Math.min(limit ?? d, top))] *)
Definition clamp (limit : option Z) (d top : Z) : Z :=
  Z.max 1 (Z.min (match limit with Some l => l | None => d end) top).

Definition for_beneficiary (target : string) (r : PinRow) : option string :=
  if is_envelope r && String.eqb (normalizeAddress (row_get "beneficiary" r)) target
  then Some (row_hash r) else None.

Definition listEnvelopeHashesForBeneficiary (beneficiaryAddress : string) (limit : option Z) : io W (list string) :=
  if negb isConfigured then throw "IPFS is not configured"
  else collect (for_beneficiary (hashAddress beneficiaryAddress)) (clamp limit 30 100) 6 0 [].

Definition any_envelope (r : PinRow) : option (string * PinRow) :=
  if is_envelope r then Some (row_hash r, r) else None.

Definition listAllKeyEnvelopes (limit maxPages : option Z) : io W (list (string * PinRow)) :=
  if negb isConfigured then throw "IPFS is not configured"
  else collect any_envelope (clamp limit 200 500) (Z.to_nat (match maxPages with Some n => n | None => 10 end)) 0 [].

Definition for_beneficiary_and_doc (target docId : string) (r : PinRow) : option string :=
  if is_envelope r && (String.eqb (normalizeAddress (row_get "beneficiary" r)) target
                       && String.eqb (row_get "documentId" r) docId)
  then Some (row_hash r) else None.

Definition findEnvelopeHashesForBeneficiaryAndDoc (beneficiaryAddress : string) (docId : Z) (limit : option Z)
    : io W (list string) :=
  if negb isConfigured then throw "IPFS is not configured"
  else collect (for_beneficiary_and_doc (hashAddress beneficiaryAddress) (num_str docId)) (clamp limit 30 100) 6 0 [].

(** *** The inbox *)

Definition gateway_request (hash : string) : Request := mkRequest "GET" (getGatewayUrl hash) [] [] NoBody.

(** Any object is taken for an envelope; a failure gives null. *)
Definition fetchEnvelopeByHash (hash : string) : io W (option json) :=
  fun w => match axios (gateway_request hash) w with
           | (inl (Content (JObj l)), w') => (Ok (Some (JObj l)), w')
           | (inl (Content (JArr l)), w') => (Ok (Some (JArr l)), w')
           | (_, w') => (Ok None, w')
           end.

Fixpoint somes {A : Type} (l : list (option A)) : list A :=
  match l with [] => [] | Some x :: l' => x :: somes l' | None :: l' => somes l' end.

(** [items.filter((item) => normalizeAddress(item.beneficiary) === recipient)] *)
Fixpoint addressed_to (recipient : string) (items : list json) : res (list json) :=
  match items with
  | [] => Ok []
  | x :: l =>
      let! b := normalize_prop (get_prop "beneficiary" x) in
      let! ys := addressed_to recipient l in
      Ok (if String.eqb b recipient then x :: ys else ys)
  end.

Definition issued_time (x : json) : Z :=
  match Date_parse parse_other (text_or_empty (get_prop "issuedAt" x)) with Some t => t | None => 0 end.

Definition fetchBeneficiaryInbox (beneficiaryAddress : string) (limit : option Z) : io W (list json) :=
  do! hashes <- listEnvelopeHashesForBeneficiary beneficiaryAddress limit in
  match hashes with
  | [] => ret []
  | _ =>
      do! envelopes <- mapM_io fetchEnvelopeByHash hashes in
      match addressed_to (normalizeAddress beneficiaryAddress) (somes envelopes) with
      | Ok items => ret (sort_by (fun x => - issued_time x) items)
      | Throw e => throw e
      end
  end.

(** *** Unpinning: [ipfsService.unpin] *)

Definition unpin_path (cleanHash : string) : string := ("/api/ipfs/unpin/" ++ encodeURIComponent cleanHash)%string.

Definition unpin_request (auth_headers : Headers) (cleanHash : string) : Request :=
  if proxied
  then mkRequest "DELETE" (IPFS_PROXY_URL ++ unpin_path cleanHash)%string [] auth_headers NoBody
  else mkRequest "DELETE" (PINATA_API_URL ++ "/pinning/unpin/" ++ encodeURIComponent cleanHash)%string [] auth_headers NoBody.

(** The body of its [try]: an [Error] that is not of axios has only a message. *)
Definition unpin_attempt (cleanHash : string) (w : W) : (Data + HttpError) * W :=
  match auth "DELETE" (unpin_path cleanHash) None w with
  | (Ok h, w') => axios (unpin_request h cleanHash) w'
  | (Throw e, w') => (inr (mkError None None None None e), w')
  end.

Definition unpin_message (e : HttpError) : string :=
  if String.eqb (or_empty (code e)) "ERR_CANCELED" then "IPFS unpin canceled."
  else if String.eqb (or_empty (code e)) "ECONNABORTED" then "IPFS unpin timed out."
  else or_else (data_reason e) (or_else (data_error e) (or_else (Some (message e)) "IPFS unpin failed")).

Definition not_found (e : HttpError) : bool :=
  match status e with Some n => (n =? 404)%nat | None => false end.

Definition unpin (hash : string) : io W bool :=
  if blank (trim hash) then throw "IPFS hash is required for unpinning"
  else if negb isConfigured then throw "IPFS is not configured"
  else fun w => match unpin_attempt (trim hash) w with
                | (inl _, w') => (Ok true, w')
                | (inr e, w') => (if not_found e then Ok true else Throw (unpin_message e), w')
                end.

Definition unpinKeyEnvelope (hash : string) : io W bool := unpin hash.

(** The loop of [unpinEnvelopesForBeneficiaryAndDoc]: every hash ends in one of the lists. *)
Fixpoint unpin_each (hashes unpinned failed : list string) (w : W) : (list string * list string) * W :=
  match hashes with
  | [] => ((unpinned, failed), w)
  | hash :: hashes' =>
      match unpinKeyEnvelope hash w with
      | (Ok _, w') => unpin_each hashes' (unpinned ++ [hash]) failed w'
      | (Throw _, w') => unpin_each hashes' unpinned (failed ++ [hash]) w'
      end
  end.

Definition unpinEnvelopesForBeneficiaryAndDoc (beneficiaryAddress : string) (docId : Z)
    : io W (list string * list string) :=
  do! hashes <- findEnvelopeHashesForBeneficiaryAndDoc beneficiaryAddress docId None in
  fun w => let '(lists, w') := unpin_each hashes [] [] w in (Ok lists, w').

End Service.
