(* ===== verification/KeyInboxProofs.v ===== *)
(** * KeyInboxProofs: the key inbox over a pinning service that works

    [PinService] says what the code relies on: what is pinned, page by page, what a file
    holds, and that an unpin which reports success removes the pin.  A listing of the
    inbox is then a filter over the first pages, a sent envelope arrives, and one file
    that is not an envelope keeps the whole inbox from opening. *)

From Stdlib Require Import Ascii String ZArith List Lia Bool Permutation.
Import ListNotations.
From S2P Require Import Prelude JsString JsonText JsNumber KeyInbox.

Open Scope string_scope.
Open Scope list_scope.
Open Scope Z_scope.

(** Rows that an unpin of [hash] leaves. *)
Definition without (hash : string) (rows : list PinRow) : list PinRow :=
  filter (fun r => negb (String.eqb (row_hash r) hash)) rows.

(** An answer after which the pin is gone: success, or not found. *)
Definition settled (r : Data + HttpError) : bool :=
  match r with inl _ => true | inr e => not_found e end.

Class PinService (W : Type) `{Network W} (env : Env) : Type := {
  pinned : W -> list PinRow;
  content : W -> string -> option json;
  same_pins (w w' : W) : Prop :=
    pinned w' = pinned w /\ content w' = content w /\ Date_now w <= Date_now w';
  sign_works (s m p : string) (b : option string) (w : W) :
    exists h w', signProxyRequest s m p b w = (Ok h, w') /\ same_pins w w';
  list_works (h : Headers) (page : nat) (w : W) :
    exists w', axios (list_request env h page) w
               = (inl (Rows (Some (firstn 100 (skipn (page * 100) (pinned w))))), w') /\ same_pins w w';
  gateway_works (hash : string) (w : W) :
    exists w', same_pins w w' /\
      match content w hash with
      | Some v => axios (gateway_request env hash) w = (inl (Content v), w')
      | None => exists e, axios (gateway_request env hash) w = (inr e, w')
      end;
  pin_works (h : Headers) (v : json) (kv : KeyValues) (w : W) :
    exists hash w' row,
      axios (pin_request env h v kv) w = (inl (IpfsHash (Some hash)), w') /\ hash <> ""
      /\ Permutation (pinned w') (row :: without hash (pinned w)) /\ ipfs_pin_hash row = Some hash
      /\ metadata row = Some (mkMetadata (Some ENVELOPE_NAME) (Some kv))
      /\ content w' hash = Some v
      /\ (forall x, x <> hash -> content w' x = content w x)
      /\ Date_now w <= Date_now w';
  unpin_works (h : Headers) (hash : string) (w w' : W) (r : Data + HttpError) :
    axios (unpin_request env h hash) w = (r, w') ->
    (pinned w' = without hash (pinned w) \/ settled r = false /\ pinned w' = pinned w)
    /\ content w' = content w /\ Date_now w <= Date_now w'
}.

(** ** Lists that a loop with a bound collects *)

(** The reference: keep, then cut. *)
Definition kept {A : Type} (keep : PinRow -> option A) (rows : list PinRow) : list A := somes (map keep rows).

Lemma kept_app {A : Type} (keep : PinRow -> option A) (l l' : list PinRow) :
  kept keep (l ++ l') = kept keep l ++ kept keep l'.
Proof.
  unfold kept. rewrite map_app. induction (map keep l) as [|[x|] m IH]; cbn [app somes]; [reflexivity| |exact IH].
  now rewrite IH.
Qed.

Lemma in_kept {A : Type} (keep : PinRow -> option A) (rows : list PinRow) (x : A) :
  In x (kept keep rows) <-> exists r, In r rows /\ keep r = Some x.
Proof.
  unfold kept. induction rows as [|r rows IH]; cbn [map somes].
  - split; [easy|]. intros (r & [] & _).
  - destruct (keep r) as [y|] eqn:E; cbn [In]; rewrite IH; split.
    + intros [->|(r' & Hr & Hx)]; [exists r; auto|exists r'; auto].
    + intros (r' & [<-|Hr] & Hx); [left; congruence|right; exists r'; auto].
    + intros (r' & Hr & Hx); exists r'; auto.
    + intros (r' & [<-|Hr] & Hx); [congruence|exists r'; auto].
Qed.

(** A pass over one page: the matches up to the bound. *)
Lemma scan_spec {A : Type} (keep : PinRow -> option A) (m : Z) (rows : list PinRow) (acc : list A) :
  Z.of_nat (length acc) < m ->
  scan keep m rows acc = firstn (Z.to_nat m) (acc ++ kept keep rows).
Proof.
  revert acc. induction rows as [|r rows IH]; intros acc Hacc; cbn [scan].
  - unfold kept. cbn [map somes]. rewrite app_nil_r, firstn_all2 by lia. reflexivity.
  - unfold kept in *. cbn [map somes]. destruct (keep r) as [x|]; [|now apply IH].
    replace (acc ++ x :: somes (map keep rows)) with ((acc ++ [x]) ++ somes (map keep rows))
      by (rewrite <- app_assoc; reflexivity).
    destruct (Z.leb_spec m (Z.of_nat (length (acc ++ [x])))) as [C|C].
    + rewrite length_app in C. cbn [length] in C.
      rewrite firstn_app, firstn_all2 by (rewrite length_app; cbn [length]; lia).
      rewrite length_app. cbn [length].
      replace (Z.to_nat m - (length acc + 1))%nat with 0%nat by lia. now rewrite firstn_O, app_nil_r.
    + now apply IH.
Qed.

Lemma firstn_pages {A : Type} (n page : nat) (l : list A) :
  firstn (100 * S n) (skipn (page * 100) l)
  = firstn 100 (skipn (page * 100) l) ++ firstn (100 * n) (skipn (S page * 100) l).
Proof.
  replace (S page * 100)%nat with (100 + page * 100)%nat by lia. rewrite <- skipn_skipn.
  generalize (skipn (page * 100) l). clear l. intros l.
  rewrite <- (firstn_skipn 100 l) at 1. rewrite firstn_app.
  rewrite (firstn_all2 (firstn 100 l)) by (rewrite length_firstn; lia). f_equal.
  destruct (Nat.le_gt_cases 100 (length l)) as [C|C].
  - rewrite length_firstn, Nat.min_l by lia. f_equal. lia.
  - rewrite skipn_all2 by lia. now rewrite !firstn_nil.
Qed.

Lemma skipn_past {A : Type} (n k : nat) (l : list A) : (n <= k)%nat -> skipn n l = [] -> skipn k l = [].
Proof.
  intros Hk H. replace k with ((k - n) + n)%nat by lia. rewrite <- skipn_skipn, H. apply skipn_nil.
Qed.

Lemma firstn_cut_app {A : Type} (n : nat) (l l' : list A) : firstn n (firstn n l ++ l') = firstn n (l ++ l').
Proof.
  destruct (Nat.le_gt_cases n (length l)) as [C|C].
  - rewrite !firstn_app, length_firstn, firstn_firstn, Nat.min_id, Nat.min_l by lia.
    now replace (n - n)%nat with (n - length l)%nat by lia.
  - rewrite (firstn_all2 l) by lia. reflexivity.
Qed.

Section Inbox.
Context {W : Type} `{PinService W}.
Variables (SHA256 : string -> string) (parse_other : string -> option Z).
Hypothesis configured : isConfigured env = true.

Lemma same_refl (w : W) : same_pins w w.
Proof. unfold same_pins. repeat split. lia. Qed.

Lemma same_trans (w1 w2 w3 : W) : same_pins w1 w2 -> same_pins w2 w3 -> same_pins w1 w3.
Proof. unfold same_pins. intros (P1 & C1 & T1) (P2 & C2 & T2). repeat split; [congruence..|lia]. Qed.

Lemma auth_works (m path : string) (b : option string) (w : W) :
  exists h w', auth env m path b w = (Ok h, w') /\ same_pins w w'.
Proof.
  pose proof configured as Hc. unfold isConfigured in Hc. unfold auth, getProxySecret.
  destruct (proxied env).
  - apply negb_true_iff in Hc. rewrite Hc. apply sign_works.
  - eexists _, w. split; [reflexivity|apply same_refl].
Qed.

Lemma list_page_works (page : nat) (w : W) :
  exists w', list_page env page w = (Ok (firstn 100 (skipn (page * 100) (pinned w))), w') /\ same_pins w w'.
Proof.
  unfold list_page, bind, call.
  destruct (auth_works "GET" (list_path page) None w) as (h & w1 & -> & S1).
  destruct (list_works h page w1) as (w2 & -> & S2).
  exists w2. split; [|now apply (same_trans w w1)].
  destruct S1 as [-> _]. reflexivity.
Qed.

(** The loop over the pages collects what the reference keeps of the rows they show. *)
Lemma collect_spec {A : Type} (keep : PinRow -> option A) (m : Z) (n page : nat) (acc : list A) (w : W) :
  Z.of_nat (length acc) <= m ->
  exists w', collect env keep m n page acc w
             = (Ok (firstn (Z.to_nat m) (acc ++ kept keep (firstn (100 * n) (skipn (page * 100) (pinned w))))), w')
             /\ same_pins w w'.
Proof.
  revert page acc w. induction n as [|n IH]; intros page acc w Hacc.
  - exists w. split; [|apply same_refl]. rewrite Nat.mul_0_r, firstn_O. unfold kept.
    cbn [map somes collect]. rewrite app_nil_r, firstn_all2 by lia. reflexivity.
  - cbn [collect]. destruct (Z.ltb_spec (Z.of_nat (length acc)) m) as [C|C].
    + destruct (list_page_works page w) as (w1 & E & S1). unfold bind. rewrite E, firstn_pages, kept_app, app_assoc.
      destruct (firstn 100 (skipn (page * 100) (pinned w))) as [|r rows] eqn:F.
      * exists w1. split; [|exact S1]. unfold kept at 1. cbn [map somes]. rewrite app_nil_r.
        assert (N : skipn (page * 100) (pinned w) = [])
          by (destruct (skipn (page * 100) (pinned w)); [reflexivity|discriminate F]).
        rewrite (skipn_past (page * 100) (S page * 100)) by (lia || exact N).
        rewrite firstn_nil. unfold kept. cbn [map somes]. rewrite app_nil_r, firstn_all2 by lia. reflexivity.
      * rewrite scan_spec by exact C.
        destruct (IH (S page) (firstn (Z.to_nat m) (acc ++ kept keep (r :: rows))) w1) as (w2 & E2 & S2); [|exists w2; split; [|exact (same_trans _ _ _ S1 S2)]].
        { rewrite length_firstn. lia. }
        rewrite E2. destruct S1 as [-> _]. now rewrite firstn_cut_app.
    + exists w. split; [|apply same_refl]. unfold ret. repeat f_equal.
      rewrite firstn_app, firstn_all2 by lia. replace (Z.to_nat m - length acc)%nat with 0%nat by lia.
      now rewrite firstn_O, app_nil_r.
Qed.

Lemma clamp_bounds (limit : option Z) (d top : Z) : 1 <= top -> 1 <= clamp limit d top <= top.
Proof. unfold clamp. lia. Qed.

Lemma listing_spec {A : Type} (keep : PinRow -> option A) (limit : option Z) (d top : Z) (n : nat) (w : W) :
  1 <= top ->
  exists w', (if negb (isConfigured env) then throw "IPFS is not configured" else collect env keep (clamp limit d top) n 0 []) w
             = (Ok (firstn (Z.to_nat (clamp limit d top)) (kept keep (firstn (100 * n) (pinned w)))), w')
             /\ same_pins w w'.
Proof.
  intros Ht. rewrite configured. cbn [negb].
  pose proof (clamp_bounds limit d top Ht).
  destruct (collect_spec keep (clamp limit d top) n 0 [] w) as (w' & E & S); [cbn; lia|].
  exists w'. split; [exact E|exact S].
Qed.

Lemma find_spec (user : string) (docId : Z) (limit : option Z) (w : W) :
  exists w', findEnvelopeHashesForBeneficiaryAndDoc env SHA256 user docId limit w
             = (Ok (firstn (Z.to_nat (clamp limit 30 100))
                      (kept (for_beneficiary_and_doc (hashAddress SHA256 user) (num_str docId)) (firstn 600 (pinned w)))), w')
             /\ same_pins w w'.
Proof. apply (listing_spec _ limit 30 100 6). lia. Qed.

Lemma inbox_listing_spec (user : string) (limit : option Z) (w : W) :
  exists w', listEnvelopeHashesForBeneficiary env SHA256 user limit w
             = (Ok (firstn (Z.to_nat (clamp limit 30 100))
                      (kept (for_beneficiary (hashAddress SHA256 user)) (firstn 600 (pinned w)))), w')
             /\ same_pins w w'.
Proof. apply (listing_spec _ limit 30 100 6). lia. Qed.

Lemma list_all_spec (limit : option Z) (w : W) :
  exists w', listAllKeyEnvelopes env limit None w
             = (Ok (firstn (Z.to_nat (clamp limit 200 500)) (kept any_envelope (firstn 1000 (pinned w)))), w')
             /\ same_pins w w'.
Proof. apply (listing_spec _ limit 200 500 10). lia. Qed.

(** *** Opening the inbox *)

(** What the gateway gives for an envelope: an object, or nothing. *)
Definition opened (w : W) (hash : string) : option json :=
  match content w hash with Some (JObj l) => Some (JObj l) | Some (JArr l) => Some (JArr l) | _ => None end.

Lemma opened_same (w w' : W) : same_pins w w' -> opened w' = opened w.
Proof. intros (_ & C & _). unfold opened. now rewrite C. Qed.

Lemma fetch_works (hash : string) (w : W) :
  exists w', fetchEnvelopeByHash env hash w = (Ok (opened w hash), w') /\ same_pins w w'.
Proof.
  destruct (gateway_works hash w) as (w' & S & G). exists w'. split; [|exact S].
  unfold fetchEnvelopeByHash, opened. destruct (content w hash) as [v|].
  - rewrite G. now destruct v.
  - destruct G as [e ->]. reflexivity.
Qed.

Lemma fetch_all_works (hashes : list string) (w : W) :
  exists w', mapM_io (fetchEnvelopeByHash env) hashes w = (Ok (map (opened w) hashes), w') /\ same_pins w w'.
Proof.
  revert w. induction hashes as [|h hs IH]; intros w; cbn [mapM_io map].
  - exists w. split; [reflexivity|apply same_refl].
  - unfold bind. destruct (fetch_works h w) as (w1 & -> & S1). destruct (IH w1) as (w2 & -> & S2).
    exists w2. split; [|exact (same_trans _ _ _ S1 S2)]. unfold ret. now rewrite (opened_same w w1 S1).
Qed.

Definition inbox_hashes (user : string) (limit : option Z) (w : W) : list string :=
  firstn (Z.to_nat (clamp limit 30 100)) (kept (for_beneficiary (hashAddress SHA256 user)) (firstn 600 (pinned w))).

Definition inbox_files (user : string) (limit : option Z) (w : W) : list json :=
  somes (map (opened w) (inbox_hashes user limit w)).

Lemma inbox_spec (user : string) (limit : option Z) (w : W) :
  exists w', fetchBeneficiaryInbox env SHA256 parse_other user limit w
             = (res_map (sort_by (fun x => - issued_time parse_other x))
                  (addressed_to (normalizeAddress user) (inbox_files user limit w)), w')
             /\ same_pins w w'.
Proof.
  unfold fetchBeneficiaryInbox, bind.
  destruct (inbox_listing_spec user limit w) as (w1 & -> & S1). fold (inbox_hashes user limit w).
  unfold inbox_files. destruct (inbox_hashes user limit w) as [|h hs].
  - exists w1. split; [reflexivity|exact S1].
  - destruct (fetch_all_works (h :: hs) w1) as (w2 & -> & S2). exists w2.
    split; [|exact (same_trans _ _ _ S1 S2)].
    rewrite (opened_same w w1 S1).
    now destruct (addressed_to _ _).
Qed.

End Inbox.

(** ** Envelopes among the files *)

Definition well_addressed (v : json) : Prop := exists s, get_prop "beneficiary" v = Some (JStr s).

Definition recipient_is (recipient : string) (v : json) : bool :=
  match get_prop "beneficiary" v with Some (JStr s) => String.eqb (normalizeAddress s) recipient | _ => false end.

Lemma addressed_to_ok (recipient : string) (items : list json) :
  Forall well_addressed items -> addressed_to recipient items = Ok (filter (recipient_is recipient) items).
Proof.
  induction 1 as [|x l [s Hs] Hl IH]; [reflexivity|].
  cbn [addressed_to filter]. unfold recipient_is at 1. rewrite Hs, IH. cbn [normalize_prop res_bind].
  now destruct (String.eqb _ _).
Qed.

Lemma addressed_to_throws (recipient : string) (items : list json) (v : json) :
  In v items -> ~ well_addressed v -> is_ok (addressed_to recipient items) = false.
Proof.
  intros Hin Hv. induction items as [|x l IH]; [destruct Hin|]. cbn [addressed_to].
  destruct Hin as [->|Hin].
  - destruct (get_prop "beneficiary" v) as [[| | |s| |]|] eqn:E; try reflexivity. elim Hv. now exists s.
  - destruct (normalize_prop (get_prop "beneficiary" x)); [|reflexivity]. cbn [res_bind].
    specialize (IH Hin). now destruct (addressed_to recipient l).
Qed.

Lemma in_somes {A : Type} (l : list (option A)) (x : A) : In x (somes l) <-> In (Some x) l.
Proof.
  induction l as [|[y|] l IH]; cbn [somes In]; [tauto| |]; rewrite IH.
  - split; intros [E|E]; auto; left; congruence.
  - split; [auto|intros [E|E]; [discriminate|exact E]].
Qed.

Lemma in_inbox_files {W : Type} `{PinService W} (SHA256 : string -> string) (user : string) (limit : option Z) (w : W) (v : json) :
  In v (inbox_files SHA256 user limit w)
  <-> exists h, In h (inbox_hashes SHA256 user limit w) /\ opened w h = Some v.
Proof.
  unfold inbox_files. rewrite in_somes, in_map_iff. split; intros (h & A & B); eauto.
Qed.

(** * What the recipient of a key envelope can rely on *)

(** * A pinning service in memory

    The instance of [PinService] that witnesses run on: rows newest first, files by a
    content id that is made of their text, and a clock that stands still. *)

Open Scope string_scope.
Open Scope list_scope.
Open Scope Z_scope.

(** ** Reading requests back *)

Definition hex_nibble (c : ascii) : nat :=
  let n := nat_of_ascii c in if (n <? 58)%nat then n - 48 else n - 55.
Fixpoint decodeURIComponent (s : string) : string :=
  match s with
  | EmptyString => EmptyString
  | String c s' =>
      match s' with
      | String a (String b s'') =>
          if Ascii.eqb c "%" then String (ascii_of_nat (hex_nibble a * 16 + hex_nibble b)) (decodeURIComponent s'')
          else String c (decodeURIComponent s')
      | _ => String c (decodeURIComponent s')
      end
  end.

Lemma decode_plain (c : ascii) (s : string) :
  Ascii.eqb c "%" = false -> decodeURIComponent (String c s) = String c (decodeURIComponent s).
Proof. intros E. cbn [decodeURIComponent]. rewrite E. now destruct s as [|a [|b s]]. Qed.

Lemma decode_encode (s : string) : decodeURIComponent (encodeURIComponent s) = s.
Proof.
  induction s as [|c s IH]; [reflexivity|]. cbn [encodeURIComponent].
  destruct (unreserved c) eqn:U.
  - rewrite decode_plain, IH; [reflexivity|]. revert U. now destruct (Ascii.eqb_spec c "%") as [->|].
  - cbn [decodeURIComponent]. rewrite IH. f_equal.
    clear. destruct c as [[] [] [] [] [] [] [] []]; reflexivity.
Qed.

Fixpoint strings_of (l : list (string * json)) : KeyValues :=
  match l with
  | (k, JStr v) :: l' => (k, v) :: strings_of l'
  | _ => []
  end.

Lemma strings_of_map (kv : KeyValues) : strings_of (map (fun '(k, v) => (k, JStr v)) kv) = kv.
Proof. induction kv as [|[k v] kv IH]; cbn [map strings_of]; [reflexivity|now rewrite IH]. Qed.

(** ** The store *)

Record Store : Type := mkStore { rows : list PinRow; files : list (string * json); clock : Z }.

Fixpoint file_at (h : string) (l : list (string * json)) : option json :=
  match l with
  | [] => None
  | (k, v) :: l' => if String.eqb k h then Some v else file_at h l'
  end.

Definition cid (v : json) : string := ("Qm" ++ json_text v)%string.

Definition store_pin (v : json) (kv : KeyValues) (w : Store) : Store :=
  mkStore (mkRow (Some (cid v)) None (Some (mkMetadata (Some ENVELOPE_NAME) (Some kv))) :: without (cid v) (rows w))
    ((cid v, v) :: files w) (clock w).

Definition gateway_url : string := "https://gateway.pinata.cloud/ipfs/".
Definition unpin_url : string := "https://api.pinata.cloud/pinning/unpin/".
Definition bad_request : HttpError := mkError (Some 400%nat) None None None "Request failed with status code 400".

Definition store_axios (rq : Request) (w : Store) : (Data + HttpError) * Store :=
  if String.eqb (method rq) "POST" then
    match body rq with
    | Object (JObj [(_, v); (_, JObj [_; (_, JObj kvs)])]) => (inl (IpfsHash (Some (cid v))), store_pin v (strings_of kvs) w)
    | _ => (inr bad_request, w)
    end
  else if String.eqb (method rq) "DELETE" then
    let hash := decodeURIComponent (slice_from (String.length unpin_url) (url rq)) in
    (inl (IpfsHash None), mkStore (without hash (rows w)) (files w) (clock w))
  else match params rq with
  | [_; _; (_, off)] =>
      match parse_digits 10 off with
      | Some n => (inl (Rows (Some (firstn 100 (skipn (Z.to_nat n) (rows w))))), w)
      | None => (inr bad_request, w)
      end
  | _ => match file_at (slice_from (String.length gateway_url) (url rq)) (files w) with
         | Some v => (inl (Content v), w)
         | None => (inr (mkError (Some 404%nat) None None None "Request failed with status code 404"), w)
         end
  end.

#[export] Instance StoreNetwork : Network Store := {
  axios := store_axios;
  signProxyRequest := fun _ _ _ _ w => (Ok [], w);
  Date_now := clock
}.

(** A configuration with a token of the pinning service. *)
Definition jwt_env : Env := mkEnv None (Some "token") None None None None None.

#[export, refine] Instance StoreService : PinService Store jwt_env := {
  pinned := rows;
  content := fun w h => file_at h (files w)
}.
Proof.
  - intros s m p b w. exists [], w. split; [reflexivity|]. repeat split. lia.
  - intros h page w. exists w. split; [|repeat split; lia].
    cbn -[num_str Z.mul parse_digits]. unfold num_str. rewrite parse_to_base by lia.
    replace (Z.to_nat (Z.of_nat page * 100)) with (page * 100)%nat by lia. reflexivity.
  - intros hash w. exists w. split; [repeat split; lia|].
    change (axios (gateway_request jwt_env hash) w) with
      (match file_at (slice_from (String.length gateway_url) (gateway_url ++ hash)%string) (files w) with
       | Some v => (inl (Content v), w)
       | None => (inr (mkError (Some 404%nat) None None None "Request failed with status code 404"), w)
       end : (Data + HttpError) * Store).
    rewrite slice_from_app. destruct (file_at hash (files w)); [reflexivity|eexists; reflexivity].
  - intros h v kv w. exists (cid v), (store_pin v kv w).
    eexists. split; [cbn; now rewrite strings_of_map|].
    split; [discriminate|]. split; [cbn [store_pin rows]; apply Permutation_refl|].
    split; [reflexivity|]. split; [reflexivity|].
    split; [cbn [store_pin files file_at]; now rewrite String.eqb_refl|].
    split; [|apply Z.le_refl].
    intros x Hx. cbn [store_pin files file_at]. destruct (String.eqb_spec (cid v) x); [congruence|reflexivity].
  - intros h hash w w' r E.
    change (axios (unpin_request jwt_env h hash) w) with
      ((inl (IpfsHash None), mkStore (without (decodeURIComponent (slice_from (String.length unpin_url)
         (unpin_url ++ encodeURIComponent hash)%string)) (rows w)) (files w) (clock w)) : (Data + HttpError) * Store) in E.
    rewrite slice_from_app, decode_encode in E. injection E as <- <-.
    split; [left; reflexivity|]. split; [reflexivity|apply Z.le_refl].
Defined.

Open Scope string_scope.
Open Scope list_scope.
Open Scope Z_scope.

(** ** Addresses *)

Lemma normalize_idem (s : string) : normalizeAddress (normalizeAddress s) = normalizeAddress s.
Proof.
  unfold normalizeAddress. now rewrite trim_lower, toLowerCase_idem, trim_idem.
Qed.

(** ** What is kept of rows *)

Lemma kept_cons {A : Type} (keep : PinRow -> option A) (r : PinRow) (l : list PinRow) :
  kept keep (r :: l) = match keep r with Some x => x :: kept keep l | None => kept keep l end.
Proof. unfold kept. cbn [map somes]. now destruct (keep r). Qed.

Lemma kept_perm {A : Type} (keep : PinRow -> option A) (l l' : list PinRow) :
  Permutation l l' -> Permutation (kept keep l) (kept keep l').
Proof.
  induction 1; rewrite ?kept_cons; [constructor| | |eapply Permutation_trans; eassumption].
  - destruct (keep x); [now constructor|assumption].
  - destruct (keep x), (keep y); first [apply perm_swap | apply Permutation_refl].
Qed.

Lemma kept_without {A : Type} (keep : PinRow -> option A) (h : string) (l : list PinRow) :
  (length (kept keep (without h l)) <= length (kept keep l))%nat.
Proof.
  induction l as [|r l IH]; [cbn; lia|]. unfold without in *. cbn [filter].
  destruct (negb (String.eqb (row_hash r) h)); rewrite !kept_cons; destruct (keep r); cbn [length]; lia.
Qed.

Lemma in_without (h : string) (r : PinRow) (l : list PinRow) : In r (without h l) -> In r l.
Proof. unfold without. rewrite filter_In. tauto. Qed.

Lemma without_length (h : string) (l : list PinRow) : (length (without h l) <= length l)%nat.
Proof. apply filter_length_le. Qed.

Lemma for_beneficiary_hash (target : string) (r : PinRow) (h : string) :
  for_beneficiary target r = Some h -> h = row_hash r.
Proof. unfold for_beneficiary. destruct (_ && _); congruence. Qed.

Lemma blank_false (s : string) : s <> "" -> blank s = false.
Proof. unfold blank. apply String.eqb_neq. Qed.

Lemma payload_addressed (SHA256 : string -> string) (p : KeyEnvelopePayload) (user : string) :
  normalizeAddress user = normalizeAddress (beneficiary p) ->
  recipient_is (normalizeAddress user) (payload_json (envelope_content p)) = true.
Proof.
  intros E. unfold recipient_is.
  change (get_prop "beneficiary" (payload_json (envelope_content p))) with (Some (JStr (normalizeAddress (beneficiary p)))).
  cbv beta iota. rewrite normalize_idem, E. apply String.eqb_refl.
Qed.

Section Delivery.
Context {W : Type} `{PinService W}.
Variables (SHA256 : string -> string) (parse_other : string -> option Z).
Hypothesis configured : isConfigured env = true.
(** A digest is lower-case hexadecimal text. *)
Hypothesis digest_text : forall s, normalizeAddress (SHA256 s) = SHA256 s.

Lemma row_of_envelope (p : KeyEnvelopePayload) (user hash : string) (row : PinRow) :
  normalizeAddress user = normalizeAddress (beneficiary p) -> hash <> "" ->
  ipfs_pin_hash row = Some hash ->
  metadata row = Some (mkMetadata (Some ENVELOPE_NAME) (Some (envelope_keyvalues SHA256 p))) ->
  row_hash row = hash /\ for_beneficiary (hashAddress SHA256 user) row = Some hash.
Proof.
  intros E Hne Hh Hm.
  assert (R : row_hash row = hash)
    by (unfold row_hash, or_empty, or_else; rewrite Hh; now rewrite (blank_false hash)).
  split; [exact R|]. unfold for_beneficiary, is_envelope, row_get, row_keyvalues, row_name. rewrite R, Hm.
  rewrite (blank_false hash) by exact Hne. cbn [name keyvalues or_empty or_else].
  change (kv_get "beneficiary" (envelope_keyvalues SHA256 p)) with (Some (hashAddress SHA256 (beneficiary p))).
  change (kv_get "type" (envelope_keyvalues SHA256 p)) with (Some ENVELOPE_TYPE).
  unfold or_empty, or_else.
  assert (B : (if blank (hashAddress SHA256 (beneficiary p)) then "" else hashAddress SHA256 (beneficiary p))
              = hashAddress SHA256 (beneficiary p))
    by (unfold blank; destruct (String.eqb_spec (hashAddress SHA256 (beneficiary p)) "") as [->|]; reflexivity).
  rewrite B. unfold hashAddress. rewrite digest_text, E.
  change (if blank ENVELOPE_TYPE then "" else ENVELOPE_TYPE) with ENVELOPE_TYPE.
  rewrite !String.eqb_refl. reflexivity.
Qed.

(** [sendKeyEnvelope] over a service that works: one more row, one more file. *)
Lemma send_spec (p : KeyEnvelopePayload) (w : W) :
  exists hash w' row,
    sendKeyEnvelope env SHA256 p w = (Ok hash, w') /\ hash <> ""
    /\ Permutation (pinned w') (row :: without hash (pinned w)) /\ ipfs_pin_hash row = Some hash
    /\ metadata row = Some (mkMetadata (Some ENVELOPE_NAME) (Some (envelope_keyvalues SHA256 p)))
    /\ content w' hash = Some (payload_json (envelope_content p))
    /\ (forall x, x <> hash -> content w' x = content w x).
Proof.
  unfold sendKeyEnvelope, bind, call. rewrite configured. cbn [negb].
  set (v := payload_json (envelope_content p)). set (kv := envelope_keyvalues SHA256 p).
  edestruct (auth_works configured "POST" "/api/ipfs/pin-json") as (h & w1 & -> & (P1 & C1 & _)).
  destruct (pin_works h v kv w1) as (hash & w2 & row & -> & Hne & Hp & Hh & Hm & Hc & Ho & _).
  exists hash, w2, row. rewrite <- P1, <- C1. cbn -[blank String.eqb]. unfold or_empty, or_else.
  rewrite !(blank_false hash) by exact Hne. repeat split; assumption.
Qed.

(** A key envelope that was sent is in the inbox of its beneficiary, however the
    address is spelled, as long as the account holds fewer than 600 pins, the beneficiary
    has fewer than 30 envelopes, and their files name a beneficiary. *)
Theorem sent_envelope_arrives (p : KeyEnvelopePayload) (user : string) (w : W) :
  normalizeAddress user = normalizeAddress (beneficiary p) ->
  (length (pinned w) < 600)%nat ->
  (length (kept (for_beneficiary (hashAddress SHA256 user)) (pinned w)) < 30)%nat ->
  (forall h v, In h (kept (for_beneficiary (hashAddress SHA256 user)) (pinned w)) ->
     opened w h = Some v -> well_addressed v) ->
  exists hash w1 items w2,
    sendKeyEnvelope env SHA256 p w = (Ok hash, w1)
    /\ fetchBeneficiaryInbox env SHA256 parse_other user None w1 = (Ok items, w2)
    /\ In (payload_json (envelope_content p)) items.
Proof.
  intros Hu Hlen Hkept Hfiles.
  destruct (send_spec p w) as (hash & w1 & row & Hs & Hne & Hp & Hh & Hm & Hc & Ho).
  destruct (row_of_envelope p user hash row Hu Hne Hh Hm) as [Hrow Hkeep].
  destruct (inbox_spec SHA256 parse_other configured user None w1) as (w2 & Hin & _).
  set (keep := for_beneficiary (hashAddress SHA256 user)) in *.
  pose proof (Permutation_length Hp) as L1. cbn [length] in L1. pose proof (without_length hash (pinned w)).
  pose proof (kept_perm keep _ _ Hp) as Hkp. rewrite kept_cons, Hkeep in Hkp.
  pose proof (Permutation_length Hkp) as L2. cbn [length] in L2. pose proof (kept_without keep hash (pinned w)).
  assert (Hh1 : inbox_hashes SHA256 user None w1 = kept keep (pinned w1)).
  { unfold inbox_hashes. rewrite (firstn_all2 (pinned w1)) by lia. apply firstn_all2. unfold clamp. cbn. fold keep. lia. }
  assert (Hwell : Forall well_addressed (inbox_files SHA256 user None w1)).
  { apply Forall_forall. intros v. rewrite in_inbox_files, Hh1. intros (h & Hk & Hv).
    destruct (String.eqb_spec h hash) as [->|Hd].
    - unfold opened in Hv. rewrite Hc in Hv. injection Hv as <-. eexists. reflexivity.
    - apply (Hfiles h); [|unfold opened in *; now rewrite <- Ho].
      apply (Permutation_in _ Hkp) in Hk as [Hk|Hk]; [congruence|].
      apply in_kept in Hk as (r & Hr & Hkr). apply in_kept. exists r. split; [now apply in_without in Hr|exact Hkr]. }
  rewrite (addressed_to_ok _ _ Hwell) in Hin.
  eexists hash, w1, _, w2. split; [exact Hs|]. split; [exact Hin|].
  apply (Permutation_in _ (Permutation_sym (sort_by_perm _ _))), filter_In.
  split; [|now apply payload_addressed]. apply in_inbox_files. exists hash. split.
  - rewrite Hh1. apply (Permutation_in _ (Permutation_sym Hkp)). now left.
  - unfold opened. rewrite Hc. reflexivity.
Qed.

(** One file without a beneficiary among the first thirty of a recipient makes the
    whole inbox fail, although a file that cannot be fetched is only left out. *)
Theorem malformed_file_blocks_inbox (user : string) (limit : option Z) (w : W) (h : string) (v : json) :
  In h (inbox_hashes SHA256 user limit w) -> opened w h = Some v -> ~ well_addressed v ->
  exists e w', fetchBeneficiaryInbox env SHA256 parse_other user limit w = (Throw e, w').
Proof.
  intros Hin Ho Hv. destruct (inbox_spec SHA256 parse_other configured user limit w) as (w' & -> & _).
  assert (Hf : In v (inbox_files SHA256 user limit w)) by (apply in_inbox_files; eauto).
  pose proof (addressed_to_throws (normalizeAddress user) _ _ Hf Hv) as T.
  destruct (addressed_to _ _) as [items|e]; [discriminate T|]. exists e, w'. reflexivity.
Qed.

End Delivery.

(** ** Witnesses *)

Definition demo_payload : KeyEnvelopePayload :=
  mkPayload 1 "0xAbC" 43113 7 12 " 0xBEEF " "0xCafe" (toISOString 1709210096789) "sealed".

Definition demo_row (hash user doc issued : string) : PinRow :=
  mkRow (Some hash) None (Some (mkMetadata (Some ENVELOPE_NAME)
    (Some [("type", ENVELOPE_TYPE); ("beneficiary", user); ("documentId", doc); ("issuedAt", issued)]))).

Definition demo_store : Store :=
  mkStore [mkRow (Some "QmPhoto") None None; demo_row "QmBad" "0xdead" "3" ""] [("QmBad", JObj [("note", JStr "empty")])] 0.

Lemma sent_envelope_arrives_witness :
  exists hash w1 items w2,
    sendKeyEnvelope jwt_env normalizeAddress demo_payload demo_store = (Ok hash, w1)
    /\ fetchBeneficiaryInbox jwt_env normalizeAddress (fun _ => None) "0xbeef" None w1 = (Ok items, w2)
    /\ In (payload_json (envelope_content demo_payload)) items.
Proof.
  apply (sent_envelope_arrives (env := jwt_env) normalizeAddress (fun _ => None) eq_refl normalize_idem demo_payload "0xbeef" demo_store);
    [reflexivity|cbn; lia|vm_compute; lia|].
  intros h v Hin. vm_compute in Hin. destruct Hin.
Defined.

Lemma malformed_file_blocks_inbox_witness :
  exists e w', fetchBeneficiaryInbox jwt_env normalizeAddress (fun _ => None) "0xDEAD" None demo_store = (Throw e, w').
Proof.
  apply (malformed_file_blocks_inbox (env := jwt_env) normalizeAddress (fun _ => None) eq_refl "0xDEAD" None demo_store "QmBad"
           (JObj [("note", JStr "empty")])); [vm_compute; auto|reflexivity|].
  intros [s E]. discriminate E.
Defined.
