(* ===== verification/EnvelopeGC.v ===== *)
(** * EnvelopeGC: keyEnvelopeGC.service.ts, what a collection removes and what it leaves

    The collection of key envelopes of expired or rejected requests, and the reading of
    the latest requests in contract.service.ts that it starts from.  Calls of the deployed
    contract are arguments; on Stellar the requests are those in local storage.

    A run is the composition of steps that each handle some hashes ([swept_by]): pins
    only go, only by the hash of a candidate, and a candidate that was not reported as
    failed is gone.  Over that, the collection for an account follows the requests, and
    the sweep follows the age of the envelopes and never looks at a request. *)

From Stdlib Require Import Ascii String ZArith List Lia Bool Permutation.
Import ListNotations.
From S2P Require Import Prelude JsString JsonText JsNumber KeyInbox KeyInboxProofs.

Open Scope string_scope.
Open Scope list_scope.
Open Scope Z_scope.

(** [expiresAt] is [None] when it is not a finite number. *)
Record AccessRequestData : Type := mkRequestData {
  requestId : Z; req_documentId : Z; requester : string; req_status : Z; expiresAt : option Z; createdAt : Z
}.

(** ** The latest requests of a user *)

Inductive Ecosystem : Type :=
| Avalanche
| Stellar.

(** The contract of the EVM chain: whether it is deployed and initialised, and its two views. *)
Record EvmContract : Type := mkContract {
  ready : res unit; latestRequestId : Z -> string -> res Z; accessRequests : Z -> res AccessRequestData
}.

Definition latest_evm (c : EvmContract) (user : string) (docId : Z) : option AccessRequestData :=
  match latestRequestId c docId user with
  | Ok 0 | Throw _ => None
  | Ok id =>
      match accessRequests c id with
      | Ok r => if requestId r =? 0 then None else Some r
      | Throw _ => None
      end
  end.

(** [Record<number, AccessRequestData | null>]: a missing entry is [None] as well. *)
Definition lookup_doc (docId : Z) (l : list (Z * option AccessRequestData)) : option AccessRequestData :=
  match find (fun '(d, _) => d =? docId) (rev l) with Some (_, r) => r | None => None end.

Definition getLatestRequestsForUser (c : EvmContract) (user : string) (documentIds : list Z)
    : res (list (Z * option AccessRequestData)) :=
  match documentIds with
  | [] => Ok []
  | _ => if blank user then Ok []
         else let! _ := ready c in Ok (map (fun d => (d, latest_evm c user d)) documentIds)
  end.

(** The requests of local storage; [Throw] when they do not parse. *)
Definition latest_stellar (requests : list AccessRequestData) (user : string) (docId : Z) : option AccessRequestData :=
  let matched := filter (fun r => (req_documentId r =? docId) && String.eqb (toLowerCase (requester r)) (toLowerCase user)) requests in
  hd_error (sort_by (fun r => - requestId r) matched).

Record Requests : Type := mkRequests {
  ecosystem : Ecosystem; evm_contract : EvmContract; stellar_requests : res (list AccessRequestData)
}.

Definition proxiedGetLatestRequestsForUser (q : Requests) (user : string) (documentIds : list Z)
    : res (list (Z * option AccessRequestData)) :=
  match ecosystem q with
  | Stellar =>
      match stellar_requests q with
      | Ok requests => Ok (map (fun d => (d, latest_stellar requests user d)) documentIds)
      | Throw _ => Ok []
      end
  | Avalanche => getLatestRequestsForUser (evm_contract q) user documentIds
  end.

(** ** The collector *)

(** [captureTelemetry] and [captureError], by category. *)
Class Telemetry (W : Type) : Type := {
  captureTelemetry : string -> W -> W;
  captureError : string -> W -> W
}.

Record KeyEnvelopeGCReport : Type := mkReport {
  scannedCount : Z; unpinnedCount : Z; unpinnedHashes : list string; failedHashes : list string;
  report_dryRun : bool; timestamp : string
}.

Record UnpinRequestResult : Type := mkResult {
  unpinned : list string; failed : list string; skipped : option bool; result_reason : option string
}.

Record GCOptions : Type := mkOptions { account : option string; documentIds : option (list Z); dryRun : option bool }.

(** Status 0 is pending, 1 approved, 2 rejected, 3 expired. *)
Definition isRequestExpiredOrRejected (request : option AccessRequestData) (nowSec : Z) : bool :=
  match request with
  | None => false
  | Some r =>
      if (req_status r =? 2) || (req_status r =? 3) then true
      else (req_status r =? 0) && match expiresAt r with Some e => e <=? nowSec | None => false end
  end.

(** What a sweep has counted when it ends, by an error or not. *)
Record Tally : Type := mkTally { scanned : Z; swept : list string; missed : list string }.

Section Collector.
Context {W : Type} `{Network W} `{Telemetry W}.
Variables (env : Env) (SHA256 : string -> string) (parse_other : string -> option Z).

Definition now_sec (w : W) : Z := Date_now w / 1000.

Definition unpinEnvelopesForRequest (docId : Z) (beneficiary : string) (w : W) : UnpinRequestResult * W :=
  if blank beneficiary || (docId =? 0) then (mkResult [] [] (Some true) (Some "invalid_params"), w)
  else if negb (isConfigured env) then (mkResult [] [] (Some true) (Some "ipfs_not_configured"), w)
  else
    match unpinEnvelopesForBeneficiaryAndDoc env SHA256 beneficiary docId w with
    | (Ok (us, fs), w1) =>
        let w2 := match us with [] => w1 | _ => captureTelemetry "ipfs.unpin.gc" w1 end in
        let w3 := match fs with [] => w2 | _ => captureError "ipfs.unpin.gc.failed" w2 end in
        (mkResult us fs None None, w3)
    | (Throw e, w1) =>
        (mkResult [] [] (Some false) (Some (or_else (Some e) "unpin_error")), captureError "ipfs.unpin.gc.error" w1)
    end.

Definition evaluateAndCleanupDoc (docId : Z) (beneficiary : string) (request : option AccessRequestData) (w : W)
    : option UnpinRequestResult * W :=
  if isRequestExpiredOrRejected request (now_sec w)
  then let '(r, w') := unpinEnvelopesForRequest docId beneficiary w in (Some r, w')
  else (None, w).

(** One hash: listed in a dry run, and otherwise unpinned and listed with the outcome. *)
Definition collect_hash (dry : bool) (hash : string) (t : Tally) (w : W) : Tally * W :=
  if dry then (mkTally (scanned t) (swept t ++ [hash]) (missed t), w)
  else match unpinKeyEnvelope env hash w with
       | (Ok _, w') => (mkTally (scanned t) (swept t ++ [hash]) (missed t), w')
       | (Throw _, w') => (mkTally (scanned t) (swept t) (missed t ++ [hash]), w')
       end.

Fixpoint collect_hashes (dry : bool) (hashes : list string) (t : Tally) (w : W) : Tally * W :=
  match hashes with
  | [] => (t, w)
  | h :: hs => let '(t', w') := collect_hash dry h t w in collect_hashes dry hs t' w'
  end.

Definition count (n : Z) (t : Tally) : Tally := mkTally (scanned t + n) (swept t) (missed t).

(** The loop over the documents of an account; its error is the error of a listing. *)
Fixpoint collect_docs (dry : bool) (user : string) (latest : list (Z * option AccessRequestData)) (docIds : list Z)
    (t : Tally) (w : W) : (res unit * Tally) * W :=
  match docIds with
  | [] => ((Ok tt, t), w)
  | d :: ds =>
      let t1 := count 1 t in
      if isRequestExpiredOrRejected (lookup_doc d latest) (now_sec w) then
        match findEnvelopeHashesForBeneficiaryAndDoc env SHA256 user d None w with
        | (Ok hashes, w1) =>
            let '(t2, w2) := collect_hashes dry hashes t1 w1 in collect_docs dry user latest ds t2 w2
        | (Throw e, w1) => ((Throw e, t1), w1)
        end
      else collect_docs dry user latest ds t1 w
  end.

Definition thirtyDaysMs : Z := 30 * 24 * 60 * 60 * 1000.

(** [!documentId || !Number.isFinite(documentId)] *)
Definition malformed (r : PinRow) : bool :=
  let docId := match kv_get "documentId" (row_keyvalues r) with Some s => Number_str s | None => NaN end in
  falsy docId || negb (isFinite docId).

Definition outdated (r : PinRow) (now : Z) : bool :=
  match Date_parse parse_other (row_get "issuedAt" r) with Some t => thirtyDaysMs <? now - t | None => false end.

(** The loop over all envelopes. *)
Fixpoint collect_all (dry : bool) (envelopes : list (string * PinRow)) (t : Tally) (w : W) : Tally * W :=
  match envelopes with
  | [] => (t, w)
  | (hash, r) :: es =>
      if malformed r || outdated r (Date_now w)
      then let '(t', w') := collect_hash dry hash t w in collect_all dry es t' w'
      else collect_all dry es t w
  end.

(** The body of the [try]. *)
Definition sweep (dry : bool) (q : Requests) (options : GCOptions) (w : W) : (res unit * Tally) * W :=
  let zero := mkTally 0 [] [] in
  if blank (or_empty (account options)) then
    match listAllKeyEnvelopes env (Some 100) None w with
    | (Ok all, w1) => let '(t, w2) := collect_all dry all (mkTally (Z.of_nat (length all)) [] []) w1 in ((Ok tt, t), w2)
    | (Throw e, w1) => ((Throw e, zero), w1)
    end
  else
    let user := or_empty (account options) in
    match documentIds options with
    | None | Some [] => ((Ok tt, zero), w)
    | Some docIds =>
        match proxiedGetLatestRequestsForUser q user docIds with
        | Ok latest => collect_docs dry user latest docIds zero w
        | Throw e => ((Throw e, zero), w)
        end
    end.

Definition runGarbageCollection (q : Requests) (options : GCOptions) (w : W) : KeyEnvelopeGCReport * W :=
  let time := toISOString (Date_now w) in
  let dry := match dryRun options with Some b => b | None => false end in
  if negb (isConfigured env) then (mkReport 0 0 [] [] dry time, w)
  else
    let '((r, t), w1) := sweep dry q options w in
    let w2 := match r with
              | Ok _ => match swept t with [] => w1 | _ => if dry then w1 else captureTelemetry "ipfs.unpin.gc.sweep" w1 end
              | Throw _ => captureError "ipfs.unpin.gc.sweep.error" w1
              end in
    (mkReport (scanned t) (Z.of_nat (length (swept t))) (swept t) (missed t) dry time, w2).

End Collector.

Open Scope string_scope.
Open Scope list_scope.
Open Scope Z_scope.

(** Reporting does not touch the pins. *)
Class TelemetryLaws (W : Type) {N : Network W} (env : Env) {P : PinService W env} {T : Telemetry W} : Prop := {
  telemetry_quiet (c : string) (w : W) : same_pins w (captureTelemetry c w);
  error_quiet (c : string) (w : W) : same_pins w (captureError c w)
}.

(** Rows whose hash is none of [rem]. *)
Definition purge (rem : list string) (rows : list PinRow) : list PinRow :=
  filter (fun r => negb (existsb (String.eqb (row_hash r)) rem)) rows.

Lemma in_purge (rem : list string) (rows : list PinRow) (r : PinRow) :
  In r (purge rem rows) <-> In r rows /\ ~ In (row_hash r) rem.
Proof.
  unfold purge. rewrite filter_In, negb_true_iff. split; intros [A B]; split; try exact A.
  - intros C. rewrite (proj2 (existsb_exists _ _)) in B; [discriminate|].
    exists (row_hash r). split; [exact C|apply String.eqb_refl].
  - destruct (existsb _ _) eqn:E; [|reflexivity]. apply existsb_exists in E as (x & Hx & E).
    apply String.eqb_eq in E. subst x. now elim B.
Qed.

Lemma purge_app (a b : list string) (rows : list PinRow) : purge b (purge a rows) = purge (a ++ b) rows.
Proof.
  unfold purge. induction rows as [|r rows IH]; [reflexivity|]. cbn [filter].
  rewrite existsb_app, negb_orb. destruct (negb (existsb (String.eqb (row_hash r)) a)); cbn [filter andb]; [|exact IH].
  now rewrite IH.
Qed.

Lemma purge_nil (rows : list PinRow) : purge [] rows = rows.
Proof. unfold purge. induction rows as [|r rows IH]; [reflexivity|]. cbn. f_equal. exact IH. Qed.

Lemma purge_one (h : string) (rows : list PinRow) : without h rows = purge [h] rows.
Proof. unfold purge, without. apply filter_ext. intros r. cbn [existsb]. now rewrite orb_false_r. Qed.

Lemma kept_purge {A : Type} (keep : PinRow -> option A) (rem : list string) (l : list PinRow) :
  (length (kept keep (purge rem l)) <= length (kept keep l))%nat.
Proof.
  induction l as [|r l IH]; [cbn; lia|]. unfold purge in *. cbn [filter].
  destruct (negb _); rewrite !kept_cons; destruct (keep r); cbn [length]; lia.
Qed.

Lemma purge_length (rem : list string) (l : list PinRow) : (length (purge rem l) <= length l)%nat.
Proof. apply filter_length_le. Qed.

Lemma in_firstn {A : Type} (n : nat) (l : list A) (x : A) : In x (firstn n l) -> In x l.
Proof. intros Hx. rewrite <- (firstn_skipn n l). apply in_app_iff. now left. Qed.

Section Collection.
Context {W : Type} `{TelemetryLaws W}.
Variables (SHA256 : string -> string) (parse_other : string -> option Z).
Hypothesis configured : isConfigured env = true.

(** An unpin removes the pins of the hash, or fails and may change nothing. *)
Lemma unpin_spec (hash : string) (w : W) (r : res bool) (w' : W) :
  unpinKeyEnvelope env hash w = (r, w') ->
  (pinned w' = without (trim hash) (pinned w) \/ is_ok r = false /\ pinned w' = pinned w)
  /\ Date_now w <= Date_now w'.
Proof.
  unfold unpinKeyEnvelope, unpin. rewrite configured. cbn [negb].
  destruct (blank (trim hash)); [intros E; injection E as <- <-; split; [right; split; reflexivity|lia]|].
  unfold unpin_attempt.
  destruct (auth_works configured "DELETE" (unpin_path (trim hash)) None w) as (h & w1 & -> & (P1 & _ & T1)).
  destruct (axios (unpin_request env h (trim hash)) w1) as [a w2] eqn:E.
  destruct (unpin_works h (trim hash) w1 w2 a E) as (Hp & _ & T2). rewrite P1 in Hp.
  destruct a as [d|e]; intros E'; injection E' as <- <-; (split; [|lia]).
  - left. destruct Hp as [Hp|[Hs _]]; [exact Hp|discriminate Hs].
  - destruct Hp as [Hp|[Hs Hp]]; [left; exact Hp|right]. cbn [settled] in Hs. rewrite Hs. split; [reflexivity|exact Hp].
Qed.

(** A step from a tally and a world to others that handles the hashes [hs]. *)
Definition swept_by (hs : list string) (t t' : Tally) (w w' : W) : Prop :=
  exists us fs rem, swept t' = swept t ++ us /\ missed t' = missed t ++ fs
    /\ pinned w' = purge rem (pinned w) /\ Date_now w <= Date_now w'
    /\ (forall h, In h rem -> exists x, In x hs /\ h = trim x)
    /\ (forall h, In h us -> In (trim h) rem)
    /\ (forall h, In h hs -> In h us \/ In h fs).

Lemma swept_quiet (t : Tally) (w w' : W) (n : Z) : same_pins w w' -> swept_by [] t (count n t) w w'.
Proof.
  intros (Hpin & _ & T'). exists [], [], []. rewrite !app_nil_r, purge_nil. cbn [count swept missed].
  repeat split; try assumption; intros h [].
Qed.

Lemma swept_trans (hs1 hs2 : list string) (t1 t2 t3 : Tally) (w1 w2 w3 : W) :
  swept_by hs1 t1 t2 w1 w2 -> swept_by hs2 t2 t3 w2 w3 -> swept_by (hs1 ++ hs2) t1 t3 w1 w3.
Proof.
  intros (us1 & fs1 & rem1 & S1 & M1 & P1 & T1 & R1 & U1 & A1) (us2 & fs2 & rem2 & S2 & M2 & P2 & T2 & R2 & U2 & A2).
  exists (us1 ++ us2), (fs1 ++ fs2), (rem1 ++ rem2).
  rewrite S2, S1, M2, M1, P2, P1, purge_app, !app_assoc. repeat split; try lia; intros h; rewrite !in_app_iff.
  - intros [Hh|Hh]; [apply R1 in Hh as (x & Hx & ->)|apply R2 in Hh as (x & Hx & ->)];
      exists x; rewrite in_app_iff; auto.
  - intros [Hh|Hh]; auto.
  - intros [Hh|Hh]; [apply A1 in Hh|apply A2 in Hh]; tauto.
Qed.

Lemma collect_hash_spec (hash : string) (t : Tally) (w : W) :
  swept_by [hash] t (fst (collect_hash env false hash t w)) w (snd (collect_hash env false hash t w)).
Proof.
  unfold collect_hash. destruct (unpinKeyEnvelope env hash w) as [r w'] eqn:E.
  destruct (unpin_spec hash w r w' E) as [Hp T'].
  assert (R : exists rem, pinned w' = purge rem (pinned w) /\ (rem = [trim hash] \/ is_ok r = false /\ rem = [])).
  { destruct Hp as [Hp|[Hr Hp]]; [exists [trim hash]; rewrite Hp, purge_one|exists []; rewrite Hp, purge_nil]; auto. }
  destruct R as (rem & Hpin & Hrem). destruct r as [b|e]; cbn [fst snd];
    [exists [hash], [], rem|exists [], [hash], rem]; cbn [swept missed]; rewrite ?app_nil_r;
    repeat split; try assumption; intros h Hh; cbn [In is_ok] in *; intuition (subst; cbn [In] in *; try congruence; eauto).
  all: intuition (subst; eauto).
Qed.

Lemma collect_hashes_spec (hs : list string) (t : Tally) (w : W) :
  swept_by hs t (fst (collect_hashes env false hs t w)) w (snd (collect_hashes env false hs t w)).
Proof.
  revert t w. induction hs as [|h hs IH]; intros t w; cbn [collect_hashes].
  - destruct t as [n us fs]. replace n with (n + 0) at 2 by lia. apply (swept_quiet (mkTally n us fs)), same_refl.
  - pose proof (collect_hash_spec h t w) as S1. destruct (collect_hash env false h t w) as [t1 w1]. cbn [fst snd] in S1.
    exact (swept_trans [h] hs _ _ _ _ _ _ S1 (IH t1 w1)).
Qed.

(** *** What a step means for a row *)

Lemma swept_shrinks (hs : list string) (t t' : Tally) (w w' : W) (row : PinRow) :
  swept_by hs t t' w w' -> In row (pinned w') -> In row (pinned w).
Proof. intros (us & fs & rem & _ & _ & -> & _) Hr. now apply in_purge in Hr. Qed.

Lemma swept_clock (hs : list string) (t t' : Tally) (w w' : W) :
  swept_by hs t t' w w' -> Date_now w <= Date_now w'.
Proof. intros (us & fs & rem & E). apply E. Qed.

Lemma swept_only (hs : list string) (t t' : Tally) (w w' : W) (row : PinRow) :
  swept_by hs t t' w w' -> In row (pinned w) -> ~ In row (pinned w') -> exists x, In x hs /\ row_hash row = trim x.
Proof.
  intros (us & fs & rem & _ & _ & E & _ & R & _) Hr Hn. apply R.
  destruct (in_dec string_dec (row_hash row) rem) as [|C]; [assumption|].
  elim Hn. rewrite E. now apply in_purge.
Qed.

Lemma swept_done (hs : list string) (t t' : Tally) (w w' : W) (row : PinRow) :
  swept_by hs t t' w w' -> missed t' = missed t -> In (row_hash row) hs -> trim (row_hash row) = row_hash row ->
  ~ In row (pinned w').
Proof.
  intros (us & fs & rem & _ & M & E & _ & _ & U & A) Hm Hh Ht. rewrite E, in_purge. intros [_ C]. apply C.
  assert (F : fs = []).
  { rewrite Hm in M. rewrite <- (app_nil_r (missed t)) in M at 1. now apply app_inv_head in M. }
  subst fs. rewrite <- Ht. apply U. now destruct (A _ Hh) as [|[]].
Qed.

Lemma swept_reported (hs : list string) (t t' : Tally) (w w' : W) (h : string) (row : PinRow) :
  swept_by hs t t' w w' -> swept t = [] -> In h (swept t') -> In row (pinned w') -> row_hash row <> trim h.
Proof.
  intros (us & fs & rem & S & _ & E & _ & _ & U & _) Hs Hh. rewrite S, Hs in Hh. rewrite E, in_purge.
  intros [_ Hr] C. apply Hr. rewrite C. now apply U.
Qed.

Lemma swept_missed (hs1 hs2 : list string) (t1 t2 t3 : Tally) (w1 w2 w3 : W) :
  swept_by hs1 t1 t2 w1 w2 -> swept_by hs2 t2 t3 w2 w3 -> missed t3 = missed t1 ->
  missed t2 = missed t1 /\ missed t3 = missed t2.
Proof.
  intros (? & fs1 & ? & _ & M1 & _) (? & fs2 & ? & _ & M2 & _) Hm. rewrite M2, M1, <- app_assoc in Hm.
  assert (F : fs1 ++ fs2 = []).
  { rewrite <- (app_nil_r (missed t1)) in Hm at 2. now apply app_inv_head in Hm. }
  apply app_eq_nil in F as [-> ->]. rewrite app_nil_r in *. now split.
Qed.

(** *** The account mode *)

Lemma expired_later (r : option AccessRequestData) (n n' : Z) :
  n <= n' -> isRequestExpiredOrRejected r n = true -> isRequestExpiredOrRejected r n' = true.
Proof.
  intros Hn. unfold isRequestExpiredOrRejected. destruct r as [r|]; [|easy].
  destruct (_ || _); [easy|]. destruct (req_status r =? 0); [|easy]. cbn [andb].
  destruct (expiresAt r) as [e|]; [|easy]. rewrite !Z.leb_le. lia.
Qed.

Lemma now_sec_mono (w w' : W) : Date_now w <= Date_now w' -> now_sec w <= now_sec w'.
Proof. intros E. now apply Z.div_le_mono. Qed.

Lemma find_hash (target docId : string) (r : PinRow) (h : string) :
  for_beneficiary_and_doc target docId r = Some h -> h = row_hash r.
Proof. unfold for_beneficiary_and_doc. destruct (_ && _); congruence. Qed.

(** The envelopes of a user for a document. *)
Definition envelope_for (user : string) (d : Z) (r : PinRow) : Prop :=
  for_beneficiary_and_doc (hashAddress SHA256 user) (num_str d) r = Some (row_hash r).

(** The account is small enough for the bounds of the search. *)
Definition within_bounds (user : string) (d : Z) (rows : list PinRow) : Prop :=
  (length rows <= 600)%nat
  /\ (length (kept (for_beneficiary_and_doc (hashAddress SHA256 user) (num_str d)) rows) <= 30)%nat.

Lemma purge_bounds (user : string) (d : Z) (rem : list string) (rows : list PinRow) :
  within_bounds user d rows -> within_bounds user d (purge rem rows).
Proof.
  intros [A B]. pose proof (purge_length rem rows).
  pose proof (kept_purge (for_beneficiary_and_doc (hashAddress SHA256 user) (num_str d)) rem rows).
  split; lia.
Qed.

(** One document whose request is over. *)
Lemma collect_doc_spec (user : string) (d : Z) (t : Tally) (w : W) :
  exists hashes w1,
    findEnvelopeHashesForBeneficiaryAndDoc env SHA256 user d None w = (Ok hashes, w1) /\ same_pins w w1
    /\ (forall h, In h hashes -> exists row, In row (pinned w) /\ envelope_for user d row /\ h = row_hash row)
    /\ (within_bounds user d (pinned w) -> forall row, In row (pinned w) -> envelope_for user d row -> In (row_hash row) hashes).
Proof.
  destruct (find_spec SHA256 configured user d None w) as (w1 & E & S). eexists _, w1. split; [exact E|]. split; [exact S|]. split.
  - intros h Hh. apply in_firstn, in_kept in Hh as (row & Hr & Hk). apply in_firstn in Hr.
    pose proof (find_hash _ _ _ _ Hk) as ->. now exists row.
  - intros [B1 B2] row Hr He. rewrite (firstn_all2 (pinned w)) by exact B1. rewrite firstn_all2 by exact B2.
    apply in_kept. now exists row.
Qed.

Definition collects (user : string) (latest : list (Z * option AccessRequestData)) (docIds : list Z)
    (t t' : Tally) (w w' : W) : Prop :=
  exists hs, swept_by hs t t' w w'
  /\ (forall h, In h hs -> exists d row, In d docIds /\ isRequestExpiredOrRejected (lookup_doc d latest) (now_sec w') = true
        /\ In row (pinned w) /\ envelope_for user d row /\ h = row_hash row)
  /\ (missed t' = missed t -> forall d row, In d docIds -> isRequestExpiredOrRejected (lookup_doc d latest) (now_sec w) = true ->
        within_bounds user d (pinned w) -> envelope_for user d row -> trim (row_hash row) = row_hash row ->
        ~ In row (pinned w')).

Lemma collects_nil (user : string) (latest : list (Z * option AccessRequestData)) (t : Tally) (w : W) :
  collects user latest [] t (count 0 t) w w.
Proof. exists []. split; [apply swept_quiet, same_refl|]. split; [intros h []|intros _ d row []]. Qed.

(** A document first, and the others after it. *)
Lemma collects_cons (user : string) (latest : list (Z * option AccessRequestData)) (d : Z) (ds : list Z)
    (hs : list string) (t t1 t2 : Tally) (w w1 w2 : W) :
  swept_by hs t t1 w w1 ->
  (forall h, In h hs -> isRequestExpiredOrRejected (lookup_doc d latest) (now_sec w) = true
     /\ exists row, In row (pinned w) /\ envelope_for user d row /\ h = row_hash row) ->
  (isRequestExpiredOrRejected (lookup_doc d latest) (now_sec w) = true -> within_bounds user d (pinned w) ->
     forall row, In row (pinned w) -> envelope_for user d row -> In (row_hash row) hs) ->
  collects user latest ds t1 t2 w1 w2 -> collects user latest (d :: ds) t t2 w w2.
Proof.
  intros S1 Hc Ha (hs2 & S2 & C2 & D2). exists (hs ++ hs2). split; [exact (swept_trans _ _ _ _ _ _ _ _ S1 S2)|].
  pose proof (now_sec_mono _ _ (swept_clock _ _ _ _ _ S1)) as T1. pose proof (now_sec_mono _ _ (swept_clock _ _ _ _ _ S2)) as T2.
  split.
  - intros h Hh. apply in_app_iff in Hh as [Hh|Hh].
    + apply Hc in Hh as (He & row & Hr & Hk & ->). exists d, row. split; [now left|].
      split; [apply (expired_later _ (now_sec w)); [lia|exact He]|now split].
    + apply C2 in Hh as (d' & row & Hd & He & Hr & Hk & ->). exists d', row. split; [now right|].
      split; [exact He|]. split; [exact (swept_shrinks _ _ _ _ _ _ S1 Hr)|now split].
  - intros Hm d' row Hd He Hb Hk Ht Hin. destruct (swept_missed _ _ _ _ _ _ _ _ S1 S2 Hm) as [M1 M2].
    pose proof (swept_shrinks _ _ _ _ _ _ S2 Hin) as Hin1.
    pose proof (swept_shrinks _ _ _ _ _ _ S1 Hin1) as Hin0.
    destruct Hd as [<-|Hd].
    + exact (swept_done _ _ _ _ _ row S1 M1 (Ha He Hb row Hin0 Hk) Ht Hin1).
    + apply (D2 M2 d' row Hd); try assumption; [apply (expired_later _ (now_sec w)); [lia|exact He]|].
      destruct S1 as (_ & _ & rem & _ & _ & -> & _). now apply purge_bounds.
Qed.

Lemma collect_docs_spec (user : string) (latest : list (Z * option AccessRequestData)) (docIds : list Z) (t : Tally) (w : W) :
  exists t' w', collect_docs env SHA256 false user latest docIds t w = ((Ok tt, t'), w')
                /\ collects user latest docIds t t' w w'.
Proof.
  revert t w. induction docIds as [|d ds IH]; intros t w; cbn [collect_docs].
  - exists t, w. split; [reflexivity|]. replace t with (count 0 t) at 2 by (destruct t; unfold count; cbn; f_equal; lia).
    apply collects_nil.
  - destruct (isRequestExpiredOrRejected (lookup_doc d latest) (now_sec w)) eqn:X.
    + destruct (collect_doc_spec user d t w) as (hashes & w1 & -> & S & Hsound & Hcomplete).
      pose proof (collect_hashes_spec hashes (count 1 t) w1) as Hs.
      destruct (collect_hashes env false hashes (count 1 t) w1) as [t2 w2]. cbn [fst snd] in Hs.
      destruct (IH t2 w2) as (t' & w' & -> & Hrest). exists t', w'. split; [reflexivity|].
      refine (collects_cons user latest d ds hashes t t2 t' w w2 w' (swept_trans [] hashes _ _ _ _ _ _ (swept_quiet t w w1 1 S) Hs) _ _ Hrest).
      * intros h Hh. split; [exact X|exact (Hsound h Hh)].
      * intros _. exact Hcomplete.
    + destruct (IH (count 1 t) w) as (t' & w' & -> & Hrest). exists t', w'. split; [reflexivity|].
      refine (collects_cons user latest d ds [] t _ t' w w w' (swept_quiet t w w 1 (same_refl w)) _ _ Hrest).
      * intros h [].
      * congruence.
Qed.

(** *** The sweep of all envelopes *)

(** An envelope the sweep unpins. *)
Definition candidate (r : PinRow) (now : Z) : bool := malformed r || outdated parse_other r now.

Lemma candidate_later (r : PinRow) (n n' : Z) : n <= n' -> candidate r n = true -> candidate r n' = true.
Proof.
  unfold candidate, outdated. intros Hn. destruct (malformed r); [easy|]. cbn [orb].
  destruct (Date_parse parse_other (row_get "issuedAt" r)); [|easy]. rewrite !Z.ltb_lt. lia.
Qed.

(** What the sweep lists: the first hundred envelopes of the first thousand pins. *)
Definition listed (w : W) : list (string * PinRow) := firstn 100 (kept any_envelope (firstn 1000 (pinned w))).

Lemma in_listed (h : string) (r : PinRow) (w : W) : In (h, r) (listed w) -> In r (pinned w) /\ h = row_hash r.
Proof.
  intros Hl. apply in_firstn, in_kept in Hl as (r' & Hr & Hk). apply in_firstn in Hr.
  unfold any_envelope in Hk. destruct (is_envelope r'); [|discriminate]. injection Hk as <- <-. now split.
Qed.

Lemma collect_all_spec (es : list (string * PinRow)) (t : Tally) (w : W) :
  exists t' w' hs, collect_all env parse_other false es t w = (t', w') /\ swept_by hs t t' w w'
    /\ (forall h, In h hs -> exists r, In (h, r) es /\ candidate r (Date_now w') = true)
    /\ (forall h r, In (h, r) es -> candidate r (Date_now w) = true -> In h hs)
    /\ scanned t' = scanned t.
Proof.
  revert t w. induction es as [|[h r] es IH]; intros t w; cbn [collect_all].
  - exists t, w, []. split; [reflexivity|]. split; [|split; [intros x []|split; [intros x y []|reflexivity]]].
    replace t with (count 0 t) at 2 by (destruct t; unfold count; cbn; f_equal; lia). apply swept_quiet, same_refl.
  - fold (candidate r (Date_now w)). destruct (candidate r (Date_now w)) eqn:C.
    + pose proof (collect_hash_spec h t w) as S1. assert (Hn1 : scanned (fst (collect_hash env false h t w)) = scanned t)
        by (unfold collect_hash; destruct (unpinKeyEnvelope env h w) as [[] ?]; reflexivity).
      destruct (collect_hash env false h t w) as [t1 w1]. cbn [fst snd] in S1, Hn1.
      destruct (IH t1 w1) as (t' & w' & hs & -> & S2 & Sound & Complete & Hn2). exists t', w', (h :: hs).
      split; [reflexivity|]. split; [exact (swept_trans [h] hs _ _ _ _ _ _ S1 S2)|]. split; [|split; [|congruence]].
      * intros x [<-|Hx].
        -- exists r. split; [now left|]. apply (candidate_later r (Date_now w)); [|exact C].
           pose proof (swept_clock _ _ _ _ _ S1). pose proof (swept_clock _ _ _ _ _ S2). lia.
        -- destruct (Sound x Hx) as (r' & Hr & Hc). exists r'. split; [now right|exact Hc].
      * intros x r' [E|Hx] Hc; [injection E as -> ->; now left|right].
        apply (Complete x r' Hx). apply (candidate_later r' (Date_now w)); [exact (swept_clock _ _ _ _ _ S1)|exact Hc].
    + destruct (IH t w) as (t' & w' & hs & -> & S2 & Sound & Complete & Hn2). exists t', w', hs.
      split; [reflexivity|]. split; [exact S2|]. split; [|split; [|exact Hn2]].
      * intros x Hx. destruct (Sound x Hx) as (r' & Hr & Hc). exists r'. split; [now right|exact Hc].
      * intros x r' [E|Hx] Hc; [injection E as -> ->; congruence|exact (Complete x r' Hx Hc)].
Qed.

(** *** Reports *)

(** After the sweep only telemetry runs. *)
Lemma report_of_sweep (q : Requests) (o : GCOptions) (w : W) (r : res unit) (t : Tally) (w1 : W) :
  sweep env SHA256 parse_other (match dryRun o with Some b => b | None => false end) q o w = ((r, t), w1) ->
  exists time dry w', runGarbageCollection env SHA256 parse_other q o w
    = (mkReport (scanned t) (Z.of_nat (length (swept t))) (swept t) (missed t) dry time, w') /\ same_pins w1 w'.
Proof.
  intros E. unfold runGarbageCollection. rewrite configured. cbn [negb]. rewrite E.
  do 3 eexists. split; [reflexivity|]. destruct r as [u|e]; [|apply error_quiet].
  destruct (swept t); [apply same_refl|]. destruct (match dryRun o with Some b => b | None => false end);
    [apply same_refl|apply telemetry_quiet].
Qed.

(** In the mode of an account, nothing but envelopes of that account for a listed
    document whose latest request is expired or rejected loses its pin; what is reported
    as unpinned is no longer pinned; and when nothing is reported as failed every such
    envelope is gone, if the account is within the bounds of the search. *)
Theorem account_collection (q : Requests) (user : string) (docIds : list Z) (dry : option bool)
    (latest : list (Z * option AccessRequestData)) (w : W) :
  blank user = false -> docIds <> [] -> dry <> Some true ->
  proxiedGetLatestRequestsForUser q user docIds = Ok latest ->
  exists report w',
    runGarbageCollection env SHA256 parse_other q (mkOptions (Some user) (Some docIds) dry) w = (report, w')
    /\ (forall row, In row (pinned w') -> In row (pinned w))
    /\ (forall row, In row (pinned w) -> ~ In row (pinned w') ->
          exists d other, In d docIds /\ isRequestExpiredOrRejected (lookup_doc d latest) (now_sec w') = true
            /\ In other (pinned w) /\ envelope_for user d other /\ row_hash row = trim (row_hash other))
    /\ (forall h row, In h (unpinnedHashes report) -> In row (pinned w') -> row_hash row <> trim h)
    /\ (failedHashes report = [] -> forall d row, In d docIds ->
          isRequestExpiredOrRejected (lookup_doc d latest) (now_sec w) = true -> within_bounds user d (pinned w) ->
          envelope_for user d row -> trim (row_hash row) = row_hash row -> ~ In row (pinned w')).
Proof.
  intros Hu Hd Hdry Hl. set (zero := mkTally 0 [] []).
  destruct (collect_docs_spec user latest docIds zero w) as (t & w1 & E & hs & S & Sound & Complete).
  assert (E' : sweep env SHA256 parse_other false q (mkOptions (Some user) (Some docIds) dry) w = ((Ok tt, t), w1)).
  { unfold sweep. cbn [account documentIds or_empty or_else]. rewrite Hu. rewrite Hu. rewrite Hl.
    destruct docIds; [now elim Hd|exact E]. }
  assert (Ed : match dry with Some b => b | None => false end = false) by (destruct dry as [[]|]; congruence).
  destruct (report_of_sweep q (mkOptions (Some user) (Some docIds) dry) w (Ok tt) t w1) as (time & dr & w' & R & (Pw & _ & Tw));
    [cbn [dryRun]; rewrite Ed; exact E'|].
  eexists _, w'. split; [exact R|]. rewrite Pw. cbn [unpinnedHashes failedHashes]. split; [|split; [|split]].
  - intros row. exact (swept_shrinks _ _ _ _ _ row S).
  - intros row Hr Hn. destruct (swept_only _ _ _ _ _ row S Hr Hn) as (x & Hx & Ex).
    destruct (Sound x Hx) as (d & other & Hin & He & Ho & Hk & ->). exists d, other. split; [exact Hin|].
    split; [exact (expired_later _ _ _ (now_sec_mono _ _ Tw) He)|now split].
  - intros h row. exact (swept_reported _ _ _ _ _ h row S eq_refl).
  - exact Complete.
Qed.

(** Without an account, the sweep removes exactly the envelopes among the first
    hundred that carry no document id or were issued more than thirty days ago; it is
    the same whatever the state of the access requests. *)
Theorem sweep_collection (q : Requests) (dry : option bool) (w : W) :
  dry <> Some true ->
  exists report w',
    (forall q', runGarbageCollection env SHA256 parse_other q' (mkOptions None None dry) w = (report, w'))
    /\ scannedCount report = Z.of_nat (length (listed w))
    /\ (forall row, In row (pinned w') -> In row (pinned w))
    /\ (forall row, In row (pinned w) -> ~ In row (pinned w') ->
          exists h other, In (h, other) (listed w) /\ candidate other (Date_now w') = true /\ row_hash row = trim h)
    /\ (failedHashes report = [] -> forall h row, In (h, row) (listed w) -> candidate row (Date_now w) = true ->
          trim h = h -> ~ In row (pinned w')).
Proof.
  intros Hdry. destruct (list_all_spec configured (Some 100) w) as (w0 & L & (P0 & C0 & T0)).
  set (t0 := mkTally (Z.of_nat (length (listed w))) [] []).
  destruct (collect_all_spec (listed w) t0 w0) as (t & w1 & hs & E & S & Sound & Complete & Hn).
  assert (S' : swept_by hs t0 t w w1).
  { destruct S as (us & fs & rem & S). exists us, fs, rem. rewrite <- P0. intuition lia. }
  assert (E' : forall q', sweep env SHA256 parse_other false q' (mkOptions None None dry) w = ((Ok tt, t), w1)).
  { intros q'. unfold sweep. cbn [account or_empty or_else blank]. change (blank "") with true. cbv iota. rewrite L.
    change (firstn (Z.to_nat (clamp (Some 100) 200 500)) (kept any_envelope (firstn 1000 (pinned w)))) with (listed w).
    fold t0. now rewrite E. }
  assert (Ed : match dry with Some b => b | None => false end = false) by (destruct dry as [[]|]; congruence).
  destruct (report_of_sweep q (mkOptions None None dry) w (Ok tt) t w1) as (time & dr & w' & R & (Pw & _ & Tw));
    [cbn [dryRun]; rewrite Ed; exact (E' q)|].
  exists (mkReport (scanned t) (Z.of_nat (length (swept t))) (swept t) (missed t) dr time), w'.
  split; [|rewrite Pw; cbn [scannedCount failedHashes]; split; [exact Hn|split; [|split]]].
  - intros q'. rewrite <- R. unfold runGarbageCollection. rewrite configured. cbn [dryRun negb]. rewrite Ed. now rewrite !E'.
  - intros row. exact (swept_shrinks _ _ _ _ _ row S').
  - intros row Hr Hg. destruct (swept_only _ _ _ _ _ row S' Hr Hg) as (x & Hx & Ex).
    destruct (Sound x Hx) as (r & Hin & Hc). exists x, r. split; [exact Hin|].
    split; [exact (candidate_later r _ _ Tw Hc)|exact Ex].
  - intros Hf h row Hl Hc Ht. destruct (in_listed h row w Hl) as [_ ->].
    apply (swept_done _ _ _ _ _ row S' Hf); [|exact Ht].
    apply (Complete _ row Hl), (candidate_later row (Date_now w)); [exact T0|exact Hc].
Qed.

(** *** Dry runs, and the cleanup of one document *)

Lemma dry_hashes (hs : list string) (t : Tally) (w : W) :
  collect_hashes env true hs t w = (mkTally (scanned t) (swept t ++ hs) (missed t), w).
Proof.
  revert t. induction hs as [|h hs IH]; intros t; cbn [collect_hashes collect_hash].
  - rewrite app_nil_r. now destruct t.
  - unfold collect_hash. rewrite IH. cbn [scanned swept missed]. now rewrite <- app_assoc.
Qed.

Lemma dry_docs (user : string) (latest : list (Z * option AccessRequestData)) (docIds : list Z) (t : Tally) (w : W) :
  exists t' w', collect_docs env SHA256 true user latest docIds t w = ((Ok tt, t'), w')
                /\ same_pins w w' /\ missed t' = missed t.
Proof.
  revert t w. induction docIds as [|d ds IH]; intros t w; cbn [collect_docs].
  - exists t, w. split; [reflexivity|]. split; [apply same_refl|reflexivity].
  - destruct (isRequestExpiredOrRejected (lookup_doc d latest) (now_sec w)).
    + destruct (collect_doc_spec user d t w) as (hashes & w1 & -> & S1 & _). rewrite dry_hashes.
      match goal with |- context [collect_docs _ _ _ _ _ _ ?t1 w1] => destruct (IH t1 w1) as (t' & w' & -> & S2 & M) end.
      exists t', w'. split; [reflexivity|]. split; [exact (same_trans _ _ _ S1 S2)|exact M].
    + exact (IH (count 1 t) w).
Qed.

Lemma dry_all (es : list (string * PinRow)) (t : Tally) (w : W) :
  exists t', collect_all env parse_other true es t w = (t', w) /\ missed t' = missed t.
Proof.
  revert t. induction es as [|[h r] es IH]; intros t; cbn [collect_all]; [exists t; now split|].
  destruct (_ || _); [|apply IH]. cbn [collect_hash].
  destruct (IH (mkTally (scanned t) (swept t ++ [h]) (missed t))) as (t' & E & M). exists t'. now split.
Qed.

(** A dry run in either mode unpins nothing and reports no failure. *)
Theorem dry_run_changes_nothing (q : Requests) (account : option string) (docIds : option (list Z)) (w : W) :
  exists report w',
    runGarbageCollection env SHA256 parse_other q (mkOptions account docIds (Some true)) w = (report, w')
    /\ same_pins w w' /\ failedHashes report = [].
Proof.
  assert (D : exists r t w1, sweep env SHA256 parse_other true q (mkOptions account docIds (Some true)) w = ((r, t), w1)
                             /\ same_pins w w1 /\ missed t = []).
  { unfold sweep. cbn [EnvelopeGC.account documentIds]. destruct (blank (or_empty account)).
    - destruct (list_all_spec configured (Some 100) w) as (w0 & -> & S).
      match goal with |- context [collect_all _ _ _ ?es ?t ?x] => destruct (dry_all es t x) as (t' & -> & M) end.
      exists (Ok tt), t', w0. split; [reflexivity|split; [exact S|exact M]].
    - destruct docIds as [[|d ds]|].
      1, 3: exists (Ok tt), (mkTally 0 [] []), w; split; [reflexivity|]; split; [apply same_refl|reflexivity].
      destruct (proxiedGetLatestRequestsForUser q (or_empty account) (d :: ds)) as [latest|e].
      + destruct (dry_docs (or_empty account) latest (d :: ds) (mkTally 0 [] []) w) as (t' & w' & -> & S & M).
        exists (Ok tt), t', w'. split; [reflexivity|split; [exact S|exact M]].
      + exists (Throw e), (mkTally 0 [] []), w. split; [reflexivity|]. split; [apply same_refl|reflexivity]. }
  destruct D as (r & t & w1 & E & S & M).
  destruct (report_of_sweep q (mkOptions account docIds (Some true)) w r t w1 E) as (time & dr & w' & R & S').
  eexists _, w'. split; [exact R|]. split; [exact (same_trans _ _ _ S S')|exact M].
Qed.

Lemma unpin_each_collect (hs : list string) (t : Tally) (w : W) :
  unpin_each env hs (swept t) (missed t) w
  = ((swept (fst (collect_hashes env false hs t w)), missed (fst (collect_hashes env false hs t w))),
     snd (collect_hashes env false hs t w)).
Proof.
  revert t w. induction hs as [|h hs IH]; intros t w; cbn [unpin_each collect_hashes]; [reflexivity|].
  unfold collect_hash. destruct (unpinKeyEnvelope env h w) as [[b|e] w1];
    exact (IH (mkTally (scanned t) _ _) w1).
Qed.

(** The cleanup of one document after its request is read does what the collection for
    the account does with that document alone. *)
Theorem cleanup_is_collection (q : Requests) (user : string) (d : Z) (req : option AccessRequestData) (w : W) :
  blank user = false -> d <> 0 -> proxiedGetLatestRequestsForUser q user [d] = Ok [(d, req)] ->
  isRequestExpiredOrRejected req (now_sec w) = true ->
  exists result w1 report w2,
    evaluateAndCleanupDoc env SHA256 d user req w = (Some result, w1)
    /\ runGarbageCollection env SHA256 parse_other q (mkOptions (Some user) (Some [d]) None) w = (report, w2)
    /\ unpinned result = unpinnedHashes report /\ failed result = failedHashes report /\ pinned w1 = pinned w2.
Proof.
  intros Hu Hd Hl X. destruct (collect_doc_spec user d (mkTally 0 [] []) w) as (hashes & w0 & E & _).
  set (t0 := mkTally 1 [] []).
  pose proof (unpin_each_collect hashes t0 w0) as U.
  destruct (collect_hashes env false hashes t0 w0) as [t w3] eqn:C. cbn [fst snd swept missed t0] in U.
  assert (S : sweep env SHA256 parse_other false q (mkOptions (Some user) (Some [d]) None) w = ((Ok tt, t), w3)).
  { unfold sweep. cbn [account documentIds or_empty or_else]. rewrite !Hu, Hl.
    cbn [collect_docs]. assert (K : lookup_doc d [(d, req)] = req) by (unfold lookup_doc; cbn; now rewrite Z.eqb_refl).
    rewrite K, X, E. unfold count. cbn [scanned swept missed Z.add].
    fold t0. now rewrite C. }
  destruct (report_of_sweep q (mkOptions (Some user) (Some [d]) None) w (Ok tt) t w3 S) as (time & dr & w2 & R & (P2 & _)).
  unfold evaluateAndCleanupDoc. rewrite X. unfold unpinEnvelopesForRequest. rewrite Hu, configured.
  rewrite (proj2 (Z.eqb_neq d 0) Hd). cbn [orb negb]. unfold unpinEnvelopesForBeneficiaryAndDoc, bind. rewrite E, U.
  eexists _, _, _, w2. split; [reflexivity|]. split; [exact R|]. split; [reflexivity|]. split; [reflexivity|].
  rewrite P2. destruct (swept t), (missed t);
    repeat first [rewrite (proj1 (error_quiet _ _)) | rewrite (proj1 (telemetry_quiet _ _))]; reflexivity.
Qed.

End Collection.

(** ** The age of a sent envelope *)

(** An envelope as [sendKeyEnvelope] publishes it is a candidate when it is older than
    thirty days, and at no other time, unless its document is number zero. *)
Theorem sent_envelope_expires (SHA256 : string -> string) (parse_other : string -> option Z) (p : KeyEnvelopePayload)
    (row : PinRow) (n : option string) (t now : Z) :
  metadata row = Some (mkMetadata n (Some (envelope_keyvalues SHA256 p))) -> issuedAt p = toISOString t ->
  -62167219200000 <= t < 253402300800000 -> 0 <= documentId p < 2 ^ 53 ->
  candidate parse_other row now = (documentId p =? 0) || (thirtyDaysMs <? now - t).
Proof.
  intros Hm Hi Ht Hd. unfold candidate, malformed, outdated, row_get, row_keyvalues. rewrite Hm.
  change (kv_get "documentId" (envelope_keyvalues SHA256 p)) with (Some (num_str (documentId p))).
  change (kv_get "issuedAt" (envelope_keyvalues SHA256 p)) with (Some (issuedAt p)).
  cbv iota beta. rewrite Number_num_str by lia. destruct (safe_number (documentId p) Hd) as [-> ->].
  rewrite orb_false_r. unfold or_empty, or_else. rewrite Hi.
  assert (B : (if blank (toISOString t) then "" else toISOString t) = toISOString t)
    by (unfold blank; destruct (String.eqb_spec (toISOString t) "") as [->|]; reflexivity).
  rewrite B, Date_parse_toISOString by exact Ht. reflexivity.
Qed.

(** ** Witnesses *)

#[export] Instance StoreTelemetry : Telemetry Store := { captureTelemetry := fun _ w => w; captureError := fun _ w => w }.
#[export] Instance StoreTelemetryLaws : TelemetryLaws Store jwt_env.
Proof. split; intros; apply same_refl. Qed.

Definition demo_request (d status : Z) : AccessRequestData := mkRequestData 5 d "0xBEEF" status (Some 100) 50.

(** Document 12 was rejected, document 13 approved. *)
Definition demo_requests : Requests :=
  mkRequests Stellar (mkContract (Ok tt) (fun _ _ => Ok 0) (fun _ => Throw "none")) (Ok [demo_request 12 2; demo_request 13 1]).

Definition demo_pins : Store :=
  mkStore [demo_row "QmA" "0xbeef" "12" "2024-02-29T12:34:56.789Z"; demo_row "QmB" "0xbeef" "13" "2024-02-29T12:34:56.789Z";
           demo_row "QmC" "0xcafe" "x" ""] [] 1712000000000.

Definition hashes_of (w : Store) : list string := map row_hash (rows w).

(** The account mode unpins the rejected one; the sweep unpins the approved one as well. *)
Example account_mode_keeps_approved :
  hashes_of (snd (runGarbageCollection jwt_env normalizeAddress (fun _ => None) demo_requests
                    (mkOptions (Some "0xBeef") (Some [12; 13]) None) demo_pins)) = ["QmB"; "QmC"].
Proof. vm_compute. reflexivity. Qed.

Example sweep_unpins_approved :
  hashes_of (snd (runGarbageCollection jwt_env normalizeAddress (fun _ => None) demo_requests
                    (mkOptions None None None) demo_pins)) = [].
Proof. vm_compute. reflexivity. Qed.

Lemma account_collection_witness :
  exists report w',
    runGarbageCollection jwt_env normalizeAddress (fun _ => None) demo_requests (mkOptions (Some "0xBeef") (Some [12; 13]) None)
      demo_pins = (report, w')
    /\ (forall row, In row (rows w') -> In row (rows demo_pins)).
Proof.
  destruct (account_collection (env := jwt_env) normalizeAddress (fun _ => None) eq_refl demo_requests "0xBeef" [12; 13] None
              [(12, Some (demo_request 12 2)); (13, Some (demo_request 13 1))] demo_pins) as (report & w' & E & A & _);
    [reflexivity|discriminate|discriminate|reflexivity|].
  exists report, w'. split; [exact E|exact A].
Defined.

Lemma sweep_collection_witness :
  exists report w',
    (forall q, runGarbageCollection jwt_env normalizeAddress (fun _ => None) q (mkOptions None None None) demo_pins = (report, w'))
    /\ scannedCount report = 3.
Proof.
  destruct (sweep_collection (env := jwt_env) normalizeAddress (fun _ => None) eq_refl demo_requests None demo_pins)
    as (report & w' & E & N & _); [discriminate|].
  exists report, w'. split; [exact E|exact N].
Defined.

Lemma dry_run_changes_nothing_witness :
  exists report w',
    runGarbageCollection jwt_env normalizeAddress (fun _ => None) demo_requests (mkOptions None None (Some true)) demo_pins
    = (report, w') /\ same_pins demo_pins w' /\ failedHashes report = [].
Proof. apply (dry_run_changes_nothing (env := jwt_env) normalizeAddress (fun _ => None) eq_refl). Defined.

Lemma sent_envelope_expires_witness :
  candidate (fun _ => None) (mkRow (Some "QmA") None (Some (mkMetadata (Some ENVELOPE_NAME)
      (Some (envelope_keyvalues normalizeAddress demo_payload))))) 1712000000000 = true.
Proof.
  rewrite (sent_envelope_expires normalizeAddress (fun _ => None) demo_payload _ (Some ENVELOPE_NAME) 1709210096789 1712000000000);
    [reflexivity|reflexivity|reflexivity|lia|cbn; lia].
Defined.

Lemma cleanup_is_collection_witness :
  exists result w1 report w2,
    evaluateAndCleanupDoc jwt_env normalizeAddress 12 "0xBeef" (Some (demo_request 12 2)) demo_pins = (Some result, w1)
    /\ runGarbageCollection jwt_env normalizeAddress (fun _ => None) demo_requests (mkOptions (Some "0xBeef") (Some [12]) None)
         demo_pins = (report, w2)
    /\ unpinned result = unpinnedHashes report /\ failed result = failedHashes report /\ pinned (env := jwt_env) w1 = pinned (env := jwt_env) w2.
Proof.
  apply (cleanup_is_collection (env := jwt_env) normalizeAddress (fun _ => None) eq_refl demo_requests "0xBeef" 12
           (Some (demo_request 12 2)) demo_pins); first [reflexivity | discriminate].
Defined.
