(* ===== verification/RelayConfig.v ===== *)
(** * RelayConfig: relayer/config.ts

    The settings of the relayer from the environment and the .env file of the repository:
    which value a variable has after the file is read, and that every interval and every
    limit is a positive number whatever the environment holds. *)

From Stdlib Require Import Ascii String ZArith Lia Bool.
From stdpp Require Import base list gmap strings.
From S2P Require Import Prelude JsString JsonText JsNumber KeyInbox.

Open Scope string_scope.
Open Scope list_scope.
Open Scope Z_scope.

#[local] Abbreviation Env := (gmap string string).

(** ** The file *)

(** The text before the first [c] and after it. *)
Fixpoint cut (c : ascii) (s : string) : option (string * string) :=
  match s with
  | EmptyString => None
  | String a s => if Ascii.eqb a c then Some ("", s) else match cut c s with Some (p, q) => Some (String a p, q) | None => None end
  end.

(** The name and the value of a line, unless it is empty, a comment or has no sign of equality. *)
Definition assignment (line : string) : option (string * string) :=
  let trimmed := trim line in
  if blank trimmed || startsWith "#" trimmed then None
  else match cut "=" trimmed with Some (key, value) => Some (trim key, trim value) | None => None end.

(** A variable that is set and not empty keeps its value; the system takes no empty name. *)
Definition assign (env : Env) (a : string * string) : Env :=
  let '(key, value) := a in
  if blank key then env else if blank (or_empty (env !! key)) then <[key := value]> env else env.

Definition line_feed : ascii := ascii_of_nat 10.
Definition loadDotEnv (file : option string) (env : Env) : Env :=
  match file with
  | None => env
  | Some text => fold_left (fun env line => match assignment line with Some a => assign env a | None => env end) (split line_feed text) env
  end.

(** ** Numbers *)

(** [Number(value)]; [undefined] is NaN. *)
Definition Number_of (value : option string) : number := match value with Some s => Number_str s | None => NaN end.
Definition above_zero (x : number) : bool := match x with NaN => false | Infinite => true | Fin m e => negb (rounds_to_zero m e) && (0 <? m) end.
Definition num (value : option string) (fallback : Z) : number :=
  let parsed := Number_of value in if isFinite parsed && above_zero parsed then parsed else Fin fallback 0.

(** ** The settings *)

Record RelayerConfig : Type := mkConfig {
  evmRpcUrl : option string; evmContractAddress : option string; evmStartBlock : option number;
  sorobanRpcUrl : option string; sorobanContractIds : list string; pollIntervalMs : number;
  guardianContactsUrl : option string; guardianContactsToken : option string;
  telegramBotToken : option string; emailWebhookUrl : option string; approvalUiBaseUrl : string;
  stateDir : string; maxAttempts : number; retryBaseMs : number; retryMaxBackoffMs : number; workerTickMs : number;
  healthPort : option number
}.

(** [x || undefined] and [x ? Number(x) : undefined] *)
Definition set_value (x : option string) : option string := match x with Some s => if blank s then None else Some s | None => None end.
Definition given_number (x : option string) : option number := match set_value x with Some s => Some (Number_str s) | None => None end.

Definition contract_ids (x : option string) : list string :=
  List.filter (fun s => negb (blank s)) (map trim (split "," (or_else x ""))).

(** The settings that an environment gives; [root] is the directory of the repository. *)
Definition read_config (root : string) (env : Env) : RelayerConfig :=
  mkConfig (set_value (env !! "RELAYER_EVM_RPC_URL")) (set_value (env !! "RELAYER_EVM_CONTRACT_ADDRESS")) (given_number (env !! "RELAYER_EVM_START_BLOCK"))
    (set_value (env !! "RELAYER_SOROBAN_RPC_URL")) (contract_ids (env !! "RELAYER_SOROBAN_CONTRACT_IDS")) (num (env !! "RELAYER_POLL_INTERVAL_MS") 1500)
    (set_value (env !! "RELAYER_GUARDIAN_CONTACTS_URL")) (set_value (env !! "RELAYER_GUARDIAN_CONTACTS_TOKEN"))
    (set_value (env !! "TELEGRAM_BOT_TOKEN")) (set_value (env !! "RELAYER_EMAIL_WEBHOOK_URL")) (or_else (env !! "RELAYER_APPROVAL_UI_BASE_URL") "http://localhost:5173")
    (or_else (env !! "RELAYER_STATE_DIR") (root ++ "/relayer/.state")%string)
    (num (env !! "RELAYER_MAX_ATTEMPTS") 5) (num (env !! "RELAYER_RETRY_BASE_MS") 500) (num (env !! "RELAYER_RETRY_MAX_BACKOFF_MS") 30000)
    (num (env !! "RELAYER_WORKER_TICK_MS") 200) (given_number (env !! "RELAYER_HEALTH_PORT")).

(** The file goes to the environment of the process, which is the one that is read unless
    another is given. *)
Definition loadConfig (root : string) (file : option string) (process_env : Env) (given_env : option Env) : RelayerConfig * Env :=
  let env := loadDotEnv file process_env in (read_config root (default env given_env), env).

(** ** Theorems *)

(** The assignments of a file, and the first of a name that is not empty. *)
Definition assignments (text : string) : list (string * string) := omap assignment (split line_feed text).
Definition first_value (key : string) (l : list (string * string)) : string :=
  match List.find (fun '(k, v) => String.eqb k key && negb (blank v)) l with Some (_, v) => v | None => "" end.

Lemma load_assignments (text : string) (env : Env) : loadDotEnv (Some text) env = fold_left assign (assignments text) env.
Proof.
  unfold loadDotEnv, assignments. revert env. induction (split line_feed text) as [|line l IH]; intros env; [done|]. cbn [fold_left omap list_omap].
  destruct (assignment line); [cbn [fold_left]|]; apply IH.
Qed.

Lemma blank_eq (s : string) : blank s = true <-> s = "".
Proof. apply String.eqb_eq. Qed.

Lemma or_empty_some (s : string) : or_empty (Some s) = s.
Proof. unfold or_empty, or_else. destruct (blank s) eqn:E; [by apply blank_eq in E|done]. Qed.

Lemma assign_value (env : Env) (k v key : string) : key <> "" ->
  or_empty (assign env (k, v) !! key) = if String.eqb k key && blank (or_empty (env !! key)) then v else or_empty (env !! key).
Proof.
  intros Hk. unfold assign. destruct (String.eqb_spec k key) as [->|Hn]; cbn [andb].
  - unfold blank at 1. rewrite (proj2 (String.eqb_neq _ _) Hk). destruct (blank (or_empty (env !! key))); [|done]. rewrite lookup_insert_eq. apply or_empty_some.
  - destruct (blank k), (blank (or_empty (env !! k))); try done. by rewrite lookup_insert_ne.
Qed.

(** A variable that the process has keeps its value; another gets the first value in the
    file that is not empty. *)
Theorem dotenv_first_value (text : string) (env : Env) (key : string) (Hk : key <> "") :
  or_empty (loadDotEnv (Some text) env !! key)
  = if blank (or_empty (env !! key)) then first_value key (assignments text) else or_empty (env !! key).
Proof.
  rewrite load_assignments. revert env. induction (assignments text) as [|[k v] l IH]; intros env; cbn [fold_left].
  - unfold first_value. cbn. destruct (blank (or_empty (env !! key))) eqn:E; [by apply blank_eq in E|done].
  - rewrite IH, assign_value by done. unfold first_value. cbn [List.find].
    destruct (blank (or_empty (env !! key))) eqn:E; [|rewrite andb_false_r, E; done]. rewrite andb_true_r.
    destruct (String.eqb k key) eqn:Ek; cbn [andb]; [|by rewrite E].
    destruct (blank v); done.
Qed.

Definition finite_positive (x : number) : Prop := isFinite x = true /\ above_zero x = true.

Lemma num_positive (value : option string) (fallback : Z) : 0 < fallback < 2 ^ 32 -> finite_positive (num value fallback).
Proof.
  intros H. unfold num. destruct (isFinite (Number_of value) && above_zero (Number_of value)) eqn:E; [by apply andb_prop in E|].
  assert (fallback < 2 ^ 1024 - 2 ^ 970) by (eapply Z.lt_trans; [apply H|reflexivity]).
  unfold finite_positive, isFinite, above_zero, rounds_to_infinity, rounds_to_zero. change (0 <=? 0) with true. cbv iota. change (10 ^ 0) with 1. lia.
Qed.

(** Whatever the environment and the file hold, the intervals and the limits of the relayer
    are finite and positive, and its contracts are trimmed names that are not empty. *)
Theorem config_bounds (root : string) (file : option string) (process_env : Env) (given_env : option Env) :
  let c := fst (loadConfig root file process_env given_env) in
  Forall finite_positive [pollIntervalMs c; maxAttempts c; retryBaseMs c; retryMaxBackoffMs c; workerTickMs c]
  /\ Forall (fun s => s <> "" /\ trim s = s) (sorobanContractIds c).
Proof.
  cbn [loadConfig fst]. generalize (default (loadDotEnv file process_env) given_env) as env. intros env. cbn [read_config pollIntervalMs maxAttempts retryBaseMs retryMaxBackoffMs workerTickMs sorobanContractIds].
  split; [repeat apply Forall_cons_2; try apply num_positive; try lia; constructor|]. apply Forall_forall. intros s Hs.
  apply list_elem_of_In, filter_In in Hs as [Hs Hb]. apply in_map_iff in Hs as (t & <- & _). split; [|apply trim_idem].
  intros E. rewrite E in Hb. discriminate.
Qed.

(** ** Examples *)

Definition demo_file : string :=
  ("# relayer" ++ String line_feed "RELAYER_POLL_INTERVAL_MS = 2000" ++ String line_feed "RELAYER_POLL_INTERVAL_MS=9" ++ String line_feed "=x"
   ++ String line_feed "RELAYER_STATE_DIR=" ++ String line_feed " RELAYER_SOROBAN_CONTRACT_IDS= CA, ,CB")%string.

Example demo_config :
  let c := fst (loadConfig "/repo" (Some demo_file) (<["RELAYER_MAX_ATTEMPTS" := "-3"]> (<["RELAYER_EVM_START_BLOCK" := "latest"]> ∅)) None) in
  (pollIntervalMs c, maxAttempts c, stateDir c, sorobanContractIds c, evmStartBlock c)
  = (Fin 2000 0, Fin 5 0, "/repo/relayer/.state", ["CA"; "CB"], Some NaN).
Proof. vm_compute. reflexivity. Qed.

(** Settings that are given apart do not see the file. *)
Example given_env_skips_file :
  pollIntervalMs (fst (loadConfig "/repo" (Some demo_file) ∅ (Some ∅))) = Fin 1500 0.
Proof. vm_compute. reflexivity. Qed.

Lemma dotenv_first_value_witness :
  or_empty (loadDotEnv (Some demo_file) ∅ !! "RELAYER_POLL_INTERVAL_MS") = first_value "RELAYER_POLL_INTERVAL_MS" (assignments demo_file).
Proof. rewrite (dotenv_first_value demo_file ∅ "RELAYER_POLL_INTERVAL_MS") by discriminate. reflexivity. Defined.
