(* ===== verification/EventGateway.v ===== *)
(** * EventGateway: scripts/soroban-event-gateway.mjs

    The gateway polls a node for the events of its contracts and sends them to the pages
    that are connected.  A step is a piece of code between two awaits; requests in the air,
    timers, clients and the node's answers come in any order.  Its events are those of the
    indexer of the pages, which is the other end of the socket. *)

From Stdlib Require Import Ascii String ZArith Lia Bool.
From stdpp Require Import base list gmap strings.
From S2P Require Import Prelude JsString JsonText KeyInbox SorobanIndexer.

Open Scope string_scope.
Open Scope list_scope.
Open Scope Z_scope.

(** ** Configuration *)

(** A number that [parseInt] gave; [None] is NaN. *)
Record Config : Type := mkConfig {
  SOROBAN_RPC_URL : string; SOROBAN_CONTRACT_IDS : list string; WS_PORT : option Z; POLL_INTERVAL_MS : option Z;
  MAX_RETRIES : option Z; INITIAL_BACKOFF_MS : option Z; MAX_BACKOFF_MS : option Z; BATCH_SIZE : option Z
}.

Definition read_config (env : string -> option string) : Config :=
  let int name d := parseInt 10 (or_else (env name) d) in
  mkConfig (or_else (env "SOROBAN_RPC_URL") "https://soroban-testnet.stellar.org")
    (List.filter (fun s => negb (blank s)) (split "," (or_else (env "SOROBAN_CONTRACT_IDS") "")))
    (int "WS_PORT" "8080") (int "POLL_INTERVAL_MS" "250") (int "MAX_RETRIES" "Infinity") (int "INITIAL_BACKOFF_MS" "500")
    (int "MAX_BACKOFF_MS" "30000") (int "BATCH_SIZE" "100").

(** [n >= m] and [n < m]; both are false of NaN. *)
Definition at_least (n : Z) (m : option Z) : bool := match m with Some m => m <=? n | None => false end.
Definition below (n : Z) (m : option Z) : bool := match m with Some m => n <? m | None => false end.

(** ** State *)

Record ContractState : Type := mkContractState { cursor : option string; failures : nat; lastPollTime : Z; eventsIndexed : nat }.

Inductive Message : Type := Connected (contracts : list string) (timestamp : Z) | Broadcast (event : IndexedSorobanEvent).

(** A socket: whether it is open, whether sending throws, and what it was sent. *)
Record Client : Type := mkClient { is_open : bool; broken : bool; inbox : list Message }.

Record Request : Type := mkRequest { r_contract : string; r_cursor : option string; r_limit : option Z }.

(** [asked]: the requests that were sent, in order. *)
Record Gateway : Type := mkGateway {
  contractStates : gmap string ContractState; clients : gmap nat Client;
  inflight : list Request; timers : list (string * option Z); asked : list Request
}.

Definition new_gateway (cfg : Config) : Gateway :=
  mkGateway (list_to_map (map (fun id => (id, mkContractState None 0 0 0)) (SOROBAN_CONTRACT_IDS cfg))) ∅ [] [] [].

Definition set_states (m : gmap string ContractState) (g : Gateway) : Gateway := mkGateway m (clients g) (inflight g) (timers g) (asked g).
Definition set_clients (m : gmap nat Client) (g : Gateway) : Gateway := mkGateway (contractStates g) m (inflight g) (timers g) (asked g).

Section Gateway.
Variable cfg : Config.

(** ** Operations *)

Definition calculateBackoff (failures : nat) : option Z :=
  if (failures =? 0)%nat then POLL_INTERVAL_MS cfg
  else match INITIAL_BACKOFF_MS cfg, MAX_BACKOFF_MS cfg with
       | Some a, Some b => Some (Z.min (a * 2 ^ Z.of_nat (Nat.min (failures - 1) 6)) b)
       | _, _ => None
       end.

(** [a || b] of texts that may be missing. *)
Definition first_given (a b : option string) : option string := match a with Some s => if blank s then b else Some s | None => b end.

Definition parseSorobanEvent (iso : string) (raw : RpcEvent) (contractId : string) : res (option IndexedSorobanEvent) :=
  let! rawTopics := match rpc_topic raw with
                    | NoTopics => Ok []
                    | Topics l => Ok (map js_String l)
                    | NotAnArray => Throw "map is not a function"
                    end in
  match topicFrom rawTopics, first_given (rpc_pagingToken raw) (rpc_id raw) with
  | Some topic, Some cursor =>
      if blank cursor then Ok None
      else Ok (Some (mkIndexed (default cursor (first_given (rpc_id raw) None)) cursor (default contractId (first_given (rpc_contractId raw) None))
                       (default 0 (rpc_ledger raw)) (default iso (first_given (rpc_closedAt raw) None)) topic rawTopics (rpc_value raw)))
  | _, _ => Ok None
  end.

Definition deliver_message (m : Message) (c : Client) : option Client :=
  if is_open c then if broken c then None else Some (mkClient true false (inbox c ++ [m])) else Some c.

Definition broadcastEvent (event : IndexedSorobanEvent) (g : Gateway) : Gateway := set_clients (omap (deliver_message (Broadcast event)) (clients g)) g.

Definition put_state (contractId : string) (f : ContractState -> ContractState) (g : Gateway) : Gateway :=
  set_states (alter f contractId (contractStates g)) g.

(** The loop over the events of an answer; what an event's topics throw leaves it. *)
Fixpoint index_events (iso contractId : string) (events : list RpcEvent) (g : Gateway) : res unit * Gateway :=
  match events with
  | [] => (Ok tt, g)
  | raw :: events =>
      match parseSorobanEvent iso raw contractId with
      | Throw e => (Throw e, g)
      | Ok None => index_events iso contractId events g
      | Ok (Some event) =>
          index_events iso contractId events
            (broadcastEvent event
               (put_state contractId (fun s => mkContractState (Some (ie_cursor event)) (failures s) (lastPollTime s) (S (eventsIndexed s))) g))
      end
  end.

(** [pollContract] up to the answer of its request. *)
Definition pollContract (now : Z) (contractId : string) (g : Gateway) : Gateway :=
  match contractStates g !! contractId with
  | None => g
  | Some state =>
      let r := mkRequest contractId (first_given (cursor state) None) (BATCH_SIZE cfg) in
      let g := put_state contractId (fun s => mkContractState (cursor s) (failures s) now (eventsIndexed s)) g in
      mkGateway (contractStates g) (clients g) (inflight g ++ [r]) (timers g) (asked g ++ [r])
  end.

Definition failures_of (contractId : string) (g : Gateway) : nat := default 0%nat (failures <$> contractStates g !! contractId).

Definition with_failures (n : nat) (s : ContractState) : ContractState := mkContractState (cursor s) n (lastPollTime s) (eventsIndexed s).

(** The rest of [pollContract], with the events or the failure of its request. *)
Definition answered (iso contractId : string) (answer : res (list RpcEvent)) (g : Gateway) : Gateway :=
  let '(outcome, g) := match answer with Throw e => (Throw e, g) | Ok events => index_events iso contractId events g end in
  let g := put_state contractId (fun s => with_failures (match outcome with Ok _ => 0%nat | Throw _ => S (failures s) end) s) g in
  let n := Z.of_nat (failures_of contractId g) in
  if match outcome with Ok _ => false | Throw _ => at_least n (MAX_RETRIES cfg) end then g
  else if below n (MAX_RETRIES cfg)
  then mkGateway (contractStates g) (clients g) (inflight g) (timers g ++ [(contractId, calculateBackoff (failures_of contractId g))]) (asked g)
  else g.

Definition startPolling (now : Z) (g : Gateway) : Gateway := fold_left (fun g id => pollContract now id g) (SOROBAN_CONTRACT_IDS cfg) g.

(** A new socket is open; its first message names the contracts. *)
Definition connected (id : nat) (now : Z) (g : Gateway) : Gateway :=
  set_clients (<[id := mkClient true false [Connected (map fst (map_to_list (contractStates g))) now]]> (clients g)) g.

(** ** Steps after the start *)

Inductive GStep : Type :=
| GTimer (i : nat) (now : Z)
| GAnswer (i : nat) (iso : string) (answer : res (list RpcEvent))
| GConnect (id : nat) (now : Z)
| GSocket (id : nat) (is_open broken : bool)
| GClose (id : nat).

Definition gstep (l : GStep) (g : Gateway) : option Gateway :=
  match l with
  | GTimer i now =>
      match timers g !! i with
      | Some (c, _) => Some (pollContract now c (mkGateway (contractStates g) (clients g) (inflight g) (delete i (timers g)) (asked g)))
      | None => None
      end
  | GAnswer i iso answer =>
      match inflight g !! i with
      | Some r => Some (answered iso (r_contract r) answer (mkGateway (contractStates g) (clients g) (delete i (inflight g)) (timers g) (asked g)))
      | None => None
      end
  | GConnect id now => match clients g !! id with None => Some (connected id now g) | Some _ => None end
  | GSocket id o b => Some (set_clients (alter (fun c => mkClient o b (inbox c)) id (clients g)) g)
  | GClose id => Some (set_clients (delete id (clients g)) g)
  end.

(** A gateway that has begun to poll at a time [t0]. *)
Inductive gateway_run (t0 : Z) : Gateway -> Prop :=
| gateway_begin : gateway_run t0 (startPolling t0 (new_gateway cfg))
| gateway_next g l g' : gateway_run t0 g -> gstep l g = Some g' -> gateway_run t0 g'.
End Gateway.

(** ** Frames *)
Section Frames.
Variable cfg : Config.

(** What a loop over events leaves: requests, timers, and which contracts there are. *)
Definition same_frame (g g' : Gateway) : Prop :=
  inflight g' = inflight g /\ timers g' = timers g /\ asked g' = asked g
  /\ (forall c, is_Some (contractStates g' !! c) <-> is_Some (contractStates g !! c))
  /\ (forall c, failures_of c g' = failures_of c g).

Lemma same_frame_refl (g : Gateway) : same_frame g g.
Proof. by repeat split. Qed.

Lemma same_frame_trans (a b c : Gateway) : same_frame a b -> same_frame b c -> same_frame a c.
Proof.
  intros (H1 & H2 & H3 & H4 & H5) (K1 & K2 & K3 & K4 & K5). unfold same_frame. rewrite K1, K2, K3. split; [done|]. split; [done|]. split; [done|].
  split; intros d; [by rewrite K4|by rewrite K5].
Qed.

Lemma put_some (c d : string) (f : ContractState -> ContractState) (g : Gateway) :
  is_Some (contractStates (put_state c f g) !! d) <-> is_Some (contractStates g !! d).
Proof. unfold put_state, set_states. cbn. by rewrite lookup_alter_is_Some. Qed.

Lemma put_failures (c d : string) (f : ContractState -> ContractState) (g : Gateway) :
  (forall s, failures (f s) = failures s) -> failures_of d (put_state c f g) = failures_of d g.
Proof.
  intros H. unfold failures_of, put_state, set_states. cbn. destruct (decide (c = d)) as [->|Hn]; [|by rewrite lookup_alter_ne].
  rewrite lookup_alter_eq. destruct (contractStates g !! d); [cbn; by rewrite H|done].
Qed.

Lemma index_events_frame (iso c : string) (events : list RpcEvent) (g : Gateway) : same_frame g (index_events iso c events g).2.
Proof.
  revert g. induction events as [|raw events IH]; intros g; cbn [index_events]; [apply same_frame_refl|].
  destruct (parseSorobanEvent iso raw c) as [[event|]|e]; [|apply IH|apply same_frame_refl].
  eapply same_frame_trans; [|apply IH]. split; [done|]. split; [done|]. split; [done|]. split; intros d.
  - apply (put_some c d _ g).
  - by apply (put_failures c d _ g).
Qed.

(** The rest of a poll: the contract's failures, and a timer unless they are too many. *)
Lemma answer_frame (iso c : string) (answer : res (list RpcEvent)) (g : Gateway) : exists again,
  inflight (answered cfg iso c answer g) = inflight g /\ asked (answered cfg iso c answer g) = asked g
  /\ timers (answered cfg iso c answer g) = timers g ++ again
  /\ again = (if below (Z.of_nat (failures_of c (answered cfg iso c answer g))) (MAX_RETRIES cfg)
              then [(c, calculateBackoff cfg (failures_of c (answered cfg iso c answer g)))] else [])
  /\ (forall d, is_Some (contractStates (answered cfg iso c answer g) !! d) <-> is_Some (contractStates g !! d))
  /\ (forall d, d <> c -> failures_of d (answered cfg iso c answer g) = failures_of d g).
Proof.
  set (r := match answer with Throw e => (Throw e, g) | Ok events => index_events iso c events g end).
  assert (F : same_frame g r.2) by (unfold r; destruct answer; [apply index_events_frame|apply same_frame_refl]).
  unfold answered. fold r. destruct r as [o g0]. cbn in F. destruct F as (F1 & F2 & F3 & F4 & F5).
  set (g1 := put_state c _ g0). assert (G : inflight g1 = inflight g /\ asked g1 = asked g /\ timers g1 = timers g
    /\ (forall d, is_Some (contractStates g1 !! d) <-> is_Some (contractStates g !! d)) /\ (forall d, d <> c -> failures_of d g1 = failures_of d g)).
  { do 3 (split; [done|]). split; intros d; [unfold g1; by rewrite put_some, F4|]. intros Hd. rewrite <- (F5 d). unfold failures_of, g1, put_state, set_states. cbn.
    by rewrite lookup_alter_ne. }
  clearbody g1. destruct G as (G1 & G2 & G3 & G4 & G5).
  assert (Hb : (if match o with Ok _ => false | Throw _ => at_least (Z.of_nat (failures_of c g1)) (MAX_RETRIES cfg) end then true else false) = true ->
    below (Z.of_nat (failures_of c g1)) (MAX_RETRIES cfg) = false).
  { unfold at_least, below. destruct o, (MAX_RETRIES cfg); try done. intros H. apply Z.ltb_ge. destruct (Z.leb_spec z (Z.of_nat (failures_of c g1))); [done|discriminate]. }
  destruct (match o with Ok _ => false | Throw _ => _ end).
  - exists []. rewrite (Hb eq_refl), app_nil_r. done.
  - destruct (below (Z.of_nat (failures_of c g1)) (MAX_RETRIES cfg)) eqn:E.
    + exists [(c, calculateBackoff cfg (failures_of c g1))]. unfold failures_of in *. cbn. rewrite E, G3. done.
    + exists []. rewrite E, app_nil_r. done.
Qed.

(** ** One poll for a contract *)

Lemma poll_known (now : Z) (c : string) (s : ContractState) (g : Gateway) : contractStates g !! c = Some s ->
  let r := mkRequest c (first_given (cursor s) None) (BATCH_SIZE cfg) in
  inflight (pollContract cfg now c g) = inflight g ++ [r] /\ asked (pollContract cfg now c g) = asked g ++ [r]
  /\ timers (pollContract cfg now c g) = timers g
  /\ (forall d s', contractStates g !! d = Some s' -> exists s'', contractStates (pollContract cfg now c g) !! d = Some s'' /\ cursor s'' = cursor s' /\ failures s'' = failures s').
Proof.
  intros H r. unfold pollContract. rewrite H. do 3 (split; [done|]). intros d s' Hd. cbn. destruct (decide (c = d)) as [->|Hn].
  - rewrite lookup_alter_eq, Hd. by eexists.
  - rewrite lookup_alter_ne by done. by eexists.
Qed.

Definition first_request (c : string) : Request := mkRequest c None (BATCH_SIZE cfg).

(** Polling begins with one request for each configured contract. *)
Lemma start_polls (now : Z) (ids : list string) (g : Gateway) :
  (forall c, c ∈ ids -> exists s, contractStates g !! c = Some s /\ cursor s = None) ->
  let g' := fold_left (fun g id => pollContract cfg now id g) ids g in
  inflight g' = inflight g ++ map first_request ids /\ asked g' = asked g ++ map first_request ids /\ timers g' = timers g
  /\ forall d s', contractStates g !! d = Some s' -> exists s'', contractStates g' !! d = Some s'' /\ cursor s'' = cursor s' /\ failures s'' = failures s'.
Proof.
  revert g. induction ids as [|c ids IH]; intros g H; cbn [fold_left map]; cbv zeta.
  { rewrite !app_nil_r. repeat split. intros d s' Hd. by exists s'. }
  destruct (H c ltac:(by left)) as (s & Hs & Hc). destruct (poll_known now c s g Hs) as (P1 & P2 & P3 & P4). rewrite Hc in P1, P2.
  destruct (IH (pollContract cfg now c g)) as (I1 & I2 & I3 & I4).
  { intros d Hd. destruct (H d ltac:(by right)) as (sd & Hsd & Hcd). destruct (P4 d sd Hsd) as (s'' & ? & E & _). exists s''. by rewrite E. }
  rewrite I1, I2, I3, P1, P2, P3, <- !app_assoc. split; [done|]. split; [done|]. split; [done|]. intros d s' Hd.
  destruct (P4 d s' Hd) as (s1 & H1 & E1 & F1). destruct (I4 d s1 H1) as (s2 & H2 & E2 & F2). exists s2. by rewrite E2, F2.
Qed.

Lemma new_state (c : string) : c ∈ SOROBAN_CONTRACT_IDS cfg -> contractStates (new_gateway cfg) !! c = Some (mkContractState None 0 0 0).
Proof.
  intros Hc. unfold new_gateway. cbn. set (l := map _ _). destruct (list_to_map l !! c) as [s|] eqn:E.
  - apply elem_of_list_to_map_2, list_elem_of_fmap in E as (x & [= -> ->] & _). done.
  - apply not_elem_of_list_to_map_2 in E. destruct E. unfold l. rewrite map_map, map_id. exact Hc.
Qed.

Lemma begun (t0 : Z) : let g := startPolling cfg t0 (new_gateway cfg) in
  inflight g = map first_request (SOROBAN_CONTRACT_IDS cfg) /\ asked g = map first_request (SOROBAN_CONTRACT_IDS cfg) /\ timers g = []
  /\ forall c, c ∈ SOROBAN_CONTRACT_IDS cfg -> is_Some (contractStates g !! c).
Proof.
  destruct (start_polls t0 (SOROBAN_CONTRACT_IDS cfg) (new_gateway cfg)) as (H1 & H2 & H3 & H4).
  - intros c Hc. rewrite (new_state c Hc). by eexists.
  - do 3 (split; [done|]). intros c Hc. destruct (H4 c _ (new_state c Hc)) as (s & Hs & _). by exists s.
Qed.

(** C33: Without a number of retries, which is how the gateway is shipped, no further poll is
    scheduled: each contract is asked about once, when the gateway starts. *)
Theorem unlimited_retries_poll_once (t0 : Z) (g : Gateway) (HN : MAX_RETRIES cfg = None) (H : gateway_run cfg t0 g) :
  asked g = map first_request (SOROBAN_CONTRACT_IDS cfg) /\ timers g = [].
Proof.
  induction H as [|g l g' _ [IA IT] Hl]; [destruct (begun t0) as (_ & ? & ? & _); done|]. destruct l; cbn in Hl.
  - by rewrite IT in Hl.
  - destruct (inflight g !! i) as [r|]; [|done]. injection Hl as <-.
    destruct (answer_frame iso (r_contract r) answer (mkGateway (contractStates g) (clients g) (delete i (inflight g)) (timers g) (asked g))) as (again & _ & -> & -> & Ha & _).
    rewrite HN in Ha. cbn in Ha. by rewrite Ha, app_nil_r.
  - destruct (clients g !! id); [done|]. by injection Hl as <-.
  - by injection Hl as <-.
  - by injection Hl as <-.
Qed.

(** ** A loop for each contract *)

Definition waiting (c : string) (g : Gateway) : nat :=
  length (List.filter (String.eqb c) (map r_contract (inflight g))) + length (List.filter (String.eqb c) (map fst (timers g))).

Lemma filter_delete {A : Type} (f : A -> string) (c : string) (l : list A) (i : nat) (x : A) : l !! i = Some x ->
  (length (List.filter (String.eqb c) (map f (delete i l))) + (if String.eqb c (f x) then 1 else 0)
   = length (List.filter (String.eqb c) (map f l)))%nat.
Proof.
  revert i. induction l as [|y l IH]; intros [|i] H; try done.
  - injection H as ->. change (delete 0%nat (x :: l)) with l. cbn. destruct (String.eqb c (f x)); cbn; lia.
  - change (delete (S i) (y :: l)) with (y :: delete i l). specialize (IH i H). cbn [map List.filter] in *.
    destruct (String.eqb c (f y)); cbn [length]; lia.
Qed.

Lemma filter_once (c : string) (l : list string) : NoDup l -> c ∈ l -> length (List.filter (String.eqb c) l) = 1%nat.
Proof.
  induction 1 as [|x l Hx Hn IH]; [by intros ?%elem_of_nil|]. intros Hc. cbn. destruct (String.eqb_spec c x) as [->|Hne].
  - cbn. f_equal. clear IH Hc Hn. induction l as [|y l IH]; [done|]. apply not_elem_of_cons in Hx as [Hy Hl]. cbn.
    destruct (String.eqb_spec x y); [done|]. by apply IH.
  - apply elem_of_cons in Hc as [?|Hc]; [done|]. by apply IH.
Qed.

(** A contract is polled by one loop, which ends only after the configured number of
    failures in a row. *)
Theorem one_loop_per_contract (t0 : Z) (n : Z) (g : Gateway) (c : string) (HN : MAX_RETRIES cfg = Some n) (Hd : NoDup (SOROBAN_CONTRACT_IDS cfg))
    (Hc : c ∈ SOROBAN_CONTRACT_IDS cfg) (H : gateway_run cfg t0 g) :
  (waiting c g <= 1)%nat /\ (waiting c g = 0%nat -> n <= Z.of_nat (failures_of c g)).
Proof.
  enough (is_Some (contractStates g !! c) /\ (waiting c g <= 1)%nat /\ (waiting c g = 0%nat -> n <= Z.of_nat (failures_of c g))) by tauto.
  induction H as [|g l g' _ (IS & I1 & I2) Hl].
  { destruct (begun t0) as (E & _ & ET & HS). split; [by apply HS|]. unfold waiting. rewrite E, ET, map_map. cbn [first_request r_contract map List.filter].
    rewrite map_id, filter_once by done. cbn. split; [lia|]. intros ?. lia. }
  destruct l; cbn in Hl.
  - destruct (timers g !! i) as [[d p]|] eqn:Hi; [|done]. injection Hl as <-. pose proof (filter_delete fst c (timers g) i (d, p) Hi) as Hf. cbn in Hf.
    set (g0 := mkGateway _ _ _ _ _). destruct (contractStates g !! d) as [s|] eqn:Hs.
    + destruct (poll_known now d s g0 Hs) as (P1 & _ & P3 & P4). destruct IS as [sc Hsc]. destruct (P4 c sc Hsc) as (s2 & Hs2 & _ & F2). split; [by exists s2|].
      unfold waiting, failures_of in *. rewrite P1, P3, Hs2. rewrite Hsc in I2. cbn in *. rewrite map_app, List.filter_app, length_app. cbn. rewrite F2.
      destruct (String.eqb c d); cbn in *; split; try lia; intros ?; apply I2; lia.
    + assert (c <> d) by (intros ->; rewrite Hs in IS; by destruct IS). unfold pollContract. cbn. rewrite Hs. split; [done|]. unfold waiting, failures_of in *. cbn in *.
      destruct (String.eqb_spec c d); [done|]. split; [lia|]. intros ?. apply I2. lia.
  - destruct (inflight g !! i) as [r|] eqn:Hi; [|done]. injection Hl as <-. pose proof (filter_delete r_contract c (inflight g) i r Hi) as Hf.
    set (g0 := mkGateway _ _ _ _ _). destruct (answer_frame iso (r_contract r) answer g0) as (again & E1 & _ & E3 & Ha & ES & EF).
    split; [by apply ES|]. unfold waiting in *. rewrite E1, E3, map_app, List.filter_app, length_app, Ha, HN. cbn [inflight timers g0] in *. unfold below.
    destruct (String.eqb_spec c (r_contract r)) as [->|Hne].
    + destruct (Z.ltb_spec (Z.of_nat (failures_of (r_contract r) (answered cfg iso (r_contract r) answer g0))) n); cbn; rewrite ?String.eqb_refl; cbn; split; lia.
    + rewrite (EF c Hne). change (failures_of c g0) with (failures_of c g).
      destruct (_ <? n); cbn; rewrite ?(proj2 (String.eqb_neq _ _) Hne); cbn; split; try lia; intros ?; apply I2; lia.
  - destruct (clients g !! id); [done|]. by injection Hl as <-.
  - by injection Hl as <-.
  - by injection Hl as <-.
Qed.

(** ** What the pages get *)

Definition parsed (iso c : string) (raw : RpcEvent) : option IndexedSorobanEvent :=
  match parseSorobanEvent iso raw c with Ok e => e | Throw _ => None end.

Lemma index_events_inbox (iso c : string) (events : list RpcEvent) (g g' : Gateway) (id : nat) (l : list Message) :
  index_events iso c events g = (Ok tt, g') -> clients g !! id = Some (mkClient true false l) ->
  clients g' !! id = Some (mkClient true false (l ++ map Broadcast (omap (parsed iso c) events))).
Proof.
  revert g l. induction events as [|raw events IH]; intros g l; cbn [index_events].
  - intros [= <-] Hc. by rewrite app_nil_r.
  - intros H Hc. cbn [omap list_omap]. unfold parsed at 1. destruct (parseSorobanEvent iso raw c) as [[event|]|e]; [| |done].
    + rewrite (IH _ (l ++ [Broadcast event]) H); [by rewrite <- app_assoc|]. unfold broadcastEvent, set_clients. cbn. by rewrite lookup_omap, Hc.
    + by apply (IH g l).
Qed.

(** An answer reaches an open page whole: its events of known topics, in the node's order. *)
Theorem answer_reaches_pages (iso c : string) (events : list RpcEvent) (g : Gateway) (id : nat) (l : list Message)
    (Ht : Forall (fun raw => rpc_topic raw <> NotAnArray) events) (Hc : clients g !! id = Some (mkClient true false l)) :
  clients (answered cfg iso c (Ok events) g) !! id = Some (mkClient true false (l ++ map Broadcast (omap (parsed iso c) events))).
Proof.
  assert (Hi : forall g, exists g', index_events iso c events g = (Ok tt, g')).
  { clear Hc g. induction Ht as [|raw events Hr _ IH]; intros g; cbn [index_events]; [by exists g|]. unfold parseSorobanEvent.
    destruct (rpc_topic raw); [| |done]; cbn [res_bind]; (destruct (topicFrom _); [|apply IH]; destruct (first_given (rpc_pagingToken raw) (rpc_id raw)) as [cursor|]; [|apply IH]; destruct (blank cursor); apply IH). }
  destruct (Hi g) as [g' E]. pose proof (index_events_inbox iso c events g g' id l E Hc) as HI. unfold answered. rewrite E. cbv zeta.
  destruct (below _ _); exact HI.
Qed.

Lemma stalled_events (iso c : string) (events : list RpcEvent) (g : Gateway) :
  Forall (fun raw => parseSorobanEvent iso raw c = Ok None) events -> index_events iso c events g = (Ok tt, g).
Proof. induction 1 as [|raw events Hr _ IH]; [done|]. cbn [index_events]. by rewrite Hr. Qed.

(** A page of the node without an event of a known topic leaves the contract's cursor, so the
    next poll asks for the same page. *)
Theorem page_without_topic_stalls (iso c : string) (events : list RpcEvent) (g : Gateway)
    (H : Forall (fun raw => parseSorobanEvent iso raw c = Ok None) events) :
  cursor <$> contractStates (answered cfg iso c (Ok events) g) !! c = cursor <$> contractStates g !! c
  /\ clients (answered cfg iso c (Ok events) g) = clients g.
Proof.
  unfold answered. rewrite (stalled_events iso c events g H). cbv zeta. set (g1 := put_state c _ g).
  assert (E : cursor <$> contractStates g1 !! c = cursor <$> contractStates g !! c).
  { unfold g1, put_state, set_states. cbn. rewrite lookup_alter_eq. by destruct (contractStates g !! c). }
  by destruct (below _ _).
Qed.

(** The JSON of a message, as the page's indexer reads it. *)
Definition as_read (m : Message) : RpcEvent :=
  match m with
  | Broadcast event => forwarded event
  | Connected _ _ => mkRpc None None None None None NoTopics None
  end.

(** Nothing the gateway sends is indexed by a page: the topic it sends is a text, which the
    page's indexer takes for an array. *)
Lemma gateway_messages_dropped (m : Message) (committed : bool) (iso : string) (x : Indexer) : relay_message committed iso (as_read m) x = x.
Proof. by destruct m. Qed.
End Frames.

(** ** Examples *)

Definition no_env (name : string) : option string := None.
Definition one_contract (name : string) : option string := if String.eqb name "SOROBAN_CONTRACT_IDS" then Some "C1,,C2" else None.
Definition with_retries (name : string) : option string := if String.eqb name "MAX_RETRIES" then Some "3" else one_contract name.

Example default_retries : MAX_RETRIES (read_config no_env) = None /\ SOROBAN_CONTRACT_IDS (read_config one_contract) = ["C1"; "C2"].
Proof. split; reflexivity. Qed.

Definition vault_event : RpcEvent := mkRpc (Some "7") None None (Some 12) (Some "t") (Topics [JStr "VaultCreated"]) None.

Lemma unlimited_retries_poll_once_witness :
  exists g, gateway_run (read_config one_contract) 5 g /\ asked g = [mkRequest "C1" None (Some 100); mkRequest "C2" None (Some 100)] /\ timers g = []
    /\ inflight g = [mkRequest "C2" None (Some 100)].
Proof.
  pose proof (gateway_next _ 5 _ (GAnswer 0 "t" (Ok [vault_event])) _ (gateway_begin (read_config one_contract) 5) eq_refl) as H.
  destruct (unlimited_retries_poll_once (read_config one_contract) 5 _ eq_refl H) as [E1 E2].
  eexists. split; [exact H|]. split; [exact E1|]. split; [exact E2|]. reflexivity.
Defined.

Lemma one_loop_per_contract_witness : exists g, gateway_run (read_config with_retries) 5 g /\ (waiting "C1" g <= 1)%nat.
Proof.
  pose proof (gateway_next _ 5 _ (GAnswer 0 "t" (Throw "refused")) _ (gateway_begin (read_config with_retries) 5) eq_refl) as H.
  destruct (one_loop_per_contract (read_config with_retries) 5 3 _ "C1" eq_refl
    (NoDup_cons_2 "C1" ["C2"] ltac:(by intros [[=]|?%elem_of_nil]%elem_of_cons) (NoDup_singleton "C2")) ltac:(by left) H) as [E _].
  eexists. split; [exact H|exact E].
Defined.

Definition demo_gateway : Gateway := connected 0 6 (startPolling (read_config one_contract) 5 (new_gateway (read_config one_contract))).

Lemma answer_reaches_pages_witness : exists l,
  clients (answered (read_config one_contract) "t" "C1" (Ok [vault_event]) demo_gateway) !! 0%nat
  = Some (mkClient true false (l ++ map Broadcast (omap (parsed "t" "C1") [vault_event]))).
Proof.
  eexists. apply (answer_reaches_pages (read_config one_contract) "t" "C1" [vault_event] demo_gateway 0); [by repeat constructor|reflexivity].
Defined.

Definition transfer_event : RpcEvent := mkRpc (Some "8") None None (Some 13) (Some "t") (Topics [JStr "Transfer"]) None.

Lemma page_without_topic_stalls_witness :
  cursor <$> contractStates (answered (read_config one_contract) "t" "C1" (Ok [transfer_event]) demo_gateway) !! "C1"
  = cursor <$> contractStates demo_gateway !! "C1"
  /\ clients (answered (read_config one_contract) "t" "C1" (Ok [transfer_event]) demo_gateway) = clients demo_gateway.
Proof. apply (page_without_topic_stalls (read_config one_contract) "t" "C1" [transfer_event]). by repeat constructor. Defined.
