(* ===== verification/StellarLedger.v ===== *)
(** * StellarLedger: the vaults, documents and requests of stellar.service.ts

    Every operation goes to the Soroban contract when one is configured; otherwise it
    works on a ledger kept in the storage of the browser.  The ledger is a record with a
    field for each storage key; storage that throws is in KeyStore.  The
    calls and queries of the contract are arguments (StellarSdk models how they are sent),
    and so are the time in milliseconds and the random draw. *)

From Stdlib Require Import Ascii String ZArith Lia Bool.
From stdpp Require Import base list gmap strings.
From S2P Require Import Prelude JsString Hex JsonText JsNumber KeyInbox.

Open Scope list_scope.
Open Scope Z_scope.

(** ** Data *)

(** Native values that go to a contract or come back from it. *)
#[warnings="-register-all"] Inductive ScVal : Type :=
| SvNull
| SvBool (b : bool)
| SvNum (n : Z)
| SvStr (s : string)
| SvBytes (l : list Z)
| SvList (l : list ScVal)
| SvMap (l : list (string * ScVal)).

Record MockVault : Type := mkVault {
  v_id : Z; v_creator : string; v_name : string; v_description : string; v_guardians : list string;
  v_approvalThreshold : Z; v_isActive : bool; v_createdAt : Z
}.

Record MockDocument : Type := mkDocument {
  d_id : Z; d_vaultId : Z; d_encryptedMetadata : string; d_ipfsHash : string; d_uploadedBy : string;
  d_uploadedAt : Z; d_requiredAccess : Z; d_releaseCondition : Z; d_shares : gmap string string
}.

Record MockRequest : Type := mkRequest {
  r_requestId : Z; r_documentId : Z; r_requester : string; r_approvedBy : list string; r_status : Z;
  r_expiresAt : Z; r_createdAt : Z; r_beneficiaryShares : gmap string string
}.

Record MockInvite : Type := mkInvite { i_guardian : string; i_vaultId : Z; i_accepted : bool; i_expiresAt : Z }.

Record MockToken : Type := mkToken { t_tokenId : Z; t_owner : string; t_vaultId : Z; t_tokenURI : string; t_mintedAt : Z }.

Record BlsKey : Type := mkBlsKey { b_publicKey : string; b_proofOfPossession : string; b_registered : bool }.

Record MockEmergencyUnlock : Type := mkUnlock {
  emergencyMode : bool; cycle : Z; requestedAt : Z; requested : bool; fulfilled : bool; unlockAt : Z; unlockBlock : Z
}.

Record MockKeeperAuthorization : Type := mkKeeper { keeper : string; k_expiresAt : Z }.

Record StellarPendingApprovalData : Type := mkPending {
  p_requestId : Z; p_documentId : Z; p_vaultId : Z; p_vaultName : string; p_requester : string;
  p_createdAt : Z; p_expiresAt : Z
}.

Record Ledger : Type := mkLedger {
  vaults : list MockVault; documents : list MockDocument; requests : list MockRequest; invites : list MockInvite;
  tokens : list MockToken; bls_keys : gmap string BlsKey; public_keys : gmap string string;
  emergency_unlocks : gmap Z MockEmergencyUnlock; keeper_authorizations : gmap Z MockKeeperAuthorization;
  cross_evm_to_stellar : gmap string string; cross_stellar_to_evm : gmap string string; cross_evm_to_pubkey : gmap string string
}.

Definition empty_ledger : Ledger := mkLedger [] [] [] [] [] ∅ ∅ ∅ ∅ ∅ ∅ ∅.

(** The variables of the module: the wallet that is connected, its network and the contract. *)
Record Session : Type := mkSession {
  activeAccount : option string; activeNetwork : string; contractId : string; ledger : Ledger
}.

Definition set_ledger (s : Session) (l : Ledger) : Session := mkSession (activeAccount s) (activeNetwork s) (contractId s) l.

Definition set_vaults (l : Ledger) x : Ledger :=
  mkLedger x (documents l) (requests l) (invites l) (tokens l) (bls_keys l) (public_keys l) (emergency_unlocks l)
    (keeper_authorizations l) (cross_evm_to_stellar l) (cross_stellar_to_evm l) (cross_evm_to_pubkey l).
Definition set_documents (l : Ledger) x : Ledger :=
  mkLedger (vaults l) x (requests l) (invites l) (tokens l) (bls_keys l) (public_keys l) (emergency_unlocks l)
    (keeper_authorizations l) (cross_evm_to_stellar l) (cross_stellar_to_evm l) (cross_evm_to_pubkey l).
Definition set_requests (l : Ledger) x : Ledger :=
  mkLedger (vaults l) (documents l) x (invites l) (tokens l) (bls_keys l) (public_keys l) (emergency_unlocks l)
    (keeper_authorizations l) (cross_evm_to_stellar l) (cross_stellar_to_evm l) (cross_evm_to_pubkey l).
Definition set_invites (l : Ledger) x : Ledger :=
  mkLedger (vaults l) (documents l) (requests l) x (tokens l) (bls_keys l) (public_keys l) (emergency_unlocks l)
    (keeper_authorizations l) (cross_evm_to_stellar l) (cross_stellar_to_evm l) (cross_evm_to_pubkey l).
Definition set_tokens (l : Ledger) x : Ledger :=
  mkLedger (vaults l) (documents l) (requests l) (invites l) x (bls_keys l) (public_keys l) (emergency_unlocks l)
    (keeper_authorizations l) (cross_evm_to_stellar l) (cross_stellar_to_evm l) (cross_evm_to_pubkey l).
Definition set_bls_keys (l : Ledger) x : Ledger :=
  mkLedger (vaults l) (documents l) (requests l) (invites l) (tokens l) x (public_keys l) (emergency_unlocks l)
    (keeper_authorizations l) (cross_evm_to_stellar l) (cross_stellar_to_evm l) (cross_evm_to_pubkey l).
Definition set_public_keys (l : Ledger) x : Ledger :=
  mkLedger (vaults l) (documents l) (requests l) (invites l) (tokens l) (bls_keys l) x (emergency_unlocks l)
    (keeper_authorizations l) (cross_evm_to_stellar l) (cross_stellar_to_evm l) (cross_evm_to_pubkey l).
Definition set_emergency (l : Ledger) x : Ledger :=
  mkLedger (vaults l) (documents l) (requests l) (invites l) (tokens l) (bls_keys l) (public_keys l) x
    (keeper_authorizations l) (cross_evm_to_stellar l) (cross_stellar_to_evm l) (cross_evm_to_pubkey l).
Definition set_keepers (l : Ledger) x : Ledger :=
  mkLedger (vaults l) (documents l) (requests l) (invites l) (tokens l) (bls_keys l) (public_keys l) (emergency_unlocks l)
    x (cross_evm_to_stellar l) (cross_stellar_to_evm l) (cross_evm_to_pubkey l).
Definition set_cross (l : Ledger) e2s s2e e2p : Ledger :=
  mkLedger (vaults l) (documents l) (requests l) (invites l) (tokens l) (bls_keys l) (public_keys l) (emergency_unlocks l)
    (keeper_authorizations l) e2s s2e e2p.

(** ** Conversions of contract values *)

(** [Number(v)] *)
Definition Number_sc (v : ScVal) : number :=
  match v with
  | SvNull => Fin 0 0
  | SvBool b => Fin (if b then 1 else 0) 0
  | SvNum n => Fin n 0
  | SvStr s => Number_str s
  | _ => NaN
  end.

(** [Boolean(v)] *)
Definition sc_truthy (v : ScVal) : bool :=
  match v with
  | SvNull => false
  | SvBool b => b
  | SvNum n => negb (n =? 0)
  | SvStr s => negb (blank s)
  | _ => true
  end.

Fixpoint sc_find (k : string) (l : list (string * ScVal)) : ScVal :=
  match l with
  | [] => SvNull
  | (k', v) :: l' => if String.eqb k' k then v else sc_find k l'
  end.

(** [v.k], where undefined and null are told apart by nothing here *)
Definition sc_field (k : string) (v : ScVal) : ScVal := match v with SvMap l => sc_find k l | _ => SvNull end.
Definition sc_index (i : nat) (v : ScVal) : ScVal := match v with SvList l => nth i l SvNull | _ => SvNull end.
(** [v ?? d] *)
Definition sc_or (v d : ScVal) : ScVal := match v with SvNull => d | _ => v end.
Definition sc_str (s : string) : ScVal := SvStr s.
Definition sc_text (v : ScVal) : string :=
  match v with SvStr s => s | SvNum n => num_str n | SvBool true => "true" | SvBool false => "false" | SvNull => "undefined"
  | SvBytes _ | SvList _ | SvMap _ => "[object Object]" end%string.

(** [hexToBytes]: two characters a byte, by [parseInt]; what does not parse is stored as 0. *)
Definition strip_0x (hex : string) : string :=
  match hex with String "0" (String "x" t) | String "0" (String "X" t) => t | _ => hex end.

Definition hexToBytes (hex : string) : res (list Z) :=
  let clean := strip_0x hex in
  if Nat.odd (String.length clean) then Throw "Invalid hex string"%string else Ok (hex_bytes clean).

(** ** Loops of the operations *)

Definition same_address (a b : string) : bool := String.eqb (toLowerCase a) (toLowerCase b).
Definition includes_str (l : list string) (a : string) : bool := existsb (String.eqb a) l.

Definition seconds (now : Z) : Z := now / 1000.

(** The invites of a new vault, in the order of its guardians. *)
Fixpoint new_invites (creator : string) (vault now : Z) (guardians : list string) : list MockInvite :=
  match guardians with
  | [] => []
  | g :: gs =>
      if same_address g creator then new_invites creator vault now gs
      else mkInvite (trim g) vault false (seconds now + 7 * 24 * 60 * 60) :: new_invites creator vault now gs
  end.

(** [sharesMap[guardian] = shares[idx]]: a missing share is undefined, which JSON drops. *)
Fixpoint shares_map (guardians shares : list string) (m : gmap string string) : gmap string string :=
  match guardians with
  | [] => m
  | g :: gs =>
      match shares with
      | [] => shares_map gs [] (delete g m)
      | x :: xs => shares_map gs xs (<[g := x]> m)
      end
  end.

(** [findIndex] and the update of the element found. *)
Fixpoint find_index {A : Type} (p : A -> bool) (l : list A) : option nat :=
  match l with
  | [] => None
  | x :: l' => if p x then Some O else option_map S (find_index p l')
  end.

Definition find_vault (l : Ledger) (id : Z) : option MockVault := List.find (fun v => v_id v =? id) (vaults l).
Definition find_document (l : Ledger) (id : Z) : option MockDocument := List.find (fun d => d_id d =? id) (documents l).

(** The status after an approval: approved once the vault of the document has its threshold. *)
Definition approval_status (l : Ledger) (docId : Z) (approvals : list string) (status : Z) : Z :=
  match find_document l docId with
  | Some doc =>
      match find_vault l (d_vaultId doc) with
      | Some vault => if v_approvalThreshold vault <=? Z.of_nat (length approvals) then 1 else status
      | None => status
      end
  | None => status
  end.

(** The loop of [approveAccessBLS] over the guardians and their shares. *)
Fixpoint bls_approve (guardians shares approved : list string) (m : gmap string string) : list string * gmap string string :=
  match guardians with
  | [] => (approved, m)
  | g :: gs =>
      let approved' := if includes_str approved g then approved else approved ++ [g] in
      let m' := match shares with x :: _ => if blank x then m else <[g := x]> m | [] => m end in
      bls_approve gs (tl shares) approved' m'
  end.

(** The loop of [fetchPendingApprovalsForGuardian]. *)
Definition pending_for (l : Ledger) (guardian : string) (r : MockRequest) : option StellarPendingApprovalData :=
  if negb (r_status r =? 0) then None
  else if existsb (fun a => same_address a guardian) (r_approvedBy r) then None
  else match find_document l (r_documentId r) with
       | None => None
       | Some doc =>
           match find_vault l (d_vaultId doc) with
           | None => None
           | Some vault =>
               if existsb (fun g => same_address g guardian) (v_guardians vault)
               then Some (mkPending (r_requestId r) (r_documentId r) (v_id vault) (v_name vault) (r_requester r)
                            (r_createdAt r) (r_expiresAt r))
               else None
           end
       end.

(** ** Operations *)

Section Service.
Variables (env_contract : option string).
(** The contract's answer to a call that changes it, and to a query. *)
Variables (executeSorobanCall executeSorobanQuery : Session -> string -> list ScVal -> res ScVal).

Definition getContractId (s : Session) : string := or_else env_contract (contractId s).
Definition isConfigured (s : Session) : bool := negb (blank (getContractId s)).

Definition initialize (customContractId : option string) (connected : bool) (address : string) (s : Session)
    : option string * Session :=
  let cid := match customContractId with Some c => if blank c then or_empty env_contract else c | None => or_empty env_contract end in
  if connected then
    let account := if blank address then None else Some address in
    (account, mkSession account (activeNetwork s) cid (ledger s))
  else (None, mkSession (activeAccount s) (activeNetwork s) cid (ledger s)).

Definition clear (s : Session) : Session := mkSession None "" (contractId s) (ledger s).

Definition connectWallet (connected : bool) (address : string) : io Session string :=
  if negb connected then throw "Freighter wallet extension is not installed or enabled"
  else if blank address then throw "Failed to get address from Freighter wallet"
  else fun s => (Ok address, mkSession (Some address) (activeNetwork s) (contractId s) (ledger s)).

(** [if (!activeAccount) throw ...] *)
Definition with_account {A : Type} (k : string -> io Session A) : io Session A :=
  fun s => match activeAccount s with
           | Some a => if blank a then throw "Wallet not connected" s else k a s
           | None => throw "Wallet not connected" s
           end.

(** The contract when it is configured, the ledger otherwise. *)
Definition either {A : Type} (chain local : io Session A) : io Session A :=
  fun s => if isConfigured s then chain s else local s.

Definition invoke (name : string) (args : list ScVal) : io Session ScVal := fun s => (executeSorobanCall s name args, s).
Definition query (name : string) (args : list ScVal) : io Session ScVal := fun s => (executeSorobanQuery s name args, s).
Definition invoke_ (name : string) (args : list ScVal) : io Session unit := do! _ <- invoke name args in ret tt.
Definition invoke_id (name : string) (args : list ScVal) : io Session number := do! v <- invoke name args in ret (Number_sc v).

Definition hex_arg (hex : string) : io Session ScVal :=
  match hexToBytes hex with Ok l => ret (SvBytes l) | Throw e => throw e end.

Definition read {A : Type} (f : Ledger -> A) : io Session A := fun s => (Ok (f (ledger s)), s).
Definition update (f : Ledger -> Ledger) : io Session unit := fun s => (Ok tt, set_ledger s (f (ledger s))).

Definition strings (l : list string) : ScVal := SvList (map SvStr l).

(** *** Vaults *)

Definition new_vault (a name description : string) (threshold now : Z) (l : Ledger) : MockVault :=
  mkVault (Z.of_nat (length (vaults l)) + 1) a name description [a] threshold true (seconds now).

Definition create_local (a name description : string) (guardians : list string) (threshold now : Z) (l : Ledger) : Ledger :=
  let vault := new_vault a name description threshold now l in
  let l1 := set_vaults l (vaults l ++ [vault]) in
  set_invites l1 (invites l1 ++ new_invites a (v_id vault) now guardians).

Definition createVault (name description : string) (guardians : list string) (approvalThreshold now : Z) : io Session number :=
  with_account (fun a =>
    either
      (invoke_id "create_vault" [SvStr a; SvStr name; SvStr description; strings guardians; SvNum approvalThreshold])
      (do! id <- read (fun l => v_id (new_vault a name description approvalThreshold now l)) in
       do! _ <- update (create_local a name description guardians approvalThreshold now) in ret (Fin id 0))).

Definition getVault (vaultId : Z) : io Session (option MockVault) := read (fun l => find_vault l vaultId).

(** Each with the tag "stellar" of its network. *)
Definition fetchVaultsForAccount (account : string) : io Session (list (MockVault * string)) :=
  read (fun l => map (fun v => (v, "stellar"%string))
    (List.filter (fun v => same_address (v_creator v) account || existsb (fun g => same_address g account) (v_guardians v)) (vaults l))).

Definition getPendingInvites (account : string) : io Session (list MockInvite) :=
  read (fun l => List.filter (fun inv => same_address (i_guardian inv) account && negb (i_accepted inv)) (invites l)).

Definition accept_invite (inv : MockInvite) : MockInvite := mkInvite (i_guardian inv) (i_vaultId inv) true (i_expiresAt inv).
Definition add_guardian (a : string) (v : MockVault) : MockVault :=
  mkVault (v_id v) (v_creator v) (v_name v) (v_description v) (v_guardians v ++ [a]) (v_approvalThreshold v)
    (v_isActive v) (v_createdAt v).

Definition accept_local (a : string) (vaultId : Z) (l : Ledger) : Ledger :=
  let l1 := match find_index (fun inv => (i_vaultId inv =? vaultId) && same_address (i_guardian inv) a) (invites l) with
            | Some i => set_invites l (alter accept_invite i (invites l))
            | None => l
            end in
  match find_index (fun v => v_id v =? vaultId) (vaults l1) with
  | Some i =>
      match vaults l1 !! i with
      | Some v => if includes_str (v_guardians v) a then l1 else set_vaults l1 (alter (add_guardian a) i (vaults l1))
      | None => l1
      end
  | None => l1
  end.

Definition acceptGuardianInvite (vaultId : Z) : io Session unit :=
  with_account (fun a =>
    either (invoke_ "accept_guardian_invite" [SvStr a; SvNum vaultId]) (update (accept_local a vaultId))).

(** *** Documents *)

Definition new_document (a : string) (vaultId : Z) (encryptedMetadata ipfsHash : string) (requiredAccess releaseCondition : Z)
    (guardiansList shares : list string) (now : Z) (l : Ledger) : MockDocument :=
  mkDocument (Z.of_nat (length (documents l)) + 1) vaultId encryptedMetadata ipfsHash a (seconds now) requiredAccess
    releaseCondition (shares_map guardiansList shares ∅).

Definition addDocument (vaultId : Z) (encryptedMetadata ipfsHash : string) (requiredAccess releaseCondition : Z)
    (guardiansList shares : list string) (now : Z) : io Session number :=
  with_account (fun a =>
    either
      (invoke_id "add_document" [SvStr a; SvNum vaultId; SvStr encryptedMetadata; SvStr ipfsHash; SvNum requiredAccess;
                                 SvNum releaseCondition; strings guardiansList; strings shares])
      (do! doc <- read (new_document a vaultId encryptedMetadata ipfsHash requiredAccess releaseCondition guardiansList shares now) in
       do! _ <- update (fun l => set_documents l (documents l ++ [doc])) in ret (Fin (d_id doc) 0))).

Definition fetchDocumentsForVaults (vaultIds : list Z) : io Session (list MockDocument) :=
  read (fun l => List.filter (fun d => existsb (Z.eqb (d_vaultId d)) vaultIds) (documents l)).

Definition getEncryptedGuardianShare (documentId : Z) (guardian : string) : io Session string :=
  read (fun l => match find_document l documentId with
                 | Some doc => or_empty (d_shares doc !! guardian)
                 | None => ""%string
                 end).

(** *** Access requests *)

Definition new_request (a : string) (documentId now : Z) (l : Ledger) : MockRequest :=
  mkRequest (Z.of_nat (length (requests l)) + 1) documentId a [] 0 (seconds now + 3 * 24 * 60 * 60) (seconds now) ∅.

Definition requestAccess (documentId now : Z) : io Session number :=
  with_account (fun a =>
    either (invoke_id "request_access" [SvStr a; SvNum documentId])
      (do! req <- read (new_request a documentId now) in
       do! _ <- update (fun l => set_requests l (requests l ++ [req])) in ret (Fin (r_requestId req) 0))).

Definition approved_request (l : Ledger) (a : string) (share : option string) (r : MockRequest) : MockRequest :=
  let approvals := r_approvedBy r ++ [a] in
  mkRequest (r_requestId r) (r_documentId r) (r_requester r) approvals
    (approval_status l (r_documentId r) approvals (r_status r)) (r_expiresAt r) (r_createdAt r)
    (if blank (or_empty share) then r_beneficiaryShares r else <[a := or_empty share]> (r_beneficiaryShares r)).

(** The update of one request, or the error. *)
Definition with_request (requestId : Z) (f : Ledger -> MockRequest -> res MockRequest) : io Session unit :=
  fun s =>
    let l := ledger s in
    match find_index (fun r => r_requestId r =? requestId) (requests l) with
    | None => (Throw "Request not found"%string, s)
    | Some i =>
        match requests l !! i with
        | None => (Throw "Request not found"%string, s)
        | Some r =>
            match f l r with
            | Ok r' => (Ok tt, set_ledger s (set_requests l (<[i := r']> (requests l))))
            | Throw e => (Throw e, s)
            end
        end
    end.

Definition share_arg (share : option string) : ScVal := if blank (or_empty share) then SvNull else SvStr (or_empty share).

Definition approveAccess (requestId : Z) (encryptedShareForBeneficiary : option string) : io Session unit :=
  with_account (fun a =>
    either (invoke_ "approve_access" [SvStr a; SvNum requestId; share_arg encryptedShareForBeneficiary])
      (with_request requestId (fun l r =>
         if includes_str (r_approvedBy r) a then Throw "Already approved"%string
         else Ok (approved_request l a encryptedShareForBeneficiary r)))).

Definition bls_approved (guardians shares : list string) (r : MockRequest) : MockRequest :=
  let '(approved, m) := bls_approve guardians shares (r_approvedBy r) (r_beneficiaryShares r) in
  mkRequest (r_requestId r) (r_documentId r) (r_requester r) approved 1 (r_expiresAt r) (r_createdAt r) m.

Definition approveAccessBLS (requestId : Z) (guardianAddresses : list string) (aggregatedSignature aggregatedPublicKey : string)
    (encryptedShares : list string) : io Session unit :=
  with_account (fun a =>
    either
      (do! sg <- hex_arg aggregatedSignature in do! pk <- hex_arg aggregatedPublicKey in
       invoke_ "approve_access_bls" [SvNum requestId; strings guardianAddresses; sg; pk; strings encryptedShares])
      (with_request requestId (fun _ r => Ok (bls_approved guardianAddresses encryptedShares r)))).

Fixpoint somes_of {A B : Type} (f : A -> option B) (l : list A) : list B :=
  match l with [] => [] | x :: l' => match f x with Some y => y :: somes_of f l' | None => somes_of f l' end end.

Definition fetchPendingApprovalsForGuardian (guardianAddress : string) : io Session (list StellarPendingApprovalData) :=
  read (fun l => somes_of (pending_for l guardianAddress) (requests l)).

Definition getBeneficiaryKeyShare (requestId : Z) (guardian : string) : io Session string :=
  read (fun l => match List.find (fun r => r_requestId r =? requestId) (requests l) with
                 | Some r => or_empty (r_beneficiaryShares r !! guardian)
                 | None => ""%string
                 end).

(** *** Keys and tokens *)

Definition bls_identifier (vaultId : Z) (account : string) : string := (num_str vaultId ++ "_" ++ toLowerCase account)%string.

Definition registerGuardianBLSKey (vaultId : Z) (blsPublicKey proofOfPossession : string) : io Session unit :=
  with_account (fun a =>
    either
      (do! k <- hex_arg blsPublicKey in do! p <- hex_arg proofOfPossession in
       invoke_ "register_guardian_bls_key" [SvStr a; SvNum vaultId; k; p])
      (update (fun l => set_bls_keys l (<[bls_identifier vaultId a := mkBlsKey blsPublicKey proofOfPossession true]> (bls_keys l))))).

Definition getGuardianBLSKey (vaultId : Z) (guardianAddress : string) : io Session (option BlsKey) :=
  read (fun l => bls_keys l !! bls_identifier vaultId guardianAddress).

Definition registerPublicKey (publicKey : string) : io Session unit :=
  with_account (fun a =>
    either (invoke_ "register_public_key" [SvStr a; SvStr publicKey])
      (update (fun l => set_public_keys l (<[a := publicKey]> (public_keys l))))).

(** A query that fails falls back to the ledger. *)
Definition getUserPublicKey (user : string) : io Session string :=
  fun s =>
    let local := or_empty (public_keys (ledger s) !! user) in
    if isConfigured s then
      match executeSorobanQuery s "get_public_key" [SvStr user] with
      | Ok v => (Ok (if sc_truthy v then sc_text v else ""%string), s)
      | Throw _ => (Ok local, s)
      end
    else (Ok local, s).

(** [mintedAt || null] *)
Definition token_data (t : MockToken) : MockToken * option Z :=
  (t, if t_mintedAt t =? 0 then None else Some (t_mintedAt t)).

Definition fetchUserTokens (account : string) : io Session (list (MockToken * option Z)) :=
  if blank account then ret []
  else read (fun l => map token_data (List.filter (fun t => same_address (t_owner t) account) (tokens l))).

Definition hasVaultToken (account : string) (vaultId : Z) : io Session bool :=
  fun s =>
    if blank account || (vaultId <=? 0) then (Ok false, s)
    else if existsb (fun t => (t_vaultId t =? vaultId) && same_address (t_owner t) account) (tokens (ledger s)) then (Ok true, s)
    else if isConfigured s then
      match executeSorobanQuery s "has_vault_token" [SvStr account; SvNum vaultId] with
      | Ok v => (Ok (sc_truthy v), s)
      | Throw _ => (Ok false, s)
      end
    else (Ok false, s).

Definition new_token (vaultId : Z) (to tokenURI : string) (now : Z) (l : Ledger) : MockToken :=
  mkToken (Z.of_nat (length (tokens l)) + 1) to vaultId tokenURI (seconds now).

Definition mintAccessToken (vaultId : Z) (to tokenURI : string) (now : Z) : io Session number :=
  either
    (with_account (fun a => invoke_id "mint_access_token" [SvStr a; SvNum vaultId; SvStr to; SvStr tokenURI]))
    (do! t <- read (new_token vaultId to tokenURI now) in
     do! _ <- update (fun l => set_tokens l (tokens l ++ [t])) in ret (Fin (t_tokenId t) 0)).

(** *** Emergency unlock *)

Definition MOCK_EMERGENCY_CONFIRMATION_MS : Z := 15000.
Definition MOCK_EMERGENCY_BASE_DELAY_SEC : Z := 600.
Definition MOCK_EMERGENCY_WINDOW_SEC : Z := 3600.

Definition enable_unlock (existing : option MockEmergencyUnlock) (now : Z) : res MockEmergencyUnlock :=
  if match existing with Some e => requested e && negb (fulfilled e) | None => false end
  then Throw "Emergency unlock delay already pending"%string
  else Ok (mkUnlock true (match existing with Some e => cycle e | None => 0 end + 1) now true false 0 0).

Definition disable_unlock (existing : option MockEmergencyUnlock) : MockEmergencyUnlock :=
  match existing with
  | Some e => mkUnlock false (cycle e) (requestedAt e) false false 0 0
  | None => mkUnlock false 0 0 false false 0 0
  end.

Definition save_unlock (vaultId : Z) (u : res MockEmergencyUnlock) : io Session unit :=
  fun s => match u with
           | Ok e => (Ok tt, set_ledger s (set_emergency (ledger s) (<[vaultId := e]> (emergency_unlocks (ledger s)))))
           | Throw m => (Throw m, s)
           end.

Definition setEmergencyMode (vaultId : Z) (enabled : bool) (now : Z) : io Session unit :=
  with_account (fun a =>
    either (invoke_ "set_emergency_mode" [SvStr a; SvNum vaultId; SvBool enabled])
      (do! existing <- read (fun l => emergency_unlocks l !! vaultId) in
       save_unlock vaultId (if enabled then enable_unlock existing now else Ok (disable_unlock existing)))).

(** [jitter] is the draw below the window. *)
Definition fulfill_unlock (existing : option MockEmergencyUnlock) (jitter now : Z) : res MockEmergencyUnlock :=
  match existing with
  | Some e =>
      if negb (emergencyMode e) then Throw "Emergency mode is not enabled"%string
      else if negb (requested e) || fulfilled e then Throw "No emergency unlock request"%string
      else if now <? requestedAt e + MOCK_EMERGENCY_CONFIRMATION_MS then Throw "Emergency unlock confirmations not met"%string
      else Ok (mkUnlock (emergencyMode e) (cycle e) (requestedAt e) (requested e) true
                 (seconds now + MOCK_EMERGENCY_BASE_DELAY_SEC + jitter) (seconds now + 256 + jitter / 5))
  | None => Throw "Emergency mode is not enabled"%string
  end.

Definition fulfillEmergencyUnlockDelay (vaultId jitter now : Z) : io Session unit :=
  either (invoke_ "fulfill_emergency_unlock_delay" [SvNum vaultId])
    (do! existing <- read (fun l => emergency_unlocks l !! vaultId) in
     save_unlock vaultId (fulfill_unlock existing jitter now)).

(** requested, fulfilled, unlockAt, unlockBlock *)
Definition getEmergencyUnlockSchedule (vaultId : Z) : io Session (bool * bool * number * number) :=
  fun s =>
    let empty := (false, false, Fin 0 0, Fin 0 0) in
    if isConfigured s then
      match executeSorobanQuery s "get_emergency_unlock_schedule" [SvNum vaultId] with
      | Ok v => (Ok (if sc_truthy v
                     then (true, sc_truthy (sc_field "fulfilled" v), Number_sc (sc_or (sc_field "unlock_at" v) (SvNum 0)),
                           Number_sc (sc_or (sc_field "unlock_sequence" v) (SvNum 0)))
                     else empty), s)
      | Throw _ => (Ok empty, s)
      end
    else (Ok (match emergency_unlocks (ledger s) !! vaultId with
              | Some e => (requested e, fulfilled e, Fin (unlockAt e) 0, Fin (unlockBlock e) 0)
              | None => empty
              end), s).

(** emergencyMode, inactivityPeriod, lastProofOfLife; postDeathUnlocked is always false *)
Definition getReleaseState (vaultId : Z) : io Session (bool * number * number) :=
  fun s =>
    let fallback := (false, Fin (30 * 24 * 60 * 60) 0, Fin 0 0) in
    if isConfigured s then
      match executeSorobanQuery s "get_release_state" [SvNum vaultId] with
      | Ok v => (Ok (if sc_truthy v
                     then (sc_truthy (sc_field "emergency_mode" v),
                           Number_sc (sc_or (sc_field "inactivity_period" v) (SvNum (30 * 24 * 60 * 60))),
                           Number_sc (sc_or (sc_field "last_proof_of_life" v) (SvNum 0)))
                     else fallback), s)
      | Throw _ => (Ok fallback, s)
      end
    else (Ok (match emergency_unlocks (ledger s) !! vaultId with Some e => emergencyMode e | None => false end,
              Fin (30 * 24 * 60 * 60) 0, Fin 0 0), s).

(** *** Keepers and heartbeats *)

Definition authorizeKeeper (vaultId : Z) (who : string) (expiresAt : Z) : io Session unit :=
  with_account (fun a =>
    either (invoke_ "authorize_keeper" [SvStr a; SvNum vaultId; SvStr who; SvNum expiresAt])
      (update (fun l => set_keepers l (<[vaultId := mkKeeper who expiresAt]> (keeper_authorizations l))))).

Definition revokeKeeperAuthorization (vaultId : Z) : io Session unit :=
  with_account (fun a =>
    either (invoke_ "revoke_keeper" [SvStr a; SvNum vaultId])
      (update (fun l => set_keepers l (delete vaultId (keeper_authorizations l))))).

Definition getKeeperAuthorization (vaultId : Z) : io Session (option (string * number)) :=
  fun s =>
    if isConfigured s then
      match executeSorobanQuery s "get_keeper_authorization" [SvNum vaultId] with
      | Ok v => (Ok (if sc_truthy v
                     then Some (sc_text (sc_or (sc_field "keeper" v) (sc_index 0 v)),
                                Number_sc (sc_or (sc_field "expires_at" v) (sc_index 1 v)))
                     else None), s)
      | Throw _ => (Ok None, s)
      end
    else (Ok (match keeper_authorizations (ledger s) !! vaultId with
              | Some k => Some (keeper k, Fin (k_expiresAt k) 0)
              | None => None
              end), s).

Definition relayProofOfLifeAsKeeper (vaultId : Z) : io Session unit :=
  with_account (fun a =>
    either (invoke_ "prove_life_by_keeper" [SvStr a; SvNum vaultId])
      (throw "Proof-of-life relay requires a configured Soroban contract.")).

Definition syncProofOfLife (vaultId evmVaultId : Z) (gidHash evmOwner : string) (timestamp : Z) (signature : string)
    (recoveryId : Z) (relayer : option string) : io Session unit :=
  with_account (fun a =>
    if negb (blank (or_empty relayer)) && negb (String.eqb (or_empty relayer) a)
    then throw "Configured relayer does not match the connected Stellar account"
    else either
      (do! gid <- hex_arg gidHash in do! owner <- hex_arg evmOwner in do! sg <- hex_arg signature in
       invoke_ "sync_proof_of_life" [SvStr a; SvNum vaultId; SvNum evmVaultId; gid; owner; SvNum timestamp; sg; SvNum recoveryId])
      (throw "Stellar contract is not configured for heartbeat relay")).

Definition bindCrossChainHeartbeat (vaultId : Z) (gidHash evmOwner relayer : string) : io Session unit :=
  with_account (fun a =>
    either
      (do! gid <- hex_arg gidHash in do! owner <- hex_arg evmOwner in
       invoke_ "bind_cross_chain_heartbeat" [SvStr a; SvNum vaultId; gid; owner; SvStr relayer])
      (throw "Stellar contract is not configured for heartbeat binding")).

End Service.
