(* ===== verification/StellarLedgerProofs.v ===== *)
(** * StellarLedgerProofs: what every reachable ledger satisfies

    [reachable bls t s] holds of the sessions that operations reach from the empty ledger
    up to the time [t], with any wallets and any answers of a contract; [bls] tells
    whether aggregated approvals are among the operations. *)

From Stdlib Require Import Ascii String ZArith Lia Bool.
From stdpp Require Import base list gmap strings.
From S2P Require Import Prelude JsString JsonText JsNumber KeyInbox StellarLedger.

Open Scope list_scope.
Open Scope Z_scope.

(** ** Reachable sessions *)

Section Reachable.
Variables (env_contract : option string) (call : Session -> string -> list ScVal -> res ScVal).

Inductive reachable (bls : bool) : Z -> Session -> Prop :=
| R_start t a n c : 0 <= t -> reachable bls t (mkSession a n c empty_ledger)
| R_wallet t t' s a n c : reachable bls t s -> t <= t' -> reachable bls t' (mkSession a n c (ledger s))
| R_createVault t t' s n d gs k : reachable bls t s -> t <= t' -> reachable bls t' (createVault env_contract call n d gs k t' s).2
| R_accept t t' s v : reachable bls t s -> t <= t' -> reachable bls t' (acceptGuardianInvite env_contract call v s).2
| R_addDocument t t' s v m h a c gs sh : reachable bls t s -> t <= t' ->
    reachable bls t' (addDocument env_contract call v m h a c gs sh t' s).2
| R_request t t' s d : reachable bls t s -> t <= t' -> reachable bls t' (requestAccess env_contract call d t' s).2
| R_approve t t' s r sh : reachable bls t s -> t <= t' -> reachable bls t' (approveAccess env_contract call r sh s).2
| R_approveBLS t t' s r gs sg pk sh : bls = true -> reachable bls t s -> t <= t' ->
    reachable bls t' (approveAccessBLS env_contract call r gs sg pk sh s).2
| R_blsKey t t' s v k p : reachable bls t s -> t <= t' -> reachable bls t' (registerGuardianBLSKey env_contract call v k p s).2
| R_publicKey t t' s k : reachable bls t s -> t <= t' -> reachable bls t' (registerPublicKey env_contract call k s).2
| R_mint t t' s v o u : reachable bls t s -> t <= t' -> reachable bls t' (mintAccessToken env_contract call v o u t' s).2
| R_emergency t t' s v b : reachable bls t s -> t <= t' -> reachable bls t' (setEmergencyMode env_contract call v b t' s).2
| R_fulfill t t' s v j : reachable bls t s -> t <= t' -> 0 <= j < MOCK_EMERGENCY_WINDOW_SEC ->
    reachable bls t' (fulfillEmergencyUnlockDelay env_contract call v j t' s).2
| R_keeper t t' s v k e : reachable bls t s -> t <= t' -> reachable bls t' (authorizeKeeper env_contract call v k e s).2
| R_revoke t t' s v : reachable bls t s -> t <= t' -> reachable bls t' (revokeKeeperAuthorization env_contract call v s).2.

End Reachable.

(** ** The invariant *)

Definition numbered {A : Type} (id : A -> Z) (l : list A) : Prop := forall i x, l !! i = Some x -> id x = Z.of_nat i + 1.

Definition good_vault (v : MockVault) : Prop := NoDup (v_guardians v) /\ v_creator v ∈ v_guardians v.

Definition good_request (r : MockRequest) : Prop :=
  NoDup (r_approvedBy r) /\ (r_status r = 0 \/ r_status r = 1)
  /\ forall g, is_Some (r_beneficiaryShares r !! g) -> g ∈ r_approvedBy r.

(** A schedule: enabled exactly when requested; fulfilled no sooner than the confirmations
    and the base delay allow, and within the window. *)
Definition good_unlock (t : Z) (e : MockEmergencyUnlock) : Prop :=
  emergencyMode e = requested e /\ requestedAt e <= t /\ 0 <= cycle e
  /\ (fulfilled e = true -> requested e = true
        /\ seconds (requestedAt e) + 15 + MOCK_EMERGENCY_BASE_DELAY_SEC <= unlockAt e
        /\ unlockAt e < seconds t + MOCK_EMERGENCY_BASE_DELAY_SEC + MOCK_EMERGENCY_WINDOW_SEC)
  /\ (fulfilled e = false -> unlockAt e = 0 /\ unlockBlock e = 0).

Record invariant (t : Z) (l : Ledger) : Prop := {
  vaults_numbered : numbered v_id (vaults l);
  documents_numbered : numbered d_id (documents l);
  requests_numbered : numbered r_requestId (requests l);
  tokens_numbered : numbered t_tokenId (tokens l);
  vaults_good : Forall good_vault (vaults l);
  requests_good : Forall good_request (requests l);
  unlocks_good : forall v e, emergency_unlocks l !! v = Some e -> good_unlock t e
}.

Lemma numbered_app {A : Type} (id : A -> Z) (l : list A) (x : A) :
  numbered id l -> id x = Z.of_nat (length l) + 1 -> numbered id (l ++ [x]).
Proof.
  intros Hl Hx i y Hi. apply lookup_app_Some in Hi as [Hi|[Hi Hy]]; [now apply Hl|].
  apply list_lookup_singleton_Some in Hy as [Hi0 ->]. rewrite Hx. lia.
Qed.

Lemma numbered_alter {A : Type} (id : A -> Z) (f : A -> A) (i : nat) (l : list A) :
  (forall x, id (f x) = id x) -> numbered id l -> numbered id (alter f i l).
Proof.
  intros Hf Hl j y Hj. destruct (decide (i = j)) as [->|Hne].
  - rewrite list_lookup_alter_eq in Hj. apply fmap_Some in Hj as (x & Hx & ->). rewrite Hf. now apply Hl.
  - rewrite list_lookup_alter_ne in Hj by exact Hne. now apply Hl.
Qed.

Lemma Forall_alter_weak {A : Type} (P : A -> Prop) (f : A -> A) (i : nat) (l : list A) :
  (forall x, l !! i = Some x -> P x -> P (f x)) -> Forall P l -> Forall P (alter f i l).
Proof. intros Hf Hl. apply Forall_alter; [exact Hl|]. intros x Hx HP. now apply Hf. Qed.

Lemma includes_str_spec (l : list string) (a : string) : includes_str l a = true <-> a ∈ l.
Proof.
  unfold includes_str. rewrite existsb_exists. setoid_rewrite String.eqb_eq. split.
  - intros (x & Hx & ->). now apply list_elem_of_In.
  - intros Hx. exists a. split; [now apply list_elem_of_In|reflexivity].
Qed.

Lemma find_index_lookup {A : Type} (p : A -> bool) (l : list A) (i : nat) :
  find_index p l = Some i -> exists x, l !! i = Some x /\ p x = true.
Proof.
  revert i. induction l as [|x l IH]; intros i; cbn [find_index]; [discriminate|].
  destruct (p x) eqn:E; [intros [= <-]; now exists x|].
  destruct (find_index p l) as [j|]; [|discriminate]. intros [= <-]. now apply IH.
Qed.

Lemma NoDup_snoc {A : Type} (l : list A) (x : A) : NoDup l -> x ∉ l -> NoDup (l ++ [x]).
Proof.
  intros Hl Hx. apply NoDup_app. split; [exact Hl|]. split; [|apply NoDup_singleton].
  intros y Hy Hs. apply list_elem_of_singleton in Hs. now subst.
Qed.

(** ** What an operation does to the ledger *)

(** An operation either leaves the ledger or does one of these updates. *)
Inductive effect (t : Z) (l : Ledger) : Ledger -> Prop :=
| E_none : effect t l l
| E_vault a n d gs k : effect t l (create_local a n d gs k t l)
| E_accept a v : effect t l (accept_local a v l)
| E_document d : d_id d = Z.of_nat (length (documents l)) + 1 -> effect t l (set_documents l (documents l ++ [d]))
| E_request a d : effect t l (set_requests l (requests l ++ [new_request a d t l]))
| E_approve i a sh r : requests l !! i = Some r -> a ∉ r_approvedBy r ->
    effect t l (set_requests l (<[i := approved_request l a sh r]> (requests l)))
| E_blsKeys x : effect t l (set_bls_keys l x)
| E_publicKeys x : effect t l (set_public_keys l x)
| E_token v o u : effect t l (set_tokens l (tokens l ++ [new_token v o u t l]))
| E_unlock v e : (enable_unlock (emergency_unlocks l !! v) t = Ok e \/ e = disable_unlock (emergency_unlocks l !! v)
                  \/ exists j, 0 <= j < MOCK_EMERGENCY_WINDOW_SEC /\ fulfill_unlock (emergency_unlocks l !! v) j t = Ok e) ->
    effect t l (set_emergency l (<[v := e]> (emergency_unlocks l)))
| E_keepers x : effect t l (set_keepers l x).

(** Aggregated approvals, on their own. *)
Inductive bls_effect (l : Ledger) : Ledger -> Prop :=
| B_none : bls_effect l l
| B_approve i gs sh r : requests l !! i = Some r ->
    bls_effect l (set_requests l (<[i := bls_approved gs sh r]> (requests l))).

Section Effects.
Variables (env_contract : option string) (call : Session -> string -> list ScVal -> res ScVal).

(** The ledger an operation leaves behind satisfies [P] if its local branch does. *)
Lemma with_account_ledger {A : Type} (P : Ledger -> Prop) (k : string -> io Session A) (s : Session) :
  P (ledger s) -> (forall a, P (ledger (k a s).2)) -> P (ledger (with_account k s).2).
Proof. intros H0 Hk. unfold with_account. destruct (activeAccount s) as [a|]; [|exact H0]. destruct (blank a); [exact H0|apply Hk]. Qed.

Lemma either_ledger {A : Type} (P : Ledger -> Prop) (chain local : io Session A) (s : Session) :
  P (ledger (chain s).2) -> P (ledger (local s).2) -> P (ledger (either env_contract chain local s).2).
Proof. intros Hc Hl. unfold either. now destruct (isConfigured env_contract s). Qed.

Lemma invoke_ledger (name : string) (args : list ScVal) (s : Session) : ledger (invoke_ call name args s).2 = ledger s.
Proof. unfold invoke_, bind, invoke. now destruct (call s name args). Qed.

Lemma invoke_id_ledger (name : string) (args : list ScVal) (s : Session) : ledger (invoke_id call name args s).2 = ledger s.
Proof. unfold invoke_id, bind, invoke. now destruct (call s name args). Qed.

Lemma hex_arg_ledger {A : Type} (P : Ledger -> Prop) (hex : string) (k : ScVal -> io Session A) (s : Session) :
  P (ledger s) -> (forall v, P (ledger (k v s).2)) -> P (ledger (bind (hex_arg hex) k s).2).
Proof. intros H0 Hk. unfold bind, hex_arg. destruct (hexToBytes hex); [apply Hk|exact H0]. Qed.

Lemma with_request_ledger (P : Ledger -> Prop) (id : Z) (f : Ledger -> MockRequest -> res MockRequest) (s : Session) :
  P (ledger s) ->
  (forall i r r', requests (ledger s) !! i = Some r -> f (ledger s) r = Ok r' ->
     P (set_requests (ledger s) (<[i := r']> (requests (ledger s))))) ->
  P (ledger (with_request id f s).2).
Proof.
  intros H0 Hf. unfold with_request. destruct (find_index _ _) as [i|]; [|exact H0].
  destruct (requests (ledger s) !! i) as [r|] eqn:E; [|exact H0].
  destruct (f (ledger s) r) as [r'|e] eqn:F; [|exact H0]. exact (Hf i r r' E F).
Qed.

Lemma save_unlock_ledger (P : Ledger -> Prop) (v : Z) (u : res MockEmergencyUnlock) (s : Session) :
  P (ledger s) -> (forall e, u = Ok e -> P (set_emergency (ledger s) (<[v := e]> (emergency_unlocks (ledger s))))) ->
  P (ledger (save_unlock v u s).2).
Proof. intros H0 Hu. unfold save_unlock. destruct u as [e|m]; [now apply Hu|exact H0]. Qed.

End Effects.

Create HintDb ledger.
#[export] Hint Resolve E_none B_none : ledger.

(** *** Every operation is one of the updates *)

Section Operations.
Variables (env_contract : option string) (call : Session -> string -> list ScVal -> res ScVal).

Ltac through lemma := match goal with |- ?R (ledger _) => apply lemma with (P := R) end.
Ltac operation :=
  through @with_account_ledger; [auto with ledger|let who := fresh "who" in intros who]; through @either_ledger;
  rewrite ?invoke_ledger, ?invoke_id_ledger; auto with ledger.

Lemma createVault_effect n d gs k t s : effect t (ledger s) (ledger (createVault env_contract call n d gs k t s).2).
Proof. operation. apply E_vault. Qed.

Lemma accept_effect v t s : effect t (ledger s) (ledger (acceptGuardianInvite env_contract call v s).2).
Proof. operation. apply E_accept. Qed.

Lemma addDocument_effect v m h a c gs sh t s :
  effect t (ledger s) (ledger (addDocument env_contract call v m h a c gs sh t s).2).
Proof. operation. now apply E_document. Qed.

Lemma requestAccess_effect d t s : effect t (ledger s) (ledger (requestAccess env_contract call d t s).2).
Proof. operation. apply E_request. Qed.

Lemma approveAccess_effect r sh t s : effect t (ledger s) (ledger (approveAccess env_contract call r sh s).2).
Proof.
  operation. through @with_request_ledger; [auto with ledger|].
  intros i q q' Hq Hf. destruct (includes_str (r_approvedBy q) who) eqn:E; [discriminate|]. injection Hf as <-.
  apply E_approve; [exact Hq|]. rewrite <- includes_str_spec, E. discriminate.
Qed.

Lemma approveAccessBLS_effect r gs sg pk sh s :
  bls_effect (ledger s) (ledger (approveAccessBLS env_contract call r gs sg pk sh s).2).
Proof.
  through @with_account_ledger; [auto with ledger|]. intros a. apply either_ledger.
  - through @hex_arg_ledger; [auto with ledger|]. intros v.
    through @hex_arg_ledger; [auto with ledger|]. intros w. rewrite invoke_ledger. auto with ledger.
  - through @with_request_ledger; [auto with ledger|].
    intros i q q' Hq Hf. injection Hf as <-. now apply B_approve.
Qed.

Lemma registerBLS_effect v k p t s : effect t (ledger s) (ledger (registerGuardianBLSKey env_contract call v k p s).2).
Proof.
  operation; [|apply E_blsKeys].
  through @hex_arg_ledger; [auto with ledger|]. intros x.
  through @hex_arg_ledger; [auto with ledger|]. intros y. rewrite invoke_ledger. auto with ledger.
Qed.

Lemma registerPublicKey_effect k t s : effect t (ledger s) (ledger (registerPublicKey env_contract call k s).2).
Proof. operation. apply E_publicKeys. Qed.

Lemma mint_effect v o u t s : effect t (ledger s) (ledger (mintAccessToken env_contract call v o u t s).2).
Proof.
  through @either_ledger; [|apply E_token].
  through @with_account_ledger; [auto with ledger|]. intros a. rewrite invoke_id_ledger. auto with ledger.
Qed.

Lemma setEmergencyMode_effect v b t s : effect t (ledger s) (ledger (setEmergencyMode env_contract call v b t s).2).
Proof.
  operation. through @save_unlock_ledger; [auto with ledger|].
  intros e He. apply E_unlock. destruct b; [now left|right; left]. injection He as <-. reflexivity.
Qed.

Lemma fulfill_effect v j t s : 0 <= j < MOCK_EMERGENCY_WINDOW_SEC ->
  effect t (ledger s) (ledger (fulfillEmergencyUnlockDelay env_contract call v j t s).2).
Proof.
  intros Hj. through @either_ledger; [rewrite invoke_ledger; auto with ledger|].
  through @save_unlock_ledger; [auto with ledger|]. intros e He. apply E_unlock. right; right. now exists j.
Qed.

Lemma keeper_effect v k e t s : effect t (ledger s) (ledger (authorizeKeeper env_contract call v k e s).2).
Proof. operation. apply E_keepers. Qed.

Lemma revokeKeeper_effect v t s : effect t (ledger s) (ledger (revokeKeeperAuthorization env_contract call v s).2).
Proof. operation. apply E_keepers. Qed.

(** Rule induction over the updates instead of the operations. *)
Lemma reachable_ledger (bls : bool) (P : Z -> Ledger -> Prop) :
  (forall t, 0 <= t -> P t empty_ledger) ->
  (forall t t' l, t <= t' -> P t l -> P t' l) ->
  (forall t l l', P t l -> effect t l l' -> P t l') ->
  (bls = true -> forall t l l', P t l -> bls_effect l l' -> P t l') ->
  forall t s, reachable env_contract call bls t s -> P t (ledger s).
Proof.
  intros H0 Hm He Hb. induction 1; [now apply H0|now apply (Hm t)| ..];
    match goal with
    | |- P ?t' (ledger (approveAccessBLS _ _ _ _ _ _ _ _).2) =>
        eapply Hb; [assumption|eapply Hm; eassumption|apply approveAccessBLS_effect]
    | _ => eapply He; [eapply Hm; eassumption|]
    end.
  - apply createVault_effect.
  - apply accept_effect.
  - apply addDocument_effect.
  - apply requestAccess_effect.
  - apply approveAccess_effect.
  - apply registerBLS_effect.
  - apply registerPublicKey_effect.
  - apply mint_effect.
  - apply setEmergencyMode_effect.
  - now apply fulfill_effect.
  - apply keeper_effect.
  - apply revokeKeeper_effect.
Qed.

End Operations.

(** ** The invariant is preserved *)

Lemma invariant_empty (t : Z) : invariant t empty_ledger.
Proof.
  split; cbn. 1-4: intros i x Hi; rewrite lookup_nil in Hi; discriminate Hi. 1-2: constructor.
  intros v e Hv. rewrite lookup_empty in Hv. discriminate Hv.
Qed.

Lemma seconds_mono (t t' : Z) : t <= t' -> seconds t <= seconds t'.
Proof. intros Ht. unfold seconds. apply Z.div_le_mono; lia. Qed.

Lemma good_unlock_later (t t' : Z) (e : MockEmergencyUnlock) : t <= t' -> good_unlock t e -> good_unlock t' e.
Proof.
  intros Ht (Hm & Hr & Hc & Hf & Hn). pose proof (seconds_mono t t' Ht).
  split; [exact Hm|]. split; [lia|]. split; [exact Hc|]. split; [|exact Hn].
  intros E. destruct (Hf E) as (A & B & C). split; [exact A|]. split; [exact B|lia].
Qed.

Lemma invariant_later (t t' : Z) (l : Ledger) : t <= t' -> invariant t l -> invariant t' l.
Proof. intros Ht Hl. destruct Hl. split; try assumption. intros v e Hv. apply (good_unlock_later t); eauto. Qed.

Lemma good_add_guardian (a : string) (v : MockVault) :
  includes_str (v_guardians v) a = false -> good_vault v -> good_vault (add_guardian a v).
Proof.
  intros Hi [Hn Hc]. split; cbn [add_guardian v_guardians v_creator]; [|apply elem_of_app; now left].
  apply NoDup_snoc; [exact Hn|]. rewrite <- includes_str_spec, Hi. discriminate.
Qed.

Lemma accept_invariant (t : Z) (a : string) (v : Z) (l : Ledger) : invariant t l -> invariant t (accept_local a v l).
Proof.
  intros Hl. unfold accept_local.
  set (l1 := match find_index _ (invites l) with Some _ => _ | None => _ end).
  assert (H1 : invariant t l1 /\ vaults l1 = vaults l) by (unfold l1; destruct (find_index _ (invites l)); (split; [now destruct Hl|reflexivity])).
  destruct H1 as [H1 _]. clearbody l1. destruct (find_index _ (vaults l1)) as [i|]; [|exact H1].
  destruct (vaults l1 !! i) as [w|] eqn:E; [|exact H1]. destruct (includes_str (v_guardians w) a) eqn:I; [exact H1|].
  destruct H1. split; try assumption; cbn [set_vaults vaults].
  - now apply numbered_alter.
  - apply Forall_alter_weak; [|assumption]. intros x Hx. rewrite E in Hx. injection Hx as <-. now apply good_add_guardian.
Qed.

Lemma good_approved (l : Ledger) (a : string) (sh : option string) (r : MockRequest) :
  a ∉ r_approvedBy r -> good_request r -> good_request (approved_request l a sh r).
Proof.
  intros Ha (Hn & Hs & Hk). unfold approved_request. cbv zeta. repeat split; cbn [r_approvedBy r_status r_beneficiaryShares].
  - now apply NoDup_snoc.
  - unfold approval_status. destruct (find_document l (r_documentId r)) as [d|]; [|exact Hs].
    destruct (find_vault l (d_vaultId d)) as [v|]; [|exact Hs]. destruct (_ <=? _); [now right|exact Hs].
  - intros g. destruct (blank (or_empty sh)); [intros Hg; apply elem_of_app; left; now apply Hk|].
    destruct (decide (g = a)) as [->|Hne]; [intros _; apply elem_of_app; right; now apply list_elem_of_singleton|].
    rewrite lookup_insert_ne by congruence. intros Hg. apply elem_of_app; left; now apply Hk.
Qed.

Lemma bls_approve_good (gs sh approved : list string) (m : gmap string string) :
  NoDup approved -> (forall g, is_Some (m !! g) -> g ∈ approved) ->
  NoDup (bls_approve gs sh approved m).1
  /\ forall g, is_Some ((bls_approve gs sh approved m).2 !! g) -> g ∈ (bls_approve gs sh approved m).1.
Proof.
  revert sh approved m. induction gs as [|g gs IH]; intros sh approved m Hn Hm; cbn [bls_approve]; [now split|].
  set (approved' := if includes_str approved g then approved else approved ++ [g]).
  assert (Hin : g ∈ approved' /\ NoDup approved' /\ forall x, x ∈ approved -> x ∈ approved').
  { unfold approved'. destruct (includes_str approved g) eqn:E; [apply includes_str_spec in E; now repeat split|].
    split; [apply elem_of_app; right; now apply list_elem_of_singleton|]. split; [|intros x Hx; apply elem_of_app; now left].
    apply NoDup_snoc; [exact Hn|]. rewrite <- includes_str_spec, E. discriminate. }
  clearbody approved'. destruct Hin as (Hg & Hn' & Hsub). apply IH; [exact Hn'|].
  intros x. destruct sh as [|s sh]; [intros Hx; apply Hsub; now apply Hm|].
  destruct (blank s); [intros Hx; apply Hsub; now apply Hm|].
  destruct (decide (x = g)) as [->|Hne]; [intros _; exact Hg|]. rewrite lookup_insert_ne by congruence.
  intros Hx. apply Hsub. now apply Hm.
Qed.

Lemma good_bls_approved (gs sh : list string) (r : MockRequest) : good_request r -> good_request (bls_approved gs sh r).
Proof.
  intros (Hn & Hs & Hk). unfold bls_approved. pose proof (bls_approve_good gs sh (r_approvedBy r) (r_beneficiaryShares r) Hn Hk) as [A B].
  destruct (bls_approve gs sh (r_approvedBy r) (r_beneficiaryShares r)) as [approved m].
  repeat split; cbn; [exact A|now right|exact B].
Qed.

Lemma numbered_insert {A : Type} (id : A -> Z) (l : list A) (i : nat) (x y : A) :
  numbered id l -> l !! i = Some x -> id y = id x -> numbered id (<[i := y]> l).
Proof.
  intros Hl Hi He j z Hj. destruct (decide (i = j)) as [->|Hne].
  - rewrite list_lookup_insert_eq in Hj by (apply lookup_lt_Some in Hi; exact Hi). injection Hj as <-. rewrite He. now apply Hl.
  - rewrite list_lookup_insert_ne in Hj by exact Hne. now apply Hl.
Qed.

Lemma replace_request (t : Z) (l : Ledger) (i : nat) (r r' : MockRequest) :
  invariant t l -> requests l !! i = Some r -> r_requestId r' = r_requestId r -> (good_request r -> good_request r') ->
  invariant t (set_requests l (<[i := r']> (requests l))).
Proof.
  intros Hl Hi He Hg. destruct Hl. split; try assumption; cbn [set_requests requests].
  - now apply (numbered_insert _ _ _ r).
  - apply Forall_insert; [assumption|]. apply Hg. apply (Forall_lookup_1 _ _ i r requests_good0 Hi).
Qed.

Lemma unlock_good (t : Z) (existing : option MockEmergencyUnlock) (e : MockEmergencyUnlock) :
  (forall x, existing = Some x -> good_unlock t x) -> 0 <= t ->
  (enable_unlock existing t = Ok e \/ e = disable_unlock existing
   \/ exists j, 0 <= j < MOCK_EMERGENCY_WINDOW_SEC /\ fulfill_unlock existing j t = Ok e) -> good_unlock t e.
Proof.
  intros Hx Ht [He|[->|(j & Hj & He)]].
  - unfold enable_unlock in He. destruct (match existing with Some _ => _ | None => _ end); [discriminate|]. injection He as <-.
    assert (Hc : 0 <= match existing with Some x => cycle x | None => 0 end)
      by (destruct existing as [x|]; [apply (Hx x eq_refl)|lia]).
    unfold good_unlock; cbn. split; [reflexivity|]. split; [lia|]. split; [lia|]. split; [discriminate|now split].
  - assert (Hc : requestedAt (disable_unlock existing) <= t /\ 0 <= cycle (disable_unlock existing))
      by (destruct existing as [x|]; [destruct (Hx x eq_refl) as (_ & Hr & Hc & _); now split|cbn; lia]).
    destruct Hc as [Hr Hc]. unfold good_unlock. split; [now destruct existing|]. split; [exact Hr|]. split; [exact Hc|].
    destruct existing; cbn; (split; [discriminate|now split]).
  - unfold fulfill_unlock in He. destruct existing as [x|]; [|discriminate].
    destruct (emergencyMode x) eqn:Em; [|discriminate]. destruct (requested x) eqn:Er; [|discriminate].
    destruct (fulfilled x); [discriminate|]. cbn [negb orb] in He.
    destruct (Z.ltb_spec t (requestedAt x + MOCK_EMERGENCY_CONFIRMATION_MS)) as [|Hw]; [discriminate|]. injection He as <-.
    destruct (Hx x eq_refl) as (Hm & Hr & Hcy & _).
    unfold good_unlock, MOCK_EMERGENCY_CONFIRMATION_MS, MOCK_EMERGENCY_BASE_DELAY_SEC, MOCK_EMERGENCY_WINDOW_SEC, seconds in *; cbn.
    split; [reflexivity|]. split; [lia|]. split; [lia|]. split; [|discriminate]. intros _. split; [reflexivity|].
    Z.to_euclidean_division_equations; lia.
Qed.

Lemma effect_invariant (t : Z) (l l' : Ledger) : 0 <= t -> invariant t l -> effect t l l' -> invariant t l'.
Proof.
  intros Ht Hl [|a n d gs k|a v|d Hd|a d|i a sh r Hi Ha|x|x|v o u|v e He|x]; try exact Hl;
    [ | | | | | | | | |]; try (destruct Hl; split; assumption).
  - destruct Hl; split; try assumption; cbn.
    + now apply numbered_app.
    + apply Forall_app. split; [assumption|]. apply Forall_singleton. split; cbn; [apply NoDup_singleton|now apply list_elem_of_singleton].
  - now apply accept_invariant.
  - destruct Hl; split; try assumption. now apply numbered_app.
  - destruct Hl; split; try assumption; cbn; [now apply numbered_app|].
    apply Forall_app. split; [assumption|]. apply Forall_singleton. repeat split; cbn; [constructor|now left|].
    intros g [y Hy]. discriminate Hy.
  - apply (replace_request t l i r); try assumption; [reflexivity|]. now apply good_approved.
  - destruct Hl; split; try assumption. now apply numbered_app.
  - destruct Hl; split; try assumption. cbn. intros w x Hw. destruct (decide (w = v)) as [->|Hne].
    + rewrite lookup_insert_eq in Hw. injection Hw as <-. apply (unlock_good t (emergency_unlocks l !! v)); try assumption.
      intros y Hy. now apply (unlocks_good0 v).
    + rewrite lookup_insert_ne in Hw by congruence. now apply (unlocks_good0 w).
Qed.

Lemma bls_effect_invariant (t : Z) (l l' : Ledger) : invariant t l -> bls_effect l l' -> invariant t l'.
Proof.
  intros Hl [|i gs sh r Hi]; [exact Hl|]. apply (replace_request t l i r); try assumption.
  - unfold bls_approved. now destruct (bls_approve _ _ _ _).
  - apply good_bls_approved.
Qed.

(** * What users of the ledger can rely on, and where it lets anyone in *)

Open Scope list_scope.
Open Scope Z_scope.

(** ** The invariant of the ledger *)

Section Invariant.
Variables (env_contract : option string) (call : Session -> string -> list ScVal -> res ScVal).

Lemma reachable_invariant (bls : bool) (t : Z) (s : Session) :
  reachable env_contract call bls t s -> 0 <= t /\ invariant t (ledger s).
Proof.
  apply (reachable_ledger env_contract call bls (fun t l => 0 <= t /\ invariant t l)).
  - intros t0 Ht. split; [exact Ht|apply invariant_empty].
  - intros t0 t1 l Hle [Ht Hl]. split; [lia|now apply (invariant_later t0)].
  - intros t0 l l' [Ht Hl] He. split; [exact Ht|now apply (effect_invariant t0 l)].
  - intros _ t0 l l' [Ht Hl] He. split; [exact Ht|now apply (bls_effect_invariant t0 l)].
Qed.

(** C18: Every ledger that operations reach, over any wallets and contract answers, numbers
    its vaults, documents, requests and tokens from one; the creator is among the distinct
    guardians of a vault; a request has distinct approvers, a status of pending or
    approved, and shares only of approvers; an emergency unlock is fulfilled only while it
    is requested, no earlier than the confirmations and the base delay allow, and within
    the random window. *)
Theorem ledger_invariant (bls : bool) (t : Z) (s : Session) :
  reachable env_contract call bls t s -> invariant t (ledger s).
Proof. intros Hr. now apply reachable_invariant in Hr as [_ Hi]. Qed.

(** ** Quorum *)

(** The document of the request is known, and as many accounts as its vault asks for approved. *)
Definition quorum (l : Ledger) (r : MockRequest) : Prop :=
  exists doc vault, find_document l (r_documentId r) = Some doc /\ find_vault l (d_vaultId doc) = Some vault
    /\ v_approvalThreshold vault <= Z.of_nat (length (r_approvedBy r)).

Definition quorate (l : Ledger) : Prop := Forall (fun r => r_status r = 1 -> quorum l r) (requests l).

Lemma find_app_some {A : Type} (p : A -> bool) (l l' : list A) (x : A) : List.find p l = Some x -> List.find p (l ++ l') = Some x.
Proof. induction l as [|y l IH]; cbn; [discriminate|]. now destruct (p y). Qed.

Lemma find_alter {A : Type} (p : A -> bool) (f : A -> A) (i : nat) (l : list A) (x : A) :
  (forall y, p (f y) = p y) -> List.find p l = Some x ->
  List.find p (alter f i l) = Some x \/ List.find p (alter f i l) = Some (f x).
Proof.
  intros Hf. revert i. induction l as [|y l IH]; intros i; cbn; [discriminate|].
  destruct i as [|i]; cbn.
  - rewrite Hf. destruct (p y); [intros [= ->]; now right|now left].
  - destruct (p y); [now left|apply IH].
Qed.

(** The ledger keeps what a quorum looks at. *)
Lemma quorum_kept (l l' : Ledger) (r : MockRequest) :
  (forall id doc, find_document l id = Some doc -> find_document l' id = Some doc) ->
  (forall id v, find_vault l id = Some v -> exists v', find_vault l' id = Some v' /\ v_approvalThreshold v' = v_approvalThreshold v) ->
  quorum l r -> quorum l' r.
Proof.
  intros Hd Hv (doc & v & A & B & C). destruct (Hv _ _ B) as (v' & B' & E).
  exists doc, v'. split; [now apply Hd|]. split; [exact B'|]. now rewrite E.
Qed.

Lemma quorate_same_requests (l l' : Ledger) :
  requests l' = requests l ->
  (forall id doc, find_document l id = Some doc -> find_document l' id = Some doc) ->
  (forall id v, find_vault l id = Some v -> exists v', find_vault l' id = Some v' /\ v_approvalThreshold v' = v_approvalThreshold v) ->
  quorate l -> quorate l'.
Proof.
  unfold quorate. intros E Hd Hv. rewrite E. intros Hl. eapply Forall_impl; [exact Hl|]. intros r Hr Hs. apply (quorum_kept l); auto.
Qed.

Lemma accept_vaults (a : string) (v id : Z) (l : Ledger) (w : MockVault) :
  find_vault l id = Some w ->
  exists w', find_vault (accept_local a v l) id = Some w' /\ v_approvalThreshold w' = v_approvalThreshold w.
Proof.
  intros Hw. unfold accept_local. set (l1 := match find_index _ (invites l) with Some _ => _ | None => _ end).
  assert (E : vaults l1 = vaults l) by (unfold l1; now destruct (find_index _ (invites l))).
  clearbody l1. unfold find_vault in *. rewrite <- E in Hw.
  destruct (find_index _ (vaults l1)) as [i|]; [|now exists w].
  destruct (vaults l1 !! i) as [x|]; [|now exists w]. destruct (includes_str (v_guardians x) a); [now exists w|].
  cbn [set_vaults vaults]. destruct (find_alter (fun v => v_id v =? id) (add_guardian a) i (vaults l1) w) as [F|F]; try assumption.
  - intros y. reflexivity.
  - now exists w.
  - now exists (add_guardian a w).
Qed.

Lemma accept_rest (a : string) (v : Z) (l : Ledger) :
  requests (accept_local a v l) = requests l /\ documents (accept_local a v l) = documents l.
Proof.
  unfold accept_local. set (l1 := match find_index _ (invites l) with Some _ => _ | None => _ end).
  assert (E : requests l1 = requests l /\ documents l1 = documents l) by (unfold l1; now destruct (find_index _ (invites l))).
  clearbody l1. destruct (find_index _ (vaults l1)) as [i|]; [|exact E].
  destruct (vaults l1 !! i) as [x|]; [|exact E]. now destruct (includes_str (v_guardians x) a).
Qed.

Lemma approved_quorum (l : Ledger) (a : string) (sh : option string) (r : MockRequest) :
  (r_status r = 1 -> quorum l r) -> r_status (approved_request l a sh r) = 1 -> quorum l (approved_request l a sh r).
Proof.
  intros Hq. unfold approved_request. cbn [r_status]. unfold approval_status.
  assert (K : r_status r = 1 -> quorum l (mkRequest (r_requestId r) (r_documentId r) (r_requester r) (r_approvedBy r ++ [a]) 1
                                             (r_expiresAt r) (r_createdAt r) (r_beneficiaryShares r))).
  { intros Hs. destruct (Hq Hs) as (doc & v & A & B & C). exists doc, v. split; [exact A|]. split; [exact B|].
    cbn [r_approvedBy]. rewrite length_app. lia. }
  destruct (find_document l (r_documentId r)) as [doc|] eqn:D; [destruct (find_vault l (d_vaultId doc)) as [v|] eqn:V|].
  - destruct (Z.leb_spec (v_approvalThreshold v) (Z.of_nat (length (r_approvedBy r ++ [a])))) as [C|C].
    + intros _. exists doc, v. now repeat split.
    + intros Hs. exact (K Hs).
  - intros Hs. exact (K Hs).
  - intros Hs. exact (K Hs).
Qed.

Lemma effect_quorate (t : Z) (l l' : Ledger) : quorate l -> effect t l l' -> quorate l'.
Proof.
  intros Hl [|a n d gs k|a v|d Hd|a d|i a sh r Hi Ha|x|x|v o u|v e He|x]; try exact Hl.
  - revert Hl. apply quorate_same_requests; [reflexivity|auto|]. intros id v Hv. exists v. split; [|reflexivity].
    now apply find_app_some.
  - revert Hl. destruct (accept_rest a v l) as [Er Ed]. apply quorate_same_requests; [exact Er| |intros id w; apply accept_vaults].
    unfold find_document. now rewrite Ed.
  - revert Hl. apply quorate_same_requests; [reflexivity| |eauto]. intros id doc. apply find_app_some.
  - unfold quorate in *. cbn [set_requests requests]. apply Forall_app. split; [exact Hl|]. apply Forall_singleton. discriminate.
  - unfold quorate in *. cbn [set_requests requests]. apply Forall_insert; [exact Hl|].
    exact (approved_quorum l a sh r (Forall_lookup_1 _ _ i r Hl Hi)).
Qed.

(** C19: As long as nobody uses the aggregated approval, a request is approved only when as
    many distinct accounts have approved it as the vault of its document asks for. *)
Theorem approved_has_quorum (t : Z) (s : Session) (r : MockRequest) :
  reachable env_contract call false t s -> r ∈ requests (ledger s) -> r_status r = 1 ->
  quorum (ledger s) r /\ NoDup (r_approvedBy r).
Proof.
  intros Hr Hin Hs. split.
  - apply (reachable_ledger env_contract call false (fun _ l => quorate l)) in Hr;
      [|intros; constructor|auto|intros t0 l l'; apply effect_quorate|discriminate].
    unfold quorate in Hr. rewrite Forall_forall in Hr. exact (Hr r Hin Hs).
  - apply reachable_invariant in Hr as [_ Hi]. pose proof (requests_good _ _ Hi) as Hg. rewrite Forall_forall in Hg. apply (Hg r Hin).
Qed.

End Invariant.

(** ** Approvals and shares *)

Lemma find_insert {A : Type} (p : A -> bool) (l : list A) (i : nat) (x : A) :
  find_index p l = Some i -> p x = true -> List.find p (<[i := x]> l) = Some x.
Proof.
  revert i. induction l as [|y l IH]; intros i Hi Hx; cbn in *; [discriminate|].
  destruct (p y) eqn:E; [injection Hi as <-; cbn; now rewrite Hx|].
  destruct (find_index p l) as [j|]; [|discriminate]. injection Hi as <-. cbn. rewrite E. now apply IH.
Qed.

Section Local.
Variables (env_contract : option string) (call : Session -> string -> list ScVal -> res ScVal).

(** The local branch of an operation for a connected account. *)
Lemma local_branch {A : Type} (k : string -> io Session A) (chain : string -> io Session A) (s : Session) (a : string) :
  StellarLedger.isConfigured env_contract s = false -> activeAccount s = Some a -> blank a = false ->
  with_account (fun a => either env_contract (chain a) (k a)) s = k a s.
Proof. intros Hc Ha Hb. unfold with_account, either. now rewrite Ha, Hb, Hc. Qed.

Lemma with_request_found (id : Z) (f : Ledger -> MockRequest -> res MockRequest) (s : Session) (r r' : MockRequest) (i : nat) :
  find_index (fun r => r_requestId r =? id) (requests (ledger s)) = Some i -> requests (ledger s) !! i = Some r ->
  f (ledger s) r = Ok r' ->
  with_request id f s = (Ok tt, set_ledger s (set_requests (ledger s) (<[i := r']> (requests (ledger s))))).
Proof. intros Hi Hr Hf. unfold with_request. now rewrite Hi, Hr, Hf. Qed.

(** The share a guardian hands over with an approval is the one the beneficiary reads. *)
Theorem approved_share_is_delivered (s s' : Session) (a share : string) (id : Z) :
  StellarLedger.isConfigured env_contract s = false -> activeAccount s = Some a -> blank share = false ->
  approveAccess env_contract call id (Some share) s = (Ok tt, s') ->
  getBeneficiaryKeyShare id a s' = (Ok share, s').
Proof.
  intros Hc Ha Hb. unfold approveAccess, with_account. rewrite Ha.
  destruct (blank a); [discriminate|]. unfold either. rewrite Hc. unfold with_request.
  destruct (find_index _ (requests (ledger s))) as [i|] eqn:Hi; [|discriminate].
  destruct (find_index_lookup _ _ _ Hi) as (r & Hr & Hp). rewrite Hr.
  destruct (includes_str (r_approvedBy r) a); [discriminate|]. intros [= <-].
  unfold getBeneficiaryKeyShare, read, set_ledger. cbn [ledger set_requests requests].
  rewrite (find_insert _ _ _ _ Hi) by exact Hp.
  unfold approved_request. cbn [or_empty or_else r_beneficiaryShares]. rewrite !Hb. cbn [or_empty or_else].
  rewrite lookup_insert_eq. cbn. now rewrite Hb.
Qed.

(** Neither approval asks who the guardians are: any account that has not approved yet adds
    its approval, which opens the request when it completes the threshold, and an
    aggregated approval opens the request even with no guardian at all. *)
Theorem anyone_approves (s : Session) (a : string) (id : Z) (i : nat) (r : MockRequest) (doc : MockDocument) (v : MockVault)
    (gs sh : list string) (sg pk : string) :
  StellarLedger.isConfigured env_contract s = false -> activeAccount s = Some a -> blank a = false ->
  find_index (fun r => r_requestId r =? id) (requests (ledger s)) = Some i -> requests (ledger s) !! i = Some r ->
  a ∉ r_approvedBy r ->
  find_document (ledger s) (r_documentId r) = Some doc -> find_vault (ledger s) (d_vaultId doc) = Some v ->
  v_approvalThreshold v <= Z.of_nat (length (r_approvedBy r)) + 1 ->
  (exists s' r', approveAccess env_contract call id None s = (Ok tt, s') /\ requests (ledger s') !! i = Some r' /\ r_status r' = 1)
  /\ (exists s' r', approveAccessBLS env_contract call id gs sg pk sh s = (Ok tt, s')
        /\ requests (ledger s') !! i = Some r' /\ r_status r' = 1).
Proof.
  intros Hc Ha Hb Hi Hr Hna Hd Hv Ht. assert (Hlt : (i < length (requests (ledger s)))%nat) by (apply lookup_lt_Some in Hr; exact Hr).
  split.
  - exists (set_ledger s (set_requests (ledger s) (<[i := approved_request (ledger s) a None r]> (requests (ledger s))))).
    exists (approved_request (ledger s) a None r). split; [|split].
    + unfold approveAccess. rewrite (local_branch _ _ s a) by assumption. apply (with_request_found _ _ s r); try assumption.
      destruct (includes_str (r_approvedBy r) a) eqn:E; [apply includes_str_spec in E; contradiction|reflexivity].
    + cbn. now apply list_lookup_insert_eq.
    + cbn [approved_request r_status]. unfold approval_status. rewrite Hd, Hv, length_app. cbn [length].
      destruct (Z.leb_spec (v_approvalThreshold v) (Z.of_nat (length (r_approvedBy r) + 1))); [reflexivity|lia].
  - exists (set_ledger s (set_requests (ledger s) (<[i := bls_approved gs sh r]> (requests (ledger s))))), (bls_approved gs sh r).
    split; [|split].
    + unfold approveAccessBLS. rewrite (local_branch _ _ s a) by assumption. now apply (with_request_found _ _ s r).
    + cbn. now apply list_lookup_insert_eq.
    + unfold bls_approved. now destruct (bls_approve gs sh (r_approvedBy r) (r_beneficiaryShares r)).
Qed.

(** Accepting an invitation needs none: an account that was never invited becomes a guardian. *)
Lemma uninvited_guardian (s : Session) (a : string) (id : Z) (i : nat) (v : MockVault) :
  StellarLedger.isConfigured env_contract s = false -> activeAccount s = Some a -> blank a = false ->
  invites (ledger s) = [] -> find_index (fun v => v_id v =? id) (vaults (ledger s)) = Some i ->
  vaults (ledger s) !! i = Some v -> a ∉ v_guardians v ->
  exists s', acceptGuardianInvite env_contract call id s = (Ok tt, s')
    /\ vaults (ledger s') !! i = Some (add_guardian a v).
Proof.
  intros Hc Ha Hb Hinv Hi Hv Hn. unfold acceptGuardianInvite. rewrite (local_branch _ _ s a) by assumption.
  eexists. split; [reflexivity|]. unfold accept_local. rewrite Hinv. cbn [find_index set_ledger ledger].
  rewrite Hi, Hv. destruct (includes_str (v_guardians v) a) eqn:E; [apply includes_str_spec in E; contradiction|].
  cbn [set_vaults vaults]. rewrite list_lookup_alter_eq, Hv. reflexivity.
Qed.

(** ** Emergency unlock *)

Lemma fulfill_local (v j t : Z) (s : Session) :
  StellarLedger.isConfigured env_contract s = false ->
  fulfillEmergencyUnlockDelay env_contract call v j t s = save_unlock v (fulfill_unlock (emergency_unlocks (ledger s) !! v) j t) s.
Proof. intros Hc. unfold fulfillEmergencyUnlockDelay, either. now rewrite Hc. Qed.

Lemma enable_ok (existing : option MockEmergencyUnlock) (t : Z) :
  (forall e, existing = Some e -> requested e = true -> fulfilled e = true) ->
  exists c, enable_unlock existing t = Ok (mkUnlock true c t true false 0 0).
Proof.
  intros Hp. unfold enable_unlock. destruct existing as [e|]; [|eexists; reflexivity].
  destruct (requested e) eqn:Er; [rewrite (Hp e eq_refl Er)|]; eexists; reflexivity.
Qed.

(** An emergency unlock that is not pending can be requested, and is fulfilled by the first
    call at least fifteen seconds later; a second call and a call before are refused. *)
Theorem emergency_unlock_completes (s : Session) (a : string) (v t t1 t2 j : Z) :
  StellarLedger.isConfigured env_contract s = false -> activeAccount s = Some a -> blank a = false ->
  (forall e, emergency_unlocks (ledger s) !! v = Some e -> requested e = true -> fulfilled e = true) ->
  t1 < t + MOCK_EMERGENCY_CONFIRMATION_MS -> t + MOCK_EMERGENCY_CONFIRMATION_MS <= t2 ->
  exists s1 s2,
    setEmergencyMode env_contract call v true t s = (Ok tt, s1)
    /\ fulfillEmergencyUnlockDelay env_contract call v j t1 s1 = (Throw "Emergency unlock confirmations not met"%string, s1)
    /\ fulfillEmergencyUnlockDelay env_contract call v j t2 s1 = (Ok tt, s2)
    /\ (exists e, emergency_unlocks (ledger s2) !! v = Some e /\ fulfilled e = true
          /\ unlockAt e = seconds t2 + MOCK_EMERGENCY_BASE_DELAY_SEC + j)
    /\ fulfillEmergencyUnlockDelay env_contract call v j t2 s2 = (Throw "No emergency unlock request"%string, s2).
Proof.
  intros Hc Ha Hb Hp H1 H2. destruct (enable_ok _ t Hp) as [c Hen].
  set (saved e := fun x => set_ledger x (set_emergency (ledger x) (<[v := e]> (emergency_unlocks (ledger x))))).
  set (s1 := saved (mkUnlock true c t true false 0 0) s).
  set (done := mkUnlock true c t true true (seconds t2 + MOCK_EMERGENCY_BASE_DELAY_SEC + j) (seconds t2 + 256 + j / 5)).
  assert (L1 : emergency_unlocks (ledger s1) !! v = Some (mkUnlock true c t true false 0 0)) by apply lookup_insert_eq.
  assert (L2 : emergency_unlocks (ledger (saved done s1)) !! v = Some done) by apply lookup_insert_eq.
  exists s1, (saved done s1). rewrite !fulfill_local by exact Hc. rewrite L1, L2. repeat split.
  - unfold setEmergencyMode. rewrite (local_branch _ _ s a) by assumption. unfold bind, read. now rewrite Hen.
  - cbn. destruct (Z.ltb_spec t1 (t + MOCK_EMERGENCY_CONFIRMATION_MS)); [reflexivity|lia].
  - cbn. destruct (Z.ltb_spec t2 (t + MOCK_EMERGENCY_CONFIRMATION_MS)); [lia|reflexivity].
  - exists done. now repeat split.
Qed.

End Local.

(** ** Witnesses *)

Definition no_chain : Session -> string -> list ScVal -> res ScVal := fun _ _ _ => Throw "no contract"%string.
Definition start (a : string) : Session := mkSession (Some a) "" "" empty_ledger.

(** Alice creates a vault with threshold one and a document; Mallory requests it. *)
Definition vaulted : Session := (createVault None no_chain "v" "" ["Bob"] 1 1000 (start "Alice")).2.
Definition filed : Session := (addDocument None no_chain 1 "m" "h" 1 0 ["Bob"] ["s"] 2000 vaulted).2.
Definition mallory : Session := mkSession (Some "Mallory"%string) "" "" (ledger filed).
Definition asked : Session := (requestAccess None no_chain 1 3000 mallory).2.

Lemma asked_reachable (bls : bool) : reachable None no_chain bls 3000 asked.
Proof.
  apply (R_request _ _ bls 2000); [|lia]. apply (R_wallet _ _ bls 2000); [|lia].
  apply (R_addDocument _ _ bls 1000); [|lia]. apply (R_createVault _ _ bls 0); [|lia]. apply R_start. lia.
Qed.

Lemma ledger_invariant_witness : invariant 3000 (ledger asked).
Proof. exact (ledger_invariant None no_chain true 3000 asked (asked_reachable true)). Defined.

Definition opened_by_requester : Session := (approveAccess None no_chain 1 None asked).2.

Lemma approved_has_quorum_witness :
  exists r, r ∈ requests (ledger opened_by_requester) /\ r_approvedBy r = ["Mallory"%string]
            /\ quorum (ledger opened_by_requester) r /\ NoDup (r_approvedBy r).
Proof.
  eexists. split; [apply list_elem_of_singleton; reflexivity|]. split; [reflexivity|].
  apply (approved_has_quorum None no_chain 4000 opened_by_requester); [|apply list_elem_of_singleton; reflexivity|reflexivity].
  apply (R_approve _ _ false 3000); [apply asked_reachable|lia].
Defined.

Lemma anyone_approves_witness :
  (exists s' r', approveAccess None no_chain 1 None asked = (Ok tt, s') /\ requests (ledger s') !! 0%nat = Some r' /\ r_status r' = 1)
  /\ (exists s' r', approveAccessBLS None no_chain 1 [] "" "" [] asked = (Ok tt, s')
        /\ requests (ledger s') !! 0%nat = Some r' /\ r_status r' = 1).
Proof.
  eapply (anyone_approves None no_chain asked "Mallory" 1 0); try reflexivity.
  cbn. apply not_elem_of_nil.
Defined.

Lemma approved_share_is_delivered_witness :
  getBeneficiaryKeyShare 1 "Mallory" (approveAccess None no_chain 1 (Some "k"%string) asked).2
  = (Ok "k"%string, (approveAccess None no_chain 1 (Some "k"%string) asked).2).
Proof. apply (approved_share_is_delivered None no_chain asked); reflexivity. Defined.

Lemma emergency_unlock_completes_witness :
  exists s1 s2,
    setEmergencyMode None no_chain 1 true 5000 vaulted = (Ok tt, s1)
    /\ fulfillEmergencyUnlockDelay None no_chain 1 7 6000 s1 = (Throw "Emergency unlock confirmations not met"%string, s1)
    /\ fulfillEmergencyUnlockDelay None no_chain 1 7 20000 s1 = (Ok tt, s2)
    /\ (exists e, emergency_unlocks (ledger s2) !! 1 = Some e /\ fulfilled e = true
          /\ unlockAt e = seconds 20000 + MOCK_EMERGENCY_BASE_DELAY_SEC + 7)
    /\ fulfillEmergencyUnlockDelay None no_chain 1 7 20000 s2 = (Throw "No emergency unlock request"%string, s2).
Proof.
  apply (emergency_unlock_completes None no_chain vaulted "Alice" 1 5000 6000 20000 7); try reflexivity; try (cbn; lia).
  intros e He. discriminate He.
Defined.
