(* ===== verification/StellarIdentity.v ===== *)
(** * StellarIdentity: the binding of an EVM and a Stellar identity in stellar.service.ts

    The Stellar SDK (key encoding), ethers (Keccak, EIP-191 recovery) and tweetnacl
    (Ed25519) are packages: the class [IdentityCrypto].  The registry contract is an
    argument like the vault contract of StellarLedger.  Time stamps are whole numbers. *)

From Stdlib Require Import Ascii String ZArith Lia Bool.
From stdpp Require Import base list gmap strings.
From S2P Require Import Prelude Bytes JsString Base64 Hex JsonText JsNumber KeyInbox StellarLedger.

Open Scope list_scope.
Open Scope Z_scope.

Class IdentityCrypto : Type := {
  decodeEd25519PublicKey : string -> res (list Z);
  encodeEd25519PublicKey : list Z -> string;
  keccak256 : list Z -> string;
  getBytes : string -> res (list Z);
  (** the address that signed the message *)
  verifyMessage : list Z -> string -> res string;
  (** [nacl.sign.detached.verify(message, signature, publicKey)] *)
  verify_detached : list Z -> list Z -> list Z -> res bool;
  (** [Signature.from(signature).yParity] *)
  yParity : string -> res Z
}.

Record CrossChainIdentityBinding : Type := mkBinding {
  evmAddress : string; stellarAddress : string; stellarPublicKey : string; timestamp : Z;
  evmSignature : string; stellarSignature : string
}.

(** ** The payload both wallets sign *)

Definition BIND_IDENTITY_PREFIX : list Z := [66; 105; 110; 100; 73; 100; 101; 110; 116; 105; 116; 121].

(** [buffer.set(part, offset)] *)
Definition set_bytes (offset : nat) (part buffer : list Z) : res (list Z) :=
  if (length buffer <? offset + length part)%nat then Throw "RangeError: offset is out of bounds"%string
  else Ok (firstn offset buffer ++ part ++ skipn (offset + length part) buffer).

Definition buildIdentityBindingPayload (evmAddressBytes stellarPublicKeyBytes : list Z) (timestamp : Z) : res (list Z) :=
  let! p := set_bytes 0 BIND_IDENTITY_PREFIX (repeat 0 (12 + 20 + 32 + 8)) in
  let! p := set_bytes 12 evmAddressBytes p in
  let! p := set_bytes 32 stellarPublicKeyBytes p in
  set_bytes 64 (be_bytes 8 timestamp) p.

Section Identity.
Context {C : IdentityCrypto}.
Variables (env_contract env_registry : option string).
Variables (query registry_query registry_call : Session -> string -> list ScVal -> res ScVal).

Definition buildIdentityBindingMessageHash (evmAddress stellarAddress : string) (timestamp : Z) : res string :=
  let! stellarPubkey := decodeEd25519PublicKey stellarAddress in
  let! evmBytes := hexToBytes evmAddress in
  throw_if negb (length evmBytes =? 20)%nat with "Invalid EVM address"%string;;
  let! payload := buildIdentityBindingPayload evmBytes stellarPubkey timestamp in
  Ok (keccak256 payload).

Definition encodeStellarPublicKey (publicKeyHex : string) : res string :=
  let! bytes := hexToBytes publicKeyHex in
  throw_if negb (length bytes =? 32)%nat with "Invalid Stellar public key length"%string;;
  Ok (encodeEd25519PublicKey bytes).

(** r and s in hexadecimal, and the recovery id *)
Definition splitEvmSignature (signatureHex : string) : res (string * Z) :=
  let! bytes := hexToBytes signatureHex in
  throw_if negb (length bytes =? 65)%nat with "EVM signature must be 65 bytes"%string;;
  let v := nth 64 bytes 0 in
  let recoveryId := if (v =? 27) || (v =? 28) then v - 27 else v in
  throw_if negb (recoveryId =? 0) && negb (recoveryId =? 1) with "Invalid EVM signature recovery id"%string;;
  Ok (("0x" ++ bytes_hex (firstn 64 bytes))%string, recoveryId).

(** ** Answers of the registry *)

Definition toHexString (v : ScVal) : string :=
  match v with
  | SvStr s => if startsWith "0x" s then s else ("0x" ++ s)%string
  | SvBytes l => ("0x" ++ bytes_hex l)%string
  | _ => ""%string
  end.

(** The EVM address, the public key and the time of a binding. *)
Definition normalizeBindingResult (result : ScVal) : option (string * string * number) :=
  match result with
  | SvMap _ | SvList _ | SvBytes _ =>
      let rawEvm := sc_or (sc_field "evm_address" result) (sc_field "evmAddress" result) in
      let rawPk := sc_or (sc_field "stellar_pubkey" result) (sc_field "stellarPublicKey" result) in
      match rawPk, sc_field "timestamp" result with
      | SvNull, _ | _, SvNull => None
      | _, rawTs => Some (toHexString rawEvm, toHexString rawPk, Number_sc rawTs)
      end
  | _ => None
  end.

Definition getIdentityRegistryContractId : string := or_empty env_registry.
Definition isIdentityRegistryConfigured : bool := negb (blank getIdentityRegistryContractId).

(** ** Operations *)

Definition norm_evm (evmAddress : string) : string := trim (toLowerCase evmAddress).

Definition bind_maps (evm stellar : string) (publicKey : option string) (l : Ledger) : Ledger :=
  let normEvm := norm_evm evm in
  let normStellar := trim stellar in
  let l1 := set_cross l (<[normEvm := normStellar]> (cross_evm_to_stellar l))
                        (<[normStellar := normEvm]> (cross_stellar_to_evm l)) (cross_evm_to_pubkey l) in
  if blank (or_empty publicKey) then l1
  else set_public_keys
         (set_cross l1 (cross_evm_to_stellar l1) (cross_stellar_to_evm l1)
            (<[normEvm := or_empty publicKey]> (cross_evm_to_pubkey l1)))
         (<[normStellar := or_empty publicKey]> (public_keys l1)).

Definition saveCrossChainBindingMock (evm stellar : string) (publicKey : option string) : io Session unit :=
  update (bind_maps evm stellar publicKey).

Definition registerCrossChainIdentity (stellar evm : string) (publicKey : option string) : io Session unit :=
  saveCrossChainBindingMock evm stellar publicKey.

(** [map[key] || null] *)
Definition or_null (x : option string) : option string := if blank (or_empty x) then None else x.

(** The encoding of the key is returned as a promise, so that its error is not caught. *)
Definition resolveEvmToStellar (evm : string) : io Session (option string) :=
  fun s =>
    let normEvm := norm_evm evm in
    let local := or_null (cross_evm_to_stellar (ledger s) !! normEvm) in
    if isIdentityRegistryConfigured then
      match (let! args := hexToBytes normEvm in registry_query s "resolve_evm_to_stellar" [SvBytes args]) with
      | Throw _ => (Ok local, s)
      | Ok v =>
          match normalizeBindingResult v with
          | Some (_, pk, _) => if blank pk then (Ok local, s) else (res_map Some (encodeStellarPublicKey pk), s)
          | None => (Ok local, s)
          end
      end
    else (Ok local, s).

Definition resolveStellarToEvm (stellar : string) : io Session (option string) :=
  fun s =>
    let normStellar := trim stellar in
    let local := or_null (cross_stellar_to_evm (ledger s) !! normStellar) in
    if isIdentityRegistryConfigured then
      match (let! pubkey := decodeEd25519PublicKey normStellar in registry_query s "resolve_stellar_to_evm" [SvBytes pubkey]) with
      | Throw _ => (Ok local, s)
      | Ok v =>
          match normalizeBindingResult v with
          | Some (evm, _, _) => if blank evm then (Ok local, s) else (Ok (Some (toLowerCase evm)), s)
          | None => (Ok local, s)
          end
      end
    else (Ok local, s).

Definition resolveEvmToPublicKey (evm : string) : io Session (option string) :=
  fun s =>
    let normEvm := norm_evm evm in
    match or_null (cross_evm_to_pubkey (ledger s) !! normEvm) with
    | Some k => (Ok (Some k), s)
    | None =>
        (do! stellarAddr <- resolveEvmToStellar normEvm in
         match stellarAddr with
         | Some a => if blank a then ret None
                     else do! pubKey <- getUserPublicKey env_contract query a in ret (or_null (Some pubKey))
         | None => ret None
         end) s
    end.

Definition lift {A : Type} (r : res A) : io Session A := fun s => (r, s).

(** [if (!a || ...) throw] and the lengths of the addresses *)
Definition binding_checks (b : CrossChainIdentityBinding) : res (list Z * list Z) :=
  throw_if blank (evmAddress b) || blank (stellarAddress b) || blank (stellarPublicKey b) with "Missing binding addresses"%string;;
  throw_if blank (evmSignature b) || blank (stellarSignature b) with "Both EVM and Stellar signatures are required"%string;;
  let! evmBytes := hexToBytes (evmAddress b) in
  let! pkBytes := hexToBytes (stellarPublicKey b) in
  throw_if negb (length evmBytes =? 20)%nat with "Invalid EVM address"%string;;
  throw_if negb (length pkBytes =? 32)%nat with "Invalid Stellar public key"%string;;
  Ok (evmBytes, pkBytes).

(** Both signatures, checked in the browser. *)
Definition local_checks (b : CrossChainIdentityBinding) (pkBytes : list Z) : res unit :=
  let! messageHash := buildIdentityBindingMessageHash (evmAddress b) (stellarAddress b) (timestamp b) in
  let! message := getBytes messageHash in
  let! recovered := verifyMessage message (evmSignature b) in
  throw_if negb (same_address recovered (evmAddress b)) with "Invalid EVM signature for identity binding"%string;;
  let! message := getBytes messageHash in
  let! sg := hexToBytes (stellarSignature b) in
  let! stellarOk := verify_detached message sg pkBytes in
  throw_if negb stellarOk with "Invalid Stellar signature for identity binding"%string;;
  Ok tt.

Definition registry_args (b : CrossChainIdentityBinding) (evmBytes pkBytes : list Z) : res (list ScVal) :=
  let! '(rs, recoveryId) := splitEvmSignature (evmSignature b) in
  let! rsBytes := hexToBytes rs in
  let! sg := hexToBytes (stellarSignature b) in
  Ok [SvBytes evmBytes; SvBytes pkBytes; SvNum (timestamp b); SvBytes rsBytes; SvNum recoveryId; SvBytes sg].

Definition bindIdentity (b : CrossChainIdentityBinding) : io Session unit :=
  do! ' (evmBytes, pkBytes) <- lift (binding_checks b) in
  if isIdentityRegistryConfigured then
    do! args <- lift (registry_args b evmBytes pkBytes) in
    fun s => (res_map (fun _ => tt) (registry_call s "bind_identity" args), s)
  else
    do! _ <- lift (local_checks b pkBytes) in
    saveCrossChainBindingMock (evmAddress b) (stellarAddress b) (Some (stellarPublicKey b)).

(** ** Signing *)

(** The signer is the wallet of the page unless one is given; there may be none. *)
Definition signIdentityBindingWithMetaMask (wallet signer : option (list Z -> res string)) (messageHash : string)
    : res (string * Z) :=
  match (match signer with Some _ => signer | None => wallet end) with
  | None => Throw "MetaMask wallet is not available"%string
  | Some signMessage =>
      let! message := getBytes messageHash in
      let! signature := signMessage message in
      let! recoveryId := yParity signature in
      Ok (signature, recoveryId)
  end.

(** [signBlob], when the wallet has it, takes and returns base64; an empty answer is a refusal. *)
Definition signIdentityBindingWithFreighter (signBlob : option (string -> res string)) (messageHash : string) : res string :=
  match signBlob with
  | None => Throw "Freighter signBlob is not available"%string
  | Some sign =>
      let! blob := hexToBytes messageHash in
      let! signed := sign (btoa blob) in
      throw_if blank signed with "Freighter signing was rejected"%string;;
      let! raw := atob signed in
      Ok ("0x" ++ bytes_hex raw)%string
  end.

End Identity.

(** * Who can bind an identity, and what a binding resolves to *)

Open Scope list_scope.
Open Scope Z_scope.

(** ** Hexadecimal *)

Lemma hexToBytes_hex (l : list Z) : bytes l -> hexToBytes ("0x" ++ bytes_hex l)%string = Ok l.
Proof.
  intros Hl. unfold hexToBytes. change (strip_0x ("0x" ++ bytes_hex l)) with (bytes_hex l).
  rewrite bytes_hex_length by exact Hl. rewrite Nat.odd_mul. cbn [Nat.odd Nat.even negb andb].
  now rewrite hex_bytes_bytes_hex.
Qed.

(** ** The payload *)

Lemma set_bytes_prefix (pre part rest buffer : list Z) (n : nat) :
  buffer = pre ++ rest -> n = length pre -> (length part <= length rest)%nat ->
  set_bytes n part buffer = Ok ((pre ++ part) ++ skipn (length part) rest).
Proof.
  intros -> -> Hl. unfold set_bytes. rewrite length_app.
  destruct (Nat.ltb_spec (length pre + length rest) (length pre + length part)); [lia|]. f_equal.
  rewrite firstn_app, firstn_all, Nat.sub_diag, firstn_O, app_nil_r, <- app_assoc. do 2 f_equal.
  rewrite skipn_app, skipn_all2 by lia. rewrite app_nil_l. f_equal. lia.
Qed.

Lemma payload_layout (evm pk : list Z) (t : Z) : length evm = 20%nat -> length pk = 32%nat ->
  buildIdentityBindingPayload evm pk t = Ok (BIND_IDENTITY_PREFIX ++ evm ++ pk ++ be_bytes 8 t).
Proof.
  intros He Hp. unfold buildIdentityBindingPayload. pose proof (be_bytes_length 8 t) as Ht.
  erewrite (set_bytes_prefix []); [|reflexivity..|cbn; lia]. cbn [res_bind].
  erewrite set_bytes_prefix; [|reflexivity..|rewrite He; cbn; lia]. cbn [res_bind].
  erewrite set_bytes_prefix; [|reflexivity|rewrite !length_app, He; reflexivity|
    rewrite He, Hp; cbn; lia]. cbn [res_bind].
  erewrite set_bytes_prefix; [|reflexivity|rewrite !length_app, He, Hp; reflexivity|
    rewrite He, Hp, Ht; cbn; lia].
  rewrite Ht, He, Hp. cbn [length BIND_IDENTITY_PREFIX skipn repeat Nat.add app]. now rewrite app_nil_r, <- !app_assoc.
Qed.

Lemma payload_injective_values (evm evm' pk pk' : list Z) (t t' : Z) :
  length evm = 20%nat -> length evm' = 20%nat -> length pk = 32%nat -> length pk' = 32%nat ->
  buildIdentityBindingPayload evm pk t = buildIdentityBindingPayload evm' pk' t' ->
  evm = evm' /\ pk = pk' /\ be_bytes 8 t = be_bytes 8 t'.
Proof.
  intros He He' Hp Hp'. rewrite !payload_layout by assumption. intros [= H].
  apply app_inj_1 in H as [-> H]; [|congruence]. apply app_inj_1 in H as [-> H]; [|congruence]. auto.
Qed.

(** ** Binding in the browser *)

Section Binding.
Context {C : IdentityCrypto}.
Variables (env_contract env_registry : option string).
Variables (query registry_query registry_call : Session -> string -> list ScVal -> res ScVal).
Hypothesis no_registry : isIdentityRegistryConfigured env_registry = false.

Abbreviation bind b := (bindIdentity env_registry registry_call b).
Abbreviation stellar_of a := (resolveEvmToStellar env_registry registry_query a).
Abbreviation evm_of c := (resolveStellarToEvm env_registry registry_query c).
Abbreviation key_of a := (resolveEvmToPublicKey env_contract env_registry query registry_query a).

Definition bound (b : CrossChainIdentityBinding) (s : Session) : Session :=
  set_ledger s (bind_maps (evmAddress b) (stellarAddress b) (Some (stellarPublicKey b)) (ledger s)).

Lemma bind_local (b : CrossChainIdentityBinding) (s : Session) :
  bind b s = match binding_checks b with
             | Ok (evm, pk) => match local_checks b pk with Ok _ => (Ok tt, bound b s) | Throw e => (Throw e, s) end
             | Throw e => (Throw e, s)
             end.
Proof.
  unfold bindIdentity, bindIdentity, KeyInbox.bind at 1, lift. destruct (binding_checks b) as [[evm pk]|e]; [|reflexivity].
  rewrite no_registry. unfold KeyInbox.bind. now destruct (local_checks b pk).
Qed.

Lemma checks_ok (b : CrossChainIdentityBinding) (evm pk : list Z) :
  binding_checks b = Ok (evm, pk) ->
  blank (evmAddress b) = false /\ blank (stellarAddress b) = false /\ blank (stellarPublicKey b) = false
  /\ blank (evmSignature b) = false /\ blank (stellarSignature b) = false
  /\ hexToBytes (evmAddress b) = Ok evm /\ hexToBytes (stellarPublicKey b) = Ok pk /\ length evm = 20%nat /\ length pk = 32%nat.
Proof.
  unfold binding_checks. destruct (blank (evmAddress b)), (blank (stellarAddress b)), (blank (stellarPublicKey b)); try discriminate.
  destruct (blank (evmSignature b)), (blank (stellarSignature b)); try discriminate. cbn [orb].
  destruct (hexToBytes (evmAddress b)) as [e|]; [|discriminate]. destruct (hexToBytes (stellarPublicKey b)) as [k|]; [|discriminate].
  cbn [res_bind]. destruct (Nat.eqb_spec (length e) 20); [|discriminate]. destruct (Nat.eqb_spec (length k) 32); [|discriminate].
  intros [= <- <-]. repeat split; assumption.
Qed.

(** What the two signatures are checked against. *)
Definition signed (b : CrossChainIdentityBinding) (pk : list Z) : Prop :=
  exists evmKey stellarKey payload message who sg,
    decodeEd25519PublicKey (stellarAddress b) = Ok stellarKey /\ hexToBytes (evmAddress b) = Ok evmKey /\ length evmKey = 20%nat
    /\ buildIdentityBindingPayload evmKey stellarKey (timestamp b) = Ok payload
    /\ getBytes (keccak256 payload) = Ok message
    /\ verifyMessage message (evmSignature b) = Ok who /\ same_address who (evmAddress b) = true
    /\ hexToBytes (stellarSignature b) = Ok sg /\ verify_detached message sg pk = Ok true.

Lemma local_checks_signed (b : CrossChainIdentityBinding) (pk : list Z) : local_checks b pk = Ok tt <-> signed b pk.
Proof.
  unfold local_checks, buildIdentityBindingMessageHash, signed. split.
  - destruct (decodeEd25519PublicKey (stellarAddress b)) as [k|] eqn:E1; [|discriminate].
    destruct (hexToBytes (evmAddress b)) as [e|] eqn:E2; [|discriminate]. cbn [res_bind].
    destruct (Nat.eqb_spec (length e) 20) as [E3|]; [|discriminate]. cbn [negb].
    destruct (buildIdentityBindingPayload e k (timestamp b)) as [p|] eqn:E4; [|discriminate]. cbn [res_bind].
    destruct (getBytes (keccak256 p)) as [m|] eqn:E5; [|discriminate]. cbn [res_bind].
    destruct (verifyMessage m (evmSignature b)) as [w|] eqn:E6; [|discriminate]. cbn [res_bind].
    destruct (same_address w (evmAddress b)) eqn:E7; [|discriminate]. cbn [negb].
    destruct (hexToBytes (stellarSignature b)) as [g|] eqn:E8; [|discriminate]. cbn [res_bind].
    destruct (verify_detached m g pk) as [[]|] eqn:E9; try discriminate. intros _. now exists e, k, p, m, w, g.
  - intros (e & k & p & m & w & g & E1 & E2 & E3 & E4 & E5 & E6 & E7 & E8 & E9).
    rewrite E1. cbn [res_bind]. rewrite E2. cbn [res_bind]. rewrite E3. cbn [Nat.eqb negb]. rewrite E4. cbn [res_bind].
    rewrite E5. cbn [res_bind]. rewrite E6. cbn [res_bind]. rewrite E7. cbn [negb]. rewrite E8. cbn [res_bind]. now rewrite E9.
Qed.

(** What a recorded binding resolves to. *)
Definition resolves (s : Session) (evm stellar key : string) : Prop :=
  (forall a, norm_evm a = norm_evm evm -> stellar_of a s = (Ok (Some (trim stellar)), s) /\ key_of a s = (Ok (Some key), s))
  /\ (forall c, trim c = trim stellar -> evm_of c s = (Ok (Some (norm_evm evm)), s))
  /\ (StellarLedger.isConfigured env_contract s = false -> getUserPublicKey env_contract query (trim stellar) s = (Ok key, s)).

Lemma or_null_some (x : string) : blank x = false -> or_null (Some x) = Some x.
Proof. intros H. unfold or_null, or_empty, or_else. now rewrite !H. Qed.

Lemma bound_resolves (b : CrossChainIdentityBinding) (s : Session) :
  blank (stellarPublicKey b) = false -> blank (norm_evm (evmAddress b)) = false -> blank (trim (stellarAddress b)) = false ->
  resolves (bound b s) (evmAddress b) (stellarAddress b) (stellarPublicKey b).
Proof.
  intros Hk He Hs. unfold resolves, bound, bind_maps.
  assert (Ek : blank (or_empty (Some (stellarPublicKey b))) = false) by (unfold or_empty, or_else; now rewrite Hk).
  rewrite Ek. assert (Eo : or_empty (Some (stellarPublicKey b)) = stellarPublicKey b) by (unfold or_empty, or_else; now rewrite Hk).
  rewrite Eo. repeat split.
  - unfold resolveEvmToStellar. rewrite no_registry. cbn. now rewrite H, lookup_insert_eq, or_null_some.
  - unfold resolveEvmToPublicKey. cbn. now rewrite H, lookup_insert_eq, or_null_some.
  - intros c Hc. unfold resolveStellarToEvm. rewrite no_registry. cbn. now rewrite Hc, lookup_insert_eq, or_null_some.
  - intros Hc. unfold getUserPublicKey. unfold StellarLedger.isConfigured, StellarLedger.getContractId in *. cbn in *. rewrite Hc.
    rewrite lookup_insert_eq. cbn. now rewrite Hk.
Qed.

(** The fields are given and the addresses have their lengths. *)
Definition well_formed (b : CrossChainIdentityBinding) (evm pk : list Z) : Prop :=
  blank (evmAddress b) = false /\ blank (stellarAddress b) = false /\ blank (stellarPublicKey b) = false
  /\ blank (evmSignature b) = false /\ blank (stellarSignature b) = false
  /\ hexToBytes (evmAddress b) = Ok evm /\ hexToBytes (stellarPublicKey b) = Ok pk /\ length evm = 20%nat /\ length pk = 32%nat.

Lemma well_formed_checks (b : CrossChainIdentityBinding) (evm pk : list Z) :
  binding_checks b = Ok (evm, pk) <-> well_formed b evm pk.
Proof.
  split; [apply checks_ok|]. intros (E1 & E2 & E3 & E4 & E5 & E6 & E7 & E8 & E9). unfold binding_checks.
  rewrite E1, E2, E3, E4, E5, E6. cbn [orb res_bind]. rewrite E7. cbn [res_bind]. now rewrite E8, E9.
Qed.

(** C29: Where no registry contract is configured, a binding is recorded exactly when its fields are given
    with their lengths and it carries two signatures of one message, the digest of the prefix, the
    EVM address, the key encoded in the Stellar address and the time: one that recovers to the EVM
    address, and one that verifies under the public key given with the binding.  (That this is the
    key of the Stellar address is not required.)  A refused binding changes nothing; a recorded
    one resolves in all directions, however its addresses are spelled. *)
Theorem recorded_binding (b : CrossChainIdentityBinding) (s : Session) :
  ((bind b s).1 = Ok tt <-> exists evm pk, well_formed b evm pk /\ signed b pk)
  /\ (forall e, (bind b s).1 = Throw e -> (bind b s).2 = s)
  /\ ((bind b s).1 = Ok tt -> blank (norm_evm (evmAddress b)) = false -> blank (trim (stellarAddress b)) = false ->
       resolves (bind b s).2 (evmAddress b) (stellarAddress b) (stellarPublicKey b)).
Proof.
  rewrite bind_local. destruct (binding_checks b) as [[evm pk]|e] eqn:Ec.
  - apply well_formed_checks in Ec. pose proof (local_checks_signed b pk) as Hs.
    destruct (local_checks b pk) as [[]|e]; cbn [fst snd]; (split; [split|split]).
    + intros _. exists evm, pk. split; [exact Ec|]. now apply Hs.
    + reflexivity.
    + discriminate.
    + intros _ He Ha. apply bound_resolves; auto. apply Ec.
    + discriminate.
    + intros (evm' & pk' & Hw & Hsig). exfalso.
      destruct Ec as (_ & _ & _ & _ & _ & _ & E & _), Hw as (_ & _ & _ & _ & _ & _ & E' & _).
      rewrite E in E'. injection E' as <-. discriminate (proj2 Hs Hsig).
    + reflexivity.
    + discriminate.
  - cbn [fst snd]. split; [split|split]; try discriminate; [|reflexivity].
    intros (evm & pk & Hw & _). apply well_formed_checks in Hw. congruence.
Qed.

(** The public key of a binding need not be the key of its Stellar address: whoever signs
    with an EVM wallet and any Ed25519 key of its own becomes the identity of any Stellar
    address, and its public key replaces the one registered for that address. *)
Theorem victim_key_replaced (b : CrossChainIdentityBinding) (s : Session) (pk : list Z) :
  StellarLedger.isConfigured env_contract s = false ->
  blank (norm_evm (evmAddress b)) = false -> blank (trim (stellarAddress b)) = false ->
  blank (evmSignature b) = false -> blank (stellarSignature b) = false -> blank (stellarPublicKey b) = false ->
  hexToBytes (stellarPublicKey b) = Ok pk -> length pk = 32%nat -> signed b pk ->
  exists s', bind b s = (Ok tt, s')
    /\ getUserPublicKey env_contract query (trim (stellarAddress b)) s' = (Ok (stellarPublicKey b), s')
    /\ evm_of (stellarAddress b) s' = (Ok (Some (norm_evm (evmAddress b))), s').
Proof.
  intros Hc He Hs Hes Hss Hk Hpk Lpk Hsig. exists (bound b s).
  assert (Ec : exists evm, binding_checks b = Ok (evm, pk)).
  { destruct Hsig as (e & k & p & m & w & g & _ & E2 & E3 & _). exists e. unfold binding_checks.
    assert (Ee : blank (evmAddress b) = false) by (destruct (evmAddress b); [discriminate He|reflexivity]).
    assert (Es : blank (stellarAddress b) = false) by (destruct (stellarAddress b); [discriminate Hs|reflexivity]).
    rewrite Ee, Es, Hk, Hes, Hss, E2. cbn [orb res_bind]. rewrite Hpk. cbn [res_bind]. now rewrite E3, Lpk. }
  destruct Ec as [evm Ec]. destruct (bound_resolves b s Hk He Hs) as (_ & R2 & R3). split; [|split].
  - rewrite bind_local, Ec. apply local_checks_signed in Hsig. now rewrite Hsig.
  - now apply R3.
  - now apply R2.
Qed.

(** Binding an EVM address anew leaves the Stellar address of its old binding behind. *)
Lemma stale_inverse (b1 b2 : CrossChainIdentityBinding) (s : Session) :
  blank (norm_evm (evmAddress b1)) = false -> norm_evm (evmAddress b2) = norm_evm (evmAddress b1) ->
  trim (stellarAddress b1) <> trim (stellarAddress b2) -> blank (stellarPublicKey b2) = false ->
  evm_of (stellarAddress b1) (bound b2 (bound b1 s)) = (Ok (Some (norm_evm (evmAddress b1))), bound b2 (bound b1 s)).
Proof.
  intros He Heq Hne Hk. unfold resolveStellarToEvm. rewrite no_registry. unfold bound at 1, bind_maps.
  destruct (blank (or_empty (Some (stellarPublicKey b2)))) eqn:E; cbn -[bound]; (rewrite lookup_insert_ne by congruence);
    unfold bound, bind_maps; destruct (blank (or_empty (Some (stellarPublicKey b1)))); cbn;
    now rewrite lookup_insert_eq, or_null_some.
Qed.

End Binding.

(** ** Two honest wallets *)

(** Documented behaviour of the packages: a digest is printed in hexadecimal, [getBytes]
    reads hexadecimal, and the key encoding can be undone. *)
Class IdentityLaws (C : IdentityCrypto) : Type := {
  digest : list Z -> list Z;
  digest_bytes : forall p, bytes (digest p);
  keccak_hex : forall p, keccak256 p = ("0x" ++ bytes_hex (digest p))%string;
  getBytes_hex : forall l, bytes l -> getBytes ("0x" ++ bytes_hex l)%string = Ok l;
  strkey_roundtrip : forall pk, bytes pk -> length pk = 32%nat -> decodeEd25519PublicKey (encodeEd25519PublicKey pk) = Ok pk
}.

(** A wallet whose signatures recover to its address. *)
Record EvmWallet (C : IdentityCrypto) : Type := {
  address : string; evm_key : list Z; sign_evm : list Z -> string;
  address_key : hexToBytes address = Ok evm_key; evm_key_length : length evm_key = 20%nat;
  address_given : blank (norm_evm address) = false;
  sign_evm_given : forall m, blank (sign_evm m) = false;
  recovers : forall m, verifyMessage m (sign_evm m) = Ok address;
  has_parity : forall m, exists id, yParity (sign_evm m) = Ok id
}.

(** A wallet whose signatures verify under its public key. *)
Record StellarWallet (C : IdentityCrypto) : Type := {
  ed_pub : list Z; ed_sign : list Z -> list Z;
  ed_pub_bytes : bytes ed_pub; ed_pub_length : length ed_pub = 32%nat;
  ed_sign_bytes : forall m, bytes (ed_sign m); ed_sign_given : forall m, ed_sign m <> [];
  verifies : forall m, verify_detached m (ed_sign m) ed_pub = Ok true;
  encoding_given : blank (trim (encodeEd25519PublicKey ed_pub)) = false
}.
Arguments address {C}. Arguments sign_evm {C}. Arguments ed_pub {C}. Arguments ed_sign {C}. Arguments evm_key {C}.

(** Freighter signs the bytes of the blob and answers in base64. *)
Definition signBlob {C : IdentityCrypto} (F : StellarWallet C) (blob : string) : res string :=
  let! raw := atob blob in Ok (btoa (ed_sign F raw)).

Lemma btoa_given (l : list Z) : l <> [] -> blank (btoa l) = false.
Proof. destruct l as [|a [|b [|c l]]]; [easy|reflexivity..]. Qed.

Section Honest.
Context {C : IdentityCrypto} {L : IdentityLaws C}.
Variables (env_contract env_registry : option string).
Variables (query registry_query registry_call : Session -> string -> list ScVal -> res ScVal).

(** The key owner's own flow: with the message hash of the page signed by both wallets, the
    binding is accepted, and it resolves in all directions. *)
Theorem dual_signed_binding (W : EvmWallet C) (F : StellarWallet C) (t : Z) (s : Session) :
  isIdentityRegistryConfigured env_registry = false ->
  let stellar := encodeEd25519PublicKey (ed_pub F) in
  let key := ("0x" ++ bytes_hex (ed_pub F))%string in
  exists hash es id ss s',
    buildIdentityBindingMessageHash (address W) stellar t = Ok hash
    /\ signIdentityBindingWithMetaMask (Some (fun m => Ok (sign_evm W m))) None hash = Ok (es, id)
    /\ signIdentityBindingWithFreighter (Some (signBlob F)) hash = Ok ss
    /\ bindIdentity env_registry registry_call (mkBinding (address W) stellar key t es ss) s = (Ok tt, s')
    /\ resolves env_contract env_registry query registry_query s' (address W) stellar key.
Proof.
  intros Hr stellar key. destruct W as [addr ek se Hak Hel Hag Hsg Hrec Hpar], F as [pk sg Hpb Hpl Hsb Hsn Hver Heg].
  cbn [address sign_evm ed_pub ed_sign] in *. set (p := BIND_IDENTITY_PREFIX ++ ek ++ pk ++ be_bytes 8 t).
  assert (Hp : buildIdentityBindingPayload ek pk t = Ok p) by now apply payload_layout.
  pose proof (strkey_roundtrip pk Hpb Hpl) as Hd. pose proof (digest_bytes p) as Hdb.
  destruct (Hpar (digest p)) as [id Hid].
  assert (Hsig : signed (mkBinding addr stellar key t (se (digest p)) ("0x" ++ bytes_hex (sg (digest p)))%string) pk).
  { exists ek, pk, p, (digest p), addr, (sg (digest p)). cbn [StellarIdentity.evmAddress StellarIdentity.stellarAddress
      StellarIdentity.timestamp StellarIdentity.evmSignature StellarIdentity.stellarSignature].
    rewrite keccak_hex, getBytes_hex by exact Hdb. rewrite hexToBytes_hex by apply Hsb.
    repeat split; auto. unfold same_address. apply String.eqb_refl. }
  eexists _, (se (digest p)), id, _, _. split; [|split; [|split; [|split]]].
  - unfold buildIdentityBindingMessageHash, stellar. rewrite Hd. cbn [res_bind]. rewrite Hak. cbn [res_bind].
    rewrite Hel. cbn [Nat.eqb negb]. rewrite Hp. cbn [res_bind]. now rewrite keccak_hex.
  - unfold signIdentityBindingWithMetaMask. rewrite getBytes_hex by exact Hdb. cbn [res_bind]. now rewrite Hid.
  - unfold signIdentityBindingWithFreighter, signBlob. rewrite hexToBytes_hex by exact Hdb. cbn [res_bind ed_sign].
    rewrite atob_btoa by exact Hdb. cbn [res_bind]. rewrite btoa_given by apply Hsn.
    rewrite atob_btoa by apply Hsb. reflexivity.
  - rewrite (bind_local env_registry registry_call Hr).
    assert (Ec : binding_checks (mkBinding addr stellar key t (se (digest p)) ("0x" ++ bytes_hex (sg (digest p)))%string) = Ok (ek, pk)).
    { unfold binding_checks, key.
      cbn [StellarIdentity.evmAddress StellarIdentity.stellarAddress stellarPublicKey evmSignature stellarSignature].
      rewrite hexToBytes_hex by exact Hpb.
      assert (Ha : blank addr = false) by (destruct addr; [discriminate Hag|reflexivity]).
      assert (Hs : blank stellar = false) by (unfold stellar; destruct (encodeEd25519PublicKey pk); [discriminate Heg|reflexivity]).
      rewrite Ha, Hs, Hsg, Hak. cbn [res_bind orb append blank String.eqb]. now rewrite Hel, Hpl. }
    apply local_checks_signed in Hsig. now rewrite Ec, Hsig.
  - apply (bound_resolves env_contract env_registry query registry_query Hr); [reflexivity|exact Hag|exact Heg].
Qed.

End Honest.

(** ** Witnesses: packages that keep the whole message *)

Definition chars_of (s : string) : list Z := map (fun c => Z.of_nat (nat_of_ascii c)) (list_ascii_of_string s).
Definition text_of (l : list Z) : string := string_of_list_ascii (map (fun z => ascii_of_nat (Z.to_nat z)) l).

#[local] Instance plain_crypto : IdentityCrypto := {
  decodeEd25519PublicKey a := Ok (chars_of (slice_from 1 a));
  encodeEd25519PublicKey pk := String "G" (text_of pk);
  keccak256 p := ("0x" ++ bytes_hex (map (fun z => z mod 256) p))%string;
  getBytes := hexToBytes;
  verifyMessage m sg := if String.eqb (slice_from 42 sg) (bytes_hex m) then Ok (take 42 sg) else Throw "invalid"%string;
  verify_detached m sg pk := Ok (bool_decide (sg = pk ++ map (fun z => z mod 256) m));
  yParity _ := Ok 0
}.

Definition no_answer (s : Session) (name : string) (args : list ScVal) : res ScVal := Throw "offline"%string.
Definition evm_alice : string := "0x00000000000000000000000000000000000000a1".
Definition evm_mallory : string := "0x00000000000000000000000000000000000000b2".
Definition victim : string := String "G" (text_of (repeat 65 32)).
Definition mallory_key : list Z := repeat 7 32.
Definition key_text (pk : list Z) : string := ("0x" ++ bytes_hex pk)%string.

(** The message of a binding, and signatures of it with any keys. *)
Definition message_of (evm stellar : list Z) (t : Z) : list Z := BIND_IDENTITY_PREFIX ++ evm ++ stellar ++ be_bytes 8 t.
Definition attack : CrossChainIdentityBinding :=
  let m := message_of (hex_bytes (slice_from 2 evm_mallory)) (repeat 65 32) 1000 in
  mkBinding evm_mallory victim (key_text mallory_key) 1000 (evm_mallory ++ bytes_hex m) ("0x" ++ bytes_hex (mallory_key ++ m)).
Definition session0 : Session := mkSession None "" "" (set_public_keys empty_ledger {[victim := "the victim's key"%string]}).

Lemma attack_signed : signed attack mallory_key.
Proof.
  pose (m := message_of (hex_bytes (slice_from 2 evm_mallory)) (repeat 65 32) 1000).
  exists (hex_bytes (slice_from 2 evm_mallory)), (repeat 65 32), m, m, evm_mallory, (mallory_key ++ m).
  repeat split; vm_compute; reflexivity.
Qed.

Lemma victim_key_replaced_witness :
  getUserPublicKey None no_answer victim session0 = (Ok "the victim's key"%string, session0)
  /\ exists s', bindIdentity None no_answer attack session0 = (Ok tt, s')
       /\ getUserPublicKey None no_answer (trim victim) s' = (Ok (key_text mallory_key), s')
       /\ resolveStellarToEvm None no_answer victim s' = (Ok (Some (norm_evm evm_mallory)), s').
Proof.
  split; [reflexivity|].
  apply (victim_key_replaced None None no_answer no_answer no_answer eq_refl attack session0 mallory_key);
    try (vm_compute; reflexivity). apply attack_signed.
Defined.

(** The binding of two honest wallets. *)
Definition alice_key : list Z := repeat 66 32.
Definition alice_message : list Z := message_of (hex_bytes (slice_from 2 evm_alice)) alice_key 1000.
Definition alice_binding : CrossChainIdentityBinding :=
  mkBinding evm_alice (String "G" (text_of alice_key)) (key_text alice_key) 1000
    (evm_alice ++ bytes_hex alice_message) ("0x" ++ bytes_hex (alice_key ++ alice_message)).

Lemma recorded_binding_witness :
  (bindIdentity None no_answer alice_binding session0).1 = Ok tt
  /\ resolves None None no_answer no_answer (bindIdentity None no_answer alice_binding session0).2
       evm_alice (String "G" (text_of alice_key)) (key_text alice_key)
  /\ (bindIdentity None no_answer
        (mkBinding evm_alice victim (key_text alice_key) 1000 (evmSignature alice_binding) (stellarSignature alice_binding)) session0).2
     = session0.
Proof.
  destruct (recorded_binding None None no_answer no_answer no_answer eq_refl alice_binding session0) as ([_ Hok] & _ & Hres).
  assert (H : (bindIdentity None no_answer alice_binding session0).1 = Ok tt).
  { apply Hok. exists (hex_bytes (slice_from 2 evm_alice)), alice_key. split; [repeat split; vm_compute; reflexivity|].
    exists (hex_bytes (slice_from 2 evm_alice)), alice_key, alice_message, alice_message, evm_alice, (alice_key ++ alice_message).
    repeat split; vm_compute; reflexivity. }
  split; [exact H|]. split; [apply Hres; [exact H|vm_compute; reflexivity..]|].
  apply (recorded_binding None None no_answer no_answer no_answer eq_refl
    (mkBinding evm_alice victim (key_text alice_key) 1000 (evmSignature alice_binding) (stellarSignature alice_binding)) session0)
    with (e := "invalid"%string). vm_compute. reflexivity.
Defined.

Lemma chars_text (l : list Z) : bytes l -> chars_of (text_of l) = l.
Proof.
  intros Hl. unfold chars_of, text_of. rewrite list_ascii_of_string_of_list_ascii, map_map.
  rewrite <- (map_id l) at 2. apply List.map_ext_in. intros z Hz.
  apply (proj1 (List.Forall_forall _ _) Hl) in Hz. unfold is_byte in Hz. rewrite nat_ascii_embedding by lia. lia.
Qed.

#[local, refine] Instance plain_laws : IdentityLaws plain_crypto := { digest p := map (fun z => z mod 256) p }.
Proof.
  - intros p. apply Forall_map. apply Forall_forall. intros z _. unfold is_byte. apply Z.mod_pos_bound. lia.
  - reflexivity.
  - apply hexToBytes_hex.
  - intros pk Hb _. change (Ok (chars_of (text_of pk)) = Ok pk). now rewrite chars_text.
Defined.

Definition alice_wallet : EvmWallet plain_crypto.
Proof.
  refine (Build_EvmWallet plain_crypto evm_alice (hex_bytes (slice_from 2 evm_alice)) (fun m => (evm_alice ++ bytes_hex m)%string)
            _ _ _ _ _ _); try reflexivity; intros m.
  - unfold verifyMessage, plain_crypto. change 42%nat with (String.length evm_alice) at 1 2.
    now rewrite slice_from_app, take_app, String.eqb_refl.
  - now exists 0.
Defined.

Definition alice_freighter : StellarWallet plain_crypto.
Proof.
  refine (Build_StellarWallet plain_crypto (repeat 66 32) (fun m => repeat 66 32 ++ map (fun z => z mod 256) m) _ _ _ _ _ _);
    try reflexivity; try (intros m).
  - apply List.Forall_forall. intros z Hz. apply repeat_spec in Hz. subst z. unfold is_byte. lia.
  - apply Forall_app. split; [|exact (@digest_bytes plain_crypto plain_laws m)].
    apply List.Forall_forall. intros z Hz. apply repeat_spec in Hz. subst z. unfold is_byte. lia.
  - discriminate.
  - unfold verify_detached, plain_crypto. now rewrite bool_decide_true.
Defined.

Lemma dual_signed_binding_witness :
  exists hash es id ss s',
    buildIdentityBindingMessageHash evm_alice (encodeEd25519PublicKey (repeat 66 32)) 1000 = Ok hash
    /\ signIdentityBindingWithMetaMask (Some (fun m => Ok (evm_alice ++ bytes_hex m)%string)) None hash = Ok (es, id)
    /\ signIdentityBindingWithFreighter (Some (signBlob alice_freighter)) hash = Ok ss
    /\ bindIdentity None no_answer
         (mkBinding evm_alice (encodeEd25519PublicKey (repeat 66 32)) (key_text (repeat 66 32)) 1000 es ss) session0 = (Ok tt, s')
    /\ resolves None None no_answer no_answer s' evm_alice (encodeEd25519PublicKey (repeat 66 32)) (key_text (repeat 66 32)).
Proof. apply (dual_signed_binding None None no_answer no_answer no_answer alice_wallet alice_freighter 1000 session0 eq_refl). Defined.
