(* ===== verification/StellarSdk.v ===== *)
(** * StellarSdk: how stellar.service.ts sends a call to the Soroban contract

    The RPC server, the wallet and the SDK's encodings are outside: what they answer is
    a function of the requests so far, the [Log], so that any behaviour of theirs is
    covered.  A transaction is kept as the record of what goes into it. *)

From Stdlib Require Import Ascii String ZArith Lia Bool.
From stdpp Require Import base list strings.
From S2P Require Import Prelude JsString JsonText JsNumber KeyInbox StellarLedger.

Open Scope list_scope.
Open Scope Z_scope.

(** ** Data *)

(** An argument after its conversion. *)
#[warnings="-register-all"] Inductive ScArg : Type := ArgAddress (a : string) | ArgNative (v : ScVal) | ArgList (l : list ScArg).

Record Tx : Type := mkTx {
  source : string; sequence : string; contract : string; function : string; arguments : list ScArg
}.

(** A simulated result: the authorisations it needs, as the preimages to sign, and the value. *)
Record SimResult : Type := mkSim { auth : list string; retval : option ScVal }.
Inductive Simulation : Type := SimError (e : string) | SimResults (l : list SimResult).

(** [assembleTransaction]: the transaction with what the simulation says, each entry signed or as it came. *)
Record Prepared : Type := mkPrepared { base : Tx; entries : list (string + string) }.

Record SignResponse : Type := mkSignResponse { signedAuthEntry : option string; sign_error : option string }.
Inductive TxStatus : Type := SUCCESS | FAILED (resultXdr : string) | OtherStatus.

Inductive Event : Type :=
| GetAccount (a : string)
| Simulate (tx : Tx)
| SignAuth (preimage : string)
| SignTransaction (p : Prepared)
| Send (signedXdr : string)
| Poll (hash : string).
Abbreviation Log := (list Event).

(** What is outside; every answer may depend on all requests up to and including its own. *)
Record Env : Type := {
  canSignAuthEntry : bool; canSignTransaction : bool;
  on_account : Log -> res string;
  on_simulate : Log -> res Simulation;
  on_signAuth : Log -> res SignResponse;
  entry_fromXDR : string -> res string;
  on_signTransaction : Log -> res string;
  (** whether the status is ERROR, with the text of its result; the hash *)
  on_send : Log -> res (option string * string);
  on_poll : Log -> res TxStatus
}.

Definition request {A : Type} (e : Event) (answer : Log -> res A) : io Log A :=
  fun lg => let lg' := lg ++ [e] in (answer lg', lg').

(** ** Arguments *)

Definition is_address (s : string) : bool := startsWith "G" s && (String.length s =? 56)%nat.

(** In a query only strings are told apart. *)
Definition query_arg (v : ScVal) : ScArg :=
  match v with SvStr s => if is_address s then ArgAddress s else ArgNative v | _ => ArgNative v end.

Definition call_arg (v : ScVal) : ScArg :=
  match v with
  | SvStr s => if is_address s then ArgAddress s else ArgNative v
  | SvList l => ArgList (map query_arg l)
  | _ => ArgNative v
  end.

(** The value of the first result, null without one. *)
Definition first_retval (sim : list SimResult) : ScVal :=
  match sim with r :: _ => match retval r with Some v => v | None => SvNull end | [] => SvNull end.

Definition NULL_ACCOUNT : string := "GAAAAAAAAAAAAAAAAAAAAAAAAAAAAAAAAAAAAAAAAAAAAAAAAAAAAWHF".

Section Sdk.
Variable E : Env.

(** ** Queries *)

Definition executeSorobanQuery (account : option string) (contractAddress functionName : string) (args : list ScVal) : io Log ScVal :=
  let sourceAddress := or_else account NULL_ACCOUNT in
  let tx := mkTx sourceAddress "0" contractAddress functionName (map query_arg args) in
  do! simulation <- request (Simulate tx) (on_simulate E) in
  match simulation with
  | SimError e => throw ("Simulation failed: " ++ e)%string
  | SimResults l => ret (first_retval l)
  end.

(** ** Calls *)

(** One authorisation: an answer with neither a signature nor an error leaves the entry as it is. *)
Definition sign_entry (preimage : string) : io Log (string + string) :=
  do! signResponse <- request (SignAuth preimage) (on_signAuth E) in
  if negb (blank (or_empty (sign_error signResponse)))
  then throw ("Freighter auth entry signing failed: " ++ or_empty (sign_error signResponse))%string
  else if negb (blank (or_empty (signedAuthEntry signResponse)))
  then match entry_fromXDR E (or_empty (signedAuthEntry signResponse)) with
       | Ok entry => ret (inl entry)
       | Throw e => throw e
       end
  else ret (inr preimage).

(** The authorisations of the first result only. *)
Definition sign_entries (sim : list SimResult) : io Log (list (string + string)) :=
  match sim with
  | r :: _ =>
      match auth r with
      | [] => ret []
      | a => if canSignAuthEntry E then mapM_io sign_entry a else throw "Freighter wallet does not support signAuthEntry"
      end
  | [] => ret []
  end.

(** [while (pollAttempts < 30)] *)
Fixpoint poll (attempts : nat) (hash : string) (value : ScVal) : io Log ScVal :=
  match attempts with
  | O => throw "Transaction polling timed out"
  | S n =>
      do! txStatus <- request (Poll hash) (on_poll E) in
      match txStatus with
      | SUCCESS => ret value
      | FAILED xdr => throw ("Transaction execution failed: " ++ xdr)%string
      | OtherStatus => poll n hash value
      end
  end.

Definition POLL_ATTEMPTS : nat := 30.

(** The signature of the user, the submission and the confirmation. *)
Definition sign_and_submit (preparedTx : Prepared) (value : ScVal) : io Log ScVal :=
  if negb (canSignTransaction E) then throw "Freighter wallet does not support signTransaction"
  else
    do! signedXdr <- request (SignTransaction preparedTx) (on_signTransaction E) in
    if blank signedXdr then throw "Transaction signing rejected or failed"
    else
      do! ' (failure, hash) <- request (Send signedXdr) (on_send E) in
      match failure with
      | Some r => throw ("Transaction submission failed: " ++ r)%string
      | None => poll POLL_ATTEMPTS hash value
      end.

Definition executeSorobanCall (account : option string) (contractAddress functionName : string) (args : list ScVal) : io Log ScVal :=
  let activeAccount := or_empty account in
  if blank activeAccount then throw "Wallet not connected"
  else
    do! seq <- request (GetAccount activeAccount) (on_account E) in
    let tx := mkTx activeAccount seq contractAddress functionName (map call_arg args) in
    do! simulation <- request (Simulate tx) (on_simulate E) in
    match simulation with
    | SimError e => throw ("Simulation failed: " ++ e)%string
    | SimResults sim =>
        do! signed <- sign_entries sim in
        sign_and_submit (mkPrepared tx signed) (first_retval sim)
    end.

(** The contract of the ledger operations, after the requests [lg]. *)
Definition contract_call (env_contract : option string) (lg : Log) (s : Session) (name : string) (args : list ScVal) : res ScVal :=
  (executeSorobanCall (activeAccount s) (getContractId env_contract s) name args lg).1.
Definition contract_query (env_contract : option string) (lg : Log) (s : Session) (name : string) (args : list ScVal) : res ScVal :=
  (executeSorobanQuery (activeAccount s) (getContractId env_contract s) name args lg).1.

End Sdk.

(** ** What a call does to the outside *)

Lemma request_run {A B : Type} (e : Event) (answer : Log -> res A) (k : A -> io Log B) (lg : Log) :
  KeyInbox.bind (request e answer) k lg
  = match answer (lg ++ [e]) with Ok a => k a (lg ++ [e]) | Throw m => (Throw m, lg ++ [e]) end.
Proof. unfold KeyInbox.bind, request. now destruct (answer (lg ++ [e])). Qed.

Section Protocol.
Variable E : Env.

(** The authorisations that are asked for: all of them, unless one fails. *)
Lemma sign_all (l : list string) (lg : Log) :
  match mapM_io (sign_entry E) l lg with
  | (Ok signed, lg') => lg' = lg ++ map SignAuth l /\ length signed = length l
  | (Throw _, lg') => exists asked, lg' = lg ++ map SignAuth asked
  end.
Proof.
  revert lg. induction l as [|a l IH]; intros lg; cbn [mapM_io]; [now rewrite app_nil_r|].
  unfold KeyInbox.bind at 1, sign_entry. rewrite request_run.
  destruct (on_signAuth E (lg ++ [SignAuth a])) as [sr|e]; [|now exists [a]].
  destruct (negb (blank (or_empty (sign_error sr)))); [now exists [a]|].
  assert (K : forall x : string + string,
    match KeyInbox.bind (mapM_io (sign_entry E) l) (fun ys => ret (x :: ys)) (lg ++ [SignAuth a]) with
    | (Ok signed, lg') => lg' = lg ++ map SignAuth (a :: l) /\ length signed = length (a :: l)
    | (Throw _, lg') => exists asked, lg' = lg ++ map SignAuth asked
    end).
  { intros x. unfold KeyInbox.bind. specialize (IH (lg ++ [SignAuth a])).
    destruct (mapM_io (sign_entry E) l (lg ++ [SignAuth a])) as [[ys|e] lg'].
    - destruct IH as [-> Hl]. cbn. now rewrite <- app_assoc, Hl.
    - destruct IH as [asked ->]. exists (a :: asked). now rewrite <- app_assoc. }
  destruct (negb (blank (or_empty (signedAuthEntry sr)))); [|apply K].
  destruct (entry_fromXDR E (or_empty (signedAuthEntry sr))) as [entry|e]; [apply K|now exists [a]].
Qed.

Definition first_auth (sim : list SimResult) : list string := match sim with r :: _ => auth r | [] => [] end.

Lemma sign_entries_log (sim : list SimResult) (lg : Log) :
  match sign_entries E sim lg with
  | (Ok signed, lg') => lg' = lg ++ map SignAuth (first_auth sim) /\ length signed = length (first_auth sim)
  | (Throw _, lg') => exists asked, lg' = lg ++ map SignAuth asked
  end.
Proof.
  destruct sim as [|r sim]; cbn [sign_entries first_auth]; [now rewrite app_nil_r|].
  destruct (auth r) as [|a l]; [now rewrite app_nil_r|].
  destruct (canSignAuthEntry E); [apply sign_all|]. exists []. now rewrite app_nil_r.
Qed.

(** At most thirty questions; a value is the simulated one, after the answer SUCCESS. *)
Lemma poll_log (n : nat) (hash : string) (value : ScVal) (lg : Log) :
  match poll E n hash value lg with
  | (r, lg') => exists k, (k <= n)%nat /\ lg' = lg ++ repeat (Poll hash) k
                 /\ forall v, r = Ok v -> v = value /\ on_poll E lg' = Ok SUCCESS
  end.
Proof.
  revert lg. induction n as [|n IH]; intros lg; cbn [poll].
  - exists O. rewrite app_nil_r. split; [lia|]. split; [reflexivity|discriminate].
  - rewrite request_run. destruct (on_poll E (lg ++ [Poll hash])) as [[| |]|e] eqn:A.
    + exists 1%nat. split; [lia|]. split; [reflexivity|]. intros v [= <-]. split; [reflexivity|exact A].
    + exists 1%nat. split; [lia|]. split; [reflexivity|discriminate].
    + specialize (IH (lg ++ [Poll hash])). destruct (poll E n hash value (lg ++ [Poll hash])) as [r lg'].
      destruct IH as (k & Hk & -> & Hv). exists (S k). split; [lia|]. split; [now rewrite <- app_assoc|exact Hv].
    + exists 1%nat. split; [lia|]. split; [reflexivity|discriminate].
Qed.

(** The transaction is confirmed when the server says so within the thirty questions. *)
Lemma poll_completes (k : nat) (n : nat) (hash : string) (value : ScVal) (lg : Log) :
  (k < n)%nat -> (forall i, (i < k)%nat -> on_poll E (lg ++ repeat (Poll hash) (S i)) = Ok OtherStatus) ->
  on_poll E (lg ++ repeat (Poll hash) (S k)) = Ok SUCCESS ->
  poll E n hash value lg = (Ok value, lg ++ repeat (Poll hash) (S k)).
Proof.
  revert n lg. induction k as [|k IH]; intros [|n] lg Hn Hw Hs; [lia| |lia|]; cbn [poll]; rewrite request_run.
  - cbn [repeat] in Hs. now rewrite Hs.
  - pose proof (Hw O ltac:(lia)) as H0. cbn [repeat] in H0. rewrite H0. rewrite (IH n).
    + now rewrite <- app_assoc.
    + lia.
    + intros i Hi. rewrite <- app_assoc. apply (Hw (S i)). lia.
    + rewrite <- app_assoc. exact Hs.
Qed.

Definition submitted (ev : Event) : bool := match ev with Send _ => true | _ => false end.

Lemma asks_only (l : list string) (pre : list Event) :
  existsb submitted pre = false -> existsb submitted (pre ++ map SignAuth l) = false.
Proof. intros Hp. rewrite existsb_app, Hp. now induction l. Qed.

Lemma submit_log (p : Prepared) (value : ScVal) (lg lg' : Log) (r : res ScVal) :
  sign_and_submit E p value lg = (r, lg') ->
  ((exists evs, lg' = lg ++ evs /\ existsb submitted evs = false) /\ exists e, r = Throw e)
  \/ exists x hash k, on_signTransaction E (lg ++ [SignTransaction p]) = Ok x /\ blank x = false
       /\ lg' = lg ++ SignTransaction p :: Send x :: repeat (Poll hash) k /\ (k <= 30)%nat
       /\ forall v, r = Ok v -> v = value /\ on_poll E lg' = Ok SUCCESS.
Proof.
  unfold sign_and_submit. destruct (canSignTransaction E); cbn [negb].
  2:{ intros [= <- <-]. left. split; [exists []; now rewrite app_nil_r|eauto]. }
  rewrite request_run. destruct (on_signTransaction E (lg ++ [SignTransaction p])) as [x|e];
    [|intros [= <- <-]; left; split; [now eexists|eauto]].
  destruct (blank x) eqn:Bx; [intros [= <- <-]; left; split; [now eexists|eauto]|].
  rewrite request_run, <- app_assoc. cbn [app]. intros H. right. exists x.
  destruct (on_send E (lg ++ [SignTransaction p; Send x])) as [[[m|] hash]|e].
  - injection H as <- <-. exists ""%string, O. split; [reflexivity|]. split; [exact Bx|]. split; [reflexivity|]. split; [lia|discriminate].
  - pose proof (poll_log POLL_ATTEMPTS hash value (lg ++ [SignTransaction p; Send x])) as Hp. rewrite H in Hp.
    destruct Hp as (k & Hk & -> & Hv). exists hash, k. rewrite <- app_assoc in Hv |- *.
    split; [reflexivity|]. split; [exact Bx|]. split; [reflexivity|]. split; [exact Hk|exact Hv].
  - injection H as <- <-. exists ""%string, O. split; [reflexivity|]. split; [exact Bx|]. split; [reflexivity|]. split; [lia|discriminate].
Qed.

(** A run of a call that started with the log [lg]: it failed before a submission, or it was
    submitted once, signed, after all authorisations, and then asked about. *)
Definition call_run (account : option string) (c f : string) (args : list ScVal) (lg lg' : Log) (r : res ScVal) : Prop :=
  exists evs, lg' = lg ++ evs /\
  ((existsb submitted evs = false /\ exists e, r = Throw e)
   \/ exists a seq sim signed x hash k,
        let tx := mkTx a seq c f (map call_arg args) in
        let before := GetAccount a :: Simulate tx :: map SignAuth (first_auth sim) ++ [SignTransaction (mkPrepared tx signed)] in
        account = Some a /\ on_simulate E (lg ++ [GetAccount a; Simulate tx]) = Ok (SimResults sim)
        /\ length signed = length (first_auth sim)
        /\ on_signTransaction E (lg ++ before) = Ok x /\ blank x = false
        /\ evs = before ++ Send x :: repeat (Poll hash) k /\ (k <= 30)%nat
        /\ forall v, r = Ok v -> v = first_retval sim /\ on_poll E lg' = Ok SUCCESS).

(** A call either fails without having submitted anything, or it fetched the account,
    simulated, asked the wallet for every authorisation and then for the transaction
    itself, submitted the text the wallet signed exactly once, and asked for the status at
    most thirty times; its value is the simulated one, and only after SUCCESS. *)
Theorem call_protocol (account : option string) (c f : string) (args : list ScVal) (lg lg' : Log) (r : res ScVal) :
  executeSorobanCall E account c f args lg = (r, lg') -> call_run account c f args lg lg' r.
Proof.
  unfold executeSorobanCall. destruct (blank (or_empty account)) eqn:Ba.
  { intros [= <- <-]. exists []. rewrite app_nil_r. split; [reflexivity|]. left. split; [reflexivity|eauto]. }
  destruct account as [a|]; [|discriminate Ba]. assert (Ea : or_empty (Some a) = a) by now destruct a.
  rewrite Ea, request_run.
  destruct (on_account E (lg ++ [GetAccount a])) as [seq|e]; [|intros [= <- <-]; eexists; split; [reflexivity|left; eauto]].
  rewrite request_run, <- app_assoc. cbn [app].
  set (tx := mkTx a seq c f (map call_arg args)).
  destruct (on_simulate E (lg ++ [GetAccount a; Simulate tx])) as [[e|sim]|e] eqn:Hs;
    try (intros [= <- <-]; eexists; split; [reflexivity|left; eauto]).
  unfold KeyInbox.bind at 1. pose proof (sign_entries_log sim (lg ++ [GetAccount a; Simulate tx])) as Hl.
  destruct (sign_entries E sim (lg ++ [GetAccount a; Simulate tx])) as [[signed|e] lg1];
    [|destruct Hl as [asked ->]; intros [= <- <-]; eexists; split; [symmetry; apply app_assoc|left];
      split; [now apply asks_only|eauto]].
  destruct Hl as [-> Hlen]. intros H. apply submit_log in H as [[(evs & -> & Hn) He]|(x & hash & k & Hx & Bx & -> & Hk & Hv)].
  - eexists. split; [rewrite <- !app_assoc; reflexivity|]. left. split; [|exact He].
    rewrite !existsb_app, Hn. cbn. now rewrite (asks_only _ [] eq_refl : existsb submitted (map SignAuth _) = false).
  - eexists. split; [rewrite <- !app_assoc; reflexivity|]. right. exists a, seq, sim, signed, x, hash, k.
    rewrite <- !app_assoc in Hx. rewrite <- !app_assoc in Hv. cbn [app] in Hx, Hv |- *. split; [reflexivity|].
    split; [exact Hs|]. split; [exact Hlen|]. split; [exact Hx|]. split; [exact Bx|].
    split; [now rewrite <- app_assoc|]. split; [exact Hk|]. rewrite <- !app_assoc. exact Hv.
Qed.

(** A wallet that answers neither with a signature nor with an error is taken as done:
    the entry is submitted unsigned. *)
Lemma unsigned_entry (preimage : string) (lg : Log) :
  on_signAuth E (lg ++ [SignAuth preimage]) = Ok (mkSignResponse None None) ->
  sign_entry E preimage lg = (Ok (inr preimage), lg ++ [SignAuth preimage]).
Proof. intros H. unfold sign_entry. now rewrite request_run, H. Qed.

End Protocol.

(** ** Witness: a server that confirms at the third question *)

Definition confirming : Env := {|
  canSignAuthEntry := true; canSignTransaction := true;
  on_account _ := Ok "7"%string;
  on_simulate _ := Ok (SimResults [mkSim ["preimage"%string] (Some (SvNum 4))]);
  on_signAuth _ := Ok (mkSignResponse (Some "entry"%string) None);
  entry_fromXDR e := Ok e;
  on_signTransaction _ := Ok "signed"%string;
  on_send _ := Ok (None, "hash"%string);
  on_poll lg := Ok (if (length lg <? 8)%nat then OtherStatus else SUCCESS)
|}.

Lemma call_protocol_witness :
  exists lg, executeSorobanCall confirming (Some "Alice"%string) "C" "create_vault" [SvStr "Alice"] [] = (Ok (SvNum 4), lg)
    /\ call_run confirming (Some "Alice"%string) "C" "create_vault" [SvStr "Alice"] [] lg (Ok (SvNum 4)) /\ length lg = 8%nat.
Proof.
  eexists. split; [vm_compute; reflexivity|]. split; [|reflexivity].
  apply (call_protocol confirming). vm_compute. reflexivity.
Defined.
