(* ===== verification/IdentityRegistry.v ===== *)
(** * IdentityRegistry: the address book of identity.service.ts

    Links of an EVM address with a Stellar address, kept as one JSON array in the storage
    of the browser.  [Storage] says whether there is a storage at all, whether it accepts
    writes, and what the item holds. *)

From Stdlib Require Import Ascii String ZArith Lia Bool.
From stdpp Require Import base list strings.
From S2P Require Import Prelude JsString JsonText KeyInbox.

Open Scope list_scope.
Open Scope Z_scope.

(** ** Data *)

Record IdentityBinding : Type := mkBinding { evmAddress : string; stellarAddress : string; registeredAt : Z }.

Inductive Item : Type := Absent | Unreadable | Bindings (l : list IdentityBinding).

Record Storage : Type := mkStorage { present : bool; writable : bool; item : Item }.

(** ** Addresses *)

Definition is_hex (c : ascii) : bool :=
  let n := nat_of_ascii c in
  ((48 <=? n) && (n <=? 57) || (65 <=? n) && (n <=? 70) || (97 <=? n) && (n <=? 102))%nat.
Definition is_base32 (c : ascii) : bool :=
  let n := nat_of_ascii c in ((65 <=? n) && (n <=? 90) || (50 <=? n) && (n <=? 55))%nat.

Definition isValidEVMAddress (address : string) : bool :=
  match trim address with
  | String "0" (String "x" t) => (String.length t =? 40)%nat && str_all is_hex t
  | _ => false
  end.

Definition isValidStellarAddress (address : string) : bool :=
  match trim address with
  | String "G" t => (String.length t =? 55)%nat && str_all is_base32 t
  | _ => false
  end.

Definition isValidMultiChainAddress (address : string) : bool :=
  isValidEVMAddress address || isValidStellarAddress address.

(** ** The registry *)

Definition loadRegistry (s : Storage) : list IdentityBinding :=
  if present s then match item s with Bindings l => l | _ => [] end else [].

Definition saveRegistry (l : list IdentityBinding) (s : Storage) : Storage :=
  if present s && writable s then mkStorage (present s) (writable s) (Bindings l) else s.

Definition clear (s : Storage) : Storage :=
  if present s then mkStorage (present s) (writable s) Absent else s.

Definition by_evm (evm : string) (l : list IdentityBinding) : option IdentityBinding :=
  List.find (fun b => String.eqb (toLowerCase (evmAddress b)) (toLowerCase evm)) l.
Definition by_stellar (stellar : string) (l : list IdentityBinding) : option IdentityBinding :=
  List.find (fun b => String.eqb (stellarAddress b) stellar) l.

Definition registerIdentity (evm stellar : string) (now : Z) : io Storage IdentityBinding :=
  fun s =>
    let cleanEvm := trim evm in
    let cleanStellar := trim stellar in
    if negb (isValidEVMAddress cleanEvm)
    then throw "Invalid EVM address format. Must start with 0x followed by 40 hex characters." s
    else if negb (isValidStellarAddress cleanStellar)
    then throw "Invalid Stellar address format. Must start with G followed by 55 base32 characters." s
    else
      let registry := loadRegistry s in
      let existingEvmMatch := by_evm cleanEvm registry in
      let existingStellarMatch := by_stellar cleanStellar registry in
      if match existingEvmMatch with Some b => negb (String.eqb (stellarAddress b) cleanStellar) | None => false end
      then throw ("EVM address " ++ slice 0 6 cleanEvm ++ "... is already linked to a different Stellar address.")%string s
      else if match existingStellarMatch with
              | Some b => negb (String.eqb (toLowerCase (evmAddress b)) (toLowerCase cleanEvm))
              | None => false
              end
      then throw ("Stellar address " ++ slice 0 6 cleanStellar ++ "... is already linked to a different EVM address.")%string s
      else match existingEvmMatch, existingStellarMatch with
           | Some b, Some _ => (Ok b, s)
           | _, _ =>
               let newBinding := mkBinding cleanEvm cleanStellar (now / 1000) in
               (Ok newBinding, saveRegistry (registry ++ [newBinding]) s)
           end.

Definition resolveStellarAddress (addressInput : string) (s : Storage) : option string :=
  let clean := trim addressInput in
  if blank clean then None
  else if isValidStellarAddress clean then Some clean
  else if negb (isValidEVMAddress clean) then None
  else option_map stellarAddress (by_evm clean (loadRegistry s)).

Definition resolveEVMAddress (addressInput : string) (s : Storage) : option string :=
  let clean := trim addressInput in
  if blank clean then None
  else if isValidEVMAddress clean then Some clean
  else if negb (isValidStellarAddress clean) then None
  else option_map evmAddress (by_stellar clean (loadRegistry s)).

Inductive TargetNetwork : Type := Avalanche | Stellar.

(** [if (!resolved) throw ...] *)
Definition linked (clean network : string) (resolved : option string) : res string :=
  if blank (or_empty resolved)
  then Throw ("Address " ++ slice 0 8 clean ++ "... is not registered to a linked " ++ network
              ++ " identity. Please bind on Profile page.")%string
  else Ok (or_empty resolved).

Definition resolveAddressForNetwork (inputAddress : string) (targetNetwork : TargetNetwork) (s : Storage) : res string :=
  let clean := trim inputAddress in
  if blank clean then Throw "Address input cannot be empty."%string
  else match targetNetwork with
       | Stellar => linked clean "Stellar" (resolveStellarAddress clean s)
       | Avalanche => linked clean "Avalanche EVM" (resolveEVMAddress clean s)
       end.

Definition getRegisteredIdentities (s : Storage) : list IdentityBinding := loadRegistry s.

(** ** Reachable registries *)

(** The storage after any calls; whether it takes writes may change in between. *)
Inductive reachable : Storage -> Prop :=
| R_start p w : reachable (mkStorage p w Absent)
| R_quota s w : reachable s -> reachable (mkStorage (present s) w (item s))
| R_register s evm stellar now : reachable s -> reachable (registerIdentity evm stellar now s).2
| R_clear s : reachable s -> reachable (clear s).

(** Every link has valid addresses without white space; no EVM address, in any case, and no
    Stellar address has two links. *)
Record one_to_one (l : list IdentityBinding) : Prop := {
  evm_distinct : NoDup (map (fun b => toLowerCase (evmAddress b)) l);
  stellar_distinct : NoDup (map stellarAddress l);
  links_valid : Forall (fun b => isValidEVMAddress (evmAddress b) = true /\ isValidStellarAddress (stellarAddress b) = true
                                 /\ trim (evmAddress b) = evmAddress b /\ trim (stellarAddress b) = stellarAddress b) l
}.

Section FindKey.
Context {A : Type} (key : A -> string).

Lemma find_key_none (k : string) (l : list A) :
  List.find (fun b => String.eqb (key b) k) l = None -> k ∉ map key l.
Proof.
  intros H Hin. apply list_elem_of_fmap in Hin as (b & -> & Hb).
  apply list_elem_of_In in Hb. pose proof (List.find_none _ _ H b Hb) as E. cbn in E. now rewrite String.eqb_refl in E.
Qed.

Lemma find_key_some (k : string) (l : list A) (b : A) :
  List.find (fun b => String.eqb (key b) k) l = Some b -> b ∈ l /\ key b = k.
Proof. intros H. apply find_some in H as [Hi He]. apply String.eqb_eq in He. split; [now apply list_elem_of_In|exact He]. Qed.

Lemma find_key_in (l : list A) (b : A) : NoDup (map key l) -> b ∈ l ->
  List.find (fun b' => String.eqb (key b') (key b)) l = Some b.
Proof.
  induction l as [|x l IH]; intros Hn Hb; [now apply elem_of_nil in Hb|]. cbn [map] in Hn. apply NoDup_cons in Hn as [Hx Hn].
  cbn [List.find]. apply elem_of_cons in Hb as [<-|Hb]; [now rewrite String.eqb_refl|].
  destruct (String.eqb_spec (key x) (key b)) as [E|E]; [|now apply IH].
  exfalso. apply Hx. rewrite E. apply list_elem_of_fmap. now exists b.
Qed.
End FindKey.

Lemma NoDup_map_snoc {A : Type} (key : A -> string) (l : list A) (b : A) :
  NoDup (map key l) -> key b ∉ map key l -> NoDup (map key (l ++ [b])).
Proof.
  intros Hn Hb. rewrite map_app. apply NoDup_app. split; [exact Hn|]. split; [|apply NoDup_singleton].
  intros x Hx Hx'. cbn [map] in Hx'. apply list_elem_of_singleton in Hx' as ->. contradiction.
Qed.

Lemma valid_trim_evm (a : string) : isValidEVMAddress (trim a) = isValidEVMAddress a.
Proof. unfold isValidEVMAddress. now rewrite trim_idem. Qed.
Lemma valid_trim_stellar (a : string) : isValidStellarAddress (trim a) = isValidStellarAddress a.
Proof. unfold isValidStellarAddress. now rewrite trim_idem. Qed.

(** What a call does: nothing, or a new link of two unlinked valid addresses. *)
Lemma register_cases (evm stellar : string) (now : Z) (s : Storage) :
  one_to_one (loadRegistry s) ->
  match registerIdentity evm stellar now s with
  | (Throw _, s') => s' = s
  | (Ok b, s') =>
      isValidEVMAddress evm = true /\ isValidStellarAddress stellar = true
      /\ toLowerCase (evmAddress b) = toLowerCase (trim evm) /\ stellarAddress b = trim stellar
      /\ ((s' = s /\ b ∈ loadRegistry s)
          \/ (s' = saveRegistry (loadRegistry s ++ [b]) s /\ one_to_one (loadRegistry s ++ [b])))
  end.
Proof.
  intros Hi. unfold registerIdentity. rewrite valid_trim_evm, valid_trim_stellar.
  destruct (isValidEVMAddress evm) eqn:Ve; [|reflexivity]. destruct (isValidStellarAddress stellar) eqn:Vs; [|reflexivity].
  cbn [negb]. unfold by_evm, by_stellar.
  destruct (List.find (fun b => String.eqb (toLowerCase (evmAddress b)) _) (loadRegistry s)) as [be|] eqn:Fe;
    destruct (List.find (fun b => String.eqb (stellarAddress b) _) (loadRegistry s)) as [bs|] eqn:Fs.
  - destruct (String.eqb_spec (stellarAddress be) (trim stellar)) as [E1|]; [cbn [negb]|reflexivity].
    destruct (String.eqb_spec (toLowerCase (evmAddress bs)) (toLowerCase (trim evm))) as [E2|]; [cbn [negb]|reflexivity].
    apply (find_key_some (fun b => toLowerCase (evmAddress b))) in Fe as [Hb He]. repeat split; try assumption. now left.
  - destruct (String.eqb_spec (stellarAddress be) (trim stellar)) as [E1|]; [|reflexivity]. exfalso.
    apply (find_key_some (fun b => toLowerCase (evmAddress b))) in Fe as [Hb _].
    apply (find_key_none stellarAddress) in Fs. apply Fs. rewrite <- E1. apply list_elem_of_fmap. now exists be.
  - destruct (String.eqb_spec (toLowerCase (evmAddress bs)) (toLowerCase (trim evm))) as [E2|]; [|reflexivity]. exfalso.
    apply (find_key_some stellarAddress) in Fs as [Hb _].
    apply (find_key_none (fun b => toLowerCase (evmAddress b))) in Fe. apply Fe. rewrite <- E2. apply list_elem_of_fmap. now exists bs.
  - cbn [evmAddress stellarAddress]. repeat split; try assumption. right. split; [reflexivity|].
    apply (find_key_none (fun b => toLowerCase (evmAddress b))) in Fe. apply (find_key_none stellarAddress) in Fs.
    destruct Hi as [H1 H2 H3]. split; [now apply NoDup_map_snoc|now apply NoDup_map_snoc|].
    apply Forall_app. split; [exact H3|]. apply Forall_singleton. cbn [evmAddress stellarAddress].
    now rewrite valid_trim_evm, valid_trim_stellar, !trim_idem.
Qed.

Lemma load_save (l : list IdentityBinding) (s : Storage) :
  loadRegistry (saveRegistry l s) = if present s && writable s then l else loadRegistry s.
Proof. unfold saveRegistry, loadRegistry. destruct (present s) eqn:P; cbn [andb]; [|now rewrite P]. destruct (writable s); cbn; now rewrite ?P. Qed.

Lemma one_to_one_nil : one_to_one [].
Proof. split; constructor. Qed.

Lemma reachable_one_to_one (s : Storage) : reachable s -> one_to_one (loadRegistry s).
Proof.
  induction 1 as [p w|s w Hs IH|s evm stellar now Hs IH|s Hs IH].
  - unfold loadRegistry. cbn. destruct p; apply one_to_one_nil.
  - exact IH.
  - pose proof (register_cases evm stellar now s IH) as C. destruct (registerIdentity evm stellar now s) as [[b|e] s'].
    + destruct C as (_ & _ & _ & _ & [[-> _]|[-> Hn]]); [exact IH|]. cbn [snd]. rewrite load_save. now destruct (_ && _).
    + now subst.
  - unfold clear, loadRegistry. destruct (present s) eqn:P; cbn; rewrite ?P; apply one_to_one_nil.
Qed.

(** ** What users rely on *)

Lemma evm_not_stellar (a : string) : isValidEVMAddress a = true -> isValidStellarAddress a = false.
Proof. unfold isValidEVMAddress, isValidStellarAddress. now destruct (trim a) as [|[[] [] [] [] [] [] [] []] t]. Qed.

Lemma valid_not_blank (a : string) : isValidMultiChainAddress a = true -> blank (trim a) = false.
Proof. unfold isValidMultiChainAddress, isValidEVMAddress, isValidStellarAddress, blank. now destruct (trim a). Qed.

Lemma resolve_evm (l : list IdentityBinding) (b : IdentityBinding) (a : string) (s : Storage) :
  loadRegistry s = l -> one_to_one l -> b ∈ l -> isValidEVMAddress a = true -> toLowerCase (trim a) = toLowerCase (evmAddress b) ->
  resolveAddressForNetwork a Stellar s = Ok (stellarAddress b).
Proof.
  intros Hl Hi Hb Va Ea. unfold resolveAddressForNetwork, resolveStellarAddress.
  rewrite !trim_idem, valid_not_blank by (unfold isValidMultiChainAddress; now rewrite Va).
  rewrite valid_trim_stellar, evm_not_stellar, valid_trim_evm, Va by exact Va. cbn [negb].
  unfold by_evm. rewrite Hl, Ea, (find_key_in (fun b => toLowerCase (evmAddress b)) l b) by (apply Hi || exact Hb).
  cbn [option_map]. unfold linked, or_empty, or_else.
  pose proof (links_valid l Hi) as Hv. rewrite Forall_forall in Hv. destruct (Hv b Hb) as (_ & Vs & _ & Ts).
  destruct (blank (stellarAddress b)) eqn:B; [|now rewrite B]. exfalso. rewrite <- Ts in B. rewrite valid_not_blank in B; [discriminate|].
  unfold isValidMultiChainAddress. now rewrite Vs, orb_true_r.
Qed.

Lemma resolve_stellar (l : list IdentityBinding) (b : IdentityBinding) (c : string) (s : Storage) :
  loadRegistry s = l -> one_to_one l -> b ∈ l -> isValidStellarAddress c = true -> trim c = stellarAddress b ->
  resolveAddressForNetwork c Avalanche s = Ok (evmAddress b).
Proof.
  intros Hl Hi Hb Vc Ec. unfold resolveAddressForNetwork, resolveEVMAddress.
  rewrite !trim_idem, valid_not_blank by (unfold isValidMultiChainAddress; now rewrite Vc, orb_true_r).
  rewrite valid_trim_evm, valid_trim_stellar.
  destruct (isValidEVMAddress c) eqn:Ve; [now rewrite (evm_not_stellar c Ve) in Vc|]. rewrite Vc. cbn [negb].
  unfold by_stellar. rewrite Hl, Ec, (find_key_in stellarAddress l b) by (apply Hi || exact Hb).
  cbn [option_map]. unfold linked, or_empty, or_else.
  pose proof (links_valid l Hi) as Hv. rewrite Forall_forall in Hv. destruct (Hv b Hb) as (Vb & _ & Tb & _).
  destruct (blank (evmAddress b)) eqn:B; [|now rewrite B]. exfalso. rewrite <- Tb in B. rewrite valid_not_blank in B; [discriminate|].
  unfold isValidMultiChainAddress. now rewrite Vb.
Qed.

(** An answer does not change when links are added at the end. *)
Lemma resolve_app (a x : string) (t : TargetNetwork) (s s' : Storage) (l : list IdentityBinding) :
  loadRegistry s' = loadRegistry s ++ l -> resolveAddressForNetwork a t s = Ok x -> resolveAddressForNetwork a t s' = Ok x.
Proof.
  intros Hl. assert (F : forall (p : IdentityBinding -> bool) b, List.find p (loadRegistry s) = Some b ->
                                List.find p (loadRegistry s') = Some b).
  { intros p b. rewrite Hl. clear Hl. induction (loadRegistry s) as [|y l0 IH]; cbn; [discriminate|]. now destruct (p y). }
  unfold resolveAddressForNetwork, resolveStellarAddress, resolveEVMAddress, by_evm, by_stellar.
  destruct (blank (trim a)) eqn:B; [discriminate|]. rewrite !trim_idem, B. destruct t.
  - destruct (isValidEVMAddress (trim a)); [auto|]. destruct (isValidStellarAddress (trim a)); cbn [negb]; [|auto].
    destruct (List.find _ (loadRegistry s)) as [b|] eqn:E; [now rewrite (F _ _ E)|discriminate].
  - destruct (isValidStellarAddress (trim a)); [auto|]. destruct (isValidEVMAddress (trim a)); cbn [negb]; [|auto].
    destruct (List.find _ (loadRegistry s)) as [b|] eqn:E; [now rewrite (F _ _ E)|discriminate].
Qed.

(** The registry stays a bijection between EVM addresses, whatever their case, and Stellar
    addresses, all of them well formed. *)
Theorem registry_one_to_one (s : Storage) : reachable s -> one_to_one (loadRegistry s).
Proof. apply reachable_one_to_one. Qed.

(** A link that was registered in a storage that takes writes resolves in both directions,
    however the addresses are spelled, and no link that resolved before is changed. *)
Theorem registered_resolves (s s' : Storage) (evm stellar : string) (now : Z) (b : IdentityBinding) :
  reachable s -> present s = true -> writable s = true -> registerIdentity evm stellar now s = (Ok b, s') ->
  (forall a, isValidEVMAddress a = true -> toLowerCase (trim a) = toLowerCase (trim evm) ->
     resolveAddressForNetwork a Stellar s' = Ok (trim stellar))
  /\ (forall c, trim c = trim stellar -> resolveAddressForNetwork c Avalanche s' = Ok (evmAddress b))
  /\ toLowerCase (evmAddress b) = toLowerCase (trim evm)
  /\ (forall a t x, resolveAddressForNetwork a t s = Ok x -> resolveAddressForNetwork a t s' = Ok x).
Proof.
  intros Hr Hp Hw H. pose proof (reachable_one_to_one s Hr) as Hi. pose proof (register_cases evm stellar now s Hi) as C.
  rewrite H in C. destruct C as (Ve & Vs & Ee & Es & Hs).
  assert (Hn : exists l, loadRegistry s' = loadRegistry s ++ l /\ one_to_one (loadRegistry s') /\ b ∈ loadRegistry s').
  { destruct Hs as [[-> Hb]|[-> Hn]].
    - exists []. now rewrite app_nil_r.
    - exists [b]. rewrite load_save, Hp, Hw. cbn [andb]. split; [reflexivity|]. split; [exact Hn|]. apply elem_of_app. right. apply list_elem_of_singleton. reflexivity. }
  destruct Hn as (l & Hl & Hi' & Hb). rewrite <- Es. repeat split.
  - intros a Va Ea. apply (resolve_evm (loadRegistry s')); try easy. now rewrite Ea, Ee.
  - intros c Ec. apply (resolve_stellar (loadRegistry s')); try easy.
    rewrite <- valid_trim_stellar, Ec, Es, valid_trim_stellar. exact Vs.
  - exact Ee.
  - intros a t x. now apply (resolve_app a x t s s' l).
Qed.

(** A storage that refuses the write is not noticed: the link is reported and does not exist. *)
Lemma lost_registration (s : Storage) (evm stellar : string) (now : Z) :
  present s = true -> writable s = false -> loadRegistry s = [] ->
  isValidEVMAddress evm = true -> isValidStellarAddress stellar = true ->
  exists b, registerIdentity evm stellar now s = (Ok b, s).
Proof.
  intros Hp Hw Hl Ve Vs. unfold registerIdentity. rewrite valid_trim_evm, valid_trim_stellar, Ve, Vs, Hl. cbn.
  unfold saveRegistry. rewrite Hp, Hw. now eexists.
Qed.

(** ** Witnesses *)

Definition alice_evm : string := "0x00000000000000000000000000000000000000Aa".
Definition alice_stellar : string := "GAAAAAAAAAAAAAAAAAAAAAAAAAAAAAAAAAAAAAAAAAAAAAAAAAAAAAAA".
Definition fresh : Storage := mkStorage true true Absent.

Lemma registry_one_to_one_witness : one_to_one (loadRegistry (registerIdentity alice_evm alice_stellar 5000 fresh).2).
Proof. apply registry_one_to_one, R_register, R_start. Defined.

Lemma registered_resolves_witness :
  resolveAddressForNetwork " 0x00000000000000000000000000000000000000aA" Stellar
    (registerIdentity alice_evm alice_stellar 5000 fresh).2 = Ok alice_stellar.
Proof.
  destruct (registered_resolves fresh (registerIdentity alice_evm alice_stellar 5000 fresh).2 alice_evm alice_stellar 5000
              (mkBinding alice_evm alice_stellar 5) (R_start true true) eq_refl eq_refl eq_refl) as [H _].
  apply H; reflexivity.
Defined.
