(* ===== verification/Helpers.v ===== *)
(** * Helpers: helpers.ts, emergencyUnlockStatus.ts and explorer.ts

    Names of vaults across chains, the counts that are kept under them, the form of
    addresses, the simplified splitting of a key, links, and the text that describes an
    emergency unlock.  Dates in the browser's language, file sizes in floating point and
    the wrappers of other services are left out. *)

From Stdlib Require Import Ascii String ZArith Lia Bool.
From stdpp Require Import base list gmap strings.
From S2P Require Import Prelude JsString Hex JsonText JsNumber KeyInbox IdentityRegistry EnvelopeGC.

Open Scope string_scope.
Open Scope list_scope.
Open Scope Z_scope.

(** ** Addresses *)

Definition shortenAddress (address : string) (chars : nat) : string :=
  if blank address || (String.length address <? chars * 2 + 2)%nat then address
  else (take (chars + 2) address ++ "..." ++ slice_from (String.length address - chars) address)%string.

Definition hex_letter (c : ascii) : bool :=
  let n := nat_of_ascii c in ((48 <=? n) && (n <=? 57) || (97 <=? n) && (n <=? 102) || (65 <=? n) && (n <=? 70))%nat.
Definition base32_char (c : ascii) : bool :=
  let n := nat_of_ascii c in ((65 <=? n) && (n <=? 90) || (50 <=? n) && (n <=? 55))%nat.

(** A prefix, and then [k] characters of a class up to the end. *)
Definition shaped (prefix : string) (p : ascii -> bool) (k : nat) (s : string) : bool :=
  startsWith prefix s && (let rest := slice_from (String.length prefix) s in str_all p rest && (String.length rest =? k)%nat).

Definition isValidEVMAddress (address : string) : bool := negb (blank address) && shaped "0x" hex_letter 40 (trim address).
Definition isValidStellarAddress (address : string) : bool :=
  negb (blank address) && (shaped "G" base32_char 55 (trim address) || shaped "C" base32_char 55 (trim address)).
Definition isValidMultiChainAddress (address : string) : bool := isValidEVMAddress address || isValidStellarAddress address.
Definition isValidAddress (address : string) (networkOrEcosystem : option string) : bool :=
  match networkOrEcosystem with
  | Some "stellar" => isValidStellarAddress address
  | Some "avalanche" | Some "evm" => isValidEVMAddress address
  | _ => isValidMultiChainAddress address
  end.

(** ** Keys *)

Definition generateEncryptionKey (drawn : list Z) : string := bytes_hex drawn.

(** [Math.ceil(a / b)] *)
Definition parts_ceil (a b : nat) : nat := (a + b - 1) / b.

Definition splitKeyAmongGuardians (key : string) (guardians : list string) : list string :=
  let keyLength := String.length key in
  let partSize := parts_ceil keyLength (length guardians) in
  map (fun i => slice (i * partSize) (Nat.min (i * partSize + partSize) keyLength) key) (seq 0 (length guardians)).

Definition reconstructKey (parts : list string) : string := concat_all parts.

(** ** Vault names *)

Definition toVaultGID (chainIdentifier vaultId : string) : string := (chainIdentifier ++ ":" ++ vaultId)%string.

Definition int_or_zero (x : option Z) : Z := default 0 x.
Definition parseVaultGID (gid : string) : string * Z :=
  match split ":" gid with
  | chainId :: vaultId :: _ => (chainId, int_or_zero (parseInt 10 vaultId))
  | _ => ("43113", int_or_zero (parseInt 10 gid))
  end.

(** [chainId || 43113] *)
Definition chain_name (ecosystem : Ecosystem) (chainId : option Z) : string :=
  match ecosystem with
  | Stellar => "stellar-testnet"
  | Avalanche => num_str (match chainId with Some n => if n =? 0 then 43113 else n | None => 43113 end)
  end.
Definition getVaultGID (ecosystem : Ecosystem) (chainId : option Z) (vaultId : Z) : string :=
  toVaultGID (chain_name ecosystem chainId) (num_str vaultId).

(** Vaults and documents by their vault's number. *)
Definition buildVaultDocumentCounts (ecosystem : Ecosystem) (chainId : option Z) (vaults docs : list Z) : gmap string Z :=
  let visibleGidSet := map (getVaultGID ecosystem chainId) vaults in
  fold_left (fun counts doc =>
    let gid := getVaultGID ecosystem chainId doc in
    if existsb (String.eqb gid) visibleGidSet then <[gid := default 0 (counts !! gid) + 1]> counts else counts) docs ∅.

(** The entries of a record by vault number, in the order of [Object.entries]. *)
Definition keyRecordByVaultGID {T : Type} (ecosystem : Ecosystem) (chainId : option Z) (recordByRawId : list (Z * T)) : gmap string T :=
  fold_left (fun result '(id, value) => <[getVaultGID ecosystem chainId id := value]> result) recordByRawId ∅.

(** ** Links *)

Definition getExplorerBaseUrl (network : option Ecosystem) : string :=
  match network with Some Stellar => "https://testnet.bex.stellar.org" | _ => "https://testnet.snowtrace.io" end.
Definition getExplorerTxUrl (txHash : string) (network : option Ecosystem) : string := (getExplorerBaseUrl network ++ "/tx/" ++ txHash)%string.
Definition getExplorerTokenUrl (tokenId : Z) (contractAddress : string) (network : option Ecosystem) : string :=
  (getExplorerBaseUrl network ++ "/token/" ++ contractAddress ++ "?a=" ++ num_str tokenId)%string.

(** ** The emergency unlock *)

Record EmergencyUnlockScheduleView : Type := mkSchedule { requested : bool; fulfilled : bool; unlockAt : Z; unlockBlock : Z }.
Inductive EmergencyUnlockLoadState : Type := Ready | Loading | Failed.
Record EmergencyUnlockStatus : Type := mkStatus { label : string; detail : option string; claimsUnlocked : bool }.

Definition describeEmergencyUnlock (emergencyMode : bool) (schedule : option EmergencyUnlockScheduleView) (loadState : EmergencyUnlockLoadState)
    : EmergencyUnlockStatus :=
  match loadState with
  | Loading => mkStatus "Loading unlock status"
      (Some "Fetching the on-chain emergency unlock schedule. Emergency documents stay locked until the contract authorizes release.") false
  | Failed => mkStatus "Unlock status unavailable"
      (Some "Could not load the on-chain unlock schedule. Emergency documents stay locked until the contract authorizes release.") false
  | Ready =>
      if negb emergencyMode then mkStatus "Emergency OFF" None false
      else match schedule with
           | Some s =>
               if requested s && negb (fulfilled s) then mkStatus "Awaiting randomness"
                 (Some "Emergency mode is on. Unlock timing is waiting for on-chain randomness; the final schedule is not confirmed yet. Emergency documents stay locked.") false
               else if fulfilled s then mkStatus "Random delay scheduled"
                 (Some ("Emergency documents stay locked until both on-chain bounds pass: timestamp "
                        ++ (if (0 <? unlockAt s)%Z then toISOString (unlockAt s * 1000)%Z else "pending") ++ " and block/ledger " ++ num_str (unlockBlock s) ++ ".")%string) false
               else mkStatus "Emergency ON" (Some "No VRF coordinator is configured, so emergency documents follow the legacy immediate-unlock path.") false
           | None => mkStatus "Emergency ON" (Some "No VRF coordinator is configured, so emergency documents follow the legacy immediate-unlock path.") false
           end
  end.

(** ** Theorems *)

(** The forms of addresses are those of the identity service. *)
Lemma shaped_single (c : ascii) (p : ascii -> bool) (k : nat) (s : string) :
  shaped (String c "") p k s = match s with String a t => Ascii.eqb c a && ((String.length t =? k)%nat && str_all p t) | "" => false end.
Proof. unfold shaped. destruct s as [|a t]; [done|]. cbn [startsWith slice_from String.length]. rewrite andb_true_r. f_equal. apply andb_comm. Qed.

Lemma hex_letter_same (c : ascii) : hex_letter c = is_hex c.
Proof. destruct c as [[] [] [] [] [] [] [] []]; reflexivity. Qed.

Lemma str_all_ext (p q : ascii -> bool) (s : string) : (forall c, p c = q c) -> str_all p s = str_all q s.
Proof. intros H. induction s as [|c s IH]; [done|]. cbn [str_all]. by rewrite H, IH. Qed.

(** [trim] leaves an empty text empty, so the first test of the forms decides nothing. *)
Lemma trim_blank (s : string) : blank s = true -> trim s = "".
Proof. by intros ->%String.eqb_eq. Qed.

(** EVM addresses are those of the identity service; Stellar addresses are those and, besides,
    contracts, which that service refuses. *)
Theorem address_forms (address : string) :
  isValidEVMAddress address = IdentityRegistry.isValidEVMAddress address
  /\ isValidStellarAddress address = IdentityRegistry.isValidStellarAddress address || shaped "C" base32_char 55 (trim address).
Proof.
  unfold isValidEVMAddress, isValidStellarAddress, IdentityRegistry.isValidEVMAddress, IdentityRegistry.isValidStellarAddress.
  destruct (blank address) eqn:Eb; [by rewrite (trim_blank address Eb)|]. cbn [negb andb]. split.
  - unfold shaped. destruct (trim address) as [|a [|b t]]; [done|by destruct a as [[] [] [] [] [] [] [] []]|].
    replace (startsWith "0x" (String a (String b t))) with (Ascii.eqb "0" a && Ascii.eqb "x" b) by (cbn [startsWith]; by rewrite andb_true_r).
    change (slice_from (String.length "0x") (String a (String b t))) with t. rewrite (str_all_ext _ _ t hex_letter_same).
    destruct (Ascii.eqb_spec "0" a) as [<-|Ha]; [destruct (Ascii.eqb_spec "x" b) as [<-|Hb]; [cbn [andb]; apply andb_comm|]|]; cbn [andb].
    + destruct b as [[] [] [] [] [] [] [] []]; try done.
    + destruct a as [[] [] [] [] [] [] [] []]; try done.
  - rewrite shaped_single. destruct (trim address) as [|a t]; [done|]. destruct (Ascii.eqb_spec "G" a) as [<-|Ha]; [done|].
    destruct a as [[] [] [] [] [] [] [] []]; done.
Qed.

(** ** Splitting a key *)

Lemma take_take (n m : nat) (s : string) : take n (take m s) = take (Nat.min n m) s.
Proof. revert m s. induction n as [|n IH]; intros [|m] [|c s]; try done. cbn [take Nat.min]. by rewrite IH. Qed.

Lemma take_slice_from (n m : nat) (s : string) : (take n s ++ take m (slice_from n s))%string = take (n + m) s.
Proof.
  revert s. induction n as [|n IH]; intros [|c s]; try done; [by destruct m|]. cbn [take slice_from Nat.add].
  change (String c (take n s ++ take m (slice_from n s)) = String c (take (n + m) s)). by rewrite IH.
Qed.

Lemma slice_take (i j k : nat) (s : string) : (i <= j)%nat -> String.length s = k -> slice i (Nat.min j k) s = slice i j s.
Proof.
  intros Hij Hk. unfold slice. destruct (Nat.le_ge_cases j k); [by rewrite Nat.min_l|]. rewrite Nat.min_r by done.
  assert (L : String.length (slice_from i s) = (k - i)%nat).
  { rewrite <- Hk. clear. revert i. induction s as [|c s IH]; intros [|i]; try done. cbn [slice_from String.length]. by rewrite IH. }
  rewrite !take_all by lia. done.
Qed.

Lemma concat_all_join (a b : list string) : concat_all (a ++ b) = (concat_all a ++ concat_all b)%string.
Proof.
  induction a as [|s a IH]; [done|]. change (concat_all ((s :: a) ++ b)) with (s ++ concat_all (a ++ b))%string. rewrite IH. cbn [concat_all].
  by rewrite str_app_assoc.
Qed.

Lemma slices_prefix (key : string) (p n : nat) : concat_all (map (fun i => slice (i * p) (i * p + p) key) (seq 0 n)) = take (n * p) key.
Proof.
  induction n as [|n IH]; [done|]. rewrite seq_S, map_app, concat_all_join, IH. cbn [map concat_all Nat.add]. rewrite str_app_nil_r.
  unfold slice. replace (n * p + p - n * p)%nat with p by lia. rewrite take_slice_from. f_equal. lia.
Qed.

Lemma parts_ceil_enough (a b : nat) : (0 < b)%nat -> (a <= b * parts_ceil a b)%nat.
Proof.
  intros Hb. unfold parts_ceil. pose proof (Nat.div_mod (a + b - 1) b ltac:(lia)). pose proof (Nat.mod_upper_bound (a + b - 1) b ltac:(lia)). lia.
Qed.

(** The parts of a key, in their order, are the key, and each guardian has one. *)
Theorem parts_reconstruct (key : string) (guardians : list string) (H : guardians <> []) :
  reconstructKey (splitKeyAmongGuardians key guardians) = key /\ length (splitKeyAmongGuardians key guardians) = length guardians.
Proof.
  unfold reconstructKey, splitKeyAmongGuardians. split; [|by rewrite length_map, length_seq].
  rewrite (map_ext _ (fun i => slice (i * parts_ceil (String.length key) (length guardians)) (i * parts_ceil (String.length key) (length guardians) + parts_ceil (String.length key) (length guardians)) key)).
  - rewrite slices_prefix. apply take_all. apply parts_ceil_enough. destruct guardians; [done|cbn; lia].
  - intros i. apply slice_take; [lia|done].
Qed.

(** ** Vault names *)

Lemma chain_name_plain (ecosystem : Ecosystem) (chainId : option Z) : (forall n, chainId = Some n -> 0 <= n) -> str_all (not_char ":") (chain_name ecosystem chainId) = true.
Proof.
  intros H. destruct ecosystem; [|reflexivity]. cbn [chain_name]. set (n := match chainId with Some n => _ | None => _ end).
  assert (Hn : 0 <= n) by (unfold n; destruct chainId as [m|]; [specialize (H m eq_refl); destruct (m =? 0); lia|lia]).
  eapply str_all_impl; [|apply (to_base_digits 10 ltac:(lia) n Hn)]. intros c Hc. unfold not_char. destruct (Ascii.eqb_spec c ":") as [->|]; [discriminate Hc|done].
Qed.

Lemma vault_gid_read (ecosystem : Ecosystem) (chainId : option Z) (vaultId : Z) (Hc : forall n, chainId = Some n -> 0 <= n) (Hv : 0 <= vaultId) :
  parseVaultGID (getVaultGID ecosystem chainId vaultId) = (chain_name ecosystem chainId, vaultId).
Proof.
  unfold parseVaultGID, getVaultGID, toVaultGID. change (":" ++ num_str vaultId)%string with (String ":" (num_str vaultId)).
  rewrite split_sep by by apply chain_name_plain. rewrite split_no_sep; [by rewrite parseInt_num|].
  eapply str_all_impl; [|apply (to_base_digits 10 ltac:(lia) vaultId Hv)]. intros c Hd. unfold not_char. destruct (Ascii.eqb_spec c ":") as [->|]; [discriminate Hd|done].
Qed.

(** A vault's name is read back as its chain and its number, and the vaults of two chains
    never share a name. *)
Theorem vault_gid_roundtrip (e e' : Ecosystem) (c c' : option Z) (v v' : Z) (Hc : forall n, c = Some n -> 0 <= n) (Hc' : forall n, c' = Some n -> 0 <= n)
    (Hv : 0 <= v) (Hv' : 0 <= v') :
  parseVaultGID (getVaultGID e c v) = (chain_name e c, v)
  /\ (getVaultGID e c v = getVaultGID e' c' v' -> chain_name e c = chain_name e' c' /\ v = v').
Proof.
  split; [by apply vault_gid_read|]. intros E. apply (f_equal parseVaultGID) in E. rewrite !vault_gid_read in E by done. by injection E.
Qed.

Lemma gid_inj (ecosystem : Ecosystem) (chainId : option Z) (a b : Z) : (forall n, chainId = Some n -> 0 <= n) -> 0 <= a -> 0 <= b ->
  getVaultGID ecosystem chainId a = getVaultGID ecosystem chainId b -> a = b.
Proof. intros Hc Ha Hb E. apply (f_equal parseVaultGID) in E. rewrite !vault_gid_read in E by done. by injection E. Qed.

(** ** Counts and records by name *)
Section Counts.
Variables (ecosystem : Ecosystem) (chainId : option Z).
Hypothesis chain_ok : forall n, chainId = Some n -> 0 <= n.
#[local] Abbreviation gid := (getVaultGID ecosystem chainId).

Definition occurrences (v : Z) (l : list Z) : Z := Z.of_nat (length (List.filter (Z.eqb v) l)).

(** The count under a vault's name is the number of its documents; names without a visible
    vault or without a document are not there. *)
Theorem counts_by_vault (vaults docs : list Z) (v : Z) (Hv : 0 <= v) (Hvs : Forall (fun x => 0 <= x) vaults) (Hds : Forall (fun x => 0 <= x) docs) :
  buildVaultDocumentCounts ecosystem chainId vaults docs !! gid v
  = if existsb (Z.eqb v) vaults && (0 <? occurrences v docs) then Some (occurrences v docs) else None.
Proof.
  assert (E : forall l x, Forall (fun x => 0 <= x) l -> 0 <= x -> existsb (String.eqb (gid x)) (map gid l) = existsb (Z.eqb x) l).
  { intros l x Hl Hx. induction Hl as [|y l Hy _ IH]; [done|]. cbn. rewrite IH. f_equal. destruct (Z.eqb_spec x y) as [->|Hn]; [apply String.eqb_refl|].
    apply String.eqb_neq. intros He. by apply Hn, (gid_inj ecosystem chainId). }
  unfold buildVaultDocumentCounts. induction docs as [|d docs IH] using rev_ind; [cbn; by rewrite andb_false_r|].
  apply Forall_app in Hds as [Hds [Hd _]%Forall_cons]. specialize (IH Hds). rewrite fold_left_app. cbn [fold_left]. set (m := fold_left _ docs ∅) in *.
  assert (O : occurrences v (docs ++ [d]) = occurrences v docs + if v =? d then 1 else 0).
  { unfold occurrences. rewrite List.filter_app, length_app. cbn. destruct (v =? d); cbn; lia. }
  assert (O0 : 0 <= occurrences v docs) by (unfold occurrences; lia).
  rewrite (E vaults d Hvs Hd), O. destruct (Z.eqb_spec v d) as [<-|Hn].
  - destruct (existsb (Z.eqb v) vaults); cbn [andb] in *; [|exact IH]. rewrite lookup_insert_eq, IH. replace (0 <? occurrences v docs + 1) with true by lia.
    destruct (Z.ltb_spec 0 (occurrences v docs)); cbn [default]; f_equal; cbn; lia.
  - rewrite Z.add_0_r. destruct (existsb (Z.eqb d) vaults); [|exact IH]. rewrite lookup_insert_ne; [exact IH|].
    intros He. by apply Hn, eq_sym, (gid_inj ecosystem chainId).
Qed.

(** A record keyed by vault numbers is found again under the names of its vaults. *)
Theorem record_by_name {T : Type} (l : list (Z * T)) (id : Z) (x : T) (Hn : NoDup (map fst l)) (Hp : Forall (fun p => 0 <= fst p) l) (Hx : (id, x) ∈ l) :
  keyRecordByVaultGID ecosystem chainId l !! gid id = Some x.
Proof.
  unfold keyRecordByVaultGID. induction l as [|[i y] l IH] using rev_ind; [by apply elem_of_nil in Hx|].
  rewrite map_app in Hn. apply NoDup_app in Hn as (Hn & Hd & _). apply Forall_app in Hp as [Hp [Hi _]%Forall_cons]. cbn in Hi.
  rewrite fold_left_app. cbn [fold_left]. apply elem_of_app in Hx as [Hx|Hx].
  - rewrite lookup_insert_ne; [by apply IH|]. intros He. assert (Hid : 0 <= id) by apply (proj1 (Forall_forall _ _) Hp _ Hx).
    assert (i = id) as -> by by apply (gid_inj ecosystem chainId). apply (Hd id); [|by left]. apply list_elem_of_fmap. by exists (id, x).
  - apply list_elem_of_singleton in Hx as [= -> ->]. apply lookup_insert_eq.
Qed.
End Counts.

(** The description never says that documents are unlocked. *)
Lemma never_claims_unlocked (emergencyMode : bool) (schedule : option EmergencyUnlockScheduleView) (loadState : EmergencyUnlockLoadState) :
  claimsUnlocked (describeEmergencyUnlock emergencyMode schedule loadState) = false.
Proof. destruct loadState, emergencyMode, schedule as [[[] [] t b]|]; reflexivity. Qed.

(** ** Examples *)

Example demo_names :
  (getVaultGID Avalanche None 7, getVaultGID Stellar (Some 43113) 7, parseVaultGID "12", parseVaultGID "a:b") = ("43113:7", "stellar-testnet:7", ("43113", 12), ("a", 0)).
Proof. reflexivity. Qed.

Example demo_short : shortenAddress "0x1234567890abcdef" 4 = "0x1234...cdef".
Proof. reflexivity. Qed.

Lemma parts_reconstruct_witness : reconstructKey (splitKeyAmongGuardians "0123456789" ["a"; "b"; "c"]) = "0123456789".
Proof. apply (parts_reconstruct "0123456789" ["a"; "b"; "c"]). discriminate. Defined.

Lemma demo_chain : forall n, Some 43113 = Some n -> 0 <= n.
Proof. intros n [= <-]. lia. Qed.

Lemma vault_gid_roundtrip_witness : parseVaultGID (getVaultGID Avalanche (Some 43113) 7) = ("43113", 7).
Proof. apply (vault_gid_roundtrip Avalanche Avalanche (Some 43113) (Some 43113) 7 7); [exact demo_chain|exact demo_chain|discriminate|discriminate]. Defined.

Lemma counts_by_vault_witness : buildVaultDocumentCounts Avalanche (Some 43113) [1; 2] [1; 3; 1; 2] !! getVaultGID Avalanche (Some 43113) 1 = Some 2.
Proof.
  refine (counts_by_vault Avalanche (Some 43113) demo_chain [1; 2] [1; 3; 1; 2] 1 _ _ _); [discriminate|repeat constructor; discriminate|repeat constructor; discriminate].
Defined.

Lemma record_by_name_witness : keyRecordByVaultGID Avalanche (Some 43113) [(1, true); (2, false)] !! getVaultGID Avalanche (Some 43113) 2 = Some false.
Proof.
  apply (record_by_name Avalanche (Some 43113) demo_chain [(1, true); (2, false)] 2 false).
  - apply NoDup_cons_2; [by intros ?%list_elem_of_singleton|apply NoDup_singleton].
  - repeat constructor; discriminate.
  - right. left.
Defined.
