(* ===== verification/JsonParse.v ===== *)
(** * JsonParse: JSON.stringify with an indentation, and JSON.parse

    [print gap] is JSON.stringify(v, null, gap), compact for a gap of zero.  [json_parse]
    reads any JSON text whose numbers are integers and whose escapes stay below 256;
    it reads back whatever was printed, with any indentation. *)

From Stdlib Require Import Ascii String ZArith List Lia Bool.
Import ListNotations.
From S2P Require Import Prelude JsString JsonText.

Open Scope list_scope.
Open Scope string_scope.
Open Scope nat_scope.

(** ** Induction over values *)

Section Induction.
Variable P : json -> Prop.
Hypotheses (Hnull : P JNull) (Hbool : forall b, P (JBool b)) (Hnum : forall n, P (JNum n)) (Hstr : forall s, P (JStr s)).
Hypothesis Harr : forall l, Forall P l -> P (JArr l).
Hypothesis Hobj : forall l, Forall (fun m => P (snd m)) l -> P (JObj l).

Fixpoint json_induction (v : json) : P v :=
  match v with
  | JNull => Hnull
  | JBool b => Hbool b
  | JNum n => Hnum n
  | JStr s => Hstr s
  | JArr l => Harr l ((fix all l : Forall P l :=
      match l with [] => Forall_nil _ | x :: l' => Forall_cons _ (json_induction x) (all l') end) l)
  | JObj l => Hobj l ((fix all (l : list (string * json)) : Forall (fun m => P (snd m)) l :=
      match l with [] => Forall_nil _ | m :: l' => Forall_cons _ (json_induction (snd m)) (all l') end) l)
  end.
End Induction.

(** ** Writing *)

Section Print.
Variable gap : nat.

Definition newline (depth : nat) : string :=
  if gap =? 0 then "" else String (ascii_of_nat 10) (repeat_char (gap * depth) " ").
Definition colon : string := if gap =? 0 then ":" else ": ".

Definition write_key (k rest : string) : string := write_string k (colon ++ rest).

Fixpoint print (depth : nat) (v : json) (rest : string) : string :=
  match v with
  | JNull => "null" ++ rest
  | JBool b => (if b then "true" else "false") ++ rest
  | JNum n => num_str n ++ rest
  | JStr s => write_string s rest
  | JArr [] => "[]" ++ rest
  | JArr (x :: l) =>
      "[" ++ newline (S depth) ++ print (S depth) x
        ((fix elems (l : list json) : string :=
            match l with
            | [] => newline depth ++ "]" ++ rest
            | y :: l' => "," ++ newline (S depth) ++ print (S depth) y (elems l')
            end) l)
  | JObj [] => "{}" ++ rest
  | JObj ((k, x) :: l) =>
      "{" ++ newline (S depth) ++ write_key k (print (S depth) x
        ((fix props (l : list (string * json)) : string :=
            match l with
            | [] => newline depth ++ "}" ++ rest
            | (k', y) :: l' => "," ++ newline (S depth) ++ write_key k' (print (S depth) y (props l'))
            end) l))
  end.

Fixpoint elems (depth : nat) (rest : string) (l : list json) : string :=
  match l with
  | [] => newline depth ++ "]" ++ rest
  | y :: l' => "," ++ newline (S depth) ++ print (S depth) y (elems depth rest l')
  end.

Fixpoint props (depth : nat) (rest : string) (l : list (string * json)) : string :=
  match l with
  | [] => newline depth ++ "}" ++ rest
  | (k, y) :: l' => "," ++ newline (S depth) ++ write_key k (print (S depth) y (props depth rest l'))
  end.

Lemma print_array (depth : nat) (x : json) (l : list json) (rest : string) :
  print depth (JArr (x :: l)) rest = "[" ++ newline (S depth) ++ print (S depth) x (elems depth rest l).
Proof. cbn [print]. do 3 f_equal. induction l as [|y l IH]; [reflexivity|]. cbn [elems]. now rewrite <- IH. Qed.

Lemma print_object (depth : nat) (k : string) (x : json) (l : list (string * json)) (rest : string) :
  print depth (JObj ((k, x) :: l)) rest = "{" ++ newline (S depth) ++ write_key k (print (S depth) x (props depth rest l)).
Proof. cbn [print]. do 4 f_equal. induction l as [|[k' y] l IH]; [reflexivity|]. cbn [props]. now rewrite <- IH. Qed.

End Print.

(** [JSON.stringify(v, null, gap)] *)
Definition stringify_with (gap : nat) (v : json) : string := print gap 0 v "".

(** ** Reading *)

(** A literal name, or a number. *)
Definition read_name (name : string) (v : json) (s : string) : option (json * string) :=
  if startsWith name s then Some (v, slice_from (String.length name) s) else None.

(** Digits without a superfluous zero; a fraction or an exponent is outside of the model. *)
Definition read_digits (s : string) : option (Z * string) :=
  let digits := digit_prefix 10 s in
  let rest := slice_from (String.length digits) s in
  if startsWith "0" digits && negb (String.length digits =? 1) then None
  else if startsWith "." rest || startsWith "e" rest || startsWith "E" rest then None
  else match parse_digits 10 digits with Some n => Some (n, rest) | None => None end.

Definition read_number (s : string) : option (json * string) :=
  match s with
  | String "-" t => match read_digits t with Some (n, r) => Some (JNum (- n), r) | None => None end
  | _ => match read_digits s with Some (n, r) => Some (JNum n, r) | None => None end
  end.

Definition read_atom (s : string) : option (json * string) :=
  match read_name "null" JNull s with
  | Some r => Some r
  | None =>
      match read_name "true" (JBool true) s with
      | Some r => Some r
      | None => match read_name "false" (JBool false) s with Some r => Some r | None => read_number s end
      end
  end.

Definition read_key (s : string) : option (string * string) :=
  match expect dquote s with
  | Some t => match read_string t with
              | Some (k, t) => match expect ":" t with Some t => Some (k, t) | None => None end
              | None => None
              end
  | None => None
  end.

Fixpoint parse_value (fuel : nat) (s : string) : option (json * string) :=
  match fuel with
  | O => None
  | S f =>
      match skip_space s with
      | EmptyString => None
      | String c t =>
          if Ascii.eqb c dquote then match read_string t with Some (x, r) => Some (JStr x, r) | None => None end
          else if Ascii.eqb c "[" then
            match expect "]" t with
            | Some r => Some (JArr [], r)
            | None =>
                match parse_value f t with
                | Some (x, r) => match parse_elems f r with Some (l, r) => Some (JArr (x :: l), r) | None => None end
                | None => None
                end
            end
          else if Ascii.eqb c "{" then
            match expect "}" t with
            | Some r => Some (JObj [], r)
            | None =>
                match read_key t with
                | Some (k, t) =>
                    match parse_value f t with
                    | Some (x, r) => match parse_props f r with Some (l, r) => Some (JObj ((k, x) :: l), r) | None => None end
                    | None => None
                    end
                | None => None
                end
            end
          else read_atom (String c t)
      end
  end
with parse_elems (fuel : nat) (s : string) : option (list json * string) :=
  match fuel with
  | O => None
  | S f =>
      match expect "]" s with
      | Some r => Some ([], r)
      | None =>
          match expect "," s with
          | Some t =>
              match parse_value f t with
              | Some (x, r) => match parse_elems f r with Some (l, r) => Some (x :: l, r) | None => None end
              | None => None
              end
          | None => None
          end
      end
  end
with parse_props (fuel : nat) (s : string) : option (list (string * json) * string) :=
  match fuel with
  | O => None
  | S f =>
      match expect "}" s with
      | Some r => Some ([], r)
      | None =>
          match expect "," s with
          | Some t =>
              match read_key t with
              | Some (k, t) =>
                  match parse_value f t with
                  | Some (x, r) => match parse_props f r with Some (l, r) => Some ((k, x) :: l, r) | None => None end
                  | None => None
                  end
              | None => None
              end
          | None => None
          end
      end
  end.

(** [JSON.parse(s)]: every call of the parser reads a character, so the length is enough. *)
Definition json_parse (s : string) : res json :=
  match parse_value (S (String.length s)) s with
  | Some (v, rest) => if String.eqb (skip_space rest) "" then Ok v else Throw json_error
  | None => Throw json_error
  end.

(** ** What was printed is read back *)

Lemma skip_newline (gap depth : nat) (s : string) : skip_space (newline gap depth ++ s) = skip_space s.
Proof.
  unfold newline. destruct (gap =? 0); [reflexivity|]. cbn [append skip_space]. change (json_space (ascii_of_nat 10)) with true. cbn iota.
  generalize (gap * depth). intros n. induction n as [|n IH]; [reflexivity|]. exact IH.
Qed.

Lemma expect_newline (c : ascii) (gap depth : nat) (s : string) : expect c (newline gap depth ++ s) = expect c s.
Proof. unfold expect. now rewrite skip_newline. Qed.

Lemma value_newline (fuel gap depth : nat) (s : string) : parse_value fuel (newline gap depth ++ s) = parse_value fuel s.
Proof. destruct fuel; [reflexivity|]. cbn [parse_value]. now rewrite skip_newline. Qed.

Lemma expect_other (c d : ascii) (s : string) : json_space d = false -> Ascii.eqb d c = false -> expect c (String d s) = None.
Proof. intros Hs Hd. unfold expect. cbn [skip_space]. now rewrite Hs, Hd. Qed.

Lemma skip_colon (gap : nat) (s : string) : expect ":" (colon gap ++ s) = Some (if gap =? 0 then s else " " ++ s).
Proof. unfold colon. now destruct (gap =? 0). Qed.

Lemma value_colon (fuel gap : nat) (s : string) :
  parse_value fuel (if gap =? 0 then s else " " ++ s) = parse_value fuel s.
Proof. destruct (gap =? 0); [reflexivity|]. now destruct fuel. Qed.

Lemma read_written_key (gap : nat) (depth : nat) (k s : string) :
  read_key (newline gap depth ++ write_key gap k s) = Some (k, if gap =? 0 then s else " " ++ s).
Proof.
  unfold read_key. rewrite expect_newline. unfold write_key, write_string. rewrite expect_same by reflexivity.
  now rewrite read_escape, skip_colon.
Qed.

(** What may follow a number without becoming part of it. *)
Definition ends (s : string) : bool :=
  match s with
  | String c _ => negb (is_digit 10 c) && negb (Ascii.eqb c ".") && negb (Ascii.eqb c "e") && negb (Ascii.eqb c "E")
  | EmptyString => true
  end.

Lemma digit_prefix_ends (s rest : string) :
  str_all (is_digit 10) s = true -> ends rest = true -> digit_prefix 10 (s ++ rest) = s.
Proof.
  intros Hs He. induction s as [|c s IH]; cbn [append].
  - destruct rest as [|c rest]; [reflexivity|]. cbn in He. apply andb_prop in He as [He _]. apply andb_prop in He as [He _].
    apply andb_prop in He as [He _]. cbn [digit_prefix]. unfold is_digit in He. destruct (digit_val c) as [d|]; [|reflexivity].
    now destruct (d <? 10)%Z.
  - cbn [str_all] in Hs. apply andb_prop in Hs as [Hc Hs]. cbn [digit_prefix]. unfold is_digit in Hc.
    destruct (digit_val c) as [d|]; [|discriminate]. rewrite Hc. f_equal. now apply IH.
Qed.

Lemma ends_not (c : ascii) (s : string) : ends s = true -> (c = "." \/ c = "e" \/ c = "E")%char -> startsWith (String c "") s = false.
Proof.
  destruct s as [|d s]; [reflexivity|]. cbn. intros He [-> | [-> | ->]]; destruct d as [[] [] [] [] [] [] [] []];
    (reflexivity || discriminate He).
Qed.

(** A number has no superfluous zero. *)
Lemma no_leading_zero (n : Z) : (0 <= n)%Z -> startsWith "0" (num_str n) && negb (String.length (num_str n) =? 1) = false.
Proof.
  intros Hn. destruct (num_str n) as [|c s] eqn:E; [reflexivity|]. destruct (Ascii.eqb_spec c "0") as [->|Hc].
  2:{ cbn [startsWith]. destruct c as [[] [] [] [] [] [] [] []]; (reflexivity || now exfalso). }
  destruct s as [|d s]; [reflexivity|]. exfalso.
  assert (Hd : str_all (is_digit 10) (num_str n) = true) by (apply to_base_digits; lia). rewrite E in Hd. cbn in Hd.
  assert (Hp : parse_digits 10 (num_str n) = Some n) by (apply parse_to_base; lia). rewrite E in Hp.
  destruct (parse_acc_value 10 ltac:(lia) (String d s) 0 Hd ltac:(lia)) as (w & Ew & Hw).
  change (parse_acc 10 (String d s) 0 = Some n) in Hp. rewrite Ew in Hp. injection Hp as Hp. assert (w = n) by lia. subst w.
  pose proof (to_base_length 10 ltac:(lia) (String.length (String d s)) n Hw ltac:(cbn; lia)) as Hl.
  fold (num_str n) in Hl. rewrite E in Hl. cbn in Hl. lia.
Qed.

Lemma read_printed_digits (n : Z) (rest : string) : (0 <= n)%Z -> ends rest = true ->
  read_digits (num_str n ++ rest) = Some (n, rest).
Proof.
  intros Hn He. unfold read_digits. rewrite digit_prefix_ends by (exact He || (apply to_base_digits; lia)).
  rewrite slice_from_app, no_leading_zero, !ends_not by auto. cbn [orb].
  assert (Hp : parse_digits 10 (num_str n) = Some n) by (apply parse_to_base; lia). now rewrite Hp.
Qed.

Lemma num_str_first (n : Z) (rest : string) : (0 <= n)%Z ->
  exists c s, (num_str n ++ rest)%string = String c s /\ is_digit 10 c = true.
Proof.
  intros Hn. assert (Hd : str_all (is_digit 10) (num_str n) = true) by (apply to_base_digits; lia).
  destruct (num_str n) as [|c s] eqn:E; [exfalso; apply (to_base_nonempty 10 ltac:(lia) n Hn); exact E|].
  cbn in Hd. apply andb_prop in Hd as [Hc _]. now exists c, (s ++ rest)%string.
Qed.

Lemma digit_atom (c : ascii) (s : string) : is_digit 10 c = true ->
  skip_space (String c s) = String c s /\ Ascii.eqb c dquote = false /\ Ascii.eqb c "[" = false /\ Ascii.eqb c "{" = false
  /\ read_atom (String c s) = match read_digits (String c s) with Some (n, r) => Some (JNum n, r) | None => None end.
Proof. destruct c as [[] [] [] [] [] [] [] []]; intros H; try discriminate H; repeat split. Qed.

Lemma parse_number (n : Z) (fuel : nat) (rest : string) : ends rest = true ->
  parse_value (S fuel) (num_str n ++ rest) = Some (JNum n, rest).
Proof.
  intros He. cbn [parse_value]. destruct (Z.ltb_spec n 0) as [Hn|Hn].
  - assert (E : num_str n = String "-" (num_str (- n))).
    { unfold num_str. rewrite (to_base_nonneg 10 (- n)) by lia. unfold to_base. now rewrite (proj2 (Z.ltb_lt n 0)). }
    rewrite E. cbn [append skip_space]. change (json_space "-") with false. cbn iota.
    change (Ascii.eqb "-" dquote) with false. change (Ascii.eqb "-" "[") with false. change (Ascii.eqb "-" "{") with false. cbn iota.
    unfold read_atom, read_name, read_number. cbn [startsWith]. cbn. rewrite read_printed_digits by (lia || exact He).
    now rewrite Z.opp_involutive.
  - destruct (num_str_first n rest Hn) as (c & s & E & Hc). pose proof (read_printed_digits n rest Hn He) as Hr.
    rewrite E in Hr |- *. destruct (digit_atom c s Hc) as (-> & -> & -> & -> & ->). now rewrite Hr.
Qed.

(** One unit of fuel for each value, separator and closing bracket. *)
Fixpoint size (v : json) : nat :=
  match v with
  | JArr (x :: l) => S (size x + (fix sum (l : list json) : nat := match l with [] => 1 | y :: l' => S (size y + sum l') end) l)
  | JObj ((_, x) :: l) =>
      S (size x + (fix sum (l : list (string * json)) : nat := match l with [] => 1 | (_, y) :: l' => S (size y + sum l') end) l)
  | _ => 1
  end.
Fixpoint sum_sizes (l : list json) : nat := match l with [] => 1 | y :: l' => S (size y + sum_sizes l') end.

Lemma size_array (x : json) (l : list json) : size (JArr (x :: l)) = S (size x + sum_sizes l).
Proof. reflexivity. Qed.

Lemma size_object (k : string) (x : json) (l : list (string * json)) :
  size (JObj ((k, x) :: l)) = S (size x + sum_sizes (map snd l)).
Proof. cbn [size]. do 2 f_equal. induction l as [|[k' y] l IH]; [reflexivity|]. cbn [map snd sum_sizes]. now rewrite <- IH. Qed.

Lemma size_pos (v : json) : ~ size v <= 0.
Proof. destruct v as [| | | |[|? ?]|[|[? ?] ?]]; cbn [size]; lia. Qed.

(** The parser reads a value back, whatever follows it. *)
Definition reads_back (gap : nat) (v : json) : Prop :=
  forall depth rest fuel, ends rest = true -> size v <= fuel -> parse_value fuel (print gap depth v rest) = Some (v, rest).

Lemma ends_newline (gap depth : nat) (s : string) : ends s = true -> ends (newline gap depth ++ s) = true.
Proof. unfold newline. now destruct (gap =? 0). Qed.

Lemma ends_elems (gap depth : nat) (rest : string) (l : list json) : ends (elems gap depth rest l) = true.
Proof. destruct l; [now apply ends_newline|reflexivity]. Qed.

Lemma ends_props (gap depth : nat) (rest : string) (l : list (string * json)) : ends (props gap depth rest l) = true.
Proof. destruct l as [|[k y] l]; [now apply ends_newline|reflexivity]. Qed.

Lemma parse_printed_elems (gap depth : nat) (rest : string) (l : list json) : Forall (reads_back gap) l ->
  forall fuel, sum_sizes l <= fuel -> parse_elems fuel (elems gap depth rest l) = Some (l, rest).
Proof.
  induction 1 as [|y l Hy Hl IH]; intros fuel Hf; (destruct fuel as [|fuel]; [cbn in Hf; lia|]); cbn [elems parse_elems].
  - rewrite expect_newline. cbn [append]. now rewrite expect_same.
  - cbn [append]. rewrite expect_other, expect_same by reflexivity. rewrite value_newline.
    cbn [sum_sizes] in Hf. rewrite Hy by (apply ends_elems || lia). now rewrite IH by lia.
Qed.

Lemma parse_printed_props (gap depth : nat) (rest : string) (l : list (string * json)) :
  Forall (fun m => reads_back gap (snd m)) l ->
  forall fuel, sum_sizes (map snd l) <= fuel -> parse_props fuel (props gap depth rest l) = Some (l, rest).
Proof.
  induction 1 as [|[k y] l Hy Hl IH]; intros fuel Hf; (destruct fuel as [|fuel]; [cbn in Hf; lia|]); cbn [props parse_props].
  - rewrite expect_newline. cbn [append]. now rewrite expect_same.
  - cbn [append]. rewrite expect_other, expect_same by reflexivity. rewrite read_written_key, value_colon.
    cbn [map snd sum_sizes] in Hf. cbn [snd] in Hy. rewrite Hy by (apply ends_props || lia). now rewrite IH by lia.
Qed.

(** No printed value starts with a closing bracket. *)
Lemma not_closed (gap depth : nat) (c : ascii) (v : json) (rest : string) :
  (c = "]" \/ c = "}")%char -> expect c (print gap depth v rest) = None.
Proof.
  intros Hc. assert (K : forall d s, json_space d = false -> Ascii.eqb d "]" = false -> Ascii.eqb d "}" = false ->
    expect c (String d s) = None) by (intros d s Hs H1 H2; apply expect_other; [exact Hs|now destruct Hc as [-> | ->]]).
  destruct v as [|[]|n|s|[|x l]|[|[k x] l]]; try (apply K; reflexivity). cbn [print].
  destruct (Z.ltb_spec n 0) as [Hn|Hn].
  - unfold num_str, to_base. rewrite (proj2 (Z.ltb_lt n 0)) by lia. apply K; reflexivity.
  - destruct (num_str_first n rest Hn) as (d & s & -> & Hd). destruct d as [[] [] [] [] [] [] [] []]; try discriminate Hd; apply K; reflexivity.
Qed.

Lemma print_reads_back (gap : nat) (v : json) : reads_back gap v.
Proof.
  induction v as [|b|n|s|l IH|l IH] using json_induction; intros depth rest fuel He Hf;
    (destruct fuel as [|fuel]; [exfalso; eapply size_pos; eassumption|]).
  - reflexivity.
  - now destruct b.
  - now apply parse_number.
  - cbn [print]. unfold write_string. cbn [parse_value skip_space]. change (json_space dquote) with false. cbn iota.
    rewrite Ascii.eqb_refl. now rewrite read_escape.
  - destruct l as [|x l]; [reflexivity|]. rewrite print_array. rewrite size_array in Hf. inversion IH as [|? ? Hx Hl]; subst.
    cbn [append parse_value skip_space]. change (json_space "[") with false. cbn iota. change (Ascii.eqb "[" dquote) with false.
    change (Ascii.eqb "[" "[") with true. cbn iota. rewrite expect_newline, not_closed by now left.
    rewrite value_newline, Hx by (apply ends_elems || lia). now rewrite parse_printed_elems by (exact Hl || lia).
  - destruct l as [|[k x] l]; [reflexivity|]. rewrite print_object. rewrite size_object in Hf. inversion IH as [|? ? Hx Hl]; subst.
    cbn [append parse_value skip_space]. change (json_space "{") with false. cbn iota. change (Ascii.eqb "{" dquote) with false.
    change (Ascii.eqb "{" "[") with false. change (Ascii.eqb "{" "{") with true. cbn iota.
    assert (E : forall t, expect "}" (newline gap (S depth) ++ write_key gap k t) = None)
      by (intros t; rewrite expect_newline; now apply expect_other).
    rewrite E. clear E.
    rewrite (read_written_key gap (S depth)), value_colon. cbn [snd] in Hx. rewrite Hx by (apply ends_props || lia).
    now rewrite parse_printed_props by (exact Hl || lia).
Qed.

(** The fuel of [json_parse] is enough for a printed value. *)
Lemma num_length (n : Z) : 1 <= String.length (num_str n).
Proof.
  destruct (Z.ltb_spec n 0) as [Hn|Hn].
  - unfold num_str, to_base. rewrite (proj2 (Z.ltb_lt n 0)) by lia. cbn [String.length]. lia.
  - pose proof (to_base_nonempty 10 ltac:(lia) n Hn) as H. unfold num_str in *. destruct (to_base 10 n); [contradiction|]. cbn. lia.
Qed.

Definition long (gap : nat) (v : json) : Prop :=
  forall depth rest, size v + String.length rest <= String.length (print gap depth v rest).

Lemma key_length (gap : nat) (k t : string) : String.length t <= String.length (write_key gap k t).
Proof.
  unfold write_key, write_string. cbn [String.length].
  pose proof (escape_length k (String dquote (colon gap ++ t))) as H. cbn [String.length] in H. rewrite str_length_app in H. lia.
Qed.

Lemma elems_length (gap depth : nat) (rest : string) (l : list json) : Forall (long gap) l ->
  sum_sizes l + String.length rest <= String.length (elems gap depth rest l).
Proof.
  induction 1 as [|y l Hy Hl IH]; cbn [elems sum_sizes]; rewrite !str_length_app; cbn [String.length]; [lia|].
  specialize (Hy (S depth) (elems gap depth rest l)). lia.
Qed.

Lemma props_length (gap depth : nat) (rest : string) (l : list (string * json)) : Forall (fun m => long gap (snd m)) l ->
  sum_sizes (map snd l) + String.length rest <= String.length (props gap depth rest l).
Proof.
  induction 1 as [|[k y] l Hy Hl IH]; cbn [props map snd sum_sizes]; rewrite !str_length_app; cbn [String.length]; [lia|].
  pose proof (key_length gap k (print gap (S depth) y (props gap depth rest l))).
  specialize (Hy (S depth) (props gap depth rest l)). cbn [snd] in Hy. lia.
Qed.

Lemma print_long (gap : nat) (v : json) : long gap v.
Proof.
  induction v as [|b|n|s|l IH|l IH] using json_induction; intros depth rest.
  - cbn. lia.
  - destruct b; cbn; lia.
  - cbn [print size]. rewrite str_length_app. pose proof (num_length n). lia.
  - cbn [print size]. unfold write_string. cbn [String.length].
    pose proof (escape_length s (String dquote rest)) as H. cbn [String.length] in H. lia.
  - destruct l as [|x l]; [cbn; lia|]. rewrite print_array, size_array, !str_length_app. cbn [String.length].
    inversion IH as [|? ? Hx Hl]; subst. pose proof (elems_length gap depth rest l Hl). specialize (Hx (S depth) (elems gap depth rest l)). lia.
  - destruct l as [|[k x] l]; [cbn; lia|]. rewrite print_object, size_object, !str_length_app. cbn [String.length].
    inversion IH as [|? ? Hx Hl]; subst. pose proof (props_length gap depth rest l Hl).
    specialize (Hx (S depth) (props gap depth rest l)). cbn [snd] in Hx.
    pose proof (key_length gap k (print gap (S depth) x (props gap depth rest l))). lia.
Qed.

(** JSON.parse(JSON.stringify(v, null, gap)) is v. *)
Lemma parse_stringified (gap : nat) (v : json) : json_parse (stringify_with gap v) = Ok v.
Proof.
  unfold json_parse, stringify_with. pose proof (print_long gap v 0 "") as H. cbn [String.length] in H.
  rewrite print_reads_back by (reflexivity || lia). reflexivity.
Qed.

(** *** A text that goes on after the value *)

Lemma escape_rest (s r t : string) : escape s (r ++ t) = escape s r ++ t.
Proof.
  induction s as [|c s IH]; [reflexivity|]. cbn [escape]. rewrite IH. unfold escape_char.
  destruct (escape_letter c); [reflexivity|]. destruct (nat_of_ascii c <? 32); [|reflexivity]. cbn [append]. now rewrite str_app_assoc.
Qed.

Lemma write_string_rest (s r t : string) : write_string s (r ++ t) = write_string s r ++ t.
Proof. unfold write_string. change (String dquote (r ++ t)) with (String dquote r ++ t). now rewrite escape_rest. Qed.

Lemma write_key_rest (gap : nat) (k r t : string) : write_key gap k (r ++ t) = write_key gap k r ++ t.
Proof. unfold write_key. now rewrite <- str_app_assoc, write_string_rest. Qed.

Lemma print_rest (gap : nat) (v : json) : forall depth r t, print gap depth v (r ++ t) = print gap depth v r ++ t.
Proof.
  induction v as [|b|n|s|l IH|l IH] using json_induction; intros depth r t.
  - reflexivity.
  - destruct b; reflexivity.
  - cbn [print]. now rewrite str_app_assoc.
  - apply write_string_rest.
  - destruct l as [|x l]; [reflexivity|]. rewrite !print_array. inversion IH as [|? ? Hx Hl]; subst.
    assert (E : elems gap depth (r ++ t) l = elems gap depth r l ++ t).
    { clear IH. induction Hl as [|y l Hy _ IHl]; cbn [elems]; [now rewrite !str_app_assoc|]. now rewrite IHl, Hy, !str_app_assoc. }
    now rewrite E, Hx, !str_app_assoc.
  - destruct l as [|[k x] l]; [reflexivity|]. rewrite !print_object. inversion IH as [|? ? Hx Hl]; subst. cbn [snd] in Hx.
    assert (E : props gap depth (r ++ t) l = props gap depth r l ++ t).
    { clear IH. induction Hl as [|[k' y] l Hy _ IHl]; cbn [props]; [now rewrite !str_app_assoc|]. cbn [snd] in Hy.
      now rewrite IHl, Hy, write_key_rest, !str_app_assoc. }
    now rewrite E, Hx, write_key_rest, !str_app_assoc.
Qed.

(** White space after the value is skipped. *)
Lemma parse_stringified_space (gap : nat) (v : json) (t : string) : ends t = true -> skip_space t = "" ->
  json_parse (stringify_with gap v ++ t) = Ok v.
Proof.
  intros He Hs. unfold json_parse, stringify_with. rewrite <- print_rest. change ("" ++ t) with t.
  pose proof (print_long gap v 0 t) as H. rewrite print_reads_back by (exact He || lia). now rewrite Hs.
Qed.

(** The length of a text that may need escapes. *)
Lemma escape_at_most (s rest : string) : String.length (escape s rest) <= 6 * String.length s + String.length rest.
Proof.
  induction s as [|c s IH]; cbn [escape String.length]; [lia|]. unfold escape_char.
  destruct (escape_letter c); cbn [String.length]; [lia|]. destruct (Nat.ltb_spec (nat_of_ascii c) 32) as [Hc|Hc]; cbn [String.length]; [|lia].
  rewrite str_length_app, padStart_length. assert (String.length (to_hex (Z.of_nat (nat_of_ascii c))) <= 2); [|lia].
  destruct (nat_of_ascii c) as [|n]; [cbn; lia|]. do 31 (destruct n as [|n]; [vm_compute; lia|]). lia.
Qed.
