(* ===== verification/Passphrase.v ===== *)
(** * Passphrase: secrets encrypted under a passphrase (secrets.service.ts)

    PBKDF2 of the platform and Argon2id of hash-wasm are the class [Kdf]; the worker that
    runs Argon2id only moves the call to another thread.  Random draws are arguments. *)

From Stdlib Require Import Ascii String ZArith List Lia Bool.
Import ListNotations.
From S2P Require Import Prelude Bytes JsString Base64 WebCrypto JsonText JsonParse JsNumber KeyInbox.

Open Scope list_scope.
Open Scope string_scope.
Open Scope Z_scope.

(** How the platform reads a JSON value where it wants a number is [idl_number]. *)
Class Kdf : Type := {
  (** the key bits of a passphrase, a salt and a number of iterations *)
  pbkdf2 : list Z -> list Z -> Z -> res (list Z);
  (** password, salt, memory, iterations, parallelism, length *)
  argon2id : string -> list Z -> Z -> Z -> Z -> Z -> res (list Z);
  idl_number : json -> Z
}.
Class KdfLaws (K : Kdf) : Prop := { idl_number_num : forall n, idl_number (JNum n) = n }.

Definition PBKDF2_ITERATIONS : Z := 600000.
Definition PBKDF2_PAYLOAD_VERSION : string := "pbkdf2-sha256-aes256gcm-v1".
Definition ARGON2ID_PAYLOAD_VERSION : string := "argon2id-aes256gcm-v1".
(** [ARGON2ID_DEFAULTS] *)
Definition ARGON2ID_MEMORY : Z := 65536.
Definition ARGON2ID_ITERATIONS : Z := 3.
Definition ARGON2ID_PARALLELISM : Z := 4.
Definition ARGON2ID_HASH_LENGTH : Z := 32.

Inductive KdfOptions : Type :=
| Pbkdf2KdfOptions (iterations : option Z)
| Argon2idKdfOptions (memorySize iterations parallelism : option Z).
Definition DEFAULT_KDF_OPTIONS : KdfOptions := Argon2idKdfOptions None None None.

Record PassphraseEncryptedPayload : Type := mkPayload {
  version : string; algorithm : string; iterations : Z; memory_parallelism : option (Z * Z);
  salt : string; iv : string; ciphertext : string
}.

(** [x ?? d] *)
Definition given_or (x : option Z) (d : Z) : Z := match x with Some v => v | None => d end.

Section Passphrase.
Context {W : WebCrypto} {K : Kdf}.

Definition deriveKeyFromPassphrase (passphrase : string) (salt : list Z) (iterations : option Z) : res (list Z) :=
  throw_if blank passphrase with "Passphrase must not be empty";;
  pbkdf2 (text_encode passphrase) salt (given_or iterations PBKDF2_ITERATIONS).

Definition deriveKeyFromPassphraseArgon2id (passphrase : string) (salt : list Z) (memorySize iterations parallelism : option Z)
    : res (list Z) :=
  throw_if blank passphrase with "Passphrase must not be empty";;
  argon2id passphrase salt (given_or memorySize ARGON2ID_MEMORY) (given_or iterations ARGON2ID_ITERATIONS)
    (given_or parallelism ARGON2ID_PARALLELISM) ARGON2ID_HASH_LENGTH.

Definition payload_object (p : PassphraseEncryptedPayload) : json :=
  JObj ([("version", JStr (version p)); ("algorithm", JStr (algorithm p)); ("iterations", JNum (iterations p))]
        ++ match memory_parallelism p with
           | Some (m, par) => [("memorySize", JNum m); ("parallelism", JNum par)]
           | None => []
           end
        ++ [("salt", JStr (salt p)); ("iv", JStr (iv p)); ("ciphertext", JStr (ciphertext p))]).

(** The key, and the payload before its ciphertext. *)
Definition derive_for (passphrase : string) (options : KdfOptions) (saltBytes ivBytes : list Z)
    : res (list Z * (string -> PassphraseEncryptedPayload)) :=
  match options with
  | Pbkdf2KdfOptions iterations =>
      let n := given_or iterations PBKDF2_ITERATIONS in
      let! key := deriveKeyFromPassphrase passphrase saltBytes (Some n) in
      Ok (key, mkPayload PBKDF2_PAYLOAD_VERSION "pbkdf2" n None (btoa saltBytes) (btoa ivBytes))
  | Argon2idKdfOptions memorySize iterations parallelism =>
      let m := given_or memorySize ARGON2ID_MEMORY in
      let n := given_or iterations ARGON2ID_ITERATIONS in
      let par := given_or parallelism ARGON2ID_PARALLELISM in
      let! key := deriveKeyFromPassphraseArgon2id passphrase saltBytes (Some m) (Some n) (Some par) in
      Ok (key, mkPayload ARGON2ID_PAYLOAD_VERSION "argon2id" n (Some (m, par)) (btoa saltBytes) (btoa ivBytes))
  end.

Definition encryptWithPassphrase (plaintext passphrase : string) (options : KdfOptions) (saltBytes ivBytes : list Z) : res string :=
  let! '(key, payload) := derive_for passphrase options saltBytes ivBytes in
  Ok (stringify_with 0 (payload_object (payload (btoa (aes_gcm_encrypt key ivBytes [] (text_encode plaintext)))))).

(** [atob(payload.salt)]: what is not a string is printed first. *)
Definition member_bytes (k : string) (payload : json) : res (list Z) :=
  atob (match get_prop k payload with Some v => String_of v | None => "undefined" end).

(** An argument of the key derivation, undefined when it is missing. *)
Definition member_count (k : string) (payload : json) : option Z :=
  match get_prop k payload with Some v => Some (idl_number v) | None => None end.
(** The same where [??] also replaces null. *)
Definition member_count_or_null (k : string) (payload : json) : option Z :=
  match get_prop k payload with Some JNull => None | Some v => Some (idl_number v) | None => None end.

Definition payload_key (payload : json) (passphrase : string) (saltBytes : list Z) : res (list Z) :=
  match get_prop "version" payload with
  | Some (JStr v) =>
      if String.eqb v PBKDF2_PAYLOAD_VERSION
      then deriveKeyFromPassphrase passphrase saltBytes (member_count "iterations" payload)
      else if String.eqb v ARGON2ID_PAYLOAD_VERSION
      then deriveKeyFromPassphraseArgon2id passphrase saltBytes (member_count_or_null "memorySize" payload)
             (member_count_or_null "iterations" payload) (member_count_or_null "parallelism" payload)
      else Throw ("Unsupported backup payload version: " ++ v)
  | Some v => Throw ("Unsupported backup payload version: " ++ String_of v)
  | None => Throw "Unsupported backup payload version: undefined"
  end.

Definition decryptWithPassphrase (payloadJson passphrase : string) : res string :=
  match json_parse payloadJson with
  | Throw _ => Throw "Invalid encrypted backup payload"
  | Ok JNull => Throw "TypeError: Cannot read properties of null"
  | Ok payload =>
      let! saltBytes := member_bytes "salt" payload in
      let! ivBytes := member_bytes "iv" payload in
      let! ciphertextBytes := member_bytes "ciphertext" payload in
      let! key := payload_key payload passphrase saltBytes in
      match aes_gcm_decrypt key ivBytes [] ciphertextBytes with
      | Some plaintext => Ok (text_decode plaintext)
      | None => Throw "Failed to decrypt backup: incorrect passphrase or corrupted data"
      end
  end.

(** ** Round trip *)

Context {WL : WebCryptoLaws W} {KL : KdfLaws K}.

(** A text that was encrypted under a passphrase, with either key derivation and any
    parameters, decrypts under the same passphrase. *)
Theorem passphrase_roundtrip (plaintext passphrase payload : string) (options : KdfOptions) (saltBytes ivBytes : list Z) :
  bytes saltBytes -> bytes ivBytes ->
  encryptWithPassphrase plaintext passphrase options saltBytes ivBytes = Ok payload ->
  decryptWithPassphrase payload passphrase = Ok plaintext.
Proof.
  intros Hs Hi H. unfold encryptWithPassphrase in H.
  destruct options as [n|m n par]; cbn [derive_for] in H.
  - destruct (deriveKeyFromPassphrase _ _ _) as [key|] eqn:Ek; [|discriminate]. cbn [res_bind] in H. injection H as <-.
    unfold decryptWithPassphrase. rewrite parse_stringified. unfold payload_object, member_bytes. cbn.
    rewrite !atob_btoa by auto with webcrypto. cbn [res_bind]. unfold payload_key, member_count. cbn.
    rewrite idl_number_num. rewrite Ek. cbn [res_bind]. now rewrite decrypt_encrypt, decode_encode.
  - destruct (deriveKeyFromPassphraseArgon2id _ _ _ _ _) as [key|] eqn:Ek; [|discriminate]. cbn [res_bind] in H. injection H as <-.
    unfold decryptWithPassphrase. rewrite parse_stringified. unfold payload_object, member_bytes. cbn.
    rewrite !atob_btoa by auto with webcrypto. cbn [res_bind]. unfold payload_key, member_count_or_null. cbn.
    rewrite !idl_number_num. rewrite Ek. cbn [res_bind]. now rewrite decrypt_encrypt, decode_encode.
Qed.

(** Without a passphrase nothing is encrypted. *)
Lemma empty_passphrase (plaintext : string) (options : KdfOptions) (saltBytes ivBytes : list Z) :
  encryptWithPassphrase plaintext "" options saltBytes ivBytes = Throw "Passphrase must not be empty".
Proof. now destruct options. Qed.

End Passphrase.

(** ** Witness *)

#[export] Instance mirror_kdf : Kdf := {
  pbkdf2 p s n := Ok (p ++ s)%list;
  argon2id p s m n par len := Ok s;
  idl_number v := match v with JNum n => n | _ => 0 end
}.
#[export] Instance mirror_kdf_laws : KdfLaws mirror_kdf.
Proof. split. reflexivity. Qed.
Import Mirror.

Lemma passphrase_roundtrip_witness :
  match encryptWithPassphrase "secret" "pass" DEFAULT_KDF_OPTIONS (repeat 7 16) (repeat 9 12) with
  | Ok payload => decryptWithPassphrase payload "pass" = Ok "secret"
  | Throw _ => False
  end.
Proof.
  destruct (encryptWithPassphrase "secret" "pass" DEFAULT_KDF_OPTIONS (repeat 7 16) (repeat 9 12)) as [payload|] eqn:E;
    [|discriminate E].
  apply (passphrase_roundtrip "secret" "pass" payload DEFAULT_KDF_OPTIONS (repeat 7 16) (repeat 9 12));
    [| |exact E]; repeat constructor; unfold is_byte; lia.
Defined.
