(* ===== verification/OpaqueKeyring.v ===== *)
(** * OpaqueKeyring: opaqueKeyring.service.ts

    The client half of OPAQUE is the package @serenity-kit/opaque: the class [OpaqueLib].
    The verification server is behind a [Transport]; the one the service builds sends
    JSON with fetch.  Randomness comes from numbered draws. *)

From Stdlib Require Import Ascii String ZArith Lia Bool.
From stdpp Require Import base list gmap strings.
From S2P Require Import Prelude Bytes JsString Base64 WebCrypto JsonText JsonParse Ecies KeyInbox.

Open Scope list_scope.
Open Scope string_scope.

(** ** Errors with codes *)

Inductive WebAuthnErrorCode : Type := NOT_SUPPORTED | NOT_ALLOWED | PRF_NOT_ENABLED | PRF_OUTPUT_MISSING | UNKNOWN.

Inductive Err : Type :=
| Plain (m : string)
| OpaqueTransportError (m code : string) (status : nat)
| WebAuthnError (m : string) (code : WebAuthnErrorCode).

Definition err_message (e : Err) : string :=
  match e with Plain m | OpaqueTransportError m _ _ | WebAuthnError m _ => m end.

(** Code that acts on a state and may throw an error of the type [E]; most throws an [Err]. *)
Definition throwing (E S A : Type) : Type := S -> (A + E) * S.
Definition eio : Type -> Type -> Type := throwing Err.
Definition eret {E S A : Type} (a : A) : throwing E S A := fun s => (inl a, s).
Definition ethrow {E S A : Type} (e : E) : throwing E S A := fun s => (inr e, s).
Definition ebind {E S A B : Type} (m : throwing E S A) (k : A -> throwing E S B) : throwing E S B :=
  fun s => match m s with (inl a, s') => k a s' | (inr e, s') => (inr e, s') end.
Definition ecatch {E S A : Type} (m : throwing E S A) (h : E -> throwing E S A) : throwing E S A :=
  fun s => match m s with (inr e, s') => h e s' | r => r end.
Definition of_res {S A : Type} (r : res A) : eio S A :=
  fun s => (match r with Ok a => inl a | Throw m => inr (Plain m) end, s).
Notation "'run!' x '<-' m 'in' k" := (ebind m (fun x => k))
  (at level 10, x name, m at level 100, k at level 200) : io_scope.
Notation "'run!' ' p '<-' m 'in' k" := (ebind m (fun x => match x with p => k end))
  (at level 10, p pattern, m at level 100, k at level 200) : io_scope.

(** ** Data *)

Definition OPAQUE_ENVELOPE_VERSION : string := "spoovault-opaque-rfc9807-v1".
Definition OPAQUE_SERVER_ID : string := "spoovault-keyring-v1".
Definition OPAQUE_KDF_INFO : string := "spoovault opaque export key wrap v1".
Definition OPAQUE_AAD_PREFIX : string := "spoovault-keyring-private-key-v1".

Record OpaqueKeyringEnvelope : Type := mkEnvelope { version : string; iv : string; ciphertext : string }.

Record LoginResult : Type := mkLogin { exportKey : string; serverStaticPublicKey : string; finishLoginRequest : string }.
Record RegistrationResult : Type := mkRegistration {
  registrationRecord : string; r_exportKey : string; r_serverStaticPublicKey : string
}.

Class OpaqueLib : Type := {
  (** pin and draw: the state to keep and the request *)
  client_startLogin : string -> nat -> string * string;
  (** state, response, pin, client and server identifiers *)
  client_finishLogin : string -> string -> string -> string -> string -> option LoginResult;
  client_startRegistration : string -> nat -> string * string;
  client_finishRegistration : string -> string -> string -> string -> string -> RegistrationResult
}.

Record Transport (Srv : Type) : Type := {
  startRegistration : string -> string -> eio Srv string;
  finishRegistration : string -> string -> option string -> eio Srv string;
  startLogin : string -> string -> eio Srv (string * string);
  finishLogin : string -> string -> eio Srv string;
  deleteCredential : string -> string -> eio Srv unit
}.
Arguments startRegistration {Srv}. Arguments finishRegistration {Srv}. Arguments startLogin {Srv}.
Arguments finishLogin {Srv}. Arguments deleteCredential {Srv}.

(** ** The transport over HTTP *)

(** Trailing slashes are dropped. *)
Fixpoint normalizeBaseUrl (value : string) : string :=
  match value with
  | EmptyString => EmptyString
  | String c t => match normalizeBaseUrl t with
                  | EmptyString => if Ascii.eqb c "/" then EmptyString else String c EmptyString
                  | u => String c u
                  end
  end.

Record HttpResponse : Type := mkResponse { ok : bool; http_status : nat; response_json : option json }.

Section Http.
Context {Net : Type}.
(** [fetch(url, method, headers, body)]; no answer when the network fails. *)
Variable fetch : string -> string -> Headers -> option json -> Net -> option HttpResponse * Net.

Definition member_or (k : string) (v : option json) (d : string) : string :=
  match v with Some j => or_else (as_str (get_prop k j)) d | None => d end.

Definition readError (response : HttpResponse) : Err :=
  OpaqueTransportError
    (member_or "error" (response_json response) ("OPAQUE server responded with " ++ num_str (Z.of_nat (http_status response))))
    (member_or "code" (response_json response) "OPAQUE_SERVER_ERROR") (http_status response).

(** The body of an answer that is not JSON throws. *)
Definition postJson (baseUrl path : string) (body : json) : eio Net json :=
  fun net =>
    match fetch (baseUrl ++ path) "POST" [("Content-Type", "application/json")] (Some body) net with
    | (None, net') => (inr (OpaqueTransportError "OPAQUE verification server is unavailable" "OPAQUE_SERVER_UNAVAILABLE" 0), net')
    | (Some response, net') =>
        if ok response
        then (match response_json response with Some v => inl v | None => inr (Plain "SyntaxError: Unexpected token in JSON") end, net')
        else (inr (readError response), net')
    end.

Definition text_member (k : string) (v : json) : string := or_empty (as_str (get_prop k v)).

Definition createFetchTransport (baseUrl : string) : Transport Net := {|
  startRegistration account registrationRequest :=
    run! v <- postJson baseUrl "/v1/registration/start"
                (JObj [("account", JStr account); ("registrationRequest", JStr registrationRequest)]) in
    eret (text_member "registrationResponse" v);
  finishRegistration account registrationRecord managementToken :=
    run! v <- postJson baseUrl "/v1/registration/finish"
                (JObj ([("account", JStr account); ("registrationRecord", JStr registrationRecord)]
                       ++ match managementToken with Some t => [("managementToken", JStr t)] | None => [] end)) in
    eret (text_member "managementToken" v);
  startLogin account startLoginRequest :=
    run! v <- postJson baseUrl "/v1/login/start"
                (JObj [("account", JStr account); ("startLoginRequest", JStr startLoginRequest)]) in
    eret (text_member "loginId" v, text_member "loginResponse" v);
  finishLogin loginId finishLoginRequest :=
    run! v <- postJson baseUrl "/v1/login/finish"
                (JObj [("loginId", JStr loginId); ("finishLoginRequest", JStr finishLoginRequest)]) in
    eret (text_member "managementToken" v);
  deleteCredential account managementToken := fun net =>
    match fetch (baseUrl ++ "/v1/credentials/" ++ encodeURIComponent account) "DELETE"
            [("Authorization", "Bearer " ++ managementToken)] None net with
    | (None, net') => (inr (Plain "TypeError: Failed to fetch"), net')
    | (Some response, net') => (if ok response then inl tt else inr (readError response), net')
    end
|}.

End Http.

(** ** The service *)

(** The module variables, with the server behind them and the number of the next draw. *)
Record OpaqueState (Srv : Type) : Type := mkOpaque { managementTokens : gmap string string; server : Srv; draws : nat }.
Arguments mkOpaque {Srv}. Arguments managementTokens {Srv}. Arguments server {Srv}. Arguments draws {Srv}.

Section Service.
Context {Srv : Type} {O : OpaqueLib} {W : WebCrypto} {P : PkCrypto}.
(** The transport that is injected or built for the configured URL; the expected key of the server, likewise. *)
Variables (injectedTransport : option (Transport Srv)) (built : string -> Transport Srv).
Variables (VITE_OPAQUE_SERVER_URL injectedServerPublicKey VITE_OPAQUE_SERVER_PUBLIC_KEY : option string).
Variable random_bytes : nat -> nat -> list Z.

Abbreviation M := (eio (OpaqueState Srv)).

Definition getTransport : (Transport Srv) + Err :=
  match injectedTransport with
  | Some t => inl t
  | None =>
      let baseUrl := normalizeBaseUrl (trim (or_empty VITE_OPAQUE_SERVER_URL)) in
      if blank baseUrl then inr (OpaqueTransportError "OPAQUE verification server is not configured" "OPAQUE_SERVER_NOT_CONFIGURED" 0)
      else inl (built baseUrl)
  end.

Definition getExpectedServerPublicKey : string + Err :=
  let publicKey := match injectedServerPublicKey with
                   | Some k => k
                   | None => trim (or_empty VITE_OPAQUE_SERVER_PUBLIC_KEY)
                   end in
  if blank publicKey then inr (Plain "OPAQUE server public key is not configured") else inl publicKey.

Definition assertServerIdentity (actual : string) : M unit :=
  fun s => match getExpectedServerPublicKey with
           | inl expected => (if String.eqb actual expected then inl tt else inr (Plain "OPAQUE server identity verification failed"), s)
           | inr e => (inr e, s)
           end.

Definition draw : M nat := fun s => (inl (draws s), mkOpaque (managementTokens s) (server s) (S (draws s))).
Definition transport : M (Transport Srv) := fun s => (getTransport, s).
(** A request to the server. *)
Definition call {A : Type} (m : eio Srv A) : M A :=
  fun s => let '(r, srv) := m (server s) in (r, mkOpaque (managementTokens s) srv (draws s)).
Definition get_token (account : string) : M (option string) := fun s => (inl (managementTokens s !! account), s).
Definition set_token (account token : string) : M unit :=
  fun s => (inl tt, mkOpaque (<[account := token]> (managementTokens s)) (server s) (draws s)).
Definition drop_token (account : string) : M unit :=
  fun s => (inl tt, mkOpaque (delete account (managementTokens s)) (server s) (draws s)).

(** *** The private key under the export key *)

Definition additionalData (account publicKey : string) : list Z :=
  text_encode (OPAQUE_AAD_PREFIX ++ "|" ++ toLowerCase account ++ "|" ++ publicKey).

Definition deriveWrappingKey (exportKey : string) : res (list Z) :=
  let! material := base64UrlToBytes exportKey in
  Ok (hkdf (text_encode OPAQUE_KDF_INFO) (text_encode OPAQUE_SERVER_ID) material).

Definition wrapPrivateKey (exportKey account publicKey privateKey : string) : M OpaqueKeyringEnvelope :=
  run! key <- of_res (deriveWrappingKey exportKey) in
  run! n <- draw in
  let ivBytes := random_bytes n 12 in
  eret (mkEnvelope OPAQUE_ENVELOPE_VERSION (bytesToBase64Url ivBytes)
          (bytesToBase64Url (aes_gcm_encrypt key ivBytes (additionalData account publicKey) (text_encode privateKey)))).

Definition unwrapPrivateKey (exportKey account publicKey : string) (envelope : OpaqueKeyringEnvelope) : res string :=
  let! key := deriveWrappingKey exportKey in
  match (let! ivBytes := base64UrlToBytes (iv envelope) in
         let! ct := base64UrlToBytes (ciphertext envelope) in
         match aes_gcm_decrypt key ivBytes (additionalData account publicKey) ct with
         | Some plaintext => Ok (text_decode plaintext)
         | None => Throw "OperationError"
         end) with
  | Ok plaintext => Ok plaintext
  | Throw _ => Throw "OPAQUE keyring envelope verification failed"
  end.

(** *** Registration and login *)

Definition login (account pin : string) : M string :=
  let normalized := toLowerCase account in
  run! t <- transport in
  run! n <- draw in
  let '(clientLoginState, startLoginRequest) := client_startLogin pin n in
  run! ' (loginId, loginResponse) <- call (startLogin t normalized startLoginRequest) in
  match client_finishLogin clientLoginState loginResponse pin normalized OPAQUE_SERVER_ID with
  | None => ethrow (Plain "OPAQUE_VERIFICATION_FAILED")
  | Some result =>
      run! _ <- assertServerIdentity (serverStaticPublicKey result) in
      run! managementToken <- call (finishLogin t loginId (finishLoginRequest result)) in
      run! _ <- set_token normalized managementToken in
      eret (exportKey result)
  end.

Definition register (account pin : string) : M string :=
  let normalized := toLowerCase account in
  run! t <- transport in
  run! n <- draw in
  let '(clientRegistrationState, registrationRequest) := client_startRegistration pin n in
  run! registrationResponse <- call (startRegistration t normalized registrationRequest) in
  let result := client_finishRegistration clientRegistrationState registrationResponse pin normalized OPAQUE_SERVER_ID in
  run! _ <- assertServerIdentity (r_serverStaticPublicKey result) in
  run! token <- get_token normalized in
  run! managementToken <- call (finishRegistration t normalized (registrationRecord result) token) in
  run! _ <- set_token normalized managementToken in
  eret (r_exportKey result).

Definition isOpaqueKeyringEnvelope (value : option OpaqueKeyringEnvelope) : bool :=
  match value with Some e => String.eqb (version e) OPAQUE_ENVELOPE_VERSION | None => false end.

(** An account that is enrolled already is logged in to, with the same pin. *)
Definition enrollAndWrap (account pin publicKey privateKey : string) : M OpaqueKeyringEnvelope :=
  if blank (trim pin) then ethrow (Plain "A PIN or passphrase is required for OPAQUE enrollment")
  else
    run! exportKey <- ecatch (register account (trim pin))
      (fun e => match e with
                | OpaqueTransportError _ code _ =>
                    if String.eqb code "OPAQUE_CREDENTIAL_EXISTS" then login account (trim pin) else ethrow e
                | _ => ethrow e
                end) in
    wrapPrivateKey exportKey account publicKey privateKey.

Definition verifyAndUnwrap (account pin publicKey : string) (envelope : OpaqueKeyringEnvelope) : M string :=
  if blank (trim pin) then ethrow (Plain "OPAQUE_VERIFICATION_FAILED")
  else
    run! exportKey <- login account (trim pin) in
    of_res (unwrapPrivateKey exportKey account publicKey envelope).

Definition delete_credential (account : string) : M unit :=
  let normalized := toLowerCase account in
  run! token <- get_token normalized in
  match token with
  | Some token =>
      if blank token then eret tt
      else
        run! t <- transport in
        run! _ <- call (deleteCredential t normalized token) in
        drop_token normalized
  | None => eret tt
  end.

Definition clearSession : M unit := fun s => (inl tt, mkOpaque ∅ (server s) (draws s)).
Definition lockAccount (account : string) : M unit := drop_token (toLowerCase account).

End Service.
