(* ===== verification/WebAuthn.v ===== *)
(** * WebAuthn: webauthn.service.ts

    The browser's credential container is an argument with a state of its own, the
    [Authenticator].  Keys are derived by HKDF and used with AES-GCM of the platform. *)

From Stdlib Require Import Ascii String ZArith Lia Bool.
From stdpp Require Import base list strings.
From S2P Require Import Prelude Bytes JsString Base64 WebCrypto JsonText JsonParse Ecies KeyInbox OpaqueKeyring.

Open Scope list_scope.
Open Scope string_scope.

Definition PRF_SALT_LENGTH : nat := 32.
Definition PRF_PAYLOAD_VERSION : string := "prf-aes256gcm-v1".
Definition PRF_HKDF_INFO : string := "spoovault-keyring-passkey-v1".

(** A credential, with the results of the PRF extension. *)
Record Credential : Type := mkCredential { rawId : list Z; prf_enabled : bool; prf_first : option (list Z) }.
(** What the container rejects with. *)
Record DomError : Type := mkDomError { name : string; dom_message : string }.

Record CreationOptions : Type := mkCreation {
  challenge : list Z; rp_id : string; rp_name : string; user_id : list Z; user_name : string; displayName : string;
  timeout : Z; excludeCredentials : list (list Z); prf_eval : list Z
}.
Record RequestOptions : Type := mkGet {
  r_challenge : list Z; rpId : string; r_timeout : Z; allowCredentials : list (list Z); r_prf_eval : list Z
}.

(** The container, when there is one. *)
Record Container (A : Type) : Type := {
  create : CreationOptions -> A -> (option Credential + DomError) * A;
  get : RequestOptions -> A -> (option Credential + DomError) * A
}.
Arguments create {A}. Arguments get {A}.

Record RegisterPasskeyResult : Type := mkRegister { credentialId : string; prfEnabled : bool; prfOutput : option (list Z) }.

Section WebAuthn.
Context {A : Type} {W : WebCrypto} {P : PkCrypto}.
Variable navigator : option (Container A).

Abbreviation M := (eio A).

(** The name, or the message when there is no name. *)
Definition normalizeCredentialError (err : DomError) (prefix : string) : Err :=
  let raw := toLowerCase (or_else (Some (name err)) (dom_message err)) in
  if existsb (fun p => includes p raw) ["notallowederror"; "not allowed"; "canceled"; "cancelled"; "dismissed"; "user gesture"]
  then WebAuthnError (prefix ++ ": the request was cancelled or declined by the user.") NOT_ALLOWED
  else if existsb (fun p => includes p raw) ["notsupportederror"; "not supported"; "unsupported"]
  then WebAuthnError (prefix ++ ": WebAuthn / PRF is not supported by this device or authenticator.") NOT_SUPPORTED
  else WebAuthnError (prefix ++ ": " ++ or_else (Some (or_else (Some (name err)) (dom_message err))) "unknown error") UNKNOWN.

Definition isWebAuthnAvailable : bool := match navigator with Some _ => true | None => false end.

(** [getRelyingPartyId()] *)
Definition getRelyingPartyId (hostname : option string) : string := or_else hostname "localhost".

Definition decode_ids (ids : list string) : res (list (list Z)) := res_mapM base64UrlToBytes ids.

Definition registerPasskey (rp_id rp_name userName : string) (userDisplayName : option string) (challenge prfSalt : list Z)
    (excludeCredentialIds : list string) : M RegisterPasskeyResult :=
  match navigator with
  | None => ethrow (WebAuthnError "WebAuthn is not available in this browser or device." NOT_SUPPORTED)
  | Some c =>
      run! excluded <- of_res (decode_ids excludeCredentialIds) in
      fun a =>
        match create c (mkCreation challenge rp_id rp_name (text_encode userName) userName
                          (or_else userDisplayName userName) 60000%Z excluded prfSalt) a with
        | (inr err, a') => (inr (normalizeCredentialError err "Passkey registration failed"), a')
        | (inl None, a') => (inr (WebAuthnError "Passkey registration returned no credential." UNKNOWN), a')
        | (inl (Some credential), a') =>
            (inl (mkRegister (bytesToBase64Url (rawId credential)) (prf_enabled credential) (prf_first credential)), a')
        end
  end.

Definition authenticatePasskey (rp_id : string) (challenge prfSalt : list Z) (credentialId : option string) : M (list Z) :=
  match navigator with
  | None => ethrow (WebAuthnError "WebAuthn is not available in this browser or device." NOT_SUPPORTED)
  | Some c =>
      run! allowed <- of_res (decode_ids (if blank (or_empty credentialId) then [] else [or_empty credentialId])) in
      fun a =>
        match get c (mkGet challenge rp_id 60000%Z allowed prfSalt) a with
        | (inr err, a') => (inr (normalizeCredentialError err "Passkey authentication failed"), a')
        | (inl None, a') => (inr (WebAuthnError "Passkey authentication returned no assertion." UNKNOWN), a')
        | (inl (Some assertion), a') =>
            (match prf_first assertion with
             | Some first => inl first
             | None => inr (WebAuthnError "The authenticator did not return a PRF-derived output." PRF_OUTPUT_MISSING)
             end, a')
        end
  end.

(** ** The key of the authenticator *)

Definition deriveAesKeyFromPrfOutput (prfOutput salt : list Z) : list Z := hkdf salt (text_encode PRF_HKDF_INFO) prfOutput.

Definition prf_payload (ivBytes ct : list Z) : json :=
  JObj [("version", JStr PRF_PAYLOAD_VERSION); ("iv", JStr (bytesToBase64Url ivBytes)); ("ciphertext", JStr (bytesToBase64Url ct))].

Definition encryptWithPrfKey (plaintext : string) (aesKey ivBytes : list Z) : string :=
  stringify_with 0 (prf_payload ivBytes (aes_gcm_encrypt aesKey ivBytes [] (text_encode plaintext))).

(** [base64UrlToBytes(payload.k)] *)
Definition url_member (k : string) (payload : json) : res (list Z) :=
  match as_str (get_prop k payload) with
  | Some s => base64UrlToBytes s
  | None => Throw "TypeError: value.replace is not a function"
  end.

Definition decryptWithPrfKey (payloadJson : string) (aesKey : list Z) : res string :=
  match json_parse payloadJson with
  | Throw _ => Throw "Invalid passkey-encrypted payload"
  | Ok JNull => Throw "TypeError: Cannot read properties of null"
  | Ok payload =>
      throw_if negb (match get_prop "version" payload with Some (JStr v) => String.eqb v PRF_PAYLOAD_VERSION | _ => false end)
        with ("Unsupported passkey payload version: " ++ match get_prop "version" payload with Some v => String_of v | None => "undefined" end);;
      let! ivBytes := url_member "iv" payload in
      let! ct := url_member "ciphertext" payload in
      match aes_gcm_decrypt aesKey ivBytes [] ct with
      | Some plaintext => Ok (text_decode plaintext)
      | None => Throw "Failed to decrypt passkey-encrypted payload"
      end
  end.

Lemma prf_roundtrip {L : WebCryptoLaws W} (plaintext : string) (aesKey ivBytes : list Z) : bytes ivBytes ->
  decryptWithPrfKey (encryptWithPrfKey plaintext aesKey ivBytes) aesKey = Ok plaintext.
Proof.
  intros Hi. unfold decryptWithPrfKey, encryptWithPrfKey. rewrite parse_stringified. unfold prf_payload, url_member. cbn.
  rewrite !base64url_round by auto with webcrypto. cbn [res_bind]. now rewrite decrypt_encrypt, decode_encode.
Qed.

End WebAuthn.
