(* ===== verification/ClientKeyring.v ===== *)
(** * ClientKeyring: clientKeyring.service.ts

    The world is the database of the browser with its fallback in memory, the session
    cache, the OPAQUE client with its server, and the authenticator.  A cached key is a
    buffer with an identity, so that what is left in memory can be asked about. *)

From Stdlib Require Import Ascii String ZArith Lia Bool.
From stdpp Require Import base list gmap strings.
From S2P Require Import Prelude Bytes JsString Base64 WebCrypto JsonText JsonParse JsNumber KeyInbox Ecies Passphrase OpaqueKeyring WebAuthn.

Open Scope list_scope.
Open Scope string_scope.

(** ** Data *)

Definition ZKPP_VERSION : string := "spoovault-zkpp-v1".
Record ZkppEnvelope : Type := mkZkpp { z_version : string; z_iv : string; z_ciphertext : string }.

(** A legacy HMAC key; one that was copied out of the database is no longer a secret key. *)
Record OprfKey : Type := mkOprf { type_secret : bool; hmac_key : list Z }.

Record KeyPairRecord : Type := mkRecord {
  account : string; publicKey : string; encryptedPrivateKey : string; createdAt : Z; updatedAt : Z; hasPin : bool;
  hasPasskey : bool; passkeyCredentialId : string; passkeyPrfSalt : string; passkeyEncryptedPrivateKey : string;
  opaque : option OpaqueKeyringEnvelope; zkpp : option ZkppEnvelope; oprfKey : option OprfKey
}.

(** How IndexedDB behaves: missing, failing to open, failing on each request, or working. *)
Inductive IdbMode : Type := Idb_missing | Idb_no_open | Idb_no_request | Idb_works.

Record World (Srv A : Type) : Type := mkWorld {
  idb : IdbMode; db : gmap string KeyPairRecord; memoryStore : gmap string KeyPairRecord;
  sessionKeyCache : gmap string nat; buffers : gmap nat (list Z);
  opaque_state : OpaqueState Srv; authenticator : A; clock : Z
}.
Arguments mkWorld {Srv A}. Arguments idb {Srv A}. Arguments db {Srv A}. Arguments memoryStore {Srv A}.
Arguments sessionKeyCache {Srv A}. Arguments buffers {Srv A}. Arguments opaque_state {Srv A}.
Arguments authenticator {Srv A}. Arguments clock {Srv A}.

(** The key derivations that only the legacy records use. *)
Class LegacyKdf : Type := {
  pbkdf2_bits : list Z -> list Z -> Z -> list Z;
  hmac_sha256 : list Z -> list Z -> list Z
}.

Section Keyring.
Context {Srv A : Type} {O : OpaqueLib} {WC : WebCrypto} {P : PkCrypto} {K : Kdf} {LK : LegacyKdf}.
Variables (injectedTransport : option (Transport Srv)) (built : string -> Transport Srv).
Variables (VITE_OPAQUE_SERVER_URL injectedServerPublicKey VITE_OPAQUE_SERVER_PUBLIC_KEY : option string).
Variables (random_bytes : nat -> nat -> list Z) (navigator : option (Container A)) (hostname : option string).
(** The pair a draw generates. *)
Variable drawn_pair : nat -> PrivKey.

Abbreviation M := (eio (World Srv A)).

Definition set_db (w : World Srv A) d : World Srv A := mkWorld (idb w) d (memoryStore w) (sessionKeyCache w) (buffers w) (opaque_state w) (authenticator w) (clock w).
Definition set_memory (w : World Srv A) m : World Srv A := mkWorld (idb w) (db w) m (sessionKeyCache w) (buffers w) (opaque_state w) (authenticator w) (clock w).
Definition set_cache (w : World Srv A) c b : World Srv A := mkWorld (idb w) (db w) (memoryStore w) c b (opaque_state w) (authenticator w) (clock w).
Definition set_opaque (w : World Srv A) (o : OpaqueState Srv) : World Srv A := mkWorld (idb w) (db w) (memoryStore w) (sessionKeyCache w) (buffers w) o (authenticator w) (clock w).
Definition set_authenticator (w : World Srv A) (a : A) : World Srv A := mkWorld (idb w) (db w) (memoryStore w) (sessionKeyCache w) (buffers w) (opaque_state w) a (clock w).

Definition in_opaque {B : Type} (m : eio (OpaqueState Srv) B) : M B :=
  fun w => let '(r, o) := m (opaque_state w) in (r, set_opaque w o).
Definition in_authenticator {B : Type} (m : eio A B) : M B :=
  fun w => let '(r, a) := m (authenticator w) in (r, set_authenticator w a).
Definition draw_number : M nat := in_opaque draw.
Definition now : M Z := fun w => (inl (clock w), w).

(** ** The session cache *)

Definition cachePrivateKey (account privateKey : string) : M unit :=
  fun w =>
    let id := fresh (dom (buffers w)) in
    (inl tt, set_cache w (<[account := id]> (sessionKeyCache w)) (<[id := text_encode privateKey]> (buffers w))).

(** The bytes of the cached buffer. *)
Definition cached_bytes (account : string) (w : World Srv A) : option (list Z) :=
  match sessionKeyCache w !! account with Some id => buffers w !! id | None => None end.
Definition readCachedPrivateKey (account : string) : M (option string) :=
  fun w => (inl (option_map text_decode (cached_bytes account w)), w).

Definition wipeCachedPrivateKey (account : string) : M unit :=
  fun w =>
    match sessionKeyCache w !! account with
    | None => (inl tt, w)
    | Some id =>
        (inl tt, set_cache w (delete account (sessionKeyCache w))
                   (alter (fun cached => map (fun _ => 0%Z) cached) id (buffers w)))
    end.

(** ** The database *)

Definition idbGet (account : string) : M (option KeyPairRecord) :=
  fun w =>
    let normalized := toLowerCase account in
    match idb w with
    | Idb_missing | Idb_no_open => (inl (memoryStore w !! normalized), w)
    | Idb_no_request => (inr (Plain "request.error"), w)
    | Idb_works => (inl (db w !! normalized), w)
    end.

Definition with_account (r : KeyPairRecord) (a : string) : KeyPairRecord :=
  mkRecord a (publicKey r) (encryptedPrivateKey r) (createdAt r) (updatedAt r) (hasPin r) (hasPasskey r)
    (passkeyCredentialId r) (passkeyPrfSalt r) (passkeyEncryptedPrivateKey r) (opaque r) (zkpp r) (oprfKey r).

Definition idbPut (record : KeyPairRecord) : M unit :=
  fun w =>
    let normalized := toLowerCase (account record) in
    let record := with_account record normalized in
    match idb w with
    | Idb_missing | Idb_no_open => (inl tt, set_memory w (<[normalized := record]> (memoryStore w)))
    | Idb_no_request => (inr (Plain "request.error"), w)
    | Idb_works => (inl tt, set_db w (<[normalized := record]> (db w)))
    end.

Definition idbDelete (account : string) : M unit :=
  fun w =>
    let normalized := toLowerCase account in
    match idb w with
    | Idb_missing | Idb_no_open => (inl tt, set_memory w (delete normalized (memoryStore w)))
    | Idb_no_request => (inr (Plain "request.error"), w)
    | Idb_works => (inl tt, set_db w (delete normalized (db w)))
    end.

Definition idbGetAllKeys : M (list string) :=
  fun w =>
    match idb w with
    | Idb_missing | Idb_no_open => (inl (map fst (map_to_list (memoryStore w))), w)
    | Idb_no_request => (inr (Plain "request.error"), w)
    | Idb_works => (inl (map fst (map_to_list (db w))), w)
    end.

(** ** Storing a pair *)

Abbreviation enroll acc pin pub priv :=
  (in_opaque (enrollAndWrap injectedTransport built VITE_OPAQUE_SERVER_URL injectedServerPublicKey
                VITE_OPAQUE_SERVER_PUBLIC_KEY random_bytes acc pin pub priv)).
Abbreviation unwrap acc pin pub env :=
  (in_opaque (verifyAndUnwrap injectedTransport built VITE_OPAQUE_SERVER_URL injectedServerPublicKey
                VITE_OPAQUE_SERVER_PUBLIC_KEY acc pin pub env)).

(** The record, which keeps what it does not set of the existing one. *)
Definition opaque_record (existing : option KeyPairRecord) (normalized pub : string) (at_time : Z) (env : OpaqueKeyringEnvelope)
    : KeyPairRecord :=
  mkRecord normalized pub ""
    (match existing with Some r => if (createdAt r =? 0)%Z then at_time else createdAt r | None => at_time end) at_time true
    (match existing with Some r => hasPasskey r | None => false end)
    (match existing with Some r => passkeyCredentialId r | None => "" end)
    (match existing with Some r => passkeyPrfSalt r | None => "" end)
    (match existing with Some r => passkeyEncryptedPrivateKey r | None => "" end)
    (Some env) None None.

Definition persistKeyPair (acc pub priv pinOrPassphrase : string) (existing : option KeyPairRecord) : M unit :=
  let normalized := toLowerCase acc in
  let passphrase := trim pinOrPassphrase in
  if blank passphrase then ethrow (Plain "A PIN or passphrase is required when no passkey protects the keyring")
  else
    run! opaqueEnvelope <- enroll normalized passphrase pub priv in
    run! t <- now in
    run! _ <- idbPut (opaque_record existing normalized pub t opaqueEnvelope) in
    cachePrivateKey normalized priv.

(** The passphrase, and whether the user chose it. *)
Definition getEffectivePassphrase (acc pinOrPassphrase : string) : string * bool :=
  let trimmed := trim pinOrPassphrase in
  if blank trimmed then ("spoovault:keyring:default:" ++ toLowerCase acc, false) else (trimmed, true).

(** ** Legacy envelopes *)

Definition zkppBlindPin (pin : string) : list Z :=
  pbkdf2_bits (text_encode pin) (text_encode "spoovault-zkpp-blind-v1") PBKDF2_ITERATIONS.
Definition zkppEvaluate (key : OprfKey) (acc : string) (blinded : list Z) : list Z :=
  hmac_sha256 (hmac_key key) (text_encode ("spoovault-zkpp-oprf|" ++ toLowerCase acc ++ "|") ++ blinded)%list.
Definition zkppFinalize (oprfOutput : list Z) : list Z :=
  hkdf (text_encode "spoovault-zkpp-wrap") (text_encode "aes-256-gcm keyring wrap") oprfOutput.

Definition zkppUnwrapPrivateKey (acc pin : string) (key : OprfKey) (envelope : ZkppEnvelope) : res string :=
  let wrappingKey := zkppFinalize (zkppEvaluate key acc (zkppBlindPin pin)) in
  match (let! ivBytes := atob (z_iv envelope) in
         let! ct := atob (z_ciphertext envelope) in
         match aes_gcm_decrypt wrappingKey ivBytes [] ct with Some p => Ok (text_decode p) | None => Throw "OperationError" end) with
  | Ok plain => Ok plain
  | Throw _ => Throw "ZKPP_VERIFICATION_FAILED"
  end.

Definition isZkppEnvelope (value : option ZkppEnvelope) : bool :=
  match value with Some e => String.eqb (z_version e) ZKPP_VERSION | None => false end.

Definition wrong_pin (record : KeyPairRecord) : Err :=
  Plain (if hasPin record then "Incorrect PIN or passphrase. Please verify your PIN."
         else "Failed to decrypt client private key from secure storage.").

(** What the user is told when the OPAQUE login fails. *)
Definition opaque_error (e : Err) : Err :=
  let incorrect := Plain "Incorrect PIN or passphrase. Please verify your PIN." in
  match e with
  | OpaqueTransportError m code _ =>
      if String.eqb code "OPAQUE_RATE_LIMITED" then Plain "Too many PIN attempts. Please wait before trying again."
      else if String.eqb code "OPAQUE_SERVER_UNAVAILABLE" || String.eqb code "OPAQUE_SERVER_NOT_CONFIGURED" then e
      else if String.eqb m "OPAQUE server identity verification failed" then e
      else incorrect
  | Plain m | WebAuthnError m _ => if String.eqb m "OPAQUE server identity verification failed" then e else incorrect
  end.

Definition unlock_opaque (record : KeyPairRecord) (env : OpaqueKeyringEnvelope) (pinOrPassphrase : string) : M string :=
  ecatch (unwrap (account record) (trim pinOrPassphrase) (publicKey record) env) (fun e => ethrow (opaque_error e)).

(** A legacy key that was read is stored anew under OPAQUE, which takes a pin of the user. *)
Definition migrate (record : KeyPairRecord) (pinOrPassphrase : string) (unwrapped : string -> res string) : M string :=
  let '(passphrase, isCustomPin) := getEffectivePassphrase (account record) pinOrPassphrase in
  match unwrapped passphrase with
  | Throw _ => ethrow (wrong_pin record)
  | Ok privateKey =>
      if negb isCustomPin then ethrow (Plain "This legacy keyring needs a new PIN before it can be migrated to OPAQUE.")
      else
        run! _ <- persistKeyPair (account record) (publicKey record) privateKey passphrase (Some record) in
        eret privateKey
  end.

Definition unlock_zkpp (record : KeyPairRecord) (env : ZkppEnvelope) (pinOrPassphrase : string) : M string :=
  match oprfKey record with
  | Some key =>
      if type_secret key
      then migrate record pinOrPassphrase (fun passphrase => zkppUnwrapPrivateKey (account record) passphrase key env)
      else ethrow (Plain "ZKPP credential file is incomplete: the non-extractable OPRF secret is missing from this storage dump.")
  | None => ethrow (Plain "ZKPP credential file is incomplete: the non-extractable OPRF secret is missing from this storage dump.")
  end.

Definition unlock_legacy (record : KeyPairRecord) (pinOrPassphrase : string) : M string :=
  if blank (encryptedPrivateKey record) then ethrow (Plain "No decryptable key material in keyring record")
  else migrate record pinOrPassphrase (decryptWithPassphrase (encryptedPrivateKey record)).

Definition unlockRecord (record : KeyPairRecord) (pinOrPassphrase : string) : M string :=
  match opaque record, isOpaqueKeyringEnvelope (opaque record) with
  | Some env, true => unlock_opaque record env pinOrPassphrase
  | _, _ =>
      match zkpp record, isZkppEnvelope (zkpp record) with
      | Some env, true => unlock_zkpp record env pinOrPassphrase
      | _, _ => unlock_legacy record pinOrPassphrase
      end
  end.

(** ** Passkeys *)

Record PasskeyProtection : Type := mkPasskey { pk_credentialId : string; pk_prfSalt : string; pk_encryptedPrivateKey : string }.

Definition PASSKEY_RP_NAME : string := "SpooVault".
Definition rp : string := getRelyingPartyId hostname.
Definition generatePrfSalt : M (list Z) := run! n <- draw_number in eret (random_bytes n PRF_SALT_LENGTH).
Definition generateChallenge : M (list Z) := run! n <- draw_number in eret (random_bytes n 32).

(** Nothing that goes wrong here is an error: there is no passkey then. *)
Definition createPasskeyProtection (acc privateKey : string) : M (option PasskeyProtection) :=
  if negb (isWebAuthnAvailable navigator) then eret None
  else
    run! prfSalt <- generatePrfSalt in
    ecatch
      (run! c <- generateChallenge in
       run! registration <- in_authenticator (registerPasskey navigator rp PASSKEY_RP_NAME acc (Some acc) c prfSalt []) in
       if negb (prfEnabled registration) then eret None
       else
         run! output <- match prfOutput registration with
                        | Some out => eret out
                        | None =>
                            run! c <- generateChallenge in
                            in_authenticator (authenticatePasskey navigator rp c prfSalt (Some (credentialId registration)))
                        end in
         run! n <- draw_number in
         eret (Some (mkPasskey (credentialId registration) (bytesToBase64Url prfSalt)
                       (encryptWithPrfKey privateKey (deriveAesKeyFromPrfOutput output prfSalt) (random_bytes n 12)))))
      (fun _ => eret None).

Definition decryptRecordWithPasskey (record : KeyPairRecord) : M string :=
  run! prfSalt <- of_res (base64UrlToBytes (passkeyPrfSalt record)) in
  run! c <- generateChallenge in
  run! output <- in_authenticator (authenticatePasskey navigator rp c prfSalt (Some (passkeyCredentialId record))) in
  of_res (decryptWithPrfKey (passkeyEncryptedPrivateKey record) (deriveAesKeyFromPrfOutput output prfSalt)).

(** ** The service *)

(** Some key material that can be decrypted. *)
Definition has_material (r : KeyPairRecord) : bool :=
  negb (blank (encryptedPrivateKey r)) || negb (blank (passkeyEncryptedPrivateKey r))
  || bool_decide (is_Some (opaque r)) || bool_decide (is_Some (zkpp r)).

Definition hasKeyPair (acc : string) : M bool :=
  if blank acc then eret false
  else
    run! record <- idbGet acc in
    eret (match record with Some r => negb (blank (publicKey r)) && has_material r | None => false end).

Definition getKeyPairRecord (acc : string) : M (option KeyPairRecord) := if blank acc then eret None else idbGet acc.

Definition getStoredPublicKey (acc : string) : M (option string) :=
  if blank acc then eret None
  else
    run! record <- idbGet acc in
    eret (match record with Some r => if blank (publicKey r) then None else Some (publicKey r) | None => None end).

(** The record of a keyring that only a passkey protects. *)
Definition passkey_record (existing : option KeyPairRecord) (normalized pub : string) (at_time : Z) (k : PasskeyProtection) : KeyPairRecord :=
  mkRecord normalized pub "" (match existing with Some r => if (createdAt r =? 0)%Z then at_time else createdAt r | None => at_time end)
    at_time false true (pk_credentialId k) (pk_prfSalt k) (pk_encryptedPrivateKey k) None None None.

Definition with_passkey (r : KeyPairRecord) (k : PasskeyProtection) : KeyPairRecord :=
  mkRecord (account r) (publicKey r) (encryptedPrivateKey r) (createdAt r) (updatedAt r) (hasPin r) true
    (pk_credentialId k) (pk_prfSalt k) (pk_encryptedPrivateKey k) (opaque r) (zkpp r) (oprfKey r).

Definition generateAndSaveKeyPair (acc pinOrPassphrase : string) (enablePasskey : bool) : M string :=
  if blank acc then ethrow (Plain "Account address is required to generate a keypair")
  else
    let normalized := toLowerCase acc in
    run! n <- draw_number in
    let '(pub, priv) := generateECIESKeyPairBase64 (drawn_pair n) in
    run! passkey <- (if enablePasskey then createPasskeyProtection normalized priv else eret None) in
    run! existing <- idbGet normalized in
    let pin := trim pinOrPassphrase in
    run! _ <- (if negb (blank pin) then persistKeyPair normalized pub priv pin existing
               else match passkey with
                    | Some k => run! t <- now in idbPut (passkey_record existing normalized pub t k)
                    | None => ethrow (Plain "A PIN/passphrase is required because a WebAuthn PRF passkey could not be created.")
                    end) in
    run! updatedRecord <- idbGet normalized in
    run! _ <- match passkey, updatedRecord with
              | Some k, Some r => if blank pin then eret tt else idbPut (with_passkey r k)
              | _, _ => eret tt
              end in
    run! _ <- cachePrivateKey normalized priv in
    eret pub.

Definition saveKeyPair (acc pub priv pinOrPassphrase : string) : M unit :=
  if blank acc || blank pub || blank priv then ethrow (Plain "Account, publicKey, and privateKey are required")
  else
    run! _ <- of_res (importECIESPublicKey pub) in
    run! _ <- of_res (importECIESPrivateKey priv) in
    let normalized := toLowerCase acc in
    if blank (trim pinOrPassphrase) then ethrow (Plain "A PIN or passphrase is required to save a keypair without a passkey")
    else
      run! existing <- idbGet normalized in
      persistKeyPair normalized pub priv pinOrPassphrase existing.

Definition passkey_usable (r : KeyPairRecord) : bool :=
  hasPasskey r && negb (blank (passkeyCredentialId r)) && negb (blank (passkeyPrfSalt r)) && negb (blank (passkeyEncryptedPrivateKey r)).

(** What the user is told when the passkey fails. *)
Definition passkey_error (r : KeyPairRecord) (e : Err) : Err :=
  let cancelled := match e with WebAuthnError _ NOT_ALLOWED => true | _ => false end in
  let has_copy := negb (blank (encryptedPrivateKey r)) || bool_decide (is_Some (opaque r)) || bool_decide (is_Some (zkpp r)) in
  Plain (if hasPin r && has_copy
         then if cancelled then "Passkey authentication cancelled. Unlock with your PIN/passphrase instead."
              else "Passkey authentication failed. Unlock with your PIN/passphrase instead."
         else if cancelled then "Passkey authentication cancelled. Please try again when you are ready to unlock."
              else "Passkey authentication failed. Please verify your hardware authenticator.").

Definition getDecryptedPrivateKey (acc pinOrPassphrase : string) : M string :=
  if blank acc then ethrow (Plain "Account address is required")
  else
    let normalized := toLowerCase acc in
    run! cached <- readCachedPrivateKey normalized in
    if negb (blank (or_empty cached)) then eret (or_empty cached)
    else
      run! record <- idbGet normalized in
      match record with
      | Some record =>
          if negb (has_material record)
          then ethrow (Plain ("No local encryption keypair found for wallet " ++ acc ++ ". Please generate one in your Profile page."))
          else if blank (trim pinOrPassphrase) && passkey_usable record then
            ecatch (run! privateKey <- decryptRecordWithPasskey record in
                    run! _ <- cachePrivateKey normalized privateKey in
                    eret privateKey)
              (fun e => ethrow (passkey_error record e))
          else
            run! privateKey <- unlockRecord record pinOrPassphrase in
            run! _ <- cachePrivateKey normalized privateKey in
            eret privateKey
      | None => ethrow (Plain ("No local encryption keypair found for wallet " ++ acc ++ ". Please generate one in your Profile page."))
      end.

Definition isUnlocked (acc : string) (w : World Srv A) : bool :=
  if blank acc then false else bool_decide (is_Some (sessionKeyCache w !! toLowerCase acc)).

Definition lockAccount (acc : string) : M unit :=
  if blank acc then eret tt
  else run! _ <- wipeCachedPrivateKey (toLowerCase acc) in in_opaque (OpaqueKeyring.lockAccount acc).

Fixpoint wipe_all (accounts : list string) : M unit :=
  match accounts with
  | [] => eret tt
  | a :: l => run! _ <- wipeCachedPrivateKey a in wipe_all l
  end.

Definition getUnlockedAccounts (w : World Srv A) : list string := map fst (map_to_list (sessionKeyCache w)).

Definition clearSessionCache : M unit :=
  fun w => (run! _ <- wipe_all (getUnlockedAccounts w) in in_opaque clearSession) w.

Definition deleteKeyPair (acc : string) : M unit :=
  if blank acc then eret tt
  else
    let normalized := toLowerCase acc in
    run! _ <- wipeCachedPrivateKey normalized in
    run! _ <- ecatch (in_opaque (delete_credential injectedTransport built VITE_OPAQUE_SERVER_URL normalized)) (fun _ => eret tt) in
    idbDelete normalized.

Definition BACKUP_VERSION : string := "spoovault-keyring-backup-v1".
Definition backup_object (acc pub encrypted exportedAt : string) : json :=
  JObj [("version", JStr BACKUP_VERSION); ("account", JStr acc); ("publicKey", JStr pub);
        ("encryptedPrivateKey", JStr encrypted); ("exportedAt", JStr exportedAt)].

Definition exportKeyBackup (acc backupPassphrase currentPin : string) : M string :=
  if blank acc then ethrow (Plain "Account is required")
  else if blank (trim backupPassphrase) then ethrow (Plain "A secure backup passphrase is required")
  else
    let normalized := toLowerCase acc in
    run! privateKey <- getDecryptedPrivateKey normalized currentPin in
    run! pub <- getStoredPublicKey normalized in
    run! n <- draw_number in
    run! m <- draw_number in
    run! encryptedForBackup <- of_res (encryptWithPassphrase privateKey (trim backupPassphrase) DEFAULT_KDF_OPTIONS
                                         (random_bytes n 16) (random_bytes m 12)) in
    run! t <- now in
    eret (stringify_with 2 (backup_object normalized (or_empty pub) encryptedForBackup (toISOString t))).

(** A member where a text is read: what is not a text is printed first. *)
Definition backup_member (k : string) (parsed : json) : string :=
  match get_prop k parsed with Some v => String_of v | None => "undefined" end.

(** The member as an argument of [saveKeyPair], which takes nothing that is falsy. *)
Definition backup_key (k : string) (parsed : json) : string :=
  match get_prop k parsed with
  | None | Some JNull | Some (JBool false) | Some (JNum 0%Z) => ""
  | Some v => String_of v
  end.

Definition backup_owner (parsed : json) (acc : string) : res unit :=
  match get_prop "account" parsed with
  | None | Some JNull | Some (JBool false) | Some (JNum 0%Z) | Some (JStr EmptyString) => Ok tt
  | Some (JStr owner) =>
      throw_if negb (String.eqb (toLowerCase owner) (toLowerCase acc))
        with ("Backup file was created for wallet " ++ owner ++ ", but active account is " ++ acc);;
      Ok tt
  | Some _ => Throw "TypeError: parsed.account.toLowerCase is not a function"
  end.

(** The checks of the file, before it is decrypted. *)
Definition backup_checks (parsed : json) (acc : string) : res unit :=
  throw_if match parsed with JNull => true | _ => false end with "TypeError: Cannot read properties of null (reading 'version')";;
  throw_if negb (match get_prop "version" parsed with Some (JStr v) => String.eqb v BACKUP_VERSION | _ => false end)
    with ("Unsupported backup format version: " ++ match get_prop "version" parsed with Some v => String_of v | None => "undefined" end);;
  backup_owner parsed acc.

Definition importKeyBackup (acc backupJson backupPassphrase newPin : string) : M string :=
  if blank acc then ethrow (Plain "Account is required")
  else if blank backupPassphrase then ethrow (Plain "Backup passphrase is required")
  else
    match json_parse backupJson with
    | Throw _ => ethrow (Plain "Invalid backup file: Malformed JSON")
    | Ok parsed =>
        run! _ <- of_res (backup_checks parsed acc) in
        match decryptWithPassphrase (backup_member "encryptedPrivateKey" parsed) backupPassphrase with
        | Throw _ => ethrow (Plain "Failed to decrypt backup: Incorrect backup passphrase")
        | Ok decryptedPrivateKey =>
            run! _ <- saveKeyPair (toLowerCase acc) (backup_key "publicKey" parsed) decryptedPrivateKey newPin in
            eret (backup_key "publicKey" parsed)
        end
    end.

Definition listAccounts : M (list string) := idbGetAllKeys.

Definition getCachedPrivateKeyBytes (acc : string) (w : World Srv A) : option (list Z) :=
  if blank acc then None else cached_bytes (toLowerCase acc) w.

End Keyring.
