(* ===== verification/ClientKeyringProofs.v ===== *)
(** * ClientKeyringProofs: what a key that was stored can be unlocked with *)

From Stdlib Require Import Ascii String ZArith Lia Bool.
From stdpp Require Import base list gmap strings.
From S2P Require Import Prelude Bytes JsString Base64 WebCrypto JsonText Ecies EciesProofs JsNumber KeyInbox JsonParse Passphrase OpaqueKeyring WebAuthn ClientKeyring.

Open Scope list_scope.
Open Scope string_scope.

(** ** The OPAQUE protocol, as its library documents it *)

(** An account as a server keeps it: trimmed and in lower case. *)
Definition proper (acc : string) : Prop := toLowerCase (trim acc) = acc.

(** [enrolled srv account pin key]: the server knows the account with a pin that exports the key;
    [answers srv account]: it does not turn the account's next login away. *)
Class OpaqueLaws {Srv : Type} {O : OpaqueLib} (t : Transport Srv) (server_key : string) : Type := {
  enrolled : Srv -> string -> string -> string -> Prop;
  answers : Srv -> string -> Prop;
  after_registration : forall srv acc pin n response srv1 token tok srv2,
    let '(state, req) := client_startRegistration pin n in
    let r := client_finishRegistration state response pin acc OPAQUE_SERVER_ID in
    startRegistration t acc req srv = (inl response, srv1) ->
    finishRegistration t acc (registrationRecord r) token srv1 = (inl tok, srv2) -> proper acc ->
    enrolled srv2 acc pin (r_exportKey r);
  after_login : forall srv acc pin n id response srv1 r tok srv2,
    let '(state, req) := client_startLogin pin n in
    startLogin t acc req srv = (inl (id, response), srv1) ->
    client_finishLogin state response pin acc OPAQUE_SERVER_ID = Some r ->
    finishLogin t id (finishLoginRequest r) srv1 = (inl tok, srv2) -> proper acc ->
    enrolled srv2 acc pin (exportKey r);
  login_succeeds : forall srv acc pin key n, enrolled srv acc pin key -> answers srv acc ->
    let '(state, req) := client_startLogin pin n in
    exists id response srv1 r tok srv2,
      startLogin t acc req srv = (inl (id, response), srv1)
      /\ client_finishLogin state response pin acc OPAQUE_SERVER_ID = Some r
      /\ exportKey r = key /\ serverStaticPublicKey r = server_key
      /\ finishLogin t id (finishLoginRequest r) srv1 = (inl tok, srv2) /\ enrolled srv2 acc pin key /\ answers srv2 acc
}.

Lemma ebind_inl {E S A B : Type} (m : throwing E S A) (k : A -> throwing E S B) (s s' : S) (b : B) :
  ebind m k s = (inl b, s') -> exists a s1, m s = (inl a, s1) /\ k a s1 = (inl b, s').
Proof. unfold ebind. destruct (m s) as [[a|e] s1]; [|discriminate]. intros H. now exists a, s1. Qed.

Ltac inv_run H := let a := fresh "x" in let s := fresh "s" in let E := fresh "E" in
  apply ebind_inl in H as (a & s & E & H).

Section Opaque.
Context {Srv : Type} {O : OpaqueLib} {WC : WebCrypto} {WL : WebCryptoLaws WC} {P : PkCrypto}.
Variables (injectedTransport : option (Transport Srv)) (built : string -> Transport Srv).
Variables (url injectedKey env_key : option string) (random_bytes : nat -> nat -> list Z) (t : Transport Srv) (server_key : string).
Context {OL : OpaqueLaws t server_key}.
Hypothesis the_transport : getTransport injectedTransport built url = inl t.
Hypothesis the_key : getExpectedServerPublicKey injectedKey env_key = inl server_key.
Hypothesis drawn_bytes : forall n k, bytes (random_bytes n k).

Abbreviation enroll acc pin pub priv := (enrollAndWrap injectedTransport built url injectedKey env_key random_bytes acc pin pub priv).
Abbreviation unwrap acc pin pub env := (verifyAndUnwrap injectedTransport built url injectedKey env_key acc pin pub env).
Abbreviation login := (OpaqueKeyring.login injectedTransport built url injectedKey env_key).
Abbreviation register := (OpaqueKeyring.register injectedTransport built url injectedKey env_key).

Lemma login_enrolls (acc pin key : string) (s s' : OpaqueState Srv) :
  login acc pin s = (inl key, s') -> proper (toLowerCase acc) -> enrolled (server s') (toLowerCase acc) pin key.
Proof.
  unfold OpaqueKeyring.login. intros H Hacc. inv_run H. unfold transport in E. rewrite the_transport in E. injection E as <- <-.
  inv_run H. injection E as <- <-. pose proof (after_login (server s) (toLowerCase acc) pin (draws s)) as L.
  destruct (client_startLogin pin (draws s)) as [state req].
  inv_run H. destruct x as [id response]. unfold call in E. cbn [server managementTokens draws] in E.
  destruct (startLogin t (toLowerCase acc) req (server s)) as [[p|e] srv1] eqn:E1; [|discriminate]. injection E as -> <-.
  destruct (client_finishLogin state response pin (toLowerCase acc) OPAQUE_SERVER_ID) as [r|] eqn:E2; [|discriminate].
  inv_run H. unfold assertServerIdentity in E. rewrite the_key in E. injection E as _ <-.
  inv_run H. unfold call in E. cbn [server] in E.
  destruct (finishLogin t id (finishLoginRequest r) srv1) as [[tok|e] srv2] eqn:E3; [|discriminate]. injection E as -> <-.
  inv_run H. injection E as _ <-. injection H as <- <-. cbn [server]. eapply L; [reflexivity|exact E2|exact E3|exact Hacc].
Qed.

Lemma register_enrolls (acc pin key : string) (s s' : OpaqueState Srv) :
  register acc pin s = (inl key, s') -> proper (toLowerCase acc) -> enrolled (server s') (toLowerCase acc) pin key.
Proof.
  unfold OpaqueKeyring.register. intros H Hacc. inv_run H. unfold transport in E. rewrite the_transport in E. injection E as <- <-.
  inv_run H. injection E as <- <-. pose proof (after_registration (server s) (toLowerCase acc) pin (draws s)) as L.
  destruct (client_startRegistration pin (draws s)) as [state req].
  inv_run H. unfold call in E. cbn [server managementTokens draws] in E.
  destruct (startRegistration t (toLowerCase acc) req (server s)) as [[p|e] srv1] eqn:E1; [|discriminate]. injection E as -> <-.
  inv_run H. unfold assertServerIdentity in E. rewrite the_key in E. injection E as _ <-.
  inv_run H. unfold get_token in E. cbn [managementTokens] in E. injection E as <- <-.
  inv_run H. unfold call in E. cbn [server] in E.
  match type of E with context [finishRegistration ?t ?a ?r ?k ?v] => destruct (finishRegistration t a r k v) as [[tok|e] srv2] eqn:E3 end;
    [|discriminate]. injection E as -> <-.
  inv_run H. injection E as _ <-. injection H as <- <-. cbn [server]. eapply L; [reflexivity|exact E3|exact Hacc].
Qed.

Lemma login_again (acc pin key : string) (s : OpaqueState Srv) :
  enrolled (server s) (toLowerCase acc) pin key -> answers (server s) (toLowerCase acc) ->
  exists s', login acc pin s = (inl key, s') /\ enrolled (server s') (toLowerCase acc) pin key /\ answers (server s') (toLowerCase acc).
Proof.
  intros He Ha. unfold OpaqueKeyring.login, ebind, transport. rewrite the_transport. unfold draw.
  pose proof (login_succeeds (server s) (toLowerCase acc) pin key (draws s) He Ha) as L.
  destruct (client_startLogin pin (draws s)) as [state req].
  destruct L as (id & response & srv1 & r & tok & srv2 & E1 & E2 & E3 & E4 & E5 & E6).
  unfold call. cbn [server managementTokens draws]. rewrite E1, E2. unfold assertServerIdentity. rewrite the_key, E4, String.eqb_refl.
  cbn [server managementTokens draws]. rewrite E5, E3. unfold set_token, eret. cbn [server managementTokens draws].
  eexists. split; [reflexivity|]. exact E6.
Qed.

(** An envelope of a private key under an export key. *)
Definition wrapped (key acc pub priv : string) (env : OpaqueKeyringEnvelope) : Prop :=
  version env = OPAQUE_ENVELOPE_VERSION /\ unwrapPrivateKey key acc pub env = Ok priv.

Lemma wrap_wrapped (key acc pub priv : string) (env : OpaqueKeyringEnvelope) (s s' : OpaqueState Srv) :
  wrapPrivateKey random_bytes key acc pub priv s = (inl env, s') -> wrapped key acc pub priv env /\ server s' = server s.
Proof.
  unfold wrapPrivateKey. intros H. inv_run H. unfold of_res in E.
  destruct (deriveWrappingKey key) as [k|] eqn:Ek; [|discriminate]. injection E as <- <-.
  inv_run H. injection E as <- <-. injection H as <- <-. split; [|reflexivity]. split; [reflexivity|].
  unfold unwrapPrivateKey. rewrite Ek. cbn [res_bind iv ciphertext].
  rewrite !base64url_round by auto with webcrypto. cbn [res_bind]. now rewrite decrypt_encrypt, decode_encode.
Qed.

Lemma enroll_ok (acc pin pub priv : string) (env : OpaqueKeyringEnvelope) (s s' : OpaqueState Srv) :
  enroll acc pin pub priv s = (inl env, s') ->
  exists key, (proper (toLowerCase acc) -> enrolled (server s') (toLowerCase acc) (trim pin) key) /\ wrapped key acc pub priv env.
Proof.
  unfold enrollAndWrap. destruct (blank (trim pin)); [discriminate|]. intros H. inv_run H.
  apply wrap_wrapped in H as [Hw ->]. exists x. split; [|exact Hw]. unfold ecatch in E.
  destruct (register acc (trim pin) s) as [[key|e] s1] eqn:Er.
  - injection E as -> ->. now apply (register_enrolls acc (trim pin) x s).
  - destruct e as [m|m code st|m code]; try discriminate E. destruct (String.eqb code _); [|discriminate E].
    now apply (login_enrolls acc (trim pin) x s1).
Qed.

Lemma unwrap_ok (acc pin key pub priv : string) (env : OpaqueKeyringEnvelope) (s : OpaqueState Srv) :
  enrolled (server s) (toLowerCase acc) (trim pin) key -> answers (server s) (toLowerCase acc) -> wrapped key acc pub priv env ->
  blank (trim pin) = false ->
  exists s', unwrap acc pin pub env s = (inl priv, s')
    /\ enrolled (server s') (toLowerCase acc) (trim pin) key /\ answers (server s') (toLowerCase acc).
Proof.
  intros He Ha [_ Hw] Hb. unfold verifyAndUnwrap. rewrite Hb. destruct (login_again acc (trim pin) key s He Ha) as (s' & Hl & He').
  exists s'. split; [|exact He']. unfold ebind. rewrite Hl. unfold of_res. now rewrite Hw.
Qed.

End Opaque.

(** ** Storing and unlocking *)

Section Keyring.
Context {Srv A : Type} {O : OpaqueLib} {WC : WebCrypto} {WL : WebCryptoLaws WC} {P : PkCrypto} {K : Kdf} {KL : KdfLaws K} {LK : LegacyKdf}.
Variables (injectedTransport : option (Transport Srv)) (built : string -> Transport Srv).
Variables (url injectedKey env_key : option string) (random_bytes : nat -> nat -> list Z).
Variables (navigator : option (Container A)) (hostname : option string) (drawn_pair : nat -> PrivKey).
Variables (t : Transport Srv) (server_key : string).
Context {OL : OpaqueLaws t server_key}.
Hypothesis the_transport : getTransport injectedTransport built url = inl t.
Hypothesis the_key : getExpectedServerPublicKey injectedKey env_key = inl server_key.
Hypothesis drawn_bytes : forall n k, bytes (random_bytes n k).

Abbreviation persist acc pub priv pin existing :=
  (persistKeyPair injectedTransport built url injectedKey env_key random_bytes acc pub priv pin existing : eio (World Srv A) unit).
Abbreviation save acc pub priv pin :=
  (saveKeyPair injectedTransport built url injectedKey env_key random_bytes acc pub priv pin : eio (World Srv A) unit).
Abbreviation unlock acc pin :=
  (getDecryptedPrivateKey injectedTransport built url injectedKey env_key random_bytes navigator hostname acc pin : eio (World Srv A) string).

(** The record that the database answers with. *)
Definition stored (w : World Srv A) (acc : string) : option KeyPairRecord :=
  match idb w with
  | Idb_missing | Idb_no_open => memoryStore w !! acc
  | Idb_no_request => None
  | Idb_works => db w !! acc
  end.

Lemma idbGet_stored (w : World Srv A) (acc : string) : idb w <> Idb_no_request ->
  idbGet acc w = (inl (stored w (toLowerCase acc)), w).
Proof. unfold idbGet, stored. destruct (idb w); easy. Qed.

Lemma idbPut_stored (r : KeyPairRecord) (w w' : World Srv A) :
  idbPut r w = (inl tt, w') ->
  stored w' (toLowerCase (account r)) = Some (with_account r (toLowerCase (account r)))
  /\ idb w' = idb w /\ idb w' <> Idb_no_request /\ opaque_state w' = opaque_state w
  /\ sessionKeyCache w' = sessionKeyCache w /\ buffers w' = buffers w /\ authenticator w' = authenticator w.
Proof.
  unfold idbPut, stored. destruct (idb w) eqn:E; intros [= <-]; cbn; rewrite ?E, ?lookup_insert_eq; repeat split; discriminate.
Qed.

(** The account can be unlocked with the pin: its record has an envelope of the key. *)
Definition unlockable (w : World Srv A) (acc pin pub priv : string) : Prop :=
  exists r env key, idb w <> Idb_no_request /\ stored w acc = Some r /\ account r = acc /\ publicKey r = pub
    /\ opaque r = Some env /\ (proper acc -> enrolled (server (opaque_state w)) acc pin key) /\ wrapped key acc pub priv env.

Lemma persist_unlockable (acc pub priv pin : string) (existing : option KeyPairRecord) (w w' : World Srv A) :
  persist acc pub priv pin existing w = (inl tt, w') ->
  unlockable w' (toLowerCase acc) (trim pin) pub priv /\ blank (trim pin) = false
  /\ (exists at_time env, stored w' (toLowerCase acc) = Some (opaque_record existing (toLowerCase acc) pub at_time env))
  /\ (exists id, sessionKeyCache w' !! toLowerCase acc = Some id /\ buffers w' !! id = Some (text_encode priv))
  /\ authenticator w' = authenticator w.
Proof.
  unfold persistKeyPair. destruct (blank (trim pin)) eqn:Hb; [discriminate|]. intros H. inv_run H. unfold in_opaque in E.
  destruct (enrollAndWrap _ _ _ _ _ _ _ _ _ _ (opaque_state w)) as [r o] eqn:Ee. injection E as -> <-.
  apply (enroll_ok _ _ _ _ _ _ t server_key the_transport the_key drawn_bytes) in Ee as (key & He & Hw).
  rewrite toLowerCase_idem, trim_idem in He. inv_run H. injection E as <- <-. inv_run H. destruct x0.
  apply idbPut_stored in E as (E1 & E2 & E3 & E4 & E5 & E6 & E7). unfold opaque_record in E1. cbn [account] in E1. rewrite toLowerCase_idem in E1.
  unfold cachePrivateKey in H. injection H as <-. split; [|split; [reflexivity|split; [|split]]].
  - do 3 eexists. cbn [idb opaque_state set_cache]. rewrite E4. split; [exact E3|]. split; [exact E1|]. cbn. repeat split; eauto; apply Hw.
  - do 2 eexists. exact E1.
  - exists (fresh (dom (buffers s))). cbn. rewrite !lookup_insert_eq. now split.
  - exact E7.
Qed.

Lemma save_unlockable (acc pub priv pin : string) (w w' : World Srv A) :
  save acc pub priv pin w = (inl tt, w') ->
  unlockable w' (toLowerCase acc) (trim pin) pub priv /\ blank (trim pin) = false /\ idb w <> Idb_no_request
  /\ (exists at_time env, stored w' (toLowerCase acc)
        = Some (opaque_record (stored w (toLowerCase acc)) (toLowerCase acc) pub at_time env))
  /\ authenticator w' = authenticator w.
Proof.
  unfold saveKeyPair. destruct (blank acc || blank pub || blank priv); [discriminate|]. intros H.
  inv_run H. unfold of_res in E. destruct (importECIESPublicKey pub); [|discriminate]. injection E as _ <-.
  inv_run H. unfold of_res in E. destruct (importECIESPrivateKey priv); [|discriminate]. injection E as _ <-.
  destruct (blank (trim pin)) eqn:Hb; [discriminate|]. inv_run H.
  assert (Hm : idb w <> Idb_no_request) by (intros Hm; unfold idbGet in E; rewrite Hm in E; discriminate E).
  rewrite (idbGet_stored w _ Hm), toLowerCase_idem in E. injection E as <- <-.
  apply persist_unlockable in H as (H1 & _ & H2 & _ & H4). rewrite toLowerCase_idem in H1, H2. repeat split; assumption.
Qed.

(** Locking an account: its cached key is gone, what is stored is not. *)
Lemma lock_account (acc : string) (w : World Srv A) : blank acc = false ->
  exists w', lockAccount acc w = (inl tt, w') /\ sessionKeyCache w' !! toLowerCase acc = None
    /\ (forall a, stored w' a = stored w a) /\ idb w' = idb w /\ server (opaque_state w') = server (opaque_state w)
    /\ authenticator w' = authenticator w.
Proof.
  intros Hb. unfold lockAccount. rewrite Hb. unfold wipeCachedPrivateKey, ebind.
  destruct (sessionKeyCache w !! toLowerCase acc) as [id|] eqn:E.
  - eexists. split; [reflexivity|]. cbn. rewrite lookup_delete_eq. now repeat split.
  - eexists. split; [reflexivity|]. now repeat split.
Qed.

Lemma readCached_none (acc : string) (w : World Srv A) : sessionKeyCache w !! acc = None -> readCachedPrivateKey acc w = (inl None, w).
Proof. intros H. unfold readCachedPrivateKey, cached_bytes. now rewrite H. Qed.

Lemma unlock_with_pin (acc pin pub priv : string) (w : World Srv A) :
  blank acc = false -> blank (trim pin) = false -> sessionKeyCache w !! toLowerCase acc = None ->
  unlockable w (toLowerCase acc) (trim pin) pub priv -> proper (toLowerCase acc) -> answers (server (opaque_state w)) (toLowerCase acc) ->
  exists w', unlock acc pin w = (inl priv, w').
Proof.
  intros Ha Hb Hc (r & env & key & Hm & Hs & Hra & Hrp & Hro & He & Hw) Hproper Hans. unfold getDecryptedPrivateKey. rewrite Ha.
  unfold ebind at 1. rewrite readCached_none by exact Hc. change (negb (blank (or_empty None))) with false. cbn iota.
  unfold ebind at 1. rewrite idbGet_stored, toLowerCase_idem, Hs by exact Hm.
  assert (Hmat : has_material r = true).
  { unfold has_material. rewrite Hro, bool_decide_true by eauto. now rewrite orb_true_r. }
  rewrite Hmat, Hb. cbn [negb andb]. unfold unlockRecord. rewrite Hro. destruct Hw as [Hv Hw]. unfold isOpaqueKeyringEnvelope.
  rewrite Hv, String.eqb_refl. unfold unlock_opaque, ecatch, in_opaque, ebind. rewrite Hra, Hrp.
  destruct (unwrap_ok _ _ _ _ _ t server_key the_transport the_key (toLowerCase acc) (trim pin) key pub priv env (opaque_state w))
    as (o & Ho & _); rewrite ?toLowerCase_idem, ?trim_idem; [exact (He Hproper)|exact Hans|now split|exact Hb|].
  rewrite Ho. eexists. reflexivity.
Qed.

(** C20: A pair that was saved with a pin is unlocked with that pin after the account was
    locked, whatever the case of the account and the spaces around the pin, as long as the
    verification server answers. *)
Theorem saved_key_unlocks (acc acc' pub priv pin pin' : string) (w w' : World Srv A) :
  save acc pub priv pin w = (inl tt, w') -> trim acc = acc -> answers (server (opaque_state w')) (toLowerCase acc) ->
  toLowerCase acc' = toLowerCase acc -> trim pin' = trim pin ->
  exists w1 w2, lockAccount acc' w' = (inl tt, w1) /\ isUnlocked acc' w1 = false /\ unlock acc' pin' w1 = (inl priv, w2).
Proof.
  intros Hsave Hacc Hans Ha Hp. assert (Hb : blank acc = false).
  { unfold saveKeyPair in Hsave. destruct (blank acc); [discriminate Hsave|reflexivity]. }
  assert (Hb' : blank acc' = false).
  { destruct acc' as [|c a]; [|reflexivity]. destruct acc as [|d b]; [discriminate Hb|discriminate Ha]. }
  apply save_unlockable in Hsave as ((r & env & key & Hm & Hs & Hra & Hrp & Hro & He & Hw) & Hpin & _).
  destruct (lock_account acc' w' Hb') as (w1 & Hl & Hc & Hst & Hi & Hsv & _). rewrite Ha in Hc.
  destruct (unlock_with_pin acc' pin' pub priv w1) as [w2 Hu].
  - exact Hb'.
  - now rewrite Hp.
  - now rewrite Ha.
  - rewrite Ha, Hp. exists r, env, key. rewrite Hst, Hi, Hsv. repeat split; try assumption; apply Hw.
  - unfold proper. rewrite trim_lower, toLowerCase_idem, <- trim_lower, Ha, trim_lower. now rewrite Hacc.
  - now rewrite Ha, Hsv.
  - exists w1, w2. repeat split; try assumption. unfold isUnlocked. rewrite Hb', Ha, Hc. now rewrite bool_decide_false by (intros [? ?]; discriminate).
Qed.

(** ** Passkeys *)

(** The authenticator gives the same output for the same credential and salt each time. *)
Definition steady (c : Container A) (cid salt out : list Z) : Prop :=
  forall ch a, exists cred a', get c (mkGet ch (rp hostname) 60000 [cid] salt) a = (inl (Some cred), a') /\ prf_first cred = Some out.

(** The record's passkey opens its copy of a private key. *)
Definition passkey_opens (c : Container A) (r : KeyPairRecord) (priv : string) : Prop :=
  passkey_usable r = true /\ exists cid salt out,
    base64UrlToBytes (passkeyCredentialId r) = Ok cid /\ base64UrlToBytes (passkeyPrfSalt r) = Ok salt /\ steady c cid salt out
    /\ decryptWithPrfKey (passkeyEncryptedPrivateKey r) (deriveAesKeyFromPrfOutput out salt) = Ok priv.

Lemma passkey_decrypts (c : Container A) (r : KeyPairRecord) (priv : string) (w : World Srv A) :
  navigator = Some c -> passkey_opens c r priv ->
  exists w', decryptRecordWithPasskey random_bytes navigator hostname r w = (inl priv, w').
Proof.
  intros Hn (Hu & cid & salt & out & Hc & Hs & Hst & Hd). unfold decryptRecordWithPasskey, ebind at 1, of_res at 1. rewrite Hs.
  unfold ebind at 1, generateChallenge, ebind at 1, draw_number, in_opaque, draw, eret at 1.
  unfold ebind at 1, in_authenticator, authenticatePasskey. rewrite Hn. unfold ebind at 1.
  assert (Hcid : or_empty (Some (passkeyCredentialId r)) = passkeyCredentialId r) by (now destruct (passkeyCredentialId r)).
  rewrite Hcid. unfold passkey_usable in Hu.
  destruct (blank (passkeyCredentialId r)) eqn:Hb; [rewrite andb_false_r in Hu; discriminate Hu|].
  cbn [decode_ids res_mapM]. unfold decode_ids. cbn [res_mapM]. rewrite Hc. cbn [res_bind]. unfold of_res at 1.
  destruct (Hst (random_bytes (draws (opaque_state w)) 32) (authenticator w)) as (cred & a' & Hg & Hf). cbn.
  rewrite Hg, Hf. unfold of_res. rewrite Hd. eexists. reflexivity.
Qed.

(** Saving another pair keeps the passkey's copy of the old private key: afterwards the
    passkey unlocks the old private key while the new public key is the stored one. *)
Theorem stale_passkey (c : Container A) (acc pub priv pin old : string) (r : KeyPairRecord) (w w' : World Srv A) :
  navigator = Some c -> stored w (toLowerCase acc) = Some r -> passkey_opens c r old ->
  save acc pub priv pin w = (inl tt, w') ->
  exists w1 w2, lockAccount acc w' = (inl tt, w1)
    /\ getStoredPublicKey acc w1 = (inl (Some pub), w1) /\ unlock acc "" w1 = (inl old, w2).
Proof.
  intros Hn Hr Hopen Hsave.
  assert (Hb : blank acc = false /\ blank pub = false).
  { unfold saveKeyPair in Hsave. destruct (blank acc), (blank pub); try discriminate Hsave. now split. }
  destruct Hb as [Hb Hp]. apply save_unlockable in Hsave as ((_ & _ & _ & Hm & _) & _ & _ & (at_time & env & Hst) & _). rewrite Hr in Hst.
  destruct (lock_account acc w' Hb) as (w1 & Hl & Hc & Hsame & Hi & _). rewrite <- Hi in Hm.
  set (r' := opaque_record (Some r) (toLowerCase acc) pub at_time env) in Hst.
  assert (Hopen' : passkey_opens c r' old) by exact Hopen.
  destruct (passkey_decrypts c r' old w1 Hn Hopen') as [w2 Hd].
  exists w1. eexists. split; [exact Hl|]. split.
  - unfold getStoredPublicKey. rewrite Hb. unfold ebind. rewrite idbGet_stored, Hsame, Hst by exact Hm. cbn [publicKey r' opaque_record].
    now rewrite Hp.
  - unfold getDecryptedPrivateKey. rewrite Hb. unfold ebind at 1. rewrite readCached_none by exact Hc.
    change (negb (blank (or_empty None))) with false. cbn iota. unfold ebind at 1.
    rewrite idbGet_stored, toLowerCase_idem, Hsame, Hst by exact Hm.
    assert (Hmat : has_material r' = true) by (unfold has_material, r'; cbn; now rewrite orb_true_r).
    rewrite Hmat. destruct Hopen' as [Hu _]. rewrite Hu. change (blank (trim "")) with true. cbn [andb negb].
    unfold ecatch, ebind at 1. rewrite Hd. reflexivity.
Qed.

(** ** What stays in memory *)

Lemma wipe_others (a : string) (w : World Srv A) :
  exists w', wipeCachedPrivateKey a w = (inl tt, w') /\ sessionKeyCache w' = delete a (sessionKeyCache w)
    /\ (forall id, (sessionKeyCache w !! a <> Some id) -> buffers w' !! id = buffers w !! id).
Proof.
  unfold wipeCachedPrivateKey. destruct (sessionKeyCache w !! a) as [i|] eqn:E.
  - eexists. split; [reflexivity|]. cbn. split; [reflexivity|]. intros id Hid. apply lookup_alter_ne. congruence.
  - exists w. split; [reflexivity|]. split; [now rewrite delete_id|reflexivity].
Qed.

Lemma wipe_all_spec (l : list string) (w : World Srv A) :
  exists w', wipe_all l w = (inl tt, w')
    /\ (forall a, sessionKeyCache w' !! a = if bool_decide (a ∈ l) then None else sessionKeyCache w !! a)
    /\ (forall id, (forall a, sessionKeyCache w !! a <> Some id) -> buffers w' !! id = buffers w !! id).
Proof.
  revert w. induction l as [|a l IH]; intros w; cbn [wipe_all].
  - exists w. split; [reflexivity|]. split; [intros a; now rewrite bool_decide_false by apply not_elem_of_nil|reflexivity].
  - destruct (wipe_others a w) as (w1 & E1 & Hc1 & Hb1). destruct (IH w1) as (w2 & E2 & Hc2 & Hb2).
    exists w2. unfold ebind. rewrite E1. split; [exact E2|]. split.
    + intros b. rewrite Hc2, Hc1. destruct (decide (b = a)) as [->|Hne].
      * rewrite lookup_delete_eq. rewrite (bool_decide_true (a ∈ a :: l)) by now left. now destruct (bool_decide _).
      * rewrite lookup_delete_ne by congruence. destruct (decide (b ∈ l)) as [Hin|Hin].
        -- rewrite !bool_decide_true by (try assumption; now right). reflexivity.
        -- rewrite !bool_decide_false; [reflexivity| |exact Hin]. now intros [? | ?]%elem_of_cons.
    + intros id Hid. rewrite Hb2.
      * apply Hb1. apply Hid.
      * intros b. rewrite Hc1. destruct (decide (b = a)) as [->|Hne]; [now rewrite lookup_delete_eq|].
        rewrite lookup_delete_ne by congruence. apply Hid.
Qed.

Lemma clear_cache (w : World Srv A) :
  exists w', clearSessionCache w = (inl tt, w') /\ sessionKeyCache w' = ∅ /\ managementTokens (opaque_state w') = ∅
    /\ (forall id, (forall a, sessionKeyCache w !! a <> Some id) -> buffers w' !! id = buffers w !! id).
Proof.
  unfold clearSessionCache. destruct (wipe_all_spec (getUnlockedAccounts w) w) as (w1 & E & Hc & Hb).
  unfold ebind. rewrite E. unfold in_opaque, clearSession. eexists. split; [reflexivity|]. cbn. split; [|split; [reflexivity|exact Hb]].
  apply map_eq. intros a. rewrite Hc, lookup_empty. destruct (sessionKeyCache w !! a) as [id|] eqn:Ea; [|now destruct (bool_decide _)].
  rewrite bool_decide_true; [reflexivity|]. unfold getUnlockedAccounts. apply list_elem_of_fmap.
  exists (a, id). split; [reflexivity|]. now apply elem_of_map_to_list.
Qed.

(** Every cached key has its buffer. *)
Definition cache_wf (w : World Srv A) : Prop := forall a id, sessionKeyCache w !! a = Some id -> id ∈ dom (buffers w).

Lemma persist_cache (acc pub priv pin : string) (existing : option KeyPairRecord) (w w' : World Srv A) :
  persist acc pub priv pin existing w = (inl tt, w') ->
  exists id, (id ∉ dom (buffers w)) /\ sessionKeyCache w' = <[toLowerCase acc := id]> (sessionKeyCache w)
    /\ buffers w' = <[id := text_encode priv]> (buffers w) /\ idb w' <> Idb_no_request.
Proof.
  unfold persistKeyPair. destruct (blank (trim pin)); [discriminate|]. intros H. inv_run H. unfold in_opaque in E.
  destruct (enrollAndWrap _ _ _ _ _ _ _ _ _ _ (opaque_state w)) as [r o]. injection E as -> <-.
  inv_run H. injection E as <- <-. inv_run H. destruct x0.
  apply idbPut_stored in E as (_ & _ & E3 & _ & E5 & E6 & _). unfold cachePrivateKey in H. injection H as <-.
  exists (fresh (dom (buffers s))). cbn. rewrite E5, E6. cbn. split; [|split; [reflexivity|split; [reflexivity|exact E3]]].
  apply is_fresh.
Qed.

(** Generating a key pair caches the private key twice, in two buffers: clearing the cache
    wipes the second only, and the first keeps the private key in memory. *)
Theorem key_copy_left_behind (acc pin pub : string) (w w' : World Srv A) :
  cache_wf w -> blank (trim pin) = false ->
  generateAndSaveKeyPair injectedTransport built url injectedKey env_key random_bytes navigator hostname drawn_pair acc pin false w
    = (inl pub, w') ->
  exists w2 id, clearSessionCache w' = (inl tt, w2) /\ sessionKeyCache w2 = ∅
    /\ buffers w2 !! id = Some (text_encode (snd (generateECIESKeyPairBase64 (drawn_pair (draws (opaque_state w)))))).
Proof.
  intros Hwf Hpin. unfold generateAndSaveKeyPair. destruct (blank acc); [discriminate|]. intros H.
  inv_run H. unfold draw_number, in_opaque, draw in E. injection E as <- <-.
  destruct (generateECIESKeyPairBase64 (drawn_pair (draws (opaque_state w)))) as [gpub priv]. cbn [snd].
  inv_run H. injection E as <- <-. inv_run H. assert (Es : s = set_opaque w (mkOpaque (managementTokens (opaque_state w))
    (server (opaque_state w)) (S (draws (opaque_state w))))) by (unfold idbGet in E; destruct (idb _); now injection E as _ <-).
  subst s. clear E. rewrite Hpin in H. cbn [negb] in H. inv_run H. destruct x0.
  apply persist_cache in E as (id & Hid & Hc & Hb & Hm). rewrite toLowerCase_idem in Hc. cbn in Hid, Hc, Hb.
  inv_run H. rewrite idbGet_stored in E by exact Hm. injection E as <- <-.
  inv_run H. injection E as <- <-. inv_run H. unfold cachePrivateKey in E. injection E as _ <-. injection H as _ <-.
  set (id2 := fresh (dom (buffers s))).
  destruct (clear_cache (set_cache s (<[toLowerCase acc := id2]> (sessionKeyCache s)) (<[id2 := text_encode priv]> (buffers s))))
    as (w2 & E2 & Hc2 & _ & Hb2).
  assert (Hne : id2 <> id).
  { intros Heq. apply (is_fresh (dom (buffers s))). fold id2. rewrite Heq. apply elem_of_dom. rewrite Hb, lookup_insert_eq. eauto. }
  exists w2, id. split; [exact E2|]. split; [exact Hc2|]. rewrite Hb2; cbn.
  - rewrite lookup_insert_ne by exact Hne. rewrite Hb. now rewrite lookup_insert_eq.
  - intros a Ha. destruct (decide (a = toLowerCase acc)) as [->|Hna].
    + rewrite lookup_insert_eq in Ha. congruence.
    + rewrite lookup_insert_ne in Ha by congruence. rewrite Hc, lookup_insert_ne in Ha by congruence.
      apply Hid. now apply (Hwf a).
Qed.

(** ** Backups *)

Abbreviation export acc bp pin :=
  (exportKeyBackup injectedTransport built url injectedKey env_key random_bytes navigator hostname acc bp pin : eio (World Srv A) string).
Abbreviation import acc file bp pin :=
  (importKeyBackup injectedTransport built url injectedKey env_key random_bytes acc file bp pin : eio (World Srv A) string).

Lemma export_inv (acc bp pin file : string) (w w' : World Srv A) :
  export acc bp pin w = (inl file, w') ->
  blank (trim bp) = false /\ exists priv pub enc date w1,
    unlock (toLowerCase acc) pin w = (inl priv, w1) /\ getStoredPublicKey (toLowerCase acc) w1 = (inl pub, w1)
    /\ decryptWithPassphrase enc (trim bp) = Ok priv
    /\ file = stringify_with 2 (backup_object (toLowerCase acc) (or_empty pub) enc date).
Proof.
  unfold exportKeyBackup. destruct (blank acc); [discriminate|]. destruct (blank (trim bp)); [discriminate|]. intros H.
  split; [reflexivity|]. inv_run H. inv_run H.
  assert (Es : s0 = s).
  { unfold getStoredPublicKey in E0. destruct (blank (toLowerCase acc)); [now injection E0 as _ <-|].
    unfold ebind, idbGet in E0. now destruct (idb s); injection E0 as _ <-. }
  subst s0. inv_run H. injection E1 as <- <-. inv_run H. injection E1 as <- <-. inv_run H. unfold of_res in E1.
  destruct (encryptWithPassphrase _ _ _ _ _) as [enc|] eqn:Ee; [|discriminate]. injection E1 as <- <-.
  inv_run H. injection E1 as <- <-. injection H as <- _. exists x, x0, enc. do 2 eexists. split; [exact E|]. split; [exact E0|].
  split; [|reflexivity]. eapply passphrase_roundtrip; [| |exact Ee]; apply drawn_bytes.
Qed.

(** Importing a backup under the passphrase it was written with, without the spaces around
    it, is saving the pair that was exported. *)
Theorem backup_roundtrip (acc acc' bp pin newPin file : string) (w w' w2 : World Srv A) :
  export acc bp pin w = (inl file, w') -> toLowerCase acc' = toLowerCase acc -> blank acc' = false ->
  exists priv pub w1, unlock (toLowerCase acc) pin w = (inl priv, w1) /\ getStoredPublicKey (toLowerCase acc) w1 = (inl pub, w1)
    /\ import acc' file (trim bp) newPin w2
       = ebind (save (toLowerCase acc) (or_empty pub) priv newPin) (fun _ => eret (or_empty pub)) w2.
Proof.
  intros H Ha Hb. apply export_inv in H as (Hbp & priv & pub & enc & date & w1 & Hu & Hp & Hd & ->).
  exists priv, pub, w1. split; [exact Hu|]. split; [exact Hp|]. unfold importKeyBackup. rewrite Hb, Hbp, parse_stringified.
  assert (Hc : backup_checks (backup_object (toLowerCase acc) (or_empty pub) enc date) acc' = Ok tt).
  { unfold backup_checks, backup_owner. cbn. rewrite toLowerCase_idem, Ha, String.eqb_refl. now destruct (toLowerCase acc). }
  unfold ebind at 1. unfold of_res. rewrite Hc.
  change (backup_member "encryptedPrivateKey" _) with enc. change (backup_key "publicKey" _) with (or_empty pub). now rewrite Hd, Ha.
Qed.

End Keyring.

(** * An OPAQUE server and an authenticator that evaluate

    The server keeps the pins themselves, the library sends them: enough to satisfy the laws
    and to run the service of ClientKeyring on concrete inputs. *)

Import Mirror.
Import Pair.

Open Scope list_scope.
Open Scope string_scope.

Definition Server : Type := gmap string string.
Definition export_of (pin : string) : string := bytesToBase64Url (text_encode pin).

#[export] Instance plain_opaque : OpaqueLib := {
  client_startLogin pin _ := (pin, pin);
  client_finishLogin state response pin acc id := if String.eqb response pin then Some (mkLogin (export_of pin) "K" pin) else None;
  client_startRegistration pin _ := (pin, pin);
  client_finishRegistration state response pin acc id := mkRegistration pin (export_of pin) "K"
}.

Definition plain_transport : Transport Server := {|
  startRegistration _ request := eret request;
  finishRegistration acc record token := fun srv =>
    match srv !! acc, token with
    | Some _, None => (inr (OpaqueTransportError "credential exists" "OPAQUE_CREDENTIAL_EXISTS" 409), srv)
    | _, _ => (inl "token", <[acc := record]> srv)
    end;
  startLogin acc request := fun srv =>
    match srv !! acc with
    | Some pin => if String.eqb pin request then (inl (acc, request), srv) else (inr (Plain "refused"), srv)
    | None => (inr (Plain "unknown"), srv)
    end;
  finishLogin _ _ := eret "token";
  deleteCredential acc _ := fun srv => (inl tt, delete acc srv)
|}.

#[export, refine] Instance plain_laws : OpaqueLaws plain_transport "K" := {
  enrolled srv acc pin key := srv !! acc = Some pin /\ key = export_of pin;
  answers srv acc := True
}.
Proof.
  - intros srv acc pin n response srv1 token tok srv2. cbn. intros [= <- <-]. unfold plain_transport. cbn.
    destruct (srv !! acc), token; try discriminate; intros [= <- <-] _; (split; [apply lookup_insert_eq|reflexivity]).
  - intros srv acc pin n id response srv1 r tok srv2. cbn. destruct (srv !! acc) as [p|] eqn:E; [|discriminate].
    destruct (String.eqb_spec p pin) as [->|]; [|discriminate]. intros [= <- <- <-]. rewrite String.eqb_refl.
    intros [= <-] [= <- <-] _. now split.
  - intros srv acc pin key n [E ->] _. cbn. rewrite E, String.eqb_refl.
    exists acc, pin, srv, (mkLogin (export_of pin) "K" pin), "token", srv. rewrite String.eqb_refl. repeat split; assumption.
Defined.

(** An authenticator with one key, and its container. *)
Definition container : Container unit := {|
  create o := fun a => (inl (Some (mkCredential [1; 2; 3]%Z true None)), a);
  get o := fun a => (inl (Some (mkCredential [1; 2; 3]%Z true (Some (repeat 5%Z 32)))), a)
|}.

#[export] Instance no_legacy : LegacyKdf := { pbkdf2_bits p s n := p; hmac_sha256 k m := m }.

Definition plain_random (n k : nat) : list Z := repeat (Z.of_nat n mod 256)%Z k.
Lemma plain_random_bytes (n k : nat) : bytes (plain_random n k).
Proof. apply List.Forall_forall. intros z Hz. apply repeat_spec in Hz. subst z. unfold is_byte. apply Z.mod_pos_bound. lia. Qed.

(** The pair a draw generates. *)
Definition draw_key (n : nat) : @PrivKey pair := n.

Definition empty_world : World Server unit := mkWorld Idb_works ∅ ∅ ∅ ∅ (mkOpaque ∅ ∅ 0) tt 1700000000000.

Abbreviation generate acc pin passkey :=
  (generateAndSaveKeyPair (Some plain_transport) (fun _ => plain_transport) None (Some "K") None plain_random (Some container) None
     draw_key acc pin passkey).
Abbreviation save acc pub priv pin :=
  (saveKeyPair (Some plain_transport) (fun _ => plain_transport) None (Some "K") None plain_random acc pub priv pin).
Abbreviation unlock acc pin :=
  (getDecryptedPrivateKey (Some plain_transport) (fun _ => plain_transport) None (Some "K") None plain_random (Some container) None acc pin).

Definition pub_of (k : nat) : string := exportECIESPublicKey k.
Definition priv_of (k : nat) : string := exportECIESPrivateKey k.

(** Alice generates a pair with a pin and a passkey, and saves another one later. *)
Definition generated : World Server unit := (generate "0xAlice" "1234" true empty_world).2.
Definition saved : World Server unit := (save "0xAlice" (pub_of 77) (priv_of 77) "1234" generated).2.

Lemma saved_key_unlocks_witness :
  exists w1 w2, lockAccount "0xALICE" saved = (inl tt, w1) /\ isUnlocked "0xALICE" w1 = false
    /\ unlock "0xALICE" " 1234 " w1 = (inl (priv_of 77), w2).
Proof.
  apply (saved_key_unlocks (Some plain_transport) (fun _ => plain_transport) None (Some "K") None plain_random (Some container) None
           plain_transport "K" eq_refl eq_refl plain_random_bytes "0xAlice" "0xALICE" (pub_of 77) (priv_of 77) "1234" " 1234 " generated saved).
  - vm_compute. reflexivity.
  - reflexivity.
  - exact I.
  - reflexivity.
  - reflexivity.
Defined.

Definition alice_record : KeyPairRecord :=
  match stored generated "0xalice" with Some r => r | None => opaque_record None "" "" 0 (mkEnvelope "" "" "") end.

Lemma alice_passkey : passkey_opens None container alice_record (priv_of 0).
Proof.
  split; [vm_compute; reflexivity|]. exists [1; 2; 3]%Z, (plain_random 1 32), (repeat 5%Z 32).
  split; [vm_compute; reflexivity|]. split; [vm_compute; reflexivity|]. split; [|vm_compute; reflexivity].
  intros ch a. eexists _, a. split; reflexivity.
Qed.

Lemma stale_passkey_witness :
  priv_of 0 <> priv_of 77 /\
  exists w1 w2, lockAccount "0xAlice" saved = (inl tt, w1)
    /\ getStoredPublicKey "0xAlice" w1 = (inl (Some (pub_of 77)), w1) /\ unlock "0xAlice" "" w1 = (inl (priv_of 0), w2).
Proof.
  split; [vm_compute; discriminate|].
  apply (stale_passkey (Some plain_transport) (fun _ => plain_transport) None (Some "K") None plain_random (Some container) None
           plain_transport "K" eq_refl eq_refl plain_random_bytes container "0xAlice" (pub_of 77) (priv_of 77) "1234" (priv_of 0)
           alice_record generated saved).
  - reflexivity.
  - vm_compute. reflexivity.
  - apply alice_passkey.
  - vm_compute. reflexivity.
Defined.

Lemma key_copy_left_behind_witness :
  exists w2 id, clearSessionCache (generate "0xAlice" "1234" false empty_world).2 = (inl tt, w2) /\ sessionKeyCache w2 = ∅
    /\ buffers w2 !! id = Some (text_encode (priv_of 0)).
Proof.
  apply (key_copy_left_behind (P := pair) (Some plain_transport) (fun _ => plain_transport) None (Some "K") None plain_random (Some container) None
           draw_key "0xAlice" "1234" (pub_of 0) empty_world (generate "0xAlice" "1234" false empty_world).2).
  - intros a id H. cbn in H. rewrite lookup_empty in H. discriminate H.
  - reflexivity.
  - vm_compute. reflexivity.
Defined.

Definition backup_file : string :=
  match (exportKeyBackup (Some plain_transport) (fun _ => plain_transport) None (Some "K") None plain_random (Some container) None
           "0xAlice" " secret " "1234" generated).1 with inl f => f | inr _ => "" end.

Lemma backup_roundtrip_witness :
  exists priv pub w1, unlock "0xalice" "1234" generated = (inl priv, w1) /\ getStoredPublicKey "0xalice" w1 = (inl pub, w1)
    /\ importKeyBackup (Some plain_transport) (fun _ => plain_transport) None (Some "K") None plain_random
         "0xALICE" backup_file "secret" "9999" empty_world
       = ebind (save "0xalice" (or_empty pub) priv "9999") (fun _ => eret (or_empty pub)) empty_world.
Proof.
  apply (backup_roundtrip (Some plain_transport) (fun _ => plain_transport) None (Some "K") None plain_random (Some container) None
           plain_random_bytes "0xAlice" "0xALICE" " secret " "1234" "9999" backup_file generated
           (exportKeyBackup (Some plain_transport) (fun _ => plain_transport) None (Some "K") None plain_random (Some container) None
              "0xAlice" " secret " "1234" generated).2 empty_world).
  - vm_compute. reflexivity.
  - reflexivity.
  - reflexivity.
Defined.
