(* ===== verification/MnemonicKeyring.v ===== *)
(** * MnemonicKeyring: mnemonicKeyring.service.ts

    The backup of the keyring's key as a phrase of words, or as shares of which a number
    recovers it.  The BIP-39, SLIP-39 and P-256 packages and the JSON form of a key are a
    class with laws, which are required for the scalars of keys only; a phrase may be
    typed with other spaces and other capitals than it was written with. *)

From Stdlib Require Import Ascii String ZArith Lia Bool.
From stdpp Require Import base list strings.
From S2P Require Import Prelude Bytes JsString Base64 WebCrypto JsonText Ecies EciesProofs OpaqueKeyring ClientKeyring.

Open Scope string_scope.
Open Scope list_scope.
Open Scope nat_scope.

(** ** Texts *)

(** [s.split(/\s+/)]; [sp] tells that the character before was a space. *)
Fixpoint split_spaces (sp : bool) (s : string) : list string :=
  match s with
  | EmptyString => [""]
  | String c s =>
      if is_space c then (if sp then split_spaces true s else "" :: split_spaces true s)
      else match split_spaces false s with w :: ws => String c w :: ws | [] => [String c ""] end
  end.

Definition normalizeMnemonic (mnemonic : string) : string := join " " (split_spaces false (toLowerCase (trim mnemonic))).

Definition base64UrlToBytes (b64url : string) : res (list Z) :=
  let b64 := str_map (subst_char "_" "/") (str_map (subst_char "-" "+") b64url) in
  atob (b64 ++ repeat_char ((4 - String.length b64 mod 4) mod 4) "=")%string.

Definition bytesToBase64Url (bytes : list Z) : string :=
  strip_padding (str_map (subst_char "/" "_") (str_map (subst_char "+" "-") (btoa bytes))).

(** ** The packages *)

Class MnemonicLib (K : PkCrypto) : Type := {
  (** bip39 with the English words *)
  entropyToMnemonic : list Z -> res string;
  bip39_validateMnemonic : string -> bool;
  mnemonicToEntropy : string -> res (list Z);
  (** the uncompressed point of a scalar *)
  p256_getPublicKey : list Z -> res (list Z);
  (** the member [d] of a private key's JSON form, and the import of [d], [x], [y] *)
  jwk_d : PrivKey -> option string;
  import_jwk : string -> string -> string -> option PrivKey;
  (** secret, passphrase, threshold, count; shares, passphrase *)
  slip_split : list Z -> string -> Z -> Z -> res (list string);
  slip_recover : list string -> string -> res (list Z)
}.

(** ** Phrases *)

Definition DEFAULT_SHARE_COUNT : Z := 5.
Definition DEFAULT_SHARE_THRESHOLD : Z := 3.

Record ShareOptions : Type := mkShareOptions { count : option Z; threshold : option Z; passphrase : option string }.
Definition no_options : ShareOptions := mkShareOptions None None None.

Section Mnemonics.
Context {K : PkCrypto} {ML : MnemonicLib K}.

Definition privateKeyToMnemonic (privateKeyBase64 : string) : res string :=
  let! key := importECIESPrivateKey privateKeyBase64 in
  match jwk_d key with
  | None | Some "" => Throw "Private key export did not include the scalar"
  | Some d =>
      let! scalar := base64UrlToBytes d in
      throw_if negb (length scalar =? 32) with ("Unexpected P-256 scalar length: " ++ num_str (Z.of_nat (length scalar)))%string;;
      entropyToMnemonic scalar
  end.

Definition validateMnemonic (mnemonic : string) : bool := bip39_validateMnemonic (normalizeMnemonic mnemonic).

Definition invalid_mnemonic : string := "Invalid mnemonic: checksum or wordlist mismatch".

(** The public and the private key. *)
Definition mnemonicToKeyPair (mnemonic : string) : res (string * string) :=
  let normalized := normalizeMnemonic mnemonic in
  throw_if negb (bip39_validateMnemonic normalized) with invalid_mnemonic;;
  let! scalar := mnemonicToEntropy normalized in
  throw_if negb (length scalar =? 32) with "Mnemonic must encode 256-bit entropy (24 words)";;
  match p256_getPublicKey scalar with
  | Throw _ => Throw "Mnemonic does not encode a valid P-256 private key"
  | Ok publicUncompressed =>
      let slice i j := firstn (j - i) (skipn i publicUncompressed) in
      let! privateKey := import_result (import_jwk (bytesToBase64Url scalar) (bytesToBase64Url (slice 1 33)) (bytesToBase64Url (slice 33 65))) in
      let! publicKey := importECIESPublicKey (uint8ArrayToBase64 publicUncompressed) in
      Ok (exportECIESPublicKey publicKey, uint8ArrayToBase64 (export_pkcs8 privateKey))
  end.

Definition mnemonicToShares (mnemonic : string) (opts : ShareOptions) : res (list string) :=
  let count := default DEFAULT_SHARE_COUNT (count opts) in
  let threshold := default DEFAULT_SHARE_THRESHOLD (threshold opts) in
  throw_if ((threshold <? 2) || (count <? threshold))%Z with ("Invalid scheme: threshold " ++ num_str threshold ++ " of " ++ num_str count)%string;;
  let normalized := normalizeMnemonic mnemonic in
  throw_if negb (bip39_validateMnemonic normalized) with invalid_mnemonic;;
  let! masterSecret := mnemonicToEntropy normalized in
  slip_split masterSecret (default "" (passphrase opts)) threshold count.

Definition sharesToMnemonic (shares : list string) (passphrase : string) : res string :=
  let! secret := slip_recover shares passphrase in entropyToMnemonic secret.

Inductive Recovery : Type := FromMnemonic (mnemonic : string) | FromShares (shares : list string) (passphrase : option string).

Definition recoverKeyPair (input : Recovery) : res (string * string) :=
  let! mnemonic := match input with FromMnemonic m => Ok m | FromShares shares pass => sharesToMnemonic shares (default "" pass) end in
  mnemonicToKeyPair mnemonic.

(** ** The keyring's key *)

Section Account.
Context {S : Type} (getDecryptedPrivateKey : string -> string -> eio S string).

Definition exportMnemonic (account currentPin : string) : eio S string :=
  ebind (getDecryptedPrivateKey (toLowerCase account) currentPin) (fun privateKey => of_res (privateKeyToMnemonic privateKey)).

Definition exportShares (account currentPin : string) (opts : ShareOptions) : eio S (list string) :=
  ebind (exportMnemonic account currentPin) (fun mnemonic => of_res (mnemonicToShares mnemonic opts)).
End Account.
End Mnemonics.

(** ** Typed phrases *)

Definition all_space (s : string) : Prop := str_all is_space s = true.
(** A word of a phrase: lower case, without spaces. *)
Definition word (w : string) : Prop := w <> "" /\ str_all (fun c => negb (is_space c)) w = true /\ toLowerCase w = w.

(** A text in which someone typed the words, with any capitals and spaces. *)
Inductive typed : list string -> string -> Prop :=
| typed_last w w' sp : word w -> toLowerCase w' = w -> all_space sp -> typed [w] (w' ++ sp)
| typed_more w w' sp ws t : word w -> toLowerCase w' = w -> all_space sp -> sp <> "" -> typed ws t -> typed (w :: ws) (w' ++ sp ++ t).

(** A typing of a phrase. *)
Definition spelled (m t : string) : Prop :=
  exists ws lead t', m = join " " ws /\ t = (lead ++ t')%string /\ all_space lead /\ typed ws t'.

Lemma string_cons (c : ascii) (a b : string) : (String c a ++ b)%string = String c (a ++ b).
Proof. reflexivity. Qed.

Lemma lower_append (a b : string) : toLowerCase (a ++ b) = (toLowerCase a ++ toLowerCase b)%string.
Proof. induction a as [|c a IH]; [done|]. cbn [toLowerCase]. rewrite !string_cons. cbn [toLowerCase]. by rewrite IH. Qed.

Lemma lower_space (c : ascii) : is_space (lower_char c) = is_space c.
Proof. destruct c as [[] [] [] [] [] [] [] []]; reflexivity. Qed.

Lemma all_space_lower (s : string) : all_space s -> all_space (toLowerCase s).
Proof. unfold all_space. induction s as [|c s IH]; [done|]. cbn [str_all toLowerCase]. rewrite lower_space. intros [-> H]%andb_prop. by apply IH. Qed.

(** The same in lower case. *)
Inductive spaced : list string -> string -> Prop :=
| spaced_last w sp : word w -> all_space sp -> spaced [w] (w ++ sp)
| spaced_more w sp ws t : word w -> all_space sp -> sp <> "" -> spaced ws t -> spaced (w :: ws) (w ++ sp ++ t).

Lemma typed_lower (ws : list string) (t : string) : typed ws t -> spaced ws (toLowerCase t).
Proof.
  induction 1 as [w w' sp Hw E Hs|w w' sp ws t Hw E Hs Hn _ IH]; rewrite ?lower_append, E; constructor; try done; try (by apply all_space_lower).
  by destruct sp.
Qed.

Lemma trim_start_lead (lead t : string) : all_space lead -> trim_start (lead ++ t) = trim_start t.
Proof.
  unfold all_space. induction lead as [|c s IH]; [done|]. cbn [str_all]. intros [Hc H]%andb_prop. rewrite string_cons. cbn [trim_start]. rewrite Hc. by apply IH.
Qed.

Lemma trim_start_word (w t : string) : word w -> trim_start (w ++ t) = (w ++ t)%string.
Proof.
  intros (Hn & H & _). destruct w as [|c w]; [done|]. cbn [str_all] in H. apply andb_prop in H as [Hc _]. rewrite string_cons. cbn [trim_start].
  by rewrite (proj1 (negb_true_iff _) Hc).
Qed.

Lemma trim_end_space (s : string) : all_space s -> trim_end s = "".
Proof. unfold all_space. induction s as [|c s IH]; [done|]. cbn [str_all trim_end]. intros [Hc H]%andb_prop. by rewrite IH, Hc. Qed.

Lemma trim_end_app (s t : string) : trim_end t <> "" -> trim_end (s ++ t) = (s ++ trim_end t)%string.
Proof.
  intros H. induction s as [|c s IH]; [done|]. rewrite !string_cons. cbn [trim_end]. rewrite IH. by destruct s, (trim_end t).
Qed.

Lemma trim_end_word (w sp : string) : word w -> all_space sp -> trim_end (w ++ sp) = w.
Proof.
  intros (_ & H & _) Hs. induction w as [|c w IH]; [by apply trim_end_space|]. cbn [str_all] in H. apply andb_prop in H as [Hc H].
  rewrite string_cons. cbn [trim_end]. rewrite (IH H). destruct w; [by rewrite (proj1 (negb_true_iff _) Hc)|done].
Qed.

Lemma split_word (w t : string) (b : bool) : word w -> (t = "" \/ exists c t', t = String c t' /\ is_space c = true) ->
  split_spaces b (w ++ t) = w :: match t with "" => [] | _ => match split_spaces false t with _ :: ws => ws | [] => [] end end.
Proof.
  intros (Hn & H & _) Ht. revert b. induction w as [|c w IH]; intros b; [done|]. cbn [str_all] in H. apply andb_prop in H as [Hc H].
  rewrite string_cons. cbn [split_spaces]. rewrite (proj1 (negb_true_iff _) Hc). destruct w as [|d w].
  - change ("" ++ t)%string with t. destruct Ht as [->|(x & t' & -> & Hx)]; [done|]. cbn [split_spaces]. by rewrite Hx.
  - by rewrite IH.
Qed.

Lemma split_space (sp t : string) (b : bool) : all_space sp -> sp <> "" -> split_spaces b (sp ++ t) = (if b then [] else [""]) ++ split_spaces true t.
Proof.
  unfold all_space. revert b. induction sp as [|c sp IH]; intros b; [done|]. cbn [str_all]. intros [Hc H]%andb_prop _. rewrite string_cons. cbn [split_spaces]. rewrite Hc.
  destruct sp as [|d sp]; [by destruct b|]. rewrite (IH true H) by done. by destruct b.
Qed.

(** What [trim] leaves of the text is cut into the words. *)
Lemma spaced_split (ws : list string) (t : string) : spaced ws t ->
  trim_start t = t /\ trim_end t <> "" /\ forall b, split_spaces b (trim_end t) = ws.
Proof.
  induction 1 as [w sp Hw Hs|w sp ws t Hw Hs Hn _ (T & N & S)].
  - rewrite (trim_end_word w sp Hw Hs), (trim_start_word w sp Hw). split; [done|]. split; [apply Hw|]. intros b.
    pose proof (split_word w "" b Hw ltac:(by left)) as E. by rewrite str_app_nil_r in E.
  - rewrite (trim_start_word w _ Hw). assert (N' : trim_end (sp ++ t) <> "") by (rewrite trim_end_app by done; by destruct sp).
    rewrite (trim_end_app w _ N'), (trim_end_app sp t N). split; [done|]. split; [destruct w; [by destruct Hw|done]|]. intros b.
    destruct sp as [|c sp]; [done|]. assert (Hc : is_space c = true) by (apply andb_prop in Hs; apply Hs).
    rewrite split_word by (first [done|right; by exists c, (sp ++ trim_end t)%string]).
    rewrite (split_space (String c sp) _ false Hs) by done. cbn. by rewrite S.
Qed.

(** A phrase is read as its words joined by single spaces, however it was typed. *)
Lemma normalize_spelled (m t : string) : spelled m t -> normalizeMnemonic t = m.
Proof.
  intros (ws & lead & t' & -> & -> & Hl & Ht). unfold normalizeMnemonic. f_equal. rewrite <- trim_lower, lower_append. unfold trim.
  rewrite trim_start_lead by by apply all_space_lower. destruct (spaced_split ws _ (typed_lower ws t' Ht)) as (-> & _ & H). apply H.
Qed.

Lemma phrase_typed (ws : list string) : ws <> [] -> Forall word ws -> typed ws (join " " ws).
Proof.
  intros Hne H. induction H as [|w ws Hw H IH]; [done|]. destruct ws as [|w' ws].
  - cbn [join]. rewrite <- (str_app_nil_r w) at 2. by constructor; [|apply Hw|].
  - change (join " " (w :: w' :: ws)) with (w ++ " " ++ join " " (w' :: ws))%string. constructor; try done; [apply Hw|]. by apply IH.
Qed.

(** A phrase as it is written is one of its typings. *)
Lemma phrase_spelled (ws : list string) : ws <> [] -> Forall word ws -> spelled (join " " ws) (join " " ws).
Proof. intros Hne H. exists ws, "", (join " " ws). split; [done|]. split; [done|]. split; [done|]. by apply phrase_typed. Qed.

(** ** Base64url *)

Lemma unpad_length (s : string) : pad4 3 s = (s ++ repeat_char ((4 - String.length s mod 4) mod 4) "=")%string.
Proof.
  pose proof (Nat.mod_upper_bound (String.length s) 4 ltac:(lia)) as Hb. apply pad4_repeat.
  - pose proof (Nat.mod_upper_bound (4 - String.length s mod 4) 4). lia.
  - apply Nat.mod_upper_bound. lia.
  - rewrite Nat.Div0.add_mod_idemp_r, <- Nat.Div0.add_mod_idemp_l. replace (_ + _) with 4 by lia. done.
Qed.

(** The helpers of this service are those of the passkeys. *)
Lemma base64UrlToBytes_eq (s : string) : base64UrlToBytes s = Base64.base64UrlToBytes s.
Proof. unfold base64UrlToBytes, Base64.base64UrlToBytes. by rewrite unpad_length. Qed.

Lemma bytesToBase64Url_eq (l : list Z) : bytesToBase64Url l = Base64.bytesToBase64Url l.
Proof. reflexivity. Qed.

Lemma base64url_roundtrip (l : list Z) : bytes l -> base64UrlToBytes (bytesToBase64Url l) = Ok l.
Proof. intros H. rewrite base64UrlToBytes_eq. by apply base64url_round. Qed.

(** ** Recovery *)

(** What the packages promise for the keys of the curve. *)
Class MnemonicLaws (K : PkCrypto) (ML : MnemonicLib K) : Prop := {
  key_scalar (k : PrivKey) : exists d x y,
    jwk_d k = Some (bytesToBase64Url d) /\ length d = 32 /\ bytes d /\ length x = 32 /\ length y = 32 /\ bytes x /\ bytes y
    /\ p256_getPublicKey d = Ok (4%Z :: x ++ y) /\ import_raw (4%Z :: x ++ y) = Some (public_of k)
    /\ import_jwk (bytesToBase64Url d) (bytesToBase64Url x) (bytesToBase64Url y) = Some k;
  scalar_phrase (k : PrivKey) (d : list Z) : jwk_d k = Some (bytesToBase64Url d) -> bytes d -> exists ws,
    entropyToMnemonic d = Ok (join " " ws) /\ ws <> [] /\ Forall word ws
    /\ bip39_validateMnemonic (join " " ws) = true /\ mnemonicToEntropy (join " " ws) = Ok d;
  scalar_shares (k : PrivKey) (d : list Z) (pass : string) (t n : Z) : jwk_d k = Some (bytesToBase64Url d) -> bytes d -> (2 <= t <= n)%Z -> (n <= 16)%Z ->
    exists shares, slip_split d pass t n = Ok shares /\ length shares = Z.to_nat n
      /\ forall chosen, chosen ⊆ shares -> NoDup chosen -> length chosen = Z.to_nat t -> slip_recover chosen pass = Ok d
}.

Section Recovering.
Context {K : PkCrypto} {KL : PkCryptoLaws K} {ML : MnemonicLib K} {L : MnemonicLaws K ML}.

Definition pair_of (k : PrivKey) : string * string := (exportECIESPublicKey (public_of k), exportECIESPrivateKey k).

Lemma base64_text_nonempty (d : list Z) : length d = 32 -> bytes d -> bytesToBase64Url d <> "".
Proof. intros Hd Hb E. pose proof (base64url_roundtrip d Hb) as R. rewrite E in R. vm_compute in R. injection R as <-. done. Qed.

Lemma point_slices (x y : list Z) : length x = 32 -> length y = 32 ->
  firstn (33 - 1) (skipn 1 (4%Z :: x ++ y)) = x /\ firstn (65 - 33) (skipn 33 (4%Z :: x ++ y)) = y.
Proof.
  intros Lx Ly. split.
  - change (firstn 32 (x ++ y) = x). rewrite firstn_app, Lx, Nat.sub_diag, firstn_O, app_nil_r. by rewrite <- Lx, firstn_all.
  - change (firstn 32 (skipn 32 (x ++ y)) = y). rewrite skipn_app, Lx, Nat.sub_diag, skipn_all2 by lia. change (firstn 32 y = y). by rewrite <- Ly, firstn_all.
Qed.

(** What a key is written as, and that it is read again however it is typed. *)
Lemma key_phrase (k : PrivKey) : exists d m, jwk_d k = Some (bytesToBase64Url d) /\ bytes d /\ entropyToMnemonic d = Ok m
  /\ privateKeyToMnemonic (exportECIESPrivateKey k) = Ok m /\ spelled m m
  /\ bip39_validateMnemonic m = true /\ mnemonicToEntropy m = Ok d
  /\ forall t, spelled m t -> mnemonicToKeyPair t = Ok (pair_of k).
Proof.
  destruct (key_scalar k) as (d & x & y & Hd & Ld & Bd & Lx & Ly & Bx & By & Hp & Hr & Hi). destruct (scalar_phrase k d Hd Bd) as (ws & He & Hne & Hw & Hv & Hm).
  exists d, (join " " ws). do 3 (split; [done|]). split; [|split; [by apply phrase_spelled|do 2 (split; [done|])]].
  - unfold privateKeyToMnemonic. rewrite import_export_private. cbn [res_bind]. rewrite Hd. pose proof (base64_text_nonempty d Ld Bd) as N.
    destruct (bytesToBase64Url d) as [|c u] eqn:E; [done|]. rewrite <- E, base64url_roundtrip by done. cbn [res_bind]. by rewrite Ld.
  - intros t Ht. unfold mnemonicToKeyPair. rewrite (normalize_spelled _ t Ht), Hv, Hm. cbn [negb res_bind]. rewrite Ld. cbn [Nat.eqb negb]. rewrite Hp.
    destruct (point_slices x y Lx Ly) as [-> ->].
    rewrite Hi. cbn [import_result res_bind]. unfold importECIESPublicKey. rewrite base64_round by (constructor; [unfold is_byte; lia|by apply Forall_app]).
    cbn [res_bind]. replace (length (4%Z :: x ++ y)) with 65 by (cbn; rewrite length_app; lia). cbn [Nat.eqb nth Z.eqb andb Pos.eqb]. by rewrite Hr.
Qed.

(** The phrase of a key gives the key's pair back, however it is typed. *)
Theorem phrase_recovers (k : PrivKey) :
  exists m, privateKeyToMnemonic (exportECIESPrivateKey k) = Ok m /\ forall t, spelled m t -> recoverKeyPair (FromMnemonic t) = Ok (pair_of k).
Proof. destruct (key_phrase k) as (d & m & _ & _ & _ & H & _ & _ & _ & Hk). exists m. split; [done|]. intros t Ht. exact (Hk t Ht). Qed.

(** C21: Any threshold of different shares of a typed phrase gives the key's pair back. *)
Theorem shares_recover (k : PrivKey) (opts : ShareOptions) :
  let t := default DEFAULT_SHARE_THRESHOLD (threshold opts) in let n := default DEFAULT_SHARE_COUNT (count opts) in
  (2 <= t <= n)%Z -> (n <= 16)%Z ->
  exists m, privateKeyToMnemonic (exportECIESPrivateKey k) = Ok m
    /\ forall typing, spelled m typing -> exists shares, mnemonicToShares typing opts = Ok shares /\ length shares = Z.to_nat n
    /\ forall chosen, chosen ⊆ shares -> NoDup chosen -> length chosen = Z.to_nat t ->
        recoverKeyPair (FromShares chosen (passphrase opts)) = Ok (pair_of k).
Proof.
  intros t n Ht Hn. destruct (key_phrase k) as (d & m & Hd & Bd & He & H & Hs & Hv & Hm & Hk). exists m. split; [done|]. intros typing Hty.
  destruct (scalar_shares k d (default "" (passphrase opts)) t n Hd Bd Ht Hn) as (shares & E & Hl & Hc). exists shares. split; [|split; [done|]].
  - unfold mnemonicToShares. fold t n. replace ((t <? 2) || (n <? t))%Z with false by lia. by rewrite (normalize_spelled m typing Hty), Hv, Hm.
  - intros chosen Hi Hnd Hlen. unfold recoverKeyPair, sharesToMnemonic. rewrite (Hc chosen Hi Hnd Hlen). cbn [res_bind]. rewrite He. cbn [res_bind].
    by apply Hk.
Qed.

(** The scheme is checked before the phrase, and the phrase before it is shared. *)
Theorem shares_refused (mnemonic : string) (opts : ShareOptions) :
  let t := default DEFAULT_SHARE_THRESHOLD (threshold opts) in let n := default DEFAULT_SHARE_COUNT (count opts) in
  ((t < 2)%Z \/ (n < t)%Z -> exists e, mnemonicToShares mnemonic opts = Throw e)
  /\ (validateMnemonic mnemonic = false -> (exists e, mnemonicToShares mnemonic opts = Throw e) /\ mnemonicToKeyPair mnemonic = Throw invalid_mnemonic).
Proof.
  intros t n. unfold mnemonicToShares, validateMnemonic, mnemonicToKeyPair. fold t n. split.
  - intros H. replace ((t <? 2) || (n <? t))%Z with true by (symmetry; lia). by eexists.
  - intros ->. split; [|done]. destruct (_ || _); by eexists.
Qed.

(** A shorter phrase is shared without complaint, and refused when its pair is asked for. *)
Theorem short_phrase_shared (mnemonic : string) (entropy : list Z) (shares : list string) (opts : ShareOptions)
    (Hv : validateMnemonic mnemonic = true) (He : mnemonicToEntropy (normalizeMnemonic mnemonic) = Ok entropy) (Hl : length entropy <> 32)
    (Hs : mnemonicToShares mnemonic opts = Ok shares) :
  slip_split entropy (default "" (passphrase opts)) (default DEFAULT_SHARE_THRESHOLD (threshold opts)) (default DEFAULT_SHARE_COUNT (count opts)) = Ok shares
  /\ recoverKeyPair (FromMnemonic mnemonic) = Throw "Mnemonic must encode 256-bit entropy (24 words)".
Proof.
  unfold mnemonicToShares, validateMnemonic, recoverKeyPair, mnemonicToKeyPair in *. rewrite Hv, He in *. cbn [negb res_bind] in *. split.
  - by destruct (_ || _).
  - rewrite Hv, He. cbn [negb res_bind]. by rewrite (proj2 (Nat.eqb_neq _ _) Hl).
Qed.

(** The phrase that is exported for an account recovers the pair of the key it unlocks. *)
Theorem exported_phrase_recovers {S : Type} (getDecryptedPrivateKey : string -> string -> eio S string) (account pin : string) (k : PrivKey) (s s' : S)
    (H : getDecryptedPrivateKey (toLowerCase account) pin s = (inl (exportECIESPrivateKey k), s')) :
  exists m, exportMnemonic getDecryptedPrivateKey account pin s = (inl m, s') /\ recoverKeyPair (FromMnemonic m) = Ok (pair_of k).
Proof.
  destruct (key_phrase k) as (d & m & _ & _ & _ & E & Hs & _ & _ & Hk). exists m. unfold exportMnemonic, ebind, of_res. rewrite H, E.
  split; [done|]. by apply Hk.
Qed.
End Recovering.

(** ** An instance: a curve with two keys *)
Module Coins.

Definition scalar (k : bool) : list Z := repeat (if k then 1%Z else 2%Z) 32.
Definition coordinates (k : bool) : list Z := repeat (if k then 3%Z else 4%Z) 32.
Definition key_of (l : list Z) : option bool :=
  if bool_decide (l = scalar true) then Some true else if bool_decide (l = scalar false) then Some false else None.
Definition phrase (k : bool) : string := if k then "abandon art" else "zoo vote".
(** Shares begin with the letter of their key. *)
Definition coin_shares (k : bool) (n : Z) : list string := map (fun i => (if k then "h" else "t") ++ num_str (Z.of_nat i))%string (seq 0 (Z.to_nat n)).

#[export] Instance coins : PkCrypto := {
  PubKey := bool; PrivKey := bool; public_of := fun k => k;
  ecdh_bits := fun a b => [];
  export_spki := fun k => [0x30; if k then 1 else 2]%Z; export_pkcs8 := fun k => [0x30; if k then 1 else 2]%Z;
  import_raw := fun l => if bool_decide (l = 4%Z :: coordinates true ++ coordinates true) then Some true
                         else if bool_decide (l = 4%Z :: coordinates false ++ coordinates false) then Some false else None;
  import_spki := fun l => match l with [_; b] => Some (b =? 1)%Z | _ => None end;
  import_pkcs8 := fun l => match l with [_; b] => Some (b =? 1)%Z | _ => None end;
  hkdf := fun _ _ _ => []; nacl_public := Pair.low_bytes; nacl_scalarMult := fun a b => Ok (Pair.sums a b); nacl_box_open := fun _ _ _ _ => Ok None;
  kem_generateKeyPair := @kem_generateKeyPair Pair.pair; kem_encap := @kem_encap Pair.pair; kem_decap := @kem_decap Pair.pair
}.

#[export] Instance coins_laws : PkCryptoLaws coins.
Proof.
  split.
  - by intros [].
  - intros []; by repeat constructor.
  - by intros [].
  - by intros [].
  - intros []; by repeat constructor.
  - done.
  - apply (@nacl_public_bytes Pair.pair Pair.pair_laws).
  - apply (@nacl_sym Pair.pair Pair.pair_laws).
  - apply (@kem_keys Pair.pair Pair.pair_laws).
  - apply (@kem_correct Pair.pair Pair.pair_laws).
Qed.

#[export] Instance coin_lib : MnemonicLib coins := {
  entropyToMnemonic := fun l => match key_of l with Some k => Ok (phrase k) | None => Throw "invalid entropy" end;
  bip39_validateMnemonic := fun m => String.eqb m (phrase true) || String.eqb m (phrase false) || String.eqb m "abandon";
  mnemonicToEntropy := fun m => if String.eqb m (phrase true) then Ok (scalar true) else if String.eqb m (phrase false) then Ok (scalar false)
                                else if String.eqb m "abandon" then Ok [0%Z] else Throw "Invalid mnemonic";
  p256_getPublicKey := fun l => match key_of l with Some k => Ok (4%Z :: coordinates k ++ coordinates k) | None => Throw "bad scalar" end;
  jwk_d := fun k => Some (bytesToBase64Url (scalar k));
  import_jwk := fun d x y => if String.eqb d (bytesToBase64Url (scalar true)) then Some true
                             else if String.eqb d (bytesToBase64Url (scalar false)) then Some false else None;
  slip_split := fun secret _ _ n => Ok (coin_shares (bool_decide (secret = scalar true)) n);
  slip_recover := fun l _ => match l with String c _ :: _ => Ok (scalar (Ascii.eqb c "h")) | _ => Throw "no shares" end
}.

Lemma scalar_bytes (k : bool) : bytes (scalar k).
Proof. destruct k; apply Pair.repeat_byte; unfold is_byte; lia. Qed.

Lemma coordinates_bytes (k : bool) : bytes (coordinates k).
Proof. destruct k; apply Pair.repeat_byte; unfold is_byte; lia. Qed.

Lemma jwk_scalar (k : bool) (d : list Z) : jwk_d k = Some (bytesToBase64Url d) -> bytes d -> d = scalar k.
Proof.
  intros [= E] Hd. pose proof (base64url_roundtrip d Hd) as R. rewrite <- E, base64url_roundtrip in R by apply scalar_bytes. by injection R as ->.
Qed.

#[export] Instance coin_laws : MnemonicLaws coins coin_lib.
Proof.
  split.
  - intros k. exists (scalar k), (coordinates k), (coordinates k). split; [done|]. split; [by destruct k|]. split; [apply scalar_bytes|].
    split; [by destruct k|]. split; [by destruct k|]. do 2 (split; [apply coordinates_bytes|]). by destruct k.
  - intros k d H Hd. rewrite (jwk_scalar k d H Hd). exists (if k then ["abandon"; "art"] else ["zoo"; "vote"]).
    destruct k; (split; [reflexivity|split; [done|split; [by repeat constructor|by split]]]).
  - intros k d pass t n H Hd Ht Hn. rewrite (jwk_scalar k d H Hd). exists (coin_shares k n).
    split; [by destruct k|]. split; [unfold coin_shares; by rewrite length_map, length_seq|].
    intros [|c chosen] Hi _ Hl; [cbn in Hl; lia|]. assert (Hc : c ∈ coin_shares k n) by (apply Hi; by left).
    apply list_elem_of_fmap in Hc as (i & -> & _). by destruct k.
Qed.
End Coins.
Import Coins.

Definition coin : @PrivKey coins := true.
Definition demo_typing : string := "  Abandon   ART ".

Lemma demo_spelled : spelled "abandon art" demo_typing.
Proof.
  exists ["abandon"; "art"], "  ", "Abandon   ART ". split; [done|]. split; [done|]. split; [done|].
  apply (typed_more "abandon" "Abandon" "   " ["art"] "ART "); try done. by apply (typed_last "art" "ART" " ").
Qed.

Lemma shares_recover_witness : exists shares, mnemonicToShares demo_typing no_options = Ok shares
  /\ recoverKeyPair (FromShares (firstn 3 shares) None) = Ok (pair_of coin).
Proof.
  destruct (shares_recover coin no_options) as (m & H & Hk); [split; discriminate|discriminate|].
  assert (Hm : privateKeyToMnemonic (exportECIESPrivateKey coin) = Ok "abandon art") by (vm_compute; reflexivity).
  rewrite Hm in H. injection H as <-.
  destruct (Hk demo_typing demo_spelled) as (shares & E & _ & R). exists shares. split; [exact E|].
  assert (Hs : mnemonicToShares demo_typing no_options = Ok (coin_shares true 5)) by (vm_compute; reflexivity).
  rewrite Hs in E. injection E as <-. apply R; [intros x Hx; rewrite <- (firstn_skipn 3 (coin_shares true 5)); apply elem_of_app; by left|apply (bool_decide_eq_true_1 (NoDup _)); reflexivity|reflexivity].
Defined.

Definition unlocked (acc pin : string) : eio unit string := eret (exportECIESPrivateKey coin).

Lemma exported_phrase_recovers_witness : exists m, exportMnemonic unlocked "0xAlice" "1234" tt = (inl m, tt) /\ recoverKeyPair (FromMnemonic m) = Ok (pair_of coin).
Proof. apply (exported_phrase_recovers unlocked "0xAlice" "1234" coin tt tt). reflexivity. Defined.

Lemma shares_refused_witness : exists e, mnemonicToShares demo_typing (mkShareOptions (Some 5%Z) (Some 1%Z) None) = Throw e.
Proof. refine (proj1 (shares_refused demo_typing (mkShareOptions (Some 5%Z) (Some 1%Z) None)) _). left. reflexivity. Defined.

Lemma short_phrase_shared_witness : recoverKeyPair (FromMnemonic "abandon") = Throw "Mnemonic must encode 256-bit entropy (24 words)".
Proof. eapply (short_phrase_shared "abandon" [0%Z] (coin_shares false 5) no_options); [reflexivity|reflexivity|discriminate|reflexivity]. Defined.

Lemma phrase_recovers_witness : exists m, privateKeyToMnemonic (exportECIESPrivateKey coin) = Ok m
  /\ forall t, spelled m t -> recoverKeyPair (FromMnemonic t) = Ok (pair_of coin).
Proof. apply (phrase_recovers coin). Defined.
