(* ===== verification/OpaqueServer.v ===== *)
(** * OpaqueServer: scripts/lib/opaqueKeyringServer.mjs and scripts/opaque-keyring-server.mjs

    The verification server behind the keyring: its credential store in a file, the protocol
    with its login sessions, management tokens and rate limits, and the HTTP routes.  The
    server half of @serenity-kit/opaque is the class [OpaqueServerLib].  [server_fetch] lets
    the client's own transport talk to the routes. *)

From Stdlib Require Import Ascii String ZArith Lia Bool.
From stdpp Require Import base list gmap strings.
From S2P Require Import Prelude Bytes JsString Base64 JsonText JsNumber KeyInbox JsonParse OpaqueKeyring.

Open Scope list_scope.
Open Scope string_scope.
Open Scope Z_scope.

(** ** Errors and inputs *)

(** An error with the [code] and [status] properties it may have. *)
Record ServerError : Type := mkServerError { se_message : string; se_code : option string; se_status : option nat }.

Definition apiError (status : nat) (code message : string) : ServerError := mkServerError message (Some code) (Some status).
Definition plainError (message : string) : ServerError := mkServerError message None None.

Definition char_in (lo hi : nat) (c : ascii) : bool := ((lo <=? nat_of_ascii c) && (nat_of_ascii c <=? hi))%nat.
Definition alphanumeric (c : ascii) : bool := char_in 97 122 c || char_in 65 90 c || char_in 48 57 c.

(** [/^[a-zA-Z0-9:._-]{3,128}$/] and [/^[A-Za-z0-9_-]+$/] *)
Definition account_char (c : ascii) : bool := alphanumeric c || existsb (Ascii.eqb c) [":"; "."; "_"; "-"]%char.
Definition ACCOUNT_PATTERN (s : string) : bool :=
  str_all account_char s && (3 <=? String.length s)%nat && (String.length s <=? 128)%nat.
Definition opaque_char (c : ascii) : bool := alphanumeric c || existsb (Ascii.eqb c) ["_"; "-"]%char.
Definition OPAQUE_VALUE_PATTERN (s : string) : bool := str_all opaque_char s && (1 <=? String.length s)%nat.

(** A member that is not a string is [None]. *)
Definition normalizeAccount (account : option string) : string + ServerError :=
  let normalized := match account with Some a => toLowerCase (trim a) | None => "" end in
  if ACCOUNT_PATTERN normalized then inl normalized else inr (apiError 400 "INVALID_ACCOUNT" "Invalid account").

Definition validateOpaqueValue (value : option string) (field : string) (maxLength : nat) : string + ServerError :=
  match value with
  | Some v =>
      if (String.length v <? 16)%nat || (maxLength <? String.length v)%nat || negb (OPAQUE_VALUE_PATTERN v)
      then inr (apiError 400 "INVALID_OPAQUE_MESSAGE" ("Invalid " ++ field)) else inl v
  | None => inr (apiError 400 "INVALID_OPAQUE_MESSAGE" ("Invalid " ++ field))
  end.

Definition safeTokenEqual (left : string) (right : option string) : bool :=
  match right with Some r => String.eqb left r | None => false end.

Definition lift_sum {E S A : Type} (r : A + E) : throwing E S A := fun s => (r, s).

(** ** The credential store *)

Definition STORE_VERSION : string := "spoovault-opaque-credential-store-v1".

(** The file: missing, there but not readable, or a text. *)
Inductive Disk : Type := NoFile | Unreadable (code : string) | FileText (text : string).

(** [pendingWrite] is the chain of writes: [Some code] once it is rejected with an error of that
    code.  [write_error] is the error the disk answers a write with now. *)
Record Store : Type := mkStore {
  hasPath : bool; file : Disk; write_error : option string; records : gmap string json; loaded : bool; pendingWrite : option string
}.

Definition new_store (path : bool) (file : Disk) : Store := mkStore path file None ∅ false None.
Definition InMemoryOpaqueCredentialStore : Store := new_store false NoFile.

Definition set_records (r : gmap string json) (s : Store) : Store := mkStore (hasPath s) (file s) (write_error s) r (loaded s) (pendingWrite s).

(** [Object.entries] of a value that is an object. *)
Definition object_entries (v : json) : option (list (string * json)) :=
  match v with
  | JObj l => Some (omap (fun '(k, _) => match get_prop k v with Some x => Some (k, x) | None => None end) l)
  | JArr l => Some (imap (fun i x => (num_str (Z.of_nat i), x)) l)
  | _ => None
  end.

Definition registration_of (v : json) : option string := as_str (get_prop "registrationRecord" v).

Definition load_entries (l : list (string * json)) (m : gmap string json) : gmap string json :=
  fold_left (fun m '(account, value) => match registration_of value with Some _ => <[account := value]> m | None => m end) l m.

Definition parse_store (text : string) : list (string * json) + ServerError :=
  match json_parse text with
  | Throw e => inr (plainError e)
  | Ok parsed =>
      let bad := plainError "Unsupported OPAQUE credential store format" in
      match as_str (get_prop "version" parsed), get_prop "records" parsed with
      | Some v, Some r =>
          if negb (String.eqb v STORE_VERSION) then inr bad
          else match r with
               | JObj _ | JArr _ => inl (default [] (object_entries r))
               | JNull => inr (plainError "TypeError: Cannot convert undefined or null to object")
               | _ => inr bad
               end
      | _, _ => inr bad
      end
  end.

(** [load] marks the store as loaded before it reads the file. *)
Definition load_begin (s : Store) : Store := mkStore (hasPath s) (file s) (write_error s) (records s) true (pendingWrite s).

(** What [load] does with the file it has read. *)
Definition load_from (d : Disk) (s : Store) : (unit + ServerError) * Store :=
  match d with
  | NoFile => (inl tt, s)
  | Unreadable code => (inr (mkServerError (code ++ ": the file cannot be read") (Some code) None), s)
  | FileText text =>
      match parse_store text with
      | inr e => (inr e, s)
      | inl l => (inl tt, set_records (load_entries l (records s)) s)
      end
  end.

Definition load : throwing ServerError Store unit :=
  fun s => if loaded s then (inl tt, s)
           else let s := load_begin s in if hasPath s then load_from (file s) s else (inl tt, s).

Definition get (account : string) : throwing ServerError Store (option json) :=
  run! _ <- load in fun s => (inl (records s !! account), s).

(** The text that is written; the order of the members is that of the map. *)
Definition snapshot (r : gmap string json) : string :=
  stringify_with 2 (JObj [("version", JStr STORE_VERSION); ("records", JObj (map_to_list r))]) ++ String (ascii_of_nat 10) "".

Definition write_failed (code : string) : ServerError := mkServerError (code ++ ": the file cannot be written") (Some code) None.

(** A write is chained to the writes before it: after one has failed none is tried. *)
Definition write_text (text : string) : throwing ServerError Store unit :=
  fun s =>
    match pendingWrite s, write_error s with
    | Some code, _ => (inr (write_failed code), s)
    | None, None => (inl tt, mkStore (hasPath s) (FileText text) None (records s) (loaded s) None)
    | None, Some code => (inr (write_failed code), mkStore (hasPath s) (file s) (Some code) (records s) (loaded s) (Some code))
    end.

Definition persist : throwing ServerError Store unit :=
  fun s => if negb (hasPath s) then (inl tt, s) else write_text (snapshot (records s)) s.

(** [this.records.set(account, ...)] *)
Definition put_record (account registrationRecord now : string) (s : Store) : Store :=
  let createdAt := match records s !! account with
                   | Some previous => match get_prop "createdAt" previous with
                                      | Some JNull | None => JStr now
                                      | Some d => d
                                      end
                   | None => JStr now
                   end in
  let record := JObj [("registrationRecord", JStr registrationRecord); ("createdAt", createdAt); ("updatedAt", JStr now)] in
  set_records (<[account := record]> (records s)) s.

Definition put (account registrationRecord : string) (now : string) : throwing ServerError Store unit :=
  run! _ <- load in fun s => persist (put_record account registrationRecord now s).

Definition store_delete (account : string) : throwing ServerError Store unit :=
  run! _ <- load in fun s => persist (set_records (delete account (records s)) s).

(** A server that starts again on the same file. *)
Definition restart (s : Store) : Store := mkStore (hasPath s) (file s) (write_error s) ∅ false None.

(** ** The protocol *)

Class OpaqueServerLib : Type := {
  server_getPublicKey : string -> string;
  (** setup, user, request: the response, or a throw *)
  server_createRegistrationResponse : string -> string -> string -> option string;
  (** setup, record, request, user, client and server identifiers, draw: the state and the response *)
  server_startLogin : string -> option string -> string -> string -> string -> string -> nat -> option (string * string);
  (** request, state, client and server identifiers: whether the proof is accepted *)
  server_finishLogin : string -> string -> string -> string -> bool
}.

Record LoginEntry : Type := mkLoginEntry { l_account : string; serverLoginState : string; l_expiresAt : Z }.
Record TokenEntry : Type := mkTokenEntry { t_account : string; t_expiresAt : Z }.
Record AttemptEntry : Type := mkAttempts { attempt_count : Z; resetAt : Z }.

(** The three tables and the store, with the clock and the number of the next draw. *)
Record Protocol : Type := mkProtocol {
  store : Store; logins : gmap string LoginEntry; tokens : gmap string TokenEntry; attempts : gmap string AttemptEntry;
  clock : Z; next_draw : nat
}.

Definition DEFAULT_SESSION_TTL_MS : Z := 60000.
Definition DEFAULT_TOKEN_TTL_MS : Z := 15 * 60000.
Definition DEFAULT_RATE_LIMIT_WINDOW_MS : Z := 60000.
Definition DEFAULT_RATE_LIMIT_ATTEMPTS : Z := 5.

Definition set_store (st : Store) (s : Protocol) : Protocol := mkProtocol st (logins s) (tokens s) (attempts s) (clock s) (next_draw s).
Definition set_logins (l : gmap string LoginEntry) (s : Protocol) : Protocol := mkProtocol (store s) l (tokens s) (attempts s) (clock s) (next_draw s).
Definition set_tokens (t : gmap string TokenEntry) (s : Protocol) : Protocol := mkProtocol (store s) (logins s) t (attempts s) (clock s) (next_draw s).
Definition set_attempts (a : gmap string AttemptEntry) (s : Protocol) : Protocol := mkProtocol (store s) (logins s) (tokens s) a (clock s) (next_draw s).
Definition new_protocol (st : Store) (now : Z) : Protocol := mkProtocol st ∅ ∅ ∅ now 0.

Section Keyring.
Context {L : OpaqueServerLib}.
Variables (serverSetup : string) (sessionTtlMs tokenTtlMs rateLimitWindowMs rateLimitAttempts : Z).
Variable random_bytes : nat -> nat -> list Z.

Abbreviation S := (throwing ServerError Protocol).

Definition in_store {A : Type} (m : throwing ServerError Store A) : S A :=
  fun s => let '(r, st) := m (store s) in (r, set_store st s).
Definition modify (f : Protocol -> Protocol) : S unit := fun s => (inl tt, f s).
Definition fresh_draw : S nat :=
  fun s => (inl (next_draw s), mkProtocol (store s) (logins s) (tokens s) (attempts s) (clock s) (Datatypes.S (next_draw s))).

Definition tokenValue : S string := run! n <- fresh_draw in eret (bytesToBase64Url (random_bytes n 32)).

Definition cleanup : S unit :=
  modify (fun s =>
    mkProtocol (store s) (filter (fun kv => clock s < l_expiresAt kv.2) (logins s)) (filter (fun kv => clock s < t_expiresAt kv.2) (tokens s))
      (filter (fun kv => clock s < resetAt kv.2) (attempts s)) (clock s) (next_draw s)).

Definition issueManagementToken (account : string) : S string :=
  run! _ <- cleanup in
  run! token <- tokenValue in
  run! _ <- modify (fun s => set_tokens (<[token := mkTokenEntry account (clock s + tokenTtlMs)]> (tokens s)) s) in
  eret token.

Definition revokeManagementTokens (account : string) : S unit :=
  modify (fun s => set_tokens (filter (fun kv => t_account kv.2 <> account) (tokens s)) s).

Definition authorizeManagement (account : string) (token : option string) : S bool :=
  run! _ <- cleanup in
  fun s =>
    (inl (existsb (fun '(candidate, value) =>
                     String.eqb (t_account value) account && (clock s <? t_expiresAt value) && safeTokenEqual candidate token)
            (map_to_list (tokens s))), s).

Definition consumeAttempt (account : string) : S unit :=
  run! _ <- cleanup in
  fun s =>
    match attempts s !! account with
    | Some current =>
        if resetAt current <=? clock s
        then (inl tt, set_attempts (<[account := mkAttempts 1 (clock s + rateLimitWindowMs)]> (attempts s)) s)
        else if rateLimitAttempts <=? attempt_count current
        then (inr (apiError 429 "OPAQUE_RATE_LIMITED" "Too many OPAQUE login attempts"), s)
        else (inl tt, set_attempts (<[account := mkAttempts (attempt_count current + 1) (resetAt current)]> (attempts s)) s)
    | None => (inl tt, set_attempts (<[account := mkAttempts 1 (clock s + rateLimitWindowMs)]> (attempts s)) s)
    end.

(** A throw of the library has no status. *)
Definition library {A : Type} (r : option A) : S A :=
  lift_sum (match r with Some a => inl a | None => inr (plainError "opaque: the message is not valid") end).

Definition server_startRegistration (account registrationRequest : option string) : S string :=
  run! normalized <- lift_sum (normalizeAccount account) in
  run! request <- lift_sum (validateOpaqueValue registrationRequest "registrationRequest" 4096) in
  library (server_createRegistrationResponse serverSetup normalized request).

Definition server_finishRegistration (account registrationRecord managementToken : option string) : S string :=
  run! normalized <- lift_sum (normalizeAccount account) in
  run! record <- lift_sum (validateOpaqueValue registrationRecord "registrationRecord" 4096) in
  run! existing <- in_store (get normalized) in
  run! allowed <- (match existing with Some _ => authorizeManagement normalized managementToken | None => eret true end) in
  if negb allowed then ethrow (apiError 409 "OPAQUE_CREDENTIAL_EXISTS" "OPAQUE credential already exists")
  else
    run! _ <- (fun s => in_store (put normalized record (toISOString (clock s))) s) in
    run! _ <- revokeManagementTokens normalized in
    issueManagementToken normalized.

(** What [startLogin] does once it has the credential. *)
Definition answer_login (normalized request : string) (credential : option json) : S (string * string) :=
  run! n <- fresh_draw in
  run! ' (state, loginResponse) <- library (server_startLogin serverSetup
      (match credential with Some v => registration_of v | None => None end) request normalized normalized OPAQUE_SERVER_ID n) in
  run! loginId <- tokenValue in
  run! _ <- modify (fun s => set_logins (<[loginId := mkLoginEntry normalized state (clock s + sessionTtlMs)]> (logins s)) s) in
  eret (loginId, loginResponse).

Definition server_begin_login (account startLoginRequest : option string) : S (string * string) :=
  run! normalized <- lift_sum (normalizeAccount account) in
  run! request <- lift_sum (validateOpaqueValue startLoginRequest "startLoginRequest" 4096) in
  run! _ <- consumeAttempt normalized in
  run! credential <- in_store (get normalized) in
  answer_login normalized request credential.

Definition server_end_login (loginId finishLoginRequest : option string) : S string :=
  run! id <- lift_sum (validateOpaqueValue loginId "loginId" 256) in
  run! request <- lift_sum (validateOpaqueValue finishLoginRequest "finishLoginRequest" 4096) in
  run! _ <- cleanup in
  run! login <- (fun s => (inl (logins s !! id), set_logins (delete id (logins s)) s)) in
  run! now <- (fun s => (inl (clock s), s)) in
  match login with
  | Some entry =>
      if l_expiresAt entry <=? now then ethrow (apiError 401 "OPAQUE_LOGIN_EXPIRED" "OPAQUE login expired")
      else if negb (server_finishLogin request (serverLoginState entry) (l_account entry) OPAQUE_SERVER_ID)
      then ethrow (apiError 401 "OPAQUE_VERIFICATION_FAILED" "OPAQUE proof verification failed")
      else
        run! _ <- modify (fun s => set_attempts (delete (l_account entry) (attempts s)) s) in
        issueManagementToken (l_account entry)
  | None => ethrow (apiError 401 "OPAQUE_LOGIN_EXPIRED" "OPAQUE login expired")
  end.

Definition server_deleteCredential (account managementToken : option string) : S unit :=
  run! normalized <- lift_sum (normalizeAccount account) in
  run! allowed <- authorizeManagement normalized managementToken in
  if negb allowed then ethrow (apiError 401 "OPAQUE_MANAGEMENT_UNAUTHORIZED" "Credential authorization failed")
  else
    run! _ <- in_store (store_delete normalized) in
    revokeManagementTokens normalized.

(** ** The HTTP server *)

Definition toOpaqueApiError (e : ServerError) : nat * json :=
  (default 500%nat (se_status e),
   JObj [("code", JStr (default "OPAQUE_SERVER_ERROR" (se_code e)));
         ("error", JStr (match se_status e with Some _ => se_message e | None => "Internal server error" end))]).

Definition http_send (status : nat) (body : option json) : HttpResponse :=
  mkResponse ((200 <=? status) && (status <? 300))%nat status body.

(** [JSON.parse] of the body; it is limited to 16 KiB. *)
Definition readJson (body : string) : json + ServerError :=
  if (Z.of_nat (String.length body) >? 16 * 1024) then inr (mkServerError "Request body too large" None (Some 413%nat))
  else match json_parse (if blank body then "{}" else body) with
       | Ok JNull => inr (plainError "TypeError: Cannot destructure property of null")
       | Ok v => inl v
       | Throw _ => inr (apiError 400 "INVALID_JSON" "Malformed JSON")
       end.

Definition member (k : string) (v : json) : option string := as_str (get_prop k v).

(** [decodeURIComponent]; [None] when an escape is cut short or malformed. *)
Fixpoint percent_decode (s : string) : option string :=
  match s with
  | EmptyString => Some EmptyString
  | String "%" (String a (String b s')) =>
      match digit_val a, digit_val b, percent_decode s' with
      | Some x, Some y, Some t => if (x <? 16) && (y <? 16) then Some (String (ascii_of_nat (Z.to_nat (16 * x + y))) t) else None
      | _, _, _ => None
      end
  | String "%" _ => None
  | String c s' => match percent_decode s' with Some t => Some (String c t) | None => None end
  end.

(** Well-formed UTF-8, which [decodeURIComponent] requires of what it decoded. *)
Fixpoint utf8_ok (l : list nat) : bool :=
  let cont lo hi b := ((lo <=? b) && (b <=? hi))%nat in
  match l with
  | [] => true
  | b :: l1 =>
      if (b <? 128)%nat then utf8_ok l1
      else match l1 with
           | [] => false
           | c :: l2 =>
               if cont 194 223 b then cont 128 191 c && utf8_ok l2
               else match l2 with
                    | [] => false
                    | d :: l3 =>
                        if cont 224 239 b
                        then cont (if b =? 224 then 160 else 128) (if b =? 237 then 159 else 191) c && cont 128 191 d && utf8_ok l3
                        else match l3 with
                             | [] => false
                             | e :: l4 =>
                                 cont 240 244 b && cont (if b =? 240 then 144 else 128) (if b =? 244 then 143 else 191) c
                                 && cont 128 191 d && cont 128 191 e && utf8_ok l4
                             end
                    end
           end
  end%nat.

Definition decodeURIComponent (s : string) : string + ServerError :=
  match percent_decode s with
  | Some t => if utf8_ok (map nat_of_ascii (list_ascii_of_string t)) then inl t else inr (plainError "URIError: URI malformed")
  | None => inr (plainError "URIError: URI malformed")
  end.

Definition string_member (k v : string) : json := JObj [(k, JStr v)].

(** A route's handler over the parsed body. *)
Definition with_body (body : string) (handler : json -> S json) : S json :=
  run! v <- lift_sum (readJson body) in handler v.

Definition CREDENTIALS : string := "/v1/credentials/".

Definition route (method url authorization body : string) : option (S json) :=
  if String.eqb method "GET" && String.eqb url "/health"
  then Some (eret (JObj [("status", JStr "ok"); ("serverPublicKey", JStr (server_getPublicKey serverSetup))]))
  else if String.eqb method "POST" && String.eqb url "/v1/registration/start"
  then Some (with_body body (fun v =>
         run! response <- server_startRegistration (member "account" v) (member "registrationRequest" v) in
         eret (string_member "registrationResponse" response)))
  else if String.eqb method "POST" && String.eqb url "/v1/registration/finish"
  then Some (with_body body (fun v =>
         run! token <- server_finishRegistration (member "account" v) (member "registrationRecord" v) (member "managementToken" v) in
         eret (string_member "managementToken" token)))
  else if String.eqb method "POST" && String.eqb url "/v1/login/start"
  then Some (with_body body (fun v =>
         run! ' (loginId, loginResponse) <- server_begin_login (member "account" v) (member "startLoginRequest" v) in
         eret (JObj [("loginId", JStr loginId); ("loginResponse", JStr loginResponse)])))
  else if String.eqb method "POST" && String.eqb url "/v1/login/finish"
  then Some (with_body body (fun v =>
         run! token <- server_end_login (member "loginId" v) (member "finishLoginRequest" v) in
         eret (string_member "managementToken" token)))
  else if String.eqb method "DELETE" && startsWith CREDENTIALS url
  then Some (
         run! account <- lift_sum (decodeURIComponent (slice_from (String.length CREDENTIALS) url)) in
         let managementToken := if startsWith "Bearer " authorization then slice_from 7 authorization else "" in
         run! _ <- server_deleteCredential (Some account) (Some managementToken) in
         eret (JObj [("deleted", JBool true)]))
  else None.

Variable ALLOWED_ORIGINS : list string.

Definition handle (origin method url authorization body : string) (s : Protocol) : HttpResponse * Protocol :=
  let allowed := negb (blank origin) && existsb (String.eqb origin) ALLOWED_ORIGINS in
  if negb (blank origin) && negb allowed
  then (http_send 403 (Some (JObj [("code", JStr "ORIGIN_FORBIDDEN"); ("error", JStr "Forbidden")])), s)
  else if String.eqb method "OPTIONS" then (http_send 204 None, s)
  else match route method url authorization body with
       | None => (http_send 404 (Some (JObj [("code", JStr "NOT_FOUND"); ("error", JStr "Not found")])), s)
       | Some m =>
           match m s with
           | (inl v, s') => (http_send 200 (Some v), s')
           | (inr e, s') => let '(status, body) := toOpaqueApiError e in (http_send status (Some body), s')
           end
       end.

(** The network between the page and the server: a request to the server's base URL arrives,
    with the origin of the page. *)
Definition header (k : string) (h : Headers) : string :=
  match List.find (fun kv => String.eqb kv.1 k) h with Some kv => kv.2 | None => "" end.

Definition server_fetch (baseUrl origin url method : string) (headers : Headers) (body : option json) (s : Protocol)
    : option HttpResponse * Protocol :=
  if startsWith baseUrl url
  then let '(r, s') := handle origin method (slice_from (String.length baseUrl) url) (header "Authorization" headers)
                         (match body with Some v => stringify_with 0 v | None => "" end) s in (Some r, s')
  else (None, s).

Definition server_transport (baseUrl origin : string) : Transport Protocol :=
  createFetchTransport (server_fetch baseUrl origin) baseUrl.

End Keyring.
