(* ===== verification/OpaqueServerProofs.v ===== *)
(** * OpaqueServerProofs: the store survives a restart, credentials change hands only with a
    token, and guessing is bounded

    [serve] is a server whose requests come one after the other.  From "Requests that run at the
    same time" on, requests wait at every [await] of their handlers and others run in between:
    the theorem on tokens is over these interleavings, and a request that nothing
    interrupts is shown to be answered as by [serve]. *)

From Stdlib Require Import Ascii String ZArith Lia Bool.
From stdpp Require Import base list gmap strings.
From S2P Require Import Prelude Bytes JsString Base64 WebCrypto JsonText JsNumber KeyInbox JsonParse OpaqueKeyring OpaqueServer.

Open Scope list_scope.
Open Scope string_scope.
Open Scope Z_scope.

(** ** The credential store *)

(** Every record of the map has a registration record, and nothing is held before loading. *)
Definition store_ok (s : Store) : Prop :=
  map_Forall (fun _ v => is_Some (registration_of v)) (records s) /\ (loaded s = false -> records s = ∅).

Lemma load_entries_keep (l : list (string * json)) (m : gmap string json) :
  map_Forall (fun _ v => is_Some (registration_of v)) m -> map_Forall (fun _ v => is_Some (registration_of v)) (load_entries l m).
Proof.
  revert m. induction l as [|[k v] l IH]; intros m Hm; [exact Hm|]. cbn. apply IH.
  destruct (registration_of v) eqn:E; [|exact Hm]. apply map_Forall_insert_2; [now rewrite E|exact Hm].
Qed.

(** What a step of the store leaves as it was. *)
Lemma load_spec (s s' : Store) (r : unit + ServerError) : load s = (r, s') ->
  loaded s' = true /\ file s' = file s /\ write_error s' = write_error s /\ hasPath s' = hasPath s /\ pendingWrite s' = pendingWrite s
  /\ (loaded s = true -> s' = s /\ r = inl tt) /\ (store_ok s -> store_ok s').
Proof.
  unfold load. destruct (loaded s) eqn:El; [intros [= <- <-]; now split_and!|].
  assert (Hok : store_ok s -> store_ok (load_begin s)) by (intros [H1 H2]; split; [exact H1|discriminate]).
  cbn [load_begin hasPath]. destruct (hasPath s) eqn:Ep; [|intros [= <- <-]; now split_and!].
  unfold load_from. cbn [load_begin file]. destruct (file s) as [|code|text] eqn:Ef; [intros [= <- <-]; now split_and!|intros [= <- <-]; now split_and!|].
  destruct (parse_store text) as [l|e]; intros [= <- <-]; split_and!; try done.
  intros [H _]. split; [now apply load_entries_keep|discriminate].
Qed.

Lemma get_spec (acc : string) (s s' : Store) (r : option json + ServerError) : get acc s = (r, s') ->
  load s = (match r with inl _ => inl tt | inr e => inr e end, s') /\ (forall o, r = inl o -> o = records s' !! acc).
Proof.
  unfold get, ebind. destruct (load s) as [[[]|e] s1]; intros [= <- <-]; (split; [reflexivity|]); [now intros o [= <-]|discriminate].
Qed.

Lemma persist_spec (s s' : Store) (r : unit + ServerError) : persist s = (r, s') ->
  records s' = records s /\ loaded s' = loaded s /\ write_error s' = write_error s /\ hasPath s' = hasPath s
  /\ (r = inl tt -> hasPath s = true -> file s' = FileText (snapshot (records s))).
Proof.
  unfold persist, write_text. destruct (hasPath s) eqn:Ep; cbn [negb]; [|intros [= <- <-]; repeat split; congruence].
  destruct (pendingWrite s); [intros [= <- <-]; repeat split; congruence|].
  destruct (write_error s) eqn:Ew; intros [= <- <-]; repeat split; congruence.
Qed.

(** The record a [put] stores. *)
Lemma put_spec (acc rec now : string) (s s' : Store) (r : unit + ServerError) : put acc rec now s = (r, s') ->
  (exists s1 e, load s = (inr e, s1) /\ r = inr e /\ s' = s1)
  \/ exists s1 v, load s = (inl tt, s1) /\ registration_of v = Some rec
      /\ persist (set_records (<[acc := v]> (records s1)) s1) = (r, s').
Proof.
  unfold put, put_record, ebind. destruct (load s) as [[[]|e] s1]; [|intros [= <- <-]; left; now exists s1, e].
  intros H. right. eexists s1, _. split; [reflexivity|]. split; [|exact H]. reflexivity.
Qed.

Lemma last_member_nodup (l : list (string * json)) (k : string) (v : json) : NoDup l.*1 -> (k, v) ∈ l -> last_member k l = Some v.
Proof.
  induction l as [|[k' v'] l IH]; [now intros _ ?%elem_of_nil|]. cbn [fmap list_fmap fst]. intros [Hn Hd]%NoDup_cons.
  cbn [last_member]. intros [[= -> ->]|H]%elem_of_cons.
  - rewrite String.eqb_refl. replace (last_member k' l) with (@None json); [reflexivity|]. symmetry.
    clear IH Hd. induction l as [|[k v] l IHl]; [reflexivity|]. cbn in Hn. apply not_elem_of_cons in Hn as [Hk Hn]. cbn [last_member].
    rewrite (IHl Hn). destruct (String.eqb_spec k k'); congruence.
  - now rewrite (IH Hd H).
Qed.

Lemma entries_of_map (m : gmap string json) : object_entries (JObj (map_to_list m)) = Some (map_to_list m).
Proof.
  unfold object_entries, get_prop. f_equal. pose proof (NoDup_fst_map_to_list m) as Hn.
  assert (H : forall l, (forall kv, kv ∈ l -> kv ∈ map_to_list m) ->
     omap (M := list) (fun '(k, _) => match last_member k (map_to_list m) with Some x => Some (k, x) | None => None end) l = l).
  { induction l as [|[k v] l IH]; intros Hl; [reflexivity|]. cbn. rewrite (last_member_nodup _ k v Hn) by (apply Hl; now left).
    f_equal. apply IH. intros kv H. apply Hl. now right. }
  now apply H.
Qed.

Lemma load_entries_map (m : gmap string json) : map_Forall (fun _ v => is_Some (registration_of v)) m ->
  load_entries (map_to_list m) ∅ = m.
Proof.
  intros Hm. assert (H : forall l (m0 : gmap string json), NoDup l.*1 -> (forall kv, kv ∈ l -> is_Some (registration_of kv.2)) ->
    load_entries l m0 = list_to_map l ∪ m0).
  { induction l as [|[k v] l IH]; intros m0 Hn Hl; [change (m0 = ∅ ∪ m0); now rewrite (left_id_L ∅ (∪))|]. cbn in *. apply NoDup_cons in Hn as [Hk Hn].
    destruct (Hl (k, v) ltac:(now left)) as [r Hr]. cbn in Hr. rewrite Hr, IH; [|exact Hn|intros kv H; apply Hl; now right].
    rewrite <- insert_union_l. symmetry. apply insert_union_r. now apply not_elem_of_list_to_map_1. }
  rewrite H, (right_id_L ∅ (∪)), list_to_map_to_list; [reflexivity|apply NoDup_fst_map_to_list|].
  intros [k v] Hk%elem_of_map_to_list. exact (Hm k v Hk).
Qed.

(** What the file of a store reads as. *)
Lemma parse_snapshot (m : gmap string json) : parse_store (snapshot m) = inl (map_to_list m).
Proof.
  unfold parse_store, snapshot. rewrite parse_stringified_space by reflexivity. pose proof (entries_of_map m) as H.
  cbn -[object_entries]. now rewrite H.
Qed.

(** A step of the store: a write, or a change of the disk under it. *)
Inductive store_step : Store -> Store -> Prop :=
| SS_put acc rec now s : store_step s (put acc rec now s).2
| SS_delete acc s : store_step s (store_delete acc s).2
| SS_get acc s : store_step s (get acc s).2
| SS_disk s f b : store_step s (mkStore (hasPath s) f b (records s) (loaded s) (pendingWrite s)).

Lemma store_ok_step (s s' : Store) : store_step s s' -> store_ok s -> store_ok s'.
Proof.
  intros [acc rec now s0|acc s0|acc s0|s0 f b] Hok.
  - destruct (put acc rec now s0) as [r s1] eqn:E. cbn. apply put_spec in E as [(s2 & e & E & _ & ->)|(s2 & v & E & Hv & E2)];
      apply load_spec in E as (Hl & _ & _ & _ & _ & _ & Hk); [now apply Hk|]. apply persist_spec in E2 as (E2 & E3 & _). cbn in *.
    split; [|congruence]. rewrite E2. apply map_Forall_insert_2; [now rewrite Hv|]. now apply Hk.
  - unfold store_delete, ebind. destruct (load s0) as [[[]|e] s2] eqn:E; apply load_spec in E as (Hl & _ & _ & _ & _ & _ & Hk); [|now apply Hk].
    destruct (persist _) as [r s1] eqn:E2. apply persist_spec in E2 as (E2 & E3 & _). cbn in *.
    split; [|congruence]. rewrite E2. apply map_Forall_delete. now apply Hk.
  - destruct (get acc s0) as [r s1] eqn:E. apply get_spec in E as [E _]. apply load_spec in E as (_ & _ & _ & _ & _ & _ & Hk). now apply Hk.
  - exact Hok.
Qed.

(** A credential that was stored is there after a restart, with all the others: the file
    reads back as the records. *)
Theorem store_survives_restart (path : bool) (f : Disk) (s s' : Store) (acc rec now : string) :
  rtc store_step (new_store path f) s -> hasPath s = true -> put acc rec now s = (inl tt, s') ->
  exists s2, load (restart s') = (inl tt, s2) /\ records s2 = records s' /\ (exists v, records s' !! acc = Some v /\ registration_of v = Some rec).
Proof.
  intros Hr Hp Hput. assert (Hok : store_ok s).
  { assert (H0 : store_ok (new_store path f)) by (split; [apply map_Forall_empty|reflexivity]).
    induction Hr as [|x y z Hxy _ IH]; [exact H0|]. apply IH; [assumption..|]. now apply (store_ok_step x). }
  assert (Hok' : store_ok s') by (apply (store_ok_step s); [|exact Hok]; change s' with (inl tt : unit + ServerError, s').2; rewrite <- Hput; constructor).
  apply put_spec in Hput as [(s1 & e & _ & [=] & _)|(s1 & v & E & Hv & E2)]. pose proof E2 as E3.
  apply load_spec in E as (Hl & _ & _ & Hpath & _). apply persist_spec in E2 as (R & L & _ & P & F). cbn in R, L, P, F.
  specialize (F eq_refl ltac:(congruence)). unfold load. cbn [restart loaded load_begin hasPath]. rewrite P, Hpath, Hp.
  unfold load_from. cbn [restart load_begin file]. rewrite F, parse_snapshot. eexists. split; [reflexivity|]. cbn. split.
  - rewrite R. apply load_entries_map. rewrite <- R. apply Hok'.
  - exists v. rewrite R. now rewrite lookup_insert_eq.
Qed.

(** The writes after a failed one all fail, though the disk may have been repaired: what
    they store is in memory only. *)
Theorem failed_write_is_final (acc rec now code : string) (s s' : Store) :
  loaded s = true -> hasPath s = true -> pendingWrite s = None -> write_error s = Some code ->
  rtc store_step (put acc rec now s).2 s' ->
  forall acc' rec' now', exists s2, put acc' rec' now' s' = (inr (write_failed code), s2) /\ file s2 = file s' /\ is_Some (records s2 !! acc').
Proof.
  intros Hl Hp Hw Hd. set (stuck := fun s => loaded s = true /\ hasPath s = true /\ pendingWrite s = Some code).
  assert (Hload : forall s, loaded s = true -> load s = (inl tt, s)) by (intros x Hx; unfold load; now rewrite Hx).
  assert (Hpersist : forall s, stuck s -> forall m, persist (set_records m s) = (inr (write_failed code), set_records m s)).
  { intros x (_ & H2 & H3) m. unfold persist, write_text. cbn. now rewrite H2, H3. }
  assert (Hstart : stuck (put acc rec now s).2).
  { unfold put, put_record, ebind. rewrite Hload by exact Hl. unfold persist, write_text. cbn. rewrite Hp, Hw, Hd. cbn. now split_and!. }
  assert (Hput : forall s, stuck s -> forall acc' rec' now', exists v,
    put acc' rec' now' s = (inr (write_failed code), set_records (<[acc' := v]> (records s)) s)).
  { intros x Hx acc' rec' now'. unfold put, put_record, ebind. rewrite Hload by apply Hx. rewrite Hpersist by exact Hx. eexists. reflexivity. }
  intros Hr. assert (Hstuck : stuck s').
  { remember (put acc rec now s).2 as x eqn:Ex. clear Ex. induction Hr as [|x y z Hxy _ IH]; [exact Hstart|]. apply IH.
    destruct Hxy as [a r n x|a x|a x|x f b].
    - destruct (Hput x Hstart a r n) as [v ->]. exact Hstart.
    - unfold store_delete, ebind. rewrite Hload by apply Hstart. now rewrite Hpersist.
    - unfold get, ebind. rewrite Hload by apply Hstart. exact Hstart.
    - exact Hstart. }
  intros acc' rec' now'. destruct (Hput s' Hstuck acc' rec' now') as [v Hv]. eexists. split; [exact Hv|]. split; [reflexivity|].
  cbn. rewrite lookup_insert_eq. now eexists.
Qed.

(** ** Effects of the operations *)

Section Protocol.
Context {L : OpaqueServerLib}.
Variables (serverSetup : string) (sessionTtlMs tokenTtlMs rateLimitWindowMs rateLimitAttempts : Z).
Variable random_bytes : nat -> nat -> list Z.

Abbreviation S := (throwing ServerError Protocol).
Abbreviation finish_registration := (server_finishRegistration tokenTtlMs random_bytes).
Abbreviation begin_login := (server_begin_login serverSetup sessionTtlMs rateLimitWindowMs rateLimitAttempts random_bytes).
Abbreviation end_login := (server_end_login tokenTtlMs random_bytes).

(** [quiet s s']: no token is new, and the records are those that were, once they are loaded. *)
Definition quiet (s s' : Protocol) : Prop :=
  clock s' = clock s /\ (forall tok e, tokens s' !! tok = Some e -> tokens s !! tok = Some e)
  /\ (forall acc v, store_ok (store s) -> records (store s) !! acc = Some v -> records (store s') !! acc = Some v)
  /\ (store_ok (store s) -> store_ok (store s')).

#[export] Instance quiet_preorder : PreOrder quiet.
Proof.
  split; [intros s; now split_and!|]. intros s1 s2 s3 (C1 & T1 & R1 & K1) (C2 & T2 & R2 & K2).
  split_and!; [congruence|eauto..].
Qed.

Definition quietly {A : Type} (m : S A) : Prop := forall s, quiet s (m s).2.

Lemma quietly_bind {A B : Type} (m : S A) (k : A -> S B) : quietly m -> (forall a, quietly (k a)) -> quietly (ebind m k).
Proof.
  intros Hm Hk s. unfold ebind. specialize (Hm s). destruct (m s) as [[a|e] s1]; cbn in *; [|exact Hm]. etrans; [exact Hm|apply Hk].
Qed.

Lemma quietly_lift {A : Type} (r : A + ServerError) : quietly (lift_sum r).
Proof. intros s. cbn. reflexivity. Qed.

Lemma quietly_cleanup : quietly cleanup.
Proof. intros s. cbn. split_and!; [reflexivity| |now intros|now intros]. cbn. intros tok e H. now apply map_lookup_filter_Some in H as [H _]. Qed.

Lemma quietly_draw : quietly fresh_draw.
Proof. intros s. cbn. now split_and!. Qed.

Lemma quietly_token : quietly (tokenValue random_bytes).
Proof. apply quietly_bind; [apply quietly_draw|]. intros n s. reflexivity. Qed.

Lemma load_records (s s' : Store) (r : unit + ServerError) (acc : string) (v : json) :
  load s = (r, s') -> store_ok s -> records s !! acc = Some v -> records s' !! acc = Some v.
Proof.
  intros E [_ Hl] H. destruct (loaded s) eqn:El; [|rewrite (Hl eq_refl), lookup_empty in H; discriminate H].
  apply load_spec in E as (_ & _ & _ & _ & _ & E & _). now destruct (E El) as [-> _].
Qed.

Lemma quietly_get (acc : string) : quietly (in_store (get acc)).
Proof.
  intros s. unfold in_store. destruct (get acc (store s)) as [r st] eqn:E. apply get_spec in E as [E _].
  split_and!; cbn; [reflexivity|now intros| |]; [intros a v Hok H; eapply load_records; eassumption|]. eapply load_spec, E.
Qed.

Lemma quietly_authorize (acc : string) (tok : option string) : quietly (authorizeManagement acc tok).
Proof. apply quietly_bind; [apply quietly_cleanup|]. intros _ s. reflexivity. Qed.

Lemma quietly_revoke (acc : string) : quietly (revokeManagementTokens acc).
Proof. intros s. cbn. split_and!; try now intros. cbn. intros tok e H. now apply map_lookup_filter_Some in H as [H _]. Qed.

Lemma quietly_attempt (acc : string) : quietly (consumeAttempt rateLimitWindowMs rateLimitAttempts acc).
Proof.
  apply quietly_bind; [apply quietly_cleanup|]. intros _ s. cbn. destruct (attempts s !! acc) as [c|]; [|now split_and!].
  destruct (_ <=? _); [now split_and!|]. destruct (_ <=? _); now split_and!.
Qed.

Lemma quietly_begin (acc req : option string) : quietly (begin_login acc req).
Proof.
  unfold server_begin_login, answer_login. repeat (apply quietly_bind; [first [apply quietly_lift|apply quietly_attempt|apply quietly_get|apply quietly_draw|apply quietly_token]|intros ?]).
  match goal with p : string * string |- _ => destruct p as [state response] end. apply quietly_bind; [apply quietly_token|]. intros id s. cbn. now split_and!.
Qed.

(** ** Runs of the server *)

(** The requests, the passing of time, and what happens to the disk. *)
Inductive ServerCall : Type :=
| C_startRegistration (account request : option string)
| C_finishRegistration (account record token : option string)
| C_startLogin (account request : option string)
| C_finishLogin (loginId request : option string)
| C_delete (account token : option string)
| C_wait (ms : Z)
| C_disk (f : Disk) (write_error : option string).

Inductive Reply : Type :=
| Registered (account token : string)
| LoggedIn (account token : string)
| Challenged (account : string)
| Silent.

#[export] Instance reply_eq : EqDecision Reply.
Proof. solve_decision. Defined.

Definition canonical (account : option string) : string := match account with Some a => toLowerCase (trim a) | None => "" end.

Definition at_store (f : Store -> Store) (s : Protocol) : Protocol := set_store (f (store s)) s.
Definition later (ms : Z) (s : Protocol) : Protocol :=
  mkProtocol (store s) (logins s) (tokens s) (attempts s) (clock s + Z.max 0 ms) (next_draw s).

Definition serve (c : ServerCall) (s : Protocol) : Reply * Protocol :=
  match c with
  | C_startRegistration a r => (Silent, (server_startRegistration serverSetup a r s).2)
  | C_finishRegistration a r t => match finish_registration a r t s with (inl tok, s') => (Registered (canonical a) tok, s') | (inr _, s') => (Silent, s') end
  | C_startLogin a r => match begin_login a r s with (inl _, s') => (Challenged (canonical a), s') | (inr _, s') => (Silent, s') end
  | C_finishLogin id r =>
      match end_login id r s with
      | (inl tok, s') => (LoggedIn (match logins s !! or_empty id with Some e => l_account e | None => "" end) tok, s')
      | (inr _, s') => (Silent, s')
      end
  | C_delete a t => (Silent, (server_deleteCredential a t s).2)
  | C_wait ms => (Silent, later ms s)
  | C_disk f b => (Silent, at_store (fun st => mkStore (hasPath st) f b (records st) (loaded st) (pendingWrite st)) s)
  end.

(** The replies with the time of each. *)
Inductive run : Protocol -> list (Z * Reply) -> Protocol -> Prop :=
| R_start s : run s [] s
| R_call s h s1 c : run s h s1 -> run s (h ++ [(clock s1, (serve c s1).1)]) (serve c s1).2.

(** The reply gave the token to the account. *)
Definition grants (r : Reply) (acc tok : string) : Prop := r = Registered acc tok \/ r = LoggedIn acc tok.

(** What issuing a token does. *)
Lemma issue_spec (acc : string) (s s' : Protocol) (r : string + ServerError) :
  issueManagementToken tokenTtlMs random_bytes acc s = (r, s') ->
  exists tok, r = inl tok /\ clock s' = clock s /\ store s' = store s /\ tokens s' !! tok = Some (mkTokenEntry acc (clock s + tokenTtlMs))
    /\ (forall t e, tokens s' !! t = Some e -> tokens s !! t = Some e \/ t = tok /\ e = mkTokenEntry acc (clock s + tokenTtlMs))
    /\ attempts s' = filter (fun kv => clock s < resetAt kv.2) (attempts s).
Proof.
  unfold issueManagementToken, ebind, cleanup, modify, tokenValue, fresh_draw, eret. cbn. intros [= <- <-]. cbn.
  eexists. split_and!; [reflexivity..|apply lookup_insert_eq| |reflexivity]. intros t e H.
  apply lookup_insert_Some in H as [[<- <-]|[_ H]]; [now right|]. apply map_lookup_filter_Some in H as [H _]. now left.
Qed.

(** A management token authorizes when the table has it for the account and it has not expired. *)
Lemma authorize_spec (acc : string) (tok : option string) (s s' : Protocol) (r : bool + ServerError) :
  authorizeManagement acc tok s = (r, s') ->
  quiet s s' /\ store s' = store s /\ attempts s' = filter (fun kv => clock s < resetAt kv.2) (attempts s)
  /\ exists b, r = inl b /\ (b = true -> exists t e, tok = Some t /\ tokens s !! t = Some e /\ t_account e = acc /\ clock s < t_expiresAt e).
Proof.
  intros E. split; [pose proof (quietly_authorize acc tok s) as H; now rewrite E in H|]. revert E.
  unfold authorizeManagement, ebind, cleanup, modify. cbn. intros [= <- <-]. split; [reflexivity|]. split; [reflexivity|]. eexists. split; [reflexivity|].
  intros [[t e] [Hin Ht]]%existsb_exists. apply andb_prop in Ht as [[Ha He]%andb_prop Hs]. cbn in Hin, He.
  rewrite <- list_elem_of_In in Hin. apply elem_of_map_to_list, map_lookup_filter_Some in Hin as [Hin _].
  apply String.eqb_eq in Ha. apply Z.ltb_lt in He. destruct tok as [u|]; [|discriminate Hs]. cbn in Hs. apply String.eqb_eq in Hs. subst u.
  now exists t, e.
Qed.

Lemma valid_id (id : option string) (field : string) (n : nat) (i : string) : validateOpaqueValue id field n = inl i -> or_empty id = i.
Proof.
  unfold validateOpaqueValue. destruct id as [v|]; [|discriminate]. destruct ((String.length v <? 16)%nat) eqn:Hl; [discriminate|].
  destruct (_ || _); [discriminate|]. intros [= ->]. now destruct i.
Qed.

(** A write to the store concerns one account. *)
Definition writes (acc : string) (m : throwing ServerError Store unit) : Prop :=
  forall s r s', m s = (r, s') -> (store_ok s -> store_ok s')
    /\ forall a v, store_ok s -> a <> acc -> records s !! a = Some v -> records s' !! a = Some v.

Lemma put_writes (acc rec now : string) : writes acc (put acc rec now).
Proof.
  intros s r s' H. split; [intros Hok; apply (store_ok_step s); [|exact Hok]; change s' with (r, s').2; rewrite <- H; constructor|].
  intros a v Hok Ha Hv. apply put_spec in H as [(s1 & e & E & _ & ->)|(s1 & w & E & _ & E2)]; pose proof (load_records _ _ _ a v E Hok Hv) as Hv1;
    [exact Hv1|]. apply persist_spec in E2 as (-> & _). cbn. now rewrite lookup_insert_ne.
Qed.

Lemma delete_writes (acc : string) : writes acc (store_delete acc).
Proof.
  intros s r s' H. split; [intros Hok; apply (store_ok_step s); [|exact Hok]; change s' with (r, s').2; rewrite <- H; constructor|].
  intros a v Hok Ha Hv. revert H. unfold store_delete, ebind. destruct (load s) as [[[]|e] s1] eqn:E; [|intros [= <- <-]; eapply load_records; eassumption].
  intros E2. apply persist_spec in E2 as (-> & _). cbn. rewrite lookup_delete_ne by congruence. eapply load_records; eassumption.
Qed.

(** A token that authorizes the account now. *)
Definition holds_token (s : Protocol) (acc : string) (t : option string) : Prop :=
  exists tok e, t = Some tok /\ tokens s !! tok = Some e /\ t_account e = acc /\ clock s < t_expiresAt e.

(** A step that may change the credential of one account, and needs a token when it has one. *)
Definition guarded (acc0 : string) (t : option string) (s s' : Protocol) : Prop :=
  clock s' = clock s /\ (store_ok (store s) -> store_ok (store s'))
  /\ forall acc v, store_ok (store s) -> records (store s) !! acc = Some v ->
       records (store s') !! acc = Some v \/ acc = acc0 /\ holds_token s acc t.

Lemma quiet_guarded (acc : string) (t : option string) (s s' : Protocol) : quiet s s' -> guarded acc t s s'.
Proof. intros (H1 & _ & H2 & H3). split_and!; [exact H1|exact H3|]. intros a v Hok Hv. left. now apply H2. Qed.

Lemma normalize_canonical (a : option string) (n : string) : normalizeAccount a = inl n -> n = canonical a.
Proof. unfold normalizeAccount, canonical. now destruct (ACCOUNT_PATTERN _); intros [= <-]. Qed.

Lemma write_guarded (acc : string) (t : option string) (m : throwing ServerError Store unit) (s s1 s2 : Protocol) (r : unit + ServerError) :
  writes acc m -> quiet s s1 -> (forall v, records (store s1) !! acc = Some v -> holds_token s acc t) ->
  in_store m s1 = (r, s2) -> guarded acc t s s2 /\ tokens s2 = tokens s1 /\ attempts s2 = attempts s1 /\ clock s2 = clock s1.
Proof.
  intros Hw (C & T & R & K) Ha. unfold in_store. destruct (m (store s1)) as [r1 st] eqn:E. intros [= <- <-].
  destruct (Hw _ _ _ E) as [W1 W2]. split; [|now cbn]. split_and!; cbn; [exact C|tauto|]. intros a v Hok Hv. specialize (R a v Hok Hv).
  destruct (String.eqb_spec a acc) as [->|Hne]; [right; split; [reflexivity|eapply Ha, R]|left]. apply W2; [now apply K|exact Hne|exact R].
Qed.

(** No token but the one that is granted is new. *)
Definition granted_only (acc : string) (res : string + ServerError) (s s' : Protocol) : Prop :=
  forall tok e, tokens s' !! tok = Some e -> tokens s !! tok = Some e \/ res = inl tok /\ e = mkTokenEntry acc (clock s + tokenTtlMs).

Lemma quiet_granted (acc : string) (res : string + ServerError) (s s' : Protocol) : quiet s s' -> granted_only acc res s s'.
Proof. intros (_ & T & _) tok e H. left. now apply T. Qed.

Lemma finish_registration_spec (a r t : option string) (s s' : Protocol) (res : string + ServerError) :
  finish_registration a r t s = (res, s') -> guarded (canonical a) t s s' /\ granted_only (canonical a) res s s'.
Proof.
  intros H. unfold server_finishRegistration, ebind, lift_sum in H.
  assert (Hq : forall x : Protocol, quiet s x -> (res, s') = (res, x) -> guarded (canonical a) t s s' /\ granted_only (canonical a) res s s').
  { intros x Hx [= ->]. split; [now apply quiet_guarded|now apply quiet_granted]. }
  destruct (normalizeAccount a) as [n|e] eqn:En; [|injection H as <- <-; now apply (Hq s)]. apply normalize_canonical in En as ->.
  destruct (validateOpaqueValue r _ _) as [rec|e]; [|injection H as <- <-; now apply (Hq s)].
  destruct (in_store (get (canonical a)) s) as [[existing|e] s1] eqn:Eg;
    (assert (Hs1 : quiet s s1) by (pose proof (quietly_get (canonical a) s) as Hg; now rewrite Eg in Hg)); [|injection H as <- <-; now apply (Hq s1)].
  assert (Hrec : existing = records (store s1) !! canonical a).
  { unfold in_store in Eg. destruct (get (canonical a) (store s)) as [o st] eqn:E. apply get_spec in E as [_ E].
    destruct o as [o|]; [|discriminate Eg]. injection Eg as <- <-. cbn. now apply E. }
  assert (Hauth : forall b s2, (match existing with Some _ => authorizeManagement (canonical a) t | None => eret true end) s1 = (inl b, s2) ->
    quiet s1 s2 /\ (b = true -> forall v, records (store s2) !! canonical a = Some v -> holds_token s (canonical a) t)).
  { intros b s2. destruct existing as [v|].
    - intros E. apply authorize_spec in E as (Hq2 & Hst & _ & b' & [= <-] & Hb). split; [exact Hq2|]. intros Hbt u _.
      destruct (Hb Hbt) as (tok & e & -> & Ht & Hacc & He). destruct Hs1 as (C & T & _). exists tok, e. split_and!; [reflexivity|now apply T|exact Hacc|lia].
    - intros [= <- <-]. split; [reflexivity|]. intros _ u Hu. congruence. }
  destruct ((match existing with Some _ => authorizeManagement (canonical a) t | None => eret true end) s1) as [[b|e] s2] eqn:Ea;
    [|destruct existing; [apply authorize_spec in Ea as (_ & _ & _ & b' & [=] & _)|discriminate Ea]].
  destruct (Hauth b s2 eq_refl) as [Hq2 Hb]. assert (Hs2 : quiet s s2) by (etrans; [exact Hs1|exact Hq2]).
  destruct b; cbn [negb] in H; [|injection H as <- <-; now apply (Hq s2)]. specialize (Hb eq_refl).
  destruct (in_store (put (canonical a) rec (toISOString (clock s2))) s2) as [r3 s3] eqn:Ep.
  destruct (write_guarded _ t _ _ _ _ _ (put_writes (canonical a) rec (toISOString (clock s2))) Hs2 Hb Ep) as (G & T & _ & C).
  destruct Hs2 as (C2 & T2 & _). destruct r3 as [[]|e].
  2: { injection H as <- <-. split; [exact G|]. intros tok e' He. left. apply T2. now rewrite <- T. }
  cbn [revokeManagementTokens modify] in H. apply issue_spec in H as (tok & -> & C4 & S4 & _ & T4 & _). cbn in *.
  split.
  - destruct G as (G1 & G2 & G3). split_and!; [congruence|now rewrite S4|now rewrite S4].
  - intros u e He. apply T4 in He as [He|[-> ->]].
    + left. apply T2. rewrite <- T. now apply map_lookup_filter_Some in He as [He _].
    + right. split; [reflexivity|]. f_equal. lia.
Qed.

#[local] Arguments issueManagementToken : simpl never.

Lemma finish_login_spec (id r : option string) (s s' : Protocol) (res : string + ServerError) :
  end_login id r s = (res, s') ->
  quiet s (set_tokens (tokens s) s') /\ granted_only (match logins s !! or_empty id with Some e => l_account e | None => "" end) res s s'.
Proof.
  intros H. unfold server_end_login, ebind, lift_sum, cleanup, modify in H. cbn in H.
  assert (Hq : forall x acc res, quiet s x -> quiet s (set_tokens (tokens s) x) /\ granted_only acc res s x).
  { intros x acc res' Hx. split; [|now apply quiet_granted]. destruct Hx as (H1 & _ & H2 & H3). now split_and!. }
  destruct (validateOpaqueValue id _ _) as [i|e] eqn:Ei; [|injection H as <- <-; now apply Hq].
  rewrite (valid_id _ _ _ _ Ei). destruct (validateOpaqueValue r _ _) as [req|e]; [|injection H as <- <-; now apply Hq].
  set (s1 := mkProtocol _ _ _ _ _ _) in H. assert (Hs1 : quiet s s1) by (pose proof (quietly_cleanup s) as Hc; exact Hc).
  assert (Hs2 : forall l, quiet s (set_logins l s1)) by (intros l; destruct Hs1 as (H1 & H2 & H3 & H4); now split_and!).
  destruct (filter _ (logins s) !! i) as [entry|] eqn:El; [|injection H as <- <-; exact (Hq _ _ _ (Hs2 _))].
  apply map_lookup_filter_Some in El as [El _]. rewrite El.
  destruct (l_expiresAt entry <=? clock s); [injection H as <- <-; exact (Hq _ _ _ (Hs2 _))|].
  destruct (server_finishLogin _ _ _ _); cbn [negb] in H; [|injection H as <- <-; exact (Hq _ _ _ (Hs2 _))].
  apply issue_spec in H as (tok & -> & C4 & S4 & _ & T4 & _). cbn in *. split.
  - split_and!; cbn; [exact C4|now intros|now rewrite S4|now rewrite S4].
  - intros u e He. apply T4 in He as [He|[-> ->]]; [left|now right]. now apply map_lookup_filter_Some in He as [He _].
Qed.

Lemma delete_spec (a t : option string) (s s' : Protocol) (res : unit + ServerError) :
  server_deleteCredential a t s = (res, s') -> guarded (canonical a) t s s' /\ forall tok e, tokens s' !! tok = Some e -> tokens s !! tok = Some e.
Proof.
  intros H. unfold server_deleteCredential, ebind, lift_sum in H.
  destruct (normalizeAccount a) as [n|e] eqn:En; [|injection H as <- <-; now split; [apply quiet_guarded|]]. apply normalize_canonical in En as ->.
  destruct (authorizeManagement (canonical a) t s) as [b s1] eqn:Ea. apply authorize_spec in Ea as (Hq & Hst & _ & b' & -> & Hb).
  destruct b'; cbn [negb] in H; [|injection H as <- <-; split; [now apply quiet_guarded|apply Hq]].
  destruct (in_store (store_delete (canonical a)) s1) as [r2 s2] eqn:Ed.
  destruct (Hb eq_refl) as (tok & e & Ht). pose proof (delete_writes (canonical a)) as Hw.
  destruct (write_guarded (canonical a) t _ s s1 s2 r2 Hw Hq (fun _ _ => ex_intro _ tok (ex_intro _ e Ht)) Ed) as (G & T & _ & C).
  destruct Hq as (_ & T1 & _). destruct r2 as [[]|x].
  - cbn in H. injection H as <- <-. split; [exact G|]. intros u v Hv. apply map_lookup_filter_Some in Hv as [Hv _]. apply T1. now rewrite <- T.
  - injection H as <- <-. split; [exact G|]. intros u v Hv. apply T1. now rewrite <- T.
Qed.

(** *** Credentials change hands only with a token *)

Definition presents (c : ServerCall) (acc tok : string) : Prop :=
  (exists a r, c = C_finishRegistration a r (Some tok) /\ canonical a = acc) \/ (exists a, c = C_delete a (Some tok) /\ canonical a = acc).

(** Every token of the table was granted, at the time its expiry tells. *)
Definition tokens_granted (h : list (Z * Reply)) (s : Protocol) : Prop :=
  forall tok e, tokens s !! tok = Some e -> exists t r, In (t, r) h /\ grants r (t_account e) tok /\ t_expiresAt e = t + tokenTtlMs.

Lemma quietly_start (a r : option string) : quietly (server_startRegistration serverSetup a r).
Proof. unfold server_startRegistration. apply quietly_bind; [apply quietly_lift|]. intros n. apply quietly_bind; intros ?; apply quietly_lift. Qed.

(** What a call does to the credentials, and the tokens it adds. *)
Lemma serve_spec (c : ServerCall) (s : Protocol) (r : Reply) (s' : Protocol) : serve c s = (r, s') ->
  (store_ok (store s) -> store_ok (store s'))
  /\ (forall acc v, store_ok (store s) -> records (store s) !! acc = Some v ->
        records (store s') !! acc = Some v \/ exists tok, presents c acc tok /\ holds_token s acc (Some tok))
  /\ forall tok e, tokens s' !! tok = Some e ->
       tokens s !! tok = Some e \/ grants r (t_account e) tok /\ t_expiresAt e = clock s + tokenTtlMs.
Proof.
  assert (Hquiet : forall s2 : Protocol, quiet s s2 -> (store_ok (store s) -> store_ok (store s2))
    /\ (forall acc v, store_ok (store s) -> records (store s) !! acc = Some v ->
          records (store s2) !! acc = Some v \/ exists tok, presents c acc tok /\ holds_token s acc (Some tok))
    /\ forall tok e, tokens s2 !! tok = Some e -> tokens s !! tok = Some e \/ grants r (t_account e) tok /\ t_expiresAt e = clock s + tokenTtlMs).
  { intros s2 (_ & T & R & K). split_and!; [exact K|left; eauto|left; eauto]. }
  destruct c as [a q|a q t|a q|id q|a t|ms|f b]; cbn [serve].
  - intros [= <- <-]. apply Hquiet, quietly_start.
  - destruct (finish_registration a q t s) as [[tok|e] s1] eqn:E; intros [= <- <-]; apply finish_registration_spec in E as [(_ & K & G) T].
    all: split_and!; [exact K| |intros u x Hu; destruct (T u x Hu) as [Hu'|[Hr ->]]; [now left|]].
    all: try (intros acc v Hok Hv; destruct (G acc v Hok Hv) as [Hv'|[-> (tk & x & -> & Hh)]]; [now left|right; exists tk];
      split; [left; now exists a, q|now exists tk, x]).
    + right. injection Hr as ->. split; [now left|reflexivity].
    + discriminate Hr.
  - pose proof (quietly_begin a q s) as Hb. destruct (begin_login a q s) as [[p|e] s1]; intros [= <- <-]; apply Hquiet, Hb.
  - destruct (end_login id q s) as [[tok|e] s1] eqn:E; intros [= <- <-]; apply finish_login_spec in E as [(_ & _ & R & K) T]; cbn in R, K.
    all: split_and!; [exact K|left; eauto|intros u x Hu; destruct (T u x Hu) as [Hu'|[Hr ->]]; [now left|]].
    + right. injection Hr as ->. split; [now right|reflexivity].
    + discriminate Hr.
  - destruct (server_deleteCredential a t s) as [res s1] eqn:E. intros [= <- <-]. apply delete_spec in E as [(_ & K & G) T].
    split_and!; [exact K| |left; eauto]. intros acc v Hok Hv. destruct (G acc v Hok Hv) as [Hv'|[-> (tk & x & -> & Hh)]]; [now left|].
    right. exists tk. split; [right; now exists a|now exists tk, x].
  - intros [= <- <-]. split_and!; cbn; [tauto|now left|now left].
  - intros [= <- <-]. split_and!; cbn; [tauto|now left|now left].
Qed.

(** ** Requests that run at the same time

    Every [await] of a handler is a point where other requests run.  A request is a value of
    [Pc]: where its handler waits.  [load] awaits the file once, for the request that comes
    first; the later requests find the store marked as loaded and go on.  A write waits for its
    turn in the queue of writes.  The model lets any waiting request go on next, and time and
    the disk change in between. *)

(** How far the [load] of a store method has come. *)
Inductive Reading : Type := Returned | ReadFile | FileRead (d : Disk).

Inductive Pc : Type :=
| R_get (acc rec : string) (tok : option string) (l : Reading)
| R_existing (acc rec : string) (tok : option string) (existing : option json)
| R_put (acc rec : string) (l : Reading)
| R_write (acc : string)
| R_written (acc : string) (res : unit + ServerError)
| L_get (acc req : string) (l : Reading)
| L_credential (acc req : string) (credential : option json)
| D_load (acc : string) (l : Reading)
| D_write (acc : string)
| D_written (acc : string) (res : unit + ServerError).

(** What a handler does up to its next [await]: it waits, queues a write, or replies. *)
Inductive Next : Type := Waits (pc : Pc) | Writes (pc : Pc) (text : string) | Replies (r : Reply).

(** The call of [load]: the mark is set before the file is read. *)
Definition load_start (k : Reading -> Pc) (s : Protocol) : Next * Protocol :=
  if loaded (store s) then (Waits (k Returned), s)
  else let st := load_begin (store s) in (Waits (k (if hasPath st then ReadFile else Returned)), set_store st s).

(** The rest of [load], and the method after it. *)
Definition load_step (k : Reading -> Pc) (l : Reading) (method : Protocol -> Next * Protocol) (s : Protocol) : Next * Protocol :=
  match l with
  | Returned => method s
  | ReadFile => (Waits (k (FileRead (file (store s)))), s)
  | FileRead d =>
      match load_from d (store s) with
      | (inl _, st) => (Waits (k Returned), set_store st s)
      | (inr _, st) => (Replies Silent, set_store st s)
      end
  end.

(** [persist]: the text is that of the records now. *)
Definition queue_write (writing : Pc) (written : unit + ServerError -> Pc) (s : Protocol) : Next * Protocol :=
  if negb (hasPath (store s)) then (Waits (written (inl tt)), s) else (Writes writing (snapshot (records (store s))), s).

(** A request up to its first [await]. *)
Definition arrive (c : ServerCall) (s : Protocol) : Next * Protocol :=
  match c with
  | C_finishRegistration a r t =>
      match normalizeAccount a, validateOpaqueValue r "registrationRecord" 4096 with
      | inl acc, inl rec => load_start (R_get acc rec t) s
      | _, _ => (Replies Silent, s)
      end
  | C_startLogin a r =>
      match normalizeAccount a, validateOpaqueValue r "startLoginRequest" 4096 with
      | inl acc, inl req =>
          match consumeAttempt rateLimitWindowMs rateLimitAttempts acc s with
          | (inl _, s') => load_start (L_get acc req) s'
          | (inr _, s') => (Replies Silent, s')
          end
      | _, _ => (Replies Silent, s)
      end
  | C_delete a t =>
      match normalizeAccount a with
      | inl acc =>
          match authorizeManagement acc t s with
          | (inl true, s') => load_start (D_load acc) s'
          | (_, s') => (Replies Silent, s')
          end
      | inr _ => (Replies Silent, s)
      end
  | _ => let '(r, s') := serve c s in (Replies r, s')
  end.

(** A waiting request up to its next [await]. *)
Definition resume (pc : Pc) (s : Protocol) : Next * Protocol :=
  match pc with
  | R_get acc rec t l => load_step (R_get acc rec t) l (fun s => (Waits (R_existing acc rec t (records (store s) !! acc)), s)) s
  | R_existing acc rec t (Some _) =>
      match authorizeManagement acc t s with
      | (inl true, s') => load_start (R_put acc rec) s'
      | (_, s') => (Replies Silent, s')
      end
  | R_existing acc rec t None => load_start (R_put acc rec) s
  | R_put acc rec l =>
      load_step (R_put acc rec) l
        (fun s => queue_write (R_write acc) (R_written acc) (at_store (put_record acc rec (toISOString (clock s))) s)) s
  | R_written acc (inl _) =>
      match issueManagementToken tokenTtlMs random_bytes acc (revokeManagementTokens acc s).2 with
      | (inl tok, s') => (Replies (Registered acc tok), s')
      | (inr _, s') => (Replies Silent, s')
      end
  | L_get acc req l => load_step (L_get acc req) l (fun s => (Waits (L_credential acc req (records (store s) !! acc)), s)) s
  | L_credential acc req credential =>
      match answer_login serverSetup sessionTtlMs random_bytes acc req credential s with
      | (inl _, s') => (Replies (Challenged acc), s')
      | (inr _, s') => (Replies Silent, s')
      end
  | D_load acc l =>
      load_step (D_load acc) l
        (fun s => queue_write (D_write acc) (D_written acc) (at_store (fun st => set_records (delete acc (records st)) st) s)) s
  | D_written acc (inl _) => (Replies Silent, (revokeManagementTokens acc s).2)
  | R_written _ (inr _) | D_written _ (inr _) => (Replies Silent, s)
  | R_write _ | D_write _ => (Waits pc, s)
  end.

(** The protocol, the requests that wait, each with its call and the time it came, the queue of
    writes, and the number of the next request. *)
Record Server : Type := mkServer {
  proto : Protocol; pool : gmap nat (ServerCall * Z * Pc); queue : list (nat * string); next : nat
}.

Definition settle (id : nat) (c : ServerCall) (t : Z) (x : Next * Protocol) (sv : Server) : Server :=
  match x with
  | (Waits pc, s) => mkServer s (<[id := (c, t, pc)]> (pool sv)) (queue sv) (next sv)
  | (Writes pc text, s) => mkServer s (<[id := (c, t, pc)]> (pool sv)) (queue sv ++ [(id, text)])%list (next sv)
  | (Replies _, s) => mkServer s (delete id (pool sv)) (queue sv) (next sv)
  end.

Definition reply_of (x : Next * Protocol) : list Reply := match x with (Replies r, _) => [r] | _ => [] end.

Definition written (pc : Pc) (res : unit + ServerError) : Pc :=
  match pc with R_write acc => R_written acc res | D_write acc => D_written acc res | _ => pc end.

Definition is_request (c : ServerCall) : bool := match c with C_wait _ | C_disk _ _ => false | _ => true end.

Inductive Label : Type := Arrives (c : ServerCall) | Resumes (id : nat) | WriteDone | Outside (c : ServerCall).

(** A step of the server and the replies it gives. *)
Inductive step : Server -> Label -> list Reply -> Server -> Prop :=
| St_arrive sv c : is_request c = true ->
    step sv (Arrives c) (reply_of (arrive c (proto sv)))
      (settle (next sv) c (clock (proto sv)) (arrive c (proto sv)) (mkServer (proto sv) (pool sv) (queue sv) (Datatypes.S (next sv))))
| St_resume sv id c t pc : pool sv !! id = Some (c, t, pc) ->
    step sv (Resumes id) (reply_of (resume pc (proto sv))) (settle id c t (resume pc (proto sv)) sv)
| St_write sv id text q c t pc : queue sv = (id, text) :: q -> pool sv !! id = Some (c, t, pc) ->
    step sv WriteDone []
      (mkServer (set_store (write_text text (store (proto sv))).2 (proto sv))
         (<[id := (c, t, written pc (write_text text (store (proto sv))).1)]> (pool sv)) q (next sv))
| St_outside sv c : is_request c = false ->
    step sv (Outside c) [] (mkServer (serve c (proto sv)).2 (pool sv) (queue sv) (next sv)).

Definition new_server (path : bool) (f : Disk) (now : Z) : Server := mkServer (new_protocol (new_store path f) now) ∅ [] 0.

(** Runs of the server, with the replies and their times, and the requests that came when the
    account [A] had a credential in memory, which it has had ever since. *)
Section Watched.
Variable A : string.

Definition held (sv : Server) : bool := match records (store (proto sv)) !! A with Some _ => true | None => false end.

Inductive watched (path : bool) (f : Disk) (now : Z) : list (Z * Reply) -> gset nat -> Server -> Prop :=
| W_start : watched path f now [] ∅ (new_server path f now)
| W_step h F sv l rs sv' : watched path f now h F sv -> step sv l rs sv' ->
    watched path f now (h ++ map (pair (clock (proto sv))) rs)%list
      (if held sv' then match l with Arrives _ => if held sv then F ∪ {[next sv]} else F | _ => F end else ∅) sv'.

(** What a segment leaves as it was. *)
Definition keeps (s : Protocol) (x : Next * Protocol) : Prop :=
  clock x.2 = clock s /\ (loaded (store s) = true -> loaded (store x.2) = true)
  /\ forall tok e, tokens x.2 !! tok = Some e ->
       tokens s !! tok = Some e \/ exists r, reply_of x = [r] /\ grants r (t_account e) tok /\ t_expiresAt e = clock s + tokenTtlMs.

Lemma keeps_same (n : Next) (s s' : Protocol) :
  clock s' = clock s -> (loaded (store s) = true -> loaded (store s') = true) ->
  (forall tok e, tokens s' !! tok = Some e -> tokens s !! tok = Some e) -> keeps s (n, s').
Proof. intros H1 H2 H3. split_and!; [exact H1|exact H2|]. intros tok e H. left. now apply H3. Qed.

Lemma keeps_after (s s1 : Protocol) (x : Next * Protocol) :
  clock s1 = clock s -> (loaded (store s) = true -> loaded (store s1) = true) ->
  (forall tok e, tokens s1 !! tok = Some e -> tokens s !! tok = Some e) -> keeps s1 x -> keeps s x.
Proof.
  intros C1 L1 T1 (C & Lx & T). split_and!; [congruence|auto|]. intros tok e H. destruct (T tok e H) as [H'|H']; [left; auto|right].
  now rewrite <- C1.
Qed.

Lemma load_start_keeps (k : Reading -> Pc) (s : Protocol) : keeps s (load_start k s).
Proof. unfold load_start. destruct (loaded (store s)); now apply keeps_same. Qed.

Lemma load_start_loaded (k : Reading -> Pc) (s : Protocol) : loaded (store s) = true -> load_start k s = (Waits (k Returned), s).
Proof. intros H. unfold load_start. now rewrite H. Qed.

Lemma load_from_keeps (d : Disk) (st : Store) : loaded (load_from d st).2 = loaded st.
Proof. destruct d as [|code|text]; [reflexivity..|]. cbn. now destruct (parse_store text). Qed.

Lemma load_step_keeps (k : Reading -> Pc) (l : Reading) (m : Protocol -> Next * Protocol) (s : Protocol) :
  (forall s, keeps s (m s)) -> keeps s (load_step k l m s).
Proof.
  intros Hm. destruct l as [| |d]; cbn [load_step]; [apply Hm|now apply keeps_same|].
  pose proof (load_from_keeps d (store s)) as Hl. destruct (load_from d (store s)) as [[u|e] st]; cbn in Hl;
    apply keeps_same; try easy; cbn; congruence.
Qed.

Lemma queue_keeps (writing : Pc) (wr : unit + ServerError -> Pc) (g : Store -> Store) (s : Protocol) :
  (forall st, loaded (g st) = loaded st) -> keeps s (queue_write writing wr (at_store g s)).
Proof. intros Hg. unfold queue_write. destruct (negb _); apply keeps_same; try easy; cbn; now rewrite Hg. Qed.

Lemma authorize_keeps (acc : string) (t : option string) (s s' : Protocol) (r : bool + ServerError) :
  authorizeManagement acc t s = (r, s') ->
  clock s' = clock s /\ store s' = store s /\ (forall tok e, tokens s' !! tok = Some e -> tokens s !! tok = Some e)
  /\ (r = inl true -> holds_token s acc t).
Proof.
  intros E. apply authorize_spec in E as ((C & T & _) & St & _ & b & -> & Hb). split_and!; [exact C|exact St|exact T|].
  intros [= ->]. destruct (Hb eq_refl) as (tok & e & H). now exists tok, e.
Qed.

Lemma answer_login_keeps (acc req : string) (cr : option json) (s : Protocol) :
  let s' := (answer_login serverSetup sessionTtlMs random_bytes acc req cr s).2 in
  clock s' = clock s /\ store s' = store s /\ tokens s' = tokens s.
Proof.
  unfold answer_login, library, ebind, fresh_draw, lift_sum. cbn.
  destruct (server_startLogin _ _ _ _ _ _ _) as [[state response]|]; cbn; now split_and!.
Qed.

Lemma resume_keeps (pc : Pc) (s : Protocol) : keeps s (resume pc s).
Proof.
  destruct pc as [acc rec t l|acc rec t ex|acc rec l|acc|acc res|acc req l|acc req cr|acc l|acc|acc res]; cbn [resume].
  - apply load_step_keeps. intros s1. now apply keeps_same.
  - destruct ex as [v|]; [|apply load_start_keeps].
    destruct (authorizeManagement acc t s) as [b s1] eqn:E. apply authorize_keeps in E as (C & St & T & _).
    assert (Hs : loaded (store s) = true -> loaded (store s1) = true) by now rewrite St.
    destruct b as [[]|]; [|now apply keeps_same..]. apply (keeps_after s s1); auto. apply load_start_keeps.
  - apply load_step_keeps. intros s1. now apply queue_keeps.
  - now apply keeps_same.
  - destruct res as [u|e]; [|now apply keeps_same].
    destruct (issueManagementToken tokenTtlMs random_bytes acc (revokeManagementTokens acc s).2) as [r s1] eqn:E.
    apply issue_spec in E as (tok & -> & C & St & _ & T & _). cbn in C, St. split_and!; [exact C|cbn; now rewrite St|].
    intros u' e He. cbn in He. apply T in He as [He|[-> ->]].
    + left. cbn in He. now apply map_lookup_filter_Some in He as [He _].
    + right. eexists. split; [reflexivity|]. split; [now left|reflexivity].
  - apply load_step_keeps. intros s1. now apply keeps_same.
  - destruct (answer_login_keeps acc req cr s) as (C & St & T).
    destruct (answer_login _ _ _ acc req cr s) as [[p|e] s1]; cbn in C, St, T; (apply keeps_same; [exact C|now rewrite St|now rewrite T]).
  - apply load_step_keeps. intros s1. now apply queue_keeps.
  - now apply keeps_same.
  - destruct res as [u|e]; [|now apply keeps_same]. apply keeps_same; [reflexivity|easy|]. intros tok e H. cbn in H.
    now apply map_lookup_filter_Some in H as [H _].
Qed.

Lemma attempt_keeps (acc : string) (s s' : Protocol) (r : unit + ServerError) :
  consumeAttempt rateLimitWindowMs rateLimitAttempts acc s = (r, s') ->
  clock s' = clock s /\ store s' = store s /\ (forall tok e, tokens s' !! tok = Some e -> tokens s !! tok = Some e).
Proof.
  intros E. pose proof (quietly_attempt acc s) as (C & T & _ & _). rewrite E in C, T. split; [exact C|]. split; [|exact T].
  revert E. unfold consumeAttempt, ebind, cleanup, modify. cbn. destruct (filter _ (attempts s) !! acc) as [x|]; [|now intros [= _ <-]].
  destruct (_ <=? _); [now intros [= _ <-]|]. destruct (_ <=? _); now intros [= _ <-].
Qed.

(** The calls whose handlers await nothing but their own computation do not touch the store. *)
Lemma direct_store (c : ServerCall) (s : Protocol) : match c with C_startRegistration _ _ | C_finishLogin _ _ => store (serve c s).2 = store s /\ clock (serve c s).2 = clock s | _ => True end.
Proof.
  destruct c as [a r| | |id r| | |]; try exact I; cbn [serve].
  - unfold server_startRegistration, ebind, lift_sum. destruct (normalizeAccount a); [|easy]. destruct (validateOpaqueValue r _ _); easy.
  - destruct (end_login id r s) as [res s1] eqn:H.
    assert (G : store s1 = store s /\ clock s1 = clock s).
    { unfold server_end_login, ebind, lift_sum, cleanup, modify in H. cbn in H.
      destruct (validateOpaqueValue id _ _) as [i|e]; [|now injection H as _ <-].
      destruct (validateOpaqueValue r _ _) as [req|e]; [|now injection H as _ <-].
      destruct (filter _ (logins s) !! i) as [entry|]; [|now injection H as _ <-].
      destruct (_ <=? _); [now injection H as _ <-|]. destruct (server_finishLogin _ _ _ _); cbn [negb] in H; [|now injection H as _ <-].
      apply issue_spec in H as (tok & _ & C & St & _). now split. }
    now destruct res.
Qed.

Lemma arrive_keeps (c : ServerCall) (s : Protocol) : is_request c = true -> keeps s (arrive c s).
Proof.
  intros Hr. assert (Hd : forall c, match c with C_startRegistration _ _ | C_finishLogin _ _ => True | _ => False end ->
    keeps s (let '(r, s') := serve c s in (Replies r, s'))).
  { intros c' Hc. pose proof (direct_store c' s) as Hs. destruct (serve c' s) as [r s'] eqn:E.
    pose proof (serve_spec c' s r s' E) as (_ & _ & T). destruct c'; try contradiction; destruct Hs as [St C]; cbn in St, C.
    all: split_and!; [exact C|now rewrite <- St|]; intros tok e He; destruct (T tok e He) as [?|?]; [now left|right; now exists r]. }
  destruct c as [a r|a r t|a r|id r|a t|ms|f b]; cbn [arrive]; try discriminate Hr; try (now apply Hd).
  - destruct (normalizeAccount a); [|now apply keeps_same]. destruct (validateOpaqueValue r _ _); [|now apply keeps_same]. apply load_start_keeps.
  - destruct (normalizeAccount a) as [acc|]; [|now apply keeps_same]. destruct (validateOpaqueValue r _ _); [|now apply keeps_same].
    destruct (consumeAttempt _ _ acc s) as [[u|e] s1] eqn:E; apply attempt_keeps in E as (C & St & T).
    + apply (keeps_after s s1); auto; [now rewrite St|]. apply load_start_keeps.
    + apply keeps_same; auto. now rewrite St.
  - destruct (normalizeAccount a) as [acc|]; [|now apply keeps_same].
    destruct (authorizeManagement acc t s) as [b s1] eqn:E. apply authorize_keeps in E as (C & St & T & _).
    destruct b as [[]|]; [|apply keeps_same; auto; now rewrite St..]. apply (keeps_after s s1); auto; [now rewrite St|]. apply load_start_keeps.
Qed.

(** A request of the call [c], which came at [t0], presented a token that was granted to the
    account and had not expired at a moment since. *)
Definition permitted (h : list (Z * Reply)) (c : ServerCall) (t0 now : Z) (acc : string) : Prop :=
  exists tok t r tau, presents c acc tok /\ In (t, r) h /\ grants r acc tok /\ t0 <= tau <= now /\ tau < t + tokenTtlMs.

(** A request that came when [A] had a credential in memory. *)
Definition good (h : list (Z * Reply)) (now : Z) (c : ServerCall) (t0 : Z) (pc : Pc) : Prop :=
  t0 <= now /\
  match pc with
  | R_get acc _ t l => l = Returned /\ exists a r, c = C_finishRegistration a r t /\ canonical a = acc
  | R_existing acc _ t existing => (exists a r, c = C_finishRegistration a r t /\ canonical a = acc) /\ (acc = A -> existing <> None)
  | R_put acc _ l | D_load acc l => l = Returned /\ (acc = A -> permitted h c t0 now acc)
  | L_get _ _ l => l = Returned
  | _ => True
  end.

Lemma good_later (h h' : list (Z * Reply)) (now now' : Z) (c : ServerCall) (t0 : Z) (pc : Pc) :
  incl h h' -> now <= now' -> good h now c t0 pc -> good h' now' c t0 pc.
Proof.
  intros Hh Hn [Ht Hp]. split; [lia|].
  assert (Hm : forall acc, permitted h c t0 now acc -> permitted h' c t0 now' acc).
  { intros acc (tok & t & r & tau & H1 & H2 & H3 & H4 & H5). exists tok, t, r, tau. split_and!; [exact H1|now apply Hh|exact H3|lia|lia|exact H5]. }
  destruct pc; try exact Hp; destruct Hp as [Hp1 Hp2]; split; auto.
Qed.

Record inv (h : list (Z * Reply)) (F : gset nat) (sv : Server) : Prop := {
  inv_loaded : loaded (store (proto sv)) = false -> records (store (proto sv)) = ∅ /\ pool sv = ∅;
  inv_tokens : tokens_granted h (proto sv);
  inv_held : forall id, id ∈ F -> held sv = true;
  inv_good : forall id c t pc, id ∈ F -> pool sv !! id = Some (c, t, pc) -> good h (clock (proto sv)) c t pc
}.

Lemma token_permits (h : list (Z * Reply)) (c : ServerCall) (t0 : Z) (acc : string) (tok : option string) (s : Protocol) :
  tokens_granted h s -> t0 <= clock s -> holds_token s acc tok -> (forall t, tok = Some t -> presents c acc t) -> permitted h c t0 (clock s) acc.
Proof.
  intros Hg Ht (t & e & -> & He & <- & Hx) Hp. destruct (Hg t e He) as (t1 & r & Hin & Hgr & Hexp).
  exists t, t1, r, (clock s). split_and!; [now apply Hp|exact Hin|exact Hgr|exact Ht|lia|lia].
Qed.

(** Arrivals leave the records; what waits has marked the store as loaded. *)
Lemma load_start_spec (k : Reading -> Pc) (s : Protocol) :
  records (store (load_start k s).2) = records (store s) /\ loaded (store (load_start k s).2) = true.
Proof. unfold load_start. now destruct (loaded (store s)) eqn:E. Qed.

Lemma arrive_store (c : ServerCall) (s : Protocol) : is_request c = true ->
  records (store (arrive c s).2) = records (store s)
  /\ match (arrive c s).1 with Replies _ => True | _ => loaded (store (arrive c s).2) = true end
  /\ (loaded (store (arrive c s).2) = false -> loaded (store s) = false).
Proof.
  intros Hr. assert (Hsame : forall r s', store s' = store s -> let x := (Replies r, s') in
    records (store x.2) = records (store s) /\ match x.1 with Replies _ => True | _ => loaded (store x.2) = true end
    /\ (loaded (store x.2) = false -> loaded (store s) = false)) by (intros r s' E; cbn; rewrite E; auto).
  assert (Hload : forall k s', store s' = store s -> let x := load_start k s' in
    records (store x.2) = records (store s) /\ match x.1 with Replies _ => True | _ => loaded (store x.2) = true end
    /\ (loaded (store x.2) = false -> loaded (store s) = false)).
  { intros k s' E. destruct (load_start_spec k s') as [E1 E2]. cbv zeta. rewrite E1, E2, E. split_and!; [reflexivity| |discriminate].
    now destruct (load_start k s').1. }
  pose proof (direct_store c s) as Hd.
  destruct c as [a r|a r t|a r|id r|a t|ms|f b]; cbn [arrive]; try discriminate Hr.
  - destruct (serve _ s) as [q s']. now apply Hsame.
  - destruct (normalizeAccount a); [|now apply Hsame]. destruct (validateOpaqueValue r _ _); [now apply Hload|now apply Hsame].
  - destruct (normalizeAccount a) as [acc|]; [|now apply Hsame]. destruct (validateOpaqueValue r _ _); [|now apply Hsame].
    destruct (consumeAttempt _ _ acc s) as [[u|e] s1] eqn:E; apply attempt_keeps in E as (_ & St & _); [now apply Hload|now apply Hsame].
  - destruct (serve _ s) as [q s']. now apply Hsame.
  - destruct (normalizeAccount a) as [acc|]; [|now apply Hsame].
    destruct (authorizeManagement acc t s) as [b s1] eqn:E. apply authorize_keeps in E as (_ & St & _).
    destruct b as [[]|]; [now apply Hload|now apply Hsame..].
Qed.

Lemma arrive_good (h : list (Z * Reply)) (c : ServerCall) (s : Protocol) (pc : Pc) : is_request c = true ->
  loaded (store s) = true -> tokens_granted h s -> (arrive c s).1 = Waits pc -> good h (clock s) c (clock s) pc.
Proof.
  intros Hr Hl Hg. destruct c as [a r|a r t|a r|id r|a t|ms|f b]; cbn [arrive]; try discriminate Hr; try (destruct (serve _ s); discriminate).
  - destruct (normalizeAccount a) as [acc|] eqn:En; [|discriminate]. apply normalize_canonical in En as ->.
    destruct (validateOpaqueValue r _ _); [|discriminate]. rewrite load_start_loaded by exact Hl. intros [= <-].
    split; [lia|]. split; [reflexivity|]. now exists a, r.
  - destruct (normalizeAccount a) as [acc|]; [|discriminate]. destruct (validateOpaqueValue r _ _); [|discriminate].
    destruct (consumeAttempt _ _ acc s) as [[u|e] s1] eqn:E; [|discriminate]. apply attempt_keeps in E as (_ & St & _).
    rewrite load_start_loaded by now rewrite St. intros [= <-]. split; [lia|reflexivity].
  - destruct (normalizeAccount a) as [acc|] eqn:En; [|discriminate]. apply normalize_canonical in En as ->.
    destruct (authorizeManagement _ t s) as [b s1] eqn:E. apply authorize_keeps in E as (_ & St & _ & Hb). destruct b as [[]|]; try discriminate.
    rewrite load_start_loaded by now rewrite St. intros [= <-]. split; [lia|]. split; [reflexivity|]. intros _.
    apply (token_permits h _ _ _ t s); [exact Hg|lia|now apply Hb|]. intros u ->. right. now exists a.
Qed.

(** A request that holds on to what it was given goes on so, and only a write changes the record. *)
Definition next_good (h : list (Z * Reply)) (now : Z) (c : ServerCall) (t0 : Z) (n : Next) : Prop :=
  match n with Waits pc | Writes pc _ => good h now c t0 pc | Replies _ => True end.

Lemma resume_good (h : list (Z * Reply)) (c : ServerCall) (t0 : Z) (pc : Pc) (s : Protocol) :
  loaded (store s) = true -> tokens_granted h s -> (exists v, records (store s) !! A = Some v) -> good h (clock s) c t0 pc ->
  next_good h (clock s) c t0 (resume pc s).1
  /\ (records (store (resume pc s).2) !! A = records (store s) !! A \/ permitted h c t0 (clock s) A).
Proof.
  intros Hl Hg [v Hv] [Ht Hpc].
  destruct pc as [acc rec t l|acc rec t ex|acc rec l|acc|acc res|acc req l|acc req cr|acc l|acc|acc res]; cbn [resume].
  - destruct Hpc as [-> Hc]. cbn [load_step fst snd next_good]. split; [|now left]. split; [exact Ht|]. split; [exact Hc|].
    intros ->. rewrite Hv. discriminate.
  - destruct Hpc as [(a & r & -> & <-) Hex]. destruct ex as [x|].
    + destruct (authorizeManagement (canonical a) t s) as [b s1] eqn:E. apply authorize_keeps in E as (C & St & _ & Hb).
      destruct b as [[]|]; cbn [fst snd next_good]; [|rewrite St; auto..]. rewrite load_start_loaded by now rewrite St. cbn [fst snd next_good].
      rewrite St. split; [|now left]. split; [exact Ht|]. split; [reflexivity|]. intros _.
      apply (token_permits h _ _ _ t s); [exact Hg|exact Ht|now apply Hb|]. intros u ->. left. now exists a, r.
    + rewrite load_start_loaded by exact Hl. cbn [fst snd next_good]. split; [|now left]. split; [exact Ht|]. split; [reflexivity|].
      intros E. now elim (Hex E).
  - destruct Hpc as [-> Hp]. cbn [load_step]. split.
    + unfold queue_write. destruct (negb _); (split; [exact Ht|exact I]).
    + destruct (String.eqb_spec acc A) as [E|Hne]; [right; subst acc; now apply Hp|left].
      unfold queue_write. destruct (negb _); cbn; now rewrite lookup_insert_ne.
  - split; [split; [exact Ht|exact I]|now left].
  - destruct res as [u|e]; [|split; [exact I|now left]].
    destruct (issueManagementToken _ _ acc _) as [q s1] eqn:E. apply issue_spec in E as (tok & -> & _ & St & _). cbn in *. rewrite St. auto.
  - cbn in Hpc. subst l. cbn [load_step]. split; [split; [exact Ht|exact I]|now left].
  - destruct (answer_login_keeps acc req cr s) as (_ & St & _). destruct (answer_login _ _ _ acc req cr s) as [[p|e] s1]; cbn in *; rewrite St; auto.
  - destruct Hpc as [-> Hp]. cbn [load_step]. split.
    + unfold queue_write. destruct (negb _); (split; [exact Ht|exact I]).
    + destruct (String.eqb_spec acc A) as [E|Hne]; [right; subst acc; now apply Hp|left].
      unfold queue_write. destruct (negb _); cbn; now rewrite lookup_delete_ne.
  - split; [split; [exact Ht|exact I]|now left].
  - destruct res as [u|e]; (split; [exact I|now left]).
Qed.

Lemma tokens_later (h : list (Z * Reply)) (s : Protocol) (x : Next * Protocol) :
  tokens_granted h s -> keeps s x -> tokens_granted (h ++ map (pair (clock s)) (reply_of x))%list x.2.
Proof.
  intros Hg (_ & _ & T) tok e He. destruct (T tok e He) as [He'|(r & Hr & Hgr & Hx)].
  - destruct (Hg tok e He') as (t & q & Hin & H). exists t, q. split; [apply in_or_app; now left|exact H].
  - exists (clock s), r. split; [apply in_or_app; right; rewrite Hr; now left|now split].
Qed.

Lemma settle_proto (id : nat) (c : ServerCall) (t : Z) (x : Next * Protocol) (sv : Server) : proto (settle id c t x sv) = x.2.
Proof. now destruct x as [[pc|pc text|r] s]. Qed.

Lemma settle_pool (id : nat) (c : ServerCall) (t : Z) (x : Next * Protocol) (sv : Server) (i : nat) (y : ServerCall * Z * Pc) :
  pool (settle id c t x sv) !! i = Some y ->
  i <> id /\ pool sv !! i = Some y \/ i = id /\ exists pc, y = (c, t, pc) /\ (x.1 = Waits pc \/ exists text, x.1 = Writes pc text).
Proof.
  destruct x as [[pc|pc text|r] s]; cbn [settle pool fst]; intros H.
  1,2: apply lookup_insert_Some in H as [[<- <-]|[Hne H]]; [right; split; [reflexivity|]; exists pc; split; [reflexivity|eauto]|left; split; [congruence|exact H]].
  apply lookup_delete_Some in H as [Hne H]. left. split; [congruence|exact H].
Qed.

Lemma held_spec (sv : Server) : held sv = true <-> exists v, records (store (proto sv)) !! A = Some v.
Proof. unfold held. destruct (records _ !! A); split; try easy; [intros _; eauto|now intros [v H]]. Qed.

Lemma inv_arrive (h : list (Z * Reply)) (F : gset nat) (sv : Server) (c : ServerCall) : is_request c = true -> inv h F sv ->
  let x := arrive c (proto sv) in
  let sv' := settle (next sv) c (clock (proto sv)) x (mkServer (proto sv) (pool sv) (queue sv) (Datatypes.S (next sv))) in
  inv (h ++ map (pair (clock (proto sv))) (reply_of x))%list
      (if held sv' then if held sv then F ∪ {[next sv]} else F else ∅) sv'.
Proof.
  intros Hr [I1 I2 I3 I4] x sv'. pose proof (arrive_keeps c (proto sv) Hr) as Hk. pose proof Hk as (C & _ & _).
  destruct (arrive_store c (proto sv) Hr) as (Er & Hw & Hl). fold x in Hk, C, Er, Hw, Hl.
  assert (Ep : proto sv' = x.2) by apply settle_proto.
  assert (Eh : held sv' = held sv) by (unfold held; rewrite Ep; now rewrite Er).
  split.
  - rewrite Ep, Er. intros Hl'. specialize (Hl Hl'). destruct (I1 Hl) as [E1 E2]. split; [exact E1|]. unfold sv'.
    destruct x as [[pc|pc text|r] s]; cbn in Hw, Hl'; [congruence..|]. cbn. now rewrite E2, delete_empty.
  - rewrite Ep. now apply tokens_later.
  - intros id. rewrite Eh. destruct (held sv); [reflexivity|]. set_solver.
  - intros id c' t pc. rewrite Eh. destruct (held sv) eqn:Hh; [|set_solver]. intros Hin Hp.
    assert (Hload : loaded (store (proto sv)) = true).
    { destruct (loaded (store (proto sv))) eqn:El; [reflexivity|]. apply held_spec in Hh as [v Hv]. destruct (I1 eq_refl) as [E _].
      rewrite E, lookup_empty in Hv. discriminate. }
    rewrite Ep, C. apply (good_later h _ (clock (proto sv)) _); [intros y Hy; apply in_or_app; now left|lia|].
    apply settle_pool in Hp as [[Hne Hp]|[-> (pc' & [= -> -> ->] & Hx)]].
    + apply elem_of_union in Hin as [Hin|Hin%elem_of_singleton]; [|contradiction]. now apply (I4 id).
    + destruct Hx as [Hx|[text Hx]]; [now apply arrive_good|]. exfalso.
      assert (Hno : forall k s, (load_start k s).1 <> Writes pc' text) by (intros k s; unfold load_start; now destruct (loaded (store s))).
      revert Hx. unfold x. destruct c; cbn [arrive]; try (destruct (serve _ (proto sv)); discriminate).
      * destruct (normalizeAccount account); [|discriminate]. destruct (validateOpaqueValue record _ _); [apply Hno|discriminate].
      * destruct (normalizeAccount account); [|discriminate]. destruct (validateOpaqueValue request _ _); [|discriminate].
        destruct (consumeAttempt _ _ _ _) as [[]]; [apply Hno|discriminate].
      * destruct (normalizeAccount account); [|discriminate]. destruct (authorizeManagement _ _ _) as [[[]|]]; try discriminate. apply Hno.
Qed.

Lemma inv_resume (h : list (Z * Reply)) (F : gset nat) (sv : Server) (id : nat) (c : ServerCall) (t : Z) (pc : Pc) :
  pool sv !! id = Some (c, t, pc) -> inv h F sv ->
  let x := resume pc (proto sv) in
  let sv' := settle id c t x sv in
  inv (h ++ map (pair (clock (proto sv))) (reply_of x))%list (if held sv' then F else ∅) sv'.
Proof.
  intros Hpool [I1 I2 I3 I4] x sv'. pose proof (resume_keeps pc (proto sv)) as Hk. pose proof Hk as (C & Lk & _). fold x in Hk, C, Lk.
  assert (Ep : proto sv' = x.2) by apply settle_proto.
  assert (Hload : loaded (store (proto sv)) = true).
  { destruct (loaded (store (proto sv))) eqn:El; [reflexivity|]. destruct (I1 eq_refl) as [_ E]. rewrite E, lookup_empty in Hpool. discriminate. }
  split.
  - rewrite Ep, (Lk Hload). discriminate.
  - rewrite Ep. now apply tokens_later.
  - intros i. destruct (held sv'); [reflexivity|set_solver].
  - intros i c' t' pc'. destruct (held sv'); [|set_solver]. intros Hin Hp.
    rewrite Ep, C. apply (good_later h _ (clock (proto sv)) _); [intros y Hy; apply in_or_app; now left|lia|].
    apply settle_pool in Hp as [[Hne Hp]|[-> (pc2 & [= -> -> ->] & Hx)]]; [now apply (I4 i)|].
    destruct (resume_good h c t pc (proto sv) Hload I2) as [Hn _].
    + apply held_spec. now apply (I3 id).
    + now apply (I4 id).
    + fold x in Hn. destruct Hx as [Hx|[text Hx]]; now rewrite Hx in Hn.
Qed.

Lemma write_text_store (text : string) (st : Store) :
  records (write_text text st).2 = records st /\ loaded (write_text text st).2 = loaded st.
Proof. unfold write_text. now destruct (pendingWrite st), (write_error st). Qed.

Lemma inv_watched (path : bool) (f : Disk) (now : Z) (h : list (Z * Reply)) (F : gset nat) (sv : Server) :
  watched path f now h F sv -> inv h F sv.
Proof.
  induction 1 as [|h F sv l rs sv' _ IH Hs].
  - split; [easy| |set_solver|set_solver]. intros tok e He. cbn in He. now rewrite lookup_empty in He.
  - destruct Hs as [sv c Hr|sv id c t pc Hp|sv id text q c t pc Hq Hp|sv c Hr].
    + now apply inv_arrive.
    + now apply inv_resume.
    + destruct IH as [I1 I2 I3 I4]. destruct (write_text_store text (store (proto sv))) as [Er El]. rewrite app_nil_r.
      match goal with |- inv _ (if held ?s then _ else _) _ => assert (Eh : held s = held sv) by (unfold held; cbn; now rewrite Er) end.
      rewrite Eh. split; cbn.
      * rewrite El, Er. intros Hl. destruct (I1 Hl) as [_ E]. rewrite E, lookup_empty in Hp. discriminate.
      * exact I2.
      * intros i. unfold held. cbn. rewrite Er. fold (held sv). destruct (held sv); [reflexivity|set_solver].
      * intros i c' t' pc'. destruct (held sv); [|set_solver]. intros Hin Hi. apply lookup_insert_Some in Hi as [[<- [= <- <- <-]]|[_ Hi]].
        -- specialize (I4 id c t pc Hin Hp). destruct pc; try exact I4; (split; [apply I4|exact I]).
        -- now apply (I4 i).
    + destruct IH as [I1 I2 I3 I4]. destruct c; try discriminate Hr; rewrite app_nil_r; cbn [serve snd];
        match goal with |- inv _ (if held ?s then _ else _) _ => assert (Eh : held s = held sv) by reflexivity; rewrite Eh end.
      all: split; cbn; [exact I1|exact I2|intros i; destruct (held sv) eqn:Hh; [intros _; exact Hh|set_solver]|].
      all: intros i c' t' pc'; destruct (held sv); [|set_solver]; intros Hin Hi.
      * apply (good_later h _ (clock (proto sv)) _); [apply incl_refl|lia|now apply (I4 i)].
      * now apply (I4 i).
Qed.

(** C23: However requests interleave at their awaits, only a request replaces or deletes the credential that
    an account has in memory; and a request that came when the account had one, which it has had
    ever since, does so only after it presented a management token that the server gave for this
    account, in a registration or a login, less than the lifetime of a token before.  (A request
    that comes before the file has been read, or after it could not be read, needs none.) *)
Theorem takeover_needs_token (path : bool) (f : Disk) (now : Z) (h : list (Z * Reply)) (F : gset nat) (sv sv' : Server)
    (l : Label) (rs : list Reply) (v : json) :
  watched path f now h F sv -> step sv l rs sv' ->
  records (store (proto sv)) !! A = Some v -> records (store (proto sv')) !! A <> Some v ->
  exists id c t0 pc, l = Resumes id /\ pool sv !! id = Some (c, t0, pc)
    /\ (id ∈ F -> exists tok t r tau, presents c A tok /\ In (t, r) h /\ grants r A tok
                   /\ t0 <= tau <= clock (proto sv) /\ tau < t + tokenTtlMs).
Proof.
  intros Hw Hs Hv Hne. apply inv_watched in Hw as [I1 I2 I3 I4].
  destruct Hs as [sv c Hr|sv id c t pc Hp|sv id text q c t pc Hq Hp|sv c Hr].
  - exfalso. apply Hne. rewrite settle_proto. destruct (arrive_store c (proto sv) Hr) as (-> & _). exact Hv.
  - exists id, c, t, pc. split; [reflexivity|]. split; [exact Hp|]. intros Hin. rewrite settle_proto in Hne.
    assert (Hload : loaded (store (proto sv)) = true).
    { destruct (loaded (store (proto sv))) eqn:El; [reflexivity|]. destruct (I1 eq_refl) as [_ E]. rewrite E, lookup_empty in Hp. discriminate. }
    destruct (resume_good h c t pc (proto sv) Hload I2 (ex_intro _ v Hv) (I4 _ _ _ _ Hin Hp)) as [_ [E|H]]; [|exact H].
    now rewrite E in Hne.
  - exfalso. apply Hne. cbn. now destruct (write_text_store text (store (proto sv))) as [-> _].
  - exfalso. apply Hne. now destruct c.
Qed.

(** The step of a label, where it has one. *)
Definition perform (l : Label) (sv : Server) : option (list Reply * Server) :=
  match l with
  | Arrives c =>
      if is_request c then
        let x := arrive c (proto sv) in
        Some (reply_of x, settle (next sv) c (clock (proto sv)) x (mkServer (proto sv) (pool sv) (queue sv) (Datatypes.S (next sv))))
      else None
  | Resumes id =>
      match pool sv !! id with
      | Some (c, t, pc) => let x := resume pc (proto sv) in Some (reply_of x, settle id c t x sv)
      | None => None
      end
  | WriteDone =>
      match queue sv with
      | (id, text) :: q =>
          match pool sv !! id with
          | Some (c, t, pc) =>
              let w := write_text text (store (proto sv)) in
              Some ([], mkServer (set_store w.2 (proto sv)) (<[id := (c, t, written pc w.1)]> (pool sv)) q (next sv))
          | None => None
          end
      | [] => None
      end
  | Outside c => if is_request c then None else Some ([], mkServer (serve c (proto sv)).2 (pool sv) (queue sv) (next sv))
  end.

Lemma perform_step (l : Label) (sv sv' : Server) (rs : list Reply) : perform l sv = Some (rs, sv') -> step sv l rs sv'.
Proof.
  destruct l as [c|id| |c]; cbn [perform].
  - destruct (is_request c) eqn:E; [|discriminate]. intros [= <- <-]. now constructor.
  - destruct (pool sv !! id) as [[[c t] pc]|] eqn:E; [|discriminate]. intros [= <- <-]. now constructor.
  - destruct (queue sv) as [|[id text] q] eqn:Eq; [discriminate|]. destruct (pool sv !! id) as [[[c t] pc]|] eqn:E; [|discriminate].
    intros [= <- <-]. now apply St_write.
  - destruct (is_request c) eqn:E; [discriminate|]. intros [= <- <-]. now constructor.
Qed.

Fixpoint perform_all (ls : list Label) (x : list (Z * Reply) * gset nat * Server) : option (list (Z * Reply) * gset nat * Server) :=
  match ls with
  | [] => Some x
  | l :: ls =>
      let '(h, F, sv) := x in
      match perform l sv with
      | Some (rs, sv') =>
          perform_all ls ((h ++ map (pair (clock (proto sv))) rs)%list,
            if held sv' then match l with Arrives _ => if held sv then F ∪ {[next sv]} else F | _ => F end else ∅, sv')
      | None => None
      end
  end.

Lemma perform_watched (path : bool) (f : Disk) (now : Z) (ls : list Label) (h h' : list (Z * Reply)) (F F' : gset nat) (sv sv' : Server) :
  watched path f now h F sv -> perform_all ls (h, F, sv) = Some (h', F', sv') -> watched path f now h' F' sv'.
Proof.
  revert h F sv. induction ls as [|l ls IH]; intros h F sv Hw; cbn [perform_all]; [now intros [= <- <- <-]|].
  destruct (perform l sv) as [[rs sv1]|] eqn:E; [|discriminate]. apply IH. apply (W_step path f now h F sv l rs sv1 Hw). now apply perform_step.
Qed.

End Watched.

(** *** A request alone *)

(** Steps one after the other, with all their replies. *)
Inductive steps : Server -> list Reply -> Server -> Prop :=
| steps_none sv : steps sv [] sv
| steps_next sv l rs sv1 rs' sv' : step sv l rs sv1 -> steps sv1 rs' sv' -> steps sv (rs ++ rs')%list sv'.

(** No request, and one that waits. *)
Definition quiet_server (s : Protocol) (n : nat) : Server := mkServer s ∅ [] n.
Definition busy_server (s : Protocol) (id : nat) (c : ServerCall) (t : Z) (pc : Pc) (n : nat) : Server :=
  mkServer s {[id := (c, t, pc)]} [] n.

Section Alone.
Variables (id : nat) (c : ServerCall) (t : Z) (n : nat).
Abbreviation busy s pc := (busy_server s id c t pc n).
Abbreviation idle_at s := (quiet_server s n).

(** What a handler comes to when nothing else runs: a reply, or a wait at [pc]. *)
Definition after (x : Next * Protocol) (out : list Reply * Server) : Prop :=
  match x with
  | (Waits pc, s) => steps (busy s pc) out.1 out.2
  | (Writes pc text, s) =>
      steps (busy (set_store (write_text text (store s)).2 s) (written pc (write_text text (store s)).1)) out.1 out.2
  | (Replies r, s) => out = ([r], idle_at s)
  end.

Lemma resume_alone (s : Protocol) (pc : Pc) (out : list Reply * Server) : after (resume pc s) out -> steps (busy s pc) out.1 out.2.
Proof.
  intros H. assert (Hp : pool (busy s pc) !! id = Some (c, t, pc)) by apply lookup_singleton_eq.
  pose proof (St_resume (busy s pc) id c t pc Hp) as Hst. cbn [proto busy_server] in Hst.
  destruct (resume pc s) as [[pc'|pc' text|r] s']; cbn [reply_of settle pool queue next busy_server after] in Hst, H.
  - unfold singletonM, map_singleton in Hst. rewrite insert_insert_eq in Hst. exact (steps_next _ _ [] _ _ _ Hst H).
  - unfold singletonM, map_singleton in Hst. rewrite insert_insert_eq in Hst. refine (steps_next _ _ [] _ _ _ Hst _).
    refine (steps_next _ _ [] _ _ _ (St_write (mkServer s' (<[id := (c, t, pc')]> ∅) [(id, text)] n) id text [] c t pc' eq_refl (lookup_insert_eq _ _ _)) _).
    cbn [proto pool]. rewrite insert_insert_eq. exact H.
  - subst out. unfold singletonM, map_singleton in Hst. rewrite delete_insert_eq, delete_empty in Hst.
    exact (steps_next _ _ [r] _ [] _ Hst (steps_none _)).
Qed.

(** A store method that begins with [load]. *)
Lemma load_alone (k : Reading -> Pc) (m : Protocol -> Next * Protocol) (s : Protocol) (out : list Reply * Server) :
  (forall l s, resume (k l) s = load_step k l m s) ->
  match load (store s) with
  | (inl _, st) => after (m (set_store st s)) out
  | (inr _, st) => out = ([Silent], idle_at (set_store st s))
  end -> after (load_start k s) out.
Proof.
  intros Hk. unfold load, load_start. destruct (loaded (store s)) eqn:El.
  - intros H. cbn [after]. apply resume_alone. rewrite Hk. cbn [load_step]. now destruct s.
  - set (st := load_begin (store s)). destruct (hasPath st); intros H; cbn [after].
    + apply resume_alone. rewrite Hk. cbn [load_step after]. apply resume_alone. rewrite Hk. cbn [load_step].
      change (file (store (set_store st s))) with (file st). change (store (set_store st s)) with st.
      destruct (load_from (file st) st) as [[u|e] st']; [|exact H]. cbn [after]. apply resume_alone. rewrite Hk. exact H.
    + apply resume_alone. rewrite Hk. exact H.
Qed.

Lemma write_alone (writing : Pc) (wr : unit + ServerError -> Pc) (s : Protocol) (out : list Reply * Server) :
  (forall r, written writing r = wr r) ->
  after (resume (wr (persist (store s)).1) (set_store (persist (store s)).2 s)) out -> after (queue_write writing wr s) out.
Proof.
  intros Hw H. unfold queue_write. unfold persist in H. destruct (hasPath (store s)); cbn [negb] in *; cbn [after].
  - rewrite Hw. apply resume_alone. exact H.
  - apply resume_alone. now destruct s.
Qed.

Lemma registration_alone (a r tok : option string) (s s' : Protocol) (res : string + ServerError) :
  finish_registration a r tok s = (res, s') ->
  after (arrive (C_finishRegistration a r tok) s)
    ([match res with inl u => Registered (canonical a) u | inr _ => Silent end], idle_at s').
Proof.
  intros H. cbn [arrive]. unfold server_finishRegistration, ebind at 1, lift_sum in H.
  destruct (normalizeAccount a) as [acc|e] eqn:En; [|now injection H as <- <-]. apply normalize_canonical in En as ->.
  unfold ebind at 1 in H. destruct (validateOpaqueValue r _ _) as [rec|e]; [|now injection H as <- <-].
  eapply load_alone; [reflexivity|]. unfold ebind at 1, in_store at 1, get, ebind at 1 in H.
  destruct (load (store s)) as [[u|e] st] eqn:El; [|now injection H as <- <-]. cbn [after]. apply resume_alone.
  set (s1 := set_store st s) in *. cbn [resume]. change (store s1) with st. unfold ebind at 1 in H.
  assert (Hput : forall s2, store s2 = st -> (run! _ <- (fun s => in_store (put (canonical a) rec (toISOString (clock s))) s) in
       run! _ <- revokeManagementTokens (canonical a) in issueManagementToken tokenTtlMs random_bytes (canonical a)) s2 = (res, s') ->
     after (load_start (R_put (canonical a) rec) s2)
       ([match res with inl u => Registered (canonical a) u | inr _ => Silent end], idle_at s')).
  { intros s2 Es H2. eapply load_alone; [reflexivity|]. unfold ebind at 1, in_store, put, ebind at 1 in H2.
    destruct (load (store s2)) as [[u2|e] st2] eqn:E2; [|now injection H2 as <- <-].
    apply write_alone; [reflexivity|]. cbn [at_store store set_store clock] in *.
    destruct (persist (put_record (canonical a) rec (toISOString (clock s2)) st2)) as [[u3|e] st3]; cbn [fst snd resume] in *; [|now injection H2 as <- <-].
    unfold ebind in H2. cbn [revokeManagementTokens modify] in H2.
    change (set_store st3 (at_store (put_record (canonical a) rec (toISOString (clock s2))) (set_store st2 s2))) with (set_store st3 s2).
    destruct (issueManagementToken _ _ _ _) as [[tk|e] s4] eqn:Ei in H2; cbn [revokeManagementTokens modify snd]; rewrite Ei; now injection H2 as <- <-. }
  destruct (records st !! canonical a) as [v|]; cbn [resume].
  - destruct (authorizeManagement (canonical a) tok s1) as [b s2] eqn:Ea. apply authorize_spec in Ea as (_ & Hst & _ & b' & -> & _).
    destruct b'; cbn [negb] in H; [|now injection H as <- <-]. now apply Hput.
  - cbn in H. now apply Hput.
Qed.

Lemma login_alone (a r : option string) (s s' : Protocol) (res : (string * string) + ServerError) :
  begin_login a r s = (res, s') ->
  after (arrive (C_startLogin a r) s) ([match res with inl _ => Challenged (canonical a) | inr _ => Silent end], idle_at s').
Proof.
  intros H. cbn [arrive]. unfold server_begin_login, ebind at 1, lift_sum in H.
  destruct (normalizeAccount a) as [acc|e] eqn:En; [|now injection H as <- <-]. apply normalize_canonical in En as ->.
  unfold ebind at 1 in H. destruct (validateOpaqueValue r _ _) as [req|e]; [|now injection H as <- <-].
  unfold ebind at 1 in H. destruct (consumeAttempt _ _ (canonical a) s) as [[u|e] s1]; [|now injection H as <- <-].
  eapply load_alone; [reflexivity|]. unfold ebind at 1, in_store, get, ebind at 1 in H.
  destruct (load (store s1)) as [[u1|e] st]; [|now injection H as <- <-]. cbn [after]. apply resume_alone. cbn [resume].
  change (store (set_store st s1)) with st. destruct (answer_login _ _ _ _ _ _ _) as [[p|e] s2]; now injection H as <- <-.
Qed.

Lemma deletion_alone (a tok : option string) (s s' : Protocol) (res : unit + ServerError) :
  server_deleteCredential a tok s = (res, s') -> after (arrive (C_delete a tok) s) ([Silent], idle_at s').
Proof.
  intros H. cbn [arrive]. unfold server_deleteCredential, ebind at 1, lift_sum in H.
  destruct (normalizeAccount a) as [acc|e]; [|now injection H as <- <-]. unfold ebind at 1 in H.
  destruct (authorizeManagement acc tok s) as [[[]|e] s1]; cbn [negb] in H; [|now injection H as <- <-..].
  eapply load_alone; [reflexivity|]. unfold ebind at 1, in_store, store_delete, ebind at 1 in H.
  destruct (load (store s1)) as [[u1|e] st]; [|now injection H as <- <-]. apply write_alone; [reflexivity|].
  cbn [at_store store set_store] in *.
  destruct (persist _) as [[u2|e] st2]; cbn [fst snd resume] in *; now injection H as <- <-.
Qed.
End Alone.


(** *** Guessing is bounded *)

Section Guessing.
Variable A : string.

(** The attempts of the account stay as they are, or are forgotten when they have expired. *)
Definition idle (s s' : Protocol) : Prop :=
  clock s' = clock s
  /\ (attempts s' !! A = attempts s !! A \/ exists e, attempts s !! A = Some e /\ resetAt e <= clock s /\ attempts s' !! A = None).

#[export] Instance idle_preorder : PreOrder idle.
Proof.
  split; [intros s; split; [reflexivity|now left]|]. intros s1 s2 s3 [C1 A1] [C2 A2]. split; [congruence|].
  destruct A1 as [A1|(e & E1 & E2 & E3)], A2 as [A2|(e' & E1' & E2' & E3')].
  - left. congruence.
  - right. exists e'. rewrite A1 in E1'. split_and!; [exact E1'|lia|exact E3'].
  - right. exists e. split_and!; [exact E1|exact E2|congruence].
  - congruence.
Qed.

Definition idly {X : Type} (m : S X) : Prop := forall s, idle s (m s).2.

Lemma idly_bind {X Y : Type} (m : S X) (k : X -> S Y) : idly m -> (forall a, idly (k a)) -> idly (ebind m k).
Proof.
  intros Hm Hk s. unfold ebind. specialize (Hm s). destruct (m s) as [[a|e] s1]; cbn in *; [|exact Hm]. etrans; [exact Hm|apply Hk].
Qed.

Lemma idly_same {X : Type} (m : S X) : (forall s, clock (m s).2 = clock s /\ attempts (m s).2 = attempts s) -> idly m.
Proof. intros H s. destruct (H s) as [H1 H2]. split; [exact H1|]. left. now rewrite H2. Qed.

Lemma filter_attempts (s : Protocol) :
  filter (fun kv => clock s < resetAt kv.2) (attempts s) !! A = attempts s !! A
  \/ exists e, attempts s !! A = Some e /\ resetAt e <= clock s /\ filter (fun kv => clock s < resetAt kv.2) (attempts s) !! A = None.
Proof.
  destruct (attempts s !! A) as [e|] eqn:E.
  - destruct (decide (clock s < resetAt e)) as [Hlt|Hge].
    + left. apply map_lookup_filter_Some. now split.
    + right. exists e. split_and!; [reflexivity|lia|]. apply map_lookup_filter_None. right. intros x Hx. rewrite E in Hx. injection Hx as <-. exact Hge.
  - left. apply map_lookup_filter_None. now left.
Qed.

Lemma idly_cleanup : idly cleanup.
Proof. intros s. split; [reflexivity|]. apply filter_attempts. Qed.

Lemma idly_store {X : Type} (m : throwing ServerError Store X) : idly (in_store m).
Proof. apply idly_same. intros s. unfold in_store. now destruct (m (store s)). Qed.

Lemma idly_lift {X : Type} (r : X + ServerError) : idly (lift_sum r).
Proof. intros s. reflexivity. Qed.

Lemma idly_draw : idly fresh_draw.
Proof. now apply idly_same. Qed.

Lemma idly_token : idly (tokenValue random_bytes).
Proof. apply idly_bind; [apply idly_draw|]. intros n s. reflexivity. Qed.

Lemma idly_issue (acc : string) : idly (issueManagementToken tokenTtlMs random_bytes acc).
Proof.
  unfold issueManagementToken. apply idly_bind; [apply idly_cleanup|]. intros _. apply idly_bind; [apply idly_token|]. intros t.
  apply idly_bind; [now apply idly_same|]. intros _ s. reflexivity.
Qed.

Lemma idly_authorize (acc : string) (t : option string) : idly (authorizeManagement acc t).
Proof. apply idly_bind; [apply idly_cleanup|]. intros _ s. reflexivity. Qed.

Lemma idly_throw {X : Type} (e : ServerError) : idly (ethrow e : S X).
Proof. intros s. reflexivity. Qed.

Lemma idly_finish_registration (a r t : option string) : idly (finish_registration a r t).
Proof.
  unfold server_finishRegistration. apply idly_bind; [apply idly_lift|]. intros n. apply idly_bind; [apply idly_lift|]. intros rec.
  apply idly_bind; [apply idly_store|]. intros existing. apply idly_bind; [destruct existing; [apply idly_authorize|intros s; reflexivity]|].
  intros [|]; cbn [negb]; [|apply idly_throw]. apply idly_bind; [intros s; apply idly_store|]. intros _.
  apply idly_bind; [now apply idly_same|]. intros _. apply idly_issue.
Qed.

Lemma idly_delete (a t : option string) : idly (server_deleteCredential a t).
Proof.
  unfold server_deleteCredential. apply idly_bind; [apply idly_lift|]. intros n. apply idly_bind; [apply idly_authorize|].
  intros [|]; cbn [negb]; [|apply idly_throw]. apply idly_bind; [apply idly_store|]. intros _. now apply idly_same.
Qed.

(** One more attempt is counted, in the window that is open or in a new one. *)
Definition counted (s s' : Protocol) : Prop :=
  clock s' = clock s
  /\ ((attempts s !! A = None \/ exists e, attempts s !! A = Some e /\ resetAt e <= clock s)
        /\ attempts s' !! A = Some (mkAttempts 1 (clock s + rateLimitWindowMs))
      \/ exists e, attempts s !! A = Some e /\ clock s < resetAt e /\ attempt_count e < rateLimitAttempts
           /\ attempts s' !! A = Some (mkAttempts (attempt_count e + 1) (resetAt e))).

Lemma counted_idle (s s1 s' : Protocol) : counted s s1 -> 0 < rateLimitWindowMs -> idle s1 s' -> counted s s'.
Proof.
  intros [C1 H1] Hw [C2 [H2|(e & E1 & E2 & _)]].
  - split; [congruence|]. now rewrite H2.
  - exfalso. rewrite C1 in E2. destruct H1 as [[_ H1]|(e' & _ & Hlt & _ & H1)]; rewrite E1 in H1; injection H1 as ->; cbn in E2; lia.
Qed.

Lemma consume_spec (acc : string) (s s' : Protocol) (r : unit + ServerError) :
  consumeAttempt rateLimitWindowMs rateLimitAttempts acc s = (r, s') -> acc = A /\ r = inl tt /\ counted s s' \/ (acc <> A \/ r <> inl tt) /\ idle s s'.
Proof.
  unfold consumeAttempt. unfold ebind, cleanup, modify. cbn.
  pose proof (filter_attempts s) as Hf. set (m := filter _ (attempts s)) in *.
  assert (Hidle : forall st, attempts st = m -> clock st = clock s -> idle s st) by (intros st Ha Hc; split; [exact Hc|rewrite Ha; exact Hf]).
  assert (Hother : forall v st, acc <> A -> clock st = clock s -> attempts st = <[acc := v]> m -> idle s st).
  { intros v st Hne Hc Ha. split; [exact Hc|]. rewrite Ha, lookup_insert_ne by exact Hne. exact Hf. }
  destruct (String.eqb_spec acc A) as [->|Hne].
  - destruct (m !! A) as [e|] eqn:Em.
    + assert (E : attempts s !! A = Some e /\ clock s < resetAt e) by now apply map_lookup_filter_Some in Em as [E1 E2]. destruct E as [E1 E2].
      destruct (Z.leb_spec (resetAt e) (clock s)); [lia|]. destruct (Z.leb_spec rateLimitAttempts (attempt_count e)) as [Hl|Hl]; intros [= <- <-].
      * right. split; [now right|]. apply Hidle; reflexivity.
      * left. split_and!; [reflexivity..|]. split; [reflexivity|]. right. exists e. cbn. rewrite lookup_insert_eq. now split_and!.
    + intros [= <- <-]. left. split_and!; [reflexivity..|]. split; [reflexivity|]. left. cbn. rewrite lookup_insert_eq. split; [|reflexivity].
      destruct Hf as [Hf|(e & E1 & E2 & _)]; [left; congruence|right; now exists e].
  - intros H. right. split; [now left|]. revert H. destruct (m !! acc) as [e|].
    + destruct (_ <=? _); [intros [= <- <-]; now eapply Hother|]. destruct (_ <=? _); intros [= <- <-]; [now apply Hidle|now eapply Hother].
    + intros [= <- <-]. now eapply Hother.
Qed.

Hypothesis window_positive : 0 < rateLimitWindowMs.

Lemma begin_spec (a r : option string) (s s' : Protocol) (res : (string * string) + ServerError) : begin_login a r s = (res, s') ->
  counted s s' \/ idle s s' /\ (canonical a <> A \/ exists e, res = inr e).
Proof.
  intros H. unfold server_begin_login, ebind at 1, lift_sum at 1 in H.
  destruct (normalizeAccount a) as [n|e] eqn:En; [|injection H as <- <-; right; split; [reflexivity|right; now eexists]].
  apply normalize_canonical in En as ->. unfold ebind at 1, lift_sum at 1 in H.
  destruct (validateOpaqueValue r _ _) as [req|e]; [|injection H as <- <-; right; split; [reflexivity|right; now eexists]].
  unfold ebind at 1 in H. destruct (consumeAttempt _ _ (canonical a) s) as [rc s1] eqn:Ec. apply consume_spec in Ec.
  match type of H with (match _ with inl _ => ?m s1 | inr _ => _ end = _) => set (rest := m) in H end.
  assert (Hrest : idly rest).
  { unfold rest. apply idly_bind; [apply idly_store|]. intros credential. apply idly_bind; [apply idly_draw|]. intros k.
    apply idly_bind; [apply idly_lift|]. intros [state response]. apply idly_bind; [apply idly_token|]. intros id.
    apply idly_bind; [now apply idly_same|]. intros _. now apply idly_same. }
  destruct rc as [u|e].
  - pose proof (Hrest s1) as Hi. rewrite H in Hi. cbn in Hi. destruct Ec as [(_ & _ & Hc)|[[Hne|Hne] Hs1]]; [left; eapply counted_idle; eassumption|right..|].
    + split; [etrans; eassumption|now left].
    + destruct u. contradiction.
  - injection H as <- <-. destruct Ec as [(_ & [=] & _)|[_ Hs1]]. right. split; [exact Hs1|right; now eexists].
Qed.

Lemma end_spec (id r : option string) (s s' : Protocol) (res : string + ServerError) : end_login id r s = (res, s') ->
  idle s s' \/ exists tok, res = inl tok /\ (match logins s !! or_empty id with Some e => l_account e | None => "" end) = A.
Proof.
  intros H. destruct (String.eqb_spec (match logins s !! or_empty id with Some e => l_account e | None => "" end) A) as [Ha|Hne].
  - destruct res as [tok|e]; [right; now exists tok|]. left. revert H. unfold server_end_login, ebind, lift_sum. cbn.
    destruct (validateOpaqueValue id _ _) as [i|e1]; [|intros [= <- <-]; reflexivity].
    destruct (validateOpaqueValue r _ _) as [q|e1]; [|intros [= <- <-]; reflexivity].
    assert (Hidle : forall l, idle s (set_logins l (cleanup s).2)) by (intros l; split; [reflexivity|apply filter_attempts]).
    destruct (filter _ (logins s) !! i) as [x|]; [|intros [= <- <-]; apply Hidle].
    destruct (_ <=? _); [intros [= <- <-]; apply Hidle|]. destruct (server_finishLogin _ _ _ _); cbn [negb]; [|intros [= <- <-]; apply Hidle].
    intros H. apply issue_spec in H as (tok & [=] & _).
  - left. revert H Hne. unfold server_end_login, ebind, lift_sum. cbn.
    destruct (validateOpaqueValue id _ _) as [i|e1] eqn:Ei; [|intros [= <- <-] _; reflexivity].
    rewrite (valid_id _ _ _ _ Ei). destruct (validateOpaqueValue r _ _) as [q|e1]; [|intros [= <- <-] _; reflexivity].
    assert (Hidle : forall l, idle s (set_logins l (cleanup s).2)) by (intros l; split; [reflexivity|apply filter_attempts]).
    destruct (filter _ (logins s) !! i) as [x|] eqn:Ex; [|intros [= <- <-] _; apply Hidle].
    destruct (_ <=? _); [intros [= <- <-] _; apply Hidle|]. destruct (server_finishLogin _ _ _ _); cbn [negb]; [|intros [= <- <-] _; apply Hidle].
    apply map_lookup_filter_Some in Ex as [Ex _]. rewrite Ex. intros H Hne. etrans; [apply (Hidle (delete i (filter (fun kv => clock s < l_expiresAt kv.2) (logins s))))|].
    etrans; [|pose proof (idly_issue (l_account x)) as Hi; match type of H with _ ?st = _ => specialize (Hi st); rewrite H in Hi end; exact Hi].
    split; [reflexivity|]. left. cbn. now rewrite lookup_delete_ne.
Qed.

(** The attempts the server has let through, in full windows and in the open one. *)
Definition budget (t0 n : Z) (s : Protocol) : Prop :=
  exists k, 0 <= k /\
    match attempts s !! A with
    | None => n <= rateLimitAttempts * k /\ t0 + k * rateLimitWindowMs <= clock s
    | Some e => 1 <= k /\ n <= rateLimitAttempts * (k - 1) + attempt_count e /\ attempt_count e <= rateLimitAttempts
                /\ t0 + k * rateLimitWindowMs <= resetAt e /\ resetAt e <= clock s + rateLimitWindowMs
    end.

Lemma budget_idle (t0 n : Z) (s s' : Protocol) : 0 <= rateLimitAttempts -> budget t0 n s -> idle s s' -> budget t0 n s'.
Proof.
  intros Hl (k & Hk & H) [C [Ha|(e & E1 & E2 & E3)]]; exists k; (split; [exact Hk|]).
  - rewrite Ha, C. destruct (attempts s !! A); lia.
  - rewrite E3, C. rewrite E1 in H. nia.
Qed.

Lemma budget_counted (t0 n : Z) (s s' : Protocol) : 1 <= rateLimitAttempts -> budget t0 n s -> counted s s' -> budget t0 (n + 1) s'.
Proof.
  intros Hl (k & Hk & H) [C [[Hn Ha]|(e & E1 & E2 & E3 & Ha)]].
  - exists (k + 1). split; [lia|]. rewrite Ha, C. cbn. destruct Hn as [Hn|(e & Hn & He)]; rewrite Hn in H; nia.
  - exists k. split; [exact Hk|]. rewrite Ha, C. cbn. rewrite E1 in H. lia.
Qed.

Definition challenges (h : list (Z * Reply)) : Z :=
  Z.of_nat (length (filter (fun x => x.2 = Challenged A) h)).

Lemma serve_budget (t0 n : Z) (c : ServerCall) (s : Protocol) (r : Reply) (s' : Protocol) : 1 <= rateLimitAttempts ->
  serve c s = (r, s') -> (forall tok, r <> LoggedIn A tok) -> budget t0 n s -> budget t0 (n + challenges [(clock s, r)]) s'.
Proof.
  intros Hl E Hno Hb. assert (Hlow : 0 <= rateLimitAttempts) by lia.
  assert (Hsilent : r <> Challenged A -> idle s s' -> budget t0 (n + challenges [(clock s, r)]) s').
  { intros Hr Hi. unfold challenges. rewrite filter_cons_False by exact Hr. cbn. rewrite Z.add_0_r. now apply (budget_idle t0 n s). }
  destruct c as [a q|a q t|a q|id q|a t|ms|f b]; cbn [serve] in E.
  - injection E as <- <-. apply Hsilent; [discriminate|]. unfold server_startRegistration.
    apply (idly_bind (lift_sum _)); [apply idly_lift|]. intros u. apply idly_bind; [apply idly_lift|]. intros v. apply idly_lift.
  - pose proof (idly_finish_registration a q t s) as Hi. destruct (finish_registration a q t s) as [[tok|e] s1]; injection E as <- <-;
      apply Hsilent; (discriminate || exact Hi).
  - destruct (begin_login a q s) as [[p|e] s1] eqn:Eb; injection E as <- <-; apply begin_spec in Eb as [Hc|[Hi Hne]].
    + unfold challenges. apply (budget_counted t0 n) in Hc; [|exact Hl|exact Hb].
      destruct (String.eqb_spec (canonical a) A) as [Ha|Ha].
      * rewrite filter_cons_True by (cbn; congruence). exact Hc.
      * rewrite filter_cons_False by (cbn; congruence). cbn. destruct Hc as (k & H1 & H2). exists k. split; [exact H1|]. destruct (attempts s1 !! A); lia.
    + apply Hsilent; [|exact Hi]. destruct Hne as [Hne|[e [=]]]. congruence.
    + unfold challenges. rewrite filter_cons_False by (cbn; discriminate). cbn. apply (budget_counted t0 n) in Hc; [|exact Hl|exact Hb]. destruct Hc as (k & H1 & H2).
      exists k. split; [exact H1|]. destruct (attempts s1 !! A); lia.
    + now apply Hsilent.
  - destruct (end_login id q s) as [[tok|e] s1] eqn:Ee; injection E as <- <-; apply end_spec in Ee as [Hi|(tk & Hr & Ha)];
      [apply Hsilent; [discriminate|exact Hi]| |apply Hsilent; [discriminate|exact Hi]|discriminate Hr].
    rewrite Ha in Hno. destruct (Hno tok eq_refl).
  - injection E as <- <-. apply Hsilent; [discriminate|apply idly_delete].
  - injection E as <- <-. unfold challenges. rewrite filter_cons_False by (cbn; discriminate). cbn.
    destruct Hb as (k & H1 & H2). exists k. split; [exact H1|]. cbn. destruct (attempts s !! A); lia.
  - injection E as <- <-. apply Hsilent; [discriminate|]. split; [reflexivity|now left].
Qed.

(** C34: From the moment the server remembers no attempt of an account until somebody logs in to
    it, no more than [rateLimitAttempts] challenges are given in each window begun. *)
Theorem guessing_is_bounded (s s' : Protocol) (h : list (Z * Reply)) :
  1 <= rateLimitAttempts -> attempts s !! A = None -> run s h s' -> (forall t tok, ~ In (t, LoggedIn A tok) h) ->
  challenges h <= rateLimitAttempts * (1 + (clock s' - clock s) / rateLimitWindowMs).
Proof.
  intros Hl Ha Hr Hno. assert (Hb : budget (clock s) (challenges h) s').
  { induction Hr as [s|s h s1 c _ IH].
    - exists 0. split; [lia|]. rewrite Ha. change (challenges []) with 0. lia.
    - assert (Hno1 : forall t tok, ~ In (t, LoggedIn A tok) h) by (intros t tok Hin; apply (Hno t tok); apply in_or_app; now left).
      specialize (IH Ha Hno1). destruct (serve c s1) as [r s2] eqn:E. cbn [fst snd] in *.
      assert (Hc : challenges (h ++ [(clock s1, r)]) = challenges h + challenges [(clock s1, r)]).
      { unfold challenges. rewrite filter_app, length_app. lia. }
      rewrite Hc. apply (serve_budget _ _ c s1); [exact Hl|exact E| |exact IH].
      intros tok ->. apply (Hno (clock s1) tok). apply in_or_app. right. now left. }
  destruct Hb as (k & Hk & H). assert (Hk2 : challenges h <= rateLimitAttempts * k /\ (k - 1) * rateLimitWindowMs <= clock s' - clock s).
  { destruct (attempts s' !! A) as [e|]; nia. }
  destruct Hk2 as [H1 H2]. assert (k - 1 <= (clock s' - clock s) / rateLimitWindowMs) by (apply Z.div_le_lower_bound; lia). nia.
Qed.

End Guessing.

(** A store that is marked as loaded and holds nothing registers any account without a token,
    whatever its file says. *)
Lemma registers_over_file (f : Disk) (a rec : string) (s : Protocol) :
  store s = load_begin (new_store true f) -> ACCOUNT_PATTERN (toLowerCase (trim a)) = true ->
  validateOpaqueValue (Some rec) "registrationRecord" 4096 = inl rec ->
  exists tok s2 v, finish_registration (Some a) (Some rec) None s = (inl tok, s2)
    /\ file (store s2) = FileText (snapshot {[toLowerCase (trim a) := v]}) /\ registration_of v = Some rec.
Proof.
  intros Hs Ha Hrec. unfold server_finishRegistration, ebind, lift_sum. unfold normalizeAccount. rewrite Ha, Hrec.
  unfold in_store, get, put, ebind, load. rewrite Hs. cbn -[snapshot issueManagementToken toISOString].
  unfold issueManagementToken, ebind. cbn -[snapshot toISOString]. do 3 eexists. split; [reflexivity|]. split; reflexivity.
Qed.

(** [load] marks the store as loaded before the file has been read: a request that arrives
    in between finds no credential, and takes any account over. *)
Lemma taken_while_loading (f : Disk) (a rec : string) (now : Z) :
  ACCOUNT_PATTERN (toLowerCase (trim a)) = true -> validateOpaqueValue (Some rec) "registrationRecord" 4096 = inl rec ->
  exists tok s2, finish_registration (Some a) (Some rec) None (new_protocol (load_begin (new_store true f)) now) = (inl tok, s2).
Proof.
  intros Ha Hrec. destruct (registers_over_file f a rec (new_protocol (load_begin (new_store true f)) now) eq_refl Ha Hrec) as (tok & s2 & v & H & _).
  now exists tok, s2.
Qed.

(** A file that cannot be read or parsed makes the first request fail, and is taken for an empty
    one afterwards: the account is registered again without a token, and the file is written
    over, with this account alone. *)
Theorem unreadable_file_is_overwritten (f : Disk) (a rec : string) (now : Z) :
  (exists code, f = Unreadable code) \/ (exists text e, f = FileText text /\ parse_store text = inr e) ->
  ACCOUNT_PATTERN (toLowerCase (trim a)) = true -> validateOpaqueValue (Some rec) "registrationRecord" 4096 = inl rec ->
  exists e s1 tok s2 v,
    finish_registration (Some a) (Some rec) None (new_protocol (new_store true f) now) = (inr e, s1)
    /\ finish_registration (Some a) (Some rec) None s1 = (inl tok, s2)
    /\ file (store s2) = FileText (snapshot {[toLowerCase (trim a) := v]}) /\ registration_of v = Some rec.
Proof.
  intros Hf Ha Hrec. assert (Hload : exists e, load (new_store true f) = (inr e, load_begin (new_store true f))).
  { unfold load. cbn. destruct Hf as [[code ->]|(text & e & -> & E)]; unfold load_from; cbn; [now eexists|]. rewrite E. now eexists. }
  destruct Hload as [e He].
  destruct (registers_over_file f a rec (set_store (load_begin (new_store true f)) (new_protocol (new_store true f) now)) eq_refl Ha Hrec)
    as (tok & s2 & v & H & Hrest). exists e, (set_store (load_begin (new_store true f)) (new_protocol (new_store true f) now)), tok, s2, v.
  split; [|now split]. unfold server_finishRegistration, ebind, lift_sum. unfold normalizeAccount. rewrite Ha, Hrec.
  unfold in_store at 1. cbn [store new_protocol]. unfold get at 1, ebind at 1. now rewrite He.
Qed.

End Protocol.

(** ** Witnesses *)

Module DemoServer.

Definition padded : string := "AAAAAAAAAAAAAAAA".

(** The server sends the record to the client, whose proof is a constant. *)
#[export] Instance plain_server : OpaqueServerLib := {
  server_getPublicKey setup := "K";
  server_createRegistrationResponse setup user request := Some padded;
  server_startLogin setup record request user client server n := Some ("state", match record with Some r => r | None => "none" end);
  server_finishLogin request state client server := String.eqb request padded
}.

Definition random (n k : nat) : list Z := repeat (Z.of_nat n mod 256) k.

Abbreviation registration := (server_finishRegistration 1000 random).
Abbreviation begin := (server_begin_login "setup" 60000 60000 2 random).
Abbreviation serve_one := (serve "setup" 60000 1000 60000 2 random).

Definition started : Protocol := new_protocol (new_store true NoFile) 5000.
Definition record_of (pin : string) : string := padded ++ pin.

(** Ada registers; the first token is of draw zero. *)
Definition with_ada : Protocol := (serve_one (C_finishRegistration (Some "0xAda") (Some (record_of "1234")) None) started).2.
Definition ada_token : string := bytesToBase64Url (random 0 32).

Lemma store_survives_restart_witness :
  exists s2, load (restart (put "0xada" (record_of "1234") "2026" (new_store true NoFile)).2) = (inl tt, s2)
    /\ records s2 !! "0xbob" = None /\ is_Some (records s2 !! "0xada").
Proof.
  destruct (store_survives_restart true NoFile (new_store true NoFile) (put "0xada" (record_of "1234") "2026" (new_store true NoFile)).2
              "0xada" (record_of "1234") "2026") as (s2 & E & R & v & Hv & _).
  - apply rtc_refl.
  - reflexivity.
  - vm_compute. reflexivity.
  - exists s2. split; [exact E|]. rewrite R. split; [vm_compute; reflexivity|now exists v].
Defined.

Definition full_disk : Store := mkStore true NoFile (Some "ENOSPC") ∅ true None.

Lemma failed_write_is_final_witness :
  exists s2, put "0xbob" (record_of "1") "2026"
               (mkStore true NoFile None (records (put "0xada" (record_of "1234") "2026" full_disk).2) true (Some "ENOSPC"))
             = (inr (write_failed "ENOSPC"), s2) /\ file s2 = NoFile /\ is_Some (records s2 !! "0xbob").
Proof.
  apply (failed_write_is_final "0xada" (record_of "1234") "2026" "ENOSPC" full_disk); [reflexivity..|].
  apply rtc_once. exact (SS_disk (put "0xada" (record_of "1234") "2026" full_disk).2 NoFile None).
Defined.


Lemma ada_run : run "setup" 60000 1000 60000 2 random started [(5000, Registered "0xada" ada_token)] with_ada.
Proof. exact (R_call "setup" 60000 1000 60000 2 random started [] started (C_finishRegistration (Some "0xAda") (Some (record_of "1234")) None) (R_start _ _ _ _ _ _ started)). Qed.

(** Ada registers; then she registers anew with her token, while somebody asks for a challenge. *)
Definition anew : ServerCall := C_finishRegistration (Some "0xADA") (Some (record_of "9")) (Some ada_token).
Definition ada_labels : list Label :=
  [Arrives (C_finishRegistration (Some "0xAda") (Some (record_of "1234")) None)] ++ repeat (Resumes 0) 5 ++ [WriteDone; Resumes 0]
  ++ [Outside (C_wait 10); Arrives anew; Arrives (C_startLogin (Some "0xAda") (Some padded)); Resumes 1; Resumes 2; Outside (C_wait 10); Resumes 1].

Abbreviation performs := (perform_all "setup" 60000 1000 60000 2 random "0xada").
Definition ada_server : list (Z * Reply) * gset nat * Server :=
  default ([], ∅, new_server true NoFile 5000) (performs ada_labels ([], ∅, new_server true NoFile 5000)).
Definition ada_last : Server :=
  match perform "setup" 60000 1000 60000 2 random (Resumes 1) ada_server.2 with Some (_, sv) => sv | None => ada_server.2 end.

Lemma takeover_needs_token_witness :
  registration_of <$> (records (store (proto ada_last)) !! "0xada") = Some (Some (record_of "9"))
  /\ exists tok t r tau, presents anew "0xada" tok /\ In (t, r) ada_server.1.1 /\ grants r "0xada" tok
      /\ 5010 <= tau <= 5020 /\ tau < t + 1000.
Proof.
  split; [vm_compute; reflexivity|].
  assert (Hw : watched "setup" 60000 1000 60000 2 random "0xada" true NoFile 5000 ada_server.1.1 ada_server.1.2 ada_server.2).
  { assert (E : performs ada_labels ([], ∅, new_server true NoFile 5000) = Some (ada_server.1.1, ada_server.1.2, ada_server.2))
      by (vm_compute; reflexivity).
    exact (perform_watched "setup" 60000 1000 60000 2 random "0xada" true NoFile 5000 _ _ _ _ _ _ _
             (W_start "setup" 60000 1000 60000 2 random "0xada" true NoFile 5000) E). }
  assert (Hs : step "setup" 60000 1000 60000 2 random ada_server.2 (Resumes 1) [] ada_last)
    by (apply perform_step; vm_compute; reflexivity).
  destruct (records (store (proto ada_server.2)) !! "0xada") as [v|] eqn:E; [|vm_compute in E; discriminate E].
  destruct (takeover_needs_token "setup" 60000 1000 60000 2 random "0xada" true NoFile 5000 _ _ _ _ _ _ v Hw Hs E)
    as (id & c & t0 & pc & Hid & Hp & H).
  - rewrite <- E. vm_compute. discriminate.
  - injection Hid as <-. assert (Hc : pool ada_server.2 !! 1%nat = Some (anew, 5010, pc)).
    { rewrite Hp. vm_compute in Hp. injection Hp as <- <- _. reflexivity. }
    rewrite Hp in Hc. injection Hc as -> ->. apply H. vm_compute. reflexivity.
Defined.

(** The load window: a second request finds the store marked as loaded, and no credential in it. *)
Example taken_in_the_window :
  match perform_all "setup" 60000 1000 60000 2 random "0xada"
          [Arrives (C_startLogin (Some "0xBob") (Some padded));
           Arrives (C_finishRegistration (Some "0xAda") (Some (record_of "evil")) None);
           Resumes 1; Resumes 1; Resumes 1; WriteDone; Resumes 1]
          ([], ∅, mkServer (new_protocol (restart (store with_ada)) 5000) ∅ [] 0) with
  | Some (h, _, _) => h = [(5000, Registered "0xada" ada_token)]
  | None => False
  end.
Proof. vm_compute. reflexivity. Qed.

(** Two challenges are given in the first minute, the third is refused, one more is given in the second minute. *)
Definition guess : ServerCall := C_startLogin (Some "0xAda") (Some padded).
Definition guesses : list ServerCall := [guess; guess; guess; C_wait 60000; guess].
Definition play (l : list ServerCall) (s : Protocol) : list (Z * Reply) * Protocol :=
  fold_left (fun x c => ((x.1 ++ [(clock x.2, (serve_one c x.2).1)])%list, (serve_one c x.2).2)) l ([], s).

Lemma play_runs (l : list ServerCall) (s : Protocol) : run "setup" 60000 1000 60000 2 random s (play l s).1 (play l s).2.
Proof.
  unfold play. assert (H : forall h s1, run "setup" 60000 1000 60000 2 random s h s1 ->
    let x := fold_left (fun x c => ((x.1 ++ [(clock x.2, (serve_one c x.2).1)])%list, (serve_one c x.2).2)) l (h, s1) in
    run "setup" 60000 1000 60000 2 random s x.1 x.2).
  { induction l as [|c l IH]; intros h s1 Hr; [exact Hr|]. cbn [fold_left fst snd]. apply IH. now constructor. }
  apply H. constructor.
Qed.

Lemma guessing_is_bounded_witness : challenges "0xada" (play guesses with_ada).1 = 3 /\ 3 <= 2 * (1 + 60000 / 60000).
Proof.
  split; [vm_compute; reflexivity|].
  assert (H : challenges "0xada" (play guesses with_ada).1 <= 2 * (1 + (clock (play guesses with_ada).2 - clock with_ada) / 60000)).
  { apply (guessing_is_bounded "setup" 60000 1000 60000 2 random "0xada"); [lia|lia|vm_compute; reflexivity|apply play_runs|].
    vm_compute. intros t tok Hin. repeat destruct Hin as [Hin|Hin]; try discriminate Hin. exact Hin. }
  vm_compute in H. vm_compute. exact H.
Defined.

Lemma unreadable_file_is_overwritten_witness :
  exists e s1 tok s2 v, registration (Some "0xAda") (Some (record_of "1")) None (new_protocol (new_store true (FileText "{")) 5) = (inr e, s1)
    /\ registration (Some "0xAda") (Some (record_of "1")) None s1 = (inl tok, s2)
    /\ file (store s2) = FileText (snapshot {["0xada" := v]}) /\ registration_of v = Some (record_of "1").
Proof.
  apply (unreadable_file_is_overwritten 1000 random (FileText "{") "0xAda" (record_of "1") 5).
  - right. eexists _, _. split; [reflexivity|vm_compute; reflexivity].
  - reflexivity.
  - reflexivity.
Defined.

End DemoServer.
