(* ===== verification/OpaqueComposition.v ===== *)
(** * OpaqueComposition: the keyring of the page over the verification server

    The transport that the page builds, with its requests answered by the server's routes,
    keeps what the keyring asks of a server; so a saved key unlocks through it. *)

From Stdlib Require Import Ascii String ZArith Lia Bool.
From stdpp Require Import base list gmap strings.
From S2P Require Import Prelude Bytes JsString Base64 WebCrypto JsonText Ecies EciesProofs JsNumber KeyInbox JsonParse Passphrase OpaqueKeyring WebAuthn ClientKeyring ClientKeyringProofs OpaqueServer OpaqueServerProofs.

Open Scope list_scope.
Open Scope string_scope.
Open Scope Z_scope.

(** ** The client's transport over the routes *)

Section Transport.
Context {L : OpaqueServerLib}.
Variables (serverSetup : string) (sessionTtlMs tokenTtlMs rateLimitWindowMs rateLimitAttempts : Z).
Variable random_bytes : nat -> nat -> list Z.
Variables (ALLOWED_ORIGINS : list string) (baseUrl origin : string).
Hypothesis origin_allowed : blank origin = true \/ existsb (String.eqb origin) ALLOWED_ORIGINS = true.

Abbreviation S := (throwing ServerError Protocol).
Abbreviation finish_registration := (server_finishRegistration tokenTtlMs random_bytes).
Abbreviation begin_login := (server_begin_login serverSetup sessionTtlMs rateLimitWindowMs rateLimitAttempts random_bytes).
Abbreviation end_login := (server_end_login tokenTtlMs random_bytes).
Abbreviation route_of := (route serverSetup sessionTtlMs tokenTtlMs rateLimitWindowMs rateLimitAttempts random_bytes).
Abbreviation fetch := (server_fetch serverSetup sessionTtlMs tokenTtlMs rateLimitWindowMs rateLimitAttempts random_bytes ALLOWED_ORIGINS baseUrl origin).

(** An error is never answered with a status of success. *)
Definition refused (e : ServerError) : Prop := match se_status e with Some n => (300 <= n)%nat | None => True end.
Definition refuses {X : Type} (m : S X) : Prop := forall s e s', m s = (inr e, s') -> refused e.

Lemma refuses_bind {X Y : Type} (m : S X) (k : X -> S Y) : refuses m -> (forall a, refuses (k a)) -> refuses (ebind m k).
Proof.
  intros Hm Hk s e s'. unfold ebind. destruct (m s) as [[a|x] s1] eqn:E; [apply Hk|]. intros [= <- <-]. eapply Hm, E.
Qed.

Lemma refuses_lift {X : Type} (r : X + ServerError) : match r with inr e => refused e | inl _ => True end -> refuses (lift_sum r).
Proof. intros H s e s' [= -> <-]. exact H. Qed.

Lemma refuses_valid (v : option string) (f : string) (n : nat) : refuses (lift_sum (validateOpaqueValue v f n)).
Proof. apply refuses_lift. unfold validateOpaqueValue. destruct v; [destruct (_ || _)|]; cbn; (exact I || lia). Qed.

Lemma refuses_account (a : option string) : refuses (lift_sum (normalizeAccount a)).
Proof. apply refuses_lift. unfold normalizeAccount. destruct (ACCOUNT_PATTERN _); cbn; (exact I || lia). Qed.

Lemma refuses_total {X : Type} (m : S X) : (forall s, exists x, (m s).1 = inl x) -> refuses m.
Proof. intros H s e s' E. destruct (H s) as [x Hx]. rewrite E in Hx. discriminate Hx. Qed.

Lemma refuses_library {X : Type} (r : option X) : refuses (library r).
Proof. apply refuses_lift. now destruct r. Qed.

Lemma load_refused (s s' : Store) (e : ServerError) : load s = (inr e, s') -> refused e.
Proof.
  unfold load. destruct (loaded s); [discriminate|]. cbn. destruct (hasPath s); [|discriminate]. unfold load_from. cbn.
  destruct (file s) as [|code|text]; [discriminate|intros [= <- <-]; exact I|]. destruct (parse_store text) as [l|x] eqn:E; [discriminate|].
  intros [= <- <-]. revert E. unfold parse_store. destruct (json_parse text) as [v|]; [|intros [= <-]; exact I].
  destruct (as_str _); [|intros [= <-]; exact I]. destruct (get_prop _ v) as [r|]; [|intros [= <-]; exact I].
  destruct (negb _); [intros [= <-]; exact I|]. destruct r; intros [= <-]; exact I.
Qed.

Lemma refuses_get (a : string) : refuses (in_store (get a)).
Proof.
  intros s e s'. unfold in_store, get, ebind. destruct (load (store s)) as [[[]|x] st] eqn:E; intros [= <- <-]. eapply load_refused, E.
Qed.

Lemma persist_refused (s s' : Store) (e : ServerError) : persist s = (inr e, s') -> refused e.
Proof. unfold persist, write_text. destruct (negb _); [discriminate|]. destruct (pendingWrite s), (write_error s); intros [= <- <-]; exact I. Qed.

Lemma refuses_put (a r n : string) : refuses (in_store (put a r n)).
Proof.
  intros s e s'. unfold in_store. destruct (put a r n (store s)) as [[u|x] st] eqn:E; intros [= <- <-].
  apply put_spec in E as [(s1 & y & E & [= <-] & _)|(s1 & v & _ & _ & E)]; [eapply load_refused, E|eapply persist_refused, E].
Qed.

Lemma refuses_issue (a : string) : refuses (issueManagementToken tokenTtlMs random_bytes a).
Proof. apply refuses_total. intros s. now eexists. Qed.

Lemma refuses_finish_registration (a r t : option string) : refuses (finish_registration a r t).
Proof.
  unfold server_finishRegistration. apply refuses_bind; [apply refuses_account|]. intros n. apply refuses_bind; [apply refuses_valid|]. intros rec.
  apply refuses_bind; [apply refuses_get|]. intros existing.
  apply refuses_bind; [destruct existing; apply refuses_total; intros s; now eexists|]. intros [|]; cbn [negb].
  - apply refuses_bind; [intros s; apply refuses_put|]. intros _. apply refuses_bind; [apply refuses_total; intros s; now eexists|].
    intros _. apply refuses_issue.
  - intros s e s' [= <- <-]. cbn. lia.
Qed.

Lemma refuses_begin (a r : option string) : refuses (begin_login a r).
Proof.
  unfold server_begin_login, answer_login. apply refuses_bind; [apply refuses_account|]. intros n. apply refuses_bind; [apply refuses_valid|]. intros req.
  apply refuses_bind.
  - intros s e s'. unfold consumeAttempt, ebind. cbn. destruct (filter _ (attempts s) !! n) as [c|]; [|discriminate].
    destruct (_ <=? _); [discriminate|]. destruct (_ <=? _); [|discriminate]. intros [= <- <-]. cbn. lia.
  - intros _. apply refuses_bind; [apply refuses_get|]. intros c. apply refuses_bind; [apply refuses_total; intros s; now eexists|]. intros k.
    apply refuses_bind; [apply refuses_library|]. intros [state response]. apply refuses_bind; [apply refuses_total; intros s; now eexists|].
    intros id. apply refuses_bind; [|intros _]; apply refuses_total; intros s; now eexists.
Qed.

Lemma refuses_end (i r : option string) : refuses (end_login i r).
Proof.
  unfold server_end_login. apply refuses_bind; [apply refuses_valid|]. intros id. apply refuses_bind; [apply refuses_valid|]. intros req.
  apply refuses_bind; [apply refuses_total; intros s; now eexists|]. intros _. apply refuses_bind; [apply refuses_total; intros s; now eexists|].
  intros login. apply refuses_bind; [apply refuses_total; intros s; now eexists|]. intros now. destruct login as [x|].
  - destruct (_ <=? _); [intros s e s' [= <- <-]; cbn; lia|]. destruct (negb _); [intros s e s' [= <- <-]; cbn; lia|].
    apply refuses_bind; [apply refuses_total; intros s; now eexists|]. intros _. apply refuses_issue.
  - intros s e s' [= <- <-]. cbn. lia.
Qed.

(** *** A POST from the client to a route *)

Definition posted_to (path : string) (handler : json -> S json) : Prop :=
  forall auth text, route_of "POST" path auth text = Some (with_body text handler).

Lemma not_blank (l : list (string * json)) : blank (stringify_with 0 (JObj l)) = false.
Proof. now destruct l as [|[k x] l]. Qed.

Lemma handled (method path auth text : string) (m : S json) (s : Protocol) : method <> "OPTIONS" ->
  route_of method path auth text = Some m ->
  handle serverSetup sessionTtlMs tokenTtlMs rateLimitWindowMs rateLimitAttempts random_bytes ALLOWED_ORIGINS origin method path auth text s
  = match m s with (inl v, s') => (http_send 200 (Some v), s') | (inr e, s') => let '(status, body) := toOpaqueApiError e in (http_send status (Some body), s') end.
Proof.
  intros Hm Hr. unfold handle. rewrite Hr. destruct (String.eqb_spec method "OPTIONS"); [contradiction|].
  destruct origin_allowed as [->| ->]; cbn [negb andb]; [reflexivity|]. now destruct (blank origin).
Qed.

Lemma fetched (path method auth : string) (hs : Headers) (body : option json) (s : Protocol) : header "Authorization" hs = auth ->
  fetch (baseUrl ++ path) method hs body s
  = let '(r, s') := handle serverSetup sessionTtlMs tokenTtlMs rateLimitWindowMs rateLimitAttempts random_bytes ALLOWED_ORIGINS origin
                      method path auth (match body with Some v => stringify_with 0 v | None => "" end) s in (Some r, s').
Proof. intros <-. unfold server_fetch. now rewrite startsWith_app, slice_from_app. Qed.

Lemma http_send_refused (n : nat) (b : option json) : (300 <= n)%nat -> ok (http_send n b) = false.
Proof. intros H. cbn [ok http_send]. apply andb_false_intro2. now apply Nat.ltb_ge. Qed.

(** An answer the client takes is the route's. *)
Lemma post_answered (path : string) (handler : json -> S json) (l : list (string * json)) (v : json) (s s' : Protocol) :
  posted_to path handler -> (forall j, refuses (handler j)) ->
  postJson fetch baseUrl path (JObj l) s = (inl v, s') -> handler (JObj l) s = (inl v, s').
Proof.
  intros Hp Hh. unfold postJson. rewrite (fetched path "POST" "") by reflexivity. rewrite (handled "POST" path "" _ _ _ ltac:(discriminate) (Hp "" _)).
  unfold with_body, ebind, lift_sum, readJson. destruct (_ >? _); [intros [=]|]. rewrite not_blank, parse_stringified. cbn iota.
  destruct (handler (JObj l) s) as [[w|e] s1] eqn:E; [now intros [= -> ->]|].
  apply Hh in E. unfold refused in E. unfold toOpaqueApiError. rewrite http_send_refused; [intros [=]|].
  destruct (se_status e) as [n|]; cbn; lia.
Qed.

(** A small request is answered as the route answers it. *)
Lemma post_answers (path : string) (handler : json -> S json) (l : list (string * json)) (v : json) (s s' : Protocol) :
  posted_to path handler -> Z.of_nat (String.length (stringify_with 0 (JObj l))) <= 16384 ->
  handler (JObj l) s = (inl v, s') -> postJson fetch baseUrl path (JObj l) s = (inl v, s').
Proof.
  intros Hp Hl Hh. unfold postJson. rewrite (fetched path "POST" "") by reflexivity. rewrite (handled "POST" path "" _ _ _ ltac:(discriminate) (Hp "" _)).
  unfold with_body, ebind, lift_sum, readJson. destruct (Z.gtb_spec (Z.of_nat (String.length (stringify_with 0 (JObj l)))) (16 * 1024)); [lia|].
  rewrite not_blank, parse_stringified. cbn iota. now rewrite Hh.
Qed.

Lemma write_string_length (s r : string) : (String.length (write_string s r) <= 6 * String.length s + 2 + String.length r)%nat.
Proof. unfold write_string. cbn [String.length]. pose proof (escape_at_most s (String dquote r)) as H. cbn [String.length] in H. lia. Qed.

(** The length of a request with two texts. *)
Lemma request_length (k1 v1 k2 v2 : string) :
  (String.length (stringify_with 0 (JObj [(k1, JStr v1); (k2, JStr v2)]))
   <= 6 * (String.length k1 + String.length v1 + String.length k2 + String.length v2) + 13)%nat.
Proof.
  set (w4 := write_string v2 "}"). set (w3 := write_string k2 (":" ++ w4)). set (w2 := write_string v1 ("," ++ w3)).
  change (stringify_with 0 _) with ("{" ++ write_string k1 (":" ++ w2)).
  pose proof (write_string_length k1 (":" ++ w2)) as H1. pose proof (write_string_length v1 ("," ++ w3)) as H2.
  pose proof (write_string_length k2 (":" ++ w4)) as H3. pose proof (write_string_length v2 "}") as H4.
  fold w2 in H2. fold w3 in H3. fold w4 in H4. rewrite str_length_app in H1, H2, H3. rewrite str_length_app. cbn [String.length] in *. lia.
Qed.

(** *** The four requests of the client *)

Abbreviation the_transport := (server_transport serverSetup sessionTtlMs tokenTtlMs rateLimitWindowMs rateLimitAttempts random_bytes ALLOWED_ORIGINS baseUrl origin).

Lemma text_of (k v : string) (l : list (string * json)) : get_prop k (JObj l) = Some (JStr v) -> text_member k (JObj l) = v.
Proof. intros H. unfold text_member. rewrite H. now destruct v. Qed.

Lemma asked_registration (acc req response : string) (s s' : Protocol) :
  startRegistration the_transport acc req s = (inl response, s') -> server_startRegistration serverSetup (Some acc) (Some req) s = (inl response, s').
Proof.
  intros H. apply ebind_inl in H as (v & s1 & H & Hr). injection Hr as Hr ->.
  apply (post_answered _ (fun v => run! response <- server_startRegistration serverSetup (member "account" v) (member "registrationRequest" v) in
    eret (string_member "registrationResponse" response))) in H.
  - apply ebind_inl in H as (r & s2 & H & E). injection E as E ->.
    change (server_startRegistration serverSetup (Some acc) (Some req) s = (inl r, s')) in H.
    rewrite H, <- Hr, <- E. do 2 f_equal. symmetry. now apply text_of.
  - now intros auth text.
  - intros j. apply refuses_bind; [|intros r; apply refuses_total; now eexists]. unfold server_startRegistration.
    apply refuses_bind; [apply refuses_account|intros n]. apply refuses_bind; [apply refuses_valid|intros q]. apply refuses_library.
Qed.

Lemma finished_registration (acc rec tok : string) (token : option string) (s s' : Protocol) :
  finishRegistration the_transport acc rec token s = (inl tok, s') -> finish_registration (Some acc) (Some rec) token s = (inl tok, s').
Proof.
  intros H. apply ebind_inl in H as (v & s1 & H & Hr). injection Hr as Hr ->.
  apply (post_answered _ (fun v => run! token <- finish_registration (member "account" v) (member "registrationRecord" v) (member "managementToken" v) in
    eret (string_member "managementToken" token))) in H.
  - apply ebind_inl in H as (r & s2 & H & E). injection E as E ->.
    replace (member "account" _) with (Some acc) in H by (now destruct token). replace (member "registrationRecord" _) with (Some rec) in H by (now destruct token).
    replace (member "managementToken" _) with token in H by (now destruct token). rewrite H, <- Hr, <- E. do 2 f_equal. symmetry. now apply text_of.
  - now intros auth text.
  - intros j. apply refuses_bind; [apply refuses_finish_registration|intros r; apply refuses_total; now eexists].
Qed.

Abbreviation begin_handler := (fun v => run! ' (loginId, loginResponse) <- begin_login (member "account" v) (member "startLoginRequest" v) in
    eret (JObj [("loginId", JStr loginId); ("loginResponse", JStr loginResponse)])).
Abbreviation end_handler := (fun v => run! token <- end_login (member "loginId" v) (member "finishLoginRequest" v) in
    eret (string_member "managementToken" token)).

Lemma asked_login (acc req id response : string) (s s' : Protocol) :
  startLogin the_transport acc req s = (inl (id, response), s') -> begin_login (Some acc) (Some req) s = (inl (id, response), s').
Proof.
  intros H. apply ebind_inl in H as (v & s1 & H & Hr). injection Hr as Hi Hr ->. apply (post_answered _ begin_handler) in H.
  - apply ebind_inl in H as ([i r] & s2 & H & E). injection E as E ->.
    change (begin_login (Some acc) (Some req) s = (inl (i, r), s')) in H. rewrite H, <- Hr, <- Hi, <- E. do 3 f_equal; symmetry; now apply text_of.
  - now intros auth text.
  - intros j. apply refuses_bind; [apply refuses_begin|intros [i r]; apply refuses_total; now eexists].
Qed.

Lemma finished_login (id req tok : string) (s s' : Protocol) :
  finishLogin the_transport id req s = (inl tok, s') -> end_login (Some id) (Some req) s = (inl tok, s').
Proof.
  intros H. apply ebind_inl in H as (v & s1 & H & Hr). injection Hr as Hr ->. apply (post_answered _ end_handler) in H.
  - apply ebind_inl in H as (r & s2 & H & E). injection E as E ->.
    change (end_login (Some id) (Some req) s = (inl r, s')) in H. rewrite H, <- Hr, <- E. do 2 f_equal. symmetry. now apply text_of.
  - now intros auth text.
  - intros j. apply refuses_bind; [apply refuses_end|intros r; apply refuses_total; now eexists].
Qed.

(** A message of the protocol as its library encodes it. *)
Definition opaque_message (m : string) : Prop := (16 <= String.length m <= 1024)%nat /\ OPAQUE_VALUE_PATTERN m = true.

Lemma message_valid (m field : string) (n : nat) : opaque_message m -> (String.length m <= n)%nat -> validateOpaqueValue (Some m) field n = inl m.
Proof.
  intros [[H1 H2] H3] Hn. unfold validateOpaqueValue. rewrite H3. destruct (Nat.ltb_spec (String.length m) 16); [lia|].
  destruct (Nat.ltb_spec n (String.length m)); [lia|]. reflexivity.
Qed.

Lemma send_login (acc req id response : string) (s s' : Protocol) : ACCOUNT_PATTERN acc = true -> opaque_message req ->
  begin_login (Some acc) (Some req) s = (inl (id, response), s') -> startLogin the_transport acc req s = (inl (id, response), s').
Proof.
  intros Ha [[_ Hreq] _] H. apply andb_prop in Ha as [_ Ha%Nat.leb_le]. cbn [startLogin server_transport createFetchTransport]. unfold ebind at 1.
  rewrite (post_answers _ begin_handler _ (JObj [("loginId", JStr id); ("loginResponse", JStr response)]) s s').
  - unfold eret. rewrite (text_of "loginId" id), (text_of "loginResponse" response) by reflexivity. reflexivity.
  - now intros auth text.
  - pose proof (request_length "account" acc "startLoginRequest" req). cbn [String.length] in *. lia.
  - unfold ebind. change (member "account" _) with (Some acc). change (member "startLoginRequest" _) with (Some req). now rewrite H.
Qed.

Lemma send_proof (id req tok : string) (s s' : Protocol) : opaque_message id -> opaque_message req ->
  end_login (Some id) (Some req) s = (inl tok, s') -> finishLogin the_transport id req s = (inl tok, s').
Proof.
  intros [[_ Hid] _] [[_ Hreq] _] H. cbn [finishLogin server_transport createFetchTransport]. unfold ebind at 1.
  rewrite (post_answers _ end_handler _ (string_member "managementToken" tok) s s').
  - unfold string_member, eret. rewrite (text_of "managementToken" tok) by reflexivity. reflexivity.
  - now intros auth text.
  - pose proof (request_length "loginId" id "finishLoginRequest" req). cbn [String.length] in *. lia.
  - unfold ebind. change (member "loginId" _) with (Some id). change (member "finishLoginRequest" _) with (Some req). now rewrite H.
Qed.

(** *** What the server has done when it answers *)

Lemma registration_stored (acc rec tok : string) (t : option string) (s s' : Protocol) : finish_registration (Some acc) (Some rec) t s = (inl tok, s') ->
  ACCOUNT_PATTERN (canonical (Some acc)) = true /\ loaded (store s') = true
  /\ exists v, records (store s') !! canonical (Some acc) = Some v /\ registration_of v = Some rec.
Proof.
  intros H. unfold server_finishRegistration in H. inv_run H. inv_run H. inv_run H. inv_run H.
  assert (Hx : x = canonical (Some acc) /\ ACCOUNT_PATTERN x = true).
  { unfold lift_sum, normalizeAccount in E. destruct (ACCOUNT_PATTERN _) eqn:Ep; [|discriminate E]. now injection E as <- <-. }
  destruct Hx as [-> Hpat]. assert (Hrec : x0 = rec).
  { unfold lift_sum, validateOpaqueValue in E0. destruct (_ || _); [discriminate E0|]. now injection E0 as <- <-. }
  subst x0. destruct x2; cbn [negb] in H; [|discriminate H]. inv_run H. inv_run H. cbn in E4. injection E4 as <- <-.
  apply issue_spec in H as (tk & _ & _ & Hst & _). rewrite Hst. cbn. split; [exact Hpat|].
  unfold in_store in E3. destruct (put _ _ _ (store s3)) as [r st] eqn:Ep. injection E3 as -> <-. cbn.
  apply put_spec in Ep as [(? & ? & _ & [=] & _)|(s1' & v & El & Hv & Ep)]. apply load_spec in El as (Hl & _).
  apply persist_spec in Ep as (-> & -> & _). cbn. split; [exact Hl|]. exists v. now rewrite lookup_insert_eq.
Qed.

Lemma get_loaded (acc : string) (s s' : Protocol) (o : option json) : in_store (get acc) s = (inl o, s') ->
  loaded (store s') = true /\ o = records (store s') !! acc /\ clock s' = clock s /\ logins s' = logins s /\ attempts s' = attempts s
  /\ (loaded (store s) = true -> s' = s).
Proof.
  unfold in_store. destruct (get acc (store s)) as [r st] eqn:E. intros [= -> <-]. apply get_spec in E as [E Ho].
  apply load_spec in E as (Hl & _ & _ & _ & _ & Hs & _). cbn. split_and!; try reflexivity; [exact Hl|now apply Ho|].
  intros Hb. destruct (Hs Hb) as [-> _]. now destruct s.
Qed.

(** A login that was begun: the state the library made is kept under the id. *)
Lemma login_begun (acc req id response : string) (s s' : Protocol) : begin_login (Some acc) (Some req) s = (inl (id, response), s') ->
  loaded (store s') = true
  /\ exists st n, let a := canonical (Some acc) in
     server_startLogin serverSetup (match records (store s') !! a with Some v => registration_of v | None => None end) req a a OPAQUE_SERVER_ID n
       = Some (st, response)
     /\ logins s' !! id = Some (mkLoginEntry a st (clock s' + sessionTtlMs)).
Proof.
  intros H. unfold server_begin_login, answer_login in H. inv_run H. inv_run H.
  assert (Hx : x = canonical (Some acc)) by (unfold lift_sum in E; injection E as E _; now apply normalize_canonical). subst x.
  assert (Hreq : x0 = req) by (unfold lift_sum, validateOpaqueValue in E0; destruct (_ || _); [discriminate E0|]; now injection E0 as <- <-). subst x0.
  inv_run H. inv_run H. inv_run H. inv_run H. destruct x2 as [st r]. inv_run H. inv_run H. injection H as <- <- <-. injection E6 as _ <-.
  apply get_loaded in E2 as (Hl & -> & Hc & Hlog & _). unfold fresh_draw in E3. injection E3 as <- <-. unfold library, lift_sum in E4.
  destruct (server_startLogin _ _ _ _ _ _ _) as [[st' r']|] eqn:Es; [|discriminate E4]. injection E4 as -> -> <-.
  unfold tokenValue, ebind, fresh_draw, eret in E5. injection E5 as <- <-. cbn in *. split; [exact Hl|].
  eexists st, _. split; [exact Es|]. now rewrite lookup_insert_eq.
Qed.

Lemma begin_login_account (acc req id response : string) (s s' : Protocol) :
  begin_login (Some acc) (Some req) s = (inl (id, response), s') -> ACCOUNT_PATTERN (canonical (Some acc)) = true.
Proof.
  intros H. unfold server_begin_login, answer_login in H. inv_run H. unfold lift_sum, normalizeAccount in E. unfold canonical.
  destruct (ACCOUNT_PATTERN _); [reflexivity|discriminate E].
Qed.

(** A login that was finished: the state it began with accepts the proof, and the attempts are forgotten. *)
Lemma login_ended (id req tok : string) (s s' : Protocol) : end_login (Some id) (Some req) s = (inl tok, s') ->
  exists e, logins s !! id = Some e /\ server_finishLogin req (serverLoginState e) (l_account e) OPAQUE_SERVER_ID = true
    /\ store s' = store s /\ attempts s' !! l_account e = None.
Proof.
  intros H. unfold server_end_login in H. inv_run H. inv_run H. inv_run H. inv_run H. inv_run H.
  assert (Hid : x = id) by (unfold lift_sum, validateOpaqueValue in E; destruct (_ || _); [discriminate E|]; now injection E as <- <-). subst x.
  assert (Hreq : x0 = req) by (unfold lift_sum, validateOpaqueValue in E0; destruct (_ || _); [discriminate E0|]; now injection E0 as <- <-). subst x0.
  unfold lift_sum in E, E0. injection E as _ <-. injection E0 as _ <-. cbn in E1. injection E1 as _ <-. injection E2 as <- <-. injection E3 as <- <-. cbn in H.
  destruct (filter _ (logins s) !! id) as [e|] eqn:El; [|discriminate H]. apply map_lookup_filter_Some in El as [El _].
  exists e. destruct (l_expiresAt e <=? clock s); [discriminate H|]. destruct (server_finishLogin _ _ _ _) eqn:Ef; [|discriminate H]. cbn [negb] in H.
  inv_run H. injection E as _ <-. apply issue_spec in H as (tk & _ & _ & Hst & _ & _ & Ha). split_and!; [exact El|reflexivity|exact Hst|].
  rewrite Ha. cbn. apply map_lookup_filter_None. left. apply lookup_delete_eq.
Qed.

(** *** The protocol of the library, on both sides *)

(** What RFC 9807 promises of two correct halves: [registered record account pin key] relates a
    record to the pin and to the export key it was made with. *)
Class OpaqueCorrect (O : OpaqueLib) : Type := {
  registered : string -> string -> string -> string -> Prop;
  registration_correct : forall acc pin n response,
    let '(state, req) := client_startRegistration pin n in
    server_createRegistrationResponse serverSetup acc req = Some response ->
    let r := client_finishRegistration state response pin acc OPAQUE_SERVER_ID in
    registered (registrationRecord r) acc pin (r_exportKey r);
  login_sound : forall acc pin n m record st response r,
    let '(state, req) := client_startLogin pin n in
    server_startLogin serverSetup record req acc acc OPAQUE_SERVER_ID m = Some (st, response) ->
    client_finishLogin state response pin acc OPAQUE_SERVER_ID = Some r ->
    exists rec, record = Some rec /\ registered rec acc pin (exportKey r);
  login_complete : forall acc pin n m rec key, registered rec acc pin key ->
    let '(state, req) := client_startLogin pin n in
    exists st response r,
      server_startLogin serverSetup (Some rec) req acc acc OPAQUE_SERVER_ID m = Some (st, response)
      /\ client_finishLogin state response pin acc OPAQUE_SERVER_ID = Some r
      /\ exportKey r = key /\ serverStaticPublicKey r = server_getPublicKey serverSetup
      /\ server_finishLogin (finishLoginRequest r) st acc OPAQUE_SERVER_ID = true /\ opaque_message (finishLoginRequest r);
  login_message : forall pin n, opaque_message (client_startLogin pin n).2
}.

Hypothesis session_positive : 0 < sessionTtlMs.
Hypothesis drawn_bytes : forall n k, bytes (random_bytes n k).
Hypothesis drawn_length : forall n k, length (random_bytes n k) = k.

Lemma url_safe_chars (s : string) : str_all is_b64 s = true -> str_all opaque_char (url_safe s) = true.
Proof.
  induction s as [|c s IH]; [easy|]. cbn [str_all]. intros H. apply andb_prop in H as [Hc H]. unfold url_safe in *. cbn [str_map str_all].
  rewrite IH by exact H. rewrite andb_true_r. destruct c as [[] [] [] [] [] [] [] []]; try discriminate Hc; reflexivity.
Qed.

(** A token is forty-three characters of the alphabet of messages. *)
Lemma token_form (n : nat) : String.length (bytesToBase64Url (random_bytes n 32)) = 43%nat /\ opaque_message (bytesToBase64Url (random_bytes n 32)).
Proof.
  pose proof (drawn_length n 32) as Hl. pose proof (b64_digits_all _ (drawn_bytes n 32)) as Ha. set (l := random_bytes n 32) in *.
  assert (E : bytesToBase64Url l = url_safe (b64_digits l)).
  { unfold bytesToBase64Url, btoa. rewrite url_safe_app, url_safe_padding. apply strip_kept. now apply url_safe_not_eq. }
  assert (H43 : String.length (bytesToBase64Url l) = 43%nat).
  { rewrite E. unfold url_safe. rewrite !str_map_length. clear -Hl. do 32 (destruct l as [|? l]; [discriminate Hl|]). destruct l; [reflexivity|discriminate Hl]. }
  split; [exact H43|]. split; [lia|]. unfold OPAQUE_VALUE_PATTERN. rewrite H43, E, url_safe_chars by exact Ha. reflexivity.
Qed.

(** The account has attempts left. *)
Definition attempts_left (s : Protocol) (acc : string) : Prop :=
  match attempts s !! acc with Some e => resetAt e <= clock s \/ attempt_count e < rateLimitAttempts | None => True end.

Lemma consume_left (acc : string) (s : Protocol) : attempts_left s acc ->
  exists s1, consumeAttempt rateLimitWindowMs rateLimitAttempts acc s = (inl tt, s1) /\ store s1 = store s /\ clock s1 = clock s.
Proof.
  intros H. unfold consumeAttempt, ebind, cleanup, modify. cbn. destruct (filter _ (attempts s) !! acc) as [e|] eqn:E.
  - apply map_lookup_filter_Some in E as [E Hlt]. unfold attempts_left in H. rewrite E in H. cbn in Hlt.
    destruct (Z.leb_spec (resetAt e) (clock s)); [lia|]. destruct (Z.leb_spec rateLimitAttempts (attempt_count e)); [lia|].
    eexists. now split_and!.
  - eexists. now split_and!.
Qed.

Lemma canonical_proper (acc : string) : proper acc -> canonical (Some acc) = acc.
Proof. intros H. exact H. Qed.

Lemma normalize_proper (acc : string) : proper acc -> ACCOUNT_PATTERN acc = true -> normalizeAccount (Some acc) = inl acc.
Proof. intros Hp Ha. unfold normalizeAccount. rewrite Hp. now rewrite Ha. Qed.

Lemma begin_succeeds (acc req : string) (s : Protocol) (v : json) (rec : string) :
  proper acc -> ACCOUNT_PATTERN acc = true -> opaque_message req -> attempts_left s acc -> loaded (store s) = true ->
  records (store s) !! acc = Some v -> registration_of v = Some rec ->
  (forall m, exists st response, server_startLogin serverSetup (Some rec) req acc acc OPAQUE_SERVER_ID m = Some (st, response)) ->
  exists id st response m s', begin_login (Some acc) (Some req) s = (inl (id, response), s')
    /\ server_startLogin serverSetup (Some rec) req acc acc OPAQUE_SERVER_ID m = Some (st, response)
    /\ opaque_message id /\ (String.length id <= 256)%nat /\ logins s' !! id = Some (mkLoginEntry acc st (clock s' + sessionTtlMs)) /\ store s' = store s.
Proof.
  intros Hp Ha Hm Hl Hload Hv Hrec Hlib. unfold server_begin_login, answer_login, ebind, lift_sum. rewrite normalize_proper by assumption.
  rewrite message_valid by (assumption || (destruct Hm as [[_ Hm] _]; lia)). destruct (consume_left acc s Hl) as (s1 & -> & Hst & Hc).
  unfold in_store, get, ebind, load. rewrite Hst, Hload. cbn -[bytesToBase64Url]. rewrite Hv, Hrec.
  destruct (Hlib (next_draw s1)) as (st' & response' & E). unfold library, lift_sum. rewrite E. cbn -[bytesToBase64Url].
  do 5 eexists. split; [reflexivity|]. split; [exact E|]. destruct (token_form (Datatypes.S (next_draw s1))) as [H43 Htok].
  split; [exact Htok|]. split; [lia|]. cbn -[bytesToBase64Url].
  split; [now rewrite lookup_insert_eq|reflexivity].
Qed.

Lemma end_succeeds (id req : string) (s : Protocol) (e : LoginEntry) : opaque_message id -> opaque_message req -> (String.length id <= 256)%nat ->
  logins s !! id = Some e -> clock s < l_expiresAt e -> server_finishLogin req (serverLoginState e) (l_account e) OPAQUE_SERVER_ID = true ->
  exists tok s', end_login (Some id) (Some req) s = (inl tok, s').
Proof.
  intros Hid Hreq H256 He Hlt Hf. unfold server_end_login, ebind, lift_sum. rewrite (message_valid id) by assumption.
  rewrite (message_valid req) by (assumption || (destruct Hreq as [[_ Hreq] _]; lia)). cbn -[issueManagementToken].
  assert (E : filter (fun kv => clock s < l_expiresAt kv.2) (logins s) !! id = Some e) by (apply map_lookup_filter_Some; now split).
  rewrite E. destruct (Z.leb_spec (l_expiresAt e) (clock s)); [lia|]. rewrite Hf. cbn [negb].
  destruct (issueManagementToken tokenTtlMs random_bytes (l_account e) _) as [r s'] eqn:Ei. pose proof Ei as Ej.
  apply issue_spec in Ei as (tok & -> & _). now exists tok, s'.
Qed.

Context {O : OpaqueLib} {OC : OpaqueCorrect O}.
Hypothesis window_positive : 0 < rateLimitWindowMs.

(** The server knows the account with a pin that exports the key. *)
Definition server_enrolled (s : Protocol) (acc pin key : string) : Prop :=
  proper acc /\ ACCOUNT_PATTERN acc = true /\ loaded (store s) = true
  /\ exists v rec, records (store s) !! acc = Some v /\ registration_of v = Some rec /\ registered rec acc pin key.

(** The server keeps what the keyring asks of a verification server. *)
#[export, refine] Instance server_laws : OpaqueLaws the_transport (server_getPublicKey serverSetup) := {
  enrolled := server_enrolled;
  answers := attempts_left
}.
Proof.
  - intros srv acc pin n response srv1 token tok srv2. pose proof (registration_correct acc pin n response) as Hlib.
    destruct (client_startRegistration pin n) as [state req]. cbv zeta in *. intros H1 H2 Hp. apply asked_registration in H1. apply finished_registration in H2.
    apply registration_stored in H2 as (Ha & Hl & v & Hv & Hrec). rewrite (canonical_proper acc Hp) in *.
    split; [exact Hp|]. split; [exact Ha|]. split; [exact Hl|]. eexists v, _. split; [exact Hv|]. split; [exact Hrec|]. apply Hlib.
    unfold server_startRegistration in H1. inv_run H1. inv_run H1. unfold lift_sum in E, E0. injection E as E _. apply normalize_canonical in E as ->.
    rewrite (canonical_proper acc Hp) in H1. assert (x0 = req) by (unfold validateOpaqueValue in E0; destruct (_ || _); [discriminate E0|]; now injection E0). subst x0.
    unfold library, lift_sum in H1. destruct (server_createRegistrationResponse _ _ _); [now injection H1 as -> _|discriminate H1].
  - intros srv acc pin n id response srv1 r tok srv2. pose proof (login_sound acc pin n) as Hlib. destruct (client_startLogin pin n) as [state req].
    intros H1 Hc H2 Hp. apply asked_login in H1. apply finished_login in H2. pose proof (begin_login_account acc req id response srv srv1 H1) as Ha.
    apply login_begun in H1 as (Hl & st & m & Hs & _). apply login_ended in H2 as (e & _ & _ & Hst & _). rewrite (canonical_proper acc Hp) in *.
    destruct (Hlib m _ st response r Hs Hc) as (rec & Hrec & Hreg). split; [exact Hp|]. split; [exact Ha|]. rewrite Hst. split; [exact Hl|].
    destruct (records (store srv1) !! acc) as [v|] eqn:Ev; [|discriminate Hrec]. now exists v, rec.
  - intros srv acc pin key n (Hp & Ha & Hl & v & rec & Hv & Hrec & Hreg) Hleft. pose proof (login_message pin n) as Hm.
    pose proof (fun m => login_complete acc pin n m rec key Hreg) as Hlib. destruct (client_startLogin pin n) as [state req]. cbn in Hm.
    destruct (begin_succeeds acc req srv v rec Hp Ha Hm Hleft Hl Hv Hrec) as (id & st & response & m & s1 & Hb & Hs & Hid & H256 & Hlog & Hst).
    { intros m. destruct (Hlib m) as (st & response & r & H & _). now exists st, response. }
    destruct (Hlib m) as (st' & response' & r & Hs' & Hc & Hk & Hpk & Hf & Hfm). rewrite Hs in Hs'. injection Hs' as <- <-.
    destruct (end_succeeds id (finishLoginRequest r) s1 _ Hid Hfm H256 Hlog) as (tok & s2 & He); [cbn; lia|exact Hf|].
    exists id, response, s1, r, tok, s2. split; [now apply send_login|]. split; [exact Hc|]. split; [exact Hk|]. split; [exact Hpk|].
    split; [now apply send_proof|]. apply login_ended in He as (e & He & _ & Hst2 & Hatt). rewrite Hlog in He. injection He as <-. cbn in Hatt.
    split; [|unfold attempts_left; now rewrite Hatt]. split; [exact Hp|]. split; [exact Ha|]. rewrite Hst2, Hst. split; [exact Hl|]. now exists v, rec.
Defined.

End Transport.

(** ** The keyring through the server *)

Section EndToEnd.
Context {A : Type} {L : OpaqueServerLib} {O : OpaqueLib} {WC : WebCrypto} {WL : WebCryptoLaws WC} {P : PkCrypto} {K : Kdf} {LK : LegacyKdf}.
Variables (serverSetup : string) (sessionTtlMs tokenTtlMs rateLimitWindowMs rateLimitAttempts : Z) (server_random : nat -> nat -> list Z).
Variables (ALLOWED_ORIGINS : list string) (origin : string).
Context {OC : OpaqueCorrect serverSetup O}.
Hypothesis origin_allowed : blank origin = true \/ existsb (String.eqb origin) ALLOWED_ORIGINS = true.
Hypothesis session_positive : 0 < sessionTtlMs.
Hypothesis server_bytes : forall n k, bytes (server_random n k).
Hypothesis server_length : forall n k, length (server_random n k) = k.

(** The page is built with the URL and the public key of the server. *)
Variables (VITE_OPAQUE_SERVER_URL : string) (env_key : option string).
Variables (random_bytes : nat -> nat -> list Z) (navigator : option (Container A)) (hostname : option string).
Hypothesis url_set : blank (normalizeBaseUrl (trim VITE_OPAQUE_SERVER_URL)) = false.
Hypothesis key_set : getExpectedServerPublicKey None env_key = inl (server_getPublicKey serverSetup).
Hypothesis drawn : forall n k, bytes (random_bytes n k).

Definition built (baseUrl : string) : Transport Protocol :=
  server_transport serverSetup sessionTtlMs tokenTtlMs rateLimitWindowMs rateLimitAttempts server_random ALLOWED_ORIGINS baseUrl origin.

Abbreviation save := (saveKeyPair None built (Some VITE_OPAQUE_SERVER_URL) None env_key random_bytes).
Abbreviation unlock := (getDecryptedPrivateKey None built (Some VITE_OPAQUE_SERVER_URL) None env_key random_bytes navigator hostname).

(** The server, later. *)
Definition with_server (w : World Protocol A) (s : Protocol) : World Protocol A :=
  set_opaque w (mkOpaque (managementTokens (opaque_state w)) s (draws (opaque_state w))).

(** C11: A pair that was saved with a pin while the server was reached is unlocked with the pin,
    later, when the server has served others, has waited or was started again: as long as it
    holds the account's record and the account has attempts left. *)
Theorem keyring_through_server (acc acc' pub priv pin pin' : string) (w w' : World Protocol A) (later : Protocol) :
  save acc pub priv pin w = (inl tt, w') -> trim acc = acc ->
  loaded (store later) = true ->
  records (store later) !! toLowerCase acc = records (store (server (opaque_state w'))) !! toLowerCase acc ->
  attempts_left rateLimitAttempts later (toLowerCase acc) ->
  toLowerCase acc' = toLowerCase acc -> trim pin' = trim pin ->
  exists w1 w2, ClientKeyring.lockAccount acc' (with_server w' later) = (inl tt, w1) /\ isUnlocked acc' w1 = false
    /\ unlock acc' pin' w1 = (inl priv, w2).
Proof.
  set (base := normalizeBaseUrl (trim VITE_OPAQUE_SERVER_URL)).
  assert (Ht : getTransport None built (Some VITE_OPAQUE_SERVER_URL) = inl (built base)).
  { unfold getTransport. replace (or_empty (Some VITE_OPAQUE_SERVER_URL)) with VITE_OPAQUE_SERVER_URL by (now destruct VITE_OPAQUE_SERVER_URL).
    now rewrite url_set. }
  pose (laws := server_laws serverSetup sessionTtlMs tokenTtlMs rateLimitWindowMs rateLimitAttempts server_random ALLOWED_ORIGINS base origin
                  origin_allowed session_positive server_bytes server_length).
  intros Hsave Hacc Hload Hrec Hleft Ha Hp. assert (Hb : blank acc = false).
  { unfold saveKeyPair in Hsave. destruct (blank acc); [discriminate Hsave|reflexivity]. }
  assert (Hb' : blank acc' = false).
  { destruct acc' as [|c a]; [|reflexivity]. destruct acc as [|d b]; [discriminate Hb|discriminate Ha]. }
  assert (Hproper : proper (toLowerCase acc)) by (unfold proper; now rewrite trim_lower, toLowerCase_idem, Hacc).
  apply (save_unlockable _ _ _ _ _ _ _ _ (OL := laws) Ht key_set drawn) in Hsave as ((r & env & key & Hm & Hs & Hra & Hrp & Hro & He & Hw) & Hpin & _).
  destruct (He Hproper) as (_ & Hpat & _ & v & rec & Hv & Hreg).
  assert (Hlater : enrolled (OpaqueLaws := laws) later (toLowerCase acc) (trim pin) key).
  { split; [exact Hproper|]. split; [exact Hpat|]. split; [exact Hload|]. exists v, rec. now rewrite Hrec. }
  destruct (lock_account acc' (with_server w' later) Hb') as (w1 & Hl & Hc & Hst & Hi & Hsv & _). rewrite Ha in Hc.
  destruct (unlock_with_pin None built (Some VITE_OPAQUE_SERVER_URL) None env_key random_bytes navigator hostname _ _ (OL := laws) Ht key_set
              acc' pin' pub priv w1) as [w2 Hu].
  - exact Hb'.
  - now rewrite Hp.
  - now rewrite Ha.
  - rewrite Ha, Hp. exists r, env, key. rewrite Hst, Hi, Hsv. split_and!; try assumption; try apply Hw. now intros _.
  - now rewrite Ha.
  - rewrite Ha, Hsv. exact Hleft.
  - exists w1, w2. split; [exact Hl|]. split; [|exact Hu]. unfold isUnlocked. rewrite Hb', Ha, Hc.
    now rewrite bool_decide_false by (intros [? ?]; discriminate).
Qed.

End EndToEnd.

(** ** A witness *)

Module DemoOpaque.
Import Mirror Pair DemoServer.

#[export] Instance both_sides : OpaqueLib := {
  client_startLogin pin n := (pin, padded);
  client_finishLogin state response pin acc id := if String.eqb response (record_of pin) then Some (mkLogin (export_of pin) "K" padded) else None;
  client_startRegistration pin n := (pin, padded);
  client_finishRegistration state response pin acc id := mkRegistration (record_of pin) (export_of pin) "K"
}.

Lemma padded_message : opaque_message padded.
Proof. split; [cbn; lia|reflexivity]. Qed.

#[export, refine] Instance both_correct : OpaqueCorrect "setup" both_sides := {
  registered rec acc pin key := rec = record_of pin /\ key = export_of pin
}.
Proof.
  - intros acc pin n response. cbn. now split.
  - intros acc pin n m record st response r. cbn. intros [= <- <-]. destruct record as [rec|]; [|discriminate].
    destruct (String.eqb_spec rec (record_of pin)) as [->|]; [|discriminate]. intros [= <-]. exists (record_of pin). now split.
  - intros acc pin n m rec key [-> ->]. cbn. exists "state", (record_of pin), (mkLogin (export_of pin) "K" padded).
    rewrite String.eqb_refl. split_and!; try reflexivity; apply padded_message.
  - intros pin n. apply padded_message.
Defined.

Definition transport (base : string) : Transport Protocol := built "setup" 60000 1000 60000 5 random ["https://app"] "https://app" base.
Definition start : World Protocol unit := mkWorld Idb_works ∅ ∅ ∅ ∅ (mkOpaque ∅ started 0) tt 1700000000000.
Abbreviation save := (saveKeyPair None transport (Some "https://keys/") None (Some "K") plain_random).
Definition saved : World Protocol unit := (save "0xAlice" (pub_of 7) (priv_of 7) "1234" start).2.

Lemma random_ok (n k : nat) : bytes (random n k) /\ length (random n k) = k.
Proof.
  split; [|apply repeat_length]. apply List.Forall_forall. intros z Hz. apply repeat_spec in Hz. subst z. unfold is_byte. apply Z.mod_pos_bound. lia.
Qed.

(** The server an hour later, when its tables have been emptied. *)
Definition an_hour_later : Protocol :=
  let s := server (opaque_state saved) in mkProtocol (store s) ∅ ∅ ∅ (clock s + 3600000) (next_draw s).

Lemma keyring_through_server_witness :
  exists w1 w2, ClientKeyring.lockAccount "0xALICE" (with_server saved an_hour_later) = (inl tt, w1) /\ isUnlocked "0xALICE" w1 = false
    /\ getDecryptedPrivateKey None transport (Some "https://keys/") None (Some "K") plain_random (Some container) None "0xALICE" " 1234" w1
       = (inl (priv_of 7), w2).
Proof.
  apply (keyring_through_server "setup" 60000 1000 60000 5 random ["https://app"] "https://app" (OC := both_correct)
           (or_intror eq_refl) ltac:(lia) (fun n k => proj1 (random_ok n k)) (fun n k => proj2 (random_ok n k)) "https://keys/" (Some "K")
           plain_random (Some container) None eq_refl eq_refl plain_random_bytes "0xAlice" "0xALICE" (pub_of 7) (priv_of 7) "1234" " 1234" start saved an_hour_later).
  - vm_compute. reflexivity.
  - reflexivity.
  - vm_compute. reflexivity.
  - reflexivity.
  - exact I.
  - reflexivity.
  - reflexivity.
Defined.

End DemoOpaque.
