(* ===== verification/SessionLock.v ===== *)
(** * SessionLock: sessionLock.service.ts

    The manager next to the keyring whose cache it purges.  A timer of the platform fires at its
    deadline or at any time after it, as [setTimeout] promises no more: time passes an armed
    deadline, and an activity may come before the late timer.  The accounts provider,
    [getRandomValues] and [onLock] may throw; the state is then the one they threw in. *)

From Stdlib Require Import Ascii String ZArith Lia Bool.
From stdpp Require Import base list gmap strings.
From S2P Require Import Prelude Bytes JsString WebCrypto JsonText JsNumber KeyInbox Ecies Passphrase OpaqueKeyring WebAuthn ClientKeyring ClientKeyringProofs.

Open Scope list_scope.
Open Scope Z_scope.

Definition MIN_IDLE_MS : Z := 60000.
Definition MAX_IDLE_MS : Z := 15 * 60000.
Definition DEFAULT_IDLE_MS : Z := 5 * 60000.

(** [Math.floor] of m * 10^e *)
Definition floor (m e : Z) : Z := if 0 <=? e then m * 10 ^ e else m / 10 ^ (- e).

Definition clampIdleTimeout (ms : option number) : Z :=
  match ms with
  | Some (Fin m e) => Z.min MAX_IDLE_MS (Z.max MIN_IDLE_MS (floor m e))
  | _ => DEFAULT_IDLE_MS
  end.

Section Lock.
Context {Srv A : Type} {WC : WebCrypto}.
(** Random bytes of a length, by the number of the draw; the accounts to purge; the callback. *)
Variables (random_bytes : nat -> nat -> res (list Z))
  (accountsProvider : option (World Srv A -> res (list string))) (onLock : list string -> res unit).

(** The manager: [idleTimer] is the field, [armed] the deadline of the platform's timer, both
    named by their deadline; the keyring; the accounts of each notification, latest first. *)
Record LockState : Type := mkLock {
  idleTimeoutMs : Z; running : bool; listening : bool; idleTimer : option Z; armed : option Z;
  keyring : World Srv A; randoms : nat; notified : list (list string)
}.

Definition new_manager (ms : option number) (w : World Srv A) : LockState :=
  mkLock (clampIdleTimeout ms) false false None None w 0 [].

Definition set_timer (s : LockState) (d a : option Z) : LockState :=
  mkLock (idleTimeoutMs s) (running s) (listening s) d a (keyring s) (randoms s) (notified s).
Definition set_running (s : LockState) (b : bool) : LockState :=
  mkLock (idleTimeoutMs s) b b (idleTimer s) (armed s) (keyring s) (randoms s) (notified s).
Definition set_keyring (s : LockState) (w : World Srv A) (n : nat) : LockState :=
  mkLock (idleTimeoutMs s) (running s) (listening s) (idleTimer s) (armed s) w n (notified s).

Definition clearIdleTimer (s : LockState) : LockState :=
  match idleTimer s with Some _ => set_timer s None None | None => s end.

(** Timers are absolute times here. *)
Definition resetIdleTimer (now : Z) (s : LockState) : LockState :=
  let s := clearIdleTimer s in
  if running s then set_timer s (Some (now + idleTimeoutMs s)) (Some (now + idleTimeoutMs s)) else s.

Definition start (now : Z) (s : LockState) : LockState :=
  if running s then s else resetIdleTimer now (set_running s true).

Definition stop (s : LockState) : LockState :=
  if running s then clearIdleTimer (set_running s false) else s.

(** [zeroKeyBuffer(bytes)]: the buffer is filled with random bytes in place. *)
Definition zeroKeyBuffer (id n : nat) (w : World Srv A) : World Srv A * res unit :=
  match buffers w !! id with
  | None | Some [] => (w, Ok tt)
  | Some buf =>
      match random_bytes n (length buf) with
      | Throw e => (w, Throw e)
      | Ok bytes => (set_cache w (sessionKeyCache w) (<[id := bytes]> (buffers w)), Ok tt)
      end
  end.

Definition zero_account (acc : string) (s : LockState) : LockState * res unit :=
  if blank acc then (s, Ok tt)
  else match sessionKeyCache (keyring s) !! toLowerCase acc with
       | Some id => let '(w, r) := zeroKeyBuffer id (randoms s) (keyring s) in (set_keyring s w (S (randoms s)), r)
       | None => (s, Ok tt)
       end.

Fixpoint zero_accounts (l : list string) (s : LockState) : LockState * res unit :=
  match l with
  | [] => (s, Ok tt)
  | acc :: l =>
      match zero_account acc s with
      | (s, Ok _) => zero_accounts l s
      | (s, Throw e) => (s, Throw e)
      end
  end.

Definition lockNow (s : LockState) : LockState * res unit :=
  match match accountsProvider with Some f => f (keyring s) | None => Ok [] end with
  | Throw e => (s, Throw e)
  | Ok accounts =>
      match zero_accounts accounts s with
      | (s, Throw e) => (s, Throw e)
      | (s, Ok _) =>
          let s := set_keyring s (clearSessionCache (keyring s)).2 (randoms s) in
          let s := stop s in
          (mkLock (idleTimeoutMs s) (running s) (listening s) (idleTimer s) (armed s) (keyring s) (randoms s)
             (accounts :: notified s), onLock accounts)
      end
  end.

(** ** Events *)

(** The handlers of the events the manager listens to. *)
Definition on_activity (now : Z) (s : LockState) : LockState := if listening s then resetIdleTimer now s else s.
Definition on_visibility (hidden : bool) (s : LockState) : LockState * res unit :=
  if listening s && hidden then lockNow s else (s, Ok tt).
Definition on_blur (s : LockState) : LockState * res unit := if listening s then lockNow s else (s, Ok tt).
(** The timer fires: the field keeps it until [stop] clears it. *)
Definition on_timer (s : LockState) : LockState * res unit := lockNow (set_timer s (idleTimer s) None).

Definition returned {X : Type} (r : res X) : bool := match r with Ok _ => true | Throw _ => false end.

(** Runs of the manager: the time, the time the timer was last set, whether no lock has thrown
    since, the state.  Nothing bounds how late a timer fires. *)
Inductive run (ms : option number) : Z -> Z -> bool -> LockState -> Prop :=
| Run_new t w : run ms t t true (new_manager ms w)
| Run_wait t t' last ok s : run ms t last ok s -> t <= t' -> run ms t' last ok s
| Run_start t last ok s : run ms t last ok s ->
    run ms t (if running s then last else t) (negb (running s) || ok) (start t s)
| Run_stop t last ok s : run ms t last ok s -> run ms t last ok (stop s)
| Run_reset t last ok s : run ms t last ok s ->
    run ms t (if running s then t else last) (running s || ok) (resetIdleTimer t s)
| Run_activity t last ok s : run ms t last ok s ->
    run ms t (if listening s && running s then t else last) (listening s && running s || ok) (on_activity t s)
| Run_lock t last ok s : run ms t last ok s -> run ms t last (ok && returned (lockNow s).2) (lockNow s).1
| Run_visibility t last ok s b : run ms t last ok s ->
    run ms t last (ok && returned (on_visibility b s).2) (on_visibility b s).1
| Run_blur t last ok s : run ms t last ok s -> run ms t last (ok && returned (on_blur s).2) (on_blur s).1
| Run_timer t last ok s d : run ms t last ok s -> armed s = Some d -> d <= t ->
    run ms t last (ok && returned (on_timer s).2) (on_timer s).1
| Run_keyring t last ok s w n : run ms t last ok s -> run ms t last ok (set_keyring s w n).

(** What holds of the manager's own fields. *)
Record lock_invariant (ms : option number) (now last : Z) (ok : bool) (s : LockState) : Prop := {
  window : idleTimeoutMs s = clampIdleTimeout ms;
  listens : listening s = running s;
  field : idleTimer s = if running s then Some (last + idleTimeoutMs s) else None;
  ticking : armed s = idleTimer s \/ armed s = None /\ ok = false;
  past : last <= now
}.

Lemma idle_bounds (ms : option number) : MIN_IDLE_MS <= clampIdleTimeout ms <= MAX_IDLE_MS.
Proof. unfold MIN_IDLE_MS, MAX_IDLE_MS. destruct ms as [[| |m e]|]; cbn [clampIdleTimeout]; unfold DEFAULT_IDLE_MS, MIN_IDLE_MS, MAX_IDLE_MS; lia. Qed.

(** The fields that only [start], [stop] and [resetIdleTimer] change. *)
Definition same_manager (s s' : LockState) : Prop :=
  idleTimeoutMs s' = idleTimeoutMs s /\ running s' = running s /\ listening s' = listening s
  /\ idleTimer s' = idleTimer s /\ armed s' = armed s.

Lemma same_invariant (ms : option number) (now last : Z) (ok : bool) (s s' : LockState) :
  same_manager s s' -> lock_invariant ms now last ok s -> lock_invariant ms now last ok s'.
Proof. intros (E1 & E2 & E3 & E4 & E5) [H1 H2 H3 H4 H5]. split; rewrite ?E1, ?E2, ?E3, ?E4, ?E5; assumption. Qed.

Lemma zero_accounts_same (l : list string) (s : LockState) :
  same_manager s (zero_accounts l s).1
  /\ sessionKeyCache (keyring (zero_accounts l s).1) = sessionKeyCache (keyring s)
  /\ managementTokens (opaque_state (keyring (zero_accounts l s).1)) = managementTokens (opaque_state (keyring s)).
Proof.
  revert s. induction l as [|a l IH]; intros s; [repeat split|]. cbn [zero_accounts].
  assert (H : same_manager s (zero_account a s).1
    /\ sessionKeyCache (keyring (zero_account a s).1) = sessionKeyCache (keyring s)
    /\ managementTokens (opaque_state (keyring (zero_account a s).1)) = managementTokens (opaque_state (keyring s))).
  { unfold zero_account. destruct (blank a); [repeat split|].
    destruct (sessionKeyCache (keyring s) !! toLowerCase a) as [id|]; [|repeat split]. unfold zeroKeyBuffer.
    destruct (buffers (keyring s) !! id) as [[|x buf]|]; [repeat split| |repeat split].
    destruct (random_bytes _ _); repeat split. }
  destruct (zero_account a s) as [s1 [[]|e]]; [|exact H]. cbn [fst] in H. destruct H as ((E1 & E2 & E3 & E4 & E5) & Hc & Ht).
  destruct (IH s1) as ((F1 & F2 & F3 & F4 & F5) & Gc & Gt). rewrite Gc, Gt. split; [|auto]. unfold same_manager. intuition congruence.
Qed.

(** A lock that throws before it stops leaves the manager as it was; the others stop it. *)
Lemma lockNow_manager (s : LockState) :
  same_manager s (lockNow s).1 /\ returned (lockNow s).2 = false \/ same_manager (stop s) (lockNow s).1.
Proof.
  unfold lockNow. destruct (match accountsProvider with Some f => f (keyring s) | None => Ok [] end) as [accounts|e];
    [|left; repeat split].
  destruct (zero_accounts_same accounts s) as ((E1 & E2 & E3 & E4 & E5) & _).
  destruct (zero_accounts accounts s) as [s1 [[]|e]]; cbn [fst snd] in *; [right|left; repeat split; assumption].
  unfold stop, clearIdleTimer, same_manager. cbn. rewrite E2.
  destruct (running s) eqn:R; cbn; rewrite ?E4; try destruct (idleTimer s) eqn:T; cbn; repeat split; congruence.
Qed.

Lemma stop_invariant (ms : option number) (now last : Z) (ok : bool) (s : LockState) :
  lock_invariant ms now last ok s -> lock_invariant ms now last ok (stop s).
Proof.
  intros [H1 H2 H3 H4 H5]. unfold stop. destruct (running s) eqn:R; [|now split; rewrite ?R].
  unfold clearIdleTimer. cbn. rewrite H3. split; cbn; auto.
Qed.

Lemma reset_invariant (ms : option number) (now last : Z) (ok : bool) (s : LockState) :
  lock_invariant ms now last ok s ->
  lock_invariant ms now (if running s then now else last) (running s || ok) (resetIdleTimer now s).
Proof.
  intros [H1 H2 H3 H4 H5]. unfold resetIdleTimer, clearIdleTimer. rewrite H3.
  destruct (running s) eqn:R; cbn; rewrite ?R; split; cbn; rewrite ?R; auto; lia.
Qed.

Lemma lock_keeps_invariant (ms : option number) (now last : Z) (ok : bool) (s : LockState) :
  lock_invariant ms now last ok s -> lock_invariant ms now last (ok && returned (lockNow s).2) (lockNow s).1.
Proof.
  assert (K : forall s' b, lock_invariant ms now last ok s' -> lock_invariant ms now last (ok && b) s').
  { intros s' b [H1 H2 H3 [H4|[H4 ->]] H5]; split; auto. }
  intros H. destruct (lockNow_manager s) as [[E _]|E]; apply K; eapply same_invariant; eauto using stop_invariant.
Qed.

(** A fired timer: unless the lock returns, the field names a timer that is not armed any more. *)
Lemma timer_keeps_invariant (ms : option number) (now last : Z) (ok : bool) (s : LockState) :
  lock_invariant ms now last ok s -> lock_invariant ms now last (ok && returned (on_timer s).2) (on_timer s).1.
Proof.
  intros [H1 H2 H3 H4 H5]. unfold on_timer. set (s1 := set_timer s (idleTimer s) None).
  assert (H : lock_invariant ms now last false s1) by (split; cbn; auto).
  destruct (lockNow_manager s1) as [[E ->]|E].
  - rewrite andb_false_r. apply (same_invariant _ _ _ _ _ _ E H).
  - apply stop_invariant in H. apply (same_invariant _ _ _ _ _ _ E) in H. destruct H as [G1 G2 G3 G4 G5].
    destruct E as (_ & E2 & _ & E4 & E5). split; auto. left. rewrite E4, E5.
    unfold stop, clearIdleTimer. cbn. destruct (running s); cbn; destruct (idleTimer s); try reflexivity. discriminate H3.
Qed.

Lemma run_invariant (ms : option number) (now last : Z) (ok : bool) (s : LockState) :
  run ms now last ok s -> lock_invariant ms now last ok s.
Proof.
  induction 1 as [t w|t t' last ok s H IH Ht|t last ok s H IH|t last ok s H IH|t last ok s H IH|t last ok s H IH
    |t last ok s H IH|t last ok s b H IH|t last ok s H IH|t last ok s d H IH Hd Hle|t last ok s w n H IH].
  - split; cbn; auto; lia.
  - destruct IH as [H1 H2 H3 H4 H5]. split; auto. lia.
  - unfold start. destruct (running s) eqn:R; [exact IH|]. destruct IH as [H1 H2 H3 H4 H5]. rewrite R in H3.
    unfold resetIdleTimer, clearIdleTimer. cbn. rewrite H3. split; cbn; auto. lia.
  - now apply stop_invariant.
  - now apply reset_invariant.
  - unfold on_activity. pose proof (listens _ _ _ _ _ IH) as Hl. destruct (listening s); [|exact IH].
    pose proof (reset_invariant ms t last ok s IH) as K. now rewrite <- Hl in K |- *.
  - now apply lock_keeps_invariant.
  - unfold on_visibility. destruct (listening s && b); [now apply lock_keeps_invariant|]. cbn. now rewrite andb_true_r.
  - unfold on_blur. destruct (listening s); [now apply lock_keeps_invariant|]. cbn. now rewrite andb_true_r.
  - now apply timer_keeps_invariant.
  - destruct IH. now split.
Qed.

(** ** What locking erases *)

Definition erased (w : World Srv A) (id : nat) : Prop := forall b, buffers w !! id = Some b -> List.Forall (eq 0) b.

Lemma wipe_erases (a : string) (w : World Srv A) :
  exists w', wipeCachedPrivateKey a w = (inl tt, w') /\ sessionKeyCache w' = delete a (sessionKeyCache w)
    /\ (forall id, sessionKeyCache w !! a = Some id \/ erased w id -> erased w' id).
Proof.
  unfold wipeCachedPrivateKey. destruct (sessionKeyCache w !! a) as [i|] eqn:E.
  - eexists. split; [reflexivity|]. split; [reflexivity|]. intros id H b. cbn. destruct (decide (i = id)) as [->|Hne].
    + rewrite lookup_alter_eq. destruct (buffers w !! id); [|discriminate]. intros [= <-]. apply List.Forall_forall.
      intros z Hz. apply in_map_iff in Hz as (? & <- & _). reflexivity.
    + rewrite lookup_alter_ne by exact Hne. destruct H as [[= ?]|H]; [congruence|apply H].
  - exists w. split; [reflexivity|]. split; [now rewrite delete_id|]. intros id [?|H]; [discriminate|exact H].
Qed.

Lemma wipe_all_erases (l : list string) (w : World Srv A) (id : nat) :
  (exists a, a ∈ l /\ sessionKeyCache w !! a = Some id) \/ erased w id -> erased (wipe_all l w).2 id.
Proof.
  revert w. induction l as [|a l IH]; intros w H; cbn [wipe_all].
  - destruct H as [(b & Hb & _)|H]; [now apply elem_of_nil in Hb|exact H].
  - destruct (wipe_erases a w) as (w1 & E & Hc & He). unfold ebind. rewrite E. apply IH.
    destruct H as [(b & [->|Hb]%elem_of_cons & Hw)|H].
    + right. apply He. now left.
    + destruct (decide (b = a)) as [->|Hne]; [right; apply He; now left|].
      left. exists b. split; [exact Hb|]. now rewrite Hc, lookup_delete_ne by congruence.
    + right. apply He. now right.
Qed.

Lemma clear_erases (w : World Srv A) (a : string) (id : nat) :
  sessionKeyCache w !! a = Some id -> erased (clearSessionCache w).2 id.
Proof.
  intros H. destruct (wipe_all_spec (getUnlockedAccounts w) w) as (w1 & E & _).
  pose proof (wipe_all_erases (getUnlockedAccounts w) w id) as K. unfold clearSessionCache, ebind. rewrite E in K |- *. cbn in *. apply K.
  left. exists a. split; [|exact H]. unfold getUnlockedAccounts. apply list_elem_of_fmap. exists (a, id). split; [reflexivity|]. now apply elem_of_map_to_list.
Qed.

(** Locking, when it returns, empties the session: whatever the accounts the provider lists, no
    account stays unlocked, no management token stays, the buffer of every key that was cached
    holds zeros, the manager has stopped and the accounts have been handed to [onLock]. *)
Lemma lock_empties (s : LockState) : (lockNow s).2 = Ok tt ->
  let s' := (lockNow s).1 in
  getUnlockedAccounts (keyring s') = [] /\ managementTokens (opaque_state (keyring s')) = ∅
  /\ (forall a id, sessionKeyCache (keyring s) !! a = Some id -> erased (keyring s') id)
  /\ running s' = false
  /\ exists accounts, match accountsProvider with Some f => f (keyring s) | None => Ok [] end = Ok accounts
       /\ hd_error (notified s') = Some accounts.
Proof.
  intros Hok. cbv zeta. destruct (lockNow_manager s) as [[_ E]|(_ & R & _)]; [now rewrite Hok in E|].
  replace (running (stop s)) with false in R by (unfold stop, clearIdleTimer; destruct (running s) eqn:R';
    [cbn; destruct (idleTimer s); reflexivity|now rewrite R']).
  unfold lockNow in *. destruct (match accountsProvider with Some f => f (keyring s) | None => Ok [] end) as [accounts|e];
    [|discriminate Hok].
  destruct (zero_accounts_same accounts s) as (_ & Hc & Hm). destruct (zero_accounts accounts s) as [s1 [[]|e]]; [|discriminate Hok].
  cbn [fst snd keyring notified hd_error] in *.
  assert (Hk : forall s2, keyring (stop s2) = keyring s2)
    by (intros s2; unfold stop, clearIdleTimer; destruct (running s2); [cbn; now destruct (idleTimer s2)|reflexivity]).
  rewrite Hk. cbn [set_keyring keyring]. destruct (clear_cache (keyring s1)) as (w & E & Hw & Ht & _).
  split; [|split; [|split; [|split; [exact R|now exists accounts]]]].
  - rewrite E. cbn. unfold getUnlockedAccounts. now rewrite Hw, map_to_list_empty.
  - now rewrite E.
  - intros a id Ha. apply (clear_erases _ a). now rewrite Hc.
Qed.

(** C38: In every state the manager reaches, however late the platform's timers fire and whatever throws, the
    idle window is one to fifteen minutes, the manager listens exactly while it runs, it holds no
    timer when it does not run, and while it runs its timer is set for a window after the last
    activity and is armed, unless a lock has thrown since.  While none has, the timer can fire at
    any time from its deadline on, and if that lock returns the manager has stopped, no account is
    unlocked and the buffer of every cached key holds zeros. *)
Theorem session_invariant (ms : option number) (now last : Z) (ok : bool) (s : LockState) :
  run ms now last ok s ->
  MIN_IDLE_MS <= idleTimeoutMs s <= MAX_IDLE_MS /\ listening s = running s /\ last <= now
  /\ (running s = false -> idleTimer s = None /\ armed s = None)
  /\ (running s = true -> idleTimer s = Some (last + idleTimeoutMs s)
       /\ (armed s = idleTimer s \/ armed s = None /\ ok = false))
  /\ (running s = true -> ok = true -> forall t, now <= t -> last + idleTimeoutMs s <= t ->
        run ms t last (returned (on_timer s).2) (on_timer s).1
        /\ ((on_timer s).2 = Ok tt -> running (on_timer s).1 = false /\ getUnlockedAccounts (keyring (on_timer s).1) = []
             /\ forall a id, sessionKeyCache (keyring s) !! a = Some id -> erased (keyring (on_timer s).1) id)).
Proof.
  intros H. destruct (run_invariant ms now last ok s H) as [H1 H2 H3 H4 H5]. pose proof (idle_bounds ms).
  rewrite H1. do 3 (split; [assumption|]). split; [|split].
  - intros R. rewrite R in H3. split; [assumption|]. destruct H4 as [->|[H4 _]]; assumption.
  - intros R. rewrite R, H1 in H3. auto.
  - intros R -> t Ht Hd. rewrite R, H1 in H3. split.
    + apply (Run_timer ms t last true s (last + clampIdleTimeout ms)); [now apply (Run_wait _ now)| |exact Hd].
      destruct H4 as [->|[_ ?]]; [assumption|discriminate].
    + intros Hl. destruct (lock_empties _ Hl) as (A1 & _ & A2 & A3 & _). auto.
Qed.

(** A lock whose provider or random source throws purges nothing: the manager runs on and its timer
    is gone, so the keys stay unlocked until the next event. *)
Theorem failed_lock_disarms (s : LockState) (e : string) :
  match accountsProvider with Some f => f (keyring s) | None => Ok [] end = Throw e ->
  on_timer s = (set_timer s (idleTimer s) None, Throw e)
  /\ getUnlockedAccounts (keyring (on_timer s).1) = getUnlockedAccounts (keyring s).
Proof. intros E. unfold on_timer, lockNow. cbn [set_timer keyring]. now rewrite E. Qed.

End Lock.

(** ** A session *)

(** A window of 90 s; a start at the time 5, a mouse move 30 s later, then a sleep of an hour, and the
    mouse moves again before the overdue timer fires. *)
Definition unlocked_accounts : option (World Server unit -> res (list string)) := Some (fun w => Ok (getUnlockedAccounts w)).
Definition plain_draws (n len : nat) : res (list Z) := Ok (plain_random n len).
Definition session_started : LockState := start 5 (new_manager (Some (Fin 90 3)) generated).
Definition session_moved : LockState := on_activity 30005 session_started.
Definition watched : LockState := on_activity 3630005 session_moved.

Lemma session_invariant_witness :
  running watched = true /\ armed watched = Some 3720005 /\ getUnlockedAccounts (keyring watched) = ["0xalice"%string]
  /\ running (on_timer plain_draws unlocked_accounts (fun _ => Ok tt) watched).1 = false
  /\ getUnlockedAccounts (keyring (on_timer plain_draws unlocked_accounts (fun _ => Ok tt) watched).1) = [].
Proof.
  assert (H : run plain_draws unlocked_accounts (fun _ => Ok tt) (Some (Fin 90 3)) 3630005 3630005 true watched).
  { apply (Run_activity _ _ _ _ 3630005 30005 true session_moved). apply (Run_wait _ _ _ _ 30005); [|lia].
    apply (Run_activity _ _ _ _ 30005 5 true session_started). apply (Run_wait _ _ _ _ 5); [|lia].
    exact (Run_start _ _ _ _ 5 5 true _ (Run_new _ _ _ _ 5 generated)). }
  destruct (session_invariant plain_draws unlocked_accounts (fun _ => Ok tt) _ _ _ _ _ H) as (_ & _ & _ & _ & _ & K).
  destruct (K eq_refl eq_refl 3720005 ltac:(lia) ltac:(vm_compute; discriminate)) as [_ K'].
  destruct K' as (K1 & K2 & _); [vm_compute; reflexivity|]. repeat split; try (vm_compute; reflexivity); assumption.
Defined.

(** The provider throws. *)
Lemma failed_lock_disarms_witness :
  getUnlockedAccounts (keyring (on_timer plain_draws (Some (fun _ => Throw "no wallet")) (fun _ => Ok tt) watched).1) = ["0xalice"%string].
Proof.
  destruct (failed_lock_disarms plain_draws (Some (fun _ => Throw "no wallet")) (fun _ => Ok tt) watched "no wallet" eq_refl) as [_ E].
  rewrite E. vm_compute. reflexivity.
Defined.
