(* ===== verification/KeyStore.v ===== *)
(** * KeyStore: keyStore.service.ts and the mock storage of stellar.service.ts

    A web storage is its items and the calls that throw: reading may throw, and so may
    writing, which depends on the item and on what is stored (the quota).  Document ids are
    integers of the chain, or a number that is not finite. *)

From Stdlib Require Import Ascii String ZArith Lia Bool.
From stdpp Require Import base list gmap strings.
From S2P Require Import Prelude JsString JsonText KeyInbox JsonParse.

Open Scope list_scope.
Open Scope Z_scope.

(** ** Web storage *)

Record Storage : Type := mkStorage {
  items : gmap string string; readable : bool; removable : bool; quota : gmap string string -> string -> string -> bool
}.
Definition set_items (s : Storage) (m : gmap string string) : Storage := mkStorage m (readable s) (removable s) (quota s).

(** [getItem], [setItem] and [removeItem]; [None] when the call throws. *)
Definition getItem (s : Storage) (key : string) : option (option string) := if readable s then Some (items s !! key) else None.
Definition setItem (s : Storage) (key value : string) : option Storage :=
  if quota s (items s) key value then Some (set_items s (<[key := value]> (items s))) else None.
Definition removeItem (s : Storage) (key : string) : option Storage :=
  if removable s then Some (set_items s (delete key (items s))) else None.

(** ** The document keys *)

Definition SESSION_PREFIX : string := "spoovault-doc-key-session-".
Definition LEGACY_PREFIX : string := "spoovault-doc-key-".
Definition getSessionKey (documentId : Z) : string := (SESSION_PREFIX ++ num_str documentId)%string.
Definition getLegacyKey (documentId : Z) : string := (LEGACY_PREFIX ++ num_str documentId)%string.

Definition safeGet (s : Storage) (key : string) : option string :=
  match getItem s key with Some v => v | None => None end.
Definition safeSet (s : Storage) (key value : string) : bool * Storage :=
  match setItem s key value with Some s' => (true, s') | None => (false, s) end.
Definition safeRemove (s : Storage) (key : string) : Storage :=
  match removeItem s key with Some s' => s' | None => s end.

(** The storages of the page; there is none without a window. *)
Record Page : Type := mkPage { hasWindow : bool; sessionStorage : Storage; localStorage : Storage }.
Definition canUseStorage (w : Page) : bool := hasWindow w.

Definition usable (w : Page) (documentId : option Z) : option Z :=
  if canUseStorage w then
    match documentId with Some d => if d <=? 0 then None else Some d | None => None end
  else None.

Definition migrateLegacyKey (documentId : Z) (w : Page) : option string * Page :=
  if negb (canUseStorage w) then (None, w)
  else match safeGet (localStorage w) (getLegacyKey documentId) with
       | None | Some EmptyString => (None, w)
       | Some legacyValue =>
           (Some legacyValue,
            mkPage (hasWindow w) (safeSet (sessionStorage w) (getSessionKey documentId) legacyValue).2
              (safeRemove (localStorage w) (getLegacyKey documentId)))
       end.

Definition get_key (documentId : option Z) (w : Page) : option string * Page :=
  match usable w documentId with
  | None => (None, w)
  | Some d =>
      match safeGet (sessionStorage w) (getSessionKey d) with
      | None | Some EmptyString => migrateLegacyKey d w
      | Some value => (Some value, w)
      end
  end.

Definition set_key (documentId : option Z) (key : string) (w : Page) : bool * Page :=
  match usable w documentId with
  | None => (false, w)
  | Some d =>
      let normalized := trim key in
      if blank normalized then (false, w)
      else
        let '(didSave, s) := safeSet (sessionStorage w) (getSessionKey d) normalized in
        (didSave, mkPage (hasWindow w) s (safeRemove (localStorage w) (getLegacyKey d)))
  end.

Definition remove_key (documentId : option Z) (w : Page) : Page :=
  match usable w documentId with
  | None => w
  | Some d => mkPage (hasWindow w) (safeRemove (sessionStorage w) (getSessionKey d)) (safeRemove (localStorage w) (getLegacyKey d))
  end.

(** ** The abstract store: a key for a document *)

(** A storage no call of which throws. *)
Definition works (s : Storage) : Prop := readable s = true /\ removable s = true /\ forall m k v, quota s m k v = true.
Definition page_works (w : Page) : Prop := hasWindow w = true /\ works (sessionStorage w) /\ works (localStorage w).

Definition nonempty (v : option string) : option string := match v with Some EmptyString => None | _ => v end.

(** The key of a document: the one of the session, or else the legacy one. *)
Definition key_of (w : Page) (d : Z) : option string :=
  match nonempty (items (sessionStorage w) !! getSessionKey d) with
  | Some v => Some v
  | None => nonempty (items (localStorage w) !! getLegacyKey d)
  end.

Definition update (f : Z -> option string) (d : Z) (v : option string) : Z -> option string :=
  fun d' => if d' =? d then v else f d'.

Lemma prefix_inj (p s t : string) : (p ++ s = p ++ t)%string -> s = t.
Proof. induction p as [|c p IH]; [exact id|]. intros [= H]. now apply IH. Qed.

Lemma session_keys (a b : Z) : 0 <= a -> 0 <= b -> a <> b -> getSessionKey a <> getSessionKey b.
Proof. intros Ha Hb Hn H. apply Hn, num_str_inj; try assumption. now apply (prefix_inj SESSION_PREFIX). Qed.
Lemma legacy_keys (a b : Z) : 0 <= a -> 0 <= b -> a <> b -> getLegacyKey a <> getLegacyKey b.
Proof. intros Ha Hb Hn H. apply Hn, num_str_inj; try assumption. now apply (prefix_inj LEGACY_PREFIX). Qed.

(** The calls on storages that work. *)
Lemma safe_calls (s : Storage) (k v : string) : works s ->
  safeGet s k = items s !! k /\ safeSet s k v = (true, set_items s (<[k := v]> (items s))) /\ safeRemove s k = set_items s (delete k (items s)).
Proof. intros (Hr & Hd & Hq). unfold safeGet, getItem, safeSet, setItem, safeRemove, removeItem. now rewrite Hr, Hd, Hq. Qed.

Lemma works_set (s : Storage) (m : gmap string string) : works s -> works (set_items s m).
Proof. exact id. Qed.

Lemma usable_works (w : Page) (d : Z) : page_works w -> 0 < d -> usable w (Some d) = Some d.
Proof. intros [H _] Hd. unfold usable, canUseStorage. rewrite H. destruct (Z.leb_spec d 0); [lia|reflexivity]. Qed.

(** Keys of other documents are untouched by a write or a removal for [d]. *)
Lemma key_of_updated (w : Page) (d : Z) (ms ml : gmap string string) (vs vl : option string) :
  0 < d -> (forall k, k <> getSessionKey d -> ms !! k = items (sessionStorage w) !! k) ->
  (forall k, k <> getLegacyKey d -> ml !! k = items (localStorage w) !! k) ->
  ms !! getSessionKey d = vs -> ml !! getLegacyKey d = vl ->
  forall d', 0 < d' ->
  key_of (mkPage (hasWindow w) (set_items (sessionStorage w) ms) (set_items (localStorage w) ml)) d'
  = update (key_of w) d (match nonempty vs with Some v => Some v | None => nonempty vl end) d'.
Proof.
  intros Hd Hs Hl Es El d' Hd'. unfold update. destruct (Z.eqb_spec d' d) as [->|Hn]; unfold key_of; cbn.
  - now rewrite Es, El.
  - rewrite Hs, Hl; [reflexivity| |]; [apply legacy_keys|apply session_keys]; lia.
Qed.

Lemma items_id (s : Storage) : set_items s (items s) = s.
Proof. now destruct s. Qed.
Lemma page_id (w : Page) : mkPage (hasWindow w) (sessionStorage w) (localStorage w) = w.
Proof. now destruct w. Qed.

Lemma update_same (f : Z -> option string) (d d' : Z) : update f d (f d) d' = f d'.
Proof. unfold update. now destruct (Z.eqb_spec d' d) as [->|]. Qed.

Ltac updated w d vs vl Hd :=
  rewrite (key_of_updated w d _ _ vs vl Hd); try assumption; try (apply lookup_insert_eq || apply lookup_delete_eq);
  try (intros k Hk; apply lookup_insert_ne || apply lookup_delete_ne; congruence).

(** On storages that work the service is a map from documents to keys: reading gives the
    key of the document and changes no key (a legacy key moves to the session), writing a key
    that is not blank stores it without the white space around it, a blank one is refused, and
    removing clears it; no call touches the key of another document. *)
Theorem key_store_refines (w : Page) (d : Z) :
  page_works w -> 0 < d ->
  (let '(v, w1) := get_key (Some d) w in
   v = key_of w d /\ page_works w1 /\ forall d', 0 < d' -> key_of w1 d' = key_of w d')
  /\ (forall key, let '(saved, w1) := set_key (Some d) key w in
        page_works w1 /\ (if blank (trim key) then saved = false /\ w1 = w
                          else saved = true /\ forall d', 0 < d' -> key_of w1 d' = update (key_of w) d (Some (trim key)) d'))
  /\ (let w1 := remove_key (Some d) w in page_works w1 /\ forall d', 0 < d' -> key_of w1 d' = update (key_of w) d None d').
Proof.
  intros Hw Hd. pose proof (usable_works w d Hw Hd) as U. pose proof Hw as (Hwin & Hs & Hl).
  destruct (safe_calls _ (getLegacyKey d) "" Hl) as (Lg & _ & Lr).
  unfold get_key, set_key, remove_key, migrateLegacyKey, canUseStorage. rewrite U, Hwin, Lg, Lr. cbn [negb].
  split; [|split].
  - destruct (safe_calls _ (getSessionKey d) "" Hs) as (Sg & _ & _). rewrite Sg.
    assert (Hkey : key_of w d = match nonempty (items (sessionStorage w) !! getSessionKey d) with
      Some v => Some v | None => nonempty (items (localStorage w) !! getLegacyKey d) end) by reflexivity.
    destruct (items (sessionStorage w) !! getSessionKey d) as [[|c sv]|] eqn:Es; cbn [nonempty] in Hkey; [| now rewrite Hkey |];
      destruct (items (localStorage w) !! getLegacyKey d) as [[|c' lv]|] eqn:El; cbn [nonempty] in Hkey; try now rewrite Hkey.
    all: destruct (safe_calls _ (getSessionKey d) (String c' lv) Hs) as (_ & -> & _); cbn [snd].
    all: split; [now rewrite Hkey|]; split; [repeat split; first [exact Hwin|exact Hw|apply Hs|apply Hl|reflexivity]|]; intros d' Hd'; rewrite <- Hwin.
    all: updated w d (Some (String c' lv)) (@None string) Hd.
    all: cbn [nonempty]; rewrite <- Hkey; apply update_same.
  - intros key. destruct (blank (trim key)) eqn:Eb; [split; [exact Hw|now split]|].
    destruct (safe_calls _ (getSessionKey d) (trim key) Hs) as (_ & -> & _). split; [repeat split; first [exact Hwin|exact Hw|apply Hs|apply Hl|reflexivity]|].
    split; [reflexivity|]. intros d' Hd'. rewrite <- Hwin.
    updated w d (Some (trim key)) (@None string) Hd.
    destruct (trim key); [discriminate|reflexivity].
  - destruct (safe_calls _ (getSessionKey d) "" Hs) as (_ & _ & ->). split; [repeat split; first [exact Hwin|exact Hw|apply Hs|apply Hl|reflexivity]|].
    intros d' Hd'. rewrite <- Hwin.
    updated w d (@None string) (@None string) Hd.
    reflexivity.
Qed.

(** When the session storage refuses the write, reading a legacy key deletes it all the same:
    the first read returns the key, and every later one finds nothing. *)
Theorem migration_loses_key (w : Page) (d : Z) (v : string) :
  hasWindow w = true -> 0 < d -> readable (sessionStorage w) = true -> works (localStorage w) ->
  quota (sessionStorage w) (items (sessionStorage w)) (getSessionKey d) v = false ->
  nonempty (items (sessionStorage w) !! getSessionKey d) = None ->
  items (localStorage w) !! getLegacyKey d = Some v -> v <> ""%string ->
  exists w1, get_key (Some d) w = (Some v, w1) /\ get_key (Some d) w1 = (None, w1).
Proof.
  intros Hwin Hd Hr Hl Hq Hs Hv Hne. destruct (safe_calls _ (getLegacyKey d) "" Hl) as (Lg & _ & Lr).
  exists (mkPage true (sessionStorage w) (set_items (localStorage w) (delete (getLegacyKey d) (items (localStorage w))))).
  assert (G : forall w', hasWindow w' = true -> sessionStorage w' = sessionStorage w ->
    get_key (Some d) w' = migrateLegacyKey d w').
  { intros w' Hw' Es. unfold get_key, usable, canUseStorage. rewrite Hw'. destruct (Z.leb_spec d 0); [lia|].
    rewrite Es. unfold safeGet, getItem. rewrite Hr. now destruct (items (sessionStorage w) !! getSessionKey d) as [[|c s]|]. }
  split; rewrite G by first [assumption|reflexivity]; unfold migrateLegacyKey, canUseStorage; cbn [hasWindow localStorage]; rewrite ?Hwin; cbn [negb].
  - rewrite Lg, Hv, Lr. destruct v as [|c v]; [congruence|]. unfold safeSet, setItem. rewrite Hq. reflexivity.
  - unfold safeGet, getItem. cbn. destruct Hl as (-> & _). now rewrite lookup_delete_eq.
Qed.

(** ** The mock storage of the Stellar service *)

(** The storage of the page, when there is one, and the object that stands for it. *)
Record MockStore : Type := mkMockStore { browser : option Storage; inMemoryMockStorage : gmap string string }.

Definition mock_key (key : string) : string := ("spoovault-stellar-mock-" ++ key)%string.

(** [raw ? JSON.parse(raw) : defaults] *)
Definition parse_or (defaults : json) (raw : option string) : res json :=
  match nonempty raw with Some t => json_parse t | None => Ok defaults end.

Definition getMockStorage (key : string) (defaults : json) (w : MockStore) : res json :=
  let memory := parse_or defaults (inMemoryMockStorage w !! mock_key key) in
  match browser w with
  | None => memory
  | Some s =>
      match getItem s (mock_key key) with
      | None => memory
      | Some raw => match parse_or defaults raw with Ok v => Ok v | Throw _ => memory end
      end
  end.

Definition saveMockStorage (key : string) (data : json) (w : MockStore) : MockStore :=
  let jsonStr := stringify_with 0 data in
  let memory := mkMockStore (browser w) (<[mock_key key := jsonStr]> (inMemoryMockStorage w)) in
  match browser w with
  | None => memory
  | Some s => match setItem s (mock_key key) jsonStr with Some s' => mkMockStore (Some s') (inMemoryMockStorage w) | None => memory end
  end.

Lemma printed_nonempty (v : json) : nonempty (Some (stringify_with 0 v)) = Some (stringify_with 0 v).
Proof. pose proof (parse_stringified 0 v) as H. destruct (stringify_with 0 v); [discriminate H|reflexivity]. Qed.
Lemma parse_printed (v d : json) : parse_or d (Some (stringify_with 0 v)) = Ok v.
Proof. unfold parse_or. rewrite printed_nonempty. apply parse_stringified. Qed.

(** What is saved is read back, from the storage of the page when it takes the item, and from
    memory when it cannot be used at all; other keys are untouched. *)
Theorem mock_storage_roundtrip (w : MockStore) (key : string) (data defaults : json) :
  match browser w with
  | None => True
  | Some s => readable s = quota s (items s) (mock_key key) (stringify_with 0 data)
  end ->
  getMockStorage key defaults (saveMockStorage key data w) = Ok data
  /\ forall key' d', key' <> key -> getMockStorage key' d' (saveMockStorage key data w) = getMockStorage key' d' w.
Proof.
  intros H. unfold saveMockStorage, getMockStorage, getItem, setItem.
  assert (Hk : forall k, k <> key -> mock_key k <> mock_key key) by (intros k Hk He; apply Hk; now apply (prefix_inj "spoovault-stellar-mock-")).
  destruct (browser w) as [s|] eqn:Eb; [rewrite <- H; destruct (readable s) eqn:R|]; cbn; rewrite ?R; split.
  1, 3, 5: rewrite lookup_insert_eq, parse_printed; reflexivity.
  all: intros k d Hn; rewrite lookup_insert_ne by (apply not_eq_sym, Hk; exact Hn); rewrite ?Eb; reflexivity.
Qed.

(** A storage that reads but takes no more: the write goes to memory, and what is read
    afterwards is still the value the storage had (nothing of the write, when it had one). *)
Theorem mock_write_lost (w : MockStore) (s : Storage) (key : string) (old data defaults : json) :
  browser w = Some s -> readable s = true -> quota s (items s) (mock_key key) (stringify_with 0 data) = false ->
  getMockStorage key defaults w = Ok old -> (exists raw, items s !! mock_key key = Some raw /\ is_ok (json_parse raw) = true) ->
  getMockStorage key defaults (saveMockStorage key data w) = Ok old.
Proof.
  intros Eb R Q G (raw & Hraw & Hp). unfold saveMockStorage, getMockStorage, getItem, setItem in *. rewrite Eb, ?Q, ?R in *. cbn.
  rewrite R, Hraw in *. unfold parse_or in *. destruct raw as [|c raw]; [discriminate Hp|]. cbn [nonempty] in *.
  destruct (json_parse (String c raw)); [exact G|discriminate Hp].
Qed.

(** ** Witnesses *)

Definition empty_storage : Storage := mkStorage ∅ true true (fun _ _ _ => true).
Definition legacy_storage : Storage := set_items empty_storage {["spoovault-doc-key-5" := "K"]}.
Definition full_storage : Storage := mkStorage ∅ true true (fun _ _ _ => false).

Lemma key_store_refines_witness :
  (get_key (Some 5) (mkPage true empty_storage legacy_storage)).1 = Some "K"%string
  /\ key_of (mkPage true empty_storage legacy_storage) 5 = Some "K"%string.
Proof.
  split; [|vm_compute; reflexivity].
  destruct (key_store_refines (mkPage true empty_storage legacy_storage) 5) as [H _]; [repeat split|lia|].
  destruct (get_key (Some 5) _) as [v w1]. destruct H as [-> _]. vm_compute. reflexivity.
Defined.

Lemma migration_loses_key_witness :
  exists w1, get_key (Some 5) (mkPage true full_storage legacy_storage) = (Some "K"%string, w1) /\ get_key (Some 5) w1 = (None, w1).
Proof.
  apply (migration_loses_key (mkPage true full_storage legacy_storage) 5 "K"); try reflexivity; try (vm_compute; reflexivity); try lia; try discriminate.
  repeat split.
Defined.

Lemma mock_storage_roundtrip_witness :
  getMockStorage "vaults" (JArr []) (saveMockStorage "vaults" (JArr [JNum 1]) (mkMockStore (Some empty_storage) ∅)) = Ok (JArr [JNum 1]).
Proof. apply (mock_storage_roundtrip (mkMockStore (Some empty_storage) ∅) "vaults" (JArr [JNum 1]) (JArr [])). reflexivity. Defined.

Definition full_of_vaults : Storage := set_items full_storage {["spoovault-stellar-mock-vaults" := "[]"]}.
Lemma mock_write_lost_witness :
  getMockStorage "vaults" JNull (saveMockStorage "vaults" (JArr [JNum 1]) (mkMockStore (Some full_of_vaults) ∅)) = Ok (JArr []).
Proof.
  apply (mock_write_lost (mkMockStore (Some full_of_vaults) ∅) full_of_vaults "vaults" (JArr []) (JArr [JNum 1]) JNull); try reflexivity.
  exists "[]"%string. split; reflexivity.
Defined.
