(* ===== verification/EvmClient.v ===== *)
(** * EvmClient: the EVM contract client of contract.service.ts

    The providers, the state of the service, the receipts it waits for, the transactions
    and the views.  A provider and the deployed contract are records of calls that read
    and move a network; what [ethers] encodes and decodes is typed as in the ABI.  The
    awaits of a [Promise.all] are taken one after the other. *)

From Stdlib Require Import Ascii String ZArith Lia Bool.
From stdpp Require Import base list gmap strings.
From S2P Require Import Prelude JsString JsonText KeyInbox TtlCache KeyStore.

Open Scope list_scope.
Open Scope Z_scope.

(** ** Settings and data *)

(** [import.meta.env]: a number that is missing or does not parse is [None]. *)
Record Settings : Type := mkSettings {
  VITE_CONTRACT_ADDRESS : option string; VITE_AVALANCHE_RPC : option string; VITE_CHAIN_ID : option Z;
  VITE_TX_WAIT_TIMEOUT_MS : option Z; VITE_LOG_CHUNK_SIZE : option Z; VITE_PENDING_REQUEST_SCAN_DEPTH : option Z;
  VITE_CONTRACT_DEPLOY_BLOCK : option Z
}.

(** [!Number.isNaN(configured) && configured > 0 ? configured : d] *)
Definition positive_or (d : Z) (configured : option Z) : Z :=
  match configured with Some n => if 0 <? n then n else d | None => d end.

Definition getTxWaitTimeoutMs (e : Settings) : Z := positive_or 180000 (VITE_TX_WAIT_TIMEOUT_MS e).
Definition getLogChunkSize (e : Settings) : Z := positive_or 2000 (VITE_LOG_CHUNK_SIZE e).
Definition getConfiguredChainId (e : Settings) : Z := positive_or 0 (VITE_CHAIN_ID e).
Definition getPendingRequestScanDepth (e : Settings) : Z := positive_or 1500 (VITE_PENDING_REQUEST_SCAN_DEPTH e).

Record Log : Type := mkLog {
  address : string; blockHash : string; blockNumber : Z; log_data : string; index : Z; removed : bool;
  topics : list string; transactionHash : string; transactionIndex : Z
}.

(** The events of the ABI the service reads. *)
Inductive Event : Type :=
| VaultCreated (vaultId : Z) (creator : string)
| DocumentAdded (documentId vaultId : Z)
| AccessRequested (requestId documentId : Z) (requester : string)
| NFTMinted (tokenId : Z) (to : string) (vaultId : Z)
| GuardianAdded (vaultId : Z) (guardian : string)
| OtherEvent (event_name : string).

Record Receipt : Type := mkReceipt { status : Z; receipt_hash : string; receipt_logs : list Log }.

Record LogFilter : Type := mkFilter { f_address : string; fromBlock : Z; toBlock : Z; f_topics : json }.

Record VaultData : Type := mkVaultData {
  id : Z; creator : string; name : string; description : string; guardians : list string;
  approvalThreshold : Z; isActive : bool; createdAt : Z
}.
Record DocumentData : Type := mkDocumentData {
  doc_id : Z; doc_vaultId : Z; encryptedMetadata : string; ipfsHash : string; uploadedBy : string; uploadedAt : Z; requiredAccess : Z
}.
Record AccessRequestData : Type := mkAccessRequest {
  requestId : Z; documentId : Z; requester : string; request_status : Z; expiresAt : Z; request_createdAt : Z
}.
Record GuardianInviteData : Type := mkInviteData { invite_guardian : string; invite_vaultId : Z; accepted : bool; invite_expiresAt : Z }.
Record VaultReleaseState : Type := mkReleaseState {
  emergencyMode : bool; inactivityPeriod : Z; lastProofOfLife : Z; postDeathUnlocked : bool
}.
Record EmergencyUnlockSchedule : Type := mkSchedule { requested : bool; fulfilled : bool; unlockAt : Z; unlockBlock : Z }.
Record KeeperAuthorizationData : Type := mkKeeperAuth { keeper : string; keeper_expiresAt : Z }.
Record BLSKey : Type := mkBLSKey { blsPublicKey : string; proofOfPossession : string; isRegistered : bool }.

(** The transactions the service sends. *)
Inductive Call : Type :=
| C_createVault (name description : string) (guardians : list string) (approvalThreshold : Z)
| C_addDocument (vaultId : Z) (metadata hash : string) (requiredAccess : Z) (shares : option (list string * list string))
| C_addDocumentWithReleaseCondition (vaultId : Z) (metadata hash : string) (requiredAccess releaseCondition : Z)
    (shares : option (list string * list string))
| C_requestAccess (documentId : Z)
| C_approveAccess (requestId : Z) (share : option string)
| C_registerGuardianBLSKey (vaultId : Z) (key proof : string)
| C_approveAccessBLS (requestId : Z) (guardians : list string) (signature key : string) (shares : list string)
| C_registerPublicKey (key : string)
| C_acceptGuardianInvite (vaultId : Z)
| C_mintAccessToken (vaultId : Z) (to tokenURI : string)
| C_burnAccessToken (tokenId : Z)
| C_configureVaultRelease (vaultId inactivityPeriod : Z)
| C_proveLife (vaultId : Z)
| C_setEmergencyMode (vaultId : Z) (enabled : bool)
| C_setBeneficiary (vaultId : Z) (beneficiary : string)
| C_authorizeKeeperBySig (vaultId : Z) (keeper : string) (expiresAt : Z) (signature : string)
| C_revokeKeeper (vaultId : Z)
| C_proveLifeByKeeper (vaultId : Z)
| C_approveAccessDelegated (requestId : Z) (guardian : string) (validUntil nonce : Z) (signature : string) (share : option string)
| C_revokeDelegation (nonce : Z).

(** ** Providers and the contract, over a network [N] *)

Definition net (N A : Type) : Type := N -> res A * N.

Record Provider (N : Type) : Type := mkProvider {
  getBlockNumber : net N Z;
  getLogs : LogFilter -> net N (list Log);
  getCode : string -> net N string;
  getBlock : Z -> net N (option Z);
  waitForTransaction : string -> Z -> net N (option Receipt)
}.
Arguments getBlockNumber {N}. Arguments getLogs {N}. Arguments getCode {N}. Arguments getBlock {N}. Arguments waitForTransaction {N}.

Record Tx (N : Type) : Type := mkTx { tx_hash : option string; tx_wait : Z -> net N (option Receipt) }.
Arguments mkTx {N}. Arguments tx_hash {N}. Arguments tx_wait {N}.

(** The views of the contract the service calls. *)
Record Views (N : Type) : Type := mkViews {
  v_getVault : Z -> net N VaultData;
  v_documents : Z -> net N DocumentData;
  v_hasVaultToken : string -> Z -> net N bool;
  v_totalSupply : net N Z;
  v_hasActiveAccess : Z -> string -> net N bool;
  v_latestRequestId : Z -> string -> net N Z;
  v_accessRequests : Z -> net N AccessRequestData;
  v_hasApprovedRequest : Z -> string -> net N bool;
  v_ownerOf : Z -> net N string;
  v_tokenURI : Z -> net N string;
  v_getPendingInvites : string -> net N (list GuardianInviteData);
  v_userPublicKeys : string -> net N string;
  v_getEncryptedGuardianShare : Z -> string -> net N string;
  v_getBeneficiaryKeyShare : Z -> string -> net N string;
  v_getGuardianBLSKey : Z -> string -> net N BLSKey;
  v_documentReleaseCondition : Z -> net N Z;
  v_getVaultReleaseState : Z -> net N VaultReleaseState;
  v_getEmergencyUnlockSchedule : Z -> net N EmergencyUnlockSchedule;
  v_getVaultGID : Z -> net N string;
  v_getBeneficiary : Z -> net N string;
  v_keeperAuthorizations : Z -> net N KeeperAuthorizationData;
  v_revokedNonces : string -> Z -> net N bool
}.
Arguments v_getVault {N}. Arguments v_documents {N}. Arguments v_hasVaultToken {N}. Arguments v_totalSupply {N}. 
Arguments v_hasActiveAccess {N}. Arguments v_latestRequestId {N}. Arguments v_accessRequests {N}. Arguments 
v_hasApprovedRequest {N}. Arguments v_ownerOf {N}. Arguments v_tokenURI {N}. Arguments v_getPendingInvites {N}. 
Arguments v_userPublicKeys {N}. Arguments v_getEncryptedGuardianShare {N}. Arguments v_getBeneficiaryKeyShare {N}. 
Arguments v_getGuardianBLSKey {N}. Arguments v_documentReleaseCondition {N}. Arguments v_getVaultReleaseState {N}. 
Arguments v_getEmergencyUnlockSchedule {N}. Arguments v_getVaultGID {N}. Arguments v_getBeneficiary {N}. Arguments 
v_keeperAuthorizations {N}. Arguments v_revokedNonces {N}. 

(** EIP-712 messages. *)
Record Domain : Type := mkDomain { domain_name : string; domain_version : string; domain_chainId : Z; verifyingContract : string }.
Inductive TypedData : Type :=
| KeeperAuthorization (vaultId : Z) (keeper : string) (expiresAt nonce : Z)
| GuardianDelegation (guardian delegate : string) (vaultId validUntil nonce : Z).

(** The write contract: it submits calls, and its runner may sign typed data. *)
Record Writer (N : Type) : Type := mkWriter {
  submit : Call -> net N (Tx N);
  signTypedData : option (Domain -> TypedData -> net N string);
  w_keeperAuthNonces : Z -> net N Z
}.
Arguments submit {N}. Arguments signTypedData {N}. Arguments w_keeperAuthNonces {N}.

(** The state of the module, the storage of the page, the network and [Date.now()]. *)
Record Client (N : Type) : Type := mkClient {
  provider : option (Provider N); fallbackProviders : list (Provider N);
  readContract : option (Views N); writeContract : option (Writer N);
  verifiedAddress : option string; hasVerifiedCode : bool;
  hasActiveAccessCache : TTLCache bool; getVaultCache : TTLCache VaultData;
  localStorage : option Storage; network : N; clock : Z
}.
Arguments mkClient {N}. Arguments provider {N}. Arguments fallbackProviders {N}. Arguments readContract {N}.
Arguments writeContract {N}. Arguments verifiedAddress {N}. Arguments hasVerifiedCode {N}. Arguments hasActiveAccessCache {N}.
Arguments getVaultCache {N}. Arguments localStorage {N}. Arguments network {N}. Arguments clock {N}.

(** ** Effects *)

Definition cio (N A : Type) : Type := Client N -> res A * Client N.
Definition cret {N A : Type} (a : A) : cio N A := fun c => (Ok a, c).
Definition cthrow {N A : Type} (e : string) : cio N A := fun c => (Throw e, c).
Definition cbind {N A B : Type} (m : cio N A) (k : A -> cio N B) : cio N B :=
  fun c => match m c with (Ok a, c') => k a c' | (Throw e, c') => (Throw e, c') end.
(** [try { return await m } catch (e) { return await h(e) }] *)
Definition ccatch {N A : Type} (m : cio N A) (h : string -> cio N A) : cio N A :=
  fun c => match m c with (Throw e, c') => h e c' | r => r end.
Definition on_net {N A : Type} (m : net N A) : cio N A :=
  fun c => let '(r, n) := m (network c) in
           (r, mkClient (provider c) (fallbackProviders c) (readContract c) (writeContract c) (verifiedAddress c) (hasVerifiedCode c)
                 (hasActiveAccessCache c) (getVaultCache c) (localStorage c) n (clock c)).

Declare Scope evm_scope.
Delimit Scope evm_scope with evm.
Open Scope evm_scope.
Notation "'do!' x '<-' m 'in' k" := (cbind m (fun x => k))
  (at level 10, x name, m at level 100, k at level 200) : evm_scope.

(** [await Promise.all(l.map(f))] *)
Fixpoint cmapM {N A B : Type} (f : A -> cio N B) (l : list A) : cio N (list B) :=
  match l with
  | [] => cret []
  | x :: l' => do! y <- f x in do! ys <- cmapM f l' in cret (y :: ys)
  end.

Section State.
Context {N : Type}.

Definition set_verified (address : string) : cio N unit :=
  fun c => (Ok tt, mkClient (provider c) (fallbackProviders c) (readContract c) (writeContract c) (Some address) true
                     (hasActiveAccessCache c) (getVaultCache c) (localStorage c) (network c) (clock c)).
Definition set_access_cache (a : TTLCache bool) : cio N unit :=
  fun c => (Ok tt, mkClient (provider c) (fallbackProviders c) (readContract c) (writeContract c) (verifiedAddress c) (hasVerifiedCode c)
                     a (getVaultCache c) (localStorage c) (network c) (clock c)).
Definition set_vault_cache (v : TTLCache VaultData) : cio N unit :=
  fun c => (Ok tt, mkClient (provider c) (fallbackProviders c) (readContract c) (writeContract c) (verifiedAddress c) (hasVerifiedCode c)
                     (hasActiveAccessCache c) v (localStorage c) (network c) (clock c)).
Definition set_storage (s : option Storage) : cio N unit :=
  fun c => (Ok tt, mkClient (provider c) (fallbackProviders c) (readContract c) (writeContract c) (verifiedAddress c) (hasVerifiedCode c)
                     (hasActiveAccessCache c) (getVaultCache c) s (network c) (clock c)).
Definition gets {A : Type} (f : Client N -> A) : cio N A := fun c => (Ok (f c), c).

Definition clearAccessCache : cio N unit := do! a <- gets hasActiveAccessCache in set_access_cache (TtlCache.clear None a).
Definition vault_key (vaultId : Z) : string := ("getVault:" ++ num_str vaultId)%string.
Definition invalidateVaultCache (vaultId : Z) : cio N unit :=
  do! v <- gets getVaultCache in set_vault_cache (TtlCache.invalidate (vault_key vaultId) v).

(** [cache.getOrFetch(key, fetcher)] with no other request in the air: the entry, or the
    answer of the request this call issues. *)
Definition getOrFetch {T : Type} (cache_of : Client N -> TTLCache T) (set_cache : TTLCache T -> cio N unit)
    (key : string) (fetcher : cio N T) : cio N T :=
  do! now <- gets clock in
  do! cache <- gets cache_of in
  match TtlCache.fetch now key cache with
  | (Hit d, _) => cret d
  | (Shared _, _) => fetcher
  | (Issued request, cache') =>
      do! _ <- set_cache cache' in
      ccatch (do! d <- fetcher in
              do! cache <- gets cache_of in
              do! _ <- set_cache (TtlCache.settle now request (Some d) cache) in
              cret d)
        (fun e => do! cache <- gets cache_of in
                  do! _ <- set_cache (TtlCache.settle now request None cache) in
                  cthrow e)
  end.
End State.

(** ** The service *)

Section Service.
Context {N : Type}.
(** The settings, the provider of a URL, the contract read through a provider, the lookup
    of a function in the ABI (which may throw) and the decoding of a log. *)
Variables (env : Settings) (json_rpc : string -> Provider N) (views_at : Provider N -> Views N).
Variables (getFunction : string -> res bool) (parseLog : Log -> res (option Event)).

Abbreviation M := (cio N).

Definition getContractAddress : res string :=
  match VITE_CONTRACT_ADDRESS env with
  | None | Some EmptyString => Throw "VITE_CONTRACT_ADDRESS is not set"
  | Some a => Ok a
  end.
Definition of_res {A : Type} (r : res A) : M A := fun c => (r, c).

Definition FUJI_RPC_URLS : list string :=
  ["https://api.avax-test.network/ext/bc/C/rpc"; "https://rpc.ankr.com/avalanche_fuji"]%string.
Definition MAINNET_RPC_URLS : list string :=
  ["https://api.avax.network/ext/bc/C/rpc"; "https://rpc.ankr.com/avalanche"]%string.

(** The loop over the urls, with the set of those it has seen. *)
Fixpoint unique_urls (all seen : list string) : list string :=
  match all with
  | [] => []
  | url :: rest =>
      let normalized := trim url in
      if blank normalized || bool_decide (normalized ∈ seen) then unique_urls rest seen
      else normalized :: unique_urls rest (normalized :: seen)
  end.

Definition getRpcCandidates : list string :=
  let defaults := match VITE_CHAIN_ID env with Some 43114 => MAINNET_RPC_URLS | _ => FUJI_RPC_URLS end in
  unique_urls (match VITE_AVALANCHE_RPC env with
               | Some url => if blank (trim url) then defaults else trim url :: defaults
               | None => defaults
               end) [].

Definition getConfiguredRpcProviders : list (Provider N) := map json_rpc getRpcCandidates.

Definition initialize (providerInput : Provider N) (signerInput : option (Writer N)) : M unit :=
  fun c =>
    let fallback := getConfiguredRpcProviders in
    match getContractAddress with
    | Throw e => (Throw e, mkClient (Some providerInput) fallback (readContract c) (writeContract c) (verifiedAddress c)
                             (hasVerifiedCode c) (hasActiveAccessCache c) (getVaultCache c) (localStorage c) (network c) (clock c))
    | Ok _ => (Ok tt, mkClient (Some providerInput) fallback (Some (views_at (hd providerInput fallback))) signerInput (verifiedAddress c)
                        (hasVerifiedCode c) (hasActiveAccessCache c) (getVaultCache c) (localStorage c) (network c) (clock c))
    end.

Definition clear : M unit :=
  fun c => (Ok tt, mkClient None [] None None None false (TtlCache.clear None (hasActiveAccessCache c))
                     (TtlCache.clear None (getVaultCache c)) (localStorage c) (network c) (clock c)).

Definition isReady (c : Client N) : bool := match readContract c with Some _ => true | None => false end.

Definition getReadProviders : M (list (Provider N)) :=
  fun c => match fallbackProviders c, provider c with
           | (_ :: _) as l, _ => (Ok l, c)
           | [], Some p => (Ok [p], c)
           | [], None => (Throw "No read provider is initialized", c)
           end.

(** An error is its message. *)
Definition extractProviderErrorMessage (error : string) : string := if blank (trim error) then "Unknown provider error" else error.

(** [for (const p of providers) try { return await f(p) } catch { lastError = ... }], and
    the last error of the loop. *)
Fixpoint first_answer {A : Type} (f : Provider N -> M A) (failure : string) (l : list (Provider N)) (lastError : option string) : M A :=
  match l with
  | [] => cthrow (match lastError with Some e => e | None => failure end)
  | p :: l' => ccatch (f p) (fun e => first_answer f failure l' (Some (extractProviderErrorMessage e)))
  end.

Definition ensureContractDeployed : M unit :=
  do! a <- of_res getContractAddress in
  do! known <- gets (fun c => hasVerifiedCode c && bool_decide (verifiedAddress c = Some a)) in
  if known then cret tt
  else
    do! providers <- getReadProviders in
    first_answer
      (fun p => do! code <- on_net (getCode p a) in
                if blank code || String.eqb code "0x" then cthrow "Contract not found at VITE_CONTRACT_ADDRESS"
                else set_verified a)
      "Failed to verify contract deployment" providers None.

Definition ensureReadContract : M (Views N) :=
  fun c => match readContract c with Some v => (Ok v, c) | None => (Throw "Contract not initialized", c) end.
Definition ensureWriteContract : M (Writer N) :=
  fun c => match writeContract c with Some w => (Ok w, c) | None => (Throw "Write contract not initialized", c) end.

Definition contractHasFunction (signature : string) : bool := is_ok (getFunction signature).

(** The first provider with a receipt, or the wallet's own. *)
Fixpoint mined_by (hash : string) (timeoutMs : Z) (l : list (Provider N)) : M (option Receipt) :=
  match l with
  | [] => cret None
  | p :: l' =>
      do! mined <- ccatch (on_net (waitForTransaction p hash timeoutMs)) (fun _ => cret None) in
      match mined with Some r => cret (Some r) | None => mined_by hash timeoutMs l' end
  end.

Definition waitForReceipt (tx : Tx N) : M Receipt :=
  let timeoutMs := getTxWaitTimeoutMs env in
  do! providers <- gets fallbackProviders in
  do! mined <- match tx_hash tx with
               | Some hash => if blank hash then cret None else mined_by hash timeoutMs providers
               | None => cret None
               end in
  match mined with
  | Some r => cret r
  | None =>
      do! receipt <- on_net (tx_wait tx timeoutMs) in
      match receipt with
      | Some r => cret r
      | None => cthrow "Transaction confirmation timed out. Check your wallet, then refresh and retry."
      end
  end.

Definition getFromBlock : M Z :=
  let configured := positive_or 0 (VITE_CONTRACT_DEPLOY_BLOCK env) in
  if 0 <? configured then cret configured
  else
    do! providers <- getReadProviders in
    first_answer (fun p => do! latest <- on_net (getBlockNumber p) in cret (Z.max 0 (latest - 200000)))
      "Failed to determine fromBlock" providers None.

(** The time of a block; 0 for a block no provider has.  The map of the caller is not
    changed by a failure. *)
Definition getBlockTimestamp (block : Z) (cache : gmap Z Z) : M (Z * gmap Z Z) :=
  match cache !! block with
  | Some t => cret (t, cache)
  | None =>
      do! providers <- getReadProviders in
      first_answer (fun p => do! t <- on_net (getBlock p block) in
                             let timestamp := match t with Some t => t | None => 0 end in
                             cret (timestamp, <[block := timestamp]> cache))
        ("Failed to fetch block " ++ num_str block) providers None
  end.

(** ** Transactions *)

Definition send (call : Call) : M Receipt :=
  do! contract <- ensureWriteContract in
  do! tx <- on_net (submit contract call) in
  waitForReceipt tx.

(** The id of the first log that parses to the event looked for; 0 when there is none. *)
Fixpoint created_id (id_of : Event -> option Z) (logs : list Log) : Z :=
  match logs with
  | [] => 0
  | log :: l =>
      match parseLog log with
      | Ok (Some ev) => match id_of ev with Some i => i | None => created_id id_of l end
      | _ => created_id id_of l
      end
  end.

Definition vault_created (ev : Event) : option Z := match ev with VaultCreated i _ => Some i | _ => None end.
Definition document_added (ev : Event) : option Z := match ev with DocumentAdded i _ => Some i | _ => None end.
Definition access_requested (ev : Event) : option Z := match ev with AccessRequested i _ _ => Some i | _ => None end.
Definition nft_minted (ev : Event) : option Z := match ev with NFTMinted i _ _ => Some i | _ => None end.

Definition send_for (id_of : Event -> option Z) (call : Call) : M Z :=
  do! receipt <- send call in cret (created_id id_of (receipt_logs receipt)).
Definition send_only (call : Call) : M unit := do! _ <- send call in cret tt.

Definition createVault (name description : string) (guardians : list string) (approvalThreshold : Z) : M Z :=
  send_for vault_created (C_createVault name description guardians approvalThreshold).

Definition addDocument (vaultId : Z) (metadata hash : string) (requiredAccess releaseCondition : Z)
    (guardiansList shares : option (list string)) : M Z :=
  do! _ <- ensureWriteContract in
  let hasShares := match guardiansList, shares with
                   | Some ((_ :: _) as g), Some ((_ :: _) as sh) => Some (g, sh)
                   | _, _ => None
                   end in
  if negb (releaseCondition =? 0)
     && contractHasFunction "addDocumentWithReleaseCondition(uint256,string,string,uint8,uint8,address[],string[])"
  then send_for document_added (C_addDocumentWithReleaseCondition vaultId metadata hash requiredAccess releaseCondition hasShares)
  else if releaseCondition =? 0
  then send_for document_added
         (C_addDocument vaultId metadata hash requiredAccess
            (if contractHasFunction "addDocument(uint256,string,string,uint8,address[],string[])" then hasShares else None))
  else cthrow "Current contract does not support release-condition policy uploads. Redeploy latest contract.".

Definition requestAccess (documentId : Z) : M Z := send_for access_requested (C_requestAccess documentId).

(** A share that is empty counts as none. *)
Definition share_of (share : option string) (signature : string) : option string :=
  match share with
  | None | Some EmptyString => None
  | Some sh => if contractHasFunction signature then Some sh else None
  end.

Definition approveAccess (requestId : Z) (share : option string) : M unit :=
  send_only (C_approveAccess requestId (share_of share "approveAccess(uint256,string)")).
Definition registerGuardianBLSKey (vaultId : Z) (key proof : string) : M unit := send_only (C_registerGuardianBLSKey vaultId key proof).
Definition approveAccessBLS (requestId : Z) (guardians : list string) (signature key : string) (shares : list string) : M unit :=
  send_only (C_approveAccessBLS requestId guardians signature key shares).
Definition registerPublicKey (key : string) : M unit := send_only (C_registerPublicKey key).
Definition acceptGuardianInvite (vaultId : Z) : M unit :=
  do! _ <- send_only (C_acceptGuardianInvite vaultId) in invalidateVaultCache vaultId.
Definition mintAccessToken (vaultId : Z) (to tokenURI : string) : M Z := send_for nft_minted (C_mintAccessToken vaultId to tokenURI).
Definition burnAccessToken (tokenId : Z) : M unit := do! _ <- send_only (C_burnAccessToken tokenId) in clearAccessCache.

(** A call the deployed contract may lack. *)
Definition supported (signature failure : string) (m : M unit) : M unit :=
  do! _ <- ensureWriteContract in if contractHasFunction signature then m else cthrow failure.

Definition configureVaultRelease (vaultId inactivityPeriod : Z) : M unit :=
  supported "configureVaultRelease(uint256,uint256)" "Current contract does not support vault release policy configuration."
    (send_only (C_configureVaultRelease vaultId inactivityPeriod)).

Definition recordProofOfLife (vaultId : Z) : M string :=
  do! _ <- supported "proveLife(uint256)" "Current contract does not support proof-of-life actions." (cret tt) in
  do! receipt <- send (C_proveLife vaultId) in
  if blank (receipt_hash receipt) then cthrow "Proof-of-life transaction was not confirmed" else cret (receipt_hash receipt).

Definition setBeneficiary (vaultId : Z) (beneficiary : string) : M unit :=
  supported "setBeneficiary(uint256,address)" "Current contract does not support beneficiary notifications."
    (send_only (C_setBeneficiary vaultId beneficiary)).
Definition relayKeeperAuthorization (vaultId : Z) (keeper : string) (expiresAt : Z) (signature : string) : M unit :=
  supported "authorizeKeeperBySig(uint256,address,uint256,bytes)" "Current contract does not support keeper delegation."
    (send_only (C_authorizeKeeperBySig vaultId keeper expiresAt signature)).
Definition revokeKeeper (vaultId : Z) : M unit :=
  supported "revokeKeeper(uint256)" "Current contract does not support keeper delegation." (send_only (C_revokeKeeper vaultId)).
Definition relayProofOfLife (vaultId : Z) : M unit :=
  supported "proveLifeByKeeper(uint256)" "Current contract does not support keeper-relayed heartbeats."
    (send_only (C_proveLifeByKeeper vaultId)).
Definition revokeDelegation (nonce : Z) : M unit :=
  supported "revokeDelegation(uint256)" "Current contract does not support guardian approval delegation."
    (send_only (C_revokeDelegation nonce)).

Definition approveAccessDelegated (requestId : Z) (guardian : string) (validUntil nonce : Z) (signature share : string) : M unit :=
  do! _ <- ensureWriteContract in
  let withShare := "approveAccessDelegated(uint256,address,uint256,uint256,bytes,string)" in
  let withoutShare := "approveAccessDelegated(uint256,address,uint256,uint256,bytes)" in
  if negb (contractHasFunction withShare) && negb (contractHasFunction withoutShare)
  then cthrow "Current contract does not support guardian approval delegation."
  else
    do! _ <- send_only (C_approveAccessDelegated requestId guardian validUntil nonce signature (share_of (Some share) withShare)) in
    clearAccessCache.

Definition typed_domain : res Domain :=
  let! a := getContractAddress in Ok (mkDomain "SpooVault" "1" (getConfiguredChainId env) a).

Definition signKeeperAuthorization (vaultId : Z) (keeper : string) (expiresAt : Z) : M string :=
  do! contract <- ensureWriteContract in
  match signTypedData contract with
  | None => cthrow "A connected wallet signer is required to authorize a keeper."
  | Some sign =>
      do! nonce <- on_net (w_keeperAuthNonces contract vaultId) in
      do! domain <- of_res typed_domain in
      on_net (sign domain (KeeperAuthorization vaultId keeper expiresAt nonce))
  end.

Definition signGuardianDelegation (guardian delegate : string) (vaultId validUntil nonce : Z) : M string :=
  do! contract <- ensureWriteContract in
  match signTypedData contract with
  | None => cthrow "A connected wallet signer is required to sign a guardian delegation."
  | Some sign =>
      do! domain <- of_res typed_domain in
      on_net (sign domain (GuardianDelegation guardian delegate vaultId validUntil nonce))
  end.

(** ** Views *)

Definition ready : M (Views N) := do! _ <- ensureContractDeployed in ensureReadContract.
(** [try { return await contract.view() } catch { return d }] *)
Definition view_or {A : Type} (d : A) (view : Views N -> net N A) (contract : Views N) : M A :=
  ccatch (on_net (view contract)) (fun _ => cret d).
Definition read_or {A : Type} (d : A) (view : Views N -> net N A) : M A := do! contract <- ready in view_or d view contract.
(** The same for a view the contract may lack. *)
Definition read_supported {A : Type} (signature : string) (d : A) (view : Views N -> net N A) : M A :=
  do! contract <- ready in if contractHasFunction signature then view_or d view contract else cret d.

Definition ZeroAddress : string := "0x0000000000000000000000000000000000000000".

Definition getGuardianBLSKey (vaultId : Z) (guardian : string) : M BLSKey :=
  read_or (mkBLSKey "" "" false) (fun v => v_getGuardianBLSKey v vaultId guardian).
Definition getUserPublicKey (user : string) : M string := read_or ""%string (fun v => v_userPublicKeys v user).
Definition getEncryptedGuardianShare (documentId : Z) (guardian : string) : M string :=
  read_or ""%string (fun v => v_getEncryptedGuardianShare v documentId guardian).
Definition getBeneficiaryKeyShare (requestId : Z) (guardian : string) : M string :=
  read_or ""%string (fun v => v_getBeneficiaryKeyShare v requestId guardian).
Definition getTotalSupply : M Z := do! contract <- ready in on_net (v_totalSupply contract).
Definition getDocumentReleaseCondition (documentId : Z) : M Z :=
  read_supported "documentReleaseCondition(uint256)" 0 (fun v => v_documentReleaseCondition v documentId).
Definition getBeneficiary (vaultId : Z) : M string :=
  read_supported "getBeneficiary(uint256)" ZeroAddress (fun v => v_getBeneficiary v vaultId).
Definition isDelegationNonceRevoked (guardian : string) (nonce : Z) : M bool :=
  read_supported "revokedNonces(address,uint256)" false (fun v => v_revokedNonces v guardian nonce).
Definition fetchPendingInvites (user : string) : M (list GuardianInviteData) :=
  if blank user then cret [] else read_or [] (fun v => v_getPendingInvites v user).

Definition getKeeperAuthorization (vaultId : Z) : M (option KeeperAuthorizationData) :=
  do! contract <- ready in
  if contractHasFunction "keeperAuthorizations(uint256)" then
    ccatch (do! value <- on_net (v_keeperAuthorizations contract vaultId) in
            cret (if String.eqb (keeper value) ZeroAddress then None else Some value))
      (fun _ => cret None)
  else cret None.

(** [Object.fromEntries(ids.map(id => [id, f(id)]))] *)
Definition map_of {A : Type} (ids : list Z) (values : list A) : gmap Z A := list_to_map (reverse (combine ids values)).

Definition getDocumentReleaseConditionMap (documentIds : list Z) : M (gmap Z Z) :=
  match documentIds with
  | [] => cret ∅
  | _ =>
      do! contract <- ready in
      if contractHasFunction "documentReleaseCondition(uint256)"
      then do! values <- cmapM (fun d => view_or 0 (fun v => v_documentReleaseCondition v d) contract) documentIds in
           cret (map_of documentIds values)
      else cret (map_of documentIds (map (fun _ => 0) documentIds))
  end.

Definition access_key (documentId : Z) (user : string) : string :=
  ("hasActiveAccess:avalanche:" ++ num_str documentId ++ ":" ++ toLowerCase user)%string.
Definition access_of (contract : Views N) (user : string) (documentId : Z) : M bool :=
  ccatch (getOrFetch hasActiveAccessCache set_access_cache (access_key documentId user) (on_net (v_hasActiveAccess contract documentId user)))
    (fun _ => cret false).

Definition hasActiveAccess (documentId : Z) (user : string) : M bool :=
  if blank user then cret false else do! contract <- ready in access_of contract user documentId.

Definition getActiveAccessMap (user : string) (documentIds : list Z) : M (gmap Z bool) :=
  match documentIds with
  | [] => cret ∅
  | _ => if blank user then cret ∅
         else do! contract <- ready in do! values <- cmapM (access_of contract user) documentIds in cret (map_of documentIds values)
  end.

Definition cachedGetVault (contract : Views N) (vaultId : Z) : M VaultData :=
  getOrFetch getVaultCache set_vault_cache (vault_key vaultId) (on_net (v_getVault contract vaultId)).

(** [Array.from(new Set(ids))] *)
Definition distinct_ids (ids : list Z) : list Z := fold_left (fun seen i => if bool_decide (i ∈ seen) then seen else seen ++ [i]) ids [].

Definition fetchVaultsByIds (vaultIds : list Z) : M (list VaultData) :=
  do! contract <- ready in
  do! vaults <- cmapM (fun i => ccatch (do! v <- cachedGetVault contract i in cret (Some v)) (fun _ => cret None))
                  (List.filter (fun i => 0 <? i) (distinct_ids vaultIds)) in
  cret (omap (fun v => v) vaults).

Definition default_release_state : VaultReleaseState := mkReleaseState false (30 * 24 * 60 * 60) 0 false.
Definition evm_release_state (vaultId : Z) : M VaultReleaseState :=
  read_supported "getVaultReleaseState(uint256)" default_release_state (fun v => v_getVaultReleaseState v vaultId).
Definition empty_schedule : EmergencyUnlockSchedule := mkSchedule false false 0 0.
Definition evm_unlock_schedule (vaultId : Z) : M EmergencyUnlockSchedule :=
  read_supported "getEmergencyUnlockSchedule(uint256)" empty_schedule (fun v => v_getEmergencyUnlockSchedule v vaultId).

Definition evm_vault_gid (vaultId : Z) : M string :=
  fun c => match readContract c with
           | Some v => if contractHasFunction "getVaultGID(uint256)" then on_net (v_getVaultGID v vaultId) c
                       else (Throw "Cross-chain vault identity is not supported by this contract", c)
           | None => (Throw "Cross-chain vault identity is not supported by this contract", c)
           end.

End Service.
