(* ===== verification/ProxyGuard.v ===== *)
(** * ProxyGuard: scripts/lib/ipfsProxyGuard.mjs

    Requests to the pinning proxy carry a timestamp and an HMAC over the timestamp, the
    method, the path and a hash of the body.  The digests of WebCrypto are functions on
    bytes; texts are byte strings, so that encoding them is the identity. *)

From Stdlib Require Import Ascii String ZArith Lia Bool.
From stdpp Require Import base list gmap strings.
From S2P Require Import Prelude Bytes JsString Hex JsonText JsNumber KeyInbox.

Open Scope list_scope.
Open Scope string_scope.
Open Scope Z_scope.

Definition UNSIGNED_PAYLOAD : string := "UNSIGNED-PAYLOAD".
Definition SIGNATURE_HEADER : string := "X-SpooVault-Signature".
Definition DEFAULT_MAX_SKEW_SEC : Z := 300.
Definition DEFAULT_ALLOWED_ORIGINS : list string :=
  ["http://localhost:5173"; "http://localhost:4173"; "http://127.0.0.1:5173"; "http://127.0.0.1:4173"].

Definition utf8_encode (s : string) : list Z := map (fun c => Z.of_nat (nat_of_ascii c)) (list_ascii_of_string s).

Definition upper_char (c : ascii) : ascii :=
  let n := nat_of_ascii c in if ((97 <=? n) && (n <=? 122))%nat then ascii_of_nat (n - 32) else c.
Fixpoint toUpperCase (s : string) : string :=
  match s with EmptyString => EmptyString | String c t => String (upper_char c) (toUpperCase t) end.

Definition parseAllowedOrigins (raw : option string) (fallback : list string) : list string :=
  match raw with
  | None => fallback
  | Some s =>
      if blank (trim s) then fallback
      else match List.filter (fun item => negb (blank item)) (map trim (split "," s)) with [] => fallback | parsed => parsed end
  end.

Definition isOriginAllowed (origin : option string) (allowedOrigins : list string) : bool :=
  match origin with
  | None => true
  | Some o => blank o || existsb (String.eqb "*") allowedOrigins || existsb (String.eqb o) allowedOrigins
  end.

Definition isMultipartContentType (contentType : option string) : bool := includes "multipart/form-data" (toLowerCase (or_empty contentType)).

Definition toHex (buffer : list Z) : string := bytes_hex buffer.

Definition formatSignatureHeader (timestamp hex : string) : string := "t=" ++ timestamp ++ ",v1=" ++ hex.

(** The two members of [parts] that are read; a piece that is not of them changes neither. *)
Definition header_piece (parts : option string * option string) (piece : string) : option string * option string :=
  let trimmed := trim piece in
  if blank trimmed then parts
  else
    let '(name, value) := match split "=" trimmed with
                          | [] | [_] => (trimmed, "")
                          | k :: rest => (trim k, trim (join "=" rest))
                          end in
    if String.eqb name "t" then (Some value, parts.2)
    else if String.eqb name "v1" then (parts.1, Some value) else parts.

(** [Number(undefined)] is not a number. *)
Definition parseSignatureHeader (value : option string) : option (number * string) :=
  match value with
  | None => None
  | Some s =>
      if blank s then None
      else
        let parts := fold_left header_piece (split "," s) (None, None) in
        let timestamp := match parts.1 with Some t => Number_str t | None => NaN end in
        let v1 := toLowerCase (or_empty parts.2) in
        if negb (isFinite timestamp) || blank v1 then None else Some (timestamp, v1)
  end.

(** The differences of the character codes are collected without an early exit. *)
Fixpoint mismatch (left right : string) (acc : Z) : Z :=
  match left, right with
  | String a l, String b r => mismatch l r (Z.lor acc (Z.lxor (Z.of_nat (nat_of_ascii a)) (Z.of_nat (nat_of_ascii b))))
  | _, _ => acc
  end.
Definition timingSafeEqualHex (left right : string) : bool :=
  (String.length left =? String.length right)%nat && (mismatch left right 0 =? 0).

(** [Math.abs(now - timestamp) > max] of a finite number m * 10^e *)
Definition too_far (now : Z) (timestamp : number) (max : Z) : bool :=
  match timestamp with
  | Fin m e => if 0 <=? e then max <? Z.abs (now - m * 10 ^ e) else max * 10 ^ (- e) <? Z.abs (now * 10 ^ (- e) - m)
  | _ => false
  end.

Section Guard.
Variables (SHA256 : list Z -> list Z) (HMAC : list Z -> list Z -> list Z).
(** The text of a number that is not a natural number below 2^53. *)
Variable other_number : number -> string.

Definition number_text (n : number) : string :=
  match n with Fin m 0 => if (0 <=? m) && (m <? 2 ^ 53) then num_str m else other_number n | _ => other_number n end.

Definition sha256Hex (data : string) : string := toHex (SHA256 (utf8_encode data)).
Definition hmacSha256Hex (secret message : string) : string := toHex (HMAC (utf8_encode secret) (utf8_encode message)).

Definition canonicalize (timestamp method path bodyHash : string) : string :=
  timestamp ++ "." ++ toUpperCase method ++ "." ++ path ++ "." ++ bodyHash.

Definition resolveBodyHash (body : string) (unsignedBody : bool) : string := if unsignedBody then UNSIGNED_PAYLOAD else sha256Hex body.

(** The signed header; [timestamp] is the caller's, or the time in seconds. *)
Definition signRequest (secret method path body : string) (unsignedBody : bool) (timestamp : option Z) (now : Z) : res (Z * Headers) :=
  if blank secret then Throw "IPFS proxy signing secret is not configured"%string
  else
    let ts := default now timestamp in
    let canonical := canonicalize (num_str ts) method path (resolveBodyHash body unsignedBody) in
    Ok (ts, [(SIGNATURE_HEADER, formatSignatureHeader (num_str ts) (hmacSha256Hex secret canonical))]).

Definition authorizeProxyRequest (method path : string) (origin signatureHeader : option string) (body : string) (unsignedBody : bool)
    (secret : string) (allowedOrigins : list string) (now maxSkewSec : Z) : bool :=
  if String.eqb (toUpperCase method) "OPTIONS" then true
  else if blank secret then false
  else if negb (isOriginAllowed origin allowedOrigins) then false
  else match parseSignatureHeader signatureHeader with
       | None => false
       | Some (timestamp, v1) =>
           if too_far now timestamp maxSkewSec then false
           else timingSafeEqualHex (hmacSha256Hex secret (canonicalize (number_text timestamp) method path (resolveBodyHash body unsignedBody))) v1
       end.

(** The request as the server sees it. *)
Record Incoming : Type := mkIncoming {
  i_method : string; i_originalUrl : string; i_origin : option string; i_signature : option string; i_contentType : option string; i_rawBody : option string
}.

Definition without_fragment (url : string) : string := match split "#" url with p :: _ => p | [] => "" end.

Definition authorizeIncomingRequest (request : Incoming) (secret : string) (allowedOrigins : list string) (now maxSkewSec : Z) : bool :=
  let unsignedBody := isMultipartContentType (i_contentType request) in
  authorizeProxyRequest (i_method request) (without_fragment (i_originalUrl request)) (i_origin request) (i_signature request)
    (if unsignedBody then "" else or_empty (i_rawBody request)) unsignedBody secret allowedOrigins now maxSkewSec.

(** ** What is accepted *)

Hypothesis sha_bytes : forall m, bytes (SHA256 m).
Hypothesis hmac_bytes : forall k m, bytes (HMAC k m) /\ HMAC k m <> [].

Lemma mismatch_zero (a b : string) : forall acc, String.length a = String.length b -> 0 <= acc -> mismatch a b acc = 0 -> acc = 0 /\ a = b.
Proof.
  revert b. induction a as [|c a IH]; intros [|d b] acc Hl Hacc H; try discriminate Hl; [now split|]. cbn [mismatch] in H. injection Hl as Hl.
  apply (IH b) in H as [H ->]; [|exact Hl|apply Z.lor_nonneg; split; [exact Hacc|apply Z.lxor_nonneg; lia]].
  apply Z.lor_eq_0_iff in H as [-> H]. apply Z.lxor_eq in H. apply Nat2Z.inj in H. split; [reflexivity|]. f_equal.
  rewrite <- (ascii_nat_embedding c), <- (ascii_nat_embedding d). now rewrite H.
Qed.

Lemma mismatch_refl (a : string) (acc : Z) : mismatch a a acc = acc.
Proof. revert acc. induction a as [|c a IH]; intros acc; [reflexivity|]. cbn. now rewrite IH, Z.lxor_nilpotent, Z.lor_0_r. Qed.

(** The comparison in constant time is equality. *)
Lemma timing_safe (a b : string) : timingSafeEqualHex a b = true <-> a = b.
Proof.
  unfold timingSafeEqualHex. split.
  - intros [H1%Nat.eqb_eq H2%Z.eqb_eq]%andb_prop. now apply (mismatch_zero a b 0).
  - intros <-. now rewrite Nat.eqb_refl, mismatch_refl.
Qed.

(** A request that is let through comes from an allowed origin, and its header has an HMAC,
    under the secret, of a near timestamp and of the method, the path and the hash. *)
Lemma authorized_inv (request : Incoming) (secret : string) (allowed : list string) (now skew : Z) :
  authorizeIncomingRequest request secret allowed now skew = true -> toUpperCase (i_method request) <> "OPTIONS" ->
  blank secret = false /\ isOriginAllowed (i_origin request) allowed = true
  /\ exists ts, parseSignatureHeader (i_signature request) = Some (ts, hmacSha256Hex secret (canonicalize (number_text ts) (i_method request)
        (without_fragment (i_originalUrl request))
        (resolveBodyHash (or_empty (i_rawBody request)) (isMultipartContentType (i_contentType request)))))
     /\ too_far now ts skew = false.
Proof.
  unfold authorizeIncomingRequest, authorizeProxyRequest. intros H Hm. destruct (String.eqb_spec (toUpperCase (i_method request)) "OPTIONS"); [contradiction|].
  destruct (blank secret); [discriminate H|]. destruct (isOriginAllowed _ _) eqn:Ho; [|discriminate H]. cbn [negb] in H.
  destruct (parseSignatureHeader _) as [[ts v1]|] eqn:Ep; [|discriminate H]. destruct (too_far now ts skew) eqn:Et; [discriminate H|].
  apply timing_safe in H. split_and!; [reflexivity..|]. exists ts. split; [|exact Et]. rewrite <- H. unfold resolveBodyHash. now destruct (isMultipartContentType _).
Qed.

(** ** The signed header *)

Lemma hmac_hex (secret message : string) : str_all (is_digit 16) (hmacSha256Hex secret message) = true.
Proof. apply bytes_hex_digits, hmac_bytes. Qed.

Lemma hmac_nonempty (secret message : string) : blank (hmacSha256Hex secret message) = false.
Proof. unfold blank. apply String.eqb_neq, bytes_hex_nonempty, hmac_bytes. Qed.

Lemma lower_app (a b : string) : toLowerCase (a ++ b) = toLowerCase a ++ toLowerCase b.
Proof. induction a as [|c a IH]; [reflexivity|]. change (String (lower_char c) (toLowerCase (a ++ b)) = String (lower_char c) (toLowerCase a ++ toLowerCase b)). now rewrite IH. Qed.

Lemma byte_hex_lower (z : Z) : 0 <= z < 256 -> toLowerCase (byte_hex z) = byte_hex z.
Proof.
  intros H. assert (E : forallb (fun n => String.eqb (toLowerCase (byte_hex (Z.of_nat n))) (byte_hex (Z.of_nat n))) (seq 0 256) = true) by (vm_compute; reflexivity).
  rewrite forallb_forall in E. specialize (E (Z.to_nat z)). rewrite Z2Nat.id in E by lia. apply String.eqb_eq, E, in_seq. lia.
Qed.

Lemma toHex_lower (l : list Z) : bytes l -> toLowerCase (toHex l) = toHex l.
Proof.
  unfold toHex, bytes_hex. induction 1 as [|z l Hz _ IH]; [reflexivity|]. cbn [map concat_all]. rewrite lower_app, IH, byte_hex_lower; [reflexivity|].
  unfold is_byte in Hz. lia.
Qed.

Lemma digits_not (b : Z) (c : ascii) (s : string) : is_digit b c = false -> str_all (is_digit b) s = true -> str_all (not_char c) s = true.
Proof. intros Hc. apply str_all_impl. intros x Hx. unfold not_char. destruct (Ascii.eqb_spec x c) as [->|]; [congruence|reflexivity]. Qed.

Lemma digits_trim (b : Z) (name s : string) :
  str_all (fun c => negb (is_space c)) name = true -> str_all (is_digit b) s = true -> trim (name ++ s) = name ++ s.
Proof.
  intros Hn Hs. apply trim_plain. rewrite str_all_app, Hn. revert Hs. apply str_all_impl. intros c Hc. now rewrite (digit_not_space b).
Qed.

(** A piece that names a value in digits. *)
Lemma piece_of (b : Z) (name value : string) (parts : option string * option string) :
  str_all (fun c => negb (is_space c)) (name ++ "=") = true -> str_all (not_char "=") name = true -> is_digit b "=" = false ->
  str_all (is_digit b) value = true -> name = "t" \/ name = "v1" ->
  header_piece parts (name ++ String "=" value) = (if String.eqb name "t" then (Some value, parts.2) else (parts.1, Some value)).
Proof.
  intros Hs He Hb Hv Hn. unfold header_piece. change (String "=" value) with ("=" ++ value). rewrite <- str_app_assoc.
  rewrite (digits_trim b) by assumption.
  assert (Hne : blank ((name ++ "=") ++ value) = false) by (destruct Hn as [-> | ->]; reflexivity). rewrite Hne. cbv iota. rewrite str_app_assoc. change ("=" ++ value) with (String "=" value). rewrite split_sep by exact He.
  rewrite split_no_sep by now apply (digits_not b). cbn [join]. rewrite (trim_digits b value) by exact Hv.
  destruct Hn as [-> | ->]; reflexivity.
Qed.

(** The header of a time and of a hexadecimal text is read back. *)
Lemma parse_formatted (ts : Z) (hex : string) :
  0 <= ts < 2 ^ 53 -> str_all (is_digit 16) hex = true -> blank hex = false -> toLowerCase hex = hex ->
  parseSignatureHeader (Some (formatSignatureHeader (num_str ts) hex)) = Some (Fin ts 0, hex).
Proof.
  intros Ht Hh Hb Hl. unfold formatSignatureHeader, parseSignatureHeader.
  assert (Hd : str_all (is_digit 10) (num_str ts) = true) by (apply to_base_digits; lia).
  change ("t=" ++ num_str ts ++ ",v1=" ++ hex) with (("t=" ++ num_str ts) ++ String "," ("v1=" ++ hex)).
  change (blank (("t=" ++ num_str ts) ++ String "," ("v1=" ++ hex))) with false. cbv iota.
  rewrite split_sep by (change (str_all (not_char ",") (num_str ts) = true); now apply (digits_not 10)).
  rewrite (split_no_sep "," ("v1=" ++ hex)) by (change (str_all (not_char ",") hex = true); now apply (digits_not 16)).
  cbn [fold_left]. change ("t=" ++ num_str ts) with ("t" ++ String "=" (num_str ts)). change ("v1=" ++ hex) with ("v1" ++ String "=" hex).
  rewrite (piece_of 10 "t" (num_str ts)) by (first [exact Hd|reflexivity|now left]).
  rewrite (piece_of 16 "v1" hex) by (first [exact Hh|reflexivity|now right]). cbn [String.eqb Ascii.eqb Bool.eqb fst snd].
  rewrite Number_num_str by lia. unfold or_empty, or_else. rewrite Hb, Hl, Hb. destruct (safe_number ts Ht) as [_ Hf].
  cbn [fst snd String.eqb Ascii.eqb Bool.eqb]. rewrite Hf. reflexivity.
Qed.

(** ** Signed requests *)

Lemma signed_admitted (secret method path body : string) (origin contentType raw : option string)
    (allowed : list string) (ts now signed_at skew : Z) (h : Headers) :
  0 <= ts < 2 ^ 53 -> Z.abs (now - ts) <= skew -> isOriginAllowed origin allowed = true -> str_all (not_char "#") path = true ->
  isMultipartContentType contentType = true \/ or_empty raw = body ->
  signRequest secret method path body (isMultipartContentType contentType) (Some ts) signed_at = Ok (ts, h) ->
  authorizeIncomingRequest (mkIncoming method path origin (kv_get SIGNATURE_HEADER h) contentType raw) secret allowed now skew = true.
Proof.
  intros Hts Hskew Horigin Hpath Hraw Hsign. unfold signRequest in Hsign. destruct (blank secret) eqn:Hs; [discriminate|]. cbn [default] in Hsign.
  injection Hsign as <-. unfold authorizeIncomingRequest, authorizeProxyRequest, without_fragment. cbn [i_method i_originalUrl i_origin i_signature i_contentType i_rawBody].
  rewrite split_no_sep by exact Hpath. destruct (String.eqb (toUpperCase method) "OPTIONS"); [reflexivity|].
  rewrite Hs, Horigin. cbn [negb].
  match goal with |- context [parseSignatureHeader (kv_get _ [(_, formatSignatureHeader _ ?x)])] =>
    change (kv_get SIGNATURE_HEADER [(SIGNATURE_HEADER, formatSignatureHeader (num_str ts) x)]) with (Some (formatSignatureHeader (num_str ts) x));
    rewrite parse_formatted by (first [exact Hts|apply hmac_hex|apply hmac_nonempty|apply toHex_lower, hmac_bytes]) end.
  assert (Hf : too_far now (Fin ts 0) skew = false) by (cbn; apply Z.ltb_ge; now rewrite Z.mul_1_r).
  rewrite Hf. apply timing_safe. unfold number_text. replace ((0 <=? ts) && (ts <? 2 ^ 53)) with true by lia. unfold resolveBodyHash.
  do 2 f_equal. destruct (isMultipartContentType contentType); [reflexivity|]. destruct Hraw as [Hraw|Hraw]; [discriminate|now rewrite Hraw].
Qed.

(** What is signed with the proxy's secret is let through, from an allowed origin, until the
    window is over. *)
Theorem signed_requests_authorized (secret method path body : string) (origin : option string) (contentType : option string)
    (allowed : list string) (ts now skew : Z) (h : Headers) :
  0 <= ts < 2 ^ 53 -> Z.abs (now - ts) <= skew -> isOriginAllowed origin allowed = true -> str_all (not_char "#") path = true ->
  signRequest secret method path body (isMultipartContentType contentType) (Some ts) now = Ok (ts, h) ->
  authorizeIncomingRequest (mkIncoming method path origin (kv_get SIGNATURE_HEADER h) contentType (Some body)) secret allowed now skew = true.
Proof.
  intros Hts Hskew Horigin Hpath. apply signed_admitted; try assumption. right. unfold or_empty, or_else.
  destruct (blank body) eqn:Eb; [|reflexivity]. now apply String.eqb_eq in Eb as ->.
Qed.

(** ** What a signature stands for *)

Lemma no_dot_cut (a b c d : string) : str_all (not_char ".") a = true -> str_all (not_char ".") c = true ->
  a ++ String "." b = c ++ String "." d -> a = c /\ b = d.
Proof.
  revert c. induction a as [|x a IH]; intros [|y c] Ha Hc E; cbn in Ha, Hc; cbn [append] in E.
  - injection E as E. now split.
  - injection E as E1 E2. subst y. discriminate Hc.
  - injection E as E1 E2. subst x. discriminate Ha.
  - injection E as E1 E2. apply andb_prop in Ha as [_ Ha], Hc as [_ Hc]. destruct (IH c Ha Hc E2) as [-> ->]. now subst.
Qed.

Lemma last_dot_cut (a b c d : string) : str_all (not_char ".") b = true -> str_all (not_char ".") d = true ->
  a ++ String "." b = c ++ String "." d -> a = c /\ b = d.
Proof.
  revert c. induction a as [|x a IH]; intros [|y c] Hb Hd E; cbn [append] in E.
  - injection E as E. now split.
  - injection E as E1 E2. subst b. rewrite str_all_app in Hb. cbn in Hb. now rewrite andb_false_r in Hb.
  - injection E as E1 E2. subst d. rewrite str_all_app in Hd. cbn in Hd. now rewrite andb_false_r in Hd.
  - injection E as E1 E2. destruct (IH c Hb Hd E2) as [-> ->]. now subst.
Qed.

Lemma upper_no_dot (s : string) : str_all (not_char ".") s = true -> str_all (not_char ".") (toUpperCase s) = true.
Proof.
  induction s as [|c s IH]; [reflexivity|]. cbn [str_all toUpperCase]. intros [Hc Hs]%andb_prop. rewrite (IH Hs), andb_true_r.
  destruct c as [[] [] [] [] [] [] [] []]; first [reflexivity|discriminate Hc].
Qed.

(** The message that is signed has one reading: the path may have dots, the other parts have none. *)
Lemma canonicalize_inj (t1 t2 m1 m2 p1 p2 h1 h2 : string) :
  Forall (fun s => str_all (not_char ".") s = true) [t1; t2; m1; m2; h1; h2] ->
  canonicalize t1 m1 p1 h1 = canonicalize t2 m2 p2 h2 -> t1 = t2 /\ toUpperCase m1 = toUpperCase m2 /\ p1 = p2 /\ h1 = h2.
Proof.
  intros H E. repeat match goal with H : Forall _ (_ :: _) |- _ => inversion H; clear H; subst end. unfold canonicalize in E.
  apply (no_dot_cut t1 _ t2) in E as [-> E]; [|assumption..]. apply no_dot_cut in E as [-> E]; [|now apply upper_no_dot..].
  apply last_dot_cut in E as [-> ->]; [|assumption..]. now split_and!.
Qed.

Lemma encode_inj (a b : string) : utf8_encode a = utf8_encode b -> a = b.
Proof.
  unfold utf8_encode. revert b. induction a as [|c a IH]; intros [|d b] E; try discriminate E; [reflexivity|]. cbn in E. injection E as E1 E2.
  apply Nat2Z.inj in E1. rewrite <- (ascii_nat_embedding c), <- (ascii_nat_embedding d), E1. f_equal. now apply IH.
Qed.

Lemma toHex_inj (a b : list Z) : bytes a -> bytes b -> toHex a = toHex b -> a = b.
Proof. intros Ha Hb E%(f_equal hex_bytes). unfold toHex in E. now rewrite !hex_bytes_bytes_hex in E. Qed.

Lemma body_hash_no_dot (body : string) (unsignedBody : bool) : str_all (not_char ".") (resolveBodyHash body unsignedBody) = true.
Proof. destruct unsignedBody; [reflexivity|]. apply (digits_not 16); [reflexivity|]. apply bytes_hex_digits, sha_bytes. Qed.

(** The message an incoming request must be signed with. *)
Definition incoming_message (ts : Z) (request : Incoming) : string :=
  canonicalize (num_str ts) (i_method request) (without_fragment (i_originalUrl request))
    (resolveBodyHash (or_empty (i_rawBody request)) (isMultipartContentType (i_contentType request))).

(** C25: A header made for one request lets only that request through: the method, the path with its
    query and the body's hash are those signed, as far as the two HMACs do not collide. *)
Theorem signature_binds (secret method path body : string) (unsignedBody : bool) (ts signed_at now skew : Z) (h : Headers)
    (request : Incoming) (allowed : list string) :
  signRequest secret method path body unsignedBody (Some ts) signed_at = Ok (ts, h) -> 0 <= ts < 2 ^ 53 ->
  i_signature request = kv_get SIGNATURE_HEADER h -> toUpperCase (i_method request) <> "OPTIONS" ->
  str_all (not_char ".") method = true -> str_all (not_char ".") (i_method request) = true ->
  (let signed := utf8_encode (canonicalize (num_str ts) method path (resolveBodyHash body unsignedBody)) in
   let presented := utf8_encode (incoming_message ts request) in
   HMAC (utf8_encode secret) presented = HMAC (utf8_encode secret) signed -> presented = signed) ->
  authorizeIncomingRequest request secret allowed now skew = true ->
  toUpperCase (i_method request) = toUpperCase method /\ without_fragment (i_originalUrl request) = path
  /\ resolveBodyHash (or_empty (i_rawBody request)) (isMultipartContentType (i_contentType request)) = resolveBodyHash body unsignedBody.
Proof.
  intros Hsign Hts Hsig Hopt Hm Hm' Hcoll Hok. unfold signRequest in Hsign. destruct (blank secret); [discriminate|]. cbn [default] in Hsign.
  injection Hsign as <-. apply authorized_inv in Hok as (_ & _ & ts' & Hp & _); [|exact Hopt]. rewrite Hsig in Hp.
  match type of Hp with parseSignatureHeader (kv_get _ [(_, formatSignatureHeader _ ?x)]) = _ =>
    change (kv_get SIGNATURE_HEADER [(SIGNATURE_HEADER, formatSignatureHeader (num_str ts) x)]) with (Some (formatSignatureHeader (num_str ts) x)) in Hp end.
  rewrite parse_formatted in Hp by (first [exact Hts|apply hmac_hex|apply hmac_nonempty|apply toHex_lower, hmac_bytes]).
  injection Hp as <- E. unfold number_text in E. replace ((0 <=? ts) && (ts <? 2 ^ 53)) with true in E by lia.
  apply toHex_inj in E; [|apply hmac_bytes..]. symmetry in E. apply Hcoll, encode_inj, canonicalize_inj in E.
  - destruct E as (_ & E1 & E2 & E3). now split_and!.
  - repeat constructor; try assumption; try apply body_hash_no_dot; apply (digits_not 10); first [reflexivity|apply to_base_digits; lia].
Qed.
End Guard.

(** Digests for the examples: the length and the sum of the bytes. *)
Definition toy_sha (m : list Z) : list Z := [Z.of_nat (length m) mod 256; fold_left Z.add m 0 mod 256].
Definition toy_hmac (k m : list Z) : list Z := (7 :: map (fun z => z mod 256) (k ++ m))%list.

Lemma map_byte (l : list Z) : bytes (map (fun z => z mod 256) l).
Proof. induction l as [|z l IH]; constructor; [|exact IH]. pose proof (Z.mod_pos_bound z 256). unfold is_byte. lia. Qed.

Lemma toy_sha_bytes (m : list Z) : bytes (toy_sha m).
Proof. apply (map_byte [_; _]). Qed.

Lemma toy_hmac_bytes (k m : list Z) : bytes (toy_hmac k m) /\ toy_hmac k m <> [].
Proof. split; [constructor; [unfold is_byte; lia|apply map_byte]|discriminate]. Qed.

Definition example_path : string := "/api/notifications/emergency-mode".
Definition example_body : string := "{}".
Definition example_headers : Headers :=
  match signRequest toy_sha toy_hmac "s" "POST" example_path example_body false (Some 1700000000) 0 with Ok (_, h) => h | Throw _ => [] end.
Definition example_request : Incoming :=
  mkIncoming "post" (example_path ++ "#top") (Some "http://localhost:5173") (kv_get SIGNATURE_HEADER example_headers) (Some "application/json") (Some example_body).

Lemma signed_requests_authorized_witness :
  authorizeIncomingRequest toy_sha toy_hmac (fun _ => "") (mkIncoming "POST" example_path (Some "http://localhost:5173")
    (kv_get SIGNATURE_HEADER example_headers) (Some "application/json") (Some example_body)) "s" DEFAULT_ALLOWED_ORIGINS 1700000300 300 = true.
Proof.
  apply (signed_requests_authorized toy_sha toy_hmac (fun _ => "") toy_hmac_bytes "s" "POST" example_path example_body _ _ _ 1700000000);
    first [lia|vm_compute; reflexivity].
Defined.

Lemma signature_binds_witness : toUpperCase (i_method example_request) = "POST" /\ without_fragment (i_originalUrl example_request) = example_path
  /\ resolveBodyHash toy_sha (or_empty (i_rawBody example_request)) (isMultipartContentType (i_contentType example_request)) = resolveBodyHash toy_sha example_body false.
Proof.
  apply (signature_binds toy_sha toy_hmac (fun _ => "") toy_sha_bytes toy_hmac_bytes "s" "POST" example_path example_body false 1700000000 0 1700000300 300
           example_headers example_request DEFAULT_ALLOWED_ORIGINS); first [lia|vm_compute; reflexivity|intros; reflexivity|discriminate].
Defined.
