(* ===== verification/PushNotification.v ===== *)
(** * PushNotification: pushNotification.service.ts and scripts/push-notification-proxy.mjs

    The page signs a request for each change of the emergency mode; the proxy lets signed
    requests through to Push Protocol.  The ethers, Push Protocol and body-parser packages
    are arguments.  The page's signing module re-exports the guard's functions. *)

From Stdlib Require Import Ascii String ZArith Lia Bool.
From stdpp Require Import base list gmap strings.
From S2P Require Import Prelude Bytes JsString Hex JsonText JsNumber EvmClient KeyInbox JsonParse ProxyGuard.

Open Scope list_scope.
Open Scope string_scope.
Open Scope Z_scope.

Definition EMERGENCY_MODE_PATH : string := "/api/notifications/emergency-mode".

(** ** The proxy *)

(** What is kept between requests, and the world outside. *)
Record PushServer (W Alice : Type) : Type := mkServer { cachedUserAlice : option Alice; world : W }.
Arguments mkServer {W Alice}.
Arguments cachedUserAlice {W Alice}.
Arguments world {W Alice}.

Definition Response : Type := nat * json.
Definition error_json (e : string) : json := JObj [("error", JStr e)].

(** [Number(v)] of a JSON value or of [undefined] *)
Definition Number_json (v : option json) : number :=
  match v with
  | None => NaN
  | Some JNull => Fin 0 0
  | Some (JBool b) => Fin (if b then 1 else 0) 0
  | Some (JNum n) => Fin n 0
  | Some v => Number_str (String_of v)
  end.

Definition buildNotificationCopy (vaultId : string) (enabled : bool) : string * string :=
  (if enabled then "Vault Emergency Mode Activated" else "Vault Emergency Mode Deactivated",
   if enabled then "Vault #" ++ vaultId ++ " has entered Emergency Mode. Review the vault for post-death unlock details."
   else "Vault #" ++ vaultId ++ " has exited Emergency Mode.").

Section Proxy.
Context {W Alice : Type}.
Variables (SHA256 : list Z -> list Z) (HMAC : list Z -> list Z -> list Z) (other_number : number -> string).
Variable isAddress : string -> bool.
(** [PushAPI.initialize] with the channel's wallet, and [userAlice.channel.send]. *)
Variables (initialize : W -> res Alice * W) (channel_send : Alice -> list string -> string * string -> W -> res unit * W).
(** [express.json]: from the content type and the body, [req.body] and [req.rawBody]; or the
    status and the message of its refusal. *)
Variable express_json : option string -> string -> (option json * option string) + Response.
Variables (PROXY_SECRET : string) (ALLOWED_ORIGINS : list string).

Definition isValidAddress (value : option json) : bool := match value with Some (JStr s) => isAddress s | _ => false end.

Definition getSigner : io (PushServer W Alice) Alice := fun s =>
  match cachedUserAlice s with
  | Some a => (Ok a, s)
  | None => match initialize (world s) with (Ok a, w) => (Ok a, mkServer (Some a) w) | (Throw e, w) => (Throw e, mkServer None w) end
  end.

Definition send_to (a : Alice) (recipients : list string) (copy : string * string) : io (PushServer W Alice) unit := fun s =>
  let '(r, w) := channel_send a recipients copy (world s) in (r, mkServer (cachedUserAlice s) w).

(** The handler of the route; [req.body || {}] has no members where the body is missing. *)
Definition emergency_mode (body : option json) (s : PushServer W Alice) : Response * PushServer W Alice :=
  let prop k := match body with Some v => get_prop k v | None => None end in
  let vaultId := match prop "vaultId" with Some v => String_of v | None => "undefined" end in
  let beneficiary := or_empty (as_str (prop "beneficiary")) in
  if negb (isFinite (Number_json (prop "vaultId"))) then ((400%nat, error_json "vaultId is required"), s)
  else if negb (isValidAddress (prop "beneficiary")) then ((400%nat, error_json "beneficiary must be a valid address"), s)
  else match prop "enabled" with
  | Some (JBool enabled) =>
      match (do! userAlice <- getSigner in send_to userAlice [beneficiary] (buildNotificationCopy vaultId enabled)) s with
      | (Ok _, s') => ((200%nat, JObj [("status", JStr "sent")]), s')
      | (Throw e, s') => ((500%nat, error_json (or_else (Some e) "Internal server error")), s')
      end
  | _ => ((400%nat, error_json "enabled must be a boolean"), s)
  end.

(** A POST on the route: the body parser, the guard, the handler. *)
Definition serve (originalUrl : string) (origin signature contentType : option string) (text : string) (now : Z)
    (s : PushServer W Alice) : Response * PushServer W Alice :=
  match express_json contentType text with
  | inr refusal => (refusal, s)
  | inl (body, rawBody) =>
      if authorizeIncomingRequest SHA256 HMAC other_number (mkIncoming "POST" originalUrl origin signature contentType rawBody)
           PROXY_SECRET ALLOWED_ORIGINS now DEFAULT_MAX_SKEW_SEC
      then emergency_mode body s
      else ((403%nat, error_json "Forbidden"), s)
  end.
End Proxy.

(** ** The page *)

Section Page.
Context {W : Type}.
Variables (SHA256 : list Z -> list Z) (HMAC : list Z -> list Z -> list Z).
Variables (VITE_PUSH_NOTIFICATION_PROXY_URL VITE_SPOOVUALT_PROXY_SECRET : option string).
(** [fetch] gives the status of the answer; the time in seconds. *)
Variables (fetch : Request -> W -> res nat * W) (now : W -> Z).

Definition PUSH_PROXY_URL : string := trim (or_empty VITE_PUSH_NOTIFICATION_PROXY_URL).
Definition page_secret : string := trim (or_empty VITE_SPOOVUALT_PROXY_SECRET).
Definition push_isConfigured : bool := negb (blank PUSH_PROXY_URL) && negb (blank page_secret).

Definition emergency_body (vaultId : Z) (beneficiary : string) (enabled : bool) : json :=
  JObj [("vaultId", JNum vaultId); ("beneficiary", JStr beneficiary); ("enabled", JBool enabled)].

Definition push_request (h : Headers) (body : string) : Request :=
  mkRequest "POST" (PUSH_PROXY_URL ++ EMERGENCY_MODE_PATH) [] (("Content-Type", "application/json") :: h) (Text body).

Definition notifyEmergencyModeChange (vaultId : Z) (beneficiary : string) (enabled : bool) : io W unit := fun w =>
  if negb push_isConfigured then (Ok tt, w)
  else if blank beneficiary || String.eqb beneficiary ZeroAddress then (Ok tt, w)
  else
    let body := json_text (emergency_body vaultId beneficiary enabled) in
    match signRequest SHA256 HMAC page_secret "POST" EMERGENCY_MODE_PATH body false None (now w) with
    | Throw e => (Throw e, w)
    | Ok (_, h) =>
        match fetch (push_request h body) w with
        | (Throw e, w') => (Throw e, w')
        | (Ok status, w') =>
            if ((200 <=? status) && (status <=? 299))%nat then (Ok tt, w')
            else (Throw ("Push notification proxy responded with " ++ num_str (Z.of_nat status)), w')
        end
    end.
End Page.

(** ** The page over the proxy *)

Section Composition.
Context {W Alice : Type}.
Variables (SHA256 : list Z -> list Z) (HMAC : list Z -> list Z -> list Z) (other_number : number -> string).
Variable isAddress : string -> bool.
Variables (initialize : W -> res Alice * W) (channel_send : Alice -> list string -> string * string -> W -> res unit * W).
Variable express_json : option string -> string -> (option json * option string) + Response.
Variables (base_url page_key : option string) (ALLOWED_ORIGINS : list string) (origin : option string).
(** The path a URL is requested with, and the two clocks in seconds. *)
Variables (path_of : string -> string) (page_now proxy_now : Z).
Hypothesis hmac_bytes : forall k m, bytes (HMAC k m) /\ HMAC k m <> [].

Abbreviation serve_here := (serve SHA256 HMAC other_number isAddress initialize channel_send express_json (page_secret page_key) ALLOWED_ORIGINS).

(** The request as it arrives at the proxy. *)
Definition push_fetch (rq : Request) (s : PushServer W Alice) : res nat * PushServer W Alice :=
  let '((status, _), s') := serve_here (path_of (url rq)) origin (kv_get SIGNATURE_HEADER (headers rq)) (kv_get "Content-Type" (headers rq))
                              (match body rq with Text t => t | _ => "" end) proxy_now s in
  (Ok status, s').

Abbreviation notify := (notifyEmergencyModeChange SHA256 HMAC base_url page_key push_fetch (fun _ => page_now)).

(** C24: A change of the emergency mode reaches the beneficiary: where both sides have the secret and
    clocks within five minutes, the proxy sends the text of that change to that address, once,
    and the page fails exactly when Push Protocol does. *)
Theorem notification_delivered (vaultId : Z) (beneficiary : string) (enabled : bool) (s : PushServer W Alice) (a : Alice) :
  let body := emergency_body vaultId beneficiary enabled in
  push_isConfigured base_url page_key = true -> String.eqb beneficiary ZeroAddress = false -> blank beneficiary = false ->
  isAddress beneficiary = true -> 0 <= vaultId < 2 ^ 53 -> isOriginAllowed origin ALLOWED_ORIGINS = true ->
  path_of (PUSH_PROXY_URL base_url ++ EMERGENCY_MODE_PATH) = EMERGENCY_MODE_PATH ->
  express_json (Some "application/json") (json_text body) = inl (Some body, Some (json_text body)) ->
  0 <= page_now < 2 ^ 53 -> Z.abs (proxy_now - page_now) <= DEFAULT_MAX_SKEW_SEC -> cachedUserAlice s = Some a ->
  let '(r, w) := channel_send a [beneficiary] (buildNotificationCopy (num_str vaultId) enabled) (world s) in
  notify vaultId beneficiary enabled s
  = (match r with Ok _ => Ok tt | Throw _ => Throw "Push notification proxy responded with 500" end, mkServer (Some a) w).
Proof.
  intros body Hconf Hzero Hblank Haddr Hid Horigin Hpath Hjson Hnow Hskew Halice.
  pose proof Hconf as Hsecret. unfold push_isConfigured in Hsecret. apply andb_prop in Hsecret as [_ Hsecret%negb_true_iff].
  unfold notifyEmergencyModeChange. rewrite Hconf, Hzero, Hblank. cbn [negb orb].
  assert (Hsign : signRequest SHA256 HMAC (page_secret page_key) "POST" EMERGENCY_MODE_PATH (json_text body) false None page_now
                  = signRequest SHA256 HMAC (page_secret page_key) "POST" EMERGENCY_MODE_PATH (json_text body)
                      (isMultipartContentType (Some "application/json")) (Some page_now) proxy_now) by reflexivity.
  destruct (signRequest _ _ _ _ _ _ false None page_now) as [[ts h]|e] eqn:E; [|unfold signRequest in E; rewrite Hsecret in E; discriminate E].
  assert (ts = page_now) as -> by (unfold signRequest in E; rewrite Hsecret in E; now injection E as <- _).
  pose proof (signed_admitted SHA256 HMAC other_number hmac_bytes (page_secret page_key) "POST" EMERGENCY_MODE_PATH (json_text body) origin
                (Some "application/json") (Some (json_text body)) ALLOWED_ORIGINS page_now proxy_now proxy_now DEFAULT_MAX_SKEW_SEC h Hnow Hskew Horigin
                eq_refl (or_intror eq_refl) (eq_sym Hsign)) as Hauth.
  destruct (channel_send a [beneficiary] _ (world s)) as [r w] eqn:Ew. unfold push_fetch, push_request, serve. cbn [url headers KeyInbox.body].
  change (kv_get "Content-Type" (("Content-Type", "application/json") :: h)) with (Some "application/json").
  change (kv_get SIGNATURE_HEADER (("Content-Type", "application/json") :: h)) with (kv_get SIGNATURE_HEADER h).
  change (emergency_body vaultId beneficiary enabled) with body. cbv beta iota.
  rewrite Hpath, Hjson, Hauth. unfold emergency_mode.
  change (get_prop "vaultId" body) with (Some (JNum vaultId)). change (get_prop "beneficiary" body) with (Some (JStr beneficiary)).
  change (get_prop "enabled" body) with (Some (JBool enabled)). cbn [Number_json isValidAddress]. destruct (safe_number vaultId Hid) as [_ ->].
  rewrite Haddr. cbn [negb as_str]. unfold or_empty, or_else, bind, getSigner, send_to. rewrite Hblank, Halice. cbn [String_of]. rewrite Ew, Halice.
  destruct r; reflexivity.
Qed.

(** The channel is used only for a request that is signed with the secret and comes from an
    allowed origin, for one valid address, and with the text of a change. *)
Theorem only_signed_requests_notify (originalUrl text : string) (from signature contentType : option string) (s s' : PushServer W Alice) (r : Response) :
  serve_here originalUrl from signature contentType text proxy_now s = (r, s') -> s' <> s ->
  exists v raw beneficiary enabled,
    express_json contentType text = inl (Some v, raw)
    /\ authorizeIncomingRequest SHA256 HMAC other_number (mkIncoming "POST" originalUrl from signature contentType raw) (page_secret page_key)
         ALLOWED_ORIGINS proxy_now DEFAULT_MAX_SKEW_SEC = true
    /\ get_prop "beneficiary" v = Some (JStr beneficiary) /\ isAddress beneficiary = true /\ get_prop "enabled" v = Some (JBool enabled)
    /\ exists w, (w = world s \/ w = (initialize (world s)).2)
        /\ (world s' = w \/ exists a id, world s' = (channel_send a [or_empty (Some beneficiary)] (buildNotificationCopy id enabled) w).2).
Proof.
  unfold serve. intros H Hne. destruct (express_json contentType text) as [[body raw]|refusal]; [|injection H as <- <-; contradiction].
  destruct (authorizeIncomingRequest _ _ _ _ _ _ _ _) eqn:Ea; [|injection H as <- <-; contradiction]. unfold emergency_mode in H.
  destruct (isFinite _) eqn:Ef; [|injection H as <- <-; contradiction]. cbn [negb] in H.
  destruct body as [v|]; [|cbn in H; injection H as <- <-; contradiction].
  destruct (get_prop "beneficiary" v) as [[| | |b| |]|] eqn:Eb; cbn [isValidAddress negb] in H; try (injection H as <- <-; contradiction).
  destruct (isAddress b) eqn:Eaddr; cbn [negb] in H; [|injection H as <- <-; contradiction].
  destruct (get_prop "enabled" v) as [[|e| | | |]|] eqn:Ee; try (injection H as <- <-; contradiction).
  exists v, raw, b, e. split_and!; try first [assumption|reflexivity]. unfold bind, getSigner, send_to in H. cbn [as_str] in H.
  destruct (cachedUserAlice s) as [a|].
  - exists (world s). split; [now left|]. right. exists a.
    destruct (channel_send a _ _ (world s)) as [[x|x] w] eqn:Ew; injection H as <- <-; eexists; cbn [world]; rewrite Ew; reflexivity.
  - destruct (initialize (world s)) as [[a|x] w] eqn:Ei.
    + exists w. split; [now right|]. right. exists a. cbn [world] in H.
      destruct (channel_send a _ _ w) as [[y|y] w'] eqn:Ew; injection H as <- <-; eexists; cbn [world]; rewrite Ew; reflexivity.
    + injection H as <- <-. exists w. split; [now right|now left].
Qed.
End Composition.

(** ** Instances for the examples *)

Definition sent_world : Type := list (list string * (string * string)).
Definition demo_send (a : unit) (to : list string) (copy : string * string) (w : sent_world) : res unit * sent_world := (Ok tt, (to, copy) :: w).
Definition demo_json (contentType : option string) (text : string) : (option json * option string) + Response :=
  if String.eqb (or_empty contentType) "application/json"
  then match json_parse text with Ok v => inl (Some v, Some text) | Throw e => inr (400%nat, error_json e) end
  else inl (None, None).
Definition demo_address (s : string) : bool := startsWith "0x" s && (String.length s =? 42)%nat.
Definition demo_path (u : string) : string := slice_from (String.length "https://push.example") u.
Definition demo_base : option string := Some " https://push.example".
Definition demo_beneficiary : string := "0x00000000000000000000000000000000000000b0".

Lemma notification_delivered_witness :
  notifyEmergencyModeChange toy_sha toy_hmac demo_base (Some "s")
    (push_fetch toy_sha toy_hmac (fun _ => "") demo_address (fun w => (Ok tt, w)) demo_send demo_json (Some "s") DEFAULT_ALLOWED_ORIGINS None demo_path 1700000200)
    (fun _ => 1700000000) 7 demo_beneficiary true (mkServer (Some tt) [])
  = (Ok tt, mkServer (Some tt) [([demo_beneficiary], buildNotificationCopy "7" true)]).
Proof.
  apply (notification_delivered toy_sha toy_hmac (fun _ => "") demo_address (fun w => (Ok tt, w)) demo_send demo_json demo_base (Some "s") DEFAULT_ALLOWED_ORIGINS None
           demo_path 1700000000 1700000200 toy_hmac_bytes 7 demo_beneficiary true (mkServer (Some tt) []) tt); first [lia|vm_compute; intuition discriminate|vm_compute; reflexivity].
Defined.

(** The handler alone, on a body whose [vaultId] is null: [Number(null)] is 0. *)
Example null_vault_notified :
  emergency_mode demo_address (fun w => (Ok tt, w)) demo_send
    (Some (JObj [("vaultId", JNull); ("beneficiary", JStr demo_beneficiary); ("enabled", JBool false)])) (mkServer None [])
  = ((200%nat, JObj [("status", JStr "sent")]), mkServer (Some tt) [([demo_beneficiary], buildNotificationCopy "null" false)]).
Proof. vm_compute. reflexivity. Qed.

Definition demo_header : option string :=
  match signRequest toy_sha toy_hmac "s" "POST" EMERGENCY_MODE_PATH (json_text (emergency_body 7 demo_beneficiary true)) false (Some 1700000000) 0 with
  | Ok (_, h) => kv_get SIGNATURE_HEADER h
  | Throw _ => None
  end.

Lemma only_signed_requests_notify_witness : exists v raw beneficiary enabled,
  demo_json (Some "application/json") (json_text (emergency_body 7 demo_beneficiary true)) = inl (Some v, raw)
  /\ authorizeIncomingRequest toy_sha toy_hmac (fun _ => "") (mkIncoming "POST" EMERGENCY_MODE_PATH None demo_header (Some "application/json") raw) "s"
       DEFAULT_ALLOWED_ORIGINS 1700000200 DEFAULT_MAX_SKEW_SEC = true
  /\ get_prop "beneficiary" v = Some (JStr beneficiary) /\ demo_address beneficiary = true /\ get_prop "enabled" v = Some (JBool enabled)
  /\ exists w : sent_world, (w = [] \/ w = [])
      /\ ([([demo_beneficiary], buildNotificationCopy "7" true)] = w
          \/ exists a id, [([demo_beneficiary], buildNotificationCopy "7" true)] = (demo_send a [or_empty (Some beneficiary)] (buildNotificationCopy id enabled) w).2).
Proof.
  eapply (only_signed_requests_notify toy_sha toy_hmac (fun _ => "") demo_address (fun w => (Ok tt, w)) demo_send demo_json (Some "s") DEFAULT_ALLOWED_ORIGINS
            1700000200 EMERGENCY_MODE_PATH (json_text (emergency_body 7 demo_beneficiary true)) None demo_header (Some "application/json")
            (mkServer None []) (mkServer (Some tt) [([demo_beneficiary], buildNotificationCopy "7" true)])); [vm_compute; reflexivity|discriminate].
Defined.
