(* ===== verification/IpfsUpload.v ===== *)
(** * IpfsUpload: the uploads of ipfs.service.ts

    A file is sent as a multipart body: whole, or as a stream that is wrapped in a second
    stream.  The wrapping stream is a state machine: the consumer reads, the pull algorithm
    waits for the file's next chunk, and its promise settles, in any order. *)

From Stdlib Require Import Ascii String ZArith Lia Bool.
From stdpp Require Import base list gmap strings.
From S2P Require Import Prelude Bytes JsString Hex Base64 WebCrypto StreamCrypto Sha256 Sha256Proofs StreamProofs JsonText JsNumber KeyInbox JsonParse ProxyGuard.

Open Scope string_scope.
Open Scope list_scope.
Open Scope nat_scope.

(** ** The body's stream *)

(** Where the pull algorithm is: not running, waiting for [reader.read()], returned or failed
    with its promise still to be noticed. *)
Inductive Phase : Type := Idle | Reading | Returned | Rejected (e : string).

(** What the consumer has of the stream: it is open, it has been read to its end, it has
    failed, or it was cancelled. *)
Inductive Outcome : Type := Open | Ended | Failed (e : string) | Cancelled.

(** The controller of the stream, the variables of [createMultipartFileStream], the chunks the
    file still has and how it ends, and the chunks that the consumer has got. *)
Record BodyStream : Type := mkBody {
  queue : list chunk; phase : Phase; pullAgain : bool; waiting : bool; closeRequested : bool;
  drainDone : bool; source : list chunk; failure : option string; delivered : list chunk; outcome : Outcome
}.

Inductive Event : Type := Consume | Continue | Settle | Cancel.

#[export] Instance Event_eq_dec : EqDecision Event.
Proof. solve_decision. Defined.

Section Stream.
Variables preamble epilogue : chunk.

Definition has_bytes (c : chunk) : bool := negb (length c =? 0).
Definition no_queue (s : BodyStream) : bool := match queue s with [] => true | _ => false end.

(** [start] has put the preamble in the queue: the queue holds one chunk before it is full. *)
Definition body_start (file : list chunk) (end_of : option string) : BodyStream :=
  mkBody [preamble] Idle false false false false file end_of [] Open.

Definition set_phase (p : Phase) (s : BodyStream) : BodyStream :=
  mkBody (queue s) p (pullAgain s) (waiting s) (closeRequested s) (drainDone s) (source s) (failure s) (delivered s) (outcome s).
Definition set_pullAgain (b : bool) (s : BodyStream) : BodyStream :=
  mkBody (queue s) (phase s) b (waiting s) (closeRequested s) (drainDone s) (source s) (failure s) (delivered s) (outcome s).
Definition set_source (l : list chunk) (s : BodyStream) : BodyStream :=
  mkBody (queue s) (phase s) (pullAgain s) (waiting s) (closeRequested s) (drainDone s) l (failure s) (delivered s) (outcome s).
Definition set_drained (s : BodyStream) : BodyStream :=
  mkBody (queue s) (phase s) (pullAgain s) (waiting s) (closeRequested s) true (source s) (failure s) (delivered s) (outcome s).
Definition set_outcome (o : Outcome) (s : BodyStream) : BodyStream :=
  mkBody [] (phase s) (pullAgain s) false (closeRequested s) (drainDone s) (source s) (failure s) (delivered s) o.

(** [controller.close()]: a read that waits is answered with the end. *)
Definition controller_close (s : BodyStream) : BodyStream :=
  let s' := mkBody (queue s) (phase s) (pullAgain s) (waiting s) true (drainDone s) (source s) (failure s) (delivered s) (outcome s) in
  if no_queue s && waiting s then set_outcome Ended s' else s'.

(** The first part of [pull], up to its [await]: after the end of the file there is none. *)
Definition pull (s : BodyStream) : BodyStream :=
  if drainDone s then set_phase Returned (controller_close s) else set_phase Reading s.

(** The controller calls [pull] when it has room or a read waits; one call at a time. *)
Definition pull_if_needed (s : BodyStream) : BodyStream :=
  if closeRequested s || negb (waiting s || no_queue s) then s
  else match phase s with Idle => pull s | _ => set_pullAgain true s end.

(** [controller.enqueue(chunk)]: a read that waits gets the chunk. *)
Definition controller_enqueue (c : chunk) (s : BodyStream) : BodyStream :=
  pull_if_needed
    (if waiting s
     then mkBody (queue s) (phase s) (pullAgain s) false (closeRequested s) (drainDone s) (source s) (failure s) (delivered s ++ [c]) (outcome s)
     else mkBody (queue s ++ [c]) (phase s) (pullAgain s) false (closeRequested s) (drainDone s) (source s) (failure s) (delivered s) (outcome s)).

(** The rest of [pull]: the file's reader has answered. *)
Definition pull_continue (s : BodyStream) : BodyStream :=
  match source s with
  | c :: file => set_phase Returned (if has_bytes c then controller_enqueue c (set_source file s) else set_source file s)
  | [] => match failure s with
          | None => set_phase Returned (controller_enqueue epilogue (set_drained s))
          | Some e => set_phase (Rejected e) s
          end
  end.

(** The promise of [pull] settles. *)
Definition pull_settled (s : BodyStream) : BodyStream :=
  match phase s with
  | Rejected e => set_outcome (Failed e) s
  | _ => let s' := set_phase Idle s in if pullAgain s then pull_if_needed (set_pullAgain false s') else s'
  end.

(** The consumer reads. *)
Definition consumer_read (s : BodyStream) : BodyStream :=
  match queue s with
  | c :: q => pull_if_needed (mkBody q (phase s) (pullAgain s) (waiting s) (closeRequested s) (drainDone s) (source s) (failure s) (delivered s ++ [c]) (outcome s))
  | [] => if closeRequested s then set_outcome Ended s
          else pull_if_needed (mkBody [] (phase s) (pullAgain s) true (closeRequested s) (drainDone s) (source s) (failure s) (delivered s) (outcome s))
  end.

Definition step (e : Event) (s : BodyStream) : option BodyStream :=
  match outcome s with
  | Open =>
      match e, phase s with
      | Consume, _ => if waiting s then None else Some (consumer_read s)
      | Continue, Reading => Some (pull_continue s)
      | Settle, (Returned | Rejected _) => Some (pull_settled s)
      | Cancel, _ => Some (set_outcome Cancelled s)
      | _, _ => None
      end
  | _ => None
  end.

Fixpoint steps (l : list Event) (s : BodyStream) : option BodyStream :=
  match l with [] => Some s | e :: l' => match step e s with Some s' => steps l' s' | None => None end end.

(** *** What is delivered *)

Definition whole (file : list chunk) : list chunk := preamble :: List.filter has_bytes file ++ [epilogue].

Record sound (file : list chunk) (s : BodyStream) : Prop := {
  at_end : drainDone s = true -> source s = [] /\ failure s = None;
  after_end : closeRequested s = true -> drainDone s = true;
  read_out : outcome s = Ended -> closeRequested s = true;
  kept : match outcome s with
         | Open | Ended => delivered s ++ queue s ++ List.filter has_bytes (source s) ++ (if drainDone s then [] else [epilogue]) = whole file
         | _ => exists rest, delivered s ++ rest = whole file
         end;
  empty_queue : match outcome s with Open => waiting s = true -> queue s = [] | _ => queue s = [] end;
  answered : outcome s = Open -> closeRequested s = true -> waiting s = false
}.

Lemma sound_start (file : list chunk) (end_of : option string) : sound file (body_start file end_of).
Proof. constructor; cbn; try discriminate. reflexivity. Qed.

Lemma sound_pull_if_needed (file : list chunk) (s : BodyStream) : outcome s = Open -> sound file s -> sound file (pull_if_needed s).
Proof.
  intros Ho [H1 H2 H3 H4 H5 H6]. destruct s as [q ph pa wt cr dd src fl dl oc]. cbn in Ho. subst oc. unfold pull_if_needed.
  cbn [closeRequested waiting no_queue queue phase outcome]. destruct cr; [now constructor|]. cbn [orb]. destruct (negb _); [now constructor|].
  destruct ph; [|now constructor..]. unfold pull. cbn [drainDone]. destruct dd; [|now constructor]. unfold controller_close.
  cbn [no_queue queue waiting]. cbn in *.
  destruct q as [|c q], wt; cbn [andb]; constructor; cbn in *; try discriminate; try tauto; try (intros; exact H4).
  specialize (H5 eq_refl). discriminate H5.
Qed.

Lemma sound_enqueue (file : list chunk) (c : chunk) (s : BodyStream) :
  outcome s = Open -> closeRequested s = false -> (waiting s = true -> queue s = []) ->
  (drainDone s = true -> source s = [] /\ failure s = None) ->
  delivered s ++ queue s ++ [c] ++ List.filter has_bytes (source s) ++ (if drainDone s then [] else [epilogue]) = whole file ->
  sound file (controller_enqueue c s).
Proof.
  intros Ho Hc Hq Hd Hk. destruct s as [q ph pa wt cr dd src fl dl oc]. cbn in *. subst oc cr. unfold controller_enqueue. cbn [waiting].
  apply sound_pull_if_needed; [now destruct wt|]. destruct wt; constructor; cbn; try discriminate; try assumption.
  - rewrite <- Hk. specialize (Hq eq_refl). subst q. now rewrite <- !app_assoc.
  - rewrite <- Hk. now rewrite <- !app_assoc.
Qed.

Lemma sound_set_phase (file : list chunk) (p : Phase) (s : BodyStream) : sound file s -> sound file (set_phase p s).
Proof. intros []. now constructor. Qed.

Lemma sound_stop (file : list chunk) (o : Outcome) (s : BodyStream) : outcome s = Open -> sound file s ->
  match o with Failed _ | Cancelled => True | _ => False end -> sound file (set_outcome o s).
Proof.
  intros Ho [H1 H2 H3 H4 H5 H6] H. rewrite Ho in H4. destruct o; try contradiction; constructor; cbn; try assumption; try discriminate; try reflexivity; eauto.
Qed.

(** While the file's reader is asked, its end has not been seen. *)
Definition undrained (s : BodyStream) : Prop := phase s = Reading -> drainDone s = false.

Lemma undrained_pull_if_needed (s : BodyStream) : undrained s -> undrained (pull_if_needed s).
Proof.
  intros H. unfold pull_if_needed. destruct (_ || _); [exact H|]. destruct (phase s); try exact H. unfold pull.
  destruct (drainDone s) eqn:Hd; [|now intros _]. unfold controller_close. destruct (_ && _); discriminate.
Qed.

Lemma undrained_step (e : Event) (s s' : BodyStream) : step e s = Some s' -> undrained s -> undrained s'.
Proof.
  unfold step. destruct (outcome s); try discriminate. intros H Hu. destruct e.
  - destruct (waiting s); [discriminate|]. injection H as <-. unfold consumer_read.
    destruct (queue s); [destruct (closeRequested s); [exact Hu|]|]; now apply undrained_pull_if_needed.
  - destruct (phase s); try discriminate. injection H as <-. unfold pull_continue. destruct (source s); [destruct (failure s)|]; discriminate.
  - destruct (phase s) eqn:Hp; try discriminate; injection H as <-; unfold pull_settled; rewrite Hp.
    + destruct (pullAgain s); [|discriminate]. now apply undrained_pull_if_needed.
    + unfold undrained. cbn. now rewrite Hp.
  - injection H as <-. exact Hu.
Qed.

Lemma sound_step (file : list chunk) (e : Event) (s s' : BodyStream) : step e s = Some s' -> undrained s -> sound file s -> sound file s'.
Proof.
  unfold step. destruct (outcome s) eqn:Ho; try discriminate. intros H Hu Hs. pose proof Hs as [H1 H2 H3 H4 H5 H6]. rewrite Ho in H4, H5. destruct e.
  - destruct (waiting s) eqn:Hw; [discriminate|]. injection H as <-. unfold consumer_read. destruct (queue s) as [|c q] eqn:Hq.
    + destruct (closeRequested s) eqn:Hc.
      * constructor; cbn; rewrite ?Hc; try assumption; try discriminate; reflexivity.
      * apply sound_pull_if_needed; [exact Ho|]. constructor; cbn; rewrite ?Ho, ?Hc; try assumption; try discriminate; try reflexivity.
    + apply sound_pull_if_needed; [exact Ho|]. constructor; cbn; rewrite ?Ho, ?Hw; try assumption; try discriminate; try reflexivity.
      rewrite <- H4. now rewrite <- app_assoc.
  - destruct (phase s) eqn:Hp; try discriminate. injection H as <-. specialize (Hu Hp). unfold pull_continue. destruct (source s) as [|c src] eqn:Hsrc.
    + destruct (failure s) as [err|] eqn:Hf; [now apply sound_set_phase|]. apply sound_set_phase.
      rewrite Hu in H4. apply sound_enqueue; cbn; try assumption; try reflexivity.
      * destruct (closeRequested s); [now rewrite H2 in Hu|reflexivity].
      * exact (fun _ => conj Hsrc Hf).
      * rewrite Hsrc. exact H4.
    + assert (Hd : drainDone s = false) by (destruct (drainDone s); [now destruct H1|reflexivity]).
      assert (Hc : closeRequested s = false) by (destruct (closeRequested s); [now rewrite H2 in Hd|reflexivity]).
      apply sound_set_phase. cbn in H4. destruct (has_bytes c).
      * apply sound_enqueue; cbn; rewrite ?Hd; try assumption; try discriminate. now rewrite Hd in H4.
      * constructor; cbn; rewrite ?Ho, ?Hd, ?Hc; try assumption; try discriminate; now rewrite Hd in H4.
  - destruct (phase s) eqn:Hp; try discriminate; injection H as <-; unfold pull_settled; rewrite Hp.
    + destruct (pullAgain s); [|now apply sound_set_phase]. apply sound_pull_if_needed; [exact Ho|]. destruct Hs. now constructor.
    + now apply sound_stop.
  - injection H as <-. now apply sound_stop.
Qed.

Lemma sound_steps (file : list chunk) (l : list Event) (s s' : BodyStream) :
  steps l s = Some s' -> undrained s -> sound file s -> sound file s' /\ undrained s'.
Proof.
  revert s. induction l as [|e l IH]; intros s H Hu Hs; cbn in H; [injection H as <-; now split|].
  destruct (step e s) as [s1|] eqn:E; [|discriminate]. apply (IH s1 H); [eapply undrained_step|eapply sound_step]; eassumption.
Qed.

(** *** That it is delivered *)

(** What keeps a read from waiting for nobody: the pull algorithm runs, or has been asked to run
    again, or the queue is full. *)
Definition lively (s : BodyStream) : Prop :=
  outcome s = Open -> closeRequested s = false ->
  match phase s with
  | Idle => waiting s = false /\ queue s <> []
  | Returned => waiting s || no_queue s = true -> pullAgain s = true
  | _ => True
  end.

Lemma lively_pull_if_needed (s : BodyStream) : lively (pull_if_needed s).
Proof.
  intros Ho Hc. unfold pull_if_needed in *. destruct (closeRequested s) eqn:Hc'.
  - cbn [orb] in *. congruence.
  - cbn [orb] in *. destruct (waiting s) eqn:Hw, (no_queue s) eqn:Hq; cbn [orb negb] in *.
    4: { destruct (phase s); [|exact I| |exact I]; rewrite ?Hw, ?Hq; [|discriminate]. split; [reflexivity|]. intros E. unfold no_queue in Hq. now rewrite E in Hq. }
    all: destruct (phase s) eqn:Hp; try (cbn; rewrite Hp; first [exact I|reflexivity]).
    all: unfold pull in *; destruct (drainDone s); [|exact I]; exfalso; revert Hc; unfold controller_close; destruct (_ && _); discriminate.
Qed.

Lemma enqueue_busy (c : chunk) (s : BodyStream) : phase s = Reading -> closeRequested s = false ->
  let s' := controller_enqueue c s in waiting s' || no_queue s' = true -> pullAgain s' = true.
Proof.
  intros Hp Hc. cbn. unfold controller_enqueue, pull_if_needed. destruct (waiting s); cbn [closeRequested waiting no_queue queue phase]; rewrite Hc; cbn [orb].
  - destruct (queue s); cbn [negb]; rewrite ?Hp; [reflexivity|]. now cbn.
  - destruct (queue s ++ [c]); cbn [negb]; rewrite ?Hp; [reflexivity|]. now cbn.
Qed.

Lemma lively_step (file : list chunk) (e : Event) (s s' : BodyStream) :
  step e s = Some s' -> Forall (fun c => has_bytes c = true) (source s) -> undrained s -> sound file s -> lively s -> lively s'.
Proof.
  unfold step. destruct (outcome s) eqn:Ho; try discriminate. intros H Hb Hu Hs Hl. specialize (Hl Ho). destruct e.
  - destruct (waiting s); [discriminate|]. injection H as <-. unfold consumer_read.
    destruct (queue s); [destruct (closeRequested s); [discriminate|]|]; apply lively_pull_if_needed.
  - destruct (phase s) eqn:Hp; try discriminate. injection H as <-. specialize (Hu Hp).
    assert (Hc : closeRequested s = false) by (destruct (closeRequested s) eqn:E; [apply (after_end _ _ Hs) in E; congruence|reflexivity]).
    unfold pull_continue. destruct Hb as [|c src Hb _].
    + destruct (failure s); [intros _ _; exact I|]. intros _ _. cbn [phase set_phase]. now apply enqueue_busy.
    + rewrite Hb. intros _ _. cbn [phase set_phase]. now apply enqueue_busy.
  - destruct (phase s) eqn:Hp; try discriminate; injection H as <-; unfold pull_settled; rewrite Hp; [|discriminate].
    destruct (pullAgain s); [apply lively_pull_if_needed|]. intros _ Hc. specialize (Hl Hc). cbn in Hc |- *.
    destruct (waiting s) eqn:Hw; [now specialize (Hl eq_refl)|]. split; [reflexivity|]. intros E. unfold no_queue in Hl. rewrite E in Hl. now specialize (Hl eq_refl).
  - injection H as <-. discriminate.
Qed.

(** The file ends as it ends. *)
Lemma failure_pull_if_needed (s : BodyStream) : failure (pull_if_needed s) = failure s.
Proof.
  unfold pull_if_needed. destruct (_ || _); [reflexivity|]. destruct (phase s); try reflexivity. unfold pull. destruct (drainDone s); [|reflexivity].
  unfold controller_close. now destruct (_ && _).
Qed.

Lemma failure_step (e : Event) (s s' : BodyStream) : step e s = Some s' -> failure s' = failure s.
Proof.
  unfold step. destruct (outcome s); try discriminate. intros H. destruct e.
  - destruct (waiting s); [discriminate|]. injection H as <-. unfold consumer_read.
    destruct (queue s); [destruct (closeRequested s); [reflexivity|]|]; now rewrite failure_pull_if_needed.
  - destruct (phase s); try discriminate. injection H as <-. unfold pull_continue.
    destruct (source s) as [|c src]; [destruct (failure s) eqn:E; [exact E|]|destruct (has_bytes c); [|reflexivity]];
      cbn; unfold controller_enqueue; rewrite failure_pull_if_needed; now destruct (waiting _).
  - destruct (phase s) eqn:Hp; try discriminate; injection H as <-; unfold pull_settled; rewrite Hp; [|reflexivity].
    destruct (pullAgain s); [|reflexivity]. now rewrite failure_pull_if_needed.
  - now injection H as <-.
Qed.

Lemma failure_steps (l : list Event) (s s' : BodyStream) : steps l s = Some s' -> failure s' = failure s.
Proof.
  revert s. induction l as [|e l IH]; intros s H; cbn in H; [now injection H as <-|].
  destruct (step e s) as [s1|] eqn:E; [|discriminate]. rewrite (IH s1 H). now apply failure_step with e.
Qed.

(** The stream fails only with the file. *)
Definition file_failed (s : BodyStream) : Prop :=
  match phase s with Rejected e => failure s = Some e | _ => True end /\ match outcome s with Failed e => failure s = Some e | _ => True end.

Lemma phase_pull_if_needed (s : BodyStream) : file_failed s -> file_failed (pull_if_needed s).
Proof.
  unfold pull_if_needed. intros [H1 H2]. destruct (_ || _); [now split|]. destruct (phase s) eqn:Hp.
  - unfold pull. destruct (drainDone s); [|now split]. unfold controller_close. destruct (_ && _); now split.
  - split; [cbn; now rewrite Hp|exact H2].
  - split; [cbn; now rewrite Hp|exact H2].
  - split; [cbn; now rewrite Hp|exact H2].
Qed.

Lemma fails_step (e : Event) (s s' : BodyStream) : step e s = Some s' -> file_failed s -> file_failed s'.
Proof.
  unfold step. destruct (outcome s) eqn:Ho; try discriminate. intros H Hf. pose proof Hf as [H1 H2]. destruct e.
  - destruct (waiting s); [discriminate|]. injection H as <-. unfold consumer_read.
    destruct (queue s); [destruct (closeRequested s); [now split|]|]; now apply phase_pull_if_needed.
  - destruct (phase s) eqn:Hp; try discriminate. injection H as <-. unfold pull_continue.
    assert (Q : forall c x, outcome x = Open -> phase x = Reading -> file_failed (set_phase Returned (controller_enqueue c x))).
    { intros c x Ho' Hp'. split; [exact I|]. cbn. unfold controller_enqueue.
      destruct (waiting x); apply phase_pull_if_needed; unfold file_failed; cbn; now rewrite Ho', Hp'. }
    destruct (source s); [destruct (failure s) eqn:E|destruct (has_bytes _)].
    + split; [exact E|]. cbn. now rewrite Ho.
    + now apply Q.
    + now apply Q.
    + split; [exact I|]. cbn. now rewrite Ho.
  - destruct (phase s) eqn:Hp; try discriminate; injection H as <-; unfold pull_settled; rewrite Hp.
    + destruct (pullAgain s); [apply phase_pull_if_needed|]; split; try exact I; cbn; now rewrite Ho.
    + split; [cbn; now rewrite Hp|exact H1].
  - injection H as <-. split; [exact H1|exact I].
Qed.

Lemma fails_steps (l : list Event) (s s' : BodyStream) : steps l s = Some s' -> file_failed s -> file_failed s'.
Proof.
  revert s. induction l as [|e l IH]; intros s H Hf; cbn in H; [now injection H as <-|].
  destruct (step e s) as [s1|] eqn:E; [|discriminate]. eapply IH, fails_step; eassumption.
Qed.

(** Every step brings the end nearer. *)
Definition work (s : BodyStream) : nat :=
  4 * (length (source s) + (if drainDone s then 0 else 1) + (if closeRequested s then 0 else 1))
  + match phase s with Rejected _ => 0 | Reading => 1 | Idle => 2 | Returned => 3 end
  + length (queue s) + (if waiting s then 0 else 1) + match outcome s with Open => 2 | _ => 0 end.

Lemma work_close (s : BodyStream) : closeRequested s = false -> outcome s = Open -> work (controller_close s) + 3 <= work s.
Proof.
  intros Hc Ho. unfold controller_close, work, no_queue. destruct (queue s) eqn:Hq, (waiting s) eqn:Hw;
    cbn; rewrite ?Hc, ?Ho, ?Hq, ?Hw; cbn; lia.
Qed.

Lemma work_pull_if_needed (s : BodyStream) : outcome s = Open -> work (pull_if_needed s) <= work s.
Proof.
  intros Ho. unfold pull_if_needed. destruct (closeRequested s) eqn:Hc; [reflexivity|]. cbn [orb]. destruct (negb _); [reflexivity|].
  destruct (phase s) eqn:Hp; try reflexivity. unfold pull. destruct (drainDone s) eqn:Hd.
  - pose proof (work_close s Hc Ho). unfold work in *. cbn. unfold controller_close in *. destruct (_ && _); cbn in *; rewrite Hp in *; lia.
  - unfold work. cbn. rewrite Hp. lia.
Qed.

Lemma work_enqueue (c : chunk) (s : BodyStream) : outcome s = Open -> work (controller_enqueue c s) <= work s + 1.
Proof.
  intros Ho. unfold controller_enqueue. destruct (waiting s) eqn:Hw; (etransitivity; [now apply work_pull_if_needed|]); unfold work; cbn; rewrite ?Hw, ?length_app; cbn; lia.
Qed.

Lemma enqueue_phase (c : chunk) (s : BodyStream) : phase s = Reading -> phase (controller_enqueue c s) = Reading.
Proof.
  intros Hp. unfold controller_enqueue, pull_if_needed. destruct (waiting s); cbn [closeRequested waiting no_queue queue phase];
    (destruct (_ || _); [exact Hp|]); rewrite Hp; reflexivity.
Qed.

Lemma work_stop (o : Outcome) (s : BodyStream) : outcome s = Open -> o <> Open -> work (set_outcome o s) < work s.
Proof. intros Ho Hn. unfold work. cbn. rewrite Ho. destruct o; [contradiction|..]; destruct (waiting s); lia. Qed.

Lemma work_step (e : Event) (s s' : BodyStream) : step e s = Some s' -> undrained s -> work s' < work s.
Proof.
  unfold step. destruct (outcome s) eqn:Ho; try discriminate. intros H Hu. destruct e.
  - destruct (waiting s) eqn:Hw; [discriminate|]. injection H as <-. unfold consumer_read.
    destruct (queue s) eqn:Hq; [destruct (closeRequested s) eqn:Hc; [now apply work_stop|]|];
      (eapply Nat.le_lt_trans; [now apply work_pull_if_needed|]); unfold work; cbn; rewrite ?Ho, ?Hw, ?Hq, ?Hc; cbn; lia.
  - destruct (phase s) eqn:Hp; try discriminate. injection H as <-. specialize (Hu Hp). unfold pull_continue. destruct (source s) as [|c src] eqn:Hsrc.
    + destruct (failure s); [unfold work; cbn; rewrite Hp, Ho; lia|].
      pose proof (work_enqueue epilogue (set_drained s) Ho) as W. pose proof (enqueue_phase epilogue (set_drained s) Hp) as P.
      unfold work in *. cbn in *. rewrite P, Hp, Hu, Hsrc in *. cbn in *. lia.
    + assert (W : work (if has_bytes c then controller_enqueue c (set_source src s) else set_source src s) <= work (set_source src s) + 1)
        by (destruct (has_bytes c); [now apply work_enqueue|lia]).
      assert (P : phase (if has_bytes c then controller_enqueue c (set_source src s) else set_source src s) = Reading)
        by (destruct (has_bytes c); [now apply enqueue_phase|exact Hp]).
      set (x := if has_bytes c then _ else _) in *. unfold work in *. cbn in *. rewrite P, Hp, Hsrc in *. cbn in *. lia.
  - destruct (phase s) eqn:Hp; try discriminate; injection H as <-; unfold pull_settled; rewrite Hp; [|now apply work_stop].
    destruct (pullAgain s); [eapply Nat.le_lt_trans; [now apply work_pull_if_needed|]|]; unfold work; cbn; rewrite Hp; lia.
  - injection H as <-. now apply work_stop.
Qed.

Lemma in_order (file : list chunk) (end_of : option string) (l : list Event) (s : BodyStream) :
  steps l (body_start file end_of) = Some s ->
  (exists rest, delivered s ++ rest = preamble :: List.filter has_bytes file ++ [epilogue])
  /\ (outcome s = Ended -> delivered s = preamble :: List.filter has_bytes file ++ [epilogue] /\ end_of = None).
Proof.
  intros H. pose proof (failure_steps _ _ _ H) as Hfail. destruct (sound_steps file l _ s H) as [[H1 H2 H3 H4 H5 _] _]; [discriminate|apply sound_start|]. split.
  - destruct (outcome s); [eexists; exact H4|eexists; exact H4|exact H4|exact H4].
  - intros Ho. rewrite Ho in H4, H5. specialize (H3 Ho). specialize (H2 H3). specialize (H1 H2) as [Hs Hf]. rewrite H5, Hs, H2 in H4.
    cbn in H4. rewrite app_nil_r in H4. split; [exact H4|]. now rewrite <- Hf, Hfail.
Qed.

(** No order of the consumer's reads and the promises of the stream loses or reorders a chunk:
    what has been delivered begins the body, and is all of it when the end has been read; a
    file that fails is never read to an end. *)
Theorem body_in_order (file : list chunk) (end_of : option string) (l : list Event) (s : BodyStream) :
  steps l (body_start file end_of) = Some s ->
  (exists rest, delivered s ++ rest = preamble :: List.filter has_bytes file ++ [epilogue])
  /\ (outcome s = Ended -> delivered s = preamble :: List.filter has_bytes file ++ [epilogue] /\ end_of = None).
Proof. apply in_order. Qed.

Lemma source_step (e : Event) (s s' : BodyStream) : step e s = Some s' -> exists used, source s = used ++ source s'.
Proof.
  assert (P : forall x, source (pull_if_needed x) = source x).
  { intros x. unfold pull_if_needed. destruct (_ || _); [reflexivity|]. destruct (phase x); try reflexivity. unfold pull. destruct (drainDone x); [|reflexivity].
    unfold controller_close. now destruct (_ && _). }
  unfold step. destruct (outcome s); try discriminate. intros H. destruct e.
  - exists []. destruct (waiting s); [discriminate|]. injection H as <-. unfold consumer_read.
    destruct (queue s); [destruct (closeRequested s); [reflexivity|]|]; now rewrite P.
  - destruct (phase s); try discriminate. injection H as <-. unfold pull_continue. destruct (source s) as [|c src] eqn:Hsrc.
    + exists []. destruct (failure s); [cbn; now rewrite Hsrc|]. cbn. unfold controller_enqueue. rewrite P. now destruct (waiting _).
    + exists [c]. destruct (has_bytes c); [|reflexivity]. cbn. unfold controller_enqueue. rewrite P. now destruct (waiting _).
  - exists []. destruct (phase s) eqn:Hp; try discriminate; injection H as <-; unfold pull_settled; rewrite Hp; [|reflexivity].
    destruct (pullAgain s); [now rewrite P|reflexivity].
  - exists []. now injection H as <-.
Qed.

Lemma lively_steps (file : list chunk) (l : list Event) (s s' : BodyStream) :
  steps l s = Some s' -> Forall (fun c => has_bytes c = true) (source s) -> undrained s -> sound file s -> lively s ->
  lively s' /\ length l + work s' <= work s.
Proof.
  revert s. induction l as [|e l IH]; intros s H Hb Hu Hs Hl; cbn in H; [injection H as <-; now split|].
  destruct (step e s) as [s1|] eqn:E; [|discriminate]. destruct (source_step e s s1 E) as [used Hsrc].
  destruct (IH s1 H) as [L W].
  - rewrite Hsrc in Hb. now apply Forall_app in Hb.
  - eapply undrained_step; eassumption.
  - eapply sound_step; eassumption.
  - eapply lively_step; eassumption.
  - split; [exact L|]. pose proof (work_step e s s1 E Hu). cbn [length]. lia.
Qed.

Lemma completes (file : list chunk) (l : list Event) (s : BodyStream) :
  Forall (fun c => has_bytes c = true) file -> steps l (body_start file None) = Some s ->
  length l <= 4 * length file + 14
  /\ ((exists e s', e <> Cancel /\ step e s = Some s') \/ outcome s = Cancelled
      \/ (outcome s = Ended /\ delivered s = preamble :: file ++ [epilogue])).
Proof.
  intros Hb H. pose proof (failure_steps _ _ _ H) as Hfail. pose proof (in_order file None l s H) as [_ Hend].
  destruct (sound_steps file l _ s H) as [Hs Hu]; [discriminate|apply sound_start|].
  destruct (lively_steps file l _ s H) as [L W]; [exact Hb|discriminate|apply sound_start|intros _ _; now split|].
  assert (work (body_start file None) = 4 * length file + 14) as W0 by (unfold work; cbn; lia). split; [lia|]. clear W W0.
  destruct (outcome s) eqn:Ho; [|right; right; split; [reflexivity|]| |right; left; reflexivity].
  - left. destruct (waiting s) eqn:Hw.
    + assert (Hc : closeRequested s = false) by (destruct (closeRequested s) eqn:E; [pose proof (answered _ _ Hs Ho E); congruence|reflexivity]).
      specialize (L Ho Hc). destruct (phase s) eqn:Hp.
      * destruct L as [L _]. congruence.
      * exists Continue. eexists. split; [discriminate|]. unfold step. now rewrite Ho, Hp.
      * exists Settle. eexists. split; [discriminate|]. unfold step. now rewrite Ho, Hp.
      * exists Settle. eexists. split; [discriminate|]. unfold step. now rewrite Ho, Hp.
    + exists Consume. eexists. split; [discriminate|]. unfold step. now rewrite Ho, Hw.
  - destruct (Hend eq_refl) as [-> _]. do 2 f_equal. clear -Hb. induction Hb as [|c file Hc _ IH]; [reflexivity|]. cbn. now rewrite Hc, IH.
  - exfalso. pose proof (fails_steps l _ s H) as F. unfold file_failed in F. rewrite Ho, Hfail in F. destruct F as [_ F]; [now split|discriminate F].
Qed.

Lemma cancel_outcome (e : Event) (s s' : BodyStream) : step e s = Some s' -> outcome s' = Cancelled -> e = Cancel.
Proof.
  assert (P : forall x, outcome x = Open -> outcome (pull_if_needed x) = Cancelled -> False).
  { intros x Ho. unfold pull_if_needed. destruct (_ || _); [congruence|]. destruct (phase x); cbn; try congruence. unfold pull. destruct (drainDone x); cbn; [|congruence].
    unfold controller_close. destruct (_ && _); cbn; congruence. }
  unfold step. destruct (outcome s) eqn:Ho; try discriminate. intros H Hc. destruct e; [exfalso..|reflexivity].
  - destruct (waiting s); [discriminate|]. injection H as <-. unfold consumer_read in Hc.
    destruct (queue s); [destruct (closeRequested s); [discriminate Hc|]|]; refine (P _ _ Hc); exact Ho.
  - destruct (phase s); try discriminate. injection H as <-. unfold pull_continue in Hc.
    destruct (source s); [destruct (failure s); [cbn in Hc; congruence|]|destruct (has_bytes _); [|cbn in Hc; congruence]];
      cbn in Hc; unfold controller_enqueue in Hc; (refine (P _ _ Hc); now destruct (waiting _)).
  - destruct (phase s) eqn:Hp; try discriminate; injection H as <-; unfold pull_settled in Hc; rewrite Hp in Hc; [|discriminate Hc].
    destruct (pullAgain s); [refine (P _ _ Hc); exact Ho|cbn in Hc; congruence].
Qed.

Lemma not_cancelled (l : list Event) (s s' : BodyStream) : steps l s = Some s' -> (Cancel ∉ l) -> outcome s = Open -> outcome s' <> Cancelled.
Proof.
  revert s. induction l as [|e l IH]; intros s H Hl Ho; cbn in H; [injection H as <-; congruence|].
  destruct (step e s) as [s1|] eqn:E; [|discriminate]. rewrite not_elem_of_cons in Hl. destruct Hl as [He Hl].
  destruct (outcome s1) eqn:Ho1; [exact (IH s1 H Hl Ho1)| | |elim He; symmetry; exact (cancel_outcome _ _ _ E Ho1)];
    (destruct l as [|e' l]; cbn in H; [injection H as <-; congruence|unfold step in H; now rewrite Ho1 in H]).
Qed.

(** A file without empty chunks is delivered whole, in every order of the events: until the
    consumer has read the end, or cancels, some promise or read can always go on, and there are
    at most thirteen steps and four for each chunk. *)
Theorem body_completes (file : list chunk) (l : list Event) (s : BodyStream) :
  Forall (fun c => has_bytes c = true) file -> steps l (body_start file None) = Some s ->
  length l <= 4 * length file + 14
  /\ ((exists e s', e <> Cancel /\ step e s = Some s') \/ outcome s = Cancelled
      \/ (outcome s = Ended /\ delivered s = preamble :: file ++ [epilogue])).
Proof. apply completes. Qed.

(** A read waits, the pull algorithm waits for the file, and nothing asks for another pull. *)
Definition awaiting (file got : list chunk) : BodyStream := mkBody [] Reading false true false false file None got Open.

Lemma awaiting_round (c : chunk) (file got : list chunk) : has_bytes c = true ->
  steps [Continue; Consume; Settle] (awaiting (c :: file) got) = Some (awaiting file (got ++ [c])).
Proof. intros Hc. cbn. unfold pull_continue. cbn [source awaiting]. rewrite Hc. reflexivity. Qed.

Lemma body_steps_app (l1 l2 : list Event) (s : BodyStream) : steps (l1 ++ l2) s = match steps l1 s with Some s' => steps l2 s' | None => None end.
Proof. revert s. induction l1 as [|e l1 IH]; intros s; [reflexivity|]. cbn. destruct (step e s); [apply IH|reflexivity]. Qed.

Lemma awaiting_rounds (before file got : list chunk) : Forall (fun c => has_bytes c = true) before ->
  exists l, (Cancel ∉ l) /\ steps l (awaiting (before ++ file) got) = Some (awaiting file (got ++ before)).
Proof.
  intros H. revert got. induction H as [|c before Hc _ IH]; intros got.
  - exists []. split; [apply not_elem_of_nil|]. cbn. now rewrite app_nil_r.
  - destruct (IH (got ++ [c])) as (l & Hl & E). exists ([Continue; Consume; Settle] ++ l). split.
    + cbn [app]. rewrite !elem_of_cons. intros [D|[D|[D|D]]]; try discriminate. contradiction.
    + rewrite body_steps_app. change ((c :: before) ++ file) with (c :: before ++ file). rewrite awaiting_round by exact Hc. rewrite E. now rewrite <- app_assoc.
Qed.

(** A file with an empty chunk may never arrive: the stream that wraps it enqueues nothing for
    that chunk, so when the consumer's read was already waiting nobody pulls again. *)
Theorem empty_chunk_stalls (c : chunk) (before after : list chunk) : Forall (fun c => has_bytes c = true) (c :: before) ->
  exists l s, (Cancel ∉ l) /\ steps l (body_start (c :: before ++ [] :: after) None) = Some s
    /\ delivered s = preamble :: c :: before /\ outcome s = Open /\ waiting s = true /\ (forall e, e <> Cancel -> step e s = None).
Proof.
  intros H. inversion H as [|? ? Hc Hb]; subst. destruct (awaiting_rounds before ([] :: after) [preamble; c] Hb) as (l & Hl & E).
  exists ([Consume; Consume; Continue; Consume; Settle] ++ l ++ [Continue; Settle]). eexists. split; [|split].
  - rewrite !elem_of_app, !elem_of_cons, elem_of_nil. intros [D|[D|D]]; try contradiction; decompose [or] D; try discriminate; contradiction.
  - rewrite body_steps_app. assert (E0 : steps [Consume; Consume; Continue; Consume; Settle] (body_start (c :: before ++ [] :: after) None)
                                  = Some (awaiting (before ++ [] :: after) [preamble; c])) by (cbn; unfold pull_continue; cbn [source set_source]; rewrite Hc; reflexivity).
    rewrite E0, body_steps_app, E. reflexivity.
  - cbn. split_and!; try reflexivity. intros e He. destruct e; try reflexivity. contradiction.
Qed.
End Stream.

(** ** The multipart body *)

Definition quote_mark : ascii := "034"%char.
Definition CRLF : string := String "013" (String "010" "").
Definition dquote : string := String quote_mark "".

Definition sanitize_char (c : ascii) : ascii :=
  if (nat_of_ascii c =? 13) || (nat_of_ascii c =? 10) || (nat_of_ascii c =? 34) then "_"%char else c.
Definition sanitizeMultipartFilename (filename : string) : string := str_map sanitize_char filename.

Definition cryptoRandomBoundary (random : list Z) : string := bytes_hex random.

(** [!v] of a JSON value, and [a || b] *)
Definition json_truthy (v : json) : bool :=
  match v with JNull => false | JBool b => b | JNum n => negb (n =? 0)%Z | JStr s => negb (blank s) | _ => true end.
Definition json_or (v : option json) (d : option json) : option json :=
  match v with Some x => if json_truthy x then Some x else d | None => d end.

Definition json_members (name keyvalues : option json) : json :=
  JObj (match name with Some v => [("name", v)] | None => [] end ++ match keyvalues with Some v => [("keyvalues", v)] | None => [] end).

Section Upload.
Context {W : WebCrypto}.

Definition disposition (field rest : string) : string :=
  ("Content-Disposition: form-data; name=" ++ dquote ++ field ++ dquote ++ rest ++ CRLF)%string.

Definition preamble_text (boundary filename contentType : string) : string :=
  ("--" ++ boundary ++ CRLF ++ disposition "file" ("; filename=" ++ dquote ++ filename ++ dquote)
   ++ "Content-Type: " ++ contentType ++ CRLF ++ CRLF)%string.

(** The name is the metadata's where that is a string; its other members are the key values
    where it has none of its own. *)
Definition metadata_part (boundary filename : string) (metadata : option (list (string * json))) : string :=
  match metadata with
  | None | Some [] => ""
  | Some members =>
      let name := or_else (as_str (last_member "name" members)) filename in
      let keyvalues := json_or (last_member "keyvalues" members) (Some (JObj members)) in
      (CRLF ++ "--" ++ boundary ++ CRLF ++ disposition "pinataMetadata" "" ++ "Content-Type: application/json" ++ CRLF ++ CRLF
       ++ json_text (json_members (Some (JStr name)) keyvalues))%string
  end.

Definition epilogue_text (boundary metadataPart : string) : string := (metadataPart ++ CRLF ++ "--" ++ boundary ++ "--" ++ CRLF)%string.

Record UploadStreamOptions : Type := mkStreamOptions { filename : string; contentType : option string; metadata : option (list (string * json)) }.

Record Multipart : Type := mkMultipart { m_preamble : chunk; m_epilogue : chunk; m_body : BodyStream; m_contentType : string; m_boundary : string }.

Definition createMultipartFileStream (fileStream : list chunk * option string) (options : UploadStreamOptions) (given_boundary : option string)
    (random : list Z) : Multipart :=
  let boundary := match given_boundary with Some b => b | None => ("----SpooVaultFormBoundary" ++ cryptoRandomBoundary random)%string end in
  let filename := sanitizeMultipartFilename (filename options) in
  let contentType := or_else (contentType options) "application/octet-stream" in
  let preamble := text_encode (preamble_text boundary filename contentType) in
  let epilogue := text_encode (epilogue_text boundary (metadata_part boundary filename (metadata options))) in
  mkMultipart preamble epilogue (body_start preamble fileStream.1 fileStream.2) ("multipart/form-data; boundary=" ++ boundary)%string boundary.

(** ** The uploads *)

Record UploadedFile : Type := mkFile { file_name : string; file_bytes : chunk }.
Record FormData : Type := mkForm { form_file : UploadedFile; form_metadata : option string }.
Record FetchError : Type := mkFetchError { abort_error : bool; fetch_message : string }.

(** What the services need of the world: posting a form with axios, [fetch] with a body that is
    a stream, the signing of a request whose body is not signed, and the abort signal. *)
Record UploadWorld (X : Type) : Type := mkWorld {
  axios_post : string -> Headers -> FormData -> X -> (json + HttpError) * X;
  fetch_stream : string -> Headers -> Multipart -> X -> ((nat * option json) + FetchError) * X;
  sign_unsigned : string -> string -> string -> X -> res Headers * X;
  signal_aborted : X -> bool;
  boundary_random : X -> list Z * X
}.
Arguments axios_post {X}.
Arguments fetch_stream {X}.
Arguments sign_unsigned {X}.
Arguments signal_aborted {X}.
Arguments boundary_random {X}.

Definition PIN_FILE_PATH : string := "/api/ipfs/pin-file".

Section Services.
Context {X : Type}.
Variables (world : UploadWorld X) (env : Env).

(** The metadata is sent where it has members; a missing name is the file's. *)
Definition upload_metadata (file : UploadedFile) (members : list (string * json)) : option string :=
  match members with
  | [] => None
  | _ => Some (json_text (json_members (json_or (last_member "name" members) (Some (JStr (file_name file))))
                            (json_or (last_member "keyvalues" members) (Some (JObj members)))))
  end.

Definition upload_message (e : HttpError) : string :=
  if String.eqb (or_empty (code e)) "ERR_CANCELED" then "IPFS upload canceled."
  else if String.eqb (or_empty (code e)) "ECONNABORTED" then "IPFS upload timed out. Try again with a smaller file or better network."
  else or_else (data_reason e) (or_else (data_error e) (or_else (Some (message e)) "IPFS upload failed")).

(** The body of its [try]. *)
Definition upload_attempt (form : FormData) (w : X) : (json + HttpError) * X :=
  if proxied env
  then match getProxySecret env with
       | Throw e => (inr (mkError None None None None e), w)
       | Ok secret =>
           match sign_unsigned world secret "POST" PIN_FILE_PATH w with
           | (Throw e, w') => (inr (mkError None None None None e), w')
           | (Ok h, w') => axios_post world (IPFS_PROXY_URL env ++ PIN_FILE_PATH)%string h form w'
           end
       end
  else axios_post world (PINATA_API_URL env ++ "/pinning/pinFileToIPFS")%string (buildAuthHeaders env) form w.

Definition uploadFile (file : UploadedFile) (members : list (string * json)) (w : X) : res (option json * option json) * X :=
  if negb (isConfigured env) then (Throw "IPFS is not configured", w)
  else match upload_attempt (mkForm file (upload_metadata file members)) w with
       | (inl data, w') => (Ok (get_prop "IpfsHash" data, get_prop "PinSize" data), w')
       | (inr e, w') => (Throw (upload_message e), w')
       end.

Definition stream_endpoint : string :=
  if proxied env then (IPFS_PROXY_URL env ++ PIN_FILE_PATH)%string else (PINATA_API_URL env ++ "/pinning/pinFileToIPFS")%string.
Definition stream_headers (contentType : string) : Headers :=
  (if proxied env then [] else buildAuthHeaders env) ++ [("Content-Type", contentType)].

(** The message of an answer that is not a success. *)
Definition refusal_message (status : nat) (data : json) : string :=
  match json_or (match get_prop "error" data with Some e => get_prop "reason" e | None => None end)
          (json_or (get_prop "error" data)
            (json_or (get_prop "message" data) (Some (JStr ("IPFS upload failed (" ++ num_str (Z.of_nat status) ++ ")")%string)))) with
  | Some (JStr s) => s
  | _ => "IPFS upload failed"
  end.

(** [Number(data.PinSize) || 0] *)
Definition pin_size (data : json) : number :=
  let n := match get_prop "PinSize" data with
           | None => NaN
           | Some JNull => Fin 0 0
           | Some (JBool b) => Fin (if b then 1 else 0) 0
           | Some (JNum n) => Fin n 0
           | Some v => Number_str (String_of v)
           end in
  if falsy n then Fin 0 0 else n.

(** The [try] of [uploadStream] after the answer. *)
Definition stream_answer (status : nat) (answer : option json) : res (json * number) :=
  let data := match answer with Some v => v | None => JObj [] end in
  if negb ((200 <=? status) && (status <=? 299)) then Throw (refusal_message status data)
  else match json_or (get_prop "IpfsHash" data) None with
       | None => Throw "IPFS upload succeeded but no IpfsHash was returned"
       | Some hash => Ok (hash, pin_size data)
       end.

(** Its [catch]. *)
Definition stream_failure (aborted : bool) (e : FetchError) : string :=
  if aborted || abort_error e then "IPFS upload canceled." else or_else (Some (fetch_message e)) "IPFS upload failed".

Definition uploadStream (fileStream : list chunk * option string) (options : UploadStreamOptions) (w : X) : res (json * number) * X :=
  if negb (isConfigured env) then (Throw "IPFS is not configured", w)
  else
    let '(random, w) := boundary_random world w in
    let m := createMultipartFileStream fileStream options None random in
    let '(r, w') := fetch_stream world stream_endpoint (stream_headers (m_contentType m)) m w in
    (match match r with inl (status, answer) => match stream_answer status answer with Ok a => inl a | Throw e => inr (mkFetchError false e) end | inr e => inr e end with
     | inl a => Ok a
     | inr e => Throw (stream_failure (signal_aborted world w') e)
     end, w').
End Services.
End Upload.
Arguments axios_post {X}.
Arguments fetch_stream {X}.
Arguments sign_unsigned {X}.
Arguments signal_aborted {X}.
Arguments boundary_random {X}.

(** ** An encrypted file *)

(** A transform's chunks and how it ends, as a stream that is read. *)
Definition run_stream {A : Type} (r : run A) : list chunk * option string :=
  (fst r, match snd r with Ok _ => None | Throw e => Some e end).

Lemma encrypted_nonempty {W : WebCrypto} (key : list Z) (ivs : nat -> list Z) (cs : nat) (file : list chunk) : 1 <= cs ->
  Forall (fun c => has_bytes c = true) (fst (encryptStream key ivs cs file)) /\ exists st, snd (encryptStream key ivs cs file) = Ok st.
Proof.
  intros Hcs. destruct (encrypt_pieces key ivs cs file Hcs) as [st E]. rewrite E. cbn [fst snd]. split; [|now exists st].
  constructor; [exact eq_refl|]. unfold frames. apply Forall_map, Forall_forall. intros i _. cbn beta. unfold stream_frame, frame, uint32_be, has_bytes.
  rewrite length_app, be_bytes_length. exact eq_refl.
Qed.

(** C12: The ciphertext that streamingCrypto.service.ts uploads arrives whole: whatever the order of
    the promises, the reads of the body end, after a bounded number of steps, with the
    preamble, every byte that the encryption emits and the epilogue. *)
Theorem encrypted_upload_completes {W : WebCrypto} (ivs : nat -> list Z) (cs : nat) (file : list chunk) (keyHex : string) (key : list Z)
    (options : UploadStreamOptions) (random : list Z) (l : list Event) (s : BodyStream) :
  let m := createMultipartFileStream (run_stream (encryptFileStream ivs file keyHex cs)) options None random in
  1 <= cs -> importStreamingKey keyHex = Ok key ->
  steps (m_epilogue m) l (m_body m) = Some s -> (Cancel ∉ l) -> (forall e, e <> Cancel -> step (m_epilogue m) e s = None) ->
  length l <= 4 * length (fst (encryptStream key ivs cs file)) + 14
  /\ outcome s = Ended /\ concat (delivered s) = m_preamble m ++ concat (fst (encryptStream key ivs cs file)) ++ m_epilogue m.
Proof.
  intros m Hcs Hkey Hl Hnc Hstuck. 
  assert (E : encryptFileStream ivs file keyHex cs = encryptStream key ivs cs file) by (unfold encryptFileStream; now rewrite Hkey, run_lift).
  destruct (encrypted_nonempty key ivs cs file Hcs) as [Hne [st Hst]]. unfold m, createMultipartFileStream, run_stream in *. rewrite E, Hst in *. cbn [m_body m_epilogue m_preamble fst snd] in *.
  destruct (completes _ _ _ l s Hne Hl) as [Hlen [(e & s' & He & Hs)|[Hc|[Ho Hd]]]].
  - rewrite Hstuck in Hs by exact He. discriminate Hs.
  - exfalso. exact (not_cancelled _ l _ s Hl Hnc eq_refl Hc).
  - split_and!; [exact Hlen|exact Ho|]. rewrite Hd. cbn [concat]. rewrite concat_app. cbn. now rewrite app_nil_r.
Qed.

(** ** The guarded proxy *)

Section Guarded.
Context {W : WebCrypto} {X : Type}.
Variables (SHA256 : list Z -> list Z) (HMAC : list Z -> list Z -> list Z) (other_number : number -> string).
Variables (inner : UploadWorld X) (env : Env) (ALLOWED_ORIGINS : list string) (origin : option string).
(** The path a URL is requested with, and the clocks of the page and of the proxy. *)
Variables (path_of : string -> string) (page_now proxy_now : Z).
Hypothesis hmac_bytes : forall k m, bytes (HMAC k m) /\ HMAC k m <> [].
Hypothesis origin_allowed : isOriginAllowed origin ALLOWED_ORIGINS = true.
Hypothesis here : path_of (IPFS_PROXY_URL env ++ PIN_FILE_PATH)%string = PIN_FILE_PATH.

(** The proxy's check of a request whose body is multipart. *)
Definition proxy_admits (url : string) (headers : Headers) (contentType : option string) : bool :=
  authorizeIncomingRequest SHA256 HMAC other_number (mkIncoming "POST" (path_of url) origin (kv_get SIGNATURE_HEADER headers) contentType None)
    (PROXY_SECRET env) ALLOWED_ORIGINS proxy_now DEFAULT_MAX_SKEW_SEC.

Definition forbidden_answer : json := JObj [("error", JStr "Forbidden")].
Definition form_type : string := "multipart/form-data; boundary=form".

(** The world behind the proxy: what is admitted reaches [inner], the rest is answered 403. *)
Definition guarded : UploadWorld X := mkWorld X
  (fun url h form w => if proxy_admits url h (Some form_type) then axios_post inner url h form w
                       else (inr (mkError (Some 403) None None (Some "Forbidden") "Request failed with status code 403"), w))
  (fun url h m w => if proxy_admits url h (kv_get "Content-Type" h) then fetch_stream inner url h m w else (inl (403, Some forbidden_answer), w))
  (fun secret method path w => match signRequest SHA256 HMAC secret method path "" true None page_now with Ok (_, h) => (Ok h, w) | Throw e => (Throw e, w) end)
  (signal_aborted inner) (boundary_random inner).

(** A streamed upload through the proxy never arrives: its request has no signature, and the
    proxy refuses it, whatever the file and whatever is behind the proxy. *)
Theorem streamed_upload_refused (fileStream : list chunk * option string) (options : UploadStreamOptions) (w : X) :
  proxied env = true -> blank (PROXY_SECRET env) = false -> signal_aborted inner (boundary_random inner w).2 = false ->
  uploadStream guarded env fileStream options w = (Throw "Forbidden", (boundary_random inner w).2).
Proof.
  intros Hp Hs Ha. unfold uploadStream, isConfigured, stream_endpoint, stream_headers. rewrite Hp, Hs. cbn [negb boundary_random guarded].
  destruct (boundary_random inner w) as [random w1]. cbn [fetch_stream guarded app snd] in *.
  replace (proxy_admits _ _ _) with false; [cbn; now rewrite Ha|].
  unfold proxy_admits, authorizeIncomingRequest, authorizeProxyRequest. cbn [i_method i_originalUrl i_origin i_signature i_contentType i_rawBody].
  rewrite Hs, origin_allowed. reflexivity.
Qed.

(** A whole upload does: it is signed, and the proxy admits it within five minutes. *)
Theorem whole_upload_admitted (file : UploadedFile) (members : list (string * json)) (w : X) :
  proxied env = true -> blank (PROXY_SECRET env) = false -> (0 <= page_now < 2 ^ 53)%Z -> (Z.abs (proxy_now - page_now) <= DEFAULT_MAX_SKEW_SEC)%Z ->
  exists h, uploadFile guarded env file members w
    = match axios_post inner (IPFS_PROXY_URL env ++ PIN_FILE_PATH)%string h (mkForm file (upload_metadata file members)) w with
      | (inl data, w') => (Ok (get_prop "IpfsHash" data, get_prop "PinSize" data), w')
      | (inr e, w') => (Throw (upload_message e), w')
      end.
Proof.
  intros Hp Hs Hnow Hskew. unfold uploadFile, upload_attempt, isConfigured, getProxySecret. rewrite Hp, Hs. cbn [negb sign_unsigned axios_post guarded].
  destruct (signRequest SHA256 HMAC (PROXY_SECRET env) "POST" PIN_FILE_PATH "" true None page_now) as [[ts h]|e] eqn:E;
    [|unfold signRequest in E; rewrite Hs in E; discriminate E].
  assert (ts = page_now) as -> by (unfold signRequest in E; rewrite Hs in E; now injection E as <- _).
  exists h. replace (proxy_admits _ _ _) with true; [reflexivity|]. symmetry. unfold proxy_admits. rewrite here.
  apply (signed_admitted SHA256 HMAC other_number hmac_bytes) with (ts := page_now) (body := "") (signed_at := page_now);
    first [assumption|reflexivity|now left].
Qed.
End Guarded.

(** ** Instances for the examples *)

Import Mirror.


(** The events of a run in which a promise settles before the consumer reads again. *)
Fixpoint prompt (n : nat) (epilogue : chunk) (s : BodyStream) : list Event :=
  match n with
  | O => []
  | S n' =>
      match step epilogue Settle s, step epilogue Continue s, step epilogue Consume s with
      | Some s', _, _ => Settle :: prompt n' epilogue s'
      | None, Some s', _ => Continue :: prompt n' epilogue s'
      | None, None, Some s' => Consume :: prompt n' epilogue s'
      | None, None, None => []
      end
  end.

Definition ended (preamble epilogue : chunk) (file : list chunk) : BodyStream :=
  match steps epilogue (prompt 30 epilogue (body_start preamble file None)) (body_start preamble file None) with Some s => s | None => body_start preamble file None end.

Definition two_chunks : list chunk := [[1; 2]; [3]]%Z.

Lemma body_in_order_witness : exists rest, delivered (ended [9] [8] ([] :: two_chunks))%Z ++ rest = [[9]; [1; 2]; [3]; [8]]%Z.
Proof.
  destruct (body_in_order [9]%Z [8]%Z ([] :: two_chunks) None (prompt 30 [8]%Z (body_start [9]%Z ([] :: two_chunks) None))
              (ended [9] [8] ([] :: two_chunks))%Z) as [H _]; [vm_compute; reflexivity|exact H].
Defined.

Lemma body_completes_witness : (exists e s', e <> Cancel /\ step [8]%Z e (ended [9] [8] two_chunks)%Z = Some s')
  \/ outcome (ended [9] [8] two_chunks)%Z = Cancelled
  \/ (outcome (ended [9] [8] two_chunks)%Z = Ended /\ delivered (ended [9] [8] two_chunks)%Z = [[9]; [1; 2]; [3]; [8]]%Z).
Proof.
  destruct (body_completes [9]%Z [8]%Z two_chunks (prompt 30 [8]%Z (body_start [9]%Z two_chunks None)) (ended [9] [8] two_chunks)%Z) as [_ H];
    [repeat constructor|vm_compute; reflexivity|exact H].
Defined.

Lemma empty_chunk_stalls_witness : exists l s, (Cancel ∉ l) /\ steps [8]%Z l (body_start [9]%Z [[1]; [2]; []; [3]]%Z None) = Some s
  /\ delivered s = [[9]; [1]; [2]]%Z /\ outcome s = Open /\ waiting s = true /\ (forall e, e <> Cancel -> step [8]%Z e s = None).
Proof. apply (empty_chunk_stalls [9]%Z [8]%Z [1]%Z [[2]]%Z [[3]]%Z). repeat constructor. Defined.

Definition zero_key : string := repeat_char 64 "0".
Definition demo_stream : list chunk * option string :=
  run_stream (encryptFileStream zero_ivs two_chunks zero_key 3).
Definition demo_upload : UploadStreamOptions := mkStreamOptions "a.svsc" None (Some [("name", JStr "a")]).
Definition demo_multipart : Multipart := createMultipartFileStream demo_stream demo_upload None [1; 2]%Z.

Lemma encrypted_upload_completes_witness : outcome (ended (m_preamble demo_multipart) (m_epilogue demo_multipart) demo_stream.1) = Ended.
Proof.
  refine (proj1 (proj2 (encrypted_upload_completes zero_ivs 3 two_chunks zero_key (hex_bytes zero_key) demo_upload [1; 2]%Z
    (prompt 30 (m_epilogue demo_multipart) (m_body demo_multipart)) _ _ _ _ _ _))).
  - repeat constructor.
  - vm_compute. reflexivity.
  - vm_compute. reflexivity.
  - apply (bool_decide_unpack _). vm_compute. exact I.
  - intros [] H; try contradiction; vm_compute; reflexivity.
Defined.

Definition demo_env : Env := mkEnv None None None None None (Some "https://proxy.example") (Some "s").
Definition demo_inner : UploadWorld nat := mkWorld nat
  (fun _ _ _ w => (inl (JObj [("IpfsHash", JStr "QmWhole"); ("PinSize", JNum 3)]), S w))
  (fun _ _ _ w => (inl (200, Some (JObj [("IpfsHash", JStr "QmStream")])), S w))
  (fun _ _ _ w => (Throw "no key", w)) (fun _ => false) (fun w => ([1; 2]%Z, w)).
Definition demo_guarded : UploadWorld nat :=
  guarded toy_sha toy_hmac (fun _ => "") demo_inner demo_env DEFAULT_ALLOWED_ORIGINS None (slice_from 21) 1700000000 1700000010.

Lemma streamed_upload_refused_witness : uploadStream demo_guarded demo_env demo_stream demo_upload 0 = (Throw "Forbidden", 0).
Proof.
  apply (streamed_upload_refused toy_sha toy_hmac (fun _ => "") demo_inner demo_env DEFAULT_ALLOWED_ORIGINS None (slice_from 21) 1700000000 1700000010 eq_refl);
    vm_compute; reflexivity.
Defined.

Lemma whole_upload_admitted_witness : exists h, uploadFile demo_guarded demo_env (mkFile "a" [1]%Z) [] 0
  = match axios_post demo_inner "https://proxy.example/api/ipfs/pin-file" h (mkForm (mkFile "a" [1]%Z) None) 0 with
    | (inl data, w') => (Ok (get_prop "IpfsHash" data, get_prop "PinSize" data), w')
    | (inr e, w') => (Throw (upload_message e), w')
    end.
Proof.
  apply (whole_upload_admitted toy_sha toy_hmac (fun _ => "") demo_inner demo_env DEFAULT_ALLOWED_ORIGINS None (slice_from 21) 1700000000 1700000010 toy_hmac_bytes eq_refl);
    first [lia|vm_compute; first [reflexivity|intuition discriminate]].
Defined.
