(* ===== verification/StorageProvider.v ===== *)
(** * StorageProvider: storageProvider.service.ts

    Copies of encrypted documents on Filecoin and Arweave beside the IPFS pin: the uploads,
    the proofs of storage, the registry of references in the local storage, and the retrieval
    that falls back to the copies.  [fetch], the private retrieval and the random vectors are
    arguments.  Sizes and slices of texts count bytes. *)

From Stdlib Require Import Ascii String ZArith Lia Bool.
From stdpp Require Import base list gmap strings.
From S2P Require Import Prelude Bytes JsString Hex Base64 WebCrypto StreamCrypto Sha256 Sha256Proofs StreamProofs JsonText JsNumber KeyInbox JsonParse ProxyGuard PushNotification.

Open Scope string_scope.
Open Scope list_scope.
Open Scope Z_scope.

Inductive StorageProviderId : Type := Ipfs | Filecoin | Arweave.

#[export] Instance StorageProviderId_eq_dec : EqDecision StorageProviderId.
Proof. solve_decision. Defined.

Definition provider_name (p : StorageProviderId) : string :=
  match p with Ipfs => "ipfs" | Filecoin => "filecoin" | Arweave => "arweave" end.

Definition PRIMARY_STORAGE_PROVIDER : StorageProviderId := Ipfs.
Definition DEFAULT_BACKUP_PROVIDERS : list StorageProviderId := [Filecoin; Arweave].
Definition LIGHTHOUSE_UPLOAD_URL : string := "https://upload.lighthouse.storage/api/v0/upload".
Definition LIGHTHOUSE_DEAL_STATUS_URL : string := "https://api.lighthouse.storage/api/lighthouse/get_deal_status".
Definition DEFAULT_LIGHTHOUSE_GATEWAY : string := "https://gateway.lighthouse.storage/ipfs/".
Definition DEFAULT_ARWEAVE_NODE : string := "https://node2.irys.xyz".
Definition DEFAULT_ARWEAVE_GATEWAY : string := "https://arweave.net/".
Definition BACKUP_REFS_STORAGE_KEY : string := "spoovault-storage-backup-refs-v1".

Record StorageRefRecord : Type := mkRefs { arweave : option string; filecoin : option string }.
Record StorageUploadResult : Type := mkResult { u_provider : StorageProviderId; reference : string; u_size : number; permanent : bool }.
Record StorageProofStatus : Type := mkProof { p_provider : StorageProviderId; p_reference : string; archived : bool; detail : option string; raw : option json }.
Record StorageUploadFailure : Type := mkFailure { f_provider : StorageProviderId; f_error : string }.
Record BackupDocumentReport : Type := mkReport { r_ipfsHash : string; backups : list StorageUploadResult; failures : list StorageUploadFailure }.

(** A plaintext is read in chunks; a ciphertext is bytes. *)
Record BackupDocumentOptions : Type := mkBackup {
  o_ipfsHash : string; o_filename : option string; plaintext : option (list chunk); keyHex : option string;
  ciphertext : option chunk; providers : option (list StorageProviderId)
}.

(** A request of [fetch]: the body's bytes, with the name of the file where they are a form. *)
Record FetchRequest : Type := mkFetch { q_url : string; q_method : string; q_headers : Headers; q_body : option (option string * chunk) }.
Record HttpResponse : Type := mkHttp { h_status : nat; h_bytes : chunk }.
Definition response_ok (r : HttpResponse) : bool := ((200 <=? h_status r) && (h_status r <=? 299))%nat.

Definition StorageProviderFetchError (reference : string) (attempts : list string) : string :=
  ("Failed to fetch stored content (" ++ reference ++ ") from all providers. " ++ join "; " attempts)%string.

(** ** Settings *)

Definition envString (value : option string) : option string :=
  match value with Some v => if blank (trim v) then None else Some (trim v) | None => None end.

Fixpoint last_is (c : ascii) (s : string) : bool :=
  match s with EmptyString => false | String d EmptyString => Ascii.eqb d c | String _ t => last_is c t end.
Definition normalizeTrailingSlash (url : string) : string := if last_is "/" url then url else (url ++ "/")%string.

(** [a ?? b] of values, and of settings that may be undefined *)
Definition nullish (v d : option json) : option json := match v with None | Some JNull => d | _ => v end.
Definition or_default {A : Type} (v : option A) (d : A) : A := match v with Some x => x | None => d end.

(** ** Answers of the providers *)

Section Answers.
Context {W : WebCrypto}.
Variable other_number : number -> string.

Definition parseResponseBody (response : HttpResponse) : json :=
  let text := text_decode (h_bytes response) in
  if blank text then JObj [] else match json_parse text with Ok v => v | Throw _ => JStr text end.

Definition extractDealList (raw : json) : list json :=
  match raw with
  | JArr l => l
  | _ => match nullish (get_prop "dealInfo" raw) (nullish (get_prop "deals" raw) (nullish (get_prop "data" raw) (get_prop "dealData" raw))) with
         | Some (JArr l) => l
         | _ => []
         end
  end.

Definition active_states : list string := ["active"; "dealactive"; "storageactive"; "sealing"; "proving"].

Definition isActiveFilecoinDeal (deal : json) : bool :=
  let rawStatus := nullish (get_prop "status" deal) (nullish (get_prop "dealStatus" deal) (nullish (get_prop "state" deal)
                     (nullish (get_prop "Status" deal) (get_prop "DealStatus" deal)))) in
  existsb (String.eqb (match rawStatus with Some (JStr s) => toLowerCase (trim s) | _ => "" end)) active_states.

Definition positive (x : number) : bool := match x with Fin m _ => isFinite x && negb (falsy x) && (0 <? m) | _ => false end.
Definition block_height (record : json) : bool := positive (Number_json (nullish (get_prop "block_height" record) (get_prop "blockHeight" record))).

Definition hasConfirmedArweaveBlock (raw : json) : bool :=
  match raw with
  | JObj _ | JArr _ =>
      match get_prop "confirmed" raw with
      | Some (JObj l) => block_height (JObj l)
      | Some (JArr l) => block_height (JArr l)
      | _ => block_height raw
      end
  | _ => false
  end.

(** [status === 200] *)
Definition is_200 (x : number) : bool :=
  match x with Fin m e => if 0 <=? e then m * 10 ^ e =? 200 else m =? 200 * 10 ^ (- e) | _ => false end.

Definition excerpt (payload : json) : string := take 200 (match payload with JStr s => s | v => json_text v end).
Definition upload_failed (name : string) (response : HttpResponse) (payload : json) : string :=
  (name ++ " upload failed (" ++ num_str (Z.of_nat (h_status response)) ++ "): " ++ excerpt payload)%string.

(** [Number(payload.Size) || size] *)
Definition size_or (payload : json) (size : Z) : number :=
  let n := Number_json (get_prop "Size" payload) in if falsy n then Fin size 0 else n.

(** What a provider's answer to an upload says. *)
Definition filecoin_uploaded (response : HttpResponse) (size : Z) : res (string * number) :=
  let payload := parseResponseBody response in
  let hash := match nullish (get_prop "Hash" payload) (get_prop "hash" payload) with Some (JStr h) => h | _ => "" end in
  if negb (response_ok response) || blank hash then Throw (upload_failed "Filecoin" response payload)
  else Ok (hash, size_or payload size).

Definition arweave_uploaded (response : HttpResponse) (size : Z) : res (string * number) :=
  let payload := parseResponseBody response in
  let id := trim (match payload with
                  | JStr s => s
                  | _ => match nullish (get_prop "id" payload) (nullish (get_prop "transactionId" payload) (Some (JStr ""))) with
                         | Some v => String_of v
                         | None => ""
                         end
                  end) in
  if negb (response_ok response) || blank id then Throw (upload_failed "Arweave" response payload) else Ok (id, Fin size 0).

(** What the answers about deals and transactions say. *)
Definition filecoin_archived (raw : json) : bool * option string :=
  let deals := extractDealList raw in
  let activeDeals := List.filter isActiveFilecoinDeal deals in
  match activeDeals, deals with
  | _ :: _, _ => (true, None)
  | [], _ :: _ => (false, Some "Filecoin deals found, but none are active yet")
  | [], [] => (false, Some "no Filecoin storage deals found for CID")
  end.

Definition status_text (x : number) : string := match x with NaN => "NaN" | Infinite => "Infinity" | _ => number_text other_number x end.
Definition arweave_archived (raw : json) : bool * option string :=
  let status := Number_json (get_prop "status" raw) in
  if is_200 status && hasConfirmedArweaveBlock raw then (true, None)
  else (false, Some (if is_200 status then "Arweave tx accepted but not anchored in a block yet"
                     else ("Arweave tx not confirmed yet (status " ++ status_text status ++ ")")%string)).
End Answers.

(** ** The service *)

(** The local storage's item and the world behind [fetch]. *)
Record StorageWorld (N : Type) : Type := mkStorage { refs_item : option string; net : N }.
Arguments mkStorage {N}.
Arguments refs_item {N}.
Arguments net {N}.

Record StorageProviderServiceOptions : Type := mkOptions {
  lighthouseApiKey : option string; lighthouseGatewayUrl : option string; arweaveNodeUrl : option string;
  arweaveGatewayUrl : option string; backupProviders : option (list StorageProviderId)
}.

Record StorageEnv : Type := mkStorageEnv {
  VITE_LIGHTHOUSE_API_KEY : option string; VITE_LIGHTHOUSE_GATEWAY_URL : option string; VITE_ARWEAVE_NODE_URL : option string;
  VITE_ARWEAVE_GATEWAY_URL : option string; VITE_BACKUP_STORAGE_PROVIDERS : option string
}.

(** The registry: the members of the stored object by CID. *)

(** [{ ...v }] *)
Definition indexed {A : Type} (f : A -> json) (l : list A) : list (string * json) :=
  map (fun '(i, x) => (num_str (Z.of_nat i), f x)) (combine (seq 0 (length l)) l).
Definition spread (v : json) : list (string * json) :=
  match v with
  | JObj l => l
  | JArr l => indexed (fun x => x) l
  | JStr s => indexed (fun c => JStr (String c "")) (list_ascii_of_string s)
  | _ => []
  end.

(** [o[k] = v]: in its place, or at the end. *)
Fixpoint set_member (k : string) (v : json) (l : list (string * json)) : list (string * json) :=
  match l with
  | [] => [(k, v)]
  | (k', v') :: l' => if String.eqb k' k then (k, v) :: List.filter (fun m => negb (String.eqb m.1 k)) l' else (k', v') :: set_member k v l'
  end.

Definition given_ref (r : option string) : option string := match r with Some s => if blank s then None else Some s | None => None end.
Definition set_ref (k : string) (r : option string) (l : list (string * json)) : list (string * json) :=
  match given_ref r with Some s => set_member k (JStr s) l | None => l end.

Definition merge_refs (old : option json) (refs : StorageRefRecord) : list (string * json) :=
  set_ref "filecoin" (filecoin refs) (set_ref "arweave" (arweave refs) (spread (match nullish old None with Some v => v | None => JObj [] end))).

Section Service.
Context {W : WebCrypto} {N : Type}.
Variable other_number : number -> string.
Variables (options : StorageProviderServiceOptions) (env : StorageEnv) (ipfs_isConfigured : bool).
Variables (fetchFn : FetchRequest -> N -> (HttpResponse + string) * N).
(** [ipfsService.fetchFile] and [pirService.fetchDocument] *)
Variables (ipfs_fetchFile : string -> N -> (HttpResponse + string) * N).
Variable pir_fetchDocument : string -> N -> (option chunk * option string) * N.
(** [setItem] of the local storage throws when it is full. *)
Variable quota : string -> option string.

Definition getLighthouseApiKey : string := or_default (lighthouseApiKey options) (or_default (envString (VITE_LIGHTHOUSE_API_KEY env)) "").
Definition getLighthouseGateway : string :=
  normalizeTrailingSlash (or_default (lighthouseGatewayUrl options) (or_default (envString (VITE_LIGHTHOUSE_GATEWAY_URL env)) DEFAULT_LIGHTHOUSE_GATEWAY)).
Definition getArweaveNodeUrl : string :=
  normalizeTrailingSlash (or_default (arweaveNodeUrl options) (or_default (envString (VITE_ARWEAVE_NODE_URL env)) DEFAULT_ARWEAVE_NODE)).
Definition getArweaveGateway : string :=
  normalizeTrailingSlash (or_default (arweaveGatewayUrl options) (or_default (envString (VITE_ARWEAVE_GATEWAY_URL env)) DEFAULT_ARWEAVE_GATEWAY)).

Definition storage_isConfigured (provider : StorageProviderId) : bool :=
  match provider with Ipfs => ipfs_isConfigured | Filecoin => negb (blank getLighthouseApiKey) | Arweave => true end.

Fixpoint named_providers (items : list string) : list StorageProviderId :=
  match items with
  | [] => []
  | s :: l =>
      let item := toLowerCase (trim s) in
      if String.eqb item "filecoin" then Filecoin :: named_providers l
      else if String.eqb item "arweave" then Arweave :: named_providers l else named_providers l
  end.

Definition getConfiguredBackupProviders : list StorageProviderId :=
  let requested := match backupProviders options with
                   | Some l => Some l
                   | None => option_map (fun raw => named_providers (split "," raw)) (envString (VITE_BACKUP_STORAGE_PROVIDERS env))
                   end in
  List.filter storage_isConfigured (or_default requested DEFAULT_BACKUP_PROVIDERS).

Definition listProviders : list StorageProviderId := PRIMARY_STORAGE_PROVIDER :: DEFAULT_BACKUP_PROVIDERS.

(** *** Uploads *)

Definition upload_to (provider : StorageProviderId) (data : chunk) (filename : string) : FetchRequest :=
  match provider with
  | Filecoin => mkFetch LIGHTHOUSE_UPLOAD_URL "POST" [("Authorization", ("Bearer " ++ getLighthouseApiKey)%string)] (Some (Some filename, data))
  | _ => mkFetch (getArweaveNodeUrl ++ "tx")%string "POST" [("Content-Type", "application/octet-stream")] (Some (None, data))
  end.

Definition uploadToProvider (provider : StorageProviderId) (data : chunk) (filename : string) (n : N) : res StorageUploadResult * N :=
  if negb (storage_isConfigured provider) then (Throw ("Storage provider " ++ provider_name provider ++ " is not configured")%string, n)
  else match provider with
  | Ipfs => (Throw "Provider ipfs is the primary IPFS pin; use ipfsService", n)
  | _ =>
      match fetchFn (upload_to provider data filename) n with
      | (inr e, n') => (Throw e, n')
      | (inl response, n') =>
          let size := Z.of_nat (length data) in
          (match (match provider with Filecoin => filecoin_uploaded response size | _ => arweave_uploaded response size end) with
           | Throw e => Throw e
           | Ok (r, size) => Ok (mkResult provider r size true)
           end, n')
      end
  end.

(** *** Proofs of storage *)

Definition deal_status_request (reference : string) : FetchRequest :=
  mkFetch (LIGHTHOUSE_DEAL_STATUS_URL ++ "?cid=" ++ encodeURIComponent reference)%string "GET" [] None.
Definition tx_status_request (reference : string) : FetchRequest :=
  mkFetch (getArweaveGateway ++ "tx/" ++ encodeURIComponent reference ++ "/status")%string "GET" [] None.

Definition proof_of (provider : StorageProviderId) (reference : string) (what : string) (judge : json -> bool * option string)
    (answer : (HttpResponse + string)) : StorageProofStatus :=
  match answer with
  | inr e => mkProof provider reference false (Some e) None
  | inl response =>
      if negb (response_ok response)
      then mkProof provider reference false (Some (what ++ " HTTP " ++ num_str (Z.of_nat (h_status response)))%string) None
      else let raw := parseResponseBody response in let '(ok, why) := judge raw in mkProof provider reference ok why (Some raw)
  end.

Definition checkProofOfStorage (provider : StorageProviderId) (reference : string) (n : N) : StorageProofStatus * N :=
  if blank reference then (mkProof provider reference false (Some "missing reference") None, n)
  else match provider with
  | Filecoin => let '(a, n') := fetchFn (deal_status_request reference) n in (proof_of Filecoin reference "deal status" filecoin_archived a, n')
  | Arweave => let '(a, n') := fetchFn (tx_status_request reference) n in (proof_of Arweave reference "tx status" (arweave_archived other_number) a, n')
  | Ipfs =>
      let '(a, n') := ipfs_fetchFile reference n in
      (match a with
       | inr e => mkProof Ipfs reference false (Some e) None
       | inl response => mkProof Ipfs reference (response_ok response)
                           (if response_ok response then None else Some ("gateway HTTP " ++ num_str (Z.of_nat (h_status response)))%string) None
       end, n')
  end.

(** *** The registry of references *)

(** The stored value; anything that is not an object or an array is an empty object. *)
Definition readAllRefs (s : StorageWorld N) : json :=
  match refs_item s with
  | None => JObj []
  | Some raw =>
      if blank raw then JObj []
      else match json_parse raw with Ok (JObj l) => JObj l | Ok (JArr l) => JArr l | _ => JObj [] end
  end.

Definition writeAllRefs (refs : json) (s : StorageWorld N) : res unit * StorageWorld N :=
  let text := stringify_with 0 refs in
  match quota text with Some e => (Throw e, s) | None => (Ok tt, mkStorage (Some text) (net s)) end.

Definition getBackupRefs (ipfsHash : string) (s : StorageWorld N) : option json := nullish (get_prop ipfsHash (readAllRefs s)) None.

(** A property that is set on an array is not written. *)
Definition recordBackupRefs (ipfsHash : string) (refs : StorageRefRecord) (s : StorageWorld N) : res json * StorageWorld N :=
  let all := readAllRefs s in
  let merged := JObj (merge_refs (get_prop ipfsHash all) refs) in
  match writeAllRefs (match all with JObj l => JObj (set_member ipfsHash merged l) | v => v end) s with
  | (Ok _, s') => (Ok merged, s')
  | (Throw e, s') => (Throw e, s')
  end.

(** *** Replication *)

Variable ivs : nat -> list Z.

(** The copy is encrypted anew from the plaintext where no ciphertext is given. *)
Definition resolveCiphertext (opts : BackupDocumentOptions) : res chunk :=
  match ciphertext opts, plaintext opts, keyHex opts with
  | Some bytes, _, _ => Ok bytes
  | None, Some file, Some key =>
      if blank key then Throw "backupDocument requires ciphertext or plaintext+keyHex"
      else let r := encryptFileStream ivs file key STREAMING_CHUNK_SIZE in
           match snd r with Ok _ => Ok (collectStream (fst r)) | Throw e => Throw e end
  | _, _, _ => Throw "backupDocument requires ciphertext or plaintext+keyHex"
  end.

(** The reference that is recorded for a provider; the record has no member for the pin. *)
Definition refs_of (provider : StorageProviderId) (r : string) : StorageRefRecord :=
  match provider with | Arweave => mkRefs (Some r) None | Filecoin => mkRefs None (Some r) | Ipfs => mkRefs None None end.

(** One provider: a result is listed before its reference is recorded. *)
Definition backup_one (ipfsHash filename : string) (bytes : chunk) (provider : StorageProviderId)
    (report : BackupDocumentReport) (s : StorageWorld N) : BackupDocumentReport * StorageWorld N :=
  match uploadToProvider provider bytes filename (net s) with
  | (Throw e, n) => (mkReport ipfsHash (backups report) (failures report ++ [mkFailure provider e]), mkStorage (refs_item s) n)
  | (Ok result, n) =>
      let listed := backups report ++ [result] in
      match recordBackupRefs ipfsHash (refs_of provider (reference result)) (mkStorage (refs_item s) n) with
      | (Ok _, s') => (mkReport ipfsHash listed (failures report), s')
      | (Throw e, s') => (mkReport ipfsHash listed (failures report ++ [mkFailure provider e]), s')
      end
  end.

Fixpoint backup_each (ipfsHash filename : string) (bytes : chunk) (l : list StorageProviderId)
    (report : BackupDocumentReport) (s : StorageWorld N) : BackupDocumentReport * StorageWorld N :=
  match l with
  | [] => (report, s)
  | p :: l' => let '(report', s') := backup_one ipfsHash filename bytes p report s in backup_each ipfsHash filename bytes l' report' s'
  end.

Definition backupDocument (opts : BackupDocumentOptions) (s : StorageWorld N) : res BackupDocumentReport * StorageWorld N :=
  if blank (o_ipfsHash opts) then (Throw "backupDocument requires the primary ipfsHash", s)
  else
    let wanted := or_default (providers opts) getConfiguredBackupProviders in
    let report := mkReport (o_ipfsHash opts) [] [] in
    match wanted with
    | [] => (Ok report, s)
    | _ =>
        match resolveCiphertext opts with
        | Throw e => (Throw e, s)
        | Ok bytes =>
            let '(report, s') := backup_each (o_ipfsHash opts) (or_else (o_filename opts) "document.svsc") bytes wanted report s in (Ok report, s')
        end
    end.

(** *** Retrieval *)

Definition fetchFileWithPIR (hash : string) (n : N) : (HttpResponse + string) * N :=
  match pir_fetchDocument hash n with
  | ((Some data, _), n') => (inl (mkHttp 200 data), n')
  | ((None, error), n') => (inr (or_else error "PIR fetch failed"), n')
  end.

Definition provider_url (provider : StorageProviderId) (reference : string) : string :=
  ((match provider with Arweave => getArweaveGateway | _ => getLighthouseGateway end) ++ encodeURIComponent reference)%string.
Definition provider_request (provider : StorageProviderId) (reference : string) : FetchRequest := mkFetch (provider_url provider reference) "GET" [] None.

Definition fetchFromProvider (provider : StorageProviderId) (reference : string) (n : N) : (HttpResponse + string) * N :=
  match fetchFn (provider_request provider reference) n with
  | (inr e, n') => (inr e, n')
  | (inl response, n') =>
      if response_ok response then (inl response, n')
      else (inr (provider_name provider ++ " fetch HTTP " ++ num_str (Z.of_nat (h_status response)))%string, n')
  end.

(** [refs[provider]], where it is truthy, as it is put in a URL *)
Definition ref_of (refs : json) (provider : StorageProviderId) : option string :=
  match get_prop (provider_name provider) refs with
  | None | Some JNull | Some (JBool false) | Some (JNum 0) | Some (JStr "") => None
  | Some v => Some (String_of v)
  end.

Fixpoint fall_back (refs : json) (order : list StorageProviderId) (attempts : list string) (n : N) : (HttpResponse + list string) * N :=
  match order with
  | [] => (inr attempts, n)
  | p :: order' =>
      match ref_of refs p with
      | None => fall_back refs order' attempts n
      | Some r =>
          match fetchFromProvider p r n with
          | (inl response, n') => (inl response, n')
          | (inr e, n') => fall_back refs order' (attempts ++ [(provider_name p ++ " -> " ++ e)%string]) n'
          end
      end
  end.

Definition fetchDocument (ipfsHash : string) (s : StorageWorld N) : (HttpResponse + string) * StorageWorld N :=
  if blank ipfsHash then (inr "IPFS CID is required", s)
  else match fetchFileWithPIR ipfsHash (net s) with
  | (inl response, n) => (inl response, mkStorage (refs_item s) n)
  | (inr e, n) =>
      let refs := match getBackupRefs ipfsHash s with Some v => v | None => JObj [] end in
      match fall_back refs [Arweave; Filecoin] [("ipfs -> " ++ e)%string] n with
      | (inl response, n') => (inl response, mkStorage (refs_item s) n')
      | (inr attempts, n') => (inr (StorageProviderFetchError ipfsHash attempts), mkStorage (refs_item s) n')
      end
  end.

(** The checks, in the order they are started. *)
Fixpoint run_checks (checks : list (StorageProviderId * string)) (n : N) : list (StorageProviderId * StorageProofStatus) * N :=
  match checks with
  | [] => ([], n)
  | (p, r) :: checks' =>
      let '(status, n1) := checkProofOfStorage p r n in
      let '(statuses, n2) := run_checks checks' n1 in ((p, status) :: statuses, n2)
  end.

Definition verifyArchival (ipfsHash : string) (s : StorageWorld N) : list (StorageProviderId * StorageProofStatus) * StorageWorld N :=
  let refs := match getBackupRefs ipfsHash s with Some v => v | None => JObj [] end in
  let with_ref p := match ref_of refs p with Some r => [(p, r)] | None => [] end in
  let '(statuses, n) := run_checks ((PRIMARY_STORAGE_PROVIDER, ipfsHash) :: with_ref Filecoin ++ with_ref Arweave) (net s) in
  (statuses, mkStorage (refs_item s) n).
End Service.

(** ** The registry *)

Lemma last_member_filter (k k' : string) (l : list (string * json)) :
  last_member k' (List.filter (fun m => negb (String.eqb m.1 k)) l) = if String.eqb k k' then None else last_member k' l.
Proof.
  induction l as [|[a v] l IH]; [now destruct (String.eqb k k')|]. cbn [List.filter fst]. destruct (String.eqb_spec a k) as [->|Ha]; cbn [negb].
  - rewrite IH. cbn [last_member]. destruct (String.eqb_spec k k') as [->|]; [reflexivity|]. now destruct (last_member k' l).
  - cbn [last_member]. rewrite IH. destruct (String.eqb_spec k k') as [->|]; [|reflexivity]. now apply String.eqb_neq in Ha as ->.
Qed.

Lemma last_set_member (k k' : string) (v : json) (l : list (string * json)) :
  last_member k' (set_member k v l) = if String.eqb k k' then Some v else last_member k' l.
Proof.
  induction l as [|[a x] l IH]; cbn [set_member].
  - reflexivity.
  - destruct (String.eqb_spec a k) as [->|Ha]; cbn [last_member].
    + rewrite last_member_filter. destruct (String.eqb_spec k k') as [->|Hk]; [reflexivity|]. now destruct (last_member k' l).
    + rewrite IH. destruct (String.eqb_spec k k') as [->|Hk]; [reflexivity|]. reflexivity.
Qed.

Lemma stringify_object (l : list (string * json)) : blank (stringify_with 0 (JObj l)) = false.
Proof. now destruct l as [|[k v] l]. Qed.

Lemma stringify_array (l : list json) : blank (stringify_with 0 (JArr l)) = false.
Proof. now destruct l. Qed.

Lemma read_written {N : Type} (l : list (string * json)) (n : N) : readAllRefs (mkStorage (Some (stringify_with 0 (JObj l))) n) = JObj l.
Proof. unfold readAllRefs. cbn [refs_item]. now rewrite stringify_object, parse_stringified. Qed.

Lemma record_object {N : Type} (quota : string -> option string) (h : string) (r : StorageRefRecord) (s s' : StorageWorld N) (v : json) (l : list (string * json)) :
  readAllRefs s = JObj l -> recordBackupRefs quota h r s = (Ok v, s') ->
  v = JObj (merge_refs (last_member h l) r) /\ readAllRefs s' = JObj (set_member h v l) /\ net s' = net s.
Proof.
  unfold recordBackupRefs, writeAllRefs. intros ->. cbn [get_prop]. destruct (quota _); [discriminate|]. intros [= <- <-].
  split_and!; [reflexivity|apply read_written|reflexivity].
Qed.

(** What is recorded for a document is read back, with the references it had before, and the
    references of every other document stay. *)
Theorem refs_roundtrip {N : Type} (quota : string -> option string) (h : string) (r : StorageRefRecord) (s s' : StorageWorld N) (v : json) (l : list (string * json)) :
  readAllRefs s = JObj l -> recordBackupRefs quota h r s = (Ok v, s') ->
  getBackupRefs h s' = Some v /\ v = JObj (merge_refs (last_member h l) r)
  /\ forall h', h' <> h -> getBackupRefs h' s' = getBackupRefs h' s.
Proof.
  intros Hl H. destruct (record_object quota h r s s' v l Hl H) as (Hv & Hs & _). unfold getBackupRefs. rewrite Hs, Hl. cbn [get_prop].
  rewrite last_set_member, String.eqb_refl. split_and!; [now rewrite Hv|exact Hv|]. intros h' Hne. rewrite last_set_member.
  now apply not_eq_sym, String.eqb_neq in Hne as ->.
Qed.

(** A registry that cannot be parsed is lost: the next reference that is recorded replaces it,
    with the references of all the other documents. *)
Theorem unreadable_registry_lost {N : Type} (quota : string -> option string) (h raw e : string) (r : StorageRefRecord) (s s' : StorageWorld N) (v : json) :
  refs_item s = Some raw -> json_parse raw = Throw e -> recordBackupRefs quota h r s = (Ok v, s') -> readAllRefs s' = JObj [(h, v)].
Proof.
  intros Hraw He H. assert (Hl : readAllRefs s = JObj []) by (unfold readAllRefs; rewrite Hraw, He; now destruct (blank raw)).
  now destruct (record_object quota h r s s' v [] Hl H) as (_ & Hs & _).
Qed.

(** ** Replication *)

Lemma last_set_ref (k k' : string) (r : option string) (l : list (string * json)) :
  last_member k' (set_ref k r l) = match given_ref r with Some s => if String.eqb k k' then Some (JStr s) else last_member k' l | None => last_member k' l end.
Proof. unfold set_ref. destruct (given_ref r); [apply last_set_member|reflexivity]. Qed.

Section Backups.
Context {W : WebCrypto} {N : Type}.
Variables (options : StorageProviderServiceOptions) (env : StorageEnv) (ipfs_isConfigured : bool).
Variables (fetchFn : FetchRequest -> N -> (HttpResponse + string) * N) (pir_fetchDocument : string -> N -> (option chunk * option string) * N).
Variable ivs : nat -> list Z.

Abbreviation upload := (uploadToProvider options env ipfs_isConfigured fetchFn).

Lemma uploaded_inv (p : StorageProviderId) (data : chunk) (name : string) (n n' : N) (result : StorageUploadResult) :
  upload p data name n = (Ok result, n') ->
  u_provider result = p /\ p <> Ipfs /\ blank (reference result) = false
  /\ exists response size, fetchFn (upload_to options env p data name) n = (inl response, n')
     /\ match p with Filecoin => filecoin_uploaded | _ => arweave_uploaded end response (Z.of_nat (length data)) = Ok (reference result, size).
Proof.
  unfold uploadToProvider. destruct (negb _); [discriminate|]. destruct p; [discriminate|..];
    (destruct (fetchFn _ n) as [[response|e] n1]; [|discriminate]).
  - destruct (filecoin_uploaded response _) as [[r size]|e] eqn:E; [|discriminate]. intros [= <- <-]. cbn. split_and!; [reflexivity|discriminate| |eauto].
    unfold filecoin_uploaded in E. destruct (blank _) eqn:Hb; [now rewrite orb_true_r in E|]. destruct (negb _ || _); [discriminate E|]. now injection E as <- _.
  - destruct (arweave_uploaded response _) as [[r size]|e] eqn:E; [|discriminate]. intros [= <- <-]. cbn. split_and!; [reflexivity|discriminate| |eauto].
    unfold arweave_uploaded in E. destruct (blank _) eqn:Hb; [now rewrite orb_true_r in E|]. destruct (negb _ || _); [discriminate E|]. now injection E as <- _.
Qed.

(** Every provider that is asked for a copy is in the report: once, among the copies or among
    the failures, while the references can be written; and the document is the one asked for. *)
Theorem every_provider_reported (quota : string -> option string) (opts : BackupDocumentOptions) (s s' : StorageWorld N) (report : BackupDocumentReport) :
  (forall text, quota text = None) ->
  backupDocument options env ipfs_isConfigured fetchFn quota ivs opts s = (Ok report, s') ->
  r_ipfsHash report = o_ipfsHash opts
  /\ Permutation (map u_provider (backups report) ++ map f_provider (failures report))
       (or_default (providers opts) (getConfiguredBackupProviders options env ipfs_isConfigured)).
Proof.
  intros Hq. unfold backupDocument. destruct (blank (o_ipfsHash opts)); [discriminate|]. set (h := o_ipfsHash opts).
  assert (G : forall name bytes l rep s, r_ipfsHash rep = h -> let '(rep', s') := backup_each options env ipfs_isConfigured fetchFn quota h name bytes l rep s in
    r_ipfsHash rep' = h /\ Permutation (map u_provider (backups rep') ++ map f_provider (failures rep'))
                                      (map u_provider (backups rep) ++ map f_provider (failures rep) ++ l)).
  { intros name bytes l. induction l as [|p l IH]; intros rep t Hh; cbn [backup_each]; [split; [exact Hh|now rewrite app_nil_r]|].
    unfold backup_one. destruct (upload p bytes name (net t)) as [[result|e] n] eqn:Eu.
    - destruct (uploaded_inv _ _ _ _ _ _ Eu) as [Hp _]. unfold recordBackupRefs, writeAllRefs. rewrite Hq.
      match goal with |- context [backup_each _ _ _ _ _ _ _ _ l ?r ?x] => specialize (IH r x eq_refl) end.
      destruct (backup_each _ _ _ _ _ _ _ _ l _ _) as [rep' s1]. destruct IH as [H1 H2]. split; [exact H1|]. rewrite H2. cbn [backups failures].
      rewrite map_app. cbn [map]. rewrite Hp, <- !app_assoc. apply Permutation_app_head. cbn [app]. apply Permutation_middle.
    - match goal with |- context [backup_each _ _ _ _ _ _ _ _ l ?r ?x] => specialize (IH r x eq_refl) end.
      destruct (backup_each _ _ _ _ _ _ _ _ l _ _) as [rep' s1]. destruct IH as [H1 H2]. split; [exact H1|]. rewrite H2. cbn [backups failures].
      rewrite map_app. cbn [map]. rewrite <- !app_assoc. reflexivity. }
  destruct (or_default (providers opts) _) as [|p l] eqn:El; [now intros [= <- <-]|].
  destruct (resolveCiphertext ivs opts) as [bytes|e]; [|discriminate]. specialize (G (or_else (o_filename opts) "document.svsc") bytes (p :: l) (mkReport h [] []) s eq_refl).
  destruct (backup_each _ _ _ _ _ _ _ _ (p :: l) _ s) as [rep' s1]. intros [= <- <-]. exact G.
Qed.

(** A copy whose reference cannot be written is in the report twice, and cannot be found again. *)
Theorem full_storage_reports_twice (quota : string -> option string) (p : StorageProviderId) (h name : string) (bytes : chunk)
    (result : StorageUploadResult) (s : StorageWorld N) (n : N) :
  (forall text, quota text = Some "QuotaExceededError"%string) -> upload p bytes name (net s) = (Ok result, n) ->
  backup_each options env ipfs_isConfigured fetchFn quota h name bytes [p] (mkReport h [] []) s
  = (mkReport h [result] [mkFailure p "QuotaExceededError"], mkStorage (refs_item s) n).
Proof. intros Hq Hu. cbn [backup_each]. unfold backup_one. rewrite Hu. unfold recordBackupRefs, writeAllRefs. now rewrite Hq. Qed.
End Backups.

(** ** Recovery from a copy *)

Lemma default_chunk_size : (1 <= STREAMING_CHUNK_SIZE)%nat /\ Z.of_nat STREAMING_CHUNK_SIZE <= 16 * 1024 * 1024.
Proof.
  unfold STREAMING_CHUNK_SIZE. split; [|rewrite Z2Nat.id; lia]. change 1%nat with (Z.to_nat 1). apply Z2Nat.inj_le; lia.
Qed.

(** What the archives promise: [holds n p r b] when provider [p] keeps the bytes [b] under the
    reference [r]. *)
Class Archives {W : WebCrypto} {N : Type} (options : StorageProviderServiceOptions) (env : StorageEnv)
    (fetchFn : FetchRequest -> N -> (HttpResponse + string) * N) (pir_fetchDocument : string -> N -> (option chunk * option string) * N)
    (holds : N -> StorageProviderId -> string -> chunk -> Prop) : Prop := {
  stored : forall p data name n response n' r size, p <> Ipfs ->
    fetchFn (upload_to options env p data name) n = (inl response, n') ->
    match p with Filecoin => filecoin_uploaded | _ => arweave_uploaded end response (Z.of_nat (length data)) = Ok (r, size) -> holds n' p r data;
  permanent_fetch : forall q n p r b, holds n p r b -> holds (fetchFn q n).2 p r b;
  permanent_pir : forall h n p r b, holds n p r b -> holds (pir_fetchDocument h n).2 p r b;
  served : forall p r b n, holds n p r b -> (fetchFn (provider_request options env p r) n).1 = inl (mkHttp 200 b)
}.

Section Recovery.
Context {W : WebCrypto} {L : WebCryptoLaws W} {N : Type}.
Variables (options : StorageProviderServiceOptions) (env : StorageEnv) (ipfs_isConfigured : bool).
Variables (fetchFn : FetchRequest -> N -> (HttpResponse + string) * N) (pir_fetchDocument : string -> N -> (option chunk * option string) * N).
Variables (ivs : nat -> list Z) (holds : N -> StorageProviderId -> string -> chunk -> Prop).
Hypothesis ivs_length : forall i, length (ivs i) = STREAMING_IV_LENGTH.
Context {A : Archives options env fetchFn pir_fetchDocument holds}.

Abbreviation no_quota := (fun _ : string => @None string).

(** The references of document [h] lead to the bytes [b]. *)
Record leads (h : string) (b : chunk) (s : StorageWorld N) : Prop := {
  registry : exists l, readAllRefs s = JObj l /\ match last_member h l with None => True | Some v => exists m, v = JObj m end;
  right_bytes : forall p r, p <> Ipfs -> ref_of (or_default (getBackupRefs h s) (JObj [])) p = Some r -> holds (net s) p r b
}.

Lemma ref_of_merged (p q : StorageProviderId) (r : string) (old : option json) : q <> Ipfs -> p <> Ipfs -> blank r = false ->
  match old with None => True | Some v => exists m, v = JObj m end ->
  ref_of (JObj (merge_refs old (refs_of p r))) q = if decide (p = q) then Some r else ref_of (or_default old (JObj [])) q.
Proof.
  intros Hq Hp Hr Ho. unfold ref_of, merge_refs. cbn [get_prop]. rewrite !last_set_ref.
  assert (E : spread (match nullish old None with Some v => v | None => JObj [] end) = match or_default old (JObj []) with JObj l => l | _ => [] end).
  { destruct old as [v|]; [destruct Ho as [m ->]|]; reflexivity. }
  rewrite E. assert (E2 : get_prop (provider_name q) (or_default old (JObj [])) = last_member (provider_name q) (match or_default old (JObj []) with JObj l => l | _ => [] end)).
  { destruct old as [v|]; [destruct Ho as [m ->]|]; reflexivity. }
  rewrite E2. destruct p, q; try contradiction; cbn [refs_of arweave filecoin given_ref provider_name]; rewrite ?Hr; cbn [String.eqb Ascii.eqb Bool.eqb];
    rewrite ?decide_True, ?decide_False by congruence; cbn [String_of]; try reflexivity; destruct r; [discriminate Hr|reflexivity|discriminate Hr|reflexivity].
Qed.

Lemma fetched_keeps (q : FetchRequest) (n n' : N) (x : HttpResponse + string) (p : StorageProviderId) (r : string) (b : chunk) :
  fetchFn q n = (x, n') -> holds n p r b -> holds n' p r b.
Proof. intros E H. pose proof (permanent_fetch q n p r b H) as K. now rewrite E in K. Qed.

Lemma leads_after (h name : string) (b : chunk) (p : StorageProviderId) (rep : BackupDocumentReport) (s : StorageWorld N) :
  leads h b s -> let '(rep', s') := backup_one options env ipfs_isConfigured fetchFn no_quota h name b p rep s in
  leads h b s' /\ (backups rep' = backups rep /\ (forall q, ref_of (or_default (getBackupRefs h s') (JObj [])) q = ref_of (or_default (getBackupRefs h s) (JObj [])) q)
                   \/ exists q r, q <> Ipfs /\ ref_of (or_default (getBackupRefs h s') (JObj [])) q = Some r).
Proof.
  intros [(l & Hl & Hm) Hb]. unfold backup_one. destruct (uploadToProvider _ _ _ _ p b name (net s)) as [[result|e] n] eqn:Eu.
  - destruct (uploaded_inv _ _ _ _ _ _ _ _ _ _ Eu) as (Hu & Hp & Hr & response & size & Ef & Ek).
    set (s1 := mkStorage (refs_item s) n). assert (Hl1 : readAllRefs s1 = JObj l) by exact Hl.
    destruct (recordBackupRefs no_quota h (refs_of p (reference result)) s1) as [[v|e] s2] eqn:Er; [|discriminate Er].
    destruct (record_object _ _ _ _ _ _ _ Hl1 Er) as (Hv & Hs2 & Hn2). cbn [net s1] in Hn2.
    assert (Hg : getBackupRefs h s2 = Some v) by (unfold getBackupRefs; rewrite Hs2; cbn [get_prop]; rewrite last_set_member, String.eqb_refl, Hv; reflexivity).
    assert (Hold : or_default (getBackupRefs h s) (JObj []) = or_default (last_member h l) (JObj [])).
    { unfold getBackupRefs. rewrite Hl. cbn [get_prop]. destruct (last_member h l) as [x|]; [destruct Hm as [m ->]|]; reflexivity. }
    rewrite Hold in Hb. split; [constructor|].
    + exists (set_member h v l). split; [exact Hs2|]. rewrite last_set_member, String.eqb_refl, Hv. now eexists.
    + intros q r Hq. rewrite Hg, Hn2. cbn [or_default]. rewrite Hv, ref_of_merged by assumption. destruct (decide (p = q)) as [<-|].
      * intros [= <-]. eapply stored; eassumption.
      * intros Hold'. exact (fetched_keeps _ _ _ _ _ _ _ Ef (Hb q r Hq Hold')).
    + right. exists p, (reference result). split; [exact Hp|]. rewrite Hg. cbn [or_default]. now rewrite Hv, ref_of_merged, decide_True.
  - split; [constructor|left; now split].
    + exists l. now split.
    + intros q r Hq Hr. specialize (Hb q r Hq Hr). cbn [net]. unfold uploadToProvider in Eu. destruct (negb _); [now injection Eu as _ <-|].
      destruct p; [now injection Eu as _ <-|..]; destruct (fetchFn _ (net s)) as [[response|e'] n1] eqn:Ef;
        injection Eu as _ <-; exact (fetched_keeps _ _ _ _ _ _ _ Ef Hb).
Qed.

Lemma leads_each (h name : string) (b : chunk) (l : list StorageProviderId) (rep : BackupDocumentReport) (s : StorageWorld N) :
  leads h b s -> (backups rep <> [] -> exists q r, q <> Ipfs /\ ref_of (or_default (getBackupRefs h s) (JObj [])) q = Some r) ->
  let '(rep', s') := backup_each options env ipfs_isConfigured fetchFn no_quota h name b l rep s in
  leads h b s' /\ (backups rep' <> [] -> exists q r, q <> Ipfs /\ ref_of (or_default (getBackupRefs h s') (JObj [])) q = Some r).
Proof.
  revert rep s. induction l as [|p l IH]; intros rep s Hs Hr; cbn [backup_each]; [now split|].
  pose proof (leads_after h name b p rep s Hs) as H. destruct (backup_one _ _ _ _ _ _ _ _ _ _ s) as [rep1 s1]. destruct H as [H1 H2]. apply IH; [exact H1|].
  destruct H2 as [[E1 E2]|H2]; [|now intros _]. rewrite E1. intros Hne. destruct (Hr Hne) as (q & r & Hq & Hqr). exists q, r. now rewrite E2.
Qed.

(** A retrieval falls back to a copy that a reference leads to. *)
Lemma recovered (h : string) (b : chunk) (e : string) (s : StorageWorld N) : blank h = false -> leads h b s -> forall q r, q <> Ipfs ->
  ref_of (or_default (getBackupRefs h s) (JObj [])) q = Some r -> (pir_fetchDocument h (net s)).1 = (None, Some e) ->
  exists s2, fetchDocument options env fetchFn pir_fetchDocument h s = (inl (mkHttp 200 b), s2).
Proof.
  intros Hh [_ Hb] q r Hq Hqr Hpir. unfold fetchDocument, fetchFileWithPIR. rewrite Hh.
  assert (Hkeep : forall p r', holds (net s) p r' b -> holds (pir_fetchDocument h (net s)).2 p r' b) by (intros; now apply permanent_pir).
  destruct (pir_fetchDocument h (net s)) as [x n]. cbn in Hpir, Hkeep. subst x. cbn [snd] in Hkeep.
  change (match getBackupRefs h s with Some v => v | None => JObj [] end) with (or_default (getBackupRefs h s) (JObj [])).
  set (refs := or_default _ _) in *.
  assert (F : forall p r' n', holds n' p r' b -> exists n'', fetchFromProvider options env fetchFn p r' n' = (inl (mkHttp 200 b), n'')).
  { intros p r' n' Hp. unfold fetchFromProvider. pose proof (served p r' b n' Hp) as Hs. destruct (fetchFn _ n') as [y n'']. cbn in Hs. subst y. now exists n''. }
  cbn [fall_back]. destruct (ref_of refs Arweave) as [ra|] eqn:Ea.
  - destruct (F Arweave ra n) as [n'' ->]; [apply Hkeep, Hb; [discriminate|exact Ea]|]. now eexists.
  - destruct q; [contradiction| |congruence]. rewrite Hqr. destruct (F Filecoin r n) as [n'' ->]; [apply Hkeep, Hb; [discriminate|exact Hqr]|]. now eexists.
Qed.

(** C10: When the pin is gone a document is recovered from its copies: after a backup that reports
    one, the retrieval that the private fetch cannot serve returns bytes that decrypt, with the
    document's key, to the document. *)
Theorem backup_recovers (opts : BackupDocumentOptions) (file : list chunk) (key e : string) (l : list (string * json))
    (s s' : StorageWorld N) (report : BackupDocumentReport) :
  ciphertext opts = None -> plaintext opts = Some file -> keyHex opts = Some key -> String.length key = 64%nat -> str_all hex_char key = true ->
  readAllRefs s = JObj l -> last_member (o_ipfsHash opts) l = None ->
  backupDocument options env ipfs_isConfigured fetchFn no_quota ivs opts s = (Ok report, s') -> backups report <> [] ->
  (pir_fetchDocument (o_ipfsHash opts) (net s')).1 = (None, Some e) ->
  exists bytes s2 outs, fetchDocument options env fetchFn pir_fetchDocument (o_ipfsHash opts) s' = (inl (mkHttp 200 bytes), s2)
    /\ decryptStream (hex_bytes key) [bytes] = (outs, Ok tt) /\ collectStream outs = collectStream file.
Proof.
  intros Hc Hf Hk Hlen Hhex Hl Hnone Hbackup Hne Hpir. unfold backupDocument in Hbackup. destruct (blank (o_ipfsHash opts)) eqn:Hh; [discriminate|].
  destruct (or_default (providers opts) _) as [|p0 ps]; [injection Hbackup as <- <-; now elim Hne|].
  destruct (resolveCiphertext ivs opts) as [bytes|] eqn:Er; [|discriminate].
  assert (Hbytes : bytes = collectStream (fst (encryptStream (hex_bytes key) ivs STREAMING_CHUNK_SIZE file))).
  { unfold resolveCiphertext in Er. rewrite Hc, Hf, Hk in Er. destruct (blank key); [discriminate|]. unfold encryptFileStream in Er.
    rewrite hex_key_ok, run_lift in Er by assumption. destruct (snd _); [|discriminate]. now injection Er as <-. }
  pose proof (leads_each (o_ipfsHash opts) (or_else (o_filename opts) "document.svsc") bytes (p0 :: ps) (mkReport (o_ipfsHash opts) [] []) s) as Hleads.
  destruct (backup_each _ _ _ _ _ _ _ _ _ _ s) as [rep s1]. injection Hbackup as <- <-.
  destruct Hleads as [Hs1 Hex].
  { constructor; [exists l; now rewrite Hnone|]. intros p r _. unfold getBackupRefs. rewrite Hl. cbn [get_prop]. rewrite Hnone. now destruct p. }
  { now intros H. }
  destruct (Hex Hne) as (q & r & Hq & Hqr). clear Hex.
  destruct (recovered (o_ipfsHash opts) bytes e s1 Hh Hs1 q r Hq Hqr Hpir) as [s2 E].
  destruct (decrypt_encrypted (hex_bytes key) ivs STREAMING_CHUNK_SIZE file [fst (encryptStream (hex_bytes key) ivs STREAMING_CHUNK_SIZE file)])
    as (outs & Ed & Ho).
  - apply default_chunk_size.
  - apply default_chunk_size.
  - exact ivs_length.
  - constructor; [|constructor]. destruct (encrypt_pieces (hex_bytes key) ivs STREAMING_CHUNK_SIZE file) as [st ->]; [apply default_chunk_size|discriminate].
  - exact (app_nil_r _).
  - exists bytes, s2, outs. split; [exact E|]. split; [|exact Ho]. now rewrite Hbytes.
Qed.
End Recovery.

(** ** An archive that keeps one object, for the examples *)

Import Mirror.

Definition vault_fetch (q : FetchRequest) (n : option chunk) : (HttpResponse + string) * option chunk :=
  let accepted := mkHttp 200 (text_encode (stringify_with 0 (JObj [("id", JStr "T"); ("Hash", JStr "T")]))) in
  match q_body q, n with
  | Some (_, data), None => (inl accepted, Some data)
  | Some (_, data), Some d => (inl (if decide (d = data) then accepted else mkHttp 507 []), Some d)
  | None, Some d => (inl (mkHttp 200 d), Some d)
  | None, None => (inl (mkHttp 404 []), None)
  end.
Definition dead_pir (h : string) (n : option chunk) : (option chunk * option string) * option chunk := ((None, Some "gateway timeout"%string), n).
Definition in_vault (n : option chunk) (p : StorageProviderId) (r : string) (b : chunk) : Prop := n = Some b.

Definition no_options : StorageProviderServiceOptions := mkOptions (Some "key") None None None None.
Definition no_env : StorageEnv := mkStorageEnv None None None None None.

#[export] Instance vault_archives : Archives no_options no_env vault_fetch dead_pir in_vault.
Proof.
  constructor; unfold in_vault.
  - intros p data name n response n' r size Hp. unfold vault_fetch. destruct p; [contradiction|..]; cbn [upload_to q_body].
    + destruct n as [d|]; [|now intros [= <- <-]]. destruct (decide (d = data)) as [->|]; intros [= <- <-]; [reflexivity|]. intros H. vm_compute in H. discriminate H.
    + destruct n as [d|]; [|now intros [= <- <-]]. destruct (decide (d = data)) as [->|]; intros [= <- <-]; [reflexivity|]. intros H. vm_compute in H. discriminate H.
  - intros q n _ _ b ->. unfold vault_fetch. destruct (q_body q) as [[? ?]|]; reflexivity.
  - now intros h n _ _ b ->.
  - now intros p r b n ->.
Qed.

Definition demo_file : list chunk := [[1; 2; 3]; [4]].
Definition demo_options : BackupDocumentOptions := mkBackup "QmDoc" None (Some demo_file) (Some (repeat_char 64 "0")) None None.
Definition demo_backup : res BackupDocumentReport * StorageWorld (option chunk) :=
  backupDocument no_options no_env true vault_fetch (fun _ => None) zero_ivs demo_options (mkStorage None None).
Definition demo_report : BackupDocumentReport := match demo_backup.1 with Ok r => r | Throw _ => mkReport "" [] [] end.

Lemma backup_recovers_witness : exists bytes s2 outs,
  fetchDocument no_options no_env vault_fetch dead_pir "QmDoc" demo_backup.2 = (inl (mkHttp 200 bytes), s2)
  /\ decryptStream (hex_bytes (repeat_char 64 "0")) [bytes] = (outs, Ok tt) /\ collectStream outs = [1; 2; 3; 4].
Proof.
  apply (backup_recovers no_options no_env true vault_fetch dead_pir zero_ivs in_vault (fun _ => eq_refl) demo_options demo_file (repeat_char 64 "0") "gateway timeout" []
           (mkStorage None None) demo_backup.2 demo_report); try reflexivity; vm_compute; first [reflexivity|discriminate].
Defined.

Lemma every_provider_reported_witness : r_ipfsHash demo_report = "QmDoc"
  /\ Permutation (map u_provider (backups demo_report) ++ map f_provider (failures demo_report)) [Filecoin; Arweave].
Proof.
  apply (every_provider_reported no_options no_env true vault_fetch zero_ivs (fun _ => None) demo_options (mkStorage None None) demo_backup.2 demo_report);
    vm_compute; reflexivity.
Defined.

Lemma full_storage_reports_twice_witness :
  backup_each no_options no_env true vault_fetch (fun _ => Some "QuotaExceededError"%string) "QmDoc" "a" [7] [Arweave] (mkReport "QmDoc" [] []) (mkStorage None None)
  = (mkReport "QmDoc" [mkResult Arweave "T" (Fin 1 0) true] [mkFailure Arweave "QuotaExceededError"], mkStorage None (Some [7])).
Proof. apply (full_storage_reports_twice no_options no_env true vault_fetch); vm_compute; reflexivity. Defined.

Definition two_refs : StorageWorld unit :=
  mkStorage (Some (stringify_with 0 (JObj [("QmA", JObj [("arweave", JStr "a")]); ("QmB", JObj [("filecoin", JStr "b")])]))) tt.

Lemma refs_roundtrip_witness : getBackupRefs "QmB" (recordBackupRefs (fun _ => None) "QmB" (mkRefs (Some "c") None) two_refs).2
  = Some (JObj [("filecoin", JStr "b"); ("arweave", JStr "c")]).
Proof.
  refine (proj1 (refs_roundtrip (fun _ => None) "QmB" (mkRefs (Some "c") None) two_refs _ _ [("QmA", JObj [("arweave", JStr "a")]); ("QmB", JObj [("filecoin", JStr "b")])] _ _));
    vm_compute; reflexivity.
Defined.

Definition torn : StorageWorld unit := mkStorage (Some "{QmA"%string) tt.
Definition mended : StorageWorld unit := (recordBackupRefs (fun _ => None) "QmB" (mkRefs (Some "c") None) torn).2.
Definition parse_error : string := match json_parse "{QmA" with Throw e => e | Ok _ => "" end.

Lemma unreadable_registry_lost_witness : readAllRefs mended = JObj [("QmB", JObj [("arweave", JStr "c")])].
Proof.
  apply (unreadable_registry_lost (fun _ => None) "QmB" "{QmA" parse_error (mkRefs (Some "c") None) torn mended (JObj [("arweave", JStr "c")]));
    vm_compute; reflexivity.
Defined.

(** A deal that is still being sealed counts as active. *)
Example sealing_counts : filecoin_archived (JArr [JObj [("dealStatus", JStr "Sealing")]]) = (true, None).
Proof. reflexivity. Qed.
