(* ===== verification/TtlRelayer.v ===== *)
(** * TtlRelayer: scripts/soroban-ttl-relayer.mjs

    The relayer scans the entries of the contract on Soroban and extends those whose time to
    live runs out.  The RPC server and the SDK are a record of operations on a world; a
    thrown value is [Some] message, or [None] where undefined is thrown.  Configuration
    numbers are integers; log lines are left out. *)

From Stdlib Require Import Ascii String ZArith Lia Bool.
From stdpp Require Import base list gmap strings.
From S2P Require Import Prelude JsString JsonText KeyInbox.

Open Scope string_scope.
Open Scope list_scope.
Open Scope Z_scope.

(** ** Effects *)

Definition thrown : Type := option string.
Definition rpc (W A : Type) : Type := W -> (A + thrown) * W.
Definition rret {W A : Type} (a : A) : rpc W A := fun w => (inl a, w).
Definition rthrow {W A : Type} (e : string) : rpc W A := fun w => (inr (Some e), w).
Definition rbind {W A B : Type} (m : rpc W A) (k : A -> rpc W B) : rpc W B :=
  fun w => match m w with (inl a, w') => k a w' | (inr e, w') => (inr e, w') end.
Notation "'await' x '<-' m 'in' k" := (rbind m (fun x => k)) (at level 10, x name, m at level 100, k at level 200).

(** ** Keys and transactions *)

#[warnings="-register-all"] Inductive ScValue : Type := scvVec (l : list ScValue) | scvSymbol (s : string) | scvU64 (n : Z) | scvLedgerKeyContractInstance.
Inductive Durability : Type := persistent | instance.
Record LedgerKey : Type := mkKey { k_contract : string; k_key : ScValue; k_durability : Durability }.

(** An entry: its expiry, and its value, which decodes to an integer or not. *)
Record TtlEntry : Type := mkEntry { liveUntilLedgerSeq : option Z; entry_val : option (option Z) }.

Record Op : Type := mkOp { op_contract : string; op_function : string; op_args : list ScValue }.
Record Tx : Type := mkTx { tx_source : string; tx_ops : list Op; tx_passphrase : string }.

(** A key pair, or the object with a public key that stands in for a missing one. *)
Record Keypair : Type := mkKeypair { publicKey : string; can_sign : bool }.

(** [SimulationOk]: what the simulation says of the resources and the fee. *)
Inductive TtlSimulation : Type := SimulationOk (data : string) | SimulationError (e : string).
Inductive SendStatus : Type := Sent (hash : string) | SendError (errorResult : string).
Inductive TtlTxStatus : Type := SUCCESS | FAILED (resultXdr : string) | NOT_FOUND.

(** The server, the SDK and the timer.  [has_instance]: the SDK's enumeration of durabilities
    has a member [instance].  [Address]: the address of a well-formed strkey; the SDK throws for
    another, and for an operation or a prepared transaction it cannot build. *)
Record Rpc (W : Type) : Type := mkRpc {
  getLedgerEntries : LedgerKey -> rpc W (list TtlEntry);
  getLatestLedger : rpc W Z;
  getAccount : string -> rpc W unit;
  simulateTransaction : Tx -> rpc W TtlSimulation;
  sendTransaction : Tx -> rpc W SendStatus;
  getTransaction : string -> rpc W TtlTxStatus;
  sleep : Z -> W -> W;
  fromSecret : string -> res string;
  has_instance : bool;
  Address : string -> res string;
  invokeContractFunction : string -> string -> list ScValue -> res Op;
  assembleTransaction : Tx -> string -> res Tx
}.
Arguments getLedgerEntries {W}.
Arguments getLatestLedger {W}.
Arguments getAccount {W}.
Arguments simulateTransaction {W}.
Arguments sendTransaction {W}.
Arguments getTransaction {W}.
Arguments sleep {W}.
Arguments fromSecret {W}.
Arguments has_instance {W}.
Arguments Address {W}.
Arguments invokeContractFunction {W}.
Arguments assembleTransaction {W}.

Record Config : Type := mkConfig {
  contractId : string; secretKey : string; ttlThreshold : Z; maxTtl : Z; maxEntries : Z; maxRetries : Z; retryDelayMs : Z; networkPassphrase : string
}.

Record Counts : Type := mkCounts { scanned : Z; bumped : Z; errors : Z }.

Definition TESTNET : string := "Test SDF Network ; September 2015".
Definition BATCH_SIZE : nat := 50.
Definition NO_KEYPAIR : Keypair := mkKeypair "GAAAAAAAAAAAAAAAAAAAAAAAAAAAAAAAAAAAAAAAAAAAAAAAAAAAAWHF" false.

Definition buildDataKeyScVal (tag : string) (args : list ScValue) : ScValue := scvVec (scvSymbol tag :: args).
Definition scValU64 (id : Z) : ScValue := scvU64 id.

(** Synchronous code inside an async function. *)
Definition rlift {W A : Type} (r : res A) : rpc W A := match r with Ok a => rret a | Throw e => rthrow e end.

Create HintDb relayer.

Section Relayer.
Context {W : Type}.
Variable server : Rpc W.

(** ** Keys of entries *)

Definition buildPersistentLedgerKey (contractId : string) (keyScVal : ScValue) : res LedgerKey :=
  let! contract := Address server contractId in Ok (mkKey contract keyScVal persistent).
Definition buildContractInstanceLedgerKey (contractId : string) : res LedgerKey :=
  let! contract := Address server contractId in Ok (mkKey contract scvLedgerKeyContractInstance persistent).

(** ** Queries *)

(** The expiry of an entry, if it exists. *)
Definition fetchEntryTtl (ledgerKey : LedgerKey) : rpc W (option Z) :=
  await entries <- getLedgerEntries server ledgerKey in
  rret (match entries with [] => None | entry :: _ => Some (match liveUntilLedgerSeq entry with Some n => n | None => 0 end) end).

Definition queryEntityCount (contractId counterKey : string) : rpc W Z :=
  await contract <- rlift (Address server contractId) in
  if negb (has_instance server) then rthrow "xdr.ContractDataDurability.instance is not a function"
  else
    await entries <- getLedgerEntries server (mkKey contract (buildDataKeyScVal counterKey []) instance) in
    rret (match entries with [] => 0 | entry :: _ => match entry_val entry with Some (Some n) => n | _ => 0 end end).

(** ** Transactions *)

Fixpoint poll_status (attempts : nat) (txHash : string) : rpc W string :=
  match attempts with
  | O => rthrow ("Transaction polling timed out (hash=" ++ txHash ++ ")")%string
  | S n =>
      await status <- getTransaction server txHash in
      match status with
      | SUCCESS => rret txHash
      | FAILED resultXdr => rthrow ("Transaction FAILED (hash=" ++ txHash ++ "): " ++ resultXdr)%string
      | NOT_FOUND => fun w => poll_status n txHash (sleep server 2000 w)
      end
  end.

Definition sign (keypair : Keypair) : rpc W unit := if can_sign keypair then rret tt else rthrow "keypair.signatureHint is not a function".

(** [for (const args of argsList) builder.addOperation(...)] *)
Fixpoint operations (contractId functionName : string) (argsList : list (list ScValue)) : res (list Op) :=
  match argsList with
  | [] => Ok []
  | args :: argsList =>
      let! op := invokeContractFunction server contractId functionName args in
      let! ops := operations contractId functionName argsList in
      Ok (op :: ops)
  end.

Definition submitBatchTtlExtensionTx (keypair : Keypair) (contractId functionName : string) (argsList : list (list ScValue)) (networkPassphrase : string) : rpc W string :=
  await _ <- getAccount server (publicKey keypair) in
  await ops <- rlift (operations contractId functionName argsList) in
  let tx := mkTx (publicKey keypair) ops (or_else (Some networkPassphrase) TESTNET) in
  await simulation <- simulateTransaction server tx in
  match simulation with
  | SimulationError e => rthrow ("Simulation failed for batch " ++ functionName ++ ": " ++ e)%string
  | SimulationOk data =>
      await preparedTx <- rlift (assembleTransaction server tx data) in
      await _ <- sign keypair in
      await response <- sendTransaction server preparedTx in
      match response with
      | SendError errorResult => rthrow ("sendTransaction failed for batch " ++ functionName ++ ": " ++ errorResult)%string
      | Sent txHash => poll_status 30 txHash
      end
  end.

Definition submitTtlExtensionTx (keypair : Keypair) (contractId functionName : string) (args : list ScValue) (networkPassphrase : string) : rpc W string :=
  submitBatchTtlExtensionTx keypair contractId functionName [args] networkPassphrase.

(** [for (let attempt = 1; attempt <= maxRetries; attempt++)], with [n] attempts left: the last
    error is thrown, or undefined where there was no attempt. *)
Fixpoint retry {A : Type} (fn : rpc W A) (delayMs : Z) (n : nat) (lastErr : thrown) : rpc W A :=
  match n with
  | O => fun w => (inr lastErr, w)
  | S n' => fun w =>
      match fn w with
      | (inl a, w') => (inl a, w')
      | (inr err, w') => retry fn delayMs n' err (match n' with O => w' | _ => sleep server delayMs w' end)
      end
  end.
Definition withRetry {A : Type} (fn : rpc W A) (maxRetries delayMs : Z) : rpc W A := retry fn delayMs (Z.to_nat maxRetries) None.

(** A [catch] that logs [err.message] and goes on: a property of undefined cannot be read. *)
Definition logged {A : Type} (e : thrown) (k : rpc W A) : rpc W A :=
  match e with Some _ => k | None => rthrow "Cannot read properties of undefined (reading 'message')" end.

(** ** Scans *)

Section Entity.
Variables (cfg : Config) (keypair : Keypair) (latestLedger : Z) (networkPass : string) (counterKey dataKeyTag extendFn : string).

Definition entity_key (id : Z) : res LedgerKey := buildPersistentLedgerKey (contractId cfg) (buildDataKeyScVal dataKeyTag [scValU64 id]).

(** [for (let id = 1; id <= limit; id++)], with [n] entries left: the ids that are due, and the errors. *)
Fixpoint scan_ids (n : nat) (id : Z) (idsToBump : list Z) (errs : Z) : rpc W (list Z * Z) :=
  match n with
  | O => rret (idsToBump, errs)
  | S n' =>
      await ledgerKey <- rlift (entity_key id) in fun w =>
      match withRetry (fetchEntryTtl ledgerKey) (maxRetries cfg) (retryDelayMs cfg) w with
      | (inr e, w') => logged e (scan_ids n' (id + 1) idsToBump (errs + 1)) w'
      | (inl ttlInfo, w') =>
          let due := match ttlInfo with Some live => live - latestLedger <? ttlThreshold cfg | None => false end in
          scan_ids n' (id + 1) (if due then idsToBump ++ [id] else idsToBump) errs w'
      end
  end.

Definition bump_batch (batch : list Z) : rpc W string :=
  withRetry (submitBatchTtlExtensionTx keypair (contractId cfg) extendFn (map (fun id => [scValU64 id]) batch) networkPass) (maxRetries cfg) (retryDelayMs cfg).

(** [for (let i = 0; i < idsToBump.length; i += BATCH_SIZE)]; a round takes some ids. *)
Fixpoint bump_ids (fuel : nat) (ids : list Z) (up errs : Z) : rpc W (Z * Z) :=
  match ids, fuel with
  | [], _ => rret (up, errs)
  | _, O => rthrow "out of fuel"
  | _, S fuel' => fun w =>
      let batch := firstn BATCH_SIZE ids in
      let rest := skipn BATCH_SIZE ids in
      let n := Z.of_nat (length batch) in
      match bump_batch batch w with
      | (inl _, w') => bump_ids fuel' rest (up + n) errs w'
      | (inr e, w') => logged e (bump_ids fuel' rest up (errs + n)) w'
      end
  end.

Definition scanAndBumpEntityType : rpc W Counts := fun w =>
  match queryEntityCount (contractId cfg) counterKey w with
  | (inr e, w') => logged e (rret (mkCounts 0 0 1)) w'
  | (inl count, w') =>
      let limit := Z.min count (maxEntries cfg) in
      (await found <- scan_ids (Z.to_nat limit) 1 [] 0 in
       await done <- bump_ids (length found.1) found.1 0 found.2 in
       rret (mkCounts (Z.max 0 limit) done.1 done.2)) w'
  end.
End Entity.

(** ** A cycle *)

Definition entityTypes : list (string * string * string) :=
  [("VaultCount", "Vault", "extend_vault_ttl"); ("DocCount", "Doc", "extend_document_ttl"); ("ReqCount", "Request", "extend_request_ttl")].

Definition add_counts (a b : Counts) : Counts := mkCounts (scanned a + scanned b) (bumped a + bumped b) (errors a + errors b).

(** The contract's own entry. *)
Definition instance_step (cfg : Config) (keypair : option Keypair) (latestLedger : Z) (networkPass : string) : rpc W Counts :=
  await instanceLedgerKey <- rlift (buildContractInstanceLedgerKey (contractId cfg)) in fun w =>
  match withRetry (fetchEntryTtl instanceLedgerKey) (maxRetries cfg) (retryDelayMs cfg) w with
  | (inr e, w') => logged e (rret (mkCounts 0 0 1)) w'
  | (inl None, w') => (inl (mkCounts 0 0 0), w')
  | (inl (Some live), w') =>
      match (if live - latestLedger <? ttlThreshold cfg then keypair else None) with
      | None => (inl (mkCounts 1 0 0), w')
      | Some kp =>
          match withRetry (submitTtlExtensionTx kp (contractId cfg) "extend_contract_ttl" [] networkPass) (maxRetries cfg) (retryDelayMs cfg) w' with
          | (inl _, w2) => (inl (mkCounts 1 1 0), w2)
          | (inr e, w2) => logged e (rret (mkCounts 1 0 1)) w2
          end
      end
  end.

Fixpoint entity_steps (cfg : Config) (keypair : Keypair) (latestLedger : Z) (networkPass : string) (types : list (string * string * string)) (total : Counts) : rpc W Counts :=
  match types with
  | [] => rret total
  | (counterKey, dataKeyTag, extendFn) :: types' =>
      await result <- scanAndBumpEntityType cfg keypair latestLedger networkPass counterKey dataKeyTag extendFn in
      entity_steps cfg keypair latestLedger networkPass types' (add_counts total result)
  end.

Definition runRelayerCycle (cfg : Config) : rpc W Counts :=
  let networkPass := or_else (Some (networkPassphrase cfg)) TESTNET in
  let keypair := if blank (secretKey cfg) then Ok None else match fromSecret server (secretKey cfg) with Ok pub => Ok (Some (mkKeypair pub true)) | Throw e => Throw e end in
  match keypair with
  | Throw e => rthrow e
  | Ok keypair =>
      await latestLedger <- getLatestLedger server in
      await total <- instance_step cfg keypair latestLedger networkPass in
      entity_steps cfg (match keypair with Some kp => kp | None => NO_KEYPAIR end) latestLedger networkPass entityTypes total
  end.

Definition validateConfig (cfg : Config) : res unit :=
  throw_if blank (contractId cfg) with "VITE_STELLAR_CONTRACT_ADDRESS is not set. Export the deployed SpooVault contract ID before starting the relayer."%string;;
  throw_if negb (startsWith "C" (contractId cfg)) || negb (String.length (contractId cfg) =? 56)%nat with
    ("VITE_STELLAR_CONTRACT_ADDRESS looks invalid: " ++ String "034" (contractId cfg) ++ String "034" ". Expected a 56-character C-strkey.")%string;;
  throw_if ttlThreshold cfg <=? 0 with "TTL_THRESHOLD must be a positive integer."%string;;
  throw_if maxTtl cfg <=? ttlThreshold cfg with "MAX_TTL must be greater than TTL_THRESHOLD."%string;;
  throw_if negb (blank (secretKey cfg)) && negb (startsWith "S" (secretKey cfg)) with
    "RELAYER_SECRET_KEY does not look like a valid Stellar secret key (expected S…)."%string;;
  Ok tt.

(** ** Every cycle ends *)

Lemma retry_error {A : Type} (fn : rpc W A) (d : Z) (n : nat) (e : thrown) (w w' : W) (e' : thrown) :
  (forall w e w', fn w = (inr e, w') -> e <> None) -> e <> None \/ n <> O -> retry fn d n e w = (inr e', w') -> e' <> None.
Proof.
  intros Hf. revert e w. induction n as [|n IH]; intros e w Hn H; cbn in H.
  - injection H as <- _. destruct Hn as [Hn|Hn]; [exact Hn|contradiction].
  - destruct (fn w) as [[a|err] w1] eqn:E; [discriminate|]. apply (IH err) in H; [exact H|]. left. exact (Hf _ _ _ E).
Qed.

(** What the server throws is an error with a message. *)
Record throws_errors : Prop := {
  entries_throw : forall k w e w', getLedgerEntries server k w = (inr e, w') -> e <> None;
  account_throws : forall a w e w', getAccount server a w = (inr e, w') -> e <> None;
  simulate_throws : forall t w e w', simulateTransaction server t w = (inr e, w') -> e <> None;
  send_throws : forall t w e w', sendTransaction server t w = (inr e, w') -> e <> None;
  get_throws : forall h w e w', getTransaction server h w = (inr e, w') -> e <> None
}.

Definition proper_errors {A : Type} (m : rpc W A) : Prop := forall w e w', m w = (inr e, w') -> e <> None.

Lemma proper_bind {A B : Type} (m : rpc W A) (k : A -> rpc W B) : proper_errors m -> (forall a, proper_errors (k a)) -> proper_errors (rbind m k).
Proof.
  intros Hm Hk w e w'. unfold rbind. destruct (m w) as [[a|x] w1] eqn:E; [apply Hk|]. intros [= <- <-]. exact (Hm _ _ _ E).
Qed.

Lemma proper_ret {A : Type} (a : A) : proper_errors (rret a).
Proof. now intros w e w'. Qed.

Lemma proper_throw {A : Type} (e : string) : proper_errors (@rthrow W A e).
Proof. intros w e' w' [= <- _]. discriminate. Qed.

Lemma proper_lift {A : Type} (r : res A) : proper_errors (@rlift W A r).
Proof. destruct r; [apply proper_ret|apply proper_throw]. Qed.

#[local] Hint Resolve proper_bind proper_ret proper_throw proper_lift : relayer.

Lemma proper_fetch (k : LedgerKey) : throws_errors -> proper_errors (fetchEntryTtl k).
Proof. intros H. unfold fetchEntryTtl. apply proper_bind; [intros w e w'; now apply entries_throw|auto with relayer]. Qed.

Lemma proper_poll (n : nat) (h : string) : throws_errors -> proper_errors (poll_status n h).
Proof.
  intros H. induction n as [|n IH]; cbn [poll_status]; [auto with relayer|]. apply proper_bind; [intros w e w'; now apply get_throws|].
  intros [| |]; auto with relayer. intros w e w'. apply IH.
Qed.

Lemma proper_submit (kp : Keypair) (c f : string) (args : list (list ScValue)) (pass : string) : throws_errors -> proper_errors (submitBatchTtlExtensionTx kp c f args pass).
Proof.
  intros H. unfold submitBatchTtlExtensionTx. apply proper_bind; [intros w e w'; now apply account_throws|]. intros _.
  apply proper_bind; [apply proper_lift|]. intros ops. cbv zeta.
  apply proper_bind; [intros w e w'; now apply simulate_throws|]. intros [data|]; [|auto with relayer].
  apply proper_bind; [apply proper_lift|]. intros preparedTx.
  apply proper_bind; [unfold sign; destruct (can_sign kp); auto with relayer|]. intros _.
  apply proper_bind; [intros w e w'; now apply send_throws|]. intros [|]; [now apply proper_poll|auto with relayer].
Qed.

Lemma proper_count (c k : string) : throws_errors -> proper_errors (queryEntityCount c k).
Proof.
  intros H. unfold queryEntityCount. apply proper_bind; [apply proper_lift|]. intros contract.
  destruct (has_instance server); cbn [negb]; [|auto with relayer].
  apply proper_bind; [intros w e w'; now apply entries_throw|auto with relayer].
Qed.

Lemma retry_proper {A : Type} (fn : rpc W A) (n d : Z) : 1 <= n -> proper_errors fn -> proper_errors (withRetry fn n d).
Proof. intros Hn Hf w e w' H. unfold withRetry in H. eapply retry_error; [exact Hf| |exact H]. right. lia. Qed.

Definition returns {A : Type} (m : rpc W A) (P : A -> Prop) : Prop := forall w, exists a w', m w = (inl a, w') /\ P a.

Lemma returns_logged {A : Type} (e : thrown) (k : rpc W A) (P : A -> Prop) : e <> None -> returns k P -> returns (logged e k) P.
Proof. destruct e; [now intros _|contradiction]. Qed.

(** What the scan finds on a server that answers every read, and that it ends on every server. *)
Section Found.
Variables (cfg : Config) (contract : string) (latest : Z).
Hypothesis Ht : throws_errors.
Hypothesis Hr : 1 <= maxRetries cfg.
Hypothesis Hc : Address server (contractId cfg) = Ok contract.

(** The server answers every read from a ledger. *)
Definition reads (ledger : LedgerKey -> list TtlEntry) : Prop :=
  forall k w, exists w', getLedgerEntries server k w = (inl (ledger k), w').

(** The entry under a key exists and expires within the threshold. *)
Definition expiring (ledger : LedgerKey -> list TtlEntry) (k : LedgerKey) : bool :=
  match ledger k with
  | [] => false
  | entry :: _ => match liveUntilLedgerSeq entry with Some n => n | None => 0 end - latest <? ttlThreshold cfg
  end.

Definition data_key (tag : string) (id : Z) : LedgerKey := mkKey contract (buildDataKeyScVal tag [scValU64 id]) persistent.

Lemma retry_first {A : Type} (fn : rpc W A) (d : Z) (a : A) (w w' : W) : fn w = (inl a, w') -> withRetry fn (maxRetries cfg) d w = (inl a, w').
Proof. intros E. unfold withRetry. destruct (Z.to_nat (maxRetries cfg)) as [|n] eqn:En; [lia|]. cbn. now rewrite E. Qed.

Lemma fetch_reads (ledger : LedgerKey -> list TtlEntry) (k : LedgerKey) (w : W) : reads ledger ->
  exists ttl w', withRetry (fetchEntryTtl k) (maxRetries cfg) (retryDelayMs cfg) w = (inl ttl, w')
    /\ match ttl with Some live => live - latest <? ttlThreshold cfg | None => false end = expiring ledger k
    /\ (ttl = None <-> ledger k = []).
Proof.
  intros Hl. destruct (Hl k w) as (w' & E). eexists. exists w'. split.
  - apply retry_first. unfold fetchEntryTtl, rbind. rewrite E. reflexivity.
  - unfold expiring. destruct (ledger k); split; try reflexivity; split; congruence.
Qed.

Lemma scan_ids_found (tag : string) (n : nat) (id : Z) (ids : list Z) (errs : Z) :
  returns (scan_ids cfg latest tag n id ids errs) (fun r => errs <= r.2 /\
    forall ledger, reads ledger ->
      r = (ids ++ List.filter (fun i => expiring ledger (data_key tag i)) (seqZ id (Z.of_nat n)), errs)).
Proof.
  revert id ids errs. induction n as [|n IH]; intros id ids errs w; cbn [scan_ids].
  - exists (ids, errs), w. split; [reflexivity|]. cbn. split; [lia|]. intros ledger _. now rewrite app_nil_r.
  - unfold entity_key, buildPersistentLedgerKey. rewrite Hc. cbn [res_bind rlift]. unfold rbind, rret.
    fold (data_key tag id).
    assert (Hs : seqZ id (Z.of_nat (S n)) = id :: seqZ (id + 1) (Z.of_nat n)).
    { rewrite seqZ_cons by lia. do 2 f_equal; lia. }
    rewrite Hs. cbn [List.filter].
    destruct (withRetry _ _ _ w) as [[ttl|e] w1] eqn:E.
    + set (due := match ttl with Some live => live - latest <? ttlThreshold cfg | None => false end).
      destruct (IH (id + 1) (if due then ids ++ [id] else ids) errs w1) as (r & w2 & Er & H & Hf).
      exists r, w2. split; [exact Er|]. split; [exact H|]. intros ledger Hl. rewrite (Hf ledger Hl).
      destruct (fetch_reads ledger (data_key tag id) w Hl) as (ttl' & w' & E' & Hd & _).
      rewrite E in E'. injection E' as <- _. fold due in Hd. rewrite <- Hd.
      destruct due; [now rewrite <- app_assoc|reflexivity].
    + destruct e as [e|]; [|now elim (retry_proper _ _ _ Hr (proper_fetch _ Ht) _ _ _ E)].
      destruct (IH (id + 1) ids (errs + 1) w1) as (r & w2 & Er & H & _). exists r, w2. split; [exact Er|]. split; [lia|].
      intros ledger Hl. destruct (fetch_reads ledger (data_key tag id) w Hl) as (ttl' & w' & E' & _). congruence.
Qed.
End Found.

(** Every id that is due ends in one of the counts. *)
Lemma bump_ids_counts (cfg : Config) (kp : Keypair) (pass f : string) (fuel : nat) (ids : list Z) (up errs : Z) :
  throws_errors -> 1 <= maxRetries cfg -> (length ids <= fuel)%nat ->
  returns (bump_ids cfg kp pass f fuel ids up errs) (fun r =>
    up <= r.1 /\ errs <= r.2 /\ r.1 + r.2 = up + errs + Z.of_nat (length ids)).
Proof.
  intros Ht Hr. revert ids up errs. induction fuel as [|fuel IH]; intros [|id ids] up errs Hf w; cbn [length] in Hf; try lia.
  - exists (up, errs), w. split; [reflexivity|]. cbn. lia.
  - exists (up, errs), w. split; [reflexivity|]. cbn. lia.
  - cbn [bump_ids]. set (l := id :: ids) in *. assert (Hlen : length l = (length (firstn BATCH_SIZE l) + length (skipn BATCH_SIZE l))%nat)
      by (rewrite <- length_app; now rewrite firstn_skipn).
    assert (Hs : (length (skipn BATCH_SIZE l) <= fuel)%nat) by (rewrite length_skipn; unfold l, BATCH_SIZE; cbn [length]; lia).
    destruct (bump_batch cfg kp pass f (firstn BATCH_SIZE l) w) as [[a|e] w1] eqn:E.
    + destruct (IH (skipn BATCH_SIZE l) (up + Z.of_nat (length (firstn BATCH_SIZE l))) errs Hs w1) as (r & w2 & Er & H). exists r, w2. split; [exact Er|]. lia.
    + destruct e as [e|]; [|now elim (retry_proper _ _ _ Hr (proper_submit _ _ _ _ _ Ht) _ _ _ E)].
      destruct (IH (skipn BATCH_SIZE l) up (errs + Z.of_nat (length (firstn BATCH_SIZE l))) Hs w1) as (r & w2 & Er & H). exists r, w2. split; [exact Er|]. lia.
Qed.

(** What a cycle should count on a ledger: the entries it looks at, and those that expire and that it
    has a key to extend. *)
Section Due.
Variables (cfg : Config) (contract : string) (latest : Z) (ledger : LedgerKey -> list TtlEntry).

Definition entity_count (counterKey : string) : Z :=
  match ledger (mkKey contract (buildDataKeyScVal counterKey []) instance) with
  | entry :: _ => match entry_val entry with Some (Some n) => n | _ => 0 end
  | [] => 0
  end.
Definition entity_limit (counterKey : string) : Z := Z.max 0 (Z.min (entity_count counterKey) (maxEntries cfg)).
Definition entity_due (kind : string * string * string) : Z :=
  Z.of_nat (length (List.filter (fun i => expiring cfg latest ledger (data_key contract kind.1.2 i)) (seqZ 1 (entity_limit kind.1.1)))).

(** Scanned entries, entries extended or failed, counters that could not be read. *)
Definition kind_report (kind : string * string * string) : Z * Z :=
  if has_instance server then (entity_limit kind.1.1, entity_due kind) else (0, 1).
Definition instance_report (signs : bool) : Z * Z :=
  let k := mkKey contract scvLedgerKeyContractInstance persistent in
  (match ledger k with [] => 0 | _ => 1 end, if expiring cfg latest ledger k && signs then 1 else 0).
Definition cycle_report (signs : bool) : Z * Z :=
  fold_left (fun r kind => (r.1 + (kind_report kind).1, r.2 + (kind_report kind).2)) entityTypes (instance_report signs).
End Due.

(** The counts agree with a report. *)
Definition accounted (c : Counts) (r : Z * Z) : Prop := 0 <= bumped c /\ 0 <= errors c /\ scanned c = r.1 /\ bumped c + errors c = r.2.

Section Cycle.
Variables (cfg : Config) (contract : string) (latest : Z) (pass : string).
Hypothesis Ht : throws_errors.
Hypothesis Hr : 1 <= maxRetries cfg.
Hypothesis Hc : Address server (contractId cfg) = Ok contract.

Lemma count_reads (ledger : LedgerKey -> list TtlEntry) (counterKey : string) (w : W) : reads ledger ->
  exists w', queryEntityCount (contractId cfg) counterKey w
             = (if has_instance server then inl (entity_count contract ledger counterKey)
                else inr (Some "xdr.ContractDataDurability.instance is not a function"%string), w').
Proof.
  intros Hl. unfold queryEntityCount. rewrite Hc. cbn [rlift]. unfold rbind, rret.
  destruct (has_instance server); cbn [negb]; [|now exists w].
  destruct (Hl (mkKey contract (buildDataKeyScVal counterKey []) instance) w) as (w' & ->). exists w'.
  unfold entity_count. now destruct (ledger _).
Qed.

Lemma scan_counts (kp : Keypair) (kind : string * string * string) :
  returns (scanAndBumpEntityType cfg kp latest pass kind.1.1 kind.1.2 kind.2) (fun c =>
    forall ledger, reads ledger -> accounted c (kind_report cfg contract latest ledger kind)).
Proof.
  intros w. unfold scanAndBumpEntityType. destruct (queryEntityCount _ kind.1.1 w) as [[count|e] w1] eqn:E.
  - destruct (scan_ids_found cfg contract latest Ht Hr Hc kind.1.2 (Z.to_nat (Z.min count (maxEntries cfg))) 1 [] 0 w1) as (found & w2 & E2 & H2 & Hf).
    destruct (bump_ids_counts cfg kp pass kind.2 (length found.1) found.1 0 found.2 Ht Hr (Nat.le_refl _) w2) as (done & w3 & E3 & H3).
    eexists. exists w3. unfold rbind. rewrite E2, E3. split; [reflexivity|]. intros ledger Hl.
    destruct (count_reads ledger kind.1.1 w Hl) as (w' & Ec). rewrite E in Ec.
    unfold accounted, kind_report. destruct (has_instance server); [|discriminate Ec]. injection Ec as -> _.
    specialize (Hf ledger Hl). subst found. cbn [fst snd app bumped errors scanned] in *.
    unfold entity_due. rewrite <- Z2Nat.id with (n := entity_limit cfg contract ledger kind.1.1) by (unfold entity_limit; lia).
    replace (Z.to_nat (entity_limit cfg contract ledger kind.1.1)) with (Z.to_nat (Z.min (entity_count contract ledger kind.1.1) (maxEntries cfg)))
      by (unfold entity_limit; lia). lia.
  - destruct e as [e|]; [|now elim (proper_count _ _ Ht _ _ _ E)]. eexists. exists w1. split; [reflexivity|].
    intros ledger Hl. destruct (count_reads ledger kind.1.1 w Hl) as (w' & Ec). rewrite E in Ec.
    unfold accounted, kind_report. destruct (has_instance server); [discriminate Ec|]. cbn. lia.
Qed.

Lemma instance_counts (kp : option Keypair) :
  returns (instance_step cfg kp latest pass) (fun c =>
    forall ledger, reads ledger -> accounted c (instance_report cfg contract latest ledger (match kp with Some _ => true | None => false end))).
Proof.
  intros w. unfold instance_step, buildContractInstanceLedgerKey. rewrite Hc. cbn [res_bind rlift]. unfold rbind, rret.
  set (k := mkKey contract scvLedgerKeyContractInstance persistent).
  assert (K : forall ttl w1 c, withRetry (fetchEntryTtl k) (maxRetries cfg) (retryDelayMs cfg) w = (inl ttl, w1) ->
    0 <= bumped c -> 0 <= errors c -> scanned c = match ttl with Some _ => 1 | None => 0 end ->
    bumped c + errors c = (if match ttl with Some live => live - latest <? ttlThreshold cfg | None => false end
                           then match kp with Some _ => 1 | None => 0 end else 0) ->
    forall ledger, reads ledger -> accounted c (instance_report cfg contract latest ledger (match kp with Some _ => true | None => false end))).
  { intros ttl w1 c E Hb He Hs Ha ledger Hl. destruct (fetch_reads cfg latest Hr ledger k w Hl) as (ttl' & w' & E' & Hd & Hn).
    rewrite E in E'. injection E' as <- _. unfold accounted, instance_report. fold k. rewrite <- Hd. cbn [fst snd].
    split; [exact Hb|]. split; [exact He|]. rewrite Hs, Ha. split.
    - destruct ttl; destruct (ledger k) eqn:El; try reflexivity; exfalso; [now discriminate (proj2 Hn eq_refl)|now discriminate (proj1 Hn eq_refl)].
    - generalize (match ttl with Some live => live - latest <? ttlThreshold cfg | None => false end).
      intros []; now destruct kp. }
  destruct (withRetry _ _ _ w) as [[[live|]|e] w1] eqn:E.
  - specialize (K (Some live) w1). destruct (live - latest <? ttlThreshold cfg); [destruct kp as [k'|]|].
    + destruct (withRetry (submitTtlExtensionTx k' _ _ _ _) _ _ w1) as [[h|e] w2] eqn:E2.
      * eexists. exists w2. split; [reflexivity|]. now apply K.
      * destruct e as [e|]; [|now elim (retry_proper _ _ _ Hr (proper_submit _ _ _ _ _ Ht) _ _ _ E2)].
        eexists. exists w2. split; [reflexivity|]. now apply K.
    + eexists. exists w1. split; [reflexivity|]. now apply K.
    + eexists. exists w1. split; [reflexivity|]. now apply K.
  - eexists. exists w1. split; [reflexivity|]. now apply (K None w1).
  - destruct e as [e|]; [|now elim (retry_proper _ _ _ Hr (proper_fetch _ Ht) _ _ _ E)]. eexists. exists w1. split; [reflexivity|].
    intros ledger Hl. destruct (fetch_reads cfg latest Hr ledger k w Hl) as (ttl & w' & E' & _). congruence.
Qed.

Lemma kinds_counts (kp : Keypair) (types : list (string * string * string)) (total : Counts) :
  returns (entity_steps cfg kp latest pass types total) (fun c => forall ledger r, reads ledger -> accounted total r ->
    accounted c (fold_left (fun r kind => (r.1 + (kind_report cfg contract latest ledger kind).1, r.2 + (kind_report cfg contract latest ledger kind).2)) types r)).
Proof.
  revert total. induction types as [|kind types IH]; intros total w; cbn [entity_steps]; [exists total, w; auto|].
  destruct (scan_counts kp kind w) as (c & w1 & E & H). destruct kind as [[ck tag] f]. cbn [fst snd] in *. unfold rbind. rewrite E.
  destruct (IH (add_counts total c) w1) as (c' & w2 & E' & H'). exists c', w2. split; [exact E'|].
  intros ledger r Hl Hr'. cbn [fold_left]. apply H'; [exact Hl|]. specialize (H ledger Hl). unfold accounted, add_counts in *. cbn. lia.
Qed.
End Cycle.


(** ** Batches *)

(** Soroban's rule: a transaction with more than one operation does not simulate. *)
Definition one_operation : Prop := forall tx w, (1 < length (tx_ops tx))%nat ->
  match simulateTransaction server tx w with (inl (SimulationOk _), _) => False | _ => True end.

Lemma operations_length (c f : string) (args : list (list ScValue)) (ops : list Op) :
  operations c f args = Ok ops -> length ops = length args.
Proof.
  revert ops. induction args as [|a args IH]; intros ops H; cbn in H; [now injection H as <-|].
  destruct (invokeContractFunction server c f a) as [op|]; [|discriminate H]. cbn in H.
  destruct (operations c f args) as [ops'|]; [|discriminate H]. cbn in H. injection H as <-. cbn. f_equal. now apply IH.
Qed.

Lemma submit_one (kp : Keypair) (c f : string) (args : list (list ScValue)) (pass : string) (w w' : W) (h : string) :
  one_operation -> submitBatchTtlExtensionTx kp c f args pass w = (inl h, w') -> (length args <= 1)%nat.
Proof.
  intros Ho H. destruct (Nat.le_gt_cases (length args) 1) as [|Hl]; [assumption|]. exfalso. unfold submitBatchTtlExtensionTx, rbind in H.
  destruct (getAccount server _ w) as [[[]|e] w1]; [|discriminate H].
  destruct (operations c f args) as [ops|e] eqn:Eo; [|discriminate H]. cbn [rlift] in H. unfold rret at 1 in H.
  pose proof (Ho (mkTx (publicKey kp) ops (or_else (Some pass) TESTNET)) w1) as Hs. cbn [tx_ops] in Hs.
  rewrite (operations_length _ _ _ _ Eo) in Hs. specialize (Hs Hl).
  destruct (simulateTransaction server _ w1) as [[[d|e]|e] w2]; [contradiction|discriminate H..].
Qed.

Lemma retry_some {A : Type} (fn : rpc W A) (d : Z) (n : nat) (e : thrown) (w w' : W) (a : A) :
  retry fn d n e w = (inl a, w') -> exists w0 w1, fn w0 = (inl a, w1).
Proof.
  revert e w. induction n as [|n IH]; intros e w H; cbn in H; [discriminate|]. destruct (fn w) as [[b|err] w1] eqn:E; [injection H as <- _; eauto|]. exact (IH _ _ H).
Qed.

Lemma bump_ids_one (cfg : Config) (kp : Keypair) (pass f : string) (fuel : nat) (ids : list Z) (up errs : Z) (w w' : W) (r : Z * Z) :
  one_operation -> bump_ids cfg kp pass f fuel ids up errs w = (inl r, w') -> r.1 <= up + 1.
Proof.
  intros Ho. revert ids up errs w. induction fuel as [|fuel IH]; intros [|id ids] up errs w H; cbn [bump_ids] in H; try discriminate H.
  1,2: injection H as <- _; cbn; lia.
  set (l := id :: ids) in *. destruct (bump_batch cfg kp pass f (firstn BATCH_SIZE l) w) as [[a|e] w1] eqn:E.
  - apply retry_some in E as (w2 & w3 & E). apply submit_one in E; [|exact Ho]. rewrite length_map, length_firstn in E.
    assert (ids = []) as -> by (destruct ids; [reflexivity|unfold l, BATCH_SIZE in E; cbn [length] in E; lia]).
    cbn in H. destruct fuel; injection H as <- _; cbn; lia.
  - destruct e as [e|]; [|discriminate H]. exact (IH _ _ _ _ H).
Qed.

Lemma scan_one (cfg : Config) (kp : Keypair) (latest : Z) (pass ck tag f : string) (w w' : W) (c : Counts) :
  one_operation -> scanAndBumpEntityType cfg kp latest pass ck tag f w = (inl c, w') -> bumped c <= 1.
Proof.
  intros Ho. unfold scanAndBumpEntityType, rbind. destruct (queryEntityCount _ ck w) as [[count|[e|]] w1]; [|intros [= <- _]; cbn; lia|discriminate].
  destruct (scan_ids _ _ _ _ _ _ _ w1) as [[found|e] w2]; [|discriminate]. destruct (bump_ids _ _ _ _ _ _ _ _ w2) as [[done|e] w3] eqn:E; [|discriminate].
  intros [= <- _]. cbn [bumped]. apply bump_ids_one in E; [lia|exact Ho].
Qed.

(** C37: Because the ids that are due are put fifty to a transaction, a server that keeps Soroban's
    rule of one operation refuses every batch of two or more: a cycle extends at most the
    contract's own entry and one entry of each kind, however many run out. *)
Theorem batches_refused (cfg : Config) (w w' : W) (c : Counts) : one_operation -> runRelayerCycle cfg w = (inl c, w') -> bumped c <= 4.
Proof.
  intros Ho. unfold runRelayerCycle. destruct (if blank (secretKey cfg) then _ else _) as [kp|]; [|discriminate]. unfold rbind.
  destruct (getLatestLedger server w) as [[latest|e] w1]; [|discriminate].
  destruct (instance_step cfg kp latest _ w1) as [[c0|e] w2] eqn:E0; [|discriminate].
  assert (H0 : bumped c0 <= 1).
  { unfold instance_step, rbind in E0.
    destruct (rlift (buildContractInstanceLedgerKey (contractId cfg)) w1) as [[k0|e] w0]; [|discriminate E0].
    destruct (withRetry _ _ _ w0) as [[[live|]|[e|]] w3]; try discriminate E0; [|now injection E0 as <- _..].
    destruct (if live - latest <? ttlThreshold cfg then kp else None) as [k|]; [|now injection E0 as <- _].
    destruct (withRetry _ _ _ w3) as [[h|[e|]] w4]; try discriminate E0; injection E0 as <- _; cbn; lia. }
  cbn [entity_steps entityTypes]. set (kp' := match kp with Some k => k | None => NO_KEYPAIR end). unfold rbind.
  destruct (scanAndBumpEntityType cfg kp' latest _ "VaultCount" _ _ w2) as [[c1|e] w3] eqn:E1; [|discriminate].
  destruct (scanAndBumpEntityType cfg kp' latest _ "DocCount" _ _ w3) as [[c2|e] w4] eqn:E2; [|discriminate].
  destruct (scanAndBumpEntityType cfg kp' latest _ "ReqCount" _ _ w4) as [[c3|e] w5] eqn:E3; [|discriminate].
  apply scan_one in E1, E2, E3; try exact Ho. intros [= <- _]. unfold add_counts. cbn [bumped]. lia.
Qed.
End Relayer.

(** ** Without a key *)

Definition with_send {W : Type} (send : Tx -> rpc W SendStatus) (s : Rpc W) : Rpc W :=
  mkRpc W (getLedgerEntries s) (getLatestLedger s) (getAccount s) (simulateTransaction s) send (getTransaction s) (sleep s) (fromSecret s) (has_instance s)
    (Address s) (invokeContractFunction s) (assembleTransaction s).

Section NoKey.
Context {W : Type}.
Variables (server : Rpc W) (send : Tx -> rpc W SendStatus).
Abbreviation other := (with_send send server).

Lemma retry_ext {A : Type} (fn fn' : rpc W A) (d : Z) (n : nat) (e : thrown) (w : W) : (forall w, fn' w = fn w) -> retry other fn' d n e w = retry server fn d n e w.
Proof. intros H. revert e w. induction n as [|n IH]; intros e w; [reflexivity|]. cbn. rewrite H. destruct (fn w) as [[a|err] w1]; [reflexivity|apply IH]. Qed.

Lemma submit_unsigned (c f : string) (args : list (list ScValue)) (pass : string) (w : W) :
  submitBatchTtlExtensionTx other NO_KEYPAIR c f args pass w = submitBatchTtlExtensionTx server NO_KEYPAIR c f args pass w
  /\ forall h w', submitBatchTtlExtensionTx server NO_KEYPAIR c f args pass w <> (inl h, w').
Proof.
  unfold submitBatchTtlExtensionTx, rbind. cbn [with_send getAccount simulateTransaction]. destruct (getAccount server _ w) as [[[]|e] w1]; [|now split].
  assert (Eo : operations other c f args = operations server c f args)
    by (induction args as [|a args IH]; [reflexivity|]; cbn [operations]; now rewrite IH).
  rewrite Eo. destruct (operations server c f args) as [ops|e]; [|now split]. cbn [rlift].
  change (rret ops w1) with (@inl (list Op) thrown ops, w1). cbv beta iota zeta.
  destruct (simulateTransaction server _ w1) as [[[d|e]|e] w2]; [|now split..].
  cbn [with_send assembleTransaction]. destruct (assembleTransaction server _ d) as [p|e]; now split.
Qed.

Lemma scan_ids_other (cfg : Config) (latest : Z) (tag : string) (n : nat) (id : Z) (ids : list Z) (errs : Z) (w : W) :
  scan_ids other cfg latest tag n id ids errs w = scan_ids server cfg latest tag n id ids errs w.
Proof.
  revert id ids errs w. induction n as [|n IH]; intros id ids errs w; [reflexivity|]. cbn [scan_ids].
  change (entity_key other cfg tag id) with (entity_key server cfg tag id). unfold rbind.
  destruct (entity_key server cfg tag id) as [k|e]; [|reflexivity]. cbn [rlift]. unfold rret, withRetry.
  rewrite (retry_ext (fetchEntryTtl server k)) by reflexivity.
  destruct (retry server _ _ _ _ w) as [[ttl|[e|]] w1]; [apply IH|apply IH|reflexivity].
Qed.

Lemma bump_ids_unsigned (cfg : Config) (pass f : string) (fuel : nat) (ids : list Z) (up errs : Z) (w : W) :
  bump_ids other cfg NO_KEYPAIR pass f fuel ids up errs w = bump_ids server cfg NO_KEYPAIR pass f fuel ids up errs w
  /\ forall r w', bump_ids server cfg NO_KEYPAIR pass f fuel ids up errs w = (inl r, w') -> r.1 = up.
Proof.
  revert ids up errs w. induction fuel as [|fuel IH]; intros [|id ids] up errs w; cbn [bump_ids]; try (split; [reflexivity|now intros r w' [= <- _]]).
  set (l := id :: ids). unfold bump_batch at 1 2 3, withRetry.
  rewrite (retry_ext (submitBatchTtlExtensionTx server NO_KEYPAIR (contractId cfg) f (map (fun id => [scValU64 id]) (firstn BATCH_SIZE l)) pass)) by (intros; apply submit_unsigned).
  destruct (retry server _ _ _ _ w) as [[h|[e|]] w1] eqn:E; [|apply IH|now split].
  apply retry_some in E as (w2 & w3 & E). exfalso. revert E. apply submit_unsigned.
Qed.

Lemma scan_unsigned (cfg : Config) (latest : Z) (pass ck tag f : string) (w : W) :
  scanAndBumpEntityType other cfg NO_KEYPAIR latest pass ck tag f w = scanAndBumpEntityType server cfg NO_KEYPAIR latest pass ck tag f w
  /\ forall c w', scanAndBumpEntityType server cfg NO_KEYPAIR latest pass ck tag f w = (inl c, w') -> bumped c = 0.
Proof.
  unfold scanAndBumpEntityType. change (queryEntityCount other) with (queryEntityCount server).
  destruct (queryEntityCount server _ ck w) as [[count|[e|]] w1]; [|split; [reflexivity|now intros c w' [= <- _]]|now split].
  unfold rbind. rewrite scan_ids_other. destruct (scan_ids server _ _ _ _ _ _ _ w1) as [[found|e] w2]; [|now split].
  destruct (bump_ids_unsigned cfg pass f (length found.1) found.1 0 found.2 w2) as [-> H].
  destruct (bump_ids server _ _ _ _ _ _ _ _ w2) as [[done|e] w3]; [|now split]. split; [reflexivity|]. intros c w' [= <- _]. cbn. exact (H done w3 eq_refl).
Qed.

(** Without a secret key the relayer sends nothing: a cycle does not depend on what sending
    would do, and extends no entry. *)
Theorem no_key_sends_nothing (cfg : Config) (w : W) : secretKey cfg = ""%string ->
  runRelayerCycle other cfg w = runRelayerCycle server cfg w
  /\ forall c w', runRelayerCycle server cfg w = (inl c, w') -> bumped c = 0.
Proof.
  intros Hk. unfold runRelayerCycle. rewrite Hk. cbn [blank String.eqb]. unfold rbind at 1 3 5. cbn [with_send getLatestLedger].
  destruct (getLatestLedger server w) as [[latest|e] w1]; [|now split]. unfold rbind at 1 2 3.
  assert (E : forall pass, instance_step other cfg None latest pass w1 = instance_step server cfg None latest pass w1
                           /\ forall c w', instance_step server cfg None latest pass w1 = (inl c, w') -> bumped c = 0).
  { intros pass. unfold instance_step, withRetry.
    change (buildContractInstanceLedgerKey other (contractId cfg)) with (buildContractInstanceLedgerKey server (contractId cfg)).
    unfold rbind. destruct (buildContractInstanceLedgerKey server (contractId cfg)) as [k|e]; [|now split]. cbn [rlift]. unfold rret.
    rewrite (retry_ext (fetchEntryTtl server k)) by reflexivity.
    destruct (retry server _ _ _ _ w1) as [[[live|]|[e|]] w2]; (split; [try reflexivity|intros c w']); try (intros [= <- _]; reflexivity); try discriminate;
      destruct (live - latest <? ttlThreshold cfg); try reflexivity; now intros [= <- _]. }
  destruct (E (or_else (Some (networkPassphrase cfg)) TESTNET)) as [-> H0].
  destruct (instance_step server cfg None latest _ w1) as [[c0|e] w2]; [|now split]. specialize (H0 c0 w2 eq_refl). clear E.
  assert (G : forall types total w, bumped total = 0 ->
    entity_steps other cfg NO_KEYPAIR latest (or_else (Some (networkPassphrase cfg)) TESTNET) types total w
    = entity_steps server cfg NO_KEYPAIR latest (or_else (Some (networkPassphrase cfg)) TESTNET) types total w
    /\ forall c w', entity_steps server cfg NO_KEYPAIR latest (or_else (Some (networkPassphrase cfg)) TESTNET) types total w = (inl c, w') -> bumped c = 0).
  { intros types. induction types as [|[[ck tag] f] types IH]; intros total w0 Ht; cbn [entity_steps]; [split; [reflexivity|now intros c w' [= <- _]]|].
    unfold rbind. destruct (scan_unsigned cfg latest (or_else (Some (networkPassphrase cfg)) TESTNET) ck tag f w0) as [-> H].
    destruct (scanAndBumpEntityType server _ _ _ _ _ _ _ w0) as [[c|e] w3]; [|now split]. apply IH. cbn. now rewrite Ht, (H c w3 eq_refl). }
  now apply G.
Qed.
End NoKey.

(** ** A small ledger for the examples *)

(** Three entries of each kind, those of the vaults and the requests due; the world is the list of
    transactions that were sent. *)
Definition demo_ledger (k : LedgerKey) : list TtlEntry :=
  [match k_durability k, k_key k with
   | instance, _ => mkEntry None (Some (Some 3))
   | persistent, scvVec (scvSymbol tag :: _) => mkEntry (Some (if String.eqb tag "Doc" then 90000 else 1005)) None
   | persistent, _ => mkEntry (Some 1005) None
   end].

Definition demo_id : string := "CAAAAAAAAAAAAAAAAAAAAAAAAAAAAAAAAAAAAAAAAAAAAAAAAAAAD2KM".

Definition demo_rpc : Rpc (list Tx) := mkRpc (list Tx)
  (fun k => rret (demo_ledger k))
  (rret 1000) (fun _ => rret tt)
  (fun tx => rret (if (length (tx_ops tx) <=? 1)%nat then SimulationOk "fee" else SimulationError "Transaction contains more than one operation"))
  (fun tx w => (inl (Sent "h"), tx :: w)) (fun _ => rret SUCCESS) (fun _ w => w) (fun _ => Ok "G"%string) true
  (fun a => if String.eqb a demo_id then Ok a else Throw ("Unsupported address type: " ++ a)%string)
  (fun c f args => if String.eqb c demo_id then Ok (mkOp c f args) else Throw ("Unsupported address type: " ++ c)%string)
  (fun tx _ => Ok tx).

Definition demo_config (secret : string) (retries : Z) : Config :=
  mkConfig demo_id secret 10000 3110400 10000 retries 5000 "".

Lemma demo_throws : throws_errors demo_rpc.
Proof. constructor; discriminate. Qed.

Lemma demo_one_operation : one_operation demo_rpc.
Proof. intros tx w H. cbn. destruct (Nat.leb_spec (length (tx_ops tx)) 1); [lia|exact I]. Qed.


(** A contract id that the validation accepts and the SDK does not know ends every cycle. *)
Definition misspelled : Config := mkConfig "CAAAAAAAAAAAAAAAAAAAAAAAAAAAAAAAAAAAAAAAAAAAAAAAAAAAAAAA" "S" 10000 3110400 10000 3 5000 "".

Example misspelled_id_ends_the_cycle : validateConfig misspelled = Ok tt
  /\ (runRelayerCycle demo_rpc misspelled []).1 = inr (Some "Unsupported address type: CAAAAAAAAAAAAAAAAAAAAAAAAAAAAAAAAAAAAAAAAAAAAAAAAAAAAAAA"%string).
Proof. split; vm_compute; reflexivity. Qed.

Lemma batches_refused_witness : bumped (mkCounts 10 1 6) <= 4.
Proof.
  apply (batches_refused demo_rpc (demo_config "S" 3) [] [mkTx "G" [mkOp demo_id "extend_contract_ttl" []] TESTNET] (mkCounts 10 1 6) demo_one_operation). vm_compute. reflexivity.
Defined.

Lemma no_key_sends_nothing_witness :
  runRelayerCycle (with_send (fun _ => rthrow "never") demo_rpc) (demo_config "" 3) [] = runRelayerCycle demo_rpc (demo_config "" 3) [].
Proof. exact (proj1 (no_key_sends_nothing demo_rpc (fun _ => rthrow "never") (demo_config "" 3) [] eq_refl)). Defined.

(** Without the key the six entries that are due are counted as errors. *)
Example no_key_counts_errors : runRelayerCycle demo_rpc (demo_config "" 3) [] = (inl (mkCounts 10 0 6), []).
Proof. vm_compute. reflexivity. Qed.

(** The SDK's durabilities are temporary and persistent: with them no entry is ever scanned. *)
Definition sdk_rpc : Rpc (list Tx) := mkRpc (list Tx) (getLedgerEntries demo_rpc) (getLatestLedger demo_rpc) (getAccount demo_rpc)
  (simulateTransaction demo_rpc) (sendTransaction demo_rpc) (getTransaction demo_rpc) (sleep demo_rpc) (fromSecret demo_rpc) false
  (Address demo_rpc) (invokeContractFunction demo_rpc) (assembleTransaction demo_rpc).

Example sdk_scans_nothing : (runRelayerCycle sdk_rpc (demo_config "S" 3) []).1 = inl (mkCounts 1 1 3).
Proof. vm_compute. reflexivity. Qed.
