(* ===== verification/ZkProof.v ===== *)
(** * ZkProof: zkProof.service.ts

    Public signals, proofs and their formats for the contracts.  snarkjs and the fetched
    verification key are arguments; without snarkjs the service makes and accepts
    placeholders. *)

From Stdlib Require Import Ascii String ZArith List Lia Bool.
Import ListNotations.
From S2P Require Import Prelude Bytes JsString Hex.

Open Scope string_scope.
Open Scope list_scope.
Open Scope Z_scope.

Record ZkProofInput : Type := mkInput { beneficiaryPrivateKey : Z; secretShare : Z; blindingFactor : Z; i_documentId : Z }.
Record ZkPublicSignals : Type := mkSignals { vaultRootCommitment : Z; nullifierHash : Z; documentId : Z }.
Record Groth16Proof : Type := mkProof { a : Z * Z; b : (Z * Z) * (Z * Z); c : Z * Z }.
Record FullProof : Type := mkFull { proof : Groth16Proof; publicSignals : ZkPublicSignals }.
Record ContractProofArgs : Type := mkArgs { arg_a : Z * Z; arg_b : (Z * Z) * (Z * Z); arg_c : Z * Z; inputs : list Z }.

Definition BN254_PRIME : Z := 21888242871839275222246405745257275088569664541156301506178335204.

(** ** Commitments and nullifiers *)

Definition domainTag (domain : string) : Z :=
  if String.eqb domain "spooVaultShareCommitment" then 0x73706f6f5661756c745f5368617265436f6d6d69746d656e74
  else if String.eqb domain "spooVaultNullifier" then 0x73706f6f5661756c745f4e756c6c6966696572 else 0.

(** [%] has the sign of the dividend. *)
Definition hash2_start (x y tag : Z) : Z := Z.rem (tag * x + y) BN254_PRIME.
Definition hash2_round (x y state : Z) : Z := Z.rem (state * state + x + y) BN254_PRIME.
Definition hash2 (x y : Z) (domain : string) : Z := Nat.iter 5 (hash2_round x y) (hash2_start x y (domainTag domain)).

Definition computeCommitment (secretShare blindingFactor : Z) : Z := hash2 secretShare blindingFactor "spooVaultShareCommitment".
Definition computeNullifierHash (beneficiaryPrivateKey documentId : Z) : Z := hash2 beneficiaryPrivateKey documentId "spooVaultNullifier".

Definition computePublicSignals (input : ZkProofInput) : ZkPublicSignals :=
  mkSignals (computeCommitment (secretShare input) (blindingFactor input))
    (computeNullifierHash (beneficiaryPrivateKey input) (i_documentId input)) (i_documentId input).

(** ** Proofs *)

(** What snarkjs gives back: the elements of a proof and the signals as decimal texts. *)
Record SnarkProof : Type := mkSnark { pi_a : list string; pi_b : list (list string); pi_c : list string }.

Record SnarkJs : Type := mkSnarkJs {
  fullProve : list (string * string) -> res (SnarkProof * list string);
  snark_verify : list string -> Groth16Proof -> res bool
}.

Definition wasmPath : string := "/circuits/build/BeneficiaryAccessProof_js/BeneficiaryAccessProof.wasm".
Definition zkeyPath : string := "/circuits/build/BeneficiaryAccessProof_final.zkey".

(** The module state, and the dynamic import: a module, or a failure that is remembered. *)
Record ZkModule : Type := mkModule { snarkjsModule : option SnarkJs; snarkjsLoadAttempted : bool }.
Definition loadSnarkjs (import : option SnarkJs) (m : ZkModule) : option SnarkJs * ZkModule :=
  match snarkjsModule m with
  | Some s => (Some s, m)
  | None =>
      if snarkjsLoadAttempted m then (None, m)
      else match import with
           | Some s => (Some s, mkModule (Some s) false)
           | None => (None, mkModule None true)
           end
  end.

Definition witness_inputs (input : ZkProofInput) : list (string * string) :=
  let publicSignals := computePublicSignals input in
  [("beneficiaryPrivateKey", num_str (beneficiaryPrivateKey input)); ("secretShare", num_str (secretShare input));
   ("blindingFactor", num_str (blindingFactor input)); ("vaultRootCommitment", num_str (vaultRootCommitment publicSignals));
   ("nullifierHash", num_str (nullifierHash publicSignals)); ("documentId", num_str (i_documentId input))].

(** [BigInt(l[i])]; undefined is refused. *)
Definition big_at (l : list string) (i : nat) : res Z :=
  match nth_error l i with Some s => BigInt_str s | None => Throw "Cannot convert undefined to a BigInt" end.
Definition row_at (l : list (list string)) (i : nat) : list string := nth i l [].

Definition read_proof (answer : SnarkProof * list string) : res FullProof :=
  let '(p, signals) := answer in
  let! a0 := big_at (pi_a p) 0 in let! a1 := big_at (pi_a p) 1 in
  let! b00 := big_at (row_at (pi_b p) 0) 0 in let! b01 := big_at (row_at (pi_b p) 0) 1 in
  let! b10 := big_at (row_at (pi_b p) 1) 0 in let! b11 := big_at (row_at (pi_b p) 1) 1 in
  let! c0 := big_at (pi_c p) 0 in let! c1 := big_at (pi_c p) 1 in
  let! s0 := big_at signals 0 in let! s1 := big_at signals 1 in let! s2 := big_at signals 2 in
  Ok (mkFull (mkProof (a0, a1) ((b00, b01), (b10, b11)) (c0, c1)) (mkSignals s0 s1 s2)).

Definition placeholder : Groth16Proof := mkProof (1, 2) ((3, 4), (5, 6)) (7, 8).

Definition generateProof (import : option SnarkJs) (input : ZkProofInput) (m : ZkModule) : res FullProof * ZkModule :=
  let '(snarkjs, m') := loadSnarkjs import m in
  (match snarkjs with
   | Some s => let! answer := fullProve s (witness_inputs input) in read_proof answer
   | None => Ok (mkFull placeholder (computePublicSignals input))
   end, m').

Definition withinField (n : Z) : bool := (0 <=? n) && (n <? BN254_PRIME).
Definition elements (p : Groth16Proof) : list Z :=
  [fst (a p); snd (a p); fst (fst (b p)); snd (fst (b p)); fst (snd (b p)); snd (snd (b p)); fst (c p); snd (c p)].

Definition verifyProofJs (import : option SnarkJs) (fullProof : FullProof) (m : ZkModule) : res bool * ZkModule :=
  let '(snarkjs, m') := loadSnarkjs import m in
  let s := publicSignals fullProof in
  (match snarkjs with
   | Some js => snark_verify js [num_str (vaultRootCommitment s); num_str (nullifierHash s); num_str (documentId s)] (proof fullProof)
   | None => Ok (if (vaultRootCommitment s =? 0) || (nullifierHash s =? 0) || (documentId s =? 0) then false
                 else forallb withinField (elements (proof fullProof)))
   end, m').

(** ** Formats *)

Definition toContractArgs (fullProof : FullProof) : ContractProofArgs :=
  let s := publicSignals fullProof in
  mkArgs (a (proof fullProof)) (b (proof fullProof)) (c (proof fullProof)) [vaultRootCommitment s; nullifierHash s; documentId s].

(** [hex.match(/.{2}/g)] drops a last digit that is alone. *)
Definition to32Bytes (n : Z) : list Z := hex_bytes (padStart 64 "0" (to_hex n)).

(** [out.set(bytes, offset)] in an array of [size] zeros: bytes beyond its end are refused. *)
Fixpoint place (parts : list (list Z)) (offset size : nat) : res (list Z) :=
  match parts with
  | [] => Ok []
  | p :: parts' =>
      throw_if (size <? offset + length p)%nat with "offset is out of bounds";;
      let! rest := place parts' (offset + 32)%nat size in
      Ok (firstn 32 p ++ rest)%list
  end.

Definition g1To64 (x y : Z) : res (list Z) := place [to32Bytes x; to32Bytes y] 0 64.
Definition g2To128 (x y : Z * Z) : res (list Z) := place [to32Bytes (snd x); to32Bytes (fst x); to32Bytes (snd y); to32Bytes (fst y)] 0 128.

Record SorobanArgs : Type := mkSoroban {
  proofA : list Z; proofB : list Z; proofC : list Z; s_commitment : list Z; s_nullifier : list Z; s_documentId : list Z
}.

Definition toSorobanArgs (fullProof : FullProof) : res SorobanArgs :=
  let p := proof fullProof in let s := publicSignals fullProof in
  let! pa := g1To64 (fst (a p)) (snd (a p)) in
  let! pb := g2To128 (fst (b p)) (snd (b p)) in
  let! pc := g1To64 (fst (c p)) (snd (c p)) in
  Ok (mkSoroban pa pb pc (to32Bytes (vaultRootCommitment s)) (to32Bytes (nullifierHash s)) (to32Bytes (documentId s))).

Definition assertNullifierNotSpent (nullifierHash : Z) (isSpent : Z -> res bool) : res unit :=
  let! spent := isSpent nullifierHash in
  throw_if spent with "NullifierAlreadyUsed: this proof has already been consumed";; Ok tt.

(** ** Collisions *)

Lemma rem_shift (u k : Z) : 0 <= u -> 0 <= k -> Z.rem (u + k * BN254_PRIME) BN254_PRIME = Z.rem u BN254_PRIME.
Proof. intros Hu Hk. rewrite !Z.rem_mod_nonneg by (unfold BN254_PRIME; nia). apply Z_mod_plus_full. Qed.

Lemma rem_bound (u : Z) : 0 <= u -> 0 <= Z.rem u BN254_PRIME < BN254_PRIME.
Proof. intros Hu. apply Z.rem_bound_pos; [exact Hu|reflexivity]. Qed.

Lemma hash2_shift (x y : Z) (domain : string) : 0 <= x -> 0 <= y -> hash2 (x + BN254_PRIME) y domain = hash2 x y domain.
Proof.
  intros Hx Hy. unfold hash2. set (tag := domainTag domain). assert (Ht : 0 <= tag) by (unfold tag, domainTag; repeat destruct (String.eqb _ _); lia).
  assert (E0 : hash2_start (x + BN254_PRIME) y tag = hash2_start x y tag).
  { unfold hash2_start. replace (tag * (x + BN254_PRIME) + y) with (tag * x + y + tag * BN254_PRIME) by ring. apply rem_shift; [nia|exact Ht]. }
  rewrite E0. assert (Hs : 0 <= hash2_start x y tag) by (apply rem_bound; nia). revert Hs. generalize (hash2_start x y tag) as s.
  assert (E1 : forall s, 0 <= s -> hash2_round (x + BN254_PRIME) y s = hash2_round x y s /\ 0 <= hash2_round x y s).
  { intros s Hs. unfold hash2_round. split; [|apply rem_bound; nia]. replace (s * s + (x + BN254_PRIME) + y) with (s * s + x + y + 1 * BN254_PRIME) by ring.
    apply rem_shift; [nia|lia]. }
  assert (G : forall n s, 0 <= s -> Nat.iter n (hash2_round (x + BN254_PRIME) y) s = Nat.iter n (hash2_round x y) s /\ 0 <= Nat.iter n (hash2_round x y) s).
  { intros n. induction n as [|n IH]; intros s Hs; [now split|]. rewrite !Nat.iter_succ. destruct (IH s Hs) as [-> Hn]. exact (E1 _ Hn). }
  intros s Hs. exact (proj1 (G 5%nat s Hs)).
Qed.

(** Nullifiers are not unique: the modulus has 65 digits and is even, so it is no prime of the
    curve, and every 254-bit key shares its nullifiers with the key that differs by it. *)
Theorem nullifier_collides (key documentId : Z) : 0 <= key -> 0 <= documentId ->
  computeNullifierHash (key + BN254_PRIME) documentId = computeNullifierHash key documentId /\ BN254_PRIME < 2 ^ 215 /\ BN254_PRIME mod 4 = 0.
Proof. intros Hk Hd. split; [unfold computeNullifierHash; apply hash2_shift; assumption|split; reflexivity]. Qed.

(** ** Placeholders *)

(** Without snarkjs every proof whose elements are below the modulus is accepted for any
    public signals that are not zero, so the generated placeholder is. *)
Theorem without_snarkjs_accepted (fullProof : FullProof) (m : ZkModule) : snarkjsModule m = None ->
  fst (verifyProofJs None fullProof m) = Ok true <->
  vaultRootCommitment (publicSignals fullProof) <> 0 /\ nullifierHash (publicSignals fullProof) <> 0 /\ documentId (publicSignals fullProof) <> 0
  /\ Forall (fun n => 0 <= n < BN254_PRIME) (elements (proof fullProof)).
Proof.
  intros Hm. unfold verifyProofJs, loadSnarkjs. rewrite Hm. set (s := publicSignals fullProof). set (l := elements (proof fullProof)).
  assert (Hf : forallb withinField l = true <-> Forall (fun n => 0 <= n < BN254_PRIME) l).
  { rewrite forallb_forall, Forall_forall. unfold withinField. split; intros H x Hx; specialize (H x Hx); lia. }
  destruct (snarkjsLoadAttempted m); cbn [fst];
    (destruct (Z.eqb_spec (vaultRootCommitment s) 0), (Z.eqb_spec (nullifierHash s) 0), (Z.eqb_spec (documentId s) 0); cbn [orb];
     rewrite <- ?Hf; (split; [intros H; try discriminate H; injection H as H; repeat split; assumption|intros (H1 & H2 & H3 & H4); try contradiction; now rewrite H4])).
Qed.

(** ** Formats *)

Definition word (n : Z) : Prop := 0 <= n < 2 ^ 256.

Lemma to32Bytes_value (n : Z) : word n -> length (to32Bytes n) = 32%nat /\ bytes_value (to32Bytes n) = n.
Proof.
  intros [H0 H1]. unfold to32Bytes. assert (Hl : String.length (padStart 64 "0" (to_hex n)) = (2 * 32)%nat).
  { rewrite padStart_length. pose proof (to_base_length 16 ltac:(lia) 64 n ltac:(lia)) as Hlen. cbn in Hlen. unfold to_hex. lia. }
  destruct (hex_bytes_value 32 _ Hl) as (_ & Hlen & Hv); [apply pad_to_base_digits; lia|]. split; [exact Hlen|].
  pose proof (parse_pad_to_base 16 ltac:(lia) 64 n H0) as Hp. fold (to_hex n) in Hp. unfold parse_digits in Hp.
  destruct (padStart 64 "0" (to_hex n)) eqn:E; [discriminate Hp|]. rewrite <- E in Hp, Hv. congruence.
Qed.

(** The contract's reading: words of 32 bytes, the imaginary part of a coordinate first. *)
Definition word_at (l : list Z) (i : nat) : Z := bytes_value (firstn 32 (skipn (32 * i) l)).
Definition read_soroban (s : SorobanArgs) : FullProof :=
  mkFull (mkProof (word_at (proofA s) 0, word_at (proofA s) 1)
            ((word_at (proofB s) 1, word_at (proofB s) 0), (word_at (proofB s) 3, word_at (proofB s) 2)) (word_at (proofC s) 0, word_at (proofC s) 1))
    (mkSignals (bytes_value (s_commitment s)) (bytes_value (s_nullifier s)) (bytes_value (s_documentId s))).

Lemma place_words (l : list Z) (k size : nat) : Forall word l -> (32 * (k + length l) <= size)%nat ->
  place (map to32Bytes l) (32 * k) size = Ok (concat (map to32Bytes l)).
Proof.
  intros H. revert k. induction H as [|n l Hn _ IH]; intros k Hk; [reflexivity|]. cbn [map place length] in *. destruct (to32Bytes_value n Hn) as [Hlen _].
  replace (size <? 32 * k + length (to32Bytes n))%nat with false by (symmetry; apply Nat.ltb_ge; lia). cbn [res_bind].
  replace (32 * k + 32)%nat with (32 * S k)%nat by lia. rewrite IH by lia. cbn [concat]. now rewrite <- Hlen, firstn_all.
Qed.

Lemma word_of_concat (l : list Z) (i : nat) (n : Z) : Forall word l -> nth_error l i = Some n -> word_at (concat (map to32Bytes l)) i = n.
Proof.
  intros H. revert i. induction H as [|m l Hm _ IH]; intros [|i] Hi; try discriminate Hi; destruct (to32Bytes_value m Hm) as [Hlen Hv]; unfold word_at; cbn [map concat].
  - injection Hi as <-. rewrite Nat.mul_0_r, skipn_O, firstn_app, Hlen, Nat.sub_diag, firstn_O, app_nil_r, <- Hlen, firstn_all. exact Hv.
  - rewrite skipn_app, Hlen. replace (32 * S i - 32)%nat with (32 * i)%nat by lia. rewrite skipn_all2 by (rewrite Hlen; lia). cbn [app]. now apply IH.
Qed.

(** The arguments for the Soroban contract keep the proof: numbers below 2^256 are written in
    words from which the contract reads the same proof and the same signals. *)
Theorem soroban_roundtrip (fullProof : FullProof) :
  let s := publicSignals fullProof in
  Forall word (elements (proof fullProof)) -> Forall word [vaultRootCommitment s; nullifierHash s; documentId s] ->
  exists args, toSorobanArgs fullProof = Ok args /\ read_soroban args = fullProof
    /\ length (proofA args) = 64%nat /\ length (proofB args) = 128%nat /\ length (proofC args) = 64%nat.
Proof.
  destruct fullProof as [[[a0 a1] [[b00 b01] [b10 b11]] [c0 c1]] [s0 s1 s2]]. intros s H Hs. unfold elements in H. cbn in H, Hs. clear s.
  repeat match goal with H : Forall _ (_ :: _) |- _ => inversion H; clear H; subst end.
  pose proof (place_words [a0; a1] 0 64 ltac:(auto) ltac:(cbn; lia)) as Ea. pose proof (place_words [b01; b00; b11; b10] 0 128 ltac:(auto) ltac:(cbn; lia)) as Eb.
  pose proof (place_words [c0; c1] 0 64 ltac:(auto) ltac:(cbn; lia)) as Ec.
  unfold toSorobanArgs, g1To64, g2To128. cbn [proof publicSignals a b c fst snd]. cbn [map] in Ea, Eb, Ec. rewrite Nat.mul_0_r in Ea, Eb, Ec. rewrite Ea, Eb, Ec.
  cbn [res_bind]. eexists. split; [reflexivity|].
  split.
  - unfold read_soroban. cbn [proofA proofB proofC s_commitment s_nullifier s_documentId].
    change [to32Bytes a0; to32Bytes a1] with (map to32Bytes [a0; a1]). change [to32Bytes c0; to32Bytes c1] with (map to32Bytes [c0; c1]).
    change [to32Bytes b01; to32Bytes b00; to32Bytes b11; to32Bytes b10] with (map to32Bytes [b01; b00; b11; b10]).
    rewrite (word_of_concat [a0; a1] 0 a0), (word_of_concat [a0; a1] 1 a1), (word_of_concat [c0; c1] 0 c0), (word_of_concat [c0; c1] 1 c1),
      (word_of_concat [b01; b00; b11; b10] 0 b01), (word_of_concat [b01; b00; b11; b10] 1 b00), (word_of_concat [b01; b00; b11; b10] 2 b11),
      (word_of_concat [b01; b00; b11; b10] 3 b10) by (first [reflexivity|auto]).
    now rewrite !(fun n H => proj2 (to32Bytes_value n H)) by assumption.
  - cbn [proofA proofB proofC concat]. rewrite ?app_nil_r, ?length_app, ?(fun n H => proj1 (to32Bytes_value n H)) by assumption. now repeat split.
Qed.

Definition demo_input : ZkProofInput := mkInput 12345 678 90 7.
Definition demo_proof : FullProof := mkFull placeholder (computePublicSignals demo_input).

Lemma nullifier_collides_witness : computeNullifierHash (12345 + BN254_PRIME) 7 = computeNullifierHash 12345 7.
Proof. refine (proj1 (nullifier_collides 12345 7 _ _)); discriminate. Defined.

Ltac in_range := repeat (apply Forall_cons; [split; [vm_compute; discriminate|vm_compute; reflexivity]|]); apply Forall_nil.

Lemma without_snarkjs_accepted_witness : fst (verifyProofJs None demo_proof (mkModule None true)) = Ok true.
Proof.
  apply (without_snarkjs_accepted demo_proof (mkModule None true) eq_refl).
  split; [vm_compute; discriminate|split; [vm_compute; discriminate|split; [vm_compute; discriminate|unfold elements; in_range]]].
Defined.

Lemma soroban_roundtrip_witness : exists args, toSorobanArgs demo_proof = Ok args /\ read_soroban args = demo_proof
  /\ length (proofA args) = 64%nat /\ length (proofB args) = 128%nat /\ length (proofC args) = 64%nat.
Proof. apply (soroban_roundtrip demo_proof); unfold elements, word; in_range. Defined.
