(* ===== verification/UserOp.v ===== *)
(** * UserOp: userOp.service.ts

    Operations of account abstraction for gasless approvals: their encoding, their hash, their
    signature and the calls of the bundler.  ethers and [fetch] are arguments. *)

From Stdlib Require Import Ascii String ZArith Lia Bool.
From stdpp Require Import base list gmap strings.
From S2P Require Import Prelude JsString JsonText KeyInbox.

Open Scope string_scope.
Open Scope list_scope.
Open Scope Z_scope.

(** [bigint | string | number] *)
Inductive Numeric : Type := Big (n : Z) | Num (n : Z) | Str (s : string).
Definition BigInt_of (x : Numeric) : res Z := match x with Big n | Num n => Ok n | Str s => BigInt_str s end.
Definition numeric_falsy (x : Numeric) : bool := match x with Big n | Num n => n =? 0 | Str s => blank s end.
(** [x || d] *)
Definition numeric_or (x : option Numeric) (d : Z) : Numeric :=
  match x with Some v => if numeric_falsy v then Big d else v | None => Big d end.

Record UserOperation : Type := mkOp {
  sender : string; nonce : Numeric; initCode : string; callData : string; callGasLimit : Numeric; verificationGasLimit : Numeric;
  preVerificationGas : Numeric; maxFeePerGas : Numeric; maxPriorityFeePerGas : Numeric; paymasterAndData : string; op_signature : string
}.

Record UserOperationOverrides : Type := mkOverrides {
  o_initCode : option string; o_callGasLimit : option Numeric; o_verificationGasLimit : option Numeric; o_preVerificationGas : option Numeric;
  o_maxFeePerGas : option Numeric; o_maxPriorityFeePerGas : option Numeric; o_paymasterAndData : option string
}.
Definition no_overrides : UserOperationOverrides := mkOverrides None None None None None None None.

Definition DEFAULT_VERIFICATION_GAS_LIMIT : Z := 150000.
Definition DEFAULT_CALL_GAS_LIMIT : Z := 200000.
Definition DEFAULT_PRE_VERIFICATION_GAS : Z := 50000.
Definition DEFAULT_MAX_FEE_PER_GAS : Z := 25000000000.
Definition DEFAULT_MAX_PRIORITY_FEE_PER_GAS : Z := 1500000000.

(** Values of the contract interface, with their types. *)
Inductive AbiValue : Type := Address (a : string) | Uint256 (n : Z) | Bytes32 (h : string) | AbiBytes (h : string) | AbiString (s : string).

(** What the service uses of ethers: texts of hexadecimal digits stand for bytes. *)
Class Ethers : Type := {
  getAddress : string -> res string;
  keccak256 : string -> res string;
  abi_encode : list AbiValue -> res string;
  encodeFunctionData : string -> list AbiValue -> res string;
  hex_concat : list string -> res string;
  toQuantity : Numeric -> res string
}.

Definition same_types (l l' : list AbiValue) : bool :=
  bool_decide (map (fun v => match v with Address _ => 0 | Uint256 _ => 1 | Bytes32 _ => 2 | AbiBytes _ => 3 | AbiString _ => 4 end) l
               = map (fun v => match v with Address _ => 0 | Uint256 _ => 1 | Bytes32 _ => 2 | AbiBytes _ => 3 | AbiString _ => 4 end) l').

(** Values as the service passes them: addresses that ethers has checked, and hashes. *)
Definition canonical {E : Ethers} (v : AbiValue) : Prop :=
  match v with Address a => exists x, getAddress x = Ok a | Bytes32 h => exists x, keccak256 x = Ok h | Uint256 _ => True | _ => False end.

(** The encoding of checked values of given types can be decoded, and is written in lower case. *)
Class EthersLaws (E : Ethers) : Prop := {
  encode_inj : forall l l' e, Forall canonical l -> Forall canonical l' -> same_types l l' = true ->
    abi_encode l = Ok e -> abi_encode l' = Ok e -> l = l';
  encode_lower : forall l e, abi_encode l = Ok e -> toLowerCase e = e
}.

Section UserOps.
Context {E : Ethers}.

(** ** Calls *)

Definition buildApproveAccessCallData (requestId : Z) (encryptedShare : option string) : res string :=
  if negb (blank (or_empty encryptedShare)) && negb (blank (trim (or_empty encryptedShare)))
  then encodeFunctionData "approveAccess(uint256,string)" [Uint256 requestId; AbiString (or_empty encryptedShare)]
  else encodeFunctionData "approveAccess(uint256)" [Uint256 requestId].

Definition buildAcceptGuardianInviteCallData (vaultId : Z) : res string := encodeFunctionData "acceptGuardianInvite" [Uint256 vaultId].

Definition buildAccountExecuteCallData (target : string) (value : Z) (innerCallData : string) : res string :=
  encodeFunctionData "execute" [Address target; Uint256 value; AbiBytes innerCallData].

Definition buildPaymasterAndData (paymasterAddress : string) (vaultId : option Z) : res string :=
  let! cleanAddress := getAddress paymasterAddress in
  match vaultId with
  | Some v => if 0 <? v then let! encodedVault := abi_encode [Uint256 v] in hex_concat [cleanAddress; encodedVault] else Ok cleanAddress
  | None => Ok cleanAddress
  end.

(** ** Packing and hashing *)

Definition packed_values (userOp : UserOperation) : res (list AbiValue) :=
  let! a := getAddress (sender userOp) in
  let! n := BigInt_of (nonce userOp) in
  let! i := keccak256 (or_else (Some (initCode userOp)) "0x") in
  let! c := keccak256 (or_else (Some (callData userOp)) "0x") in
  let! g1 := BigInt_of (callGasLimit userOp) in
  let! g2 := BigInt_of (verificationGasLimit userOp) in
  let! g3 := BigInt_of (preVerificationGas userOp) in
  let! f1 := BigInt_of (maxFeePerGas userOp) in
  let! f2 := BigInt_of (maxPriorityFeePerGas userOp) in
  let! p := keccak256 (or_else (Some (paymasterAndData userOp)) "0x") in
  Ok [Address a; Uint256 n; Bytes32 i; Bytes32 c; Uint256 g1; Uint256 g2; Uint256 g3; Uint256 f1; Uint256 f2; Bytes32 p].

Definition packUserOp (userOp : UserOperation) : res string := let! l := packed_values userOp in abi_encode l.

Definition getUserOpHash (userOp : UserOperation) (entryPointAddress : string) (chainId : Z) : res string :=
  let! packed := packUserOp userOp in
  let! packedHash := keccak256 packed in
  let! entryPoint := getAddress entryPointAddress in
  let! outer := abi_encode [Bytes32 packedHash; Address entryPoint; Uint256 chainId] in
  keccak256 outer.

Definition with_signature (userOp : UserOperation) (signature : string) : UserOperation :=
  mkOp (sender userOp) (nonce userOp) (initCode userOp) (callData userOp) (callGasLimit userOp) (verificationGasLimit userOp)
    (preVerificationGas userOp) (maxFeePerGas userOp) (maxPriorityFeePerGas userOp) (paymasterAndData userOp) signature.

(** [signMessage]: the signer's signature of the bytes of a hash, or its refusal. *)
Definition signUserOp (userOp : UserOperation) (signMessage : string -> res string) (entryPointAddress : string) (chainId : Z) : res UserOperation :=
  let! hash := getUserOpHash userOp entryPointAddress chainId in
  let! signature := signMessage hash in
  Ok (with_signature userOp signature).

(** ** Gasless operations *)

Definition buildGaslessUserOp (account target innerCallData paymasterAddress : string) (vaultId : option Z) (nonce : option Numeric)
    (overrides : UserOperationOverrides) : res UserOperation :=
  let! callData := buildAccountExecuteCallData target 0 innerCallData in
  let! paymasterAndData := buildPaymasterAndData paymasterAddress vaultId in
  let! cleanSender := getAddress account in
  Ok (mkOp cleanSender (match nonce with Some n => n | None => Big 0 end) (or_else (o_initCode overrides) "0x") callData
        (numeric_or (o_callGasLimit overrides) DEFAULT_CALL_GAS_LIMIT)
        (numeric_or (o_verificationGasLimit overrides) DEFAULT_VERIFICATION_GAS_LIMIT)
        (numeric_or (o_preVerificationGas overrides) DEFAULT_PRE_VERIFICATION_GAS)
        (numeric_or (o_maxFeePerGas overrides) DEFAULT_MAX_FEE_PER_GAS)
        (numeric_or (o_maxPriorityFeePerGas overrides) DEFAULT_MAX_PRIORITY_FEE_PER_GAS)
        (or_else (o_paymasterAndData overrides) paymasterAndData) "0x").

Definition buildGaslessApproveAccess (guardianAccount : string) (requestId : Z) (encryptedShare : option string)
    (paymasterAddress spooVaultAddress entryPointAddress : string) (chainId : Z) (signMessage : string -> res string)
    (vaultId : option Z) (nonce : option Numeric) (overrides : UserOperationOverrides) : res UserOperation :=
  let! innerCallData := buildApproveAccessCallData requestId encryptedShare in
  let! unsignedOp := buildGaslessUserOp guardianAccount spooVaultAddress innerCallData paymasterAddress vaultId nonce overrides in
  signUserOp unsignedOp signMessage entryPointAddress chainId.

Definition buildGaslessAcceptInvite (guardianAccount : string) (vaultId : Z) (paymasterAddress spooVaultAddress entryPointAddress : string)
    (chainId : Z) (signMessage : string -> res string) (nonce : option Numeric) (overrides : UserOperationOverrides) : res UserOperation :=
  let! innerCallData := buildAcceptGuardianInviteCallData vaultId in
  let! unsignedOp := buildGaslessUserOp guardianAccount spooVaultAddress innerCallData paymasterAddress (Some vaultId) nonce overrides in
  signUserOp unsignedOp signMessage entryPointAddress chainId.

(** ** The bundler *)

Definition formatUserOpForRpc (userOp : UserOperation) : res json :=
  let hex s := JStr (or_else (Some s) "0x") in
  let! a := getAddress (sender userOp) in
  let! n := toQuantity (nonce userOp) in
  let! g1 := toQuantity (callGasLimit userOp) in
  let! g2 := toQuantity (verificationGasLimit userOp) in
  let! g3 := toQuantity (preVerificationGas userOp) in
  let! f1 := toQuantity (maxFeePerGas userOp) in
  let! f2 := toQuantity (maxPriorityFeePerGas userOp) in
  Ok (JObj [("sender", JStr a); ("nonce", JStr n); ("initCode", hex (initCode userOp)); ("callData", hex (callData userOp));
            ("callGasLimit", JStr g1); ("verificationGasLimit", JStr g2); ("preVerificationGas", JStr g3); ("maxFeePerGas", JStr f1);
            ("maxPriorityFeePerGas", JStr f2); ("paymasterAndData", hex (paymasterAndData userOp)); ("signature", hex (op_signature userOp))]).

Definition rpc_payload (now : Z) (method : string) (params : list json) : json :=
  JObj [("jsonrpc", JStr "2.0"); ("id", JNum now); ("method", JStr method); ("params", JArr params)].

(** The answer: its status and the JSON of its body. *)
Definition bundler_result (status : nat) (answer : json) : res (option json) :=
  throw_if negb ((200 <=? status) && (status <=? 299))%nat with ("Bundler HTTP request failed with status " ++ num_str (Z.of_nat status))%string;;
  match answer with JNull => Throw "Cannot read properties of null (reading 'error')" | _ =>
  match get_prop "error" answer with
  | None | Some JNull | Some (JBool false) | Some (JNum 0) | Some (JStr "") => Ok (get_prop "result" answer)
  | Some e =>
      Throw ("Bundler RPC error: " ++ match get_prop "message" e with
                                      | None | Some JNull | Some (JBool false) | Some (JNum 0) | Some (JStr "") => json_text e
                                      | Some m => String_of m
                                      end)%string
  end end.

Section Bundler.
Context {W : Type}.
Variables (post : string -> json -> W -> ((nat * json) + string) * W) (now : W -> Z).

Definition ask_bundler (bundlerUrl method : string) (params : list json) : io W (option json) := fun w =>
  match post bundlerUrl (rpc_payload (now w) method params) w with
  | (inr e, w') => (Throw e, w')
  | (inl (status, answer), w') => (bundler_result status answer, w')
  end.

Definition sendUserOpToBundler (userOp : UserOperation) (entryPointAddress bundlerUrl : string) : io W (option json) := fun w =>
  match (let! rpcUserOp := formatUserOpForRpc userOp in let! entryPoint := getAddress entryPointAddress in Ok [rpcUserOp; JStr entryPoint]) with
  | Throw e => (Throw e, w)
  | Ok params => ask_bundler bundlerUrl "eth_sendUserOperation" params w
  end.

Definition getUserOperationReceipt (userOpHash bundlerUrl : string) : io W (option json) :=
  ask_bundler bundlerUrl "eth_getUserOperationReceipt" [JStr userOpHash].
End Bundler.

(** The paymaster adapter: both of its methods. *)
Definition getPaymasterData (paymasterAddress : string) (preVerification verification callGas : option Numeric) (vaultId : option Z)
    : res (string * Numeric * Numeric * Numeric) :=
  let! paymasterAndData := buildPaymasterAndData paymasterAddress vaultId in
  Ok (paymasterAndData, numeric_or preVerification DEFAULT_PRE_VERIFICATION_GAS, numeric_or verification DEFAULT_VERIFICATION_GAS_LIMIT,
      numeric_or callGas DEFAULT_CALL_GAS_LIMIT).

(** ** What a hash stands for *)

(** The bytes that a hash is taken of: a text of hexadecimal digits, whose case does not count. *)
Definition hashed (s : string) : string := toLowerCase (or_else (Some s) "0x").

(** What the signer agrees to: the fields of an operation as they are hashed. *)
Definition meaning (userOp : UserOperation) : res string * res Z * string * string * list (res Z) * string :=
  (getAddress (sender userOp), BigInt_of (nonce userOp), hashed (initCode userOp), hashed (callData userOp),
   map BigInt_of [callGasLimit userOp; verificationGasLimit userOp; preVerificationGas userOp; maxFeePerGas userOp; maxPriorityFeePerGas userOp],
   hashed (paymasterAndData userOp)).

(** The texts that are hashed on the way to the hash of an operation. *)
Definition preimages (userOp : UserOperation) (entryPointAddress : string) (chainId : Z) : list string :=
  [or_else (Some (initCode userOp)) "0x"; or_else (Some (callData userOp)) "0x"; or_else (Some (paymasterAndData userOp)) "0x"]
  ++ match packUserOp userOp with
     | Ok packed => packed :: match keccak256 packed, getAddress entryPointAddress with
                              | Ok h, Ok a => match abi_encode [Bytes32 h; Address a; Uint256 chainId] with Ok outer => [outer] | _ => [] end
                              | _, _ => []
                              end
     | _ => []
     end.

Definition no_collision (l : list string) : Prop :=
  forall x y h, x ∈ l -> y ∈ l -> keccak256 x = Ok h -> keccak256 y = Ok h -> toLowerCase x = toLowerCase y.

(** ** Theorems *)

Lemma packed_canonical (op : UserOperation) (l : list AbiValue) : packed_values op = Ok l -> Forall canonical l.
Proof. unfold packed_values. intros H. res_inv H. injection H as <-. repeat constructor; eexists; eassumption. Qed.

Lemma packed_types (op op' : UserOperation) (l l' : list AbiValue) :
  packed_values op = Ok l -> packed_values op' = Ok l' -> same_types l l' = true.
Proof. unfold packed_values. intros H H'. res_inv H. res_inv H'. simplify_eq. reflexivity. Qed.

(** The hash of an operation does not read its signature. *)
Lemma hash_signature (op : UserOperation) (signature ep : string) (chain : Z) :
  getUserOpHash (with_signature op signature) ep chain = getUserOpHash op ep chain.
Proof. reflexivity. Qed.

Lemma packed_meaning (op op' : UserOperation) (l : list AbiValue) (texts : list string) :
  no_collision texts -> packed_values op = Ok l -> packed_values op' = Ok l ->
  (forall o, o = op \/ o = op' -> forall f, f = initCode \/ f = callData \/ f = paymasterAndData -> or_else (Some (f o)) "0x" ∈ texts) ->
  meaning op = meaning op'.
Proof.
  intros NC H H' I. unfold packed_values in *. res_inv H. res_inv H'. unfold meaning, hashed. simplify_eq.
  cbn [map]. repeat match goal with E : BigInt_of (_ ?o) = Ok _ |- _ => rewrite E; clear E end.
  repeat match goal with E : getAddress _ = Ok _ |- _ => rewrite E; clear E end.
  assert (S : forall f, f = initCode \/ f = callData \/ f = paymasterAndData -> forall h,
    keccak256 (or_else (Some (f op)) "0x") = Ok h -> keccak256 (or_else (Some (f op')) "0x") = Ok h ->
    toLowerCase (or_else (Some (f op)) "0x") = toLowerCase (or_else (Some (f op')) "0x")).
  { intros f F h K K'. apply (NC _ _ h); auto. }
  erewrite (S initCode), (S callData), (S paymasterAndData) by eauto. reflexivity.
Qed.

(** The texts on the way, and the last of them, whose hash is the operation's. *)
Lemma hash_preimages (op : UserOperation) (ep : string) (chain : Z) (h : string) :
  getUserOpHash op ep chain = Ok h -> exists l packed ph a outer,
    packed_values op = Ok l /\ abi_encode l = Ok packed /\ keccak256 packed = Ok ph /\ getAddress ep = Ok a
    /\ abi_encode [Bytes32 ph; Address a; Uint256 chain] = Ok outer /\ keccak256 outer = Ok h
    /\ preimages op ep chain = [or_else (Some (initCode op)) "0x"; or_else (Some (callData op)) "0x"; or_else (Some (paymasterAndData op)) "0x"]
                               ++ [packed; outer].
Proof.
  unfold getUserOpHash, packUserOp, preimages. intros H. res_inv H. res_inv E0.
  do 5 eexists. repeat split; try eassumption.
  unfold packUserOp. rewrite E4. cbn [res_bind]. now rewrite E0, E1, E2, E3.
Qed.

(** C26: Two operations that hash to one value at an entry point and a chain are one operation at
    one entry point and one chain, when no two texts that were hashed collide. *)
Theorem userop_hash_binds {EL : EthersLaws E} (op op' : UserOperation) (ep ep' : string) (chain chain' : Z) (h : string)
    (H : getUserOpHash op ep chain = Ok h) (H' : getUserOpHash op' ep' chain' = Ok h)
    (NC : no_collision (preimages op ep chain ++ preimages op' ep' chain')) :
  meaning op = meaning op' /\ getAddress ep = getAddress ep' /\ chain = chain'.
Proof.
  apply hash_preimages in H as (l & p & ph & a & o & P & A & K & G & O & KO & I).
  apply hash_preimages in H' as (l' & p' & ph' & a' & o' & P' & A' & K' & G' & O' & KO' & I').
  rewrite I, I' in NC.
  assert (o = o') as <-.
  { rewrite <- (encode_lower _ _ O), <- (encode_lower _ _ O'). apply (NC _ _ h); [set_solver|set_solver|assumption|assumption]. }
  assert ([Bytes32 ph; Address a; Uint256 chain] = [Bytes32 ph'; Address a'; Uint256 chain']) as [= <- <- <-].
  { eapply encode_inj; [| |reflexivity|eassumption|eassumption]; repeat constructor; eexists; eassumption. }
  assert (p = p') as <-.
  { rewrite <- (encode_lower _ _ A), <- (encode_lower _ _ A'). apply (NC _ _ ph); [set_solver|set_solver|assumption|assumption]. }
  assert (l = l') as <- by (eapply encode_inj; eauto using packed_canonical, packed_types).
  split; [|split; [congruence|reflexivity]].
  eapply packed_meaning; [exact NC|eassumption|eassumption|].
  intros x [->| ->] f [->|[->| ->]]; set_solver.
Qed.

(** What a guardian's approval carries: the call of the vault's [approveAccess] by its account,
    without value, signed over the hash that the finished operation has. *)
Theorem gasless_approval_signed (account : string) (requestId : Z) (share : option string) (paymaster vault ep : string) (chain : Z)
    (signMessage : string -> res string) (vaultId : option Z) (n : option Numeric) (over : UserOperationOverrides) (op : UserOperation)
    (H : buildGaslessApproveAccess account requestId share paymaster vault ep chain signMessage vaultId n over = Ok op) :
  (exists hash, getUserOpHash op ep chain = Ok hash /\ signMessage hash = Ok (op_signature op))
  /\ (exists inner, buildApproveAccessCallData requestId share = Ok inner
                    /\ encodeFunctionData "execute" [Address vault; Uint256 0; AbiBytes inner] = Ok (callData op))
  /\ getAddress account = Ok (sender op).
Proof.
  unfold buildGaslessApproveAccess, signUserOp in H. res_inv H. injection H as <-.
  unfold buildGaslessUserOp, buildAccountExecuteCallData in E1. res_inv E1. injection E1 as <-.
  split; [|split; [exists a|]; [split|]; assumption].
  exists a1. split; [exact E2|exact E3].
Qed.

(** A fee set to zero is not taken: the default replaces it. *)
Theorem zero_fee_replaced (account target inner paymaster : string) (vaultId : option Z) (n : option Numeric) (over : UserOperationOverrides)
    (op : UserOperation) (Z0 : o_maxPriorityFeePerGas over = Some (Big 0))
    (H : buildGaslessUserOp account target inner paymaster vaultId n over = Ok op) :
  maxPriorityFeePerGas op = Big DEFAULT_MAX_PRIORITY_FEE_PER_GAS.
Proof. unfold buildGaslessUserOp in H. res_inv H. injection H as <-. cbn. now rewrite Z0. Qed.

(** An operation that cannot be written for the bundler is not sent. *)
Lemma unsent {W : Type} (post : string -> json -> W -> ((nat * json) + string) * W) (now : W -> Z) (op : UserOperation) (ep url : string) (w : W) (e : string) :
  formatUserOpForRpc op = Throw e -> sendUserOpToBundler post now op ep url w = (Throw e, w).
Proof. unfold sendUserOpToBundler. now intros ->. Qed.
End UserOps.

(** ** An instance *)

Section Toy.
Definition toy_sum (v : AbiValue) : string + (Z + (string + (string + string))) :=
  match v with Address a => inl a | Uint256 n => inr (inl n) | Bytes32 h => inr (inr (inl h)) | AbiBytes h => inr (inr (inr (inl h)))
  | AbiString s => inr (inr (inr (inr s))) end.
Fixpoint bits (p : positive) : string :=
  match p with xH => "1" | xO q => String "0" (bits q) | xI q => String "1" (bits q) end.
Definition toy_encode (l : list AbiValue) : string := bits (encode (map toy_sum l)).

Lemma bits_inj (p q : positive) : bits p = bits q -> p = q.
Proof.
  revert q. induction p as [p IH|p IH|]; intros [q|q|] H; cbn in H; try discriminate; try reflexivity; injection H as H;
    first [f_equal; now apply IH|destruct p; discriminate|destruct q; discriminate].
Qed.

Lemma bits_lower (p : positive) : toLowerCase (bits p) = bits p.
Proof. induction p as [p IH|p IH|]; cbn [bits toLowerCase]; now rewrite ?IH. Qed.

Lemma toy_sum_inj (v v' : AbiValue) : toy_sum v = toy_sum v' -> v = v'.
Proof. destruct v, v'; now intros [= <-]. Qed.

Lemma toy_encode_inj (l l' : list AbiValue) : toy_encode l = toy_encode l' -> l = l'.
Proof.
  unfold toy_encode. intros H. apply bits_inj, (inj encode) in H. revert l' H. induction l as [|v l IH]; intros [|v' l']; try discriminate; [reflexivity|].
  intros [= E H]. f_equal; auto using toy_sum_inj.
Qed.
End Toy.

Definition toy (hash : string -> string) (enc : list AbiValue -> string) : Ethers := {|
  getAddress s := if blank s then Throw "invalid address" else Ok s;
  keccak256 s := Ok (hash s);
  abi_encode l := Ok (enc l);
  encodeFunctionData f l := Ok f;
  hex_concat l := Ok (join "" l);
  toQuantity n := let! z := BigInt_of n in Ok (num_str z)
|}.

#[local] Instance toy_ethers : Ethers := toy toLowerCase toy_encode.

#[local] Instance toy_ethers_laws : EthersLaws toy_ethers.
Proof.
  split.
  - intros l l' e _ _ _ [= <-] [= H]. now apply toy_encode_inj.
  - intros l e [= <-]. apply bits_lower.
Qed.

Definition demo_sign (hash : string) : res string := Ok "0x51".
Definition demo_op : UserOperation := mkOp "a" (Num 1) "" "0xAB" (Big 2) (Big 3) (Big 4) (Str "5") (Big 6) "0x" "0x".
Definition demo_op' : UserOperation := mkOp "a" (Str "1") "0x" "0xab" (Big 2) (Num 3) (Big 4) (Big 5) (Big 6) "" "0x51".

Lemma userop_hash_binds_witness : exists h, getUserOpHash demo_op "e" 43113 = Ok h
  /\ meaning demo_op = meaning demo_op' /\ getAddress "e" = getAddress "e" /\ 43113 = 43113.
Proof.
  eexists. split; [vm_compute; reflexivity|].
  eapply (userop_hash_binds demo_op demo_op' "e" "e" 43113 43113); [reflexivity|vm_compute; reflexivity|].
  intros x y h _ _ [= <-] [= ->]. reflexivity.
Defined.

Definition short : Ethers := toy (fun _ => "0x01") (fun _ => "0x02").
Definition demo_overrides : UserOperationOverrides := mkOverrides None None None None None (Some (Big 0)) None.

Lemma gasless_approval_signed_witness : exists op, @buildGaslessApproveAccess short "g" 7 (Some "share") "p" "v" "e" 1 demo_sign (Some 3) None no_overrides = Ok op
  /\ @getAddress short "g" = Ok (sender op).
Proof.
  eexists. split; [vm_compute; reflexivity|].
  eapply (@gasless_approval_signed short "g" 7 (Some "share") "p" "v" "e" 1 demo_sign (Some 3) None no_overrides). vm_compute. reflexivity.
Defined.

Lemma zero_fee_replaced_witness : exists op, @buildGaslessUserOp short "g" "v" "0x" "p" None None demo_overrides = Ok op
  /\ maxPriorityFeePerGas op = Big DEFAULT_MAX_PRIORITY_FEE_PER_GAS.
Proof.
  eexists. split; [vm_compute; reflexivity|].
  eapply (@zero_fee_replaced short "g" "v" "0x" "p" None None demo_overrides); [reflexivity|vm_compute; reflexivity].
Defined.
