(* ===== verification/EventLogs.v ===== *)
(** * EventLogs: the event logs of contract.service.ts and their cache

    [getEventLogs] reads the logs of an event from the providers, chunk by chunk, after
    those that the storage of the page kept.  The encoding of topics and the decoding of
    logs are those of ethers.  A record of the cache whose members have other types, which
    only other code could write, is dropped. *)

From Stdlib Require Import Ascii String ZArith Lia Bool Permutation.
From stdpp Require Import base list gmap strings sorting.
From S2P Require Import Prelude JsString JsonText TtlCache KeyInbox JsonParse KeyStore EvmClient.

Open Scope list_scope.
Open Scope Z_scope.

Definition EVENT_LOG_CACHE_PREFIX : string := "spoovault-event-log-cache".
Definition EVENT_LOG_CACHE_VERSION : Z := 1.

(** A filter of an indexed argument. *)
Inductive FilterValue : Type := F_null | F_text (s : string) | F_number (n : Z) | F_bigint (n : Z).
Inductive FilterArg : Type := One (v : FilterValue) | AnyOf (l : list FilterValue).
Record EventLogQueryOptions : Type := mkQuery { tail : option Z; filters : option (list FilterArg) }.

Definition normalizeFilterValue (v : FilterValue) : FilterValue := match v with F_number n => F_bigint n | _ => v end.
Definition normalizeFilterValues (filters : option (list FilterArg)) : option (list FilterArg) :=
  match filters with
  | None => None
  | Some l => Some (map (fun a => match a with
                                  | One v => One (normalizeFilterValue v)
                                  | AnyOf vs => AnyOf (map normalizeFilterValue vs)
                                  end) l)
  end.

(** ** The cache *)

Definition toCacheRecord (log : Log) : json :=
  JObj [("address", JStr (address log)); ("blockHash", JStr (blockHash log)); ("blockNumber", JNum (blockNumber log));
        ("data", JStr (log_data log)); ("index", JNum (index log)); ("removed", JBool (removed log));
        ("topics", JArr (map JStr (topics log))); ("transactionHash", JStr (transactionHash log));
        ("transactionIndex", JNum (transactionIndex log))].

Definition as_num (v : option json) : option Z := match v with Some (JNum n) => Some n | _ => None end.
Definition as_bool (v : option json) : option bool := match v with Some (JBool b) => Some b | _ => None end.
Definition as_texts (v : option json) : option (list string) :=
  match v with Some (JArr l) => mapM (fun x => as_str (Some x)) l | _ => None end.

Definition fromCacheRecord (record : json) : option Log :=
  a ← as_str (get_prop "address" record); bh ← as_str (get_prop "blockHash" record); b ← as_num (get_prop "blockNumber" record);
  d ← as_str (get_prop "data" record); i ← as_num (get_prop "index" record); r ← as_bool (get_prop "removed" record);
  t ← as_texts (get_prop "topics" record); th ← as_str (get_prop "transactionHash" record);
  ti ← as_num (get_prop "transactionIndex" record);
  Some (mkLog a bh b d i r t th ti).

(** ** Order *)

Definition log_le (a b : Log) : Prop := blockNumber a < blockNumber b \/ (blockNumber a = blockNumber b /\ index a <= index b).
#[export] Instance log_le_dec (a b : Log) : Decision (log_le a b) := _.

Definition sortLogsAscending (logs : list Log) : list Log := merge_sort log_le logs.

(** [l.slice(-n)] *)
Definition last_n {A : Type} (n : Z) (l : list A) : list A := drop (length l - Z.to_nat n) l.

Section Query.
Context {N : Type}.
Variables (env : Settings) (parseLog : Log -> res (option Event)).
(** [iface.getEvent(name)]: throws, or finds the event or not; the topics of its filters. *)
Variables (getEvent : string -> res bool) (encodeFilterTopics : string -> list FilterArg -> json).

Abbreviation M := (cio N).

(** [JSON.stringify(topics)] *)
Definition toFilterKey (topics : json) : string := stringify_with 0 topics.

Definition getEventLogCacheKey (eventName contractAddress filterKey : string) : string :=
  join ":" [EVENT_LOG_CACHE_PREFIX; num_str EVENT_LOG_CACHE_VERSION; num_str (getConfiguredChainId env);
            toLowerCase contractAddress; eventName; if blank filterKey then "all"%string else filterKey].

(** The checks of what was parsed; [None] also when one of them throws. *)
Definition cache_payload (eventName contractAddress filterKey : string) (parsed : json) : option (option Z * list Log) :=
  match as_num (get_prop "version" parsed), as_num (get_prop "chainId" parsed), as_str (get_prop "contractAddress" parsed),
        as_str (get_prop "eventName" parsed), get_prop "logs" parsed with
  | Some v, Some ch, Some a, Some n, Some (JArr logs) =>
      if (v =? EVENT_LOG_CACHE_VERSION) && (ch =? getConfiguredChainId env)
         && String.eqb (toLowerCase a) (toLowerCase contractAddress) && String.eqb n eventName
         && (blank filterKey || bool_decide (as_str (get_prop "filterKey" parsed) = Some filterKey))
      then Some (as_num (get_prop "lastSyncedBlock" parsed), omap fromCacheRecord logs)
      else None
  | _, _, _, _, _ => None
  end.

Definition readEventLogCache (eventName contractAddress filterKey : string) (c : Client N) : option (option Z * list Log) :=
  match localStorage c with
  | None => None
  | Some s =>
      match getItem s (getEventLogCacheKey eventName contractAddress filterKey) with
      | None | Some None | Some (Some EmptyString) => None
      | Some (Some raw) =>
          match json_parse raw with
          | Ok parsed => cache_payload eventName contractAddress filterKey parsed
          | Throw _ => None
          end
      end
  end.

Definition cache_value (eventName contractAddress filterKey : string) (lastSyncedBlock : Z) (logs : list Log) : json :=
  JObj [("version", JNum EVENT_LOG_CACHE_VERSION); ("chainId", JNum (getConfiguredChainId env));
        ("contractAddress", JStr (toLowerCase contractAddress)); ("eventName", JStr eventName); ("filterKey", JStr filterKey);
        ("lastSyncedBlock", JNum lastSyncedBlock); ("logs", JArr (map toCacheRecord logs))].

Definition writeEventLogCache (eventName contractAddress filterKey : string) (lastSyncedBlock : Z) (logs : list Log) : M unit :=
  do! storage <- gets localStorage in
  match storage with
  | None => cret tt
  | Some s =>
      match setItem s (getEventLogCacheKey eventName contractAddress filterKey)
              (stringify_with 0 (cache_value eventName contractAddress filterKey lastSyncedBlock logs)) with
      | Some s' => set_storage (Some s')
      | None => cret tt
      end
  end.

(** ** The query *)

(** The chunks from [current] on. *)
Fixpoint fetch_chunks (fuel : nat) (p : Provider N) (contractAddress : string) (topics : json) (size current toBlock : Z) : M (list Log) :=
  match fuel with
  | O => cret []
  | S fuel' =>
      if toBlock <? current then cret []
      else
        do! chunk <- on_net (getLogs p (mkFilter contractAddress current (Z.min (current + size - 1) toBlock) topics)) in
        do! rest <- fetch_chunks fuel' p contractAddress topics size (current + size) toBlock in
        cret (chunk ++ rest)
  end.

(** One provider: its head, the usable part of the cache, and the blocks after it. *)
Definition sync_with (eventName contractAddress : string) (topics : json) (filterKey : string) (from : Z)
    (lastSynced : option Z) (cachedLogs : list Log) (p : Provider N) : M (list Log) :=
  do! toBlock <- on_net (getBlockNumber p) in
  let startBlock := Z.min from toBlock in
  let usable := match lastSynced with
                | Some last => if (startBlock <=? last) && (last <=? toBlock) && negb (bool_decide (cachedLogs = []))
                               then Some last else None
                | None => None
                end in
  let incrementalStart := match usable with Some last => Z.max startBlock (last + 1) | None => startBlock end in
  do! fetched <- fetch_chunks (Z.to_nat (toBlock - incrementalStart + 1)) p contractAddress topics (getLogChunkSize env)
                   incrementalStart toBlock in
  let logs := sortLogsAscending ((match usable with Some _ => cachedLogs | None => [] end) ++ fetched) in
  do! _ <- writeEventLogCache eventName contractAddress filterKey toBlock logs in
  cret logs.

Definition parse_entries (logs : list Log) : res (list (Log * Event)) :=
  let! parsed := res_mapM parseLog logs in
  Ok (omap (fun '(log, ev) => match ev with Some e => Some (log, e) | None => None end) (combine logs parsed)).

Definition tail_of (options : EventLogQueryOptions) (logs : list Log) : list Log :=
  let effectiveTail := positive_or 0 (tail options) in
  if (0 <? effectiveTail) && (effectiveTail <? Z.of_nat (length logs)) then last_n effectiveTail logs else logs.

(** What is asked when no provider answers. *)
Definition offline_logs (eventName : string) (cachedLogs : list Log) (lastError : string) : M (list Log) :=
  match cachedLogs with
  | [] => cthrow ("[" ++ eventName ++ "] Log query failed. Set VITE_CONTRACT_DEPLOY_BLOCK to the contract deploy block. " ++ lastError)
  | _ => cret (sortLogsAscending cachedLogs)
  end.

Definition getEventLogs (eventName : string) (options : EventLogQueryOptions) : M (list (Log * Event)) :=
  do! contractAddress <- of_res (getContractAddress env) in
  match getEvent eventName with
  | Throw _ | Ok false => cret []
  | Ok true =>
      let topics := encodeFilterTopics eventName (match normalizeFilterValues (filters options) with Some l => l | None => [] end) in
      let filterKey := toFilterKey topics in
      do! from <- getFromBlock env in
      do! cached <- gets (readEventLogCache eventName contractAddress filterKey) in
      let lastSynced := match cached with Some (last, _) => last | None => None end in
      let cachedLogs := match cached with Some (_, l) => List.filter (fun log => from <=? blockNumber log) l | None => [] end in
      do! providers <- getReadProviders in
      do! logs <- ccatch (first_answer (sync_with eventName contractAddress topics filterKey from lastSynced cachedLogs) "" providers None)
                    (offline_logs eventName cachedLogs) in
      of_res (parse_entries (tail_of options logs))
  end.

End Query.

(** * Every log once and in order *)

Open Scope list_scope.
Open Scope Z_scope.

(** ** Order *)

#[export] Instance log_le_total : Total log_le.
Proof. intros a b. unfold log_le. lia. Qed.
#[export] Instance log_le_trans : Transitive log_le.
Proof. intros a b c. unfold log_le. lia. Qed.

(** Logs are told apart by their block and their index in it. *)
Definition distinct_logs (l : list Log) : Prop :=
  forall a b, a ∈ l -> b ∈ l -> blockNumber a = blockNumber b -> index a = index b -> a = b.

(** Sorting forgets the order in which logs arrived. *)
Lemma sort_logs_perm (l1 l2 : list Log) : distinct_logs l1 -> l1 ≡ₚ l2 -> sortLogsAscending l1 = sortLogsAscending l2.
Proof.
  intros Hd Hp. unfold sortLogsAscending. apply (Sorted_unique_strong log_le).
  - intros a b Ha Hb Hab Hba. rewrite merge_sort_Permutation in Ha, Hb. rewrite <- Hp in Hb.
    unfold log_le in *. apply Hd; try assumption; lia.
  - apply Sorted_merge_sort. exact _.
  - apply Sorted_merge_sort. exact _.
  - now rewrite !merge_sort_Permutation.
Qed.

(** ** Blocks *)

Definition between (a b : Z) (l : list Log) : list Log := List.filter (fun x => (a <=? blockNumber x) && (blockNumber x <=? b)) l.

Lemma elem_between (a b : Z) (l : list Log) (x : Log) : x ∈ between a b l <-> x ∈ l /\ a <= blockNumber x <= b.
Proof. unfold between. rewrite !list_elem_of_In, filter_In, andb_true_iff, !Z.leb_le. tauto. Qed.

Lemma distinct_between (a b : Z) (l : list Log) : distinct_logs l -> distinct_logs (between a b l).
Proof. intros H x y Hx Hy. apply elem_between in Hx as [Hx _], Hy as [Hy _]. now apply H. Qed.

Lemma between_split (a m b : Z) (l : list Log) : a <= m + 1 -> m <= b -> between a m l ++ between (m + 1) b l ≡ₚ between a b l.
Proof.
  intros Ha Hb. induction l as [|x l IH]; [reflexivity|]. unfold between in *. cbn [List.filter].
  destruct (Z.leb_spec a (blockNumber x)), (Z.leb_spec (blockNumber x) m), (Z.leb_spec (m + 1) (blockNumber x)), (Z.leb_spec (blockNumber x) b);
    cbn [andb]; try lia; try exact IH.
  - cbn. now rewrite IH.
  - rewrite <- IH. symmetry. apply Permutation_middle.
Qed.

Lemma between_empty (a b : Z) (l : list Log) : b < a -> between a b l = [].
Proof.
  intros H. unfold between. induction l as [|x l IH]; [reflexivity|]. cbn [List.filter].
  destruct (Z.leb_spec a (blockNumber x)), (Z.leb_spec (blockNumber x) b); cbn [andb]; try lia; exact IH.
Qed.

Lemma between_after (from a b : Z) (l : list Log) :
  List.filter (fun x => from <=? blockNumber x) (between a b l) = between (Z.max from a) b l.
Proof.
  unfold between. induction l as [|x l IH]; [reflexivity|]. cbn [List.filter].
  destruct (Z.leb_spec a (blockNumber x)), (Z.leb_spec (blockNumber x) b), (Z.leb_spec (Z.max from a) (blockNumber x)); cbn [andb List.filter]; try lia;
    try (destruct (Z.leb_spec from (blockNumber x)); try lia); rewrite ?IH; try reflexivity.
Qed.

(** ** The records of the cache *)

Lemma texts_back (l : list string) : as_texts (Some (JArr (map JStr l))) = Some l.
Proof. cbn [as_texts]. induction l as [|s l IH]; [reflexivity|]. cbn. cbn in IH. now rewrite IH. Qed.

Lemma record_back (log : Log) : fromCacheRecord (toCacheRecord log) = Some log.
Proof. destruct log as [a bh b d i r t th ti]. unfold fromCacheRecord, toCacheRecord. cbn -[as_texts]. now rewrite texts_back. Qed.

Lemma records_back (logs : list Log) : omap fromCacheRecord (map toCacheRecord logs) = logs.
Proof. induction logs as [|x l IH]; [reflexivity|]. cbn [map omap list_omap]. rewrite record_back. f_equal. exact IH. Qed.

(** ** Reading and writing the cache *)

Section Logs.
Context {N : Type}.
Variables (env : Settings) (parseLog : Log -> res (option Event)) (getEvent : string -> res bool)
  (encodeFilterTopics : string -> list FilterArg -> json).
Variables (eventName contractAddress filterKey : string).

Implicit Types (c : Client N).
Abbreviation read := (readEventLogCache (N := N) env eventName contractAddress filterKey).

Definition with_storage c (s : option Storage) : Client N :=
  mkClient (provider c) (fallbackProviders c) (readContract c) (writeContract c) (verifiedAddress c) (hasVerifiedCode c)
    (hasActiveAccessCache c) (getVaultCache c) s (network c) (clock c).

Lemma with_storage_same c : with_storage c (localStorage c) = c.
Proof. now destruct c. Qed.

Lemma payload_back (last : Z) (logs : list Log) :
  cache_payload env eventName contractAddress filterKey (cache_value env eventName contractAddress filterKey last logs) = Some (Some last, logs).
Proof.
  unfold cache_payload, cache_value. cbn. rewrite Z.eqb_refl, toLowerCase_idem, !String.eqb_refl. cbn [andb].
  rewrite (bool_decide_true (Some filterKey = Some filterKey)) by reflexivity. rewrite orb_true_r. cbn. now rewrite records_back.
Qed.

Lemma raw_nonempty (v : json) : stringify_with 0 v <> ""%string.
Proof. intros E. pose proof (parse_stringified 0 v) as H. rewrite E in H. discriminate H. Qed.

(** A write is read back, or has no effect, or the storage cannot be read. *)
Lemma write_cache (last : Z) (logs : list Log) c :
  exists s, writeEventLogCache env eventName contractAddress filterKey last logs c = (Ok tt, with_storage c s)
    /\ forall found, read (with_storage c s) = Some found -> found = (Some last, logs) \/ read c = Some found.
Proof.
  unfold writeEventLogCache, cbind, gets. destruct (localStorage c) as [st|] eqn:El.
  - unfold setItem. set (k := getEventLogCacheKey env eventName contractAddress filterKey).
    set (v := cache_value env eventName contractAddress filterKey last logs).
    remember (stringify_with 0 v) as raw eqn:Eraw. destruct (quota st (items st) k raw).
    + eexists. split; [reflexivity|]. intros found. unfold readEventLogCache. cbn [with_storage localStorage]. fold k.
      unfold getItem. cbn. destruct (readable st); [|discriminate]. rewrite lookup_insert_eq.
      destruct raw as [|ch raw]; [now apply eq_sym, raw_nonempty in Eraw|]. rewrite Eraw, parse_stringified.
      unfold v. rewrite payload_back. intros [= <-]. now left.
    + exists (localStorage c). rewrite with_storage_same. split; [reflexivity|now right].
  - exists (localStorage c). rewrite with_storage_same. split; [reflexivity|now right].
Qed.

(** ** Honest providers *)

(** The logs of the contract for these topics, over the whole life of the chain. *)
Variables (chain : list Log) (topics : json).
Hypothesis Hdistinct : distinct_logs chain.

(** A provider at block [head] that answers any range up to it, in any order. *)
Record honest (p : Provider N) (head : Z) : Prop := {
  h_head : forall n, getBlockNumber p n = (Ok head, n);
  h_logs : forall a b n, a <= b <= head ->
    exists l, getLogs p (mkFilter contractAddress a b topics) n = (Ok l, n) /\ l ≡ₚ between a b chain
}.

Lemma on_net_stays {A : Type} (m : net N A) (a : A) c : m (network c) = (Ok a, network c) -> on_net m c = (Ok a, c).
Proof. intros H. unfold on_net. rewrite H. now destruct c. Qed.

Lemma chunks_complete (p : Provider N) (head size : Z) : honest p head -> 0 < size ->
  forall fuel cur c, (Z.to_nat (head - cur + 1) <= fuel)%nat ->
  exists l, fetch_chunks fuel p contractAddress topics size cur head c = (Ok l, c) /\ l ≡ₚ between cur head chain.
Proof.
  intros Hp Hs. induction fuel as [|fuel IH]; intros cur c Hf; cbn [fetch_chunks].
  - exists []. rewrite between_empty by lia. now split.
  - destruct (Z.ltb_spec head cur).
    + exists []. rewrite between_empty by lia. now split.
    + destruct (h_logs p head Hp cur (Z.min (cur + size - 1) head) (network c)) as (l1 & E1 & P1); [lia|].
      destruct (IH (cur + size) c) as (l2 & E2 & P2); [lia|].
      unfold cbind. rewrite (on_net_stays _ _ _ E1), E2. eexists. split; [reflexivity|]. rewrite P1, P2.
      destruct (Z.le_gt_cases (cur + size - 1) head).
      * rewrite Z.min_l by lia. pose proof (between_split cur (cur + size - 1) head chain ltac:(lia) ltac:(lia)) as K.
        now replace (cur + size - 1 + 1) with (cur + size) in K by lia.
      * rewrite Z.min_r by lia. rewrite (between_empty (cur + size)) by lia. now rewrite app_nil_r.
Qed.

Variable from : Z.
Definition cached_part (l : list Log) : list Log := List.filter (fun log => from <=? blockNumber log) l.

(** What the cache says it has synced, it holds. *)
Definition sound_cache c : Prop := forall last l, read c = Some (Some last, l) -> cached_part l ≡ₚ between from last chain.

Definition answer (head : Z) : list Log := sortLogsAscending (between (Z.min from head) head chain).

Lemma size_positive : 0 < getLogChunkSize env.
Proof. unfold getLogChunkSize, positive_or. destruct (VITE_LOG_CHUNK_SIZE env) as [n|]; [|lia]. destruct (Z.ltb_spec 0 n); lia. Qed.

(** One honest provider: the logs of the whole range in order, and a sound cache. *)
Lemma sync_complete (p : Provider N) (head : Z) (cached : option (option Z * list Log)) c :
  honest p head -> sound_cache c ->
  (forall last l, cached = Some (Some last, l) -> cached_part l ≡ₚ between from last chain) ->
  exists s, sync_with env eventName contractAddress topics filterKey from
              (match cached with Some (last, _) => last | None => None end)
              (match cached with Some (_, l) => cached_part l | None => [] end) p c = (Ok (answer head), with_storage c s)
    /\ sound_cache (with_storage c s).
Proof.
  intros Hp Hc Hcached. unfold sync_with. unfold cbind at 1. rewrite (on_net_stays _ _ _ (h_head p head Hp (network c))).
  set (usable := match match cached with Some (last, _) => last | None => None end with Some last => _ | None => None end).
  set (logs0 := match cached with Some (_, l) => cached_part l | None => [] end) in *.
  set (start := match usable with Some last => Z.max (Z.min from head) (last + 1) | None => Z.min from head end).
  destruct (chunks_complete p head (getLogChunkSize env) Hp size_positive (Z.to_nat (head - start + 1)) start c (le_n _)) as (l & E & Pl).
  unfold cbind at 1. rewrite E.
  assert (Hall : (match usable with Some _ => logs0 | None => [] end) ++ l ≡ₚ between (Z.min from head) head chain).
  { rewrite Pl. subst start. destruct usable as [last|] eqn:U; [|reflexivity]. subst usable logs0.
    destruct cached as [[[last'|] l0]|]; try discriminate U.
    destruct (Z.leb_spec (Z.min from head) last'), (Z.leb_spec last' head); cbn [andb] in U; try discriminate U.
    destruct (bool_decide (cached_part l0 = [])) eqn:Eb; [discriminate U|]. injection U as ->. apply bool_decide_eq_false in Eb.
    specialize (Hcached last l0 eq_refl). assert (from <= last).
    { destruct (Z.le_gt_cases from last); [assumption|]. exfalso. apply Eb. apply Permutation_nil_r. now rewrite Hcached, between_empty by lia. }
    rewrite Hcached. rewrite !Z.min_l, Z.max_r by lia. apply between_split; lia. }
  rewrite (sort_logs_perm _ (between (Z.min from head) head chain)); [|
    intros x y Hx Hy; rewrite Hall in Hx, Hy; now apply (distinct_between (Z.min from head) head chain Hdistinct)|exact Hall].
  fold (answer head). destruct (write_cache head (answer head) c) as (s & W & Hs). exists s. unfold cbind. rewrite W.
  split; [reflexivity|]. intros last l1 Hr. apply Hs in Hr as [[= -> ->]|Hr]; [|now apply Hc].
  unfold cached_part, answer, sortLogsAscending. rewrite (filter_perm _ _ _ (merge_sort_Permutation log_le _)). rewrite between_after.
  now rewrite Z.max_l by lia.
Qed.

(** ** The whole query *)

Definition with_network c (n : N) : Client N :=
  mkClient (provider c) (fallbackProviders c) (readContract c) (writeContract c) (verifiedAddress c) (hasVerifiedCode c)
    (hasActiveAccessCache c) (getVaultCache c) (localStorage c) n (clock c).

(** A provider that fails somewhere, whatever the network, before it has answered. *)
Definition fails (cached : option (option Z * list Log)) (p : Provider N) : Prop :=
  forall c, exists e n, sync_with env eventName contractAddress topics filterKey from
    (match cached with Some (last, _) => last | None => None end)
    (match cached with Some (_, l) => cached_part l | None => [] end) p c = (Throw e, with_network c n).

Lemma down_fails (cached : option (option Z * list Log)) (p : Provider N) :
  (forall n, exists e n', getBlockNumber p n = (Throw e, n')) -> fails cached p.
Proof.
  intros H c. destruct (H (network c)) as (e & n' & E). exists e, n'. unfold sync_with, cbind, on_net. now rewrite E.
Qed.

(** The providers before the first that works leave nothing but a moved network. *)
Lemma skip_failing (cached : option (option Z * list Log)) (downs rest : list (Provider N)) (failure : string) :
  List.Forall (fails cached) downs -> forall lastError c, exists n lastError',
  first_answer (sync_with env eventName contractAddress topics filterKey from
    (match cached with Some (last, _) => last | None => None end)
    (match cached with Some (_, l) => cached_part l | None => [] end)) failure (downs ++ rest) lastError c
  = first_answer (sync_with env eventName contractAddress topics filterKey from
      (match cached with Some (last, _) => last | None => None end)
      (match cached with Some (_, l) => cached_part l | None => [] end)) failure rest lastError' (with_network c n).
Proof.
  induction 1 as [|p downs Hp _ IH]; intros lastError c.
  - exists (network c), lastError. now destruct c.
  - destruct (Hp c) as (e & n & E). destruct (IH (Some (extractProviderErrorMessage e)) (with_network c n)) as (n' & e' & E').
    exists n', e'. cbn [app first_answer]. unfold ccatch at 1. rewrite E. exact E'.
Qed.

Variable options : EventLogQueryOptions.
Hypothesis Haddress : getContractAddress env = Ok contractAddress.
Hypothesis Hevent : getEvent eventName = Ok true.
Hypothesis Htopics : encodeFilterTopics eventName (match normalizeFilterValues (filters options) with Some l => l | None => [] end) = topics.
Hypothesis Hfilter : toFilterKey topics = filterKey.
Hypothesis Hfrom : VITE_CONTRACT_DEPLOY_BLOCK env = Some from.
Hypothesis Hpositive : 0 < from.

Abbreviation query := (getEventLogs env parseLog getEvent encodeFilterTopics eventName options).

Lemma query_unfold (providers : list (Provider N)) c : fallbackProviders c = providers -> providers <> [] ->
  query c = cbind (ccatch (first_answer (sync_with env eventName contractAddress topics filterKey from
      (match read c with Some (last, _) => last | None => None end)
      (match read c with Some (_, l) => cached_part l | None => [] end)) "" providers None)
    (offline_logs eventName (match read c with Some (_, l) => cached_part l | None => [] end)))
    (fun logs => of_res (parse_entries parseLog (tail_of options logs))) c.
Proof.
  intros Hp Hne. unfold getEventLogs. rewrite Haddress, Hevent, Htopics, Hfilter. unfold getFromBlock. rewrite Hfrom. cbn [positive_or].
  destruct (Z.ltb_spec 0 from); [|lia]. destruct (Z.ltb_spec 0 from); [|lia]. unfold cbind at 1. cbn [of_res cret]. unfold cbind at 1, cret.
  unfold cbind at 1, gets. unfold cbind at 1. unfold getReadProviders. rewrite Hp. destruct providers; [congruence|reflexivity].
Qed.

(** C9: Behind providers that fail, one that is honest up to its head gives the logs from the
    deploy block to that head, each once and in the order of the chain, or the last of them
    that were asked for, whatever part of them the cache held; and the cache stays sound. *)
Theorem event_logs_complete (downs rest : list (Provider N)) (p : Provider N) (head : Z) c :
  fallbackProviders c = downs ++ p :: rest -> List.Forall (fails (read c)) downs -> honest p head -> sound_cache c ->
  exists c', query c = (parse_entries parseLog (tail_of options (answer head)), c')
    /\ sound_cache c' /\ fallbackProviders c' = fallbackProviders c.
Proof.
  intros Hp Hdowns Hhonest Hsound. rewrite (query_unfold (downs ++ p :: rest)) by (assumption || now destruct downs).
  destruct (skip_failing (read c) downs (p :: rest) "" Hdowns None c) as (n & e & E).
  destruct (sync_complete p head (read c) (with_network c n) Hhonest) as (s & W & Hs).
  - intros last l H. apply Hsound. exact H.
  - exact Hsound.
  - exists (with_storage (with_network c n) s). unfold cbind, ccatch. rewrite E. cbn [first_answer]. unfold ccatch. rewrite W.
    unfold of_res. now split.
Qed.

(** When every provider fails, the part of the cache from the deploy block on is the answer;
    an empty one is an error.  Only the network has changed. *)
Theorem event_logs_offline (providers : list (Provider N)) c :
  fallbackProviders c = providers -> providers <> [] -> List.Forall (fails (read c)) providers ->
  exists n, let cachedLogs := match read c with Some (_, l) => cached_part l | None => [] end in
    (cachedLogs <> [] /\ query c = (parse_entries parseLog (tail_of options (sortLogsAscending cachedLogs)), with_network c n))
    \/ (cachedLogs = [] /\ exists e, query c = (Throw e, with_network c n)).
Proof.
  intros Hp Hne Hall. rewrite (query_unfold providers c Hp Hne).
  destruct (skip_failing (read c) providers [] "" Hall None c) as (n & e & E). rewrite app_nil_r in E.
  exists n. cbv zeta. set (cachedLogs := match read c with Some (_, l) => cached_part l | None => [] end) in *.
  unfold cbind, ccatch. rewrite E. cbn [first_answer]. unfold cthrow, offline_logs. destruct cachedLogs as [|x l].
  - right. split; [reflexivity|]. eexists. reflexivity.
  - left. split; [discriminate|reflexivity].
Qed.

End Logs.

(** ** What a query leaves alone: all but the storage and the network *)

Section Frame.
Context {N : Type}.
Implicit Types (c : Client N).

Record frame c c' : Prop := {
  fr_provider : provider c' = provider c; fr_fallback : fallbackProviders c' = fallbackProviders c;
  fr_read : readContract c' = readContract c; fr_write : writeContract c' = writeContract c;
  fr_address : verifiedAddress c' = verifiedAddress c; fr_code : hasVerifiedCode c' = hasVerifiedCode c;
  fr_access : hasActiveAccessCache c' = hasActiveAccessCache c; fr_vaults : getVaultCache c' = getVaultCache c;
  fr_clock : clock c' = clock c
}.

Lemma frame_refl c : frame c c.
Proof. now split. Qed.
Lemma frame_trans c1 c2 c3 : frame c1 c2 -> frame c2 c3 -> frame c1 c3.
Proof. intros [] []. split; congruence. Qed.

Definition frames {A : Type} (m : cio N A) : Prop := forall c, frame c (snd (m c)).

Lemma frames_ret {A : Type} (a : A) : frames (cret (N := N) a).
Proof. intros c. apply frame_refl. Qed.
Lemma frames_throw {A : Type} (e : string) : frames (cthrow (N := N) (A := A) e).
Proof. intros c. apply frame_refl. Qed.
Lemma frames_res {A : Type} (r : res A) : frames (of_res (N := N) r).
Proof. intros c. apply frame_refl. Qed.
Lemma frames_gets {A : Type} (f : Client N -> A) : frames (gets f).
Proof. intros c. apply frame_refl. Qed.
Lemma frames_net {A : Type} (m : net N A) : frames (on_net m).
Proof. intros c. unfold on_net. destruct (m (network c)). now split. Qed.
Lemma frames_storage (s : option Storage) : frames (set_storage (N := N) s).
Proof. intros c. now split. Qed.
Lemma frames_providers : frames (getReadProviders (N := N)).
Proof. intros c. unfold getReadProviders. destruct (fallbackProviders c), (provider c); apply frame_refl. Qed.
Lemma frames_bind {A B : Type} (m : cio N A) (k : A -> cio N B) : frames m -> (forall a, frames (k a)) -> frames (cbind m k).
Proof. intros Hm Hk c. unfold cbind. pose proof (Hm c) as H. destruct (m c) as [[a|e] c1]; [|exact H]. eapply frame_trans; [exact H|apply Hk]. Qed.
Lemma frames_catch {A : Type} (m : cio N A) (h : string -> cio N A) : frames m -> (forall e, frames (h e)) -> frames (ccatch m h).
Proof. intros Hm Hk c. unfold ccatch. pose proof (Hm c) as H. destruct (m c) as [[a|e] c1]; [exact H|]. eapply frame_trans; [exact H|apply Hk]. Qed.

Create HintDb frames.
Hint Resolve frames_ret frames_throw frames_res frames_gets frames_net frames_storage frames_providers frames_bind frames_catch : frames.

Lemma frames_answer {A : Type} (f : Provider N -> cio N A) (failure : string) (l : list (Provider N)) : (forall p, frames (f p)) ->
  forall lastError, frames (first_answer f failure l lastError).
Proof. intros Hf. induction l as [|p l IH]; intros e; cbn [first_answer]; auto with frames. Qed.
Hint Resolve frames_answer : frames.

Lemma frames_chunks (p : Provider N) (a : string) (topics : json) (size head : Z) (fuel : nat) : forall cur,
  frames (fetch_chunks fuel p a topics size cur head).
Proof. induction fuel as [|fuel IH]; intros cur; cbn [fetch_chunks]; [auto with frames|]. destruct (head <? cur); auto 8 with frames. Qed.
Hint Resolve frames_chunks : frames.

Lemma frames_offline (name : string) (cached : list Log) (e : string) : frames (offline_logs (N := N) name cached e).
Proof. destruct cached; cbn [offline_logs]; auto with frames. Qed.

Lemma frames_query (env : Settings) (parseLog : Log -> res (option Event)) (getEvent : string -> res bool)
    (encodeFilterTopics : string -> list FilterArg -> json) (name : string) (options : EventLogQueryOptions) :
  frames (getEventLogs env parseLog getEvent encodeFilterTopics name options).
Proof.
  unfold getEventLogs. apply frames_bind; [auto with frames|]. intros a. destruct (getEvent name) as [[]|]; [|auto with frames..].
  apply frames_bind; [unfold getFromBlock; destruct (0 <? _); auto 8 with frames|]. intros from.
  apply frames_bind; [auto with frames|]. intros cached. apply frames_bind; [auto with frames|]. intros l.
  apply frames_bind; [|auto with frames]. apply frames_catch; [|intros e; apply frames_offline].
  apply frames_answer. intros p. unfold sync_with. apply frames_bind; [auto with frames|]. intros head.
  apply frames_bind; [auto with frames|]. intros logs. apply frames_bind; [|auto with frames]. unfold writeEventLogCache.
  apply frames_bind; [auto with frames|]. intros [s|]; [|auto with frames]. destruct (setItem _ _ _); auto with frames.
Qed.
End Frame.

(** ** A chain with three logs *)

Module DemoNode.

Definition vault_log (b : Z) : Log := mkLog "0xC0" "0xb" b "0x" 0 false ["0xVaultCreated"] "0xt" 0.
Definition demo_chain : list Log := [vault_log 5; vault_log 150; vault_log 210].
Definition demo_topics (eventName : string) (_ : list FilterArg) : json := JArr [JStr ("0x" ++ eventName)].
Definition decode (log : Log) : res (option Event) := Ok (Some (VaultCreated (blockNumber log) "0xAda")).
Definition known (eventName : string) : res bool := Ok true.

Definition demo_logs (f : LogFilter) : list Log := between (EvmClient.fromBlock f) (toBlock f) demo_chain.
Definition node (head : Z) : Provider unit :=
  mkProvider unit (fun n => (Ok head, n)) (fun f n => (Ok (demo_logs f), n))
    (fun _ n => (Ok "0x60"%string, n)) (fun b n => (Ok (Some b), n)) (fun _ _ n => (Ok None, n)).
Definition dead : Provider unit :=
  mkProvider unit (fun n => (Throw "ECONNREFUSED", n)) (fun _ n => (Throw "ECONNREFUSED", n))
    (fun _ n => (Throw "ECONNREFUSED", n)) (fun _ n => (Throw "ECONNREFUSED", n)) (fun _ _ n => (Throw "ECONNREFUSED", n)).

Definition settings (deployBlock : Z) : Settings :=
  mkSettings (Some "0xC0"%string) None None None None None (Some deployBlock).
Definition client (providers : list (Provider unit)) : Client unit :=
  mkClient None providers None None None false (TtlCache.new_cache 10000) (TtlCache.new_cache 10000) (Some empty_storage) tt 0.

Definition vaults (deployBlock : Z) (c : Client unit) : res (list (Log * Event)) * Client unit :=
  getEventLogs (settings deployBlock) decode known demo_topics "VaultCreated" (mkQuery None None) c.

(** The key of the cache is the text of the topics. *)
Definition demo_key : string := Eval vm_compute in toFilterKey (demo_topics "VaultCreated" []).

Lemma demo_distinct : distinct_logs demo_chain.
Proof.
  intros a b Ha Hb H _. unfold demo_chain in *. rewrite !elem_of_cons, elem_of_nil in Ha, Hb.
  destruct Ha as [->|[->|[->|[]]]], Hb as [->|[->|[->|[]]]]; cbn in H; congruence.
Qed.

Lemma node_honest (head : Z) : honest "0xC0" demo_chain (demo_topics "VaultCreated" []) (node head) head.
Proof. split; [reflexivity|]. intros a b n _. exists (between a b demo_chain). split; reflexivity. Qed.

(** The first provider is down; then the chain grows by a block with a log. *)
Lemma event_logs_complete_witness :
  exists (c1 c2 : Client unit), vaults 1 (client [dead; node 200]) = (Ok [(vault_log 5, VaultCreated 5 "0xAda"); (vault_log 150, VaultCreated 150 "0xAda")], c1)
    /\ sound_cache (settings 1) "VaultCreated" "0xC0" demo_key demo_chain 1 c1
    /\ fst (vaults 1 (mkClient None [node 210] None None None false (TtlCache.new_cache 10000) (TtlCache.new_cache 10000) (localStorage c1) tt 0))
       = Ok [(vault_log 5, VaultCreated 5 "0xAda"); (vault_log 150, VaultCreated 150 "0xAda"); (vault_log 210, VaultCreated 210 "0xAda")]
    /\ sound_cache (settings 1) "VaultCreated" "0xC0" demo_key demo_chain 1 c2.
Proof.
  pose proof (event_logs_complete (N := unit) (settings 1) decode known demo_topics "VaultCreated" "0xC0" demo_key
    demo_chain (demo_topics "VaultCreated" []) demo_distinct 1 (mkQuery None None) eq_refl eq_refl eq_refl eq_refl eq_refl eq_refl) as T.
  destruct (T [dead] [] (node 200) 200 (client [dead; node 200])) as (c1 & E1 & S1 & _).
  - reflexivity.
  - constructor; [|constructor]. apply down_fails. intros n. exists "ECONNREFUSED"%string, n. reflexivity.
  - apply node_honest.
  - intros last l H. vm_compute in H. discriminate H.
  - destruct (T [] [] (node 210) 210 (mkClient None [node 210] None None None false (TtlCache.new_cache 10000) (TtlCache.new_cache 10000)
      (localStorage c1) tt 0)) as (c2 & E2 & S2 & _).
    + reflexivity.
    + constructor.
    + apply node_honest.
    + exact S1.
    + exists c1, c2. split; [|split; [exact S1|split; [|exact S2]]].
      * unfold vaults. rewrite E1. f_equal.
      * unfold vaults. rewrite E2. cbn [fst]. vm_compute. reflexivity.
Defined.

Lemma event_logs_offline_witness :
  exists n, fst (vaults 1 (with_network (client [dead]) n)) = Throw
    "[VaultCreated] Log query failed. Set VITE_CONTRACT_DEPLOY_BLOCK to the contract deploy block. ECONNREFUSED".
Proof.
  destruct (event_logs_offline (settings 1) decode known demo_topics "VaultCreated" "0xC0" demo_key
    (demo_topics "VaultCreated" []) 1 (mkQuery None None) eq_refl eq_refl eq_refl eq_refl eq_refl eq_refl [dead] (client [dead])) as (n & [[H _]|[_ (e & E)]]).
  - reflexivity.
  - discriminate.
  - constructor; [|constructor]. apply down_fails. intros n. exists "ECONNREFUSED"%string, n. reflexivity.
  - exfalso. apply H. vm_compute. reflexivity.
  - exists n. vm_compute. reflexivity.
Defined.

(** The cache does not say from which block it was synced: a query that starts earlier
    takes it for complete and misses the logs before. *)
Lemma lowered_deploy_block_misses :
  let '(late, c1) := vaults 100 (client [node 200]) in
  late = Ok [(vault_log 150, VaultCreated 150 "0xAda")]
  /\ fst (vaults 1 c1) = Ok [(vault_log 150, VaultCreated 150 "0xAda")]
  /\ fst (vaults 1 (client [node 200])) = Ok [(vault_log 5, VaultCreated 5 "0xAda"); (vault_log 150, VaultCreated 150 "0xAda")].
Proof. vm_compute. repeat split. Qed.

End DemoNode.
