(* ===== verification/EvmReads.v ===== *)
(** * EvmReads: the lists contract.service.ts builds from events and views

    Vaults, documents, pending approvals, tokens and activity.  A log whose topics match an
    event decodes to that event; entries of other events are left out where the code would
    read members they do not have. *)

From Stdlib Require Import Ascii String ZArith Lia Bool.
From stdpp Require Import base list gmap strings sorting.
From S2P Require Import Prelude JsString JsonText TtlCache KeyInbox JsonParse KeyStore EvmClient EventLogs.

Open Scope list_scope.
Open Scope Z_scope.

Definition Entry : Type := (Log * Event)%type.

Record TokenData : Type := mkTokenData { tokenId : Z; owner : string; token_vaultId : Z; tokenURI : string; mintedAt : Z }.
Record PendingApprovalData : Type := mkPending {
  p_requestId : Z; p_documentId : Z; p_vaultId : Z; p_vaultName : string; p_requester : string; p_createdAt : Z; p_expiresAt : Z
}.
Record ActivityEvent : Type := mkActivity { action : string; actor : string; activity_time : Z; activity_status : string; txHash : string }.

(** The newest first. *)
Definition newer_first (a b : Entry) : Prop := log_le b.1 a.1.
#[export] Instance newer_first_dec (a b : Entry) : Decision (newer_first a b) := log_le_dec b.1 a.1.
Definition sortDescending (l : list Entry) : list Entry := merge_sort newer_first l.

(** [Number(entry.parsed.args.vaultId)] and the like. *)
Definition vault_of (e : Entry) : option Z :=
  match e.2 with
  | VaultCreated v _ | DocumentAdded _ v | NFTMinted _ _ v | GuardianAdded v _ => Some v
  | _ => None
  end.
Definition document_of (e : Entry) : option Z := match e.2 with DocumentAdded d _ => Some d | _ => None end.
Definition request_of (e : Entry) : option Z := match e.2 with AccessRequested r _ _ => Some r | _ => None end.
Definition token_of (e : Entry) : option (Z * (Z * Z)) :=
  match e.2 with NFTMinted t _ v => Some (t, (v, blockNumber e.1)) | _ => None end.

Definition same_address (a b : string) : bool := String.eqb (toLowerCase a) (toLowerCase b).

(** [for (let i = 0; i < items.length; i += size) chunks.push(items.slice(i, i + size))] *)
Fixpoint chunks {A : Type} (fuel size : nat) (items : list A) : list (list A) :=
  match fuel, items with
  | O, _ | _, [] => []
  | S fuel', _ => firstn size items :: chunks fuel' size (skipn size items)
  end.
Definition chunkArray {A : Type} (items : list A) (size : Z) : list (list A) :=
  if size <=? 0 then [items] else chunks (length items) (Z.to_nat size) items.

Section Reads.
Context {N : Type}.
Variables (env : Settings) (getFunction : string -> res bool) (parseLog : Log -> res (option Event)).
Variables (getEvent : string -> res bool) (encodeFilterTopics : string -> list FilterArg -> json).

Abbreviation M := (cio N).
Abbreviation event_logs name filters := (getEventLogs env parseLog getEvent encodeFilterTopics name (mkQuery None filters) : M (list Entry)).
Abbreviation event_tail name n := (getEventLogs env parseLog getEvent encodeFilterTopics name (mkQuery (Some n) None) : M (list Entry)).

(** [try { return await m } catch { return null }] *)
Definition attempt {A : Type} (m : M A) : M (option A) := ccatch (do! x <- m in cret (Some x)) (fun _ => cret None).

Definition fetchVaults : M (list VaultData) :=
  do! contract <- ready env in
  do! logs <- event_logs "VaultCreated" None in
  cmapM (cachedGetVault contract) (distinct_ids (omap vault_of logs)).

Definition fetchDocuments : M (list DocumentData) :=
  do! contract <- ready env in
  do! logs <- event_logs "DocumentAdded" None in
  cmapM (fun d => on_net (v_documents contract d)) (distinct_ids (omap document_of logs)).

Definition fetchDocumentsForVaults (vaultIds : list Z) : M (list DocumentData) :=
  do! contract <- ready env in
  let uniqueVaultIds := List.filter (fun i => 0 <? i) (distinct_ids vaultIds) in
  match uniqueVaultIds with
  | [] => cret []
  | _ =>
      do! groups <- cmapM (fun chunk => event_logs "DocumentAdded" (Some [One F_null; AnyOf (map F_bigint chunk); One F_null]))
                      (chunkArray uniqueVaultIds 20) in
      cmapM (fun d => on_net (v_documents contract d)) (distinct_ids (omap document_of (concat groups)))
  end.

Definition is_creator (account : string) (v : VaultData) : bool := same_address (creator v) account.
Definition is_guardian (account : string) (v : VaultData) : bool := existsb (fun g => same_address g account) (guardians v).

Definition has_token (contract : Views N) (account : string) (v : VaultData) : M bool :=
  do! r <- attempt (on_net (v_hasVaultToken contract account (id v))) in
  cret (match r with Some b => b | None => false end).

(** The token check of the vaults of which the account is neither creator nor guardian. *)
Definition keep_vault (contract : Views N) (account : string) (v : VaultData) : M (option VaultData) :=
  if is_creator account v || is_guardian account v then cret (Some v)
  else do! b <- has_token contract account v in cret (if b then Some v else None).

Definition fetchVaultsForAccount (account : string) (tokenVaultIds : list Z) : M (list VaultData) :=
  if blank account then cret []
  else
    do! contract <- ready env in
    let accountLower := toLowerCase account in
    do! createdLogs <- event_logs "VaultCreated" (Some [One F_null; One (F_text accountLower)]) in
    do! guardianLogs <- event_logs "GuardianAdded" (Some [One F_null; One (F_text accountLower)]) in
    do! tokenIds <- match tokenVaultIds with
                    | _ :: _ => cret (List.filter (fun i => 0 <? i) tokenVaultIds)
                    | [] => do! mintedLogs <- event_logs "NFTMinted" (Some [One F_null; One (F_text accountLower); One F_null]) in
                            cret (omap vault_of mintedLogs)
                    end in
    do! candidateVaults <- fetchVaultsByIds env (distinct_ids (omap vault_of createdLogs ++ omap vault_of guardianLogs ++ tokenIds)) in
    do! kept <- cmapM (keep_vault contract account) candidateVaults in
    cret (omap (fun v => v) kept).

(** ** Pending approvals *)

(** The caches of one call, of documents and of vaults. *)
Definition Caches : Type := (gmap Z DocumentData * gmap Z VaultData)%type.

(** [let x = cache.get(k); if (!x) { x = await f(k); cache.set(k, x) }] *)
Definition cached_or {A : Type} (cache : gmap Z A) (k : Z) (m : M A) : M (option A * gmap Z A) :=
  match cache !! k with
  | Some x => cret (Some x, cache)
  | None => do! r <- attempt m in cret (match r with Some x => (Some x, <[k := x]> cache) | None => (None, cache) end)
  end.

(** The entry of a request in the list, unless a test or a call fails. *)
Definition examine (contract : Views N) (guardian : string) (now i : Z) (caches : Caches) : M (option PendingApprovalData * Caches) :=
  do! approved <- attempt (on_net (v_hasApprovedRequest contract i guardian)) in
  match approved with
  | None | Some true => cret (None, caches)
  | Some false =>
      do! raw <- attempt (on_net (v_accessRequests contract i)) in
      match raw with
      | None => cret (None, caches)
      | Some request =>
          if (requestId request =? 0) || negb (request_status request =? 0) || (expiresAt request <=? now) then cret (None, caches)
          else
            do! found <- cached_or caches.1 (documentId request) (on_net (v_documents contract (documentId request))) in
            match found with
            | (None, documents) => cret (None, (documents, caches.2))
            | (Some document, documents) =>
                let v := doc_vaultId document in
                do! found <- cached_or caches.2 v (cachedGetVault contract v) in
                match found with
                | (None, vaults) => cret (None, (documents, vaults))
                | (Some vault, vaults) =>
                    cret (if is_guardian guardian vault
                          then Some (mkPending i (documentId request) v (name vault) (requester request)
                                       (request_createdAt request) (expiresAt request))
                          else None, (documents, vaults))
                end
            end
      end
  end.

(** The loop: request ids it has seen, entries found so far. *)
Fixpoint scan (contract : Views N) (guardian : string) (now limit : Z) (entries : list Entry) (seen : list Z) (caches : Caches)
    (pending : list PendingApprovalData) : M (list PendingApprovalData) :=
  match entries with
  | [] => cret pending
  | e :: rest =>
      match request_of e with
      | None => scan contract guardian now limit rest seen caches pending
      | Some i =>
          if (i =? 0) || bool_decide (i ∈ seen) then scan contract guardian now limit rest seen caches pending
          else
            do! found <- examine contract guardian now i caches in
            match found with
            | (None, caches) => scan contract guardian now limit rest (i :: seen) caches pending
            | (Some p, caches) =>
                let pending := pending ++ [p] in
                if limit <=? Z.of_nat (length pending) then cret pending
                else scan contract guardian now limit rest (i :: seen) caches pending
            end
      end
  end.

Definition fetchPendingApprovalsForGuardian (guardian : string) (limit : Z) : M (list PendingApprovalData) :=
  if blank guardian then cret []
  else
    do! contract <- ready env in
    do! requestLogs <- event_tail "AccessRequested" (getPendingRequestScanDepth env) in
    do! t <- gets clock in
    scan contract guardian (t / 1000) limit (sortDescending requestLogs) [] (∅, ∅) [].

(** ** Tokens *)

(** [Array.from(mintedByToken.entries())]: the place of the first log of a token, the value of the last. *)
Fixpoint set_entry {A : Type} (k : Z) (v : A) (l : list (Z * A)) : list (Z * A) :=
  match l with
  | [] => [(k, v)]
  | (k', v') :: l' => if k' =? k then (k, v) :: l' else (k', v') :: set_entry k v l'
  end.
Definition minted_by_token (logs : list Entry) : list (Z * (Z * Z)) :=
  fold_left (fun m e => match token_of e with Some (t, info) => set_entry t info m | None => m end) logs [].

(** The loop over the tokens, with the times of the blocks. *)
Fixpoint tokens_of (contract : Views N) (account : string) (minted : list (Z * (Z * Z))) (blockCache : gmap Z Z) : M (list TokenData) :=
  match minted with
  | [] => cret []
  | (t, (v, block)) :: rest =>
      do! o <- attempt (on_net (v_ownerOf contract t)) in
      match o with
      | None => tokens_of contract account rest blockCache
      | Some o =>
          if negb (same_address o account) then tokens_of contract account rest blockCache
          else
            do! uri <- attempt (on_net (v_tokenURI contract t)) in
            do! found <- getBlockTimestamp block blockCache in
            do! tokens <- tokens_of contract account rest found.2 in
            cret (mkTokenData t account v (match uri with Some u => u | None => "" end) found.1 :: tokens)
      end
  end.

Definition later_token (a b : TokenData) : Prop := tokenId b <= tokenId a.
#[local] Instance later_token_dec (a b : TokenData) : Decision (later_token a b) := Z.le_dec (tokenId b) (tokenId a).

Definition fetchUserTokens (account : string) : M (list TokenData) :=
  do! contract <- ready env in
  do! mintedLogs <- event_logs "NFTMinted" (Some [One F_null; One (F_text (toLowerCase account)); One F_null]) in
  do! tokens <- tokens_of contract account (minted_by_token mintedLogs) ∅ in
  cret (merge_sort later_token tokens).

Definition hasVaultToken (account : string) (vaultId : Z) : M bool :=
  if blank account || (vaultId <=? 0) then cret false
  else
    ccatch (do! contract <- ready env in on_net (v_hasVaultToken contract account vaultId))
      (fun _ => ccatch (do! tokens <- fetchUserTokens account in cret (existsb (fun t => token_vaultId t =? vaultId) tokens))
                  (fun _ => cret false)).

(** The vault of a token that has an owner, among those asked for. *)
Definition live_token (contract : Views N) (targets : list Z) (e : Entry) : M (option Z) :=
  match token_of e with
  | Some (t, (v, _)) =>
      if bool_decide (v ∈ targets)
      then do! o <- attempt (on_net (v_ownerOf contract t)) in cret (match o with Some _ => Some v | None => None end)
      else cret None
  | None => cret None
  end.

Definition count_in (ids : list Z) (v : Z) : Z := Z.of_nat (count_occ Z.eq_dec ids v).

Definition getActivePassCountByVault (vaultIds : list Z) : M (gmap Z Z) :=
  do! _ <- ensureContractDeployed env in
  match vaultIds with
  | [] => cret ∅
  | _ =>
      do! groups <- cmapM (fun chunk => event_logs "NFTMinted" (Some [One F_null; One F_null; AnyOf (map F_bigint chunk)]))
                      (chunkArray vaultIds 20) in
      do! contract <- ensureReadContract in
      do! checks <- cmapM (live_token contract vaultIds) (concat groups) in
      cret (map_of vaultIds (map (count_in (omap (fun v => v) checks)) vaultIds))
  end.

(** ** Activity *)

Definition activity_of (contract : Views N) (e : Entry) (timestamp : Z) : M ActivityEvent :=
  let hash := transactionHash e.1 in
  match e.2 with
  | VaultCreated _ who => cret (mkActivity "Vault Created" who timestamp "success" hash)
  | DocumentAdded d _ =>
      do! doc <- attempt (on_net (v_documents contract d)) in
      cret (mkActivity "Document Added" (match doc with Some d => uploadedBy d | None => "Unknown" end) timestamp "success" hash)
  | AccessRequested _ _ who => cret (mkActivity "Access Requested" who timestamp "pending" hash)
  | NFTMinted _ to _ => cret (mkActivity "NFT Minted" to timestamp "success" hash)
  | _ => cret (mkActivity "Activity" "Unknown" timestamp "success" hash)
  end.

Fixpoint activities (contract : Views N) (entries : list Entry) (blockCache : gmap Z Z) : M (list ActivityEvent) :=
  match entries with
  | [] => cret []
  | e :: rest =>
      do! found <- getBlockTimestamp (blockNumber e.1) blockCache in
      do! a <- activity_of contract e found.1 in
      do! l <- activities contract rest found.2 in
      cret (a :: l)
  end.

Definition getRecentActivity (limit : Z) : M (list ActivityEvent) :=
  do! contract <- ready env in
  let perEventTail := Z.max (limit * 6) 40 in
  do! vaultLogs <- event_tail "VaultCreated" perEventTail in
  do! documentLogs <- event_tail "DocumentAdded" perEventTail in
  do! requestLogs <- event_tail "AccessRequested" perEventTail in
  do! nftLogs <- event_tail "NFTMinted" perEventTail in
  activities contract (firstn (Z.to_nat limit) (sortDescending (vaultLogs ++ documentLogs ++ requestLogs ++ nftLogs))) ∅.

End Reads.

(** * What the lists of EvmReads contain

    Over views that answer the same during a call, and logs as [getEventLogs] returns them. *)

Open Scope list_scope.
Open Scope Z_scope.

Lemma distinct_ids_spec (ids : list Z) : NoDup (distinct_ids ids) /\ forall i, i ∈ distinct_ids ids <-> i ∈ ids.
Proof.
  unfold distinct_ids. assert (H : forall l acc : list Z, NoDup acc ->
    let r := fold_left (fun seen i => if bool_decide (i ∈ seen) then seen else seen ++ [i]) l acc in
    NoDup r /\ forall i, i ∈ r <-> i ∈ acc \/ i ∈ l).
  { induction l as [|x l IH]; intros acc Ha; cbn [fold_left].
    - split; [exact Ha|]. intros i. rewrite elem_of_nil. tauto.
    - destruct (bool_decide (x ∈ acc)) eqn:E.
      + apply bool_decide_eq_true in E. destruct (IH acc Ha) as [Hn Hi]. split; [exact Hn|]. intros i. rewrite Hi, elem_of_cons.
        split; [tauto|]. intros [?|[->|?]]; tauto.
      + apply bool_decide_eq_false in E. destruct (IH (acc ++ [x])) as [Hn Hi].
        { apply NoDup_app. split; [exact Ha|]. split; [|apply NoDup_singleton]. intros y Hy ->%list_elem_of_singleton. contradiction. }
        split; [exact Hn|]. intros i. rewrite Hi, elem_of_app, list_elem_of_singleton, elem_of_cons. tauto. }
  destruct (H ids [] ltac:(constructor)) as [Hn Hi]. split; [exact Hn|]. intros i. rewrite Hi, elem_of_nil. tauto.
Qed.

Lemma vault_entries (created guarding minted : list Entry) (i : Z) :
  i ∈ omap vault_of created ++ omap vault_of guarding ++ omap vault_of minted
  <-> exists e, e ∈ created ++ guarding ++ minted /\ vault_of e = Some i.
Proof.
  rewrite !elem_of_app, !list_elem_of_omap. setoid_rewrite elem_of_app. setoid_rewrite elem_of_app.
  split; [intros [(e & ? & ?)|[(e & ? & ?)|(e & ? & ?)]]; exists e; tauto|]. intros (e & [?|[?|?]] & ?); [left|right; left|right; right]; now exists e.
Qed.

Section Views.
Context {N : Type}.
Implicit Types (c : Client N).

(** A call that answers [r] and leaves the network; [None] when it fails. *)
Definition answers {A : Type} (m : net N A) (r : option A) : Prop :=
  match r with Some a => forall n, m n = (Ok a, n) | None => forall n, exists e, m n = (Throw e, n) end.

Lemma attempt_answers {A : Type} (m : net N A) (r : option A) c : answers m r -> attempt (on_net m) c = (Ok r, c).
Proof.
  intros H. unfold attempt, ccatch, cbind, on_net. destruct r as [a|].
  - rewrite H. cbn. now destruct c.
  - destruct (H (network c)) as [e ->]. cbn. now destruct c.
Qed.

Definition with_vaults c (v : TTLCache VaultData) : Client N :=
  mkClient (provider c) (fallbackProviders c) (readContract c) (writeContract c) (verifiedAddress c) (hasVerifiedCode c)
    (hasActiveAccessCache c) v (localStorage c) (network c) (clock c).

Variables (contract : Views N) (vaults : Z -> option VaultData).
Hypothesis Hvaults : forall i, answers (v_getVault contract i) (vaults i).

(** No request is in the air, and what is cached is what the contract says. *)
Record vault_cache_ok (t : TTLCache VaultData) : Prop := {
  none_pending : pending t = ∅;
  entries_true : forall i e, 0 <= i -> cache t !! vault_key i = Some e -> vaults i = Some (TtlCache.data e)
}.

Lemma vault_key_inj (i j : Z) : 0 <= i -> 0 <= j -> vault_key i = vault_key j -> i = j.
Proof. intros Hi Hj H. apply num_str_inj; try assumption. now apply (prefix_inj "getVault:"). Qed.

(** The cache with the request of [key] in the air. *)
Definition issuing (key : string) (t : TTLCache VaultData) : TTLCache VaultData :=
  mkCache (cache t) (<[key := issued t]> (pending t)) (ttlMs t) (<[issued t := key]> (flying t)) (S (issued t)).

Lemma vault_settled (i now : Z) (t : TTLCache VaultData) : 0 <= i -> vault_cache_ok t ->
  vault_cache_ok (TtlCache.settle now (issued t) (vaults i) (issuing (vault_key i) t)).
Proof.
  intros Hi [Hp He]. unfold TtlCache.settle. cbn. rewrite lookup_insert_eq. split; cbn.
  - now rewrite Hp, delete_insert_eq, delete_empty.
  - intros j e Hj. destruct (vaults i) as [v|] eqn:Ev; [|now apply He].
    destruct (decide (vault_key j = vault_key i)) as [Hk|Hk].
    + apply vault_key_inj in Hk; try assumption. subst j. rewrite lookup_insert_eq. intros [= <-]. exact Ev.
    + rewrite lookup_insert_ne by congruence. now apply He.
Qed.

(** A fresh entry, or a request of our own. *)
Lemma vault_fetch_cases (i now : Z) (t : TTLCache VaultData) : 0 <= i -> vault_cache_ok t ->
  (exists v, TtlCache.fetch now (vault_key i) t = (Hit v, t) /\ vaults i = Some v)
  \/ TtlCache.fetch now (vault_key i) t = (Issued (issued t), issuing (vault_key i) t).
Proof.
  intros Hi [Hp He]. unfold TtlCache.fetch, issuing. rewrite Hp, lookup_empty.
  destruct (cache t !! vault_key i) as [e|] eqn:E; [|now right].
  destruct (now - TtlCache.timestamp e <? ttlMs t); [left|now right]. exists (TtlCache.data e). split; [reflexivity|]. now apply He.
Qed.

Lemma cached_vault (i : Z) c : 0 <= i -> vault_cache_ok (getVaultCache c) ->
  exists t, vault_cache_ok t /\ attempt (cachedGetVault contract i) c = (Ok (vaults i), with_vaults c t).
Proof.
  intros Hi Hok. unfold cachedGetVault, getOrFetch, attempt, ccatch, cbind, gets, cret.
  destruct (vault_fetch_cases i (clock c) (getVaultCache c) Hi Hok) as [(v & -> & Hv)| ->].
  - exists (getVaultCache c). split; [exact Hok|]. rewrite Hv. now destruct c.
  - pose proof (vault_settled i (clock c) (getVaultCache c) Hi Hok) as Hok'. eexists. split; [exact Hok'|].
    pose proof (Hvaults i) as H. unfold set_vault_cache, on_net. cbn. destruct (vaults i) as [v|]; cbn in H.
    + rewrite H. reflexivity.
    + destruct (H (network c)) as [e ->]. reflexivity.
Qed.

(** ** Pending approvals *)

Variables (approved : Z -> option bool) (requests : Z -> option AccessRequestData) (documents : Z -> option DocumentData).
Variables (guardian : string) (now : Z).
Hypothesis Happroved : forall i, answers (v_hasApprovedRequest contract i guardian) (approved i).
Hypothesis Hrequests : forall i, answers (v_accessRequests contract i) (requests i).
Hypothesis Hdocuments : forall i, answers (v_documents contract i) (documents i).
Hypothesis Hids : forall i d, documents i = Some d -> 0 <= doc_vaultId d.

(** What the list says of a request: it is open for the guardian of its vault, who has not
    approved it. *)
Definition pending_of (i : Z) : option PendingApprovalData :=
  match approved i, requests i with
  | Some false, Some r =>
      if (requestId r =? 0) || negb (request_status r =? 0) || (expiresAt r <=? now) then None
      else
        match documents (documentId r) with
        | Some d =>
            match vaults (doc_vaultId d) with
            | Some v => if is_guardian guardian v
                        then Some (mkPending i (documentId r) (doc_vaultId d) (name v) (requester r) (request_createdAt r) (expiresAt r))
                        else None
            | None => None
            end
        | None => None
        end
  | _, _ => None
  end.

Definition caches_ok (k : Caches) : Prop :=
  (forall i d, k.1 !! i = Some d -> documents i = Some d) /\ (forall i v, k.2 !! i = Some v -> vaults i = Some v).

Definition reaches {A : Type} (m : cio N A) c (P : A -> Prop) : Prop :=
  exists a t, m c = (Ok a, with_vaults c t) /\ vault_cache_ok t /\ P a.

Lemma same_vaults c : with_vaults c (getVaultCache c) = c.
Proof. now destruct c. Qed.

(** One of the two caches of a call. *)
Lemma cached_or_reaches {A : Type} (truth : Z -> option A) (k : gmap Z A) (i : Z) (m : cio N A) c :
  vault_cache_ok (getVaultCache c) -> (forall j x, k !! j = Some x -> truth j = Some x) ->
  (exists t, vault_cache_ok t /\ attempt m c = (Ok (truth i), with_vaults c t)) ->
  reaches (cached_or k i m) c (fun r => r.1 = truth i /\ forall j x, r.2 !! j = Some x -> truth j = Some x).
Proof.
  intros Hok Hk (t & Ht & E). unfold reaches, cached_or. destruct (k !! i) as [x|] eqn:Ei.
  - exists (Some x, k), (getVaultCache c). rewrite same_vaults. split; [reflexivity|]. split; [exact Hok|]. cbn. split; [|exact Hk].
    symmetry. now apply Hk.
  - unfold cbind, cret. rewrite E. destruct (truth i) as [x|] eqn:Et.
    + exists (Some x, <[i := x]> k), t. split; [reflexivity|]. split; [exact Ht|]. cbn. split; [reflexivity|]. intros j y.
      destruct (decide (j = i)) as [->|Hn]; [rewrite lookup_insert_eq; congruence|rewrite lookup_insert_ne by congruence; apply Hk].
    + exists (None, k), t. split; [reflexivity|]. split; [exact Ht|]. now split.
Qed.

Lemma examine_reaches (i : Z) (k : Caches) c : vault_cache_ok (getVaultCache c) -> caches_ok k ->
  reaches (examine contract guardian now i k) c (fun r => r.1 = pending_of i /\ caches_ok r.2).
Proof.
  intros Hok Hk. unfold reaches, examine, pending_of, cbind at 1. rewrite (attempt_answers _ _ c (Happroved i)).
  assert (Hnone : forall c, vault_cache_ok (getVaultCache c) ->
    reaches (cret (None, k)) c (fun r : option PendingApprovalData * Caches => r.1 = None /\ caches_ok r.2)).
  { intros c' Hok'. exists (None, k), (getVaultCache c'). rewrite same_vaults. split; [reflexivity|]. split; [exact Hok'|]. now split. }
  destruct (approved i) as [[]|]; try now apply Hnone.
  unfold cbind at 1. rewrite (attempt_answers _ _ c (Hrequests i)). destruct (requests i) as [r|]; [|now apply Hnone].
  destruct ((requestId r =? 0) || negb (request_status r =? 0) || (expiresAt r <=? now)); [now apply Hnone|].
  destruct Hk as [Hk1 Hk2].
  destruct (cached_or_reaches documents k.1 (documentId r) (on_net (v_documents contract (documentId r))) c Hok Hk1) as ([d docs] & t & E & Ht & Hd & Hdocs).
  { exists (getVaultCache c). split; [exact Hok|]. rewrite same_vaults. apply attempt_answers, Hdocuments. }
  unfold cbind at 1. rewrite E. cbn [fst snd] in Hd, Hdocs. rewrite <- Hd. destruct d as [d|].
  - destruct (cached_or_reaches vaults k.2 (doc_vaultId d) (cachedGetVault contract (doc_vaultId d)) (with_vaults c t)) as ([v vs] & t' & E' & Ht' & Hv & Hvs).
    + exact Ht.
    + exact Hk2.
    + apply cached_vault; [|exact Ht]. eapply Hids. symmetry. exact Hd.
    + unfold cbind. rewrite E'. cbn [fst snd] in Hv, Hvs. rewrite <- Hv. destruct v as [v|].
      * eexists _, t'. split; [reflexivity|]. split; [exact Ht'|]. cbn. split; [reflexivity|now split].
      * eexists _, t'. split; [reflexivity|]. split; [exact Ht'|]. cbn. split; [reflexivity|now split].
  - eexists _, t. split; [reflexivity|]. split; [exact Ht|]. cbn. split; [reflexivity|now split].
Qed.

(** The requests of the entries, each at its first entry. *)
Fixpoint fresh_requests (entries : list Entry) (seen : list Z) : list Z :=
  match entries with
  | [] => []
  | e :: rest =>
      match request_of e with
      | None => fresh_requests rest seen
      | Some i => if (i =? 0) || bool_decide (i ∈ seen) then fresh_requests rest seen else i :: fresh_requests rest (i :: seen)
      end
  end.

Lemma scan_reaches (limit : Z) (entries : list Entry) : forall seen k found c, vault_cache_ok (getVaultCache c) -> caches_ok k ->
  Z.of_nat (length found) < limit ->
  reaches (scan contract guardian now limit entries seen k found) c
    (fun l => l = firstn (Z.to_nat limit) (found ++ omap pending_of (fresh_requests entries seen))).
Proof.
  induction entries as [|e rest IH]; intros seen k found c Hok Hk Hl; cbn [scan fresh_requests].
  - exists found, (getVaultCache c). rewrite same_vaults. split; [reflexivity|]. split; [exact Hok|]. cbn. rewrite app_nil_r, firstn_all2; [reflexivity|lia].
  - destruct (request_of e) as [i|]; [|now apply IH]. destruct ((i =? 0) || bool_decide (i ∈ seen)); [now apply IH|].
    destruct (examine_reaches i k c Hok Hk) as ([p k'] & t & E & Ht & Hp & Hk'). unfold reaches, cbind. rewrite E.
    cbn [fst snd] in Hp, Hk'. cbn [omap list_omap]. rewrite <- Hp. destruct p as [p|].
    + destruct (Z.leb_spec limit (Z.of_nat (length (found ++ [p])))) as [Hfull|Hfull]; rewrite length_app in Hfull; cbn [length] in Hfull.
      * exists (found ++ [p]), t. split; [reflexivity|]. split; [exact Ht|].
        rewrite (cons_middle p found (omap _ _)), (app_assoc found [p]), firstn_app, length_app. cbn [length].
        rewrite firstn_all2 by (rewrite length_app; cbn [length]; lia).
        replace (Z.to_nat limit - (length found + 1))%nat with O by lia. cbn. now rewrite app_nil_r.
      * destruct (IH (i :: seen) k' (found ++ [p]) (with_vaults c t) Ht Hk') as (l & t' & E' & Ht' & ->); [rewrite length_app; cbn [length]; lia|].
        eexists _, t'. split; [exact E'|]. split; [exact Ht'|]. now rewrite (cons_middle p found (omap _ _)), (app_assoc found [p]).
    + destruct (IH (i :: seen) k' found (with_vaults c t) Ht Hk' Hl) as (l & t' & E' & Ht' & ->).
      eexists _, t'. split; [exact E'|]. split; [exact Ht'|]. reflexivity.
Qed.

Lemma pending_id (i : Z) (p : PendingApprovalData) : pending_of i = Some p -> p_requestId p = i.
Proof.
  unfold pending_of. destruct (approved i) as [[]|]; try discriminate. destruct (requests i) as [r|]; [|discriminate].
  destruct ((requestId r =? 0) || _ || _); [discriminate|]. destruct (documents _) as [d|]; [|discriminate].
  destruct (vaults _) as [v|]; [|discriminate]. destruct (is_guardian _ v); [|discriminate]. intros [= <-]. reflexivity.
Qed.

Lemma fresh_spec (entries : list Entry) : forall seen,
  NoDup (fresh_requests entries seen)
  /\ forall i, i ∈ fresh_requests entries seen <-> i <> 0 /\ (i ∉ seen) /\ exists e, e ∈ entries /\ request_of e = Some i.
Proof.
  induction entries as [|e rest IH]; intros seen; cbn [fresh_requests].
  - split; [constructor|]. intros i. rewrite elem_of_nil. split; [tauto|]. intros (_ & _ & e & He & _). now apply elem_of_nil in He.
  - assert (Hskip : (forall i, request_of e = Some i -> i = 0 \/ i ∈ seen) -> NoDup (fresh_requests rest seen)
      /\ forall i, i ∈ fresh_requests rest seen <-> i <> 0 /\ (i ∉ seen) /\ exists e0, e0 ∈ e :: rest /\ request_of e0 = Some i).
    { intros H. destruct (IH seen) as [Hn Hi]. split; [exact Hn|]. intros i. rewrite Hi.
      split; intros (H0 & Hs & e0 & He & Hr); (split; [exact H0|split; [exact Hs|]]).
      - exists e0. split; [now right|exact Hr].
      - apply elem_of_cons in He as [->|He]; [|now exists e0]. destruct (H i Hr); [congruence|contradiction]. }
    destruct (request_of e) as [i|] eqn:Er; [|now apply Hskip].
    destruct (Z.eqb_spec i 0) as [->|H0]; cbn [orb]; [apply Hskip; intros j [= <-]; now left|].
    destruct (bool_decide (i ∈ seen)) eqn:Es; [apply bool_decide_eq_true in Es; apply Hskip; intros j [= <-]; now right|].
    apply bool_decide_eq_false in Es. destruct (IH (i :: seen)) as [Hn Hi]. split.
    + constructor; [|exact Hn]. rewrite Hi. intros (_ & H & _). apply H. now left.
    + intros j. rewrite elem_of_cons, Hi, not_elem_of_cons. split.
      * intros [->|(Hj0 & [_ Hs] & e0 & He & Hr)]; [repeat split; try assumption; exists e; split; [now left|exact Er]|].
        repeat split; try assumption. exists e0. split; [now right|exact Hr].
      * intros (Hj0 & Hs & e0 & He & Hr). destruct (decide (j = i)) as [->|Hji]; [now left|right]. repeat split; try assumption.
        apply elem_of_cons in He as [->|He]; [congruence|now exists e0].
Qed.

Lemma pending_ids (ids : list Z) : NoDup ids -> NoDup (map p_requestId (omap pending_of ids)).
Proof.
  induction 1 as [|i ids Hi _ IH]; [constructor|]. cbn [omap list_omap]. destruct (pending_of i) as [p|] eqn:E; [|exact IH].
  cbn [map]. constructor; [|exact IH]. rewrite (pending_id i p E). intros Hin. apply Hi.
  apply list_elem_of_In, in_map_iff in Hin as (q & Hq & Hin). apply list_elem_of_In, list_elem_of_omap in Hin as (j & Hj & Ej).
  apply pending_id in Ej. congruence.
Qed.

(** ** The whole call *)

Variables (env : Settings) (parseLog : Log -> res (option Event)) (getEvent : string -> res bool)
  (encodeFilterTopics : string -> list FilterArg -> json) (contractAddress : string).
Hypothesis Haddress : getContractAddress env = Ok contractAddress.

(** A client that has verified the deployment. *)
Definition verified c : Prop :=
  hasVerifiedCode c = true /\ verifiedAddress c = Some contractAddress /\ readContract c = Some contract.

Lemma ready_known c : verified c -> ready env c = (Ok contract, c).
Proof.
  intros (H1 & H2 & H3). unfold ready, ensureContractDeployed, cbind, of_res, gets. rewrite Haddress, H1, H2.
  rewrite bool_decide_true by reflexivity. cbn. unfold ensureReadContract. now rewrite H3.
Qed.

(** The query for an event returns [logs]. *)
Definition reads_logs (eventName : string) (options : EventLogQueryOptions) c (logs : list Entry) : Prop :=
  fst (getEventLogs env parseLog getEvent encodeFilterTopics eventName options c) = Ok logs.
Definition after_query (eventName : string) (options : EventLogQueryOptions) c : Client N :=
  snd (getEventLogs env parseLog getEvent encodeFilterTopics eventName options c).

Lemma query_result (eventName : string) (options : EventLogQueryOptions) c (logs : list Entry) : reads_logs eventName options c logs ->
  getEventLogs env parseLog getEvent encodeFilterTopics eventName options c = (Ok logs, after_query eventName options c).
Proof. unfold reads_logs, after_query. destruct (getEventLogs _ _ _ _ _ _ _). now intros <-. Qed.

Lemma query_verified (eventName : string) (options : EventLogQueryOptions) c : verified c -> verified (after_query eventName options c).
Proof. intros (H1 & H2 & H3). destruct (frames_query env parseLog getEvent encodeFilterTopics eventName options c) as [? ? ? ? ? ? ? ? ?].
  unfold verified, after_query. repeat split; congruence. Qed.
Lemma query_vaults (eventName : string) (options : EventLogQueryOptions) c : getVaultCache (after_query eventName options c) = getVaultCache c.
Proof. apply (frames_query env parseLog getEvent encodeFilterTopics eventName options c). Qed.

(** C40: The pending approvals of a guardian are exactly the open requests in the scanned logs of
    vaults that have the guardian, which the guardian has not approved and which have not
    expired: at most [limit] of them, each once, and all of them when they are fewer. *)
Theorem pending_approvals (limit : Z) (logs : list Entry) c :
  verified c -> vault_cache_ok (getVaultCache c) -> now = clock c / 1000 -> blank guardian = false -> 0 < limit ->
  reads_logs "AccessRequested" (mkQuery (Some (getPendingRequestScanDepth env)) None) c logs ->
  exists l c', fetchPendingApprovalsForGuardian env parseLog getEvent encodeFilterTopics guardian limit c = (Ok l, c')
    /\ (length l <= Z.to_nat limit)%nat /\ NoDup (map p_requestId l)
    /\ (forall p, p ∈ l -> pending_of (p_requestId p) = Some p /\ exists e, e ∈ logs /\ request_of e = Some (p_requestId p))
    /\ ((length l < Z.to_nat limit)%nat -> forall e i p, e ∈ logs -> request_of e = Some i -> i <> 0 -> pending_of i = Some p -> p ∈ l).
Proof.
  intros Hc Hok Hnow Hg Hl Hlogs. unfold fetchPendingApprovalsForGuardian. rewrite Hg. unfold cbind at 1. rewrite (ready_known c Hc).
  unfold cbind at 1. rewrite (query_result _ _ _ _ Hlogs). set (c1 := after_query _ _ c). unfold cbind at 1, gets.
  assert (Ht : clock c1 = clock c) by apply (frames_query env parseLog getEvent encodeFilterTopics). rewrite Ht, <- Hnow.
  destruct (scan_reaches limit (sortDescending logs) [] (∅, ∅) [] c1) as (l & t & E & _ & ->).
  - unfold c1. now rewrite query_vaults.
  - split; intros i x H; cbn in H; rewrite lookup_empty in H; discriminate H.
  - exact Hl.
  - eexists _, _. split; [exact E|]. cbn [app]. destruct (fresh_spec (sortDescending logs) []) as [Hn Hi].
    set (ids := fresh_requests (sortDescending logs) []) in *.
    assert (Hin : forall e, e ∈ sortDescending logs <-> e ∈ logs) by (intros e; unfold sortDescending; now rewrite merge_sort_Permutation).
    split; [rewrite length_firstn; lia|]. split; [|split].
    + rewrite <- firstn_map. pose proof (pending_ids ids Hn) as H. rewrite <- (take_drop (Z.to_nat limit) (map _ _)) in H.
      now apply NoDup_app in H as [H _].
    + intros p Hp. assert (Hp' : p ∈ omap pending_of ids) by (rewrite <- (take_drop (Z.to_nat limit)); apply elem_of_app; now left).
      apply list_elem_of_omap in Hp' as (i & Hii & E1). rewrite (pending_id i p E1).
      split; [exact E1|]. apply Hi in Hii as (_ & _ & e & He & Hr). exists e. split; [now apply Hin|exact Hr].
    + intros Hlt e i p He Hr H0 Hp. rewrite firstn_all2; [|rewrite length_firstn in Hlt; lia].
      apply list_elem_of_omap. exists i. split; [|exact Hp]. apply Hi. split; [exact H0|]. split; [apply not_elem_of_nil|].
      exists e. split; [now apply Hin|exact Hr].
Qed.

(** ** The vaults of an account *)

Lemma vaults_by_id (ids : list Z) : forall c, vault_cache_ok (getVaultCache c) -> (forall i, i ∈ ids -> 0 <= i) ->
  reaches (cmapM (fun i => attempt (cachedGetVault contract i)) ids) c (fun l => l = map vaults ids).
Proof.
  induction ids as [|i ids IH]; intros c Hok Hp; cbn [cmapM].
  - exists [], (getVaultCache c). rewrite same_vaults. split; [reflexivity|]. split; [exact Hok|reflexivity].
  - destruct (cached_vault i c) as (t & Ht & E); [apply Hp; now left|exact Hok|].
    destruct (IH (with_vaults c t) Ht) as (l & t' & E' & Ht' & ->); [intros j Hj; apply Hp; now right|].
    eexists _, t'. unfold cbind. rewrite E, E'. split; [reflexivity|]. split; [exact Ht'|reflexivity].
Qed.

Variables (account : string) (tokens : Z -> option bool).
Hypothesis Htokens : forall i, answers (v_hasVaultToken contract account i) (tokens i).

(** Creator, guardian, or holder of a token of the vault. *)
Definition member (v : VaultData) : bool :=
  is_creator account v || is_guardian account v || match tokens (id v) with Some b => b | None => false end.

Lemma keep_one (v : VaultData) c : keep_vault contract account v c = (Ok (if member v then Some v else None), c).
Proof.
  unfold keep_vault, member. destruct (is_creator account v || is_guardian account v); [reflexivity|].
  unfold has_token, cbind, cret. rewrite (attempt_answers _ _ c (Htokens (id v))). now destruct (tokens (id v)) as [[]|].
Qed.

Lemma keep_members (l : list VaultData) c :
  cmapM (keep_vault contract account) l c = (Ok (map (fun v => if member v then Some v else None) l), c).
Proof. induction l as [|v l IH]; [reflexivity|]. cbn [cmapM map]. unfold cbind at 1. rewrite keep_one. unfold cbind. now rewrite IH. Qed.

Hypothesis Hid : forall i v, vaults i = Some v -> id v = i.

Definition member_vault (i : Z) : option VaultData := v ← vaults i; if member v then Some v else None.

Lemma member_vault_spec (i : Z) (v : VaultData) : member_vault i = Some v <-> i = id v /\ vaults (id v) = Some v /\ member v = true.
Proof.
  unfold member_vault. split.
  - destruct (vaults i) as [w|] eqn:E; [|discriminate]. cbn. destruct (member w) eqn:Em; [|discriminate]. intros [= ->].
    rewrite (Hid i v E). now repeat split.
  - intros (-> & Hv & Hm). rewrite Hv. cbn. now rewrite Hm.
Qed.

(** The two filters of the code are one pass over the ids. *)
Lemma kept_vaults (ids : list Z) :
  omap (fun v => v) (map (fun v => if member v then Some v else None) (omap (fun v => v) (map vaults ids))) = omap member_vault ids.
Proof.
  induction ids as [|i ids IH]; [reflexivity|]. cbn [map omap list_omap]. unfold member_vault at 1. destruct (vaults i) as [v|]; [|exact IH].
  cbn [map omap list_omap mbind option_bind]. destruct (member v); [|exact IH]. now rewrite <- IH.
Qed.

Lemma kept_ids (ids : list Z) : NoDup ids -> NoDup (map id (omap member_vault ids)).
Proof.
  induction 1 as [|i ids Hi _ IH]; [constructor|]. cbn [omap list_omap]. destruct (member_vault i) as [v|] eqn:E; [|exact IH].
  cbn [map]. constructor; [|exact IH]. apply member_vault_spec in E as (-> & _). intros Hin. apply Hi.
  apply list_elem_of_In, in_map_iff in Hin as (w & <- & Hin). apply list_elem_of_In, list_elem_of_omap in Hin as (j & Hj & E).
  apply member_vault_spec in E as (-> & _). exact Hj.
Qed.

(** An account is shown exactly the vaults it created, guards or holds a token of, each
    once, when the event of each of them is in the logs. *)
Theorem account_sees_its_vaults (created guarding minted : list Entry) c :
  verified c -> vault_cache_ok (getVaultCache c) -> blank account = false ->
  let by_account := mkQuery None (Some [One F_null; One (F_text (toLowerCase account))]) in
  let c1 := after_query "VaultCreated" by_account c in
  let c2 := after_query "GuardianAdded" by_account c1 in
  reads_logs "VaultCreated" by_account c created ->
  reads_logs "GuardianAdded" by_account c1 guarding ->
  reads_logs "NFTMinted" (mkQuery None (Some [One F_null; One (F_text (toLowerCase account)); One F_null])) c2 minted ->
  (forall v, vaults (id v) = Some v -> member v = true -> 0 < id v /\ exists e, e ∈ created ++ guarding ++ minted /\ vault_of e = Some (id v)) ->
  exists l c', fetchVaultsForAccount env parseLog getEvent encodeFilterTopics account [] c = (Ok l, c')
    /\ NoDup (map id l) /\ forall v, v ∈ l <-> vaults (id v) = Some v /\ member v = true.
Proof.
  intros Hc Hok Ha by_account c1 c2 H1 H2 H3 Hevents. unfold fetchVaultsForAccount. rewrite Ha. unfold cbind at 1. rewrite (ready_known c Hc).
  unfold cbind at 1. fold by_account. rewrite (query_result _ _ _ _ H1). unfold cbind at 1. fold by_account c1. rewrite (query_result _ _ _ _ H2).
  unfold cbind at 1. unfold cbind at 1. fold c2. rewrite (query_result _ _ _ _ H3). unfold cret at 1. set (c3 := after_query "NFTMinted" _ c2).
  assert (Hc3 : verified c3) by (unfold c3, c2, c1; now repeat apply query_verified).
  assert (Hok3 : vault_cache_ok (getVaultCache c3)) by (unfold c3, c2, c1; now rewrite !query_vaults).
  set (X := omap vault_of created ++ omap vault_of guarding ++ omap vault_of minted).
  unfold fetchVaultsByIds. unfold cbind at 1. unfold cbind at 1. rewrite (ready_known c3 Hc3).
  set (ids := List.filter (fun i => 0 <? i) (distinct_ids (distinct_ids X))).
  assert (Hids' : forall i, i ∈ ids <-> i ∈ X /\ 0 < i).
  { intros i. unfold ids. rewrite list_elem_of_In, filter_In, <- list_elem_of_In, Z.ltb_lt.
    destruct (distinct_ids_spec (distinct_ids X)) as [_ A], (distinct_ids_spec X) as [_ B]. now rewrite A, B. }
  assert (Hn : NoDup ids) by (unfold ids; apply NoDup_ListNoDup, List.NoDup_filter, NoDup_ListNoDup, distinct_ids_spec).
  destruct (vaults_by_id ids c3 Hok3) as (l & t & E & _ & ->); [intros i Hi; apply Hids' in Hi; lia|].
  unfold cbind at 1. change (cmapM _ ids c3) with (cmapM (fun i => attempt (cachedGetVault contract i)) ids c3). rewrite E.
  unfold cret at 1. unfold cbind. rewrite keep_members. eexists _, _. split; [reflexivity|]. rewrite kept_vaults. split; [now apply kept_ids|].
  intros v. rewrite list_elem_of_omap. split.
  - intros (i & _ & H). now apply member_vault_spec in H as (_ & H).
  - intros [Hv Hm]. exists (id v). split; [|now apply member_vault_spec]. apply Hids'. destruct (Hevents v Hv Hm) as [Hp He].
    split; [|exact Hp]. now apply vault_entries.
Qed.

End Views.

(** ** A small deployment *)

Module DemoVaults.
Import DemoNode.

Definition demo_log (topic : string) (b i : Z) : Log := mkLog "0xC0" "0xb" b "0x" i false [topic] "0xt" 0.
Definition deployed : list Log :=
  [demo_log "0xVaultCreated" 5 0; demo_log "0xGuardianAdded" 6 0; demo_log "0xNFTMinted" 7 0; demo_log "0xAccessRequested" 8 0;
   demo_log "0xAccessRequested" 9 1].
Definition decode_demo (log : Log) : res (option Event) :=
  Ok (match topics log with
      | ["0xVaultCreated"%string] => Some (VaultCreated 1 "0xAda")
      | ["0xGuardianAdded"%string] => Some (GuardianAdded 2 "0xAda")
      | ["0xNFTMinted"%string] => Some (NFTMinted 1 "0xAda" 3)
      | ["0xAccessRequested"%string] => Some (AccessRequested (index log + 1) 1 "0xBob")
      | _ => None
      end).
Definition archive : Provider unit :=
  mkProvider unit (fun n => (Ok 20, n))
    (fun f n => (Ok (List.filter (fun l => String.eqb (stringify_with 0 (JArr (map JStr (topics l)))) (stringify_with 0 (f_topics f)))
                       (between (EvmClient.fromBlock f) (toBlock f) deployed)), n))
    (fun _ n => (Ok "0x60"%string, n)) (fun b n => (Ok (Some b), n)) (fun _ _ n => (Ok None, n)).

(** Vault 1 is Ada's, vault 2 has her as a guardian, she once held a token of vault 3. *)
Definition demo_vault (i : Z) : option VaultData :=
  if i =? 1 then Some (mkVaultData 1 "0xADA" "Wills" "" [] 1 true 0)
  else if i =? 2 then Some (mkVaultData 2 "0xEve" "Deeds" "" ["0xADA"%string] 1 true 0)
  else if i =? 3 then Some (mkVaultData 3 "0xEve" "Maps" "" [] 1 true 0)
  else None.
Definition demo_document (d : Z) : option DocumentData :=
  if d =? 1 then Some (mkDocumentData 1 2 "" "Qm" "0xEve" 0 1) else None.
(** Request 2 has expired. *)
Definition demo_request (i : Z) : option AccessRequestData :=
  if i =? 1 then Some (mkAccessRequest 1 1 "0xBob" 0 5000 100)
  else if i =? 2 then Some (mkAccessRequest 2 1 "0xBob" 0 900 100) else None.

Definition view {A : Type} (o : option A) : net unit A := fun n => (match o with Some a => Ok a | None => Throw "CALL_EXCEPTION" end, n).
Lemma view_answers {A : Type} (o : option A) : answers (view o) o.
Proof. destruct o; cbn; [reflexivity|]. intros n. eexists. reflexivity. Qed.

Definition demo_views : Views unit :=
  mkViews unit (fun i => view (demo_vault i)) (fun d => view (demo_document d)) (fun _ _ => view (Some false)) (view (Some 1))
    (fun _ _ => view (Some false)) (fun _ _ => view (Some 0)) (fun i => view (demo_request i)) (fun _ _ => view (Some false))
    (fun _ => view None) (fun _ => view None) (fun _ => view None) (fun _ => view None) (fun _ _ => view None) (fun _ _ => view None)
    (fun _ _ => view None) (fun _ => view None) (fun _ => view None) (fun _ => view None) (fun _ => view None) (fun _ => view None)
    (fun _ => view None) (fun _ _ => view None).

(** A clock of 1000 s. *)
Definition visitor : Client unit :=
  mkClient None [archive] (Some demo_views) None (Some "0xC0"%string) true (TtlCache.new_cache 10000) (TtlCache.new_cache 10000)
    (Some empty_storage) tt 1000000.
Lemma empty_cache_ok : vault_cache_ok demo_vault (getVaultCache visitor).
Proof. split; [reflexivity|]. intros i e _ H. cbn in H. rewrite lookup_empty in H. discriminate H. Qed.

Lemma pending_approvals_witness :
  exists l c', fetchPendingApprovalsForGuardian (settings 1) decode_demo known demo_topics "0xada" 10 visitor = (Ok l, c')
    /\ (length l <= 10)%nat /\ NoDup (map p_requestId l) /\ mkPending 1 1 2 "Deeds" "0xBob" 100 5000 ∈ l.
Proof.
  destruct (pending_approvals demo_views demo_vault (fun i => view_answers (demo_vault i)) (fun _ => Some false) demo_request demo_document "0xada" 1000
    (fun i => view_answers (Some false)) (fun i => view_answers (demo_request i)) (fun i => view_answers (demo_document i))
    ltac:(intros i d H; unfold demo_document in H; destruct (i =? 1); [injection H as <-; cbn; lia|discriminate H])
    (settings 1) decode_demo known demo_topics "0xC0" eq_refl 10
    [(demo_log "0xAccessRequested" 8 0, AccessRequested 1 1 "0xBob"); (demo_log "0xAccessRequested" 9 1, AccessRequested 2 1 "0xBob")] visitor) as (l & c' & E & H1 & H2 & Hall & H3).
  - repeat split.
  - apply empty_cache_ok.
  - reflexivity.
  - reflexivity.
  - lia.
  - vm_compute. reflexivity.
  - exists l, c'. split; [exact E|]. split; [exact H1|]. split; [exact H2|].
    assert (Hlen : (length (map p_requestId l) <= length [1%Z; 2%Z])%nat).
    { apply List.NoDup_incl_length; [now apply NoDup_ListNoDup|]. intros i Hi. apply in_map_iff in Hi as (p & <- & Hp).
      apply list_elem_of_In, Hall in Hp as (_ & e & He & Hr). rewrite !elem_of_cons, elem_of_nil in He.
      destruct He as [->|[->|[]]]; cbn in Hr; injection Hr as <-; cbn; tauto. }
    rewrite length_map in Hlen. cbn in Hlen.
    apply (H3 ltac:(cbn; lia) (demo_log "0xAccessRequested" 8 0, AccessRequested 1 1 "0xBob") 1);
      [left|reflexivity|discriminate|vm_compute; reflexivity].
Defined.

Lemma account_sees_its_vaults_witness :
  exists l c', fetchVaultsForAccount (settings 1) decode_demo known demo_topics "0xada" [] visitor = (Ok l, c')
    /\ NoDup (map id l) /\ forall v, v ∈ l <-> demo_vault (id v) = Some v /\ member "0xada" (fun _ => Some false) v = true.
Proof.
  apply (account_sees_its_vaults demo_views demo_vault (fun i => view_answers (demo_vault i)) (settings 1) decode_demo known demo_topics "0xC0" eq_refl
    "0xada" (fun _ => Some false) (fun i => view_answers (Some false))
    ltac:(intros i v H; unfold demo_vault in H; destruct (Z.eqb_spec i 1); [injection H as <-; cbn; lia|];
          destruct (Z.eqb_spec i 2); [injection H as <-; cbn; lia|]; destruct (Z.eqb_spec i 3); [injection H as <-; cbn; lia|discriminate H])
    [(demo_log "0xVaultCreated" 5 0, VaultCreated 1 "0xAda")] [(demo_log "0xGuardianAdded" 6 0, GuardianAdded 2 "0xAda")]
    [(demo_log "0xNFTMinted" 7 0, NFTMinted 1 "0xAda" 3)] visitor).
  - repeat split.
  - apply empty_cache_ok.
  - reflexivity.
  - vm_compute. reflexivity.
  - vm_compute. reflexivity.
  - vm_compute. reflexivity.
  - intros v Hv Hm. unfold demo_vault in Hv. destruct (Z.eqb_spec (id v) 1) as [E|].
    + split; [lia|]. eexists. split; [vm_compute; left|]. now rewrite E.
    + destruct (Z.eqb_spec (id v) 2) as [E|].
      * split; [lia|]. eexists. split; [vm_compute; right; left|]. now rewrite E.
      * destruct (Z.eqb_spec (id v) 3); [|discriminate Hv]. injection Hv as <-. discriminate Hm.
Defined.

End DemoVaults.
