(* ===== verification/ContractProxy.v ===== *)
(** * ContractProxy: the [contractService] the pages use

    The last part of contract.service.ts: every operation goes to the Stellar service or to
    the EVM client, as the storage of the page says; some writes are queued when the network
    is down, some reads fall back to what was read last.  The queue and the cache are in
    services/offline, which is not part of the repository: they are arguments. *)

From Stdlib Require Import Ascii String ZArith Lia Bool.
From stdpp Require Import base list gmap strings.
From S2P Require Import Prelude JsString JsonText TtlCache JsNumber KeyInbox StellarLedger StellarLedgerProofs KeyStore EvmClient EventLogs EvmReads.

Open Scope list_scope.
Open Scope Z_scope.
Open Scope io_scope.

(** The EVM client, the variables and the storage of the Stellar service, and what
    services/offline keeps. *)
Record App (N O : Type) : Type := mkApp { client : Client N; session : Session; offline : O }.
Arguments mkApp {N O}. Arguments client {N O}. Arguments session {N O}. Arguments offline {N O}.

(** An action of the queue. *)
Inductive Action : Type :=
| A_createVault (name description : string) (guardians : list string) (approvalThreshold : Z)
| A_addDocument (vaultId : Z) (encryptedMetadata ipfsHash : string) (requiredAccess releaseCondition : Z)
    (guardiansList shares : option (list string))
| A_requestAccess (documentId : Z)
| A_registerPublicKey (publicKey : string).

(** The label an action is queued with, and what the error says was queued. *)
Definition action_label (a : Action) : string :=
  match a with
  | A_createVault name _ _ _ => "Vault " ++ String "034" (name ++ String "034" "")
  | A_addDocument vaultId _ _ _ _ _ _ => "document upload to vault #" ++ num_str vaultId
  | A_requestAccess documentId => "access request for document #" ++ num_str documentId
  | A_registerPublicKey _ => "encryption public key registration"
  end%string.
Definition queued_label (a : Action) : string :=
  match a with
  | A_createVault name _ _ _ => "vault " ++ String "034" (name ++ String "034" " creation")
  | A_addDocument _ _ _ _ _ _ _ => "document upload"
  | A_requestAccess _ => "access request"
  | A_registerPublicKey _ => "encryption public key registration"
  end%string.

(** What the reads of the two services are cast to. *)
Definition vault_data (v : MockVault * string) : VaultData :=
  let v := v.1 in
  mkVaultData (v_id v) (v_creator v) (v_name v) (v_description v) (v_guardians v) (v_approvalThreshold v) (v_isActive v) (v_createdAt v).
Definition document_data (d : MockDocument) : DocumentData :=
  mkDocumentData (d_id d) (d_vaultId d) (d_encryptedMetadata d) (d_ipfsHash d) (d_uploadedBy d) (d_uploadedAt d) (d_requiredAccess d).
Definition invite_data (i : MockInvite) : GuardianInviteData := mkInviteData (i_guardian i) (i_vaultId i) (i_accepted i) (i_expiresAt i).
Definition pending_data (p : StellarPendingApprovalData) : PendingApprovalData :=
  EvmReads.mkPending (StellarLedger.p_requestId p) (StellarLedger.p_documentId p) (StellarLedger.p_vaultId p) (StellarLedger.p_vaultName p)
    (StellarLedger.p_requester p) (StellarLedger.p_createdAt p) (StellarLedger.p_expiresAt p).
Definition schedule_data (s : EmergencyUnlockSchedule) : bool * bool * number * number :=
  (EvmClient.requested s, EvmClient.fulfilled s, Fin (EvmClient.unlockAt s) 0, Fin (EvmClient.unlockBlock s) 0).
(** emergencyMode, inactivityPeriod, lastProofOfLife, postDeathUnlocked *)
Definition release_data (r : VaultReleaseState) : bool * number * number * bool :=
  (EvmClient.emergencyMode r, Fin (inactivityPeriod r) 0, Fin (lastProofOfLife r) 0, postDeathUnlocked r).
Definition bls_data (k : option BlsKey) : BLSKey :=
  match k with Some k => mkBLSKey (b_publicKey k) (b_proofOfPossession k) (b_registered k) | None => mkBLSKey "" "" false end.

Inductive Network : Type := N_avalanche | N_stellar | N_other.

Definition network_of (name : string) : Network :=
  if String.eqb name "stellar" then N_stellar else if String.eqb name "avalanche" then N_avalanche else N_other.

Section Proxy.
Context {N O : Type}.
(** The EVM client. *)
Variables (env : Settings) (getFunction : string -> res bool) (parseLog : Log -> res (option Event)) (getEvent : string -> res bool)
  (encodeFilterTopics : string -> list FilterArg -> json).
(** The Stellar service. *)
Variables (env_contract : option string) (call query : Session -> string -> list ScVal -> res ScVal).

Abbreviation P := (io (App N O)).

(** services/offline: whether an error is the network's, the queue, and the cached reads. *)
Record Offline : Type := mkOffline {
  isNetworkFailure : O -> string -> bool;
  enqueueAction : Action -> string -> io O unit;
  offlineQueuedError : string -> string;
  withOfflineFallback : forall {A : Type}, string -> P A -> P A -> (A -> P unit) -> P A;
  readVaultsCache : string -> string -> P (list VaultData); writeVaultsCache : string -> string -> list VaultData -> P unit;
  readDocumentsCache : string -> string -> P (list DocumentData); writeDocumentsCache : string -> string -> list DocumentData -> P unit;
  readPublicKeyCache : string -> string -> P string; writePublicKeyCache : string -> string -> string -> P unit;
  readInvitesCache : string -> string -> P (list GuardianInviteData); writeInvitesCache : string -> string -> list GuardianInviteData -> P unit
}.
Variable services : Offline.

Definition on_client {A : Type} (m : cio N A) : P A :=
  fun s => let '(r, c) := m (client s) in (r, mkApp c (session s) (offline s)).
Definition on_stellar {A : Type} (m : io Session A) : P A :=
  fun s => let '(r, t) := m (session s) in (r, mkApp (client s) t (offline s)).
Definition on_offline {A : Type} (m : io O A) : P A :=
  fun s => let '(r, o) := m (offline s) in (r, mkApp (client s) (session s) o).
(** [Date.now()] *)
Definition now : P Z := fun s => (Ok (clock (client s)), s).

(** [localStorage.getItem("spoovault-ecosystem") || "avalanche"], which throws when the
    storage does. *)
Definition getEcosystem : P string :=
  fun s =>
    match EvmClient.localStorage (client s) with
    | None => (Ok "avalanche"%string, s)
    | Some storage =>
        match getItem storage "spoovault-ecosystem" with
        | None => (Throw "SecurityError"%string, s)
        | Some v => (Ok (if blank (or_empty v) then "avalanche"%string else or_empty v), s)
        end
    end.

(** [if (getEcosystem() === "stellar") { stellar } else { evm }] *)
Definition dispatch {A : Type} (stellar evm : P A) : P A :=
  do! e <- getEcosystem in if String.eqb e "stellar" then stellar else evm.

(** ** Writes that are queued when the network is down *)

Definition id_of (m : cio N Z) : P number := do! i <- on_client m in ret (Fin i 0).

(** The [run] of each operation. *)
Definition perform (a : Action) : P number :=
  do! t <- now in
  match a with
  | A_createVault name description guardians threshold =>
      dispatch (on_stellar (StellarLedger.createVault env_contract call name description guardians threshold t))
        (id_of (EvmClient.createVault env parseLog name description guardians threshold))
  | A_addDocument vaultId metadata hash access condition guardiansList shares =>
      dispatch (on_stellar (StellarLedger.addDocument env_contract call vaultId metadata hash access condition
                              (match guardiansList with Some l => l | None => [] end) (match shares with Some l => l | None => [] end) t))
        (id_of (EvmClient.addDocument env getFunction parseLog vaultId metadata hash access condition guardiansList shares))
  | A_requestAccess documentId =>
      dispatch (on_stellar (StellarLedger.requestAccess env_contract call documentId t))
        (id_of (EvmClient.requestAccess env parseLog documentId))
  | A_registerPublicKey publicKey =>
      do! _ <- dispatch (on_stellar (StellarLedger.registerPublicKey env_contract call publicKey))
                 (on_client (EvmClient.registerPublicKey env publicKey)) in
      ret (Fin 0 0)
  end.

(** [try { return await run() } catch (e) { if (isNetworkFailure(e)) { ... } throw e }] *)
Definition queued (a : Action) : P number :=
  try_catch (perform a) (fun e s =>
    if isNetworkFailure services (offline s) e
    then (do! _ <- on_offline (enqueueAction services a (action_label a)) in throw (offlineQueuedError services (queued_label a))) s
    else (Throw e, s)).

Definition proxiedCreateVault (name description : string) (guardians : list string) (approvalThreshold : Z) : P number :=
  queued (A_createVault name description guardians approvalThreshold).
Definition proxiedAddDocument (vaultId : Z) (encryptedMetadata ipfsHash : string) (requiredAccess releaseCondition : Z)
    (guardiansList shares : option (list string)) : P number :=
  queued (A_addDocument vaultId encryptedMetadata ipfsHash requiredAccess releaseCondition guardiansList shares).
Definition proxiedRequestAccess (documentId : Z) : P number := queued (A_requestAccess documentId).
Definition proxiedRegisterPublicKey (publicKey : string) : P unit := do! _ <- queued (A_registerPublicKey publicKey) in ret tt.

(** ** Writes that are not *)

Definition proxiedApproveAccess (requestId : Z) (share : option string) : P unit :=
  do! _ <- dispatch (on_stellar (StellarLedger.approveAccess env_contract call requestId share))
             (on_client (EvmClient.approveAccess env getFunction requestId share)) in
  on_client clearAccessCache.

Definition proxiedAcceptGuardianInvite (vaultId : Z) : P unit :=
  dispatch (do! _ <- on_stellar (StellarLedger.acceptGuardianInvite env_contract call vaultId) in on_client clearAccessCache)
    (on_client (EvmClient.acceptGuardianInvite env vaultId)).

Definition proxiedMintAccessToken (vaultId : Z) (to tokenURI : string) : P number :=
  do! t <- now in
  dispatch (on_stellar (StellarLedger.mintAccessToken env_contract call vaultId to tokenURI t))
    (id_of (EvmClient.mintAccessToken env parseLog vaultId to tokenURI)).

Definition proxiedRegisterGuardianBLSKey (vaultId : Z) (blsPublicKey proofOfPossession : string) : P unit :=
  dispatch (on_stellar (StellarLedger.registerGuardianBLSKey env_contract call vaultId blsPublicKey proofOfPossession))
    (on_client (EvmClient.registerGuardianBLSKey env vaultId blsPublicKey proofOfPossession)).

Definition proxiedApproveAccessBLS (requestId : Z) (guardianAddresses : list string) (aggregatedSignature aggregatedPublicKey : string)
    (shares : list string) : P unit :=
  dispatch (on_stellar (StellarLedger.approveAccessBLS env_contract call requestId guardianAddresses aggregatedSignature aggregatedPublicKey shares))
    (on_client (EvmClient.approveAccessBLS env requestId guardianAddresses aggregatedSignature aggregatedPublicKey shares)).

Definition setEmergencyMode (vaultId : Z) (enabled : bool) : P unit :=
  do! t <- now in
  dispatch (on_stellar (StellarLedger.setEmergencyMode env_contract call vaultId enabled t))
    (on_client (supported getFunction "setEmergencyMode(uint256,bool)" "Current contract does not support emergency mode controls."
                  (send_only env (C_setEmergencyMode vaultId enabled)))).

(** [jitter]: the random draw of the mock confirmation. *)
Definition fulfillEmergencyUnlockDelay (vaultId jitter : Z) : P unit :=
  do! t <- now in
  dispatch (on_stellar (StellarLedger.fulfillEmergencyUnlockDelay env_contract call vaultId jitter t)) (ret tt).

(** ** Reads *)

Definition proxiedFetchVaultsForAccount (account : string) (tokenVaultIds : list Z) : P (list VaultData) :=
  withOfflineFallback services ("vaults:" ++ account)
    (dispatch (do! l <- on_stellar (StellarLedger.fetchVaultsForAccount account) in ret (map vault_data l))
       (on_client (EvmReads.fetchVaultsForAccount env parseLog getEvent encodeFilterTopics account tokenVaultIds)))
    (do! e <- getEcosystem in readVaultsCache services account e)
    (fun vaults => do! e <- getEcosystem in writeVaultsCache services account e vaults).

(** Without an account nothing is kept. *)
Definition proxiedFetchDocumentsForVaults (vaultIds : list Z) (account : option string) : P (list DocumentData) :=
  do! e <- getEcosystem in
  let owner := or_empty account in
  withOfflineFallback services "documents"
    (if String.eqb e "stellar"
     then do! l <- on_stellar (StellarLedger.fetchDocumentsForVaults vaultIds) in ret (map document_data l)
     else on_client (EvmReads.fetchDocumentsForVaults env parseLog getEvent encodeFilterTopics vaultIds))
    (if blank owner then ret [] else readDocumentsCache services owner e)
    (fun documents => if blank owner then ret tt else writeDocumentsCache services owner e documents).

(** The limit of the caller is not used: the EVM client takes its default, 10. *)
Definition proxiedFetchPendingApprovalsForGuardian (guardianAddress : string) (_limit : option Z) : P (list PendingApprovalData) :=
  dispatch (do! l <- on_stellar (StellarLedger.fetchPendingApprovalsForGuardian guardianAddress) in ret (map pending_data l))
    (on_client (EvmReads.fetchPendingApprovalsForGuardian env parseLog getEvent encodeFilterTopics guardianAddress 10)).

Definition proxiedGetEncryptedGuardianShare (documentId : Z) (guardian : string) : P string :=
  dispatch (on_stellar (StellarLedger.getEncryptedGuardianShare documentId guardian))
    (on_client (EvmClient.getEncryptedGuardianShare env documentId guardian)).
Definition proxiedGetBeneficiaryKeyShare (requestId : Z) (guardian : string) : P string :=
  dispatch (on_stellar (StellarLedger.getBeneficiaryKeyShare requestId guardian))
    (on_client (EvmClient.getBeneficiaryKeyShare env requestId guardian)).
Definition proxiedGetGuardianBLSKey (vaultId : Z) (guardian : string) : P BLSKey :=
  dispatch (do! k <- on_stellar (StellarLedger.getGuardianBLSKey vaultId guardian) in ret (bls_data k))
    (on_client (EvmClient.getGuardianBLSKey env vaultId guardian)).

Definition proxiedGetUserPublicKey (user : string) : P string :=
  withOfflineFallback services ("publicKey:" ++ user)
    (dispatch (on_stellar (StellarLedger.getUserPublicKey env_contract query user)) (on_client (EvmClient.getUserPublicKey env user)))
    (do! e <- getEcosystem in readPublicKeyCache services user e)
    (fun publicKey => do! e <- getEcosystem in writePublicKeyCache services user publicKey e).

Definition proxiedFetchPendingInvites (account : string) : P (list GuardianInviteData) :=
  withOfflineFallback services ("invites:" ++ account)
    (dispatch (do! l <- on_stellar (StellarLedger.getPendingInvites account) in ret (map invite_data l))
       (on_client (EvmClient.fetchPendingInvites env account)))
    (do! e <- getEcosystem in readInvitesCache services account e)
    (fun invites => do! e <- getEcosystem in writeInvitesCache services account e invites).

(** The check of the Stellar network for the connected account: the uploader, a guardian
    of the vault, or a requester whose request is approved. *)
Definition stellar_access (account : string) (documentId : Z) (l : Ledger) : bool :=
  let vs := List.filter (fun v => same_address (v_creator v) account || existsb (fun g => same_address g account) (v_guardians v)) (vaults l) in
  let docs := List.filter (fun d => existsb (Z.eqb (d_vaultId d)) (map v_id vs)) (documents l) in
  match List.find (fun d => d_id d =? documentId) docs with
  | None => false
  | Some doc =>
      same_address (d_uploadedBy doc) account
      || match List.find (fun v => v_id v =? d_vaultId doc) vs with
         | Some v => existsb (fun g => same_address g account) (v_guardians v)
         | None => false
         end
      || existsb (fun r => (r_documentId r =? documentId) && same_address (r_requester r) account && (r_status r =? 1)) (requests l)
  end.

Definition stellar_access_key (documentId : Z) (account : string) : string :=
  ("hasActiveAccess:stellar:" ++ num_str documentId ++ ":" ++ toLowerCase account)%string.

(** [user] counts on the EVM chain only. *)
Definition proxiedHasActiveAccess (documentId : Z) (user : string) : P bool :=
  dispatch
    (fun s =>
       match activeAccount (session s) with
       | None => (Ok false, s)
       | Some account =>
           if blank account then (Ok false, s)
           else on_client (getOrFetch hasActiveAccessCache set_access_cache (stellar_access_key documentId account)
                             (cret (stellar_access account documentId (ledger (session s))))) s
       end)
    (on_client (EvmClient.hasActiveAccess env documentId user)).

Definition proxiedGetActiveAccessMap (user : string) (documentIds : list Z) : P (gmap Z bool) :=
  dispatch (do! values <- mapM_io (fun i => proxiedHasActiveAccess i user) documentIds in ret (map_of documentIds values))
    (on_client (EvmClient.getActiveAccessMap env user documentIds)).

(** A token, with the time it was minted when it is known. *)
Definition proxiedFetchUserTokens (account : string) : P (list (TokenData + MockToken * option Z)) :=
  dispatch (do! l <- on_stellar (StellarLedger.fetchUserTokens account) in ret (map inr l))
    (do! l <- on_client (EvmReads.fetchUserTokens env parseLog getEvent encodeFilterTopics account) in ret (map inl l)).

(** The network may be given; an error is no. *)
Definition proxiedHasVaultToken (account : string) (vaultId : Z) (network : option string) : P bool :=
  do! target <- match network with
                | Some n => if blank n then getEcosystem else ret n
                | None => getEcosystem
                end in
  try_catch
    (match network_of target with
     | N_stellar => on_stellar (StellarLedger.hasVaultToken env_contract query account vaultId)
     | N_avalanche => on_client (EvmReads.hasVaultToken env parseLog getEvent encodeFilterTopics account vaultId)
     | N_other => ret false
     end)
    (fun _ => ret false).

Definition getVaultGID (vaultId : Z) : P string :=
  dispatch (ret ("stellar-testnet:" ++ num_str vaultId)%string) (on_client (evm_vault_gid getFunction vaultId)).

Definition getVaultReleaseState (vaultId : Z) : P (bool * number * number * bool) :=
  dispatch (do! r <- on_stellar (StellarLedger.getReleaseState env_contract query vaultId) in
            ret (r.1.1, r.1.2, r.2, false))
    (do! r <- on_client (evm_release_state env getFunction vaultId) in ret (release_data r)).

Definition fetchVaultReleaseStates (vaultIds : list Z) : P (gmap Z (bool * number * number * bool)) :=
  do! values <- mapM_io getVaultReleaseState vaultIds in ret (map_of vaultIds values).

Definition getEmergencyUnlockSchedule (vaultId : Z) : P (bool * bool * number * number) :=
  dispatch (on_stellar (StellarLedger.getEmergencyUnlockSchedule env_contract query vaultId))
    (do! s <- on_client (evm_unlock_schedule env getFunction vaultId) in ret (schedule_data s)).

(** Without a contract, looking at a requested schedule tries to complete it. *)
Definition stellar_schedule (jitter vaultId : Z) : P (bool * bool * number * number) :=
  do! schedule <- on_stellar (StellarLedger.getEmergencyUnlockSchedule env_contract query vaultId) in
  do! configured <- (fun s => (Ok (StellarLedger.isConfigured env_contract (session s)), s)) in
  let '(requested, fulfilled, _, _) := schedule in
  if negb configured && requested && negb fulfilled
  then try_catch
         (do! t <- now in
          do! _ <- on_stellar (StellarLedger.fulfillEmergencyUnlockDelay env_contract call vaultId jitter t) in
          on_stellar (StellarLedger.getEmergencyUnlockSchedule env_contract query vaultId))
         (fun _ => ret schedule)
  else ret schedule.

Definition fetchEmergencyUnlockSchedules (jitter : Z) (vaultIds : list Z) : P (gmap Z (bool * bool * number * number)) :=
  match vaultIds with
  | [] => ret ∅
  | _ =>
      dispatch (do! values <- mapM_io (stellar_schedule jitter) vaultIds in ret (map_of vaultIds values))
        (do! values <- mapM_io getEmergencyUnlockSchedule vaultIds in ret (map_of vaultIds values))
  end.
End Proxy.

(** * Each write stays on its network, and who has access

    The writes of ContractProxy as one type, what is queued when the network is down, and
    the access check of the Stellar network on the ledgers StellarLedgerProofs reaches. *)

Open Scope list_scope.
Open Scope Z_scope.
Open Scope io_scope.

(** ** Access on the Stellar network *)

Lemma numbered_unique {A : Type} (id : A -> Z) (l : list A) (x y : A) : numbered id l -> x ∈ l -> y ∈ l -> id x = id y -> x = y.
Proof.
  intros H Hx Hy E. apply list_elem_of_lookup in Hx as [i Hx], Hy as [j Hy].
  pose proof (H i x Hx). pose proof (H j y Hy). assert (i = j) as -> by lia. congruence.
Qed.

(** In a numbered list, looking an id up in what a filter keeps is looking it up and testing. *)
Lemma find_filtered {A : Type} (id : A -> Z) (keep : A -> bool) (i : Z) (l : list A) : numbered id l ->
  List.find (fun x => id x =? i) (List.filter keep l)
  = match List.find (fun x => id x =? i) l with Some x => if keep x then Some x else None | None => None end.
Proof.
  intros Hl. destruct (List.find (fun x => id x =? i) (List.filter keep l)) as [x|] eqn:E.
  - apply find_some in E as [Hx Hi]. apply filter_In in Hx as [Hx Hk]. destruct (List.find _ l) as [y|] eqn:E'.
    + apply find_some in E' as [Hy Hj]. apply Z.eqb_eq in Hi, Hj.
      assert (y = x) as -> by (apply (numbered_unique id l); try assumption; [now apply list_elem_of_In|now apply list_elem_of_In|congruence]).
      now rewrite Hk.
    + pose proof (find_none _ _ E' x Hx) as H. cbn in H. congruence.
  - destruct (List.find _ l) as [y|] eqn:E'; [|reflexivity]. apply find_some in E' as [Hy Hj]. destruct (keep y) eqn:Ek; [|reflexivity].
    assert (Hin : In y (List.filter keep l)) by (apply filter_In; now split).
    pose proof (find_none _ _ E y Hin) as H. cbn in H. congruence.
Qed.

Definition guards (account : string) (v : MockVault) : bool := existsb (fun g => same_address g account) (v_guardians v).

Lemma creator_guards (account : string) (v : MockVault) : good_vault v -> same_address (v_creator v) account = true -> guards account v = true.
Proof. intros [_ H] E. apply existsb_exists. exists (v_creator v). split; [now apply list_elem_of_In|exact E]. Qed.

Lemma creator_or_guard (account : string) (v : MockVault) : good_vault v ->
  same_address (v_creator v) account || guards account v = guards account v.
Proof. intros Hv. destruct (same_address (v_creator v) account) eqn:E; [|reflexivity]. now rewrite (creator_guards account v). Qed.

(** The account guards the vault of the document. *)
Definition guards_document (account : string) (documentId : Z) (l : Ledger) : bool :=
  match find_document l documentId with
  | Some doc => match find_vault l (d_vaultId doc) with Some v => guards account v | None => false end
  | None => false
  end.

(** The vaults [fetchVaultsForAccount] lists contain the id of exactly those the account guards. *)
Lemma listed_vault (t : Z) (account : string) (i : Z) (l : Ledger) : invariant t l ->
  existsb (Z.eqb i) (map v_id (List.filter (fun v => same_address (v_creator v) account || guards account v) (vaults l)))
  = match find_vault l i with Some v => guards account v | None => false end.
Proof.
  intros Hl. pose proof (vaults_numbered _ _ Hl) as Hn. pose proof (vaults_good _ _ Hl) as Hg. rewrite Forall_forall in Hg.
  unfold find_vault. destruct (List.find (fun v => v_id v =? i) (vaults l)) as [v|] eqn:E.
  - apply find_some in E as [Hv Hi]. apply Z.eqb_eq in Hi. apply list_elem_of_In in Hv. apply eq_true_iff_eq.
    rewrite existsb_exists, <- (creator_or_guard account v (Hg v Hv)). split.
    + intros (j & Hj & Ej). apply Z.eqb_eq in Ej. subst j. apply in_map_iff in Hj as (w & Ew & Hw). apply filter_In in Hw as [Hw Hk].
      assert (w = v) as -> by (apply (numbered_unique v_id (vaults l)); try assumption; [now apply list_elem_of_In|congruence]). exact Hk.
    + intros Hk. exists i. split; [|apply Z.eqb_refl]. apply in_map_iff. exists v. split; [exact Hi|]. apply filter_In.
      split; [now apply list_elem_of_In|exact Hk].
  - apply not_true_is_false. intros H. apply existsb_exists in H as (j & Hj & Ej). apply Z.eqb_eq in Ej. subst j.
    apply in_map_iff in Hj as (w & Ew & Hw). apply filter_In in Hw as [Hw _]. pose proof (find_none _ _ E w Hw) as H. cbn in H.
    apply Z.eqb_neq in H. contradiction.
Qed.

Lemma stellar_access_guards (t : Z) (account : string) (documentId : Z) (l : Ledger) :
  invariant t l -> stellar_access account documentId l = guards_document account documentId l.
Proof.
  intros Hl. unfold stellar_access, guards_document, find_document. rewrite (find_filtered d_id) by apply (documents_numbered _ _ Hl).
  destruct (List.find (fun d => d_id d =? documentId) (documents l)) as [doc|]; [|reflexivity]. fold (guards account).
  pose proof (listed_vault t account (d_vaultId doc) l Hl) as E. unfold guards in E at 1. rewrite E.
  pose proof (find_filtered v_id (fun v => same_address (v_creator v) account || guards account v) (d_vaultId doc) (vaults l)
    (vaults_numbered _ _ Hl)) as F. unfold find_vault in *.
  destruct (List.find (fun v => v_id v =? d_vaultId doc) (vaults l)) as [v|] eqn:Ev; [|reflexivity].
  destruct (guards account v) eqn:Eg; [|reflexivity]. rewrite orb_true_r in F. unfold guards in F at 1. rewrite F.
  fold (guards account v). rewrite Eg, orb_true_r. reflexivity.
Qed.

Section Proxy.
Context {N O : Type}.
Variables (env : Settings) (getFunction : string -> res bool) (parseLog : Log -> res (option Event)).
Variables (env_contract : option string) (call : Session -> string -> list ScVal -> res ScVal) (services : @Offline N O).
Implicit Types (s : App N O).

(** The network the page works on. *)
Definition works_on (name : string) s : Prop := getEcosystem s = (Ok name, s).

Lemma dispatch_on {A : Type} (name : string) (stellar evm : io (App N O) A) s : works_on name s ->
  dispatch stellar evm s = (if String.eqb name "stellar" then stellar else evm) s.
Proof. intros H. unfold dispatch, bind. now rewrite H. Qed.

(** A first look at a document, on a ledger that the service's operations have made: the check
    asks for the documents of the vaults that [fetchVaultsForAccount] returns, which the account
    created or guards, and who creates a vault guards it; so an approved request never decides. *)
Theorem access_is_guardianship (bls : bool) (t : Z) (documentId : Z) (user account : string) s :
  works_on "stellar" s -> reachable env_contract call bls t (session s) ->
  activeAccount (session s) = Some account -> account <> ""%string ->
  cache (hasActiveAccessCache (client s)) !! stellar_access_key documentId account = None ->
  pending (hasActiveAccessCache (client s)) !! stellar_access_key documentId account = None ->
  fst (proxiedHasActiveAccess env documentId user s) = Ok (guards_document account documentId (ledger (session s))).
Proof.
  intros Hs Hr Ha Hne Hc Hp. unfold proxiedHasActiveAccess. rewrite (dispatch_on "stellar") by exact Hs. change (String.eqb "stellar" "stellar") with true. cbv iota beta.
  rewrite Ha. destruct account as [|a0 a1]; [contradiction|]. cbn [blank]. apply reachable_invariant in Hr as [_ Hr].
  rewrite <- (stellar_access_guards t _ documentId _ Hr). unfold on_client, getOrFetch, EvmClient.cbind, gets, fetch.
  rewrite Hc, Hp. reflexivity.
Qed.

(** ** Every write stays on its network *)

Inductive Write : Type :=
| W_queued (a : Action)
| W_approveAccess (requestId : Z) (share : option string)
| W_acceptGuardianInvite (vaultId : Z)
| W_mintAccessToken (vaultId : Z) (to tokenURI : string)
| W_registerGuardianBLSKey (vaultId : Z) (key proof : string)
| W_approveAccessBLS (requestId : Z) (guardians : list string) (signature key : string) (shares : list string)
| W_setEmergencyMode (vaultId : Z) (enabled : bool)
| W_fulfillEmergencyUnlockDelay (vaultId jitter : Z).

Definition done {A : Type} (m : io (App N O) A) : io (App N O) unit := do! _ <- m in ret tt.

Definition write (w : Write) : io (App N O) unit :=
  match w with
  | W_queued a => done (queued env getFunction parseLog env_contract call services a)
  | W_approveAccess r sh => proxiedApproveAccess env getFunction env_contract call r sh
  | W_acceptGuardianInvite v => proxiedAcceptGuardianInvite env env_contract call v
  | W_mintAccessToken v to u => done (proxiedMintAccessToken env parseLog env_contract call v to u)
  | W_registerGuardianBLSKey v k p => proxiedRegisterGuardianBLSKey env env_contract call v k p
  | W_approveAccessBLS r gs sg k sh => proxiedApproveAccessBLS env env_contract call r gs sg k sh
  | W_setEmergencyMode v b => setEmergencyMode env getFunction env_contract call v b
  | W_fulfillEmergencyUnlockDelay v j => fulfillEmergencyUnlockDelay env_contract call v j
  end.

(** [m] leaves [f s] as it is. *)
Definition keeps {A B : Type} (f : App N O -> B) (m : io (App N O) A) : Prop := forall s, f (m s).2 = f s.
Definition evm_side s := network (client s).
Definition stellar_side s := session s.

(** What holds of the state a bind starts in holds of the one it ends in. *)
Lemma bind_keeps {A B C : Type} (f : App N O -> C) (m : io (App N O) A) (k : A -> io (App N O) B) s :
  f (m s).2 = f s -> (forall a, keeps f (k a)) -> f (bind m k s).2 = f s.
Proof. intros Hm Hk. unfold bind. destruct (m s) as [[a|e] s']; cbn in *; [|exact Hm]. now rewrite Hk. Qed.
Lemma keeps_bind {A B C : Type} (f : App N O -> C) (m : io (App N O) A) (k : A -> io (App N O) B) :
  keeps f m -> (forall a, keeps f (k a)) -> keeps f (do! x <- m in k x).
Proof. intros Hm Hk s. now apply bind_keeps. Qed.
Lemma keeps_ret {A C : Type} (f : App N O -> C) (a : A) : keeps f (ret a).
Proof. intros s. reflexivity. Qed.
Lemma keeps_throw {A C : Type} (f : App N O -> C) (e : string) : keeps f (throw (A := A) e).
Proof. intros s. reflexivity. Qed.
Lemma keeps_now {C : Type} (f : App N O -> C) : keeps f now.
Proof. intros s. reflexivity. Qed.
Lemma on_stellar_keeps {A : Type} (m : io Session A) : keeps evm_side (on_stellar m).
Proof. intros s. unfold on_stellar. now destruct (m (session s)). Qed.
Lemma on_client_keeps {A : Type} (m : cio N A) : keeps stellar_side (on_client m).
Proof. intros s. unfold on_client. now destruct (m (client s)). Qed.
Lemma on_offline_keeps {A : Type} (m : io O A) : keeps evm_side (on_offline m) /\ keeps stellar_side (on_offline m).
Proof. split; intros s; unfold on_offline; now destruct (m (offline s)). Qed.
Lemma clear_keeps : keeps evm_side (on_client clearAccessCache).
Proof. intros s. reflexivity. Qed.

(** The part of a dispatch that runs. *)
Lemma dispatch_keeps {A C : Type} (name : string) (f : App N O -> C) (stellar evm : io (App N O) A) s : works_on name s ->
  (name = "stellar"%string -> keeps f stellar) -> (name <> "stellar"%string -> keeps f evm) -> f (dispatch stellar evm s).2 = f s.
Proof.
  intros Hs H1 H2. rewrite (dispatch_on name) by exact Hs. destruct (String.eqb_spec name "stellar") as [E|E]; [now apply H1|now apply H2].
Qed.

Lemma queued_keeps {C : Type} (f : App N O -> C) (a : Action) s : (forall m : io O unit, keeps f (on_offline m)) ->
  f (perform env getFunction parseLog env_contract call a s).2 = f s ->
  f (queued env getFunction parseLog env_contract call services a s).2 = f s.
Proof.
  intros Ho H. unfold queued, try_catch. destruct (perform _ _ _ _ _ a s) as [[v|e] s1]; cbn in H |- *; [exact H|].
  destruct (isNetworkFailure services (offline s1) e); [|exact H]. rewrite <- H.
  apply (keeps_bind f (on_offline (enqueueAction services a (action_label a)))); [apply Ho|intros; apply keeps_throw].
Qed.

(** What a network may do: its own part, the queue and the cache of the access checks. *)
Record allowed {C : Type} (name : string) (f : App N O -> C) : Prop := {
  stellar_part : name = "stellar"%string -> forall A (m : io Session A), keeps f (on_stellar m);
  evm_part : name <> "stellar"%string -> forall A (m : cio N A), keeps f (on_client m);
  queue_part : forall m : io O unit, keeps f (on_offline m);
  cache_part : keeps f (on_client clearAccessCache)
}.

Lemma dispatch_allowed {A C : Type} (name : string) (f : App N O -> C) (m : io Session A) (evm : io (App N O) A) s : works_on name s ->
  allowed name f -> (name <> "stellar"%string -> keeps f evm) -> f (dispatch (on_stellar m) evm s).2 = f s.
Proof. intros Hs Hf He. apply (dispatch_keeps name); [exact Hs|intros Hn; now apply (stellar_part _ _ Hf)|exact He]. Qed.

Lemma client_allowed {A C : Type} (name : string) (f : App N O -> C) (m : cio N A) : allowed name f -> name <> "stellar"%string -> keeps f (on_client m).
Proof. intros Hf Hn. now apply (evm_part _ _ Hf). Qed.
Lemma id_allowed {C : Type} (name : string) (f : App N O -> C) (m : cio N Z) : allowed name f -> name <> "stellar"%string -> keeps f (id_of m).
Proof. intros Hf Hn. apply keeps_bind; [now apply (client_allowed name)|intros; apply keeps_ret]. Qed.

Create HintDb keeps.
#[local] Hint Resolve keeps_ret keeps_throw dispatch_allowed client_allowed id_allowed cache_part : keeps.
#[local] Hint Extern 1 (works_on _ _) => assumption : keeps.

Lemma perform_keeps {C : Type} (name : string) (f : App N O -> C) (a : Action) s : works_on name s -> allowed name f ->
  f (perform env getFunction parseLog env_contract call a s).2 = f s.
Proof.
  intros Hs Hf. unfold perform, bind at 1, now. destruct a; try (apply (dispatch_allowed name); eauto with keeps).
  apply bind_keeps; [apply (dispatch_allowed name)|]; eauto with keeps.
Qed.

Lemma write_keeps {C : Type} (name : string) (f : App N O -> C) (w : Write) s : works_on name s -> allowed name f -> f (write w s).2 = f s.
Proof.
  intros Hs Hf. destruct w; cbn [write].
  - apply bind_keeps; [|auto with keeps]. apply queued_keeps; [apply (queue_part _ _ Hf)|now apply (perform_keeps name)].
  - apply bind_keeps; [|intros; apply (cache_part _ _ Hf)]. eauto with keeps.
  - apply (dispatch_keeps name); [exact Hs| |eauto with keeps].
    intros Hn. apply keeps_bind; [now apply (stellar_part _ _ Hf)|intros; apply (cache_part _ _ Hf)].
  - apply bind_keeps; [|auto with keeps]. unfold proxiedMintAccessToken, bind at 1, now. eauto with keeps.
  - unfold proxiedRegisterGuardianBLSKey. eauto with keeps.
  - unfold proxiedApproveAccessBLS. eauto with keeps.
  - unfold setEmergencyMode, bind at 1, now. eauto with keeps.
  - unfold fulfillEmergencyUnlockDelay, bind at 1, now. eauto with keeps.
Qed.

(** A write on the Stellar network leaves the EVM chain alone, and a write on the EVM
    chain leaves the Stellar session and ledger alone. *)
Theorem writes_stay_on_their_network (w : Write) (name : string) s : works_on name s ->
  (name = "stellar"%string -> evm_side (write w s).2 = evm_side s) /\ (name <> "stellar"%string -> stellar_side (write w s).2 = stellar_side s).
Proof.
  intros Hs. split; intros Hn; apply (write_keeps name); try exact Hs; split; try contradiction; intros;
    first [apply on_stellar_keeps|apply on_client_keeps|apply on_offline_keeps|apply clear_keeps].
Qed.

(** ** A queued write may have been sent *)

Section Sent.
Variables (sent : N -> list Call) (w : Writer N) (providers : list (Provider N)).
Hypothesis submits : forall c n, exists tx n', submit w c n = (Ok tx, n') /\ sent n' = sent n ++ [c]
  /\ forall t m, sent (tx_wait tx t m).2 = sent m.
Hypothesis looks : forall p, p ∈ providers -> forall h t n, sent (waitForTransaction p h t n).2 = sent n.

(** The EVM client can send, and its calls go on the EVM chain. *)
Definition sender (c : Client N) : Prop := writeContract c = Some w /\ fallbackProviders c = providers.

Lemma on_net_frame {A : Type} (m : net N A) (c : Client N) :
  sender c -> sender (EvmClient.on_net m c).2 /\ EvmClient.localStorage (EvmClient.on_net m c).2 = EvmClient.localStorage c
  /\ network (EvmClient.on_net m c).2 = (m (network c)).2.
Proof. intros [H H']. unfold EvmClient.on_net. destruct (m (network c)). now repeat split. Qed.

(** The client after calls that send [cs]. *)
Definition after_sending (cs : list Call) (c c' : Client N) : Prop :=
  sender c' /\ EvmClient.localStorage c' = EvmClient.localStorage c /\ sent (network c') = sent (network c) ++ cs.

Lemma after_none (c : Client N) : sender c -> after_sending [] c c.
Proof. intros H. split; [exact H|]. split; [reflexivity|]. now rewrite app_nil_r. Qed.

Lemma after_trans (cs cs' : list Call) (c c1 c2 : Client N) :
  after_sending cs c c1 -> after_sending cs' c1 c2 -> after_sending (cs ++ cs') c c2.
Proof. intros (_ & L1 & S1) (H2 & L2 & S2). split; [exact H2|]. split; [congruence|]. rewrite S2, S1. now rewrite <- app_assoc. Qed.

Lemma looks_silent {A : Type} (m : net N A) (c : Client N) : sender c -> sent (m (network c)).2 = sent (network c) ->
  after_sending [] c (EvmClient.on_net m c).2.
Proof. intros Hc Hm. destruct (on_net_frame m c Hc) as (H1 & H2 & H3). split; [exact H1|]. split; [exact H2|]. now rewrite H3, Hm, app_nil_r. Qed.

Lemma mined_silent (hash : string) (t : Z) (l : list (Provider N)) : forall c, (forall p, p ∈ l -> p ∈ providers) -> sender c ->
  after_sending [] c (mined_by hash t l c).2.
Proof.
  induction l as [|p l IH]; intros c Hl Hc; cbn [mined_by]; [now apply after_none|].
  pose proof (looks_silent (waitForTransaction p hash t) c Hc ltac:(apply looks, Hl; now left)) as H.
  unfold cbind at 1, ccatch. destruct (EvmClient.on_net _ c) as [[r|e] c1]; cbn [snd] in H; unfold cret at 1.
  - destruct r; [exact H|]. apply (after_trans [] [] _ c1); [exact H|]. apply IH; [|apply H]. intros q Hq. apply Hl. now right.
  - apply (after_trans [] [] _ c1); [exact H|]. apply IH; [|apply H]. intros q Hq. apply Hl. now right.
Qed.

Lemma wait_silent (tx : Tx N) (c : Client N) : (forall t m, sent (tx_wait tx t m).2 = sent m) -> sender c ->
  after_sending [] c (waitForReceipt env tx c).2.
Proof.
  intros Htx Hc. unfold waitForReceipt, cbind at 1, gets. rewrite (proj2 Hc). unfold cbind at 1.
  set (m := match tx_hash tx with Some _ => _ | None => _ end).
  assert (Hm : after_sending [] c (m c).2).
  { unfold m. destruct (tx_hash tx) as [h|]; [|now apply after_none]. destruct (blank h); [now apply after_none|]. now apply mined_silent. }
  destruct (m c) as [[r|e] c1]; [|exact Hm]. destruct r; [exact Hm|]. apply (after_trans [] [] _ c1); [exact Hm|]. unfold cbind.
  pose proof (looks_silent (tx_wait tx (getTxWaitTimeoutMs env)) c1 ltac:(apply Hm) ltac:(apply Htx)) as H.
  destruct (EvmClient.on_net _ c1) as [[[r|]|e] c2]; exact H.
Qed.

(** Sending sends once, whatever becomes of the receipt. *)
Lemma send_sends (call0 : Call) (c : Client N) : sender c -> after_sending [call0] c (send env call0 c).2.
Proof.
  intros Hc. unfold send, cbind, ensureWriteContract. rewrite (proj1 Hc). destruct (submits call0 (network c)) as (tx & n' & E & Hn & Htx).
  destruct (on_net_frame (submit w call0) c Hc) as (H1 & H2 & H3). rewrite E in H3. cbn in H3.
  assert (H : after_sending [call0] c (EvmClient.on_net (submit w call0) c).2) by (split; [exact H1|]; split; [exact H2|congruence]).
  unfold EvmClient.on_net in H |- *. rewrite E in H |- *. cbn [snd] in H. apply (after_trans [call0] [] _ _ _ H). apply wait_silent; [exact Htx|apply H].
Qed.

Lemma create_sends (name description : string) (guardians : list string) (k : Z) s : works_on "avalanche" s -> sender (client s) ->
  let s' := (perform env getFunction parseLog env_contract call (A_createVault name description guardians k) s).2 in
  after_sending [C_createVault name description guardians k] (client s) (client s') /\ session s' = session s /\ offline s' = offline s.
Proof.
  intros Hs Hc. cbv zeta.
  assert (E : perform env getFunction parseLog env_contract call (A_createVault name description guardians k) s
              = id_of (EvmClient.createVault env parseLog name description guardians k) s).
  { unfold perform, bind at 1, now. now rewrite (dispatch_on "avalanche"). }
  rewrite E. pose proof (send_sends (C_createVault name description guardians k) (client s) Hc) as H.
  unfold id_of, bind, on_client, EvmClient.createVault, send_for, cbind. destruct (send env _ (client s)) as [[r|e] c1]; (split; [exact H|now split]).
Qed.

Lemma still_on (name : string) s s' : works_on name s -> EvmClient.localStorage (client s') = EvmClient.localStorage (client s) -> works_on name s'.
Proof.
  unfold works_on, getEcosystem. intros H E. rewrite E. destruct (EvmClient.localStorage (client s)) as [st|]; [|congruence].
  destruct (getItem st "spoovault-ecosystem"); congruence.
Qed.

(** A creation whose receipt is lost to the network is reported as queued and is in the
    queue, although its transaction was sent: replaying it sends a second one. *)
Theorem lost_receipt_sends_twice (name description : string) (guardians : list string) (k : Z) (e : string) (o : O) s :
  let a := A_createVault name description guardians k in
  works_on "avalanche" s -> sender (client s) ->
  fst (perform env getFunction parseLog env_contract call a s) = Throw e ->
  isNetworkFailure services (offline s) e = true ->
  enqueueAction services a (action_label a) (offline s) = (Ok tt, o) ->
  let first := proxiedCreateVault env getFunction parseLog env_contract call services name description guardians k s in
  let replay := perform env getFunction parseLog env_contract call a first.2 in
  fst first = Throw (offlineQueuedError services (queued_label a)) /\ offline first.2 = o
  /\ sent (network (client replay.2)) = sent (network (client s)) ++ [C_createVault name description guardians k; C_createVault name description guardians k].
Proof.
  intros a Hs Hc He Hf Hq first replay. destruct (create_sends name description guardians k s Hs Hc) as (H1 & H2 & H3). fold a in H1, H2, H3.
  assert (E : first = (Throw (offlineQueuedError services (queued_label a)),
    mkApp (client (perform env getFunction parseLog env_contract call a s).2) (session s) o)).
  { unfold first, proxiedCreateVault, queued, try_catch. fold a. destruct (perform env getFunction parseLog env_contract call a s) as [r s1].
    cbn [fst snd] in He, H2, H3 |- *. rewrite He, H3, Hf. unfold bind, on_offline. now rewrite H3, Hq, H2. }
  unfold replay. rewrite E. cbn [fst snd offline]. split; [reflexivity|]. split; [reflexivity|].
  set (s1 := mkApp _ _ _). destruct (create_sends name description guardians k s1) as (H4 & _).
  - apply (still_on _ s); [exact Hs|]. apply H1.
  - apply H1.
  - destruct (after_trans _ _ _ _ _ H1 H4) as (_ & _ & H). exact H.
Qed.
End Sent.
End Proxy.

(** ** Witnesses *)

Module DemoProxy.

(** A chain that records what it is sent and answers no receipt. *)
Definition silent_tx : Tx (list Call) := mkTx (Some "0x1"%string) (fun _ n => (Throw "Failed to fetch"%string, n)).
Definition wallet : Writer (list Call) := mkWriter (list Call) (fun c n => (Ok silent_tx, n ++ [c])) None (fun _ n => (Ok 0, n)).
Definition disk (ecosystem : string) : Storage :=
  mkStorage {["spoovault-ecosystem"%string := ecosystem]} true true (fun _ _ _ => true).
Definition evm_client (ecosystem : string) : Client (list Call) :=
  mkClient None [] None (Some wallet) None false (new_cache 10000) (new_cache 10000) (Some (disk ecosystem)) [] 0.
Definition outbox : @Offline (list Call) (list Action) :=
  mkOffline (fun _ e => String.eqb e "Failed to fetch") (fun a _ o => (Ok tt, o ++ [a])) (fun what => what ++ " queued")%string
    (fun _ _ live _ _ => live) (fun _ _ => ret []) (fun _ _ _ => ret tt) (fun _ _ => ret []) (fun _ _ _ => ret tt)
    (fun _ _ => ret ""%string) (fun _ _ _ => ret tt) (fun _ _ => ret []) (fun _ _ _ => ret tt).
Definition page (ecosystem : string) (s : Session) : App (list Call) (list Action) := mkApp (evm_client ecosystem) s [].
Definition plain : Settings := mkSettings (Some "0xC0"%string) None None None None None None.
Definition no_function : string -> res bool := fun _ => Throw "no such function"%string.

Lemma lost_receipt_sends_twice_witness :
  let a := A_createVault "Wills" "" ["0xBob"%string] 1 in
  let first := proxiedCreateVault plain no_function (fun _ => Ok None) None no_chain outbox "Wills" "" ["0xBob"%string] 1 (page "avalanche" (start "GA")) in
  offline first.2 = [a]
  /\ network (client (perform plain no_function (fun _ => Ok None) None no_chain a first.2).2)
     = [C_createVault "Wills" "" ["0xBob"%string] 1; C_createVault "Wills" "" ["0xBob"%string] 1].
Proof.
  destruct (lost_receipt_sends_twice plain no_function (fun _ => Ok None) None no_chain outbox (fun n => n) wallet []
    ltac:(intros c n; exists silent_tx, (n ++ [c]); repeat split) ltac:(intros p Hp; now apply elem_of_nil in Hp)
    "Wills" "" ["0xBob"%string] 1 "Failed to fetch" [A_createVault "Wills" "" ["0xBob"%string] 1] (page "avalanche" (start "GA"))) as (_ & H1 & H2);
    try reflexivity; [now split|]. split; [exact H1|exact H2].
Defined.

Lemma writes_stay_on_their_network_witness :
  evm_side (write plain no_function (fun _ => Ok None) None no_chain outbox (W_queued (A_requestAccess 1)) (page "stellar" filed)).2 = [].
Proof.
  now apply (writes_stay_on_their_network plain no_function (fun _ => Ok None) None no_chain outbox (W_queued (A_requestAccess 1)) "stellar").
Defined.

(** Mallory's request is approved, and she has no access all the same. *)
Lemma access_is_guardianship_witness :
  map r_status (requests (ledger opened_by_requester)) = [1]
  /\ fst (proxiedHasActiveAccess plain 1 "Mallory" (page "stellar" opened_by_requester)) = Ok false.
Proof.
  split; [reflexivity|].
  rewrite (access_is_guardianship plain None no_chain false 4000 1 "Mallory" "Mallory" (page "stellar" opened_by_requester));
    try reflexivity; [|discriminate]. apply (R_approve _ _ false 3000); [apply asked_reachable|lia].
Defined.

End DemoProxy.
