(* ===== verification/CrossChain.v ===== *)
(** * CrossChain: relayed approvals, revocations and heartbeats

    crossChainRelayer.service.ts: messages signed with a shared secret, the nonces and
    hashes the relayer remembers, and what it hands to the Soroban contract.
    crossChainHeartbeat.service.ts: a proof of life recorded on the EVM chain, signed by the
    owner and synchronised to Stellar through the services of ContractProxy.  HMAC, SHA-256,
    Keccak, the wallet and the Soroban client are arguments. *)

From Stdlib Require Import Ascii String ZArith Lia Bool Sorted.
From stdpp Require Import base list gmap strings.
From S2P Require Import Prelude Bytes JsString JsonText JsonParse EvmClient StellarLedger KeyInbox ContractProxy.

Open Scope list_scope.
Open Scope Z_scope.
Open Scope io_scope.

(** ** Messages *)

Definition DEFAULT_APPROVAL_MESSAGE_TTL_MS : Z := 5 * 60 * 1000.

Record CrossChainPayload : Type := mkApproval {
  vaultGID : string; approver : string; approvalType : Z; sent_at : Z; sourceChain : option string; destinationChain : option string;
  nonce : option Z; expires : option Z; approval_signature : option string
}.

Record CrossChainRevocationPayload : Type := mkRevocation {
  r_vaultGID : string; r_document : Z; targetUser : string; targetStellarUser : option string; r_nonce : Z;
  r_signature : option string; recoveryId : option Z
}.

Record CrossChainRelayer : Type := mkRelayer {
  processedHashes : gset string; lastApprovalNonces : gmap string Z; lastRevocationNonces : gmap string Z
}.
Definition new_relayer : CrossChainRelayer := mkRelayer ∅ ∅ ∅.

Definition or_default (d : string) (o : option string) : string := match o with Some s => s | None => d end.
Definition source_of (p : CrossChainPayload) : string := or_default "avalanche" (sourceChain p).
Definition destination_of (p : CrossChainPayload) : string := or_default "stellar" (destinationChain p).
(** [payload.expiresAt ?? payload.timestamp + DEFAULT_APPROVAL_MESSAGE_TTL_MS] *)
Definition expiry_of (p : CrossChainPayload) : Z :=
  match expires p with Some t => t | None => sent_at p + DEFAULT_APPROVAL_MESSAGE_TTL_MS end.
Definition nonce_of (p : CrossChainPayload) : Z := match nonce p with Some n => n | None => 0 end.

Definition normalizeApprovalPayload (p : CrossChainPayload) : json :=
  JObj [("type", JStr "SpooVaultCrossChainApproval"); ("vaultGID", JStr (toLowerCase (vaultGID p)));
        ("guardian", JStr (toLowerCase (approver p))); ("approvalType", JNum (approvalType p));
        ("sourceChain", JStr (source_of p)); ("destinationChain", JStr (destination_of p));
        ("nonce", JStr (num_str (nonce_of p))); ("timestamp", JNum (sent_at p)); ("expiresAt", JNum (expiry_of p))]%string.

Definition approvalSigningData (p : CrossChainPayload) : string := stringify_with 0 (normalizeApprovalPayload p).

Definition revocation_data (p : CrossChainRevocationPayload) : string :=
  ("RevokeAccess:" ++ r_vaultGID p ++ ":" ++ num_str (r_document p) ++ ":" ++ targetUser p ++ ":" ++ num_str (r_nonce p))%string.

Definition hex_digit (c : ascii) : option Z := match digit_val c with Some d => if d <? 16 then Some d else None | None => None end.

(** [Buffer.from(s, "hex")]: pairs of digits, up to the first pair that is none. *)
Fixpoint buffer_from_hex (s : string) : list Z :=
  match s with
  | String a (String b s') =>
      match hex_digit a, hex_digit b with
      | Some x, Some y => 16 * x + y :: buffer_from_hex s'
      | _, _ => []
      end
  | _ => []
  end.

(** An empty or missing signature matches nothing. *)
Definition signaturesMatch (actual : option string) (expected : string) : bool :=
  match actual with
  | None | Some EmptyString => false
  | Some a => bool_decide (buffer_from_hex a = buffer_from_hex expected)
  end.

Section Relayer.
(** [createHmac("sha256", key).update(data).digest("hex")] and the hex digest of SHA-256. *)
Variables (hmac : string -> string -> string) (sha256 : string -> string).

Abbreviation R := (io CrossChainRelayer).

Definition signPayload (p : CrossChainPayload) (secretKey : string) : CrossChainPayload :=
  mkApproval (vaultGID p) (approver p) (approvalType p) (sent_at p) (Some (source_of p)) (Some (destination_of p))
    (nonce p) (Some (expiry_of p)) (Some (hmac secretKey (approvalSigningData p))).

Definition signRevocationPayload (p : CrossChainRevocationPayload) (secretKey : string) : CrossChainRevocationPayload :=
  mkRevocation (r_vaultGID p) (r_document p) (targetUser p) (targetStellarUser p) (r_nonce p)
    (Some (hmac secretKey (revocation_data p))) (Some 0).

(** [`${rawData}:${payload.signature}`] *)
Definition message_hash (rawData : string) (signature : option string) : string :=
  sha256 (rawData ++ ":" ++ or_default "undefined" signature)%string.

Definition approval_key (p : CrossChainPayload) : string :=
  join ":" [toLowerCase (vaultGID p); toLowerCase (approver p); num_str (approvalType p); source_of p; destination_of p].

Definition remember_hash (h : string) : R unit :=
  fun s => (Ok tt, mkRelayer ({[h]} ∪ processedHashes s) (lastApprovalNonces s) (lastRevocationNonces s)).

(** The nonce of a message that has one; it is recorded before the hash. *)
Definition check_nonce (p : CrossChainPayload) : R unit :=
  fun s =>
    match nonce p with
    | None => (Ok tt, s)
    | Some n =>
        if n <=? default 0 (lastApprovalNonces s !! approval_key p)
        then (Throw "Replay attack detected: Stale or replayed approval nonce"%string, s)
        else (Ok tt, mkRelayer (processedHashes s) (<[approval_key p := n]> (lastApprovalNonces s)) (lastRevocationNonces s))
    end.

Definition processMessage (now : Z) (p : CrossChainPayload) (secretKey : string) : R string :=
  let rawData := approvalSigningData p in
  if negb (signaturesMatch (approval_signature p) (hmac secretKey rawData)) then throw "Invalid payload signature"
  else if expiry_of p <? now then throw "Cross-chain approval message expired"
  else
    let h := message_hash rawData (approval_signature p) in
    fun s =>
      if bool_decide (h ∈ processedHashes s) then (Throw "Replay attack detected: Message already processed"%string, s)
      else (do! _ <- check_nonce p in do! _ <- remember_hash h in ret h) s.

Definition revocation_key (p : CrossChainRevocationPayload) : string :=
  (r_vaultGID p ++ ":" ++ num_str (r_document p) ++ ":" ++ targetUser p)%string.

Definition processRevocationBroadcast (p : CrossChainRevocationPayload) (secretKey : string) : R (string * CrossChainRevocationPayload) :=
  let rawData := revocation_data p in
  if negb (signaturesMatch (r_signature p) (hmac secretKey rawData)) then throw "Invalid revocation payload signature"
  else
    fun s =>
      if r_nonce p <=? default 0 (lastRevocationNonces s !! revocation_key p)
      then (Throw "Replay attack detected: Stale or replayed revocation nonce"%string, s)
      else
        let h := message_hash rawData (r_signature p) in
        (Ok (h, p), mkRelayer ({[h]} ∪ processedHashes s) (lastApprovalNonces s) (<[revocation_key p := r_nonce p]> (lastRevocationNonces s))).

(** What is handed to the Soroban client; its answer is the ledger and whether it worked. *)
Record ApprovalGrant : Type := mkGrant {
  g_vaultGid : string; g_guardian : string; g_approvalType : Z; g_sourceChain : string; g_nonce : Z; g_signature : string
}.
Record RevokeAccess : Type := mkRevoke {
  v_vaultGid : string; v_documentId : Z; targetEvmUser : string; v_targetStellarUser : string; v_nonce : Z; v_signature : string;
  v_recoveryId : Z
}.

Definition relayApprovalToSoroban {W : Type} (relayApprovalGrant : ApprovalGrant -> io W (Z * bool)) (p : CrossChainPayload) : io W (bool * Z) :=
  do! r <- relayApprovalGrant (mkGrant (vaultGID p) (approver p) (approvalType p) (source_of p) (nonce_of p)
                                 (or_default "0x00" (approval_signature p))) in
  ret (r.2, r.1).

Definition relayRevocationToSoroban {W : Type} (relayRevokeAccess : RevokeAccess -> io W (Z * bool)) (p : CrossChainRevocationPayload)
    : io W (bool * Z) :=
  do! r <- relayRevokeAccess (mkRevoke (r_vaultGID p) (r_document p) (targetUser p)
                                (or_default (targetUser p) (targetStellarUser p)) (r_nonce p) (or_default "0x00" (r_signature p))
                                (match recoveryId p with Some i => i | None => 0 end)) in
  ret (r.2, r.1).
End Relayer.

(** ** Heartbeats *)

Definition HEARTBEAT_PREFIX : string := "SpooVaultProofOfLife".

Record HeartbeatPayload : Type := mkHeartbeat { gid : string; gidHash : string; h_vaultId : Z; evmOwner : string; h_timestamp : Z }.
Record HeartbeatSignature : Type := mkHeartbeatSignature { h_signature : string; h_recoveryId : Z }.
Record CrossChainHeartbeatResult : Type := mkHeartbeatResult {
  evmTransactionHash : string; payload : HeartbeatPayload; signature : HeartbeatSignature; stellarSynchronized : bool
}.

Section Heartbeat.
Context {N O : Type}.
(** ethers: Keccak of bytes as 0x-prefixed hex, the bytes of a hex string, and the parity
    of a signature; the wallet: its address and the signature of a message. *)
Variables (keccak256 : list Z -> string) (getBytes : string -> res (list Z)) (parity : string -> res Z).
Record Signer : Type := mkSigner { getAddress : io (App N O) string; signMessage : list Z -> io (App N O) string }.
Variables (env : Settings) (getFunction : string -> res bool).
Variables (env_contract : option string) (call : Session -> string -> list ScVal -> res ScVal).

(** [ethers.toUtf8Bytes] of an ASCII text *)
Definition text_bytes (s : string) : list Z := map (fun c => Z.of_N (N_of_ascii c)) (list_ascii_of_string s).

(** [zeroPadValue(toBeHex(n), 8)], which throws for a negative number and past eight bytes *)
Definition word8 (n : Z) : res (list Z) :=
  if (n <? 0) || (2 ^ 64 <=? n) then Throw "INVALID_ARGUMENT"%string else Ok (be_bytes 8 n).

Definition buildHeartbeatPayload (gid : string) (vaultId : Z) (evmOwner : string) (timestamp : Z) : HeartbeatPayload :=
  mkHeartbeat gid (keccak256 (text_bytes gid)) vaultId evmOwner timestamp.

(** [ethers.concat] of the parts. *)
Definition heartbeat_bytes (p : HeartbeatPayload) : res (list Z) :=
  let! g := getBytes (gidHash p) in
  let! v := word8 (h_vaultId p) in
  let! o := getBytes (evmOwner p) in
  let! t := word8 (h_timestamp p) in
  Ok (text_bytes HEARTBEAT_PREFIX ++ g ++ v ++ o ++ t).

Definition buildHeartbeatDigest (p : HeartbeatPayload) : res string := let! b := heartbeat_bytes p in Ok (keccak256 b).

Definition of_result {W A : Type} (r : res A) : io W A := fun s => (r, s).

Definition signHeartbeatPayload (p : HeartbeatPayload) (signer : Signer) : io (App N O) HeartbeatSignature :=
  do! digest <- of_result (buildHeartbeatDigest p) in
  do! bytes <- of_result (getBytes digest) in
  do! signature <- signMessage signer bytes in
  do! i <- of_result (parity signature) in
  ret (mkHeartbeatSignature signature i).

Definition synchronizeHeartbeat (vaultId stellarVaultId : Z) (relayer : string) (signer : Signer) : io (App N O) CrossChainHeartbeatResult :=
  do! evmOwner <- getAddress signer in
  do! gid <- getVaultGID getFunction vaultId in
  do! t <- now in
  let timestamp := t / 1000 in
  let payload := buildHeartbeatPayload gid vaultId evmOwner timestamp in
  do! signature <- signHeartbeatPayload payload signer in
  do! evmTransactionHash <- on_client (recordProofOfLife env getFunction vaultId) in
  do! _ <- on_stellar (syncProofOfLife env_contract call stellarVaultId vaultId (gidHash payload) evmOwner timestamp
                         (h_signature signature) (h_recoveryId signature) (Some relayer)) in
  ret (mkHeartbeatResult evmTransactionHash payload signature true).
End Heartbeat.

(** ** What the relayer accepts *)

#[local] Arguments approvalSigningData : simpl never.
#[local] Arguments revocation_data : simpl never.
#[local] Arguments approval_key : simpl never.
#[local] Arguments revocation_key : simpl never.

Section Accepted.
Variables (hmac : string -> string -> string) (sha256 : string -> string) (secretKey : string).
Implicit Types (s : CrossChainRelayer) (p : CrossChainPayload).

Inductive Message : Type :=
| M_approval (now : Z) (p : CrossChainPayload)
| M_revocation (p : CrossChainRevocationPayload).

Definition hash_of (m : Message) : string :=
  match m with
  | M_approval _ p => message_hash sha256 (approvalSigningData p) (approval_signature p)
  | M_revocation p => message_hash sha256 (revocation_data p) (r_signature p)
  end.

Definition receive (m : Message) s : bool * CrossChainRelayer :=
  match m with
  | M_approval now p => let '(r, s') := processMessage hmac sha256 now p secretKey s in (is_ok r, s')
  | M_revocation p => let '(r, s') := processRevocationBroadcast hmac sha256 p secretKey s in (is_ok r, s')
  end.

(** The messages of a run that are accepted. *)
Fixpoint accepted (l : list Message) s : list Message :=
  match l with
  | [] => []
  | m :: l' => let '(ok, s') := receive m s in if ok then m :: accepted l' s' else accepted l' s'
  end.

(** The signature decodes to the bytes of the HMAC. *)
Definition signed (signature : option string) (rawData : string) : Prop :=
  exists a, signature = Some a /\ a <> ""%string /\ buffer_from_hex a = buffer_from_hex (hmac secretKey rawData).

Lemma signatures_match (a : option string) (rawData : string) : signaturesMatch a (hmac secretKey rawData) = true <-> signed a rawData.
Proof.
  unfold signaturesMatch, signed. destruct a as [[|c a]|].
  - split; [discriminate|]. intros (a & [= <-] & H & _). contradiction.
  - rewrite bool_decide_eq_true. split; [intros H; exists (String c a); now repeat split|]. intros (b & [= <-] & _ & H). exact H.
  - split; [discriminate|]. intros (a & H & _). discriminate H.
Qed.

Definition authentic (m : Message) : Prop :=
  match m with
  | M_approval now p => signed (approval_signature p) (approvalSigningData p) /\ now <= expiry_of p
  | M_revocation p => signed (r_signature p) (revocation_data p)
  end.

Definition approval_nonce (k : string) (m : Message) : option Z :=
  match m with M_approval _ p => if String.eqb (approval_key p) k then nonce p else None | M_revocation _ => None end.
Definition revocation_nonce (k : string) (m : Message) : option Z :=
  match m with M_revocation p => if String.eqb (revocation_key p) k then Some (r_nonce p) else None | M_approval _ _ => None end.
Definition approval_hash (m : Message) : option string := match m with M_approval _ _ => Some (hash_of m) | M_revocation _ => None end.

(** A refused message changes nothing; an accepted one is authentic, its approval hash was
    new, and its nonce is above the last one of its key. *)
Lemma receive_spec (m : Message) s :
  match receive m s with
  | (false, s') => s' = s
  | (true, s') =>
      authentic m /\ processedHashes s' = {[hash_of m]} ∪ processedHashes s
      /\ (forall h, approval_hash m = Some h -> h ∉ processedHashes s)
      /\ (forall k, match approval_nonce k m with
                    | Some n => default 0 (lastApprovalNonces s !! k) < n /\ lastApprovalNonces s' !! k = Some n
                    | None => lastApprovalNonces s' !! k = lastApprovalNonces s !! k
                    end)
      /\ (forall k, match revocation_nonce k m with
                    | Some n => default 0 (lastRevocationNonces s !! k) < n /\ lastRevocationNonces s' !! k = Some n
                    | None => lastRevocationNonces s' !! k = lastRevocationNonces s !! k
                    end)
  end.
Proof.
  destruct m as [now p|p]; cbn [receive].
  - unfold processMessage. destruct (signaturesMatch _ _) eqn:Hs; cbn [negb]; [|reflexivity]. apply signatures_match in Hs.
    destruct (Z.ltb_spec (expiry_of p) now) as [|He]; [reflexivity|]. case_bool_decide as Hh; [reflexivity|].
    unfold bind, check_nonce, remember_hash, ret. destruct (nonce p) as [n|] eqn:En.
    + destruct (Z.leb_spec n (default 0 (lastApprovalNonces s !! approval_key p))) as [|Hn]; [reflexivity|].
      cbn. split; [now split|]. split; [reflexivity|]. split; [now intros h [= <-]|]. split; [|reflexivity].
      intros k. destruct (String.eqb_spec (approval_key p) k) as [<-|Hk]; [rewrite En; split; [exact Hn|apply lookup_insert_eq]|now apply lookup_insert_ne].
    + cbn. split; [now split|]. split; [reflexivity|]. split; [now intros h [= <-]|]. split; [|reflexivity].
      intros k. rewrite En. now destruct (String.eqb (approval_key p) k).
  - unfold processRevocationBroadcast. destruct (signaturesMatch _ _) eqn:Hs; cbn [negb]; [|reflexivity]. apply signatures_match in Hs.
    destruct (Z.leb_spec (r_nonce p) (default 0 (lastRevocationNonces s !! revocation_key p))) as [|Hn]; [reflexivity|].
    cbn. split; [exact Hs|]. split; [reflexivity|]. split; [discriminate|]. split; [reflexivity|].
    intros k. destruct (String.eqb_spec (revocation_key p) k) as [<-|Hk]; [split; [exact Hn|apply lookup_insert_eq]|now apply lookup_insert_ne].
Qed.

(** Every run from [s] accepts approvals with new and distinct hashes, and nonces that rise
    from the last ones of [s]. *)
Lemma accepted_spec (l : list Message) : forall s,
  Forall authentic (accepted l s)
  /\ NoDup (omap approval_hash (accepted l s)) /\ (forall h, h ∈ omap approval_hash (accepted l s) -> h ∉ processedHashes s)
  /\ (forall k, StronglySorted Z.lt (default 0 (lastApprovalNonces s !! k) :: omap (approval_nonce k) (accepted l s)))
  /\ (forall k, StronglySorted Z.lt (default 0 (lastRevocationNonces s !! k) :: omap (revocation_nonce k) (accepted l s))).
Proof.
  assert (Hrise : forall (f : Message -> option Z) (m : Message) (rest : list Message) (o o' : option Z),
    match f m with Some n => default 0 o < n /\ o' = Some n | None => o' = o end ->
    StronglySorted Z.lt (default 0 o' :: omap f rest) -> StronglySorted Z.lt (default 0 o :: omap f (m :: rest))).
  { intros f m rest o o' Hm Hr. cbn [omap list_omap]. destruct (f m) as [n|]; [|now subst]. destruct Hm as [Hlt ->]. cbn [default] in Hr.
    constructor; [exact Hr|]. apply StronglySorted_inv in Hr as [_ Hr]. constructor; [exact Hlt|].
    eapply Forall_impl; [exact Hr|]. cbn. lia. }
  induction l as [|m l IH]; intros s; cbn [accepted].
  - cbn. repeat split; try constructor; try constructor. intros h Hh. now apply elem_of_nil in Hh.
  - pose proof (receive_spec m s) as H. destruct (receive m s) as [[] s']; [|subst; apply IH].
    destruct H as (Ha & Hp & Hh & Hn & Hr), (IH s') as (Ia & Id & Ih & In & Ir).
    split; [now constructor|]. split; [|split; [|split]].
    + cbn [omap list_omap]. destruct (approval_hash m) as [h|] eqn:Em; [|exact Id]. constructor; [|exact Id].
      intros Hin. apply Ih in Hin. apply Hin. rewrite Hp. apply elem_of_union_l, elem_of_singleton.
      destruct m; [now injection Em|discriminate Em].
    + intros h. cbn [omap list_omap]. destruct (approval_hash m) as [h'|] eqn:Em.
      * intros [->|Hin]%elem_of_cons; [now apply Hh|]. apply Ih in Hin. rewrite Hp in Hin. now apply not_elem_of_union in Hin as [_ Hin].
      * intros Hin. apply Ih in Hin. rewrite Hp in Hin. now apply not_elem_of_union in Hin as [_ Hin].
    + intros k. apply (Hrise _ m _ _ (lastApprovalNonces s' !! k)); [apply Hn|apply In].
    + intros k. apply (Hrise _ m _ _ (lastRevocationNonces s' !! k)); [apply Hr|apply Ir].
Qed.

(** C14: Whatever messages arrive in whatever order, those a new relayer accepts carry the HMAC
    of their contents, approvals before they expire; no approval is accepted twice as
    written, and the nonces of a key are positive and rise. *)
Theorem accepted_are_fresh (l : list Message) :
  Forall authentic (accepted l new_relayer) /\ NoDup (omap approval_hash (accepted l new_relayer))
  /\ (forall k, StronglySorted Z.lt (0 :: omap (approval_nonce k) (accepted l new_relayer)))
  /\ (forall k, StronglySorted Z.lt (0 :: omap (revocation_nonce k) (accepted l new_relayer))).
Proof. destruct (accepted_spec l new_relayer) as (Ha & Hd & _ & Hn & Hr). now repeat split. Qed.

Lemma signing_data_signed p : approvalSigningData (signPayload hmac p secretKey) = approvalSigningData p.
Proof. reflexivity. Qed.

(** A message that was signed here and has not expired is accepted once, with a nonce above
    the last one of its key or with none, and refused when it comes again. *)
Theorem signed_message_accepted (now now' : Z) p s :
  let q := signPayload hmac p secretKey in
  hmac secretKey (approvalSigningData p) <> ""%string -> now <= expiry_of p -> now' <= expiry_of p ->
  hash_of (M_approval now q) ∉ processedHashes s ->
  (forall n, nonce p = Some n -> default 0 (lastApprovalNonces s !! approval_key p) < n) ->
  exists s', processMessage hmac sha256 now q secretKey s = (Ok (hash_of (M_approval now q)), s')
    /\ processMessage hmac sha256 now' q secretKey s' = (Throw "Replay attack detected: Message already processed"%string, s').
Proof.
  intros q Hne Hnow Hnow' Hh Hn.
  assert (Hs : signaturesMatch (approval_signature q) (hmac secretKey (approvalSigningData q)) = true).
  { apply signatures_match. exists (hmac secretKey (approvalSigningData p)). now repeat split. }
  assert (Hex : forall t, t <= expiry_of p -> (expiry_of q <? t) = false) by (intros t Ht; apply Z.ltb_ge; exact Ht).
  assert (Hok : exists s', (do! _ <- check_nonce q in do! _ <- remember_hash (hash_of (M_approval now q)) in ret (hash_of (M_approval now q))) s
    = (Ok (hash_of (M_approval now q)), s') /\ hash_of (M_approval now q) ∈ processedHashes s').
  { unfold bind, check_nonce, remember_hash, ret. cbn [q signPayload nonce]. destruct (nonce p) as [n|] eqn:En.
    - change (approval_key q) with (approval_key p). destruct (Z.leb_spec n (default 0 (lastApprovalNonces s !! approval_key p))) as [Hle|_].
      + specialize (Hn n eq_refl). lia.
      + eexists. split; [reflexivity|]. cbn. apply elem_of_union_l. now apply elem_of_singleton.
    - eexists. split; [reflexivity|]. cbn. apply elem_of_union_l. now apply elem_of_singleton. }
  destruct Hok as (s' & E & Hin). exists s'. unfold processMessage. rewrite Hs, !Hex by assumption. cbn [negb].
  fold (hash_of (M_approval now q)). rewrite bool_decide_false by exact Hh. split; [exact E|].
  change (message_hash sha256 (approvalSigningData q) (approval_signature q)) with (hash_of (M_approval now q)).
  now rewrite bool_decide_true.
Qed.

Lemma buffer_from_hex_tail (c : ascii) (a : string) : Nat.Even (String.length a) -> buffer_from_hex (a ++ String c "") = buffer_from_hex a.
Proof.
  intros [n Hn]. revert a Hn. induction n as [|n IH]; intros a Hn.
  - destruct a; [reflexivity|discriminate Hn].
  - destruct a as [|x [|y a]]; try (cbn in Hn; lia). change (String x (String y a) ++ String c "")%string with (String x (String y (a ++ String c ""))). cbn [buffer_from_hex].
    destruct (hex_digit x), (hex_digit y); try reflexivity. f_equal. apply IH. cbn in Hn. lia.
Qed.

(** The signature is compared as bytes and remembered as text: an approval without a nonce
    is accepted again with any character after its signature. *)
Theorem respelled_signature_replays (now : Z) p (c : ascii) (h : string) s s' :
  let q := signPayload hmac p secretKey in
  let again := mkApproval (vaultGID q) (approver q) (approvalType q) (sent_at q) (sourceChain q) (destinationChain q) (nonce q) (expires q)
                 (option_map (fun a => a ++ String c "")%string (approval_signature q)) in
  nonce p = None -> Nat.Even (String.length (hmac secretKey (approvalSigningData p))) ->
  processMessage hmac sha256 now q secretKey s = (Ok h, s') ->
  hash_of (M_approval now again) ∉ processedHashes s' ->
  exists s'', processMessage hmac sha256 now again secretKey s' = (Ok (hash_of (M_approval now again)), s'').
Proof.
  intros q again Hn Hev E Hh. pose proof (receive_spec (M_approval now q) s) as Hr. cbn [receive] in Hr. rewrite E in Hr. cbn [is_ok] in Hr.
  destruct Hr as ((Hs & He) & _). unfold processMessage.
  assert (Hs' : signaturesMatch (approval_signature again) (hmac secretKey (approvalSigningData again)) = true).
  { apply signatures_match. eexists. split; [reflexivity|]. split; [now destruct (hmac secretKey (approvalSigningData p))|].
    now apply buffer_from_hex_tail. }
  rewrite Hs'. cbn [negb]. change (expiry_of again) with (expiry_of q). destruct (Z.ltb_spec (expiry_of q) now) as [|_]; [lia|].
  fold (hash_of (M_approval now again)). rewrite bool_decide_false by exact Hh. unfold bind, check_nonce, remember_hash, ret.
  change (nonce again) with (nonce p). rewrite Hn. eexists. reflexivity.
Qed.

(** The Stellar account of a revocation is not signed: with any other account it is
    accepted just the same, and relayed to the contract for that account. *)
Theorem revocation_redirected (other : string) (p : CrossChainRevocationPayload) (h : string) s s' :
  processRevocationBroadcast hmac sha256 p secretKey s = (Ok (h, p), s') ->
  let q := mkRevocation (r_vaultGID p) (r_document p) (targetUser p) (Some other) (r_nonce p) (r_signature p) (recoveryId p) in
  processRevocationBroadcast hmac sha256 q secretKey s = (Ok (h, q), s')
  /\ forall (W : Type) (client : RevokeAccess -> io W (Z * bool)) (w : W),
       relayRevocationToSoroban client q w
       = (do! r <- client (mkRevoke (r_vaultGID p) (r_document p) (targetUser p) other (r_nonce p) (or_default "0x00" (r_signature p))
                             (match recoveryId p with Some i => i | None => 0 end)) in ret (r.2, r.1)) w.
Proof.
  intros E q. split; [|reflexivity]. revert E. unfold processRevocationBroadcast. change (revocation_data q) with (revocation_data p).
  change (r_signature q) with (r_signature p). destruct (negb _); [discriminate|]. change (revocation_key q) with (revocation_key p).
  change (r_nonce q) with (r_nonce p). destruct (_ <=? _); [discriminate|]. intros [= <- <-]. reflexivity.
Qed.

(** Two revocations with one signature: the fields are not delimited. *)
Lemma ambiguous_revocation (gid user : string) (d d' n : Z) :
  revocation_data (mkRevocation gid d (num_str d' ++ ":" ++ user) None n None None)
  = revocation_data (mkRevocation (gid ++ ":" ++ num_str d) d' user None n None None).
Proof. unfold revocation_data. cbn. repeat (cbn; rewrite ?str_app_assoc). reflexivity. Qed.
End Accepted.

(** ** What a heartbeat signs and what it leaves behind *)

Section Beats.
Context {N O : Type}.
Variables (keccak256 : list Z -> string) (getBytes : string -> res (list Z)) (parity : string -> res Z).
Implicit Types (p q : HeartbeatPayload) (s : App N O).

Lemma ok_inj {A : Type} (x y : A) : Ok x = Ok y -> x = y.
Proof. now intros [= ->]. Qed.

Lemma word8_inv (n : Z) (b : list Z) : word8 n = Ok b -> length b = 8%nat /\ bytes_value b = n.
Proof.
  unfold word8. destruct (Z.ltb_spec n 0); [discriminate|]. destruct (Z.leb_spec (2 ^ 64) n); [discriminate|].
  intros E. apply ok_inj in E. subst b.
  split; [apply be_bytes_length|]. apply bytes_value_be. cbn. lia.
Qed.

(** The signed bytes determine the vault, the time, the owner and the identity: no
    heartbeat can be read as another. *)
Theorem heartbeat_binds p q (b g g' o o' : list Z) :
  heartbeat_bytes getBytes p = Ok b -> heartbeat_bytes getBytes q = Ok b ->
  getBytes (gidHash p) = Ok g -> getBytes (gidHash q) = Ok g' -> getBytes (evmOwner p) = Ok o -> getBytes (evmOwner q) = Ok o' ->
  length g = length g' -> length o = length o' ->
  h_vaultId p = h_vaultId q /\ h_timestamp p = h_timestamp q /\ g = g' /\ o = o'.
Proof.
  intros Hp Hq Hg Hg' Ho Ho' Lg Lo. revert Hp Hq. unfold heartbeat_bytes. rewrite Hg, Hg', Ho, Ho'. cbn [res_bind].
  destruct (word8 (h_vaultId p)) as [v|] eqn:Ev; [|discriminate]. destruct (word8 (h_timestamp p)) as [t|] eqn:Et; [|discriminate].
  destruct (word8 (h_vaultId q)) as [v'|] eqn:Ev'; [|discriminate]. destruct (word8 (h_timestamp q)) as [t'|] eqn:Et'; [|discriminate].
  cbn [res_bind]. intros [= <-] [= E]. apply word8_inv in Ev as [Lv Ev], Et as [Lt Et], Ev' as [Lv' Ev'], Et' as [Lt' Et'].
  apply app_inj_1 in E as [-> E]; [|congruence].
  apply app_inj_1 in E as [-> E]; [|congruence]. apply app_inj_1 in E as [-> ->]; [|congruence]. repeat split; congruence.
Qed.

(** *** A heartbeat whose second half fails *)

Variables (env : Settings) (getFunction : string -> res bool) (env_contract : option string)
  (call : Session -> string -> list ScVal -> res ScVal).
Variables (sent : N -> list Call) (w : Writer N) (providers : list (Provider N)).
Hypothesis submits : forall c n, exists tx n', submit w c n = (Ok tx, n') /\ sent n' = sent n ++ [c]
  /\ forall t m, sent (tx_wait tx t m).2 = sent m.
Hypothesis looks : forall r, r ∈ providers -> forall h t n, sent (waitForTransaction r h t n).2 = sent n.

Lemma prove_life_sends (vaultId : Z) (c : Client N) : sender w providers c -> contractHasFunction getFunction "proveLife(uint256)" = true ->
  after_sending sent w providers [C_proveLife vaultId] c (recordProofOfLife env getFunction vaultId c).2.
Proof.
  intros Hc Hf. unfold recordProofOfLife, supported, cbind, ensureWriteContract. rewrite (proj1 Hc), Hf.
  pose proof (send_sends env sent w providers submits looks (C_proveLife vaultId) c Hc) as H. unfold cret at 1.
  destruct (send env (C_proveLife vaultId) c) as [[r|e] c']; [|exact H]. now destruct (blank (receipt_hash r)).
Qed.

(** When the Stellar half of a heartbeat fails the call fails, and its proof of life has
    been sent on the EVM chain. *)
Theorem heartbeat_half_done (vaultId stellarVaultId : Z) (relayer owner g hash e : string) (sgn : HeartbeatSignature) (signer : @Signer N O) s :
  let p := buildHeartbeatPayload keccak256 g vaultId owner (clock (client s) / 1000) in
  getAddress signer s = (Ok owner, s) -> getVaultGID getFunction vaultId s = (Ok g, s) ->
  signHeartbeatPayload keccak256 getBytes parity p signer s = (Ok sgn, s) ->
  sender w providers (client s) -> contractHasFunction getFunction "proveLife(uint256)" = true ->
  fst (recordProofOfLife env getFunction vaultId (client s)) = Ok hash ->
  fst (syncProofOfLife env_contract call stellarVaultId vaultId (gidHash p) owner (clock (client s) / 1000) (h_signature sgn) (h_recoveryId sgn)
         (Some relayer) (session s)) = Throw e ->
  let result := synchronizeHeartbeat keccak256 getBytes parity env getFunction env_contract call vaultId stellarVaultId relayer signer s in
  fst result = Throw e /\ sent (network (client result.2)) = sent (network (client s)) ++ [C_proveLife vaultId].
Proof.
  intros p Ha Hg Hs Hc Hf Hr Hx result.
  destruct (prove_life_sends vaultId (client s) Hc Hf) as (_ & _ & Hsent).
  assert (E : exists t, result = (Throw e, mkApp (recordProofOfLife env getFunction vaultId (client s)).2 t (offline s))).
  { unfold result, synchronizeHeartbeat. unfold bind at 1. rewrite Ha. unfold bind at 1. rewrite Hg. unfold bind at 1, now. cbv zeta. fold p.
    unfold bind at 1. rewrite Hs. unfold bind, on_client, on_stellar.
    destruct (recordProofOfLife env getFunction vaultId (client s)) as [r c']. cbn [fst] in Hr. rewrite Hr. cbn [session client snd].
    destruct (syncProofOfLife _ _ _ _ _ _ _ _ _ _ _) as [r' t]. cbn [fst] in Hx. rewrite Hx. now exists t. }
  destruct E as [t ->]. split; [reflexivity|exact Hsent].
Qed.
End Beats.

(** ** Witnesses *)

Module DemoRelay.

(** An HMAC that is the hex text of its key and data's lengths, and a digest that is its input. *)
Definition mac (key data : string) : string := bytes_hex [Z.of_nat (String.length key); Z.of_nat (String.length data) mod 256].
Definition identity (s : string) : string := s.
Definition approval : CrossChainPayload := mkApproval "0xG" "0xAda" 1 1000 None None None None None.
Definition revocation : CrossChainRevocationPayload := mkRevocation "0xG" 1 "0xBob" (Some "GBOB"%string) 1 None None.

Lemma respelled_signature_replays_witness :
  exists h h' s s', processMessage mac identity 2000 (signPayload mac approval "k") "k" new_relayer = (Ok h, s)
    /\ processMessage mac identity 2000 (mkApproval "0xG" "0xAda" 1 1000 (Some "avalanche"%string) (Some "stellar"%string) None
         (Some 301000) (Some (mac "k" (approvalSigningData approval) ++ "x")%string)) "k" s = (Ok h', s').
Proof.
  set (X := processMessage mac identity 2000 (signPayload mac approval "k") "k" new_relayer).
  set (h' := hash_of identity (M_approval 2000 (mkApproval "0xG" "0xAda" 1 1000 (Some "avalanche"%string) (Some "stellar"%string) None
         (Some 301000) (Some (mac "k" (approvalSigningData approval) ++ "x")%string)))).
  assert (B : match fst X with Ok _ => true | Throw _ => false end = true) by (vm_compute; reflexivity).
  assert (N : h' ∉ processedHashes (snd X)) by (apply (bool_decide_eq_false_1 (h' ∈ processedHashes (snd X))); vm_compute; reflexivity).
  destruct X as [[h|e] s] eqn:E; [|discriminate B]. cbn [snd] in N. unfold X in E.
  destruct (respelled_signature_replays mac identity "k" 2000 approval "x"%char h new_relayer s) as (s' & E').
  - reflexivity.
  - exists 2%nat. vm_compute. reflexivity.
  - exact E.
  - exact N.
  - exists h. eexists. exists s, s'. split; [reflexivity|]. exact E'.
Defined.

Lemma signed_message_accepted_witness :
  exists h s, processMessage mac identity 2000 (signPayload mac approval "k") "k" new_relayer = (Ok h, s)
    /\ fst (processMessage mac identity 2001 (signPayload mac approval "k") "k" s) = Throw "Replay attack detected: Message already processed"%string.
Proof.
  destruct (signed_message_accepted mac identity "k" 2000 2001 approval new_relayer) as (s & E & E').
  - vm_compute. discriminate.
  - vm_compute. discriminate.
  - vm_compute. discriminate.
  - apply not_elem_of_empty.
  - intros n H. discriminate H.
  - eexists. exists s. split; [exact E|]. now rewrite E'.
Defined.

Lemma revocation_redirected_witness :
  exists h q s, processRevocationBroadcast mac identity q "k" new_relayer = (Ok (h, q), s) /\ targetStellarUser q = Some "GEVE"%string
    /\ r_signature q = Some (mac "k" (revocation_data revocation)).
Proof.
  destruct (revocation_redirected mac identity "k" "GEVE" (signRevocationPayload mac revocation "k")
    (hash_of identity (M_revocation (signRevocationPayload mac revocation "k"))) new_relayer
    (snd (processRevocationBroadcast mac identity (signRevocationPayload mac revocation "k") "k" new_relayer))) as [E _].
  - reflexivity.
  - do 3 eexists. split; [exact E|]. split; reflexivity.
Defined.

End DemoRelay.
