(* ===== verification/Bls.v ===== *)
(** * Bls: guardian approvals by BLS threshold signatures

    blsCrypto.ts and blsKeyring.service.ts: keys with a proof of possession, signature
    shares, their aggregation into one approval, and the keyring with its database, its
    memory and the key that is active.  The curve of noble and what ethers encodes are
    classes; the address checksum may throw. *)

From Stdlib Require Import Ascii String ZArith Lia Bool.
From stdpp Require Import base list gmap strings.
From S2P Require Import Prelude Bytes JsString Hex WebCrypto KeyInbox Passphrase.

Open Scope list_scope.
Open Scope Z_scope.
Open Scope io_scope.

(** ** The libraries *)

(** bls12_381 of noble: points and their bytes ([None] when the bytes are no point), and
    the operations, which may throw. *)
Class Curve : Type := {
  G1 : Type; G2 : Type;
  g1_of : list Z -> option G1; g1_bytes : G1 -> list Z;
  g2_of : list Z -> option G2; g2_bytes : G2 -> list Z;
  hash_to_g2 : list Z -> list Z -> G2;
  keygen : list Z -> list Z * G1;
  public_of : list Z -> res G1;
  sign_point : G2 -> list Z -> res G2;
  verify_point : G2 -> G2 -> G1 -> res bool;
  add_signatures : list G2 -> res G2; add_keys : list G1 -> res G1;
  identity : G1 -> Prop
}.

(** What noble documents: bytes are read back, a signature verifies under the key of its
    scalar, and a sum of signatures of one message under the sum of the keys, unless that
    sum is the identity. *)
Class CurveLaws (C : Curve) : Prop := {
  g1_back : forall p, bytes (g1_bytes p) /\ g1_of (g1_bytes p) = Some p;
  g2_back : forall p, bytes (g2_bytes p) /\ g2_of (g2_bytes p) = Some p;
  keygen_key : forall seed, bytes (keygen seed).1 /\ public_of (keygen seed).1 = Ok (keygen seed).2;
  sign_verifies : forall h k p, public_of k = Ok p -> exists s, sign_point h k = Ok s /\ verify_point s h p = Ok true;
  sum_verifies : forall h l, l <> [] -> Forall (fun '(s, p) => exists k, public_of k = Ok p /\ sign_point h k = Ok s) l ->
    exists s p, add_signatures (map fst l) = Ok s /\ add_keys (map snd l) = Ok p /\ (~ identity p -> verify_point s h p = Ok true)
}.

(** ethers: the checksummed address, the packed encoding of an approval, Keccak, and hex. *)
Class Ethers : Type := {
  checksum : string -> res string;
  solidityPacked : string -> Z -> Z -> Z -> string -> Z -> res string;
  keccak : list Z -> string;
  hexlify : list Z -> string; unhex : string -> res (list Z)
}.
Class EthersLaws (E : Ethers) : Prop := {
  checksum_idem : forall a b, checksum a = Ok b -> checksum b = Ok b;
  unhex_hexlify : forall l, bytes l -> unhex (hexlify l) = Ok l
}.

(** ** Hex and messages *)

Definition bytesToHex (l : list Z) : string := ("0x" ++ bytes_hex l)%string.
Definition bls_hexToBytes (hex : string) : res (list Z) :=
  let cleanHex := match hex with String "0" (String "x" t) => t | _ => hex end in
  if Nat.odd (String.length cleanHex) then Throw "Invalid hex string length"%string else Ok (hex_bytes cleanHex).

Section Crypto.
Context {C : Curve} {E : Ethers} {W : WebCrypto}.

Definition BLS_APPROVAL_DST : list Z := text_encode "BLS_SIG_BLS12381G2_XMD:SHA-256_SSWU_RO_SPOOVAULT_APPROVAL_V1".
Definition BLS_POP_DST : list Z := text_encode "BLS_POP_BLS12381G2_XMD:SHA-256_SSWU_RO_SPOOVAULT_POP_V1".

Record BLSKeyPair : Type := mkKey {
  privateKey : string; publicKey : string; proofOfPossession : string; createdAt : Z; guardianAddress : string; vaultIds : list Z
}.

Record BLSSignatureShare : Type := mkShare {
  s_guardian : string; s_index : option Z; s_publicKey : string; s_signature : string; s_requestId : Z; s_vaultId : Z; s_documentId : Z;
  s_beneficiary : string; s_timestamp : Z; s_encrypted : option string; s_fhe : option string
}.

Record BLSAggregatedApprovalPayload : Type := mkApprovalPayload {
  a_requestId : Z; a_vaultId : Z; a_documentId : Z; a_beneficiary : string; guardianAddresses : list string; guardianIndices : list Z;
  publicKeys : list string; aggregatedPublicKey : string; aggregatedSignature : string; encryptedSharesForBeneficiary : list string;
  messageDigest : string
}.

(** A library that throws where the code does not catch. *)
Definition point_of {A : Type} (r : option A) : res A := match r with Some p => Ok p | None => Throw "invalid point"%string end.

Definition getBLSPublicKey (privateKeyHex : string) : res string :=
  let! k := bls_hexToBytes privateKeyHex in let! p := public_of k in Ok (bytesToHex (g1_bytes p)).

Definition createProofOfPossession (privateKeyHex publicKeyHex : string) : res string :=
  let! k := bls_hexToBytes privateKeyHex in
  let! pub := bls_hexToBytes publicKeyHex in
  let! s := sign_point (hash_to_g2 pub BLS_POP_DST) k in
  Ok (bytesToHex (g2_bytes s)).

(** [try { ... } catch { return false }] *)
Definition or_false (r : res bool) : bool := match r with Ok b => b | Throw _ => false end.

Definition verifyProofOfPossession (publicKeyHex popHex : string) : bool :=
  or_false (let! pub := bls_hexToBytes publicKeyHex in
            let! pop := bls_hexToBytes popHex in
            let! p := point_of (g1_of pub) in
            let! s := point_of (g2_of pop) in
            verify_point s (hash_to_g2 pub BLS_POP_DST) p).

(** [seed] is the caller's when it has 32 bytes, [fresh] is drawn; [now] is the time. *)
Definition generateBLSKeyPair (seed : option (list Z)) (fresh : list Z) (now : Z) : res BLSKeyPair :=
  let rawSeed := match seed with Some s => if (32 <=? length s)%nat then s else fresh | None => fresh end in
  let '(secret, pub) := keygen rawSeed in
  let privateKeyHex := bytesToHex secret in
  let publicKeyHex := bytesToHex (g1_bytes pub) in
  let! pop := createProofOfPossession privateKeyHex publicKeyHex in
  Ok (mkKey privateKeyHex publicKeyHex pop now "" []).

Definition encodeApprovalMessage (requestId vaultId documentId : Z) (beneficiary : string) (chainId : Z) : res (list Z) :=
  let! b := checksum beneficiary in
  let! encoded := solidityPacked "SPOOVAULT_ACCESS_APPROVAL_V1" requestId vaultId documentId b chainId in
  bls_hexToBytes encoded.

Definition hashApprovalMessage (requestId vaultId documentId : Z) (beneficiary : string) (chainId : Z) : res string :=
  let! m := encodeApprovalMessage requestId vaultId documentId beneficiary chainId in Ok (keccak m).

(** A message is bytes, or a text that is hex after 0x. *)
Inductive BlsMessage : Type := B_bytes (l : list Z) | B_text (s : string).
Definition message_bytes (m : BlsMessage) : res (list Z) :=
  match m with
  | B_bytes l => Ok l
  | B_text s => if startsWith "0x" s then bls_hexToBytes s else Ok (text_encode s)
  end.

Definition signBLS (message : BlsMessage) (privateKeyHex : string) : res string :=
  let! k := bls_hexToBytes privateKeyHex in
  let! m := message_bytes message in
  let! s := sign_point (hash_to_g2 m BLS_APPROVAL_DST) k in
  Ok (bytesToHex (g2_bytes s)).

Definition verifyBLSSignature (signatureHex : string) (message : BlsMessage) (publicKeyHex : string) : bool :=
  or_false (let! sg := bls_hexToBytes signatureHex in
            let! pub := bls_hexToBytes publicKeyHex in
            let! m := message_bytes message in
            let! s := point_of (g2_of sg) in
            let! p := point_of (g1_of pub) in
            verify_point s (hash_to_g2 m BLS_APPROVAL_DST) p).

Definition verifyAggregatedBLSSignature : string -> BlsMessage -> string -> bool := verifyBLSSignature.

Definition aggregateBLSSignatures (signaturesHex : list string) : res string :=
  match signaturesHex with
  | [] => Throw "Cannot aggregate empty signature list"%string
  | [s] => Ok s
  | _ =>
      let! points := res_mapM (fun s => let! b := bls_hexToBytes s in point_of (g2_of b)) signaturesHex in
      let! p := add_signatures points in Ok (bytesToHex (g2_bytes p))
  end.

Definition aggregateBLSPublicKeys (publicKeysHex : list string) : res string :=
  match publicKeysHex with
  | [] => Throw "Cannot aggregate empty public key list"%string
  | [k] => Ok k
  | _ =>
      let! points := res_mapM (fun k => let! b := bls_hexToBytes k in point_of (g1_of b)) publicKeysHex in
      let! p := add_keys points in Ok (bytesToHex (g1_bytes p))
  end.

(** The first share of each guardian, in the order of their first shares. *)
Fixpoint unique_shares (shares : list BLSSignatureShare) (seen : list string) : res (list BLSSignatureShare) :=
  match shares with
  | [] => Ok []
  | share :: rest =>
      let! addr := checksum (s_guardian share) in
      if bool_decide (addr ∈ seen) then unique_shares rest seen
      else let! l := unique_shares rest (addr :: seen) in Ok (share :: l)
  end.

(** [l.slice(0, n)] *)
Definition slice_first {A : Type} (n : Z) (l : list A) : list A :=
  if n <? 0 then firstn (length l - Z.to_nat (- n)) l else firstn (Z.to_nat n) l.

(** The share that does not verify, if there is one. *)
Definition invalid_share (m : list Z) (l : list BLSSignatureShare) : option BLSSignatureShare :=
  List.find (fun s => negb (verifyBLSSignature (s_signature s) (B_bytes m) (s_publicKey s))) l.

Fixpoint indices_from (i : Z) (l : list BLSSignatureShare) : list Z :=
  match l with [] => [] | s :: l' => match s_index s with Some j => j | None => i end :: indices_from (i + 1) l' end.

Definition aggregateGuardianApprovalShares (shares : list BLSSignatureShare) (requestId vaultId documentId : Z) (beneficiary : string)
    (threshold chainId : Z) : res BLSAggregatedApprovalPayload :=
  if Z.of_nat (length shares) <? threshold
  then Throw ("Insufficient guardian shares: received " ++ num_str (Z.of_nat (length shares)) ++ ", required " ++ num_str threshold)%string
  else
    let! unique := unique_shares shares [] in
    let selected := slice_first threshold unique in
    let! m := encodeApprovalMessage requestId vaultId documentId beneficiary chainId in
    let! digest := hashApprovalMessage requestId vaultId documentId beneficiary chainId in
    match invalid_share m selected with
    | Some share => Throw ("Invalid BLS signature from guardian " ++ s_guardian share)%string
    | None =>
        let! addresses := res_mapM (fun s => checksum (s_guardian s)) selected in
        let! signature := aggregateBLSSignatures (map s_signature selected) in
        let! key := aggregateBLSPublicKeys (map s_publicKey selected) in
        if negb (verifyAggregatedBLSSignature signature (B_bytes m) key) then Throw "Aggregated signature verification failed"%string
        else
          let! b := checksum beneficiary in
          Ok (mkApprovalPayload requestId vaultId documentId b addresses (indices_from 0 selected) (map s_publicKey selected) key signature
                (map (fun s => or_empty (s_encrypted s)) selected) digest)
    end.

Record BLSThresholdVerificationResult : Type := mkVerification {
  isValid : bool; thresholdReached : bool; requiredThreshold : Z; participatingGuardians : Z; verification_error : option string
}.

Definition verifyAggregatedApproval (payload : BLSAggregatedApprovalPayload) (requiredThreshold chainId : Z)
    : res BLSThresholdVerificationResult :=
  let participating := Z.of_nat (length (guardianAddresses payload)) in
  if negb (requiredThreshold <=? participating)
  then Ok (mkVerification false false requiredThreshold participating
             (Some ("Insufficient guardians: " ++ num_str participating ++ "/" ++ num_str requiredThreshold)%string))
  else
    let! m := encodeApprovalMessage (a_requestId payload) (a_vaultId payload) (a_documentId payload) (a_beneficiary payload) chainId in
    Ok (mkVerification (verifyAggregatedBLSSignature (aggregatedSignature payload) (B_bytes m) (aggregatedPublicKey payload)) true
          requiredThreshold participating None).
End Crypto.

(** ** The keyring *)

(** The database: missing or not opened, open, or open with requests that fail. *)
Inductive BlsDbMode : Type := Bls_no_db | Bls_db | Bls_failing.

(** The records by guardian; their index is unique. *)
Record BlsWorld : Type := mkBlsWorld {
  activeKey : option BLSKeyPair; bls_db_mode : BlsDbMode; bls_db : gmap string BLSKeyPair; memoryFallback : gmap string BLSKeyPair
}.

Record BLSKeyBackup : Type := mkBackup {
  b_guardian : string; encryptedPrivateKey : string; b_salt : string; b_iv : string; b_publicKey : string; b_pop : string; b_createdAt : Z
}.

Section Keyring.
Context {C : Curve} {E : Ethers} {W : WebCrypto} {K : Kdf}.
(** PBKDF2 of noble: text, salt, count, length. *)
Variable noble_pbkdf2 : list Z -> list Z -> Z -> Z -> list Z.

Abbreviation B := (io BlsWorld).

Definition lift_res {A : Type} (r : res A) : B A := fun w => (r, w).
Definition set_active (k : BLSKeyPair) : B unit :=
  fun w => (Ok tt, mkBlsWorld (Some k) (bls_db_mode w) (bls_db w) (memoryFallback w)).

(** Errors of the database are caught. *)
Definition saveKey (address : string) (k : BLSKeyPair) : B unit :=
  let record := mkKey (privateKey k) (publicKey k) (proofOfPossession k) (createdAt k) address (vaultIds k) in
  fun w => (Ok tt, match bls_db_mode w with
                   | Bls_db => mkBlsWorld (activeKey w) Bls_db (<[address := record]> (bls_db w)) (memoryFallback w)
                   | m => mkBlsWorld (activeKey w) m (bls_db w) (<[address := record]> (memoryFallback w))
                   end).

(** The active key; or the record of the database, which becomes active; the memory is
    read only when a request fails. *)
Definition getKeyForGuardian (address : string) : B (option BLSKeyPair) :=
  do! a <- lift_res (checksum address) in
  fun w =>
    let stored := match bls_db_mode w with
                  | Bls_no_db => (Ok None, w)
                  | Bls_db => match bls_db w !! a with
                              | Some k => (Ok (Some k), mkBlsWorld (Some k) Bls_db (bls_db w) (memoryFallback w))
                              | None => (Ok None, w)
                              end
                  | Bls_failing => (Ok (memoryFallback w !! a), w)
                  end in
    match activeKey w with
    | Some k => if String.eqb (guardianAddress k) a then (Ok (Some k), w) else stored
    | None => stored
    end.

Definition hasKeyForGuardian (address : string) : B bool :=
  do! k <- getKeyForGuardian address in ret (match k with Some _ => true | None => false end).

(** [keyPair.guardianAddress = a; keyPair.vaultIds = []], saved and made active. *)
Definition adopt (a : string) (k : BLSKeyPair) : B BLSKeyPair :=
  let k := mkKey (privateKey k) (publicKey k) (proofOfPossession k) (createdAt k) a [] in
  do! _ <- saveKey a k in do! _ <- set_active k in ret k.

Definition generateKeyForGuardian (address : string) (fresh : list Z) (now : Z) : B BLSKeyPair :=
  do! a <- lift_res (checksum address) in
  do! k <- lift_res (generateBLSKeyPair None fresh now) in
  adopt a k.

Definition deriveBLSKeyFromMnemonic (mnemonic : string) (accountIndex : Z) (fresh : list Z) (now : Z) : res BLSKeyPair :=
  let salt := text_encode ("mnemonic_bls12_381_account_" ++ num_str accountIndex)%string in
  generateBLSKeyPair (Some (noble_pbkdf2 (text_encode (JsonText.toLowerCase (trim mnemonic))) salt 4096 48)) fresh now.

Definition deriveFromMnemonic (address mnemonic : string) (accountIndex : Z) (fresh : list Z) (now : Z) : B BLSKeyPair :=
  do! a <- lift_res (checksum address) in
  do! k <- lift_res (deriveBLSKeyFromMnemonic mnemonic accountIndex fresh now) in
  adopt a k.

Definition importPrivateKey (address privateKeyHex : string) (now : Z) : B BLSKeyPair :=
  do! a <- lift_res (checksum address) in
  let clean := if startsWith "0x" privateKeyHex then privateKeyHex else ("0x" ++ privateKeyHex)%string in
  do! pub <- lift_res (getBLSPublicKey clean) in
  do! pop <- lift_res (createProofOfPossession clean pub) in
  adopt a (mkKey clean pub pop now a []).

(** The key is changed in place: when it is the active one, the active one changes. *)
Definition linkVaultToKey (address : string) (vaultId : Z) : B unit :=
  do! a <- lift_res (checksum address) in
  do! found <- getKeyForGuardian a in
  match found with
  | None => throw ("No BLS key found for guardian " ++ address)%string
  | Some k =>
      if existsb (Z.eqb vaultId) (vaultIds k) then ret tt
      else
        let k' := mkKey (privateKey k) (publicKey k) (proofOfPossession k) (createdAt k) (guardianAddress k) (vaultIds k ++ [vaultId]) in
        do! _ <- (fun w => (Ok tt, match activeKey w with
                                   | Some x => if String.eqb (guardianAddress x) a
                                               then mkBlsWorld (Some k') (bls_db_mode w) (bls_db w) (memoryFallback w) else w
                                   | None => w
                                   end)) in
        saveKey a k'
  end.

Definition signAccessApproval (address : string) (requestId vaultId documentId : Z) (beneficiary : string)
    (encryptedShare fheShare : option string) (chainId now : Z) : B BLSSignatureShare :=
  do! a <- lift_res (checksum address) in
  do! found <- getKeyForGuardian a in
  match found with
  | None => throw ("Cannot sign approval: No BLS key found for guardian " ++ address)%string
  | Some k =>
      do! m <- lift_res (encodeApprovalMessage requestId vaultId documentId beneficiary chainId) in
      do! signature <- lift_res (signBLS (B_bytes m) (privateKey k)) in
      do! b <- lift_res (checksum beneficiary) in
      ret (mkShare a None (publicKey k) signature requestId vaultId documentId b now encryptedShare fheShare)
  end.

(** AES-GCM under PBKDF2 with 100000 iterations; [salt] and [iv] are drawn. *)
Definition BACKUP_ITERATIONS : Z := 100000.

Definition exportEncryptedBackup (address password : string) (salt iv : list Z) : B BLSKeyBackup :=
  do! a <- lift_res (checksum address) in
  do! found <- getKeyForGuardian a in
  match found with
  | None => throw "No key found to export"
  | Some k =>
      do! key <- lift_res (pbkdf2 (text_encode password) salt BACKUP_ITERATIONS) in
      ret (mkBackup a (hexlify (aes_gcm_encrypt key iv [] (text_encode (privateKey k)))) (hexlify salt) (hexlify iv)
             (publicKey k) (proofOfPossession k) (createdAt k))
  end.

Definition importEncryptedBackup (backup : BLSKeyBackup) (password : string) (now : Z) : B BLSKeyPair :=
  do! salt <- lift_res (unhex (b_salt backup)) in
  do! iv <- lift_res (unhex (b_iv backup)) in
  do! data <- lift_res (unhex (encryptedPrivateKey backup)) in
  do! key <- lift_res (pbkdf2 (text_encode password) salt BACKUP_ITERATIONS) in
  match aes_gcm_decrypt key iv [] data with
  | None => throw "OperationError"
  | Some plain => importPrivateKey (b_guardian backup) (text_decode plain) now
  end.
End Keyring.

(** * Honest approvals verify, and what else does

    Over any curve with the laws of [CurveLaws]: keys of a reachable keyring match, their
    shares aggregate to an approval that verifies; the checks of the code also accept a
    forged list of guardians. *)

Open Scope list_scope.
Open Scope Z_scope.
Open Scope io_scope.

(** ** Hex *)

Lemma hex_back (l : list Z) : bytes l -> bls_hexToBytes (bytesToHex l) = Ok l.
Proof.
  intros Hl. change (bls_hexToBytes (bytesToHex l))
    with (if Nat.odd (String.length (bytes_hex l)) then Throw "Invalid hex string length"%string else Ok (hex_bytes (bytes_hex l))).
  rewrite bytes_hex_length, Nat.odd_mul, andb_false_l by exact Hl. now rewrite hex_bytes_bytes_hex.
Qed.

Section Approvals.
Context {C : Curve} {CL : CurveLaws C} {E : Ethers} {EL : EthersLaws E} {W : WebCrypto} {WL : WebCryptoLaws W} {K : Kdf}.

(** The public key and the proof are those of the private key. *)
Definition good_key (k : BLSKeyPair) : Prop :=
  exists sk pk, bls_hexToBytes (privateKey k) = Ok sk /\ public_of sk = Ok pk /\ publicKey k = bytesToHex (g1_bytes pk)
    /\ createProofOfPossession (privateKey k) (publicKey k) = Ok (proofOfPossession k)
    /\ startsWith "0x" (privateKey k) = true /\ checksum (guardianAddress k) = Ok (guardianAddress k).

(** A point read back from the text it was written to. *)
Lemma read_g1 (p : G1) : (let! b := bls_hexToBytes (bytesToHex (g1_bytes p)) in point_of (g1_of b)) = Ok p.
Proof. destruct (g1_back p) as [Hb Hp]. rewrite hex_back by exact Hb. cbn. now rewrite Hp. Qed.
Lemma read_g2 (p : G2) : (let! b := bls_hexToBytes (bytesToHex (g2_bytes p)) in point_of (g2_of b)) = Ok p.
Proof. destruct (g2_back p) as [Hb Hp]. rewrite hex_back by exact Hb. cbn. now rewrite Hp. Qed.

Lemma verify_points (s : G2) (m : list Z) (p : G1) :
  verifyBLSSignature (bytesToHex (g2_bytes s)) (B_bytes m) (bytesToHex (g1_bytes p)) = or_false (verify_point s (hash_to_g2 m BLS_APPROVAL_DST) p).
Proof.
  destruct (g1_back p) as [Hb Hp], (g2_back s) as [Hc Hs]. unfold verifyBLSSignature. rewrite !hex_back by assumption. cbn. now rewrite Hp, Hs.
Qed.

(** A proof of possession that was made for a key verifies. *)
Lemma good_key_proof (k : BLSKeyPair) : good_key k -> verifyProofOfPossession (publicKey k) (proofOfPossession k) = true.
Proof.
  intros (sk & pk & Hk & Hp & Hpub & Hpop & _). destruct (g1_back pk) as [Hb Hback].
  unfold createProofOfPossession in Hpop. rewrite Hk, Hpub, hex_back in Hpop by exact Hb. cbn in Hpop.
  destruct (sign_verifies (hash_to_g2 (g1_bytes pk) BLS_POP_DST) sk pk Hp) as (s & Hs & Hv). rewrite Hs in Hpop. cbn in Hpop.
  injection Hpop as <-. destruct (g2_back s) as [Hc Hs2]. unfold verifyProofOfPossession. rewrite Hpub, !hex_back by assumption. cbn.
  rewrite Hback, Hs2. cbn. now rewrite Hv.
Qed.

(** A share of a message, with the scalar behind it. *)
Definition good_share (m : list Z) (s : BLSSignatureShare) : Prop :=
  exists sk pk sg, public_of sk = Ok pk /\ sign_point (hash_to_g2 m BLS_APPROVAL_DST) sk = Ok sg
    /\ s_publicKey s = bytesToHex (g1_bytes pk) /\ s_signature s = bytesToHex (g2_bytes sg).

Lemma good_share_verifies (m : list Z) (s : BLSSignatureShare) : good_share m s ->
  verifyBLSSignature (s_signature s) (B_bytes m) (s_publicKey s) = true.
Proof.
  intros (sk & pk & sg & Hp & Hs & -> & ->). rewrite verify_points.
  destruct (sign_verifies (hash_to_g2 m BLS_APPROVAL_DST) sk pk Hp) as (sg' & Hs' & Hv). rewrite Hs in Hs'. injection Hs' as <-. now rewrite Hv.
Qed.

Lemma no_invalid_share (m : list Z) (l : list BLSSignatureShare) : Forall (good_share m) l -> invalid_share m l = None.
Proof.
  intros Hl. unfold invalid_share. destruct (List.find _ l) as [s|] eqn:Ef; [|reflexivity]. apply find_some in Ef as [Hin Hv].
  rewrite Forall_forall in Hl. rewrite good_share_verifies in Hv; [discriminate|]. apply Hl. now apply list_elem_of_In.
Qed.

(** The points of shares. *)
Lemma share_points (m : list Z) (l : list BLSSignatureShare) : Forall (good_share m) l ->
  exists pts, Forall (fun '(s, p) => exists k, public_of k = Ok p /\ sign_point (hash_to_g2 m BLS_APPROVAL_DST) k = Ok s) pts
    /\ map s_signature l = map (fun x => bytesToHex (g2_bytes x)) (map fst pts)
    /\ map s_publicKey l = map (fun x => bytesToHex (g1_bytes x)) (map snd pts).
Proof.
  induction 1 as [|s l (sk & pk & sg & Hp & Hs & Ek & Es) _ (pts & Hpts & IH1 & IH2)]; [exists []; now repeat split|].
  exists ((sg, pk) :: pts). split; [constructor; [now exists sk|exact Hpts]|]. cbn. now rewrite Es, Ek, IH1, IH2.
Qed.

Lemma read_all {A : Type} (read : string -> res A) (write : A -> string) (l : list A) : (forall x, read (write x) = Ok x) -> res_mapM read (map write l) = Ok l.
Proof. intros H. induction l as [|x l IH]; [reflexivity|]. cbn. rewrite H. cbn. rewrite IH. reflexivity. Qed.

(** No identity among the sums of the keys of shares. *)
Definition sums_to_point (l : list BLSSignatureShare) : Prop :=
  forall pts p, map s_publicKey l = map (fun x => bytesToHex (g1_bytes x)) pts -> add_keys pts = Ok p -> ~ identity p.

Lemma aggregate_verifies (m : list Z) (l : list BLSSignatureShare) : l <> [] -> Forall (good_share m) l -> sums_to_point l ->
  exists sg pk, aggregateBLSSignatures (map s_signature l) = Ok sg /\ aggregateBLSPublicKeys (map s_publicKey l) = Ok pk
    /\ verifyAggregatedBLSSignature sg (B_bytes m) pk = true.
Proof.
  intros Hne Hl Hsum. destruct l as [|s [|s' l]]; [contradiction| |].
  - exists (s_signature s), (s_publicKey s). split; [reflexivity|]. split; [reflexivity|]. apply good_share_verifies. now inversion Hl.
  - destruct (share_points m _ Hl) as (pts & Hpts & Es & Ek).
    destruct (sum_verifies (hash_to_g2 m BLS_APPROVAL_DST) pts) as (sg & pk & Hs & Hk & Hv); [intros ->; discriminate Es|exact Hpts|].
    exists (bytesToHex (g2_bytes sg)), (bytesToHex (g1_bytes pk)). specialize (Hsum _ _ Ek Hk).
    unfold aggregateBLSSignatures, aggregateBLSPublicKeys. rewrite Es, Ek.
    rewrite (read_all (fun s => let! b := bls_hexToBytes s in point_of (g2_of b)) (fun x => bytesToHex (g2_bytes x)) (map fst pts)) by apply read_g2.
    rewrite (read_all (fun s => let! b := bls_hexToBytes s in point_of (g1_of b)) (fun x => bytesToHex (g1_bytes x)) (map snd pts)) by apply read_g1.
    cbn [res_bind]. rewrite Hs, Hk. cbn [res_bind]. unfold verifyAggregatedBLSSignature. rewrite verify_points, (Hv Hsum).
    destruct pts as [|x [|y pts]]; try discriminate Es. now repeat split.
Qed.

(** ** The approval of several guardians *)

Variables (requestId vaultId documentId chainId : Z) (beneficiary : string) (m : list Z).
Hypothesis Hm : encodeApprovalMessage requestId vaultId documentId beneficiary chainId = Ok m.

Definition normal (s : BLSSignatureShare) : Prop := checksum (s_guardian s) = Ok (s_guardian s).

Lemma unique_all (l : list BLSSignatureShare) : forall seen, Forall normal l -> NoDup (map s_guardian l) ->
  (forall s, s ∈ l -> s_guardian s ∉ seen) -> unique_shares l seen = Ok l.
Proof.
  induction l as [|s l IH]; intros seen Hl Hn Hs; [reflexivity|]. cbn [unique_shares]. inversion Hl as [|? ? H1 H2]; subst. cbn [map] in Hn.
  apply NoDup_cons in Hn as [Hn1 Hn2]. rewrite H1. cbn [res_bind]. rewrite bool_decide_false by (apply Hs; now left).
  rewrite IH; [reflexivity|exact H2|exact Hn2|]. intros s' Hs'. rewrite not_elem_of_cons. split; [|apply Hs; now right].
  intros Heq. apply Hn1. rewrite <- Heq. apply list_elem_of_In, in_map, list_elem_of_In, Hs'.
Qed.

Lemma unique_repeat (s : BLSSignatureShare) (n : nat) : normal s -> unique_shares (repeat s (S n)) [] = Ok [s].
Proof.
  intros Hs. cbn [repeat unique_shares]. rewrite Hs. cbn [res_bind]. rewrite bool_decide_false by apply not_elem_of_nil.
  assert (E1 : unique_shares (repeat s n) [s_guardian s] = Ok []).
  { induction n as [|n IH]; [reflexivity|]. cbn [repeat unique_shares]. rewrite Hs. cbn [res_bind].
    rewrite bool_decide_true by (apply list_elem_of_singleton; reflexivity). exact IH. }
  now rewrite E1.
Qed.

Lemma normal_addresses (l : list BLSSignatureShare) : Forall normal l -> res_mapM (fun s => checksum (s_guardian s)) l = Ok (map s_guardian l).
Proof. induction 1 as [|s l Hs _ IH]; [reflexivity|]. cbn. rewrite Hs. cbn. now rewrite IH. Qed.

(** What the aggregation returns when the distinct shares are good. *)
Lemma aggregated (shares unique : list BLSSignatureShare) (threshold : Z) : 1 <= threshold <= Z.of_nat (length shares) ->
  unique_shares shares [] = Ok unique -> unique <> [] -> Forall (good_share m) unique -> Forall normal unique ->
  sums_to_point (firstn (Z.to_nat threshold) unique) ->
  exists payload, aggregateGuardianApprovalShares shares requestId vaultId documentId beneficiary threshold chainId = Ok payload
    /\ guardianAddresses payload = firstn (Z.to_nat threshold) (map s_guardian unique)
    /\ verifyAggregatedBLSSignature (aggregatedSignature payload) (B_bytes m) (aggregatedPublicKey payload) = true
    /\ encodeApprovalMessage (a_requestId payload) (a_vaultId payload) (a_documentId payload) (a_beneficiary payload) chainId = Ok m.
Proof.
  intros Ht Hu Hne Hg Hnorm Hsum. unfold aggregateGuardianApprovalShares. destruct (Z.ltb_spec (Z.of_nat (length shares)) threshold); [lia|].
  rewrite Hu. cbn [res_bind]. unfold slice_first. destruct (Z.ltb_spec threshold 0); [lia|]. set (selected := firstn (Z.to_nat threshold) unique) in *.
  rewrite Hm. cbn [res_bind]. unfold hashApprovalMessage. rewrite Hm. cbn [res_bind].
  assert (Hg' : Forall (good_share m) selected) by now apply Forall_take. assert (Hn' : Forall normal selected) by now apply Forall_take.
  rewrite no_invalid_share by exact Hg'. rewrite normal_addresses by exact Hn'. cbn [res_bind].
  destruct (aggregate_verifies m selected) as (sg & pk & Es & Ek & Hv); [|exact Hg'|exact Hsum|].
  { unfold selected. destruct unique; [contradiction|]. destruct (Z.to_nat threshold) eqn:En; [lia|]. discriminate. }
  rewrite Es. cbn [res_bind]. rewrite Ek. cbn [res_bind]. rewrite Hv. cbn [negb].
  revert Hm. unfold encodeApprovalMessage. destruct (checksum beneficiary) as [b|] eqn:Eb; [|discriminate]. cbn [res_bind]. intros Hm'.
  eexists. split; [reflexivity|]. cbn. split; [unfold selected; now rewrite firstn_map|]. split; [exact Hv|].
  rewrite (checksum_idem _ _ Eb). exact Hm'.
Qed.
End Approvals.

(** ** The keyring *)

Section Keyring.
Context {C : Curve} {CL : CurveLaws C} {E : Ethers} {EL : EthersLaws E} {W : WebCrypto} {WL : WebCryptoLaws W} {K : Kdf}.
Variable noble_pbkdf2 : list Z -> list Z -> Z -> Z -> list Z.

(** Every key matches, and the records are filed under their guardians. *)
Definition filed_keys (m : gmap string BLSKeyPair) : Prop := forall a k, m !! a = Some k -> good_key k /\ guardianAddress k = a.
Record keyring_ok (w : BlsWorld) : Prop := {
  active_good : forall k, activeKey w = Some k -> good_key k;
  db_good : filed_keys (bls_db w);
  memory_good : filed_keys (memoryFallback w)
}.

(** Keyrings the operations reach, with a database that may come and go. *)
Inductive keyring_reachable : BlsWorld -> Prop :=
| KR_start mode : keyring_reachable (mkBlsWorld None mode ∅ ∅)
| KR_mode w mode : keyring_reachable w -> keyring_reachable (mkBlsWorld (activeKey w) mode (bls_db w) (memoryFallback w))
| KR_reload w : keyring_reachable w -> keyring_reachable (mkBlsWorld None (bls_db_mode w) (bls_db w) ∅)
| KR_generate w a fresh t : keyring_reachable w -> keyring_reachable (generateKeyForGuardian a fresh t w).2
| KR_derive w a text i fresh t : keyring_reachable w -> keyring_reachable (deriveFromMnemonic noble_pbkdf2 a text i fresh t w).2
| KR_import w a key t : keyring_reachable w -> keyring_reachable (importPrivateKey a key t w).2
| KR_get w a : keyring_reachable w -> keyring_reachable (getKeyForGuardian a w).2
| KR_link w a v : keyring_reachable w -> keyring_reachable (linkVaultToKey a v w).2
| KR_sign w a r v d b e f c t : keyring_reachable w -> keyring_reachable (signAccessApproval a r v d b e f c t w).2
| KR_export w a p s i : keyring_reachable w -> keyring_reachable (exportEncryptedBackup a p s i w).2
| KR_restore w b p t : keyring_reachable w -> keyring_reachable (importEncryptedBackup b p t w).2.

Lemma filed_insert (m : gmap string BLSKeyPair) (a : string) (k : BLSKeyPair) :
  filed_keys m -> good_key k -> guardianAddress k = a -> filed_keys (<[a := k]> m).
Proof.
  intros Hm Hk Ha b x. destruct (decide (b = a)) as [->|Hb]; [rewrite lookup_insert_eq; intros [= <-]; now split|].
  rewrite lookup_insert_ne by congruence. apply Hm.
Qed.

(** A key of another guardian's name and vaults. *)
Lemma renamed_good (k : BLSKeyPair) (a : string) (l : list Z) : good_key k -> checksum a = Ok a ->
  good_key (mkKey (privateKey k) (publicKey k) (proofOfPossession k) (createdAt k) a l).
Proof. intros (sk & pk & H1 & H2 & H3 & H4 & H5 & _) Ha. exists sk, pk. now repeat split. Qed.

Lemma save_ok (a : string) (k : BLSKeyPair) (w : BlsWorld) : keyring_ok w -> good_key k -> checksum a = Ok a -> keyring_ok (saveKey a k w).2.
Proof.
  intros [Ha Hd Hm] Hk Hc. unfold saveKey. cbn [snd]. pose proof (renamed_good k a (vaultIds k) Hk Hc) as Hk'.
  destruct (bls_db_mode w); split; cbn; try assumption; now apply filed_insert.
Qed.

Lemma set_active_ok (k : BLSKeyPair) (w : BlsWorld) : keyring_ok w -> good_key k -> keyring_ok (set_active k w).2.
Proof. intros [Ha Hd Hm] Hk. split; cbn; try assumption. now intros x [= <-]. Qed.

Lemma adopt_ok (a : string) (k : BLSKeyPair) (w : BlsWorld) : keyring_ok w -> checksum a = Ok a ->
  good_key (mkKey (privateKey k) (publicKey k) (proofOfPossession k) (createdAt k) a []) -> keyring_ok (adopt a k w).2.
Proof.
  intros Hw Hc Hk. set (k' := mkKey _ _ _ _ _ _) in Hk. change (adopt a k w).2 with (set_active k' (saveKey a k' w).2).2.
  apply set_active_ok; [now apply save_ok|exact Hk].
Qed.

(** Looking a key up gives a matching key of the guardian. *)
Lemma get_ok (a : string) (w : BlsWorld) : keyring_ok w ->
  keyring_ok (getKeyForGuardian a w).2
  /\ forall k, fst (getKeyForGuardian a w) = Ok (Some k) -> good_key k /\ checksum a = Ok (guardianAddress k).
Proof.
  intros Hw. unfold getKeyForGuardian, bind, lift_res. destruct (checksum a) as [b|e] eqn:Ea; [|split; [exact Hw|discriminate]].
  set (stored := match bls_db_mode w with Bls_no_db => _ | Bls_db => _ | Bls_failing => _ end).
  assert (Hst : keyring_ok stored.2 /\ forall k, fst stored = Ok (Some k) -> good_key k /\ Ok b = Ok (guardianAddress k)).
  { unfold stored. destruct Hw as [Ha Hd Hm], (bls_db_mode w).
    - split; [now split|discriminate].
    - destruct (bls_db w !! b) as [k|] eqn:Ek; [|split; [now split|discriminate]]. destruct (Hd b k Ek) as [Hk Hb].
      split; [split; cbn; try assumption; now intros x [= <-]|]. intros x [= <-]. split; [exact Hk|now rewrite Hb].
    - split; [now split|]. cbn. intros k [= Ek]. destruct (Hm b k Ek) as [Hk Hb]. split; [exact Hk|now rewrite Hb]. }
  destruct (activeKey w) as [k|] eqn:Ek; [|exact Hst]. destruct (String.eqb_spec (guardianAddress k) b) as [Hb|]; [|exact Hst].
  split; [exact Hw|]. intros x [= <-]. split; [now apply (active_good w Hw)|now rewrite Hb].
Qed.

Lemma generated_good (seed : option (list Z)) (fresh : list Z) (t : Z) (k : BLSKeyPair) (a : string) : checksum a = Ok a ->
  generateBLSKeyPair seed fresh t = Ok k -> good_key (mkKey (privateKey k) (publicKey k) (proofOfPossession k) (createdAt k) a []).
Proof.
  intros Ha. unfold generateBLSKeyPair. set (raw := match seed with Some _ => _ | None => _ end).
  destruct (keygen_key raw) as [Hb Hk]. destruct (keygen raw) as [sk pk]. cbn in Hb, Hk.
  destruct (createProofOfPossession _ _) as [pop|] eqn:Ep; [|discriminate]. cbn. intros [= <-]. exists sk, pk. cbn [privateKey publicKey proofOfPossession guardianAddress].
  split; [now apply hex_back|]. split; [exact Hk|]. split; [reflexivity|]. split; [exact Ep|]. now split.
Qed.

Lemma import_ok (a key : string) (t : Z) (w : BlsWorld) : keyring_ok w -> keyring_ok (importPrivateKey a key t w).2.
Proof.
  intros Hw. unfold importPrivateKey, bind, lift_res. destruct (checksum a) as [b|] eqn:Ea; [|exact Hw]. cbv zeta.
  set (clean := if startsWith "0x" key then key else ("0x" ++ key)%string).
  destruct (getBLSPublicKey clean) as [pub|] eqn:Ep; [|exact Hw]. destruct (createProofOfPossession clean pub) as [pop|] eqn:Eq; [|exact Hw].
  pose proof (checksum_idem a b Ea) as Hb. apply adopt_ok; [exact Hw|exact Hb|]. revert Ep. unfold getBLSPublicKey.
  destruct (bls_hexToBytes clean) as [sk|] eqn:Es; [|discriminate]. cbn. destruct (public_of sk) as [pk|] eqn:Epk; [|discriminate].
  cbn. intros [= <-]. exists sk, pk. cbn. repeat split; try assumption. unfold clean. destruct (startsWith "0x" key) eqn:Ex; [exact Ex|].
  cbn. now destruct key.
Qed.

Lemma link_ok (a : string) (v : Z) (w : BlsWorld) : keyring_ok w -> keyring_ok (linkVaultToKey a v w).2.
Proof.
  intros Hw. unfold linkVaultToKey, bind at 1, lift_res. destruct (checksum a) as [b|] eqn:Ea; [|exact Hw]. unfold bind at 1.
  destruct (get_ok b w Hw) as [Hw1 Hk]. destruct (getKeyForGuardian b w) as [[[k|]|e] w1]; cbn [fst snd] in Hw1, Hk; try exact Hw1.
  destruct (Hk k eq_refl) as [Hgood Hb]. pose proof (checksum_idem a b Ea) as Hbb.
  destruct (existsb (Z.eqb v) (vaultIds k)); [exact Hw1|]. unfold bind.
  set (k' := mkKey _ _ _ _ _ _). assert (Hk' : good_key k').
  { unfold k'. apply renamed_good; [exact Hgood|]. destruct Hgood as (? & ? & _ & _ & _ & _ & _ & H). exact H. }
  apply save_ok; [|exact Hk'|exact Hbb]. destruct (activeKey w1) as [x|] eqn:Ex; [|exact Hw1].
  destruct (String.eqb (guardianAddress x) b); [|exact Hw1]. destruct Hw1 as [H1 H2 H3]. split; cbn; try assumption. now intros y [= <-].
Qed.

Lemma sign_state (a b : string) (r v d c t : Z) (e f : option string) (w : BlsWorld) : keyring_ok w ->
  keyring_ok (signAccessApproval a r v d b e f c t w).2.
Proof.
  intros Hw. unfold signAccessApproval, bind at 1, lift_res. destruct (checksum a) as [x|] eqn:Ea; [|exact Hw]. unfold bind at 1.
  destruct (get_ok x w Hw) as [Hw1 _]. destruct (getKeyForGuardian x w) as [[[k|]|?] w1]; cbn [snd] in Hw1; try exact Hw1.
  unfold bind, lift_res. destruct (encodeApprovalMessage r v d b c); [|exact Hw1]. destruct (signBLS _ _); [|exact Hw1]. now destruct (checksum b).
Qed.

Lemma export_state (a p : string) (s i : list Z) (w : BlsWorld) : keyring_ok w -> keyring_ok (exportEncryptedBackup a p s i w).2.
Proof.
  intros Hw. unfold exportEncryptedBackup, bind at 1, lift_res. destruct (checksum a) as [x|] eqn:Ea; [|exact Hw]. unfold bind at 1.
  destruct (get_ok x w Hw) as [Hw1 _]. destruct (getKeyForGuardian x w) as [[[k|]|?] w1]; cbn [snd] in Hw1; try exact Hw1.
  unfold bind, lift_res. now destruct (pbkdf2 _ _ _).
Qed.

Lemma restore_state (b : BLSKeyBackup) (p : string) (t : Z) (w : BlsWorld) : keyring_ok w -> keyring_ok (importEncryptedBackup b p t w).2.
Proof.
  intros Hw. unfold importEncryptedBackup, bind, lift_res. destruct (unhex (b_salt b)); [|exact Hw]. destruct (unhex (b_iv b)); [|exact Hw].
  destruct (unhex (encryptedPrivateKey b)); [|exact Hw]. destruct (pbkdf2 _ _ _); [|exact Hw]. destruct (aes_gcm_decrypt _ _ _ _); [|exact Hw].
  now apply import_ok.
Qed.

(** In every keyring that is reached, with a database that comes and goes, each key is
    filed under its guardian, its public key and its proof of possession are those of its
    private key, and the proof verifies. *)
Theorem keyring_keys_match (w : BlsWorld) : keyring_reachable w ->
  keyring_ok w /\ forall a k, bls_db w !! a = Some k \/ memoryFallback w !! a = Some k ->
    guardianAddress k = a /\ getBLSPublicKey (privateKey k) = Ok (publicKey k) /\ verifyProofOfPossession (publicKey k) (proofOfPossession k) = true.
Proof.
  intros Hr. assert (Hw : keyring_ok w).
  { induction Hr; try (destruct IHHr as [H1 H2 H3]; split; cbn; assumption); try (now apply import_ok || now apply link_ok || now apply sign_state).
    - split; cbn; [discriminate| |]; intros a k H; rewrite lookup_empty in H; discriminate H.
    - destruct IHHr as [H1 H2 H3]. split; cbn; [discriminate|exact H2|]. intros a k H. rewrite lookup_empty in H. discriminate H.
    - unfold generateKeyForGuardian, bind, lift_res. destruct (checksum a) as [b|] eqn:Ea; [|exact IHHr].
      pose proof (checksum_idem a b Ea) as Hb. destruct (generateBLSKeyPair None fresh t) as [k|] eqn:Ek; [|exact IHHr].
      apply adopt_ok; [exact IHHr|exact Hb|exact (generated_good None fresh t k b Hb Ek)].
    - unfold deriveFromMnemonic, bind, lift_res. destruct (checksum a) as [b|] eqn:Ea; [|exact IHHr].
      pose proof (checksum_idem a b Ea) as Hb. unfold deriveBLSKeyFromMnemonic. destruct (generateBLSKeyPair _ fresh t) as [k|] eqn:Ek; [|exact IHHr].
      apply adopt_ok; [exact IHHr|exact Hb|exact (generated_good _ fresh t k b Hb Ek)].
    - now apply get_ok.
    - now apply export_state.
    - now apply restore_state. }
  split; [exact Hw|]. intros a k Hk. assert (Hg : good_key k /\ guardianAddress k = a) by (destruct Hk; [now apply (db_good w Hw)|now apply (memory_good w Hw)]).
  destruct Hg as [Hg Ha]. split; [exact Ha|]. split; [|now apply good_key_proof].
  destruct Hg as (sk & pk & H1 & H2 & H3 & _). unfold getBLSPublicKey. rewrite H1. cbn. rewrite H2. cbn. now rewrite H3.
Qed.

(** ** Approvals *)

Variables (requestId vaultId documentId chainId : Z) (beneficiary : string) (m : list Z).
Hypothesis Hm : encodeApprovalMessage requestId vaultId documentId beneficiary chainId = Ok m.

Definition signed_here (s : BLSSignatureShare) : Prop :=
  exists w a e f t, keyring_reachable w /\ fst (signAccessApproval a requestId vaultId documentId beneficiary e f chainId t w) = Ok s.

(** A share the keyring signs is good, and its guardian's address is normal. *)
Lemma signed_share (s : BLSSignatureShare) : signed_here s -> good_share m s /\ normal s.
Proof.
  intros (w & a & e & f & t & Hr & Hs). apply keyring_keys_match in Hr as [Hw _]. revert Hs. unfold signAccessApproval, bind at 1, lift_res.
  destruct (checksum a) as [b|] eqn:Ea; [|discriminate]. unfold bind at 1. pose proof (checksum_idem a b Ea) as Hb.
  destruct (get_ok b w Hw) as [_ Hk]. destruct (getKeyForGuardian b w) as [[[k|]|x] w1]; cbn [fst] in Hk; try discriminate.
  destruct (Hk k eq_refl) as [(sk & pk & H1 & H2 & H3 & _) _]. unfold bind, lift_res. rewrite Hm. unfold signBLS. rewrite H1. cbn [res_bind message_bytes].
  destruct (sign_verifies (hash_to_g2 m BLS_APPROVAL_DST) sk pk H2) as (sg & Hsg & _). rewrite Hsg. cbn [res_bind].
  destruct (checksum beneficiary); [|discriminate]. cbn. intros [= <-]. split; [|exact Hb]. now exists sk, pk, sg.
Qed.

(** C15: The shares that distinct guardians sign with their keyrings are aggregated into an
    approval by the first [threshold] of them, and that approval verifies. *)
Theorem honest_approval_verifies (shares : list BLSSignatureShare) (threshold : Z) :
  Forall signed_here shares -> NoDup (map s_guardian shares) -> 1 <= threshold <= Z.of_nat (length shares) ->
  sums_to_point (firstn (Z.to_nat threshold) shares) ->
  exists payload, aggregateGuardianApprovalShares shares requestId vaultId documentId beneficiary threshold chainId = Ok payload
    /\ guardianAddresses payload = firstn (Z.to_nat threshold) (map s_guardian shares)
    /\ verifyAggregatedApproval payload threshold chainId = Ok (mkVerification true true threshold threshold None).
Proof.
  intros Hs Hn Ht Hsum. assert (Hg : Forall (good_share m) shares /\ Forall normal shares).
  { split; eapply Forall_impl; try exact Hs; intros s H; now apply signed_share in H. }
  destruct Hg as [Hg Hnorm]. destruct (aggregated requestId vaultId documentId chainId beneficiary m Hm shares shares threshold Ht) as (p & Ep & Ea & Hv & He);
    try assumption.
  - apply unique_all; [exact Hnorm|exact Hn|]. intros s _. apply not_elem_of_nil.
  - intros ->. cbn in Ht. lia.
  - exists p. split; [exact Ep|]. split; [exact Ea|]. unfold verifyAggregatedApproval. rewrite Ea, length_firstn, length_map.
    replace (Z.of_nat (Nat.min (Z.to_nat threshold) (length shares))) with threshold by lia. rewrite Z.leb_refl. cbn [negb].
    rewrite He. cbn [res_bind]. now rewrite Hv.
Qed.

(** The number of shares is compared with the threshold before repeated guardians are left
    out: one share, repeated, is an approval of that guardian alone. *)
Theorem repeated_share_approves (s : BLSSignatureShare) (threshold : Z) : signed_here s -> 1 <= threshold ->
  sums_to_point [s] ->
  exists payload, aggregateGuardianApprovalShares (repeat s (Z.to_nat threshold)) requestId vaultId documentId beneficiary threshold chainId = Ok payload
    /\ guardianAddresses payload = [s_guardian s]
    /\ verifyAggregatedBLSSignature (aggregatedSignature payload) (B_bytes m) (aggregatedPublicKey payload) = true.
Proof.
  intros Hs Ht Hsum. apply signed_share in Hs as [Hg Hn]. destruct (Z.to_nat threshold) as [|n] eqn:En; [lia|].
  destruct (aggregated requestId vaultId documentId chainId beneficiary m Hm (repeat s (S n)) [s] threshold) as (p & Ep & Ea & Hv & _).
  - rewrite repeat_length. lia.
  - now apply unique_repeat.
  - discriminate.
  - now constructor.
  - now constructor.
  - rewrite En. cbn. now rewrite firstn_nil.
  - exists p. split; [exact Ep|]. split; [|exact Hv]. rewrite Ea, En. cbn. now rewrite firstn_nil.
Qed.

(** The verification binds neither the guardians to the keys nor the keys to the sum:
    whoever has one key pair makes an approval in the name of any guardians. *)
Theorem forged_guardians_verify (sk : list Z) (pk : G1) (guardians : list string) (threshold : Z) :
  public_of sk = Ok pk -> threshold <= Z.of_nat (length guardians) ->
  exists sg, sign_point (hash_to_g2 m BLS_APPROVAL_DST) sk = Ok sg
    /\ verifyAggregatedApproval (mkApprovalPayload requestId vaultId documentId beneficiary guardians [] [] (bytesToHex (g1_bytes pk))
          (bytesToHex (g2_bytes sg)) [] "") threshold chainId
       = Ok (mkVerification true true threshold (Z.of_nat (length guardians)) None).
Proof.
  intros Hp Ht. destruct (sign_verifies (hash_to_g2 m BLS_APPROVAL_DST) sk pk Hp) as (sg & Hs & Hv). exists sg. split; [exact Hs|].
  unfold verifyAggregatedApproval. cbn [guardianAddresses]. destruct (Z.leb_spec threshold (Z.of_nat (length guardians))); [|lia]. cbn [negb].
  cbn [a_requestId a_vaultId a_documentId a_beneficiary]. rewrite Hm. cbn [res_bind aggregatedSignature aggregatedPublicKey].
  unfold verifyAggregatedBLSSignature. now rewrite verify_points, Hv.
Qed.

(** ** Storage *)

(** Without a database the key of a guardian is written to memory and never read there: it
    is gone as soon as another guardian's key is active. *)
Theorem key_without_database_lost (a b x y : string) (fresh fresh' : list Z) (t t' : Z) (w : BlsWorld) (k : BLSKeyPair) :
  bls_db_mode w = Bls_no_db -> checksum a = Ok x -> checksum b = Ok y -> x <> y ->
  fst (generateKeyForGuardian a fresh t w) = Ok k ->
  is_ok (fst (generateKeyForGuardian b fresh' t' (generateKeyForGuardian a fresh t w).2)) = true ->
  let w2 := (generateKeyForGuardian b fresh' t' (generateKeyForGuardian a fresh t w).2).2 in
  is_Some (memoryFallback w2 !! x) /\ fst (getKeyForGuardian a w2) = Ok None.
Proof.
  intros Hmode Ha Hb Hxy H1 H2. cbv zeta. revert H1 H2. unfold generateKeyForGuardian, bind, lift_res. rewrite Ha.
  destruct (generateBLSKeyPair None fresh t) as [k1|]; [|discriminate]. rewrite Hb.
  destruct (generateBLSKeyPair None fresh' t') as [k2|]; [|discriminate]. intros _ _. unfold adopt, bind, saveKey, set_active, ret. cbn.
  rewrite Hmode. cbn. rewrite lookup_insert_ne, lookup_insert_eq by congruence. split; [now eexists|].
  unfold getKeyForGuardian, bind, lift_res. rewrite Ha. cbn. destruct (String.eqb_spec y x); [congruence|reflexivity].
Qed.

(** A backup opens with its password to the key that was exported; the vaults the key was
    linked to are lost with the import. *)
Theorem bls_backup_roundtrip (a x password : string) (salt iv key : list Z) (t : Z) (w w1 w2 : BlsWorld) (k : BLSKeyPair) (backup : BLSKeyBackup) :
  keyring_reachable w -> bytes salt -> bytes iv -> checksum a = Ok x -> pbkdf2 (text_encode password) salt BACKUP_ITERATIONS = Ok key ->
  getKeyForGuardian x w = (Ok (Some k), w1) -> exportEncryptedBackup a password salt iv w = (Ok backup, w1) ->
  exists k', importEncryptedBackup backup password t w2 = (Ok k', (adopt x k' w2).2)
    /\ privateKey k' = privateKey k /\ publicKey k' = publicKey k /\ proofOfPossession k' = proofOfPossession k
    /\ guardianAddress k' = x /\ vaultIds k' = [].
Proof.
  intros Hr Hsalt Hiv Ha Hkey Hget. unfold exportEncryptedBackup, bind at 1, lift_res. rewrite Ha. unfold bind at 1. rewrite Hget.
  unfold bind, lift_res. rewrite Hkey. unfold ret. intros [= <-]. apply keyring_keys_match in Hr as [Hw _].
  destruct (get_ok x w Hw) as [_ Hk]. rewrite Hget in Hk. destruct (Hk k eq_refl) as [(sk & pk & H1 & H2 & H3 & H4 & H5 & _) _].
  unfold importEncryptedBackup, bind, lift_res. cbn [b_salt b_iv encryptedPrivateKey b_guardian]. rewrite !unhex_hexlify by (try assumption; apply encrypt_text_bytes).
  rewrite Hkey, decrypt_encrypt, decode_encode. pose proof (checksum_idem a x Ha) as Hx.
  unfold importPrivateKey, bind, lift_res. rewrite Hx, H5. unfold getBLSPublicKey. rewrite H1. cbn [res_bind]. rewrite H2. cbn [res_bind].
  rewrite <- H3, H4. eexists. split; [reflexivity|]. now repeat split.
Qed.
End Keyring.

(** ** Witnesses *)

Module DemoBls.

(** Scalars and points are pairs of bits, with products and exclusive sums bit by bit; a
    key is a pair that is not zero, and a message is hashed to (1, 1). *)
Definition Bits : Type := (bool * bool)%type.
Definition bit (b : bool) : Z := if b then 1 else 0.
Definition bits_bytes (p : Bits) : list Z := [bit p.1; bit p.2].
Definition bits_of (l : list Z) : option Bits := match l with [a; b] => Some (a =? 1, b =? 1) | _ => None end.
Definition sum (l : list Bits) : Bits := fold_right (fun a b => (xorb a.1 b.1, xorb a.2 b.2)) (false, false) l.
Definition times (a b : Bits) : Bits := (a.1 && b.1, a.2 && b.2).
Definition same_bits (a b : Bits) : bool := Bool.eqb a.1 b.1 && Bool.eqb a.2 b.2.
Definition scalar (k : list Z) : res Bits :=
  match bits_of k with Some (false, false) | None => Throw "invalid scalar"%string | Some p => Ok p end.

#[export] Instance toy : Curve := {
  G1 := Bits; G2 := Bits; g1_of := bits_of; g1_bytes := bits_bytes; g2_of := bits_of; g2_bytes := bits_bytes;
  hash_to_g2 := fun _ _ => (true, true);
  keygen := fun seed => if Z.even (hd 0 seed) then ([1; 0], (true, false)) else ([0; 1], (false, true));
  public_of := scalar; sign_point := fun h k => let! x := scalar k in Ok (times h x);
  verify_point := fun s h p => Ok (same_bits s (times h p));
  add_signatures := fun l => match l with [] => Throw "empty"%string | _ => Ok (sum l) end;
  add_keys := fun l => match l with [] => Throw "empty"%string | _ => Ok (sum l) end;
  identity := fun p => p = (false, false)
}.

Lemma same_bits_refl (a : Bits) : same_bits a a = true.
Proof. now destruct a as [[] []]. Qed.

Lemma sum_times (h : Bits) (l : list (Bits * Bits)) :
  Forall (fun '(s, p) => exists k, scalar k = Ok p /\ (let! x := scalar k in Ok (times h x)) = Ok s) l -> sum (map fst l) = times h (sum (map snd l)).
Proof.
  induction 1 as [|[s p] l (k & Hk & Hs) _ IH]; [now destruct h as [[] []]|]. rewrite Hk in Hs. cbn in Hs. injection Hs as <-.
  cbn [map fst snd sum fold_right]. fold (sum (map fst l)) (sum (map snd l)). rewrite IH.
  destruct h as [[] []], p as [[] []], (sum (map snd l)) as [[] []]; reflexivity.
Qed.

#[export] Instance toy_laws : CurveLaws toy.
Proof.
  assert (Hback : forall p : Bits, bytes (bits_bytes p) /\ bits_of (bits_bytes p) = Some p).
  { intros [[] []]; (split; [repeat constructor; unfold is_byte; cbn; lia|reflexivity]). }
  split; try exact Hback.
  - intros seed. cbn. destruct (Z.even (hd 0 seed)); (split; [repeat constructor; unfold is_byte; lia|reflexivity]).
  - intros h k p Hk. exists (times h p). cbn in *. rewrite Hk. cbn. split; [reflexivity|]. now rewrite same_bits_refl.
  - intros h l Hne Hl. exists (sum (map fst l)), (sum (map snd l)). destruct l as [|x l]; [contradiction|].
    split; [reflexivity|]. split; [reflexivity|]. intros _. refine (f_equal Ok _).
    exact (eq_trans (f_equal (fun a => same_bits a (times h (sum (map snd (x :: l))))) (sum_times h (x :: l) Hl)) (same_bits_refl _)).
Qed.

#[export] Instance plain_ethers : Ethers := {
  checksum := fun a => if blank a then Throw "invalid address"%string else Ok a;
  solidityPacked := fun _ _ _ _ _ _ => Ok (bytesToHex [1; 2]); keccak := bytesToHex; hexlify := bytesToHex; unhex := bls_hexToBytes
}.
#[export] Instance plain_ethers_laws : EthersLaws plain_ethers.
Proof. split; [|exact hex_back]. intros a b. cbn. destruct (blank a) eqn:Ea; [discriminate|]. intros [= <-]. now rewrite Ea. Qed.

#[export] Instance plain_kdf : Kdf := { pbkdf2 := fun p s n => Ok (p ++ s); argon2id := fun _ s _ _ _ _ => Ok s; idl_number := fun _ => 0 }.
Import Mirror.

Definition no_pbkdf2 : list Z -> list Z -> Z -> Z -> list Z := fun p _ _ _ => p.
Definition fresh_world (mode : BlsDbMode) : BlsWorld := mkBlsWorld None mode ∅ ∅.
Definition ada : BlsWorld := (generateKeyForGuardian "0xAda" [2] 0 (fresh_world Bls_db)).2.
Definition bob : BlsWorld := (generateKeyForGuardian "0xBob" [3] 0 (fresh_world Bls_db)).2.
Definition demo_share (w : BlsWorld) (a : string) : BLSSignatureShare :=
  match fst (signAccessApproval a 1 1 1 "0xBen" None None 31337 0 w) with Ok s => s | Throw _ => mkShare "" None "" "" 0 0 0 "" 0 None None end.
Definition shares : list BLSSignatureShare := [demo_share ada "0xAda"; demo_share bob "0xBob"].

Lemma shares_signed : Forall (signed_here no_pbkdf2 1 1 1 31337 "0xBen") shares.
Proof.
  constructor; [exists ada, "0xAda"%string, None, None, 0|constructor; [exists bob, "0xBob"%string, None, None, 0|constructor]];
    (split; [apply KR_generate, KR_start|vm_compute; reflexivity]).
Qed.

(** The keys of Ada and Bob are (1, 0) and (0, 1). *)
Lemma shares_sum (l : list BLSSignatureShare) : l = shares \/ l = firstn 1 shares -> sums_to_point l.
Proof.
  intros Hl pts p E Hp. assert (Hinj : forall a b : Bits, bytesToHex (bits_bytes a) = bytesToHex (bits_bytes b) -> a = b).
  { intros [[] []] [[] []] H; vm_compute in H; congruence. }
  assert (Ea : s_publicKey (demo_share ada "0xAda") = bytesToHex (bits_bytes (true, false))) by (vm_compute; reflexivity).
  assert (Eb : s_publicKey (demo_share bob "0xBob") = bytesToHex (bits_bytes (false, true))) by (vm_compute; reflexivity).
  destruct Hl as [-> | ->]; unfold shares in E; cbn [map firstn] in E; rewrite ?Ea, ?Eb in E.
  - destruct pts as [|a [|b [|]]]; try discriminate E. cbn [map] in E.
    assert (H1 := f_equal (hd ""%string) E). assert (H2 := f_equal (fun l => hd ""%string (tl l)) E). cbn [hd tl] in H1, H2.
    apply Hinj in H1, H2. subst. cbn in Hp. injection Hp as <-. discriminate.
  - destruct pts as [|a [|]]; try discriminate E. cbn [map] in E.
    assert (H1 := f_equal (hd ""%string) E). cbn [hd] in H1. apply Hinj in H1. subst. cbn in Hp. injection Hp as <-. discriminate.
Qed.

Lemma honest_approval_verifies_witness :
  exists payload, aggregateGuardianApprovalShares shares 1 1 1 "0xBen" 2 31337 = Ok payload
    /\ guardianAddresses payload = ["0xAda"%string; "0xBob"%string]
    /\ verifyAggregatedApproval payload 2 31337 = Ok (mkVerification true true 2 2 None).
Proof.
  apply (honest_approval_verifies no_pbkdf2 1 1 1 31337 "0xBen" [1; 2]).
  - reflexivity.
  - apply shares_signed.
  - cbn. repeat constructor; rewrite ?elem_of_cons, ?elem_of_nil; intuition discriminate.
  - cbn. lia.
  - now apply shares_sum; left.
Defined.

Lemma packed : encodeApprovalMessage 1 1 1 "0xBen" 31337 = Ok [1; 2].
Proof. reflexivity. Qed.

Lemma repeated_share_approves_witness :
  exists payload, aggregateGuardianApprovalShares (repeat (demo_share ada "0xAda") 2) 1 1 1 "0xBen" 2 31337 = Ok payload
    /\ guardianAddresses payload = ["0xAda"%string].
Proof.
  destruct (repeated_share_approves no_pbkdf2 1 1 1 31337 "0xBen" [1; 2] packed (demo_share ada "0xAda") 2) as (p & H1 & H2 & _).
  - pose proof shares_signed as H. now inversion H.
  - lia.
  - now apply shares_sum; right.
  - exists p. split; [exact H1|exact H2].
Defined.

Lemma forged_guardians_verify_witness :
  exists payload, guardianAddresses payload = ["0xAda"%string; "0xBob"%string]
    /\ verifyAggregatedApproval payload 2 31337 = Ok (mkVerification true true 2 2 None).
Proof.
  destruct (forged_guardians_verify (C := toy) 1 1 1 31337 "0xBen" [1; 2] packed [1; 1] (true, true) ["0xAda"%string; "0xBob"%string] 2) as (sg & _ & H).
  - reflexivity.
  - cbn. lia.
  - eexists. split; [|exact H]. reflexivity.
Defined.

Lemma keyring_keys_match_witness : getBLSPublicKey (bytesToHex [1; 0]) = Ok (bytesToHex [1; 0]).
Proof.
  destruct (keyring_keys_match no_pbkdf2 ada (KR_generate _ _ _ _ _ (KR_start _ _))) as [_ H].
  destruct (H "0xAda"%string (mkKey (bytesToHex [1; 0]) (bytesToHex [1; 0]) (bytesToHex [1; 0]) 0 "0xAda" [])) as (_ & Hk & _).
  - left. vm_compute. reflexivity.
  - exact Hk.
Defined.

Lemma key_without_database_lost_witness :
  fst (getKeyForGuardian "0xAda" (generateKeyForGuardian "0xBob" [3] 0 (generateKeyForGuardian "0xAda" [2] 0 (fresh_world Bls_no_db)).2).2) = Ok None.
Proof.
  destruct (key_without_database_lost "0xAda" "0xBob" "0xAda" "0xBob" [2] [3] 0 0 (fresh_world Bls_no_db)
    (mkKey (bytesToHex [1; 0]) (bytesToHex [1; 0]) (bytesToHex [1; 0]) 0 "0xAda" [])) as [_ H]; try reflexivity; try discriminate; exact H.
Defined.

Lemma bls_backup_roundtrip_witness :
  exists k, fst (importEncryptedBackup (mkBackup "0xAda" (bytesToHex (aes_gcm_encrypt (text_encode "pw" ++ [1]) [2] [] (text_encode (bytesToHex [1; 0]))))
                                          (bytesToHex [1]) (bytesToHex [2]) (bytesToHex [1; 0]) (bytesToHex [1; 0]) 0) "pw" 9 (fresh_world Bls_db)) = Ok k
    /\ privateKey k = bytesToHex [1; 0] /\ vaultIds k = [].
Proof.
  destruct (bls_backup_roundtrip no_pbkdf2 "0xAda" "0xAda" "pw" [1] [2] (text_encode "pw" ++ [1]) 9 ada ada (fresh_world Bls_db)
    (mkKey (bytesToHex [1; 0]) (bytesToHex [1; 0]) (bytesToHex [1; 0]) 0 "0xAda" [])
    (mkBackup "0xAda" (bytesToHex (aes_gcm_encrypt (text_encode "pw" ++ [1]) [2] [] (text_encode (bytesToHex [1; 0]))))
       (bytesToHex [1]) (bytesToHex [2]) (bytesToHex [1; 0]) (bytesToHex [1; 0]) 0)) as (k & E & H1 & _ & _ & _ & H2).
  - apply KR_generate, KR_start.
  - repeat constructor; unfold is_byte; lia.
  - repeat constructor; unfold is_byte; lia.
  - reflexivity.
  - reflexivity.
  - reflexivity.
  - reflexivity.
  - exists k. split; [now rewrite E|]. split; [exact H1|exact H2].
Defined.

End DemoBls.
