(* ===== verification/Erasure.v ===== *)
(** * Erasure: the Reed-Solomon code of erasureCoding.service.ts

    [GFMatrix], the encoding matrix, [encode], [decode] and [verifyShards] of
    src/src/features/documents/services/erasureCoding.service.ts.  Shard counts
    and sizes are natural numbers; the cells of a [Uint8Array] are bytes. *)

From Stdlib Require Import String ZArith List Lia Bool Permutation Sorting.Sorted.
Import ListNotations.
From S2P Require Import Prelude JsString Algebra GF256.

Import ErasureGF.
Open Scope list_scope.
Open Scope Z_scope.

(** ** GFMatrix *)

(** A flat row-major matrix: entry (r, c) at index r * cols + c. *)
Record GFMatrix : Type := mkMatrix { rows : nat; cols : nat; mdata : list Z }.

Definition new_matrix (r c : nat) : GFMatrix := mkMatrix r c (new_u8 (r * c)).

Definition mget (m : GFMatrix) (r c : Z) : Z :=
  u8get (mdata m) (r * Z.of_nat (cols m) + c).

Definition mset (m : GFMatrix) (r c : Z) (v : Z) : GFMatrix :=
  mkMatrix (rows m) (cols m) (u8set (mdata m) (r * Z.of_nat (cols m) + c) v).

Notation "# n" := (Z.of_nat n) (at level 5, format "# n") : Z_scope.

(** [GFMatrix.multiply]. *)
Definition multiply (m other : GFMatrix) : res GFMatrix :=
  throw_if negb (cols m =? rows other)%nat with
    ("Matrix dimension mismatch: (" ++ num_str #(rows m) ++ "×" ++ num_str #(cols m) ++ ") × ("
     ++ num_str #(rows other) ++ "×" ++ num_str #(cols other) ++ ")")%string;;
  Ok (for_n (rows m) (fun r result =>
        for_n (cols other) (fun c result =>
          let sum := for_n (cols m) (fun k sum =>
                       gfAdd sum (gfMul (mget m #r #k) (mget other #k #c))) 0 in
          mset result #r #c sum) result)
      (new_matrix (rows m) (cols other))).

(** [GFMatrix.subsetRows]: the source rows are array indices of the caller. *)
Definition subsetRows (m : GFMatrix) (rowIndices : list Z) : GFMatrix :=
  for_n (length rowIndices) (fun dstRow acc =>
    let srcRow := nth dstRow rowIndices 0 in
    for_n (cols m) (fun c acc => mset acc #dstRow #c (mget m srcRow #c)) acc)
  (new_matrix (length rowIndices) (cols m)).

(** The body of the elimination loop of [GFMatrix.invert] for one column. *)
Definition swap_rows (n col pivotRow : nat) (aug : GFMatrix) : GFMatrix :=
  if negb (pivotRow =? col)%nat then
    for_n (n * 2) (fun c a =>
      let tmp := mget a #col #c in
      let a := mset a #col #c (mget a #pivotRow #c) in
      mset a #pivotRow #c tmp) aug
  else aug.

Definition scale_row (n col : nat) (aug : GFMatrix) : res GFMatrix :=
  let scale := mget aug #col #col in
  res_foldl (fun a c =>
    let! q := gfDiv (mget a #col #c) scale in Ok (mset a #col #c q))
    (seq 0 (n * 2)) aug.

Definition eliminate_rows (n col : nat) (aug : GFMatrix) : GFMatrix :=
  for_n n (fun r a =>
    if (r =? col)%nat then a
    else
      let factor := mget a #r #col in
      if factor =? 0 then a
      else for_n (n * 2) (fun c a =>
             mset a #r #c (gfAdd (mget a #r #c) (gfMul factor (mget a #col #c)))) a)
  aug.

Definition invert_col (n : nat) (aug : GFMatrix) (col : nat) : res GFMatrix :=
  match find (fun r => negb (mget aug #r #col =? 0)) (seq col (n - col)) with
  | None => Throw "Matrix is singular — cannot invert"
  | Some pivotRow =>
      let! aug := scale_row n col (swap_rows n col pivotRow aug) in
      Ok (eliminate_rows n col aug)
  end.

(** [GFMatrix.invert]. *)
Definition invert (m : GFMatrix) : res GFMatrix :=
  throw_if negb (rows m =? cols m)%nat with "invert requires a square matrix"%string;;
  let n := rows m in
  let aug := for_n n (fun r a => for_n n (fun c a =>
               mset (mset a #r #c (mget m #r #c)) #r #(c + n) (if (r =? c)%nat then 1 else 0)) a)
             (new_matrix n (n * 2)) in
  let! aug := res_foldl (invert_col n) (seq 0 n) aug in
  Ok (for_n n (fun r inv => for_n n (fun c inv => mset inv #r #c (mget aug #r #(c + n))) inv)
      (new_matrix n n)).

(** ** The encoding matrix *)

Definition buildCauchyMatrix (rows cols : nat) : res GFMatrix :=
  throw_if (GF_SIZE <? rows + cols)%nat with
    ("rows (" ++ num_str #rows ++ ") + cols (" ++ num_str #cols
     ++ ") exceeds GF(2^8) capacity (256)")%string;;
  res_foldl (fun m r => res_foldl (fun m c =>
      let! v := gfDiv 1 (gfAdd #c (#cols + #r)) in Ok (mset m #r #c v)) (seq 0 cols) m)
    (seq 0 rows) (new_matrix rows cols).

Definition buildEncodingMatrix (dataShards parityShards : nat) : res GFMatrix :=
  let enc := for_n dataShards (fun r m => mset m #r #r 1)
               (new_matrix (dataShards + parityShards) dataShards) in
  let! cauchy := buildCauchyMatrix parityShards dataShards in
  Ok (for_n parityShards (fun r m => for_n dataShards (fun c m =>
        mset m #(r + dataShards) #c (mget cauchy #r #c)) m) enc).

(** ** encode and decode *)

(** A shard; [cid] and [node] are set when a retrieved shard is built. *)
Record Shard : Type := mkShard {
  s_index : Z;
  s_isData : bool;
  s_data : list Z;
  s_cid : option string;
  s_node : option string
}.

(** [Math.ceil(a / b)] for [b >= 1]. *)
Definition ceil_div (a b : nat) : nat := (a + (b - 1)) / b.

(** [xs.slice(i, j)] for indices in range. *)
Definition arr_slice (i j : nat) (l : list Z) : list Z := firstn (j - i) (skipn i l).

Definition padAndSplit (data : list Z) (dataShards : nat) : list (list Z) :=
  let shardSize := ceil_div (length data) dataShards in
  let paddedLength := (shardSize * dataShards)%nat in
  let padded := data ++ new_u8 (paddedLength - length data) in
  map (fun i => arr_slice (i * shardSize) ((i + 1) * shardSize) padded) (seq 0 dataShards).

(** [xss[i][j]] and [xss[i][j] = v] of an array of byte arrays. *)
Definition cell (xss : list (list Z)) (i j : nat) : Z := u8get (nth i xss []) #j.

Definition set_cell (xss : list (list Z)) (i j : nat) (v : Z) : list (list Z) :=
  upd xss i (u8set (nth i xss []) #j v).

(** The parity byte of parity row [p] at [bytePos]. *)
Definition parity_byte (enc : GFMatrix) (raw : list (list Z)) (M p bytePos : nat) : Z :=
  for_n M (fun d val =>
    gfAdd val (gfMul (mget enc #(M + p) #d) (cell raw d bytePos))) 0.

Definition encode (data : list Z) (dataShards parityShards : nat) : res (list Shard) :=
  throw_if (dataShards <? 1)%nat with "dataShards must be ≥ 1"%string;;
  throw_if (parityShards <? 1)%nat with "parityShards must be ≥ 1"%string;;
  throw_if (GF_SIZE - 1 <? dataShards + parityShards)%nat with
    ("Total shards (" ++ num_str #(dataShards + parityShards) ++ ") exceeds GF(2^8) limit")%string;;
  let rawDataShards := padAndSplit data dataShards in
  let shardSize := length (nth 0 rawDataShards []) in
  let! encMatrix := buildEncodingMatrix dataShards parityShards in
  let outputData := rawDataShards ++ repeat (new_u8 shardSize) parityShards in
  let outputData :=
    for_n shardSize (fun bytePos out =>
      for_n parityShards (fun p out =>
        set_cell out (dataShards + p) bytePos
          (parity_byte encMatrix rawDataShards dataShards p bytePos)) out) outputData in
  Ok (map (fun i => mkShard #i (i <? dataShards)%nat (nth i outputData []) None None)
          (seq 0 (length outputData))).

(** One reconstructed byte: row [d] of the inverse times the selected shards. *)
Definition decoded_byte (inv : GFMatrix) (selected : list Shard) (M d bytePos : nat) : Z :=
  for_n M (fun s val =>
    gfAdd val (gfMul (mget inv #d #s) (u8get (nth s (map s_data selected) []) #bytePos))) 0.

Definition decode (availableShards : list Shard) (dataShards parityShards : nat)
    (originalSize : option nat) : res (list Z) :=
  throw_if (length availableShards <? dataShards)%nat with
    ("Not enough shards to reconstruct: have " ++ num_str #(length availableShards)
     ++ ", need " ++ num_str #dataShards)%string;;
  let selected := firstn dataShards (sort_by s_index availableShards) in
  match selected with
  | [] => Throw "TypeError: Cannot read properties of undefined (reading 'data')"
  | s0 :: _ =>
      let shardSize := length (s_data s0) in
      let! encMatrix := buildEncodingMatrix dataShards parityShards in
      let subMatrix := subsetRows encMatrix (map s_index selected) in
      let! invMatrix := invert subMatrix in
      let reconstructed := repeat (new_u8 shardSize) dataShards in
      let reconstructed :=
        for_n shardSize (fun bytePos out =>
          for_n dataShards (fun d out =>
            set_cell out d bytePos (decoded_byte invMatrix selected dataShards d bytePos)) out)
        reconstructed in
      let fullData := concat reconstructed in
      Ok (match originalSize with Some n => firstn n fullData | None => fullData end)
  end.

(** ** verifyShards *)

(** Step 1: the payload derived from the parity shards alone, when there are
    enough of them and they decode. *)
Definition canonical_from_parity (allSorted : list Shard) (dataShards parityShards shardSize : nat)
    : option (list (list Z)) :=
  let parityShardsAvailable := filter (fun s => negb (s_isData s)) allSorted in
  if (dataShards <=? length parityShardsAvailable)%nat then
    match decode (firstn dataShards parityShardsAvailable) dataShards parityShards
                 (Some (dataShards * shardSize)%nat) with
    | Ok reconstructed =>
        Some (map (fun i => arr_slice (i * shardSize) ((i + 1) * shardSize) reconstructed)
                  (seq 0 dataShards))
    | Throw _ => None
    end
  else None.

(** The inner comparison loop: some byte differs from the expected shard's, an
    expected byte past the end being [undefined]. *)
Definition differs (d expected : list Z) : bool :=
  existsb (fun i => match nth_error expected i with
                    | Some e => negb (nth i d 0 =? e)
                    | None => true
                    end) (seq 0 (length d)).

(** [buf.set(part, off)] on a byte array of the given length. *)
Definition u8set_all (buf part : list Z) (off : nat) : res (list Z) :=
  throw_if (length buf <? off + length part)%nat with "RangeError: offset is out of bounds"%string;;
  Ok (for_n (length part) (fun j buf => u8set buf #(off + j) (nth j part 0)) buf).

(** [parts.forEach((part, i) => buf.set(part, i * size))] on a new array. *)
Definition fill_blocks (parts : list (list Z)) (n size : nat) : res (list Z) :=
  res_foldl (fun buf i => u8set_all buf (nth i parts []) (i * size))
    (seq 0 (length parts)) (new_u8 (n * size)).

(** [xs[i]] of an array, [undefined] out of range. *)
Definition arr_at {A : Type} (l : list A) (i : Z) : option A :=
  if i <? 0 then None else nth_error l (Z.to_nat i).

(** One round of the final [forEach]: the corrupted indices so far. *)
Definition check_shard (reEncoded : list Shard) (corrupted : list Z) (shard : Shard)
    : res (list Z) :=
  match arr_at reEncoded (s_index shard) with
  | None =>
      if (length (s_data shard) =? 0)%nat then Ok corrupted
      else Throw "TypeError: Cannot read properties of undefined (reading 'data')"
  | Some expected =>
      Ok (if differs (s_data shard) (s_data expected)
          then corrupted ++ [s_index shard] else corrupted)
  end.

Definition verifyShards (shards : list Shard) (dataShards parityShards : nat) : res (list Z) :=
  let allSorted := sort_by s_index shards in
  match allSorted with
  | [] => Throw "TypeError: Cannot read properties of undefined (reading 'data')"
  | s0 :: _ =>
      let shardSize := length (s_data s0) in
      let! reEncodedInput :=
        match canonical_from_parity allSorted dataShards parityShards shardSize with
        | Some canonicalData => fill_blocks canonicalData dataShards shardSize
        | None =>
            let storedData := sort_by s_index (filter s_isData allSorted) in
            throw_if negb (length storedData =? dataShards)%nat with
              ("Expected " ++ num_str #dataShards ++ " data shards, got "
               ++ num_str #(length storedData))%string;;
            fill_blocks (map s_data storedData) dataShards shardSize
        end in
      let! reEncoded := encode reEncodedInput dataShards parityShards in
      res_foldl (check_shard reEncoded) allSorted []
  end.

(** ** Distribution over pinning nodes

    The network functions of a node are parameters of the model: an upload
    returns the CID or fails, a fetch returns the bytes or fails. *)
Record PinningNode : Type := mkNode {
  n_name : string;
  uploadFn : list Z -> string -> res string;
  fetchFn : string -> res (list Z)
}.

Record Pinned : Type := mkPinned {
  p_index : Z; p_isData : bool; p_cid : string; p_node : string
}.

Record ShardManifest : Type := mkManifest {
  totalShards : nat;
  m_dataShards : nat;
  m_parityShards : nat;
  originalSize : nat;
  m_shards : list Pinned
}.

Record DistributionResult : Type := mkResult {
  manifest : ShardManifest;
  failed : list (Z * string)
}.

Record ShardConfig : Type := mkConfig { dataShards : nat; parityShards : nat }.

Definition DEFAULT_SHARD_CONFIG : ShardConfig := mkConfig 4 2.

(** What the callback of [distributeShards] pushes for the shard at position
    [i]: on [inl] to [pinned], on [inr] to [failed]. *)
Definition pin_shard (nodes : list PinningNode) (i : nat) (shard : Shard)
    : Pinned + (Z * string) :=
  let shardName := ("shard-" ++ num_str (s_index shard) ++ "-"
                    ++ (if s_isData shard then "data" else "parity"))%string in
  match nth_error nodes (i mod length nodes) with
  | None => inr (s_index shard, "TypeError: undefined node")%string
  | Some node =>
      match uploadFn node (s_data shard) shardName with
      | Ok cid => inl (mkPinned (s_index shard) (s_isData shard) cid (n_name node))
      | Throw e => inr (s_index shard, e)
      end
  end.

(** The callbacks run one after the other up to their first [await]: those that
    see the signal aborted push at once, the others push when their upload
    settles, in the order [order] of completion (positions in [shards]). *)
Definition distributeShards (aborted : nat -> bool) (order : list nat) (shards : list Shard)
    (nodes : list PinningNode) (originalSize : nat) : res DistributionResult :=
  throw_if (length nodes =? 0)%nat with "No pinning nodes available"%string;;
  let dataShards := length (filter s_isData shards) in
  let parityShards := length (filter (fun s => negb (s_isData s)) shards) in
  let sync := flat_map (fun i =>
    match nth_error shards i with
    | Some shard => if aborted i then [inr (s_index shard, "Aborted"%string)] else []
    | None => []
    end) (seq 0 (length shards)) in
  let async := flat_map (fun i =>
    match nth_error shards i with
    | Some shard => if aborted i then [] else [pin_shard nodes i shard]
    | None => []
    end) order in
  let pushes : list (Pinned + (Z * string)) := sync ++ async in
  let pinned := flat_map (fun p => match p with inl x => [x] | inr _ => [] end) pushes in
  let failed := flat_map (fun p => match p with inl _ => [] | inr x => [x] end) pushes in
  Ok (mkResult (mkManifest (length shards) dataShards parityShards originalSize
                  (sort_by p_index pinned)) failed).

(** [new Map(nodes.map(n => [n.name, n])).get(name)]: the last one wins. *)
Definition nodeMap_get (nodes : list PinningNode) (name : string) : option PinningNode :=
  find (fun n => String.eqb (n_name n) name) (rev nodes).

Definition retrieve_entry (aborted : bool) (nodes : list PinningNode) (entry : Pinned)
    : res Shard :=
  throw_if aborted with "Aborted"%string;;
  match nodeMap_get nodes (p_node entry) with
  | None => Throw ("Unknown node: " ++ p_node entry)
  | Some node =>
      let! data := fetchFn node (p_cid entry) in
      Ok (mkShard (p_index entry) (p_isData entry) data (Some (p_cid entry)) (Some (p_node entry)))
  end.

(** The results of [Promise.allSettled] are in the order of the entries. *)
Definition retrieveShards (m : ShardManifest) (nodes : list PinningNode) (aborted : bool)
    : res (list Shard) :=
  let results := map (retrieve_entry aborted nodes) (m_shards m) in
  let '(retrieved, fetchFailures) :=
    fold_left (fun '(ok, bad) result =>
      match result with
      | Ok s => (ok ++ [s], bad)
      | Throw _ => (ok, S bad)
      end) results ([], 0%nat) in
  throw_if (length retrieved <? m_dataShards m)%nat with
    ("Too many fetch failures (" ++ num_str #fetchFailures ++ "): only "
     ++ num_str #(length retrieved) ++ "/" ++ num_str #(totalShards m)
     ++ " shards retrieved, need at least " ++ num_str #(m_dataShards m))%string;;
  Ok retrieved.

Definition encodeAndDistribute (aborted : nat -> bool) (order : list nat)
    (encryptedData : list Z) (config : ShardConfig) (nodes : list PinningNode)
    : res DistributionResult :=
  let! shards := encode encryptedData (dataShards config) (parityShards config) in
  distributeShards aborted order shards nodes (length encryptedData).

Definition reconstructFromManifest (m : ShardManifest) (nodes : list PinningNode)
    (aborted : bool) : res (list Z) :=
  let! shards := retrieveShards m nodes aborted in
  decode shards (m_dataShards m) (m_parityShards m) (Some (originalSize m)).

(** ** Sanity checks on a small code: 2 data shards and 2 parity shards *)

Definition demo_shards : list Shard :=
  match encode [10; 20; 30] 2 2 with Ok l => l | Throw _ => [] end.

Example encode_demo : map s_data demo_shards = [[10; 20]; [30; 0]; [15; 10]; [9; 12]].
Proof. vm_compute. reflexivity. Qed.

Example decode_demo :
  decode (skipn 2 (rev demo_shards)) 2 2 (Some 3%nat) = Ok [10; 20; 30]
  /\ verifyShards demo_shards 2 2 = Ok [].
Proof. vm_compute. split; reflexivity. Qed.
