(* ===== verification/ErasureMatrix.v ===== *)
(** * ErasureMatrix: GFMatrix refines matrices over the field of bytes

    [grepr R C m G]: the flat array of [m] stores the R x C matrix [G] over
    [gf].  Each loop of [GFMatrix] is shown to compute a matrix operation, and
    [invert] to carry out the elimination of Algebra.v. *)

From Stdlib Require Import ZArith String List Lia Bool.
Import ListNotations.
From S2P Require Import Prelude Algebra GF256 Erasure.

Import ErasureGF.
Open Scope list_scope.
Open Scope Z_scope.

(** ** Byte arrays *)

Lemma nth_default {A : Type} (l : list A) (i : nat) (d : A) :
  (length l <= i)%nat -> nth i l d = d.
Proof. apply nth_overflow. Qed.

Lemma u8get_nat (l : list Z) (i : nat) : u8get l #i = nth i l 0.
Proof.
  unfold u8get. rewrite (proj2 (Z.ltb_ge _ _)) by lia. now rewrite Nat2Z.id.
Qed.

Lemma u8set_nat (l : list Z) (i : nat) (v : Z) : u8set l #i v = upd l i (v mod 256).
Proof.
  unfold u8set. rewrite (proj2 (Z.ltb_ge _ _)) by lia. now rewrite Nat2Z.id.
Qed.

Lemma u8set_length (l : list Z) (i v : Z) : length (u8set l i v) = length l.
Proof. unfold u8set. destruct (i <? 0); [reflexivity|apply upd_length]. Qed.

Lemma bytes_u8set (l : list Z) (i v : Z) : bytes l -> bytes (u8set l i v).
Proof.
  intros H. unfold u8set. destruct (i <? 0); [assumption|].
  apply Forall_upd; [apply mod_is_byte|assumption].
Qed.

Lemma gfv_mod (a : gf) : gfv a mod 256 = gfv a.
Proof. apply Z.mod_small, gf_range. Qed.

Lemma gfAdd_v (a b : gf) : gfAdd (gfv a) (gfv b) = gfv (fadd a b).
Proof. symmetry. apply gf_add_v. Qed.

Lemma gfMul_v (a b : gf) : gfMul (gfv a) (gfv b) = gfv (fmul a b).
Proof. symmetry. apply gf_mul_v. Qed.

Lemma gfv_0 (a : gf) : gfv a = 0 <-> a = f0.
Proof.
  split; intros H; [|subst; reflexivity]. apply gf_eq. now rewrite H.
Qed.

Lemma gfv_eqb_0 (a : gf) : (gfv a =? 0) = negb (nonzero a).
Proof.
  unfold nonzero. destruct (f_dec a f0) as [->|E]; [reflexivity|].
  apply Z.eqb_neq. now rewrite gfv_0.
Qed.

Lemma gfDiv_v (a b : gf) : b <> f0 -> gfDiv (gfv a) (gfv b) = Ok (gfv (fmul a (finv b))).
Proof.
  intros Hb. pose proof (gf_range b) as Rb. rewrite <- gfv_0 in Hb.
  rewrite gfDiv_mul by (apply gf_range || lia). f_equal.
  rewrite <- gf_inv_v. apply gfMul_v.
Qed.

Create Rewrite HintDb gfv.
#[export] Hint Rewrite gfAdd_v gfMul_v : gfv.

(** The accumulation loops [val = gfAdd(val, gfMul(f(k), g(k)))]. *)
Lemma gf_dot_loop (n : nat) (f g : nat -> Z) (x y : nat -> gf) :
  (forall k, (k < n)%nat -> f k = gfv (x k) /\ g k = gfv (y k)) ->
  for_n n (fun k s => gfAdd s (gfMul (f k) (g k))) 0
  = gfv (fsum n (fun k => fmul (x k) (y k))).
Proof.
  intros H.
  apply (for_n_inv (fun k s => s = gfv (fsum k (fun k => fmul (x k) (y k))))); [reflexivity|].
  intros k s Hk ->. destruct (H k Hk) as [-> ->]. autorewrite with gfv. reflexivity.
Qed.

(** ** Representation *)

Record grepr (R C : nat) (m : GFMatrix) (G : mat (F := gf)) : Prop := {
  gr_rows : rows m = R;
  gr_cols : cols m = C;
  gr_len : length (mdata m) = (R * C)%nat;
  gr_get : forall r c, (r < R)%nat -> (c < C)%nat -> mget m #r #c = gfv (G r c)
}.

(** The update of one entry. *)
Definition gset (G : mat (F := gf)) (r c : nat) (v : gf) : mat (F := gf) := fun r' c' =>
  if ((r' =? r) && (c' =? c))%nat then v else G r' c'.

Lemma flat_index (C r c r' c' : nat) :
  (c < C)%nat -> (c' < C)%nat -> (r * C + c = r' * C + c')%nat -> r = r' /\ c = c'.
Proof.
  intros Hc Hc' E. assert (r = r') by nia. subst. lia.
Qed.

Lemma flat_z (r C c : nat) : #r * #C + #c = #(r * C + c).
Proof. lia. Qed.

Section Repr.
Context {R C : nat}.

Lemma grepr_ext (m : GFMatrix) (G H : mat) :
  (forall r c, (r < R)%nat -> (c < C)%nat -> G r c = H r c) ->
  grepr R C m G -> grepr R C m H.
Proof.
  intros E [? ? ? Hg]. constructor; auto. intros r c Hr Hc. now rewrite Hg, E.
Qed.

Lemma grepr_set (m : GFMatrix) (G : mat) (r c : nat) (v : gf) :
  grepr R C m G -> (r < R)%nat -> (c < C)%nat ->
  grepr R C (mset m #r #c (gfv v)) (gset G r c v).
Proof.
  intros [Hr Hc Hl Hg] Hrb Hcb.
  constructor; unfold mset; cbn [rows cols mdata]; rewrite ?Hc.
  - assumption.
  - reflexivity.
  - now rewrite u8set_length.
  - intros r' c' Hr' Hc'. unfold mget. cbn [cols mdata].
    rewrite !flat_z, u8set_nat, u8get_nat, gfv_mod.
    specialize (Hg r' c' Hr' Hc'). unfold mget in Hg.
    rewrite Hc, flat_z, u8get_nat in Hg.
    rewrite nth_upd, Hl, Hg. unfold gset.
    destruct (Nat.eqb_spec (r' * C + c') (r * C + c)) as [E|E].
    + apply flat_index in E as [-> ->]; [|assumption..].
      rewrite !Nat.eqb_refl, (proj2 (Nat.ltb_lt _ _)) by nia. reflexivity.
    + destruct (Nat.eqb_spec r' r) as [->|]; [|reflexivity].
      destruct (Nat.eqb_spec c' c) as [->|]; [contradiction|reflexivity].
Qed.

Lemma grepr_set_ext (m : GFMatrix) (G H : mat) (r c : nat) (v : gf) (z : Z) :
  grepr R C m G -> (r < R)%nat -> (c < C)%nat -> z = gfv v ->
  (forall r' c', (r' < R)%nat -> (c' < C)%nat -> gset G r c v r' c' = H r' c') ->
  grepr R C (mset m #r #c z) H.
Proof.
  intros HG Hr Hc -> HH. eapply grepr_ext; [exact HH|]. now apply grepr_set.
Qed.

Lemma grepr_new : grepr R C (new_matrix R C) (fun _ _ => f0).
Proof.
  constructor; try reflexivity.
  - unfold new_matrix, new_u8. apply repeat_length.
  - intros r c Hr Hc. unfold mget, new_matrix, new_u8. cbn [cols mdata].
    rewrite flat_z, u8get_nat, nth_repeat. reflexivity.
Qed.

(** Two matrices with the same contents are the same object contents. *)
Lemma grepr_unique (m m' : GFMatrix) (G : mat) :
  grepr R C m G -> grepr R C m' G -> m = m'.
Proof.
  intros [Hr Hc Hl Hg] [Hr' Hc' Hl' Hg']. destruct m as [r c d], m' as [r' c' d'].
  cbn [rows cols mdata] in *. subst. f_equal.
  apply (nth_ext_eq 0); [congruence|]. intros i Hi. rewrite Hl in Hi.
  assert (HC : (C <> 0)%nat) by nia.
  pose proof (Nat.div_mod i C HC) as Ei. pose proof (Nat.mod_upper_bound i C HC) as Hm.
  assert (Hd : (i / C < R)%nat) by (apply Nat.Div0.div_lt_upper_bound; nia).
  specialize (Hg _ _ Hd Hm). specialize (Hg' _ _ Hd Hm). unfold mget in *.
  cbn [cols mdata] in *. rewrite flat_z, u8get_nat in *.
  replace (i / C * C + i mod C)%nat with i in * by lia. congruence.
Qed.
End Repr.

(** Case analysis on the index tests of the entries of [gset] and of loop
    invariants. *)
Ltac entry_cases :=
  unfold gset in *;
  repeat match goal with
  | |- context [Nat.eqb ?a ?b] => destruct (Nat.eqb_spec a b); subst; try lia
  | |- context [Nat.ltb ?a ?b] => destruct (Nat.ltb_spec a b); subst; try lia
  end; cbn [andb]; try reflexivity; try lia; auto.

(** ** Loops *)

Section Loops.
Context {R C : nat}.

(** A loop that writes row [r], column by column; the value written at
    column [c] may read the columns not yet written. *)
Lemma fill_row (K r : nat) (v : nat -> GFMatrix -> Z) (g : nat -> gf) (m : GFMatrix)
    (G : mat) :
  grepr R C m G -> (r < R)%nat -> (K <= C)%nat ->
  (forall c m', (c < K)%nat ->
     grepr R C m' (fun r' c' => if ((r' =? r) && (c' <? c))%nat then g c' else G r' c') ->
     v c m' = gfv (g c)) ->
  grepr R C (for_n K (fun c m => mset m #r #c (v c m)) m)
    (fun r' c' => if ((r' =? r) && (c' <? K))%nat then g c' else G r' c').
Proof.
  intros HG Hr HK Hv.
  apply (for_n_inv (fun k m' => grepr R C m'
           (fun r' c' => if ((r' =? r) && (c' <? k))%nat then g c' else G r' c'))).
  - eapply grepr_ext; [|exact HG]. intros r' c' _ _. entry_cases.
  - intros c m' Hc Hm'. eapply grepr_set_ext; [exact Hm'|assumption|lia|now apply Hv|].
    intros r' c' _ _. entry_cases.
Qed.

(** Rows one after the other, each by a loop that leaves the other rows alone. *)
Lemma fill_rows (K : nat) (step : nat -> GFMatrix -> GFMatrix) (G H : mat) (m : GFMatrix) :
  grepr R C m G -> (K <= R)%nat ->
  (forall r m', (r < K)%nat ->
     grepr R C m' (fun r' c' => if (r' <? r)%nat then H r' c' else G r' c') ->
     grepr R C (step r m') (fun r' c' => if (r' <? S r)%nat then H r' c' else G r' c')) ->
  grepr R C (for_n K step m) (fun r' c' => if (r' <? K)%nat then H r' c' else G r' c').
Proof.
  intros HG HK Hs.
  apply (for_n_inv (fun k m' => grepr R C m'
           (fun r' c' => if (r' <? k)%nat then H r' c' else G r' c'))); [exact HG|].
  intros. now apply Hs.
Qed.
End Loops.

(** The product over the field. *)
Definition gmul (K : nat) (A B : mat (F := gf)) : mat := fun r c =>
  fsum K (fun k => fmul (A r k) (B k c)).

Lemma multiply_repr (R K C : nat) (m m' : GFMatrix) (A B : mat) :
  grepr R K m A -> grepr K C m' B ->
  exists p, multiply m m' = Ok p /\ grepr R C p (gmul K A B).
Proof.
  intros HA HB. unfold multiply.
  rewrite (gr_rows _ _ _ _ HA), (gr_cols _ _ _ _ HA), (gr_rows _ _ _ _ HB),
    (gr_cols _ _ _ _ HB), Nat.eqb_refl. cbn [negb].
  eexists. split; [reflexivity|].
  eapply grepr_ext; [|apply (fill_rows R _ (fun _ _ => f0) (gmul K A B)); [apply grepr_new|lia|]].
  - intros r c Hr _. cbv beta. now rewrite (proj2 (Nat.ltb_lt _ _) Hr).
  - intros r p Hr Hp.
    eapply grepr_ext; [|apply (fill_row C r _ (fun c => gmul K A B r c) p _ Hp Hr)];
      [|lia|].
    + intros r' c' _ Hc'. cbv beta. entry_cases.
    + intros c p' Hc _. cbv beta zeta. apply gf_dot_loop. intros k Hk.
      split; [now apply (gr_get _ _ _ _ HA)|now apply (gr_get _ _ _ _ HB)].
Qed.

Lemma subsetRows_repr (R C : nat) (m : GFMatrix) (A : mat) (idx : list nat) :
  grepr R C m A -> Forall (fun i => (i < R)%nat) idx ->
  grepr (length idx) C (subsetRows m (map Z.of_nat idx)) (fun r c => A (nth r idx 0%nat) c).
Proof.
  intros HA Hidx. unfold subsetRows. rewrite length_map, (gr_cols _ _ _ _ HA).
  set (A' := fun r c => A (nth r idx 0%nat) c).
  eapply grepr_ext; [|apply (fill_rows (length idx) _ (fun _ _ => f0) A');
                       [apply grepr_new|lia|]].
  - intros r c Hr _. cbv beta. now rewrite (proj2 (Nat.ltb_lt _ _) Hr).
  - intros r p Hr Hp. cbv beta zeta.
    eapply grepr_ext; [|apply (fill_row C r _ (A' r) p _ Hp Hr)]; [|lia|].
    + intros r' c' _ Hc'. cbv beta. entry_cases.
    + intros c p' Hc _. cbv beta. rewrite (map_nth Z.of_nat idx 0%nat).
      apply (gr_get _ _ _ _ HA); [|assumption].
      rewrite Forall_forall in Hidx. apply Hidx, nth_In, Hr.
Qed.

(** ** invert *)

Section Invert.
Variable n : nat.

Let repr := grepr n (n * 2).

Lemma augment_repr (m : GFMatrix) (A : mat) :
  grepr n n m A ->
  repr (for_n n (fun r a => for_n n (fun c a =>
          mset (mset a #r #c (mget m #r #c)) #r #(c + n) (if (r =? c)%nat then 1 else 0)) a)
        (new_matrix n (n * 2))) (augment n A).
Proof.
  intros HA.
  eapply grepr_ext; [|apply (fill_rows n _ (fun _ _ => f0) (augment n A));
                       [apply grepr_new|lia|]].
  - intros r c Hr _. cbv beta. now rewrite (proj2 (Nat.ltb_lt _ _) Hr).
  - intros r a Hr Ha.
    set (Q := fun k r' c' =>
      if ((r' =? r) && ((c' <? k) || ((n <=? c') && (c' <? n + k))))%nat
      then augment n A r' c'
      else if (r' <? r)%nat then augment n A r' c' else f0).
    eapply grepr_ext with (G := Q n).
    { intros r' c' _ Hc'. unfold Q. destruct (Nat.eqb_spec r' r) as [->|Hne].
      - rewrite (proj2 (Nat.ltb_lt r (S r))) by lia. cbn [andb].
        destruct (Nat.ltb_spec c' n); [reflexivity|].
        rewrite (proj2 (Nat.leb_le n c')), (proj2 (Nat.ltb_lt c' (n + n))) by lia.
        reflexivity.
      - cbn [andb]. destruct (Nat.ltb_spec r' r), (Nat.ltb_spec r' (S r)); try lia; reflexivity. }
    apply (for_n_inv (fun k a => repr a (Q k))).
    + eapply grepr_ext; [|exact Ha]. intros r' c' _ _. unfold Q. cbv beta.
      replace ((c' <? 0) || ((n <=? c') && (c' <? n + 0)))%nat with false by bool_lia.
      now rewrite andb_false_r.
    + intros c a' Hc Ha'.
      assert (Hset : repr (mset a' #r #c (mget m #r #c)) (gset (Q c) r c (A r c))).
      { eapply grepr_set_ext; [exact Ha'|assumption|lia|now apply (gr_get _ _ _ _ HA)|reflexivity]. }
      eapply (grepr_set_ext _ _ _ _ _ (delta r c)); [exact Hset|assumption|lia| |].
      * unfold delta. now destruct (Nat.eqb r c).
      * intros r' c' _ Hc'. unfold Q, gset, augment.
        destruct (Nat.eqb_spec r' r) as [->|Hne]; [|reflexivity]. cbn [andb].
        destruct (Nat.eqb_spec c' (c + n)) as [->|Hcn].
        { replace ((c + n <? S c) || ((n <=? c + n) && (c + n <? n + S c)))%nat
            with true by bool_lia.
          rewrite (proj2 (Nat.ltb_ge (c + n) n)) by lia. f_equal. lia. }
        destruct (Nat.eqb_spec c' c) as [->|Hcc].
        { rewrite (proj2 (Nat.ltb_lt c (S c))), (proj2 (Nat.ltb_lt c n)) by lia.
          reflexivity. }
        replace ((c' <? c) || ((n <=? c') && (c' <? n + c)))%nat
          with ((c' <? S c) || ((n <=? c') && (c' <? n + S c)))%nat by bool_lia.
        reflexivity.
Qed.

Lemma swap_rows_repr (col p : nat) (a : GFMatrix) (G : mat) :
  repr a G -> (col < n)%nat -> (p < n)%nat ->
  repr (swap_rows n col p a) (gswap G col p).
Proof.
  intros Ha Hcol Hp. unfold swap_rows.
  destruct (Nat.eqb_spec p col) as [->|Hne]; cbn [negb].
  { eapply grepr_ext; [|exact Ha]. intros r c _ _. unfold gswap. entry_cases. }
  eapply grepr_ext;
    [|apply (for_n_inv (fun k a => repr a (fun r c =>
        if (c <? k)%nat then gswap G col p r c else G r c)))].
  - intros r c _ Hc. cbv beta. now rewrite (proj2 (Nat.ltb_lt _ _) Hc).
  - exact Ha.
  - intros c a' Hc Ha'. cbv beta zeta.
    assert (Hg : forall r, (r < n)%nat -> mget a' #r #c = gfv (G r c)).
    { intros r Hr. rewrite (gr_get _ _ _ _ Ha') by assumption.
      now rewrite Nat.ltb_irrefl. }
    eapply grepr_set_ext; [eapply grepr_set_ext; [exact Ha'|assumption..| |reflexivity]
                          |assumption..| |].
    + now apply Hg.
    + now apply Hg.
    + intros r' c' _ _. unfold gswap. entry_cases.
Qed.

Lemma scale_row_repr (col : nat) (a : GFMatrix) (G : mat) :
  repr a G -> (col < n)%nat -> G col col <> f0 ->
  exists a', scale_row n col a = Ok a' /\ repr a' (gscale G col (G col col)).
Proof.
  intros Ha Hcol Hne. unfold scale_row.
  rewrite (gr_get _ _ _ _ Ha) by lia.
  edestruct (res_for_inv (fun k a => repr a (fun r c =>
      if ((r =? col) && (c <? k))%nat then fmul (G r c) (finv (G col col)) else G r c))
      (n * 2)) as (a' & E & Ha'); [| |exists a'; split; [exact E|]].
  - eapply grepr_ext; [|exact Ha]. intros r c _ _. entry_cases.
  - intros c a' Hc Ha'. cbv beta. rewrite (gr_get _ _ _ _ Ha') by lia.
    rewrite Nat.ltb_irrefl, andb_false_r.
    rewrite gfDiv_v by assumption. cbn [res_bind]. eexists. split; [reflexivity|].
    eapply grepr_set_ext; [exact Ha'|assumption..|reflexivity|].
    intros r' c' _ _. cbv beta. entry_cases.
  - eapply grepr_ext; [|exact Ha']. intros r c _ Hc. unfold gscale. cbv beta.
    now rewrite (proj2 (Nat.ltb_lt _ _) Hc), andb_true_r.
Qed.

Lemma gf_sub_add (a b : gf) : fsub a b = fadd a b.
Proof. reflexivity. Qed.

Lemma gelim_zero (G : mat) (col r c : nat) : G r col = f0 -> gelim G col r c = G r c.
Proof.
  intros E. unfold gelim. destruct (Nat.eqb r col); [reflexivity|]. rewrite E.
  apply gf_eq. change (gfv (gf_add (G r c) (gf_mul (to_gf 0) (G col c))) = gfv (G r c)).
  rewrite gf_add_v, gf_mul_v.
  change (gfv (to_gf 0)) with 0. now rewrite gfMul_0_l, Z.lxor_0_r.
Qed.

Lemma eliminate_rows_repr (col : nat) (a : GFMatrix) (G : mat) :
  repr a G -> (col < n)%nat -> repr (eliminate_rows n col a) (gelim G col).
Proof.
  intros Ha Hcol. unfold eliminate_rows.
  eapply grepr_ext; [|apply (fill_rows n _ G (gelim G col)); [exact Ha|lia|]].
  - intros r c Hr _. cbv beta. now rewrite (proj2 (Nat.ltb_lt _ _) Hr).
  - intros r a' Hr Ha'. cbv zeta.
    assert (Hself : forall c, (if (r <? r)%nat then gelim G col r c else G r c) = G r c)
      by (intros; now rewrite Nat.ltb_irrefl).
    assert (Hpiv : forall c, (if (col <? r)%nat then gelim G col col c else G col c) = G col c).
    { intros c. destruct (col <? r)%nat; [|reflexivity]. unfold gelim.
      now rewrite Nat.eqb_refl. }
    assert (Hsame : (forall c, gelim G col r c = G r c) ->
              repr a' (fun r' c' => if (r' <? S r)%nat then gelim G col r' c' else G r' c')).
    { intros E. eapply grepr_ext; [|exact Ha']. intros r' c' _ _.
      destruct (Nat.eq_dec r' r) as [->|Hrr]; [|cbv beta; entry_cases].
      now rewrite Hself, E, (proj2 (Nat.ltb_lt r (S r))) by lia. }
    destruct (Nat.eqb_spec r col) as [->|Hne].
    { apply Hsame. intros c. unfold gelim. now rewrite Nat.eqb_refl. }
    rewrite (gr_get _ _ _ _ Ha'), Hself, gfv_eqb_0 by lia.
    destruct (nonzero (G r col)) eqn:Enz; cbn [negb].
    2:{ apply Hsame. intros c. apply gelim_zero. unfold nonzero in Enz.
        now destruct (f_dec (G r col) f0). }
    eapply grepr_ext; [|apply (fill_row (n * 2) r _ (gelim G col r) a' _ Ha' Hr)]; [|lia|].
    + intros r' c' _ Hc'. cbv beta.
      destruct (Nat.eq_dec r' r) as [->|Hrr]; entry_cases.
    + intros c a'' Hc Ha''. rewrite !(gr_get _ _ _ _ Ha'') by lia.
      rewrite Nat.ltb_irrefl, andb_false_r, Hself.
      rewrite (proj2 (Nat.eqb_neq col r)) by lia. cbn [andb]. rewrite Hpiv.
      autorewrite with gfv. unfold gelim. now rewrite (proj2 (Nat.eqb_neq r col) Hne).
Qed.

(** One column of the loop is one step of the elimination. *)
Lemma invert_col_repr (col : nat) (a : GFMatrix) (G : mat) :
  repr a G -> (col < n)%nat ->
  match gj_step n G col with
  | Some G' => exists a', invert_col n a col = Ok a' /\ repr a' G'
  | None => invert_col n a col = Throw "Matrix is singular — cannot invert"
  end.
Proof.
  intros Ha Hcol. unfold invert_col, gj_step.
  assert (Efind : find (fun r => negb (mget a #r #col =? 0)) (seq col (n - col))
                  = find (fun r => nonzero (G r col)) (seq col (n - col))).
  { apply find_ext_in'. intros r Hr. apply in_seq in Hr.
    rewrite (gr_get _ _ _ _ Ha) by lia. rewrite gfv_eqb_0. apply negb_involutive. }
  rewrite Efind. clear Efind. destruct (find _ _) as [p|] eqn:Ef; [|reflexivity].
  apply find_some in Ef as [Hin Hp]. apply in_seq in Hin. apply nonzero_true in Hp.
  pose proof (swap_rows_repr col p a G Ha Hcol ltac:(lia)) as H1.
  destruct (scale_row_repr col _ _ H1 Hcol) as (a2 & E2 & H2).
  { unfold gswap. now rewrite Nat.eqb_refl. }
  rewrite E2. cbn [res_bind]. eexists. split; [reflexivity|].
  now apply eliminate_rows_repr.
Qed.
End Invert.

(** The identity matrix. *)
Definition identity_matrix (n : nat) : GFMatrix :=
  for_n n (fun r m => mset m #r #r 1) (new_matrix n n).

Lemma diag_repr (k R C : nat) (m : GFMatrix) :
  (k <= R)%nat -> (k <= C)%nat -> grepr R C m (fun _ _ => f0) ->
  grepr R C (for_n k (fun r m => mset m #r #r 1) m)
    (fun r c => if (r <? k)%nat then delta r c else f0).
Proof.
  intros HR HC Hm.
  apply (fill_rows k _ (fun _ _ => f0) (fun r c => delta r c)); [exact Hm|assumption|].
  intros r m' Hr Hm'. apply (grepr_set_ext _ _ _ _ _ f1 1 Hm'); [lia|lia|reflexivity|].
  intros r' c' _ _. unfold gset, delta.
  destruct (Nat.eqb_spec r' r) as [->|Hne]; cbn [andb].
  - rewrite Nat.ltb_irrefl, (proj2 (Nat.ltb_lt r (S r))) by lia.
    rewrite (Nat.eqb_sym r c'). now destruct (Nat.eqb c' r).
  - replace (r' <? S r)%nat with (r' <? r)%nat by bool_lia. reflexivity.
Qed.

Lemma identity_repr (n : nat) : grepr n n (identity_matrix n) (fun r c => delta r c).
Proof.
  eapply grepr_ext; [|apply diag_repr; [reflexivity..|apply grepr_new]].
  intros r c Hr _. cbv beta. now rewrite (proj2 (Nat.ltb_lt _ _) Hr).
Qed.

Section InvertSpec.
Variables (n : nat) (m : GFMatrix) (A : mat (F := gf)).
Hypothesis HA : grepr n n m A.

Lemma invert_unfold :
  exists aug0, grepr n (n * 2) aug0 (augment n A) /\
  invert m =
    (let! aug := res_foldl (invert_col n) (seq 0 n) aug0 in
     Ok (for_n n (fun r inv => for_n n (fun c inv =>
           mset inv #r #c (mget aug #r #(c + n))) inv) (new_matrix n n))).
Proof.
  eexists. split; [apply (augment_repr n m A HA)|].
  unfold invert. now rewrite (gr_rows _ _ _ _ HA), (gr_cols _ _ _ _ HA), Nat.eqb_refl.
Qed.

Lemma extract_repr (aug : GFMatrix) (G : mat) :
  grepr n (n * 2) aug G ->
  grepr n n (for_n n (fun r inv => for_n n (fun c inv =>
           mset inv #r #c (mget aug #r #(c + n))) inv) (new_matrix n n))
    (fun r c => G r (n + c)%nat).
Proof.
  intros Ha.
  eapply grepr_ext; [|apply (fill_rows n _ (fun _ _ => f0) (fun r c => G r (n + c)%nat));
                       [apply grepr_new|lia|]].
  - intros r c Hr _. cbv beta. now rewrite (proj2 (Nat.ltb_lt _ _) Hr).
  - intros r p Hr Hp. cbv beta zeta.
    eapply grepr_ext; [|apply (fill_row n r _ (fun c => G r (n + c)%nat) p _ Hp Hr)]; [|lia|].
    + intros r' c' _ Hc'. cbv beta. entry_cases.
    + intros c p' Hc _. rewrite (gr_get _ _ _ _ Ha) by lia. now rewrite Nat.add_comm.
Qed.

(** The elimination either keeps its invariant to the last column or stops at
    a column without pivot. *)
Lemma invert_loop (aug0 : GFMatrix) :
  grepr n (n * 2) aug0 (augment n A) ->
  (exists aug G, res_foldl (invert_col n) (seq 0 n) aug0 = Ok aug
                 /\ grepr n (n * 2) aug G /\ gj_inv n A n G)
  \/ (res_foldl (invert_col n) (seq 0 n) aug0 = Throw "Matrix is singular — cannot invert"
      /\ ~ kernel_trivial n A).
Proof.
  intros H0.
  assert (H : forall k j aug G, (j + k = n)%nat -> grepr n (n * 2) aug G -> gj_inv n A j G ->
    (exists aug' G', res_foldl (invert_col n) (seq j k) aug = Ok aug'
                   /\ grepr n (n * 2) aug' G' /\ gj_inv n A n G')
    \/ (res_foldl (invert_col n) (seq j k) aug = Throw "Matrix is singular — cannot invert"
        /\ ~ kernel_trivial n A)).
  { induction k as [|k IH]; intros j aug G Hj Haug HG; simpl.
    - left. exists aug, G. assert (j = n) as -> by lia. auto.
    - pose proof (invert_col_repr n j aug G Haug ltac:(lia)) as Hstep.
      destruct (gj_step n G j) as [G'|] eqn:Es.
      + destruct Hstep as (aug' & -> & Haug'). simpl.
        apply (IH (S j) aug' G'); [lia|assumption|].
        apply (gj_step_some n A j G G'); [lia|assumption..].
      + rewrite Hstep. simpl. right. split; [reflexivity|].
        apply (gj_step_none n A j G); [lia|assumption..]. }
  apply (H n 0%nat aug0 (augment n A)); [lia|assumption|apply gj_inv_init].
Qed.

Lemma invert_spec :
  (exists inv B, invert m = Ok inv /\ grepr n n inv B
     /\ forall r c, (r < n)%nat -> (c < n)%nat -> gmul n B A r c = delta r c)
  \/ (invert m = Throw "Matrix is singular — cannot invert" /\ ~ kernel_trivial n A).
Proof.
  destruct invert_unfold as (aug0 & H0 & ->).
  destruct (invert_loop aug0 H0) as [(aug & G & -> & Haug & HG)|[-> Hk]].
  - left. eexists _, _. split; [reflexivity|]. split; [apply extract_repr, Haug|].
    intros r c Hr Hc. unfold gmul. now apply gj_final.
  - right. now split.
Qed.
End InvertSpec.

(** ** The outcome of invert *)

(** A well-formed object: the array has rows * cols bytes. *)
Definition well_formed (m : GFMatrix) : Prop :=
  length (mdata m) = (rows m * cols m)%nat /\ bytes (mdata m).

Lemma well_formed_repr (m : GFMatrix) : well_formed m ->
  grepr (rows m) (cols m) m (fun r c => to_gf (mget m #r #c)).
Proof.
  intros [Hl Hb]. constructor; auto. intros r c Hr Hc. symmetry. apply to_gf_v.
  unfold mget. rewrite flat_z, u8get_nat. apply is_byte_spec.
  unfold bytes in Hb. rewrite Forall_forall in Hb. apply Hb, nth_In. rewrite Hl. nia.
Qed.

(** A left inverse leaves no solution but zero. *)
Lemma left_inverse_kernel (n : nat) (A B : mat (F := gf)) :
  (forall r c, (r < n)%nat -> (c < n)%nat -> gmul n B A r c = delta r c) -> kernel_trivial n A.
Proof.
  intros HBA v Hv c Hc.
  transitivity (fsum n (fun k => fmul (B c k) (fsum n (fun j => fmul (A k j) (v j))))).
  - rewrite fsum_dot_assoc. rewrite (fsum_ext _ _ (fun j => fmul (delta c j) (v j))).
    + now rewrite fsum_delta.
    + intros j Hj. f_equal. now apply HBA.
  - apply fsum_zero. intros k Hk. fold (row_dot n A k v). rewrite Hv by assumption.
    apply gf_eq. change (gfv (gf_mul (B c k) (to_gf 0)) = 0). rewrite gf_mul_v. apply gfMul_0_r.
Qed.

(** [invert] of a well-formed square matrix either returns a matrix whose
    product with it, computed by [multiply], is the identity, or reports it
    singular, and then no matrix has that product. *)
Theorem invert_outcome (m : GFMatrix) (Hm : well_formed m) (Hsq : rows m = cols m) :
  (exists inv, invert m = Ok inv /\ multiply inv m = Ok (identity_matrix (rows m)))
  \/ (invert m = Throw "Matrix is singular — cannot invert"
      /\ forall b, well_formed b -> rows b = rows m -> cols b = rows m ->
                   multiply b m <> Ok (identity_matrix (rows m))).
Proof.
  pose proof (well_formed_repr m Hm) as HA. rewrite <- Hsq in HA.
  destruct (invert_spec _ _ _ HA) as [(inv & B & Einv & HB & HBA)|[Einv Hk]].
  - left. exists inv. split; [exact Einv|].
    destruct (multiply_repr _ _ _ _ _ _ _ HB HA) as (p & -> & Hp). f_equal.
    eapply grepr_unique; [eapply grepr_ext; [exact HBA|exact Hp]|apply identity_repr].
  - right. split; [exact Einv|]. intros b Hb Hrb Hcb E. apply Hk.
    pose proof (well_formed_repr b Hb) as HB. rewrite Hrb, Hcb in HB.
    apply (left_inverse_kernel _ _ (fun r c => to_gf (mget b #r #c))). intros r c Hr Hc.
    destruct (multiply_repr _ _ _ _ _ _ _ HB HA) as (p & Ep & Hp).
    rewrite Ep in E. injection E as ->. apply gf_eq.
    rewrite <- (gr_get _ _ _ _ Hp), <- (gr_get _ _ _ _ (identity_repr (rows m))) by assumption.
    reflexivity.
Qed.

Lemma invert_outcome_witness :
  exists inv, invert (mkMatrix 2 2 [1; 2; 3; 4]) = Ok inv
    /\ multiply inv (mkMatrix 2 2 [1; 2; 3; 4]) = Ok (identity_matrix 2).
Proof.
  destruct (invert_outcome (mkMatrix 2 2 [1; 2; 3; 4])) as [H|[E _]].
  - split; [reflexivity|repeat constructor].
  - reflexivity.
  - exact H.
  - vm_compute in E. discriminate E.
Defined.
