(* ===== verification/ErasureCode.v ===== *)
(** * ErasureCode: what encode, decode, verifyShards and the distribution promise

    The code of a payload is [codeword]: row [i] of the encoding matrix times
    the data shards.  [encode] produces it, any [M] of its shards determine the
    data shards, and [decode] recovers them by inverting the selected rows. *)

From Stdlib Require Import String ZArith List Lia Bool Permutation Field.
Import ListNotations.
From S2P Require Import Prelude JsString Algebra GF256 Erasure ErasureMatrix.

Import ErasureGF.
Open Scope list_scope.
Open Scope Z_scope.

(** ** The encoding matrix *)

Definition elt (i : nat) : gf := to_gf #i.

(** Row [i] of the encoding matrix for [M] data shards. *)
Definition enc_entry (M i c : nat) : gf :=
  if (i <? M)%nat then delta i c else finv (fsub (elt i) (elt c)).

Lemma elt_v (i : nat) : (i < 256)%nat -> gfv (elt i) = #i.
Proof. intros H. apply to_gf_v. lia. Qed.

Lemma elt_inj (i j : nat) : (i < 256)%nat -> (j < 256)%nat -> elt i = elt j -> i = j.
Proof.
  intros Hi Hj E. apply (f_equal gfv) in E. rewrite !elt_v in E by assumption. lia.
Qed.

Lemma elt_sub_neq (i j : nat) : (i < 256)%nat -> (j < 256)%nat -> i <> j ->
  fsub (elt i) (elt j) <> f0.
Proof. intros Hi Hj Hne E. apply fsub_0_eq in E. now apply elt_inj in E. Qed.

Lemma gf_sub_comm (a b : gf) : fsub a b = fsub b a.
Proof.
  apply gf_eq. change (gfv (gf_add a b) = gfv (gf_add b a)). rewrite !gf_add_v.
  apply Z.lxor_comm.
Qed.

Lemma gf_mul_1_l (a : gf) : fmul f1 a = a.
Proof.
  apply gf_eq. change (gfv (gf_mul (to_gf 1) a) = gfv a). rewrite gf_mul_v.
  apply gfMul_1_l, gf_range.
Qed.

Lemma gf_mul_comm (a b : gf) : fmul a b = fmul b a.
Proof. apply (Rmul_comm (F_R f_theory)). Qed.

Lemma gf_mul_0_r (a : gf) : fmul a f0 = f0.
Proof.
  apply gf_eq. change (gfv (gf_mul a (to_gf 0)) = 0). rewrite gf_mul_v.
  apply gfMul_0_r.
Qed.

Lemma cauchy_entry (P M r c : nat) : (P + M <= 256)%nat -> (r < P)%nat -> (c < M)%nat ->
  gfDiv 1 (gfAdd #c (#M + #r)) = Ok (gfv (enc_entry M (M + r) c)).
Proof.
  intros Hb Hr Hc. change 1 with (gfv f1).
  rewrite <- (elt_v c), <- Nat2Z.inj_add, <- (elt_v (M + r)) by lia.
  rewrite gfAdd_v. change (fadd (elt c) (elt (M + r))) with (fsub (elt c) (elt (M + r))).
  rewrite gf_sub_comm, gfDiv_v by (apply elt_sub_neq; lia).
  rewrite gf_mul_1_l. unfold enc_entry. now rewrite (proj2 (Nat.ltb_ge (M + r) M)) by lia.
Qed.

Lemma buildCauchyMatrix_repr (P M : nat) : (P + M <= 256)%nat ->
  exists m, buildCauchyMatrix P M = Ok m
    /\ grepr P M m (fun r c => enc_entry M (M + r)%nat c).
Proof.
  intros Hb. unfold buildCauchyMatrix.
  assert (Hg : (GF_SIZE <? P + M)%nat = false) by (unfold GF_SIZE; bool_lia).
  rewrite Hg. eexists. split.
  - apply (res_foldl_ok _ (fun m r => for_n M (fun c m =>
      mset m #r #c (gfv (enc_entry M (M + r) c))) m)).
    intros m r Hr. apply in_seq in Hr. unfold for_n.
    apply (res_foldl_ok _ (fun m c => mset m #r #c (gfv (enc_entry M (M + r) c)))).
    intros m' c Hc. apply in_seq in Hc. now rewrite (cauchy_entry P) by lia.
  - eapply grepr_ext; [|apply (fill_rows P _ (fun _ _ => f0)
        (fun r c => enc_entry M (M + r)%nat c)); [apply grepr_new|lia|]].
    + intros r c Hr _. cbv beta. now rewrite (proj2 (Nat.ltb_lt _ _) Hr).
    + intros r p Hr Hp. cbv beta.
      eapply grepr_ext; [|apply (fill_row M r _ (enc_entry M (M + r)) p _ Hp Hr)]; [|lia|].
      * intros r' c' _ Hc'. cbv beta. entry_cases.
      * reflexivity.
Qed.

Lemma buildEncodingMatrix_repr (M P : nat) : (M + P <= 256)%nat ->
  exists m, buildEncodingMatrix M P = Ok m /\ grepr (M + P) M m (enc_entry M).
Proof.
  intros Hb. unfold buildEncodingMatrix.
  destruct (buildCauchyMatrix_repr P M ltac:(lia)) as (cm & -> & Hcm). cbn [res_bind].
  eexists. split; [reflexivity|].
  set (G0 := fun r c => if (r <? M)%nat then delta r c else f0 : gf).
  assert (H0 : grepr (M + P) M (for_n M (fun r m => mset m #r #r 1) (new_matrix (M + P) M)) G0)
    by (apply diag_repr; [lia|lia|apply grepr_new]).
  eapply grepr_ext; [|apply (for_n_inv (fun k m => grepr (M + P) M m
      (fun r c => if (r <? M + k)%nat then enc_entry M r c else f0)))].
  - intros r c Hr _. cbv beta. now rewrite (proj2 (Nat.ltb_lt _ _) Hr).
  - eapply grepr_ext; [|exact H0]. intros r c _ _. unfold G0, enc_entry.
    rewrite Nat.add_0_r. now destruct (r <? M)%nat.
  - intros r m Hr Hm. cbv beta.
    eapply grepr_ext; [|apply (fill_row M (r + M) _ (enc_entry M (M + r)) m _ Hm)];
      [|lia|lia|].
    + intros r' c' _ Hc'. cbv beta. rewrite (Nat.add_comm r M) in *. entry_cases.
    + intros c m' Hc _. cbv beta. apply (gr_get _ _ _ _ Hcm); assumption.
Qed.

Lemma buildEncodingMatrix_throws (M P : nat) : (256 < M + P)%nat ->
  exists e, buildEncodingMatrix M P = Throw e.
Proof.
  intros Hb. unfold buildEncodingMatrix, buildCauchyMatrix.
  assert (Hg : (GF_SIZE <? P + M)%nat = true) by (unfold GF_SIZE; bool_lia).
  rewrite Hg. eexists. reflexivity.
Qed.

(** ** Any M rows of the encoding matrix are independent *)

Section Selection.
Variables (M : nat) (idx : list nat).
Hypothesis Hlen : length idx = M.
Hypothesis Hnd : NoDup idx.
Hypothesis Hlt : Forall (fun i => (i < 256)%nat) idx.
Hypothesis HM : (M <= 256)%nat.

Definition listed (c : nat) : bool := existsb (Nat.eqb c) idx.

Lemma listed_In (c : nat) : listed c = true <-> In c idx.
Proof.
  unfold listed. rewrite existsb_exists. split.
  - intros (x & Hx & E). apply Nat.eqb_eq in E. now subst.
  - intros H. exists c. now rewrite Nat.eqb_refl.
Qed.

(** The data shards that are not selected, and the parity shards that are. *)
Definition missing : list nat := filter (fun c => negb (listed c)) (seq 0 M).
Definition parity_rows : list nat := filter (fun i => negb (i <? M)%nat) idx.

Lemma missing_parity_length : length parity_rows = length missing.
Proof.
  pose proof (filter_length_split (fun i => (i <? M)%nat) idx) as H1.
  pose proof (filter_length_split listed (seq 0 M)) as H2. rewrite length_seq in H2.
  assert (H3 : length (filter (fun i => (i <? M)%nat) idx) = length (filter listed (seq 0 M))).
  { apply NoDup_same_length; [now apply NoDup_filter|apply NoDup_filter, seq_NoDup|].
    intros c. rewrite !filter_In, in_seq, listed_In, Nat.ltb_lt. intuition lia. }
  unfold parity_rows, missing. lia.
Qed.

Lemma In_lt (i : nat) : In i idx -> (i < 256)%nat.
Proof. rewrite Forall_forall in Hlt. apply Hlt. Qed.

Lemma map_elt_NoDup (l : list nat) :
  NoDup l -> (forall i, In i l -> (i < 256)%nat) -> NoDup (map elt l).
Proof.
  intros Hl Hb. apply NoDup_map_inj_on; [|assumption].
  intros i j Hi Hj. apply elt_inj; auto.
Qed.

Lemma parity_row_dot (v : nat -> gf) (i : nat) :
  (forall c, (c < M)%nat -> In c idx -> v c = f0) ->
  In i parity_rows ->
  fsum M (fun c => fmul (enc_entry M i c) (v c))
  = lsum (fun x => fmul (v (Z.to_nat (gfv x))) (finv (fsub (elt i) x))) (map elt missing).
Proof.
  intros Hv Hi. apply filter_In in Hi as [Hi Hge]. bool_to_prop.
  rewrite fsum_lsum, lsum_map, (lsum_filter _ (fun c => negb (listed c))).
  - apply lsum_ext. intros c Hc. apply filter_In in Hc as [Hc _]. apply in_seq in Hc.
    rewrite elt_v, Nat2Z.id by lia. unfold enc_entry.
    rewrite (proj2 (Nat.ltb_ge i M)) by lia. apply gf_mul_comm.
  - intros c Hc Hl. apply in_seq in Hc. apply negb_false_iff, listed_In in Hl.
    rewrite Hv by (assumption || lia). apply gf_mul_0_r.
Qed.

Lemma selected_kernel : kernel_trivial M (fun r c => enc_entry M (nth r idx 0%nat) c).
Proof.
  intros v Hv.
  assert (Hrow : forall i, In i idx -> fsum M (fun c => fmul (enc_entry M i c) (v c)) = f0).
  { intros i Hi. apply (In_nth _ _ 0%nat) in Hi as (r & Hr & <-).
    rewrite Hlen in Hr. exact (Hv r Hr). }
  assert (Hdata : forall c, (c < M)%nat -> In c idx -> v c = f0).
  { intros c Hc Hin. rewrite <- (Hrow c Hin).
    rewrite (fsum_ext _ _ (fun c' => fmul (delta c c') (v c'))).
    - now rewrite fsum_delta.
    - intros c' Hc'. unfold enc_entry. now rewrite (proj2 (Nat.ltb_lt _ _) Hc). }
  assert (Hw : forall x, In x (map elt missing) -> v (Z.to_nat (gfv x)) = f0).
  { apply (cauchy_kernel (fun x => v (Z.to_nat (gfv x))) (map elt missing) (map elt parity_rows)).
    - apply map_elt_NoDup; [apply NoDup_filter, seq_NoDup|].
      intros i Hi. apply filter_In in Hi as [Hi _]. apply in_seq in Hi. lia.
    - apply map_elt_NoDup; [now apply NoDup_filter|].
      intros i Hi. apply filter_In in Hi as [Hi _]. now apply In_lt.
    - rewrite !length_map. apply missing_parity_length.
    - intros c r Hc Hr E. apply in_map_iff in Hc as (i & <- & Hi), Hr as (j & <- & Hj).
      apply filter_In in Hi as [Hi _], Hj as [Hj Hge]. apply in_seq in Hi. bool_to_prop.
      apply elt_inj in E; [lia|now apply In_lt|lia].
    - intros r Hr. apply in_map_iff in Hr as (i & <- & Hi).
      rewrite <- parity_row_dot by assumption. apply Hrow.
      now apply filter_In in Hi as [Hi _]. }
  intros c Hc. destruct (listed c) eqn:El; [apply Hdata; [assumption|now apply listed_In]|].
  rewrite <- (Hw (elt c)); [now rewrite elt_v, Nat2Z.id by lia|].
  apply in_map. apply filter_In. rewrite El. split; [apply in_seq; lia|reflexivity].
Qed.
End Selection.

(** ** Arrays of byte arrays *)

Record crepr (N W : nat) (xss : list (list Z)) (Y : mat (F := gf)) : Prop := {
  cr_len : length xss = N;
  cr_row : forall i, (i < N)%nat -> length (nth i xss []) = W;
  cr_get : forall i j, (i < N)%nat -> (j < W)%nat -> cell xss i j = gfv (Y i j)
}.

Definition gf_row (W : nat) (y : nat -> gf) : list Z := map (fun j => gfv (y j)) (seq 0 W).

Lemma gf_row_length (W : nat) (y : nat -> gf) : length (gf_row W y) = W.
Proof. unfold gf_row. now rewrite length_map, length_seq. Qed.

Lemma gf_row_nth (W j : nat) (y : nat -> gf) : (j < W)%nat -> nth j (gf_row W y) 0 = gfv (y j).
Proof.
  intros Hj. unfold gf_row.
  rewrite (nth_indep _ 0 (gfv (y 0%nat))) by (now rewrite length_map, length_seq).
  rewrite (map_nth (fun j => gfv (y j)) (seq 0 W) 0%nat), seq_nth by assumption.
  reflexivity.
Qed.

Section Cells.
Context {N W : nat}.

Lemma crepr_ext (xss : list (list Z)) (Y Z' : mat) :
  (forall i j, (i < N)%nat -> (j < W)%nat -> Y i j = Z' i j) ->
  crepr N W xss Y -> crepr N W xss Z'.
Proof. intros E [? ? Hg]. constructor; auto. intros. now rewrite Hg, E. Qed.

Lemma crepr_set (xss : list (list Z)) (Y : mat) (i j : nat) (v : gf) :
  crepr N W xss Y -> (i < N)%nat -> (j < W)%nat ->
  crepr N W (set_cell xss i j (gfv v)) (gset Y i j v).
Proof.
  intros [Hl Hr Hg] Hi Hj. unfold set_cell. constructor.
  - now rewrite upd_length.
  - intros i' Hi'. rewrite nth_upd, Hl, (proj2 (Nat.ltb_lt _ _) Hi), andb_true_r.
    destruct (Nat.eqb_spec i' i) as [->|]; [rewrite u8set_length|]; now apply Hr.
  - intros i' j' Hi' Hj'. unfold cell. rewrite nth_upd, Hl, (proj2 (Nat.ltb_lt _ _) Hi).
    rewrite andb_true_r, u8get_nat. unfold gset.
    specialize (Hg i' j' Hi' Hj'). unfold cell in Hg. rewrite u8get_nat in Hg.
    destruct (Nat.eqb_spec i' i) as [->|]; cbn [andb]; [|exact Hg].
    rewrite u8set_nat, gfv_mod, nth_upd, Hr by assumption.
    rewrite (proj2 (Nat.ltb_lt _ _) Hj), andb_true_r.
    destruct (Nat.eqb j' j); [reflexivity|exact Hg].
Qed.

Lemma crepr_eq (xss : list (list Z)) (Y : mat) :
  crepr N W xss Y -> xss = map (fun i => gf_row W (Y i)) (seq 0 N).
Proof.
  intros [Hl Hr Hg]. rewrite <- (map_nth_seq xss []) at 1. rewrite Hl.
  apply map_ext_in. intros i Hi. apply in_seq in Hi.
  apply (nth_ext_eq 0); [rewrite gf_row_length; apply Hr; lia|].
  intros j Hj. rewrite Hr in Hj by lia. rewrite gf_row_nth by assumption.
  rewrite <- Hg by lia. unfold cell. now rewrite u8get_nat.
Qed.

(** The loops of [encode] and [decode] that fill [K] rows byte position by
    byte position. *)
Lemma fill_cells (r0 K : nat) (val : nat -> nat -> Z) (g Y : mat) (xss : list (list Z)) :
  crepr N W xss Y -> (r0 + K <= N)%nat ->
  (forall p j, (p < K)%nat -> (j < W)%nat -> val p j = gfv (g (r0 + p)%nat j)) ->
  crepr N W (for_n W (fun j out => for_n K (fun p out =>
                set_cell out (r0 + p) j (val p j)) out) xss)
    (fun i j => if ((r0 <=? i) && (i <? r0 + K))%nat then g i j else Y i j).
Proof.
  intros H0 HN Hv.
  set (Q := fun k i j => if ((r0 <=? i) && (i <? r0 + K) && (j <? k))%nat
                         then g i j else Y i j).
  apply (crepr_ext _ (Q W)).
  { intros i j _ Hj. unfold Q. now rewrite (proj2 (Nat.ltb_lt _ _) Hj), andb_true_r. }
  apply (for_n_inv (fun k out => crepr N W out (Q k))).
  { apply (crepr_ext _ Y); [|exact H0]. intros i j _ _. unfold Q.
    now rewrite (proj2 (Nat.ltb_ge j 0)), andb_false_r by lia. }
  intros k out Hk Hout.
  set (Q' := fun p i j => if ((r0 <=? i) && (i <? r0 + p) && (j =? k))%nat
                          then g i j else Q k i j).
  apply (crepr_ext _ (Q' K)).
  { intros i j _ _. unfold Q', Q.
    destruct ((r0 <=? i) && (i <? r0 + K))%nat; cbn [andb]; [|reflexivity]. entry_cases. }
  apply (for_n_inv (fun p out => crepr N W out (Q' p))).
  { apply (crepr_ext _ (Q k)); [|exact Hout]. intros i j _ _. unfold Q'.
    replace ((r0 <=? i) && (i <? r0 + 0))%nat with false by bool_lia. reflexivity. }
  intros p out' Hp Hout'. rewrite Hv by assumption.
  apply (crepr_ext _ (gset (Q' p) (r0 + p) k (g (r0 + p)%nat k)));
    [|now apply crepr_set; [|lia|]].
  intros i j _ _. unfold gset, Q'.
  destruct (Nat.eqb_spec i (r0 + p)) as [->|Hne]; cbn [andb].
  - destruct (Nat.eqb_spec j k) as [->|Hj].
    + replace ((r0 <=? r0 + p) && (r0 + p <? r0 + S p) && true)%nat with true by bool_lia.
      reflexivity.
    + now rewrite !andb_false_r.
  - replace ((r0 <=? i) && (i <? r0 + S p))%nat with ((r0 <=? i) && (i <? r0 + p))%nat
      by bool_lia. reflexivity.
Qed.
End Cells.

(** ** The code of a payload *)

Section Codeword.
Variables (M W : nat) (X : mat (F := gf)).

(** Byte [j] of shard [i]: row [i] of the encoding matrix times column [j] of
    the data shards. *)
Definition code_at (i j : nat) : gf := fsum M (fun c => fmul (enc_entry M i c) (X c j)).

Definition codeword (i : nat) : list Z := gf_row W (code_at i).

Lemma code_at_data (i j : nat) : (i < M)%nat -> code_at i j = X i j.
Proof.
  intros Hi. unfold code_at.
  rewrite (fsum_ext _ _ (fun c => fmul (delta i c) (X c j))).
  - now rewrite (fsum_delta M i (fun c => X c j)).
  - intros c _. unfold enc_entry. now rewrite (proj2 (Nat.ltb_lt _ _) Hi).
Qed.

Lemma codeword_data (i : nat) : (i < M)%nat -> codeword i = gf_row W (X i).
Proof.
  intros Hi. unfold codeword, gf_row. apply map_ext. intros j.
  now rewrite code_at_data.
Qed.

(** The code with its shard metadata. *)
Definition code_shard (i : nat) : Shard := mkShard #i (i <? M)%nat (codeword i) None None.

Definition code (P : nat) : list Shard := map code_shard (seq 0 (M + P)).
End Codeword.

(** Byte [j] of data shard [c] of a payload split in blocks of [W] bytes. *)
Definition payload (W : nat) (data : list Z) : mat (F := gf) := fun c j =>
  to_gf (nth (c * W + j) data 0).

Lemma bytes_nth (data : list Z) (i : nat) : bytes data -> 0 <= nth i data 0 < 256.
Proof.
  intros Hb. destruct (Nat.lt_ge_cases i (length data)) as [Hi|Hi].
  - apply is_byte_spec. unfold bytes in Hb. rewrite Forall_forall in Hb.
    apply Hb, nth_In, Hi.
  - rewrite nth_overflow by assumption. lia.
Qed.

Lemma payload_v (W c j : nat) (data : list Z) : bytes data ->
  gfv (payload W data c j) = nth (c * W + j) data 0.
Proof. intros Hb. apply to_gf_v, bytes_nth, Hb. Qed.

Lemma nth_zero_padded (data : list Z) (k i : nat) : nth i (data ++ new_u8 k) 0 = nth i data 0.
Proof.
  destruct (Nat.lt_ge_cases i (length data)) as [Hi|Hi].
  - now rewrite app_nth1.
  - rewrite app_nth2, (nth_overflow data) by assumption. apply nth_repeat.
Qed.

Lemma ceil_div_bound (a b : nat) : (1 <= b)%nat -> (a <= ceil_div a b * b)%nat.
Proof.
  intros Hb. unfold ceil_div.
  pose proof (Nat.div_mod (a + (b - 1)) b ltac:(lia)) as E.
  pose proof (Nat.mod_upper_bound (a + (b - 1)) b ltac:(lia)). nia.
Qed.

Lemma ceil_div_mul (w b : nat) : (1 <= b)%nat -> ceil_div (b * w) b = w.
Proof.
  intros Hb. unfold ceil_div. rewrite (Nat.mul_comm b w), Nat.div_add_l by lia.
  rewrite Nat.div_small by lia. lia.
Qed.

Lemma padAndSplit_repr (data : list Z) (M : nat) : (1 <= M)%nat -> bytes data ->
  crepr M (ceil_div (length data) M) (padAndSplit data M)
    (payload (ceil_div (length data) M) data).
Proof.
  intros HM Hb. pose proof (ceil_div_bound (length data) M HM) as Hc.
  unfold padAndSplit. set (w := ceil_div (length data) M) in *. cbv zeta.
  set (padded := data ++ new_u8 (w * M - length data)).
  assert (Hp : length padded = (w * M)%nat)
    by (unfold padded, new_u8; rewrite length_app, repeat_length; lia).
  assert (Hrow : forall i, (i < M)%nat ->
            nth i (map (fun i => arr_slice (i * w) ((i + 1) * w) padded) (seq 0 M)) []
            = firstn w (skipn (i * w) padded)).
  { intros i Hi. rewrite (nth_indep _ [] (arr_slice (0 * w) ((0 + 1) * w) padded))
      by (now rewrite length_map, length_seq).
    rewrite (map_nth (fun i => arr_slice (i * w) ((i + 1) * w) padded) (seq 0 M) 0%nat).
    rewrite seq_nth by assumption. unfold arr_slice. f_equal. simpl. lia. }
  constructor.
  - now rewrite length_map, length_seq.
  - intros i Hi. rewrite Hrow, length_firstn, length_skipn, Hp by assumption. nia.
  - intros i j Hi Hj. unfold cell. rewrite Hrow, u8get_nat by assumption.
    rewrite nth_firstn, (proj2 (Nat.ltb_lt _ _) Hj), nth_skipn.
    unfold padded. now rewrite nth_zero_padded, payload_v.
Qed.

(** Reading the data shards one after the other gives the payload, padded. *)
Lemma concat_payload (W M : nat) (data : list Z) : bytes data ->
  concat (map (fun i => gf_row W (payload W data i)) (seq 0 M))
  = map (fun k => nth k data 0) (seq 0 (M * W)).
Proof.
  intros Hb. induction M as [|M IH]; [reflexivity|].
  rewrite seq_S, map_app, concat_app, IH. simpl concat. rewrite app_nil_r.
  replace (S M * W)%nat with (M * W + W)%nat by lia. rewrite seq_app, map_app. f_equal.
  cbn [Nat.add].
  apply (nth_ext_eq 0); [now rewrite gf_row_length, length_map, length_seq|].
  intros j Hj. rewrite gf_row_length in Hj. rewrite gf_row_nth by assumption.
  rewrite payload_v by assumption.
  rewrite (nth_indep (map _ _) 0 (nth 0 data 0)) by (now rewrite length_map, length_seq).
  rewrite (map_nth (fun k => nth k data 0) _ 0%nat), seq_nth by assumption.
  reflexivity.
Qed.

Lemma firstn_payload (data : list Z) (n : nat) : (length data <= n)%nat ->
  firstn (length data) (map (fun k => nth k data 0) (seq 0 n)) = data.
Proof.
  intros H. replace n with (length data + (n - length data))%nat by lia.
  rewrite seq_app, map_app, firstn_app, length_map, length_seq, Nat.sub_diag.
  rewrite firstn_O, app_nil_r, firstn_all2 by (rewrite length_map, length_seq; lia).
  apply map_nth_seq.
Qed.

(** ** encode *)

(** The guards of [encode]. *)
Definition params_ok (M P : nat) : Prop := (1 <= M)%nat /\ (1 <= P)%nat /\ (M + P <= 255)%nat.

Lemma encode_guards {A : Type} (M P : nat) (e1 e2 e3 : string) (k : res A) :
  params_ok M P ->
  (throw_if (M <? 1)%nat with e1;; throw_if (P <? 1)%nat with e2;;
   throw_if (GF_SIZE - 1 <? M + P)%nat with e3;; k) = k.
Proof.
  intros (HM & HP & HMP). unfold GF_SIZE.
  rewrite (proj2 (Nat.ltb_ge M 1)), (proj2 (Nat.ltb_ge P 1)), (proj2 (Nat.ltb_ge _ (M + P))) by lia.
  reflexivity.
Qed.

Lemma parity_byte_spec (enc : GFMatrix) (raw : list (list Z)) (M P W p j : nat) (X : mat) :
  grepr (M + P) M enc (enc_entry M) -> crepr M W raw X -> (p < P)%nat -> (j < W)%nat ->
  parity_byte enc raw M p j = gfv (code_at M X (M + p) j).
Proof.
  intros He Hr Hp Hj. unfold parity_byte, code_at. apply gf_dot_loop. intros k Hk.
  split; [apply (gr_get _ _ _ _ He); lia|now apply (cr_get _ _ _ _ Hr)].
Qed.

(** The data shards followed by zeroed parity buffers. *)
Lemma output_buffers (M P w : nat) (raw : list (list Z)) (X : mat) :
  crepr M w raw X ->
  crepr (M + P) w (raw ++ repeat (new_u8 w) P)
    (fun i j => if (i <? M)%nat then X i j else f0).
Proof.
  intros Hraw. pose proof (cr_len _ _ _ _ Hraw) as Hl.
  assert (Hn : forall i, (M <= i)%nat -> (i < M + P)%nat ->
            nth i (raw ++ repeat (new_u8 w) P) [] = new_u8 w).
  { intros i Hi Hi'. rewrite app_nth2, Hl by lia.
    apply (repeat_spec P (new_u8 w)), nth_In. rewrite repeat_length. lia. }
  constructor.
  - rewrite length_app, repeat_length. lia.
  - intros i Hi. destruct (Nat.lt_ge_cases i M) as [Hlt|Hge].
    + rewrite app_nth1 by lia. now apply (cr_row _ _ _ _ Hraw).
    + rewrite Hn by assumption. apply repeat_length.
  - intros i j Hi Hj. unfold cell. destruct (Nat.ltb_spec i M) as [Hlt|Hge].
    + rewrite app_nth1 by lia. now apply (cr_get _ _ _ _ Hraw).
    + rewrite Hn by assumption. rewrite u8get_nat. apply nth_repeat.
Qed.

(** The shard size for a payload. *)
Definition width (data : list Z) (M : nat) : nat := ceil_div (length data) M.

Lemma encode_spec (data : list Z) (M P : nat) : bytes data -> params_ok M P ->
  encode data M P = Ok (code M (width data M) (payload (width data M) data) P).
Proof.
  intros Hb Hp. unfold encode. rewrite encode_guards by assumption.
  destruct Hp as (HM & HP & HMP). cbv zeta.
  pose proof (padAndSplit_repr data M HM Hb) as Hraw. fold (width data M) in Hraw.
  set (raw := padAndSplit data M) in *. set (w := width data M) in *.
  set (X := payload w data) in *.
  destruct (buildEncodingMatrix_repr M P ltac:(lia)) as (enc & -> & He). cbn [res_bind].
  rewrite (cr_row _ _ _ _ Hraw 0) by lia.
  pose proof (output_buffers M P w raw X Hraw) as H0.
  pose proof (fill_cells M P (parity_byte enc raw M) (code_at M X) _ _ H0 (le_n _)) as Hout.
  set (out := for_n w _ _) in *.
  assert (Hc : crepr (M + P) w out (code_at M X)).
  { eapply crepr_ext; [|apply Hout].
    - intros i j Hi Hj. cbv beta. destruct (Nat.ltb_spec i M) as [Hlt|Hge].
      + rewrite code_at_data by assumption.
        now replace ((M <=? i) && (i <? M + P))%nat with false by bool_lia.
      + now replace ((M <=? i) && (i <? M + P))%nat with true by bool_lia.
    - intros p j Hp Hj. now apply (parity_byte_spec enc raw M P w). }
  f_equal. rewrite (cr_len _ _ _ _ Hc). unfold code. apply map_ext_in.
  intros i Hi. apply in_seq in Hi. unfold code_shard. f_equal.
  rewrite (crepr_eq _ _ Hc). unfold codeword.
  rewrite (nth_indep _ [] (gf_row w (code_at M X 0))) by (rewrite length_map, length_seq; lia).
  rewrite (map_nth (fun i => gf_row w (code_at M X i)) _ 0%nat), seq_nth by lia. reflexivity.
Qed.

(** ** decode *)

Lemma Forall_firstn {A : Type} (Q : A -> Prop) (n : nat) (l : list A) :
  Forall Q l -> Forall Q (firstn n l).
Proof. intros H. rewrite <- (firstn_skipn n l) in H. now apply Forall_app in H as [H _]. Qed.

Lemma NoDup_firstn {A : Type} (n : nat) (l : list A) : NoDup l -> NoDup (firstn n l).
Proof. intros H. rewrite <- (firstn_skipn n l) in H. now apply NoDup_app_remove_r in H. Qed.

Section Decode.
Variables (M P W : nat) (X : mat (F := gf)).
Hypothesis HM : (1 <= M)%nat.
Hypothesis HMP : (M + P <= 256)%nat.

(** A shard of the code, whatever its metadata. *)
Definition valid_shard (s : Shard) : Prop :=
  exists i, (i < M + P)%nat /\ s_index s = #i /\ s_data s = codeword M W X i.

Lemma code_valid (i : nat) : (i < M + P)%nat -> valid_shard (code_shard M W X i).
Proof. intros Hi. exists i. auto. Qed.

Definition shard_rows (sel : list Shard) : list nat := map (fun s => Z.to_nat (s_index s)) sel.

Section Selected.
Variable sel : list Shard.
Hypothesis Hlen : length sel = M.
Hypothesis Hval : Forall valid_shard sel.
Hypothesis Hnd : NoDup (map s_index sel).

Lemma shard_rows_index : map s_index sel = map Z.of_nat (shard_rows sel).
Proof.
  unfold shard_rows. rewrite map_map. apply map_ext_in. intros s Hs.
  rewrite Forall_forall in Hval. destruct (Hval s Hs) as (i & _ & E & _).
  rewrite E. now rewrite Nat2Z.id.
Qed.

Lemma shard_rows_length : length (shard_rows sel) = M.
Proof. unfold shard_rows. now rewrite length_map. Qed.

Lemma shard_rows_lt : Forall (fun i => (i < M + P)%nat) (shard_rows sel).
Proof.
  apply Forall_map. eapply Forall_impl; [|exact Hval].
  intros s (i & Hi & E & _). cbv beta. now rewrite E, Nat2Z.id.
Qed.

Lemma shard_rows_NoDup : NoDup (shard_rows sel).
Proof.
  rewrite shard_rows_index in Hnd. eapply NoDup_map_inv. exact Hnd.
Qed.

Lemma shard_data_nth (s : nat) : (s < M)%nat ->
  nth s (map s_data sel) [] = codeword M W X (nth s (shard_rows sel) 0%nat).
Proof.
  intros Hs. set (d := mkShard 0 false (codeword M W X 0) None None).
  rewrite (nth_indep _ [] (s_data d)) by (rewrite length_map; lia).
  rewrite map_nth. unfold shard_rows.
  rewrite (nth_indep (map _ sel) 0%nat (Z.to_nat (s_index d))) by (rewrite length_map; lia).
  rewrite (map_nth (fun s => Z.to_nat (s_index s)) sel d).
  rewrite Forall_forall in Hval.
  destruct (Hval (nth s sel d)) as (i & _ & E & ->); [apply nth_In; lia|].
  now rewrite E, Nat2Z.id.
Qed.

(** The selected rows are inverted. *)
Lemma selected_invert (enc : GFMatrix) :
  grepr (M + P) M enc (enc_entry M) ->
  exists inv B, invert (subsetRows enc (map s_index sel)) = Ok inv /\ grepr M M inv B
    /\ forall r c, (r < M)%nat -> (c < M)%nat ->
       gmul M B (fun r c => enc_entry M (nth r (shard_rows sel) 0%nat) c) r c = delta r c.
Proof.
  intros He. rewrite shard_rows_index.
  pose proof (subsetRows_repr _ _ _ _ _ He shard_rows_lt) as Hs.
  rewrite shard_rows_length in Hs.
  destruct (invert_spec M _ _ Hs) as [H|[_ Hk]]; [exact H|].
  exfalso. apply Hk. apply selected_kernel; [apply shard_rows_length|apply shard_rows_NoDup| |lia].
  eapply Forall_impl; [|apply shard_rows_lt]. intros i. cbv beta. lia.
Qed.

Lemma decoded_byte_spec (inv : GFMatrix) (B : mat) (d j : nat) :
  grepr M M inv B ->
  (forall r c, (r < M)%nat -> (c < M)%nat ->
     gmul M B (fun r c => enc_entry M (nth r (shard_rows sel) 0%nat) c) r c = delta r c) ->
  (d < M)%nat -> (j < W)%nat ->
  decoded_byte inv sel M d j = gfv (X d j).
Proof.
  intros Hi HB Hd Hj. unfold decoded_byte.
  rewrite (gf_dot_loop M _ _ (B d)
             (fun s => code_at M X (nth s (shard_rows sel) 0%nat) j)).
  - f_equal. unfold code_at.
    rewrite (fsum_dot_assoc M M (B d)
               (fun s c => enc_entry M (nth s (shard_rows sel) 0%nat) c) (fun c => X c j)).
    rewrite (fsum_ext _ _ (fun c => fmul (delta d c) (X c j))).
    + now rewrite (fsum_delta M d (fun c => X c j)).
    + intros c Hc. f_equal. now apply HB.
  - intros s Hs. split; [now apply (gr_get _ _ _ _ Hi)|].
    rewrite shard_data_nth, u8get_nat by assumption. now apply gf_row_nth.
Qed.
End Selected.

Lemma decode_spec (sub : list Shard) (osz : option nat) :
  Forall valid_shard sub -> NoDup (map s_index sub) -> (M <= length sub)%nat ->
  let full := concat (map (fun i => gf_row W (X i)) (seq 0 M)) in
  decode sub M P osz = Ok (match osz with Some n => firstn n full | None => full end).
Proof.
  intros Hval Hnd Hlen full. unfold decode.
  rewrite (proj2 (Nat.ltb_ge (length sub) M)) by assumption. cbv zeta.
  pose proof (sort_by_perm s_index sub) as Hperm.
  set (sel := firstn M (sort_by s_index sub)).
  assert (Hsl : length sel = M).
  { unfold sel. rewrite length_firstn, (Permutation_length Hperm). lia. }
  assert (Hsv : Forall valid_shard sel).
  { apply Forall_firstn. now rewrite Hperm. }
  assert (Hsn : NoDup (map s_index sel)).
  { unfold sel. rewrite <- firstn_map. apply NoDup_firstn. now rewrite Hperm. }
  clearbody sel. destruct sel as [|s0 sel'] eqn:Es; [simpl in Hsl; lia|]. rewrite <- Es in *.
  assert (Hw : length (s_data s0) = W).
  { rewrite Es in Hsv. apply Forall_inv in Hsv as (i & _ & _ & ->). apply gf_row_length. }
  rewrite Hw. destruct (buildEncodingMatrix_repr M P HMP) as (enc & -> & He).
  cbn [res_bind].
  destruct (selected_invert sel Hsl Hsv Hsn enc He) as (inv & B & -> & Hinv & HB).
  cbn [res_bind]. f_equal.
  assert (H0 : crepr M W (repeat (new_u8 W) M) (fun _ _ => f0)).
  { apply (crepr_ext _ (fun i j => if (i <? 0)%nat then f0 else f0));
      [intros i j _ _; now destruct (i <? 0)%nat|].
    apply (output_buffers 0 M W [] (fun _ _ => f0)). constructor; [reflexivity|lia..]. }
  assert (Hout : crepr M W (for_n W (fun j out => for_n M (fun d out =>
                   set_cell out d j (decoded_byte inv sel M d j)) out)
                   (repeat (new_u8 W) M)) X).
  { eapply crepr_ext; [|apply (fill_cells 0 M (decoded_byte inv sel M) X _ _ H0 (le_n _))].
    - intros i j Hi _. cbv beta. now rewrite (proj2 (Nat.ltb_lt i (0 + M))) by lia.
    - intros p j Hp Hj. now apply (decoded_byte_spec sel Hsl Hsv inv B). }
  now rewrite (crepr_eq _ X Hout).
Qed.
End Decode.

(** ** The promises of encode and decode *)

Lemma encode_ok_params (data : list Z) (M P : nat) (enc : list Shard) :
  encode data M P = Ok enc -> params_ok M P.
Proof.
  intros H. unfold encode in H.
  destruct (M <? 1)%nat eqn:E1; [discriminate|]. destruct (P <? 1)%nat eqn:E2; [discriminate|].
  destruct (GF_SIZE - 1 <? M + P)%nat eqn:E3; [discriminate|].
  bool_to_prop. unfold params_ok, GF_SIZE in *. lia.
Qed.

Lemma encode_code (data : list Z) (M P : nat) (enc : list Shard) :
  bytes data -> encode data M P = Ok enc ->
  params_ok M P /\ enc = code M (width data M) (payload (width data M) data) P.
Proof.
  intros Hb H. pose proof (encode_ok_params _ _ _ _ H) as Hp. split; [assumption|].
  rewrite encode_spec in H by assumption. congruence.
Qed.

Lemma in_code_valid (M P W : nat) (X : mat) (s : Shard) :
  In s (code M W X P) -> valid_shard M P W X s.
Proof.
  unfold code. rewrite in_map_iff. intros (i & <- & Hi). apply in_seq in Hi.
  apply code_valid. lia.
Qed.

Lemma code_data_shards (M P W : nat) (X : mat) :
  map s_data (firstn M (code M W X P)) = map (fun i => gf_row W (X i)) (seq 0 M).
Proof.
  unfold code. rewrite seq_app, map_app, firstn_app, firstn_all2
    by (rewrite length_map, length_seq; lia).
  rewrite length_map, length_seq, Nat.sub_diag, firstn_O, app_nil_r, map_map.
  apply map_ext_in. intros i Hi. apply in_seq in Hi. apply codeword_data. lia.
Qed.

Lemma decode_payload (data : list Z) (M P : nat) (sub : list Shard) :
  bytes data -> (1 <= M)%nat -> (M + P <= 256)%nat ->
  Forall (valid_shard M P (width data M) (payload (width data M) data)) sub ->
  NoDup (map s_index sub) -> (M <= length sub)%nat ->
  decode sub M P (Some (length data)) = Ok data.
Proof.
  intros Hb HM HMP Hv Hn Hl. rewrite (decode_spec _ _ _ _ HM HMP _ _ Hv Hn Hl).
  rewrite concat_payload by assumption. f_equal. apply firstn_payload.
  rewrite Nat.mul_comm. now apply ceil_div_bound.
Qed.

(** C1: any [M] distinct shards of an encoded payload, data or parity, in any
    order and with whatever further shards, decode to the payload. *)
Theorem decode_any_shards (data : list Z) (M P : nat) (enc sub : list Shard)
    (Hb : bytes data) (Henc : encode data M P = Ok enc)
    (Hsub : incl sub enc) (Hnd : NoDup (map s_index sub)) (Hlen : (M <= length sub)%nat) :
  decode sub M P (Some (length data)) = Ok data.
Proof.
  destruct (encode_code _ _ _ _ Hb Henc) as [(HM & HP & HMP) ->].
  apply decode_payload; [assumption|lia|lia| |assumption..].
  apply Forall_forall. intros s Hs. now apply in_code_valid, Hsub.
Qed.

Lemma decode_any_shards_witness :
  decode [nth 3 demo_shards (mkShard 0 true [] None None);
          nth 1 demo_shards (mkShard 0 true [] None None)] 2 2 (Some 3%nat) = Ok [10; 20; 30].
Proof.
  apply (decode_any_shards [10; 20; 30] 2 2 demo_shards).
  - repeat constructor.
  - vm_compute. reflexivity.
  - intros s [<-|[<-|[]]]; apply nth_In; vm_compute; lia.
  - vm_compute. repeat constructor; simpl; intuition discriminate.
  - simpl. lia.
Defined.

(** [encode] returns for exactly the parameters its guards admit; it then
    gives [M + P] shards numbered from 0, all of size ceil(len / M), and the
    data shards hold the payload unchanged, followed by padding. *)
Theorem encode_outcome (data : list Z) (M P : nat) (Hb : bytes data) :
  (params_ok M P /\ exists enc, encode data M P = Ok enc
     /\ map s_index enc = map Z.of_nat (seq 0 (M + P))
     /\ Forall (fun s => length (s_data s) = ceil_div (length data) M
                         /\ s_isData s = (s_index s <? #M)) enc
     /\ firstn (length data) (concat (map s_data (firstn M enc))) = data)
  \/ (~ params_ok M P /\ exists e, encode data M P = Throw e).
Proof.
  destruct (encode data M P) as [enc|e] eqn:E.
  - left. destruct (encode_code _ _ _ _ Hb E) as [Hp ->]. split; [assumption|].
    eexists. split; [reflexivity|]. destruct Hp as (HM & _ & _). repeat split.
    + unfold code. rewrite map_map. reflexivity.
    + apply Forall_forall. intros s Hs. unfold code in Hs.
      apply in_map_iff in Hs as (i & <- & _). split; [apply gf_row_length|].
      cbn [s_isData s_index code_shard]. bool_lia.
    + rewrite code_data_shards, concat_payload by assumption. apply firstn_payload.
      rewrite Nat.mul_comm. now apply ceil_div_bound.
  - right. split; [|eauto]. intros Hp. rewrite encode_spec in E by assumption. discriminate.
Qed.

Lemma encode_outcome_witness : exists enc, encode [10; 20; 30] 2 2 = Ok enc.
Proof.
  destruct (encode_outcome [10; 20; 30] 2 2) as [(_ & enc & E & _)|[Hn _]].
  - repeat constructor.
  - now exists enc.
  - exfalso. apply Hn. unfold params_ok. lia.
Defined.
