(* ===== verification/ErasureVerify.v ===== *)
(** * ErasureVerify: verifyShards and the distribution of shards

    [verifyShards] re-encodes the payload it derives from the parity shards (or
    from the stored data shards when there are fewer parity than data shards)
    and reports the shards that differ.  [distributeShards], [retrieveShards]
    and their compositions are shown to recover the payload from the nodes that
    still answer, in whatever order the uploads settle. *)

From Stdlib Require Import String ZArith List Lia Bool Permutation Sorting.Sorted.
Import ListNotations.
From S2P Require Import Prelude JsString Algebra GF256 Erasure ErasureMatrix ErasureCode.

Import ErasureGF.
Open Scope list_scope.
Open Scope Z_scope.

(** ** Block copies *)

Lemma u8set_all_length (buf part buf' : list Z) (off : nat) :
  u8set_all buf part off = Ok buf' -> length buf' = length buf.
Proof.
  unfold u8set_all. destruct (_ <? _)%nat; [discriminate|]. intros [= <-].
  apply (for_n_inv (fun _ b => length b = length buf)); [reflexivity|].
  intros i b _ Hb. now rewrite u8set_length.
Qed.

Lemma u8set_all_nth (buf part : list Z) (off : nat) :
  (off + length part <= length buf)%nat -> bytes part ->
  exists buf', u8set_all buf part off = Ok buf' /\ length buf' = length buf /\
    forall k, nth k buf' 0 = if ((off <=? k) && (k <? off + length part))%nat
                             then nth (k - off) part 0 else nth k buf 0.
Proof.
  intros Hl Hb. unfold u8set_all. rewrite (proj2 (Nat.ltb_ge _ _)) by assumption.
  eexists. split; [reflexivity|].
  apply (for_n_inv (fun j b => length b = length buf /\ forall k,
    nth k b 0 = if ((off <=? k) && (k <? off + j))%nat then nth (k - off) part 0
                else nth k buf 0)).
  - split; [reflexivity|]. intros k.
    now replace ((off <=? k) && (k <? off + 0))%nat with false by bool_lia.
  - intros j b Hj [Hlb Hg]. split; [now rewrite u8set_length|]. intros k.
    rewrite u8set_nat, nth_upd, Hlb, (proj2 (Nat.ltb_lt (off + j) (length buf))) by lia.
    rewrite andb_true_r, Hg. destruct (Nat.eqb_spec k (off + j)) as [->|Hne].
    + replace ((off <=? off + j) && (off + j <? off + S j))%nat with true by bool_lia.
      replace (off + j - off)%nat with j by lia.
      apply Z.mod_small, bytes_nth, Hb.
    + now replace ((off <=? k) && (k <? off + S j))%nat
        with ((off <=? k) && (k <? off + j))%nat by bool_lia.
Qed.

Lemma concat_blocks_length (w : nat) (parts : list (list Z)) :
  Forall (fun p => length p = w) parts -> length (concat parts) = (length parts * w)%nat.
Proof. induction 1 as [|p parts Hp H IH]; simpl; [reflexivity|]. rewrite length_app. lia. Qed.

Lemma concat_blocks_nth (w k : nat) (parts : list (list Z)) :
  Forall (fun p => length p = w) parts -> (k < length parts * w)%nat ->
  nth k (concat parts) 0 = nth (k mod w) (nth (k / w) parts []) 0.
Proof.
  intros H. revert k. induction H as [|p parts Hp H IH]; intros k Hk; [simpl in Hk; lia|].
  assert (Hw : w <> 0%nat) by (intros ->; lia). simpl concat.
  destruct (Nat.lt_ge_cases k w) as [Hlt|Hge].
  - rewrite app_nth1, Nat.mod_small, Nat.div_small by lia. reflexivity.
  - rewrite app_nth2, Hp, IH by (simpl in Hk; lia).
    replace k with (1 * w + (k - w))%nat at 3 4 by lia.
    rewrite Nat.div_add_l, Nat.add_comm, Nat.Div0.mod_add by assumption. reflexivity.
Qed.

(** Copying [n] blocks of [w] bytes side by side concatenates them. *)
Lemma fill_blocks_concat (parts : list (list Z)) (w : nat) :
  Forall (fun p => length p = w /\ bytes p) parts ->
  fill_blocks parts (length parts) w = Ok (concat parts).
Proof.
  intros H. unfold fill_blocks.
  assert (Hlen : Forall (fun p => length p = w) parts)
    by (eapply Forall_impl; [|exact H]; now intros p [? _]).
  assert (Hnth : forall i, (i < length parts)%nat -> length (nth i parts []) = w
                    /\ bytes (nth i parts [])).
  { intros i Hi. rewrite Forall_forall in H. apply H, nth_In, Hi. }
  edestruct (res_for_inv (fun i buf => length buf = (length parts * w)%nat /\
      forall k, (k < i * w)%nat -> nth k buf 0 = nth (k mod w) (nth (k / w) parts []) 0)
      (length parts) (fun buf i => u8set_all buf (nth i parts []) (i * w)))
    as (buf & E & Hl & Hg); [| |rewrite E; f_equal].
  - split; [apply repeat_length|]. intros k Hk. lia.
  - intros i buf Hi [Hl Hg]. destruct (Hnth i Hi) as [Hw Hbi].
    destruct (u8set_all_nth buf (nth i parts []) (i * w)) as (buf' & E & Hl' & Hg');
      [rewrite Hw, Hl; nia|exact Hbi|].
    exists buf'. split; [exact E|]. split; [congruence|]. intros k Hk.
    rewrite Hg', Hw. destruct (Nat.lt_ge_cases k (i * w)) as [Hlt|Hge].
    + replace ((i * w <=? k) && (k <? i * w + w))%nat with false by bool_lia. now apply Hg.
    + replace ((i * w <=? k) && (k <? i * w + w))%nat with true by bool_lia.
      assert (Ek : k = (i * w + (k - i * w))%nat) by lia. rewrite Ek at 2 3.
      rewrite Nat.div_add_l, (Nat.add_comm (i * w)), Nat.Div0.mod_add by lia.
      rewrite (Nat.mod_small (k - i * w)), (Nat.div_small (k - i * w)), Nat.add_0_r by lia.
      reflexivity.
  - apply (nth_ext_eq 0); [rewrite Hl; symmetry; now apply concat_blocks_length|].
    intros k Hk. rewrite Hl in Hk. rewrite Hg by assumption.
    symmetry. now apply concat_blocks_nth.
Qed.

Lemma slice_concat_blocks (parts : list (list Z)) (w i : nat) :
  Forall (fun p => length p = w) parts -> (i < length parts)%nat ->
  arr_slice (i * w) ((i + 1) * w) (concat parts) = nth i parts [].
Proof.
  intros H Hi. unfold arr_slice. replace ((i + 1) * w - i * w)%nat with w by lia.
  revert i Hi. induction H as [|p parts Hp H IH]; intros i Hi; [simpl in Hi; lia|].
  simpl concat. destruct i as [|i].
  - simpl. rewrite firstn_app, Hp, Nat.sub_diag, firstn_O, app_nil_r.
    apply firstn_all2. lia.
  - replace (S i * w)%nat with (length p + i * w)%nat by lia.
    rewrite skipn_app, skipn_all2 by lia.
    replace (length p + i * w - length p)%nat with (i * w)%nat by lia.
    simpl. apply IH. simpl in Hi. lia.
Qed.

Lemma gf_row_bytes (W : nat) (y : nat -> gf) : bytes (gf_row W y).
Proof. apply Forall_map, Forall_forall. intros j _. apply is_byte_spec, gf_range. Qed.

(** ** Comparison *)

Lemma differs_spec (d e : list Z) : length d = length e ->
  differs d e = negb (if list_eq_dec Z.eq_dec d e then true else false).
Proof.
  intros Hl. destruct (list_eq_dec Z.eq_dec d e) as [->|Hne]; simpl.
  - unfold differs. apply not_true_iff_false. intros H.
    apply existsb_exists in H as (i & Hi & Hd). apply in_seq in Hi.
    rewrite (nth_error_nth' e 0) in Hd by lia. now rewrite Z.eqb_refl in Hd.
  - apply not_false_iff_true. intros H. apply Hne. apply (nth_ext_eq 0); [assumption|].
    intros i Hi. unfold differs in H.
    pose proof (existsb_false_forall _ _ H i ltac:(apply in_seq; lia)) as Hf. cbv beta in Hf.
    rewrite (nth_error_nth' e 0) in Hf by lia. bool_to_prop. assumption.
Qed.

Section Verify.
Variables (M P W : nat) (X : mat (F := gf)).
Hypothesis Hparams : params_ok M P.

(** Re-encoding the data shards gives the code back. *)
Definition data_rows : list (list Z) := map (fun i => gf_row W (X i)) (seq 0 M).

Lemma data_rows_length : length data_rows = M.
Proof. unfold data_rows. now rewrite length_map, length_seq. Qed.

Lemma data_rows_blocks : Forall (fun p => length p = W /\ bytes p) data_rows.
Proof.
  apply Forall_map, Forall_forall. intros i _. split; [apply gf_row_length|apply gf_row_bytes].
Qed.

Lemma data_rows_widths : Forall (fun p => length p = W) data_rows.
Proof. eapply Forall_impl; [|apply data_rows_blocks]. now intros p [? _]. Qed.

Lemma data_rows_nth (i : nat) : (i < M)%nat -> nth i data_rows [] = gf_row W (X i).
Proof.
  intros Hi. unfold data_rows.
  rewrite (nth_indep _ [] (gf_row W (X 0%nat))) by (now rewrite length_map, length_seq).
  now rewrite (map_nth (fun i => gf_row W (X i)) (seq 0 M) 0%nat), seq_nth.
Qed.

Lemma data_rows_payload (c j : nat) : (c < M)%nat -> (j < W)%nat ->
  payload W (concat data_rows) c j = X c j.
Proof.
  intros Hc Hj. unfold payload.
  rewrite (concat_blocks_nth W) by (apply data_rows_widths || (rewrite data_rows_length; nia)).
  rewrite Nat.div_add_l, (Nat.add_comm (c * W)), Nat.Div0.mod_add by lia.
  rewrite Nat.mod_small, Nat.div_small, Nat.add_0_r, data_rows_nth by assumption.
  rewrite gf_row_nth by assumption. apply to_gf_gfv.
Qed.

Lemma reencode : encode (concat data_rows) M P = Ok (code M W X P).
Proof.
  destruct Hparams as (HM & _ & _).
  assert (Hb : bytes (concat data_rows)).
  { apply Forall_concat. eapply Forall_impl; [|apply data_rows_blocks]. now intros p [_ ?]. }
  rewrite encode_spec by assumption. unfold width.
  rewrite (concat_blocks_length W), data_rows_length, ceil_div_mul
    by (apply data_rows_widths || assumption).
  f_equal. unfold code. apply map_ext. intros i. unfold code_shard. f_equal.
  unfold codeword, gf_row. apply map_ext_in. intros j Hj. apply in_seq in Hj.
  f_equal. unfold code_at. apply fsum_ext. intros c Hc. f_equal.
  apply data_rows_payload; [assumption|lia].
Qed.

(** The stored byte arrays, one per shard. *)
Variable stored : nat -> list Z.
Hypothesis Hstored : forall i, (i < M + P)%nat -> length (stored i) = W.

Definition stored_shard (i : nat) : Shard := mkShard #i (i <? M)%nat (stored i) None None.
Definition stored_shards : list Shard := map stored_shard (seq 0 (M + P)).

Definition corrupted (i : nat) : bool :=
  negb (if list_eq_dec Z.eq_dec (stored i) (codeword M W X i) then true else false).

(** The rows whose shards [verifyShards] trusts. *)
Definition witness_row (i : nat) : bool :=
  if (M <=? P)%nat then ((M <=? i) && (i <? M + M))%nat else (i <? M)%nat.

Hypothesis Hwitness : forall i, witness_row i = true -> stored i = codeword M W X i.

Lemma stored_sorted (k n : nat) : StronglySorted (key_le s_index) (map stored_shard (seq k n)).
Proof.
  revert k. induction n as [|n IH]; intros k; simpl; constructor; [apply IH|].
  apply Forall_map, Forall_forall. intros i Hi. apply in_seq in Hi.
  unfold key_le. simpl. lia.
Qed.

Lemma sort_stored (shards : list Shard) : Permutation shards stored_shards ->
  sort_by s_index shards = stored_shards.
Proof.
  intros Hp. rewrite <- (sort_by_id s_index stored_shards) by apply stored_sorted.
  apply sort_by_perm_eq; [assumption|].
  intros x y Hx Hy E. apply (Permutation_in _ Hp) in Hx, Hy.
  unfold stored_shards in *. apply in_map_iff in Hx as (i & <- & _), Hy as (j & <- & _).
  simpl in E. apply Nat2Z.inj in E. now subst.
Qed.

Lemma filter_stored (f : Shard -> bool) (b : bool) (k n : nat) :
  (forall i, (k <= i < k + n)%nat -> f (stored_shard i) = b) ->
  filter f (map stored_shard (seq k n)) = if b then map stored_shard (seq k n) else [].
Proof.
  revert k. induction n as [|n IH]; intros k H; simpl; [now destruct b|].
  rewrite H, IH by (intros; try apply H; lia). now destruct b.
Qed.

Lemma stored_data : filter s_isData stored_shards = map stored_shard (seq 0 M).
Proof.
  unfold stored_shards. rewrite seq_app, map_app, filter_app.
  rewrite (filter_stored _ true), (filter_stored _ false); [apply app_nil_r|..];
    intros i Hi; simpl; bool_lia.
Qed.

Lemma stored_parity :
  filter (fun s => negb (s_isData s)) stored_shards = map stored_shard (seq M P).
Proof.
  unfold stored_shards. rewrite seq_app, map_app, filter_app.
  rewrite (filter_stored _ false), (filter_stored _ true); [reflexivity|..];
    intros i Hi; simpl; bool_lia.
Qed.

Lemma stored_valid (i : nat) : (i < M + P)%nat -> stored i = codeword M W X i ->
  valid_shard M P W X (stored_shard i).
Proof. intros Hi E. exists i. auto. Qed.

Lemma canonical_some : (M <= P)%nat ->
  canonical_from_parity stored_shards M P W = Some data_rows.
Proof.
  intros HMP. destruct Hparams as (HM & _ & Hb).
  unfold canonical_from_parity. rewrite stored_parity, length_map, length_seq.
  rewrite (proj2 (Nat.leb_le M P)) by assumption.
  assert (Hsel : firstn M (map stored_shard (seq M P)) = map stored_shard (seq M M)).
  { replace P with (M + (P - M))%nat by lia.
    rewrite seq_app, map_app, firstn_app, firstn_all2 by (rewrite length_map, length_seq; lia).
    rewrite length_map, length_seq, Nat.sub_diag, firstn_O. apply app_nil_r. }
  rewrite Hsel, (decode_spec M P W X); [|lia|lia|..].
  - f_equal. fold data_rows.
    assert (Hall : firstn (M * W) (concat data_rows) = concat data_rows).
    { apply firstn_all2. rewrite (concat_blocks_length W), data_rows_length
        by apply data_rows_widths. lia. }
    rewrite Hall. unfold data_rows at 2. apply map_ext_in. intros i Hi. apply in_seq in Hi.
    rewrite slice_concat_blocks by (apply data_rows_widths || (rewrite data_rows_length; lia)).
    now apply data_rows_nth.
  - apply Forall_map, Forall_forall. intros i Hi. apply in_seq in Hi.
    apply stored_valid; [lia|]. apply Hwitness. unfold witness_row.
    rewrite (proj2 (Nat.leb_le M P)) by assumption. bool_lia.
  - rewrite map_map. simpl. apply NoDup_map_inj_on; [intros x y _ _; lia|apply seq_NoDup].
  - rewrite length_map, length_seq. reflexivity.
Qed.

Lemma canonical_none : (P < M)%nat -> canonical_from_parity stored_shards M P W = None.
Proof.
  intros HMP. unfold canonical_from_parity. rewrite stored_parity, length_map, length_seq.
  now rewrite (proj2 (Nat.leb_gt M P)) by assumption.
Qed.

Lemma stored_data_rows : (P < M)%nat ->
  map s_data (sort_by s_index (filter s_isData stored_shards)) = data_rows.
Proof.
  intros HMP. rewrite stored_data, sort_by_id by apply stored_sorted.
  rewrite map_map. unfold data_rows. apply map_ext_in. intros i Hi. apply in_seq in Hi.
  simpl. rewrite Hwitness, codeword_data; [reflexivity|lia|].
  unfold witness_row. rewrite (proj2 (Nat.leb_gt M P)) by assumption. bool_lia.
Qed.

Lemma check_stored (i : nat) (acc : list Z) : (i < M + P)%nat ->
  check_shard (code M W X P) acc (stored_shard i)
  = Ok (if corrupted i then acc ++ [#i] else acc).
Proof.
  intros Hi. unfold check_shard, arr_at. simpl s_index.
  rewrite (proj2 (Z.ltb_ge #i 0)), Nat2Z.id by lia.
  unfold code. rewrite (nth_error_nth' _ (code_shard M W X 0)), (map_nth (code_shard M W X)),
    seq_nth by (rewrite ?length_map, ?length_seq; assumption).
  simpl s_data. rewrite differs_spec by (unfold codeword; now rewrite Hstored, gf_row_length).
  reflexivity.
Qed.

Lemma check_all (k n : nat) (acc : list Z) : (k + n <= M + P)%nat ->
  res_foldl (check_shard (code M W X P)) (map stored_shard (seq k n)) acc
  = Ok (acc ++ map Z.of_nat (filter corrupted (seq k n))).
Proof.
  revert k acc. induction n as [|n IH]; intros k acc Hk; simpl; [now rewrite app_nil_r|].
  rewrite check_stored by lia. simpl. rewrite IH by lia.
  destruct (corrupted k); [|reflexivity]. simpl. now rewrite <- app_assoc.
Qed.

Lemma verify_spec (shards : list Shard) : Permutation shards stored_shards ->
  verifyShards shards M P = Ok (map Z.of_nat (filter corrupted (seq 0 (M + P)))).
Proof.
  intros Hp. destruct Hparams as (HM & _ & Hb).
  unfold verifyShards. rewrite (sort_stored shards Hp).
  assert (Hhd : exists s0 l, stored_shards = s0 :: l /\ length (s_data s0) = W).
  { unfold stored_shards. replace (M + P)%nat with (S (M + P - 1)) by lia.
    exists (stored_shard 0). eexists. split; [reflexivity|]. apply Hstored. lia. }
  destruct Hhd as (s0 & l & Es & Hw). rewrite Es. cbv zeta. rewrite Hw.
  assert (Hin : match canonical_from_parity (s0 :: l) M P W with
      | Some canonicalData => fill_blocks canonicalData M W
      | None =>
          throw_if negb (length (sort_by s_index (filter s_isData (s0 :: l))) =? M)%nat with
            ("Expected " ++ num_str #M ++ " data shards, got "
             ++ num_str #(length (sort_by s_index (filter s_isData (s0 :: l)))))%string;;
          fill_blocks (map s_data (sort_by s_index (filter s_isData (s0 :: l)))) M W
      end = Ok (concat data_rows)).
  { rewrite <- Es. pose proof (fill_blocks_concat data_rows W data_rows_blocks) as Hf.
    rewrite data_rows_length in Hf.
    destruct (Nat.le_gt_cases M P) as [Hle|Hgt]; [now rewrite canonical_some|].
    rewrite canonical_none by assumption. rewrite stored_data_rows by assumption.
    rewrite stored_data, sort_by_id, length_map, length_seq, Nat.eqb_refl by apply stored_sorted.
    exact Hf. }
  rewrite Hin. cbn [res_bind]. rewrite reencode. cbn [res_bind].
  rewrite <- Es. now apply check_all.
Qed.
End Verify.

(** [verifyShards] reports, in increasing order, exactly the shards that
    differ from the code of the payload, as long as the shards it derives the
    payload from are intact: the first [M] parity shards when there are that
    many, the data shards otherwise. *)
Theorem verify_locates (data : list Z) (M P : nat) (stored : nat -> list Z) (shards : list Shard)
    (Hb : bytes data) (Hp : params_ok M P)
    (Hlen : forall i, (i < M + P)%nat -> length (stored i) = width data M)
    (Hwitness : forall i, witness_row M P i = true ->
       stored i = codeword M (width data M) (payload (width data M) data) i)
    (Hshards : Permutation shards (stored_shards M P stored)) :
  verifyShards shards M P
  = Ok (map Z.of_nat (filter (corrupted M (width data M) (payload (width data M) data) stored)
                             (seq 0 (M + P)))).
Proof. now apply verify_spec. Qed.

(** Three bytes in 2 + 2 shards; the first data shard was overwritten. *)
Lemma verify_locates_witness :
  verifyShards (rev (stored_shards 2 2 (fun i =>
    nth i [[10; 21]; [30; 0]; [15; 10]; [9; 12]] []))) 2 2 = Ok [0].
Proof.
  rewrite (verify_locates [10; 20; 30] 2 2
             (fun i => nth i [[10; 21]; [30; 0]; [15; 10]; [9; 12]] [])).
  - vm_compute. reflexivity.
  - repeat constructor.
  - unfold params_ok. lia.
  - intros i Hi. do 4 (destruct i as [|i]; [reflexivity|]). lia.
  - intros i Hi. do 4 (destruct i as [|i]; [try discriminate Hi; vm_compute; reflexivity|]).
    unfold witness_row in Hi. simpl in Hi. discriminate Hi.
  - symmetry. apply Permutation_rev.
Defined.
