(* ===== verification/ErasureNetwork.v ===== *)
(** * ErasureNetwork: distribution over nodes and reconstruction from a manifest

    Uploads settle in any order and nodes may fail at either end; what is
    pinned, and what a later reconstruction returns, does not depend on it. *)

From Stdlib Require Import String ZArith List Lia Bool Permutation Sorting.Sorted.
Import ListNotations.
From S2P Require Import Prelude JsString Algebra GF256 Erasure ErasureMatrix ErasureCode.

Import ErasureGF.
Open Scope list_scope.
Open Scope Z_scope.

Definition inls {A B : Type} (l : list (A + B)) : list A :=
  flat_map (fun p => match p with inl x => [x] | inr _ => [] end) l.
Definition inrs {A B : Type} (l : list (A + B)) : list B :=
  flat_map (fun p => match p with inl _ => [] | inr x => [x] end) l.

Lemma flat_map_map {A B C : Type} (f : B -> list C) (g : A -> B) (l : list A) :
  flat_map f (map g l) = flat_map (fun x => f (g x)) l.
Proof. induction l as [|x l IH]; simpl; [reflexivity|]. now rewrite IH. Qed.

Lemma flat_map_perm {A B : Type} (f : A -> list B) (l l' : list A) :
  Permutation l l' -> Permutation (flat_map f l) (flat_map f l').
Proof.
  induction 1; simpl; [reflexivity|now apply Permutation_app_head| |etransitivity; eassumption].
  rewrite !app_assoc. apply Permutation_app_tail, Permutation_app_comm.
Qed.

Lemma inls_inrs_perm {A B C : Type} (f : A -> C) (g : B -> C) (l : list (A + B)) :
  Permutation (map f (inls l) ++ map g (inrs l))
              (map (fun p => match p with inl x => f x | inr y => g y end) l).
Proof.
  induction l as [|[x|y] l IH]; simpl; [reflexivity|now constructor|].
  rewrite <- IH. symmetry. apply Permutation_middle.
Qed.

Section Distribute.
Variables (aborted : nat -> bool) (shards : list Shard) (nodes : list PinningNode).

Let n := length shards.
Let dflt : Shard := mkShard 0 false [] None None.
Let shard_at (i : nat) : Shard := nth i shards dflt.

(** What position [i] pushes, and where. *)
Definition push_of (i : nat) : Pinned + (Z * string) :=
  if aborted i then inr (s_index (shard_at i), "Aborted"%string)
  else pin_shard nodes i (shard_at i).

Definition pushes (order : list nat) : list (Pinned + (Z * string)) :=
  map push_of (filter aborted (seq 0 n) ++ filter (fun i => negb (aborted i)) order).

Lemma sync_pushes (l : list nat) : (forall i, In i l -> (i < n)%nat) ->
  flat_map (fun i => match nth_error shards i with
    | Some shard => if aborted i then [inr (s_index shard, "Aborted"%string)] else []
    | None => []
    end) l = map push_of (filter aborted l).
Proof.
  induction l as [|i l IH]; intros H; simpl; [reflexivity|].
  rewrite (nth_error_nth' shards dflt) by (apply H; now left).
  rewrite IH by (intros; apply H; now right).
  unfold push_of, shard_at. destruct (aborted i) eqn:E; simpl; [now rewrite E|reflexivity].
Qed.

Lemma async_pushes (l : list nat) : (forall i, In i l -> (i < n)%nat) ->
  flat_map (fun i => match nth_error shards i with
    | Some shard => if aborted i then [] else [pin_shard nodes i shard]
    | None => []
    end) l = map push_of (filter (fun i => negb (aborted i)) l).
Proof.
  induction l as [|i l IH]; intros H; simpl; [reflexivity|].
  rewrite (nth_error_nth' shards dflt) by (apply H; now left).
  rewrite IH by (intros; apply H; now right).
  unfold push_of, shard_at. destruct (aborted i) eqn:E; simpl; [reflexivity|now rewrite E].
Qed.

Lemma distribute_eq (order : list nat) (osz : nat) :
  nodes <> [] -> Permutation order (seq 0 n) ->
  distributeShards aborted order shards nodes osz
  = Ok (mkResult (mkManifest n (length (filter s_isData shards))
          (length (filter (fun s => negb (s_isData s)) shards)) osz
          (sort_by p_index (inls (pushes order)))) (inrs (pushes order))).
Proof.
  intros Hn Ho. unfold distributeShards.
  destruct nodes as [|node nodes'] eqn:En; [contradiction|]. rewrite <- En in *.
  replace (length nodes =? 0)%nat with false by (rewrite En; reflexivity). cbv zeta.
  assert (Hb : forall i, In i order -> (i < n)%nat).
  { intros i Hi. apply (Permutation_in _ Ho), in_seq in Hi. lia. }
  rewrite sync_pushes by (intros i Hi; apply in_seq in Hi; fold n in Hi; lia).
  rewrite async_pushes by exact Hb.
  unfold pushes. rewrite map_app. reflexivity.
Qed.

Lemma filter_both_perm {A : Type} (f : A -> bool) (l : list A) :
  Permutation (filter f l ++ filter (fun x => negb (f x)) l) l.
Proof.
  induction l as [|x l IH]; simpl; [reflexivity|]. destruct (f x); simpl.
  - now constructor.
  - rewrite <- Permutation_middle. now constructor.
Qed.

(** Every position pushes exactly once. *)
Lemma pushes_perm (order : list nat) : Permutation order (seq 0 n) ->
  Permutation (pushes order) (map push_of (seq 0 n)).
Proof.
  intros Ho. unfold pushes. apply Permutation_map.
  rewrite (filter_perm _ _ _ Ho). apply filter_both_perm.
Qed.

Definition push_index (p : Pinned + (Z * string)) : Z :=
  match p with inl x => p_index x | inr y => fst y end.

Lemma push_of_index (i : nat) : push_index (push_of i) = s_index (shard_at i).
Proof.
  unfold push_of, pin_shard. destruct (aborted i); [reflexivity|].
  destruct (nth_error _ _) as [node|]; [|reflexivity].
  destruct (uploadFn node _ _); reflexivity.
Qed.

Lemma pushes_index (order : list nat) : Permutation order (seq 0 n) ->
  Permutation (map push_index (pushes order)) (map s_index shards).
Proof.
  intros Ho. rewrite (Permutation_map _ (pushes_perm order Ho)), map_map.
  rewrite (map_ext _ (fun i => s_index (shard_at i))) by apply push_of_index.
  rewrite <- (map_map shard_at s_index). unfold shard_at, n. now rewrite map_nth_seq.
Qed.

Lemma pinned_index_NoDup (order : list nat) : Permutation order (seq 0 n) ->
  NoDup (map s_index shards) -> NoDup (map p_index (inls (pushes order))).
Proof.
  intros Ho Hn. rewrite <- (pushes_index order Ho) in Hn.
  rewrite <- (inls_inrs_perm p_index fst) in Hn. now apply NoDup_app_remove_r in Hn.
Qed.

(** A pinned entry comes from a successful upload of its shard. *)
Lemma pinned_in (order : list nat) (p : Pinned) : Permutation order (seq 0 n) ->
  In p (inls (pushes order)) ->
  exists i node name, (i < n)%nat /\ In node nodes
    /\ uploadFn node (s_data (shard_at i)) name = Ok (p_cid p)
    /\ p_node p = n_name node /\ p_index p = s_index (shard_at i).
Proof.
  intros Ho Hp. unfold inls in Hp. apply in_flat_map in Hp as ([q|q] & Hq & Hpq);
    [|destruct Hpq]. destruct Hpq as [->|[]].
  apply (Permutation_in _ (pushes_perm order Ho)), in_map_iff in Hq as (i & E & Hi).
  apply in_seq in Hi. unfold push_of, pin_shard in E.
  destruct (aborted i); [discriminate|].
  destruct (nth_error _ _) as [node|] eqn:En; [|discriminate].
  destruct (uploadFn node _ _) as [cid|e] eqn:Eu; [|discriminate].
  injection E as <-. exists i, node. eexists. split; [lia|].
  split; [eapply nth_error_In, En|]. split; [exact Eu|]. now split.
Qed.
End Distribute.

(** whatever the order in which the uploads settle, the manifest is the
    same, and every shard is either pinned in it or reported as failed. *)
Theorem distribute_order_independent (aborted : nat -> bool) (order order' : list nat)
    (shards : list Shard) (nodes : list PinningNode) (osz : nat)
    (Hnodes : nodes <> []) (Hnd : NoDup (map s_index shards))
    (Ho : Permutation order (seq 0 (length shards)))
    (Ho' : Permutation order' (seq 0 (length shards))) :
  exists r r',
    distributeShards aborted order shards nodes osz = Ok r
    /\ distributeShards aborted order' shards nodes osz = Ok r'
    /\ manifest r = manifest r' /\ Permutation (failed r) (failed r')
    /\ Permutation (map p_index (m_shards (manifest r)) ++ map fst (failed r))
                   (map s_index shards).
Proof.
  rewrite !distribute_eq by assumption. do 2 eexists. split; [reflexivity|].
  split; [reflexivity|]. cbn [manifest failed m_shards].
  assert (Hp : Permutation (pushes aborted shards nodes order) (pushes aborted shards nodes order'))
    by (now rewrite !pushes_perm).
  repeat split.
  - f_equal. apply sort_by_perm_eq; [now apply flat_map_perm|].
    now apply NoDup_map_inv', pinned_index_NoDup.
  - now apply flat_map_perm.
  - rewrite sort_by_perm. rewrite <- (pushes_index aborted shards nodes order Ho).
    apply inls_inrs_perm.
Qed.

Definition demo_node (name : string) (up : bool) : PinningNode :=
  mkNode name (fun data nm => if up then Ok nm else Throw "read-only gateway") (fun _ => Throw "").

Lemma distribute_order_independent_witness :
  exists r r',
    distributeShards (fun _ => false) [0; 1; 2; 3]%nat demo_shards [demo_node "a" true; demo_node "b" false] 3 = Ok r
    /\ distributeShards (fun _ => false) [3; 1; 0; 2]%nat demo_shards [demo_node "a" true; demo_node "b" false] 3 = Ok r'
    /\ manifest r = manifest r'.
Proof.
  destruct (distribute_order_independent (fun _ => false) [0; 1; 2; 3]%nat [3; 1; 0; 2]%nat
    demo_shards [demo_node "a" true; demo_node "b" false] 3)
    as (r & r' & E & E' & Em & _).
  - discriminate.
  - vm_compute. repeat constructor; simpl; intuition discriminate.
  - reflexivity.
  - apply NoDup_Permutation.
    + repeat constructor; simpl; intuition discriminate.
    + apply seq_NoDup.
    + intros x. rewrite in_seq. simpl. lia.
  - exists r, r'. auto.
Defined.

(** ** Retrieval *)

Lemma nodeMap_get_in (nodes : list PinningNode) (name : string) (node : PinningNode) :
  nodeMap_get nodes name = Some node -> In node nodes /\ n_name node = name.
Proof.
  intros H. apply find_some in H as [Hin E]. apply String.eqb_eq in E.
  split; [now apply in_rev|assumption].
Qed.

(** The values of the fulfilled results, and how many were rejected. *)
Lemma settled_fold {A B : Type} (f : A -> res B) (l : list A) (ok : list B) (bad : nat) :
  fold_left (fun '(ok, bad) result =>
      match result with Ok s => (ok ++ [s], bad) | Throw _ => (ok, S bad) end)
    (map f l) (ok, bad)
  = (ok ++ flat_map (fun x => match f x with Ok s => [s] | Throw _ => [] end) l,
     (bad + length (filter (fun x => negb (is_ok (f x))) l))%nat).
Proof.
  revert ok bad. induction l as [|x l IH]; intros ok bad; simpl.
  - now rewrite app_nil_r, Nat.add_0_r.
  - destruct (f x); simpl; rewrite IH; f_equal; [now rewrite <- app_assoc|lia].
Qed.

Definition fetched (aborted : bool) (nodes : list PinningNode) (l : list Pinned) : list Shard :=
  flat_map (fun e => match retrieve_entry aborted nodes e with Ok s => [s] | Throw _ => [] end) l.

Definition available (aborted : bool) (nodes : list PinningNode) (m : ShardManifest) : list Pinned :=
  filter (fun e => is_ok (retrieve_entry aborted nodes e)) (m_shards m).

Lemma fetched_length (aborted : bool) (nodes : list PinningNode) (l : list Pinned) :
  length (fetched aborted nodes l)
  = length (filter (fun e => is_ok (retrieve_entry aborted nodes e)) l).
Proof.
  induction l as [|e l IH]; simpl; [reflexivity|].
  destruct (retrieve_entry aborted nodes e); simpl; now rewrite IH.
Qed.

Lemma fetched_index (aborted : bool) (nodes : list PinningNode) (l : list Pinned) :
  map s_index (fetched aborted nodes l)
  = map p_index (filter (fun e => is_ok (retrieve_entry aborted nodes e)) l).
Proof.
  induction l as [|e l IH]; simpl; [reflexivity|].
  destruct (retrieve_entry aborted nodes e) as [s|] eqn:E; simpl; [|assumption].
  rewrite IH. f_equal. unfold retrieve_entry in E. destruct aborted; [discriminate|].
  destruct (nodeMap_get _ _); [|discriminate]. res_inv E. now injection E as <-.
Qed.

Lemma retrieve_spec (m : ShardManifest) (nodes : list PinningNode) (aborted : bool) :
  if (m_dataShards m <=? length (available aborted nodes m))%nat
  then retrieveShards m nodes aborted = Ok (fetched aborted nodes (m_shards m))
  else is_ok (retrieveShards m nodes aborted) = false.
Proof.
  unfold retrieveShards, available. rewrite settled_fold. simpl app.
  fold (fetched aborted nodes (m_shards m)). rewrite fetched_length.
  destruct (Nat.leb_spec (m_dataShards m)
    (length (filter (fun e => is_ok (retrieve_entry aborted nodes e)) (m_shards m)))) as [H|H].
  - now rewrite (proj2 (Nat.ltb_ge _ _) H).
  - now rewrite (proj2 (Nat.ltb_lt _ _) H).
Qed.

(** Content addressing: a node that still answers for the CID that a node of
    the same name returned gives the uploaded bytes. *)
Definition content_addressed (nodes nodes' : list PinningNode) : Prop :=
  forall node node' data name cid data',
    In node nodes -> In node' nodes' -> n_name node = n_name node' ->
    uploadFn node data name = Ok cid -> fetchFn node' cid = Ok data' -> data' = data.

Lemma fetched_valid (aborted : nat -> bool) (aborted' : bool) (order : list nat)
    (shards : list Shard) (nodes nodes' : list PinningNode) (M P W : nat) (X : mat) :
  content_addressed nodes nodes' -> Permutation order (seq 0 (length shards)) ->
  Forall (valid_shard M P W X) shards ->
  Forall (valid_shard M P W X)
    (fetched aborted' nodes' (sort_by p_index (inls (pushes aborted shards nodes order)))).
Proof.
  intros Hca Ho Hv. apply Forall_forall. intros s Hs. unfold fetched in Hs.
  apply in_flat_map in Hs as (e & He & Hs).
  apply (Permutation_in _ (sort_by_perm p_index _)) in He.
  apply pinned_in in He as (i & node & name & Hi & Hnode & Hup & Hname & Hidx); [|assumption].
  destruct (retrieve_entry aborted' nodes' e) as [s'|] eqn:E; [|destruct Hs].
  destruct Hs as [->|[]]. unfold retrieve_entry in E. destruct aborted'; [discriminate|].
  destruct (nodeMap_get nodes' (p_node e)) as [node'|] eqn:En; [|discriminate].
  apply nodeMap_get_in in En as [Hin' Hname']. res_inv E. injection E as <-.
  rewrite Forall_forall in Hv.
  destruct (Hv (nth i shards (mkShard 0 false [] None None))) as (k & Hk & Ei & Ed);
    [now apply nth_In|].
  exists k. split; [assumption|]. cbn [s_index s_data]. split; [congruence|].
  rewrite <- Ed. eapply Hca; [exact Hnode|exact Hin'|congruence|exact Hup|eassumption].
Qed.

Lemma code_isData_count (M P W : nat) (X : mat) :
  length (filter s_isData (code M W X P)) = M.
Proof.
  unfold code. rewrite seq_app, map_app, filter_app, length_app.
  assert (H : forall k n, length (filter s_isData (map (code_shard M W X) (seq k n)))
                          = (Nat.min M (k + n) - k)%nat).
  { intros k n. revert k. induction n as [|n IH]; intros k; simpl; [lia|].
    destruct (Nat.ltb_spec k M); simpl; rewrite IH; lia. }
  rewrite !H. lia.
Qed.

(** C4: after [encodeAndDistribute], with uploads settling in any order and
    some of them failing, [reconstructFromManifest] returns the payload as soon
    as [M] of the pinned shards can be fetched, and throws otherwise. *)
Theorem distribute_reconstruct (data : list Z) (cfg : ShardConfig)
    (aborted : nat -> bool) (aborted' : bool) (order : list nat)
    (nodes nodes' : list PinningNode) (r : DistributionResult)
    (Hb : bytes data)
    (Ho : Permutation order (seq 0 (dataShards cfg + parityShards cfg)))
    (Hca : content_addressed nodes nodes')
    (Hr : encodeAndDistribute aborted order data cfg nodes = Ok r) :
  if (dataShards cfg <=? length (available aborted' nodes' (manifest r)))%nat
  then reconstructFromManifest (manifest r) nodes' aborted' = Ok data
  else is_ok (reconstructFromManifest (manifest r) nodes' aborted') = false.
Proof.
  unfold encodeAndDistribute in Hr. apply res_bind_ok in Hr as (enc & Henc & Hr).
  destruct (encode_code _ _ _ _ Hb Henc) as [(HM & HP & HMP) Ec].
  set (M := dataShards cfg) in *. set (P := parityShards cfg) in *.
  set (W := width data M) in *. set (X := payload W data) in *.
  assert (Hlen : length enc = (M + P)%nat) by (rewrite Ec; unfold code; now rewrite length_map, length_seq).
  assert (Hnodes : nodes <> []) by (intros ->; discriminate Hr).
  rewrite <- Hlen in Ho. rewrite distribute_eq in Hr by assumption.
  injection Hr as <-. cbn [manifest].
  set (l := sort_by p_index _). set (m := mkManifest _ _ _ _ l).
  assert (Hm : m_dataShards m = M) by (unfold m; cbn; rewrite Ec; apply code_isData_count).
  assert (HmP : m_parityShards m = P).
  { unfold m; cbn. pose proof (filter_length_split s_isData enc) as Hs.
    rewrite Ec in Hs at 1. rewrite code_isData_count in Hs. lia. }
  pose proof (retrieve_spec m nodes' aborted') as Hret. rewrite Hm in Hret.
  unfold reconstructFromManifest. rewrite Hm, HmP.
  destruct (M <=? length (available aborted' nodes' m))%nat eqn:El.
  - rewrite Hret. cbn [res_bind]. apply decode_payload; [assumption|lia|lia|..].
    + apply fetched_valid; [assumption..|]. rewrite Ec. apply Forall_forall.
      intros s Hs. now apply in_code_valid.
    + change (m_shards m) with l. rewrite fetched_index.
      apply (NoDup_map_filter p_index). unfold l. rewrite sort_by_perm.
      apply pinned_index_NoDup; [assumption|]. rewrite Ec. unfold code.
      rewrite map_map. apply NoDup_map_inj_on; [intros x y _ _; simpl; lia|apply seq_NoDup].
    + rewrite fetched_length. now apply Nat.leb_le in El.
  - destruct (retrieveShards m nodes' aborted'); [discriminate Hret|reflexivity].
Qed.

(** A node backed by a fixed table from names to contents, for the examples. *)
Definition table_node (table : list (string * list Z)) (name : string) (up : bool) : PinningNode :=
  mkNode name
    (fun data nm =>
       if up && existsb (fun e => String.eqb (fst e) nm
                                  && if list_eq_dec Z.eq_dec (snd e) data then true else false) table
       then Ok nm else Throw "upload failed")
    (fun cid => match find (fun e => String.eqb (fst e) cid) table with
                | Some e => Ok (snd e)
                | None => Throw "not found"
                end).

Lemma table_nodes_content_addressed (table : list (string * list Z)) (nodes : list PinningNode) :
  NoDup (map fst table) ->
  (forall node, In node nodes -> exists name up, node = table_node table name up) ->
  content_addressed nodes nodes.
Proof.
  intros Hn Hall node node' data name cid data' Hin Hin' _ Hup Hfetch.
  destruct (Hall node Hin) as (a & up & ->), (Hall node' Hin') as (b & up' & ->).
  cbn in Hup, Hfetch. destruct (up && _) eqn:E; [|discriminate]. injection Hup as <-.
  apply andb_true_iff in E as [_ E]. apply existsb_exists in E as (e & He & E).
  destruct (list_eq_dec Z.eq_dec (snd e) data) as [Ed|]; [|now rewrite andb_false_r in E].
  rewrite andb_true_r in E. apply String.eqb_eq in E.
  destruct (find _ table) as [e'|] eqn:Ef; [|discriminate]. injection Hfetch as <-.
  apply find_some in Ef as [He' E']. apply String.eqb_eq in E'.
  rewrite <- Ed. f_equal. apply (NoDup_map_inv' fst table Hn); [assumption..|congruence].
Qed.

Definition demo_table : list (string * list Z) :=
  [("shard-0-data", [10; 20]); ("shard-1-data", [30; 0]);
   ("shard-2-parity", [15; 10]); ("shard-3-parity", [9; 12])]%string.

(** Node [b] refuses every upload: two of the four shards are pinned. *)
Definition demo_nodes : list PinningNode :=
  [table_node demo_table "a" true; table_node demo_table "b" false].

Lemma distribute_reconstruct_witness :
  exists r, encodeAndDistribute (fun _ => false) [2; 0; 3; 1]%nat [10; 20; 30] (mkConfig 2 2) demo_nodes
            = Ok r
    /\ reconstructFromManifest (manifest r) demo_nodes false = Ok [10; 20; 30].
Proof.
  destruct (encodeAndDistribute (fun _ => false) [2; 0; 3; 1]%nat [10; 20; 30] (mkConfig 2 2) demo_nodes)
    as [r|e] eqn:E; [|vm_compute in E; discriminate E].
  exists r. split; [reflexivity|].
  assert (Ho : Permutation [2; 0; 3; 1]%nat (seq 0 (2 + 2))).
  { apply NoDup_Permutation; [repeat constructor; simpl; intuition discriminate|apply seq_NoDup|].
    intros x. rewrite in_seq. simpl. lia. }
  assert (Hca : content_addressed demo_nodes demo_nodes).
  { apply (table_nodes_content_addressed demo_table).
    - repeat constructor; simpl; intuition discriminate.
    - intros node [<-|[<-|[]]]; do 2 eexists; reflexivity. }
  assert (Hb : bytes [10; 20; 30]) by repeat constructor.
  pose proof (distribute_reconstruct [10; 20; 30] (mkConfig 2 2) (fun _ => false) false
    [2; 0; 3; 1]%nat demo_nodes demo_nodes r Hb Ho Hca E) as H.
  vm_compute in E. injection E as <-. vm_compute in H. vm_compute. exact H.
Defined.
